(* ===== verification/_CoqProject ===== *)
-Q . S2P
Prelude.v
Programs.v
Bytes.v
Text.v
Tables.v
Digest.v
Merkle.v
Canonical.v
Chain.v
Checkpoint.v
AuditLog.v
ObjectLock.v
CoreTypes.v
Keys.v
Catalog.v
Commands.v
CatalogInv.v
CatalogSteps.v
CatalogUploads.v
CatalogMultipart.v
Reachable.v
CatalogPayloads.v
CatalogTheorems.v
Worm.v
ObjectTheorems.v
Listing.v
ListingTheorems.v
ServiceList.v
Auth.v
AuthSteps.v
AuthTheorems.v
Topology.v
Replicas.v
ClusterCatalog.v
ClusterInv.v
ClusterPlacements.v
ClusterTasks.v
ClusterTheorems.v
Placement.v
PlacementTheorems.v
Balance.v
BalanceTheorems.v
CatalogTypes.v
Consensus.v
Snapshot.v
ConsensusTheorems.v
Replicated.v
Members.v
MembersTheorems.v
LogStore.v
SnapshotFiles.v
Names.v
Limiter.v
Origin.v
Cors.v
Capability.v
CapabilityStore.v
CapabilityInv.v
Sharing.v
SharingSteps.v
SharingTheorems.v
ProofBundle.v
ProofBundleTheorems.v
Payload.v
PayloadTheorems.v
Disk.v
LocalStore.v
StoreRuns.v
StoreContent.v
StoreInv.v
StoreSound.v
StoreSafety.v
StoreTheorems.v
Service.v
ServiceTheorems.v
Lifecycle.v
LifecycleTheorems.v
