(* ===== verification/Prelude.v ===== *)
(** * Record Store: a verification development

    Record Store is an S3-compatible object store written in Rust. Its state is
    split between payload files, which hold bytes, and embedded databases
    (redb): the metadata catalog, in which buckets, versions, locks, uploads and
    usage live; the audit log, a hash chain with Merkle checkpoints; the credential
    store; and, in a cluster, the cluster catalog with nodes, payload placements and
    replica tasks. This development models these databases, the rules they enforce,
    the decisions taken from them and the proofs they hand out, and shows that they
    keep their promises.

    ** How the parts interact

    A request reaches the service layer, which writes the payload, mints random
    identifiers and sends one [MetadataCommand] to the catalog's writer thread.
    The writer applies whatever has queued in one transaction; in a cluster the
    same command comes out of the replicated log. A command reads and writes the
    catalog's tables, asks the Object Lock rules whether a version may go, keeps
    per-bucket usage and global counters, queues payloads nobody refers to any
    more for deletion, and journals the storage events it owes. Independently,
    security-relevant actions are appended to the audit log, whose writer works
    the same way; checkpoints commit to ranges of that log. Requests are signed with
    keys of the credential store and allowed by policies attached to the account.

    In a cluster, [ClusterCommand]s change the cluster catalog. A write asks
    placement for devices, given the topology read from the catalog; the failure
    detector and operators move nodes between states; the coordinator enqueues
    repairs, moves and deletions as tasks, which workers claim under a fence and
    report on; a node leaves once the decommission check and the catalog agree.

    The local storage engine stages an upload in a temporary file, moves it into
    place and only then commits its version; a crash is repaired at start-up. The
    sharing service gives out links to single objects. The lifecycle worker expires
    objects and versions by rules. Proof bundles state what the audit log holds
    about one version and are checked without access to the deployment.

    ** The files

    Shared:
    - [Prelude] (this file): results, transactions ([tx], a state monad whose
      errors keep the state, and [atomically], which drops it), frames
      ([keeps]), machine integers, tactics.
    - [Programs]: operations that call other components, as trees of calls; their
      traces and what they promise whatever they are answered.
    - [Bytes]: byte strings, big-endian integers, the order of keys.
    - [Text]: UTF-8, decimal numbers and other text functions of the standard library.
    - [Tables]: redb tables as finite maps with ordered scans; sums over tables; in
      [GroupCommit] the writer loop both databases share, in [Paging] following the
      markers of a paged read, for any reader.

    Audit log ([crates/record-store-audit/src]):
    - [Digest]: SHA-256 as an interface ([HashFunction]), with an executable
      instance for witnesses.
    - [Canonical]: [canonical.rs], the bytes of an event that are hashed.
    - [Chain]: [chain.rs], record hashes and links.
    - [Merkle]: [merkle.rs], trees, inclusion paths, offline verification.
    - [Checkpoint]: [checkpoint.rs].
    - [AuditLog]: [lib.rs], the repository: append, batching, query, and
      [verify_chain].

    Metadata catalog ([crates/record-store-metadata/src]) and the core types
    ([crates/record-store-core/src]):
    - [ObjectLock]: [object_lock.rs], retention and legal hold.
    - [CoreTypes]: [object.rs], [quota.rs], [durability.rs], [range.rs],
      [lifecycle.rs], [mutation_event.rs], [checksum.rs].
    - [Keys]: [keys.rs], row keys and prefix ranges.
    - [Catalog]: [schema.rs], [types.rs], [error.rs] and [tx.rs]; the record
      [Catalog] has one field per table, under the table's name.
    - [Commands]: [commands.rs], one definition per command, [apply_command_tx];
      [commit_one] and [commit_batch] of [redb_store.rs].
    - [CatalogInv], [CatalogSteps], [CatalogUploads], [CatalogMultipart]: the
      invariant [Inv] and, command by command, that it is kept.
    - [Reachable]: the catalogs that runs of commands lead to; in [Frames] what
      commands leave alone, also when they fail; in [Samples] concrete runs.
    - [CatalogPayloads]: the payload files a catalog refers to, their ownership, and
      how a command changes both.
    - [CatalogTheorems], [Worm], [ObjectTheorems]: the theorems.
    - [Names], [Cors]: [names.rs], [preview.rs] and [cors.rs].
    - [Listing], [ListingTheorems]: the reads of [redb_store.rs] and what their
      pages add up to.
    - [ServiceList]: the delimiter listing of [crates/record-store-service/src/admin.rs].

    Credentials ([crates/record-store-auth/src]):
    - [Auth]: the store's operations, policy evaluation and signing secrets.
    - [AuthSteps]: interleaved requests; operations of two transactions take two steps.
    - [AuthTheorems]: the theorems.

    Cluster ([crates/record-store-cluster/src]):
    - [Topology]: [device.rs], [config.rs], [policy.rs], [version.rs], [topology.rs].
    - [Replicas]: [replica.rs], [tasks.rs], [credentials.rs].
    - [ClusterCatalog]: [command.rs] and [catalog/]: one definition per command,
      [ClusterCatalog.apply_command_tx], and the reads of [store.rs].
    - [ClusterInv], [ClusterPlacements], [ClusterTasks]: runs of commands and three
      invariants, of members, of placements with their index and counters, of tasks
      with their queue; each with a frame for commands that leave its tables alone;
      in [ClusterSamples] executable runs for witnesses.
    - [ClusterTheorems]: the theorems of the catalog.
    - [Placement], [PlacementTheorems]: [placement.rs].
    - [Balance], [BalanceTheorems]: [rebalance.rs] and [health.rs].

    Consensus ([crates/record-store-consensus/src]):
    - [CatalogTypes]: rows of both catalogs keep their types.
    - [Consensus]: [command.rs] and the state machine of [state_machine.rs].
    - [Snapshot]: [snapshot.rs] of both catalogs.
    - [ConsensusTheorems]: writes as single commands; invariants of members.
    - [Replicated]: proposing writes, of [consensus.rs] and [repository.rs].
    - [Members], [MembersTheorems]: members over a committed log, with snapshots; in
      [SampleJson] an injective encoding of rows for witnesses.
    - [LogStore]: [log_store.rs] and the abstract log it refines.
    - [SnapshotFiles]: publishing snapshot files under crashes.

    Sharing ([crates/record-store-sharing/src]):
    - [Limiter], [Origin], [Capability]: rate limits, allowed origins, links with
      their tokens, passwords and tickets.
    - [CapabilityStore], [CapabilityInv]: the store of links and its invariant.
    - [Sharing], [SharingSteps], [SharingTheorems]: the service, its transactions
      interleaved, the theorems.

    Proof bundles ([crates/record-store-proof/src]): [ProofBundle],
    [ProofBundleTheorems].

    Storage engine ([crates/record-store-storage/src]):
    - [Payload], [PayloadTheorems]: [encryption.rs] and [integrity.rs], the bytes of a
      payload file and how they are read back.
    - [Disk]: files and directories under crashes.
    - [LocalStore]: [local_store.rs] and [maintenance.rs], every operation a program.
    - [StoreRuns]: requests in progress, interleaved, failing, abandoned and crashed.
    - [StoreContent], [StoreInv], [StoreSound], [StoreSafety]: what every run keeps.
    - [StoreTheorems]: one upload alone; concrete runs.

    Service layer ([crates/record-store-service/src]): [Service], [ServiceTheorems].
    Lifecycle worker ([crates/record-store-lifecycle/src]): [Lifecycle],
    [LifecycleTheorems]. Both are programs over the calls of the storage engine and
    the audit log.

    ** What is shown

    Catalog. Every reachable catalog is consistent ([catalog_consistent]); usage
    rows and counters are exact and 64-bit arithmetic on them never wraps
    ([accounting_exact]); the bytes of all versions and unfinished uploads stay
    within the byte limit ([byte_quota_respected]); the event journal is gapless and
    append-only; batching is unobservable; writes and deletes have exactly the effect S3
    versioning asks for ([put_object_effect], [delete_object_effect],
    [delete_version_effect]); recovery of interrupted uploads terminates with
    nothing left behind ([recovery_completes]).

    Object Lock. The rules alone never release a compliance retention
    ([compliance_retention_final]); through every command of the catalog a
    version under a compliance retention or a legal hold stays, unchanged
    ([compliance_worm], [legal_hold_worm]); the observed clock never goes back.

    Audit. The writer refines a list of events ([audit_writer_refines]); a
    verified chain whose head is known can only be the recorded one
    ([verify_chain_tamper_evident]), and every log the writer produces verifies;
    pages of a query cover the log; canonical bytes are injective; inclusion
    paths are complete and sound, and roots and checkpoint hashes are binding.

    Listings. Following the markers of the version, upload and payload listings and
    of the delimiter listing returns everything once and in order, and ends.

    Credentials. Authorization allows exactly what an attached policy allows and none
    denies, after any interleaving of requests ([authorize_decides]); a withdrawn
    account signs nothing ([withdrawn_account_cannot_sign]) and an issued credential
    works until then ([issued_credential_works]).

    Cluster catalog. Reports are exact ([cluster_usage_exact]); while placements are
    written with care ([careful]) a node is forgotten exactly when nothing is owed by
    it ([forget_node_exact]) and deletions wait for all holders
    ([deletion_waits_for_holders]), and examples show what happens otherwise; a
    worker that lost its claim changes nothing ([stale_worker_fenced]); the queue is
    in order; member identifiers are not reused; decommissioning is
    final; join tokens admit no more nodes than issued for.

    Placement and health. Plans are sound ([place_sound]) and refused exactly when
    they must be ([place_accepts]); the choice does not depend on the deciding node,
    and a new device only attracts data; explanations are faithful; rebalancing moves
    go from full to empty devices; a removal called safe is safe for payloads with
    one replica on the node; failure detection settles.

    Consensus. A log entry takes effect as a whole or not at all
    ([entry_all_or_nothing]); members at the same position hold the same tables,
    however they came there ([members_agree]), of the declared types
    ([replicated_types]), reachable by commands ([members_reachable]); a snapshot
    gives back both catalogs ([snapshot_roundtrip]) and its publication survives a
    crash anywhere ([snapshot_survives_crash]); the log store is a list with a purged
    prefix ([log_store_refines]); a proposed command answers as on a standalone node,
    for the errors the classification knows ([replicated_answers]); and the refusals
    that stop every member are exactly known ([refusal_stops_cluster],
    [metadata_stops_on_counters]).

    Storage engine. Whatever requests interleave, fail, are abandoned or crash, every
    payload the catalog refers to can be read back as recorded
    ([committed_payloads_survive]), belongs to one version or part and is not queued
    for deletion ([payloads_owned]); an encrypted payload reads back over any range
    ([encrypted_payload_roundtrip]) and a changed one is detected
    ([changed_payload_detected]); an upload alone can be read back
    ([put_get_roundtrip]) and a refused one leaves nothing.

    Sharing. An access limit is a ceiling under any interleaving
    ([share_budget_is_ceiling]), revocation is final ([revocation_is_final]), guesses of
    a password are bounded ([password_guesses_bounded]).

    Proofs. A bundle that verifies is the deployment's and about the file at hand
    ([verified_bundle_authentic]), and its history quotes the log
    ([verified_history_quotes_log]).

    Service and lifecycle. A governance bypass is recorded before it is exercised
    ([bypass_announced_first]); the lifecycle worker acts on what a listing for an
    enabled rule returned, and announces it ([expiries_are_justified]).

    Some theorems record where the code differs from its documentation: an
    object-count limit that promotion ignores, a byte limit that counts
    non-current versions, an inclusion path whose index is not authenticated, a
    length prefix that saturates, a stripped record reported as intact, a listing
    marker that widens the prefix; and in the cluster, a requeue that is not fenced, a
    cancelled task still counted, deletion tasks that collapse into one, a refusal
    that overcounts domains, a removal check that sees one replica per node; and in
    consensus, refusals taken for failures of the database, errors that lose their
    kind, an empty range that reads an entry; and in the storage engine and its
    clients, concurrent completions that lose a payload, an online repair that removes
    an upload, an expiry of an object that was replaced.

    ** Conventions

    Times are nanoseconds since the epoch and [micros] the microseconds the
    code stores; a UUID is its sixteen bytes; a string is its UTF-8 bytes. [u64]
    arithmetic is written at its width: plain operators wrap, [checked_]
    variants return an option, [saturating_] ones clamp. A row holds the decoded
    value where the database holds JSON. Libraries are interfaces: SHA-256
    ([HashFunction]) and version 5 UUIDs ([UuidCrate]) are class arguments, and
    theorems that need the hash not to collide say so of the preimages hashed.
    What the catalog's theorems assume of its callers is [command_ok]: arguments
    are values of their Rust types and the identifier of a new version has not been
    used. That payloads are new is not assumed of the catalog's callers: it is proved of
    the storage engine, which starts from identifiers drawn at random. Of the cluster
    catalog it is [cluster_ok], that commands are well formed, and [fits], that counters
    stay within [u64]. What the cluster catalog leaves to its proposers, and they do not
    always keep, are hypotheses of the theorems that need it: [careful], that a
    placement is not written over a recorded deletion and drops no replica and only
    completed deletions are purged, and [orderly], that tasks are put back and cancelled
    only while outstanding. AES-GCM and HKDF are interfaces too, and
    so is the race score of placement, a floating-point logarithm ([RaceScore], its
    position in the total order of scores), the JSON of rows and snapshots
    ([RowJson], [ClusterRowJson], [SnapshotJson], [PointerJson]: what is written is
    read back) and the Raft engine. A member is an inductive relation over a committed
    log: what the engine promises is that members apply its entries in order and
    install only snapshots ahead of them. An operation reads the clock once;
    overflow of the date library is modelled only where the code handles it.

    Fuel: the Merkle loops recurse on fuel equal to the number of leaves, or to
    64 for loops over a [u64] that is halved in each round; the verification of the
    audit chain on the limit of records it was given; the payload streams on the
    number of bytes or of chunks left; the delimiter listing on the number of rows;
    decimal numbers on 20 digits, those of a [u64]. Each is shown to end before the
    fuel does where a theorem depends on it. The clean-up rounds of a start-up take the
    number of rounds as an argument, for all values of which the safety theorems hold;
    an inspection makes one page more than the entries it may read. The other
    recursions are structural.

    ** What is not modelled

    Failures of the database files, JSON coding, schema migrations and threads; the
    Raft algorithm, membership changes and recovery of a lost quorum; network I/O,
    replication between nodes and the stores of several devices; HTTP, XML and RPC
    handlers and the signature of S3 requests; event delivery; erasure coding, which no
    other part uses; configuration; the command line; the console. Of the cluster also
    the node identity file and a few reads of [store.rs]; of the service layer the
    retention report, metrics and admission. *)

From Stdlib Require Export ZArith Lia.
From stdpp Require Export base gmap sets strings sorting numbers option.
From stdpp Require Export list fin_maps.

#[global] Open Scope Z_scope.

(** ** Proof automation of the development *)

Create HintDb rs.

(** Destructs every [match] and [if] scrutinee found in a hypothesis. *)
Ltac break_in H :=
  repeat match type of H with
  | context [match ?x with _ => _ end] => destruct x eqn:?; try discriminate H
  end.

(** Destructs the first [match] scrutinee of the goal. *)
Ltac break_goal :=
  match goal with
  | |- context [match ?x with _ => _ end] => destruct x eqn:?
  end.

(** Boolean tests to propositions, in every hypothesis. *)
Ltac bool_facts :=
  repeat match goal with
  | H : andb _ _ = true |- _ => apply andb_true_iff in H as [? ?]
  | H : orb _ _ = false |- _ => apply orb_false_iff in H as [? ?]
  | H : negb _ = true |- _ => apply negb_true_iff in H
  | H : negb _ = false |- _ => apply negb_false_iff in H
  | H : (_ <=? _)%Z = true |- _ => apply Z.leb_le in H
  | H : (_ <=? _)%Z = false |- _ => apply Z.leb_gt in H
  | H : (_ <? _)%Z = true |- _ => apply Z.ltb_lt in H
  | H : (_ <? _)%Z = false |- _ => apply Z.ltb_ge in H
  | H : (_ =? _)%Z = true |- _ => apply Z.eqb_eq in H
  | H : (_ =? _)%Z = false |- _ => apply Z.eqb_neq in H
  | H : bool_decide _ = true |- _ => apply bool_decide_eq_true in H
  | H : bool_decide _ = false |- _ => apply bool_decide_eq_false in H
  end.

(** ** Results: Rust's [Result<A, E>] *)

Inductive result (E A : Type) : Type :=
| Ok (a : A)
| Err (e : E).
Arguments Ok {E A} _.
Arguments Err {E A} _.

#[export] Instance result_eq_dec E A `{EqDecision E, EqDecision A} : EqDecision (result E A).
Proof. solve_decision. Defined.

#[export] Instance result_ret E : MRet (result E) := λ A a, Ok a.
#[export] Instance result_bind E : MBind (result E) :=
  λ A B f r, match r with Ok a => f a | Err e => Err e end.
#[export] Instance result_fmap E : FMap (result E) :=
  λ A B f r, match r with Ok a => Ok (f a) | Err e => Err e end.

Definition is_ok {E A} (r : result E A) : bool :=
  match r with Ok _ => true | Err _ => false end.

Definition map_err {E F A} (f : E → F) (r : result E A) : result F A :=
  match r with Ok a => Ok a | Err e => Err (f e) end.

Definition ok_or {E A} (e : E) (o : option A) : result E A :=
  match o with Some a => Ok a | None => Err e end.

(** [Option<Result<A,E>>::transpose]. *)
Definition transpose {E A} (o : option (result E A)) : result E (option A) :=
  match o with
  | None => Ok None
  | Some (Ok a) => Ok (Some a)
  | Some (Err e) => Err e
  end.

Lemma result_bind_ok {E A B} (f : A → result E B) (r : result E A) b :
  r ≫= f = Ok b ↔ ∃ a, r = Ok a ∧ f a = Ok b.
Proof. destruct r; simpl; naive_solver. Qed.

Lemma ok_or_ok {E A} (e : E) (o : option A) a : ok_or e o = Ok a ↔ o = Some a.
Proof. destruct o; simpl; naive_solver. Qed.

(** ** Transactions: computations over a store that may fail

    A transaction step returns its [Result] together with the store it leaves
    behind, also when it fails: a write transaction that returns an error has
    already applied the writes before the error, and it is the caller that
    drops it. *)

Definition tx (S E A : Type) : Type := S → result E A * S.

#[export] Instance tx_ret S E : MRet (tx S E) := λ A a s, (Ok a, s).
#[export] Instance tx_bind S E : MBind (tx S E) :=
  λ A B f m s, match m s with
  | (Ok a, s') => f a s'
  | (Err e, s') => (Err e, s')
  end.

Definition tx_throw {S E A} (e : E) : tx S E A := λ s, (Err e, s).
Definition tx_gets {S E A} (f : S → A) : tx S E A := λ s, (Ok (f s), s).
Definition tx_modify {S E} (f : S → S) : tx S E () := λ s, (Ok (), f s).
Definition tx_lift {S E A} (r : result E A) : tx S E A := λ s, (r, s).
Definition tx_some {S E A} (e : E) (o : option A) : tx S E A := λ s, (ok_or e o, s).
Definition tx_guard {S E} (ok : bool) (e : E) : tx S E () :=
  λ s, (if ok then Ok () else Err e, s).

Fixpoint tx_iter {S E A} (f : A → tx S E ()) (l : list A) : tx S E () :=
  match l with
  | [] => mret ()
  | x :: l => f x ≫= λ _, tx_iter f l
  end.

(** Opening a database transaction, running the step and committing it, or
    dropping the transaction when the step fails. *)
Definition atomically {S E A} (m : tx S E A) : tx S E A := λ s,
  match m s with
  | (Ok a, s') => (Ok a, s')
  | (Err e, _) => (Err e, s)
  end.

Lemma tx_bind_ok {S E A B} (f : A → tx S E B) (m : tx S E A) s b s' :
  (m ≫= f) s = (Ok b, s') ↔ ∃ a s1, m s = (Ok a, s1) ∧ f a s1 = (Ok b, s').
Proof.
  unfold mbind, tx_bind. destruct (m s) as [[a|e] s1]; naive_solver.
Qed.

Lemma tx_bind_run_ok {S E A B} (f : A → tx S E B) (m : tx S E A) s a s1 :
  m s = (Ok a, s1) → (m ≫= f) s = f a s1.
Proof. unfold mbind, tx_bind. by intros ->. Qed.

Lemma tx_bind_run_err {S E A B} (f : A → tx S E B) (m : tx S E A) s e s1 :
  m s = (Err e, s1) → (m ≫= f) s = (Err e, s1).
Proof. unfold mbind, tx_bind. by intros ->. Qed.

Lemma tx_gets_ok {S E A} (f : S → A) (s s' : S) a :
  tx_gets (E:=E) f s = (Ok a, s') ↔ a = f s ∧ s' = s.
Proof. unfold tx_gets; naive_solver. Qed.

Lemma tx_modify_ok {S E} (f : S → S) (s s' : S) u :
  tx_modify (E:=E) f s = (Ok u, s') ↔ s' = f s.
Proof. unfold tx_modify. destruct u; naive_solver. Qed.

Lemma tx_some_ok {S E A} (e : E) (o : option A) (s s' : S) a :
  tx_some e o s = (Ok a, s') ↔ o = Some a ∧ s' = s.
Proof. unfold tx_some. destruct o; simpl; naive_solver. Qed.

Lemma tx_guard_ok {S E} (b : bool) (e : E) (s s' : S) u :
  tx_guard b e s = (Ok u, s') ↔ b = true ∧ s' = s.
Proof. unfold tx_guard. destruct b, u; naive_solver. Qed.

Lemma tx_lift_ok {S E A} (r : result E A) (s s' : S) a :
  tx_lift r s = (Ok a, s') ↔ r = Ok a ∧ s' = s.
Proof. unfold tx_lift; naive_solver. Qed.

Lemma tx_ret_ok {S E A} (a b : A) (s s' : S) :
  mret (M:=tx S E) a s = (Ok b, s') ↔ b = a ∧ s' = s.
Proof. unfold mret, tx_ret; naive_solver. Qed.

Lemma tx_throw_ok {S E A} (e : E) (s s' : S) (a : A) :
  tx_throw e s = (Ok a, s') ↔ False.
Proof. unfold tx_throw; naive_solver. Qed.

(** Inverts a successful run into the successful runs of its steps. *)
Ltac tx_step H :=
  match type of H with
  | (_ ≫= _) _ = (Ok _, _) =>
      let a := fresh "a" in let s := fresh "s" in
      let Ha := fresh "Ha" in let Hb := fresh "Hb" in
      apply tx_bind_ok in H; destruct H as (a & s & Ha & Hb); tx_step Ha; tx_step Hb
  | tx_gets _ _ = (Ok _, _) => apply tx_gets_ok in H; destruct H as [? ?]; subst
  | tx_modify _ _ = (Ok _, _) => apply tx_modify_ok in H; subst
  | tx_some _ _ _ = (Ok _, _) =>
      let E := fresh "E" in apply tx_some_ok in H; destruct H as [E ?]; subst
  | tx_guard _ _ _ = (Ok _, _) =>
      let E := fresh "E" in apply tx_guard_ok in H; destruct H as [E ?]; subst
  | tx_lift _ _ = (Ok _, _) =>
      let E := fresh "E" in apply tx_lift_ok in H; destruct H as [E ?]; subst
  | mret _ _ = (Ok _, _) => apply tx_ret_ok in H; destruct H as [? ?]; subst
  | tx_throw _ _ = (Ok _, _) => apply tx_throw_ok in H; destruct H
  | _ => idtac
  end.

(** ** Frames: what a transaction leaves alone, whether it succeeds or fails *)

Definition keeps {S E A} (R : relation S) (m : tx S E A) : Prop := ∀ s r s', m s = (r, s') → R s s'.

Section Keeps.
Context {S E : Type} (R : relation S) `{!PreOrder R}.

Lemma keeps_same {A} (m : tx S E A) : (∀ s, (m s).2 = s) → keeps R m.
Proof. intros Hm s r s' Hrun. specialize (Hm s). rewrite Hrun in Hm. simpl in Hm. by subst. Qed.

Lemma keeps_ret {A} (a : A) : keeps R (mret (M := tx S E) a).
Proof. by apply keeps_same. Qed.
Lemma keeps_gets {A} (f : S → A) : keeps R (tx_gets (E := E) f).
Proof. by apply keeps_same. Qed.
Lemma keeps_some {A} (e : E) (o : option A) : keeps R (tx_some e o).
Proof. by apply keeps_same. Qed.
Lemma keeps_guard (b : bool) (e : E) : keeps R (tx_guard b e).
Proof. by apply keeps_same. Qed.
Lemma keeps_lift {A} (r : result E A) : keeps R (tx_lift r).
Proof. by apply keeps_same. Qed.
Lemma keeps_throw {A} (e : E) : keeps R (tx_throw (A := A) e).
Proof. by apply keeps_same. Qed.
Lemma keeps_modify (f : S → S) : (∀ s, R s (f s)) → keeps R (tx_modify (E := E) f).
Proof. intros Hf s r s' [= <- <-]. apply Hf. Qed.
Lemma keeps_bind {A B} (m : tx S E A) (f : A → tx S E B) :
  keeps R m → (∀ a, keeps R (f a)) → keeps R (m ≫= f).
Proof.
  intros Hm Hf s r s'. unfold mbind, tx_bind. destruct (m s) as [[a|e] s1] eqn:Hs; intros Hrun.
  - etrans; [by eapply Hm|by eapply Hf].
  - simplify_eq. by eapply Hm.
Qed.
Lemma keeps_iter {A} (f : A → tx S E ()) l : (∀ x, keeps R (f x)) → keeps R (tx_iter f l).
Proof. intros Hf. induction l as [|x l IH]; cbn [tx_iter]; [apply keeps_ret|by apply keeps_bind]. Qed.
End Keeps.

(** Descends through a transaction to the updates it makes. *)
Ltac keeps_steps :=
  repeat match goal with
  | |- keeps ?R (_ ≫= _) => apply (keeps_bind R); [|intros ?]
  | |- keeps ?R (mret _) => apply (keeps_ret R)
  | |- keeps ?R (tx_gets _) => apply (keeps_gets R)
  | |- keeps ?R (tx_some _ _) => apply (keeps_some R)
  | |- keeps ?R (tx_guard _ _) => apply (keeps_guard R)
  | |- keeps ?R (tx_lift _) => apply (keeps_lift R)
  | |- keeps ?R (tx_throw _) => apply (keeps_throw R)
  | |- keeps ?R (tx_iter _ _) => apply (keeps_iter R); intros ?
  | |- keeps _ (match ?x with _ => _ end) => destruct x
  end.
