(* ===== verification/Programs.v ===== *)
(** * Programs

    An operation of a component that talks to others is a program: a tree of calls,
    each answered before the next is made. The calls are those of an interface [E],
    where [E R] are the calls answered by an [R]. A program says nothing about the
    answers: they come from a machine that runs one program, or many interleaved.

    What a program does whatever it is answered is stated about its traces, the
    calls it made with the answers it got ([runs]), and proved by [promises]. *)

From S2P Require Import Prelude.

Module Programs.

Inductive program (E : Type → Type) (A : Type) : Type :=
  | Ret (a : A)
  | Vis (R : Type) (e : E R) (k : R → program E A).
Arguments Ret {E A} a.
Arguments Vis {E A R} e k.

Fixpoint bind {E A B} (p : program E A) (f : A → program E B) : program E B :=
  match p with Ret a => f a | Vis e k => Vis e (λ r, bind (k r) f) end.
Definition perform_call {E R} (e : E R) : program E R := Vis e Ret.
(** The [?] operator. *)
Definition trying {E X A B} (p : program E (result X A)) (f : A → program E (result X B)) : program E (result X B) :=
  bind p (λ r, match r with Ok a => f a | Err e => Ret (Err e) end).

Declare Scope prog_scope.
Delimit Scope prog_scope with prog.
Notation "x ←! e ; k" := (bind (perform_call e) (λ x, k)) (at level 20, e at level 100, k at level 200, right associativity) : prog_scope.
Notation "x ←? p ; k" := (trying p (λ x, k)) (at level 20, p at level 100, k at level 200, right associativity) : prog_scope.
Notation "x ←- p ; k" := (bind p (λ x, k)) (at level 20, p at level 100, k at level 200, right associativity) : prog_scope.
#[local] Open Scope prog_scope.

Fixpoint for_each {E A} (f : A → program E ()) (l : list A) : program E () :=
  match l with [] => Ret () | x :: l => _ ←- f x; for_each f l end.

(** A program over the calls of a component, as one over the calls of its client. *)
Fixpoint lift {E F A} (f : ∀ R, E R → F R) (p : program E A) : program F A :=
  match p with Ret a => Ret a | Vis e k => Vis (f _ e) (λ r, lift f (k r)) end.

(** ** Traces *)

Inductive answered (E : Type → Type) : Type := Answered (R : Type) (e : E R) (r : R).
Arguments Answered {E R} e r.
Definition trace (E : Type → Type) : Type := list (answered E).

(** A run: the calls made so far, and the result if the program is done. *)
Inductive runs {E A} : program E A → trace E → option A → Prop :=
  | runs_stopped p : runs p [] None
  | runs_done a : runs (Ret a) [] (Some a)
  | runs_call R (e : E R) k r t o : runs (k r) t o → runs (Vis e k) (Answered e r :: t) o.

(** After the history [h], every call the program makes satisfies [Φ] at its own
    history, and every result [Q] at the history of the whole run. *)
Fixpoint promises {E A} (Φ : trace E → ∀ R, E R → Prop) (h : trace E) (p : program E A) (Q : trace E → A → Prop) : Prop :=
  match p with
  | Ret a => Q h a
  | Vis e k => Φ h _ e ∧ ∀ r, promises Φ (h ++ [Answered e r]) (k r) Q
  end.

(** Every call of the program satisfies [P]. *)
Fixpoint makes {E A} (P : ∀ R, E R → Prop) (p : program E A) : Prop :=
  match p with Ret _ => True | Vis e k => P _ e ∧ ∀ r, makes P (k r) end.

Lemma makes_bind {E A B} P (p : program E A) (f : A → program E B) : makes P p → (∀ a, makes P (f a)) → makes P (bind p f).
Proof. intros Hp Hf. induction p as [a|R e k IH]; cbn in *; [apply Hf|]. destruct Hp as [He Hk]. split; [done|]. intros r. apply IH, Hk. Qed.
Lemma makes_call {E R B} (P : ∀ R, E R → Prop) (e : E R) (f : R → program E B) :
  P _ e → (∀ r, makes P (f r)) → makes P (bind (perform_call e) f).
Proof. intros He Hf. by split. Qed.
Lemma makes_trying {E X A B} P (p : program E (result X A)) (f : A → program E (result X B)) :
  makes P p → (∀ a, makes P (f a)) → makes P (trying p f).
Proof. intros Hp Hf. apply makes_bind; [done|]. by intros [a|e]. Qed.
Lemma makes_for_each {E A} P (f : A → program E ()) l : (∀ a, makes P (f a)) → makes P (for_each f l).
Proof. intros Hf. induction l as [|a l IH]; cbn; [done|]. by apply makes_bind. Qed.
Lemma makes_lift {E F A} P (f : ∀ R, E R → F R) (p : program E A) : makes (λ R e, P R (f R e)) p → makes P (lift f p).
Proof. induction p as [a|R e k IH]; cbn; [done|]. intros [He Hk]. split; [done|]. intros r. apply IH, Hk. Qed.

Section Promises.
Context {E : Type → Type} (Φ : trace E → ∀ R, E R → Prop).

Lemma promises_bind {A B} h (p : program E A) (f : A → program E B) Q :
  promises Φ h p (λ h a, promises Φ h (f a) Q) → promises Φ h (bind p f) Q.
Proof.
  revert h. induction p as [a|R e k IH]; intros h Hp; cbn in *; [done|]. destruct Hp as [He Hk].
  split; [done|]. intros r. apply IH, Hk.
Qed.
Lemma promises_call {R B} h (e : E R) (f : R → program E B) Q :
  Φ h _ e → (∀ r, promises Φ (h ++ [Answered e r]) (f r) Q) → promises Φ h (bind (perform_call e) f) Q.
Proof. intros He Hf. by split. Qed.
Lemma promises_mono {A} h (p : program E A) (Q Q' : trace E → A → Prop) :
  (∀ h a, Q h a → Q' h a) → promises Φ h p Q → promises Φ h p Q'.
Proof.
  intros HQ. revert h. induction p as [a|R e k IH]; intros h Hp; cbn in *; [by apply HQ|]. destruct Hp as [He Hk].
  split; [done|]. intros r. apply IH, Hk.
Qed.
Lemma promises_trying {X A B} h (p : program E (result X A)) (f : A → program E (result X B)) Q :
  promises Φ h p (λ h r, match r with Ok a => promises Φ h (f a) Q | Err e => Q h (Err e) end) → promises Φ h (trying p f) Q.
Proof. intros Hp. apply promises_bind. eapply promises_mono; [|exact Hp]. by intros h' [a|e]. Qed.

(** A history only grows: what holds of it goes on to hold. *)
Lemma promises_grows {A} h (p : program E A) (Q : trace E → A → Prop) :
  promises Φ h p Q → promises Φ h p (λ h' a, h `prefix_of` h' ∧ Q h' a).
Proof.
  assert (Hgen : ∀ h0, h0 `prefix_of` h → promises Φ h p Q → promises Φ h p (λ h' a, h0 `prefix_of` h' ∧ Q h' a)).
  { intros h0. revert h. induction p as [a|R e k IH]; intros h Hpre Hp; cbn in *; [done|]. destruct Hp as [He Hk].
    split; [done|]. intros r. apply IH; [|apply Hk]. by apply prefix_app_r. }
  by apply Hgen.
Qed.

(** Every call of every run keeps its promise. *)
Definition kept (h : trace E) (x : answered E) : Prop := match x with Answered e _ => Φ h _ e end.
Lemma promises_trace {A} h (p : program E A) Q t o :
  promises Φ h p Q → runs p t o → (∀ t1 x t2, t = t1 ++ x :: t2 → kept (h ++ t1) x) ∧ (∀ a, o = Some a → Q (h ++ t) a).
Proof.
  intros Hp Hr. revert h Hp. induction Hr as [p|a|R e k r t o Hr IH]; intros h Hp.
  - split; [|done]. by intros [|] ? ? ?.
  - split; [by intros [|] ? ? ?|]. intros a' [= <-]. by rewrite app_nil_r.
  - destruct Hp as [He Hk]. destruct (IH _ (Hk r)) as [H1 H2]. split.
    + intros [|y t1] x t2 Ht; cbn in Ht.
      * apply (f_equal head) in Ht. injection Ht as <-. by rewrite app_nil_r.
      * apply (f_equal tail) in Ht as Htl. apply (f_equal head) in Ht. cbn in *. injection Ht as <-.
        specialize (H1 _ _ _ Htl). by rewrite <-app_assoc in H1.
    + intros a Ha. specialize (H2 a Ha). by rewrite <-app_assoc in H2.
Qed.

(** Programs whose calls need no history. *)
Lemma promises_makes {A} (P : ∀ R, E R → Prop) h (p : program E A) (Q : trace E → A → Prop) :
  makes P p → (∀ h R e, P R e → Φ h R e) → (∀ h' a, h `prefix_of` h' → Q h' a) → promises Φ h p Q.
Proof.
  intros Hp HΦ. revert h. induction p as [a|R e k IH]; intros h HQ; cbn in *; [by apply HQ|]. destruct Hp as [He Hk].
  split; [by apply HΦ|]. intros r. apply IH; [apply Hk|]. intros h' a Hpre. apply HQ. etransitivity; [|done]. by apply prefix_app_r.
Qed.
End Promises.

(** ** Tactics *)

Ltac head_of t := match t with ?f _ => head_of f | _ => t end.
(** One step of a proof that every call of a program satisfies a predicate. *)
Ltac makes_step :=
  match goal with
  | |- makes _ (Ret _) => exact I
  | |- makes _ (Vis _ _) => split; [try done|intros ?; cbv beta]
  | |- makes _ (perform_call _) => split; [try done|intros ?; exact I]
  | |- makes _ (bind (perform_call _) _) => apply makes_call; [try done|intros ?]
  | |- makes _ (bind _ _) => apply makes_bind; [|intros ?]
  | |- makes _ (trying _ _) => apply makes_trying; [|intros ?]
  | |- makes _ (for_each _ _) => apply makes_for_each; intros ?
  | |- makes _ (let '(_, _) := ?x in _) => destruct x
  | |- makes _ (match ?x with _ => _ end) => destruct x
  | |- makes _ (if ?x then _ else _) => destruct x
  | |- makes _ ?p => let h := head_of p in unfold h
  end.
Ltac makes_steps := repeat (first [solve [eauto with makes]|makes_step]).

(** One step of a proof about traces; [tac] justifies a call. *)
Ltac promises_step tac :=
  match goal with
  | |- promises _ _ (Ret _) _ => cbn [promises]
  | |- promises _ _ (perform_call _) _ => split; [solve [tac]|intros ?; cbn [promises]]
  | |- promises _ _ (bind (perform_call _) _) _ => apply promises_call; [solve [tac]|intros ?]
  | |- promises _ _ (bind _ _) _ => apply promises_bind
  | |- promises _ _ (trying _ _) _ => apply promises_trying
  | |- promises _ _ (match ?x with _ => _ end) _ => destruct x
  | |- promises _ _ ?p _ => let h := head_of p in unfold h
  end.

Create HintDb makes.
End Programs.
