(* ===== verification/Bytes.v ===== *)
(** * Byte strings

    The bytes the program hashes, stores and compares: a byte is an integer in
    [0, 256), a byte string a list of them. Big-endian integers
    ([u16/u32/u64/i64::to_be_bytes]), string literals, the lexicographic order
    the key-value tables are sorted by, and the encoding lemmas the
    canonicalisation and key layers share. *)

From S2P Require Import Prelude.

Abbreviation bytes := (list Z).

Definition byte_ok (b : Z) : Prop := 0 ≤ b < 256.
#[export] Instance byte_ok_dec b : Decision (byte_ok b).
Proof. unfold byte_ok. apply _. Defined.

Definition bytes_ok (bs : bytes) : Prop := Forall byte_ok bs.
#[export] Instance bytes_ok_dec bs : Decision (bytes_ok bs).
Proof. unfold bytes_ok. apply _. Defined.

(** The bytes of a string literal ([b"..."] or [str::as_bytes]). *)
Definition byte_of_ascii (a : Ascii.ascii) : Z := Z.of_N (Ascii.N_of_ascii a).

Fixpoint bytes_of_string (s : string) : bytes :=
  match s with
  | EmptyString => []
  | String a s => byte_of_ascii a :: bytes_of_string s
  end.

(** ** Machine integers *)

Definition u16_max : Z := 2 ^ 16 - 1.
Definition u32_max : Z := 2 ^ 32 - 1.
Definition u64_max : Z := 2 ^ 64 - 1.

Definition is_u16 (z : Z) : Prop := 0 ≤ z ≤ u16_max.
Definition is_u32 (z : Z) : Prop := 0 ≤ z ≤ u32_max.
Definition is_u64 (z : Z) : Prop := 0 ≤ z ≤ u64_max.
Definition is_i64 (z : Z) : Prop := - 2 ^ 63 ≤ z < 2 ^ 63.

#[export] Instance is_u16_dec z : Decision (is_u16 z).
Proof. unfold is_u16. apply _. Defined.
#[export] Instance is_u32_dec z : Decision (is_u32 z).
Proof. unfold is_u32. apply _. Defined.
#[export] Instance is_u64_dec z : Decision (is_u64 z).
Proof. unfold is_u64. apply _. Defined.
#[export] Instance is_i64_dec z : Decision (is_i64 z).
Proof. unfold is_i64. apply _. Defined.

(** Wrapping, saturating and checked arithmetic on [u64]. The release profile
    of the workspace leaves overflow checks off, so the plain operators wrap. *)
Definition u64_wrap (z : Z) : Z := z mod 2 ^ 64.
Definition u64_add (a b : Z) : Z := u64_wrap (a + b).
Definition u64_sub (a b : Z) : Z := u64_wrap (a - b).
Definition u64_saturating_add (a b : Z) : Z := Z.min (a + b) u64_max.
Definition u64_checked (z : Z) : option Z :=
  if bool_decide (is_u64 z) then Some z else None.
Definition u64_checked_add (a b : Z) : option Z := u64_checked (a + b).
Definition u64_checked_sub (a b : Z) : option Z := u64_checked (a - b).

Lemma u64_wrap_id z : is_u64 z → u64_wrap z = z.
Proof. unfold is_u64, u64_wrap, u64_max. intros. apply Z.mod_small. lia. Qed.

Lemma u64_checked_Some z v : u64_checked z = Some v ↔ v = z ∧ is_u64 z.
Proof. unfold u64_checked. case_bool_decide; naive_solver. Qed.

Lemma u64_checked_None z : u64_checked z = None ↔ ¬ is_u64 z.
Proof. unfold u64_checked. case_bool_decide; naive_solver. Qed.

#[export] Hint Resolve u64_wrap_id : rs.

(** ** Big-endian encoding: [to_be_bytes]

    Two's complement for negative integers, which is what [i64::to_be_bytes]
    produces: the digits of [z mod 256^n]. *)
Fixpoint be_bytes (n : nat) (z : Z) : bytes :=
  match n with
  | O => []
  | S n' => (z / 256 ^ Z.of_nat n') mod 256 :: be_bytes n' z
  end.

(** [from_be_bytes]. *)
Definition be_value (bs : bytes) : Z := foldl (λ acc b, acc * 256 + b) 0 bs.

Lemma length_be_bytes n z : length (be_bytes n z) = n.
Proof. induction n; simpl; congruence. Qed.

Lemma be_bytes_ok n z : bytes_ok (be_bytes n z).
Proof.
  induction n; simpl; constructor; auto. unfold byte_ok. apply Z.mod_pos_bound. lia.
Qed.

#[export] Hint Resolve be_bytes_ok : rs.

Lemma be_value_acc bs acc :
  foldl (λ acc b, acc * 256 + b) acc bs = acc * 256 ^ Z.of_nat (length bs) + be_value bs.
Proof.
  unfold be_value. revert acc. induction bs as [|b bs IH]; intros acc; simpl; [lia|].
  rewrite (IH (acc * 256 + b)), (IH (0 * 256 + b)).
  rewrite Nat2Z.inj_succ, Z.pow_succ_r by lia. lia.
Qed.

Lemma be_value_cons b bs :
  be_value (b :: bs) = b * 256 ^ Z.of_nat (length bs) + be_value bs.
Proof. unfold be_value at 1. simpl. apply be_value_acc. Qed.

Lemma be_value_be_bytes n z : be_value (be_bytes n z) = z mod 256 ^ Z.of_nat n.
Proof.
  induction n as [|n IH].
  - simpl. by rewrite Z.mod_1_r.
  - cbn [be_bytes]. rewrite be_value_cons, length_be_bytes, IH.
    rewrite Nat2Z.inj_succ, Z.pow_succ_r by lia.
    rewrite (Z.mul_comm 256), Z.rem_mul_r by lia. lia.
Qed.

Lemma be_value_bound bs : bytes_ok bs → 0 ≤ be_value bs < 256 ^ Z.of_nat (length bs).
Proof.
  induction 1 as [|b bs Hb Hbs IH]; [done|].
  rewrite be_value_cons. cbn [length]. rewrite Nat2Z.inj_succ, Z.pow_succ_r by lia.
  unfold byte_ok in Hb. nia.
Qed.

Lemma be_bytes_inj n a b :
  0 ≤ a < 256 ^ Z.of_nat n → 0 ≤ b < 256 ^ Z.of_nat n →
  be_bytes n a = be_bytes n b → a = b.
Proof.
  intros Ha Hb Heq. apply (f_equal be_value) in Heq.
  rewrite !be_value_be_bytes, !Z.mod_small in Heq; auto.
Qed.

Lemma be_bytes_u64_inj a b : is_u64 a → is_u64 b → be_bytes 8 a = be_bytes 8 b → a = b.
Proof. unfold is_u64, u64_max. intros. eapply (be_bytes_inj 8); eauto; simpl; lia. Qed.

Lemma be_bytes_u32_inj a b : is_u32 a → is_u32 b → be_bytes 4 a = be_bytes 4 b → a = b.
Proof. unfold is_u32, u32_max. intros. eapply (be_bytes_inj 4); eauto; simpl; lia. Qed.

Lemma be_bytes_u16_inj a b : is_u16 a → is_u16 b → be_bytes 2 a = be_bytes 2 b → a = b.
Proof. unfold is_u16, u16_max. intros. eapply (be_bytes_inj 2); eauto; simpl; lia. Qed.

Lemma be_bytes_i64_inj a b : is_i64 a → is_i64 b → be_bytes 8 a = be_bytes 8 b → a = b.
Proof.
  unfold is_i64. intros Ha Hb Heq. apply (f_equal be_value) in Heq.
  rewrite !be_value_be_bytes in Heq. change (256 ^ Z.of_nat 8) with (2 ^ 64) in Heq.
  apply (f_equal (λ z, (z + 2 ^ 63) mod 2 ^ 64)) in Heq.
  rewrite !Zplus_mod_idemp_l, !Z.mod_small in Heq; lia.
Qed.

(** Splits an equation between two concatenations whose heads have the same
    length. *)
Lemma app_inj_len {A} (a a' b b' : list A) :
  length a = length a' → a ++ b = a' ++ b' → a = a' ∧ b = b'.
Proof. intros Hl Heq. by apply app_inj_1. Qed.

(** ** The lexicographic order of keys *)

Fixpoint bytes_leb (a b : bytes) : bool :=
  match a, b with
  | [], _ => true
  | _ :: _, [] => false
  | x :: a, y :: b => (x <? y) || ((x =? y) && bytes_leb a b)
  end.

Definition bytes_le (a b : bytes) : Prop := bytes_leb a b = true.
Definition bytes_lt (a b : bytes) : Prop := bytes_leb b a = false.

#[export] Instance bytes_le_dec : RelDecision bytes_le.
Proof. intros a b. unfold bytes_le. apply _. Defined.
#[export] Instance bytes_lt_dec : RelDecision bytes_lt.
Proof. intros a b. unfold bytes_lt. apply _. Defined.

Lemma bytes_le_cons x a y b :
  bytes_le (x :: a) (y :: b) ↔ x < y ∨ (x = y ∧ bytes_le a b).
Proof.
  unfold bytes_le. simpl. rewrite orb_true_iff, andb_true_iff, Z.ltb_lt, Z.eqb_eq. done.
Qed.

Lemma bytes_lt_cons x a y b :
  bytes_lt (x :: a) (y :: b) ↔ x < y ∨ (x = y ∧ bytes_lt a b).
Proof.
  unfold bytes_lt. simpl.
  rewrite orb_false_iff, andb_false_iff, Z.ltb_ge, Z.eqb_neq.
  destruct (bytes_leb b a); split; intros; try lia; naive_solver lia.
Qed.

Lemma bytes_le_nil_r a : bytes_le a [] ↔ a = [].
Proof. unfold bytes_le. destruct a; simpl; naive_solver. Qed.

Lemma bytes_lt_nil_r a : ¬ bytes_lt a [].
Proof. unfold bytes_lt. simpl. done. Qed.

Lemma bytes_lt_nil_l a : bytes_lt [] a ↔ a ≠ [].
Proof. unfold bytes_lt. destruct a; simpl; naive_solver. Qed.

#[export] Instance bytes_le_refl : Reflexive bytes_le.
Proof.
  intros a. induction a as [|x a IH]; [done|]. apply bytes_le_cons. auto.
Qed.

#[export] Instance bytes_le_trans : Transitive bytes_le.
Proof.
  intros a. induction a as [|x a IH]; intros [|y b] [|z c]; try done.
  rewrite !bytes_le_cons. intros [?|[-> ?]] [?|[-> ?]]; [lia|lia|lia|].
  right. eauto.
Qed.

#[export] Instance bytes_le_antisymm : AntiSymm (=) bytes_le.
Proof.
  intros a. induction a as [|x a IH]; intros [|y b]; try done.
  rewrite !bytes_le_cons. intros [?|[-> ?]] [?|[? ?]]; try lia. f_equal. auto.
Qed.

#[export] Instance bytes_le_total : Total bytes_le.
Proof.
  intros a. induction a as [|x a IH]; intros [|y b]; try (by left); try (by right).
  rewrite !bytes_le_cons. destruct (Z.lt_trichotomy x y) as [?|[->|?]]; auto.
  destruct (IH b); auto.
Qed.

Lemma bytes_lt_alt a b : bytes_lt a b ↔ bytes_le a b ∧ a ≠ b.
Proof.
  unfold bytes_lt. split.
  - intros H. split.
    + destruct (total bytes_le a b) as [?|H']; [done|]. unfold bytes_le in H'. congruence.
    + intros ->. pose proof (bytes_le_refl b) as Hr. unfold bytes_le in Hr. congruence.
  - intros [Hle Hne]. destruct (bytes_leb b a) eqn:E; [|done].
    destruct Hne. by apply (anti_symm bytes_le).
Qed.

Lemma bytes_lt_le a b : bytes_lt a b → bytes_le a b.
Proof. rewrite bytes_lt_alt. tauto. Qed.

Lemma bytes_le_lt_trans a b c : bytes_le a b → bytes_lt b c → bytes_lt a c.
Proof.
  rewrite !bytes_lt_alt. intros Hab [Hbc Hne]. split; [by etrans|].
  intros ->. apply Hne. by apply (anti_symm bytes_le).
Qed.

Lemma bytes_lt_le_trans a b c : bytes_lt a b → bytes_le b c → bytes_lt a c.
Proof.
  rewrite !bytes_lt_alt. intros [Hab Hne] Hbc. split; [by etrans|].
  intros ->. apply Hne. by apply (anti_symm bytes_le).
Qed.

Lemma bytes_nlt_le a b : ¬ bytes_lt a b ↔ bytes_le b a.
Proof. unfold bytes_lt, bytes_le. destruct (bytes_leb b a); naive_solver. Qed.

(** A key extended by a suffix sorts at or after the key. *)
Lemma bytes_le_app a b : bytes_le a (a ++ b).
Proof. induction a; [done|]. apply bytes_le_cons. auto. Qed.

Lemma bytes_le_app_l p a b : bytes_le (p ++ a) (p ++ b) ↔ bytes_le a b.
Proof.
  induction p as [|x p IH]; [done|]. cbn [app]. rewrite bytes_le_cons, IH.
  split; [intros [?|[_ ?]]; [lia|done]|auto].
Qed.

(** The heads decide when they have the same length. *)
Lemma bytes_le_app_head a b x y :
  length a = length b → bytes_le (a ++ x) (b ++ y) → bytes_le a b.
Proof.
  revert b. induction a as [|c a IH]; intros [|d b] Hl; simplify_eq/=; [done|].
  rewrite !bytes_le_cons. naive_solver.
Qed.

Lemma bytes_lt_app_l p a b : bytes_lt (p ++ a) (p ++ b) ↔ bytes_lt a b.
Proof.
  induction p as [|x p IH]; [done|]. cbn [app]. rewrite bytes_lt_cons, IH.
  split; [intros [?|[_ ?]]; [lia|done]|auto].
Qed.

(** Appending a NUL gives the immediate successor: nothing sorts strictly
    between a key and the key followed by a zero byte. *)
Lemma bytes_le_snoc_zero a k :
  bytes_ok k → bytes_le (a ++ [0]) k ↔ bytes_lt a k.
Proof.
  revert k. induction a as [|x a IH]; intros [|y k] Hok; cbn [app].
  - split; intros H; [by inversion H|by apply bytes_lt_nil_r in H].
  - rewrite bytes_le_cons, bytes_lt_nil_l. inversion Hok as [|?? [? ?] ?]; subst.
    split; [done|]. intros _. destruct (decide (y = 0)) as [->|]; [|left; lia].
    right. split; [done|]. by destruct k.
  - split; intros H; [by inversion H|by apply bytes_lt_nil_r in H].
  - inversion Hok; subst. rewrite bytes_le_cons, bytes_lt_cons, IH by done. done.
Qed.

(** The low [n] digits only depend on the value modulo a larger power. *)
Lemma be_digit_mod z (m k : nat) :
  (m < k)%nat →
  (z mod 256 ^ Z.of_nat k / 256 ^ Z.of_nat m) mod 256 = (z / 256 ^ Z.of_nat m) mod 256.
Proof.
  intros Hmk.
  replace (Z.of_nat k) with (Z.of_nat m + Z.of_nat (k - m)) by lia.
  rewrite Z.pow_add_r by lia.
  set (P := 256 ^ Z.of_nat m). set (Q := 256 ^ Z.of_nat (k - m)).
  assert (HP : 0 < P) by (apply Z.pow_pos_nonneg; lia).
  assert (HQ : 0 < Q) by (apply Z.pow_pos_nonneg; lia).
  rewrite Z.rem_mul_r, Z.add_comm, Z.mul_comm, Z.div_add_l by lia.
  rewrite (Z.div_small (z mod P)), Z.add_0_r by (apply Z.mod_pos_bound; lia).
  apply Z.mod_mod_divide.
  exists (256 ^ Z.of_nat (k - m - 1)). subst Q.
  replace (Z.of_nat (k - m)) with (Z.succ (Z.of_nat (k - m - 1))) by lia.
  rewrite Z.pow_succ_r by lia. lia.
Qed.

Lemma be_bytes_mod n k z :
  (n ≤ k)%nat → be_bytes n (z mod 256 ^ Z.of_nat k) = be_bytes n z.
Proof.
  induction n as [|n IH]; intros Hn; [done|]. cbn [be_bytes].
  rewrite IH, be_digit_mod by lia. done.
Qed.

(** Big-endian integers sort numerically. *)
Lemma be_bytes_le n a b :
  0 ≤ a < 256 ^ Z.of_nat n → 0 ≤ b < 256 ^ Z.of_nat n →
  bytes_le (be_bytes n a) (be_bytes n b) ↔ a ≤ b.
Proof.
  revert a b. induction n as [|n IH]; intros a b Ha Hb.
  - cbn. simpl in *. split; [lia|done].
  - rewrite Nat2Z.inj_succ, Z.pow_succ_r in Ha, Hb by lia.
    cbn [be_bytes]. rewrite <-(be_bytes_mod n n a), <-(be_bytes_mod n n b) by lia.
    set (B := 256 ^ Z.of_nat n) in *.
    assert (HB : 0 < B) by (apply Z.pow_pos_nonneg; lia).
    rewrite bytes_le_cons, IH by (apply Z.mod_pos_bound; lia).
    rewrite !(Z.mod_small (_ / B)) by
      (split; [apply Z.div_pos; lia|apply Z.div_lt_upper_bound; lia]).
    pose proof (Z.div_mod a B ltac:(lia)). pose proof (Z.div_mod b B ltac:(lia)).
    pose proof (Z.mod_pos_bound a B HB). pose proof (Z.mod_pos_bound b B HB).
    split; [intros [?|[Hd ?]]; nia|].
    intros Hle. assert (a / B ≤ b / B) by (apply Z.div_le_mono; lia).
    destruct (decide (a / B = b / B)) as [Hd|]; [|left; lia].
    right. split; [done|]. rewrite Hd in *. nia.
Qed.

(** The digits are never unfolded by simplification. *)
#[global] Arguments be_bytes : simpl never.
