(* ===== verification/Text.v ===== *)
(** * UTF-8 text

    Rust strings are UTF-8 bytes; [std::str::from_utf8] decides which bytes are one.
    [utf8_valid] is the table of well-formed byte sequences of the Unicode standard:
    no overlong forms, no surrogates, nothing above U+10FFFF. *)

From S2P Require Import Prelude Bytes.

Module Text.

Definition between (lo hi b : Z) : bool := (lo <=? b) && (b <=? hi).
Definition continuation (b : Z) : bool := between 128 191 b.

(** The second byte of a sequence of three or four bytes, by its first. *)
Definition second_of_three (a b : Z) : bool :=
  if a =? 224 then between 160 191 b else if a =? 237 then between 128 159 b else between 225 239 a && continuation b.
Definition second_of_four (a b : Z) : bool :=
  if a =? 240 then between 144 191 b else if a =? 244 then between 128 143 b else between 241 243 a && continuation b.

Fixpoint utf8_valid (l : bytes) : bool :=
  match l with
  | [] => true
  | a :: l1 =>
      if between 0 127 a then utf8_valid l1
      else match l1 with
      | [] => false
      | b :: l2 =>
          if between 194 223 a then continuation b && utf8_valid l2
          else match l2 with
          | [] => false
          | c :: l3 =>
              if second_of_three a b then continuation c && utf8_valid l3
              else match l3 with
              | [] => false
              | d :: l4 => second_of_four a b && continuation c && continuation d && utf8_valid l4
              end
          end
      end
  end.

Definition ascii (b : Z) : Prop := 0 ≤ b ≤ 127.
#[export] Instance ascii_dec b : Decision (ascii b).
Proof. unfold ascii. apply _. Defined.

Lemma ascii_between b : ascii b ↔ between 0 127 b = true.
Proof. unfold ascii, between. rewrite andb_true_iff, !Z.leb_le. done. Qed.

(** ASCII text is valid, also in front of other text. *)
Lemma utf8_valid_ascii_app l k : Forall ascii l → utf8_valid (l ++ k) = utf8_valid k.
Proof. induction 1 as [|a l Ha Hl IH]; [done|]. apply ascii_between in Ha. cbn [app utf8_valid]. by rewrite Ha. Qed.
Lemma utf8_valid_ascii l : Forall ascii l → utf8_valid l = true.
Proof. intros Hl. rewrite <-(app_nil_r l). by rewrite utf8_valid_ascii_app. Qed.


(** Appending strings. *)
Lemma string_app_length (a b : string) : String.length (a +:+ b) = (String.length a + String.length b)%nat.
Proof. induction a as [|x a IH]; [done|]. exact (f_equal Datatypes.S IH). Qed.
Lemma string_app_inj_r (a b s : string) : a +:+ s = b +:+ s → a = b.
Proof.
  revert b. induction a as [|c a IH]; intros [|c' b] Heq; [done| | |].
  - apply (f_equal String.length) in Heq. rewrite !string_app_length in Heq. cbn in Heq. lia.
  - apply (f_equal String.length) in Heq. rewrite !string_app_length in Heq. cbn in Heq. lia.
  - injection Heq as <- Heq. by rewrite (IH _ Heq).
Qed.

End Text.

(** * The standard library on strings

    What the repository uses of [str], [u8], the integers' [FromStr] and
    [std::net] on UTF-8 bytes: character classes, [trim], [split], [split_once],
    decimal numbers, and the textual forms of IP addresses. White space and
    control characters are those of Unicode, recognised by their encodings, which
    on UTF-8 text can neither start nor end inside another character. *)

Import Text.

Module StdText.

(** ** Classes of ASCII bytes *)

Definition is_ascii_digit (b : Z) : bool := between 48 57 b.
Definition is_ascii_lowercase (b : Z) : bool := between 97 122 b.
Definition is_ascii_uppercase (b : Z) : bool := between 65 90 b.
Definition is_ascii_alphanumeric (b : Z) : bool :=
  is_ascii_digit b || is_ascii_lowercase b || is_ascii_uppercase b.
Definition is_ascii_control (b : Z) : bool := (b <? 32) || (b =? 127).
Definition is_ascii_whitespace (b : Z) : bool := (b =? 32) || (b =? 9) || (b =? 10) || (b =? 12) || (b =? 13).
Definition lower (b : Z) : Z := if is_ascii_uppercase b then b + 32 else b.
Definition to_ascii_lowercase (s : bytes) : bytes := lower <$> s.

Definition starts_with (p s : bytes) : bool := bool_decide (p `prefix_of` s).
Definition ends_with (p s : bytes) : bool := bool_decide (p `suffix_of` s).
Definition contains (b : Z) (s : bytes) : bool := existsb (Z.eqb b) s.

(** [char::is_control]: C0, DEL and C1. *)
Fixpoint any_control (s : bytes) : bool :=
  match s with
  | [] => false
  | b :: rest =>
      (b <? 32) || (b =? 127) ||
      match rest with b' :: _ => (b =? 194) && between 128 159 b' | [] => false end ||
      any_control rest
  end.

(** [chars().count()]: the bytes that start a character. *)
Definition chars_count (s : bytes) : Z := Z.of_nat (length (filter (λ b, continuation b = false) s)).

(** ** [trim] *)

(** The characters of [White_Space], by the length of their encoding. *)
Definition space1 (a : Z) : bool := between 9 13 a || (a =? 32).
Definition space2 (a b : Z) : bool := (a =? 194) && ((b =? 133) || (b =? 160)).
Definition space3 (a b c : Z) : bool :=
  ((a =? 225) && (b =? 154) && (c =? 128)) ||
  ((a =? 226) && (b =? 128) && (between 128 138 c || (c =? 168) || (c =? 169) || (c =? 175))) ||
  ((a =? 226) && (b =? 129) && (c =? 159)) ||
  ((a =? 227) && (b =? 128) && (c =? 128)).

Fixpoint trim_start (s : bytes) : bytes :=
  match s with
  | a :: s1 =>
      if space1 a then trim_start s1
      else match s1 with
      | b :: s2 =>
          if space2 a b then trim_start s2
          else match s2 with
          | c :: s3 => if space3 a b c then trim_start s3 else s
          | [] => s
          end
      | [] => s
      end
  | [] => []
  end.

Fixpoint trim_start_rev (s : bytes) : bytes :=
  match s with
  | a :: s1 =>
      if space1 a then trim_start_rev s1
      else match s1 with
      | b :: s2 =>
          if space2 b a then trim_start_rev s2
          else match s2 with
          | c :: s3 => if space3 c b a then trim_start_rev s3 else s
          | [] => s
          end
      | [] => s
      end
  | [] => []
  end.

Definition trim_end (s : bytes) : bytes := reverse (trim_start_rev (reverse s)).
Definition trim (s : bytes) : bytes := trim_end (trim_start s).

(** ** [split], [split_once], [rsplit_once] *)

Fixpoint split_once (sep s : bytes) : option (bytes * bytes) :=
  if starts_with sep s then Some ([], drop (length sep) s)
  else match s with
       | [] => None
       | b :: rest => (λ '(before, after), (b :: before, after)) <$> split_once sep rest
       end.

(** At the last occurrence of one ASCII character. *)
Definition rsplit_once (sep : Z) (s : bytes) : option (bytes * bytes) :=
  (λ '(before, after), (reverse after, reverse before)) <$> split_once [sep] (reverse s).

(** The pieces of [split] on one ASCII character; there is always one. *)
Fixpoint split (sep : Z) (s : bytes) : list bytes :=
  match s with
  | [] => [[]]
  | b :: rest =>
      if b =? sep then [] :: split sep rest
      else match split sep rest with
           | piece :: pieces => (b :: piece) :: pieces
           | [] => [[b]]
           end
  end.

(** ** Decimal numbers *)

Definition digits_value (s : bytes) : Z := foldl (λ acc b, acc * 10 + (b - 48)) 0 s.

(** [FromStr] of an unsigned type with maximum [max]: a sign [+] is allowed. *)
Definition parse_digits (max : Z) (s : bytes) : option Z :=
  if bool_decide (s = []) || negb (forallb is_ascii_digit s) then None
  else if digits_value s <=? max then Some (digits_value s) else None.
Definition parse_unsigned (max : Z) (s : bytes) : option Z :=
  match s with
  | b :: rest => if b =? 43 then parse_digits max rest else parse_digits max s
  | [] => None
  end.
Definition parse_u16 : bytes → option Z := parse_unsigned u16_max.
Definition parse_i64 (s : bytes) : option Z :=
  match s with
  | b :: rest => if b =? 45 then Z.opp <$> parse_digits (2 ^ 63) rest else parse_unsigned (2 ^ 63 - 1) s
  | [] => None
  end.

(** [Display] of the integers; twenty digits hold every 64-bit one. *)
Fixpoint decimal_digits (fuel : nat) (n : Z) : bytes :=
  match fuel with
  | O => []
  | S fuel => if n <? 10 then [48 + n] else decimal_digits fuel (n / 10) ++ [48 + n mod 10]
  end.
Definition to_decimal (n : Z) : bytes :=
  if n <? 0 then 45 :: decimal_digits 20 (- n) else decimal_digits 20 n.

(** ** [std::net]: the parser of IP addresses *)

Definition to_digit (radix b : Z) : option Z :=
  let value := if is_ascii_digit b then Some (b - 48)
               else if is_ascii_lowercase b then Some (b - 87)
               else if is_ascii_uppercase b then Some (b - 55) else None in
  v ← value; if v <? radix then Some v else None.

(** The digits in front of the rest. *)
Fixpoint read_digits (radix : Z) (s : bytes) : list Z * bytes :=
  match s with
  | b :: rest =>
      match to_digit radix b with
      | Some d => let '(ds, rest) := read_digits radix rest in (d :: ds, rest)
      | None => ([], s)
      end
  | [] => ([], [])
  end.

Definition read_number (radix : Z) (max_digits : nat) (allow_zero_prefix : bool) (max : Z) (s : bytes)
    : option (Z * bytes) :=
  let '(ds, rest) := read_digits radix s in
  let value := foldl (λ acc d, acc * radix + d) 0 ds in
  if bool_decide (length ds = 0%nat) || bool_decide (max_digits < length ds)%nat then None
  else if negb allow_zero_prefix && bool_decide (head ds = Some 0) && bool_decide (1 < length ds)%nat then None
  else if max <? value then None
  else Some (value, rest).

Definition read_given_char (c : Z) (s : bytes) : option bytes :=
  match s with b :: rest => if b =? c then Some rest else None | [] => None end.

(** The separator stands in front of every group but the first. *)
Definition read_separator {A} (sep : Z) (index : nat) (inner : bytes → option (A * bytes)) (s : bytes)
    : option (A * bytes) :=
  match index with O => inner s | S _ => read_given_char sep s ≫= inner end.

Fixpoint read_octets (index count : nat) (s : bytes) : option (list Z * bytes) :=
  match count with
  | O => Some ([], s)
  | S count =>
      '(octet, s) ← read_separator 46 index (read_number 10 3 false 255) s;
      '(octets, s) ← read_octets (S index) count s;
      Some (octet :: octets, s)
  end.
Definition read_ipv4_addr : bytes → option (list Z * bytes) := read_octets 0 4.

(** Up to [left] groups from number [i] on; whether an IPv4 address ended them. *)
Fixpoint read_groups (i left : nat) (s : bytes) : nat * bool * bytes :=
  match left with
  | O => (i, false, s)
  | S left' =>
      match (if bool_decide (left' = 0%nat) then None else read_separator 58 i read_ipv4_addr s) with
      | Some (_, rest) => ((i + 2)%nat, true, rest)
      | None =>
          match read_separator 58 i (read_number 16 4 true u16_max) s with
          | Some (_, rest) => read_groups (S i) left' rest
          | None => (i, false, s)
          end
      end
  end.

(** What is left after an address, if there is one in front. *)
Definition read_ipv6_addr (s : bytes) : option bytes :=
  let '(head_size, head_ipv4, rest) := read_groups 0 8 s in
  if bool_decide (head_size = 8%nat) then Some rest
  else if head_ipv4 then None
  else rest ← read_given_char 58 rest;
       rest ← read_given_char 58 rest;
       let '(_, _, rest) := read_groups 0 (8 - (head_size + 1)) rest in
       Some rest.

Definition parses_ipv4 (s : bytes) : bool :=
  match read_ipv4_addr s with Some (_, rest) => bool_decide (rest = []) | None => false end.
Definition parses_ipv6 (s : bytes) : bool :=
  match read_ipv6_addr s with Some rest => bool_decide (rest = []) | None => false end.

(** ** Lemmas *)

Lemma between_spec lo hi b : between lo hi b = true ↔ lo ≤ b ≤ hi.
Proof. unfold between. rewrite andb_true_iff, !Z.leb_le. done. Qed.

Lemma lower_idem b : lower (lower b) = lower b.
Proof. unfold lower, is_ascii_uppercase, between. repeat case_match; bool_facts; lia. Qed.
Lemma to_ascii_lowercase_idem s : to_ascii_lowercase (to_ascii_lowercase s) = to_ascii_lowercase s.
Proof. unfold to_ascii_lowercase. rewrite <-list_fmap_compose. apply list_fmap_ext. intros _ b _. apply lower_idem. Qed.
Lemma length_to_ascii_lowercase s : length (to_ascii_lowercase s) = length s.
Proof. apply length_fmap. Qed.

Lemma contains_elem b s : contains b s = true ↔ b ∈ s.
Proof.
  unfold contains. rewrite existsb_exists. split.
  - intros (x & Hx & ->%Z.eqb_eq). by apply list_elem_of_In.
  - intros Hb. exists b. split; [by apply list_elem_of_In|apply Z.eqb_refl].
Qed.
Lemma contains_false b s : contains b s = false ↔ b ∉ s.
Proof. rewrite <-contains_elem. by destruct (contains b s). Qed.

(** Text that starts and ends with characters of one byte that are no space stays. *)
Lemma trim_start_id a s : a < 128 → space1 a = false → trim_start (a :: s) = a :: s.
Proof.
  intros Ha Hs. cbn [trim_start]. rewrite Hs. destruct s as [|b [|c s]]; [done| |].
  - unfold space2. by replace (a =? 194) with false by lia.
  - unfold space2, space3. replace (a =? 194) with false by lia. replace (a =? 225) with false by lia.
    replace (a =? 226) with false by lia. by replace (a =? 227) with false by lia.
Qed.
Lemma trim_start_rev_id a s : a < 128 → space1 a = false → trim_start_rev (a :: s) = a :: s.
Proof.
  intros Ha Hs. cbn [trim_start_rev]. rewrite Hs. unfold space2, space3, between.
  destruct s as [|b [|c s]]; [done| |].
  - replace (a =? 133) with false by lia. replace (a =? 160) with false by lia. by rewrite andb_false_r.
  - replace (a =? 133) with false by lia. replace (a =? 160) with false by lia.
    replace (a =? 128) with false by lia. replace (128 <=? a) with false by lia.
    replace (a =? 168) with false by lia. replace (a =? 169) with false by lia.
    replace (a =? 175) with false by lia. replace (a =? 159) with false by lia. by rewrite !andb_false_r.
Qed.
Lemma trim_id a s z :
  head s = Some a → last s = Some z → a < 128 → z < 128 → space1 a = false → space1 z = false → trim s = s.
Proof.
  intros Ha Hz Ha' Hz' Hsa Hsz. destruct s as [|b s]; [done|]. injection Ha as ->.
  unfold trim. rewrite trim_start_id by done. unfold trim_end.
  apply last_Some in Hz as [k ->]. rewrite reverse_app. cbn [reverse rev_append app].
  change (reverse [z] ++ reverse k) with (z :: reverse k). rewrite trim_start_rev_id by done.
  change (z :: reverse k) with (reverse [z] ++ reverse k). by rewrite <-reverse_app, reverse_involutive.
Qed.

(** *** Splitting *)

Lemma starts_with_app p s : starts_with p (p ++ s) = true.
Proof. apply bool_decide_eq_true. by exists s. Qed.

Lemma split_once_spec sep s before after :
  split_once sep s = Some (before, after) → s = before ++ sep ++ after.
Proof.
  revert before. induction s as [|b s IH]; intros before; cbn [split_once]; case_match eqn:Hp; intros Heq.
  - injection Heq as <- <-. apply bool_decide_eq_true, prefix_nil_inv in Hp as ->. done.
  - done.
  - injection Heq as <- <-. apply bool_decide_eq_true in Hp as [k Hk]. rewrite Hk, drop_app_length. done.
  - apply fmap_Some in Heq as ([x y] & Hx & Heq). simplify_eq. by rewrite (IH _ Hx).
Qed.

(** One character splits at its first occurrence. *)
Lemma split_once_first c before after : c ∉ before → split_once [c] (before ++ c :: after) = Some (before, after).
Proof.
  induction before as [|b before IH]; intros Hc.
  - pose proof (starts_with_app [c] after) as Hs. cbn [app] in Hs |- *. cbn [split_once]. by rewrite Hs.
  - apply not_elem_of_cons in Hc as [Hb Hc]. cbn [app split_once].
    case_match eqn:Hp; [|by rewrite IH].
    apply bool_decide_eq_true, prefix_cons_inv_1 in Hp. congruence.
Qed.
Lemma split_once_None c s : c ∉ s → split_once [c] s = None.
Proof.
  induction s as [|b s IH]; intros Hc; [done|]. apply not_elem_of_cons in Hc as [Hb Hc]. cbn [split_once].
  case_match eqn:Hp; [|by rewrite IH]. apply bool_decide_eq_true, prefix_cons_inv_1 in Hp. congruence.
Qed.

Lemma rsplit_once_last c before after : c ∉ after → rsplit_once c (before ++ c :: after) = Some (before, after).
Proof.
  intros Hc. unfold rsplit_once. rewrite reverse_app, reverse_cons, <-app_assoc. cbn [app].
  rewrite split_once_first by (by rewrite elem_of_reverse). cbn. by rewrite !reverse_involutive.
Qed.
Lemma rsplit_once_None c s : c ∉ s → rsplit_once c s = None.
Proof. intros Hc. unfold rsplit_once. by rewrite split_once_None by (by rewrite elem_of_reverse). Qed.

(** *** Decimal numbers *)

Lemma digits_value_snoc s b : digits_value (s ++ [b]) = digits_value s * 10 + (b - 48).
Proof. unfold digits_value. by rewrite foldl_app. Qed.

Lemma digit_ok d : 0 ≤ d < 10 → is_ascii_digit (48 + d) = true.
Proof. intros Hd. apply between_spec. lia. Qed.

Lemma decimal_digits_spec fuel n :
  0 ≤ n < 10 ^ Z.of_nat fuel →
  digits_value (decimal_digits fuel n) = n ∧ forallb is_ascii_digit (decimal_digits fuel n) = true ∧
  (fuel ≠ 0%nat → decimal_digits fuel n ≠ []).
Proof.
  revert n. induction fuel as [|fuel IH]; intros n Hn; [cbn in Hn; split_and!; [cbn; lia|done|done]|].
  cbn [decimal_digits]. destruct (Z.ltb_spec n 10).
  - split_and!; [unfold digits_value; cbn; lia|cbn [forallb]; by rewrite digit_ok by lia|done].
  - rewrite Nat2Z.inj_succ, Z.pow_succ_r in Hn by lia.
    destruct (IH (n / 10)) as (Hv & Hd & _).
    { split; [apply Z.div_pos; lia|]. apply Z.div_lt_upper_bound; lia. }
    split_and!.
    + rewrite digits_value_snoc, Hv. pose proof (Z.div_mod n 10). lia.
    + rewrite forallb_app, Hd. cbn [forallb]. rewrite digit_ok by (apply Z.mod_pos_bound; lia). done.
    + intros _ Heq. by apply app_nil in Heq as [_ ?].
Qed.

Lemma decimal_digits_length fuel n k : (k ≤ fuel)%nat → 0 ≤ n < 10 ^ Z.of_nat k → (length (decimal_digits fuel n) ≤ Nat.max 1 k)%nat.
Proof.
  revert n k. induction fuel as [|fuel IH]; intros n k Hk Hn; cbn [decimal_digits length]; [lia|].
  destruct (Z.ltb_spec n 10); cbn [length]; [lia|]. rewrite length_app. cbn [length].
  destruct k as [|k]; [cbn in Hn; lia|]. rewrite Nat2Z.inj_succ, Z.pow_succ_r in Hn by lia.
  assert (Hq : 0 ≤ n / 10 < 10 ^ Z.of_nat k) by (split; [apply Z.div_pos; lia|apply Z.div_lt_upper_bound; lia]).
  specialize (IH (n / 10) k ltac:(lia) Hq). destruct k as [|k]; [cbn in Hn; lia|]. lia.
Qed.

Lemma parse_digits_decimal max n :
  0 ≤ n ≤ max → n < 10 ^ 20 → parse_digits max (decimal_digits 20 n) = Some n.
Proof.
  intros Hn Hlt. destruct (decimal_digits_spec 20 n) as (Hv & Hd & Hne); [lia|].
  unfold parse_digits. rewrite bool_decide_eq_false_2 by (by apply Hne). rewrite Hd, Hv. cbn.
  by rewrite (proj2 (Z.leb_le _ _)) by lia.
Qed.

Lemma decimal_head fuel n : 0 ≤ n < 10 ^ Z.of_nat fuel → fuel ≠ 0%nat → ∃ b s, decimal_digits fuel n = b :: s ∧ 48 ≤ b ≤ 57.
Proof.
  intros Hn Hf. destruct (decimal_digits_spec fuel n Hn) as (_ & Hd & Hne). specialize (Hne Hf).
  destruct (decimal_digits fuel n) as [|b s]; [done|]. cbn in Hd. apply andb_true_iff in Hd as [Hb _].
  apply between_spec in Hb. eauto.
Qed.

Lemma parse_unsigned_decimal max n : 0 ≤ n ≤ max → n < 10 ^ 20 → parse_unsigned max (to_decimal n) = Some n.
Proof.
  intros Hn Hlt. unfold to_decimal. rewrite (proj2 (Z.ltb_ge n 0)) by lia.
  destruct (decimal_head 20 n) as (b & s & Heq & Hb); [lia|done|].
  unfold parse_unsigned. rewrite Heq. rewrite (proj2 (Z.eqb_neq b 43)) by lia.
  rewrite <-Heq. by apply parse_digits_decimal.
Qed.

Lemma parse_i64_decimal n : is_i64 n → parse_i64 (to_decimal n) = Some n.
Proof.
  unfold is_i64. intros Hn. destruct (Z.ltb_spec n 0) as [Hneg|Hpos].
  - unfold to_decimal, parse_i64. rewrite (proj2 (Z.ltb_lt n 0)) by lia. rewrite Z.eqb_refl.
    rewrite parse_digits_decimal by lia. cbn. f_equal. lia.
  - destruct (decimal_head 20 n) as (b & s & Heq & Hb); [lia|done|].
    assert (Ht : to_decimal n = b :: s) by (unfold to_decimal; by rewrite (proj2 (Z.ltb_ge n 0)) by lia).
    unfold parse_i64. rewrite Ht. rewrite (proj2 (Z.eqb_neq b 45)) by lia. rewrite <-Ht.
    apply parse_unsigned_decimal; lia.
Qed.

Lemma to_decimal_inj a b : is_i64 a → is_i64 b → to_decimal a = to_decimal b → a = b.
Proof. intros Ha Hb Heq. apply parse_i64_decimal in Ha, Hb. congruence. Qed.

End StdText.
