(* ===== verification/Tables.v ===== *)
(** * Ordered tables

    The embedded database the catalogs live in, as far as the code relies on
    it: a table is a finite map from byte keys to decoded values, and a scan
    visits its entries in ascending key order. [table_range lo hi] is
    [table.range(lo..hi)], [table_iter] is [table.iter()]; a range whose bounds
    are crossed is empty. The second half holds sums over a table, which the
    accounting theorems are stated with. *)

From S2P Require Import Prelude Bytes.

Definition entry_le {V} (p q : bytes * V) : Prop := bytes_le p.1 q.1.

#[export] Instance entry_le_dec {V} : RelDecision (@entry_le V).
Proof. intros p q. unfold entry_le. apply _. Defined.
#[export] Instance entry_le_trans {V} : Transitive (@entry_le V).
Proof. intros p q r. unfold entry_le. apply bytes_le_trans. Qed.
#[export] Instance entry_le_total {V} : Total (@entry_le V).
Proof. intros p q. unfold entry_le. apply bytes_le_total. Qed.

Definition table_iter {V} (t : gmap bytes V) : list (bytes * V) :=
  merge_sort entry_le (map_to_list t).

Definition in_range (lo hi k : bytes) : Prop := bytes_le lo k ∧ bytes_lt k hi.

#[export] Instance in_range_dec lo hi k : Decision (in_range lo hi k).
Proof. unfold in_range. apply _. Defined.

Definition table_range {V} (lo hi : bytes) (t : gmap bytes V) : list (bytes * V) :=
  filter (λ kv, in_range lo hi kv.1) (table_iter t).

Lemma elem_of_table_iter {V} (t : gmap bytes V) k v :
  (k, v) ∈ table_iter t ↔ t !! k = Some v.
Proof.
  unfold table_iter. rewrite merge_sort_Permutation. apply elem_of_map_to_list.
Qed.

Lemma elem_of_table_range {V} (t : gmap bytes V) lo hi k v :
  (k, v) ∈ table_range lo hi t ↔ t !! k = Some v ∧ in_range lo hi k.
Proof.
  unfold table_range. rewrite list_elem_of_filter, elem_of_table_iter. simpl. tauto.
Qed.

Lemma table_iter_sorted {V} (t : gmap bytes V) : StronglySorted entry_le (table_iter t).
Proof. apply StronglySorted_merge_sort; apply _. Qed.

Lemma table_iter_NoDup {V} (t : gmap bytes V) : NoDup (table_iter t).*1.
Proof.
  unfold table_iter. rewrite merge_sort_Permutation. apply NoDup_fst_map_to_list.
Qed.

Lemma StronglySorted_filter {A} (R : relation A) (P : A → Prop) `{∀ x, Decision (P x)} l :
  StronglySorted R l → StronglySorted R (filter P l).
Proof.
  induction 1 as [|x l Hl IH Hx]; [constructor|].
  rewrite filter_cons. case_decide; [|done]. constructor; [done|].
  apply Forall_forall. intros y [? Hy]%list_elem_of_filter.
  rewrite Forall_forall in Hx. auto.
Qed.

Lemma NoDup_fst_filter {A B} (P : A * B → Prop) `{∀ x, Decision (P x)} (l : list (A * B)) :
  NoDup l.*1 → NoDup (filter P l).*1.
Proof.
  induction l as [|[a b] l IH]; [done|]. cbn [fmap list_fmap]. rewrite NoDup_cons.
  intros [Hn Hl]. rewrite filter_cons. case_decide; [|auto].
  cbn. apply NoDup_cons. split; [|auto]. intros Hin. apply Hn.
  apply list_elem_of_fmap in Hin as ([a' b'] & -> & [_ Hin]%list_elem_of_filter).
  apply list_elem_of_fmap. by exists (a', b').
Qed.

Lemma table_range_sorted {V} (t : gmap bytes V) lo hi :
  StronglySorted entry_le (table_range lo hi t).
Proof. apply StronglySorted_filter, table_iter_sorted. Qed.

Lemma table_range_NoDup {V} (t : gmap bytes V) lo hi : NoDup (table_range lo hi t).*1.
Proof. apply NoDup_fst_filter, table_iter_NoDup. Qed.

(** The first entry of a range scan is the least key in range. *)
Lemma table_range_head {V} (t : gmap bytes V) lo hi k v :
  head (table_range lo hi t) = Some (k, v) ↔
  t !! k = Some v ∧ in_range lo hi k ∧
  ∀ k' v', t !! k' = Some v' → in_range lo hi k' → bytes_le k k'.
Proof.
  pose proof (table_range_sorted t lo hi) as Hs.
  split.
  - intros Hh. destruct (table_range lo hi t) as [|[k1 v1] l] eqn:E; [done|].
    simpl in Hh. injection Hh as -> ->.
    assert (Hin : (k, v) ∈ table_range lo hi t) by (rewrite E; left).
    apply elem_of_table_range in Hin as [Hk Hr]. split_and!; [done|done|].
    intros k' v' Hk' Hr'.
    assert (Hin : (k', v') ∈ table_range lo hi t) by by apply elem_of_table_range.
    rewrite E in Hin. inversion Hs as [|?? _ Hf]; subst.
    apply elem_of_cons in Hin as [[= -> ->]|Hin]; [reflexivity|].
    rewrite Forall_forall in Hf. apply (Hf _ Hin).
  - intros (Hk & Hr & Hleast).
    assert (Hin : (k, v) ∈ table_range lo hi t) by by apply elem_of_table_range.
    destruct (table_range lo hi t) as [|[k1 v1] l] eqn:E; [by inversion Hin|].
    assert (Hin1 : (k1, v1) ∈ table_range lo hi t) by (rewrite E; left).
    apply elem_of_table_range in Hin1 as [Hk1 Hr1].
    inversion Hs as [|?? _ Hf]; subst.
    apply elem_of_cons in Hin as [[= -> ->]|Hin]; [done|].
    rewrite Forall_forall in Hf. specialize (Hf _ Hin). unfold entry_le in Hf. simpl in Hf.
    specialize (Hleast _ _ Hk1 Hr1).
    assert (k = k1) as -> by by apply (anti_symm bytes_le).
    simpl. congruence.
Qed.

Lemma table_range_nil {V} (t : gmap bytes V) lo hi :
  table_range lo hi t = [] ↔ ∀ k v, t !! k = Some v → ¬ in_range lo hi k.
Proof.
  split.
  - intros E k v Hk Hr.
    assert (Hin : (k, v) ∈ table_range lo hi t) by by apply elem_of_table_range.
    rewrite E in Hin. by inversion Hin.
  - intros H. destruct (table_range lo hi t) as [|[k v] l] eqn:E; [done|].
    assert (Hin : (k, v) ∈ table_range lo hi t) by (rewrite E; left).
    apply elem_of_table_range in Hin as [? ?]. naive_solver.
Qed.

(** Keeping all or nothing of a list. *)
Lemma filter_all {A} (P : A → Prop) `{∀ x, Decision (P x)} l : Forall P l → filter P l = l.
Proof. induction 1; [done|]. rewrite filter_cons_True by done. by f_equal. Qed.

Lemma filter_none {A} (P : A → Prop) `{∀ x, Decision (P x)} l :
  Forall (λ x, ¬ P x) l → filter P l = [].
Proof. induction 1; [done|]. by rewrite filter_cons_False by done. Qed.

(** In a sorted range, what precedes an entry has smaller keys and what
    follows it larger ones. *)
Lemma table_range_split {V} (t : gmap bytes V) lo hi pre k v post :
  table_range lo hi t = pre ++ (k, v) :: post →
  Forall (λ kv, bytes_lt kv.1 k) pre ∧ Forall (λ kv, bytes_lt k kv.1) post.
Proof.
  intros Heq. pose proof (table_range_sorted t lo hi) as Hs.
  pose proof (table_range_NoDup t lo hi) as Hn. rewrite Heq in Hs, Hn. clear Heq.
  induction pre as [|[k' v'] pre IH]; cbn in *.
  - apply StronglySorted_inv in Hs as [_ Hs]. apply NoDup_cons in Hn as [Hn _].
    split; [done|]. rewrite Forall_forall in Hs |- *. intros [k' v'] Hin.
    apply bytes_lt_alt. split; [by apply (Hs _ Hin)|]. intros ->.
    apply Hn, list_elem_of_fmap. by exists (k', v').
  - apply StronglySorted_inv in Hs as [Hs Hle]. apply NoDup_cons in Hn as [Hne Hn].
    destruct (IH Hs Hn) as [Hpre Hpost]. split; [|done]. constructor; [|done]. cbn.
    apply Forall_app in Hle as [_ [Hle _]%Forall_cons].
    apply bytes_lt_alt. split; [done|]. intros ->. apply Hne.
    rewrite fmap_app. set_solver.
Qed.

(** Resuming a scan right after an entry sees exactly the entries after it. *)
Lemma table_range_resume {V} (t : gmap bytes V) lo hi pre k v post :
  (∀ k' v', t !! k' = Some v' → bytes_ok k') →
  table_range lo hi t = pre ++ (k, v) :: post → table_range (k ++ [0]) hi t = post.
Proof.
  intros Hok Heq. destruct (table_range_split _ _ _ _ _ _ _ Heq) as [Hpre Hpost].
  assert (Hin : ∀ k' v', (k', v') ∈ pre ++ (k, v) :: post → bytes_ok k' ∧ bytes_le lo k').
  { intros k' v'. rewrite <-Heq, elem_of_table_range. unfold in_range. naive_solver. }
  transitivity (filter (λ kv, bytes_le (k ++ [0]) kv.1) (table_range lo hi t)).
  { unfold table_range. rewrite list_filter_filter. apply list_filter_iff.
    intros [k' v']. cbn. unfold in_range.
    destruct (Hin k v) as [_ Hlo]; [set_solver|].
    pose proof (bytes_le_app k [0]) as Hk. split; [|tauto].
    intros [Hle Hlt]. split_and!; [done| |done]. etrans; [exact Hlo|]. by etrans. }
  rewrite Heq, filter_app, filter_none, filter_cons_False, filter_all; [done|..].
  - rewrite Forall_forall in Hpost |- *. intros [k' v'] Hkv. cbn.
    apply bytes_le_snoc_zero; [apply (Hin k' v'); set_solver|]. by apply (Hpost _ Hkv).
  - cbn. intros Hle%bytes_le_snoc_zero; [|apply (Hin k v); set_solver].
    apply bytes_lt_alt in Hle as [_ ?]. done.
  - rewrite Forall_forall in Hpre |- *. intros [k' v'] Hkv. cbn.
    intros Hle%bytes_le_snoc_zero; [|apply (Hin k' v'); set_solver].
    specialize (Hpre _ Hkv). cbn in Hpre.
    pose proof (bytes_lt_le_trans _ _ _ Hpre (bytes_lt_le _ _ Hle)) as Hlt.
    apply bytes_lt_alt in Hlt as [_ ?]. done.
Qed.

(** ** Sums over a table *)

Section TableSum.
Context {K V : Type} `{Countable K}.
Implicit Types (m : gmap K V) (f g : K → V → Z).

Definition msum f m : Z := map_fold (λ k v acc, f k v + acc) 0 m.

Lemma msum_empty f : msum f ∅ = 0.
Proof. apply map_fold_empty. Qed.

Lemma msum_insert_new f m k v :
  m !! k = None → msum f (<[k:=v]> m) = f k v + msum f m.
Proof.
  intros Hk. unfold msum. rewrite map_fold_insert_L; [done| |done].
  intros. lia.
Qed.

Definition at_key f m k : Z := from_option (f k) 0 (m !! k).

Lemma msum_delete f m k : msum f (delete k m) = msum f m - at_key f m k.
Proof.
  unfold at_key. destruct (m !! k) as [v|] eqn:E; simpl.
  - rewrite <-(insert_delete_id m k v E) at 2.
    rewrite msum_insert_new by apply lookup_delete_eq. lia.
  - rewrite delete_id by done. lia.
Qed.

Lemma msum_insert f m k v : msum f (<[k:=v]> m) = msum f m - at_key f m k + f k v.
Proof.
  rewrite <-insert_delete_eq, msum_insert_new by apply lookup_delete_eq.
  rewrite msum_delete. lia.
Qed.

Lemma msum_ext f g m : (∀ k v, m !! k = Some v → f k v = g k v) → msum f m = msum g m.
Proof.
  induction m as [|k v m Hk IH] using map_ind; intros Hfg.
  - by rewrite !msum_empty.
  - rewrite !msum_insert_new by done. rewrite IH.
    + rewrite (Hfg k v) by apply lookup_insert_eq. done.
    + intros k' v' Hk'. apply Hfg. rewrite lookup_insert_ne; [done|congruence].
Qed.

Lemma msum_le f g m : (∀ k v, m !! k = Some v → f k v ≤ g k v) → msum f m ≤ msum g m.
Proof.
  induction m as [|k v m Hk IH] using map_ind; intros Hfg.
  - by rewrite !msum_empty.
  - rewrite !msum_insert_new by done.
    assert (f k v ≤ g k v) by (apply Hfg, lookup_insert_eq).
    assert (msum f m ≤ msum g m); [|lia].
    apply IH. intros k' v' Hk'. apply Hfg. rewrite lookup_insert_ne; [done|congruence].
Qed.

Lemma msum_zero f m : (∀ k v, m !! k = Some v → f k v = 0) → msum f m = 0.
Proof.
  intros Hf. rewrite (msum_ext f (λ _ _, 0)) by done. clear.
  induction m as [|k v m Hk IH] using map_ind; [apply msum_empty|].
  rewrite msum_insert_new by done. lia.
Qed.

Lemma msum_nonneg f m : (∀ k v, m !! k = Some v → 0 ≤ f k v) → 0 ≤ msum f m.
Proof.
  intros Hf. rewrite <-(msum_zero (λ _ _, 0) m) by done. by apply msum_le.
Qed.

(** A summand is at most the whole, when every summand is non-negative. *)
Lemma msum_at_key_le f m k :
  (∀ k v, m !! k = Some v → 0 ≤ f k v) → at_key f m k ≤ msum f m.
Proof.
  intros Hf. assert (0 ≤ msum f (delete k m)).
  { apply msum_nonneg. intros k' v' [_ Hk']%lookup_delete_Some. eauto. }
  rewrite msum_delete in *. lia.
Qed.

Lemma msum_add f g m : msum (λ k v, f k v + g k v) m = msum f m + msum g m.
Proof.
  induction m as [|k v m Hk IH] using map_ind; [by rewrite !msum_empty|].
  rewrite !msum_insert_new by done. lia.
Qed.

(** No entry contributes when the total is zero and every summand is
    non-negative. *)
Lemma msum_zero_inv f m k v :
  (∀ k v, m !! k = Some v → 0 ≤ f k v) → msum f m = 0 → m !! k = Some v → f k v = 0.
Proof.
  intros Hf Hs Hk. pose proof (msum_at_key_le f m k Hf) as Hle.
  unfold at_key in Hle. rewrite Hk in Hle. simpl in Hle. specialize (Hf _ _ Hk). lia.
Qed.
End TableSum.

#[global] Arguments msum {K V _ _} f m.
#[global] Arguments at_key {K V _ _} f m k.
#[global] Typeclasses Opaque msum at_key.

(** * Group commit

    Both write-ahead threads of the program, the audit writer
    ([crates/record-store-audit/src/lib.rs]) and the metadata writer
    ([crates/record-store-metadata/src/redb_store.rs]), take whatever has
    queued, apply it in one transaction and commit once; when one element of
    the batch fails they abandon the transaction and apply every element in a
    transaction of its own. This file holds the part of the argument the two
    share: what a committed batch leaves behind is what committing its elements
    one at a time would have left, replies included. *)


Module GroupCommit.
Section GroupCommit.
Context {S E A B : Type} (apply : A → tx S E B).

(** The specification: every element in a transaction of its own. *)
Fixpoint one_at_a_time (batch : list A) (s : S) : list (result E B) * S :=
  match batch with
  | [] => ([], s)
  | x :: batch =>
      let (r, s1) := atomically (apply x) s in
      let (rs, s2) := one_at_a_time batch s1 in (r :: rs, s2)
  end.

(** Applying a batch inside one transaction, collecting the outcomes. *)
Fixpoint apply_all (batch : list A) : tx S E (list B) :=
  match batch with
  | [] => mret []
  | x :: batch => b ← apply x; bs ← apply_all batch; mret (b :: bs)
  end.

Lemma apply_all_one_at_a_time batch s bs s' :
  apply_all batch s = (Ok bs, s') → one_at_a_time batch s = (Ok <$> bs, s').
Proof.
  revert s bs. induction batch as [|x batch IH]; intros s bs Hrun; cbn [apply_all] in Hrun.
  { by apply tx_ret_ok in Hrun as [-> ->]. }
  tx_step Hrun. cbn [one_at_a_time]. unfold atomically. rewrite Ha.
  by rewrite (IH _ _ Ha0).
Qed.

Lemma one_at_a_time_app l l' s :
  one_at_a_time (l ++ l') s =
  let (rs, s1) := one_at_a_time l s in
  let (rs', s2) := one_at_a_time l' s1 in (rs ++ rs', s2).
Proof.
  revert s. induction l as [|x l IH]; intros s; cbn [one_at_a_time app].
  - by destruct (one_at_a_time l' s).
  - destruct (atomically (apply x) s) as [r s1]. rewrite IH.
    destruct (one_at_a_time l s1) as [rs s2]. by destruct (one_at_a_time l' s2).
Qed.

Lemma one_at_a_time_singleton x s :
  one_at_a_time [x] s = let (r, s') := atomically (apply x) s in ([r], s').
Proof. simpl. by destruct (atomically (apply x) s). Qed.

(** The writer thread: batch after batch, in arrival order. How the arrivals
    are cut into batches depends on timing, so it is an argument. *)
Fixpoint writer_run (commit_batch : list A → S → list (result E B) * S)
    (batches : list (list A)) (s : S) : list (result E B) * S :=
  match batches with
  | [] => ([], s)
  | batch :: batches =>
      let (rs, s1) := commit_batch batch s in
      let (rs', s2) := writer_run commit_batch batches s1 in (rs ++ rs', s2)
  end.

Lemma writer_run_one_at_a_time commit_batch batches s :
  (∀ batch s, commit_batch batch s = one_at_a_time batch s) →
  writer_run commit_batch batches s = one_at_a_time (concat batches) s.
Proof.
  intros Hcommit. revert s. induction batches as [|batch batches IH]; intros s; [done|].
  cbn [writer_run concat]. rewrite Hcommit, one_at_a_time_app.
  destruct (one_at_a_time batch s) as [rs s1]. by rewrite IH.
Qed.
End GroupCommit.
End GroupCommit.

(** * Pages and cursors

    Every listing of the program follows one scheme: scan an ordered table from
    a cursor, read one entry more than the page may hold, drop the extra entry
    and report the last one kept as the cursor of the next page. This file holds
    the scheme ([scan_limit], [trim]), the client that follows cursors to the end
    ([follow]), and what makes it complete. *)


(** ** One page *)

(** [Vec::pop]. *)
Definition pop {A} (l : list A) : list A := take (length l - 1) l.

(** [.take(limit + 1)]. *)
Definition scan_limit {A} (limit : Z) (l : list A) : list A := take (Z.to_nat (u64_add limit 1)) l.

(** [if out.len() > limit { out.pop(); }], and whether it was. *)
Definition trim {A} (limit : Z) (out : list A) : list A * bool :=
  if limit <? Z.of_nat (length out) then (pop out, true) else (out, false).

Lemma trim_scan {A} (limit : Z) (l : list A) :
  0 ≤ limit < u64_max →
  trim limit (scan_limit limit l) =
  (take (Z.to_nat limit) l, limit <? Z.of_nat (length l)).
Proof.
  intros Hl. unfold trim, scan_limit, pop, u64_add. rewrite u64_wrap_id by (unfold is_u64; lia).
  rewrite length_take. replace (Z.to_nat (limit + 1)) with (S (Z.to_nat limit)) by lia.
  destruct (Z.ltb_spec limit (Z.of_nat (length l))), (Z.ltb_spec limit (Z.of_nat (S (Z.to_nat limit) `min` length l))); try lia.
  - f_equal. rewrite take_take. f_equal. lia.
  - f_equal. by rewrite !take_ge by lia.
Qed.

(** What every entry of a scan resolves to, when none fails to. *)
Section Resolve.
Context {A B E : Type} (f : A → option B) (e : E).

Lemma resolve_all (l : list A) :
  Forall (λ x, is_Some (f x)) l → mapM (λ x, ok_or e (f x)) l = Ok (omap f l).
Proof.
  induction 1 as [|x l [y Hy] _ IH]; [done|]. cbn [mapM omap list_omap]. rewrite Hy. simpl.
  by rewrite IH.
Qed.

Lemma omap_length_all (l : list A) : Forall (λ x, is_Some (f x)) l → length (omap f l) = length l.
Proof. induction 1 as [|x l [y Hy] _ IH]; [done|]. cbn [omap list_omap]. rewrite Hy. simpl. by rewrite IH. Qed.

Lemma omap_take_all n (l : list A) :
  Forall (λ x, is_Some (f x)) l → omap f (take n l) = take n (omap f l).
Proof.
  intros Hl. revert n. induction Hl as [|x l [y Hy] _ IH]; intros [|n]; try done.
  cbn [take omap list_omap]. rewrite Hy. simpl. by rewrite IH.
Qed.
End Resolve.

(** One page over a table: either everything that was left, or a non-empty page
    ending in an entry after which a scan finds exactly the rest. *)
Lemma table_page {V B} (f : bytes * V → option B) (t : gmap bytes V) lo hi limit :
  (∀ k v, t !! k = Some v → bytes_ok k) → 1 ≤ limit < u64_max →
  Forall (λ kv, is_Some (f kv)) (table_range lo hi t) →
  let '(items, more) := trim limit (omap f (scan_limit limit (table_range lo hi t))) in
  if more then ∃ pre k v x, items = pre ++ [x] ∧ f (k, v) = Some x ∧ t !! k = Some v ∧ in_range lo hi k ∧
    omap f (table_range lo hi t) = items ++ omap f (table_range (k ++ [0]) hi t)
  else items = omap f (table_range lo hi t).
Proof.
  intros Hok Hl Hall. unfold scan_limit. rewrite omap_take_all by done.
  change (take _ (omap f (table_range lo hi t))) with (scan_limit limit (omap f (table_range lo hi t))).
  rewrite trim_scan by lia. rewrite omap_length_all by done.
  destruct (Z.ltb_spec limit (Z.of_nat (length (table_range lo hi t)))) as [Hlt|Hge].
  2: { rewrite take_ge; [done|]. rewrite omap_length_all by done. lia. }
  set (L := table_range lo hi t) in *. set (n := (Z.to_nat limit - 1)%nat).
  destruct (lookup_lt_is_Some_2 L n) as [[k v] Hkv]; [lia|].
  pose proof (take_drop_middle L n (k, v) Hkv) as Hsplit.
  assert (Hin : (k, v) ∈ L) by by eapply list_elem_of_lookup_2.
  pose proof (proj1 (elem_of_table_range t lo hi k v) Hin) as [Ht Hr].
  rewrite Forall_forall in Hall. destruct (Hall _ Hin) as [x Hx].
  pose proof (table_range_resume t lo hi (take n L) k v (drop (S n) L) Hok (eq_sym Hsplit)) as Hrest.
  replace (Z.to_nat limit) with (S n) by lia.
  rewrite <-omap_take_all by (by apply Forall_forall).
  rewrite (take_S_r _ _ _ Hkv), omap_app. cbn [omap list_omap]. rewrite Hx.
  exists (omap f (take n L)), k, v, x. rewrite Hrest. split_and!; [done..|].
  rewrite <-Hsplit at 1. rewrite omap_app. cbn [omap list_omap]. rewrite Hx, <-app_assoc. done.
Qed.

(** ** Following cursors *)

Section Follow.
Context {C I E : Type} (page : C → result E (list I * option C)).

(** A client that asks for page after page, at most [fuel] times after the
    first; [None] is a client that gave up. *)
Fixpoint follow (fuel : nat) (cursor : C) : result E (option (list I)) :=
  match page cursor with
  | Err e => Err e
  | Ok (items, None) => Ok (Some items)
  | Ok (items, Some cursor) =>
      match fuel with
      | O => Ok None
      | S fuel => option_map (app items) <$> follow fuel cursor
      end
  end.

(** If every page holds the first entries of what is left and its cursor stands
    for the others, and no page before the last is empty, then following the
    cursors ends and collects everything once. *)
Lemma follow_complete (good : C → Prop) (rest : C → list I) fuel cursor :
  (∀ c, good c → ∃ items next, page c = Ok (items, next) ∧
    match next with
    | None => items = rest c
    | Some c' => items ≠ [] ∧ good c' ∧ rest c = items ++ rest c'
    end) →
  good cursor → (length (rest cursor) ≤ fuel)%nat → follow fuel cursor = Ok (Some (rest cursor)).
Proof.
  intros Hpage. revert cursor. induction fuel as [|fuel IH]; intros cursor Hgood Hlen;
    destruct (Hpage cursor Hgood) as (items & [c'|] & Hp & Hrest); cbn [follow]; rewrite Hp.
  - destruct Hrest as (Hne & _ & Hr). rewrite Hr, length_app in Hlen. destruct items; [done|simpl in Hlen; lia].
  - by rewrite Hrest.
  - destruct Hrest as (Hne & Hg & Hr). rewrite Hr in Hlen |- *. rewrite length_app in Hlen.
    rewrite IH; [done|done|]. destruct items; [done|]. simpl in Hlen. lia.
  - by rewrite Hrest.
Qed.
End Follow.

(** ** Sorted scans *)

(** Mapping a sorted range keeps a sorted order, if the images of its entries
    are ordered as their keys are. *)
Lemma table_range_omap_sorted {V B} (f : bytes * V → option B) (R : relation B) (t : gmap bytes V) lo hi :
  (∀ k v k' v' x x', t !! k = Some v → t !! k' = Some v' → in_range lo hi k → in_range lo hi k' →
     f (k, v) = Some x → f (k', v') = Some x' → bytes_lt k k' → R x x') →
  StronglySorted R (omap f (table_range lo hi t)).
Proof.
  intros HR.
  assert (Hin : ∀ k v, (k, v) ∈ table_range lo hi t → t !! k = Some v ∧ in_range lo hi k)
    by (intros; by apply elem_of_table_range).
  pose proof (table_range_sorted t lo hi) as Hs. pose proof (table_range_NoDup t lo hi) as Hn.
  induction (table_range lo hi t) as [|[k v] l IH]; [constructor|].
  apply StronglySorted_inv in Hs as [Hs Hle]. cbn in Hn. apply NoDup_cons in Hn as [Hne Hn].
  assert (Hl : StronglySorted R (omap f l)) by (apply IH; [intros; apply Hin; by right|done|done]).
  cbn [omap list_omap]. destruct (f (k, v)) as [x|] eqn:Hx; [|done]. constructor; [done|].
  apply Forall_forall. intros x' ([k' v'] & Hkv & Hx')%list_elem_of_omap.
  destruct (Hin k v) as [Ht Hr]; [by left|]. destruct (Hin k' v') as [Ht' Hr']; [by right|].
  apply (HR k v k' v'); try done. apply bytes_lt_alt. rewrite Forall_forall in Hle.
  split; [by apply (Hle (k', v'))|]. intros ->. apply Hne, list_elem_of_fmap. by exists (k', v').
Qed.

(** Filtering looks at the elements only. *)
Lemma filter_ext_in {A} (P Q : A → Prop) `{∀ x, Decision (P x), ∀ x, Decision (Q x)} (l : list A) :
  (∀ x, x ∈ l → P x ↔ Q x) → filter P l = filter Q l.
Proof.
  induction l as [|x l IH]; intros Hpq; [done|]. rewrite !filter_cons, IH by (intros; apply Hpq; by right).
  destruct (Hpq x) as [H1 H2]; [by left|]. repeat case_decide; naive_solver.
Qed.
