(* ===== verification/Digest.v ===== *)
(** * Digests

    The audit log, its Merkle trees and its checkpoints all commit through
    SHA-256, which the repository takes from the [sha2] crate. The models take
    it as an interface: a function from byte strings to 32 bytes. Theorems that
    need the function not to collide say so of the preimages the computation at
    hand really hashes ([collision_free_on]), which, unlike injectivity, a
    32-byte digest can satisfy.

    [Sha256] is an executable SHA-256. No theorem depends on it: it instantiates
    the interface in witnesses, and evaluates the models on the known-answer
    vectors that the repository pins. *)

From S2P Require Import Prelude Bytes.

Class HashFunction := {
  digest : bytes → bytes;
  digest_length : ∀ x, length (digest x) = 32%nat;
}.

(** No two different members of [l] have the same digest. *)
Definition collision_free_on `{HashFunction} (l : list bytes) : Prop :=
  ∀ x y, x ∈ l → y ∈ l → digest x = digest y → x = y.

Lemma collision_free_on_subset `{HashFunction} l l' :
  l' ⊆ l → collision_free_on l → collision_free_on l'.
Proof. intros Hsub Hl x y Hx Hy. apply Hl; set_solver. Qed.

(** A decision procedure, for concrete lists. *)
Definition collision_free_onb `{HashFunction} (l : list bytes) : bool :=
  let dl := (λ x, (digest x, x)) <$> l in
  forallb (λ p, forallb (λ q, implb (bool_decide (p.1 = q.1)) (bool_decide (p.2 = q.2))) dl) dl.

Lemma collision_free_onb_sound `{HashFunction} l :
  collision_free_onb l = true → collision_free_on l.
Proof.
  unfold collision_free_onb. intros Hb x y Hx Hy Hd.
  rewrite forallb_forall in Hb.
  assert (Hin : ∀ z, z ∈ l → In (digest z, z) ((λ x, (digest x, x)) <$> l)).
  { intros z Hz. apply list_elem_of_In, list_elem_of_fmap. eauto. }
  specialize (Hb _ (Hin _ Hx)). rewrite forallb_forall in Hb.
  specialize (Hb _ (Hin _ Hy)). simpl in Hb.
  rewrite bool_decide_eq_true_2 in Hb by done. simpl in Hb.
  by apply bool_decide_eq_true in Hb.
Qed.

(** ** SHA-256, FIPS 180-4 *)

Module Sha256.

Definition mask : Z := 4294967295.
Definition add32 (a b : Z) : Z := Z.land (a + b) mask.
Definition rotr (n x : Z) : Z :=
  Z.lor (Z.shiftr x n) (Z.land (Z.shiftl x (32 - n)) mask).
Definition ch (x y z : Z) : Z := Z.lxor (Z.land x y) (Z.land (Z.lxor x mask) z).
Definition maj (x y z : Z) : Z := Z.lxor (Z.lxor (Z.land x y) (Z.land x z)) (Z.land y z).
Definition bsig0 (x : Z) : Z := Z.lxor (Z.lxor (rotr 2 x) (rotr 13 x)) (rotr 22 x).
Definition bsig1 (x : Z) : Z := Z.lxor (Z.lxor (rotr 6 x) (rotr 11 x)) (rotr 25 x).
Definition ssig0 (x : Z) : Z := Z.lxor (Z.lxor (rotr 7 x) (rotr 18 x)) (Z.shiftr x 3).
Definition ssig1 (x : Z) : Z := Z.lxor (Z.lxor (rotr 17 x) (rotr 19 x)) (Z.shiftr x 10).

(** The constants, computed from their definition: the first 32 bits of the
    fractional parts of the cube roots of the first 64 primes, and of the square
    roots of the first eight. *)
Definition is_prime (n : Z) : bool :=
  forallb (λ d, negb (n mod d =? 0)) (Z.of_nat <$> seq 2 (Z.to_nat (Z.sqrt n) - 1)).

Definition primes : list Z := filter (λ n, is_prime n = true) (Z.of_nat <$> seq 2 310).

(** The integer cube root below [2 ^ bits], bit by bit. *)
Fixpoint cbrt (bits : nat) (acc n : Z) : Z :=
  match bits with
  | O => acc
  | S bits =>
      let candidate := acc + 2 ^ Z.of_nat bits in
      cbrt bits (if candidate * candidate * candidate <=? n then candidate else acc) n
  end.

Definition round_constants : list Z :=
  Eval vm_compute in (λ p, Z.land (cbrt 40 0 (Z.shiftl p 96)) mask) <$> primes.

Definition initial_words : list Z :=
  Eval vm_compute in (λ p, Z.land (Z.sqrt (Z.shiftl p 64)) mask) <$> take 8 primes.

Record state := St { sa : Z; sb : Z; sc : Z; sd : Z; se : Z; sf : Z; sg : Z; sh : Z }.

Definition initial : state :=
  let w i := nth i initial_words 0 in
  St (w 0%nat) (w 1%nat) (w 2%nat) (w 3%nat) (w 4%nat) (w 5%nat) (w 6%nat) (w 7%nat).

Definition round (k w : Z) (s : state) : state :=
  let t1 := add32 (add32 (add32 (add32 (sh s) (bsig1 (se s))) (ch (se s) (sf s) (sg s))) k) w in
  let t2 := add32 (bsig0 (sa s)) (maj (sa s) (sb s) (sc s)) in
  St (add32 t1 t2) (sa s) (sb s) (sc s) (add32 (sd s) t1) (se s) (sf s) (sg s).

Definition window_next (win : list Z) : list Z :=
  let w i := nth i win 0 in
  tail win ++ [add32 (add32 (ssig1 (w 14%nat)) (w 9%nat)) (add32 (ssig0 (w 1%nat)) (w 0%nat))].

Fixpoint rounds (ks : list Z) (win : list Z) (s : state) : state :=
  match ks with
  | [] => s
  | k :: ks => rounds ks (window_next win) (round k (nth 0 win 0) s)
  end.

Definition compress (s : state) (block : list Z) : state :=
  let r := rounds round_constants block s in
  St (add32 (sa s) (sa r)) (add32 (sb s) (sb r)) (add32 (sc s) (sc r)) (add32 (sd s) (sd r))
     (add32 (se s) (se r)) (add32 (sf s) (sf r)) (add32 (sg s) (sg r)) (add32 (sh s) (sh r)).

Definition padded (m : bytes) : bytes :=
  let len := Z.of_nat (length m) in
  m ++ [128] ++ replicate (Z.to_nat ((55 - len) mod 64)) 0 ++ be_bytes 8 (8 * len).

Fixpoint words (n : nat) (m : bytes) : list Z :=
  match n, m with
  | S n, a :: b :: c :: d :: m => be_value [a; b; c; d] :: words n m
  | _, _ => []
  end.

Fixpoint blocks (n : nat) (ws : list Z) : list (list Z) :=
  match n with
  | O => []
  | S n => take 16 ws :: blocks n (drop 16 ws)
  end.

Definition hash (m : bytes) : bytes :=
  let p := padded m in
  let ws := words (length p / 4) p in
  let s := foldl compress initial (blocks (length ws / 16) ws) in
  be_bytes 4 (sa s) ++ be_bytes 4 (sb s) ++ be_bytes 4 (sc s) ++ be_bytes 4 (sd s) ++
  be_bytes 4 (se s) ++ be_bytes 4 (sf s) ++ be_bytes 4 (sg s) ++ be_bytes 4 (sh s).

Lemma hash_length m : length (hash m) = 32%nat.
Proof. unfold hash. by rewrite !length_app, !length_be_bytes. Qed.

End Sha256.

Definition sha256_function : HashFunction :=
  {| digest := Sha256.hash; digest_length := Sha256.hash_length |}.

(** Hexadecimal literals, for the pinned vectors. *)
Definition hex_digit (a : Ascii.ascii) : Z :=
  let c := byte_of_ascii a in
  if (48 <=? c) && (c <=? 57) then c - 48
  else if (97 <=? c) && (c <=? 102) then c - 87 else 0.

Fixpoint of_hex (s : string) : bytes :=
  match s with
  | String a (String b s) => hex_digit a * 16 + hex_digit b :: of_hex s
  | _ => []
  end.

(** The vector of the FIPS 180-4 examples. *)
Example sha256_abc :
  Sha256.hash (bytes_of_string "abc") =
  of_hex "ba7816bf8f01cfea414140de5dae2223b00361a396177a9cb410ff61f20015ad".
Proof. vm_compute. reflexivity. Qed.

(** * Small crates

    What the storage and proof layers use of the crates [hex] and [md-5], as
    interfaces of the models. *)


(** [hex::encode] and [hex::decode]. *)
Class HexCrate := { hex_encode : bytes → bytes; hex_decode : bytes → option bytes }.
Class HexLaws `{HexCrate} : Prop := {
  hex_decode_encode : ∀ x, bytes_ok x → hex_decode (hex_encode x) = Some x;
  length_hex_encode : ∀ x, length (hex_encode x) = (2 * length x)%nat }.

(** The MD5 digest, which entity tags show in hexadecimal. *)
Class Md5Crate := { md5 : bytes → bytes }.
