(* ===== verification/Merkle.v ===== *)
(** * The Merkle tree of a checkpoint

    [crates/record-store-audit/src/merkle.rs]: the tree a checkpoint commits
    over, inclusion paths, and their offline verification. Positions that the
    code holds as [usize] indices into a level are [nat], the [u64] leaf count
    and index of a path are [Z].

    What is shown: building and verifying agree on every tree (completeness);
    an accepted path proves membership, and names exactly the siblings of one
    position of the tree (soundness); the root determines the records
    (binding); the loops terminate within the fuel given. Soundness is relative
    to the absence of collisions among the preimages that the two computations
    hash, listed by [root_preimages] and [path_preimages]. *)

From S2P Require Import Prelude Bytes Digest.

Module Merkle.

Definition MERKLE_DOMAIN : bytes := bytes_of_string "record-store/audit-merkle/v1".
Definition LEAF_PREFIX : Z := 0x00.
Definition NODE_PREFIX : Z := 0x01.
Definition ROOT_PREFIX : Z := 0x02.

(** Which side of its parent a sibling sits on. *)
Inductive Side := Left | Right.

Record PathStep := { step_side : Side; step_hash : bytes }.
Record InclusionPath := { path_index : Z; path_steps : list PathStep }.

Section Tree.
Context `{HashFunction}.

(** The byte strings the three kinds of node hash. *)
Definition leaf_preimage (record_hash : bytes) : bytes :=
  MERKLE_DOMAIN ++ [LEAF_PREFIX] ++ record_hash.
Definition node_preimage (left right : bytes) : bytes :=
  MERKLE_DOMAIN ++ [NODE_PREFIX] ++ left ++ right.
Definition root_preimage (apex : bytes) : bytes :=
  MERKLE_DOMAIN ++ [ROOT_PREFIX] ++ apex.

Definition leaf_hash (record_hash : bytes) : bytes := digest (leaf_preimage record_hash).
Definition node_hash (left right : bytes) : bytes := digest (node_preimage left right).
Definition root_hash (apex : bytes) : bytes := digest (root_preimage apex).

(** Reduces one level of the tree to its parents: the pairs of
    [chunks_exact(2)], then the odd node of the remainder unchanged. *)
Fixpoint combine (level : list bytes) : list bytes :=
  match level with
  | [] => []
  | [odd] => [odd]
  | l :: r :: rest => node_hash l r :: combine rest
  end.

(** [while level.len() > 1 { level = combine(&level) }]. *)
Fixpoint reduce (fuel : nat) (level : list bytes) : list bytes :=
  match fuel with
  | O => level
  | S fuel => if (1 <? length level)%nat then reduce fuel (combine level) else level
  end.

(** A level at least halves, rounding up, so its length bounds the passes. *)
Definition root (record_hashes : list bytes) : option bytes :=
  if decide (record_hashes = []) then None
  else root_hash <$> head (reduce (length record_hashes) (leaf_hash <$> record_hashes)).

(** The loop of [path_length]. *)
Fixpoint path_length_loop (fuel : nat) (remaining position : Z) (steps : nat) : nat :=
  match fuel with
  | O => steps
  | S fuel =>
      if 1 <? remaining then
        let promoted := (position =? remaining - 1) && negb (remaining mod 2 =? 0) in
        let steps := if promoted then steps else S steps in
        path_length_loop fuel ((remaining + 1) / 2) (position / 2) steps
      else steps
  end.

(** A [u64] leaf count reaches one within 64 halvings. *)
Definition path_length (leaf_count index : Z) : option nat :=
  if leaf_count <=? index then None
  else Some (path_length_loop 64 leaf_count index 0).

(** The sibling step the code pushes at one level, if the node has one. *)
Definition sibling (level : list bytes) (position : nat) : option PathStep :=
  if (position mod 2 =? 0)%nat then
    (λ h, {| step_side := Right; step_hash := h |}) <$> level !! (position + 1)%nat
  else
    (λ h, {| step_side := Left; step_hash := h |}) <$> level !! (position - 1)%nat.

Fixpoint inclusion_steps (fuel : nat) (level : list bytes) (position : nat) : list PathStep :=
  match fuel with
  | O => []
  | S fuel =>
      if (1 <? length level)%nat then
        option_list (sibling level position) ++
        inclusion_steps fuel (combine level) (position / 2)
      else []
  end.

Definition inclusion_path (record_hashes : list bytes) (index : nat) : option InclusionPath :=
  if (length record_hashes <=? index)%nat then None
  else Some {| path_index := Z.of_nat index;
               path_steps := inclusion_steps (length record_hashes)
                               (leaf_hash <$> record_hashes) index |}.

Definition fold_step (current : bytes) (step : PathStep) : bytes :=
  match step_side step with
  | Left => node_hash (step_hash step) current
  | Right => node_hash current (step_hash step)
  end.

(** Folds a path from its leaf to the apex, without judging its shape. *)
Definition fold_to_apex (record_hash : bytes) (path : InclusionPath) : bytes :=
  foldl fold_step (leaf_hash record_hash) (path_steps path).

Definition root_from_path (record_hash : bytes) (path : InclusionPath) (leaf_count : Z)
    : option bytes :=
  n ← path_length leaf_count (path_index path);
  if decide (n = length (path_steps path))
  then Some (root_hash (fold_to_apex record_hash path)) else None.

Definition verify_inclusion (record_hash : bytes) (path : InclusionPath)
    (expected_root : bytes) (leaf_count : Z) : bool :=
  match root_from_path record_hash path leaf_count with
  | Some computed => bool_decide (computed = expected_root)
  | None => false
  end.

(** ** What the computations hash *)

Fixpoint combine_preimages (level : list bytes) : list bytes :=
  match level with
  | l :: r :: rest => node_preimage l r :: combine_preimages rest
  | _ => []
  end.

Fixpoint reduce_preimages (fuel : nat) (level : list bytes) : list bytes :=
  match fuel with
  | O => []
  | S fuel =>
      if (1 <? length level)%nat
      then combine_preimages level ++ reduce_preimages fuel (combine level) else []
  end.

Definition root_preimages (record_hashes : list bytes) : list bytes :=
  let leaves := leaf_hash <$> record_hashes in
  let fuel := length record_hashes in
  (leaf_preimage <$> record_hashes) ++ reduce_preimages fuel leaves ++
  (root_preimage <$> option_list (head (reduce fuel leaves))).

Fixpoint fold_preimages (current : bytes) (steps : list PathStep) : list bytes :=
  match steps with
  | [] => []
  | step :: steps =>
      match step_side step with
      | Left => node_preimage (step_hash step) current
      | Right => node_preimage current (step_hash step)
      end :: fold_preimages (fold_step current step) steps
  end.

Definition path_preimages (record_hash : bytes) (path : InclusionPath) : list bytes :=
  leaf_preimage record_hash :: root_preimage (fold_to_apex record_hash path) ::
  fold_preimages (leaf_hash record_hash) (path_steps path).
End Tree.

(** ** Shape lemmas *)

Section Shape.
Context `{HashFunction}.

(** Induction two elements at a time, as [combine] consumes a level. *)
Lemma pair_ind {A} (P : list A → Prop) :
  P [] → (∀ x, P [x]) → (∀ x y l, P l → P (x :: y :: l)) → ∀ l, P l.
Proof.
  intros H0 H1 H2. fix IH 1. intros [|x [|y l]]; [done|done|]. apply H2, IH.
Qed.

Lemma length_combine level : length (combine level) = ((length level + 1) / 2)%nat.
Proof.
  induction level as [| |x y l IH] using pair_ind; [done|done|].
  cbn [combine length]. rewrite IH.
  replace (S (S (length l)) + 1)%nat with ((length l + 1) + 1 * 2)%nat by lia.
  rewrite Nat.div_add by lia. lia.
Qed.

Lemma combine_lt level :
  (1 < length level)%nat → (0 < length (combine level) < length level)%nat.
Proof.
  intros Hl. rewrite length_combine.
  pose proof (Nat.div_mod_eq (length level + 1) 2).
  pose proof (Nat.mod_upper_bound (length level + 1) 2). lia.
Qed.

(** A fuel of the level's length is enough to reach a single node. *)
Lemma reduce_length fuel level :
  (0 < length level ≤ fuel)%nat → length (reduce fuel level) = 1%nat.
Proof.
  revert level. induction fuel as [|fuel IH]; intros level Hl; [lia|].
  cbn [reduce]. destruct (Nat.ltb_spec 1 (length level)); [|lia].
  apply IH. pose proof (combine_lt level). lia.
Qed.

(** More fuel changes nothing. *)
Lemma reduce_fuel fuel fuel' level :
  (length level ≤ fuel)%nat → (fuel ≤ fuel')%nat → reduce fuel' level = reduce fuel level.
Proof.
  revert fuel' level. induction fuel as [|fuel IH]; intros fuel' level Hl Hf.
  - destruct level; [|simpl in *; lia]. by destruct fuel'.
  - destruct fuel' as [|fuel']; [lia|]. cbn [reduce].
    destruct (Nat.ltb_spec 1 (length level)); [|done].
    apply IH; pose proof (combine_lt level); lia.
Qed.

(** The parent of a position: joined with its sibling, or promoted. *)
Lemma combine_lookup level position x :
  level !! position = Some x →
  combine level !! (position / 2)%nat =
    Some match sibling level position with
         | Some step => fold_step x step
         | None => x
         end.
Proof.
  revert position. induction level as [| a |a b l IH] using pair_ind; intros position Hp.
  - done.
  - destruct position as [|position]; [|by destruct position].
    simpl in Hp. injection Hp as ->. done.
  - destruct position as [|[|position]].
    + simpl in Hp. injection Hp as ->. done.
    + simpl in Hp. injection Hp as ->. done.
    + change (l !! position = Some x) in Hp. specialize (IH _ Hp). cbn [combine].
      replace (S (S position) / 2)%nat with (S (position / 2)).
      2:{ replace (S (S position)) with (position + 1 * 2)%nat by lia.
          rewrite Nat.div_add by lia. lia. }
      transitivity (combine l !! (position / 2)%nat); [done|]. rewrite IH. f_equal. unfold sibling.
      replace (S (S position) mod 2)%nat with (position mod 2)%nat.
      2:{ replace (S (S position)) with (position + 1 * 2)%nat by lia.
          by rewrite Nat.Div0.mod_add. }
      destruct (Nat.eqb_spec (position mod 2) 0) as [|Hodd].
      * done.
      * destruct position as [|position]; [done|].
        replace (S (S (S position)) - 1)%nat with (S (S (S position - 1))) by lia. done.
Qed.

Lemma sibling_Some level position x :
  level !! position = Some x →
  is_Some (sibling level position) ↔
  ¬ (S position = length level ∧ (length level mod 2 = 1)%nat).
Proof.
  intros Hp%lookup_lt_Some. unfold sibling.
  pose proof (Nat.div_mod_eq position 2). pose proof (Nat.div_mod_eq (length level) 2).
  pose proof (Nat.mod_upper_bound position 2). pose proof (Nat.mod_upper_bound (length level) 2).
  destruct (Nat.eqb_spec (position mod 2) 0).
  - rewrite fmap_is_Some, lookup_lt_is_Some. lia.
  - rewrite fmap_is_Some, lookup_lt_is_Some. lia.
Qed.

(** Folding the collected siblings reaches the apex. *)
Lemma inclusion_steps_fold fuel level position x :
  (length level ≤ fuel)%nat → level !! position = Some x →
  head (reduce fuel level) = Some (foldl fold_step x (inclusion_steps fuel level position)).
Proof.
  revert level position x. induction fuel as [|fuel IH]; intros level position x Hf Hp.
  - apply lookup_lt_Some in Hp. lia.
  - cbn [reduce inclusion_steps]. destruct (Nat.ltb_spec 1 (length level)) as [Hl|Hl].
    + pose proof (combine_lt level Hl).
      rewrite (IH (combine level) (position / 2)%nat _ ltac:(lia) (combine_lookup _ _ _ Hp)).
      rewrite foldl_app. by destruct (sibling level position).
    + pose proof (lookup_lt_Some _ _ _ Hp).
      destruct level as [|y [|]]; simpl in *; try lia.
      destruct position; [|lia]. simpl in Hp. congruence.
Qed.

(** ** The number of steps *)

Lemma path_length_loop_acc fuel remaining position steps :
  path_length_loop fuel remaining position steps =
  (steps + path_length_loop fuel remaining position 0)%nat.
Proof.
  revert remaining position steps. induction fuel as [|fuel IH]; intros; cbn [path_length_loop].
  - lia.
  - destruct (1 <? remaining); [|lia].
    destruct (_ && _); [apply IH|].
    rewrite (IH _ _ (S steps)), (IH _ _ 1%nat). lia.
Qed.

Lemma promoted_sibling level position :
  (position < length level)%nat →
  let remaining := Z.of_nat (length level) in
  (Z.of_nat position =? remaining - 1) && negb (remaining mod 2 =? 0) =
  negb (bool_decide (is_Some (sibling level position))).
Proof.
  intros Hp remaining. destruct (lookup_lt_is_Some_2 _ _ Hp) as [x Hx].
  pose proof (sibling_Some _ _ _ Hx) as Hs. unfold remaining.
  assert (Hmod : Z.of_nat (length level) mod 2 = Z.of_nat (length level mod 2)).
  { by rewrite Nat2Z.inj_mod. }
  rewrite Hmod. pose proof (Nat.mod_upper_bound (length level) 2).
  destruct (Z.eqb_spec (Z.of_nat position) (Z.of_nat (length level) - 1));
    destruct (Z.eqb_spec (Z.of_nat (length level mod 2)) 0); simpl; symmetry;
    rewrite ?negb_true_iff, ?negb_false_iff, ?bool_decide_eq_true, ?bool_decide_eq_false, Hs; lia.
Qed.

(** The fuel of [path_length] halves down to one a count of at most [2 ^ fuel],
    and the loop counts the siblings the builder collects. *)
Lemma length_inclusion_steps fuel fuel' level position :
  (length level ≤ fuel)%nat → Z.of_nat (length level) ≤ 2 ^ Z.of_nat fuel' →
  (position < length level)%nat →
  length (inclusion_steps fuel level position) =
  path_length_loop fuel' (Z.of_nat (length level)) (Z.of_nat position) 0.
Proof.
  revert fuel' level position. induction fuel as [|fuel IH]; intros fuel' level position Hf Hf' Hp; [lia|].
  cbn [inclusion_steps]. destruct (Nat.ltb_spec 1 (length level)) as [Hl|Hl].
  - destruct fuel' as [|fuel']; [simpl in Hf'; lia|].
    cbn [path_length_loop]. destruct (Z.ltb_spec 1 (Z.of_nat (length level))); [|lia].
    rewrite (promoted_sibling _ _ Hp), path_length_loop_acc, length_app.
    pose proof (combine_lt _ Hl). pose proof (length_combine level) as Hc.
    rewrite (IH fuel'); [|lia| |].
    + rewrite Hc, !Nat2Z.inj_div, Nat2Z.inj_add.
      f_equal. destruct (sibling level position); done.
    + rewrite Hc, Nat2Z.inj_div, Nat2Z.inj_add.
      rewrite Nat2Z.inj_succ, Z.pow_succ_r in Hf' by lia.
      apply Z.lt_succ_r, Z.div_lt_upper_bound; lia.
    + rewrite Hc. apply Nat.div_le_lower_bound; [lia|].
      pose proof (Nat.div_mod_eq position 2). lia.
  - destruct fuel'; cbn [path_length_loop]; [done|].
    destruct (Z.ltb_spec 1 (Z.of_nat (length level))); [lia|done].
Qed.

Lemma reduce_head fuel level :
  (0 < length level ≤ fuel)%nat → ∃ apex, reduce fuel level = [apex].
Proof.
  intros Hl. pose proof (reduce_length fuel level Hl) as Hr.
  destruct (reduce fuel level) as [|a [|]]; try discriminate. eauto.
Qed.

(** The root of a non-empty list is the root hash of its apex. *)
Lemma root_apex record_hashes :
  record_hashes ≠ [] →
  ∃ apex, reduce (length record_hashes) (leaf_hash <$> record_hashes) = [apex] ∧
          root record_hashes = Some (root_hash apex).
Proof.
  intros Hne.
  destruct (reduce_head (length record_hashes) (leaf_hash <$> record_hashes)) as [apex Ha].
  { rewrite length_fmap. destruct record_hashes; simpl; [done|lia]. }
  exists apex. split; [done|]. unfold root. rewrite decide_False by done. by rewrite Ha.
Qed.

End Shape.

(** ** Soundness *)

Section Soundness.
Context `{HashFunction}.

Lemma leaf_preimage_inj a b : leaf_preimage a = leaf_preimage b → a = b.
Proof. unfold leaf_preimage. intros ?%app_inv_head. by simplify_eq/=. Qed.
Lemma root_preimage_inj a b : root_preimage a = root_preimage b → a = b.
Proof. unfold root_preimage. intros ?%app_inv_head. by simplify_eq/=. Qed.
Lemma leaf_node_preimage a l r : leaf_preimage a ≠ node_preimage l r.
Proof. unfold leaf_preimage, node_preimage. by intros ?%app_inv_head. Qed.

(** The right child's length is enough to split a node. *)
Lemma node_preimage_inj l r l' r' :
  length r = length r' → node_preimage l r = node_preimage l' r' → l = l' ∧ r = r'.
Proof.
  unfold node_preimage. intros Hl Heq%app_inv_head. injection Heq as Heq.
  by apply app_inj_2.
Qed.
Lemma node_preimage_inj_l l r l' r' :
  length l = length l' → node_preimage l r = node_preimage l' r' → l = l' ∧ r = r'.
Proof.
  unfold node_preimage. intros Hl Heq%app_inv_head. injection Heq as Heq.
  by apply app_inj_1.
Qed.

Lemma fold_preimages_app x p q :
  fold_preimages x (p ++ q) = fold_preimages x p ++ fold_preimages (foldl fold_step x p) q.
Proof. revert x. induction p as [|s p IH]; intros x; simpl; [done|]. by rewrite IH. Qed.

Lemma length_foldl_fold_step x p :
  length x = 32%nat → length (foldl fold_step x p) = 32%nat.
Proof.
  revert x. induction p as [|s p IH]; intros x Hx; [done|]. simpl. apply IH.
  unfold fold_step. destruct (step_side s); apply digest_length.
Qed.

Lemma combine_digests level :
  Forall (λ h, length h = 32%nat) level → Forall (λ h, length h = 32%nat) (combine level).
Proof.
  induction level as [| |l r level IH] using pair_ind; [done|done|].
  intros Hl. apply Forall_cons in Hl as [_ [_ ?]%Forall_cons]. simpl. constructor; [|auto].
  apply digest_length.
Qed.

(** A parent node is its only child promoted, or the hash of two children. *)
Lemma combine_lookup_inv level k x :
  combine level !! k = Some x →
  (level !! (2 * k)%nat = Some x ∧ level !! S (2 * k) = None) ∨
  (∃ l r, level !! (2 * k)%nat = Some l ∧ level !! S (2 * k) = Some r ∧ x = node_hash l r ∧
          node_preimage l r ∈ combine_preimages level).
Proof.
  revert k. induction level as [|a|a b level IH] using pair_ind; intros k Hk; [done| |].
  - destruct k as [|k]; [|by destruct k]. left. by simplify_eq/=.
  - destruct k as [|k]; simpl in Hk.
    + right. exists a, b. simplify_eq. simpl. by rewrite elem_of_cons; auto.
    + replace (2 * S k)%nat with (S (S (2 * k))) by lia. simpl.
      destruct (IH k Hk) as [?|(l & r & ? & ? & ? & ?)]; [by left|].
      right. exists l, r. by rewrite elem_of_cons; auto.
Qed.

Lemma double_div k : (2 * k / 2 = k)%nat.
Proof. rewrite Nat.mul_comm. apply Nat.div_mul. lia. Qed.
Lemma double_div_S k : (S (2 * k) / 2 = k)%nat.
Proof. symmetry. apply (Nat.div_unique _ _ _ 1); lia. Qed.
Lemma double_mod k : (2 * k mod 2 = 0)%nat.
Proof. rewrite Nat.mul_comm. apply Nat.Div0.mod_mul. Qed.
Lemma double_mod_S k : (S (2 * k) mod 2 = 1)%nat.
Proof. symmetry. apply (Nat.mod_unique _ _ k 1); lia. Qed.

(** One level down: a path that reaches a parent passes through one of its
    children, and its last step is that child's sibling. *)
Lemma combine_path_inv level k rh p :
  Forall (λ h, length h = 32%nat) level →
  collision_free_on (combine_preimages level ++
    leaf_preimage rh :: fold_preimages (leaf_hash rh) p) →
  combine level !! k = Some (foldl fold_step (leaf_hash rh) p) →
  ∃ k' p', k = (k' / 2)%nat ∧ p = p' ++ option_list (sibling level k') ∧
    level !! k' = Some (foldl fold_step (leaf_hash rh) p').
Proof.
  intros Hlev Hcf Hk. destruct (combine_lookup_inv _ _ _ Hk)
    as [[Hl Hn]|(l & r & Hl & Hr & Heq & Hin)].
  { exists (2 * k)%nat, p. rewrite double_div. split_and!; [done| |done].
    unfold sibling. rewrite double_mod. simpl. replace (k + (k + 0) + 1)%nat with (S (2 * k)) by lia.
    rewrite Hn. simpl. by rewrite app_nil_r. }
  destruct p as [|s p _] using rev_ind.
  { simpl in Heq. apply Hcf in Heq; [by apply leaf_node_preimage in Heq|set_solver..]. }
  rewrite foldl_app in Heq, Hk. simpl in Heq, Hk.
  pose proof (length_foldl_fold_step (leaf_hash rh) p (digest_length _)) as Hlen.
  set (cur := foldl fold_step (leaf_hash rh) p) in *.
  rewrite fold_preimages_app in Hcf. simpl in Hcf.
  pose proof (Forall_lookup_1 _ _ _ _ Hlev Hl) as Hl32.
  pose proof (Forall_lookup_1 _ _ _ _ Hlev Hr) as Hr32. simpl in Hl32, Hr32.
  destruct s as [[] h]; unfold fold_step in Heq; simpl in Heq, Hcf.
  - apply Hcf, node_preimage_inj in Heq as [-> Hcur]; [|by rewrite Hlen|set_solver..].
    exists (S (2 * k)), p. rewrite double_div_S. fold cur. rewrite Hcur. split_and!; [done| |done].
    unfold sibling. rewrite double_mod_S. simpl. rewrite Nat.sub_0_r.
    replace (k + (k + 0))%nat with (2 * k)%nat by lia. by rewrite Hl.
  - apply Hcf, node_preimage_inj_l in Heq as [Hcur ->]; [|by rewrite Hlen|set_solver..].
    exists (2 * k)%nat, p. rewrite double_div. fold cur. rewrite Hcur. split_and!; [done| |done].
    unfold sibling. rewrite double_mod. simpl.
    replace (k + (k + 0) + 1)%nat with (S (2 * k)) by lia. by rewrite Hr.
Qed.

(** All the way down: a path that reaches the apex starts at some position of
    the level, and carries the siblings of that position. *)
Lemma reduce_path_inv fuel level rh steps :
  Forall (λ h, length h = 32%nat) level → (length level ≤ fuel)%nat →
  collision_free_on (reduce_preimages fuel level ++
    leaf_preimage rh :: fold_preimages (leaf_hash rh) steps) →
  head (reduce fuel level) = Some (foldl fold_step (leaf_hash rh) steps) →
  ∃ k p, level !! k = Some (foldl fold_step (leaf_hash rh) p) ∧
         steps = p ++ inclusion_steps fuel level k.
Proof.
  revert level steps. induction fuel as [|fuel IH]; intros level steps Hlev Hf Hcf Hhead.
  { by destruct level; simpl in *; [|lia]. }
  cbn [reduce reduce_preimages inclusion_steps] in *.
  destruct (Nat.ltb_spec 1 (length level)) as [Hl|Hl].
  2:{ exists 0%nat, steps. rewrite app_nil_r. by destruct level. }
  pose proof (combine_lt _ Hl).
  destruct (IH (combine level) steps) as (k & p & Hk & ->);
    [by apply combine_digests|lia|eapply collision_free_on_subset, Hcf; set_solver|done|].
  rewrite fold_preimages_app in Hcf.
  destruct (combine_path_inv level k rh p) as (k' & p' & -> & -> & Hk');
    [done|eapply collision_free_on_subset, Hcf; set_solver|done|].
  exists k', p'. by rewrite <-app_assoc.
Qed.

Lemma root_path_inv record_hashes rh path r :
  collision_free_on (root_preimages record_hashes ++ path_preimages rh path) →
  root record_hashes = Some r → root_hash (fold_to_apex rh path) = r →
  ∃ i, record_hashes !! i = Some rh ∧
       path_steps path =
         inclusion_steps (length record_hashes) (leaf_hash <$> record_hashes) i.
Proof.
  intros Hcf Hr <-. destruct (decide (record_hashes = [])) as [->|Hne]; [done|].
  destruct (root_apex _ Hne) as (apex & Hred & Hroot). rewrite Hroot in Hr. injection Hr as Hr.
  unfold root_preimages, path_preimages in Hcf. rewrite Hred in Hcf. simpl in Hcf.
  apply Hcf, root_preimage_inj in Hr as ->; [|set_solver..].
  destruct (reduce_path_inv (length record_hashes) (leaf_hash <$> record_hashes) rh (path_steps path))
    as (k & p & Hk & Hsteps).
  { apply Forall_fmap, Forall_true. intros x. apply digest_length. }
  { by rewrite length_fmap. }
  { eapply collision_free_on_subset, Hcf. set_solver. }
  { by rewrite Hred. }
  rewrite list_lookup_fmap in Hk. apply fmap_Some in Hk as (rh' & Hk & Heq).
  exists k. destruct p as [|s p _] using rev_ind.
  { apply Hcf, leaf_preimage_inj in Heq as <-; [done|set_solver|].
    apply elem_of_app; left. apply elem_of_app; left. apply list_elem_of_fmap.
    eauto using list_elem_of_lookup_2. }
  exfalso. rewrite foldl_app in Heq. simpl in Heq. rewrite Hsteps, !fold_preimages_app in Hcf.
  unfold fold_step in Heq.
  assert (Hleaf : leaf_preimage rh' ∈ leaf_preimage <$> record_hashes).
  { apply list_elem_of_fmap. eauto using list_elem_of_lookup_2. }
  simpl in Hcf. destruct (step_side s); symmetry in Heq;
    apply Hcf in Heq; try (by apply leaf_node_preimage in Heq); set_solver.
Qed.
End Soundness.

(** ** Binding

    The levels that [root] builds, with each digest replaced by the tree it
    stands for. *)

Inductive tree :=
  | Leaf (record_hash : bytes)
  | Node (l r : tree).

Fixpoint leaves (t : tree) : list bytes :=
  match t with Leaf rh => [rh] | Node l r => leaves l ++ leaves r end.

Fixpoint tree_combine (ts : list tree) : list tree :=
  match ts with
  | l :: r :: ts => Node l r :: tree_combine ts
  | _ => ts
  end.

Section Binding.
Context `{HashFunction}.

Fixpoint tree_hash (t : tree) : bytes :=
  match t with
  | Leaf rh => leaf_hash rh
  | Node l r => node_hash (tree_hash l) (tree_hash r)
  end.

Fixpoint tree_preimages (t : tree) : list bytes :=
  match t with
  | Leaf rh => [leaf_preimage rh]
  | Node l r =>
      node_preimage (tree_hash l) (tree_hash r) :: tree_preimages l ++ tree_preimages r
  end.

Lemma tree_hash_length t : length (tree_hash t) = 32%nat.
Proof. destruct t; apply digest_length. Qed.

Lemma tree_hash_inj t t' :
  collision_free_on (tree_preimages t ++ tree_preimages t') →
  tree_hash t = tree_hash t' → t = t'.
Proof.
  revert t'. induction t as [rh|l IHl r IHr]; intros [rh'|l' r'] Hcf Heq; simpl in *.
  - apply Hcf, leaf_preimage_inj in Heq as ->; set_solver.
  - apply Hcf in Heq; [by apply leaf_node_preimage in Heq|set_solver..].
  - symmetry in Heq. apply Hcf in Heq; [by apply leaf_node_preimage in Heq|set_solver..].
  - apply Hcf, node_preimage_inj in Heq as [Hl Hr]; [|by rewrite !tree_hash_length|set_solver..].
    f_equal; [apply IHl|apply IHr]; try done; eapply collision_free_on_subset, Hcf; set_solver.
Qed.

Lemma tree_combine_hash ts : combine (tree_hash <$> ts) = tree_hash <$> tree_combine ts.
Proof. induction ts as [| |l r ts IH] using pair_ind; [done|done|]. simpl. f_equal. apply IH. Qed.

Lemma tree_combine_leaves ts : (tree_combine ts ≫= leaves) = (ts ≫= leaves).
Proof.
  induction ts as [| |l r ts IH] using pair_ind; [done|done|].
  simpl. rewrite <-app_assoc. do 2 f_equal. apply IH.
Qed.

Lemma tree_combine_preimages ts :
  (tree_combine ts ≫= tree_preimages) ⊆
  combine_preimages (tree_hash <$> ts) ++ (ts ≫= tree_preimages).
Proof. induction ts as [| |l r ts IH] using pair_ind; simpl; set_solver. Qed.

(** The apex is the hash of a tree over the same leaves, all of whose
    preimages the reduction hashed. *)
Lemma reduce_tree fuel ts apex :
  (length ts ≤ fuel)%nat → reduce fuel (tree_hash <$> ts) = [apex] →
  ∃ t, apex = tree_hash t ∧ leaves t = (ts ≫= leaves) ∧
       tree_preimages t ⊆ reduce_preimages fuel (tree_hash <$> ts) ++ (ts ≫= tree_preimages).
Proof.
  revert ts. induction fuel as [|fuel IH]; intros ts Hf Hred.
  { by destruct ts; simpl in *; [|lia]. }
  cbn [reduce reduce_preimages] in *.
  destruct (Nat.ltb_spec 1 (length (tree_hash <$> ts))) as [Hl|Hl]; rewrite length_fmap in Hl.
  - pose proof (combine_lt (tree_hash <$> ts)) as Hlt.
    rewrite tree_combine_hash, !length_fmap in Hlt. rewrite tree_combine_hash in Hred |- *.
    destruct (IH (tree_combine ts)) as (t & ? & Hleaves & Hpre); [lia|done|].
    exists t. split_and!; [done|by rewrite Hleaves, tree_combine_leaves|].
    pose proof (tree_combine_preimages ts). set_solver.
  - destruct ts as [|t [|]]; simpl in *; [done| |lia]. injection Hred as <-.
    exists t. rewrite app_nil_r. set_solver.
Qed.

Lemma root_tree record_hashes r :
  root record_hashes = Some r →
  ∃ t, r = root_hash (tree_hash t) ∧ leaves t = record_hashes ∧
       root_preimage (tree_hash t) :: tree_preimages t ⊆ root_preimages record_hashes.
Proof.
  intros Hr. destruct (decide (record_hashes = [])) as [->|Hne]; [done|].
  destruct (root_apex _ Hne) as (apex & Hred & Hroot). rewrite Hroot in Hr. injection Hr as <-.
  assert (Hts : leaf_hash <$> record_hashes = tree_hash <$> (Leaf <$> record_hashes)).
  { rewrite <-list_fmap_compose. done. }
  unfold root_preimages. rewrite Hred. rewrite Hts in Hred |- *.
  destruct (reduce_tree _ (Leaf <$> record_hashes) _ ltac:(by rewrite length_fmap) Hred) as (t & -> & Hleaves & Hpre).
  assert (Hl : ((Leaf <$> record_hashes) ≫= leaves) = record_hashes).
  { clear. induction record_hashes as [|x l IH]; simpl; [done|]. by f_equal. }
  assert (Hp : ((Leaf <$> record_hashes) ≫= tree_preimages) = leaf_preimage <$> record_hashes).
  { clear. induction record_hashes as [|x l IH]; simpl; [done|]. by f_equal. }
  exists t. rewrite Hl in Hleaves. rewrite Hp in Hpre. split_and!; [done|done|]. simpl. set_solver.
Qed.
End Binding.

(** ** The properties *)

#[local] Arguments path_length_loop : simpl never.

Section Properties.
Context `{HashFunction}.

(** the builder and the offline verifier agree. For every list of record
    hashes that a [u64] can count and every position in it, [root] has a value,
    [inclusion_path] builds a path for that position, and [verify_inclusion]
    accepts it against the root and the leaf count, whatever the hash function. *)
Theorem inclusion_path_verifies (record_hashes : list bytes) (index : nat) (rh : bytes)
    (Hcount : Z.of_nat (length record_hashes) ≤ u64_max)
    (Hindex : record_hashes !! index = Some rh) :
  ∃ path r, inclusion_path record_hashes index = Some path ∧
    path_index path = Z.of_nat index ∧ root record_hashes = Some r ∧
    verify_inclusion rh path r (Z.of_nat (length record_hashes)) = true.
Proof.
  pose proof (lookup_lt_Some _ _ _ Hindex) as Hlt.
  destruct (root_apex record_hashes) as (apex & Hred & Hroot); [by intros ->|].
  unfold inclusion_path. destruct (Nat.leb_spec (length record_hashes) index); [lia|].
  eexists _, _. split_and!; [done|done|done|].
  unfold verify_inclusion, root_from_path, path_length. simpl.
  destruct (Z.leb_spec (Z.of_nat (length record_hashes)) (Z.of_nat index)); [lia|].
  pose proof (length_inclusion_steps (length record_hashes) 64 (leaf_hash <$> record_hashes) index)
    as Hlen.
  rewrite length_fmap in Hlen. simpl. rewrite decide_True.
  2:{ symmetry. apply Hlen; [done|unfold u64_max in Hcount; lia|done]. }
  apply bool_decide_eq_true. unfold fold_to_apex. simpl. f_equal.
  assert (Hf : head [apex] = Some (foldl fold_step (leaf_hash rh)
    (inclusion_steps (length record_hashes) (leaf_hash <$> record_hashes) index))).
  { rewrite <-Hred. apply inclusion_steps_fold; [by rewrite length_fmap|].
    by rewrite list_lookup_fmap, Hindex. }
  simpl in Hf. congruence.
Qed.

(** C27: an accepted path proves membership. If the verifier accepts a path for
    a record hash against the root of a list of record hashes, then the record
    hash is in the list, and the path consists of exactly the siblings that the
    builder produces for one of its positions. The path is arbitrary (it may
    come from an adversary) and the leaf count may be any number; the only
    assumption is that the hash function has no collision among the preimages
    of this root and this path. *)
Theorem verify_inclusion_sound (record_hashes : list bytes) (rh r : bytes)
    (path : InclusionPath) (leaf_count : Z)
    (Hcf : collision_free_on (root_preimages record_hashes ++ path_preimages rh path))
    (Hroot : root record_hashes = Some r)
    (Hverify : verify_inclusion rh path r leaf_count = true) :
  ∃ i, record_hashes !! i = Some rh ∧
    inclusion_path record_hashes i =
      Some {| path_index := Z.of_nat i; path_steps := path_steps path |}.
Proof.
  unfold verify_inclusion, root_from_path in Hverify.
  destruct (path_length _ _) as [n|]; [|done]. simpl in Hverify.
  destruct (decide _); [|done]. apply bool_decide_eq_true in Hverify.
  destruct (root_path_inv _ _ _ _ Hcf Hroot Hverify) as (i & Hi & Hsteps).
  exists i. split; [done|]. unfold inclusion_path.
  pose proof (lookup_lt_Some _ _ _ Hi).
  destruct (Nat.leb_spec (length record_hashes) i); [lia|]. by rewrite Hsteps.
Qed.

(** C29: a root commits to the records and their order. Two lists of record
    hashes of any lengths with the same root are equal: the three prefixes keep
    leaves, nodes and roots apart and an odd node is promoted, never paired
    with itself, so no two shapes of tree collide. *)
Theorem root_binding (l1 l2 : list bytes) (r : bytes)
    (Hcf : collision_free_on (root_preimages l1 ++ root_preimages l2))
    (H1 : root l1 = Some r) (H2 : root l2 = Some r) :
  l1 = l2.
Proof.
  destruct (root_tree _ _ H1) as (t1 & -> & <- & Hsub1).
  destruct (root_tree _ _ H2) as (t2 & Heq & <- & Hsub2).
  apply Hcf, root_preimage_inj in Heq; [|set_solver..].
  f_equal. apply tree_hash_inj; [|done].
  eapply collision_free_on_subset, Hcf. set_solver.
Qed.
End Properties.

(** Three record hashes: the smallest tree with a promoted node. *)
Definition sample : list bytes :=
  (λ s, Sha256.hash (bytes_of_string s)) <$> ["record-0"; "record-1"; "record-2"]%string.

Lemma inclusion_path_verifies_witness :
  ∃ path r, inclusion_path (H := sha256_function) sample 2 = Some path ∧
    path_index path = 2 ∧ root (H := sha256_function) sample = Some r ∧
    verify_inclusion (H := sha256_function) (Sha256.hash (bytes_of_string "record-2")) path r 3 = true.
Proof.
  apply (inclusion_path_verifies (H := sha256_function) sample 2
           (Sha256.hash (bytes_of_string "record-2"))).
  - vm_compute. discriminate.
  - vm_compute. reflexivity.
Defined.

Lemma verify_inclusion_sound_witness :
  ∃ i, sample !! i = Some (Sha256.hash (bytes_of_string "record-2")) ∧
    inclusion_path (H := sha256_function) sample i =
    Some {| path_index := Z.of_nat i;
            path_steps := [{| step_side := Left; step_hash :=
              of_hex "3e90be0f97167205612c86d3efea4f18744748204c8d8c8c4dce9d969ed3b0fa" |}] |}.
Proof.
  refine (verify_inclusion_sound (H := sha256_function) sample
           (Sha256.hash (bytes_of_string "record-2"))
           (of_hex "47fa39c6153969ee2a062be28a9768fcc9db8418eb5d04a8b04a0adaff362c36")
           {| path_index := 2;
              path_steps := [{| step_side := Left; step_hash :=
                of_hex "3e90be0f97167205612c86d3efea4f18744748204c8d8c8c4dce9d969ed3b0fa" |}] |}
           3 _ _ _).
  - apply collision_free_onb_sound. vm_compute. reflexivity.
  - vm_compute. reflexivity.
  - vm_compute. reflexivity.
Defined.

Lemma root_binding_witness : sample = sample.
Proof.
  refine (root_binding (H := sha256_function) sample sample
    (of_hex "47fa39c6153969ee2a062be28a9768fcc9db8418eb5d04a8b04a0adaff362c36") _ _ _).
  - apply collision_free_onb_sound. vm_compute. reflexivity.
  - vm_compute. reflexivity.
  - vm_compute. reflexivity.
Defined.

(** the position a path names is not authenticated. The verifier uses
    [path.index] only for the number of steps it implies, and never compares the
    sides of the steps with it: over four records, the path of the first
    relabelled as index 3 is accepted, although the record at 3 is another. *)
Example relabelled_index_accepted :
  let hashes := (λ s, Sha256.hash (bytes_of_string s)) <$>
                  ["record-0"; "record-1"; "record-2"; "record-3"]%string in
  ∃ path r,
    inclusion_path (H := sha256_function) hashes 0 = Some path ∧
    root (H := sha256_function) hashes = Some r ∧
    verify_inclusion (H := sha256_function) (Sha256.hash (bytes_of_string "record-0"))
      {| path_index := 3; path_steps := path_steps path |} r 4 = true ∧
    hashes !! 3%nat ≠ Some (Sha256.hash (bytes_of_string "record-0")).
Proof.
  intros hashes. eexists _, _.
  split; [vm_compute; reflexivity|]. split; [vm_compute; reflexivity|].
  split; [vm_compute; reflexivity|]. vm_compute. discriminate.
Qed.

End Merkle.
