(* ===== verification/Canonical.v ===== *)
(** * Canonical encoding of audit events

    [crates/record-store-audit/src/canonical.rs] and the event type of
    [crates/record-store-audit/src/lib.rs]. A [DateTime<Utc>] is its number of
    nanoseconds since the epoch, a [Uuid] its sixteen bytes, a [String] its
    UTF-8 bytes, a [BTreeMap] a finite map iterated in ascending key order.

    What is shown: the encoding is injective on events whose fields have the
    lengths a [u32] can hold, up to the sub-microsecond part of the timestamp,
    also when arbitrary bytes follow it; beyond that length it is not injective. *)

From S2P Require Import Prelude Bytes Tables Digest.

Module Canonical.

(** [chrono]'s [timestamp_micros], which rounds towards minus infinity. *)
Definition timestamp_micros (time : Z) : Z := time / 1000.

Inductive AuditResult := Success | Denied | Failure | Attempted.

#[export] Instance AuditResult_eq_dec : EqDecision AuditResult.
Proof. solve_decision. Defined.

Record AuditEvent := {
  event_id : bytes;
  timestamp : Z;
  request_id : option bytes;
  principal : bytes;
  credential_id : option bytes;
  source_ip : option bytes;
  operation : bytes;
  resource : bytes;
  result : AuditResult;
  metadata : gmap bytes bytes
}.

#[export] Instance AuditEvent_eq_dec : EqDecision AuditEvent.
Proof. solve_decision. Defined.

(** The errors of the audit crate. [std::io], [serde_json] and [tokio] errors
    are kept as tags, the texts of database errors in full. *)
Inductive AuditError :=
  | Directory
  | Encoding
  | Database (operation reason : string)
  | Task
  | InvalidLimit
  | InvalidDigest
  | InvalidExportFormat
  | InvalidExportRange
  | EmptyCheckpoint
  | CheckpointLeafCount (from to covered leaf_count : Z).

#[export] Instance AuditError_eq_dec : EqDecision AuditError.
Proof. solve_decision. Defined.

Definition CANONICAL_VERSION : Z := 1.
Definition RECORD_DOMAIN : bytes := bytes_of_string "record-store/audit-record/v1".

Definition canonical_tag (r : AuditResult) : Z :=
  match r with Success => 0 | Denied => 1 | Failure => 2 | Attempted => 3 end.

(** [u32::try_from(len).unwrap_or(u32::MAX)]. *)
Definition u32_length {A} (l : list A) : Z := Z.min (Z.of_nat (length l)) u32_max.

Definition put_bytes (out value : bytes) : bytes :=
  out ++ be_bytes 4 (u32_length value) ++ value.
Definition put_str (out value : bytes) : bytes := put_bytes out value.
Definition put_optional_str (out : bytes) (value : option bytes) : bytes :=
  match value with
  | Some value => put_str (out ++ [1]) value
  | None => out ++ [0]
  end.

Definition put_entry (out : bytes) (kv : bytes * bytes) : bytes :=
  put_str (put_str out kv.1) kv.2.

Definition canonical_bytes (event : AuditEvent) : bytes :=
  let out := be_bytes 2 CANONICAL_VERSION in
  let out := out ++ event_id event in
  let out := out ++ be_bytes 8 (timestamp_micros (timestamp event)) in
  let out := put_optional_str out (request_id event) in
  let out := put_str out (principal event) in
  let out := match credential_id event with
             | Some id => (out ++ [1]) ++ id
             | None => out ++ [0]
             end in
  let out := put_optional_str out (source_ip event) in
  let out := put_str out (operation event) in
  let out := put_str out (resource event) in
  let out := out ++ [canonical_tag (result event)] in
  let entries := table_iter (metadata event) in
  let out := out ++ be_bytes 4 (u32_length entries) in
  foldl put_entry out entries.

(** The representation invariants of the Rust types, and the lengths the
    encoding has room for. *)
Definition str_ok (s : bytes) : Prop := Z.of_nat (length s) ≤ u32_max.
Definition option_ok {A} (P : A → Prop) (x : option A) : Prop :=
  match x with Some x => P x | None => True end.

#[export] Instance str_ok_dec s : Decision (str_ok s).
Proof. unfold str_ok. apply _. Defined.
#[export] Instance option_ok_dec {A} (P : A → Prop) `{∀ x, Decision (P x)} x :
  Decision (option_ok P x).
Proof. destruct x; simpl; apply _. Defined.

Definition event_ok (e : AuditEvent) : Prop :=
  length (event_id e) = 16%nat ∧ is_i64 (timestamp_micros (timestamp e)) ∧
  option_ok str_ok (request_id e) ∧ str_ok (principal e) ∧
  option_ok (λ id, length id = 16%nat) (credential_id e) ∧
  option_ok str_ok (source_ip e) ∧ str_ok (operation e) ∧ str_ok (resource e) ∧
  Z.of_nat (length (table_iter (metadata e))) ≤ u32_max ∧
  Forall (λ kv, str_ok kv.1 ∧ str_ok kv.2) (table_iter (metadata e)).

#[export] Instance event_ok_dec e : Decision (event_ok e).
Proof. unfold event_ok. apply _. Defined.

(** The event with its timestamp cut to the microsecond. *)
Definition to_micros (e : AuditEvent) : AuditEvent :=
  {| event_id := event_id e; timestamp := 1000 * timestamp_micros (timestamp e);
     request_id := request_id e; principal := principal e;
     credential_id := credential_id e; source_ip := source_ip e;
     operation := operation e; resource := resource e;
     result := result e; metadata := metadata e |}.

(** ** Encoders that can be split off the front of a byte string *)

Definition splits {A} (ok : A → Prop) (enc : A → bytes) : Prop :=
  ∀ x y r s, ok x → ok y → enc x ++ r = enc y ++ s → x = y ∧ r = s.

Definition enc_str (s : bytes) : bytes := be_bytes 4 (u32_length s) ++ s.
Definition enc_option {A} (enc : A → bytes) (x : option A) : bytes :=
  match x with Some x => 1 :: enc x | None => [0] end.
Definition enc_entry (kv : bytes * bytes) : bytes := enc_str kv.1 ++ enc_str kv.2.

Lemma u32_length_ok {A} (l : list A) :
  Z.of_nat (length l) ≤ u32_max → u32_length l = Z.of_nat (length l).
Proof. unfold u32_length. lia. Qed.

Lemma splits_fixed n : splits (λ x : bytes, length x = n) id.
Proof.
  intros x y r s Hx Hy Heq. unfold id in Heq. simpl in Hx, Hy.
  apply app_inj_len in Heq; [done|congruence].
Qed.

Lemma splits_i64 : splits is_i64 (be_bytes 8).
Proof.
  intros x y r s Hx Hy [Heq ->]%app_inj_len; [|by rewrite !length_be_bytes].
  by apply be_bytes_i64_inj in Heq.
Qed.

Lemma splits_u32_length {A} (l l' : list A) r s :
  Z.of_nat (length l) ≤ u32_max → Z.of_nat (length l') ≤ u32_max →
  be_bytes 4 (u32_length l) ++ r = be_bytes 4 (u32_length l') ++ s →
  length l = length l' ∧ r = s.
Proof.
  intros Hx Hy [Heq ->]%app_inj_len; [|by rewrite !length_be_bytes].
  rewrite !u32_length_ok in Heq by done.
  apply be_bytes_u32_inj in Heq; [|unfold is_u32; lia..]. split; [lia|done].
Qed.

Lemma splits_str : splits str_ok enc_str.
Proof.
  intros x y r s Hx Hy Heq. unfold enc_str in Heq. rewrite <-!app_assoc in Heq.
  apply splits_u32_length in Heq as [Hl Heq]; [|done..].
  by apply app_inj_len in Heq.
Qed.

Lemma splits_option {A} (ok : A → Prop) enc :
  splits ok enc → splits (option_ok ok) (enc_option enc).
Proof.
  intros Henc [x|] [y|] r s Hx Hy Heq; simpl in *; injection Heq as Heq; try done.
  by apply Henc in Heq as [-> ->].
Qed.

Lemma splits_entry : splits (λ kv, str_ok kv.1 ∧ str_ok kv.2) enc_entry.
Proof.
  intros [k v] [k' v'] r s [??] [??] Heq. unfold enc_entry in Heq. simpl in *.
  rewrite <-!app_assoc in Heq.
  apply splits_str in Heq as [-> Heq]; [|done..].
  apply splits_str in Heq as [-> ->]; done.
Qed.

Lemma splits_list {A} (ok : A → Prop) enc (xs ys : list A) r s :
  splits ok enc → Forall ok xs → Forall ok ys → length xs = length ys →
  (xs ≫= enc) ++ r = (ys ≫= enc) ++ s → xs = ys ∧ r = s.
Proof.
  intros Henc Hxs. revert ys. induction Hxs as [|x xs Hx Hxs IH]; intros [|y ys] Hys Hlen Heq;
    simplify_eq/=; [done|].
  apply Forall_cons in Hys as [Hy Hys]. rewrite <-!app_assoc in Heq.
  apply Henc in Heq as [-> Heq]; [|done..].
  by apply IH in Heq as [-> ->].
Qed.

Lemma put_entry_foldl out kvs : foldl put_entry out kvs = out ++ (kvs ≫= enc_entry).
Proof.
  revert out. induction kvs as [|kv kvs IH]; intros out; simpl; [by rewrite app_nil_r|].
  rewrite IH. unfold put_entry, put_str, put_bytes, enc_entry, enc_str.
  by rewrite <-!app_assoc.
Qed.

Lemma put_optional_str_enc out x : put_optional_str out x = out ++ enc_option enc_str x.
Proof.
  destruct x; simpl; [|done]. unfold put_str, put_bytes, enc_str. by rewrite <-!app_assoc.
Qed.

(** The encoding as a concatenation of its fields. *)
Lemma canonical_bytes_fields e :
  canonical_bytes e =
    be_bytes 2 CANONICAL_VERSION ++ event_id e ++
    be_bytes 8 (timestamp_micros (timestamp e)) ++ enc_option enc_str (request_id e) ++
    enc_str (principal e) ++ enc_option id (credential_id e) ++
    enc_option enc_str (source_ip e) ++ enc_str (operation e) ++ enc_str (resource e) ++
    [canonical_tag (result e)] ++
    be_bytes 4 (u32_length (table_iter (metadata e))) ++
    (table_iter (metadata e) ≫= enc_entry).
Proof.
  unfold canonical_bytes. rewrite put_entry_foldl, !put_optional_str_enc.
  unfold put_str, put_bytes, enc_str.
  destruct (credential_id e); cbn [enc_option id]; rewrite <-?app_assoc; simpl;
    rewrite <-?app_assoc; done.
Qed.

Lemma canonical_tag_inj r r' : canonical_tag r = canonical_tag r' → r = r'.
Proof. by destruct r, r'. Qed.

Lemma table_iter_inj {V} (t t' : gmap bytes V) : table_iter t = table_iter t' → t = t'.
Proof.
  intros Heq. apply map_eq. intros k. apply option_eq. intros v.
  by rewrite <-!elem_of_table_iter, Heq.
Qed.

(** The encoding can be split off the front of a byte string, and determines
    the event up to the microsecond. *)
Lemma canonical_bytes_splits e e' r s :
  event_ok e → event_ok e' → canonical_bytes e ++ r = canonical_bytes e' ++ s →
  to_micros e = to_micros e' ∧ r = s.
Proof.
  intros (Hid & Ht & Hreq & Hpr & Hcred & Hip & Hop & Hres & Hn & Hmeta)
    (Hid' & Ht' & Hreq' & Hpr' & Hcred' & Hip' & Hop' & Hres' & Hn' & Hmeta').
  rewrite !canonical_bytes_fields, <-!app_assoc. intros Heq%app_inv_head.
  apply (splits_fixed 16) in Heq as [E1 Heq]; [|done..].
  apply splits_i64 in Heq as [E2 Heq]; [|done..].
  apply (splits_option _ _ splits_str) in Heq as [E3 Heq]; [|done..].
  apply splits_str in Heq as [E4 Heq]; [|done..].
  apply (splits_option _ _ (splits_fixed 16)) in Heq as [E5 Heq]; [|done..].
  apply (splits_option _ _ splits_str) in Heq as [E6 Heq]; [|done..].
  apply splits_str in Heq as [E7 Heq]; [|done..].
  apply splits_str in Heq as [E8 Heq]; [|done..].
  apply (splits_fixed 1) in Heq as [E9 Heq]; [|done..].
  injection E9 as E9%canonical_tag_inj.
  apply splits_u32_length in Heq as [Hlen Heq]; [|done..].
  apply (splits_list _ _ _ _ _ _ splits_entry) in Heq as [E10%table_iter_inj ->]; [|done..].
  split; [|done]. unfold to_micros. congruence.
Qed.

(** ** The properties *)

(** the encoding loses nothing but nanoseconds. Two events whose fields
    fit the length prefixes and that encode to the same bytes agree on every
    field, the timestamp to the microsecond: no two layouts of fields produce
    the same bytes, an absent field is not an empty one, and the metadata is
    covered key by key. *)
Theorem canonical_bytes_injective (e e' : AuditEvent) (He : event_ok e) (He' : event_ok e')
    (Heq : canonical_bytes e = canonical_bytes e') :
  to_micros e = to_micros e'.
Proof.
  apply (canonical_bytes_splits e e' [] []); [done..|]. by rewrite !app_nil_r.
Qed.

(** The fully populated event of the repository's known-answer test. *)
Definition golden_event : AuditEvent :=
  {| event_id := of_hex "0102030405060708090a0b0c0d0e0f10";
     timestamp := 1772000000000000 * 1000;
     request_id := Some (bytes_of_string "req-01");
     principal := bytes_of_string "service_account:0f9c";
     credential_id := Some (of_hex "11112222333344445555666677778888");
     source_ip := Some (bytes_of_string "203.0.113.7");
     operation := bytes_of_string "s3:DELETE";
     resource := bytes_of_string "bucket:records/statement.pdf";
     result := Denied;
     metadata := {[ bytes_of_string "version_id" := bytes_of_string "abc";
                    bytes_of_string "reason" := bytes_of_string "compliance_retention" ]} |}.

Example canonical_golden :
  canonical_bytes golden_event =
  of_hex (String.append
    "00010102030405060708090a0b0c0d0e0f1000064b9fe68ac00001000000067265712d303100000014736572766963655f6163636f756e743a3066396301111122223333444455556666777788880"
    "10000000b3230332e302e3131332e370000000973333a44454c4554450000001c6275636b65743a7265636f7264732f73746174656d656e742e706466010000000200000006726561736f6e00000014636f6d706c69616e63655f726574656e74696f6e0000000a76657273696f6e5f696400000003616263").
Proof. vm_compute. reflexivity. Qed.

Lemma canonical_bytes_injective_witness : to_micros golden_event = to_micros golden_event.
Proof.
  apply (canonical_bytes_injective golden_event golden_event).
  - apply (bool_decide_eq_true (event_ok golden_event)). vm_compute. reflexivity.
  - apply (bool_decide_eq_true (event_ok golden_event)). vm_compute. reflexivity.
  - reflexivity.
Defined.

(** An event with two given adjacent fields. *)
Definition event_with (op res : bytes) : AuditEvent :=
  {| event_id := replicate 16 0; timestamp := 0; request_id := None; principal := [];
     credential_id := None; source_ip := None; operation := op; resource := res;
     result := Success; metadata := ∅ |}.

Lemma event_with_oversized (op : bytes) :
  u32_max ≤ Z.of_nat (length op) →
  canonical_bytes (event_with op [0; 0; 0; 0]) =
  canonical_bytes (event_with (op ++ [0; 0; 0; 4]) []).
Proof.
  intros Hop. rewrite !canonical_bytes_fields. simpl. unfold enc_str.
  assert (Hmin : ∀ l : bytes, u32_max ≤ Z.of_nat (length l) → u32_length l = u32_max).
  { intros l. unfold u32_length. lia. }
  rewrite (Hmin op), (Hmin (op ++ _)) by (rewrite ?length_app; simpl; lia).
  rewrite <-!app_assoc. done.
Qed.

(** a field of 4 GiB or more does not fail to encode. Its length prefix
    saturates, and two different events then have the same canonical bytes. *)
Theorem canonical_bytes_oversized_collide :
  ∃ e e' : AuditEvent, to_micros e ≠ to_micros e' ∧ canonical_bytes e = canonical_bytes e'.
Proof.
  set (op := replicate (Z.to_nat u32_max) 65).
  exists (event_with op [0; 0; 0; 0]), (event_with (op ++ [0; 0; 0; 4]) []). split.
  - intros Heq. by apply (f_equal resource) in Heq.
  - apply event_with_oversized. unfold op. rewrite length_replicate, Z2Nat.id; [done|].
    unfold u32_max. lia.
Qed.

End Canonical.
