(* ===== verification/Chain.v ===== *)
(** * The hash chain of audit records

    [crates/record-store-audit/src/chain.rs]: the record hash, the links of a
    record and their verification.

    [records_from] is the specification of the log: the records that appending
    a list of events produces. What is shown: an appended record verifies
    against its predecessor, a record that verifies is the one the
    specification produces, and the head hash determines every event of the
    chain, its position included. *)

From S2P Require Import Prelude Bytes Digest Canonical.
Import Canonical.

Module Chain.

Definition GENESIS_DOMAIN : bytes := bytes_of_string "record-store/audit-genesis/v1".

(** The two digests that place a record in the chain. *)
Record ChainLinks := { previous_hash : bytes; links_record_hash : bytes }.
Record AuditRecord := { sequence : Z; chain : option ChainLinks; event : AuditEvent }.

Inductive RecordVerdict := Intact | ContentChanged | BrokenLink | Unchained | Missing.

#[export] Instance RecordVerdict_eq_dec : EqDecision RecordVerdict.
Proof. solve_decision. Defined.
#[export] Instance ChainLinks_eq_dec : EqDecision ChainLinks.
Proof. solve_decision. Defined.
#[export] Instance AuditRecord_eq_dec : EqDecision AuditRecord.
Proof. solve_decision. Defined.

Definition label (v : RecordVerdict) : string :=
  match v with
  | Intact => "intact"
  | ContentChanged => "content changed"
  | BrokenLink => "broken link to the previous record"
  | Unchained => "predates the hash chain"
  | Missing => "record is missing from the log"
  end.

Section Hashing.
Context `{HashFunction}.

Definition genesis_hash : bytes := digest GENESIS_DOMAIN.

(** The bytes [record_hash] feeds the hasher. *)
Definition record_preimage (sequence : Z) (previous canonical : bytes) : bytes :=
  RECORD_DOMAIN ++ be_bytes 8 sequence ++ previous ++ canonical.

Definition record_hash (sequence : Z) (previous canonical : bytes) : bytes :=
  digest (record_preimage sequence previous canonical).

Definition hash_event (sequence : Z) (previous : bytes) (event : AuditEvent) : bytes :=
  record_hash sequence previous (canonical_bytes event).

Definition verify_against (self : AuditRecord) (previous : bytes) : RecordVerdict :=
  match chain self with
  | None => Unchained
  | Some links =>
      if decide (previous_hash links = previous) then
        if decide (hash_event (sequence self) previous (event self) = links_record_hash links)
        then Intact else ContentChanged
      else BrokenLink
  end.

(** ** The specification of the log *)

(** The record that appending [e] at position [seq] after [previous] stores. *)
Definition link (seq : Z) (previous : bytes) (e : AuditEvent) : AuditRecord :=
  {| sequence := seq;
     chain := Some {| previous_hash := previous; links_record_hash := hash_event seq previous e |};
     event := e |}.

Fixpoint records_from (seq : Z) (previous : bytes) (es : list AuditEvent) : list AuditRecord :=
  match es with
  | [] => []
  | e :: es => link seq previous e :: records_from (seq + 1) (hash_event seq previous e) es
  end.

Fixpoint head_from (seq : Z) (previous : bytes) (es : list AuditEvent) : bytes :=
  match es with
  | [] => previous
  | e :: es => head_from (seq + 1) (hash_event seq previous e) es
  end.

Definition chain_records (es : list AuditEvent) : list AuditRecord := records_from 0 genesis_hash es.
Definition chain_head (es : list AuditEvent) : bytes := head_from 0 genesis_hash es.

(** ** Structure *)

Lemma records_from_app seq prev es es' :
  records_from seq prev (es ++ es') =
  records_from seq prev es ++ records_from (seq + Z.of_nat (length es)) (head_from seq prev es) es'.
Proof.
  revert seq prev. induction es as [|e es IH]; intros seq prev; simpl.
  - by rewrite Z.add_0_r.
  - rewrite IH. do 3 f_equal. lia.
Qed.

Lemma head_from_app seq prev es es' :
  head_from seq prev (es ++ es') =
  head_from (seq + Z.of_nat (length es)) (head_from seq prev es) es'.
Proof.
  revert seq prev. induction es as [|e es IH]; intros seq prev; simpl.
  - by rewrite Z.add_0_r.
  - rewrite IH. f_equal. lia.
Qed.

Lemma length_records_from seq prev es : length (records_from seq prev es) = length es.
Proof. revert seq prev. induction es; intros; simpl; auto. Qed.

Lemma chain_records_snoc es e :
  chain_records (es ++ [e]) = chain_records es ++ [link (Z.of_nat (length es)) (chain_head es) e].
Proof. unfold chain_records. rewrite records_from_app. by rewrite Z.add_0_l. Qed.

Lemma chain_head_snoc es e :
  chain_head (es ++ [e]) = hash_event (Z.of_nat (length es)) (chain_head es) e.
Proof. unfold chain_head. rewrite head_from_app. by rewrite Z.add_0_l. Qed.

Lemma length_chain_records es : length (chain_records es) = length es.
Proof. apply length_records_from. Qed.

(** The record at a position, and the hash it links to. *)
Lemma chain_records_lookup es i e :
  es !! i = Some e →
  chain_records es !! i = Some (link (Z.of_nat i) (chain_head (take i es)) e).
Proof.
  intros Hi. pose proof (lookup_lt_Some _ _ _ Hi) as Hlt.
  assert (Hes : es = (take i es ++ [e]) ++ drop (S i) es).
  { rewrite <-app_assoc. symmetry. by apply take_drop_middle. }
  assert (Hl : length (take i es) = i) by (apply length_take_le; lia).
  rewrite Hes at 1. unfold chain_records at 1. rewrite records_from_app.
  fold (chain_records (take i es ++ [e])). rewrite chain_records_snoc, Hl, <-app_assoc.
  apply list_lookup_middle. by rewrite length_chain_records, Hl.
Qed.

Lemma chain_head_length es : length (chain_head es) = 32%nat.
Proof.
  destruct es as [|e es _] using rev_ind; [apply digest_length|].
  rewrite chain_head_snoc. apply digest_length.
Qed.

(** ** Verification *)

Lemma verify_link seq prev e : verify_against (link seq prev e) prev = Intact.
Proof. unfold verify_against, link. simpl. by rewrite !decide_True by done. Qed.

(** A record is reported intact only if it is exactly a link to [previous]. *)
Lemma verify_intact_inv r previous :
  verify_against r previous = Intact → r = link (sequence r) previous (event r).
Proof.
  destruct r as [seq [[p h]|] e]; unfold verify_against, link; simpl; [|done].
  repeat case_decide; naive_solver.
Qed.

(** ** Binding *)

Lemma record_preimage_inj seq seq' prev prev' c c' :
  is_u64 seq → is_u64 seq' → length prev = length prev' →
  record_preimage seq prev c = record_preimage seq' prev' c' →
  seq = seq' ∧ prev = prev' ∧ c = c'.
Proof.
  intros Hs Hs' Hl Heq%app_inv_head.
  apply app_inj_len in Heq as [Hseq%be_bytes_u64_inj Heq]; [|done|done|by rewrite !length_be_bytes].
  by apply app_inj_len in Heq as [-> ->].
Qed.

Lemma genesis_record_preimage seq prev c : GENESIS_DOMAIN ≠ record_preimage seq prev c.
Proof.
  unfold record_preimage. intros Heq. apply (f_equal (lookup 19%nat)) in Heq.
  rewrite lookup_app_l in Heq by (vm_compute; lia). discriminate.
Qed.

(** The hash at the end of any list of records that each link to the one
    before, whatever sequence numbers they claim, and what it hashes. *)
Definition walk_head (previous : bytes) (rs : list AuditRecord) : bytes :=
  foldl (λ h r, hash_event (sequence r) h (event r)) previous rs.

Fixpoint walk_preimages (previous : bytes) (rs : list AuditRecord) : list bytes :=
  match rs with
  | [] => []
  | r :: rs => record_preimage (sequence r) previous (canonical_bytes (event r)) ::
               walk_preimages (hash_event (sequence r) previous (event r)) rs
  end.

Lemma walk_preimages_app prev rs rs' :
  walk_preimages prev (rs ++ rs') = walk_preimages prev rs ++ walk_preimages (walk_head prev rs) rs'.
Proof. revert prev. induction rs as [|r rs IH]; intros prev; simpl; [done|]. by rewrite IH. Qed.

Lemma walk_head_snoc prev rs r :
  walk_head prev (rs ++ [r]) = hash_event (sequence r) (walk_head prev rs) (event r).
Proof. unfold walk_head. by rewrite foldl_app. Qed.

Lemma walk_head_records_from seq prev es :
  walk_head prev (records_from seq prev es) = head_from seq prev es.
Proof.
  revert seq prev. induction es as [|e es IH]; intros seq prev; [done|]. simpl. apply IH.
Qed.

Lemma walk_head_length rs : length (walk_head genesis_hash rs) = 32%nat.
Proof.
  destruct rs as [|r rs _] using rev_ind; [apply digest_length|].
  rewrite walk_head_snoc. apply digest_length.
Qed.

Definition record_ok (r : AuditRecord) : Prop := is_u64 (sequence r) ∧ event_ok (event r).

#[export] Instance record_ok_dec r : Decision (record_ok r).
Proof. unfold record_ok. apply _. Defined.

(** What a record says, up to the microsecond. *)
Definition record_content (r : AuditRecord) : Z * AuditEvent := (sequence r, to_micros (event r)).

Lemma walk_head_inj rs rs' :
  Forall record_ok rs → Forall record_ok rs' →
  collision_free_on (GENESIS_DOMAIN :: walk_preimages genesis_hash rs ++
                     walk_preimages genesis_hash rs') →
  walk_head genesis_hash rs = walk_head genesis_hash rs' →
  record_content <$> rs = record_content <$> rs'.
Proof.
  revert rs'. induction rs as [|r rs IH] using rev_ind; intros rs' Hok Hok' Hcf Heq.
  - destruct rs' as [|r' rs' _] using rev_ind; [done|]. exfalso.
    rewrite walk_head_snoc in Heq. rewrite (walk_preimages_app _ rs') in Hcf. simpl in *.
    apply Hcf, genesis_record_preimage in Heq; [done|set_solver..].
  - destruct rs' as [|r' rs' _] using rev_ind; [exfalso|].
    { rewrite walk_head_snoc in Heq. rewrite (walk_preimages_app _ rs) in Hcf. simpl in *.
      symmetry in Heq. apply Hcf, genesis_record_preimage in Heq; [done|set_solver..]. }
    rewrite !walk_head_snoc in Heq. rewrite !walk_preimages_app in Hcf. simpl in Hcf.
    apply Forall_app in Hok as [Hok Hr], Hok' as [Hok' Hr'].
    apply Forall_singleton in Hr as [Hs He], Hr' as [Hs' He'].
    apply Hcf, record_preimage_inj in Heq as (Hseq & Hhead & Hc);
      [|done|done|by rewrite !walk_head_length|set_solver..].
    apply IH in Hhead; [|done|done|eapply collision_free_on_subset, Hcf; set_solver].
    rewrite !fmap_app, Hhead. f_equal. simpl. f_equal. unfold record_content.
    rewrite Hseq. f_equal.
    apply (canonical_bytes_splits _ _ [] []); [done..|]. by rewrite !app_nil_r.
Qed.
End Hashing.

End Chain.
