(* ===== verification/Checkpoint.v ===== *)
(** * Checkpoints

    [crates/record-store-audit/src/checkpoint.rs]: a checkpoint over a range of
    the audit log, its validation and its hash. What is shown: exactly the
    ranges that agree with their leaf count can be constructed, the wrapped
    count of a full [u64] range included; the hash of the last checkpoint of a
    chain determines every checkpoint before it; and an inclusion path accepted
    against a checkpoint known only by its hash proves membership. *)

From S2P Require Import Prelude Bytes Digest Merkle Canonical.
Import Canonical.

Module Checkpoint.

Definition CHECKPOINT_VERSION : Z := 1.
Definition CHECKPOINT_DOMAIN : bytes := bytes_of_string "record-store/audit-checkpoint/v1".
Definition CHECKPOINT_GENESIS_DOMAIN : bytes :=
  bytes_of_string "record-store/audit-checkpoint-genesis/v1".

Record Checkpoint := {
  sequence : Z;
  from_sequence : Z;
  to_sequence : Z;
  leaf_count : Z;
  root : bytes;
  previous_checkpoint_hash : bytes
}.

#[export] Instance Checkpoint_eq_dec : EqDecision Checkpoint.
Proof. solve_decision. Defined.

(** [Checkpoint::new]; [to - from + 1] is computed in [u64] and wraps to zero
    for the full range. *)
Definition new (sequence from_sequence to_sequence leaf_count : Z)
    (root previous_checkpoint_hash : bytes) : Prelude.result AuditError Checkpoint :=
  if (leaf_count =? 0) || (to_sequence <? from_sequence) then Err EmptyCheckpoint
  else
    let covered := u64_add (u64_sub to_sequence from_sequence) 1 in
    if negb (covered =? leaf_count)
    then Err (CheckpointLeafCount from_sequence to_sequence covered leaf_count)
    else Ok {| sequence := sequence; from_sequence := from_sequence; to_sequence := to_sequence;
               leaf_count := leaf_count; root := root;
               previous_checkpoint_hash := previous_checkpoint_hash |}.

Definition preimage (self : Checkpoint) : bytes :=
  CHECKPOINT_DOMAIN ++ be_bytes 2 CHECKPOINT_VERSION ++ be_bytes 8 (sequence self) ++
  be_bytes 8 (from_sequence self) ++ be_bytes 8 (to_sequence self) ++
  be_bytes 8 (leaf_count self) ++ root self ++ previous_checkpoint_hash self.

Definition covers (self : Checkpoint) (sequence : Z) : bool :=
  (from_sequence self <=? sequence) && (sequence <=? to_sequence self).

(** The types of the fields. *)
Definition typed (c : Checkpoint) : Prop :=
  is_u64 (sequence c) ∧ is_u64 (from_sequence c) ∧ is_u64 (to_sequence c) ∧
  is_u64 (leaf_count c) ∧ length (root c) = 32%nat ∧
  length (previous_checkpoint_hash c) = 32%nat.

#[export] Instance typed_dec c : Decision (typed c).
Proof. unfold typed. apply _. Defined.

Section Hashing.
Context `{HashFunction}.

Definition checkpoint_genesis_hash : bytes := digest CHECKPOINT_GENESIS_DOMAIN.
Definition checkpoint_hash (self : Checkpoint) : bytes := digest (preimage self).

Lemma preimage_inj c c' : typed c → typed c' → preimage c = preimage c' → c = c'.
Proof.
  destruct c as [s f t n r p], c' as [s' f' t' n' r' p'].
  intros (?&?&?&?&Hr&Hp) (?&?&?&?&Hr'&Hp') Heq. unfold preimage in Heq.
  cbn [sequence from_sequence to_sequence leaf_count root previous_checkpoint_hash] in *.
  apply app_inv_head, app_inv_head in Heq.
  apply app_inj_len in Heq as [->%be_bytes_u64_inj Heq]; [|done|done|by rewrite !length_be_bytes].
  apply app_inj_len in Heq as [->%be_bytes_u64_inj Heq]; [|done|done|by rewrite !length_be_bytes].
  apply app_inj_len in Heq as [->%be_bytes_u64_inj Heq]; [|done|done|by rewrite !length_be_bytes].
  apply app_inj_len in Heq as [->%be_bytes_u64_inj Heq]; [|done|done|by rewrite !length_be_bytes].
  apply app_inj_len in Heq as [-> ->]; [done|congruence].
Qed.

Lemma genesis_preimage c : CHECKPOINT_GENESIS_DOMAIN ≠ preimage c.
Proof.
  unfold preimage. intros Heq. apply (f_equal (lookup 29%nat)) in Heq.
  rewrite lookup_app_l in Heq by (vm_compute; lia). discriminate.
Qed.

(** A chain of checkpoints: each links to the hash of the one before, the first
    to the genesis value. *)
Fixpoint linked_from (previous : bytes) (cs : list Checkpoint) : Prop :=
  match cs with
  | [] => True
  | c :: cs => previous_checkpoint_hash c = previous ∧ linked_from (checkpoint_hash c) cs
  end.

Definition last_hash (cs : list Checkpoint) : bytes :=
  match last cs with Some c => checkpoint_hash c | None => checkpoint_genesis_hash end.

Lemma linked_from_app previous cs cs' :
  linked_from previous (cs ++ cs') ↔
  linked_from previous cs ∧
  linked_from (match last cs with Some c => checkpoint_hash c | None => previous end) cs'.
Proof.
  revert previous. induction cs as [|c cs IH]; intros previous; [simpl; tauto|].
  cbn [app linked_from]. rewrite IH, last_cons. destruct (last cs); tauto.
Qed.

(** the last hash of a checkpoint chain commits to all of it. Two chains of
    checkpoints, each linked from the genesis value, with the same last hash are
    the same chain, of the same length, unless the hash function collides on
    the checkpoints' bytes. *)
Theorem checkpoint_chain_binding (cs cs' : list Checkpoint)
    (Hlinked : linked_from checkpoint_genesis_hash cs)
    (Hlinked' : linked_from checkpoint_genesis_hash cs')
    (Htyped : Forall typed cs) (Htyped' : Forall typed cs')
    (Hcf : collision_free_on (CHECKPOINT_GENESIS_DOMAIN :: (preimage <$> cs) ++ (preimage <$> cs')))
    (Hlast : last_hash cs = last_hash cs') :
  cs = cs'.
Proof.
  revert cs' Hlinked' Htyped' Hcf Hlast.
  induction cs as [|c cs IH] using rev_ind; intros cs' Hlinked' Htyped' Hcf Hlast.
  - destruct cs' as [|c' cs' _] using rev_ind; [done|].
    unfold last_hash in Hlast. rewrite last_snoc in Hlast. cbn in Hlast.
    apply Hcf, genesis_preimage in Hlast; [done|set_solver|]. rewrite fmap_app. set_solver.
  - destruct cs' as [|c' cs' _] using rev_ind.
    { unfold last_hash in Hlast. rewrite last_snoc in Hlast. symmetry in Hlast. cbn in Hlast.
      apply Hcf, genesis_preimage in Hlast; [done|set_solver|]. rewrite fmap_app. set_solver. }
    unfold last_hash in Hlast. rewrite !last_snoc in Hlast.
    apply linked_from_app in Hlinked as [Hl [Hp _]], Hlinked' as [Hl' [Hp' _]].
    apply Forall_app in Htyped as [Ht Hc], Htyped' as [Ht' Hc'].
    rewrite Forall_singleton in Hc, Hc'.
    rewrite !fmap_app in Hcf. cbn [fmap list_fmap] in Hcf.
    apply Hcf in Hlast; [|set_solver..]. apply preimage_inj in Hlast as <-; [|done..].
    f_equal. apply IH; [done|done|done|done| |].
    + eapply collision_free_on_subset, Hcf. set_solver.
    + unfold last_hash, checkpoint_genesis_hash in *. congruence.
Qed.

(** a record is proved by a checkpoint hash alone. Given the hash of a
    checkpoint over the record hashes [l], anyone who presents some checkpoint
    with that hash and a path that [verify_inclusion] accepts against that
    checkpoint's root and leaf count has shown that the record hash is in [l]. *)
Theorem checkpoint_inclusion (l : list bytes) (c presented : Checkpoint)
    (rh : bytes) (path : Merkle.InclusionPath)
    (Htyped : typed c) (Htyped' : typed presented)
    (Hroot : Merkle.root l = Some (root c))
    (Hhash : checkpoint_hash presented = checkpoint_hash c)
    (Hverify : Merkle.verify_inclusion rh path (root presented) (leaf_count presented) = true)
    (Hcf : collision_free_on ([preimage c; preimage presented] ++
             Merkle.root_preimages l ++ Merkle.path_preimages rh path)) :
  presented = c ∧ rh ∈ l.
Proof.
  apply Hcf in Hhash; [|set_solver..]. apply preimage_inj in Hhash as ->; [|done..].
  split; [done|].
  unfold Merkle.verify_inclusion, Merkle.root_from_path in Hverify.
  destruct (Merkle.path_length _ _) as [n|]; [|done]. simpl in Hverify.
  destruct (decide _); [|done]. apply bool_decide_eq_true in Hverify.
  destruct (Merkle.root_path_inv l rh path (root c)) as (i & Hi & _); [|done|done|].
  - eapply collision_free_on_subset, Hcf. set_solver.
  - by eapply list_elem_of_lookup_2.
Qed.
End Hashing.

(** the constructor admits exactly the ranges that agree with their leaf
    count. On [u64] arguments [new] succeeds if and only if the range is not
    reversed and holds precisely [leaf_count] positions, which excludes the
    empty range, and also the full range, whose count wraps to zero. *)
Theorem new_validates (seq from to n : Z) (r p : bytes)
    (Hfrom : is_u64 from) (Hto : is_u64 to) (Hn : is_u64 n) :
  (is_ok (new seq from to n r p) = true ↔ from ≤ to ∧ n = to - from + 1) ∧
  ∀ c, new seq from to n r p = Ok c →
    ∀ s, covers c s = true ↔ from ≤ s < from + leaf_count c.
Proof.
  unfold is_u64, u64_max in *. unfold new, u64_add, u64_sub, u64_wrap.
  destruct ((n =? 0) || (to <? from)) eqn:Hempty.
  { split; [|done]. simpl. apply orb_true_iff in Hempty as [?%Z.eqb_eq|?%Z.ltb_lt]; lia. }
  apply orb_false_iff in Hempty as [?%Z.eqb_neq ?%Z.ltb_ge].
  rewrite (Z.mod_small (to - from)) by lia.
  assert (Hwrap : (to - from + 1) mod 2 ^ 64 = n ↔ n = to - from + 1).
  { destruct (decide (to - from + 1 = 2 ^ 64)) as [->|].
    - rewrite Z.mod_same by lia. lia.
    - rewrite Z.mod_small by lia. lia. }
  destruct (Z.eqb_spec ((to - from + 1) mod 2 ^ 64) n) as [Heq|Hne]; cbn [negb].
  - split; [simpl; tauto|]. intros c [= <-] s. unfold covers. simpl.
    rewrite andb_true_iff, !Z.leb_le. lia.
  - split; [simpl; naive_solver|done].
Qed.

(** ** Witnesses *)

Definition sample_checkpoint : Checkpoint :=
  {| sequence := 7; from_sequence := 100; to_sequence := 140; leaf_count := 41;
     root := replicate 32 0x11; previous_checkpoint_hash := replicate 32 0x22 |}.

(** The vector the repository pins. *)
Example checkpoint_golden :
  checkpoint_hash (H := sha256_function) sample_checkpoint =
  of_hex "b54282c04897373b5897283c79f910fcdc6f8aefa936a6178c02328365ddd431".
Proof. vm_compute. reflexivity. Qed.

Lemma new_validates_witness :
  (is_ok (new 7 100 140 41 (replicate 32 0x11) (replicate 32 0x22)) = true ↔
   100 ≤ 140 ∧ 41 = 140 - 100 + 1) ∧
  ∀ c, new 7 100 140 41 (replicate 32 0x11) (replicate 32 0x22) = Ok c →
    ∀ s, covers c s = true ↔ 100 ≤ s < 100 + leaf_count c.
Proof.
  apply (new_validates 7 100 140 41).
  - vm_compute. split; discriminate.
  - vm_compute. split; discriminate.
  - vm_compute. split; discriminate.
Defined.

Definition first_checkpoint : Checkpoint :=
  {| sequence := 0; from_sequence := 0; to_sequence := 2; leaf_count := 3;
     root := of_hex "47fa39c6153969ee2a062be28a9768fcc9db8418eb5d04a8b04a0adaff362c36";
     previous_checkpoint_hash := checkpoint_genesis_hash (H := sha256_function) |}.

Lemma checkpoint_chain_binding_witness : [first_checkpoint] = [first_checkpoint].
Proof.
  apply (checkpoint_chain_binding (H := sha256_function)).
  - done.
  - done.
  - apply (bool_decide_eq_true (Forall _ _)). vm_compute. reflexivity.
  - apply (bool_decide_eq_true (Forall _ _)). vm_compute. reflexivity.
  - apply collision_free_onb_sound. vm_compute. reflexivity.
  - reflexivity.
Defined.

Lemma checkpoint_inclusion_witness :
  first_checkpoint = first_checkpoint ∧ Sha256.hash (bytes_of_string "record-2") ∈ Merkle.sample.
Proof.
  apply (checkpoint_inclusion (H := sha256_function) Merkle.sample first_checkpoint first_checkpoint
    (Sha256.hash (bytes_of_string "record-2"))
    {| Merkle.path_index := 2;
       Merkle.path_steps := [{| Merkle.step_side := Merkle.Left; Merkle.step_hash :=
         of_hex "3e90be0f97167205612c86d3efea4f18744748204c8d8c8c4dce9d969ed3b0fa" |}] |}).
  - apply (bool_decide_eq_true (typed _)). vm_compute. reflexivity.
  - apply (bool_decide_eq_true (typed _)). vm_compute. reflexivity.
  - vm_compute. reflexivity.
  - reflexivity.
  - vm_compute. reflexivity.
  - apply collision_free_onb_sound. vm_compute. reflexivity.
Defined.

End Checkpoint.
