(* ===== verification/AuditLog.v ===== *)
(** * The audit repository

    [crates/record-store-audit/src/lib.rs]: the three tables of the audit
    database, appending inside a transaction, the writer thread's group commit,
    bounded queries with cursors, and the walk that verifies the hash chain.

    The stored JSON of a record is modelled by its decoded value ([stored]): a
    record with links, a bare event of a release that had no chain, or bytes
    that decode to neither. Failures of the database file itself (opening a
    table, reading a page) are not modelled; [begin_write] and [commit] succeed.

    What is shown: the tables refine a list of events ([refines]); an append
    adds one event to the list or fails and changes nothing; batching is
    invisible; the walk over a log only this code wrote reports every record
    intact; a log that the walk reports intact and that ends in a known head
    hash holds exactly the events that head commits to; and a page of a query
    together with what its cursor leads to is everything that matches. *)

From S2P Require Import Prelude Bytes Tables Digest Canonical Chain.
Import Canonical Chain GroupCommit.

Module AuditLog.

(** ** State *)

Inductive stored :=
  | StoredRecord (r : AuditRecord)
  | StoredEvent (e : AuditEvent)
  | Undecodable.

Record AuditDb := {
  EVENTS : gmap bytes stored;
  SEQUENCE_INDEX : gmap Z bytes;
  CHAIN_STATE : gmap bytes bytes
}.

Definition empty_db : AuditDb := {| EVENTS := ∅; SEQUENCE_INDEX := ∅; CHAIN_STATE := ∅ |}.

Definition NEXT_SEQUENCE : bytes := bytes_of_string "next_sequence".
Definition HEAD_HASH : bytes := bytes_of_string "head_hash".
Definition MAXIMUM_SCANNED_ENTRIES : Z := 100000.
Definition MAXIMUM_CHAIN_PROBLEMS : nat := 100.

Record AuditQuery := {
  since : option Z;
  until : option Z;
  q_principal : option bytes;
  q_operation : option bytes;
  resource_prefix : option bytes;
  q_result : option AuditResult;
  q_source_ip : option bytes;
  q_request_id : option bytes;
  after : option (Z * bytes);
  limit : Z
}.

Record AuditPage := {
  page_events : list AuditEvent;
  next : option (Z * bytes);
  scan_truncated : bool
}.

Record ChainProblem := { problem_sequence : Z; verdict : string }.

Record ChainVerification := {
  from_sequence : Z;
  checked : Z;
  intact : Z;
  unchained : Z;
  next_sequence : option Z;
  head_sequence : option Z;
  problems : list ChainProblem
}.

Definition is_intact (v : ChainVerification) : bool := bool_decide (length (problems v) = 0%nat).

(** ** Keys *)

Definition time_prefix (time : Z) : bytes := be_bytes 8 (Z.max (timestamp_micros time) 0).
Definition event_key_parts (time : Z) (id : bytes) : bytes := time_prefix time ++ id.
Definition event_key (e : AuditEvent) : bytes := event_key_parts (timestamp e) (event_id e).

Section Log.
Context `{HashFunction}.

(** ** Appending *)

Definition decode_stored (value : stored) : Prelude.result AuditError AuditRecord :=
  match value with
  | StoredRecord record => Ok record
  | StoredEvent event => Ok {| sequence := 0; chain := None; Chain.event := event |}
  | Undecodable => Err Encoding
  end.

Definition read_chain_head (table : gmap bytes bytes) : Prelude.result AuditError (Z * bytes) :=
  next ← transpose ((λ value : bytes,
           if decide (length value = 8%nat) then Ok (be_value value)
           else Err (Database "decode audit sequence" "sequence is not eight bytes"))
           <$> table !! NEXT_SEQUENCE);
  head ← transpose ((λ value : bytes,
           if decide (length value = 32%nat) then Ok value
           else Err (Database "decode audit chain head" "head is not thirty-two bytes"))
           <$> table !! HEAD_HASH);
  Ok (default 0 next, default genesis_hash head).

Definition append_in (e : AuditEvent) : tx AuditDb AuditError () :=
  let key := event_key e in
  '(sequence, previous) ← (λ db, (read_chain_head (CHAIN_STATE db), db));
  let record_hash := hash_event sequence previous e in
  let record := {| Chain.sequence := sequence;
                   chain := Some {| previous_hash := previous;
                                    links_record_hash := record_hash |};
                   Chain.event := e |} in
  replaced ← tx_gets (λ db, EVENTS db !! key);
  tx_modify (λ db, {| EVENTS := <[key := StoredRecord record]> (EVENTS db);
                      SEQUENCE_INDEX := SEQUENCE_INDEX db; CHAIN_STATE := CHAIN_STATE db |});;
  tx_guard (bool_decide (replaced = None))
    (Database "append event"
       "an audit record with this identifier and timestamp already exists");;
  tx_modify (λ db, {| EVENTS := EVENTS db;
                      SEQUENCE_INDEX := <[sequence := key]> (SEQUENCE_INDEX db);
                      CHAIN_STATE := CHAIN_STATE db |});;
  tx_modify (λ db, {| EVENTS := EVENTS db; SEQUENCE_INDEX := SEQUENCE_INDEX db;
                      CHAIN_STATE := <[HEAD_HASH := record_hash]>
                        (<[NEXT_SEQUENCE := be_bytes 8 (u64_saturating_add sequence 1)]>
                          (CHAIN_STATE db)) |}).

(** One transaction for the whole batch, or one for each append. *)
Definition commit_batch (batch : list AuditEvent) (db : AuditDb)
    : list (Prelude.result AuditError ()) * AuditDb :=
  match atomically (tx_iter append_in batch) db with
  | (Ok _, db') => ((λ _, Ok ()) <$> batch, db')
  | (Err error, _) =>
      match batch with
      | [_] => ([Err error], db)
      | _ => one_at_a_time append_in batch db
      end
  end.

(** ** Queries *)

Definition differs {A} `{EqDecision A} (filter : option A) (value : A) : bool :=
  match filter with Some f => bool_decide (f ≠ value) | None => false end.

(** Whether the scan keeps an event. *)
Definition matches (q : AuditQuery) (e : AuditEvent) : bool :=
  negb (differs (q_principal q) (principal e)
        || differs (q_operation q) (operation e)
        || match resource_prefix q with
           | Some p => negb (bool_decide (p `prefix_of` resource e)) | None => false end
        || differs (q_result q) (Canonical.result e)
        || match q_source_ip q with
           | Some v => bool_decide (Some v ≠ source_ip e) | None => false end
        || match q_request_id q with
           | Some v => bool_decide (Some v ≠ request_id e) | None => false end).

Definition query_start (q : AuditQuery) : bytes :=
  let start := match after q with
               | None => match since q with None => replicate 24 0 | Some t => time_prefix t end
               | Some (time, id) => event_key_parts time id ++ [0]
               end in
  if decide (start = []) then replicate 24 0 else start.

Definition query_end (q : AuditQuery) : bytes :=
  match until q with
  | None => replicate 25 255
  | Some time => time_prefix time ++ replicate 16 255
  end.

(** The loop over the range: what was kept, whether the budget ran out, and
    the last event looked at. *)
Fixpoint query_scan (q : AuditQuery) (scanned : Z) (entries : list (bytes * stored))
    (events : list AuditEvent) (last_scanned : option (Z * bytes))
    : Prelude.result AuditError (list AuditEvent * bool * option (Z * bytes)) :=
  match entries with
  | [] => Ok (events, false, last_scanned)
  | (_, value) :: entries =>
      if limit q <? Z.of_nat (length events) then Ok (events, false, last_scanned)
      else if MAXIMUM_SCANNED_ENTRIES <=? scanned then Ok (events, true, last_scanned)
      else
        record ← decode_stored value;
        let e := Chain.event record in
        query_scan q (scanned + 1) entries
          (if matches q e then events ++ [e] else events) (Some (timestamp e, event_id e))
  end.

Definition query (db : AuditDb) (q : AuditQuery) : Prelude.result AuditError AuditPage :=
  if negb ((1 <=? limit q) && (limit q <=? 1000)) then Err InvalidLimit
  else
    '(events, truncated, last_scanned) ←
      query_scan q 0 (table_range (query_start q) (query_end q) (EVENTS db)) [] None;
    if limit q <? Z.of_nat (length events) then
      let events := take (length events - 1) events in
      Ok {| page_events := events;
            next := (λ e, (timestamp e, event_id e)) <$> last events;
            scan_truncated := truncated |}
    else
      Ok {| page_events := events;
            next := if truncated then last_scanned else None;
            scan_truncated := truncated |}.

(** ** Verification of the chain *)

Definition load (db : AuditDb) (sequence : Z) : Prelude.result AuditError (option AuditRecord) :=
  match SEQUENCE_INDEX db !! sequence with
  | None => Ok None
  | Some key =>
      match EVENTS db !! key with
      | None => Ok None
      | Some value => Some <$> decode_stored value
      end
  end.

(** The mutable state of the walk: the counters, the problems, the hash to
    link to and the next position. *)
Record walk := {
  w_checked : Z; w_intact : Z; w_unchained : Z; w_problems : list ChainProblem;
  w_previous : bytes; w_sequence : Z
}.

(** One pass of the loop's body. *)
Definition verify_step (db : AuditDb) (w : walk) : Prelude.result AuditError walk :=
  loaded ← load db (w_sequence w);
  let '(v, previous) :=
    match loaded with
    | Some record =>
        (verify_against record (w_previous w),
         match chain record with Some links => links_record_hash links | None => w_previous w end)
    | None => (Missing, w_previous w)
    end in
  let is_problem := match v with Intact | Unchained => false | _ => true end in
  Ok {| w_checked := w_checked w + 1;
        w_intact := if decide (v = Intact) then w_intact w + 1 else w_intact w;
        w_unchained := if decide (v = Unchained) then w_unchained w + 1 else w_unchained w;
        w_problems :=
          if is_problem && (length (w_problems w) <? MAXIMUM_CHAIN_PROBLEMS)%nat
          then w_problems w ++ [{| problem_sequence := w_sequence w; verdict := label v |}]
          else w_problems w;
        w_previous := previous;
        w_sequence := u64_saturating_add (w_sequence w) 1 |}.

(** The [while checked < limit] loop: every pass counts one record, so [limit]
    passes exhaust it. *)
Fixpoint verify_loop (db : AuditDb) (head_sequence : option Z) (fuel : nat) (w : walk)
    : Prelude.result AuditError walk :=
  match fuel with
  | O => Ok w
  | S fuel =>
      match head_sequence with
      | None => Ok w
      | Some head =>
          if head <? w_sequence w then Ok w
          else w ← verify_step db w; verify_loop db head_sequence fuel w
      end
  end.

(** The hash a walk starts from: the genesis value, or the predecessor's stored
    hash taken on trust. *)
Definition starting_hash (db : AuditDb) (from : Z) : Prelude.result AuditError bytes :=
  match u64_checked_sub from 1 with
  | None => Ok genesis_hash
  | Some earlier =>
      (λ loaded, match loaded with
                 | Some record =>
                     match chain record with
                     | Some links => links_record_hash links
                     | None => genesis_hash
                     end
                 | None => genesis_hash
                 end) <$> load db earlier
  end.

Definition verify_chain (db : AuditDb) (from limit : Z)
    : Prelude.result AuditError ChainVerification :=
  if negb ((1 <=? limit) && (limit <=? 10000)) then Err InvalidLimit
  else
    '(next_to_assign, _) ← read_chain_head (CHAIN_STATE db);
    let head_sequence := u64_checked_sub next_to_assign 1 in
    previous ← starting_hash db from;
    w ← verify_loop db head_sequence (Z.to_nat limit)
          {| w_checked := 0; w_intact := 0; w_unchained := 0; w_problems := [];
             w_previous := previous; w_sequence := from |};
    Ok {| from_sequence := from; checked := w_checked w; intact := w_intact w;
          unchained := w_unchained w;
          next_sequence := match head_sequence with
                           | Some head => if w_sequence w <=? head then Some (w_sequence w) else None
                           | None => None
                           end;
          head_sequence := head_sequence; problems := w_problems w |}.
End Log.

(** ** Refinement: the tables hold a list of events *)

Section Refinement.
Context `{HashFunction}.

(** Every row is filed under its event's key, as appends and earlier releases
    left it. *)
Definition rows_ok (db : AuditDb) : Prop :=
  ∀ k v, EVENTS db !! k = Some v →
    bytes_ok k ∧ ∃ r, decode_stored v = Ok r ∧ k = event_key (Chain.event r).

(** The chained part of the tables is the log of [es]. Rows of unchained events
    may be present besides it. *)
Record refines (db : AuditDb) (es : list AuditEvent) : Prop := {
  refines_rows : rows_ok db;
  refines_head : read_chain_head (CHAIN_STATE db) = Ok (Z.of_nat (length es), chain_head es);
  refines_records : ∀ i r, chain_records es !! i = Some r →
    SEQUENCE_INDEX db !! Z.of_nat i = Some (event_key (Chain.event r)) ∧
    EVENTS db !! event_key (Chain.event r) = Some (StoredRecord r);
  refines_beyond : ∀ i, Z.of_nat (length es) ≤ i → SEQUENCE_INDEX db !! i = None
}.

Lemma refines_empty : refines empty_db [].
Proof.
  split; simpl; [by intros k v ?| |by intros i r ?|intros; apply lookup_empty].
  unfold read_chain_head. by rewrite !lookup_empty.
Qed.

(** A fresh event is appended as the next link. *)
Lemma append_in_fresh db es e :
  refines db es → EVENTS db !! event_key e = None →
  let r := link (Z.of_nat (length es)) (chain_head es) e in
  append_in e db =
    (Ok (), {| EVENTS := <[event_key e := StoredRecord r]> (EVENTS db);
               SEQUENCE_INDEX := <[Z.of_nat (length es) := event_key e]> (SEQUENCE_INDEX db);
               CHAIN_STATE := <[HEAD_HASH := hash_event (Z.of_nat (length es)) (chain_head es) e]>
                 (<[NEXT_SEQUENCE := be_bytes 8 (u64_saturating_add (Z.of_nat (length es)) 1)]>
                   (CHAIN_STATE db)) |}).
Proof.
  intros Href Hfresh r. unfold append_in.
  erewrite tx_bind_run_ok by by rewrite (refines_head _ _ Href).
  unfold mbind, tx_bind, tx_gets, tx_modify, tx_guard. rewrite Hfresh. simpl. done.
Qed.

Lemma append_in_duplicate db es e v :
  refines db es → EVENTS db !! event_key e = Some v →
  ∃ db', append_in e db =
    (Err (Database "append event"
       "an audit record with this identifier and timestamp already exists"), db').
Proof.
  intros Href Hdup. unfold append_in.
  erewrite tx_bind_run_ok by by rewrite (refines_head _ _ Href).
  unfold mbind, tx_bind, tx_gets, tx_modify, tx_guard. rewrite Hdup. simpl. eauto.
Qed.

Lemma read_chain_head_written state n h :
  is_u64 n → length h = 32%nat →
  read_chain_head (<[HEAD_HASH := h]> (<[NEXT_SEQUENCE := be_bytes 8 n]> state)) = Ok (n, h).
Proof.
  intros Hn Hh. unfold read_chain_head.
  assert (Hne : HEAD_HASH ≠ NEXT_SEQUENCE) by (intros Heq; by apply (f_equal length) in Heq).
  rewrite (lookup_insert_ne _ HEAD_HASH NEXT_SEQUENCE) by done. rewrite !lookup_insert_eq.
  cbn [fmap option_fmap option_map]. rewrite !decide_True by (done || apply length_be_bytes).
  cbn. do 2 f_equal. unfold is_u64, u64_max in Hn.
  etransitivity; [apply (be_value_be_bytes 8)|]. apply Z.mod_small. simpl. lia.
Qed.

Lemma append_in_refines db es e db' :
  refines db es → Z.of_nat (length es) < u64_max → bytes_ok (event_id e) →
  append_in e db = (Ok (), db') → refines db' (es ++ [e]).
Proof.
  intros Href Hn Hid Happ.
  destruct (EVENTS db !! event_key e) as [v|] eqn:Hfresh.
  { destruct (append_in_duplicate _ _ _ _ Href Hfresh) as [? Hdup]. congruence. }
  rewrite (append_in_fresh _ _ _ Href Hfresh) in Happ. injection Happ as <-.
  split; simpl.
  - unfold rows_ok. cbn [EVENTS]. intros k v [[<- <-]|[Hne Hk]]%lookup_insert_Some; [|by apply (refines_rows _ _ Href)].
    split; [|by eexists]. apply Forall_app. split; [apply be_bytes_ok|done].
  - rewrite read_chain_head_written; [|unfold is_u64, u64_saturating_add; lia|apply digest_length].
    rewrite chain_head_snoc, length_app. unfold u64_saturating_add. simpl.
    do 2 f_equal. lia.
  - intros i r. rewrite chain_records_snoc.
    intros [Hi|[Hlen Hi]]%lookup_app_Some.
    + destruct (refines_records _ _ Href _ _ Hi) as [Hidx Hev].
      apply lookup_lt_Some in Hi. rewrite length_chain_records in Hi.
      rewrite lookup_insert_ne by lia. split; [done|].
      rewrite lookup_insert_ne; [done|]. intros Heq. congruence.
    + rewrite length_chain_records in *.
      apply list_lookup_singleton_Some in Hi as [Hi <-].
      replace i with (length es) by lia. simpl. by rewrite !lookup_insert_eq.
  - intros i. rewrite length_app. simpl. intros Hi.
    rewrite lookup_insert_ne by lia. apply (refines_beyond _ _ Href). lia.
Qed.

(** Loading a position of a refined log. *)
Lemma refines_load db es i e :
  refines db es → es !! i = Some e →
  load db (Z.of_nat i) = Ok (Some (link (Z.of_nat i) (chain_head (take i es)) e)).
Proof.
  intros Href Hi. apply chain_records_lookup in Hi.
  destruct (refines_records _ _ Href _ _ Hi) as [Hidx Hev].
  unfold load. by rewrite Hidx, Hev.
Qed.

Lemma refines_load_beyond db es i :
  refines db es → Z.of_nat (length es) ≤ i → load db i = Ok None.
Proof. intros Href Hi. unfold load. by rewrite (refines_beyond _ _ Href). Qed.

(** ** Batches *)

Lemma tx_iter_apply_all batch db :
  tx_iter append_in batch db =
  match apply_all append_in batch db with
  | (Ok _, db') => (Ok (), db')
  | (Err e, db') => (Err e, db')
  end.
Proof.
  revert db. induction batch as [|e batch IH]; intros db; [done|].
  cbn [tx_iter apply_all]. unfold mbind, tx_bind.
  destruct (append_in e db) as [[[]|err] db1]; [|done].
  rewrite IH. by destruct (apply_all append_in batch db1) as [[]].
Qed.

Lemma apply_all_length batch db bs db' :
  apply_all append_in batch db = (Ok bs, db') → Ok (E := AuditError) <$> bs = (λ _, Ok ()) <$> batch.
Proof.
  revert db bs. induction batch as [|e batch IH]; intros db bs Hrun; cbn [apply_all] in Hrun.
  { by apply tx_ret_ok in Hrun as [-> ->]. }
  tx_step Hrun. cbn. destruct a. f_equal. by eapply IH.
Qed.

Lemma commit_batch_one_at_a_time batch db :
  commit_batch batch db = one_at_a_time append_in batch db.
Proof.
  unfold commit_batch, atomically. rewrite tx_iter_apply_all.
  destruct (apply_all append_in batch db) as [[bs|err] db'] eqn:Hrun.
  - rewrite (apply_all_one_at_a_time _ _ _ _ _ Hrun). by rewrite (apply_all_length _ _ _ _ Hrun).
  - destruct batch as [|e [|]]; [done| |done].
    rewrite one_at_a_time_singleton. unfold atomically.
    cbn [apply_all] in Hrun. unfold mbind, tx_bind in Hrun.
    destruct (append_in e db) as [[]]; [done|by simplify_eq].
Qed.

(** The events of a batch that were acknowledged. *)
Definition acknowledged (batch : list AuditEvent) (replies : list (Prelude.result AuditError ()))
    : list AuditEvent :=
  fst <$> filter (λ p, is_ok p.2 = true) (zip batch replies).

Lemma acknowledged_cons e batch r replies :
  acknowledged (e :: batch) (r :: replies) =
  (if is_ok r then [e] else []) ++ acknowledged batch replies.
Proof. unfold acknowledged. cbn [zip zip_with]. rewrite filter_cons. by destruct r. Qed.

Lemma one_at_a_time_refines batch db es replies db' :
  refines db es → Forall (λ e, bytes_ok (event_id e)) batch →
  Z.of_nat (length es) + Z.of_nat (length batch) ≤ u64_max →
  one_at_a_time append_in batch db = (replies, db') →
  refines db' (es ++ acknowledged batch replies).
Proof.
  revert db es replies. induction batch as [|e batch IH]; intros db es replies Href Hok Hn Hrun.
  { injection Hrun as <- <-. unfold acknowledged. simpl. by rewrite app_nil_r. }
  apply Forall_cons in Hok as [He Hok]. cbn [length] in Hn. cbn [one_at_a_time] in Hrun.
  unfold atomically in Hrun. destruct (append_in e db) as [[[]|err] db1] eqn:Happ.
  - destruct (one_at_a_time append_in batch db1) as [rs db2] eqn:Hrest. injection Hrun as <- <-.
    rewrite acknowledged_cons, app_assoc.
    apply (IH db1); [|done| |done].
    + apply (append_in_refines db es e db1); [done|lia|done|done].
    + rewrite length_app. simpl. lia.
  - destruct (one_at_a_time append_in batch db) as [rs db2] eqn:Hrest. injection Hrun as <- <-.
    rewrite acknowledged_cons. apply (IH db es rs); [done|done|lia|done].
Qed.
End Refinement.

(** ** The walk over the chain *)

Section Walk.
Context `{HashFunction}.

(** The hash the record at [i] must link to: the one stored at [i - 1]. *)
Definition stored_hash_before (db : AuditDb) (i : Z) : bytes :=
  if i <=? 0 then genesis_hash
  else match load db (i - 1) with
       | Ok (Some r) => match chain r with Some links => links_record_hash links | None => genesis_hash end
       | _ => genesis_hash
       end.

(** Position [i] holds a record that hashes to what it claims over the hash
    stored before it. *)
Definition linked (db : AuditDb) (i : Z) : Prop :=
  ∃ r, load db i = Ok (Some r) ∧ r = link (sequence r) (stored_hash_before db i) (Chain.event r).

Lemma linked_stored_hash db i r :
  0 ≤ i → load db i = Ok (Some r) → r = link (sequence r) (stored_hash_before db i) (Chain.event r) →
  stored_hash_before db (i + 1) =
  hash_event (sequence r) (stored_hash_before db i) (Chain.event r).
Proof.
  intros Hi Hload Hr. unfold stored_hash_before at 1.
  destruct (Z.leb_spec (i + 1) 0); [lia|]. rewrite Z.add_simpl_r, Hload.
  by rewrite Hr at 1.
Qed.

(** One pass counts one record, and counts it as intact only if it is linked. *)
Lemma verify_step_spec db w w' :
  0 ≤ w_sequence w < u64_max → verify_step db w = Ok w' →
  w_sequence w' = w_sequence w + 1 ∧ w_checked w' = w_checked w + 1 ∧
  (w_intact w' = w_intact w ∨
   w_intact w' = w_intact w + 1 ∧
   (w_previous w = stored_hash_before db (w_sequence w) →
    linked db (w_sequence w) ∧ w_previous w' = stored_hash_before db (w_sequence w + 1))).
Proof.
  intros Hseq Hstep. unfold verify_step in Hstep.
  apply result_bind_ok in Hstep as (loaded & Hload & Hstep).
  destruct loaded as [r|]; cbn in Hstep; injection Hstep as <-; cbn;
    (split; [unfold u64_saturating_add; lia|]); (split; [done|]); [|by left].
  case_decide as Hv; [right|by left]. split; [done|]. intros Hprev.
  rewrite Hprev in *. apply verify_intact_inv in Hv. split; [by exists r|].
  rewrite (linked_stored_hash _ _ r) by (done || lia). by rewrite Hv at 1.
Qed.

Lemma verify_loop_spec db head fuel w w' :
  head < u64_max → 0 ≤ w_sequence w → verify_loop db (Some head) fuel w = Ok w' →
  w_sequence w' - w_sequence w = w_checked w' - w_checked w ∧
  w_sequence w ≤ w_sequence w' ∧
  w_intact w' - w_intact w ≤ w_checked w' - w_checked w ∧
  (w_previous w = stored_hash_before db (w_sequence w) →
   w_intact w' - w_intact w = w_checked w' - w_checked w →
   ∀ i, w_sequence w ≤ i < w_sequence w' → linked db i).
Proof.
  intros Hhead. revert w. induction fuel as [|fuel IH]; intros w Hw Hloop; cbn in Hloop.
  { injection Hloop as <-. repeat split; intros; lia. }
  destruct (Z.ltb_spec head (w_sequence w)).
  { injection Hloop as <-. repeat split; intros; lia. }
  apply result_bind_ok in Hloop as (w1 & Hstep & Hloop).
  apply verify_step_spec in Hstep as (Hs & Hc & Hint); [|lia].
  apply IH in Hloop as (Hd & Hle & Hi & Hl); [|lia].
  split_and!; [lia|lia|destruct Hint as [?|[? ?]]; lia|].
  intros Hprev Hall i Hrange.
  destruct Hint as [?|[? Hint]]; [lia|]. destruct (Hint Hprev) as [Hlinked Hprev1].
  destruct (decide (i = w_sequence w)) as [->|]; [done|].
  apply Hl; [by rewrite Hs|lia|lia].
Qed.

(** Stored values are bytes. *)
Definition state_typed (db : AuditDb) : Prop := map_Forall (λ _ v, bytes_ok v) (CHAIN_STATE db).

#[export] Instance state_typed_dec db : Decision (state_typed db).
Proof. unfold state_typed. apply _. Defined.

Lemma read_chain_head_u64 state n h :
  map_Forall (λ _ v, bytes_ok v) state → read_chain_head state = Ok (n, h) → is_u64 n.
Proof.
  intros Htyped Hr. unfold read_chain_head in Hr.
  apply result_bind_ok in Hr as (next & Hnext & Hr).
  apply result_bind_ok in Hr as (head & _ & Hr). injection Hr as <- _.
  destruct (state !! NEXT_SEQUENCE) as [v|] eqn:Hv; cbn in Hnext.
  - case_decide as Hlen; [|done]. injection Hnext as <-. cbn.
    pose proof (be_value_bound v (Htyped _ _ Hv)) as Hb. rewrite Hlen in Hb.
    unfold is_u64, u64_max. simpl in Hb. lia.
  - injection Hnext as <-. cbn. unfold is_u64, u64_max. lia.
Qed.

Lemma starting_hash_before db from previous :
  is_u64 from → starting_hash db from = Ok previous → previous = stored_hash_before db from.
Proof.
  intros Hfrom Hprev. unfold starting_hash, stored_hash_before, is_u64 in *.
  destruct (Z.leb_spec from 0).
  - assert (from = 0) as -> by lia. change (u64_checked_sub 0 1) with (@None Z) in Hprev. congruence.
  - unfold u64_checked_sub, u64_checked in Hprev. case_bool_decide as Hu.
    + destruct (load db (from - 1)) as [[r|]|]; cbn in Hprev; try done; [|congruence].
      destruct (chain r); congruence.
    + unfold is_u64 in Hu. lia.
Qed.

(** A span reported wholly intact is linked throughout. *)
Lemma verify_chain_linked db from limit v :
  state_typed db → is_u64 from → verify_chain db from limit = Ok v → intact v = checked v →
  ∀ i, from ≤ i < from + checked v → linked db i.
Proof.
  intros Htyped Hfrom Hv Hall i Hi. unfold verify_chain in Hv.
  destruct (negb _); [done|].
  apply result_bind_ok in Hv as ([next h] & Hread & Hv).
  apply result_bind_ok in Hv as (previous & Hprev & Hv).
  apply result_bind_ok in Hv as (w & Hloop & Hv). injection Hv as <-. cbn in *.
  apply read_chain_head_u64 in Hread; [|done].
  destruct (u64_checked_sub next 1) as [head|] eqn:Hhead.
  2:{ destruct (Z.to_nat limit); cbn in Hloop; injection Hloop as <-; cbn in *; lia. }
  unfold u64_checked_sub in Hhead. apply u64_checked_Some in Hhead as [-> Hu].
  unfold is_u64 in *. apply verify_loop_spec in Hloop as (Hd & Hle & Hb & Hlinked); cbn in *; [|lia|lia].
  apply Hlinked; [by apply starting_hash_before|lia|lia].
Qed.
(** The records found at the first [n] positions. *)
Definition loaded_records (db : AuditDb) (n : nat) : list AuditRecord :=
  omap (λ i, match load db (Z.of_nat i) with Ok loaded => loaded | Err _ => None end) (seq 0 n).

Lemma linked_records db n :
  (∀ i, 0 ≤ i < Z.of_nat n → linked db i) →
  let rs := loaded_records db n in
  length rs = n ∧ (∀ i r, rs !! i = Some r → load db (Z.of_nat i) = Ok (Some r)) ∧
  walk_head genesis_hash rs = stored_hash_before db (Z.of_nat n).
Proof.
  induction n as [|n IH]; intros Hlinked; [split_and!; [done|by intros i r ?|done]|].
  destruct IH as (Hlen & Hload & Hhead); [intros; apply Hlinked; lia|].
  destruct (Hlinked (Z.of_nat n)) as (r & Hr & Hlink); [lia|].
  assert (Hrs : loaded_records db (S n) = loaded_records db n ++ [r]).
  { unfold loaded_records. rewrite seq_S, omap_app. cbn. by rewrite Hr. }
  cbn zeta. rewrite Hrs. split_and!.
  - rewrite length_app. simpl. lia.
  - intros i r' [Hi|[Hge Hi]]%lookup_app_Some; [by apply Hload|].
    apply list_lookup_singleton_Some in Hi as [Hi <-]. by replace i with n by lia.
  - rewrite walk_head_snoc, Hhead. replace (Z.of_nat (S n)) with (Z.of_nat n + 1) by lia.
    symmetry. apply linked_stored_hash; [lia|done|done].
Qed.

Lemma chain_records_ok es :
  Forall event_ok es → Z.of_nat (length es) ≤ u64_max → Forall record_ok (chain_records es).
Proof.
  intros Hok Hn. apply Forall_lookup. intros i r Hr.
  pose proof (lookup_lt_Some _ _ _ Hr) as Hlt. rewrite length_chain_records in Hlt.
  destruct (lookup_lt_is_Some_2 es i Hlt) as [e He].
  rewrite (chain_records_lookup _ _ _ He) in Hr. injection Hr as <-.
  split; [unfold is_u64; simpl; lia|]. by apply (Forall_lookup_1 _ _ _ _ Hok He).
Qed.

(** A linked log that ends in the head hash of [es] holds [es]. *)
Lemma linked_head_determines db es n rs :
  Forall event_ok es → Z.of_nat (length es) ≤ u64_max →
  Forall record_ok rs → length rs = n → walk_head genesis_hash rs = chain_head es →
  collision_free_on (GENESIS_DOMAIN :: walk_preimages genesis_hash rs ++
                     walk_preimages genesis_hash (chain_records es)) →
  (∀ i r, rs !! i = Some r → load db (Z.of_nat i) = Ok (Some r)) →
  n = length es ∧
  ∀ i e, es !! i = Some e → ∃ r, load db (Z.of_nat i) = Ok (Some r) ∧
    sequence r = Z.of_nat i ∧ to_micros (Chain.event r) = to_micros e.
Proof.
  intros Hes Hn Hrs Hlen Hhead Hcf Hload.
  assert (Heq : record_content <$> rs = record_content <$> chain_records es).
  { apply walk_head_inj; [done|by apply chain_records_ok|done|].
    rewrite Hhead. symmetry. apply walk_head_records_from. }
  split.
  { apply (f_equal length) in Heq. rewrite !length_fmap, length_chain_records in Heq. lia. }
  intros i e He. apply (f_equal (lookup i)) in Heq.
  rewrite !list_lookup_fmap, (chain_records_lookup _ _ _ He) in Heq.
  apply fmap_Some in Heq as (r & Hr & Hc).
  exists r. split_and!; [by apply Hload|..].
  - symmetry. apply (f_equal fst Hc).
  - symmetry. apply (f_equal snd Hc).
Qed.

(** ** The walk over a log that only appends wrote *)

(** The walk after [i] records of [es], having examined [k]. *)
Definition honest_walk (es : list AuditEvent) (k i : nat) : walk :=
  {| w_checked := Z.of_nat k; w_intact := Z.of_nat k; w_unchained := 0; w_problems := [];
     w_previous := chain_head (take i es); w_sequence := Z.of_nat i |}.

Lemma verify_step_honest db es k i :
  refines db es → (i < length es)%nat → Z.of_nat (length es) ≤ u64_max →
  verify_step db (honest_walk es k i) = Ok (honest_walk es (S k) (S i)).
Proof.
  intros Href Hi Hn. destruct (lookup_lt_is_Some_2 es i Hi) as [e He].
  unfold verify_step. cbn [w_sequence honest_walk]. rewrite (refines_load _ _ _ _ Href He).
  cbn [mbind result_bind w_previous honest_walk]. rewrite verify_link.
  unfold honest_walk, u64_saturating_add. rewrite (take_S_r _ _ _ He), chain_head_snoc.
  rewrite length_take_le, !Nat2Z.inj_succ by lia. cbn -[hash_event chain_head take Z.min].
  by rewrite Z.min_l by lia.
Qed.

Lemma starting_hash_honest db es i :
  refines db es → (i ≤ length es)%nat → Z.of_nat (length es) ≤ u64_max →
  starting_hash db (Z.of_nat i) = Ok (chain_head (take i es)).
Proof.
  intros Href Hi Hn. unfold starting_hash, u64_checked_sub, u64_checked.
  destruct i as [|i]; [done|]. rewrite bool_decide_eq_true_2 by (unfold is_u64; lia).
  destruct (lookup_lt_is_Some_2 es i) as [e He]; [lia|].
  replace (Z.of_nat (S i) - 1) with (Z.of_nat i) by lia.
  rewrite (refines_load _ _ _ _ Href He). cbn -[take chain_head hash_event].
  by rewrite (take_S_r _ _ _ He), chain_head_snoc, length_take_le by lia.
Qed.

Lemma verify_loop_honest db es fuel k i :
  refines db es → (i ≤ length es)%nat → Z.of_nat (length es) ≤ u64_max →
  let passes := Nat.min fuel (length es - i) in
  verify_loop db (u64_checked_sub (Z.of_nat (length es)) 1) fuel (honest_walk es k i) =
  Ok (honest_walk es (passes + k) (passes + i)).
Proof.
  intros Href Hi Hn. revert k i Hi. induction fuel as [|fuel IH]; intros k i Hi; [done|].
  cbn -[Nat.min]. unfold u64_checked_sub, u64_checked in *. case_bool_decide as Hu.
  - cbn -[Nat.min]. destruct (Z.ltb_spec (Z.of_nat (length es) - 1) (Z.of_nat i)).
    + replace (length es - i)%nat with 0%nat by lia. by rewrite Nat.min_0_r.
    + rewrite (verify_step_honest db es) by (done || lia). cbn -[Nat.min].
      rewrite IH by lia. do 2 f_equal; lia.
  - unfold is_u64 in Hu. replace (length es - i)%nat with 0%nat by lia. by rewrite Nat.min_0_r.
Qed.
End Walk.

(** ** Paging through a query *)

Section Paging.
Context `{HashFunction}.

Definition decoded (kv : bytes * stored) : option AuditEvent :=
  match decode_stored kv.2 with Ok r => Some (Chain.event r) | Err _ => None end.

Definition cursor (e : AuditEvent) : Z * bytes := (timestamp e, event_id e).

(** The events of a list of rows that a query keeps, in order. *)
Definition kept (q : AuditQuery) (rows : list (bytes * stored)) : list AuditEvent :=
  filter (λ e, matches q e = true) (omap decoded rows).

Definition range_rows (db : AuditDb) (q : AuditQuery) : list (bytes * stored) :=
  table_range (query_start q) (query_end q) (EVENTS db).

(** The answer of a query that had neither a page size nor a scan budget. *)
Definition matching (db : AuditDb) (q : AuditQuery) : list AuditEvent := kept q (range_rows db q).

(** The query a client sends to continue at a cursor. *)
Definition resume (q : AuditQuery) (c : Z * bytes) : AuditQuery :=
  {| since := since q; until := until q; q_principal := q_principal q;
     q_operation := q_operation q; resource_prefix := resource_prefix q;
     q_result := q_result q; q_source_ip := q_source_ip q; q_request_id := q_request_id q;
     after := Some c; limit := limit q |}.

Lemma kept_app q l l' : kept q (l ++ l') = kept q l ++ kept q l'.
Proof. unfold kept. by rewrite omap_app, filter_app. Qed.

Lemma kept_resume q c l : kept (resume q c) l = kept q l.
Proof. done. Qed.

Lemma kept_cons q kv e l :
  decoded kv = Some e → kept q (kv :: l) = (if matches q e then [e] else []) ++ kept q l.
Proof.
  intros He. unfold kept. cbn. rewrite He. rewrite filter_cons.
  destruct (matches q e); by case_decide.
Qed.

(** A kept event comes from a row that splits the scanned rows around it. *)
Lemma kept_split q rows l1 e l2 :
  kept q rows = l1 ++ e :: l2 →
  ∃ rows1 kv rows2, rows = rows1 ++ kv :: rows2 ∧ decoded kv = Some e ∧
    kept q rows1 = l1 ∧ kept q [kv] = [e] ∧ kept q rows2 = l2.
Proof.
  revert l1. induction rows as [|kv rows IH]; intros l1 Heq; [by destruct l1|].
  destruct (decoded kv) as [e'|] eqn:He.
  - rewrite (kept_cons _ _ _ _ He) in Heq. destruct (matches q e') eqn:Hm; cbn in Heq.
    + destruct l1 as [|x l1]; cbn in Heq; injection Heq as -> Heq.
      * exists [], kv, rows. split_and!; [done|done|done| |done].
        rewrite (kept_cons _ _ _ _ He), Hm. done.
      * destruct (IH _ Heq) as (r1 & kv' & r2 & -> & ? & <- & ? & ?).
        exists (kv :: r1), kv', r2. split_and!; [done|done| |done|done].
        by rewrite (kept_cons _ _ _ _ He), Hm.
    + destruct (IH _ Heq) as (r1 & kv' & r2 & -> & ? & <- & ? & ?).
      exists (kv :: r1), kv', r2. split_and!; [done|done| |done|done].
      by rewrite (kept_cons _ _ _ _ He), Hm.
  - unfold kept in Heq. cbn in Heq. rewrite He in Heq.
    destruct (IH _ Heq) as (r1 & kv' & r2 & -> & ? & <- & ? & ?).
    exists (kv :: r1), kv', r2. split_and!; [done|done| |done|done].
    unfold kept. cbn. by rewrite He.
Qed.

(** [Vec::pop] on a list of at least two. *)
Lemma take_pop {A} (l : list A) :
  (2 ≤ length l)%nat →
  ∃ l1 e x, l = l1 ++ [e; x] ∧ take (length l - 1) l = l1 ++ [e].
Proof.
  destruct l as [|x l _] using rev_ind; [simpl; lia|].
  destruct l as [|e l1 _] using rev_ind; [simpl; lia|]. intros _.
  exists l1, e, x. rewrite <-app_assoc. split; [done|].
  rewrite app_assoc, take_app_le, take_ge; [done|..]; rewrite !length_app; simpl; lia.
Qed.

(** What the loop returns: the kept events of a prefix of the range, which is
    the whole range unless the page is full or the budget is spent. *)
Lemma query_scan_spec q scanned rows events last_scanned :
  Forall (λ kv, is_Some (decoded kv)) rows →
  Z.of_nat (length events) ≤ limit q + 1 →
  ∃ pre post truncated, rows = pre ++ post ∧
    query_scan q scanned rows events last_scanned =
      Ok (events ++ kept q pre, truncated,
          match last pre with Some kv => cursor <$> decoded kv | None => last_scanned end) ∧
    Z.of_nat (length (events ++ kept q pre)) ≤ limit q + 1 ∧
    if truncated
    then Z.of_nat (length (events ++ kept q pre)) ≤ limit q ∧
         MAXIMUM_SCANNED_ENTRIES ≤ scanned + Z.of_nat (length pre)
    else post = [] ∨ limit q < Z.of_nat (length (events ++ kept q pre)).
Proof.
  revert scanned events last_scanned. induction rows as [|[k v] rows IH];
    intros scanned events last_scanned Hrows Hlen.
  { exists [], [], false. cbn. rewrite app_nil_r. auto. }
  apply Forall_cons in Hrows as [[e He] Hrows]. cbn [query_scan].
  destruct (Z.ltb_spec (limit q) (Z.of_nat (length events))).
  { exists [], ((k, v) :: rows), false. cbn. rewrite app_nil_r. auto. }
  destruct (Z.leb_spec MAXIMUM_SCANNED_ENTRIES scanned).
  { exists [], ((k, v) :: rows), true. cbn. rewrite app_nil_r. split_and!; auto; lia. }
  assert (Hd : ∃ r, decode_stored v = Ok r ∧ Chain.event r = e).
  { unfold decoded in He. cbn in He. destruct (decode_stored v); naive_solver. }
  destruct Hd as (r & Hr & Hre). rewrite Hr. cbn [mbind result_bind]. rewrite Hre.
  destruct (IH (scanned + 1) (if matches q e then events ++ [e] else events)
               (Some (timestamp e, event_id e)) Hrows) as (pre & post & tr & -> & Hscan & Hl & Htr).
  { destruct (matches q e); rewrite ?length_app; simpl; lia. }
  assert (Hkept : (if matches q e then events ++ [e] else events) ++ kept q pre =
                  events ++ kept q ((k, v) :: pre)).
  { rewrite (kept_cons _ _ _ _ He). destruct (matches q e); [by rewrite <-app_assoc|done]. }
  rewrite Hkept in *. exists ((k, v) :: pre), post, tr. split_and!; [done| |done|].
  - rewrite Hscan. rewrite last_cons. destruct (last pre); [done|]. by rewrite He.
  - destruct tr; [|done]. cbn [length]. destruct Htr. split; [done|lia].
Qed.

Lemma rows_ok_decoded db q :
  rows_ok db → Forall (λ kv, is_Some (decoded kv)) (range_rows db q).
Proof.
  intros Hrows. apply Forall_forall. intros [k v] [Hk _]%elem_of_table_range.
  destruct (Hrows _ _ Hk) as (_ & r & Hr & _). unfold decoded. cbn. rewrite Hr. eauto.
Qed.

(** Continuing at the cursor of a scanned row sees exactly the rows after it. *)
Lemma range_rows_resume db q pre kv post e :
  rows_ok db → range_rows db q = pre ++ kv :: post → decoded kv = Some e →
  range_rows db (resume q (cursor e)) = post.
Proof.
  intros Hrows Heq He. destruct kv as [k v].
  assert (Hin : (k, v) ∈ range_rows db q) by (rewrite Heq; set_solver).
  apply elem_of_table_range in Hin as [Hk _].
  destruct (Hrows _ _ Hk) as (_ & r & Hr & ->).
  unfold decoded in He. cbn in He. rewrite Hr in He. injection He as <-.
  unfold range_rows. cbn. unfold query_start. cbn.
  rewrite decide_False by (intros Hnil; by apply app_nil in Hnil as [_ ?]).
  eapply table_range_resume; [|exact Heq]. intros k' v' Hk'. by apply (Hrows _ _ Hk').
Qed.
End Paging.

(** ** The properties *)

Section Properties.
Context `{HashFunction}.

(** batching is invisible. However timing cuts the arriving events into
    batches, the writer thread's group commits give every caller the reply, and
    leave the database the contents, of appending the events one at a time in
    arrival order, each in a transaction of its own: a refused append fails
    alone and no batch lands in part. *)
Theorem audit_writer_sequential (batches : list (list AuditEvent)) (db : AuditDb) :
  writer_run commit_batch batches db = one_at_a_time append_in (concat batches) db.
Proof. apply writer_run_one_at_a_time. intros. apply commit_batch_one_at_a_time. Qed.

(** the three tables implement a list. Starting from tables that refine a
    list of events, running the writer over any batches leaves tables that
    refine the list extended by exactly the acknowledged events, in order:
    sequence numbers gapless from zero, every record linked to the one before,
    index and head in step, and a rejected append leaving no trace. *)
Theorem audit_writer_refines (db : AuditDb) (es : list AuditEvent)
    (batches : list (list AuditEvent)) (replies : list (Prelude.result AuditError ()))
    (db' : AuditDb)
    (Href : refines db es) (Hids : Forall (λ e, bytes_ok (event_id e)) (concat batches))
    (Hroom : Z.of_nat (length es) + Z.of_nat (length (concat batches)) ≤ u64_max)
    (Hrun : writer_run commit_batch batches db = (replies, db')) :
  refines db' (es ++ acknowledged (concat batches) replies).
Proof.
  rewrite (writer_run_one_at_a_time append_in) in Hrun by apply commit_batch_one_at_a_time.
  by eapply one_at_a_time_refines.
Qed.

(** verification accepts what the code wrote. On tables that refine a list
    of events, a walk from any position reports every record it examines as
    intact, none as unchained and no problem, examines as many as the limit
    allows up to the head, and says where to resume exactly when some are left. *)
Theorem verify_chain_complete (db : AuditDb) (es : list AuditEvent) (from limit : Z)
    (Href : refines db es) (Hroom : Z.of_nat (length es) ≤ u64_max)
    (Hfrom : 0 ≤ from ≤ Z.of_nat (length es)) (Hlimit : 1 ≤ limit ≤ 10000) :
  let n := Z.of_nat (length es) in
  let k := Z.min limit (n - from) in
  verify_chain db from limit =
    Ok {| from_sequence := from; checked := k; intact := k; unchained := 0;
          next_sequence := if from + k <? n then Some (from + k) else None;
          head_sequence := if n =? 0 then None else Some (n - 1);
          problems := [] |}.
Proof.
  intros n k. unfold verify_chain.
  rewrite (proj2 (Z.leb_le 1 limit)), (proj2 (Z.leb_le limit 10000)) by lia. cbn [andb negb].
  rewrite (refines_head _ _ Href). cbn [mbind result_bind].
  set (i := Z.to_nat from). assert (Hi : from = Z.of_nat i) by lia.
  rewrite Hi, (starting_hash_honest _ _ _ Href) by lia. cbn [mbind result_bind].
  pose proof (verify_loop_honest db es (Z.to_nat limit) 0 i Href ltac:(lia) Hroom) as Hloop.
  unfold honest_walk at 1 in Hloop. change (Z.of_nat 0) with 0 in Hloop. rewrite Hloop. clear Hloop.
  cbn -[take chain_head Nat.min Z.of_nat]. unfold u64_checked_sub, u64_checked.
  assert (Hk : Z.of_nat (Nat.min (Z.to_nat limit) (length es - i)) = k) by lia.
  rewrite Nat.add_0_r, Nat2Z.inj_add, Hk. rewrite (Z.add_comm k).
  destruct (Z.eqb_spec n 0).
  - rewrite bool_decide_eq_false_2 by (unfold is_u64; lia).
    destruct (Z.ltb_spec (Z.of_nat i + k) n); [lia|done].
  - rewrite bool_decide_eq_true_2 by (unfold is_u64; lia).
    destruct (Z.leb_spec (Z.of_nat i + k) (Z.of_nat (length es) - 1));
      destruct (Z.ltb_spec (Z.of_nat i + k) n); first [lia|done].
Qed.

(** a verified log is the log its head commits to. Whatever the tables
    hold, if walks that cover every position below [n] count every record they
    examine as intact, and the hash stored at the last position is the head
    hash of the events [es], then [n] is the number of those events and position
    [i] holds event [i], claiming sequence [i], equal in every field to the
    microsecond. So an edit, a deletion, an insertion or a reordering anywhere
    in the log shows, unless the hash function collides on the bytes hashed. *)
Theorem verify_chain_tamper_evident (db : AuditDb) (es : list AuditEvent) (n : nat)
    (Hstate : state_typed db)
    (Hrecords : ∀ i r, load db i = Ok (Some r) → record_ok r)
    (Hes : Forall event_ok es) (Hroom : Z.of_nat (length es) ≤ u64_max)
    (Hn : Z.of_nat n ≤ u64_max)
    (Hwalks : ∀ i, 0 ≤ i < Z.of_nat n → ∃ from limit v, is_u64 from ∧
       verify_chain db from limit = Ok v ∧ intact v = checked v ∧ from ≤ i < from + checked v)
    (Hhead : stored_hash_before db (Z.of_nat n) = chain_head es)
    (Hcf : collision_free_on (GENESIS_DOMAIN ::
       walk_preimages genesis_hash (loaded_records db n) ++
       walk_preimages genesis_hash (chain_records es))) :
  n = length es ∧
  ∀ i e, es !! i = Some e → ∃ r, load db (Z.of_nat i) = Ok (Some r) ∧
    sequence r = Z.of_nat i ∧ to_micros (Chain.event r) = to_micros e.
Proof.
  destruct (linked_records db n) as (Hlen & Hload & Hwalk).
  { intros i Hi. destruct (Hwalks i Hi) as (from & limit & v & Hu & Hv & Hall & Hr).
    by eapply verify_chain_linked. }
  apply (linked_head_determines db es n (loaded_records db n)); try done; [|congruence].
  apply Forall_lookup. intros i r Hr. by eapply Hrecords, Hload.
Qed.

(** paging loses and repeats nothing. On tables whose rows are filed under
    their events' keys, a query with a legal limit always answers, with at most
    the limit; what it answers, followed by what the query resumed at its cursor
    matches, is everything the query matches, in key order; without a cursor
    the page is complete; and a resumed query has strictly fewer rows to walk,
    so following cursors ends. *)
Theorem query_pages (db : AuditDb) (q : AuditQuery)
    (Hrows : rows_ok db) (Hlimit : 1 ≤ limit q ≤ 1000) :
  ∃ page rest, query db q = Ok page ∧
    Z.of_nat (length (page_events page)) ≤ limit q ∧
    matching db q = page_events page ++ rest ∧
    match next page with
    | None => rest = []
    | Some c => rest = matching db (resume q c) ∧
                (length (range_rows db (resume q c)) < length (range_rows db q))%nat
    end.
Proof.
  unfold query. rewrite (proj2 (Z.leb_le 1 _)), (proj2 (Z.leb_le _ 1000)) by lia. cbn [andb negb].
  destruct (query_scan_spec q 0 (range_rows db q) [] None) as
    (pre & post & tr & Hrange & Hscan & Hlen & Htr); [by apply rows_ok_decoded|simpl; lia|].
  unfold range_rows in Hscan. rewrite Hscan. cbn [mbind result_bind]. cbn [app] in *.
  assert (Hm : matching db q = kept q pre ++ kept q post).
  { unfold matching. by rewrite Hrange, kept_app. }
  destruct (Z.ltb_spec (limit q) (Z.of_nat (length (kept q pre)))) as [Hfull|Hfull].
  - destruct (take_pop (kept q pre)) as (l1 & e & x & Hk & ->); [lia|].
    destruct (kept_split _ _ _ _ _ Hk) as (rows1 & kv & rows2 & -> & Hkv & Hk1 & Hk2 & Hk3).
    rewrite <-app_assoc in Hrange. cbn in Hrange.
    pose proof (range_rows_resume db q _ _ _ _ Hrows Hrange Hkv) as Hres.
    eexists _, ([x] ++ kept q post). split; [done|]. cbn [page_events next].
    rewrite last_snoc. cbn [fmap option_fmap option_map]. split_and!.
    + rewrite Hk in Hlen. rewrite !length_app in *. simpl in *. lia.
    + rewrite Hm, Hk, <-!app_assoc. done.
    + unfold matching. change ((timestamp e, event_id e)) with (cursor e).
      by rewrite Hres, kept_resume, kept_app, Hk3.
    + change ((timestamp e, event_id e)) with (cursor e). rewrite Hres, Hrange.
      rewrite (length_app rows1). cbn [length]. lia.
  - eexists _, (kept q post). split; [done|]. cbn [page_events next].
    split_and!; [done|done|]. destruct tr.
    + destruct Htr as [_ Hbudget].
      destruct pre as [|kv pre _] using rev_ind; [unfold MAXIMUM_SCANNED_ENTRIES in Hbudget; simpl in *; lia|].
      rewrite last_snoc. pose proof (rows_ok_decoded db q Hrows) as Hdec.
      rewrite Hrange, !Forall_app, Forall_singleton in Hdec. destruct Hdec as [[_ [e He]] _].
      rewrite He. cbn. rewrite <-app_assoc in Hrange. cbn in Hrange.
      pose proof (range_rows_resume db q _ _ _ _ Hrows Hrange He) as Hres.
      change ((timestamp e, event_id e)) with (cursor e). unfold matching.
      rewrite Hres, kept_resume, Hrange, length_app. simpl. split; [done|lia].
    + destruct Htr as [->|?]; [done|lia].
Qed.

End Properties.

(** ** Witnesses on a log of two events *)

Definition sample_event (n : Z) : AuditEvent :=
  {| event_id := replicate 15 0 ++ [n]; timestamp := n * 1000000000;
     request_id := Some [n]; principal := bytes_of_string "root"; credential_id := None;
     source_ip := None; Canonical.operation := bytes_of_string "s3:PUT";
     resource := bytes_of_string "bucket:records"; result := Success; metadata := ∅ |}.

Definition sample_events : list AuditEvent := [sample_event 1; sample_event 2].

(** The second of three appends repeats the first and is refused. *)
Definition sample_batches : list (list AuditEvent) :=
  [[sample_event 1; sample_event 1]; [sample_event 2]].

Definition sample_run : list (Prelude.result AuditError ()) * AuditDb :=
  writer_run (commit_batch (H := sha256_function)) sample_batches empty_db.

Definition sample_db : AuditDb := snd sample_run.

Lemma sample_refines : refines (H := sha256_function) sample_db sample_events.
Proof.
  assert (Hack : acknowledged (concat sample_batches) (fst sample_run) = sample_events).
  { vm_compute. reflexivity. }
  rewrite <-Hack.
  apply (one_at_a_time_refines (H := sha256_function) (concat sample_batches) empty_db []
           (fst sample_run) sample_db).
  - apply refines_empty.
  - apply (bool_decide_eq_true (Forall _ _)). vm_compute. reflexivity.
  - vm_compute. discriminate.
  - rewrite <-(writer_run_one_at_a_time _ (commit_batch (H := sha256_function)) sample_batches).
    + apply surjective_pairing.
    + intros. apply commit_batch_one_at_a_time.
Qed.

Lemma audit_writer_refines_witness :
  refines (H := sha256_function) sample_db
    ([] ++ acknowledged (concat sample_batches) (fst sample_run)).
Proof.
  apply (audit_writer_refines (H := sha256_function) empty_db [] sample_batches (fst sample_run)).
  - apply refines_empty.
  - apply (bool_decide_eq_true (Forall _ _)). vm_compute. reflexivity.
  - vm_compute. discriminate.
  - apply surjective_pairing.
Defined.

Lemma verify_chain_complete_witness :
  verify_chain (H := sha256_function) sample_db 0 1 =
    Ok {| from_sequence := 0; checked := 1; intact := 1; unchained := 0;
          next_sequence := Some 1; head_sequence := Some 1; problems := [] |}.
Proof.
  apply (verify_chain_complete (H := sha256_function) sample_db sample_events 0 1).
  - apply sample_refines.
  - vm_compute. discriminate.
  - vm_compute. split; discriminate.
  - lia.
Defined.

Lemma verify_chain_tamper_evident_witness :
  2%nat = length sample_events ∧
  ∀ i e, sample_events !! i = Some e → ∃ r,
    load sample_db (Z.of_nat i) = Ok (Some r) ∧
    sequence r = Z.of_nat i ∧ to_micros (Chain.event r) = to_micros e.
Proof.
  apply (verify_chain_tamper_evident (H := sha256_function) sample_db sample_events 2).
  - apply (bool_decide_eq_true (state_typed _)). vm_compute. reflexivity.
  - intros i r Hload. assert (Hi : i = 0 ∨ i = 1).
    { destruct (decide (i = 0)); [by left|]. destruct (decide (i = 1)); [by right|].
      unfold load in Hload. replace (SEQUENCE_INDEX sample_db) with
        ({[0 := event_key (sample_event 1); 1 := event_key (sample_event 2)]} : gmap Z bytes) in Hload
        by (vm_compute; reflexivity).
      rewrite lookup_insert_ne, lookup_singleton_ne in Hload by done. done. }
    apply (bool_decide_eq_true (record_ok r)).
    destruct Hi as [-> | ->]; vm_compute in Hload; injection Hload as <-; vm_compute; reflexivity.
  - apply (bool_decide_eq_true (Forall _ _)). vm_compute. reflexivity.
  - vm_compute. discriminate.
  - vm_compute. discriminate.
  - intros i Hi. exists 0, 10,
      {| from_sequence := 0; checked := 2; intact := 2; unchained := 0;
         next_sequence := None; head_sequence := Some 1; problems := [] |}.
    split_and!; [vm_compute; split; discriminate|vm_compute; reflexivity|done|simpl; lia|simpl; lia].
  - vm_compute. reflexivity.
  - apply collision_free_onb_sound. vm_compute. reflexivity.
Defined.

(** Every event, one at a time. *)
Definition sample_query : AuditQuery :=
  {| since := None; until := None; q_principal := Some (bytes_of_string "root");
     q_operation := None; resource_prefix := None; q_result := None; q_source_ip := None;
     q_request_id := None; after := None; limit := 1 |}.

Lemma query_pages_witness :
  ∃ page rest, query sample_db sample_query = Ok page ∧
    Z.of_nat (length (page_events page)) ≤ limit sample_query ∧
    matching sample_db sample_query = page_events page ++ rest ∧
    match next page with
    | None => rest = []
    | Some c => rest = matching sample_db (resume sample_query c) ∧
                (length (range_rows sample_db (resume sample_query c)) <
                 length (range_rows sample_db sample_query))%nat
    end.
Proof.
  apply (query_pages sample_db sample_query).
  - apply (refines_rows _ _ sample_refines).
  - simpl. lia.
Defined.

Example sample_query_first_page :
  query sample_db sample_query =
    Ok {| page_events := [sample_event 1]; next := Some (1000000000, event_id (sample_event 1));
          scan_truncated := false |}.
Proof. vm_compute. reflexivity. Qed.

(** The log of two events with the stored value of the last replaced by a
    bare event with another principal. *)
Definition stripped_db : AuditDb :=
  {| EVENTS := <[event_key (sample_event 2) := StoredEvent
       {| event_id := event_id (sample_event 2); timestamp := timestamp (sample_event 2);
          request_id := None; principal := bytes_of_string "somebody else";
          credential_id := None; source_ip := None; operation := bytes_of_string "s3:GET";
          resource := []; result := Success; metadata := ∅ |}]> (EVENTS sample_db);
     SEQUENCE_INDEX := SEQUENCE_INDEX sample_db;
     CHAIN_STATE := CHAIN_STATE sample_db |}.

(** a record stripped of its links is not a problem. An indexed record was
    always written with links, yet a bare event in its place is counted as
    [unchained] and the report stays intact: the last record of a log can be
    replaced by any event without computing a hash, the head hash that the
    tables keep is not compared. *)
Example stripped_record_reported_intact :
  ∃ v, verify_chain (H := sha256_function) stripped_db 0 10 = Ok v ∧
    is_intact v = true ∧ checked v = 2 ∧ intact v = 1 ∧ unchained v = 1.
Proof.
  eexists. split; [vm_compute; reflexivity|]. vm_compute. auto.
Qed.

End AuditLog.
