(* ===== verification/ObjectLock.v ===== *)
(** * Object Lock rules

    [crates/record-store-core/src/object_lock.rs]: retention periods and legal
    holds on one immutable version, and the errors of the core crate
    ([crates/record-store-core/src/error.rs]).

    An instant is its number of nanoseconds since the epoch. Whether a date is
    representable is a question to [chrono] and an argument of the model. What
    is shown: no sequence of accepted changes releases a running compliance
    retention, nor a governance one without a bypass; changes classified as
    tightening never open a window in which a version could be deleted that was
    closed before. *)

From S2P Require Import Prelude Bytes.

Module ObjectLock.

(** Errors of the core crate; the texts are kept where the code spells them out. *)
Inductive CoreError :=
  | InvalidIdentifier (kind reason : string)
  | InvalidBucketName (reason : string)
  | InvalidObjectKey (reason : string)
  | InvalidChecksum (reason : string)
  | InvalidETag (reason : string)
  | InvalidPartNumber (reason : string)
  | InvalidLifecycleRule (reason : string)
  | InvalidByteRange (reason : string)
  | InvalidErasureProfile (reason : string)
  | InvalidReplicationProfile (reason : string)
  | InvalidObjectLock (reason : string)
  | InvalidCorsRule (reason : string)
  | InvalidStorageClass (reason : string).

(** The [Display] texts. *)
Definition core_error_display (e : CoreError) : string :=
  match e with
  | InvalidIdentifier kind reason => "invalid " +:+ kind +:+ " identifier: " +:+ reason
  | InvalidBucketName reason => "invalid bucket name: " +:+ reason
  | InvalidObjectKey reason => "invalid object key: " +:+ reason
  | InvalidChecksum reason => "invalid checksum: " +:+ reason
  | InvalidETag reason => "invalid ETag: " +:+ reason
  | InvalidPartNumber reason => "invalid multipart part number: " +:+ reason
  | InvalidLifecycleRule reason => "invalid lifecycle rule: " +:+ reason
  | InvalidByteRange reason => "invalid byte range: " +:+ reason
  | InvalidErasureProfile reason => "invalid erasure profile: " +:+ reason
  | InvalidReplicationProfile reason => "invalid replication profile: " +:+ reason
  | InvalidObjectLock reason => "invalid object lock: " +:+ reason
  | InvalidCorsRule reason => "invalid CORS rule: " +:+ reason
  | InvalidStorageClass reason => "invalid storage class: " +:+ reason
  end.

Inductive RetentionMode := Governance | Compliance.
Record Retention := { mode : RetentionMode; retain_until : Z }.
Record ObjectLockState := { retention : option Retention; legal_hold : bool }.
Inductive LockBlock := LegalHold | RetentionBlock (mode : RetentionMode) (retain_until : Z).
Inductive LockChangeRefused := ComplianceRetentionIsFinal | GovernanceBypassRequired.
Inductive RetentionPeriod := Days (days : Z) | Years (years : Z).
Record DefaultRetention := { default_mode : RetentionMode; period : RetentionPeriod }.
Record ObjectLockConfiguration := { default_retention : option DefaultRetention }.

#[export] Instance CoreError_eq_dec : EqDecision CoreError.
Proof. solve_decision. Defined.
#[export] Instance RetentionMode_eq_dec : EqDecision RetentionMode.
Proof. solve_decision. Defined.
#[export] Instance Retention_eq_dec : EqDecision Retention.
Proof. solve_decision. Defined.
#[export] Instance ObjectLockState_eq_dec : EqDecision ObjectLockState.
Proof. solve_decision. Defined.
#[export] Instance LockBlock_eq_dec : EqDecision LockBlock.
Proof. solve_decision. Defined.
#[export] Instance LockChangeRefused_eq_dec : EqDecision LockChangeRefused.
Proof. solve_decision. Defined.
#[export] Instance RetentionPeriod_eq_dec : EqDecision RetentionPeriod.
Proof. solve_decision. Defined.
#[export] Instance DefaultRetention_eq_dec : EqDecision DefaultRetention.
Proof. solve_decision. Defined.
#[export] Instance ObjectLockConfiguration_eq_dec : EqDecision ObjectLockConfiguration.
Proof. solve_decision. Defined.

Definition mode_as_str (m : RetentionMode) : string :=
  match m with Governance => "GOVERNANCE" | Compliance => "COMPLIANCE" end.

Definition mode_parse (value : string) : result CoreError RetentionMode :=
  if String.eqb value "GOVERNANCE" then Ok Governance
  else if String.eqb value "COMPLIANCE" then Ok Compliance
  else Err (InvalidObjectLock
              (String.append "retention mode must be GOVERNANCE or COMPLIANCE, not " value)).

(** [DateTime::timestamp_micros]. *)
Definition micros (time : Z) : Z := time / 1000.

Definition is_active_at (self : Retention) (now : Z) : bool := micros now <? micros (retain_until self).

Definition is_unlocked (self : ObjectLockState) : bool :=
  bool_decide (retention self = None) && negb (legal_hold self).

Definition deletion_block_at (self : ObjectLockState) (now : Z) : option LockBlock :=
  if legal_hold self then Some LegalHold
  else match retention self with
       | Some r => if is_active_at r now then Some (RetentionBlock (mode r) (retain_until r)) else None
       | None => None
       end.

Definition block_label (b : LockBlock) : string :=
  match b with
  | LegalHold => "legal_hold"
  | RetentionBlock Governance _ => "governance_retention"
  | RetentionBlock Compliance _ => "compliance_retention"
  end.

Definition is_bypassable (b : LockBlock) : bool :=
  match b with RetentionBlock Governance _ => true | _ => false end.

Definition refused_label (r : LockChangeRefused) : string :=
  match r with
  | ComplianceRetentionIsFinal => "compliance_retention_is_final"
  | GovernanceBypassRequired => "governance_bypass_required"
  end.

Definition strength (m : RetentionMode) : Z := match m with Governance => 0 | Compliance => 1 end.

(** A later or equal date under an at least as strong mode. *)
Definition tightens (current requested : Retention) : bool :=
  (retain_until current <=? retain_until requested) &&
  (strength (mode current) <=? strength (mode requested)).

Definition with_retention (self : ObjectLockState) (requested : option Retention) (now : Z)
    (governance_bypass : bool) : result LockChangeRefused ObjectLockState :=
  let accepted := {| retention := requested; legal_hold := legal_hold self |} in
  match retention self with
  | Some current =>
      if is_active_at current now then
        if match requested with Some r => tightens current r | None => false end
        then Ok accepted
        else match mode current with
             | Compliance => Err ComplianceRetentionIsFinal
             | Governance =>
                 if governance_bypass then Ok accepted else Err GovernanceBypassRequired
             end
      else Ok accepted
  | None => Ok accepted
  end.

Definition with_legal_hold (self : ObjectLockState) (hold : bool) : ObjectLockState :=
  {| retention := retention self; legal_hold := hold |}.

Definition change_only_tightens (self requested : ObjectLockState) : bool :=
  let retention_tightens :=
    match retention self, retention requested with
    | current, None => bool_decide (current = None)
    | None, Some _ => true
    | Some current, Some r => tightens current r
    end in
  retention_tightens && implb (legal_hold self) (legal_hold requested).

(** ** Periods and bucket defaults *)

Definition MAXIMUM_DAYS : Z := 36500.
Definition MAXIMUM_YEARS : Z := 100.
Definition DAYS_PER_YEAR : Z := 365.
Definition NANOS_PER_DAY : Z := 86400 * 1000000000.

Definition period_days (value : Z) : result CoreError RetentionPeriod :=
  if (1 <=? value) && (value <=? MAXIMUM_DAYS) then Ok (Days value)
  else Err (InvalidObjectLock "retention days must be between 1 and 36500").

Definition period_years (value : Z) : result CoreError RetentionPeriod :=
  if (1 <=? value) && (value <=? MAXIMUM_YEARS) then Ok (Years value)
  else Err (InvalidObjectLock "retention years must be between 1 and 100").

Definition period_validate (p : RetentionPeriod) : result CoreError RetentionPeriod :=
  match p with Days v => period_days v | Years v => period_years v end.

Definition default_validate (d : DefaultRetention) : result CoreError DefaultRetention :=
  p ← period_validate (period d); Ok {| default_mode := default_mode d; period := p |}.

Definition configuration_validate (c : ObjectLockConfiguration)
    : result CoreError ObjectLockConfiguration :=
  d ← transpose (default_validate <$> default_retention c); Ok {| default_retention := d |}.

Section Dates.
(** Whether [chrono] can represent an instant. *)
Context (representable : Z → bool).

Definition retain_until_from (p : RetentionPeriod) (written_at : Z) : result CoreError Z :=
  let days := match p with Days v => v | Years v => v * DAYS_PER_YEAR end in
  let until := written_at + days * NANOS_PER_DAY in
  if representable until then Ok until
  else Err (InvalidObjectLock "retention period does not fit in a representable date").

Definition initial_state_at (c : ObjectLockConfiguration) (written_at : Z)
    : result CoreError ObjectLockState :=
  r ← transpose ((λ d, until ← retain_until_from (period d) written_at;
                       Ok {| mode := default_mode d; retain_until := until |})
                 <$> default_retention c);
  Ok {| retention := r; legal_hold := false |}.
End Dates.

(** ** What the rules guarantee *)

Lemma micros_mono a b : a ≤ b → micros a ≤ micros b.
Proof. intros. unfold micros. apply Z.div_le_mono; lia. Qed.

Lemma is_active_at_antimono r t t' : t ≤ t' → is_active_at r t' = true → is_active_at r t = true.
Proof.
  unfold is_active_at. intros Ht. rewrite !Z.ltb_lt. pose proof (micros_mono t t' Ht). lia.
Qed.

(** A later date holds wherever the earlier one does. *)
Lemma is_active_at_later r r' t :
  retain_until r ≤ retain_until r' → is_active_at r t = true → is_active_at r' t = true.
Proof.
  unfold is_active_at. intros Hr. rewrite !Z.ltb_lt.
  pose proof (micros_mono _ _ Hr). lia.
Qed.

Lemma tightens_spec r r' :
  tightens r r' = true ↔
  retain_until r ≤ retain_until r' ∧ (mode r = Compliance → mode r' = Compliance).
Proof.
  unfold tightens. rewrite andb_true_iff, !Z.leb_le. destruct (mode r), (mode r'); simpl; naive_solver lia.
Qed.

(** A lock that holds at [t] under at least the given mode. *)
Definition holds_at (s : ObjectLockState) (m : RetentionMode) (t : Z) : Prop :=
  ∃ r, retention s = Some r ∧ is_active_at r t = true ∧ (m = Compliance → mode r = Compliance).

Lemma with_retention_hold s requested now bypass s' :
  with_retention s requested now bypass = Ok s' → legal_hold s' = legal_hold s ∧ retention s' = requested.
Proof.
  unfold with_retention. intros H. repeat break_in H; naive_solver.
Qed.

(** An accepted change keeps a running compliance retention, and a running
    governance one unless a bypass was presented. *)
Lemma with_retention_keeps s requested now bypass s' r :
  with_retention s requested now bypass = Ok s' → retention s = Some r →
  is_active_at r now = true → mode r = Compliance ∨ bypass = false →
  ∃ r', retention s' = Some r' ∧ tightens r r' = true.
Proof.
  unfold with_retention. intros H Hr Hact Hmode. rewrite Hr, Hact in H.
  destruct requested as [req|].
  - destruct (tightens r req) eqn:Ht; [simplify_eq; simpl; eauto|].
    destruct (mode r), bypass; naive_solver.
  - destruct (mode r), bypass; naive_solver.
Qed.

Lemma deletion_block_at_holds s t :
  deletion_block_at s t ≠ None ↔
  legal_hold s = true ∨ ∃ r, retention s = Some r ∧ is_active_at r t = true.
Proof.
  unfold deletion_block_at. destruct (legal_hold s); [naive_solver|].
  destruct (retention s) as [r|]; [|naive_solver].
  destruct (is_active_at r t) eqn:E; (split; [intros ?|intros [?|(? & [= <-] & ?)]]); try congruence.
  right. by exists r.
Qed.

Lemma change_only_tightens_blocks s s' t :
  change_only_tightens s s' = true → deletion_block_at s t ≠ None → deletion_block_at s' t ≠ None.
Proof.
  unfold change_only_tightens. rewrite andb_true_iff, !deletion_block_at_holds. intros [Hr Hh] [Hold|(r & Hr0 & Hact)].
  - left. by rewrite Hold in Hh.
  - right. rewrite Hr0 in Hr. destruct (retention s') as [r'|].
    + exists r'. split; [done|]. apply tightens_spec in Hr as [Hle _].
      by eapply is_active_at_later.
    + by apply bool_decide_eq_true in Hr.
Qed.

(** ** The properties *)

(** A requested change of a version's lock: a retention checked at an instant,
    or a legal hold. *)
Inductive LockChange :=
  | ChangeRetention (requested : option Retention) (now : Z) (governance_bypass : bool)
  | ChangeLegalHold (hold : bool).

Definition apply_change (s : ObjectLockState) (c : LockChange)
    : result LockChangeRefused ObjectLockState :=
  match c with
  | ChangeRetention requested now bypass => with_retention s requested now bypass
  | ChangeLegalHold hold => Ok (with_legal_hold s hold)
  end.

Fixpoint apply_changes (s : ObjectLockState) (cs : list LockChange)
    : result LockChangeRefused ObjectLockState :=
  match cs with
  | [] => Ok s
  | c :: cs => s ← apply_change s c; apply_changes s cs
  end.

(** The instant a change is checked at is not after [t]. *)
Definition change_before (t : Z) (c : LockChange) : Prop :=
  match c with ChangeRetention _ now _ => now ≤ t | ChangeLegalHold _ => True end.

(** a compliance retention is final. Whatever changes of retention and
    legal hold are accepted at instants up to [t], with or without a governance
    bypass, a compliance retention that runs at [t] still runs at [t] afterwards,
    in compliance mode, until the same date or a later one, and blocks deletion
    at [t] without a possible bypass. *)
Theorem compliance_retention_final (s s' : ObjectLockState) (cs : list LockChange)
    (r : Retention) (t : Z)
    (Hr : retention s = Some r) (Hmode : mode r = Compliance) (Hact : is_active_at r t = true)
    (Hbefore : Forall (change_before t) cs) (Hrun : apply_changes s cs = Ok s') :
  ∃ r', retention s' = Some r' ∧ mode r' = Compliance ∧ retain_until r ≤ retain_until r' ∧
    ∃ b, deletion_block_at s' t = Some b ∧ is_bypassable b = false.
Proof.
  assert (Hkept : ∃ r', retention s' = Some r' ∧ mode r' = Compliance ∧
                        retain_until r ≤ retain_until r').
  { revert s r Hr Hmode Hact Hrun. induction Hbefore as [|c cs Hc _ IH]; intros s r Hr Hmode Hact Hrun.
    { simplify_eq/=. exists r. done. }
    cbn in Hrun. apply result_bind_ok in Hrun as (s1 & Hstep & Hrun). destruct c as [req now bypass|hold].
    - cbn in Hc, Hstep. destruct (with_retention_keeps _ _ _ _ _ _ Hstep Hr) as (r1 & Hr1 & Ht);
        [by eapply is_active_at_antimono|by left|].
      apply tightens_spec in Ht as [Hle Hm].
      destruct (IH s1 r1 Hr1 (Hm Hmode) (is_active_at_later _ _ _ Hle Hact) Hrun)
        as (r' & ? & ? & ?). exists r'. split_and!; [done|done|lia].
    - cbn in Hstep. injection Hstep as <-. by apply (IH (with_legal_hold s hold) r). }
  destruct Hkept as (r' & Hr' & Hm' & Hle). exists r'. split_and!; [done|done|done|].
  unfold deletion_block_at. rewrite Hr', (is_active_at_later _ _ _ Hle Hact), Hm'.
  destruct (legal_hold s'); eauto.
Qed.

(** A year of compliance, then a request to release it and one to extend it. *)
Definition sample_lock : ObjectLockState :=
  {| retention := Some {| mode := Compliance; retain_until := 31536000000000000 |};
     legal_hold := false |}.

Lemma compliance_retention_final_witness :
  ∃ r', retention {| retention := Some {| mode := Compliance; retain_until := 31536000000000001 |};
                     legal_hold := true |} = Some r' ∧ mode r' = Compliance ∧
    31536000000000000 ≤ retain_until r' ∧
    ∃ b, deletion_block_at {| retention := Some {| mode := Compliance; retain_until := 31536000000000001 |};
                              legal_hold := true |} 7 = Some b ∧ is_bypassable b = false.
Proof.
  apply (compliance_retention_final sample_lock _
    [ChangeRetention (Some {| mode := Compliance; retain_until := 31536000000000001 |}) 5 true;
     ChangeLegalHold true]
    {| mode := Compliance; retain_until := 31536000000000000 |} 7).
  - reflexivity.
  - reflexivity.
  - reflexivity.
  - repeat constructor; simpl; lia.
  - reflexivity.
Defined.

(** a change that only tightens needs no clock. If [change_only_tightens]
    classifies a change so, then at every instant, past or future, at which the
    version could not be deleted before the change, it cannot be deleted after. *)
Theorem change_only_tightens_safe (s s' : ObjectLockState) (t : Z)
    (Hchange : change_only_tightens s s' = true) (Hblock : deletion_block_at s t ≠ None) :
  deletion_block_at s' t ≠ None.
Proof. by eapply change_only_tightens_blocks. Qed.

Lemma change_only_tightens_safe_witness :
  deletion_block_at (with_legal_hold sample_lock true) 7 ≠ None.
Proof.
  apply (change_only_tightens_safe sample_lock (with_legal_hold sample_lock true) 7).
  - reflexivity.
  - vm_compute. discriminate.
Defined.

End ObjectLock.
