(* ===== verification/CoreTypes.v ===== *)
(** * Domain values

    The data of [crates/record-store-core/src]: identifiers ([ids.rs]), quotas
    and versioning states ([quota.rs]), durability profiles ([durability.rs]),
    byte ranges and part numbers ([range.rs]), buckets, object metadata, version
    records and multipart uploads ([object.rs]), lifecycle rules ([lifecycle.rs])
    and storage events ([mutation_event.rs]), with their constructors.

    Field names carry a short prefix for the record they belong to. A [Uuid] is
    its sixteen bytes, a string its UTF-8 bytes, a CORS configuration and its
    rules plain data (their matching is not part of this file). *)

From S2P Require Import Prelude Bytes ObjectLock.
Import ObjectLock.

Module CoreTypes.

(** ** Quotas and versioning *)

Inductive VersioningState := Disabled | Enabled | Suspended.
Inductive ByteQuota := UnlimitedBytes | LimitBytes (limit : Z).
Inductive ObjectCountQuota := UnlimitedObjects | LimitObjects (limit : Z).
Record BucketQuota := { quota_bytes : ByteQuota; quota_objects : ObjectCountQuota }.

Definition bytes_allows (q : ByteQuota) (proposed : Z) : bool :=
  match q with UnlimitedBytes => true | LimitBytes limit => proposed <=? limit end.
Definition objects_allows (q : ObjectCountQuota) (proposed : Z) : bool :=
  match q with UnlimitedObjects => true | LimitObjects limit => proposed <=? limit end.

Definition ExpirationDays_MAX : Z := 36500.
Definition expiration_days_new (days : Z) : result CoreError Z :=
  if (1 <=? days) && (days <=? ExpirationDays_MAX) then Ok days
  else Err (InvalidLifecycleRule "expiration days must be between 1 and 36500").

(** ** Durability *)

Record ErasureProfile := { data_shards : Z; parity_shards : Z }.
Record ReplicationProfile := { replicas : Z; required_acknowledgements : Z }.
Inductive DurabilityProfile :=
  | Single
  | Replicated (profile : ReplicationProfile)
  | ErasureCoded (profile : ErasureProfile).

Definition MAX_TOTAL_SHARDS : Z := 32.

Definition erasure_profile_new (data parity : Z) : result CoreError ErasureProfile :=
  if data =? 0 then Err (InvalidErasureProfile "data_shards must be at least 1")
  else if parity =? 0 then Err (InvalidErasureProfile "parity_shards must be at least 1")
  else if 255 <? data + parity then Err (InvalidErasureProfile "total shard count overflows")
  else if MAX_TOTAL_SHARDS <? data + parity
       then Err (InvalidErasureProfile "at most 32 total shards are supported")
  else Ok {| data_shards := data; parity_shards := parity |}.

(** [u8] addition wraps in the release profile. *)
Definition total_shards (p : ErasureProfile) : Z := (data_shards p + parity_shards p) mod 256.

Definition replication_profile_new (n acks : Z) : result CoreError ReplicationProfile :=
  if n =? 0 then Err (InvalidReplicationProfile "replicas must be at least 1")
  else if (acks =? 0) || (n <? acks)
       then Err (InvalidReplicationProfile "required acknowledgements must be between 1 and replicas")
  else Ok {| replicas := n; required_acknowledgements := acks |}.

(** ** Ranges and part numbers *)

Record ByteRange := { range_offset : Z; range_length : Z }.
Record ResolvedByteRange := { resolved_offset : Z; resolved_length : Z }.

Definition byte_range_new (offset length : Z) : result CoreError ByteRange :=
  if length =? 0 then Err (InvalidByteRange "length must be non-zero")
  else match u64_checked_add offset length with
       | None => Err (InvalidByteRange "offset plus length exceeds u64")
       | Some _ => Ok {| range_offset := offset; range_length := length |}
       end.

Definition resolve (self : ByteRange) (object_size : Z) : result CoreError ResolvedByteRange :=
  if object_size <=? range_offset self
  then Err (InvalidByteRange "range starts at or beyond the end of the object")
  else let available := u64_sub object_size (range_offset self) in
       Ok {| resolved_offset := range_offset self;
             resolved_length := Z.min (range_length self) available |}.

Definition PartNumber_MAX : Z := 10000.
Definition part_number_new (value : Z) : result CoreError Z :=
  if PartNumber_MAX <? value then Err (InvalidPartNumber "part number must be between 1 and 10000")
  else if value =? 0 then Err (InvalidPartNumber "part number must be between 1 and 10000")
  else Ok value.

(** ** Buckets and objects *)

Inductive CorsMethod := CorsGet | CorsHead | CorsPut | CorsPost | CorsDelete.
Record CorsRule := {
  cors_id : option bytes;
  allowed_origins : list bytes;
  allowed_methods : list CorsMethod;
  allowed_headers : list bytes;
  expose_headers : list bytes;
  max_age_seconds : option Z
}.
Record CorsConfiguration := { cors_rules : list CorsRule }.

Record Bucket := {
  b_id : bytes;
  b_organization_id : bytes;
  b_name : bytes;
  b_created_at : Z;
  b_versioning : VersioningState;
  b_quota : BucketQuota;
  b_storage_class : option bytes;
  b_durability_policy : option DurabilityProfile;
  b_object_lock : option ObjectLockConfiguration;
  b_cors : option CorsConfiguration
}.

Inductive ChecksumAlgorithm := Sha256Checksum.
Record Checksum := { checksum_algorithm : ChecksumAlgorithm; checksum_digest : bytes }.
Inductive PayloadFormat := Plaintext | Aes256GcmEnvelopeV1.

Record ObjectMetadata := {
  o_id : bytes;
  o_bucket_id : bytes;
  o_key : bytes;
  o_version_id : bytes;
  o_size : Z;
  o_checksum : Checksum;
  o_payload_format : PayloadFormat;
  o_durability : DurabilityProfile;
  o_etag : bytes;
  o_content_type : option bytes;
  o_custom_metadata : gmap bytes bytes;
  o_created_at : Z;
  o_modified_at : Z
}.

Record DeleteMarker := {
  m_version_id : bytes;
  m_bucket_id : bytes;
  m_key : bytes;
  m_created_at : Z
}.

Inductive ObjectVersionRecord :=
  | ObjectRecord (metadata : ObjectMetadata) (null : bool)
  | MarkerRecord (marker : DeleteMarker) (null : bool).

Definition version_id (r : ObjectVersionRecord) : bytes :=
  match r with ObjectRecord o _ => o_version_id o | MarkerRecord m _ => m_version_id m end.
Definition record_key (r : ObjectVersionRecord) : bytes :=
  match r with ObjectRecord o _ => o_key o | MarkerRecord m _ => m_key m end.
Definition record_created_at (r : ObjectVersionRecord) : Z :=
  match r with ObjectRecord o _ => o_created_at o | MarkerRecord m _ => m_created_at m end.
Definition is_delete_marker (r : ObjectVersionRecord) : bool :=
  match r with ObjectRecord _ _ => false | MarkerRecord _ _ => true end.
Definition is_null (r : ObjectVersionRecord) : bool :=
  match r with ObjectRecord _ n | MarkerRecord _ n => n end.
(** The bucket a record belongs to; the code reads the field directly. *)
Definition record_bucket (r : ObjectVersionRecord) : bytes :=
  match r with ObjectRecord o _ => o_bucket_id o | MarkerRecord m _ => m_bucket_id m end.

Inductive MultipartUploadState := Active | Completing (object_id : bytes).

Record MultipartUpload := {
  u_id : bytes;
  u_bucket_id : bytes;
  u_key : bytes;
  u_content_type : option bytes;
  u_custom_metadata : gmap bytes bytes;
  u_object_lock : option ObjectLockState;
  u_initiated_at : Z;
  u_state : MultipartUploadState
}.

Record UploadedPart := {
  p_upload_id : bytes;
  p_number : Z;
  p_object_id : bytes;
  p_size : Z;
  p_checksum : Checksum;
  p_payload_format : PayloadFormat;
  p_etag : bytes;
  p_modified_at : Z
}.

(** ** Lifecycle rules *)

Record LifecycleRule := {
  l_id : bytes;
  l_bucket_id : bytes;
  l_prefix : bytes;
  l_enabled : bool;
  l_expiration : option Z;
  l_noncurrent_version_expiration : option Z;
  l_created_at : Z;
  l_updated_at : Z
}.

(** [ObjectKey::MAX_LENGTH]. *)
Definition ObjectKey_MAX_LENGTH : Z := 1024.

Definition lifecycle_validate (self : LifecycleRule) : result CoreError () :=
  if ObjectKey_MAX_LENGTH <? Z.of_nat (length (l_prefix self))
  then Err (InvalidLifecycleRule "prefix exceeds the maximum object-key length")
  else if bool_decide (l_expiration self = None) &&
          bool_decide (l_noncurrent_version_expiration self = None)
       then Err (InvalidLifecycleRule "at least one expiration action is required")
  else Ok ().

(** ** Storage events *)

Inductive StorageEventType :=
  | BucketCreated | BucketDeleted | ObjectCreated | ObjectUpdated | ObjectDeleted
  | ObjectRestored | MultipartCompleted | MultipartAborted.

Inductive WriteOrigin := Direct | Copy | MultipartCompletion | Restore.

Definition event_as_str (e : StorageEventType) : string :=
  match e with
  | BucketCreated => "bucket.created" | BucketDeleted => "bucket.deleted"
  | ObjectCreated => "object.created" | ObjectUpdated => "object.updated"
  | ObjectDeleted => "object.deleted" | ObjectRestored => "object.restored"
  | MultipartCompleted => "multipart.completed" | MultipartAborted => "multipart.aborted"
  end.

Record MutationEvent := {
  e_sequence : Z;
  e_event_id : bytes;
  e_event_type : StorageEventType;
  e_occurred_at : Z;
  e_bucket : bytes;
  e_key : option bytes;
  e_version_id : option bytes;
  e_size : option Z
}.

Definition EVENT_NAMESPACE : bytes :=
  [0x1f; 0x4a; 0x9c; 0x2e; 0x7b; 0x63; 0x4d; 0x18; 0x9a; 0x05; 0xc7; 0x3e; 0x51; 0x88; 0x2d; 0x60].

(** The bytes an event identifier is derived from. *)
Definition event_material (sequence : Z) (event_type : StorageEventType) (occurred_at : Z)
    (bucket : bytes) (key version : option bytes) : bytes :=
  be_bytes 8 sequence ++ bytes_of_string (event_as_str event_type) ++ [0] ++
  be_bytes 8 (micros occurred_at) ++ bucket ++ [0] ++ default [] key ++ [0] ++ default [] version.

(** What the code uses of the [uuid] crate, an argument of the model:
    [Uuid::new_v5], and the text of a UUID. *)
Class UuidCrate := { new_v5 : bytes → bytes → bytes; uuid_to_string : bytes → bytes }.

Definition derive_id `{UuidCrate} (sequence : Z) (event_type : StorageEventType) (occurred_at : Z)
    (bucket : bytes) (key version : option bytes) : bytes :=
  new_v5 EVENT_NAMESPACE (event_material sequence event_type occurred_at bucket key version).

(** ** Decidable equality *)

#[export] Instance VersioningState_eq_dec : EqDecision VersioningState.
Proof. solve_decision. Defined.
#[export] Instance ByteQuota_eq_dec : EqDecision ByteQuota.
Proof. solve_decision. Defined.
#[export] Instance ObjectCountQuota_eq_dec : EqDecision ObjectCountQuota.
Proof. solve_decision. Defined.
#[export] Instance BucketQuota_eq_dec : EqDecision BucketQuota.
Proof. solve_decision. Defined.
#[export] Instance ErasureProfile_eq_dec : EqDecision ErasureProfile.
Proof. solve_decision. Defined.
#[export] Instance ReplicationProfile_eq_dec : EqDecision ReplicationProfile.
Proof. solve_decision. Defined.
#[export] Instance DurabilityProfile_eq_dec : EqDecision DurabilityProfile.
Proof. solve_decision. Defined.
#[export] Instance CorsMethod_eq_dec : EqDecision CorsMethod.
Proof. solve_decision. Defined.
#[export] Instance CorsRule_eq_dec : EqDecision CorsRule.
Proof. solve_decision. Defined.
#[export] Instance CorsConfiguration_eq_dec : EqDecision CorsConfiguration.
Proof. solve_decision. Defined.
#[export] Instance Bucket_eq_dec : EqDecision Bucket.
Proof. solve_decision. Defined.
#[export] Instance ChecksumAlgorithm_eq_dec : EqDecision ChecksumAlgorithm.
Proof. solve_decision. Defined.
#[export] Instance Checksum_eq_dec : EqDecision Checksum.
Proof. solve_decision. Defined.
#[export] Instance PayloadFormat_eq_dec : EqDecision PayloadFormat.
Proof. solve_decision. Defined.
#[export] Instance ObjectMetadata_eq_dec : EqDecision ObjectMetadata.
Proof. solve_decision. Defined.
#[export] Instance DeleteMarker_eq_dec : EqDecision DeleteMarker.
Proof. solve_decision. Defined.
#[export] Instance ObjectVersionRecord_eq_dec : EqDecision ObjectVersionRecord.
Proof. solve_decision. Defined.
#[export] Instance MultipartUploadState_eq_dec : EqDecision MultipartUploadState.
Proof. solve_decision. Defined.
#[export] Instance MultipartUpload_eq_dec : EqDecision MultipartUpload.
Proof. solve_decision. Defined.
#[export] Instance UploadedPart_eq_dec : EqDecision UploadedPart.
Proof. solve_decision. Defined.
#[export] Instance LifecycleRule_eq_dec : EqDecision LifecycleRule.
Proof. solve_decision. Defined.
#[export] Instance StorageEventType_eq_dec : EqDecision StorageEventType.
Proof. solve_decision. Defined.
#[export] Instance MutationEvent_eq_dec : EqDecision MutationEvent.
Proof. solve_decision. Defined.

End CoreTypes.
