(* ===== verification/Keys.v ===== *)
(** * Keys of the catalog's tables

    [crates/record-store-metadata/src/keys.rs]: how records are filed. What is
    shown: every key function is injective on well-formed records; the entries
    between a prefix and its successor are the entries that begin with it; the
    versions of one key are ordered newest first. *)

From S2P Require Import Prelude Bytes Tables ObjectLock CoreTypes.
Import ObjectLock CoreTypes.

Module Keys.

Definition bucket_key (id : bytes) : bytes := id.
Definition lock_key (version : bytes) : bytes := version.
Definition object_prefix (bucket prefix : bytes) : bytes := bucket ++ prefix.
Definition object_key (bucket key : bytes) : bytes := object_prefix bucket key.
Definition exact_version_prefix (bucket key : bytes) : bytes := object_key bucket key ++ [0].

(** [created_at.timestamp_micros().max(0) as u64]. *)
Definition order_micros (time : Z) : Z := Z.max (micros time) 0.

Definition version_order_key (record : ObjectVersionRecord) : bytes :=
  let inverted := u64_sub u64_max (order_micros (record_created_at record)) in
  exact_version_prefix (record_bucket record) (record_key record) ++
  be_bytes 8 inverted ++ version_id record.

Definition multipart_order_key (upload : MultipartUpload) : bytes :=
  object_key (u_bucket_id upload) (u_key upload) ++ [0] ++
  be_bytes 8 (order_micros (u_initiated_at upload)) ++ u_id upload.

Definition part_key (id : bytes) (number : Z) : bytes := id ++ be_bytes 2 number.

(** The loop from the last byte down: the last byte that is not 255 is
    incremented and everything after it dropped. *)
Fixpoint successor_rev (rev_prefix : bytes) : option bytes :=
  match rev_prefix with
  | [] => None
  | b :: rest => if b =? 255 then successor_rev rest else Some (reverse (b + 1 :: rest))
  end.

Definition prefix_successor (prefix : bytes) : bytes :=
  match successor_rev (reverse prefix) with
  | Some out => out
  | None => prefix ++ [255]
  end.

(** ** Well-formedness: what the Rust types guarantee *)

Definition uuid_ok (id : bytes) : Prop := length id = 16%nat ∧ bytes_ok id.
(** A validated object key has bytes of UTF-8 text and no control character. *)
Definition key_ok (key : bytes) : Prop := Forall (λ b, 0 < b < 255) key.
Definition time_ok (t : Z) : Prop := is_i64 (micros t).

#[export] Instance uuid_ok_dec id : Decision (uuid_ok id).
Proof. unfold uuid_ok. apply _. Defined.
#[export] Instance key_ok_dec key : Decision (key_ok key).
Proof. unfold key_ok. apply _. Defined.
#[export] Instance time_ok_dec t : Decision (time_ok t).
Proof. unfold time_ok. apply _. Defined.

Definition record_ok (r : ObjectVersionRecord) : Prop :=
  uuid_ok (version_id r) ∧ uuid_ok (record_bucket r) ∧ key_ok (record_key r) ∧
  time_ok (record_created_at r).

#[export] Instance record_ok_dec r : Decision (record_ok r).
Proof. unfold record_ok. apply _. Defined.

Lemma key_ok_bytes key : key_ok key → bytes_ok key.
Proof. intros Hk. eapply Forall_impl; [exact Hk|]. unfold byte_ok. intros; simpl in *; lia. Qed.

Lemma order_micros_u64 t : time_ok t → 0 ≤ order_micros t < 2 ^ 63.
Proof. unfold time_ok, is_i64, order_micros. lia. Qed.

Lemma inverted_value t :
  time_ok t → u64_sub u64_max (order_micros t) = u64_max - order_micros t.
Proof.
  intros Ht%order_micros_u64. apply u64_wrap_id. unfold is_u64, u64_max. lia.
Qed.

(** ** Injectivity *)

Lemma object_key_inj b k b' k' :
  length b = length b' → object_key b k = object_key b' k' → b = b' ∧ k = k'.
Proof. apply app_inj_len. Qed.

(** The last sixteen bytes of an order key are the version. *)
Lemma version_order_key_inj r r' :
  record_ok r → record_ok r' → version_order_key r = version_order_key r' →
  version_id r = version_id r'.
Proof.
  intros ([Hl _] & _) ([Hl' _] & _) Heq. unfold version_order_key in Heq.
  rewrite !app_assoc in Heq. apply app_inj_2 in Heq as [_ ?]; [done|congruence].
Qed.

Lemma multipart_order_key_inj u u' :
  length (u_id u) = length (u_id u') → multipart_order_key u = multipart_order_key u' →
  u_id u = u_id u'.
Proof.
  intros Hl Heq. unfold multipart_order_key in Heq.
  rewrite !app_assoc in Heq. by apply app_inj_2 in Heq as [_ ?].
Qed.

Lemma part_key_inj i n i' n' :
  length i = length i' → is_u16 n → is_u16 n' → part_key i n = part_key i' n' → i = i' ∧ n = n'.
Proof.
  intros Hl Hn Hn' [-> Heq%be_bytes_u16_inj]%app_inj_len; done.
Qed.

(** ** Prefix ranges *)

Lemma successor_rev_spec p out :
  successor_rev (reverse p) = Some out →
  ∃ q b, out = q ++ [b + 1] ∧ b ≠ 255 ∧ ∃ n, p = q ++ [b] ++ replicate n 255.
Proof.
  induction p as [|x p IH] using rev_ind; [done|].
  rewrite reverse_snoc. cbn [successor_rev]. destruct (Z.eqb_spec x 255) as [->|Hx].
  - intros Hs. destruct (IH Hs) as (q & b & -> & Hb & n & ->).
    exists q, b. split_and!; [done|done|]. exists (S n).
    rewrite <-!app_assoc. do 2 f_equal. rewrite <-replicate_cons_app. done.
  - intros [= <-]. exists p, x. rewrite reverse_cons, reverse_involutive.
    split_and!; [done|done|]. by exists 0%nat.
Qed.

Lemma successor_rev_None p : successor_rev (reverse p) = None → p = replicate (length p) 255.
Proof.
  induction p as [|x p IH] using rev_ind; [done|].
  rewrite reverse_snoc. cbn [successor_rev]. destruct (Z.eqb_spec x 255) as [->|]; [|done].
  intros Hs. rewrite length_app, Nat.add_comm. simpl.
  rewrite (IH Hs) at 1. rewrite <-replicate_S_end. done.
Qed.

(** A string between [q ++ b ++ 255...] and [q ++ (b + 1)] starts with the former. *)
Lemma between_prefix q b n k :
  bytes_ok k → bytes_le (q ++ [b] ++ replicate n 255) k → bytes_lt k (q ++ [b + 1]) →
  (q ++ [b] ++ replicate n 255) `prefix_of` k.
Proof.
  revert k. induction q as [|x q IH]; intros [|y k] Hok; cbn [app].
  - intros Hle. by apply bytes_le_nil_r in Hle.
  - intros Hle Hlt. apply bytes_le_cons in Hle. apply bytes_lt_cons in Hlt.
    destruct Hlt as [Hlt|[-> Hlt]]; [|by apply bytes_lt_nil_r in Hlt].
    destruct Hle as [?|[-> Hle]]; [lia|]. apply prefix_cons.
    apply Forall_cons in Hok as [_ Hok]. clear Hlt. revert k Hok Hle.
    induction n as [|n IHn]; intros [|z k] Hok Hle; [apply prefix_nil|apply prefix_nil| |].
    + by apply bytes_le_nil_r in Hle.
    + cbn [replicate] in *. apply bytes_le_cons in Hle. apply Forall_cons in Hok as [Hz Hok].
      unfold byte_ok in Hz. destruct Hle as [?|[<- Hle]]; [lia|].
      apply prefix_cons. by apply IHn.
  - intros Hle. by apply bytes_le_nil_r in Hle.
  - intros Hle Hlt. apply bytes_le_cons in Hle. apply bytes_lt_cons in Hlt.
    apply Forall_cons in Hok as [_ Hok].
    destruct Hle as [?|[-> Hle]], Hlt as [?|[? Hlt]]; try lia. apply prefix_cons. by apply IH.
Qed.

(** A string at least [255...] starts with it. *)
Lemma all_max_prefix n k :
  bytes_ok k → bytes_le (replicate n 255) k → replicate n 255 `prefix_of` k.
Proof.
  revert k. induction n as [|n IH]; intros [|z k] Hok Hle; [apply prefix_nil|apply prefix_nil| |].
  - by apply bytes_le_nil_r in Hle.
  - cbn [replicate] in *. apply bytes_le_cons in Hle. apply Forall_cons in Hok as [Hz Hok].
    unfold byte_ok in Hz. destruct Hle as [?|[<- Hle]]; [lia|]. apply prefix_cons. by apply IH.
Qed.

(** Scanning from a prefix to its successor finds only keys with the prefix ... *)
Lemma prefix_range_sound p k :
  bytes_ok k → in_range p (prefix_successor p) k → p `prefix_of` k.
Proof.
  intros Hok [Hle Hlt]. unfold prefix_successor in Hlt.
  destruct (successor_rev (reverse p)) as [out|] eqn:Hs.
  - apply successor_rev_spec in Hs as (q & b & -> & Hb & n & ->). by apply between_prefix.
  - apply successor_rev_None in Hs. rewrite Hs in Hle |- *. by apply all_max_prefix.
Qed.

(** ... and all of them, if the prefix has a byte other than 255 or they do not
    continue with it. *)
Lemma prefix_range_complete p rest :
  (∀ b, head rest = Some b → b < 255) ∨ is_Some (successor_rev (reverse p)) →
  in_range p (prefix_successor p) (p ++ rest).
Proof.
  intros Hrest. split; [apply bytes_le_app|]. unfold prefix_successor.
  destruct (successor_rev (reverse p)) as [out|] eqn:Hs.
  - apply successor_rev_spec in Hs as (q & b & -> & Hb & n & ->).
    rewrite <-!app_assoc. apply bytes_lt_app_l. cbn [app]. apply bytes_lt_cons. left. lia.
  - destruct Hrest as [Hrest|[? ?]]; [|done].
    apply bytes_lt_app_l. destruct rest as [|b rest]; [by apply bytes_lt_nil_l|].
    apply bytes_lt_cons. left. by apply Hrest.
Qed.

(** A version 4 UUID, such as the identifiers the program draws. *)
Definition is_v4 (id : bytes) : Prop := uuid_ok id ∧ ∃ b, id !! 6%nat = Some b ∧ 64 ≤ b < 80.

Lemma v4_prefix_successor id rest : is_v4 id → is_Some (successor_rev (reverse (id ++ rest))).
Proof.
  intros [_ (b & Hb & Hr)]. destruct (successor_rev _) eqn:Hs; [by eexists|].
  apply successor_rev_None in Hs. apply (lookup_app_l_Some _ rest) in Hb. rewrite Hs in Hb.
  apply lookup_replicate in Hb as [-> _]. lia.
Qed.

Lemma v4_successor id : is_v4 id → is_Some (successor_rev (reverse id)).
Proof. intros H. rewrite <-(app_nil_r id). by apply v4_prefix_successor. Qed.

Lemma v4_length id : is_v4 id → 16%nat = length id.
Proof. by intros [[? _] _]. Qed.

(** ** The versions of one key *)

(** An order key belongs to the prefix of a key exactly if its record does: the
    zero byte after the key cannot be part of a longer key. *)
Lemma zero_terminated k k' rest rest' :
  key_ok k → key_ok k' → k ++ 0 :: rest = k' ++ 0 :: rest' → k = k' ∧ rest = rest'.
Proof.
  revert k'. induction k as [|b k IH]; intros [|b' k'] Hk Hk' Heq; cbn in Heq.
  - by injection Heq.
  - injection Heq as <- _. apply Forall_cons in Hk' as [? _]. lia.
  - injection Heq as -> _. apply Forall_cons in Hk as [? _]. lia.
  - injection Heq as -> Heq. apply Forall_cons in Hk as [_ Hk]. apply Forall_cons in Hk' as [_ Hk'].
    destruct (IH _ Hk Hk' Heq) as [-> ->]. done.
Qed.

Lemma version_order_key_bytes r : record_ok r → bytes_ok (version_order_key r).
Proof.
  intros ([_ Hv] & [_ Hb] & Hk & _). unfold version_order_key, exact_version_prefix, object_key, object_prefix.
  repeat (apply Forall_app; split); try done; [by apply key_ok_bytes| |apply be_bytes_ok].
  repeat constructor; unfold byte_ok; lia.
Qed.

Lemma version_range_spec bucket key r :
  uuid_ok bucket → key_ok key → record_ok r →
  in_range (exact_version_prefix bucket key) (prefix_successor (exact_version_prefix bucket key))
    (version_order_key r) ↔
  record_bucket r = bucket ∧ record_key r = key.
Proof.
  intros Hb Hk Hr. pose proof (version_order_key_bytes r Hr) as Hok.
  destruct Hr as (Hv & Hrb & Hrk & Ht). split.
  - intros [rest Heq]%prefix_range_sound; [|done].
    unfold version_order_key, exact_version_prefix, object_key, object_prefix in Heq.
    rewrite <-!app_assoc in Heq.
    apply app_inj_len in Heq as [-> Heq]; [|destruct Hb, Hrb; congruence].
    cbn [app] in Heq. by apply zero_terminated in Heq as [-> _].
  - intros [<- <-]. apply prefix_range_complete. right.
    unfold exact_version_prefix. rewrite reverse_snoc. by eexists.
Qed.

(** Among the versions of one key, the order key is smaller exactly if the
    version is newer, or as old with a smaller identifier. *)
Lemma version_order_newest r r' :
  record_ok r → record_ok r' → record_bucket r = record_bucket r' → record_key r = record_key r' →
  bytes_le (version_order_key r) (version_order_key r') →
  order_micros (record_created_at r') ≤ order_micros (record_created_at r).
Proof.
  intros (_ & _ & _ & Ht) (_ & _ & _ & Ht') Hb Hk Hle.
  unfold version_order_key in Hle. rewrite Hb, Hk, !inverted_value in Hle by done.
  apply bytes_le_app_l, bytes_le_app_head in Hle; [|by rewrite !length_be_bytes].
  apply order_micros_u64 in Ht, Ht'.
  apply be_bytes_le in Hle; [lia|..]; unfold is_u64, u64_max; simpl; lia.
Qed.

(** ** The uploads of a bucket and the parts of an upload *)

Definition upload_ok (u : MultipartUpload) : Prop :=
  uuid_ok (u_id u) ∧ uuid_ok (u_bucket_id u) ∧ key_ok (u_key u) ∧ time_ok (u_initiated_at u).
Definition part_ok (p : UploadedPart) : Prop :=
  uuid_ok (p_upload_id p) ∧ 1 ≤ p_number p ≤ PartNumber_MAX ∧ is_u64 (p_size p).

#[export] Instance upload_ok_dec u : Decision (upload_ok u).
Proof. unfold upload_ok. apply _. Defined.
#[export] Instance part_ok_dec p : Decision (part_ok p).
Proof. unfold part_ok. apply _. Defined.

Lemma multipart_order_key_bytes u : upload_ok u → bytes_ok (multipart_order_key u).
Proof.
  intros ([_ Hi] & [_ Hb] & Hk & _). unfold multipart_order_key, object_key, object_prefix.
  repeat (apply Forall_app; split); try done; [by apply key_ok_bytes| |apply be_bytes_ok].
  repeat constructor; unfold byte_ok; lia.
Qed.

Lemma bucket_range_spec bucket u :
  uuid_ok bucket → upload_ok u →
  in_range (bucket_key bucket) (prefix_successor (bucket_key bucket)) (multipart_order_key u) ↔
  u_bucket_id u = bucket.
Proof.
  intros Hb Hu. pose proof (multipart_order_key_bytes u Hu) as Hok.
  destruct Hu as (Hi & Hub & Hk & Ht). unfold bucket_key.
  unfold multipart_order_key, object_key, object_prefix in *. rewrite <-!app_assoc in *. split.
  - intros [rest Heq]%prefix_range_sound; [|done].
    by apply app_inj_len in Heq as [-> _]; [|destruct Hb, Hub; congruence].
  - intros <-. apply prefix_range_complete. left. intros b.
    destruct (u_key u) as [|x k]; cbn.
    + intros [= <-]. lia.
    + intros [= <-]. apply Forall_cons in Hk as [? _]. lia.
Qed.

Lemma part_range_spec id i n :
  uuid_ok id → uuid_ok i → 1 ≤ n ≤ PartNumber_MAX →
  in_range id (prefix_successor id) (part_key i n) ↔ i = id.
Proof.
  intros Hid Hi Hn. unfold part_key. split.
  - intros [rest Heq]%prefix_range_sound.
    + by apply app_inj_len in Heq as [-> _]; [|destruct Hid, Hi; congruence].
    + apply Forall_app. split; [apply Hi|apply be_bytes_ok].
  - intros ->. apply prefix_range_complete. left. intros b.
    change (be_bytes 2 n) with ((n / 256 ^ 1) mod 256 :: be_bytes 1 n). intros [= <-].
    unfold PartNumber_MAX in Hn. rewrite Z.pow_1_r.
    assert (n / 256 < 40) by (apply Z.div_lt_upper_bound; lia).
    assert (0 ≤ n / 256) by (apply Z.div_pos; lia).
    rewrite Z.mod_small; lia.
Qed.

End Keys.
