(* ===== verification/Catalog.v ===== *)
(** * The metadata catalog: state and transaction steps

    [crates/record-store-metadata/src/schema.rs], [types.rs], [error.rs] and
    [tx.rs]: the tables of the catalog and the steps a command is made of. A
    table maps byte keys to decoded values, so the JSON codec and its failures
    are not modelled, nor are failures of the database file; a write transaction
    is a computation over the whole state ([tx]). *)

From S2P Require Import Prelude Bytes Tables ObjectLock CoreTypes Keys.
Import ObjectLock CoreTypes Keys.

Module Catalog.

(** ** State *)

Record BucketUsage := {
  current_objects : Z;
  logical_bytes : Z;
  versions : Z;
  version_bytes : Z;
  multipart_bytes : Z
}.
Definition usage_default : BucketUsage :=
  {| current_objects := 0; logical_bytes := 0; versions := 0; version_bytes := 0;
     multipart_bytes := 0 |}.

#[export] Instance BucketUsage_eq_dec : EqDecision BucketUsage.
Proof. solve_decision. Defined.

Record Catalog := {
  BUCKETS : gmap bytes Bucket;
  BUCKET_NAMES : gmap bytes Bucket;
  OBJECTS : gmap bytes ObjectMetadata;
  MARKERS : gmap bytes DeleteMarker;
  VERSIONS : gmap bytes ObjectVersionRecord;
  VERSION_ORDER : gmap bytes bytes;
  NULL_VERSIONS : gmap bytes bytes;
  MULTIPART : gmap bytes MultipartUpload;
  MULTIPART_ORDER : gmap bytes bytes;
  PARTS : gmap bytes UploadedPart;
  CLEANUP : gmap bytes Z;
  BUCKET_USAGE : gmap bytes BucketUsage;
  LIFECYCLE_RULES : gmap bytes LifecycleRule;
  OBJECT_LOCKS : gmap bytes ObjectLockState;
  MUTATION_EVENTS : gmap Z MutationEvent;
  COUNTERS : gmap string Z;
  CLOCK : gmap string Z
}.

(** The catalog [initialize_schema] creates: every table empty. *)
Definition empty_catalog : Catalog :=
  {| BUCKETS := ∅;
     BUCKET_NAMES := ∅;
     OBJECTS := ∅;
     MARKERS := ∅;
     VERSIONS := ∅;
     VERSION_ORDER := ∅;
     NULL_VERSIONS := ∅;
     MULTIPART := ∅;
     MULTIPART_ORDER := ∅;
     PARTS := ∅;
     CLEANUP := ∅;
     BUCKET_USAGE := ∅;
     LIFECYCLE_RULES := ∅;
     OBJECT_LOCKS := ∅;
     MUTATION_EVENTS := ∅;
     COUNTERS := ∅;
     CLOCK := ∅ |}.

(** Updating one table. *)
Definition upd_buckets (f : gmap bytes Bucket → gmap bytes Bucket) (c : Catalog) : Catalog :=
  {| BUCKETS := f (BUCKETS c); BUCKET_NAMES := BUCKET_NAMES c; OBJECTS := OBJECTS c;
     MARKERS := MARKERS c; VERSIONS := VERSIONS c; VERSION_ORDER := VERSION_ORDER c;
     NULL_VERSIONS := NULL_VERSIONS c; MULTIPART := MULTIPART c;
     MULTIPART_ORDER := MULTIPART_ORDER c; PARTS := PARTS c; CLEANUP := CLEANUP c;
     BUCKET_USAGE := BUCKET_USAGE c; LIFECYCLE_RULES := LIFECYCLE_RULES c;
     OBJECT_LOCKS := OBJECT_LOCKS c; MUTATION_EVENTS := MUTATION_EVENTS c;
     COUNTERS := COUNTERS c; CLOCK := CLOCK c |}.
Definition upd_names (f : gmap bytes Bucket → gmap bytes Bucket) (c : Catalog) : Catalog :=
  {| BUCKETS := BUCKETS c; BUCKET_NAMES := f (BUCKET_NAMES c); OBJECTS := OBJECTS c;
     MARKERS := MARKERS c; VERSIONS := VERSIONS c; VERSION_ORDER := VERSION_ORDER c;
     NULL_VERSIONS := NULL_VERSIONS c; MULTIPART := MULTIPART c;
     MULTIPART_ORDER := MULTIPART_ORDER c; PARTS := PARTS c; CLEANUP := CLEANUP c;
     BUCKET_USAGE := BUCKET_USAGE c; LIFECYCLE_RULES := LIFECYCLE_RULES c;
     OBJECT_LOCKS := OBJECT_LOCKS c; MUTATION_EVENTS := MUTATION_EVENTS c;
     COUNTERS := COUNTERS c; CLOCK := CLOCK c |}.
Definition upd_objects (f : gmap bytes ObjectMetadata → gmap bytes ObjectMetadata) (c : Catalog) : Catalog :=
  {| BUCKETS := BUCKETS c; BUCKET_NAMES := BUCKET_NAMES c; OBJECTS := f (OBJECTS c);
     MARKERS := MARKERS c; VERSIONS := VERSIONS c; VERSION_ORDER := VERSION_ORDER c;
     NULL_VERSIONS := NULL_VERSIONS c; MULTIPART := MULTIPART c;
     MULTIPART_ORDER := MULTIPART_ORDER c; PARTS := PARTS c; CLEANUP := CLEANUP c;
     BUCKET_USAGE := BUCKET_USAGE c; LIFECYCLE_RULES := LIFECYCLE_RULES c;
     OBJECT_LOCKS := OBJECT_LOCKS c; MUTATION_EVENTS := MUTATION_EVENTS c;
     COUNTERS := COUNTERS c; CLOCK := CLOCK c |}.
Definition upd_markers (f : gmap bytes DeleteMarker → gmap bytes DeleteMarker) (c : Catalog) : Catalog :=
  {| BUCKETS := BUCKETS c; BUCKET_NAMES := BUCKET_NAMES c; OBJECTS := OBJECTS c;
     MARKERS := f (MARKERS c); VERSIONS := VERSIONS c; VERSION_ORDER := VERSION_ORDER c;
     NULL_VERSIONS := NULL_VERSIONS c; MULTIPART := MULTIPART c;
     MULTIPART_ORDER := MULTIPART_ORDER c; PARTS := PARTS c; CLEANUP := CLEANUP c;
     BUCKET_USAGE := BUCKET_USAGE c; LIFECYCLE_RULES := LIFECYCLE_RULES c;
     OBJECT_LOCKS := OBJECT_LOCKS c; MUTATION_EVENTS := MUTATION_EVENTS c;
     COUNTERS := COUNTERS c; CLOCK := CLOCK c |}.
Definition upd_versions (f : gmap bytes ObjectVersionRecord → gmap bytes ObjectVersionRecord) (c : Catalog) : Catalog :=
  {| BUCKETS := BUCKETS c; BUCKET_NAMES := BUCKET_NAMES c; OBJECTS := OBJECTS c;
     MARKERS := MARKERS c; VERSIONS := f (VERSIONS c); VERSION_ORDER := VERSION_ORDER c;
     NULL_VERSIONS := NULL_VERSIONS c; MULTIPART := MULTIPART c;
     MULTIPART_ORDER := MULTIPART_ORDER c; PARTS := PARTS c; CLEANUP := CLEANUP c;
     BUCKET_USAGE := BUCKET_USAGE c; LIFECYCLE_RULES := LIFECYCLE_RULES c;
     OBJECT_LOCKS := OBJECT_LOCKS c; MUTATION_EVENTS := MUTATION_EVENTS c;
     COUNTERS := COUNTERS c; CLOCK := CLOCK c |}.
Definition upd_order (f : gmap bytes bytes → gmap bytes bytes) (c : Catalog) : Catalog :=
  {| BUCKETS := BUCKETS c; BUCKET_NAMES := BUCKET_NAMES c; OBJECTS := OBJECTS c;
     MARKERS := MARKERS c; VERSIONS := VERSIONS c; VERSION_ORDER := f (VERSION_ORDER c);
     NULL_VERSIONS := NULL_VERSIONS c; MULTIPART := MULTIPART c;
     MULTIPART_ORDER := MULTIPART_ORDER c; PARTS := PARTS c; CLEANUP := CLEANUP c;
     BUCKET_USAGE := BUCKET_USAGE c; LIFECYCLE_RULES := LIFECYCLE_RULES c;
     OBJECT_LOCKS := OBJECT_LOCKS c; MUTATION_EVENTS := MUTATION_EVENTS c;
     COUNTERS := COUNTERS c; CLOCK := CLOCK c |}.
Definition upd_nulls (f : gmap bytes bytes → gmap bytes bytes) (c : Catalog) : Catalog :=
  {| BUCKETS := BUCKETS c; BUCKET_NAMES := BUCKET_NAMES c; OBJECTS := OBJECTS c;
     MARKERS := MARKERS c; VERSIONS := VERSIONS c; VERSION_ORDER := VERSION_ORDER c;
     NULL_VERSIONS := f (NULL_VERSIONS c); MULTIPART := MULTIPART c;
     MULTIPART_ORDER := MULTIPART_ORDER c; PARTS := PARTS c; CLEANUP := CLEANUP c;
     BUCKET_USAGE := BUCKET_USAGE c; LIFECYCLE_RULES := LIFECYCLE_RULES c;
     OBJECT_LOCKS := OBJECT_LOCKS c; MUTATION_EVENTS := MUTATION_EVENTS c;
     COUNTERS := COUNTERS c; CLOCK := CLOCK c |}.
Definition upd_multipart (f : gmap bytes MultipartUpload → gmap bytes MultipartUpload) (c : Catalog) : Catalog :=
  {| BUCKETS := BUCKETS c; BUCKET_NAMES := BUCKET_NAMES c; OBJECTS := OBJECTS c;
     MARKERS := MARKERS c; VERSIONS := VERSIONS c; VERSION_ORDER := VERSION_ORDER c;
     NULL_VERSIONS := NULL_VERSIONS c; MULTIPART := f (MULTIPART c);
     MULTIPART_ORDER := MULTIPART_ORDER c; PARTS := PARTS c; CLEANUP := CLEANUP c;
     BUCKET_USAGE := BUCKET_USAGE c; LIFECYCLE_RULES := LIFECYCLE_RULES c;
     OBJECT_LOCKS := OBJECT_LOCKS c; MUTATION_EVENTS := MUTATION_EVENTS c;
     COUNTERS := COUNTERS c; CLOCK := CLOCK c |}.
Definition upd_morder (f : gmap bytes bytes → gmap bytes bytes) (c : Catalog) : Catalog :=
  {| BUCKETS := BUCKETS c; BUCKET_NAMES := BUCKET_NAMES c; OBJECTS := OBJECTS c;
     MARKERS := MARKERS c; VERSIONS := VERSIONS c; VERSION_ORDER := VERSION_ORDER c;
     NULL_VERSIONS := NULL_VERSIONS c; MULTIPART := MULTIPART c;
     MULTIPART_ORDER := f (MULTIPART_ORDER c); PARTS := PARTS c; CLEANUP := CLEANUP c;
     BUCKET_USAGE := BUCKET_USAGE c; LIFECYCLE_RULES := LIFECYCLE_RULES c;
     OBJECT_LOCKS := OBJECT_LOCKS c; MUTATION_EVENTS := MUTATION_EVENTS c;
     COUNTERS := COUNTERS c; CLOCK := CLOCK c |}.
Definition upd_parts (f : gmap bytes UploadedPart → gmap bytes UploadedPart) (c : Catalog) : Catalog :=
  {| BUCKETS := BUCKETS c; BUCKET_NAMES := BUCKET_NAMES c; OBJECTS := OBJECTS c;
     MARKERS := MARKERS c; VERSIONS := VERSIONS c; VERSION_ORDER := VERSION_ORDER c;
     NULL_VERSIONS := NULL_VERSIONS c; MULTIPART := MULTIPART c;
     MULTIPART_ORDER := MULTIPART_ORDER c; PARTS := f (PARTS c); CLEANUP := CLEANUP c;
     BUCKET_USAGE := BUCKET_USAGE c; LIFECYCLE_RULES := LIFECYCLE_RULES c;
     OBJECT_LOCKS := OBJECT_LOCKS c; MUTATION_EVENTS := MUTATION_EVENTS c;
     COUNTERS := COUNTERS c; CLOCK := CLOCK c |}.
Definition upd_cleanup (f : gmap bytes Z → gmap bytes Z) (c : Catalog) : Catalog :=
  {| BUCKETS := BUCKETS c; BUCKET_NAMES := BUCKET_NAMES c; OBJECTS := OBJECTS c;
     MARKERS := MARKERS c; VERSIONS := VERSIONS c; VERSION_ORDER := VERSION_ORDER c;
     NULL_VERSIONS := NULL_VERSIONS c; MULTIPART := MULTIPART c;
     MULTIPART_ORDER := MULTIPART_ORDER c; PARTS := PARTS c; CLEANUP := f (CLEANUP c);
     BUCKET_USAGE := BUCKET_USAGE c; LIFECYCLE_RULES := LIFECYCLE_RULES c;
     OBJECT_LOCKS := OBJECT_LOCKS c; MUTATION_EVENTS := MUTATION_EVENTS c;
     COUNTERS := COUNTERS c; CLOCK := CLOCK c |}.
Definition upd_usage (f : gmap bytes BucketUsage → gmap bytes BucketUsage) (c : Catalog) : Catalog :=
  {| BUCKETS := BUCKETS c; BUCKET_NAMES := BUCKET_NAMES c; OBJECTS := OBJECTS c;
     MARKERS := MARKERS c; VERSIONS := VERSIONS c; VERSION_ORDER := VERSION_ORDER c;
     NULL_VERSIONS := NULL_VERSIONS c; MULTIPART := MULTIPART c;
     MULTIPART_ORDER := MULTIPART_ORDER c; PARTS := PARTS c; CLEANUP := CLEANUP c;
     BUCKET_USAGE := f (BUCKET_USAGE c); LIFECYCLE_RULES := LIFECYCLE_RULES c;
     OBJECT_LOCKS := OBJECT_LOCKS c; MUTATION_EVENTS := MUTATION_EVENTS c;
     COUNTERS := COUNTERS c; CLOCK := CLOCK c |}.
Definition upd_rules (f : gmap bytes LifecycleRule → gmap bytes LifecycleRule) (c : Catalog) : Catalog :=
  {| BUCKETS := BUCKETS c; BUCKET_NAMES := BUCKET_NAMES c; OBJECTS := OBJECTS c;
     MARKERS := MARKERS c; VERSIONS := VERSIONS c; VERSION_ORDER := VERSION_ORDER c;
     NULL_VERSIONS := NULL_VERSIONS c; MULTIPART := MULTIPART c;
     MULTIPART_ORDER := MULTIPART_ORDER c; PARTS := PARTS c; CLEANUP := CLEANUP c;
     BUCKET_USAGE := BUCKET_USAGE c; LIFECYCLE_RULES := f (LIFECYCLE_RULES c);
     OBJECT_LOCKS := OBJECT_LOCKS c; MUTATION_EVENTS := MUTATION_EVENTS c;
     COUNTERS := COUNTERS c; CLOCK := CLOCK c |}.
Definition upd_locks (f : gmap bytes ObjectLockState → gmap bytes ObjectLockState) (c : Catalog) : Catalog :=
  {| BUCKETS := BUCKETS c; BUCKET_NAMES := BUCKET_NAMES c; OBJECTS := OBJECTS c;
     MARKERS := MARKERS c; VERSIONS := VERSIONS c; VERSION_ORDER := VERSION_ORDER c;
     NULL_VERSIONS := NULL_VERSIONS c; MULTIPART := MULTIPART c;
     MULTIPART_ORDER := MULTIPART_ORDER c; PARTS := PARTS c; CLEANUP := CLEANUP c;
     BUCKET_USAGE := BUCKET_USAGE c; LIFECYCLE_RULES := LIFECYCLE_RULES c;
     OBJECT_LOCKS := f (OBJECT_LOCKS c); MUTATION_EVENTS := MUTATION_EVENTS c;
     COUNTERS := COUNTERS c; CLOCK := CLOCK c |}.
Definition upd_events (f : gmap Z MutationEvent → gmap Z MutationEvent) (c : Catalog) : Catalog :=
  {| BUCKETS := BUCKETS c; BUCKET_NAMES := BUCKET_NAMES c; OBJECTS := OBJECTS c;
     MARKERS := MARKERS c; VERSIONS := VERSIONS c; VERSION_ORDER := VERSION_ORDER c;
     NULL_VERSIONS := NULL_VERSIONS c; MULTIPART := MULTIPART c;
     MULTIPART_ORDER := MULTIPART_ORDER c; PARTS := PARTS c; CLEANUP := CLEANUP c;
     BUCKET_USAGE := BUCKET_USAGE c; LIFECYCLE_RULES := LIFECYCLE_RULES c;
     OBJECT_LOCKS := OBJECT_LOCKS c; MUTATION_EVENTS := f (MUTATION_EVENTS c);
     COUNTERS := COUNTERS c; CLOCK := CLOCK c |}.
Definition upd_counters (f : gmap string Z → gmap string Z) (c : Catalog) : Catalog :=
  {| BUCKETS := BUCKETS c; BUCKET_NAMES := BUCKET_NAMES c; OBJECTS := OBJECTS c;
     MARKERS := MARKERS c; VERSIONS := VERSIONS c; VERSION_ORDER := VERSION_ORDER c;
     NULL_VERSIONS := NULL_VERSIONS c; MULTIPART := MULTIPART c;
     MULTIPART_ORDER := MULTIPART_ORDER c; PARTS := PARTS c; CLEANUP := CLEANUP c;
     BUCKET_USAGE := BUCKET_USAGE c; LIFECYCLE_RULES := LIFECYCLE_RULES c;
     OBJECT_LOCKS := OBJECT_LOCKS c; MUTATION_EVENTS := MUTATION_EVENTS c;
     COUNTERS := f (COUNTERS c); CLOCK := CLOCK c |}.
Definition upd_clock (f : gmap string Z → gmap string Z) (c : Catalog) : Catalog :=
  {| BUCKETS := BUCKETS c; BUCKET_NAMES := BUCKET_NAMES c; OBJECTS := OBJECTS c;
     MARKERS := MARKERS c; VERSIONS := VERSIONS c; VERSION_ORDER := VERSION_ORDER c;
     NULL_VERSIONS := NULL_VERSIONS c; MULTIPART := MULTIPART c;
     MULTIPART_ORDER := MULTIPART_ORDER c; PARTS := PARTS c; CLEANUP := CLEANUP c;
     BUCKET_USAGE := BUCKET_USAGE c; LIFECYCLE_RULES := LIFECYCLE_RULES c;
     OBJECT_LOCKS := OBJECT_LOCKS c; MUTATION_EVENTS := MUTATION_EVENTS c;
     COUNTERS := COUNTERS c; CLOCK := f (CLOCK c) |}.

Definition OBJECT_COUNT : string := "objects".
Definition BUCKET_COUNT : string := "buckets".
Definition LOGICAL_BYTES : string := "logical_bytes".
Definition VERSION_COUNT : string := "versions".
Definition VERSION_BYTES : string := "version_bytes".
Definition PHYSICAL_BYTES : string := "physical_bytes".
Definition MULTIPART_BYTES : string := "multipart_bytes".
Definition MUTATION_EVENT_SEQUENCE : string := "mutation_event_sequence".
Definition CLOCK_WATERMARK : string := "observed_high_water_mark".

(** [MetadataError]; the library errors some constructors wrap are not kept. *)
Inductive MetadataError :=
  | Directory
  | BucketAlreadyExists
  | BucketNotFound
  | BucketNotEmpty
  | MultipartUploadNotFound
  | MultipartStateConflict
  | QuotaExceeded
  | InvalidVersioningTransition
  | VersionLocked (block : LockBlock)
  | ClockWentBackwards
  | ObjectLockNotEnabled
  | ObjectLockNotEnabledAtCreation
  | ObjectLockRequiresVersioning
  | ObjectLockVersionNotFound
  | ObjectLockChangeRefused (reason : LockChangeRefused)
  | MInvalidObjectLock (text : string)
  | LifecycleRuleNotFound
  | MInvalidLifecycleRule (text : string)
  | Encoding
  | Database (operation reason : string)
  | Task.

#[export] Instance MetadataError_eq_dec : EqDecision MetadataError.
Proof. solve_decision. Defined.

Definition counter_error : MetadataError :=
  Database "adjust counter" "counter overflow or underflow".

(** ** Steps of a transaction *)

Notation step := (tx Catalog MetadataError).

Definition read_bucket (id : bytes) : step (option Bucket) :=
  tx_gets (λ c, BUCKETS c !! bucket_key id).

Definition update_bucket_tx (id : bytes) (update : Bucket → result MetadataError Bucket)
    : step Bucket :=
  found ← read_bucket id;
  bucket ← tx_some BucketNotFound found;
  bucket ← tx_lift (update bucket);
  tx_modify (upd_buckets <[bucket_key id := bucket]>);;
  tx_modify (upd_names <[b_name bucket := bucket]>);;
  mret bucket.

Definition usage_of (c : Catalog) (id : bytes) : BucketUsage :=
  default usage_default (BUCKET_USAGE c !! bucket_key id).
Definition read_bucket_usage (id : bytes) : step BucketUsage := tx_gets (λ c, usage_of c id).
Definition write_bucket_usage (id : bytes) (usage : BucketUsage) : step () :=
  tx_modify (upd_usage <[bucket_key id := usage]>).

Definition insert_version (record : ObjectVersionRecord) : step () :=
  tx_modify (upd_versions <[version_id record := record]>);;
  tx_modify (upd_order <[version_order_key record := version_id record]>).
Definition remove_version (record : ObjectVersionRecord) : step () :=
  tx_modify (upd_versions (delete (version_id record)));;
  tx_modify (upd_order (delete (version_order_key record))).

Definition take_null (bucket key : bytes) : step (option ObjectVersionRecord) :=
  let key := object_key bucket key in
  id ← tx_gets (λ c, NULL_VERSIONS c !! key);
  tx_modify (upd_nulls (delete key));;
  match id with
  | None => mret None
  | Some id =>
      found ← tx_gets (λ c, VERSIONS c !! id);
      record ← tx_some (Database "read null version" "inconsistent index") found;
      mret (Some record)
  end.
Definition set_null (key id : bytes) : step () := tx_modify (upd_nulls <[key := id]>).
Definition clear_null (key id : bytes) : step () :=
  found ← tx_gets (λ c, NULL_VERSIONS c !! key);
  if bool_decide (found = Some id) then tx_modify (upd_nulls (delete key)) else mret ().

Definition latest_version (bucket key : bytes) : step (option ObjectVersionRecord) :=
  let prefix := exact_version_prefix bucket key in
  first ← tx_gets (λ c, head (table_range prefix (prefix_successor prefix) (VERSION_ORDER c)));
  match first with
  | None => mret None
  | Some (_, id) => tx_gets (λ c, VERSIONS c !! id)
  end.

Definition publish_current (key : bytes) (record : ObjectVersionRecord) : step () :=
  match record with
  | ObjectRecord metadata _ => tx_modify (upd_objects <[key := metadata]>)
  | MarkerRecord marker _ => tx_modify (upd_markers <[key := marker]>)
  end.
Definition remove_current (key : bytes) : step () :=
  tx_modify (upd_objects (delete key));; tx_modify (upd_markers (delete key)).

Definition current_version_of (c : Catalog) (key : bytes) : option bytes :=
  match OBJECTS c !! key with
  | Some metadata => Some (o_version_id metadata)
  | None => m_version_id <$> MARKERS c !! key
  end.
Definition current_version (key : bytes) : step (option bytes) :=
  tx_gets (λ c, current_version_of c key).

Definition list_parts_tx (id : bytes) : step (list UploadedPart) :=
  tx_gets (λ c, (table_range id (prefix_successor id) (PARTS c)).*2).

Definition has_multipart (bucket : bytes) : step bool :=
  let prefix := bucket_key bucket in
  tx_gets (λ c, negb (bool_decide (table_range prefix (prefix_successor prefix) (MULTIPART_ORDER c) = []))).

Definition as_object (record : ObjectVersionRecord) : option ObjectMetadata :=
  match record with ObjectRecord metadata _ => Some metadata | MarkerRecord _ _ => None end.

Definition record_matches (record : ObjectVersionRecord) (bucket key : bytes) : bool :=
  bool_decide (record_bucket record = bucket) && bool_decide (record_key record = key).

Definition queue_cleanup (id : bytes) : step () := tx_modify (upd_cleanup <[id := 1]>).

Definition counter (c : Catalog) (name : string) : Z := default 0 (COUNTERS c !! name).
Definition adjust_counter (name : string) (delta : Z) : step () :=
  value ← tx_gets (λ c, counter c name);
  value ← tx_some counter_error (u64_checked (value + delta));
  tx_modify (upd_counters <[name := value]>).

(** ** Object Lock *)

Definition lock_default : ObjectLockState := {| retention := None; legal_hold := false |}.
Definition lock_of (c : Catalog) (version : bytes) : ObjectLockState :=
  default lock_default (OBJECT_LOCKS c !! lock_key version).
Definition read_object_lock (version : bytes) : step ObjectLockState := tx_gets (λ c, lock_of c version).
Definition write_object_lock (version : bytes) (state : ObjectLockState) : step () :=
  if is_unlocked state then tx_modify (upd_locks (delete (lock_key version)))
  else tx_modify (upd_locks <[lock_key version := state]>).
Definition remove_object_lock (version : bytes) : step () :=
  tx_modify (upd_locks (delete (lock_key version))).

Record LockRelease := {
  observed_at : Z;
  clock_tolerance_seconds : Z;
  bypass_governance : bool
}.
Definition lock_release_new (at_ tolerance : Z) : LockRelease :=
  {| observed_at := at_; clock_tolerance_seconds := tolerance; bypass_governance := false |}.
Definition with_governance_bypass (self : LockRelease) (bypass : bool) : LockRelease :=
  {| observed_at := observed_at self;
     clock_tolerance_seconds := clock_tolerance_seconds self; bypass_governance := bypass |}.

(** [i64::saturating_sub]. *)
Definition i64_saturating_sub (a b : Z) : Z := Z.max (- 2 ^ 63) (Z.min (2 ^ 63 - 1) (a - b)).

Definition observe_clock (release : LockRelease) : step () :=
  let now := micros (observed_at release) in
  mark ← tx_gets (λ c, CLOCK c !! CLOCK_WATERMARK);
  let tolerance := clock_tolerance_seconds release * 1000000 in
  tx_guard (match mark with
            | Some mark => negb (now <? i64_saturating_sub mark tolerance)
            | None => true
            end) ClockWentBackwards;;
  if match mark with Some mark => mark <? now | None => true end
  then tx_modify (upd_clock <[CLOCK_WATERMARK := now]>) else mret ().

Definition enforce_deletable (version : bytes) (release : LockRelease) : step () :=
  state ← read_object_lock version;
  if is_unlocked state then mret ()
  else
    observe_clock release;;
    match deletion_block_at state (observed_at release) with
    | None => mret ()
    | Some block =>
        if is_bypassable block && bypass_governance release then mret ()
        else tx_throw (VersionLocked block)
    end.

(** ** The storage-event journal *)

Section Journal.
Context `{UuidCrate}.

Definition journal_event (event_type : StorageEventType) (bucket : bytes)
    (key version : option bytes) (size : option Z) (occurred_at : Z) : step () :=
  current ← tx_gets (λ c, counter c MUTATION_EVENT_SEQUENCE);
  next ← tx_some counter_error (u64_checked_add current 1);
  tx_modify (upd_counters <[MUTATION_EVENT_SEQUENCE := next]>);;
  tx_modify (upd_events <[next :=
    {| e_sequence := next;
       e_event_id := derive_id next event_type occurred_at bucket key version;
       e_event_type := event_type; e_occurred_at := occurred_at; e_bucket := bucket;
       e_key := key; e_version_id := version; e_size := size |}]>).
End Journal.

(** The rows up to and including [through], in any order: each is removed. *)
Definition prune_mutation_events_tx (through : Z) : step Z :=
  doomed ← tx_gets (λ c, filter (λ s, s ≤ through) (map_to_list (MUTATION_EVENTS c)).*1);
  tx_modify (upd_events (λ m, foldl (λ m s, delete s m) m doomed));;
  mret (Z.min (Z.of_nat (length doomed)) u64_max).

End Catalog.
