(* ===== verification/Commands.v ===== *)
(** * The commands of the metadata catalog

    [crates/record-store-metadata/src/commands.rs]: every mutation of the
    catalog, as a transaction over its tables. The order of the steps, the
    guards and the early returns are those of the code, so a command that fails
    leaves behind the writes it made before failing; [commit_one] and
    [commit_batch] of [redb_store.rs] run commands in transactions that are
    dropped on failure. Plain [+], [-], [+=] and [-=] on [u64] wrap. *)

From S2P Require Import Prelude Bytes Tables ObjectLock CoreTypes Keys Catalog.
Import ObjectLock CoreTypes Keys Catalog.

Module Commands.

Record NewDeleteMarker := { marker_version_id : bytes; marker_created_at : Z }.

Inductive MetadataCommand :=
  | CreateBucket (bucket : Bucket)
  | SetBucketVersioning (bucket_id : bytes) (state : VersioningState)
  | SetBucketQuota (bucket_id : bytes) (quota : BucketQuota)
  | SetBucketCors (bucket_id : bytes) (configuration : option CorsConfiguration)
  | DeleteBucket (name : bytes) (at_ : Z)
  | SetBucketObjectLock (bucket_id : bytes) (configuration : ObjectLockConfiguration)
  | PutObject (metadata : ObjectMetadata) (object_lock : option ObjectLockState) (origin : WriteOrigin)
  | DeleteObject (bucket_id key : bytes) (marker : NewDeleteMarker)
  | DeleteObjectVersion (bucket_id key version_id : bytes) (release : LockRelease)
  | PutObjectLock (bucket_id key version_id : bytes) (requested : ObjectLockState) (release : LockRelease)
  | ObserveClock (release : LockRelease)
  | CreateMultipartUpload (upload : MultipartUpload)
  | PutMultipartPart (part : UploadedPart)
  | BeginMultipartCompletion (upload_id object_id : bytes)
  | FinishMultipartUpload (upload_id : bytes)
  | AbortMultipartUpload (upload_id : bytes) (at_ : Z)
  | RecoverMultipartCompletions
  | PutLifecycleRule (rule : LifecycleRule)
  | DeleteLifecycleRule (rule_id : bytes)
  | CompleteCleanup (object_id : bytes)
  | PruneMutationEvents (through_sequence : Z).

Definition command_name (c : MetadataCommand) : string :=
  match c with
  | CreateBucket _ => "create_bucket"
  | SetBucketVersioning _ _ => "set_bucket_versioning"
  | SetBucketQuota _ _ => "set_bucket_quota"
  | SetBucketCors _ _ => "set_bucket_cors"
  | SetBucketObjectLock _ _ => "set_bucket_object_lock"
  | DeleteBucket _ _ => "delete_bucket"
  | PutObject _ _ _ => "put_object"
  | DeleteObject _ _ _ => "delete_object"
  | DeleteObjectVersion _ _ _ _ => "delete_object_version"
  | PutObjectLock _ _ _ _ _ => "put_object_lock"
  | ObserveClock _ => "observe_clock"
  | CreateMultipartUpload _ => "create_multipart_upload"
  | PutMultipartPart _ => "put_multipart_part"
  | BeginMultipartCompletion _ _ => "begin_multipart_completion"
  | FinishMultipartUpload _ => "finish_multipart_upload"
  | AbortMultipartUpload _ _ => "abort_multipart_upload"
  | RecoverMultipartCompletions => "recover_multipart_completions"
  | PutLifecycleRule _ => "put_lifecycle_rule"
  | DeleteLifecycleRule _ => "delete_lifecycle_rule"
  | CompleteCleanup _ => "complete_cleanup"
  | PruneMutationEvents _ => "prune_mutation_events"
  end.

Record DeleteObjectResult := {
  delete_marker : option DeleteMarker;
  delete_cleanup : list ObjectMetadata;
  previously_visible : bool
}.
Record DeleteVersionResult := {
  removed : ObjectVersionRecord;
  version_cleanup : option ObjectMetadata
}.

Inductive MetadataOutcome :=
  | NoOutcome
  | BucketOutcome (bucket : Bucket)
  | ObjectCommitOutcome (cleanup : list ObjectMetadata)
  | DeleteObjectOutcome (result : DeleteObjectResult)
  | DeleteVersionOutcome (result : option DeleteVersionResult)
  | ObjectLockOutcome (state : ObjectLockState)
  | MultipartUploadOutcome (upload : MultipartUpload)
  | ReplacedPartOutcome (part : option UploadedPart)
  | MultipartCleanupOutcome (parts : list UploadedPart).

Definition unexpected (expected : string) : MetadataError :=
  Database "decode command outcome" ("expected a " ++ expected ++ " outcome")%string.
Definition into_bucket (o : MetadataOutcome) : result MetadataError Bucket :=
  match o with BucketOutcome bucket => Ok bucket | _ => Err (unexpected "bucket") end.
Definition into_object_commit (o : MetadataOutcome) : result MetadataError (list ObjectMetadata) :=
  match o with ObjectCommitOutcome cleanup => Ok cleanup | _ => Err (unexpected "object commit") end.
Definition into_delete_object (o : MetadataOutcome) : result MetadataError DeleteObjectResult :=
  match o with DeleteObjectOutcome result => Ok result | _ => Err (unexpected "object delete") end.
Definition into_delete_version (o : MetadataOutcome) : result MetadataError (option DeleteVersionResult) :=
  match o with DeleteVersionOutcome result => Ok result | _ => Err (unexpected "version delete") end.
Definition into_object_lock (o : MetadataOutcome) : result MetadataError ObjectLockState :=
  match o with ObjectLockOutcome state => Ok state | _ => Err (unexpected "object lock") end.
Definition into_multipart_upload (o : MetadataOutcome) : result MetadataError MultipartUpload :=
  match o with MultipartUploadOutcome upload => Ok upload | _ => Err (unexpected "multipart upload") end.
Definition into_replaced_part (o : MetadataOutcome) : result MetadataError (option UploadedPart) :=
  match o with ReplacedPartOutcome part => Ok part | _ => Err (unexpected "multipart part") end.
Definition into_multipart_cleanup (o : MetadataOutcome) : result MetadataError (list UploadedPart) :=
  match o with MultipartCleanupOutcome parts => Ok parts | _ => Err (unexpected "multipart cleanup") end.

(** Updates of one field of a bucket, an upload and a usage row. *)
Definition set_versioning (state : VersioningState) (b : Bucket) : Bucket :=
  {| b_id := b_id b; b_organization_id := b_organization_id b; b_name := b_name b;
     b_created_at := b_created_at b; b_versioning := state; b_quota := b_quota b;
     b_storage_class := b_storage_class b; b_durability_policy := b_durability_policy b;
     b_object_lock := b_object_lock b; b_cors := b_cors b |}.
Definition set_quota (quota : BucketQuota) (b : Bucket) : Bucket :=
  {| b_id := b_id b; b_organization_id := b_organization_id b; b_name := b_name b;
     b_created_at := b_created_at b; b_versioning := b_versioning b; b_quota := quota;
     b_storage_class := b_storage_class b; b_durability_policy := b_durability_policy b;
     b_object_lock := b_object_lock b; b_cors := b_cors b |}.
Definition set_object_lock (lock : option ObjectLockConfiguration) (b : Bucket) : Bucket :=
  {| b_id := b_id b; b_organization_id := b_organization_id b; b_name := b_name b;
     b_created_at := b_created_at b; b_versioning := b_versioning b; b_quota := b_quota b;
     b_storage_class := b_storage_class b; b_durability_policy := b_durability_policy b;
     b_object_lock := lock; b_cors := b_cors b |}.
Definition set_cors (cors : option CorsConfiguration) (b : Bucket) : Bucket :=
  {| b_id := b_id b; b_organization_id := b_organization_id b; b_name := b_name b;
     b_created_at := b_created_at b; b_versioning := b_versioning b; b_quota := b_quota b;
     b_storage_class := b_storage_class b; b_durability_policy := b_durability_policy b;
     b_object_lock := b_object_lock b; b_cors := cors |}.
Definition set_upload_state (state : MultipartUploadState) (u : MultipartUpload) : MultipartUpload :=
  {| u_id := u_id u; u_bucket_id := u_bucket_id u; u_key := u_key u;
     u_content_type := u_content_type u; u_custom_metadata := u_custom_metadata u;
     u_object_lock := u_object_lock u; u_initiated_at := u_initiated_at u; u_state := state |}.
Definition set_multipart_bytes (bytes : Z) (u : BucketUsage) : BucketUsage :=
  {| current_objects := current_objects u; logical_bytes := logical_bytes u;
     versions := versions u; version_bytes := version_bytes u; multipart_bytes := bytes |}.

(** [u64::from(bool)]. *)
Definition of_bool (b : bool) : Z := if b then 1 else 0.
Definition is_none {A} (o : option A) : bool := match o with None => true | Some _ => false end.
Definition is_some {A} (o : option A) : bool := negb (is_none o).
Definition size_or_zero (m : option ObjectMetadata) : Z := from_option o_size 0 m.
Definition part_size_or_zero (p : option UploadedPart) : Z := from_option p_size 0 p.

Section Commands.
Context `{UuidCrate}.

(** ** Buckets *)

Definition create_bucket_tx (bucket : Bucket) : step () :=
  match b_object_lock bucket with
  | Some configuration =>
      tx_lift (map_err (λ e, MInvalidObjectLock (core_error_display e)) (configuration_validate configuration));;
      tx_guard (bool_decide (b_versioning bucket = Enabled)) ObjectLockRequiresVersioning
  | None => mret ()
  end;;
  let key := bucket_key (b_id bucket) in
  existing ← tx_gets (λ c, (BUCKETS c !! key, BUCKET_NAMES c !! b_name bucket));
  tx_guard (is_none existing.1 && is_none existing.2) BucketAlreadyExists;;
  tx_modify (upd_buckets <[key := bucket]>);;
  tx_modify (upd_names <[b_name bucket := bucket]>);;
  write_bucket_usage (b_id bucket) usage_default;;
  journal_event BucketCreated (b_name bucket) None None None (b_created_at bucket);;
  adjust_counter BUCKET_COUNT 1.

Definition delete_bucket_tx (name : bytes) (at_ : Z) : step Bucket :=
  found ← tx_gets (λ c, BUCKET_NAMES c !! name);
  bucket ← tx_some BucketNotFound found;
  usage ← read_bucket_usage (b_id bucket);
  busy ← (if negb (versions usage =? 0) then mret true else has_multipart (b_id bucket));
  tx_guard (negb busy) BucketNotEmpty;;
  tx_modify (upd_names (delete name));;
  tx_modify (upd_buckets (delete (bucket_key (b_id bucket))));;
  tx_modify (upd_usage (delete (bucket_key (b_id bucket))));;
  ids ← tx_gets (λ c, (filter (λ kv, l_bucket_id kv.2 = b_id bucket)
                         (table_iter (LIFECYCLE_RULES c))).*1);
  tx_modify (upd_rules (λ m, foldl (λ m id, delete id m) m ids));;
  adjust_counter BUCKET_COUNT (-1);;
  journal_event BucketDeleted (b_name bucket) None None None at_;;
  mret bucket.

(** ** Objects *)

Definition put_object_tx (metadata : ObjectMetadata) (object_lock : option ObjectLockState)
    (origin : WriteOrigin) : step (list ObjectMetadata) :=
  found ← read_bucket (o_bucket_id metadata);
  bucket ← tx_some BucketNotFound found;
  let key := object_key (o_bucket_id metadata) (o_key metadata) in
  previous ← tx_gets (λ c, OBJECTS c !! key);
  let is_null := negb (bool_decide (b_versioning bucket = Enabled)) in
  replaced ← (if is_null then take_null (o_bucket_id metadata) (o_key metadata) else mret None);
  let removed_bytes := size_or_zero (replaced ≫= as_object) in
  usage ← read_bucket_usage (o_bucket_id metadata);
  let proposed_objects := u64_add (current_objects usage) (of_bool (is_none previous)) in
  proposed_logical ← tx_some counter_error
    (v ← u64_checked_sub (logical_bytes usage) (size_or_zero previous);
     u64_checked_add v (o_size metadata));
  let proposed_versions := u64_add (u64_sub (versions usage) (of_bool (is_some replaced))) 1 in
  proposed_version_bytes ← tx_some counter_error
    (v ← u64_checked_sub (version_bytes usage) removed_bytes;
     u64_checked_add v (o_size metadata));
  tx_guard
    (bytes_allows (quota_bytes (b_quota bucket))
       (u64_saturating_add proposed_version_bytes (multipart_bytes usage)) &&
     objects_allows (quota_objects (b_quota bucket)) proposed_objects) QuotaExceeded;;
  match replaced with
  | Some record =>
      lock ← read_object_lock (version_id record);
      match deletion_block_at lock (o_created_at metadata) with
      | Some block => tx_throw (VersionLocked block)
      | None => mret ()
      end;;
      remove_object_lock (version_id record);;
      remove_version record
  | None => mret ()
  end;;
  insert_version (ObjectRecord metadata is_null);;
  match object_lock with
  | Some state =>
      if is_unlocked state then mret ()
      else
        tx_guard (is_some (b_object_lock bucket)) ObjectLockNotEnabled;;
        write_object_lock (o_version_id metadata) state
  | None => mret ()
  end;;
  (if is_null then set_null key (o_version_id metadata) else mret ());;
  tx_modify (upd_objects <[key := metadata]>);;
  tx_modify (upd_markers (delete key));;
  write_bucket_usage (o_bucket_id metadata)
    {| current_objects := proposed_objects; logical_bytes := proposed_logical;
       versions := proposed_versions; version_bytes := proposed_version_bytes;
       multipart_bytes := multipart_bytes usage |};;
  adjust_counter OBJECT_COUNT (of_bool (is_none previous));;
  adjust_counter LOGICAL_BYTES (o_size metadata - size_or_zero previous);;
  adjust_counter VERSION_COUNT (1 - of_bool (is_some replaced));;
  adjust_counter VERSION_BYTES (o_size metadata - removed_bytes);;
  adjust_counter PHYSICAL_BYTES (o_size metadata - removed_bytes);;
  let cleanup := option_list (replaced ≫= as_object) in
  tx_iter (λ old, queue_cleanup (o_id old)) cleanup;;
  let created_or_updated := if is_none previous then ObjectCreated else ObjectUpdated in
  let journalled := match origin with
                    | MultipartCompletion => [MultipartCompleted]
                    | Restore => [created_or_updated; ObjectRestored]
                    | Direct | Copy => [created_or_updated]
                    end in
  tx_iter (λ event_type, journal_event event_type (b_name bucket) (Some (o_key metadata))
             (Some (o_version_id metadata)) (Some (o_size metadata)) (o_created_at metadata))
    journalled;;
  mret cleanup.

Definition assert_unlocked (record : ObjectVersionRecord) (now : Z) : step () :=
  lock ← read_object_lock (version_id record);
  match deletion_block_at lock now with
  | Some block => tx_throw (VersionLocked block)
  | None => mret ()
  end.

(** The books of a version that is removed, with its payload's cleanup, as the
    three places that remove one spell it out. *)
Definition uncount_version (record : ObjectVersionRecord) (usage : BucketUsage) : step BucketUsage :=
  adjust_counter VERSION_COUNT (-1);;
  match as_object record with
  | None =>
      mret {| current_objects := current_objects usage; logical_bytes := logical_bytes usage;
              versions := u64_sub (versions usage) 1; version_bytes := version_bytes usage;
              multipart_bytes := multipart_bytes usage |}
  | Some metadata =>
      adjust_counter VERSION_BYTES (- o_size metadata);;
      adjust_counter PHYSICAL_BYTES (- o_size metadata);;
      queue_cleanup (o_id metadata);;
      mret {| current_objects := current_objects usage; logical_bytes := logical_bytes usage;
              versions := u64_sub (versions usage) 1;
              version_bytes := u64_sub (version_bytes usage) (o_size metadata);
              multipart_bytes := multipart_bytes usage |}
  end.

(** The books of a current object that stops being current. *)
Definition uncount_current (current : option ObjectMetadata) (usage : BucketUsage) : step BucketUsage :=
  match current with
  | Some metadata =>
      adjust_counter OBJECT_COUNT (-1);;
      adjust_counter LOGICAL_BYTES (- o_size metadata);;
      mret {| current_objects := u64_sub (current_objects usage) 1;
              logical_bytes := u64_sub (logical_bytes usage) (o_size metadata);
              versions := versions usage; version_bytes := version_bytes usage;
              multipart_bytes := multipart_bytes usage |}
  | None => mret usage
  end.

(** Removing the null version of a key, as both arms of [delete_object_tx]
    spell it out: the usage that remains and the payloads to clean up. *)
Definition remove_null_record (bucket key : bytes) (now : Z) (usage : BucketUsage)
    : step (BucketUsage * list ObjectMetadata) :=
  found ← take_null bucket key;
  match found with
  | None => mret (usage, [])
  | Some record =>
      assert_unlocked record now;;
      remove_object_lock (version_id record);;
      remove_version record;;
      usage ← uncount_version record usage;
      mret (usage, option_list (as_object record))
  end.

(** Publishing a delete marker as the newest version of a key. *)
Definition write_marker (key : bytes) (marker : DeleteMarker) (is_null : bool) (usage : BucketUsage)
    : step BucketUsage :=
  insert_version (MarkerRecord marker is_null);;
  (if is_null then set_null key (m_version_id marker) else mret ());;
  tx_modify (upd_objects (delete key));;
  tx_modify (upd_markers <[key := marker]>);;
  adjust_counter VERSION_COUNT 1;;
  mret {| current_objects := current_objects usage; logical_bytes := logical_bytes usage;
          versions := u64_add (versions usage) 1; version_bytes := version_bytes usage;
          multipart_bytes := multipart_bytes usage |}.

(** The [match] of [delete_object_tx] on the bucket's versioning: the usage, the
    payloads to clean up and the marker, if the bucket is or was versioned. *)
Definition delete_by_versioning (bucket object_key_value : bytes) (marker_values : NewDeleteMarker)
    (versioning : VersioningState) (usage : BucketUsage)
    : step (BucketUsage * list ObjectMetadata * option DeleteMarker) :=
  let key := object_key bucket object_key_value in
  match versioning with
  | Disabled =>
      '(usage, cleanup) ←
        remove_null_record bucket object_key_value (marker_created_at marker_values) usage;
      remove_current key;;
      mret (usage, cleanup, None)
  | Enabled | Suspended =>
      let is_null := bool_decide (versioning = Suspended) in
      '(usage, cleanup) ←
        (if is_null
         then remove_null_record bucket object_key_value (marker_created_at marker_values) usage
         else mret (usage, []));
      let marker := {| m_version_id := marker_version_id marker_values;
                       m_bucket_id := bucket; m_key := object_key_value;
                       m_created_at := marker_created_at marker_values |} in
      usage ← write_marker key marker is_null usage;
      mret (usage, cleanup, Some marker)
  end.

Definition delete_object_tx (bucket object_key_value : bytes) (marker_values : NewDeleteMarker)
    : step DeleteObjectResult :=
  found ← read_bucket bucket;
  bucket_record ← tx_some BucketNotFound found;
  let key := object_key bucket object_key_value in
  current ← tx_gets (λ c, OBJECTS c !! key);
  usage ← read_bucket_usage bucket;
  '(usage, cleanup, new_marker) ←
    delete_by_versioning bucket object_key_value marker_values (b_versioning bucket_record) usage;
  usage ← uncount_current current usage;
  write_bucket_usage bucket usage;;
  let result := {| delete_marker := new_marker; delete_cleanup := cleanup;
                   previously_visible := is_some current |} in
  (if previously_visible result || is_some (delete_marker result)
   then journal_event ObjectDeleted (b_name bucket_record) (Some object_key_value)
          (m_version_id <$> delete_marker result) None (marker_created_at marker_values)
   else mret ());;
  mret result.

(** Promoting what is now the newest version of a key, or nothing. *)
Definition promote_latest (bucket object_key_value key : bytes) (usage : BucketUsage)
    : step BucketUsage :=
  current ← tx_gets (λ c, OBJECTS c !! key);
  usage ← uncount_current current usage;
  remove_current key;;
  next ← latest_version bucket object_key_value;
  match next with
  | None => mret usage
  | Some next =>
      publish_current key next;;
      match as_object next with
      | None => mret usage
      | Some metadata =>
          adjust_counter OBJECT_COUNT 1;;
          adjust_counter LOGICAL_BYTES (o_size metadata);;
          mret {| current_objects := u64_add (current_objects usage) 1;
                  logical_bytes := u64_add (logical_bytes usage) (o_size metadata);
                  versions := versions usage; version_bytes := version_bytes usage;
                  multipart_bytes := multipart_bytes usage |}
      end
  end.

Definition delete_object_version_tx (bucket object_key_value version : bytes)
    (release : LockRelease) : step (option DeleteVersionResult) :=
  found ← tx_gets (λ c, VERSIONS c !! version);
  match found with
  | None => mret None
  | Some record =>
      if negb (record_matches record bucket object_key_value) then mret None
      else
        enforce_deletable version release;;
        let key := object_key bucket object_key_value in
        current ← current_version key;
        let was_current := bool_decide (current = Some version) in
        remove_object_lock version;;
        remove_version record;;
        (if is_null record then clear_null key version else mret ());;
        usage ← read_bucket_usage bucket;
        usage ← uncount_version record usage;
        usage ← (if was_current then promote_latest bucket object_key_value key usage
                 else mret usage);
        write_bucket_usage bucket usage;;
        bucket_record ← read_bucket bucket;
        match bucket_record with
        | Some bucket_record =>
            journal_event ObjectDeleted (b_name bucket_record) (Some object_key_value)
              (Some version) None (observed_at release)
        | None => mret ()
        end;;
        mret (Some {| removed := record; version_cleanup := as_object record |})
  end.

Definition put_object_lock_tx (bucket object_key_value version : bytes)
    (requested : ObjectLockState) (release : LockRelease) : step ObjectLockState :=
  found ← read_bucket bucket;
  bucket_record ← tx_some BucketNotFound found;
  tx_guard (is_some (b_object_lock bucket_record)) ObjectLockNotEnabled;;
  found ← tx_gets (λ c, VERSIONS c !! version);
  record ← tx_some ObjectLockVersionNotFound found;
  tx_guard (record_matches record bucket object_key_value) ObjectLockVersionNotFound;;
  tx_guard (negb (is_delete_marker record)) ObjectLockVersionNotFound;;
  current ← read_object_lock version;
  (if negb (change_only_tightens current requested) then observe_clock release else mret ());;
  updated ← tx_lift (map_err ObjectLockChangeRefused
    (with_retention current (retention requested) (observed_at release) (bypass_governance release)));
  let updated := with_legal_hold updated (legal_hold requested) in
  write_object_lock version updated;;
  mret updated.

(** ** Multipart uploads *)

Definition create_multipart_upload_tx (upload : MultipartUpload) : step () :=
  found ← read_bucket (u_bucket_id upload);
  tx_guard (is_some found) BucketNotFound;;
  existing ← tx_gets (λ c, MULTIPART c !! u_id upload);
  tx_guard (is_none existing) MultipartStateConflict;;
  tx_modify (upd_multipart <[u_id upload := upload]>);;
  tx_modify (upd_morder <[multipart_order_key upload := u_id upload]>).

Definition put_multipart_part_tx (part : UploadedPart) : step (option UploadedPart) :=
  found ← tx_gets (λ c, MULTIPART c !! p_upload_id part);
  upload ← tx_some MultipartUploadNotFound found;
  tx_guard (bool_decide (u_state upload = Active)) MultipartStateConflict;;
  found ← read_bucket (u_bucket_id upload);
  bucket ← tx_some BucketNotFound found;
  let key := part_key (p_upload_id part) (p_number part) in
  previous ← tx_gets (λ c, PARTS c !! key);
  usage ← read_bucket_usage (u_bucket_id upload);
  proposed ← tx_some counter_error
    (v ← u64_checked_sub (multipart_bytes usage) (part_size_or_zero previous);
     u64_checked_add v (p_size part));
  tx_guard (bytes_allows (quota_bytes (b_quota bucket))
              (u64_saturating_add (version_bytes usage) proposed)) QuotaExceeded;;
  tx_modify (upd_parts <[key := part]>);;
  write_bucket_usage (u_bucket_id upload) (set_multipart_bytes proposed usage);;
  adjust_counter MULTIPART_BYTES (p_size part - part_size_or_zero previous);;
  match previous with
  | Some old => queue_cleanup (p_object_id old)
  | None => mret ()
  end;;
  mret previous.

Definition begin_multipart_completion_tx (id object_id : bytes) : step MultipartUpload :=
  found ← tx_gets (λ c, MULTIPART c !! id);
  upload ← tx_some MultipartUploadNotFound found;
  upload ← match u_state upload with
           | Active => mret (set_upload_state (Completing object_id) upload)
           | Completing existing =>
               if bool_decide (existing = object_id) then mret upload
               else tx_throw MultipartStateConflict
           end;
  tx_modify (upd_multipart <[id := upload]>);;
  mret upload.

(** [bucket_name_of]. *)
Definition bucket_name_of (bucket_id : bytes) : step bytes :=
  found ← read_bucket bucket_id;
  mret (match found with Some bucket => b_name bucket | None => uuid_to_string bucket_id end).

(** [try_fold] with checked addition. *)
Definition sum_parts (parts : list UploadedPart) : option Z :=
  foldl (λ sum part, s ← sum; u64_checked_add s (p_size part)) (Some 0) parts.

Definition remove_multipart_tx (id : bytes) (require_completing : bool) (at_ : Z)
    : step (list UploadedPart) :=
  found ← tx_gets (λ c, MULTIPART c !! id);
  upload ← tx_some MultipartUploadNotFound found;
  tx_guard (negb (require_completing && bool_decide (u_state upload = Active)))
    MultipartStateConflict;;
  parts ← list_parts_tx id;
  tx_modify (upd_multipart (delete id));;
  tx_modify (upd_morder (delete (multipart_order_key upload)));;
  tx_modify (upd_parts (λ m, foldl (λ m part, delete (part_key id (p_number part)) m) m parts));;
  bytes ← tx_some counter_error (sum_parts parts);
  usage ← read_bucket_usage (u_bucket_id upload);
  remaining ← tx_some counter_error (u64_checked_sub (multipart_bytes usage) bytes);
  write_bucket_usage (u_bucket_id upload) (set_multipart_bytes remaining usage);;
  adjust_counter MULTIPART_BYTES (- bytes);;
  tx_iter (λ part, queue_cleanup (p_object_id part)) parts;;
  (if require_completing then mret ()
   else
     name ← bucket_name_of (u_bucket_id upload);
     journal_event MultipartAborted name (Some (u_key upload)) None None at_);;
  mret parts.

(** One interrupted completion: finished if its payload is current, reset otherwise. *)
Definition recover_upload (upload : MultipartUpload) : step (list UploadedPart) :=
  match u_state upload with
  | Active => mret []
  | Completing object_id =>
      let key := object_key (u_bucket_id upload) (u_key upload) in
      current ← tx_gets (λ c, OBJECTS c !! key);
      let committed := match current with
                       | Some metadata => bool_decide (o_id metadata = object_id)
                       | None => false
                       end in
      if committed then remove_multipart_tx (u_id upload) true 0
      else
        tx_modify (upd_multipart <[u_id upload := set_upload_state Active upload]>);;
        mret []
  end.

Fixpoint recover_uploads (uploads : list MultipartUpload) : step (list UploadedPart) :=
  match uploads with
  | [] => mret []
  | upload :: uploads =>
      cleaned ← recover_upload upload;
      rest ← recover_uploads uploads;
      mret (cleaned ++ rest)
  end.

Definition is_completing (u : MultipartUpload) : Prop :=
  match u_state u with Completing _ => True | Active => False end.

#[export] Instance is_completing_dec u : Decision (is_completing u).
Proof. unfold is_completing. destruct (u_state u); apply _. Defined.

Definition recover_multipart_completions_tx : step (list UploadedPart) :=
  uploads ← tx_gets (λ c, filter is_completing (table_iter (MULTIPART c)).*2);
  recover_uploads uploads.

(** ** Lifecycle rules and cleanup *)

Definition put_lifecycle_rule_tx (rule : LifecycleRule) : step () :=
  tx_lift (map_err (λ e, MInvalidLifecycleRule (core_error_display e)) (lifecycle_validate rule));;
  found ← read_bucket (l_bucket_id rule);
  tx_guard (is_some found) BucketNotFound;;
  tx_modify (upd_rules <[l_id rule := rule]>).

Definition delete_lifecycle_rule_tx (id : bytes) : step () :=
  found ← tx_gets (λ c, LIFECYCLE_RULES c !! id);
  tx_modify (upd_rules (delete id));;
  tx_guard (is_some found) LifecycleRuleNotFound.

Definition complete_cleanup_tx (id : bytes) : step () := tx_modify (upd_cleanup (delete id)).

(** ** Application *)

Definition set_bucket_versioning_tx (bucket_id : bytes) (state : VersioningState) : step Bucket :=
  update_bucket_tx bucket_id (λ bucket,
    if bool_decide (b_versioning bucket = Enabled) && bool_decide (state = Disabled)
    then Err InvalidVersioningTransition
    else if is_some (b_object_lock bucket) && negb (bool_decide (state = Enabled))
    then Err ObjectLockRequiresVersioning
    else Ok (set_versioning state bucket)).

Definition set_bucket_object_lock_tx (bucket_id : bytes) (configuration : ObjectLockConfiguration)
    : step Bucket :=
  configuration ← tx_lift (map_err (λ e, MInvalidObjectLock (core_error_display e)) (configuration_validate configuration));
  update_bucket_tx bucket_id (λ bucket,
    if is_none (b_object_lock bucket) then Err ObjectLockNotEnabled
    else Ok (set_object_lock (Some configuration) bucket)).

Definition set_bucket_quota_tx (bucket_id : bytes) (quota : BucketQuota) : step Bucket :=
  usage ← read_bucket_usage bucket_id;
  tx_guard
    (bytes_allows (quota_bytes quota)
       (u64_saturating_add (version_bytes usage) (multipart_bytes usage)) &&
     objects_allows (quota_objects quota) (current_objects usage)) QuotaExceeded;;
  update_bucket_tx bucket_id (λ bucket, Ok (set_quota quota bucket)).

Definition apply_command_tx (command : MetadataCommand) : step MetadataOutcome :=
  match command with
  | CreateBucket bucket => create_bucket_tx bucket;; mret NoOutcome
  | SetBucketVersioning bucket_id state =>
      bucket ← set_bucket_versioning_tx bucket_id state; mret (BucketOutcome bucket)
  | SetBucketObjectLock bucket_id configuration =>
      bucket ← set_bucket_object_lock_tx bucket_id configuration; mret (BucketOutcome bucket)
  | SetBucketQuota bucket_id quota =>
      bucket ← set_bucket_quota_tx bucket_id quota; mret (BucketOutcome bucket)
  | SetBucketCors bucket_id configuration =>
      bucket ← update_bucket_tx bucket_id (λ bucket, Ok (set_cors configuration bucket));
      mret (BucketOutcome bucket)
  | DeleteBucket name at_ => bucket ← delete_bucket_tx name at_; mret (BucketOutcome bucket)
  | PutObject metadata object_lock origin =>
      cleanup ← put_object_tx metadata object_lock origin; mret (ObjectCommitOutcome cleanup)
  | DeleteObject bucket_id key marker =>
      result ← delete_object_tx bucket_id key marker; mret (DeleteObjectOutcome result)
  | DeleteObjectVersion bucket_id key version_id release =>
      result ← delete_object_version_tx bucket_id key version_id release;
      mret (DeleteVersionOutcome result)
  | PutObjectLock bucket_id key version_id requested release =>
      state ← put_object_lock_tx bucket_id key version_id requested release;
      mret (ObjectLockOutcome state)
  | ObserveClock release => observe_clock release;; mret NoOutcome
  | CreateMultipartUpload upload => create_multipart_upload_tx upload;; mret NoOutcome
  | PutMultipartPart part =>
      previous ← put_multipart_part_tx part; mret (ReplacedPartOutcome previous)
  | BeginMultipartCompletion upload_id object_id =>
      upload ← begin_multipart_completion_tx upload_id object_id;
      mret (MultipartUploadOutcome upload)
  | FinishMultipartUpload upload_id =>
      parts ← remove_multipart_tx upload_id true 0; mret (MultipartCleanupOutcome parts)
  | AbortMultipartUpload upload_id at_ =>
      parts ← remove_multipart_tx upload_id false at_; mret (MultipartCleanupOutcome parts)
  | RecoverMultipartCompletions =>
      parts ← recover_multipart_completions_tx; mret (MultipartCleanupOutcome parts)
  | PutLifecycleRule rule => put_lifecycle_rule_tx rule;; mret NoOutcome
  | DeleteLifecycleRule rule_id => delete_lifecycle_rule_tx rule_id;; mret NoOutcome
  | CompleteCleanup object_id => complete_cleanup_tx object_id;; mret NoOutcome
  | PruneMutationEvents through => prune_mutation_events_tx through;; mret NoOutcome
  end.

(** ** Transactions of [redb_store.rs] *)

Definition commit_one (command : MetadataCommand) : step MetadataOutcome :=
  atomically (apply_command_tx command).

(** The replies of a batch, in its order. *)
Definition commit_batch (batch : list MetadataCommand) (c : Catalog)
    : list (result MetadataError MetadataOutcome) * Catalog :=
  match batch with
  | [command] => let (r, c') := commit_one command c in ([r], c')
  | _ =>
      match atomically (GroupCommit.apply_all apply_command_tx batch) c with
      | (Ok outcomes, c') => (Ok <$> outcomes, c')
      | (Err _, c') => GroupCommit.one_at_a_time apply_command_tx batch c'
      end
  end.
End Commands.

End Commands.
