(* ===== verification/CatalogInv.v ===== *)
(** * The invariant of the catalog

    What every table of the catalog means in terms of the others, grouped so
    that a command only has to argue about the groups whose tables it writes:
    buckets and their name index, versions with their order and null indexes and
    locks, the current view, multipart uploads, lifecycle rules, the journal,
    the per-bucket usage and the global counters; apart from these, who owns a
    payload. The lemmas
    are about the few table updates that the commands are made of. *)

From S2P Require Import Prelude Bytes Tables ObjectLock CoreTypes Keys Catalog Commands.
Import ObjectLock CoreTypes Keys Catalog Commands.

Module CatalogInv.

(** The key a record is current under, its payload size and its owner. *)
Definition rkey (r : ObjectVersionRecord) : bytes := object_key (record_bucket r) (record_key r).
Definition rsize (r : ObjectVersionRecord) : Z := size_or_zero (as_object r).

(** ** Groups *)

Record buckets_ok (B NM : gmap bytes Bucket) : Prop := {
  bucket_row : ∀ id b, B !! id = Some b →
    b_id b = id ∧ uuid_ok id ∧ NM !! b_name b = Some b ∧
    (b_object_lock b ≠ None → b_versioning b = Enabled);
  bucket_name_row : ∀ n b, NM !! n = Some b → b_name b = n ∧ B !! b_id b = Some b
}.

Record versions_ok (B : gmap bytes Bucket) (V : gmap bytes ObjectVersionRecord)
    (ORD N : gmap bytes bytes) (L : gmap bytes ObjectLockState) : Prop := {
  version_row : ∀ v r, V !! v = Some r →
    version_id r = v ∧ record_ok r ∧ is_u64 (rsize r) ∧
    ∃ b, B !! record_bucket r = Some b ∧ (b_object_lock b ≠ None → is_null r = false);
  order_row : ∀ k v, ORD !! k = Some v ↔ ∃ r, V !! v = Some r ∧ k = version_order_key r;
  null_row : ∀ k v, N !! k = Some v ↔ ∃ r, V !! v = Some r ∧ is_null r = true ∧ k = rkey r;
  lock_row : ∀ v s, L !! v = Some s → is_unlocked s = false ∧
    ∃ m b, V !! v = Some (ObjectRecord m false) ∧
           B !! o_bucket_id m = Some b ∧ b_object_lock b ≠ None
}.

Record current_ok (V : gmap bytes ObjectVersionRecord) (OB : gmap bytes ObjectMetadata)
    (MK : gmap bytes DeleteMarker) : Prop := {
  object_row : ∀ k m, OB !! k = Some m →
    k = object_key (o_bucket_id m) (o_key m) ∧ ∃ n, V !! o_version_id m = Some (ObjectRecord m n);
  marker_row : ∀ k d, MK !! k = Some d →
    k = object_key (m_bucket_id d) (m_key d) ∧ ∃ n, V !! m_version_id d = Some (MarkerRecord d n);
  current_unique : ∀ k, OB !! k = None ∨ MK !! k = None
}.

Record multipart_ok (B : gmap bytes Bucket) (U : gmap bytes MultipartUpload)
    (UO : gmap bytes bytes) (P : gmap bytes UploadedPart) : Prop := {
  upload_row : ∀ i u, U !! i = Some u → u_id u = i ∧ upload_ok u ∧ is_Some (B !! u_bucket_id u);
  upload_order_row : ∀ k i, UO !! k = Some i ↔ ∃ u, U !! i = Some u ∧ k = multipart_order_key u;
  part_row : ∀ k p, P !! k = Some p →
    k = part_key (p_upload_id p) (p_number p) ∧ part_ok p ∧ is_Some (U !! p_upload_id p)
}.

Definition rules_ok (B : gmap bytes Bucket) (R : gmap bytes LifecycleRule) : Prop :=
  ∀ i r, R !! i = Some r → l_id r = i ∧ is_Some (B !! l_bucket_id r).

(** The journal holds exactly the events after some point up to the last
    sequence number assigned, each under its number. *)
Definition journal_ok (J : gmap Z MutationEvent) (last : Z) : Prop :=
  0 ≤ last ∧ ∃ pruned, 0 ≤ pruned ∧
    (∀ s, is_Some (J !! s) ↔ pruned < s ≤ last) ∧ (∀ s e, J !! s = Some e → e_sequence e = s).

(** Payloads: referenced by one version or one part, and never queued for
    cleanup while referenced. *)
Record payloads_ok (V : gmap bytes ObjectVersionRecord) (P : gmap bytes UploadedPart)
    (CL : gmap bytes Z) : Prop := {
  payload_versions : ∀ v v' r r' m m', V !! v = Some r → V !! v' = Some r' →
    as_object r = Some m → as_object r' = Some m' → o_id m = o_id m' → v = v';
  payload_parts : ∀ k k' p p', P !! k = Some p → P !! k' = Some p' →
    p_object_id p = p_object_id p' → k = k';
  payload_apart : ∀ v r m k p, V !! v = Some r → as_object r = Some m → P !! k = Some p →
    o_id m ≠ p_object_id p;
  payload_version_kept : ∀ v r m, V !! v = Some r → as_object r = Some m → CL !! o_id m = None;
  payload_part_kept : ∀ k p, P !! k = Some p → CL !! p_object_id p = None
}.

(** ** Sums *)

(** The total of a weight over the rows of one bucket, and over all rows. *)
Definition bsum {A} (owner : A → bytes) (w : A → Z) (b : bytes) (t : gmap bytes A) : Z :=
  msum (λ _ x, if decide (owner x = b) then w x else 0) t.
Definition tsum {A} (w : A → Z) (t : gmap bytes A) : Z := msum (λ _ x, w x) t.

Definition one {A} (_ : A) : Z := 1.

(** The bucket a part counts against: its upload's. *)
Definition part_bucket (U : gmap bytes MultipartUpload) (p : UploadedPart) : bytes :=
  from_option u_bucket_id [] (U !! p_upload_id p).

Definition exact_usage (OB : gmap bytes ObjectMetadata) (V : gmap bytes ObjectVersionRecord)
    (U : gmap bytes MultipartUpload) (P : gmap bytes UploadedPart) (b : bytes) : BucketUsage :=
  {| current_objects := bsum o_bucket_id one b OB;
     logical_bytes := bsum o_bucket_id o_size b OB;
     versions := bsum record_bucket one b V;
     version_bytes := bsum record_bucket rsize b V;
     multipart_bytes := bsum (part_bucket U) p_size b P |}.

Definition exact_totals (OB : gmap bytes ObjectMetadata) (V : gmap bytes ObjectVersionRecord)
    (P : gmap bytes UploadedPart) : BucketUsage :=
  {| current_objects := tsum one OB;
     logical_bytes := tsum o_size OB;
     versions := tsum one V;
     version_bytes := tsum rsize V;
     multipart_bytes := tsum p_size P |}.

(** The global counters, in the shape of a bucket's usage row. *)
Definition totals (c : Catalog) : BucketUsage :=
  {| current_objects := counter c OBJECT_COUNT;
     logical_bytes := counter c LOGICAL_BYTES;
     versions := counter c VERSION_COUNT;
     version_bytes := counter c VERSION_BYTES;
     multipart_bytes := counter c MULTIPART_BYTES |}.

(** The usage rows and the counters say what the tables hold. *)
Record books (usage : bytes → BucketUsage) (total : BucketUsage)
    (OB : gmap bytes ObjectMetadata) (V : gmap bytes ObjectVersionRecord)
    (U : gmap bytes MultipartUpload) (P : gmap bytes UploadedPart) : Prop := {
  books_usage : ∀ b, usage b = exact_usage OB V U P b;
  books_totals : total = exact_totals OB V P
}.

(** Every bucket is within its byte limit, as the code computes it. *)
Definition quotas_ok (B : gmap bytes Bucket) (usage : bytes → BucketUsage) : Prop :=
  ∀ id b, B !! id = Some b → bytes_allows (quota_bytes (b_quota b))
    (u64_saturating_add (version_bytes (usage id)) (multipart_bytes (usage id))) = true.

Record Inv (c : Catalog) : Prop := {
  inv_buckets : buckets_ok (BUCKETS c) (BUCKET_NAMES c);
  inv_versions : versions_ok (BUCKETS c) (VERSIONS c) (VERSION_ORDER c) (NULL_VERSIONS c)
                   (OBJECT_LOCKS c);
  inv_current : current_ok (VERSIONS c) (OBJECTS c) (MARKERS c);
  inv_multipart : multipart_ok (BUCKETS c) (MULTIPART c) (MULTIPART_ORDER c) (PARTS c);
  inv_rules : rules_ok (BUCKETS c) (LIFECYCLE_RULES c);
  inv_journal : journal_ok (MUTATION_EVENTS c) (counter c MUTATION_EVENT_SEQUENCE);
  inv_counters : ∀ n, is_u64 (counter c n);
  inv_books : books (usage_of c) (totals c) (OBJECTS c) (VERSIONS c) (MULTIPART c) (PARTS c);
  inv_bucket_count : counter c BUCKET_COUNT = tsum one (BUCKETS c);
  inv_physical : counter c PHYSICAL_BYTES = counter c VERSION_BYTES;
  inv_quotas : quotas_ok (BUCKETS c) (usage_of c)
}.

(** ** Lemmas on sums *)

Section Sums.
Context {A : Type} (owner : A → bytes) (w : A → Z).
Implicit Types (t : gmap bytes A).

(** What the row at a key contributes. *)
Definition contribution (b : bytes) (o : option A) : Z :=
  match o with Some x => if decide (owner x = b) then w x else 0 | None => 0 end.

Lemma bsum_insert b t k x :
  bsum owner w b (<[k := x]> t) =
  bsum owner w b t - contribution b (t !! k) + contribution b (Some x).
Proof. unfold bsum. rewrite msum_insert. unfold at_key. by destruct (t !! k). Qed.

Lemma bsum_delete b t k : bsum owner w b (delete k t) = bsum owner w b t - contribution b (t !! k).
Proof. unfold bsum. rewrite msum_delete. unfold at_key. by destruct (t !! k). Qed.

Lemma tsum_insert t k x : tsum w (<[k := x]> t) = tsum w t - from_option w 0 (t !! k) + w x.
Proof. unfold tsum. rewrite msum_insert. unfold at_key. by destruct (t !! k). Qed.

Lemma tsum_delete t k : tsum w (delete k t) = tsum w t - from_option w 0 (t !! k).
Proof. unfold tsum. rewrite msum_delete. unfold at_key. by destruct (t !! k). Qed.

Lemma bsum_nonneg b t : (∀ k x, t !! k = Some x → 0 ≤ w x) → 0 ≤ bsum owner w b t.
Proof. intros Hw. apply msum_nonneg. intros k x Hx. case_decide; [by eapply Hw|lia]. Qed.

Lemma bsum_le_tsum b t : (∀ k x, t !! k = Some x → 0 ≤ w x) → bsum owner w b t ≤ tsum w t.
Proof. intros Hw. apply msum_le. intros k x Hx. case_decide; [lia|by eapply Hw]. Qed.

Lemma bsum_at_le b t k x :
  (∀ k x, t !! k = Some x → 0 ≤ w x) → t !! k = Some x → owner x = b → w x ≤ bsum owner w b t.
Proof.
  intros Hw Hx Hb. pose proof (bsum_delete b t k) as Hd. rewrite Hx in Hd. simpl in Hd.
  rewrite decide_True in Hd by done.
  assert (0 ≤ bsum owner w b (delete k t)); [|lia].
  apply bsum_nonneg. intros k' x' [_ Hk']%lookup_delete_Some. by eapply Hw.
Qed.

Lemma bsum_none b t : (∀ k x, t !! k = Some x → owner x ≠ b) → bsum owner w b t = 0.
Proof. intros Ht. apply msum_zero. intros k x Hx. rewrite decide_False; [done|]. by eapply Ht. Qed.

(** A positive weight that sums to zero over a bucket: the bucket has no row. *)
Lemma bsum_zero_none b t k x :
  (∀ k x, t !! k = Some x → 0 < w x) → bsum owner w b t = 0 → t !! k = Some x → owner x ≠ b.
Proof.
  intros Hw Hz Hx Hb. pose proof (Hw _ _ Hx) as Hpos.
  assert (w x ≤ bsum owner w b t); [|lia]. apply (bsum_at_le b t k x); [|done|done].
  intros k' x' Hx'. pose proof (Hw _ _ Hx'). lia.
Qed.
End Sums.

Lemma bsum_ext {A} (owner owner' : A → bytes) (w : A → Z) (b : bytes) (t : gmap bytes A) :
  (∀ k x, t !! k = Some x → owner x = owner' x) → bsum owner w b t = bsum owner' w b t.
Proof. intros Ho. apply msum_ext. intros k x Hx. by rewrite (Ho _ _ Hx). Qed.

Lemma tsum_one_size {A} (t : gmap bytes A) : tsum one t = Z.of_nat (size t).
Proof.
  unfold tsum. induction t as [|k x t Hk IH] using map_ind.
  - rewrite msum_empty, map_size_empty. done.
  - rewrite msum_insert_new by done. rewrite map_size_insert_None by done. unfold one in *. lia.
Qed.

(** ** Lemmas on versions *)

Lemma rkey_inj r r' :
  record_ok r → record_ok r' → rkey r = rkey r' →
  record_bucket r = record_bucket r' ∧ record_key r = record_key r'.
Proof.
  intros (_ & [Hl _] & _) (_ & [Hl' _] & _) Heq. apply object_key_inj in Heq; [done|congruence].
Qed.

Section Versions.
Context {B : gmap bytes Bucket} {V : gmap bytes ObjectVersionRecord}
        {ORD N : gmap bytes bytes} {L : gmap bytes ObjectLockState}.
Hypothesis Hok : versions_ok B V ORD N L.

Lemma versions_record v r : V !! v = Some r → record_ok r.
Proof. intros Hr. by apply (version_row _ _ _ _ _ Hok) in Hr as (_ & ? & _). Qed.

Lemma versions_id v r : V !! v = Some r → version_id r = v.
Proof. intros Hr. by apply (version_row _ _ _ _ _ Hok) in Hr as (? & _). Qed.

(** The null index points at null versions of its key, and only one exists. *)
Lemma null_lookup k v :
  N !! k = Some v → ∃ r, V !! v = Some r ∧ is_null r = true ∧ rkey r = k ∧ version_id r = v.
Proof.
  intros (r & Hr & Hn & ->)%(null_row _ _ _ _ _ Hok). exists r.
  split_and!; [done|done|done|by eapply versions_id].
Qed.

Lemma null_unique r r' v v' :
  V !! v = Some r → V !! v' = Some r' → is_null r = true → is_null r' = true →
  rkey r = rkey r' → v = v'.
Proof.
  intros Hr Hr' Hn Hn' Heq.
  assert (N !! rkey r = Some v) by (apply (null_row _ _ _ _ _ Hok); eauto).
  assert (N !! rkey r' = Some v') by (apply (null_row _ _ _ _ _ Hok); eauto). congruence.
Qed.

(** Removing a version with its order, null and lock rows. *)
Lemma versions_drop r :
  V !! version_id r = Some r →
  versions_ok B (delete (version_id r) V) (delete (version_order_key r) ORD)
    (if is_null r then delete (rkey r) N else N) (delete (version_id r) L).
Proof.
  intros Hr. pose proof (versions_record _ _ Hr) as Hrok. split.
  - intros v r' [_ Hr']%lookup_delete_Some. by apply (version_row _ _ _ _ _ Hok).
  - intros k v. rewrite lookup_delete_Some, (order_row _ _ _ _ _ Hok). split.
    + intros [Hne (r' & Hr' & ->)]. exists r'. split; [|done].
      apply lookup_delete_Some. split; [|done]. intros <-. rewrite Hr in Hr'. by simplify_eq.
    + intros (r' & [Hne Hr']%lookup_delete_Some & ->). split; [|by eauto].
      intros Heq. apply Hne. rewrite (version_order_key_inj r r'); [|done| |done].
      * by eapply versions_id.
      * by eapply versions_record.
  - intros k v. destruct (is_null r) eqn:Hn.
    + rewrite lookup_delete_Some, (null_row _ _ _ _ _ Hok). split.
      * intros [Hne (r' & Hr' & Hn' & ->)]. exists r'. split_and!; [|done|done].
        apply lookup_delete_Some. split; [|done]. intros <-. rewrite Hr in Hr'. by simplify_eq.
      * intros (r' & [Hne Hr']%lookup_delete_Some & Hn' & ->). split; [|by eauto].
        intros Heq. apply Hne. eapply null_unique; eauto.
    + rewrite (null_row _ _ _ _ _ Hok). split.
      * intros (r' & Hr' & Hn' & ->). exists r'. split_and!; [|done|done].
        apply lookup_delete_Some. split; [|done]. intros <-. rewrite Hr in Hr'. congruence.
      * intros (r' & [_ Hr']%lookup_delete_Some & Hn' & ->). by eauto.
  - intros v s [Hne Hs]%lookup_delete_Some.
    destruct (lock_row _ _ _ _ _ Hok _ _ Hs) as (Hu & m & b & Hm & Hb & Hl).
    split; [done|]. exists m, b. split_and!; [|done|done]. by rewrite lookup_delete_ne.
Qed.

(** Adding a fresh version with its order and null rows. *)
Lemma versions_add r b :
  V !! version_id r = None → record_ok r → is_u64 (rsize r) →
  B !! record_bucket r = Some b → (b_object_lock b ≠ None → is_null r = false) →
  (is_null r = true → N !! rkey r = None) →
  versions_ok B (<[version_id r := r]> V) (<[version_order_key r := version_id r]> ORD)
    (if is_null r then <[rkey r := version_id r]> N else N) L.
Proof.
  intros Hfresh Hrok Hsize Hb Hlock Hnull.
  assert (Hnew : ∀ v r', V !! v = Some r' → version_id r ≠ v) by (intros v r' ? <-; congruence).
  split.
  - intros v r' [[<- <-]|[_ Hr']]%lookup_insert_Some; [by eauto 10|].
    by apply (version_row _ _ _ _ _ Hok).
  - intros k v. rewrite lookup_insert_Some, (order_row _ _ _ _ _ Hok). split.
    + intros [[<- <-]|[Hne (r' & Hr' & ->)]].
      * exists r. by rewrite lookup_insert_eq.
      * exists r'. rewrite lookup_insert_ne; eauto.
    + intros (r' & [[<- <-]|[Hne Hr']]%lookup_insert_Some & ->); [by left|right].
      split; [|by eauto]. intros Heq. apply Hne. rewrite (version_order_key_inj r r'); [|done| |done].
      * by eapply versions_id.
      * by eapply versions_record.
  - intros k v. destruct (is_null r) eqn:Hn.
    + rewrite lookup_insert_Some, (null_row _ _ _ _ _ Hok). split.
      * intros [[<- <-]|[Hne (r' & Hr' & Hn' & ->)]].
        -- exists r. by rewrite lookup_insert_eq.
        -- exists r'. rewrite lookup_insert_ne; eauto.
      * intros (r' & [[<- <-]|[Hne Hr']]%lookup_insert_Some & Hn' & ->); [by left|right].
        split; [|by eauto]. intros Heq. specialize (Hnull eq_refl). rewrite Heq in Hnull.
        assert (N !! rkey r' = Some v) by (apply (null_row _ _ _ _ _ Hok); eauto). congruence.
    + rewrite (null_row _ _ _ _ _ Hok). split.
      * intros (r' & Hr' & Hn' & ->). exists r'. rewrite lookup_insert_ne; eauto.
      * intros (r' & [[<- <-]|[_ Hr']]%lookup_insert_Some & Hn' & ->); [congruence|by eauto].
  - intros v s Hs. destruct (lock_row _ _ _ _ _ Hok _ _ Hs) as (Hu & m & b' & Hm & Hb' & Hl).
    split; [done|]. exists m, b'. rewrite lookup_insert_ne; eauto.
Qed.

(** Writing the lock of an object version of a bucket with Object Lock. *)
Lemma versions_lock v m b s :
  V !! v = Some (ObjectRecord m false) → B !! o_bucket_id m = Some b → b_object_lock b ≠ None →
  is_unlocked s = false → versions_ok B V ORD N (<[v := s]> L).
Proof.
  intros Hm Hb Hl Hs. destruct Hok as [H1 H2 H3 H4]. split; [done|done|done|].
  intros v' s' [[<- <-]|[_ Hs']]%lookup_insert_Some; [|by apply H4]. split; [done|by eauto].
Qed.

Lemma versions_unlock v : versions_ok B V ORD N (delete v L).
Proof.
  destruct Hok as [H1 H2 H3 H4]. split; [done|done|done|].
  intros v' s' [_ Hs']%lookup_delete_Some. by apply H4.
Qed.

(** A version without a payload, or outside a bucket with Object Lock, has no
    lock; a null version in particular. *)
Lemma null_unlocked v r : V !! v = Some r → is_null r = true → L !! v = None.
Proof.
  intros Hr Hn. destruct (L !! v) as [s|] eqn:Hs; [|done].
  destruct (lock_row _ _ _ _ _ Hok _ _ Hs) as (_ & m & b & Hm & _). by simplify_eq.
Qed.

(** The buckets may change as long as they stay and keep their lock setting. *)
Lemma versions_buckets B' :
  (∀ id b, B !! id = Some b → ∃ b', B' !! id = Some b' ∧
     (b_object_lock b' ≠ None ↔ b_object_lock b ≠ None)) →
  versions_ok B' V ORD N L.
Proof.
  intros HB. destruct Hok as [H1 H2 H3 H4]. split; [|done|done|].
  - intros v r Hr. destruct (H1 v r Hr) as (? & ? & ? & b & Hb & Hl).
    destruct (HB _ _ Hb) as (b' & Hb' & Hiff). split_and!; [done|done|done|].
    exists b'. split; [done|]. rewrite Hiff. done.
  - intros v s Hs. destruct (H4 v s Hs) as (? & m & b & ? & Hb & Hl). split; [done|].
    destruct (HB _ _ Hb) as (b' & Hb' & Hiff). exists m, b'. by rewrite Hiff.
Qed.

(** The first row of a key's range in the order index is its newest version. *)
Lemma latest_row bucket key k v :
  uuid_ok bucket → key_ok key →
  head (table_range (exact_version_prefix bucket key)
          (prefix_successor (exact_version_prefix bucket key)) ORD) = Some (k, v) →
  ∃ r, V !! v = Some r ∧ record_bucket r = bucket ∧ record_key r = key ∧
    ∀ v' r', V !! v' = Some r' → record_bucket r' = bucket → record_key r' = key →
      order_micros (record_created_at r') ≤ order_micros (record_created_at r).
Proof.
  intros Hb Hk (Hord & Hrange & Hleast)%table_range_head.
  apply (order_row _ _ _ _ _ Hok) in Hord as (r & Hr & ->).
  pose proof (versions_record _ _ Hr) as Hrok.
  apply version_range_spec in Hrange as [<- <-]; [|done..].
  exists r. split_and!; [done|done|done|]. intros v' r' Hr' Hb' Hk'.
  pose proof (versions_record _ _ Hr') as Hrok'.
  apply version_order_newest; [done|done|done|done|].
  apply (Hleast _ v'); [apply (order_row _ _ _ _ _ Hok); eauto|].
  apply version_range_spec; auto.
Qed.

Lemma latest_none bucket key :
  uuid_ok bucket → key_ok key →
  table_range (exact_version_prefix bucket key)
    (prefix_successor (exact_version_prefix bucket key)) ORD = [] ↔
  ∀ v r, V !! v = Some r → ¬ (record_bucket r = bucket ∧ record_key r = key).
Proof.
  intros Hb Hk. rewrite table_range_nil. split.
  - intros Hn v r Hr Hm. apply (Hn (version_order_key r) v).
    + apply (order_row _ _ _ _ _ Hok). eauto.
    + apply version_range_spec; [done|done|by eapply versions_record|done].
  - intros Hn k v (r & Hr & ->)%(order_row _ _ _ _ _ Hok) Hrange.
    apply (Hn v r Hr). apply version_range_spec in Hrange; [done|done|done|by eapply versions_record].
Qed.
End Versions.

(** Removing the version a write replaces, if any. *)
Definition vdrop {A} (ro : option ObjectVersionRecord) (t : gmap bytes A) : gmap bytes A :=
  match ro with Some r => delete (version_id r) t | None => t end.
Definition odrop (ro : option ObjectVersionRecord) (t : gmap bytes bytes) : gmap bytes bytes :=
  match ro with Some r => delete (version_order_key r) t | None => t end.
Definition ndrop (null : bool) (key : bytes) (t : gmap bytes bytes) : gmap bytes bytes :=
  if null then delete key t else t.

(** The version a write replaces: the null version of the key when the write is
    a null version itself, and nothing otherwise. *)
Definition replaces (V : gmap bytes ObjectVersionRecord) (N : gmap bytes bytes) (null : bool)
    (key : bytes) (ro : option ObjectVersionRecord) : Prop :=
  match ro with
  | Some r => null = true ∧ V !! version_id r = Some r ∧ is_null r = true ∧ rkey r = key
  | None => null = true → N !! key = None
  end.

Lemma versions_replace B V ORD N L null key ro :
  versions_ok B V ORD N L → replaces V N null key ro →
  versions_ok B (vdrop ro V) (odrop ro ORD) (ndrop null key N) (vdrop ro L).
Proof.
  intros Hok Hr. destruct ro as [r|]; simpl in *.
  - destruct Hr as (-> & Hv & Hn & <-). pose proof (versions_drop Hok r Hv) as Hd.
    by rewrite Hn in Hd.
  - destruct null; simpl; [|done]. by rewrite delete_id by auto.
Qed.

Lemma ndrop_none N key : ndrop true key N !! key = None.
Proof. apply lookup_delete_eq. Qed.

Lemma vdrop_lookup {A} (ro : option ObjectVersionRecord) (t : gmap bytes A) (v : bytes) x : vdrop ro t !! v = Some x → t !! v = Some x.
Proof. destruct ro; simpl; [|done]. by intros [_ ?]%lookup_delete_Some. Qed.

Lemma vdrop_none {A} (ro : option ObjectVersionRecord) (t : gmap bytes A) (v : bytes) : t !! v = None → vdrop ro t !! v = None.
Proof. destruct ro; simpl; [|done]. intros. apply lookup_delete_None. auto. Qed.

(** ** Lemmas on the current view *)

Section Current.
Context {V : gmap bytes ObjectVersionRecord} {OB : gmap bytes ObjectMetadata}
        {MK : gmap bytes DeleteMarker}.
Hypothesis Hok : current_ok V OB MK.

Lemma current_add v r : V !! v = None → current_ok (<[v := r]> V) OB MK.
Proof.
  intros Hfresh. destruct Hok as [H1 H2 H3]. split; [| |done].
  - intros k m Hm. destruct (H1 k m Hm) as (-> & n & Hv). split; [done|]. exists n.
    rewrite lookup_insert_ne; [done|]. congruence.
  - intros k d Hd. destruct (H2 k d Hd) as (-> & n & Hv). split; [done|]. exists n.
    rewrite lookup_insert_ne; [done|]. congruence.
Qed.

(** Removing the current row of a key, and versions of that key. *)
Lemma current_hide k : current_ok V (delete k OB) (delete k MK).
Proof.
  destruct Hok as [H1 H2 H3]. split.
  - intros k' m [_ Hm]%lookup_delete_Some. auto.
  - intros k' d [_ Hd]%lookup_delete_Some. auto.
  - intros k'. destruct (H3 k'); [left|right]; apply lookup_delete_None; auto.
Qed.

Lemma current_drop r :
  V !! version_id r = Some r → OB !! rkey r = None → MK !! rkey r = None →
  current_ok (delete (version_id r) V) OB MK.
Proof.
  intros Hr Hob Hmk. destruct Hok as [H1 H2 H3]. split; [| |done].
  - intros k m Hm. destruct (H1 k m Hm) as (-> & n & Hv). split; [done|]. exists n.
    rewrite lookup_delete_ne; [done|]. intros Heq. rewrite <-Heq, Hr in Hv. simplify_eq.
    unfold rkey in Hob. simpl in Hob. congruence.
  - intros k d Hd. destruct (H2 k d Hd) as (-> & n & Hv). split; [done|]. exists n.
    rewrite lookup_delete_ne; [done|]. intros Heq. rewrite <-Heq, Hr in Hv. simplify_eq.
    unfold rkey in Hmk. simpl in Hmk. congruence.
Qed.

(** Removing a version that is not the current one of its key. *)
Lemma current_drop_other r :
  V !! version_id r = Some r →
  match OB !! rkey r with Some m => Some (o_version_id m) | None => m_version_id <$> MK !! rkey r end
    ≠ Some (version_id r) →
  current_ok (delete (version_id r) V) OB MK.
Proof.
  intros Hr Hne. destruct Hok as [H1 H2 H3]. split; [| |done].
  - intros k m Hm. destruct (H1 k m Hm) as (-> & n & Hv). split; [done|]. exists n.
    rewrite lookup_delete_ne; [done|]. intros Heq. rewrite <-Heq, Hr in Hv. simplify_eq.
    unfold rkey in Hne. simpl in Hne. by rewrite Hm in Hne.
  - intros k d Hd. destruct (H2 k d Hd) as (-> & n & Hv). split; [done|]. exists n.
    rewrite lookup_delete_ne; [done|]. intros Heq. rewrite <-Heq, Hr in Hv. simplify_eq.
    unfold rkey in Hne. simpl in Hne. rewrite Hd in Hne.
    destruct (H3 (object_key (m_bucket_id d) (m_key d))) as [Hn|Hn]; [|congruence].
    by rewrite Hn in Hne.
Qed.

Lemma current_object m n k :
  V !! o_version_id m = Some (ObjectRecord m n) → k = object_key (o_bucket_id m) (o_key m) →
  current_ok V (<[k := m]> OB) (delete k MK).
Proof.
  intros Hv ->. destruct Hok as [H1 H2 H3]. split.
  - intros k m' [[<- <-]|[_ Hm]]%lookup_insert_Some; eauto.
  - intros k d [_ Hd]%lookup_delete_Some. auto.
  - intros k. destruct (decide (k = object_key (o_bucket_id m) (o_key m))) as [->|Hne].
    + right. apply lookup_delete_eq.
    + rewrite lookup_insert_ne, lookup_delete_ne by done. apply H3.
Qed.

Lemma current_marker d n k :
  V !! m_version_id d = Some (MarkerRecord d n) → k = object_key (m_bucket_id d) (m_key d) →
  current_ok V (delete k OB) (<[k := d]> MK).
Proof.
  intros Hv ->. destruct Hok as [H1 H2 H3]. split.
  - intros k m [_ Hm]%lookup_delete_Some. auto.
  - intros k d' [[<- <-]|[_ Hd]]%lookup_insert_Some; eauto.
  - intros k. destruct (decide (k = object_key (m_bucket_id d) (m_key d))) as [->|Hne].
    + left. apply lookup_delete_eq.
    + rewrite lookup_insert_ne, lookup_delete_ne by done. apply H3.
Qed.
End Current.

(** Hiding a key and removing the version a write to it replaces. *)
Lemma current_replace V OB MK ro k :
  current_ok V OB MK → (∀ r, ro = Some r → V !! version_id r = Some r ∧ rkey r = k) →
  current_ok (vdrop ro V) (delete k OB) (delete k MK).
Proof.
  intros Hok Hro. destruct ro as [r|]; simpl; [|by apply current_hide].
  destruct (Hro r eq_refl) as [Hr <-]. apply current_drop; [by apply current_hide|done| |];
    apply lookup_delete_eq.
Qed.

Lemma current_put V OB MK ro k m n :
  current_ok V OB MK → (∀ r, ro = Some r → V !! version_id r = Some r ∧ rkey r = k) →
  k = object_key (o_bucket_id m) (o_key m) → V !! o_version_id m = None →
  current_ok (<[o_version_id m := ObjectRecord m n]> (vdrop ro V)) (<[k := m]> OB) (delete k MK).
Proof.
  intros Hok Hro Hk Hv. rewrite <-(delete_delete_eq MK k), <-(insert_delete_eq OB k m).
  eapply current_object; [|apply lookup_insert_eq|done].
  apply current_add; [by apply current_replace|by apply vdrop_none].
Qed.

(** ** Lemmas on payloads *)

Section Payloads.
Context {V : gmap bytes ObjectVersionRecord} {P : gmap bytes UploadedPart} {CL : gmap bytes Z}.
Hypothesis Hok : payloads_ok V P CL.

(** A payload that nothing refers to. *)
Definition unreferenced (V : gmap bytes ObjectVersionRecord) (P : gmap bytes UploadedPart)
    (id : bytes) : Prop :=
  (∀ v r m, V !! v = Some r → as_object r = Some m → o_id m ≠ id) ∧
  (∀ k p, P !! k = Some p → p_object_id p ≠ id).

Lemma payloads_add_version v r :
  (∀ m, as_object r = Some m → unreferenced V P (o_id m) ∧ CL !! o_id m = None) →
  V !! v = None → payloads_ok (<[v := r]> V) P CL.
Proof.
  intros Hfresh Hv. destruct Hok as [H1 H2 H3 H4 H5]. split; [|done| | |done].
  - intros v1 v2 r1 r2 m1 m2 [[<- <-]|[? Hr1]]%lookup_insert_Some
      [[<- <-]|[? Hr2]]%lookup_insert_Some Hm1 Hm2 Heq; [done| | |by eapply H1].
    + destruct (Hfresh _ Hm1) as [[Hf _] _]. destruct (Hf _ _ _ Hr2 Hm2). done.
    + destruct (Hfresh _ Hm2) as [[Hf _] _]. destruct (Hf _ _ _ Hr1 Hm1). done.
  - intros v1 r1 m1 k p [[<- <-]|[? Hr1]]%lookup_insert_Some Hm1 Hp; [|by eapply H3].
    destruct (Hfresh _ Hm1) as [[_ Hf] _]. intros Heq. by apply (Hf _ _ Hp).
  - intros v1 r1 m1 [[<- <-]|[? Hr1]]%lookup_insert_Some Hm1; [by apply Hfresh|by eapply H4].
Qed.

Lemma payloads_fewer V' P' CL' :
  (∀ v r, V' !! v = Some r → V !! v = Some r) → (∀ k p, P' !! k = Some p → P !! k = Some p) →
  (∀ i, CL !! i = None → CL' !! i = None) → payloads_ok V' P' CL'.
Proof. intros HV HP HC. destruct Hok as [H1 H2 H3 H4 H5]. split; eauto 10. Qed.

Lemma payloads_queue id : unreferenced V P id → payloads_ok V P (<[id := 1]> CL).
Proof.
  intros [Hv Hp]. destruct Hok as [H1 H2 H3 H4 H5]. split; [done|done|done| |].
  - intros v r m Hr Hm. rewrite lookup_insert_ne; [by eapply H4|]. intros Heq. by apply (Hv _ _ _ Hr Hm).
  - intros k p Hk. rewrite lookup_insert_ne; [by eapply H5|]. intros Heq. by apply (Hp _ _ Hk).
Qed.

(** What a removed version or part referred to is referred to by nothing else. *)
Lemma version_unreferenced v r m :
  V !! v = Some r → as_object r = Some m → unreferenced (delete v V) P (o_id m).
Proof.
  intros Hr Hm. destruct Hok as [H1 H2 H3 H4 H5]. split.
  - intros v' r' m' [Hne Hr']%lookup_delete_Some Hm' Heq. apply Hne. by eapply H1.
  - intros k p Hp Heq. by apply (H3 _ _ _ _ _ Hr Hm Hp).
Qed.

Lemma part_unreferenced k p : P !! k = Some p → unreferenced V (delete k P) (p_object_id p).
Proof.
  intros Hp. destruct Hok as [H1 H2 H3 H4 H5]. split.
  - intros v r m Hr Hm. by eapply H3.
  - intros k' p' [Hne Hp']%lookup_delete_Some Heq. apply Hne. by eapply H2.
Qed.

Lemma payloads_add_part k p :
  P !! k = None → unreferenced V P (p_object_id p) → CL !! p_object_id p = None →
  payloads_ok V (<[k := p]> P) CL.
Proof.
  intros Hk [Hv Hp] Hc. destruct Hok as [H1 H2 H3 H4 H5]. split; [done| | |done|].
  - intros k1 k2 p1 p2 [[<- <-]|[? Hp1]]%lookup_insert_Some
      [[<- <-]|[? Hp2]]%lookup_insert_Some Heq; [done| | |by eapply H2].
    + by destruct (Hp _ _ Hp2).
    + by destruct (Hp _ _ Hp1).
  - intros v r m k1 p1 Hr Hm [[<- <-]|[? Hp1]]%lookup_insert_Some; [by eapply Hv|by eapply H3].
  - intros k1 p1 [[<- <-]|[? Hp1]]%lookup_insert_Some; [done|by eapply H5].
Qed.
End Payloads.

(** Storing a part over an earlier one, whose payload is queued. *)
Lemma payloads_put_part V P CL k p :
  payloads_ok V P CL → unreferenced V P (p_object_id p) → CL !! p_object_id p = None →
  payloads_ok V (<[k := p]> P)
    (match P !! k with Some old => <[p_object_id old := 1]> CL | None => CL end).
Proof.
  intros Hok [Hv Hp] Hc. destruct (P !! k) as [old|] eqn:Hk; [|by apply payloads_add_part].
  rewrite <-(insert_delete_eq P k p).
  assert (Hd : payloads_ok V (delete k P) CL).
  { eapply payloads_fewer; [exact Hok|done| |done]. by intros ? ? [_ ?]%lookup_delete_Some. }
  apply payloads_add_part.
  - apply payloads_queue; [done|by eapply part_unreferenced].
  - apply lookup_delete_eq.
  - split; [done|]. intros k' p' [_ Hp']%lookup_delete_Some. by eapply Hp.
  - rewrite lookup_insert_ne; [done|]. by eapply Hp.
Qed.

(** ** Lemmas on the books *)

(** A change to a usage row. *)
Definition uplus (u d : BucketUsage) : BucketUsage :=
  {| current_objects := current_objects u + current_objects d;
     logical_bytes := logical_bytes u + logical_bytes d;
     versions := versions u + versions d;
     version_bytes := version_bytes u + version_bytes d;
     multipart_bytes := multipart_bytes u + multipart_bytes d |}.
Definition uopp (d : BucketUsage) : BucketUsage :=
  {| current_objects := - current_objects d; logical_bytes := - logical_bytes d;
     versions := - versions d; version_bytes := - version_bytes d;
     multipart_bytes := - multipart_bytes d |}.
Definition bump (b : bytes) (d : BucketUsage) (usage : bytes → BucketUsage) (id : bytes) : BucketUsage :=
  if decide (id = b) then uplus (usage id) d else usage id.

Definition object_delta (m : ObjectMetadata) : BucketUsage :=
  {| current_objects := 1; logical_bytes := o_size m; versions := 0; version_bytes := 0;
     multipart_bytes := 0 |}.
Definition version_delta (r : ObjectVersionRecord) : BucketUsage :=
  {| current_objects := 0; logical_bytes := 0; versions := 1; version_bytes := rsize r;
     multipart_bytes := 0 |}.
Definition part_delta (p : UploadedPart) : BucketUsage :=
  {| current_objects := 0; logical_bytes := 0; versions := 0; version_bytes := 0;
     multipart_bytes := p_size p |}.

Lemma usage_ext u u' :
  current_objects u = current_objects u' → logical_bytes u = logical_bytes u' →
  versions u = versions u' → version_bytes u = version_bytes u' →
  multipart_bytes u = multipart_bytes u' → u = u'.
Proof. destruct u, u'; simpl; congruence. Qed.

Lemma contribution_some {A} (owner : A → bytes) w b x :
  contribution owner w b (Some x) = if decide (b = owner x) then w x else 0.
Proof. simpl. repeat case_decide; congruence. Qed.

(** Solves the bookkeeping of one row. *)
Ltac one_row Hu Ht Hk :=
  split;
  [ intros b; unfold bump; rewrite Hu; unfold exact_usage, uplus, uopp;
    case_decide; subst; apply usage_ext; simpl;
    rewrite ?bsum_insert, ?bsum_delete, ?Hk, ?contribution_some; simpl;
    rewrite ?decide_True by congruence; rewrite ?decide_False by congruence;
    unfold one; lia
  | rewrite Ht; unfold exact_totals, uplus, uopp; apply usage_ext; simpl;
    rewrite ?tsum_insert, ?tsum_delete, ?Hk; simpl; unfold one; lia ].

Section Books.
Context {usage : bytes → BucketUsage} {total : BucketUsage}
        {OB : gmap bytes ObjectMetadata} {V : gmap bytes ObjectVersionRecord}
        {U : gmap bytes MultipartUpload} {P : gmap bytes UploadedPart}.
Hypothesis Hbooks : books usage total OB V U P.

Lemma books_add_version r :
  V !! version_id r = None →
  books (bump (record_bucket r) (version_delta r) usage) (uplus total (version_delta r))
    OB (<[version_id r := r]> V) U P.
Proof. intros Hk. destruct Hbooks as [Hu Ht]. one_row Hu Ht Hk. Qed.

Lemma books_drop_version r :
  V !! version_id r = Some r →
  books (bump (record_bucket r) (uopp (version_delta r)) usage)
    (uplus total (uopp (version_delta r))) OB (delete (version_id r) V) U P.
Proof. intros Hk. destruct Hbooks as [Hu Ht]. one_row Hu Ht Hk. Qed.

Lemma books_add_object k m :
  OB !! k = None →
  books (bump (o_bucket_id m) (object_delta m) usage) (uplus total (object_delta m))
    (<[k := m]> OB) V U P.
Proof. intros Hk. destruct Hbooks as [Hu Ht]. one_row Hu Ht Hk. Qed.

Lemma books_drop_object k m :
  OB !! k = Some m →
  books (bump (o_bucket_id m) (uopp (object_delta m)) usage) (uplus total (uopp (object_delta m)))
    (delete k OB) V U P.
Proof. intros Hk. destruct Hbooks as [Hu Ht]. one_row Hu Ht Hk. Qed.

Lemma books_add_part k p :
  P !! k = None →
  books (bump (part_bucket U p) (part_delta p) usage) (uplus total (part_delta p))
    OB V U (<[k := p]> P).
Proof. intros Hk. destruct Hbooks as [Hu Ht]. one_row Hu Ht Hk. Qed.

Lemma books_drop_part k p :
  P !! k = Some p →
  books (bump (part_bucket U p) (uopp (part_delta p)) usage) (uplus total (uopp (part_delta p)))
    OB V U (delete k P).
Proof. intros Hk. destruct Hbooks as [Hu Ht]. one_row Hu Ht Hk. Qed.

Lemma books_uploads U' :
  (∀ k p, P !! k = Some p → part_bucket U' p = part_bucket U p) → books usage total OB V U' P.
Proof.
  intros HU. destruct Hbooks as [Hu Ht]. split; [|done]. intros b. rewrite Hu.
  apply usage_ext; simpl; try done. apply bsum_ext. intros k p Hp. by rewrite (HU _ _ Hp).
Qed.

Lemma books_ext usage' total' :
  (∀ b, usage' b = usage b) → total' = total → books usage' total' OB V U P.
Proof. intros Hu ->. destruct Hbooks as [Hu' Ht]. split; [|done]. intros b. by rewrite Hu. Qed.

(** Storing an object under a key, over whatever was current. *)
Lemma books_put_object k m :
  (∀ m', OB !! k = Some m' → o_bucket_id m' = o_bucket_id m) →
  let d := {| current_objects := of_bool (is_none (OB !! k));
              logical_bytes := o_size m - size_or_zero (OB !! k);
              versions := 0; version_bytes := 0; multipart_bytes := 0 |} in
  books (bump (o_bucket_id m) d usage) (uplus total d) (<[k := m]> OB) V U P.
Proof.
  intros Hsame. destruct Hbooks as [Hu Ht].
  destruct (OB !! k) as [m'|] eqn:Hk; [|one_row Hu Ht Hk].
  pose proof (Hsame _ eq_refl). one_row Hu Ht Hk.
Qed.

Lemma books_put_part k p :
  (∀ p', P !! k = Some p' → part_bucket U p' = part_bucket U p) →
  let d := {| current_objects := 0; logical_bytes := 0; versions := 0; version_bytes := 0;
              multipart_bytes := p_size p - part_size_or_zero (P !! k) |} in
  books (bump (part_bucket U p) d usage) (uplus total d) OB V U (<[k := p]> P).
Proof.
  intros Hsame. destruct Hbooks as [Hu Ht].
  destruct (P !! k) as [p'|] eqn:Hk; [|one_row Hu Ht Hk].
  pose proof (Hsame _ eq_refl). one_row Hu Ht Hk.
Qed.

Lemma books_replace ro bucket :
  (∀ r, ro = Some r → V !! version_id r = Some r ∧ record_bucket r = bucket) →
  let d := {| current_objects := 0; logical_bytes := 0;
              versions := - of_bool (is_some ro);
              version_bytes := - size_or_zero (ro ≫= as_object); multipart_bytes := 0 |} in
  books (bump bucket d usage) (uplus total d) OB (vdrop ro V) U P.
Proof.
  intros Hro. destruct Hbooks as [Hu Ht]. destruct ro as [r|].
  - destruct (Hro _ eq_refl) as [Hk <-]. change (size_or_zero (Some r ≫= as_object)) with (rsize r).
    one_row Hu Ht Hk.
  - one_row Hu Ht Hu.
Qed.

(** Sizes are non-negative, so a bucket has at most the total. *)
Lemma books_bounds b :
  (∀ k m, OB !! k = Some m → 0 ≤ o_size m) → (∀ v r, V !! v = Some r → 0 ≤ rsize r) →
  (∀ k p, P !! k = Some p → 0 ≤ p_size p) →
  0 ≤ current_objects (usage b) ≤ current_objects total ∧
  0 ≤ logical_bytes (usage b) ≤ logical_bytes total ∧
  0 ≤ versions (usage b) ≤ versions total ∧
  0 ≤ version_bytes (usage b) ≤ version_bytes total ∧
  0 ≤ multipart_bytes (usage b) ≤ multipart_bytes total.
Proof.
  intros Ho Hv Hp. destruct Hbooks as [Hu ->]. rewrite Hu. simpl. unfold one.
  split_and!; first [apply bsum_nonneg | apply bsum_le_tsum]; intros; try lia; eauto.
Qed.
End Books.

Definition fits (u : BucketUsage) : Prop :=
  is_u64 (current_objects u) ∧ is_u64 (logical_bytes u) ∧ is_u64 (versions u) ∧
  is_u64 (version_bytes u) ∧ is_u64 (multipart_bytes u).

(** In a catalog whose rows are well formed, exact books and 64-bit counters
    bound every usage row. *)
Lemma usage_fits B V ORD N L OB MK U UO P usage c :
  versions_ok B V ORD N L → current_ok V OB MK → multipart_ok B U UO P →
  books usage (totals c) OB V U P → (∀ n, is_u64 (counter c n)) → ∀ b, fits (usage b).
Proof.
  intros Hv Hc Hm Hb Hu b. pose proof (books_bounds Hb b) as Hbounds.
  assert (Hvs : ∀ v r, V !! v = Some r → 0 ≤ rsize r).
  { intros v r Hr. apply (version_row _ _ _ _ _ Hv) in Hr as (_ & _ & [? _] & _). done. }
  pose proof (Hu OBJECT_COUNT). pose proof (Hu LOGICAL_BYTES). pose proof (Hu VERSION_COUNT).
  pose proof (Hu VERSION_BYTES). pose proof (Hu MULTIPART_BYTES). unfold fits, is_u64 in *.
  destruct Hbounds as (? & ? & ? & ? & ?); [|done| |simpl in *; split_and!; lia].
  - intros k m Hk. apply (object_row _ _ _ Hc) in Hk as (_ & n & Hk). by apply Hvs in Hk.
  - intros k p Hp. apply (part_row _ _ _ _ Hm) in Hp as (_ & (_ & _ & [? _]) & _). done.
Qed.

(** Arithmetic that wraps is exact when the exact result fits. *)
Lemma usage_exact u u' :
  fits u' → current_objects u = u64_wrap (current_objects u') →
  logical_bytes u = u64_wrap (logical_bytes u') → versions u = u64_wrap (versions u') →
  version_bytes u = u64_wrap (version_bytes u') →
  multipart_bytes u = u64_wrap (multipart_bytes u') → u = u'.
Proof.
  intros (? & ? & ? & ? & ?) E1 E2 E3 E4 E5.
  rewrite u64_wrap_id in E1, E2, E3, E4, E5 by done. by apply usage_ext.
Qed.

(** Closes [a = u64_wrap b] when [a] is [b] up to wrapping. *)
Ltac wraps :=
  match goal with
  | Hfit : fits _ |- _ = u64_wrap _ =>
      unfold fits in Hfit; simpl in Hfit;
      first [ rewrite u64_wrap_id by tauto; lia
            | unfold u64_add, u64_sub, u64_wrap;
              rewrite ?Zplus_mod_idemp_l, ?Zminus_mod_idemp_l; f_equal; lia ]
  end.

(** A usage row computed with arithmetic that wraps, against the exact row. *)
Definition near (x y : Z) : Prop := x = y ∨ x = u64_wrap y.
Definition unear (u v : BucketUsage) : Prop :=
  near (current_objects u) (current_objects v) ∧ near (logical_bytes u) (logical_bytes v) ∧
  near (versions u) (versions v) ∧ near (version_bytes u) (version_bytes v) ∧
  near (multipart_bytes u) (multipart_bytes v).

Lemma near_add x y d z : near x y → z = y + d → near (u64_add x d) z.
Proof.
  intros Hn ->. right. unfold u64_add, u64_wrap. destruct Hn as [->| ->]; [done|].
  apply Zplus_mod_idemp_l.
Qed.

Lemma near_sub x y d z : near x y → z = y - d → near (u64_sub x d) z.
Proof.
  intros Hn ->. right. unfold u64_sub, u64_wrap. destruct Hn as [->| ->]; [done|].
  apply Zminus_mod_idemp_l.
Qed.

Lemma near_eq x y z : near x y → z = y → near x z.
Proof. by intros ? ->. Qed.

Lemma near_refl x y : x = y → near x y.
Proof. by left. Qed.

Lemma unear_refl u : unear u u.
Proof. repeat split; by apply near_refl. Qed.

Lemma unear_fits u v : unear u v → fits v → u = v.
Proof.
  intros (E1 & E2 & E3 & E4 & E5) (? & ? & ? & ? & ?).
  apply usage_ext; match goal with E : near (?f u) (?f v) |- ?f u = ?f v =>
    destruct E as [E|E]; [done|by rewrite u64_wrap_id in E] end.
Qed.

(** Closes [unear] between a row written out and a sum of changes. *)
Ltac unear_from Hu :=
  destruct Hu as (? & ? & ? & ? & ?); repeat split; simpl in *;
  first [ eapply near_add; [eassumption|lia] | eapply near_sub; [eassumption|lia]
        | eapply near_eq; [eassumption|lia] ].
Ltac solve_unear := match goal with Hu : unear _ _ |- unear _ _ => unear_from Hu end.

Lemma bytes_allows_le q x y : y ≤ x → bytes_allows q x = true → bytes_allows q y = true.
Proof. destruct q; simpl; [done|]. rewrite !Z.leb_le. lia. Qed.

End CatalogInv.
