(* ===== verification/CatalogSteps.v ===== *)
(** * The commands preserve the catalog's invariant

    One lemma per command of [crates/record-store-metadata/src/commands.rs]:
    run in a catalog that satisfies [Inv] with arguments a caller may give
    ([command_ok]), a command that succeeds leaves a catalog that satisfies
    [Inv]. The first part characterises what a successful step of [tx.rs] does
    to the tables. *)

From S2P Require Import Prelude Bytes Tables ObjectLock CoreTypes Keys Catalog Commands CatalogInv.
Import ObjectLock CoreTypes Keys Catalog Commands CatalogInv.

Module CatalogSteps.
(** Reads of tables after writes of tables. *)
Ltac tables :=
  cbn [upd_buckets upd_names upd_objects upd_markers upd_versions upd_order upd_nulls upd_multipart
       upd_morder upd_parts upd_cleanup upd_usage upd_rules upd_locks upd_events upd_counters upd_clock
       BUCKETS BUCKET_NAMES OBJECTS MARKERS VERSIONS VERSION_ORDER NULL_VERSIONS MULTIPART
       MULTIPART_ORDER PARTS CLEANUP BUCKET_USAGE LIFECYCLE_RULES OBJECT_LOCKS MUTATION_EVENTS
       COUNTERS CLOCK].

(** Equality of usage rows, field by field. *)
Ltac usage_lia := apply usage_ext; simpl; unfold rsize; simpl; lia.

(** ** Steps *)

(** [adjust_counter] when it succeeds. *)
Definition bump_counter (n : string) (d : Z) (c : Catalog) : Catalog :=
  upd_counters <[n := counter c n + d]> c.

Lemma counter_upd c n m v :
  counter (upd_counters <[n := v]> c) m = if decide (m = n) then v else counter c m.
Proof.
  unfold counter. cbn [upd_counters COUNTERS]. case_decide; subst.
  - by rewrite lookup_insert_eq.
  - by rewrite lookup_insert_ne.
Qed.

Lemma counter_bump c n m d :
  counter (bump_counter n d c) m = if decide (m = n) then counter c n + d else counter c m.
Proof. apply counter_upd. Qed.

Lemma counter_bump_eq c n d : counter (bump_counter n d c) n = counter c n + d.
Proof. by rewrite counter_bump, decide_True. Qed.

Lemma counter_bump_ne c n m d : m ≠ n → counter (bump_counter n d c) m = counter c m.
Proof. intros. by rewrite counter_bump, decide_False. Qed.

Lemma counter_upd_ne c n m v : m ≠ n → counter (upd_counters <[n := v]> c) m = counter c m.
Proof. intros. by rewrite counter_upd, decide_False. Qed.

(** A counter is not affected by writes of other tables. *)
Lemma counter_buckets f c n : counter (upd_buckets f c) n = counter c n.
Proof. done. Qed.
Lemma counter_names f c n : counter (upd_names f c) n = counter c n.
Proof. done. Qed.
Lemma counter_objects f c n : counter (upd_objects f c) n = counter c n.
Proof. done. Qed.
Lemma counter_markers f c n : counter (upd_markers f c) n = counter c n.
Proof. done. Qed.
Lemma counter_versions f c n : counter (upd_versions f c) n = counter c n.
Proof. done. Qed.
Lemma counter_order f c n : counter (upd_order f c) n = counter c n.
Proof. done. Qed.
Lemma counter_nulls f c n : counter (upd_nulls f c) n = counter c n.
Proof. done. Qed.
Lemma counter_multipart f c n : counter (upd_multipart f c) n = counter c n.
Proof. done. Qed.
Lemma counter_morder f c n : counter (upd_morder f c) n = counter c n.
Proof. done. Qed.
Lemma counter_parts f c n : counter (upd_parts f c) n = counter c n.
Proof. done. Qed.
Lemma counter_cleanup f c n : counter (upd_cleanup f c) n = counter c n.
Proof. done. Qed.
Lemma counter_usage f c n : counter (upd_usage f c) n = counter c n.
Proof. done. Qed.
Lemma counter_rules f c n : counter (upd_rules f c) n = counter c n.
Proof. done. Qed.
Lemma counter_locks f c n : counter (upd_locks f c) n = counter c n.
Proof. done. Qed.
Lemma counter_events f c n : counter (upd_events f c) n = counter c n.
Proof. done. Qed.
Lemma counter_clock f c n : counter (upd_clock f c) n = counter c n.
Proof. done. Qed.

(** Reads of counters after writes of counters, all names being literals. *)
Ltac counters :=
  repeat first
    [ rewrite counter_bump_eq
    | rewrite counter_bump_ne by discriminate
    | rewrite counter_upd_ne by discriminate
    | rewrite counter_buckets | rewrite counter_names | rewrite counter_objects | rewrite counter_markers
    | rewrite counter_versions | rewrite counter_order | rewrite counter_nulls | rewrite counter_multipart
    | rewrite counter_morder | rewrite counter_parts | rewrite counter_cleanup | rewrite counter_usage
    | rewrite counter_rules | rewrite counter_locks | rewrite counter_events | rewrite counter_clock ].

Lemma adjust_counter_ok n d c u c' :
  adjust_counter n d c = (Ok u, c') ↔
  c' = bump_counter n d c ∧ is_u64 (counter c n + d).
Proof.
  unfold adjust_counter, bump_counter. rewrite tx_bind_ok. setoid_rewrite tx_gets_ok.
  setoid_rewrite tx_bind_ok. setoid_rewrite tx_some_ok. setoid_rewrite tx_modify_ok.
  setoid_rewrite u64_checked_Some.
  split; [intros (? & ? & [-> ->] & ? & ? & [[-> ?] ->] & ->); done|].
  intros [-> ?]. eexists _, _. split; [done|]. eexists _, _. done.
Qed.

Lemma bump_counter_u64 n d c :
  is_u64 (counter c n + d) → (∀ m, is_u64 (counter c m)) → ∀ m, is_u64 (counter (bump_counter n d c) m).
Proof. intros Hd Hc m. rewrite counter_bump. by case_decide. Qed.

Lemma assert_unlocked_ok r now c u c' : assert_unlocked r now c = (Ok u, c') → c' = c.
Proof.
  unfold assert_unlocked, read_object_lock. intros Hrun. tx_step Hrun.
  by destruct (deletion_block_at _ _); tx_step Hb.
Qed.

(** Closes [moved] for states written out. *)
Ltac solve_u64 :=
  lazymatch goal with
  | |- ∀ n, is_u64 (counter (bump_counter _ _ _) n) => apply bump_counter_u64; [assumption|solve_u64]
  | |- ∀ n, is_u64 (counter (_ _ _) n) =>
      let n := fresh "n" in intros n; first
        [ rewrite counter_buckets | rewrite counter_names | rewrite counter_objects | rewrite counter_markers
        | rewrite counter_versions | rewrite counter_order | rewrite counter_nulls | rewrite counter_multipart
        | rewrite counter_morder | rewrite counter_parts | rewrite counter_cleanup | rewrite counter_usage
        | rewrite counter_rules | rewrite counter_locks | rewrite counter_events | rewrite counter_clock ];
      revert n; solve_u64
  | |- _ => first [assumption | apply inv_counters; assumption]
  end.
Ltac solve_moved :=
  split; [apply usage_ext; simpl; counters; lia|simpl; counters; lia|by counters|by counters|solve_u64].

(** Inverts every successful run in the context. *)
Ltac tx_all :=
  repeat match goal with
  | Hrun : adjust_counter _ _ _ = (Ok _, _) |- _ => apply adjust_counter_ok in Hrun as [-> ?]
  | Hrun : assert_unlocked _ _ _ = (Ok _, _) |- _ => apply assert_unlocked_ok in Hrun as ->
  | Hrun : _ = (Ok _, _) |- _ => progress tx_step Hrun
  end.

Section CatalogSteps.
Context `{UuidCrate}.

Lemma journal_event_ok ty b k v sz at_ c u c' :
  journal_event ty b k v sz at_ c = (Ok u, c') →
  ∃ e, let next := counter c MUTATION_EVENT_SEQUENCE + 1 in
    e_sequence e = next ∧ is_u64 next ∧
    c' = upd_events <[next := e]> (upd_counters <[MUTATION_EVENT_SEQUENCE := next]> c).
Proof.
  unfold journal_event. intros Hrun. tx_step Hrun. apply u64_checked_Some in E as [-> Hu].
  eexists. split_and!; [|done|done]. done.
Qed.

Lemma journal_extend J last e :
  journal_ok J last → e_sequence e = last + 1 → journal_ok (<[last + 1 := e]> J) (last + 1).
Proof.
  intros (Hl & pruned & Hp & Hdom & Hseq) He. split; [lia|]. exists (Z.min pruned last).
  split_and!; [lia| |].
  - intros s. destruct (decide (s = last + 1)) as [->|Hne].
    + rewrite lookup_insert_eq. split; [lia|by eauto].
    + rewrite lookup_insert_ne by done. rewrite Hdom. lia.
  - intros s e' [[<- <-]|[_ He']]%lookup_insert_Some; [done|by apply Hseq].
Qed.

(** Journalling an event touches the journal and its own counter only. *)
Lemma journalled_inv c e :
  let next := counter c MUTATION_EVENT_SEQUENCE + 1 in
  Inv c → e_sequence e = next → is_u64 next →
  Inv (upd_events <[next := e]> (upd_counters <[MUTATION_EVENT_SEQUENCE := next]> c)).
Proof.
  intros next Hinv He Hu. destruct Hinv. split; try done.
  - rewrite counter_events, counter_upd, decide_True by done. by apply journal_extend.
  - intros n. rewrite counter_events, counter_upd. case_decide; [done|by auto].
  - eapply books_ext; [done|done|]. unfold totals. rewrite !counter_events. by counters.
  - rewrite counter_events. by counters.
  - rewrite !counter_events. by counters.
Qed.

Lemma journal_event_inv ty b k v sz at_ c u c' :
  Inv c → journal_event ty b k v sz at_ c = (Ok u, c') → Inv c'.
Proof. intros Hinv (e & He & Hu & ->)%journal_event_ok. by apply journalled_inv. Qed.

Lemma journal_iter_inv b k v sz at_ l c u c' :
  Inv c → tx_iter (λ ty, journal_event ty b k v sz at_) l c = (Ok u, c') → Inv c'.
Proof.
  revert c. induction l as [|ty l IH]; intros c Hinv Hrun; cbn [tx_iter] in Hrun.
  - by apply tx_ret_ok in Hrun as [_ ->].
  - tx_step Hrun. eapply IH; [|eassumption]. by eapply journal_event_inv.
Qed.

Lemma take_null_ok bucket key c ro c' :
  Inv c → take_null bucket key c = (Ok ro, c') →
  c' = upd_nulls (delete (object_key bucket key)) c ∧
  replaces (VERSIONS c) (NULL_VERSIONS c) true (object_key bucket key) ro.
Proof.
  intros Hinv Hrun. unfold take_null in Hrun. tx_step Hrun.
  destruct (NULL_VERSIONS c !! object_key bucket key) as [id|] eqn:Hid; tx_step Hb0.
  - split; [done|]. simpl in *. subst.
    destruct (null_lookup (inv_versions _ Hinv) _ _ Hid) as (r & Hr & Hn & Hk & Hv).
    rewrite Hr in E. by simplify_eq.
  - by split; [|simpl].
Qed.

(** Dropping the replaced version, with its lock. *)
Lemma drop_replaced_ok ro now c u c' :
  match ro with
  | Some record =>
      lock ← read_object_lock (version_id record);
      match deletion_block_at lock now with
      | Some block => tx_throw (VersionLocked block)
      | None => mret ()
      end;;
      remove_object_lock (version_id record);;
      remove_version record
  | None => mret ()
  end c = (Ok u, c') →
  c' = upd_order (odrop ro) (upd_versions (vdrop ro) (upd_locks (vdrop ro) c)).
Proof.
  destruct ro as [r|]; intros Hrun.
  - unfold read_object_lock, remove_object_lock, remove_version in Hrun. tx_step Hrun.
    destruct (deletion_block_at _ _); tx_step Ha. done.
  - apply tx_ret_ok in Hrun as [_ ->]. by destruct c.
Qed.

Definition locked_with (b : Bucket) (v : bytes) (f : gmap bytes ObjectLockState → gmap bytes ObjectLockState) : Prop :=
  (∀ L, f L = L) ∨
  ∃ s, is_unlocked s = false ∧ b_object_lock b ≠ None ∧ ∀ L, f L = <[v := s]> L.

Lemma is_some_ne {A} (o : option A) : is_some o = true → o ≠ None.
Proof. by destruct o. Qed.

Lemma put_lock_ok lo b v c u c' :
  match lo with
  | Some state =>
      if is_unlocked state then mret ()
      else tx_guard (is_some (b_object_lock b)) ObjectLockNotEnabled;; write_object_lock v state
  | None => mret ()
  end c = (Ok u, c') →
  ∃ f, c' = upd_locks f c ∧ locked_with b v f.
Proof.
  assert (Hid : c = upd_locks (λ L, L) c) by by destruct c.
  destruct lo as [s|]; [|intros [_ ->]%tx_ret_ok; exists (λ L, L); by split; [|left]].
  destruct (is_unlocked s) eqn:Hs; [intros [_ ->]%tx_ret_ok; exists (λ L, L); by split; [|left]|].
  intros Hrun. unfold write_object_lock in Hrun. rewrite Hs in Hrun. tx_step Hrun.
  eexists. split; [done|]. right. exists s. split_and!; [done|by apply is_some_ne|done].
Qed.

(** Queueing what a replaced version leaves behind. *)
Definition queued (mo : option ObjectMetadata) (t : gmap bytes Z) : gmap bytes Z :=
  match mo with Some m => <[o_id m := 1]> t | None => t end.

Lemma queue_option_ok mo c u c' :
  tx_iter (λ old, queue_cleanup (o_id old)) (option_list mo) c = (Ok u, c') →
  c' = upd_cleanup (queued mo) c.
Proof.
  intros Hrun. unfold queue_cleanup in Hrun. destruct mo as [m|]; simpl in Hrun; tx_step Hrun.
  - done.
  - by destruct c.
Qed.

Definition not_enabled (b : Bucket) : bool := negb (bool_decide (b_versioning b = Enabled)).

(** The tables a successful put leaves, before its counters, its cleanup and
    its events. *)
Definition put_rows (m : ObjectMetadata) (null : bool) (ro : option ObjectVersionRecord)
    (f : gmap bytes ObjectLockState → gmap bytes ObjectLockState) (usage : BucketUsage)
    (c : Catalog) : Catalog :=
  let key := object_key (o_bucket_id m) (o_key m) in
  let record := ObjectRecord m null in
  upd_usage <[o_bucket_id m := usage]> (upd_markers (delete key) (upd_objects <[key := m]>
    (upd_nulls (λ t, if null then <[key := o_version_id m]> (delete key t) else t)
    (upd_order (λ t, <[version_order_key record := o_version_id m]> (odrop ro t))
    (upd_versions (λ t, <[o_version_id m := record]> (vdrop ro t))
    (upd_locks (λ t, f (vdrop ro t)) c)))))).

Definition put_counters (m : ObjectMetadata) (prev : option ObjectMetadata)
    (ro : option ObjectVersionRecord) (c : Catalog) : Catalog :=
  let removed_bytes := size_or_zero (ro ≫= as_object) in
  bump_counter PHYSICAL_BYTES (o_size m - removed_bytes)
    (bump_counter VERSION_BYTES (o_size m - removed_bytes)
    (bump_counter VERSION_COUNT (1 - of_bool (is_some ro))
    (bump_counter LOGICAL_BYTES (o_size m - size_or_zero prev)
    (bump_counter OBJECT_COUNT (of_bool (is_none prev)) c)))).

(** What the usage row becomes. *)
Definition put_usage (m : ObjectMetadata) (prev : option ObjectMetadata)
    (ro : option ObjectVersionRecord) (u : BucketUsage) : BucketUsage :=
  {| current_objects := u64_add (current_objects u) (of_bool (is_none prev));
     logical_bytes := logical_bytes u - size_or_zero prev + o_size m;
     versions := u64_add (u64_sub (versions u) (of_bool (is_some ro))) 1;
     version_bytes := version_bytes u - size_or_zero (ro ≫= as_object) + o_size m;
     multipart_bytes := multipart_bytes u |}.

(** The events a put journals. *)
Definition put_events (origin : WriteOrigin) (prev : option ObjectMetadata) : list StorageEventType :=
  let created_or_updated := if is_none prev then ObjectCreated else ObjectUpdated in
  match origin with
  | MultipartCompletion => [MultipartCompleted]
  | Restore => [created_or_updated; ObjectRestored]
  | Direct | Copy => [created_or_updated]
  end.

Lemma checked_update a b d r :
  (v ← u64_checked_sub a b; u64_checked_add v d) = Some r → r = a - b + d.
Proof.
  unfold u64_checked_sub, u64_checked_add. destruct (u64_checked (a - b)) as [v|] eqn:Hv; [|done].
  simpl. apply u64_checked_Some in Hv as [-> _]. by intros [-> _]%u64_checked_Some.
Qed.

(** The replaced version is taken out of the null index when the write is null. *)
Lemma put_take_null_ok b m c ro c' :
  Inv c →
  (if not_enabled b then take_null (o_bucket_id m) (o_key m) else mret None) c = (Ok ro, c') →
  let key := object_key (o_bucket_id m) (o_key m) in
  c' = upd_nulls (ndrop (not_enabled b) key) c ∧
  replaces (VERSIONS c) (NULL_VERSIONS c) (not_enabled b) key ro.
Proof.
  intros Hinv Hrun. destruct (not_enabled b).
  - by apply take_null_ok in Hrun.
  - apply tx_ret_ok in Hrun as [-> ->]. split; [by destruct c|done].
Qed.

Lemma counter_put_rows m null ro f usage c n : counter (put_rows m null ro f usage c) n = counter c n.
Proof. done. Qed.

Lemma put_object_ok m lo origin c cl c' :
  Inv c → put_object_tx m lo origin c = (Ok cl, c') →
  ∃ b ro f c1,
    let key := object_key (o_bucket_id m) (o_key m) in
    let prev := OBJECTS c !! key in
    let usage := put_usage m prev ro (usage_of c (o_bucket_id m)) in
    BUCKETS c !! o_bucket_id m = Some b ∧
    replaces (VERSIONS c) (NULL_VERSIONS c) (not_enabled b) key ro ∧
    locked_with b (o_version_id m) f ∧
    bytes_allows (quota_bytes (b_quota b))
      (u64_saturating_add (version_bytes usage) (multipart_bytes usage)) = true ∧
    objects_allows (quota_objects (b_quota b)) (current_objects usage) = true ∧
    c1 = upd_cleanup (queued (ro ≫= as_object))
           (put_counters m prev ro (put_rows m (not_enabled b) ro f usage c)) ∧
    (∀ n, is_u64 (counter c1 n)) ∧
    cl = option_list (ro ≫= as_object) ∧
    tx_iter (λ ty, journal_event ty (b_name b) (Some (o_key m))
      (Some (o_version_id m)) (Some (o_size m)) (o_created_at m)) (put_events origin prev) c1
    = (Ok (), c').
Proof.
  intros Hinv Hrun. unfold put_object_tx, read_bucket, read_bucket_usage in Hrun. tx_step Hrun.
  apply (put_take_null_ok a m c a0 s Hinv) in Ha as [-> Hro].
  change (usage_of (upd_nulls _ _)) with (usage_of c) in *.
  apply checked_update in E0 as ->. apply checked_update in E1 as ->.
  apply andb_true_iff in E2 as [Hqb Hqo].
  apply drop_replaced_ok in Ha0 as ->. unfold insert_version in Ha1. tx_step Ha1.
  apply put_lock_ok in Ha2 as (f & -> & Hf). unfold set_null, write_bucket_usage in *.
  tx_step Ha4. apply queue_option_ok in Ha10.
  assert (Hrows : upd_usage <[o_bucket_id m :=
      put_usage m (OBJECTS c !! object_key (o_bucket_id m) (o_key m)) a0 (usage_of c (o_bucket_id m))]>
      (upd_markers (delete (object_key (o_bucket_id m) (o_key m)))
         (upd_objects <[object_key (o_bucket_id m) (o_key m) := m]> s3)) =
    put_rows m (not_enabled a) a0 f
      (put_usage m (OBJECTS c !! object_key (o_bucket_id m) (o_key m)) a0 (usage_of c (o_bucket_id m))) c).
  { fold (not_enabled a) in Ha3. destruct (not_enabled a); tx_step Ha3; done. }
  unfold bucket_key in *. unfold put_usage in Hrows at 1. rewrite Hrows in Ha5.
  apply adjust_counter_ok in Ha5 as [-> Hu1], Ha6 as [-> Hu2], Ha7 as [-> Hu3], Ha8 as [-> Hu4],
    Ha9 as [-> Hu5].
  exists a, a0, f, s10. split_and!; try done; [|by destruct a17].
  subst s10. intros n. rewrite counter_cleanup. revert n. unfold put_counters.
  do 5 (apply bump_counter_u64; [done|]). intros n. rewrite counter_put_rows. apply Hinv.
Qed.

Lemma usage_upd id u c c' b :
  BUCKET_USAGE c' = <[id := u]> (BUCKET_USAGE c) →
  usage_of c' b = if decide (b = id) then u else usage_of c b.
Proof.
  unfold usage_of, bucket_key. intros ->. case_decide; subst.
  - by rewrite lookup_insert_eq.
  - by rewrite lookup_insert_ne.
Qed.

(** A command that changes one bucket's row by [d] and the counters by [d], with
    arithmetic that wraps, keeps the books. *)
Lemma finish_books c c' id u d :
  versions_ok (BUCKETS c') (VERSIONS c') (VERSION_ORDER c') (NULL_VERSIONS c') (OBJECT_LOCKS c') →
  current_ok (VERSIONS c') (OBJECTS c') (MARKERS c') →
  multipart_ok (BUCKETS c') (MULTIPART c') (MULTIPART_ORDER c') (PARTS c') →
  books (bump id d (usage_of c)) (uplus (totals c) d) (OBJECTS c') (VERSIONS c') (MULTIPART c') (PARTS c') →
  totals c' = uplus (totals c) d → (∀ n, is_u64 (counter c' n)) →
  BUCKET_USAGE c' = <[id := u]> (BUCKET_USAGE c) →
  (fits (uplus (usage_of c id) d) → u = uplus (usage_of c id) d) →
  books (usage_of c') (totals c') (OBJECTS c') (VERSIONS c') (MULTIPART c') (PARTS c').
Proof.
  intros Hv Hc Hm Hb Ht Hu Hrow Hexact. rewrite <-Ht in Hb. eapply books_ext; [exact Hb| |done].
  intros b. rewrite (usage_upd _ _ _ _ _ Hrow). pose proof (usage_fits _ _ _ _ _ _ _ _ _ _ _ _ Hv Hc Hm Hb Hu b) as Hfit.
  unfold bump in *. case_decide; subst; auto.
Qed.

Lemma finish_quotas c c' id u :
  Inv c → BUCKETS c' = BUCKETS c → BUCKET_USAGE c' = <[id := u]> (BUCKET_USAGE c) →
  (∀ b, BUCKETS c !! id = Some b → bytes_allows (quota_bytes (b_quota b))
     (u64_saturating_add (version_bytes u) (multipart_bytes u)) = true) →
  quotas_ok (BUCKETS c') (usage_of c').
Proof.
  intros Hinv -> Hrow Hq i b Hb. rewrite (usage_upd _ _ _ _ _ Hrow). case_decide; subst; [by auto|].
  by apply (inv_quotas _ Hinv).
Qed.

Lemma replaces_row V N null k ro r :
  replaces V N null k ro → ro = Some r → V !! version_id r = Some r ∧ rkey r = k.
Proof. intros Hr ->. by destruct Hr as (_ & ? & _ & ?). Qed.

Lemma replaces_bucket B V ORD N L null b k ro r :
  versions_ok B V ORD N L → uuid_ok b → key_ok k → replaces V N null (object_key b k) ro →
  ro = Some r → V !! version_id r = Some r ∧ record_bucket r = b.
Proof.
  intros Hok Hb Hk Hro Hr. destruct (replaces_row _ _ _ _ _ _ Hro Hr) as [Hv Heq].
  split; [done|]. destruct (versions_record Hok _ _ Hv) as (_ & [Hl _] & _).
  apply object_key_inj in Heq as [? _]; [done|]. destruct Hb. congruence.
Qed.

(** The lock a put may give its version. *)
Lemma versions_locked_with B V ORD N L b m f :
  versions_ok B V ORD N L → locked_with b (o_version_id m) f → B !! o_bucket_id m = Some b →
  (b_object_lock b ≠ None → V !! o_version_id m = Some (ObjectRecord m false)) →
  versions_ok B V ORD N (f L).
Proof.
  intros Hok [Hf|(s & Hs & Hl & Hf)] Hb Hv; rewrite Hf; [done|].
  apply (versions_lock Hok _ m b); auto.
Qed.

(** A bucket with Object Lock is versioned. *)
Lemma locked_enabled c id b :
  Inv c → BUCKETS c !! id = Some b → b_object_lock b ≠ None → not_enabled b = false.
Proof.
  intros Hinv Hb Hl. apply (bucket_row _ _ (inv_buckets _ Hinv)) in Hb as (_ & _ & _ & Hv).
  unfold not_enabled. by rewrite bool_decide_true by auto.
Qed.

Lemma payloads_replace V P CL ro :
  payloads_ok V P CL → (∀ r, ro = Some r → V !! version_id r = Some r) →
  payloads_ok (vdrop ro V) P (queued (ro ≫= as_object) CL).
Proof.
  intros Hok Hro. destruct ro as [r|]; simpl; [|done]. specialize (Hro _ eq_refl).
  assert (Hd : payloads_ok (delete (version_id r) V) P CL).
  { eapply payloads_fewer; [exact Hok| |done|done]. by intros ? ? [_ ?]%lookup_delete_Some. }
  destruct (as_object r) as [m|] eqn:Hm; simpl; [|done].
  apply payloads_queue; [done|]. by eapply version_unreferenced.
Qed.

Section Put.
Context (c : Catalog) (m : ObjectMetadata) (b : Bucket) (ro : option ObjectVersionRecord)
        (f : gmap bytes ObjectLockState → gmap bytes ObjectLockState).
Let key := object_key (o_bucket_id m) (o_key m).
Let null := not_enabled b.
Hypothesis Hinv : Inv c.
Hypothesis Hm : record_ok (ObjectRecord m false).
Hypothesis Hsize : is_u64 (o_size m).
Hypothesis Hv : VERSIONS c !! o_version_id m = None.
Hypothesis Hb : BUCKETS c !! o_bucket_id m = Some b.
Hypothesis Hro : replaces (VERSIONS c) (NULL_VERSIONS c) null key ro.

Lemma put_versions :
  locked_with b (o_version_id m) f →
  versions_ok (BUCKETS c) (<[o_version_id m := ObjectRecord m null]> (vdrop ro (VERSIONS c)))
    (<[version_order_key (ObjectRecord m null) := o_version_id m]> (odrop ro (VERSION_ORDER c)))
    (if null then <[key := o_version_id m]> (delete key (NULL_VERSIONS c)) else NULL_VERSIONS c)
    (f (vdrop ro (OBJECT_LOCKS c))).
Proof.
  intros Hf. pose proof (versions_replace _ _ _ _ _ _ _ _ (inv_versions _ Hinv) Hro) as Hok.
  apply (versions_add (N := ndrop null key (NULL_VERSIONS c))) with (r := ObjectRecord m null) (b := b) in Hok; try done.
  - assert (Hn : b_object_lock b ≠ None → null = false) by by eapply locked_enabled.
    eapply (versions_locked_with _ _ _ _ _ b m f) in Hok; [|done|done|].
    + by destruct null.
    + intros Hl. rewrite <-(Hn Hl). apply lookup_insert_eq.
  - by apply vdrop_none.
  - by eapply locked_enabled.
  - intros Hn. change (is_null _) with null in Hn. rewrite Hn. apply ndrop_none.
Qed.

Lemma put_books :
  let prev := OBJECTS c !! key in
  let d := {| current_objects := of_bool (is_none prev); logical_bytes := o_size m - size_or_zero prev;
              versions := 1 - of_bool (is_some ro);
              version_bytes := o_size m - size_or_zero (ro ≫= as_object); multipart_bytes := 0 |} in
  books (bump (o_bucket_id m) d (usage_of c)) (uplus (totals c) d) (<[key := m]> (OBJECTS c))
    (<[o_version_id m := ObjectRecord m null]> (vdrop ro (VERSIONS c))) (MULTIPART c) (PARTS c).
Proof.
  pose proof (inv_books _ Hinv) as Hbooks. destruct Hm as (_ & Hmb & Hmk & _).
  apply (books_replace (V := VERSIONS c)) with (ro := ro) (bucket := o_bucket_id m) in Hbooks;
    [|intros r; by eapply replaces_bucket; [apply Hinv|..]].
  apply books_add_version with (r := ObjectRecord m null) in Hbooks; [|by apply vdrop_none].
  apply books_put_object with (k := key) (m := m) in Hbooks.
  - eapply books_ext; [exact Hbooks| |].
    + intros b'. unfold bump. simpl. case_decide; [|done]. usage_lia.
    + usage_lia.
  - intros m' Hm'. apply (object_row _ _ _ (inv_current _ Hinv)) in Hm' as (Heq & n & Hm').
    apply (versions_record (inv_versions _ Hinv)) in Hm' as (_ & [Hl _] & _). simpl in *.
    apply object_key_inj in Heq as [? _]; [done|]. destruct Hmb. congruence.
Qed.

Lemma put_payloads :
  payloads_ok (VERSIONS c) (PARTS c) (CLEANUP c) → unreferenced (VERSIONS c) (PARTS c) (o_id m) → CLEANUP c !! o_id m = None →
  payloads_ok (<[o_version_id m := ObjectRecord m null]> (vdrop ro (VERSIONS c))) (PARTS c)
    (queued (ro ≫= as_object) (CLEANUP c)).
Proof.
  intros Hown [Hpv Hpp] Hcl.
  apply payloads_add_version; [apply payloads_replace; [done|]| |by apply vdrop_none].
  - intros r Hr. by apply (replaces_row _ _ _ _ _ _ Hro).
  - intros m' [= <-]. split; [split; [|done]|].
    + intros v r m'' Hr%vdrop_lookup. by apply Hpv with v.
    + destruct ro as [r|]; simpl; [|done]. destruct (as_object r) as [m'|] eqn:Hr; simpl; [|done].
      destruct (replaces_row _ _ _ _ _ r Hro eq_refl) as [Hrow _].
      rewrite lookup_insert_ne; [done|]. by eapply Hpv.
Qed.

Lemma put_inv c1 :
  let prev := OBJECTS c !! key in
  let usage := put_usage m prev ro (usage_of c (o_bucket_id m)) in
  locked_with b (o_version_id m) f →
  bytes_allows (quota_bytes (b_quota b))
    (u64_saturating_add (version_bytes usage) (multipart_bytes usage)) = true →
  (∀ n, is_u64 (counter c1 n)) →
  c1 = upd_cleanup (queued (ro ≫= as_object)) (put_counters m prev ro (put_rows m null ro f usage c)) →
  Inv c1.
Proof.
  intros prev usage Hf Hq Hu Hc1. pose proof (put_versions Hf) as Hver.
  assert (Hcur := current_put _ _ _ ro key m null (inv_current _ Hinv)
    (λ r, replaces_row _ _ _ _ _ r Hro) eq_refl Hv).
  assert (Hcnt : ∀ n, counter c1 n = counter (put_counters m prev ro c) n).
  { intros n. subst c1. rewrite counter_cleanup. unfold put_counters. by rewrite !counter_bump, counter_put_rows. }
  split; try by (subst c1; try done; apply Hinv).
  - rewrite Hcnt. unfold put_counters. counters. subst c1. apply Hinv.
  - eapply (finish_books c c1 (o_bucket_id m) usage); try by (subst c1; try done; apply Hinv).
    + subst c1. apply put_books.
    + apply usage_ext; simpl; rewrite Hcnt; unfold put_counters; counters; subst prev; lia.
    + intros Hfit. apply usage_exact; [done|..]; simpl; fold prev; wraps.
  - rewrite Hcnt. unfold put_counters. counters. subst c1. apply Hinv.
  - rewrite !Hcnt. unfold put_counters. counters. rewrite (inv_physical _ Hinv). lia.
  - apply (finish_quotas c c1 (o_bucket_id m) usage); try by subst c1. intros b' Hb'. by simplify_eq.
Qed.
End Put.

Lemma put_object_inv m lo origin c cl c' :
  Inv c → record_ok (ObjectRecord m false) → is_u64 (o_size m) →
  VERSIONS c !! o_version_id m = None →
  put_object_tx m lo origin c = (Ok cl, c') → Inv c'.
Proof.
  intros Hinv Hm Hsize Hv Hrun.
  destruct (put_object_ok _ _ _ _ _ _ Hinv Hrun) as (b & ro & f & c1 & Hb & Hro & Hf & Hq & _ & Hc1 & Hu & _ & Hj).
  eapply journal_iter_inv; [|exact Hj]. by eapply put_inv.
Qed.

(** ** Deleting an object *)

(** The row removed and the counters that go with it. *)
Definition drop_delta (ro : option ObjectVersionRecord) : BucketUsage :=
  {| current_objects := 0; logical_bytes := 0; versions := - of_bool (is_some ro);
     version_bytes := - size_or_zero (ro ≫= as_object); multipart_bytes := 0 |}.

Definition hide_delta (prev : option ObjectMetadata) : BucketUsage :=
  {| current_objects := - of_bool (is_some prev); logical_bytes := - size_or_zero prev;
     versions := 0; version_bytes := 0; multipart_bytes := 0 |}.

Definition drop_rows (null : bool) (key : bytes) (ro : option ObjectVersionRecord) (c : Catalog) : Catalog :=
  upd_nulls (ndrop null key) (upd_order (odrop ro) (upd_versions (vdrop ro) (upd_locks (vdrop ro) c))).

(** How a command moves the counters: by [d] in the shape of a usage row, with
    the physical bytes following the version bytes; the journal's and the
    bucket counter stay. *)
Record moved (c c' : Catalog) (d : BucketUsage) : Prop := {
  moved_totals : totals c' = uplus (totals c) d;
  moved_physical : counter c' PHYSICAL_BYTES = counter c PHYSICAL_BYTES + version_bytes d;
  moved_buckets : counter c' BUCKET_COUNT = counter c BUCKET_COUNT;
  moved_sequence : counter c' MUTATION_EVENT_SEQUENCE = counter c MUTATION_EVENT_SEQUENCE;
  moved_u64 : ∀ n, is_u64 (counter c' n)
}.

Lemma moved_trans c c1 c2 d1 d2 : moved c c1 d1 → moved c1 c2 d2 → moved c c2 (uplus d1 d2).
Proof.
  intros [H1 H2 H3 H4 _] [H1' H2' H3' H4' H5']. split; [| | | |done].
  - rewrite H1', H1. usage_lia.
  - simpl. lia.
  - lia.
  - lia.
Qed.

Lemma moved_refl c : Inv c → moved c c usage_default.
Proof. intros Hinv. split; [usage_lia|simpl; lia|done|done|apply Hinv]. Qed.

Lemma moved_eq c c' d d' : moved c c' d → d' = d → moved c c' d'.
Proof. by intros ? ->. Qed.

(** A command that leaves buckets, rules and the journal alone keeps the
    invariant when the rest is consistent and its arithmetic wrapped nothing. *)
Lemma finish_inv c c' id u d :
  Inv c → BUCKETS c' = BUCKETS c → BUCKET_NAMES c' = BUCKET_NAMES c →
  LIFECYCLE_RULES c' = LIFECYCLE_RULES c → MUTATION_EVENTS c' = MUTATION_EVENTS c →
  versions_ok (BUCKETS c) (VERSIONS c') (VERSION_ORDER c') (NULL_VERSIONS c') (OBJECT_LOCKS c') →
  current_ok (VERSIONS c') (OBJECTS c') (MARKERS c') →
  multipart_ok (BUCKETS c) (MULTIPART c') (MULTIPART_ORDER c') (PARTS c') →
  books (bump id d (usage_of c)) (uplus (totals c) d) (OBJECTS c') (VERSIONS c') (MULTIPART c') (PARTS c') →
  moved c c' d → BUCKET_USAGE c' = <[id := u]> (BUCKET_USAGE c) →
  unear u (uplus (usage_of c id) d) →
  (u = uplus (usage_of c id) d → ∀ b, BUCKETS c !! id = Some b → bytes_allows (quota_bytes (b_quota b))
     (u64_saturating_add (version_bytes u) (multipart_bytes u)) = true) →
  Inv c'.
Proof.
  intros Hinv HB HN HR HE Hv Hc Hm Hb Hmv Hrow Hun Hq.
  assert (Hu : u = uplus (usage_of c id) d).
  { apply unear_fits; [done|]. rewrite <-(moved_totals _ _ _ Hmv) in Hb.
    assert (Hfit := usage_fits _ _ _ _ _ _ _ _ _ _ _ _ Hv Hc Hm Hb (moved_u64 _ _ _ Hmv) id).
    unfold bump in Hfit. by rewrite decide_True in Hfit. }
  destruct Hmv as [Ht Hph Hbc Hseq H64]. rewrite <-HB in Hv, Hm.
  split; rewrite ?HB, ?HN, ?HR, ?HE, ?Hseq, ?Hbc; try done; try apply Hinv.
  - by rewrite <-HB.
  - by rewrite <-HB.
  - by eapply finish_books.
  - apply (f_equal version_bytes) in Ht. simpl in Ht. rewrite Hph, Ht.
    by rewrite (inv_physical _ Hinv).
  - rewrite <-HB. eapply finish_quotas; eauto.
Qed.

(** Removing bytes cannot break a limit that held. *)
Lemma quota_shrinks c id u d b :
  Inv c → version_bytes d ≤ 0 → multipart_bytes d ≤ 0 → u = uplus (usage_of c id) d →
  BUCKETS c !! id = Some b →
  bytes_allows (quota_bytes (b_quota b))
    (u64_saturating_add (version_bytes u) (multipart_bytes u)) = true.
Proof.
  intros Hinv Hv Hm -> Hb. eapply bytes_allows_le; [|by apply (inv_quotas _ Hinv)].
  unfold u64_saturating_add. simpl. lia.
Qed.

(** What the books of a removed version become. *)
Lemma uncount_version_ok r u c u' c' :
  (∀ n, is_u64 (counter c n)) → uncount_version r u c = (Ok u', c') →
  c' = upd_cleanup (queued (as_object r)) (upd_counters (λ _, COUNTERS c') c) ∧
  moved c c' (drop_delta (Some r)) ∧ ∀ v, unear u v → unear u' (uplus v (drop_delta (Some r))).
Proof.
  intros Hu Hrun. unfold uncount_version, queue_cleanup in Hrun. unfold drop_delta. simpl.
  destruct (as_object r) as [m|] eqn:Hr; tx_all; simpl;
    (split_and!; [try done; by destruct c|solve_moved|]); intros v Hv; solve_unear.
Qed.

Lemma uncount_current_ok prev u c u' c' :
  (∀ n, is_u64 (counter c n)) → uncount_current prev u c = (Ok u', c') →
  c' = upd_counters (λ _, COUNTERS c') c ∧
  moved c c' (hide_delta prev) ∧ ∀ v, unear u v → unear u' (uplus v (hide_delta prev)).
Proof.
  intros Hu Hrun. unfold uncount_current in Hrun. unfold hide_delta.
  destruct prev as [m|]; tx_all; simpl;
    (split_and!; [try done; by destruct c|solve_moved|]); intros v Hv; solve_unear.
Qed.

Lemma moved_same c c' : COUNTERS c' = COUNTERS c → (∀ n, is_u64 (counter c n)) → moved c c' usage_default.
Proof.
  intros Heq Hu. assert (Hc : ∀ n, counter c' n = counter c n) by (intros; unfold counter; by rewrite Heq).
  split; [apply usage_ext; simpl; rewrite Hc; lia|simpl; rewrite Hc; lia|done|done|].
  intros n. by rewrite Hc.
Qed.

Lemma moved_base c c0 c' d : COUNTERS c0 = COUNTERS c → moved c0 c' d → moved c c' d.
Proof.
  intros Heq. assert (Hc : ∀ n, counter c0 n = counter c n) by (intros; unfold counter; by rewrite Heq).
  assert (Ht : totals c0 = totals c) by (unfold totals; by rewrite !Hc).
  intros [H1 H2 H3 H4 H5]. rewrite Ht in H1. rewrite Hc in H2, H3, H4. by split.
Qed.

Lemma moved_end c c' c1 d : COUNTERS c1 = COUNTERS c' → moved c c' d → moved c c1 d.
Proof.
  intros Heq. assert (Hc : ∀ n, counter c1 n = counter c' n) by (intros; unfold counter; by rewrite Heq).
  assert (Ht : totals c1 = totals c') by (unfold totals; by rewrite !Hc).
  intros [H1 H2 H3 H4 H5]. split; rewrite ?Ht, ?Hc; try done. intros n. by rewrite Hc.
Qed.

Lemma remove_null_record_ok bucket key now u c u' cl c' :
  Inv c → remove_null_record bucket key now u c = (Ok (u', cl), c') →
  ∃ ro, replaces (VERSIONS c) (NULL_VERSIONS c) true (object_key bucket key) ro ∧
    c' = upd_cleanup (queued (ro ≫= as_object))
           (upd_counters (λ _, COUNTERS c') (drop_rows true (object_key bucket key) ro c)) ∧
    cl = option_list (ro ≫= as_object) ∧ moved c c' (drop_delta ro) ∧
    ∀ v, unear u v → unear u' (uplus v (drop_delta ro)).
Proof.
  intros Hinv Hrun. unfold remove_null_record, remove_object_lock, remove_version in Hrun.
  tx_step Hrun. apply take_null_ok in Ha as [-> Hro]; [|done]. exists a. split; [done|]. destruct a as [r|].
  - tx_all. match goal with Hrun : uncount_version _ _ _ = _ |- _ =>
      apply uncount_version_ok in Hrun as (Hc & Hmv & Hun); [|apply (inv_counters _ Hinv)] end.
    simplify_eq. split_and!; [by rewrite Hc|done| |done]. by (eapply moved_base; [|exact Hmv]).
  - tx_all. simplify_eq. split_and!; [by destruct c|done|by (apply moved_same; [|apply Hinv])|].
    intros v Hv. solve_unear.
Qed.

(** The marker a delete leaves, where the bucket is or was versioned. *)
Definition marker_of (b : Bucket) (bucket key : bytes) (values : NewDeleteMarker) : option DeleteMarker :=
  if bool_decide (b_versioning b = Disabled) then None
  else Some {| m_version_id := marker_version_id values; m_bucket_id := bucket; m_key := key;
               m_created_at := marker_created_at values |}.

Definition add_marker_row (null : bool) (mk : option DeleteMarker) (t : gmap bytes ObjectVersionRecord) :=
  match mk with Some d => <[m_version_id d := MarkerRecord d null]> t | None => t end.
Definition add_marker_order (null : bool) (mk : option DeleteMarker) (t : gmap bytes bytes) :=
  match mk with Some d => <[version_order_key (MarkerRecord d null) := m_version_id d]> t | None => t end.
Definition add_marker_null (null : bool) (key : bytes) (mk : option DeleteMarker) (t : gmap bytes bytes) :=
  match mk with Some d => if null then <[key := m_version_id d]> t else t | None => t end.
Definition set_marker (key : bytes) (mk : option DeleteMarker) (t : gmap bytes DeleteMarker) :=
  match mk with Some d => <[key := d]> t | None => delete key t end.

Definition delete_rows (bucket key : bytes) (null : bool) (ro : option ObjectVersionRecord)
    (mk : option DeleteMarker) (usage : BucketUsage) (c : Catalog) : Catalog :=
  upd_usage <[bucket := usage]> (upd_markers (set_marker key mk) (upd_objects (delete key)
    (upd_nulls (λ t, add_marker_null null key mk (ndrop null key t))
    (upd_order (λ t, add_marker_order null mk (odrop ro t))
    (upd_versions (λ t, add_marker_row null mk (vdrop ro t))
    (upd_locks (vdrop ro) c)))))).

Definition marker_delta (mk : option DeleteMarker) : BucketUsage :=
  {| current_objects := 0; logical_bytes := 0; versions := of_bool (is_some mk); version_bytes := 0;
     multipart_bytes := 0 |}.
Definition delete_delta (ro : option ObjectVersionRecord) (mk : option DeleteMarker)
    (prev : option ObjectMetadata) : BucketUsage :=
  uplus (uplus (drop_delta ro) (marker_delta mk)) (hide_delta prev).

Lemma write_marker_ok key d null u c u' c' :
  (∀ n, is_u64 (counter c n)) → write_marker key d null u c = (Ok u', c') →
  c' = upd_markers <[key := d]> (upd_objects (delete key)
    (upd_nulls (add_marker_null null key (Some d)) (upd_order (add_marker_order null (Some d))
    (upd_versions (add_marker_row null (Some d)) (upd_counters (λ _, COUNTERS c') c))))) ∧
  moved c c' (marker_delta (Some d)) ∧ ∀ v, unear u v → unear u' (uplus v (marker_delta (Some d))).
Proof.
  intros Hu Hrun. unfold write_marker, insert_version, set_null in Hrun.
  destruct null; tx_all; (split_and!; [done|solve_moved|]); intros v Hv; solve_unear.
Qed.

Lemma delete_by_versioning_ok b bucket k values u c u' cl mk c' :
  let key := object_key bucket k in
  let null := not_enabled b in
  Inv c →
  delete_by_versioning bucket k values (b_versioning b) u c = (Ok (u', cl, mk), c') →
  mk = marker_of b bucket k values ∧ ∃ ro,
    replaces (VERSIONS c) (NULL_VERSIONS c) null key ro ∧
    c' = upd_cleanup (queued (ro ≫= as_object)) (upd_markers (set_marker key mk)
      (upd_objects (delete key) (upd_nulls (λ t, add_marker_null null key mk (ndrop null key t))
      (upd_order (λ t, add_marker_order null mk (odrop ro t))
      (upd_versions (λ t, add_marker_row null mk (vdrop ro t))
      (upd_locks (vdrop ro) (upd_counters (λ _, COUNTERS c') c))))))) ∧
    cl = option_list (ro ≫= as_object) ∧
    moved c c' (uplus (drop_delta ro) (marker_delta mk)) ∧
    unear u' (uplus u (uplus (drop_delta ro) (marker_delta mk))).
Proof.
  intros key null Hinv Hrun. subst null. unfold marker_of, not_enabled, delete_by_versioning in *.
  destruct (b_versioning b).
  - unfold remove_current in Hrun. tx_step Hrun. destruct a as [u1 cl1]. tx_all. simplify_eq.
    apply remove_null_record_ok in Ha as (ro & Hro & Hc & -> & Hmv & Hun); [|done].
    split; [done|]. exists ro. split_and!; [done|by rewrite Hc|done| |].
    + eapply moved_eq; [eapply moved_end; [|exact Hmv]; done|]. usage_lia.
    + pose proof (Hun _ (unear_refl _)) as Hu. solve_unear.
  - change (bool_decide (Enabled = Suspended)) with false in *.
    tx_step Hrun. destruct a as [u1 cl1]. tx_all. simplify_eq.
    match goal with Hw : write_marker _ _ _ _ _ = _ |- _ =>
      apply write_marker_ok in Hw as (Hc & Hmv & Hun); [|apply Hinv] end.
    split; [done|]. exists None. split_and!; [done|by rewrite Hc|done| |].
    + eapply moved_eq; [exact Hmv|]. usage_lia.
    + pose proof (Hun _ (unear_refl _)) as Hu. solve_unear.
  - change (bool_decide (Suspended = Suspended)) with true in *.
    tx_step Hrun. destruct a as [u1 cl1]. tx_all. simplify_eq.
    apply remove_null_record_ok in Ha as (ro & Hro & Hc1 & -> & Hmv1 & Hun1); [|done].
    match goal with Hw : write_marker _ _ _ _ _ = _ |- _ =>
      apply write_marker_ok in Hw as (Hc & Hmv & Hun); [|apply (moved_u64 _ _ _ Hmv1)] end.
    split; [done|]. exists ro. split_and!; [done|by rewrite Hc, Hc1|done| |].
    + by eapply moved_trans.
    + pose proof (Hun _ (Hun1 _ (unear_refl _))) as Hu. solve_unear.
Qed.


Lemma delete_object_ok bucket k values c res c' :
  Inv c → delete_object_tx bucket k values c = (Ok res, c') →
  ∃ b ro u c1,
    let key := object_key bucket k in
    let prev := OBJECTS c !! key in
    let mk := marker_of b bucket k values in
    BUCKETS c !! bucket = Some b ∧
    replaces (VERSIONS c) (NULL_VERSIONS c) (not_enabled b) key ro ∧
    c1 = upd_cleanup (queued (ro ≫= as_object))
           (upd_counters (λ _, COUNTERS c1) (delete_rows bucket key (not_enabled b) ro mk u c)) ∧
    unear u (uplus (usage_of c bucket) (delete_delta ro mk prev)) ∧
    moved c c1 (delete_delta ro mk prev) ∧
    res = {| delete_marker := mk; delete_cleanup := option_list (ro ≫= as_object);
             previously_visible := is_some prev |} ∧
    (c' = c1 ∧ mk = None ∧ prev = None ∨
     journal_event ObjectDeleted (b_name b) (Some k) (m_version_id <$> mk) None
       (marker_created_at values) c1 = (Ok (), c')).
Proof.
  intros Hinv Hrun. unfold delete_object_tx, read_bucket, read_bucket_usage in Hrun. tx_step Hrun.
  destruct a0 as [[u cl] mk]. tx_all.
  apply delete_by_versioning_ok in Ha as (-> & ro & Hro & Hs & -> & Hmv & Hun); [|done].
  match goal with Hw : uncount_current _ _ _ = _ |- _ =>
    apply uncount_current_ok in Hw as (Hs1 & Hmv1 & Hun1); [|apply (moved_u64 _ _ _ Hmv)] end.
  unfold write_bucket_usage in *. tx_all. exists a, ro, a0, (upd_usage <[bucket := a0]> s0). split_and!; try done.
  - rewrite Hs1 at 1. rewrite Hs at 1. done.
  - pose proof (Hun1 _ Hun) as Hu. unfold delete_delta. solve_unear.
  - eapply moved_end; [|eapply moved_trans; [exact Hmv|exact Hmv1]]. done.
  - cbn [previously_visible delete_marker] in Ha2. unfold delete_delta.
    destruct (is_some _ || _) eqn:Hj.
    + right. by destruct a2.
    + left. apply orb_false_iff in Hj as [Hp Hm]. tx_all. split_and!; [done| |].
      * by destruct (marker_of a bucket k values).
      * by destruct (OBJECTS c !! object_key bucket k).
Qed.

Section Delete.
Context (c : Catalog) (bucket k : bytes) (b : Bucket) (ro : option ObjectVersionRecord)
        (mk : option DeleteMarker).
Let key := object_key bucket k.
Let null := not_enabled b.
Let prev := OBJECTS c !! key.
Hypothesis Hinv : Inv c.
Hypothesis Huuid : uuid_ok bucket.
Hypothesis Hkey : key_ok k.
Hypothesis Hmk : ∀ d, mk = Some d → m_bucket_id d = bucket ∧ m_key d = k ∧
  record_ok (MarkerRecord d null) ∧ VERSIONS c !! m_version_id d = None.
Hypothesis Hb : BUCKETS c !! bucket = Some b.
Hypothesis Hro : replaces (VERSIONS c) (NULL_VERSIONS c) null key ro.

Lemma delete_versions :
  versions_ok (BUCKETS c) (add_marker_row null mk (vdrop ro (VERSIONS c)))
    (add_marker_order null mk (odrop ro (VERSION_ORDER c)))
    (add_marker_null null key mk (ndrop null key (NULL_VERSIONS c))) (vdrop ro (OBJECT_LOCKS c)).
Proof.
  pose proof (versions_replace _ _ _ _ _ _ _ _ (inv_versions _ Hinv) Hro) as Hok.
  destruct mk as [d|]; [|done]. destruct (Hmk d eq_refl) as (Hdb & Hdk & Hd & Hv).
  apply (versions_add (N := ndrop null key (NULL_VERSIONS c))) with (r := MarkerRecord d null) (b := b) in Hok.
  - unfold rkey in Hok. simpl in Hok. rewrite Hdb, Hdk in Hok. by destruct null.
  - by apply vdrop_none.
  - done.
  - done.
  - simpl. by rewrite Hdb.
  - by eapply locked_enabled.
  - intros Hn. change (is_null _) with null in Hn. unfold rkey. simpl. rewrite Hdb, Hdk, Hn. apply ndrop_none.
Qed.

Lemma delete_current :
  current_ok (add_marker_row null mk (vdrop ro (VERSIONS c))) (delete key (OBJECTS c))
    (set_marker key mk (MARKERS c)).
Proof.
  assert (Hok := current_replace _ _ _ ro key (inv_current _ Hinv) (λ r, replaces_row _ _ _ _ _ r Hro)).
  destruct mk as [d|]; [|done]. destruct (Hmk d eq_refl) as (Hdb & Hdk & Hd & Hv). simpl.
  rewrite <-(delete_delete_eq (OBJECTS c) key), <-(insert_delete_eq (MARKERS c) key d).
  eapply current_marker; [|apply lookup_insert_eq|by rewrite Hdb, Hdk].
  apply current_add; [done|by apply vdrop_none].
Qed.

Lemma object_bucket m : OBJECTS c !! key = Some m → o_bucket_id m = bucket.
Proof.
  intros Hm. apply (object_row _ _ _ (inv_current _ Hinv)) in Hm as (Heq & n & Hm).
  apply (versions_record (inv_versions _ Hinv)) in Hm as (_ & [Hl _] & _). simpl in *.
  apply object_key_inj in Heq as [? _]; [done|]. destruct Huuid. congruence.
Qed.

Lemma delete_books :
  books (bump bucket (delete_delta ro mk prev) (usage_of c)) (uplus (totals c) (delete_delta ro mk prev))
    (delete key (OBJECTS c)) (add_marker_row null mk (vdrop ro (VERSIONS c))) (MULTIPART c) (PARTS c).
Proof.
  pose proof (inv_books _ Hinv) as Hbooks.
  apply (books_replace (V := VERSIONS c)) with (ro := ro) (bucket := bucket) in Hbooks;
    [|intros r; by eapply replaces_bucket; [apply Hinv|..]].
  assert (Hadd : books (bump bucket (uplus (drop_delta ro) (marker_delta mk)) (usage_of c))
    (uplus (totals c) (uplus (drop_delta ro) (marker_delta mk)))
    (OBJECTS c) (add_marker_row null mk (vdrop ro (VERSIONS c))) (MULTIPART c) (PARTS c)).
  { destruct mk as [d|]; simpl.
    - destruct (Hmk d eq_refl) as (Hdb & _ & _ & Hv).
      apply books_add_version with (r := MarkerRecord d null) in Hbooks; [|by apply vdrop_none].
      eapply books_ext; [exact Hbooks| |usage_lia].
      intros b'. unfold bump. simpl. rewrite Hdb. case_decide; [|done]. usage_lia.
    - eapply books_ext; [exact Hbooks| |usage_lia].
      intros b'. unfold bump. case_decide; [|done]. usage_lia. }
  unfold delete_delta. destruct prev as [m|] eqn:Hprev.
  - apply (books_drop_object Hadd) in Hprev as Hdrop. rewrite (object_bucket _ Hprev) in Hdrop.
    eapply books_ext; [exact Hdrop| |usage_lia].
    intros b'. unfold bump. case_decide; [|done]. usage_lia.
  - rewrite delete_id by done. eapply books_ext; [exact Hadd| |usage_lia].
    intros b'. unfold bump. case_decide; [|done]. usage_lia.
Qed.
End Delete.

Lemma version_size c v r : Inv c → VERSIONS c !! v = Some r → 0 ≤ rsize r.
Proof.
  intros Hinv Hr. by apply (version_row _ _ _ _ _ (inv_versions _ Hinv)) in Hr as (_ & _ & [? _] & _).
Qed.

Lemma drop_delta_bytes c null key ro :
  Inv c → replaces (VERSIONS c) (NULL_VERSIONS c) null key ro → version_bytes (drop_delta ro) ≤ 0.
Proof.
  intros Hinv Hro. destruct ro as [r|]; simpl; [|lia].
  destruct (replaces_row _ _ _ _ _ r Hro eq_refl) as [Hr _].
  pose proof (version_size _ _ _ Hinv Hr) as Hs. unfold rsize in Hs. lia.
Qed.

Lemma delete_object_inv bucket k values c res c' :
  Inv c → uuid_ok bucket → key_ok k → uuid_ok (marker_version_id values) →
  time_ok (marker_created_at values) → VERSIONS c !! marker_version_id values = None →
  delete_object_tx bucket k values c = (Ok res, c') → Inv c'.
Proof.
  intros Hinv Hb Hk Hid Ht Hv Hrun.
  destruct (delete_object_ok _ _ _ _ _ _ Hinv Hrun) as (b & ro & u & c1 & Hbk & Hro & Hc1 & Hun & Hmv & _ & Hj).
  assert (Hmk : ∀ d, marker_of b bucket k values = Some d → m_bucket_id d = bucket ∧ m_key d = k ∧
    record_ok (MarkerRecord d (not_enabled b)) ∧ VERSIONS c !! m_version_id d = None).
  { unfold marker_of. intros d. case_bool_decide; [done|]. by intros [= <-]. }
  assert (Hinv1 : Inv c1).
  { generalize dependent (COUNTERS c1). intros cs ->. eapply finish_inv; try exact Hmv; try exact Hun; try done.
    - by apply (delete_versions c bucket k b).
    - by apply (delete_current c bucket k b).
    - apply Hinv.
    - by apply (delete_books c bucket k b).
    - intros Hu b' Hb'. eapply quota_shrinks; eauto; simpl.
      + apply (drop_delta_bytes _ _ _ _ Hinv) in Hro. simpl in Hro. lia.
      + lia. }
  destruct Hj as [[-> _]|Hj]; [done|by eapply journal_event_inv].
Qed.

(** ** Deleting a version *)

Lemma observe_clock_ok release c u c' :
  observe_clock release c = (Ok u, c') → ∃ f, c' = upd_clock f c.
Proof.
  unfold observe_clock. intros Hrun. tx_step Hrun.
  destruct (CLOCK c !! CLOCK_WATERMARK) as [mark|]; [destruct (mark <? _)|]; tx_all;
    [by eexists|exists (λ t, t); by destruct c|by eexists].
Qed.

Lemma enforce_deletable_ok v release c u c' :
  enforce_deletable v release c = (Ok u, c') → ∃ f, c' = upd_clock f c.
Proof.
  unfold enforce_deletable, read_object_lock. intros Hrun. tx_step Hrun.
  destruct (is_unlocked _); tx_all; [exists (λ t, t); by destruct c|].
  match goal with Hw : observe_clock _ _ = _ |- _ => apply observe_clock_ok in Hw as [f ->] end.
  exists f. destruct (deletion_block_at _ _); [|by tx_all]. destruct (_ && _); by tx_all.
Qed.

(** The current view of a key after a promotion. *)
Definition show_object (key : bytes) (next : option ObjectVersionRecord) (t : gmap bytes ObjectMetadata) :=
  match next with Some (ObjectRecord m _) => <[key := m]> (delete key t) | _ => delete key t end.
Definition show_marker (key : bytes) (next : option ObjectVersionRecord) (t : gmap bytes DeleteMarker) :=
  match next with Some (MarkerRecord d _) => <[key := d]> (delete key t) | _ => delete key t end.
Definition show_delta (next : option ObjectVersionRecord) : BucketUsage :=
  uopp (hide_delta (next ≫= as_object)).

(** The newest version of a key. *)
Definition newest (V : gmap bytes ObjectVersionRecord) (bucket k : bytes)
    (next : option ObjectVersionRecord) : Prop :=
  match next with
  | Some r => V !! version_id r = Some r ∧ record_bucket r = bucket ∧ record_key r = k ∧
      ∀ v' r', V !! v' = Some r' → record_bucket r' = bucket → record_key r' = k →
        order_micros (record_created_at r') ≤ order_micros (record_created_at r)
  | None => ∀ v r, V !! v = Some r → ¬ (record_bucket r = bucket ∧ record_key r = k)
  end.

Lemma latest_version_ok B N L bucket k c next c' :
  versions_ok B (VERSIONS c) (VERSION_ORDER c) N L → uuid_ok bucket → key_ok k →
  latest_version bucket k c = (Ok next, c') → c' = c ∧ newest (VERSIONS c) bucket k next.
Proof.
  intros Hok Hb Hk Hrun. unfold latest_version in Hrun. tx_step Hrun.
  destruct (head _) as [[kk v]|] eqn:Hh; tx_all; (split; [done|]).
  - apply (latest_row Hok) in Hh as (r & Hr & Hrb & Hrk & Hmax); [|done|done]. rewrite Hr.
    simpl. rewrite (versions_id Hok _ _ Hr). done.
  - apply head_None in Hh. exact (proj1 (latest_none Hok bucket k Hb Hk) Hh).
Qed.

Lemma promote_latest_ok B N L bucket k key u c u' c' :
  versions_ok B (VERSIONS c) (VERSION_ORDER c) N L → uuid_ok bucket → key_ok k →
  (∀ n, is_u64 (counter c n)) →
  promote_latest bucket k key u c = (Ok u', c') →
  ∃ next, newest (VERSIONS c) bucket k next ∧
    c' = upd_markers (show_marker key next) (upd_objects (show_object key next)
           (upd_counters (λ _, COUNTERS c') c)) ∧
    moved c c' (uplus (hide_delta (OBJECTS c !! key)) (show_delta next)) ∧
    ∀ v, unear u v → unear u' (uplus v (uplus (hide_delta (OBJECTS c !! key)) (show_delta next))).
Proof.
  intros Hok Hb Hk Hu Hrun. unfold promote_latest, remove_current in Hrun. tx_step Hrun.
  apply uncount_current_ok in Ha as (Hs & Hmv & Hun); [|done].
  generalize dependent (COUNTERS s). intros cs ->.
  eapply latest_version_ok in Ha0 as [-> Hnew]; [|by eapply Hok|done|done].
  set (s1 := upd_markers (delete key) _) in Hb1.
  assert (Hmv1 : moved c s1 (hide_delta (OBJECTS c !! key))) by (eapply moved_end; [|exact Hmv]; done).
  assert (Hu1 := moved_u64 _ _ _ Hmv1). exists a2. split; [done|].
  assert (Hrest : c' = upd_markers (show_marker key a2) (upd_objects (show_object key a2)
      (upd_counters (λ _, COUNTERS c') c)) ∧ moved s1 c' (show_delta a2) ∧
      ∀ v, unear a v → unear u' (uplus v (show_delta a2))).
  { destruct a2 as [[m n|d n]|]; simpl in Hb1; tx_all;
      (split_and!; [done|solve_moved|intros v Hv; unfold show_delta; solve_unear]). }
  destruct Hrest as (Hc' & Hmv2 & Hun2). split_and!; [done|by eapply moved_trans|].
  intros v Hv. pose proof (Hun2 _ (Hun _ Hv)) as Hw. solve_unear.
Qed.

Lemma record_matches_spec r bucket k :
  record_matches r bucket k = true → record_bucket r = bucket ∧ record_key r = k.
Proof. unfold record_matches. intros. by bool_facts. Qed.

Definition promoted (was_current : bool) (c : Catalog) (key : bytes) (next : option ObjectVersionRecord)
    : BucketUsage :=
  if was_current then uplus (hide_delta (OBJECTS c !! key)) (show_delta next) else usage_default.

Lemma clear_null_ok r c0 c u c' :
  Inv c → VERSIONS c !! version_id r = Some r → NULL_VERSIONS c0 = NULL_VERSIONS c →
  (if is_null r then clear_null (rkey r) (version_id r) else mret ()) c0 = (Ok u, c') →
  c' = upd_nulls (ndrop (is_null r) (rkey r)) c0.
Proof.
  intros Hinv Hr Heq Hrun. destruct (is_null r) eqn:Hn.
  - unfold clear_null in Hrun. tx_step Hrun. rewrite Heq in *.
    assert (Hnull : NULL_VERSIONS c !! rkey r = Some (version_id r))
      by (apply (null_row _ _ _ _ _ (inv_versions _ Hinv)); eauto).
    rewrite bool_decide_true in Hb by done. by tx_all.
  - tx_all. by destruct c0.
Qed.

Lemma delete_object_version_ok bucket k version release c res c' :
  Inv c → uuid_ok bucket → key_ok k →
  delete_object_version_tx bucket k version release c = (Ok res, c') →
  (c' = c ∧ res = None) ∨
  ∃ r f next u c1,
    let key := object_key bucket k in
    let was_current := bool_decide (current_version_of c key = Some version) in
    let d := uplus (drop_delta (Some r)) (promoted was_current c key next) in
    VERSIONS c !! version = Some r ∧ record_bucket r = bucket ∧ record_key r = k ∧
    enforce_deletable version release c = (Ok (), upd_clock f c) ∧
    (was_current = true → newest (delete version (VERSIONS c)) bucket k next) ∧
    c1 = upd_clock f (upd_usage <[bucket := u]> (upd_cleanup (queued (as_object r))
           (upd_markers (if was_current then show_marker key next else id)
           (upd_objects (if was_current then show_object key next else id)
           (upd_counters (λ _, COUNTERS c1) (drop_rows (is_null r) key (Some r) c)))))) ∧
    unear u (uplus (usage_of c bucket) d) ∧ moved c c1 d ∧
    res = Some {| removed := r; version_cleanup := as_object r |} ∧
    ∃ b, BUCKETS c !! bucket = Some b ∧
      journal_event ObjectDeleted (b_name b) (Some k) (Some version) None (observed_at release) c1
      = (Ok (), c').
Proof.
  intros Hinv Hb Hk Hrun. unfold delete_object_version_tx in Hrun. tx_step Hrun.
  destruct (VERSIONS c !! version) as [r|] eqn:Hr; [|tx_all; by left].
  destruct (record_matches r bucket k) eqn:Hm; simpl in Hb0; [|tx_all; by left]. right.
  apply record_matches_spec in Hm as [Hrb Hrk].
  unfold current_version, remove_object_lock, remove_version, read_bucket_usage, write_bucket_usage, read_bucket in Hb0.
  tx_step Hb0.
  assert (Hv : version_id r = version) by by eapply (versions_id (inv_versions _ Hinv)).
  destruct (enforce_deletable_ok _ _ _ _ _ Ha) as [f ->]. destruct a.
  subst version. apply (clear_null_ok r _ c) in Ha0 as ->; [|done|done|done].
  change (current_version_of (upd_clock f c)) with (current_version_of c) in Ha2.
  apply uncount_version_ok in Ha1 as (Hs1 & Hmv1 & Hun1); [|apply (inv_counters _ Hinv)].
  eapply moved_base with (c := c) in Hmv1; [|done]. specialize (Hun1 _ (unear_refl _)).
  change (usage_of (upd_nulls _ _)) with (usage_of c) in Hun1. exists r, f.
  assert (Hpro : ∃ next,
    let key := object_key (record_bucket r) (record_key r) in
    let was_current := bool_decide (current_version_of c key = Some (version_id r)) in
    (was_current = true → newest (delete (version_id r) (VERSIONS c)) (record_bucket r) (record_key r) next) ∧
    s2 = upd_markers (if was_current then show_marker key next else id)
           (upd_objects (if was_current then show_object key next else id)
           (upd_counters (λ _, COUNTERS s2) s1)) ∧
    moved c s2 (uplus (drop_delta (Some r)) (promoted was_current c key next)) ∧
    unear a5 (uplus (usage_of c (record_bucket r))
       (uplus (drop_delta (Some r)) (promoted was_current c key next)))).
  { unfold promoted. case_bool_decide.
    - eapply promote_latest_ok in Ha2 as (next & Hnew & Hs2 & Hmv2 & Hun2); cycle 1.
      + generalize dependent (COUNTERS s1). intros cs ->. simpl. apply (versions_drop (inv_versions _ Hinv) r Hr).
      + done.
      + done.
      + apply (moved_u64 _ _ _ Hmv1).
      + assert (Hob : OBJECTS s1 = OBJECTS c) by by rewrite Hs1.
        assert (Hvv : VERSIONS s1 = delete (version_id r) (VERSIONS c)) by by rewrite Hs1.
        rewrite Hob in Hmv2, Hun2. rewrite Hvv in Hnew. exists next. split_and!; [done|done|by eapply moved_trans|].
        specialize (Hun2 _ Hun1). unear_from Hun2.
    - tx_all. exists None. split_and!; [done|by destruct s1| |].
      + eapply moved_eq; [exact Hmv1|]. usage_lia.
      + solve_unear. }
  destruct Hpro as (next & Hnew & Hs2 & Hmv2 & Hun2).
  exists next, a5, (upd_usage <[record_bucket r := a5]> s2).
  assert (HB : BUCKETS s2 = BUCKETS c) by by rewrite Hs2, Hs1.
  destruct (version_row _ _ _ _ _ (inv_versions _ Hinv) _ _ Hr) as (_ & _ & _ & b & Hbk & _).
  split_and!; try done.
  - rewrite Hs2 at 1. rewrite Hs1 at 1. done.
  - by eapply moved_end; [|exact Hmv2].
  - exists b. split; [done|]. unfold bucket_key in Ha3. cbn [upd_usage BUCKETS] in Ha3.
    rewrite HB, Hbk in Ha3. by destruct a7.
Qed.

Lemma promoted_current c bucket k r next :
  Inv c → VERSIONS c !! version_id r = Some r → rkey r = object_key bucket k →
  newest (delete (version_id r) (VERSIONS c)) bucket k next →
  current_ok (delete (version_id r) (VERSIONS c))
    (show_object (object_key bucket k) next (OBJECTS c)) (show_marker (object_key bucket k) next (MARKERS c)).
Proof.
  intros Hinv Hr Hk Hnew.
  assert (Hok := current_replace _ _ _ (Some r) _ (inv_current _ Hinv)
    (λ r' (Heq : Some r = Some r'), eq_ind r (λ r', VERSIONS c !! version_id r' = Some r' ∧ rkey r' = _)
       (conj Hr Hk) r' (f_equal (default r) Heq))).
  simpl in Hok. destruct next as [[m n|d n]|]; simpl; [| |done]; destruct Hnew as (Hv & Hb & Hkey & _).
  - rewrite <-(delete_delete_eq (MARKERS c)). eapply current_object; [done|exact Hv|].
    simpl in Hb, Hkey. by rewrite Hb, Hkey.
  - rewrite <-(delete_delete_eq (OBJECTS c)). eapply current_marker; [done|exact Hv|].
    simpl in Hb, Hkey. by rewrite Hb, Hkey.
Qed.

Lemma promoted_books usage total c V U P bucket k next :
  Inv c → uuid_ok bucket →
  books usage total (OBJECTS c) V U P → newest V bucket k next →
  let key := object_key bucket k in
  let d := promoted true c key next in
  books (bump bucket d usage) (uplus total d) (show_object key next (OBJECTS c)) V U P.
Proof.
  intros Hinv Hb Hbooks Hnew key d. subst d. unfold promoted.
  assert (Hhide : books (bump bucket (hide_delta (OBJECTS c !! key)) usage)
      (uplus total (hide_delta (OBJECTS c !! key))) (delete key (OBJECTS c)) V U P).
  { destruct (OBJECTS c !! key) as [m|] eqn:Hm.
    - pose proof (object_bucket c bucket k Hinv Hb m Hm) as Hmb.
      apply (books_drop_object Hbooks) in Hm. rewrite Hmb in Hm. exact Hm.
    - rewrite delete_id by done. eapply books_ext; [exact Hbooks| |usage_lia].
      intros b'. unfold bump. case_decide; [usage_lia|done]. }
  destruct next as [[m n|e n]|]; simpl.
  - destruct Hnew as (_ & Hmb & _). simpl in Hmb.
    apply books_add_object with (k := key) (m := m) in Hhide; [|apply lookup_delete_eq].
    rewrite Hmb in Hhide. eapply books_ext; [exact Hhide| |usage_lia].
    intros b'. unfold bump. case_decide; [usage_lia|done].
  - eapply books_ext; [exact Hhide| |usage_lia]. intros b'. unfold bump. case_decide; [usage_lia|done].
  - eapply books_ext; [exact Hhide| |usage_lia]. intros b'. unfold bump. case_decide; [usage_lia|done].
Qed.

Lemma delete_object_version_inv bucket k version release c res c' :
  Inv c → uuid_ok bucket → key_ok k →
  delete_object_version_tx bucket k version release c = (Ok res, c') → Inv c'.
Proof.
  intros Hinv Hb Hk Hrun.
  destruct (delete_object_version_ok _ _ _ _ _ _ _ Hinv Hb Hk Hrun) as
    [[-> _]|(r & f & next & u & c1 & Hr & Hrb & Hrk & _ & Hnew & Hc1 & Hun & Hmv & _ & b & _ & Hj)]; [done|].
  pose proof (versions_id (inv_versions _ Hinv) _ _ Hr) as <-.
  assert (Hrkey : rkey r = object_key bucket k) by (unfold rkey; by rewrite Hrb, Hrk).
  eapply journal_event_inv; [|exact Hj]. clear Hj.
  generalize dependent (COUNTERS c1). intros cs ->. eapply finish_inv; try exact Hmv; try exact Hun; try done.
  - rewrite <-Hrkey. apply (versions_drop (inv_versions _ Hinv) r Hr).
  - simpl. case_bool_decide as Hcur; [apply promoted_current; auto|].
    apply current_drop_other; [apply Hinv|done|]. unfold current_version_of in Hcur. by rewrite Hrkey.
  - apply Hinv.
  - pose proof (books_drop_version (inv_books _ Hinv) r Hr) as Hbooks. rewrite Hrb in Hbooks. simpl.
    revert Hnew. case_bool_decide; intros Hnew.
    + eapply promoted_books in Hbooks; [|done|exact Hb|by apply Hnew].
      eapply books_ext; [exact Hbooks| |unfold promoted; usage_lia].
      intros b'. unfold bump. case_decide; [usage_lia|done].
    + eapply books_ext; [exact Hbooks| |usage_lia].
      intros b'. unfold bump. case_decide; [usage_lia|done].
  - intros Hu b' Hb'. pose proof (version_size _ _ _ Hinv Hr) as Hs. unfold rsize in Hs.
    eapply quota_shrinks; eauto; simpl; unfold promoted; case_bool_decide; simpl; lia.
Qed.

End CatalogSteps.
End CatalogSteps.
