(* ===== verification/CatalogUploads.v ===== *)
(** * The remaining commands: buckets, locks, multipart uploads, rules

    The rest of [crates/record-store-metadata/src/commands.rs]: bucket settings,
    Object Lock changes, multipart uploads and their recovery, lifecycle rules,
    cleanup and journal pruning each keep the invariant. *)

From S2P Require Import Prelude Bytes Tables ObjectLock CoreTypes Keys Catalog Commands CatalogInv CatalogSteps.
Import ObjectLock CoreTypes Keys Catalog Commands CatalogInv CatalogSteps.

Module CatalogUploads.
Section CatalogUploads.
Context `{UuidCrate}.

(** ** Buckets *)

(** Replacing a bucket's record under the same name and identity. *)
Lemma bucket_update_inv id b b' c :
  Inv c → BUCKETS c !! id = Some b → b_id b' = b_id b → b_name b' = b_name b →
  (b_object_lock b' ≠ None ↔ b_object_lock b ≠ None) →
  (b_object_lock b' ≠ None → b_versioning b' = Enabled) →
  bytes_allows (quota_bytes (b_quota b'))
    (u64_saturating_add (version_bytes (usage_of c id)) (multipart_bytes (usage_of c id))) = true →
  Inv (upd_names <[b_name b' := b']> (upd_buckets <[id := b']> c)).
Proof.
  intros Hinv Hb Hid Hname Hlock Hen Hq.
  assert (HB : ∀ i x, BUCKETS c !! i = Some x → ∃ x', <[id := b']> (BUCKETS c) !! i = Some x' ∧
     (b_object_lock x' ≠ None ↔ b_object_lock x ≠ None)).
  { intros i x Hx. destruct (decide (id = i)) as [<-|Hne].
    - rewrite lookup_insert_eq. simplify_eq. eauto.
    - rewrite lookup_insert_ne by done. eauto. }
  assert (HBs : ∀ i, is_Some (BUCKETS c !! i) → is_Some (<[id := b']> (BUCKETS c) !! i)).
  { intros i [x Hx]. destruct (HB _ _ Hx) as (x' & -> & _). done. }
  destruct (bucket_row _ _ (inv_buckets _ Hinv) _ _ Hb) as (Hbid & Huuid & Hnm & _).
  destruct Hinv. split; try done; cbn [upd_names upd_buckets BUCKETS BUCKET_NAMES].
  - split.
    + intros i x [[<- <-]|[Hne Hx]]%lookup_insert_Some.
      * rewrite lookup_insert_eq. split_and!; [congruence|done|done|done].
      * destruct (bucket_row _ _ inv_buckets0 _ _ Hx) as (? & ? & Hxn & ?). split_and!; [done|done| |done].
        rewrite lookup_insert_ne; [done|]. rewrite Hname. intros Heq. rewrite Heq in Hnm. congruence.
    + intros n x [[<- <-]|[Hne Hx]]%lookup_insert_Some.
      * split; [done|]. rewrite Hid, Hbid. apply lookup_insert_eq.
      * destruct (bucket_name_row _ _ inv_buckets0 _ _ Hx) as [? Hxb]. split; [done|].
        rewrite lookup_insert_ne; [done|]. intros Heq. rewrite <-Heq, Hb in Hxb. congruence.
  - eapply versions_buckets; [exact inv_versions0|done].
  - destruct inv_multipart0 as [H1 H2 H3]. split; [|done|done].
    intros i u Hu. destruct (H1 i u Hu) as (? & ? & ?). auto.
  - intros i r Hr. destruct (inv_rules0 i r Hr). auto.
  - change (counter (upd_names _ _)) with (counter c). rewrite inv_bucket_count0. simpl.
    rewrite tsum_insert, Hb. unfold one. simpl. lia.
  - intros i x [[<- <-]|[Hne Hx]]%lookup_insert_Some; [done|by apply inv_quotas0].
Qed.

Lemma update_bucket_ok id update c b' c' :
  update_bucket_tx id update c = (Ok b', c') →
  ∃ b, BUCKETS c !! id = Some b ∧ update b = Ok b' ∧
    c' = upd_names <[b_name b' := b']> (upd_buckets <[id := b']> c).
Proof.
  intros Hrun. unfold update_bucket_tx, read_bucket in Hrun. tx_all. by eauto.
Qed.

Lemma set_versioning_inv id state c b' c' :
  Inv c → set_bucket_versioning_tx id state c = (Ok b', c') → Inv c'.
Proof.
  intros Hinv (b & Hb & Hup & ->)%update_bucket_ok. pose proof (inv_quotas _ Hinv _ _ Hb) as Hq.
  destruct (_ && _); [done|].
  destruct (is_some (b_object_lock b) && negb (bool_decide (state = Enabled))) eqn:Hl; [done|]. simplify_eq.
  apply (bucket_update_inv _ b); try done. simpl. intros Hsome.
  destruct (b_object_lock b); [|done]. simpl in Hl. by bool_facts.
Qed.

Lemma set_object_lock_inv id conf c b' c' :
  Inv c → set_bucket_object_lock_tx id conf c = (Ok b', c') → Inv c'.
Proof.
  intros Hinv Hrun. unfold set_bucket_object_lock_tx in Hrun. tx_step Hrun.
  apply update_bucket_ok in Hb as (b & Hb & Hup & ->). pose proof (inv_quotas _ Hinv _ _ Hb) as Hq.
  destruct (b_object_lock b) as [l|] eqn:Hl; simpl in Hup; [|done]. simplify_eq.
  apply (bucket_update_inv _ b); try done; simpl.
  - rewrite Hl. done.
  - intros _. apply (bucket_row _ _ (inv_buckets _ Hinv)) in Hb as (_ & _ & _ & He). apply He. by rewrite Hl.
Qed.

Lemma set_quota_inv id quota c b' c' :
  Inv c → set_bucket_quota_tx id quota c = (Ok b', c') → Inv c'.
Proof.
  intros Hinv Hrun. unfold set_bucket_quota_tx, read_bucket_usage in Hrun. tx_step Hrun.
  apply andb_true_iff in E as [Hq _].
  apply update_bucket_ok in Hb0 as (b & Hb & Hup & ->). simplify_eq.
  apply (bucket_update_inv _ b); try done; simpl.
  apply (bucket_row _ _ (inv_buckets _ Hinv)) in Hb as (_ & _ & _ & He). done.
Qed.

Lemma set_cors_inv id cors c b' c' :
  Inv c → update_bucket_tx id (λ bucket, Ok (set_cors cors bucket)) c = (Ok b', c') → Inv c'.
Proof.
  intros Hinv (b & Hb & Hup & ->)%update_bucket_ok. pose proof (inv_quotas _ Hinv _ _ Hb) as Hq. simplify_eq.
  apply (bucket_update_inv _ b); try done; simpl.
  apply (bucket_row _ _ (inv_buckets _ Hinv)) in Hb as (_ & _ & _ & He). done.
Qed.

(** A bucket nothing refers to has no usage; one that does not exist in particular. *)
Lemma unused_usage c id :
  Inv c → (∀ v r, VERSIONS c !! v = Some r → record_bucket r ≠ id) →
  (∀ i u, MULTIPART c !! i = Some u → u_bucket_id u ≠ id) → usage_of c id = usage_default.
Proof.
  intros Hinv HV HM. rewrite (books_usage _ _ _ _ _ _ (inv_books _ Hinv)).
  assert (HO : ∀ k m, OBJECTS c !! k = Some m → o_bucket_id m ≠ id).
  { intros k m Hm. apply (object_row _ _ _ (inv_current _ Hinv)) in Hm as (_ & n & Hm). by apply HV in Hm. }
  assert (HP : ∀ k p, PARTS c !! k = Some p → part_bucket (MULTIPART c) p ≠ id).
  { intros k p Hp. apply (part_row _ _ _ _ (inv_multipart _ Hinv)) in Hp as (_ & _ & u & Hu).
    unfold part_bucket. rewrite Hu. simpl. by eapply HM. }
  apply usage_ext; simpl; by apply bsum_none.
Qed.

Lemma absent_usage c id : Inv c → BUCKETS c !! id = None → usage_of c id = usage_default.
Proof.
  intros Hinv Hid. apply unused_usage; [done| |].
  - intros v r Hr. apply (version_row _ _ _ _ _ (inv_versions _ Hinv)) in Hr as (_ & _ & _ & b & Hb & _). congruence.
  - intros i u Hu. apply (upload_row _ _ _ _ (inv_multipart _ Hinv)) in Hu as (_ & _ & b & Hb). congruence.
Qed.

Lemma is_none_eq {A} (o : option A) : is_none o = true → o = None.
Proof. by destruct o. Qed.

(** A limit is a 64-bit number. *)
Definition quota_ok (q : BucketQuota) : Prop :=
  match quota_bytes q with LimitBytes limit => is_u64 limit | UnlimitedBytes => True end.

#[export] Instance quota_ok_dec q : Decision (quota_ok q).
Proof. unfold quota_ok. destruct (quota_bytes q); apply _. Defined.

Lemma quota_empty q :
  quota_ok q → bytes_allows (quota_bytes q) (u64_saturating_add (version_bytes usage_default)
    (multipart_bytes usage_default)) = true.
Proof.
  unfold quota_ok, is_u64, u64_saturating_add, u64_max. destruct (quota_bytes q); simpl; [done|].
  intros. apply Z.leb_le. lia.
Qed.

Lemma created_inv b c :
  let c1 := upd_usage <[b_id b := usage_default]>
              (upd_names <[b_name b := b]> (upd_buckets <[b_id b := b]> c)) in
  Inv c → uuid_ok (b_id b) → quota_ok (b_quota b) →
  (b_object_lock b ≠ None → b_versioning b = Enabled) →
  is_none (BUCKETS c !! b_id b) = true → is_none (BUCKET_NAMES c !! b_name b) = true →
  is_u64 (counter c1 BUCKET_COUNT + 1) → Inv (bump_counter BUCKET_COUNT 1 c1).
Proof.
  intros c1 Hinv Huuid Hquota Hlock Hid%is_none_eq Hname%is_none_eq Hu.
  assert (HB : ∀ i x, BUCKETS c !! i = Some x → <[b_id b := b]> (BUCKETS c) !! i = Some x).
  { intros i x Hx. rewrite lookup_insert_ne; [done|]. congruence. }
  assert (HBs : ∀ i, is_Some (BUCKETS c !! i) → is_Some (<[b_id b := b]> (BUCKETS c) !! i)).
  { intros i [x Hx]. by rewrite (HB _ _ Hx). }
  assert (Huse : ∀ i, usage_of c1 i = usage_of c i).
  { intros i. rewrite (usage_upd (b_id b) usage_default c c1 i eq_refl). case_decide; [|done]. subst i.
    by rewrite absent_usage. }
  split; try (by apply Hinv); cbn [bump_counter upd_counters upd_usage upd_names upd_buckets BUCKETS BUCKET_NAMES c1].
  - split.
    + intros i x [[<- <-]|[Hne Hx]]%lookup_insert_Some; [by rewrite lookup_insert_eq|].
      destruct (bucket_row _ _ (inv_buckets _ Hinv) _ _ Hx) as (? & ? & Hxn & ?). split_and!; [done|done| |done].
      rewrite lookup_insert_ne; [done|]. congruence.
    + intros n x [[<- <-]|[Hne Hx]]%lookup_insert_Some; [by rewrite lookup_insert_eq|].
      destruct (bucket_name_row _ _ (inv_buckets _ Hinv) _ _ Hx) as [? Hxb]. auto.
  - eapply versions_buckets; [apply Hinv|]. intros i x Hx. exists x. by rewrite (HB _ _ Hx).
  - destruct (inv_multipart _ Hinv) as [R1 R2 R3]. split; [|done|done].
    intros i u Hi. destruct (R1 i u Hi) as (? & ? & ?). auto.
  - intros i r Hr. destruct (inv_rules _ Hinv i r Hr). auto.
  - counters. apply Hinv.
  - apply bump_counter_u64; [done|apply (inv_counters _ Hinv)].
  - eapply books_ext; [apply Hinv|done|]. unfold totals. by counters.
  - counters. change (counter c1) with (counter c). rewrite tsum_insert, Hid, (inv_bucket_count _ Hinv).
    unfold one. simpl. lia.
  - counters. apply Hinv.
  - intros i x Hx. change (usage_of (bump_counter BUCKET_COUNT 1 c1)) with (usage_of c1).
    rewrite Huse. apply lookup_insert_Some in Hx as [[<- <-]|[Hne Hx]]; [|by apply (inv_quotas _ Hinv)].
    rewrite absent_usage by done. by apply quota_empty.
Qed.

Lemma create_bucket_inv b c u c' :
  Inv c → uuid_ok (b_id b) → quota_ok (b_quota b) → create_bucket_tx b c = (Ok u, c') → Inv c'.
Proof.
  intros Hinv Huuid Hquota Hrun. unfold create_bucket_tx, write_bucket_usage, bucket_key in Hrun. tx_step Hrun.
  assert (Hs : s = c ∧ (b_object_lock b ≠ None → b_versioning b = Enabled)).
  { destruct (b_object_lock b); tx_all; [|by split]. split; [done|]. intros _. by bool_facts. }
  destruct Hs as [-> Hlock]. apply andb_true_iff in E as [E1 E2]. simpl in E1, E2. tx_all.
  match goal with Hj : journal_event _ _ _ _ _ _ _ = _ |- _ =>
    apply journal_event_ok in Hj as (e & He & Hu64 & ->) end.
  set (c1 := upd_usage _ _) in *. rewrite counter_events, counter_upd_ne in H0 by discriminate.
  set (next := counter c1 MUTATION_EVENT_SEQUENCE + 1) in *.
  assert (Hswap : bump_counter BUCKET_COUNT 1 (upd_events <[next := e]>
      (upd_counters <[MUTATION_EVENT_SEQUENCE := next]> c1)) =
    upd_events <[next := e]> (upd_counters <[MUTATION_EVENT_SEQUENCE := next]> (bump_counter BUCKET_COUNT 1 c1))).
  { unfold bump_counter. rewrite counter_events, counter_upd_ne by discriminate.
    unfold upd_counters, upd_events. simpl. by rewrite (insert_insert_ne _ BUCKET_COUNT MUTATION_EVENT_SEQUENCE) by discriminate. }
  rewrite Hswap.
  assert (Hseq : counter (bump_counter BUCKET_COUNT 1 c1) MUTATION_EVENT_SEQUENCE = counter c1 MUTATION_EVENT_SEQUENCE) by by counters.
  subst next. rewrite <-Hseq in *. apply journalled_inv; [|done|done]. clear e He Hu64 Hseq Hswap.
  by apply created_inv.
Qed.

Lemma foldl_delete_lookup {A} (ids : list bytes) (t : gmap bytes A) k x :
  foldl (λ m id, delete id m) t ids !! k = Some x ↔ t !! k = Some x ∧ k ∉ ids.
Proof.
  revert t. induction ids as [|id ids IH]; intros t; simpl.
  - split; [intros Ht; split; [done|apply not_elem_of_nil]|by intros [? _]].
  - rewrite IH, lookup_delete_Some, not_elem_of_cons. naive_solver.
Qed.

(** An empty bucket: nothing refers to it. *)
Lemma empty_bucket c id :
  Inv c → uuid_ok id → versions (usage_of c id) = 0 →
  table_range (bucket_key id) (prefix_successor (bucket_key id)) (MULTIPART_ORDER c) = [] →
  (∀ v r, VERSIONS c !! v = Some r → record_bucket r ≠ id) ∧
  (∀ i u, MULTIPART c !! i = Some u → u_bucket_id u ≠ id).
Proof.
  intros Hinv Huuid Hv Hm. split.
  - rewrite (books_usage _ _ _ _ _ _ (inv_books _ Hinv)) in Hv. simpl in Hv.
    intros v r. apply (bsum_zero_none record_bucket one _ _ v r); [|done]. intros; unfold one; lia.
  - intros i u Hu Hb. rewrite table_range_nil in Hm.
    apply (upload_row _ _ _ _ (inv_multipart _ Hinv)) in Hu as Hrow. destruct Hrow as (_ & Hok & _).
    apply (Hm (multipart_order_key u) i).
    + apply (upload_order_row _ _ _ _ (inv_multipart _ Hinv)). eauto.
    + by apply bucket_range_spec.
Qed.

Lemma deleted_inv b c :
  let id := b_id b in
  let c1 := upd_rules (λ m, foldl (λ m id, delete id m) m
              (filter (λ kv, l_bucket_id kv.2 = id) (table_iter (LIFECYCLE_RULES c))).*1)
              (upd_usage (delete id) (upd_buckets (delete id) (upd_names (delete (b_name b)) c))) in
  Inv c → BUCKETS c !! id = Some b →
  (∀ v r, VERSIONS c !! v = Some r → record_bucket r ≠ id) →
  (∀ i u, MULTIPART c !! i = Some u → u_bucket_id u ≠ id) →
  is_u64 (counter c BUCKET_COUNT + -1) → Inv (bump_counter BUCKET_COUNT (-1) c1).
Proof.
  intros id c1 Hinv Hb HV HM Hu. subst id.
  destruct (bucket_row _ _ (inv_buckets _ Hinv) _ _ Hb) as (_ & _ & Hnm & _).
  assert (Huse : ∀ i, usage_of c1 i = usage_of c i).
  { intros i. destruct (decide (i = b_id b)) as [->|Hne].
    - rewrite (unused_usage c) by done. unfold usage_of, bucket_key. cbn [c1 upd_rules upd_usage BUCKET_USAGE].
      by rewrite lookup_delete_eq.
    - unfold usage_of, bucket_key. cbn [c1 upd_rules upd_usage BUCKET_USAGE].
      by rewrite lookup_delete_ne. }
  split; try (by apply Hinv);
    cbn [bump_counter upd_counters upd_usage upd_rules upd_names upd_buckets BUCKETS BUCKET_NAMES LIFECYCLE_RULES c1].
  - split.
    + intros i x [Hne Hx]%lookup_delete_Some.
      destruct (bucket_row _ _ (inv_buckets _ Hinv) _ _ Hx) as (? & ? & Hxn & ?). split_and!; [done|done| |done].
      rewrite lookup_delete_ne; [done|]. intros Heq. rewrite Heq in Hnm. congruence.
    + intros n x [Hne Hx]%lookup_delete_Some.
      destruct (bucket_name_row _ _ (inv_buckets _ Hinv) _ _ Hx) as [? Hxb]. split; [done|].
      rewrite lookup_delete_ne; [done|]. intros Heq. rewrite <-Heq in Hxb. congruence.
  - destruct (inv_versions _ Hinv) as [R1 R2 R3 R4]. split; [|done|done|].
    + intros v r Hr. destruct (R1 v r Hr) as (? & ? & ? & x & Hx & ?). split_and!; [done|done|done|].
      exists x. split; [|done]. rewrite lookup_delete_ne; [done|]. apply HV in Hr. congruence.
    + intros v l Hl. destruct (R4 v l Hl) as (? & m & x & Hm & Hx & ?). split; [done|].
      exists m, x. split_and!; [done| |done]. rewrite lookup_delete_ne; [done|].
      apply HV in Hm. simpl in Hm. congruence.
  - destruct (inv_multipart _ Hinv) as [R1 R2 R3]. split; [|done|done].
    intros i u Hi. destruct (R1 i u Hi) as (? & ? & ?). split_and!; [done|done|].
    rewrite lookup_delete_ne; [done|]. apply HM in Hi. congruence.
  - intros i r (Hr & Hni)%foldl_delete_lookup. destruct (inv_rules _ Hinv i r Hr) as [? ?]. split; [done|].
    rewrite lookup_delete_ne; [done|]. intros Heq. apply Hni. apply list_elem_of_fmap. exists (i, r).
    split; [done|]. apply list_elem_of_filter. split; [done|]. by apply elem_of_table_iter.
  - counters. apply Hinv.
  - apply bump_counter_u64; [done|apply (inv_counters _ Hinv)].
  - eapply books_ext; [apply Hinv|done|]. unfold totals. by counters.
  - counters. change (counter c1) with (counter c). rewrite tsum_delete, Hb, (inv_bucket_count _ Hinv).
    unfold one. simpl. lia.
  - counters. apply Hinv.
  - intros i x [_ Hx]%lookup_delete_Some. change (usage_of (bump_counter BUCKET_COUNT (-1) c1)) with (usage_of c1).
    rewrite Huse. by apply (inv_quotas _ Hinv).
Qed.

Lemma delete_bucket_inv name at_ c b c' :
  Inv c → delete_bucket_tx name at_ c = (Ok b, c') → Inv c'.
Proof.
  intros Hinv Hrun. unfold delete_bucket_tx, read_bucket_usage, has_multipart in Hrun. tx_step Hrun.
  destruct (bucket_name_row _ _ (inv_buckets _ Hinv) _ _ E) as [<- Hb].
  destruct (bucket_row _ _ (inv_buckets _ Hinv) _ _ Hb) as (_ & Huuid & _).
  destruct (versions (usage_of c (b_id a)) =? 0) eqn:Hv; simpl in Ha; tx_all; [|done]. bool_facts.
  destruct (empty_bucket c (b_id a)) as [HV HM]; [done|done|done|done|].
  eapply journal_event_inv; [|eassumption]. by refine (deleted_inv a c Hinv Hb HV HM _).
Qed.

(** ** Object Lock *)

Lemma put_object_lock_ok bucket k version requested release c s c' :
  put_object_lock_tx bucket k version requested release c = (Ok s, c') →
  ∃ b m n f, BUCKETS c !! bucket = Some b ∧ b_object_lock b ≠ None ∧
    VERSIONS c !! version = Some (ObjectRecord m n) ∧ o_bucket_id m = bucket ∧ o_key m = k ∧
    ((∀ t, f t = t) ∨ observe_clock release c = (Ok (), upd_clock f c)) ∧
    (change_only_tightens (lock_of c version) requested = false →
       observe_clock release c = (Ok (), upd_clock f c)) ∧
    (∃ s0, with_retention (lock_of c version) (retention requested) (observed_at release)
       (bypass_governance release) = Ok s0 ∧ s = with_legal_hold s0 (legal_hold requested)) ∧
    c' = upd_locks (if is_unlocked s then delete version else <[version := s]>) (upd_clock f c).
Proof.
  intros Hrun. unfold put_object_lock_tx, read_bucket, read_object_lock, write_object_lock in Hrun. tx_step Hrun.
  apply record_matches_spec in E2 as [Hb Hk]. apply is_some_ne in E0.
  destruct a1 as [m n|]; [|done]. simpl in Hb, Hk.
  assert (Hclock : ∃ f, s0 = upd_clock f c ∧ ((∀ t, f t = t) ∨ observe_clock release c = (Ok (), upd_clock f c)) ∧
    (change_only_tightens (lock_of c version) requested = false →
       observe_clock release c = (Ok (), upd_clock f c))).
  { destruct (change_only_tightens _ _); simpl in Ha.
    - tx_all. exists (λ t, t). split_and!; [by destruct c|by left|done].
    - destruct (observe_clock_ok _ _ _ _ Ha) as [f ->]. destruct a4. eauto. }
  destruct Hclock as (f & -> & Hf & Hf'). exists a, m, n, f. split_and!; try done.
  - destruct (with_retention _ _ _ _); simpl in E4; [|done]. simplify_eq. eauto.
  - unfold lock_key in Ha0. destruct (is_unlocked _); tx_all; done.
Qed.

Lemma clock_inv f c : Inv c → Inv (upd_clock f c).
Proof. intros []. by split. Qed.

Lemma put_object_lock_inv bucket k version requested release c s c' :
  Inv c → put_object_lock_tx bucket k version requested release c = (Ok s, c') → Inv c'.
Proof.
  intros Hinv (b & m & n & f & Hb & Hl & Hv & Hmb & _ & _ & _ & _ & ->)%put_object_lock_ok.
  apply (clock_inv f) in Hinv. change (BUCKETS c) with (BUCKETS (upd_clock f c)) in Hb.
  change (VERSIONS c) with (VERSIONS (upd_clock f c)) in Hv. revert Hinv Hb Hv. generalize (upd_clock f c). clear f c.
  intros c Hinv Hb Hv.
  destruct (version_row _ _ _ _ _ (inv_versions _ Hinv) _ _ Hv) as (_ & _ & _ & b' & Hb' & Hnull).
  simpl in Hb', Hnull. rewrite Hmb, Hb in Hb'. simplify_eq. rewrite (Hnull Hl) in Hv.
  assert (Hver : versions_ok (BUCKETS c) (VERSIONS c) (VERSION_ORDER c) (NULL_VERSIONS c)
    ((if is_unlocked s then delete version else <[version := s]>) (OBJECT_LOCKS c))).
  { destruct (is_unlocked s) eqn:Hs; [apply versions_unlock, Hinv|].
    by eapply versions_lock; [apply Hinv|exact Hv|exact Hb|..]. }
  destruct Hinv. by split.
Qed.

(** ** Lifecycle rules, cleanup and the journal *)

Lemma put_lifecycle_rule_inv r c u c' : Inv c → put_lifecycle_rule_tx r c = (Ok u, c') → Inv c'.
Proof.
  intros Hinv Hrun. unfold put_lifecycle_rule_tx, read_bucket in Hrun. tx_step Hrun.
  destruct Hinv. split; try done. cbn [upd_rules LIFECYCLE_RULES BUCKETS]. intros i r' [[<- <-]|[_ Hr']]%lookup_insert_Some; [|by apply inv_rules0].
  split; [done|]. unfold bucket_key in E0. by destruct (BUCKETS c !! l_bucket_id r).
Qed.

Lemma delete_lifecycle_rule_inv id c u c' : Inv c → delete_lifecycle_rule_tx id c = (Ok u, c') → Inv c'.
Proof.
  intros Hinv Hrun. unfold delete_lifecycle_rule_tx in Hrun. tx_step Hrun.
  destruct Hinv. split; try done. cbn [upd_rules LIFECYCLE_RULES BUCKETS]. intros i r' [_ Hr']%lookup_delete_Some. by apply inv_rules0.
Qed.

Lemma complete_cleanup_inv id c u c' : Inv c → complete_cleanup_tx id c = (Ok u, c') → Inv c'.
Proof.
  intros Hinv Hrun. unfold complete_cleanup_tx in Hrun. tx_step Hrun.
  by destruct Hinv.
Qed.

Lemma foldl_delete_events (l : list Z) (t : gmap Z MutationEvent) s e :
  foldl (λ m s, delete s m) t l !! s = Some e ↔ t !! s = Some e ∧ s ∉ l.
Proof.
  revert t. induction l as [|i l IH]; intros t; simpl.
  - split; [intros Ht; split; [done|apply not_elem_of_nil]|by intros [? _]].
  - rewrite IH, lookup_delete_Some, not_elem_of_cons. naive_solver.
Qed.

(** Pruning removes exactly the events up to the given sequence number. *)
Lemma prune_lookup through c n c' s e :
  prune_mutation_events_tx through c = (Ok n, c') →
  MUTATION_EVENTS c' !! s = Some e ↔ MUTATION_EVENTS c !! s = Some e ∧ through < s.
Proof.
  intros Hrun. unfold prune_mutation_events_tx in Hrun. tx_step Hrun. cbn [upd_events MUTATION_EVENTS].
  rewrite foldl_delete_events. split; intros [He Hs]; (split; [done|]).
  - destruct (decide (s ≤ through)); [|lia]. destruct Hs. apply list_elem_of_filter. split; [done|].
    apply list_elem_of_fmap. exists (s, e). split; [done|]. by apply elem_of_map_to_list.
  - intros [? _]%list_elem_of_filter. lia.
Qed.

Lemma prune_inv through c n c' : Inv c → prune_mutation_events_tx through c = (Ok n, c') → Inv c'.
Proof.
  intros Hinv Hrun. pose proof (λ s e, prune_lookup _ _ _ _ s e Hrun) as Hp.
  unfold prune_mutation_events_tx in Hrun. tx_step Hrun. destruct Hinv. split; try done.
  set (c' := upd_events _ c) in *. change (counter c') with (counter c).
  destruct inv_journal0 as (Hl & pruned & Hpr & Hdom & Hseq). split; [done|].
  exists (Z.max pruned through). split_and!; [lia| |].
  - intros s. split.
    + intros [e [He Hs]%Hp]. assert (is_Some (MUTATION_EVENTS c !! s)) as Hs'%Hdom by eauto. lia.
    + intros Hs. assert (is_Some (MUTATION_EVENTS c !! s)) as [e He] by (apply Hdom; lia).
      exists e. apply Hp. split; [done|lia].
  - intros s e [He _]%Hp. by apply Hseq.
Qed.

End CatalogUploads.
End CatalogUploads.
