(* ===== verification/CatalogMultipart.v ===== *)
(** * Multipart uploads keep the invariant

    The multipart commands of [crates/record-store-metadata/src/commands.rs]:
    creating an upload, storing a part over an earlier one, moving an upload to
    its completing state, removing an upload with its parts, and the recovery
    that runs when the store opens. *)

From S2P Require Import Prelude Bytes Tables ObjectLock CoreTypes Keys Catalog Commands CatalogInv CatalogSteps.
Import ObjectLock CoreTypes Keys Catalog Commands CatalogInv CatalogSteps.

Module CatalogMultipart.
Section CatalogMultipart.
Context `{UuidCrate}.

Lemma create_multipart_upload_inv u c x c' :
  Inv c → upload_ok u → create_multipart_upload_tx u c = (Ok x, c') → Inv c'.
Proof.
  intros Hinv Hu Hrun. unfold create_multipart_upload_tx, read_bucket in Hrun. tx_step Hrun.
  assert (Hnew : MULTIPART c !! u_id u = None) by by destruct (MULTIPART c !! u_id u).
  assert (Hb : is_Some (BUCKETS c !! u_bucket_id u)) by (unfold bucket_key in E; by destruct (BUCKETS c !! u_bucket_id u)).
  destruct Hinv. split; try done; cbn [upd_multipart upd_morder MULTIPART MULTIPART_ORDER BUCKETS PARTS].
  - destruct inv_multipart0 as [R1 R2 R3]. split.
    + intros i v [[<- <-]|[_ Hv]]%lookup_insert_Some; auto.
    + intros k i. rewrite lookup_insert_Some, R2. split.
      * intros [[<- <-]|[Hne (v & Hv & ->)]]; [exists u; by rewrite lookup_insert_eq|].
        exists v. rewrite lookup_insert_ne; [done|]. congruence.
      * intros (v & [[<- <-]|[Hne Hv]]%lookup_insert_Some & ->); [by left|right].
        split; [|by eauto]. intros Heq. destruct (R1 _ _ Hv) as (Hvi & [[Hvl _] _] & _).
        destruct Hu as [[Hul _] _]. apply multipart_order_key_inj in Heq; [|congruence]. congruence.
    + intros k p Hp. destruct (R3 k p Hp) as (? & ? & [v Hv]). split_and!; [done|done|].
      rewrite lookup_insert_ne by congruence. by eexists.
  - eapply books_uploads; [exact inv_books0|]. intros k p Hp. unfold part_bucket.
    destruct (part_row _ _ _ _ inv_multipart0 _ _ Hp) as (_ & _ & [v Hv]).
    rewrite lookup_insert_ne by congruence. done.
Qed.

(** Replacing an upload by one with the same identity, bucket and place. *)
Lemma upload_update_inv i u u' c :
  Inv c → MULTIPART c !! i = Some u → u_id u' = u_id u → u_bucket_id u' = u_bucket_id u →
  u_key u' = u_key u → u_initiated_at u' = u_initiated_at u →
  Inv (upd_multipart <[i := u']> c).
Proof.
  intros Hinv Hu Hid Hb Hk Ht.
  assert (Hord : multipart_order_key u' = multipart_order_key u)
    by (unfold multipart_order_key; by rewrite Hid, Hb, Hk, Ht).
  destruct Hinv. split; try done; cbn [upd_multipart MULTIPART MULTIPART_ORDER BUCKETS PARTS].
  - destruct inv_multipart0 as [R1 R2 R3]. destruct (R1 i u Hu) as (Hui & Huok & Hub). split.
    + intros j v [[<- <-]|[_ Hv]]%lookup_insert_Some; [|by apply R1]. split_and!; [congruence| |by rewrite Hb].
      unfold upload_ok in *. by rewrite Hid, Hb, Hk, Ht.
    + intros k j. rewrite R2. split.
      * intros (v & Hv & ->). destruct (decide (i = j)) as [<-|Hne].
        -- exists u'. rewrite lookup_insert_eq. by simplify_eq.
        -- exists v. by rewrite lookup_insert_ne.
      * intros (v & [[<- <-]|[Hne Hv]]%lookup_insert_Some & ->); [|by eauto]. exists u. done.
    + intros k p Hp. destruct (R3 k p Hp) as (? & ? & [v Hv]). split_and!; [done|done|].
      destruct (decide (i = p_upload_id p)) as [->|Hne]; [rewrite lookup_insert_eq; by eexists|].
      rewrite lookup_insert_ne by done. by eexists.
  - eapply books_uploads; [exact inv_books0|]. intros k p Hp. unfold part_bucket.
    destruct (decide (i = p_upload_id p)) as [->|Hne]; [|by rewrite lookup_insert_ne].
    rewrite lookup_insert_eq, Hu. done.
Qed.

Lemma begin_multipart_completion_inv id oid c u c' :
  Inv c → begin_multipart_completion_tx id oid c = (Ok u, c') → Inv c'.
Proof.
  intros Hinv Hrun. unfold begin_multipart_completion_tx in Hrun. tx_step Hrun.
  destruct (u_state a) as [|existing]; [|destruct (bool_decide _)]; tx_all;
    by eapply upload_update_inv.
Qed.

(** ** Storing a part *)

Lemma part_owner c u p :
  MULTIPART c !! p_upload_id p = Some u → part_bucket (MULTIPART c) p = u_bucket_id u.
Proof. intros Hu. unfold part_bucket. by rewrite Hu. Qed.

Lemma put_multipart_part_ok part c prev c' :
  Inv c → put_multipart_part_tx part c = (Ok prev, c') →
  ∃ u b, let key := part_key (p_upload_id part) (p_number part) in
    let id := u_bucket_id u in
    let proposed := multipart_bytes (usage_of c id) - part_size_or_zero prev + p_size part in
    let usage := set_multipart_bytes proposed (usage_of c id) in
    let d := {| current_objects := 0; logical_bytes := 0; versions := 0; version_bytes := 0;
                multipart_bytes := p_size part - part_size_or_zero prev |} in
    MULTIPART c !! p_upload_id part = Some u ∧ u_state u = Active ∧ BUCKETS c !! id = Some b ∧
    prev = PARTS c !! key ∧
    bytes_allows (quota_bytes (b_quota b))
      (u64_saturating_add (version_bytes usage) (multipart_bytes usage)) = true ∧
    c' = upd_cleanup (λ t, match prev with Some old => <[p_object_id old := 1]> t | None => t end)
           (upd_counters (λ _, COUNTERS c') (upd_usage <[id := usage]> (upd_parts <[key := part]> c))) ∧
    moved c c' d.
Proof.
  intros Hinv Hrun.
  unfold put_multipart_part_tx, read_bucket, read_bucket_usage, write_bucket_usage, queue_cleanup in Hrun.
  tx_all. bool_facts.
  match goal with Hup : _ ≫= _ = Some _ |- _ => apply checked_update in Hup as -> end.
  set (prev := PARTS c !! _) in *. exists a, a1. split_and!; try done.
  - destruct prev; tx_all; done.
  - destruct prev; tx_all; simpl; solve_moved.
Qed.

Lemma put_multipart_part_inv part c prev c' :
  Inv c → part_ok part → put_multipart_part_tx part c = (Ok prev, c') → Inv c'.
Proof.
  intros Hinv Hpart Hrun.
  destruct (put_multipart_part_ok _ _ _ _ Hinv Hrun) as (u & b & Hu & _ & Hb & Hprev & Hq & Hc' & Hmv).
  set (key := part_key (p_upload_id part) (p_number part)) in *.
  assert (Hsame : ∀ old, PARTS c !! key = Some old → p_upload_id old = p_upload_id part).
  { intros old Hold. apply (part_row _ _ _ _ (inv_multipart _ Hinv)) in Hold as (Heq & ([Hl _] & Hn & _) & _).
    destruct Hpart as ([Hl' _] & Hn' & _).
    apply part_key_inj in Heq as [Heq _]; [done|congruence|..]; unfold is_u16, u16_max, PartNumber_MAX in *; lia. }
  clear Hrun. generalize dependent (COUNTERS c'). intros cs ->.
  eapply finish_inv; try exact Hmv; try done; try apply Hinv.
  - tables. destruct (inv_multipart _ Hinv) as [R1 R2 R3]. split; [done|done|].
    intros k p [[<- <-]|[_ Hp]]%lookup_insert_Some; [|by apply R3]. by rewrite Hu.
  - tables. rewrite Hprev. rewrite <-(part_owner c u part Hu). eapply books_put_part; [apply Hinv|].
    intros old Hold. unfold part_bucket. by rewrite (Hsame _ Hold).
  - repeat split; simpl; apply near_refl; lia.
  - intros _ b' Hb'. by simplify_eq.
Qed.

(** ** Removing an upload with its parts *)

Definition sizes (parts : list UploadedPart) : Z := foldr (λ p s, p_size p + s) 0 parts.

Lemma sum_parts_spec parts s : sum_parts parts = Some s → s = sizes parts.
Proof.
  unfold sum_parts.
  assert (Hgen : ∀ acc, foldl (λ sum part, s ← sum; u64_checked_add s (p_size part)) (Some acc) parts = Some s →
    s = acc + sizes parts).
  { induction parts as [|p parts IH]; simpl; intros acc Hs.
    - simplify_eq. lia.
    - destruct (u64_checked_add acc (p_size p)) as [acc'|] eqn:Ha.
      + apply u64_checked_Some in Ha as [-> _]. apply IH in Hs. lia.
      + exfalso. clear -Hs. induction parts as [|q parts IH]; simpl in Hs; [done|auto]. }
  intros Hs%Hgen. lia.
Qed.

(** The parts of an upload as the tables hold them: each under its own key. *)
Record parts_of (P : gmap bytes UploadedPart) (id : bytes) (parts : list UploadedPart) : Prop := {
  parts_rows : ∀ p, p ∈ parts → P !! part_key id (p_number p) = Some p ∧ p_upload_id p = id;
  parts_all : ∀ k p, P !! k = Some p → p_upload_id p = id → p ∈ parts;
  parts_NoDup : NoDup ((λ p, part_key id (p_number p)) <$> parts)
}.

Lemma list_parts_spec B U UO P id :
  multipart_ok B U UO P → uuid_ok id → parts_of P id (table_range id (prefix_successor id) P).*2.
Proof.
  intros Hok Hid.
  assert (Hrow : ∀ k p, (k, p) ∈ table_range id (prefix_successor id) P ↔
    P !! k = Some p ∧ p_upload_id p = id ∧ k = part_key id (p_number p)).
  { intros k p. rewrite elem_of_table_range. split.
    - intros [Hp Hr]. destruct (part_row _ _ _ _ Hok _ _ Hp) as (-> & (Hu & Hn & _) & _).
      apply part_range_spec in Hr; [|done..]. by subst id.
    - intros (Hp & Hid' & ->). split; [done|].
      destruct (part_row _ _ _ _ Hok _ _ Hp) as (_ & (_ & Hn & _) & _). by apply part_range_spec. }
  split.
  - intros p ((k & p') & -> & (Hp & Hid' & ->)%Hrow)%list_elem_of_fmap. done.
  - intros k p Hp Hid'. apply list_elem_of_fmap. exists (k, p). split; [done|]. apply Hrow.
    destruct (part_row _ _ _ _ Hok _ _ Hp) as (-> & _). by subst id.
  - assert (Hkeys : (λ p, part_key id (p_number p)) <$> (table_range id (prefix_successor id) P).*2 =
      (table_range id (prefix_successor id) P).*1).
    { rewrite <-list_fmap_compose. apply list_fmap_ext. intros i [k p] Hi%list_elem_of_lookup_2.
      apply Hrow in Hi as (_ & _ & ->). done. }
    rewrite Hkeys. apply table_range_NoDup.
Qed.

Definition drop_parts (id : bytes) (parts : list UploadedPart) (t : gmap bytes UploadedPart) :=
  foldl (λ m part, delete (part_key id (p_number part)) m) t parts.
Definition queue_parts (parts : list UploadedPart) (t : gmap bytes Z) :=
  foldl (λ t p, <[p_object_id p := 1]> t) t parts.

Lemma drop_parts_lookup id parts t k p :
  drop_parts id parts t !! k = Some p ↔
  t !! k = Some p ∧ k ∉ ((λ p, part_key id (p_number p)) <$> parts).
Proof.
  unfold drop_parts. revert t. induction parts as [|q parts IH]; intros t; cbn [foldl fmap list_fmap].
  - split; [intros Ht; split; [done|apply not_elem_of_nil]|by intros [? _]].
  - rewrite IH, lookup_delete_Some, not_elem_of_cons. naive_solver.
Qed.

(** After an upload's parts are dropped, what remains belongs to other uploads. *)
Lemma dropped_parts P id parts k p :
  parts_of P id parts → (∀ k p, P !! k = Some p → k = part_key (p_upload_id p) (p_number p)) →
  drop_parts id parts P !! k = Some p ↔ P !! k = Some p ∧ p_upload_id p ≠ id.
Proof.
  intros Hparts Hkey. rewrite drop_parts_lookup. split; intros [Hp Hn]; (split; [done|]).
  - intros Hid. apply Hn. apply list_elem_of_fmap. exists p. split; [|by eapply (parts_all _ _ _ Hparts)].
    rewrite (Hkey _ _ Hp). by rewrite Hid.
  - intros (q & -> & Hq)%list_elem_of_fmap. apply (parts_rows _ _ _ Hparts) in Hq as [Hq Hid].
    apply Hn. congruence.
Qed.

Lemma books_drop_parts usage total OB V U P b id parts :
  books usage total OB V U P →
  (∀ p, p ∈ parts → P !! part_key id (p_number p) = Some p ∧ part_bucket U p = b) →
  NoDup ((λ p, part_key id (p_number p)) <$> parts) →
  let d := {| current_objects := 0; logical_bytes := 0; versions := 0; version_bytes := 0;
              multipart_bytes := - sizes parts |} in
  books (bump b d usage) (uplus total d) OB V U (drop_parts id parts P).
Proof.
  unfold drop_parts. revert usage total P. induction parts as [|p parts IH]; intros usage total P Hb Hrow Hnd; simpl.
  - eapply books_ext; [exact Hb| |usage_lia]. intros i. unfold bump. case_decide; [usage_lia|done].
  - cbn [fmap list_fmap] in Hnd. apply NoDup_cons in Hnd as [Hni Hnd].
    destruct (Hrow p) as [Hp Hpb]; [by left|]. apply (books_drop_part Hb) in Hp. rewrite Hpb in Hp.
    apply IH in Hp; [| |done].
    + eapply books_ext; [exact Hp| |usage_lia]. intros i. unfold bump. case_decide; [usage_lia|done].
    + intros q Hq. destruct (Hrow q) as [Hqr Hqb]; [by right|]. split; [|done].
      rewrite lookup_delete_ne; [done|]. intros Heq. apply Hni. rewrite Heq.
      apply list_elem_of_fmap. by exists q.
Qed.

Lemma payloads_drop_parts V P CL id parts :
  payloads_ok V P CL → (∀ p, p ∈ parts → P !! part_key id (p_number p) = Some p) →
  NoDup ((λ p, part_key id (p_number p)) <$> parts) →
  payloads_ok V (drop_parts id parts P) (queue_parts parts CL).
Proof.
  unfold drop_parts, queue_parts. revert P CL. induction parts as [|p parts IH]; intros P CL Hok Hrow Hnd; [done|].
  cbn [foldl fmap list_fmap] in *. apply NoDup_cons in Hnd as [Hni Hnd].
  pose proof (Hrow p ltac:(by left)) as Hp. apply IH; [|intros q Hq|done].
  - apply payloads_queue; [|by eapply part_unreferenced].
    eapply payloads_fewer; [exact Hok|done| |done]. by intros ? ? [_ ?]%lookup_delete_Some.
  - rewrite lookup_delete_ne; [by apply Hrow; right|]. intros Heq. apply Hni. rewrite Heq.
    apply list_elem_of_fmap. by exists q.
Qed.

Lemma queue_parts_ok parts c u c' :
  tx_iter (λ part, queue_cleanup (p_object_id part)) parts c = (Ok u, c') →
  c' = upd_cleanup (queue_parts parts) c.
Proof.
  revert c. induction parts as [|p parts IH]; intros c Hrun; cbn [tx_iter] in Hrun; unfold queue_cleanup in *.
  - tx_all. by destruct c.
  - tx_step Hrun. by apply IH in Hb.
Qed.

Definition parts_delta (parts : list UploadedPart) : BucketUsage :=
  {| current_objects := 0; logical_bytes := 0; versions := 0; version_bytes := 0;
     multipart_bytes := - sizes parts |}.

Definition remove_rows (u : MultipartUpload) (parts : list UploadedPart) (usage : BucketUsage)
    (c : Catalog) : Catalog :=
  upd_usage <[u_bucket_id u := usage]> (upd_parts (drop_parts (u_id u) parts)
    (upd_morder (delete (multipart_order_key u)) (upd_multipart (delete (u_id u)) c))).

Lemma remove_multipart_ok id completing at_ c parts c' :
  Inv c → remove_multipart_tx id completing at_ c = (Ok parts, c') →
  ∃ u c1, MULTIPART c !! id = Some u ∧ (completing = true → u_state u ≠ Active) ∧
    parts = (table_range id (prefix_successor id) (PARTS c)).*2 ∧
    (let usage := set_multipart_bytes (multipart_bytes (usage_of c (u_bucket_id u)) - sizes parts)
                    (usage_of c (u_bucket_id u)) in
     c1 = upd_cleanup (queue_parts parts) (upd_counters (λ _, COUNTERS c1) (remove_rows u parts usage c))) ∧
    moved c c1 (parts_delta parts) ∧
    (completing = true ∧ c' = c1 ∨ completing = false ∧ ∃ name,
       journal_event MultipartAborted name (Some (u_key u)) None None at_ c1 = (Ok (), c')).
Proof.
  intros Hinv Hrun.
  unfold remove_multipart_tx, list_parts_tx, read_bucket_usage, write_bucket_usage, bucket_name_of, read_bucket in Hrun.
  tx_step Hrun.
  destruct (upload_row _ _ _ _ (inv_multipart _ Hinv) _ _ E) as (Hid & _ & _).
  change (usage_of (upd_parts _ _)) with (usage_of c) in *.
  set (parts := (table_range id (prefix_successor id) (PARTS c)).*2) in *.
  apply sum_parts_spec in E1 as ->. apply u64_checked_Some in E2 as [-> _].
  apply queue_parts_ok in Ha0. apply adjust_counter_ok in Ha as [-> Hu64].
  exists a, s0. split_and!; try done.
  - intros ->. simpl in E0. by bool_facts.
  - subst id s0. done.
  - rewrite Ha0. unfold parts_delta. solve_moved.
  - destruct completing; tx_all; [by left|right]. destruct a9. split; [done|by eexists].
Qed.

Lemma sizes_nonneg parts : (∀ p, p ∈ parts → 0 ≤ p_size p) → 0 ≤ sizes parts.
Proof.
  induction parts as [|p parts IH]; simpl; intros Hp; [lia|].
  pose proof (Hp p ltac:(by left)). assert (0 ≤ sizes parts); [|lia]. apply IH. intros q Hq. apply Hp. by right.
Qed.

Lemma removed_multipart B U UO P id u parts :
  multipart_ok B U UO P → U !! id = Some u → parts_of P id parts →
  multipart_ok B (delete id U) (delete (multipart_order_key u) UO) (drop_parts id parts P).
Proof.
  intros Hok Hu Hparts. assert (Hkey := λ k p Hp, proj1 (part_row _ _ _ _ Hok k p Hp)).
  destruct (upload_row _ _ _ _ Hok _ _ Hu) as (Hid & [[Hl _] _] & _).
  destruct Hok as [R1 R2 R3]. split.
  - intros i v [_ Hv]%lookup_delete_Some. by apply R1.
  - intros k i. rewrite lookup_delete_Some, R2. split.
    + intros [Hne (v & Hv & ->)]. exists v. rewrite lookup_delete_ne; [done|]. intros ->. simplify_eq.
    + intros (v & [Hne Hv]%lookup_delete_Some & ->). split; [|by eauto]. intros Heq.
      destruct (R1 _ _ Hv) as (Hvi & [[Hvl _] _] & _).
      apply multipart_order_key_inj in Heq; [|congruence]. congruence.
  - intros k p (Hp & Hne)%(dropped_parts _ _ _ _ _ Hparts Hkey). destruct (R3 k p Hp) as (? & ? & ?).
    split_and!; [done|done|]. by rewrite lookup_delete_ne.
Qed.

Lemma remove_multipart_inv id completing at_ c parts c' :
  Inv c → remove_multipart_tx id completing at_ c = (Ok parts, c') → Inv c'.
Proof.
  intros Hinv Hrun.
  destruct (remove_multipart_ok _ _ _ _ _ _ Hinv Hrun) as (u & c1 & Hu & _ & Hparts & Hc1 & Hmv & Hend).
  pose proof (inv_multipart _ Hinv) as Hmp.
  destruct (upload_row _ _ _ _ Hmp _ _ Hu) as (<- & [Hid _] & _).
  pose proof (list_parts_spec _ _ _ _ _ Hmp Hid) as Hlist. rewrite <-Hparts in Hlist.
  assert (Hsz : 0 ≤ sizes parts).
  { apply sizes_nonneg. intros p Hp. destruct (parts_rows _ _ _ Hlist _ Hp) as [Hrow _].
    by destruct (part_row _ _ _ _ Hmp _ _ Hrow) as (_ & (_ & _ & [? _]) & _). }
  assert (Hinv1 : Inv c1).
  { generalize dependent (COUNTERS c1). intros cs ->.
    eapply finish_inv; try exact Hmv; try done; try apply Hinv.
    - by apply removed_multipart.
    - unfold remove_rows; tables. eapply (books_uploads (U := MULTIPART c)).
      + eapply books_drop_parts; [apply Hinv| |apply Hlist]. intros p Hp.
        destruct (parts_rows _ _ _ Hlist _ Hp) as [Hrow Hpu]. split; [done|]. apply part_owner. by rewrite Hpu.
      + intros k p (_ & Hne)%(dropped_parts _ _ _ _ _ Hlist (λ k p Hp, proj1 (part_row _ _ _ _ Hmp k p Hp))).
        unfold part_bucket. by rewrite lookup_delete_ne.
    - repeat split; simpl; apply near_refl; lia.
    - intros Hus b Hb. eapply quota_shrinks; eauto; simpl; lia. }
  destruct Hend as [[_ ->]|(_ & name & Hj)]; [done|by eapply journal_event_inv].
Qed.

(** ** Recovery *)

(** What recovering one upload does to the uploads: it goes or becomes active,
    and the others stay. *)
Definition settled (id : bytes) (U U' : gmap bytes MultipartUpload) : Prop :=
  (∀ u, U' !! id = Some u → u_state u = Active) ∧ ∀ j, j ≠ id → U' !! j = U !! j.

Lemma remove_multipart_uploads id completing at_ c parts c' :
  Inv c → remove_multipart_tx id completing at_ c = (Ok parts, c') →
  MULTIPART c' = delete id (MULTIPART c).
Proof.
  intros Hinv Hrun.
  destruct (remove_multipart_ok _ _ _ _ _ _ Hinv Hrun) as (u & c1 & Hu & _ & _ & Hc1 & _ & Hend).
  destruct (upload_row _ _ _ _ (inv_multipart _ Hinv) _ _ Hu) as (<- & _).
  assert (HM : MULTIPART c1 = delete (u_id u) (MULTIPART c)) by by rewrite Hc1.
  destruct Hend as [[_ ->]|(_ & name & (e & _ & _ & ->)%journal_event_ok)]; done.
Qed.

Lemma recover_upload_inv u c parts c' :
  Inv c → MULTIPART c !! u_id u = Some u → recover_upload u c = (Ok parts, c') →
  Inv c' ∧ settled (u_id u) (MULTIPART c) (MULTIPART c').
Proof.
  intros Hinv Hu Hrun. unfold recover_upload in Hrun. destruct (u_state u) as [|oid] eqn:Hst.
  { tx_all. split; [done|]. split; [|done]. intros v Hv. by simplify_eq. }
  tx_step Hrun. destruct (match OBJECTS c !! _ with Some _ => _ | None => _ end).
  - split; [by eapply remove_multipart_inv|]. apply remove_multipart_uploads in Hb as ->; [|done].
    split; [intros v; by rewrite lookup_delete_eq|]. intros j Hj. by rewrite lookup_delete_ne.
  - tx_all. split; [by eapply upload_update_inv|]. unfold settled. tables.
    split; [intros v; rewrite lookup_insert_eq; by intros [= <-]|]. intros j Hj. by rewrite lookup_insert_ne.
Qed.

Lemma recover_uploads_inv l c parts c' :
  Inv c → NoDup (u_id <$> l) → (∀ u, u ∈ l → MULTIPART c !! u_id u = Some u) →
  recover_uploads l c = (Ok parts, c') →
  Inv c' ∧ (∀ j u, MULTIPART c' !! j = Some u → u_state u = Active ∨ (j ∉ (u_id <$> l) ∧ MULTIPART c !! j = Some u)).
Proof.
  revert c parts. induction l as [|u l IH]; intros c parts Hinv Hnd Hrow Hrun; cbn [recover_uploads] in Hrun.
  { tx_all. split; [done|]. intros j v Hv. right. split; [apply not_elem_of_nil|done]. }
  tx_step Hrun. cbn [fmap list_fmap] in *. apply NoDup_cons in Hnd as [Hni Hnd].
  apply recover_upload_inv in Ha as (Hinv1 & Hset & Hother); [|done|by apply Hrow; left].
  apply IH in Ha0 as [Hinv' Hall]; [|done|done|].
  - split; [done|]. intros j v Hv. destruct (Hall j v Hv) as [Hact|[Hnj Hj]]; [by left|].
    destruct (decide (j = u_id u)) as [->|Hne]; [left; by apply Hset|right].
    rewrite <-Hother by done. split; [|done]. by apply not_elem_of_cons.
  - intros v Hv. rewrite Hother; [by apply Hrow; right|]. intros Heq. apply Hni. rewrite <-Heq.
    apply list_elem_of_fmap. by exists v.
Qed.

Lemma NoDup_fmap_filter {A B} (f : A → B) (P : A → Prop) `{∀ x, Decision (P x)} (l : list A) :
  NoDup (f <$> l) → NoDup (f <$> filter P l).
Proof.
  induction l as [|x l IH]; [done|]. cbn [fmap list_fmap]. intros [Hx Hl]%NoDup_cons.
  rewrite filter_cons. case_decide; [|by apply IH]. cbn [fmap list_fmap]. apply NoDup_cons.
  split; [|by apply IH]. intros (y & Heq & [_ Hy]%list_elem_of_filter)%list_elem_of_fmap.
  apply Hx. apply list_elem_of_fmap. by exists y.
Qed.

Lemma completing_uploads c :
  Inv c → let l := filter is_completing (table_iter (MULTIPART c)).*2 in
  NoDup (u_id <$> l) ∧ (∀ u, u ∈ l ↔ MULTIPART c !! u_id u = Some u ∧ is_completing u).
Proof.
  intros Hinv l.
  assert (Hrow : ∀ k u, (k, u) ∈ table_iter (MULTIPART c) → u_id u = k).
  { intros k u Hu%elem_of_table_iter. by apply (upload_row _ _ _ _ (inv_multipart _ Hinv)) in Hu as (? & _). }
  split.
  - assert (Hids : u_id <$> (table_iter (MULTIPART c)).*2 = (table_iter (MULTIPART c)).*1).
    { rewrite <-list_fmap_compose. apply list_fmap_ext. intros i [k u] Hi%list_elem_of_lookup_2. by apply Hrow. }
    assert (Hnd : NoDup (u_id <$> (table_iter (MULTIPART c)).*2)) by (rewrite Hids; apply table_iter_NoDup).
    subst l. by apply NoDup_fmap_filter.
  - intros u. subst l. rewrite list_elem_of_filter, list_elem_of_fmap. split.
    + intros [Hc ((k & u') & -> & Hu)]. pose proof (Hrow _ _ Hu) as <-. split; [by apply elem_of_table_iter|done].
    + intros [Hu Hc]. split; [done|]. exists (u_id u, u). split; [done|]. by apply elem_of_table_iter.
Qed.

Lemma recover_multipart_inv c parts c' :
  Inv c → recover_multipart_completions_tx c = (Ok parts, c') →
  Inv c' ∧ ∀ j u, MULTIPART c' !! j = Some u → u_state u = Active.
Proof.
  intros Hinv Hrun. unfold recover_multipart_completions_tx in Hrun. tx_step Hrun.
  destruct (completing_uploads c Hinv) as [Hnd Hl].
  apply recover_uploads_inv in Hb as [Hinv' Hall]; [|done|done|by intros u Hu; apply Hl].
  split; [done|]. intros j u Hu. destruct (Hall j u Hu) as [?|[Hnj Hj]]; [done|].
  destruct (u_state u) as [|oid] eqn:Hst; [done|]. destruct Hnj. apply list_elem_of_fmap. exists u.
  destruct (upload_row _ _ _ _ (inv_multipart _ Hinv) _ _ Hj) as (<- & _). split; [done|].
  apply Hl. split; [done|]. unfold is_completing. by rewrite Hst.
Qed.

(** ** Recovery does not fail *)

Lemma sum_parts_total parts :
  (∀ p, p ∈ parts → 0 ≤ p_size p) → sizes parts ≤ u64_max → sum_parts parts = Some (sizes parts).
Proof.
  intros Hp Hmax. unfold sum_parts.
  assert (Hgen : ∀ acc, 0 ≤ acc → acc + sizes parts ≤ u64_max →
    foldl (λ sum part, s ← sum; u64_checked_add s (p_size part)) (Some acc) parts = Some (acc + sizes parts)).
  { clear Hmax. induction parts as [|p parts IH]; simpl; intros acc Hacc Hle; [f_equal; lia|].
    assert (Hrest : ∀ q, q ∈ parts → 0 ≤ p_size q) by (intros q Hq; apply Hp; by right).
    pose proof (Hp p ltac:(by left)). pose proof (sizes_nonneg parts Hrest).
    assert (Hadd : u64_checked_add acc (p_size p) = Some (acc + p_size p))
      by (apply u64_checked_Some; split; [done|unfold is_u64; lia]).
    rewrite Hadd. rewrite IH by (done || lia). f_equal. lia. }
  rewrite Hgen by lia. f_equal.
Qed.

(** The parts of an upload weigh no more than its bucket's multipart bytes, nor
    than the total. *)
Lemma parts_bounds c id u parts :
  Inv c → MULTIPART c !! id = Some u → parts_of (PARTS c) id parts →
  0 ≤ sizes parts ∧ sizes parts ≤ multipart_bytes (usage_of c (u_bucket_id u)) ∧
  sizes parts ≤ counter c MULTIPART_BYTES.
Proof.
  intros Hinv Hu Hparts. pose proof (inv_multipart _ Hinv) as Hmp.
  assert (Hsz : ∀ k p, PARTS c !! k = Some p → 0 ≤ p_size p).
  { intros k p Hp. by destruct (part_row _ _ _ _ Hmp _ _ Hp) as (_ & (_ & _ & [? _]) & _). }
  assert (Hnn : 0 ≤ sizes parts).
  { apply sizes_nonneg. intros p Hp. destruct (parts_rows _ _ _ Hparts _ Hp). by eapply Hsz. }
  destruct (books_drop_parts (usage_of c) (totals c) (OBJECTS c) (VERSIONS c) (MULTIPART c) (PARTS c)
    (u_bucket_id u) id parts (inv_books _ Hinv)) as [Hus Htot]; [|apply Hparts|].
  { intros p Hp. destruct (parts_rows _ _ _ Hparts _ Hp) as [Hrow Hpu]. split; [done|].
    apply part_owner. by rewrite Hpu. }
  assert (Hsz' : ∀ k p, drop_parts id parts (PARTS c) !! k = Some p → 0 ≤ p_size p).
  { intros k p [Hp _]%drop_parts_lookup. by eapply Hsz. }
  split_and!; [done| |].
  - specialize (Hus (u_bucket_id u)). apply (f_equal multipart_bytes) in Hus.
    unfold bump in Hus. rewrite decide_True in Hus by done. simpl in Hus.
    pose proof (bsum_nonneg (part_bucket (MULTIPART c)) p_size (u_bucket_id u) _ Hsz'). lia.
  - apply (f_equal multipart_bytes) in Htot. simpl in Htot.
    pose proof (bsum_nonneg (part_bucket (MULTIPART c)) p_size (u_bucket_id u) _ Hsz').
    pose proof (bsum_le_tsum (part_bucket (MULTIPART c)) p_size (u_bucket_id u) _ Hsz'). lia.
Qed.

Lemma tx_iter_total {A} (f : A → step ()) l c :
  (∀ x c, ∃ c', f x c = (Ok (), c')) → ∃ c', tx_iter f l c = (Ok (), c').
Proof.
  intros Hf. revert c. induction l as [|x l IH]; intros c; cbn [tx_iter]; [by eexists|].
  destruct (Hf x c) as [c1 Hc1]. rewrite (tx_bind_run_ok _ _ _ _ _ Hc1). apply IH.
Qed.

Lemma remove_multipart_total id u at_ c :
  Inv c → MULTIPART c !! id = Some u → u_state u ≠ Active →
  ∃ parts c', remove_multipart_tx id true at_ c = (Ok parts, c').
Proof.
  intros Hinv Hu Hst. pose proof (inv_multipart _ Hinv) as Hmp.
  destruct (upload_row _ _ _ _ Hmp _ _ Hu) as (Hid & [Huuid _] & _). rewrite Hid in Huuid.
  pose proof (list_parts_spec _ _ _ _ _ Hmp Huuid) as Hlist.
  destruct (parts_bounds _ _ _ _ Hinv Hu Hlist) as (Hnn & Hub & Htb).
  set (parts := (table_range id (prefix_successor id) (PARTS c)).*2) in *.
  pose proof (inv_counters _ Hinv MULTIPART_BYTES) as Hc64.
  assert (Hu64 : ∀ b, fits (usage_of c b)) by (intros b; eapply usage_fits; apply Hinv).
  destruct (Hu64 (u_bucket_id u)) as (_ & _ & _ & _ & Hmb64). unfold is_u64 in *.
  assert (Hsum : sum_parts parts = Some (sizes parts)).
  { apply sum_parts_total; [|lia]. intros p Hp. destruct (parts_rows _ _ _ Hlist _ Hp) as [Hrow _].
    by destruct (part_row _ _ _ _ Hmp _ _ Hrow) as (_ & (_ & _ & [? _]) & _). }
  unfold remove_multipart_tx, list_parts_tx, read_bucket_usage, write_bucket_usage, mbind, tx_bind, tx_gets,
    tx_some, tx_guard, tx_modify, mret, tx_ret. rewrite Hu. cbn [ok_or].
  rewrite bool_decide_false by done. cbn [andb negb]. fold parts. rewrite Hsum. cbn [ok_or].
  change (usage_of (upd_parts _ _)) with (usage_of c).
  assert (Hsub : u64_checked_sub (multipart_bytes (usage_of c (u_bucket_id u))) (sizes parts) =
    Some (multipart_bytes (usage_of c (u_bucket_id u)) - sizes parts))
    by (apply u64_checked_Some; split; [done|unfold is_u64; lia]).
  rewrite Hsub. cbn [ok_or].
  match goal with |- context [adjust_counter ?n ?d ?c0] =>
    assert (Hadj : adjust_counter n d c0 = (Ok (), bump_counter n d c0)) end.
  { apply adjust_counter_ok. split; [done|]. rewrite counter_usage, counter_parts, counter_morder, counter_multipart.
    unfold is_u64. lia. }
  rewrite Hadj.
  destruct (tx_iter_total (λ part, queue_cleanup (p_object_id part)) parts
    (bump_counter MULTIPART_BYTES (- sizes parts) (upd_usage
      <[bucket_key (u_bucket_id u) := set_multipart_bytes (multipart_bytes (usage_of c (u_bucket_id u)) - sizes parts)
          (usage_of c (u_bucket_id u))]>
      (upd_parts (λ m, foldl (λ m part, delete (part_key id (p_number part)) m) m parts)
        (upd_morder (delete (multipart_order_key u)) (upd_multipart (delete id) c)))))) as [c' Hc'].
  { intros p c0. by eexists. }
  rewrite Hc'. by eexists _, _.
Qed.

Lemma recover_upload_total u c :
  Inv c → MULTIPART c !! u_id u = Some u → ∃ parts c', recover_upload u c = (Ok parts, c').
Proof.
  intros Hinv Hu. unfold recover_upload. destruct (u_state u) as [|oid] eqn:Hst; [by eexists _, _|].
  unfold mbind, tx_bind, tx_gets. destruct (match OBJECTS c !! _ with Some _ => _ | None => _ end).
  - eapply remove_multipart_total; [done|done|by rewrite Hst].
  - by eexists _, _.
Qed.

Lemma recover_uploads_total l c :
  Inv c → NoDup (u_id <$> l) → (∀ u, u ∈ l → MULTIPART c !! u_id u = Some u) →
  ∃ parts c', recover_uploads l c = (Ok parts, c').
Proof.
  revert c. induction l as [|u l IH]; intros c Hinv Hnd Hrow; cbn [recover_uploads]; [by eexists _, _|].
  cbn [fmap list_fmap] in *. apply NoDup_cons in Hnd as [Hni Hnd].
  destruct (recover_upload_total u c Hinv) as (parts & c1 & Hc1); [by apply Hrow; left|].
  rewrite (tx_bind_run_ok _ _ _ _ _ Hc1).
  destruct (recover_upload_inv _ _ _ _ Hinv (Hrow u ltac:(by left)) Hc1) as (Hinv1 & _ & Hother).
  destruct (IH c1 Hinv1 Hnd) as (rest & c2 & Hc2).
  { intros v Hv. rewrite Hother; [by apply Hrow; right|]. intros Heq. apply Hni. rewrite <-Heq.
    apply list_elem_of_fmap. by exists v. }
  rewrite (tx_bind_run_ok _ _ _ _ _ Hc2). by eexists _, _.
Qed.

Lemma recover_multipart_total c :
  Inv c → ∃ parts c', recover_multipart_completions_tx c = (Ok parts, c').
Proof.
  intros Hinv. unfold recover_multipart_completions_tx.
  destruct (completing_uploads c Hinv) as [Hnd Hl].
  apply (recover_uploads_total _ c Hinv Hnd). by intros u Hu; apply Hl.
Qed.

End CatalogMultipart.
End CatalogMultipart.
