(* ===== verification/Reachable.v ===== *)
(** * Reachable catalogs

    The catalogs a sequence of committed commands can lead to, starting from
    the empty catalog [initialize_schema] creates. What a caller of the
    metadata store must respect is [command_ok]: arguments are well-formed
    values of their Rust types, and the identifier it draws for a new version is
    not in use. Nothing is asked of the payload identifiers. Every reachable
    catalog satisfies the invariant. *)

From S2P Require Import Prelude Bytes Tables ObjectLock CoreTypes Keys Catalog Commands CatalogInv CatalogSteps CatalogUploads CatalogMultipart.
Import ObjectLock CoreTypes Keys Catalog Commands CatalogInv CatalogSteps CatalogUploads CatalogMultipart.

Module Reachable.

(** ** What a caller respects *)

Definition fresh_version (c : Catalog) (v : bytes) : Prop := VERSIONS c !! v = None.

Definition command_ok (c : Catalog) (cmd : MetadataCommand) : Prop :=
  match cmd with
  | CreateBucket b => uuid_ok (b_id b) ∧ quota_ok (b_quota b)
  | PutObject m _ _ =>
      record_ok (ObjectRecord m false) ∧ is_u64 (o_size m) ∧
      fresh_version c (o_version_id m)
  | DeleteObject b k values =>
      uuid_ok b ∧ key_ok k ∧ uuid_ok (marker_version_id values) ∧
      time_ok (marker_created_at values) ∧ fresh_version c (marker_version_id values)
  | DeleteObjectVersion b k _ _ => uuid_ok b ∧ key_ok k
  | CreateMultipartUpload u => upload_ok u
  | PutMultipartPart p => part_ok p
  | _ => True
  end.

#[export] Instance command_ok_dec c cmd : Decision (command_ok c cmd).
Proof. unfold command_ok, fresh_version. destruct cmd; apply _. Defined.

Section Reachable.
Context `{UuidCrate}.

Lemma apply_command_inv cmd c o c' :
  Inv c → command_ok c cmd → apply_command_tx cmd c = (Ok o, c') → Inv c'.
Proof.
  intros Hinv Hok Hrun. unfold apply_command_tx in Hrun.
  destruct cmd; cbn [command_ok] in Hok; tx_step Hrun.
  - destruct Hok. by eapply create_bucket_inv.
  - by eapply set_versioning_inv.
  - by eapply set_quota_inv.
  - by eapply set_cors_inv.
  - by eapply delete_bucket_inv.
  - by eapply set_object_lock_inv.
  - destruct Hok as (? & ? & ?). by eapply put_object_inv.
  - destruct Hok as (Hb & Hk & Hv & Ht & Hnew). exact (delete_object_inv _ _ _ _ _ _ Hinv Hb Hk Hv Ht Hnew Ha).
  - destruct Hok. by eapply delete_object_version_inv.
  - by eapply put_object_lock_inv.
  - destruct (observe_clock_ok _ _ _ _ Ha) as [f ->]. by apply clock_inv.
  - by eapply create_multipart_upload_inv.
  - by eapply put_multipart_part_inv.
  - by eapply begin_multipart_completion_inv.
  - by eapply remove_multipart_inv.
  - by eapply remove_multipart_inv.
  - by eapply recover_multipart_inv.
  - by eapply put_lifecycle_rule_inv.
  - by eapply delete_lifecycle_rule_inv.
  - by eapply complete_cleanup_inv.
  - by eapply prune_inv.
Qed.

(** ** Runs *)

(** Commands committed one after the other; a command that fails changes nothing. *)
Fixpoint run (cmds : list MetadataCommand) (c : Catalog) : Catalog :=
  match cmds with [] => c | cmd :: cmds => run cmds (commit_one cmd c).2 end.

(** Every command of the run is one its caller may issue where it is issued. *)
Fixpoint admissible (c : Catalog) (cmds : list MetadataCommand) : Prop :=
  match cmds with
  | [] => True
  | cmd :: cmds => command_ok c cmd ∧ admissible (commit_one cmd c).2 cmds
  end.

#[export] Instance admissible_dec c cmds : Decision (admissible c cmds).
Proof. revert c. induction cmds as [|cmd cmds IH]; intros c; cbn; apply _. Defined.

Definition reachable (c : Catalog) : Prop :=
  ∃ cmds, admissible empty_catalog cmds ∧ c = run cmds empty_catalog.

Lemma commit_one_cases cmd c :
  (∃ o c', apply_command_tx cmd c = (Ok o, c') ∧ commit_one cmd c = (Ok o, c')) ∨
  (∃ e, commit_one cmd c = (Err e, c)).
Proof.
  unfold commit_one, atomically. destruct (apply_command_tx cmd c) as [[o|e] c']; eauto 10.
Qed.

Lemma commit_one_ok cmd c o c' : commit_one cmd c = (Ok o, c') → apply_command_tx cmd c = (Ok o, c').
Proof. unfold commit_one, atomically. by destruct (apply_command_tx cmd c) as [[?|?] ?]; intros; simplify_eq. Qed.

Lemma commit_one_inv cmd c : Inv c → command_ok c cmd → Inv (commit_one cmd c).2.
Proof.
  intros Hinv Hok. destruct (commit_one_cases cmd c) as [(o & c' & Hrun & ->)|[e ->]]; [|done].
  by eapply apply_command_inv.
Qed.

Lemma run_inv cmds c : Inv c → admissible c cmds → Inv (run cmds c).
Proof.
  revert c. induction cmds as [|cmd cmds IH]; intros c Hinv Hok; [done|].
  destruct Hok as [Hcmd Hok]. cbn [run]. apply IH; [by apply commit_one_inv|done].
Qed.

Lemma run_app cmds cmds' c : run (cmds ++ cmds') c = run cmds' (run cmds c).
Proof. revert c. induction cmds as [|cmd cmds IH]; intros c; [done|]. apply IH. Qed.

Lemma admissible_app c cmds cmds' :
  admissible c (cmds ++ cmds') ↔ admissible c cmds ∧ admissible (run cmds c) cmds'.
Proof.
  revert c. induction cmds as [|cmd cmds IH]; intros c; simpl; [tauto|]. rewrite IH. tauto.
Qed.

Lemma empty_inv : Inv empty_catalog.
Proof.
  assert (Hn : ∀ {A} (k : bytes) (x : A), (∅ : gmap bytes A) !! k = Some x → False)
    by (intros A k x; by rewrite lookup_empty).
  split; try done.
  - split; try done; intros k v; (split; [done|]); intros (r & Hx & _); by apply Hn in Hx.
  - split; try done. intros k. left. apply lookup_empty.
  - split; try done. intros k v. split; [done|]. intros (r & Hx & _). by apply Hn in Hx.
  - split; [done|]. exists 0. split_and!; [done| |done].
    intros s. split; [by intros [? ?]|]. change (counter empty_catalog _) with 0. lia.
Qed.

Lemma reachable_inv c : reachable c → Inv c.
Proof. intros (cmds & Hok & ->). by apply run_inv; [apply empty_inv|]. Qed.
End Reachable.

End Reachable.

(** * What commands leave alone

    The clock's high-water mark of [observe_clock] only rises, and the rows of
    the storage-event journal are never rewritten: facts about every step of
    every command of [crates/record-store-metadata/src/commands.rs], whether
    the command succeeds or fails. *)

Import ObjectLock CoreTypes Keys Catalog Commands CatalogInv CatalogSteps CatalogUploads CatalogMultipart Reachable.

Module Frames.
(** Every definition a command is made of, down to reads and writes of tables. *)
Ltac unfold_command :=
  unfold apply_command_tx, create_bucket_tx, set_bucket_versioning_tx, set_bucket_object_lock_tx,
    set_bucket_quota_tx, delete_bucket_tx, put_object_tx, delete_object_tx, delete_by_versioning,
    remove_null_record, write_marker, delete_object_version_tx, promote_latest, uncount_version,
    uncount_current, put_object_lock_tx, create_multipart_upload_tx, put_multipart_part_tx,
    begin_multipart_completion_tx, remove_multipart_tx, put_lifecycle_rule_tx, delete_lifecycle_rule_tx,
    complete_cleanup_tx, update_bucket_tx, bucket_name_of, enforce_deletable, assert_unlocked,
    prune_mutation_events_tx, read_bucket, read_bucket_usage, write_bucket_usage,
    insert_version, remove_version, take_null, set_null, clear_null, latest_version, publish_current,
    remove_current, current_version, list_parts_tx, has_multipart, queue_cleanup, adjust_counter,
    read_object_lock, write_object_lock, remove_object_lock.

(** ** The clock *)

Definition mark (c : Catalog) : option Z := CLOCK c !! CLOCK_WATERMARK.
Definition mark_le (c c' : Catalog) : Prop :=
  match mark c, mark c' with
  | Some m, Some m' => m ≤ m'
  | Some _, None => False
  | None, _ => True
  end.

#[export] Instance mark_le_preorder : PreOrder mark_le.
Proof.
  split.
  - intros c. unfold mark_le. by destruct (mark c).
  - intros c1 c2 c3. unfold mark_le. destruct (mark c1), (mark c2), (mark c3); try done. lia.
Qed.

Lemma mark_same c c' : CLOCK c' = CLOCK c → mark_le c c'.
Proof. intros Heq. unfold mark_le, mark. rewrite Heq. by destruct (CLOCK c !! CLOCK_WATERMARK). Qed.

(** ** The journal *)

(** Rows of the journal stay, and new rows get new numbers. *)
Definition journal_grows (c c' : Catalog) : Prop :=
  journal_ok (MUTATION_EVENTS c) (counter c MUTATION_EVENT_SEQUENCE) →
  journal_ok (MUTATION_EVENTS c') (counter c' MUTATION_EVENT_SEQUENCE) ∧
  counter c MUTATION_EVENT_SEQUENCE ≤ counter c' MUTATION_EVENT_SEQUENCE ∧
  ∀ s e, MUTATION_EVENTS c !! s = Some e → MUTATION_EVENTS c' !! s = Some e.

#[export] Instance journal_grows_preorder : PreOrder journal_grows.
Proof.
  split.
  - intros c Hj. done.
  - intros c1 c2 c3 H12 H23 Hj. destruct (H12 Hj) as (Hj2 & Hle & Hrows).
    destruct (H23 Hj2) as (Hj3 & Hle' & Hrows'). split_and!; [done|lia|auto].
Qed.

Lemma journal_same c c' :
  MUTATION_EVENTS c' = MUTATION_EVENTS c →
  counter c' MUTATION_EVENT_SEQUENCE = counter c MUTATION_EVENT_SEQUENCE → journal_grows c c'.
Proof. intros HE HC Hj. rewrite HE, HC. done. Qed.

(** Closes what remains of a frame after [keeps_steps]. *)
Ltac frame_with same :=
  match goal with
  | |- keeps _ (tx_modify _) => apply keeps_modify; intros ?; apply same; first [done|by counters]
  end.

Section Frames.
Context `{UuidCrate}.

Lemma observe_clock_mark release : keeps mark_le (observe_clock release).
Proof.
  intros c r c' Hrun. unfold observe_clock, mbind, tx_bind, tx_gets, tx_guard, tx_modify, mret, tx_ret in Hrun.
  destruct (CLOCK c !! CLOCK_WATERMARK) as [m|] eqn:Hm.
  - destruct (negb _); [|by simplify_eq]. destruct (m <? micros (observed_at release)) eqn:Hlt; simplify_eq; [|by apply mark_same].
    unfold mark_le, mark. rewrite Hm. cbn. rewrite lookup_insert_eq. bool_facts. lia.
  - simplify_eq. unfold mark_le, mark. by rewrite Hm.
Qed.

Lemma journal_event_mark ty b k v sz at_ : keeps mark_le (journal_event ty b k v sz at_).
Proof. unfold journal_event. keeps_steps; frame_with mark_same. Qed.

Lemma remove_multipart_mark id completing at_ : keeps mark_le (remove_multipart_tx id completing at_).
Proof. unfold_command. keeps_steps; first [apply journal_event_mark|frame_with mark_same]. Qed.

Lemma recover_multipart_mark : keeps mark_le recover_multipart_completions_tx.
Proof.
  unfold recover_multipart_completions_tx. keeps_steps.
  match goal with |- keeps _ (recover_uploads ?l) => induction l as [|u l IH] end; cbn [recover_uploads]; keeps_steps.
  - unfold recover_upload. keeps_steps; first [apply remove_multipart_mark|frame_with mark_same].
  - done.
Qed.

Lemma apply_command_mark cmd : keeps mark_le (apply_command_tx cmd).
Proof.
  destruct cmd; unfold_command; keeps_steps;
    first [apply observe_clock_mark|apply journal_event_mark|apply recover_multipart_mark|frame_with mark_same].
Qed.

Lemma journal_event_grows ty b k v sz at_ : keeps journal_grows (journal_event ty b k v sz at_).
Proof.
  intros c r c' Hrun Hj. destruct r as [u|e].
  - apply journal_event_ok in Hrun as (e & He & _ & ->). rewrite counter_events, counter_upd, decide_True by done.
    split_and!; [by apply journal_extend|lia|]. intros s e' He'. tables. rewrite lookup_insert_ne; [done|].
    destruct Hj as (_ & pruned & _ & Hdom & _). assert (is_Some (MUTATION_EVENTS c !! s)) as Hs by eauto.
    apply Hdom in Hs. lia.
  - unfold journal_event, mbind, tx_bind, tx_gets, tx_some, tx_modify in Hrun.
    destruct (u64_checked_add _ _); simpl in Hrun; simplify_eq.
    split_and!; [done|lia|done].
Qed.

Lemma remove_multipart_grows id completing at_ : keeps journal_grows (remove_multipart_tx id completing at_).
Proof. unfold_command. keeps_steps; first [apply journal_event_grows|frame_with journal_same]. Qed.

Lemma recover_multipart_grows : keeps journal_grows recover_multipart_completions_tx.
Proof.
  unfold recover_multipart_completions_tx. keeps_steps.
  match goal with |- keeps _ (recover_uploads ?l) => induction l as [|u l IH] end; cbn [recover_uploads]; keeps_steps.
  - unfold recover_upload. keeps_steps; first [apply remove_multipart_grows|frame_with journal_same].
  - done.
Qed.

Lemma observe_clock_grows release : keeps journal_grows (observe_clock release).
Proof. unfold observe_clock. keeps_steps; frame_with journal_same. Qed.

Definition is_prune (cmd : MetadataCommand) : bool :=
  match cmd with PruneMutationEvents _ => true | _ => false end.

Lemma apply_command_grows cmd : is_prune cmd = false → keeps journal_grows (apply_command_tx cmd).
Proof.
  destruct cmd; intros Hp; try discriminate Hp; clear Hp; unfold_command; keeps_steps;
    first [apply observe_clock_grows|apply journal_event_grows|apply recover_multipart_grows|frame_with journal_same].
Qed.

End Frames.
End Frames.

(** * Concrete catalogs

    Small values of the catalog's types and runs over them, used to exhibit that
    the theorems' hypotheses can hold. The [uuid] crate is instantiated by a
    concrete function. *)

Import ObjectLock CoreTypes Keys Catalog Commands Reachable.

Module Samples.

Definition sample_uuids : UuidCrate := {| new_v5 := λ _ m, take 16 m; uuid_to_string := λ id, id |}.
#[local] Existing Instance sample_uuids.

Definition uid (n : Z) : bytes := replicate 15%nat 0 ++ [n].

Definition sample_bucket (v : VersioningState) (q : BucketQuota) (l : option ObjectLockConfiguration) : Bucket :=
  {| b_id := uid 1; b_organization_id := uid 2; b_name := [98; 49]; b_created_at := 0;
     b_versioning := v; b_quota := q; b_storage_class := None; b_durability_policy := None;
     b_object_lock := l; b_cors := None |}.
Definition no_quota : BucketQuota := {| quota_bytes := UnlimitedBytes; quota_objects := UnlimitedObjects |}.

(** Object number [n] under a key, of a size, at a time. *)
Definition sample_object (n : Z) (key : bytes) (size t : Z) : ObjectMetadata :=
  {| o_id := uid (100 + n); o_bucket_id := uid 1; o_key := key; o_version_id := uid (10 + n);
     o_size := size; o_checksum := {| checksum_algorithm := Sha256Checksum; checksum_digest := [] |};
     o_payload_format := Plaintext; o_durability := Single; o_etag := []; o_content_type := None;
     o_custom_metadata := ∅; o_created_at := t; o_modified_at := t |}.
Definition sample_marker (n t : Z) : NewDeleteMarker :=
  {| marker_version_id := uid (50 + n); marker_created_at := t |}.
Definition sample_upload : MultipartUpload :=
  {| u_id := uid 3; u_bucket_id := uid 1; u_key := [99]; u_content_type := None; u_custom_metadata := ∅;
     u_object_lock := None; u_initiated_at := 4000; u_state := Active |}.
Definition sample_part (n : Z) (size : Z) : UploadedPart :=
  {| p_upload_id := uid 3; p_number := n; p_object_id := uid (200 + n); p_size := size;
     p_checksum := {| checksum_algorithm := Sha256Checksum; checksum_digest := [] |};
     p_payload_format := Plaintext; p_etag := []; p_modified_at := 5000 |}.

(** Two versions of a key, a marker over them, an upload with a part. *)
Definition sample_run : list MetadataCommand :=
  [CreateBucket (sample_bucket Enabled {| quota_bytes := LimitBytes 40; quota_objects := UnlimitedObjects |} None);
   PutObject (sample_object 1 [97] 5 1000) None Direct;
   PutObject (sample_object 2 [97] 7 2000) None Copy;
   DeleteObject (uid 1) [97] (sample_marker 1 3000);
   CreateMultipartUpload sample_upload;
   PutMultipartPart (sample_part 1 9);
   BeginMultipartCompletion (uid 3) (uid 77)].
Definition sample_catalog : Catalog := run sample_run empty_catalog.

Lemma sample_reachable : reachable sample_catalog.
Proof. exists sample_run. split; [|done]. apply (bool_decide_unpack (admissible empty_catalog _)). vm_compute. exact I. Defined.

(** A bucket with Object Lock and a version under a compliance retention. *)
Definition sample_retention : Retention := {| mode := Compliance; retain_until := 9000000000 |}.
Definition locked_run : list MetadataCommand :=
  [CreateBucket (sample_bucket Enabled no_quota (Some {| default_retention := None |}));
   PutObject (sample_object 1 [97] 5 1000)
     (Some {| retention := Some sample_retention; legal_hold := true |}) Direct].
Definition locked_catalog : Catalog := run locked_run empty_catalog.

Lemma locked_reachable : reachable locked_catalog.
Proof. exists locked_run. split; [|done]. apply (bool_decide_unpack (admissible empty_catalog _)). vm_compute. exact I. Defined.

End Samples.
