(* ===== verification/CatalogPayloads.v ===== *)
(** * Payloads in the catalog

    Which payload files the catalog refers to, with the size, digest and format
    it records for them, and how one committed command changes that: what the
    storage engine relies on when it publishes and removes files. *)

From S2P Require Import Prelude Bytes Tables ObjectLock CoreTypes Keys Catalog Commands CatalogInv CatalogSteps CatalogUploads CatalogMultipart Reachable.
Import ObjectLock CoreTypes Keys Catalog Commands CatalogInv CatalogSteps CatalogUploads CatalogMultipart Reachable Frames.

Module CatalogPayloads.

(** A payload the catalog refers to. *)
Record PayloadClaim := { pc_id : bytes; pc_size : Z; pc_checksum : Checksum; pc_format : PayloadFormat }.

Definition claim_of_object (m : ObjectMetadata) : PayloadClaim :=
  {| pc_id := o_id m; pc_size := o_size m; pc_checksum := o_checksum m; pc_format := o_payload_format m |}.
Definition claim_of_part (p : UploadedPart) : PayloadClaim :=
  {| pc_id := p_object_id p; pc_size := p_size p; pc_checksum := p_checksum p; pc_format := p_payload_format p |}.

Definition claims (c : Catalog) (x : PayloadClaim) : Prop :=
  (∃ v r m, VERSIONS c !! v = Some r ∧ as_object r = Some m ∧ x = claim_of_object m) ∨
  (∃ k p, PARTS c !! k = Some p ∧ x = claim_of_part p).

(** The payload a command refers to for the first time. *)
Definition introduces (cmd : MetadataCommand) : option PayloadClaim :=
  match cmd with
  | PutObject m _ _ => Some (claim_of_object m)
  | PutMultipartPart p => Some (claim_of_part p)
  | _ => None
  end.

(** The payloads an outcome hands over for removal. *)
Definition outcome_payloads (o : MetadataOutcome) : list bytes :=
  match o with
  | ObjectCommitOutcome cleanup => o_id <$> cleanup
  | DeleteObjectOutcome result => o_id <$> delete_cleanup result
  | DeleteVersionOutcome (Some result) => o_id <$> option_list (version_cleanup result)
  | ReplacedPartOutcome (Some part) => [p_object_id part]
  | MultipartCleanupOutcome parts => p_object_id <$> parts
  | _ => []
  end.

(** A step refers to nothing new but [new], and queues only what was referred to. *)
Record payload_step (new : option PayloadClaim) (c c' : Catalog) : Prop := {
  step_claims : ∀ x, claims c' x → claims c x ∨ new = Some x;
  step_cleanup : ∀ id, is_Some (CLEANUP c' !! id) → is_Some (CLEANUP c !! id) ∨ ∃ x, claims c x ∧ pc_id x = id }.

Definition payload_same (c c' : Catalog) : Prop :=
  VERSIONS c' = VERSIONS c ∧ PARTS c' = PARTS c ∧ CLEANUP c' = CLEANUP c.

#[export] Instance payload_same_preorder : PreOrder payload_same.
Proof. split; [done|]. intros c1 c2 c3 (? & ? & ?) (? & ? & ?). unfold payload_same. split_and!; congruence. Qed.

Lemma same_step new c c' : payload_same c c' → payload_step new c c'.
Proof.
  intros (HV & HP & HC). split.
  - intros x. unfold claims. rewrite HV, HP. by left.
  - intros id. rewrite HC. by left.
Qed.

Lemma payload_step_trans new c1 c2 c3 : payload_step None c1 c2 → payload_step new c2 c3 → payload_step new c1 c3.
Proof.
  intros [A1 A2] [B1 B2]. assert (Hold : ∀ x, claims c2 x → claims c1 x) by (intros x Hx; by destruct (A1 x Hx)).
  split.
  - intros x Hx. destruct (B1 x Hx); [left; by apply Hold|by right].
  - intros id Hid. destruct (B2 id Hid) as [H|(x & Hx & <-)]; [by apply A2|]. right. exists x. split; [by apply Hold|done].
Qed.

(** A step that drops the version [ro], inserts rows and queues what was dropped. *)
Lemma dropped_step (new : option PayloadClaim) (c c' : Catalog) (ro : option ObjectVersionRecord)
    (f : gmap bytes ObjectVersionRecord → gmap bytes ObjectVersionRecord) :
  from_option (λ r, VERSIONS c !! version_id r = Some r) True ro →
  VERSIONS c' = f (vdrop ro (VERSIONS c)) →
  (∀ t v r m, f t !! v = Some r → as_object r = Some m → t !! v = Some r ∨ new = Some (claim_of_object m)) →
  PARTS c' = PARTS c → CLEANUP c' = queued (ro ≫= as_object) (CLEANUP c) → payload_step new c c'.
Proof.
  intros Hro HV Hf HP HC. split.
  - intros x. unfold claims. rewrite HV, HP. intros [(v & r & m & Hv & Hm & ->)|Hp]; [|by left; right].
    destruct (Hf _ _ _ _ Hv Hm) as [Hold|Hnew]; [|by right]. left. left. exists v, r, m. split_and!; [|done|done].
    destruct ro as [old|]; [|done]. cbn [vdrop] in Hold. by apply lookup_delete_Some in Hold as [_ ?].
  - intros id. rewrite HC. destruct ro as [r|]; [|by left]. cbn. destruct (as_object r) as [m|] eqn:Hm; [|by left]. cbn.
    destruct (decide (id = o_id m)) as [->|Hne]; [|rewrite lookup_insert_ne by done; by left].
    intros _. right. exists (claim_of_object m). split; [|done]. left. exists (version_id r), r, m. done.
Qed.

Lemma replaced_payload_row V N null (key : bytes) ro :
  replaces V N null key ro → from_option (λ r, V !! version_id r = Some r) True ro.
Proof. destruct ro as [r|]; [|done]. by intros (_ & Hr & _). Qed.

Section Payloads.
Context `{UuidCrate}.

Lemma journal_event_same ty b k v sz at_ : keeps payload_same (journal_event ty b k v sz at_).
Proof. unfold journal_event. keeps_steps; apply keeps_modify; done. Qed.
Lemma journal_events_same b k v sz at_ l :
  keeps payload_same (tx_iter (λ ty, journal_event ty b k v sz at_) l).
Proof. keeps_steps. apply journal_event_same. Qed.
Lemma observe_clock_same release : keeps payload_same (observe_clock release).
Proof. unfold observe_clock. keeps_steps; apply keeps_modify; done. Qed.

Lemma step_then_same new c c1 c' : payload_step new c c1 → payload_same c1 c' → payload_step new c c'.
Proof.
  intros [A1 A2] (HV & HP & HC). split.
  - intros x. unfold claims at 1. rewrite HV, HP. apply A1.
  - intros id. rewrite HC. apply A2.
Qed.

Lemma queued_lookup mo t id : id ∈ (o_id <$> option_list mo) → is_Some (queued mo t !! id).
Proof.
  destruct mo as [m|]; cbn; [|by intros ?%elem_of_nil]. intros ->%list_elem_of_singleton.
  rewrite lookup_insert_eq. by eexists.
Qed.

(** ** The commands that change versions *)

Lemma put_object_step m lo origin c cl c' :
  Inv c → put_object_tx m lo origin c = (Ok cl, c') →
  payload_step (Some (claim_of_object m)) c c' ∧ (∀ id, id ∈ (o_id <$> cl) → is_Some (CLEANUP c' !! id)).
Proof.
  intros Hinv Hrun. destruct (put_object_ok _ _ _ _ _ _ Hinv Hrun) as (b & ro & f & c1 & Hb & Hro & _ & _ & _ & Hc1 & _ & -> & Hj).
  apply journal_events_same in Hj as Hs. assert (HC : CLEANUP c1 = queued (ro ≫= as_object) (CLEANUP c)) by by rewrite Hc1.
  split.
  - eapply step_then_same; [|exact Hs].
    apply (dropped_step _ _ _ ro <[o_version_id m := ObjectRecord m (not_enabled b)]>); [by eapply replaced_payload_row|by rewrite Hc1| |by rewrite Hc1|done].
    intros t v r m' Hv Hm'. apply lookup_insert_Some in Hv as [[_ <-]|[_ Hv]]; [|by left]. right. cbn in Hm'. by injection Hm' as <-.
  - intros id Hid. destruct Hs as (_ & _ & ->). rewrite HC. by apply queued_lookup.
Qed.

Lemma delete_object_step bucket k values c res c' :
  Inv c → delete_object_tx bucket k values c = (Ok res, c') →
  payload_step None c c' ∧ (∀ id, id ∈ (o_id <$> delete_cleanup res) → is_Some (CLEANUP c' !! id)).
Proof.
  intros Hinv Hrun. destruct (delete_object_ok _ _ _ _ _ _ Hinv Hrun) as (b & ro & u & c1 & Hb & Hro & Hc1 & _ & _ & -> & Hj).
  assert (Hs : payload_same c1 c') by (destruct Hj as [[-> _]|Hj]; [done|by apply journal_event_same in Hj]).
  assert (HC : CLEANUP c1 = queued (ro ≫= as_object) (CLEANUP c)) by by rewrite Hc1.
  split.
  - eapply step_then_same; [|exact Hs].
    apply (dropped_step _ _ _ ro (add_marker_row (not_enabled b) (marker_of b bucket k values)));
      [by eapply replaced_payload_row|by rewrite Hc1| |by rewrite Hc1|done].
    intros t v r m Hv Hm. destruct (marker_of b bucket k values) as [d|]; [|by left]. cbn in Hv.
    apply lookup_insert_Some in Hv as [[_ <-]|[_ Hv]]; [done|by left].
  - intros id Hid. destruct Hs as (_ & _ & ->). rewrite HC. by apply queued_lookup.
Qed.

Lemma delete_object_version_step bucket k version release c res c' :
  Inv c → uuid_ok bucket → key_ok k → delete_object_version_tx bucket k version release c = (Ok res, c') →
  payload_step None c c' ∧
  (∀ id, id ∈ outcome_payloads (DeleteVersionOutcome res) → is_Some (CLEANUP c' !! id)).
Proof.
  intros Hinv Hbucket Hk Hrun.
  destruct (delete_object_version_ok _ _ _ _ _ _ _ Hinv Hbucket Hk Hrun)
    as [[-> ->]|(r & f & next & u & c1 & Hr & _ & _ & _ & _ & Hc1 & _ & _ & -> & b & _ & Hj)].
  { split; [by apply same_step|]. cbn. by intros id ?%elem_of_nil. }
  apply journal_event_same in Hj as Hs. assert (HC : CLEANUP c1 = queued (as_object r) (CLEANUP c)) by by rewrite Hc1.
  assert (Hv : version_id r = version) by by eapply (versions_id (inv_versions _ Hinv)).
  split.
  - eapply step_then_same; [|exact Hs]. apply (dropped_step _ _ _ (Some r) id); [by rewrite <-Hv in Hr|by rewrite Hc1|by left|by rewrite Hc1|done].
  - intros id Hid. destruct Hs as (_ & _ & ->). rewrite HC. by apply queued_lookup.
Qed.

(** ** The commands that change parts *)

Lemma put_multipart_part_step part c prev c' :
  Inv c → put_multipart_part_tx part c = (Ok prev, c') →
  payload_step (Some (claim_of_part part)) c c' ∧
  (∀ id, id ∈ outcome_payloads (ReplacedPartOutcome prev) → is_Some (CLEANUP c' !! id)).
Proof.
  intros Hinv Hrun. destruct (put_multipart_part_ok _ _ _ _ Hinv Hrun) as (u & b & _ & _ & _ & Hprev & _ & Hc' & _).
  assert (HV : VERSIONS c' = VERSIONS c) by by rewrite Hc'.
  assert (HP : PARTS c' = <[part_key (p_upload_id part) (p_number part) := part]> (PARTS c)) by by rewrite Hc'.
  assert (HC : CLEANUP c' = match prev with Some old => <[p_object_id old := 1]> (CLEANUP c) | None => CLEANUP c end) by by rewrite Hc'.
  split; [split|].
  - intros x. unfold claims. rewrite HV, HP. intros [Hv|(k & p & Hp & ->)]; [by left; left|].
    apply lookup_insert_Some in Hp as [[_ <-]|[_ Hp]]; [by right|]. left. right. by exists k, p.
  - intros id. rewrite HC. destruct prev as [old|]; [|by left].
    destruct (decide (id = p_object_id old)) as [->|Hne]; [|rewrite lookup_insert_ne by done; by left].
    intros _. right. exists (claim_of_part old). split; [|done]. right. by eexists _, old.
  - intros id. rewrite HC. destruct prev as [old|]; cbn; [|by intros ?%elem_of_nil].
    intros ->%list_elem_of_singleton. rewrite lookup_insert_eq. by eexists.
Qed.

Lemma queue_parts_lookup parts t id :
  is_Some (queue_parts parts t !! id) ↔ is_Some (t !! id) ∨ id ∈ (p_object_id <$> parts).
Proof.
  unfold queue_parts. revert t. induction parts as [|p parts IH]; intros t; cbn [foldl fmap list_fmap].
  - split; [by left|]. intros [?|?%elem_of_nil]; done.
  - rewrite IH, lookup_insert_is_Some', elem_of_cons. naive_solver.
Qed.

Lemma remove_multipart_step id completing at_ c parts c' :
  Inv c → remove_multipart_tx id completing at_ c = (Ok parts, c') →
  payload_step None c c' ∧ (∀ x, x ∈ (p_object_id <$> parts) → is_Some (CLEANUP c' !! x)).
Proof.
  intros Hinv Hrun. destruct (remove_multipart_ok _ _ _ _ _ _ Hinv Hrun) as (u & c1 & Hu & _ & Hparts & Hc1 & _ & Hj).
  assert (Hs : payload_same c1 c') by (destruct Hj as [[_ ->]|(_ & name & Hj)]; [done|by apply journal_event_same in Hj]).
  assert (HV : VERSIONS c1 = VERSIONS c) by by rewrite Hc1.
  assert (HP : PARTS c1 = drop_parts (u_id u) parts (PARTS c)) by by rewrite Hc1.
  assert (HC : CLEANUP c1 = queue_parts parts (CLEANUP c)) by by rewrite Hc1.
  split.
  - eapply step_then_same; [|exact Hs]. split.
    + intros x. unfold claims. rewrite HV, HP. intros [Hv|(k & p & [Hp _]%drop_parts_lookup & ->)]; left; [by left|].
      right. by exists k, p.
    + intros x. rewrite HC, queue_parts_lookup. intros [Hx|Hx]; [by left|]. right.
      apply list_elem_of_fmap in Hx as (p & -> & Hp). exists (claim_of_part p). split; [|done]. right.
      rewrite Hparts in Hp. apply list_elem_of_fmap in Hp as ([k q] & -> & Hp). apply elem_of_table_range in Hp as (Hp & _). by exists k, q.
  - intros x Hx. destruct Hs as (_ & _ & ->). rewrite HC. apply queue_parts_lookup. by right.
Qed.
(** ** All commands *)

Lemma recover_uploads_step l c parts c' :
  Inv c → NoDup (u_id <$> l) → (∀ u, u ∈ l → MULTIPART c !! u_id u = Some u) →
  recover_uploads l c = (Ok parts, c') → payload_step None c c'.
Proof.
  revert c parts. induction l as [|u l IH]; intros c parts Hinv Hnd Hrow Hrun; cbn [recover_uploads] in Hrun.
  { tx_all. by apply same_step. }
  tx_step Hrun. cbn [fmap list_fmap] in *. apply NoDup_cons in Hnd as [Hni Hnd].
  assert (Hstep : payload_step None c s).
  { unfold recover_upload in Ha. destruct (u_state u); [tx_all; by apply same_step|]. tx_step Ha.
    destruct (match OBJECTS c !! _ with Some _ => _ | None => _ end); [by eapply remove_multipart_step|].
    tx_all. by apply same_step. }
  apply recover_upload_inv in Ha as (Hinv1 & _ & Hother); [|done|by apply Hrow; left].
  eapply payload_step_trans; [exact Hstep|]. eapply IH; [done|done| |eassumption].
  intros v Hv. rewrite Hother; [by apply Hrow; right|]. intros Heq. apply Hni. rewrite <-Heq.
  apply list_elem_of_fmap. by exists v.
Qed.

Lemma recover_multipart_step c parts c' :
  Inv c → recover_multipart_completions_tx c = (Ok parts, c') → payload_step None c c'.
Proof.
  intros Hinv Hrun. unfold recover_multipart_completions_tx in Hrun. tx_step Hrun.
  destruct (completing_uploads c Hinv) as [Hnd Hl]. eapply recover_uploads_step; [done|done| |eassumption].
  by intros u Hu; apply Hl.
Qed.

Lemma complete_cleanup_step id c u c' : complete_cleanup_tx id c = (Ok u, c') → payload_step None c c'.
Proof.
  intros Hrun. unfold complete_cleanup_tx in Hrun. tx_all. split; [by left|]. tables.
  intros x. rewrite lookup_delete_is_Some. by intros [_ ?]; left.
Qed.

Definition moves_payloads (cmd : MetadataCommand) : bool :=
  match cmd with
  | PutObject _ _ _ | DeleteObject _ _ _ | DeleteObjectVersion _ _ _ _ | PutMultipartPart _ | FinishMultipartUpload _
  | AbortMultipartUpload _ _ | RecoverMultipartCompletions | CompleteCleanup _ => true
  | _ => false
  end.

Lemma quiet_same cmd : moves_payloads cmd = false → keeps payload_same (apply_command_tx cmd).
Proof.
  destruct cmd; intros Hq; try discriminate Hq; unfold_command; keeps_steps;
    first [apply observe_clock_same|apply journal_event_same|apply keeps_modify; done].
Qed.

Lemma command_payloads cmd c o c' :
  Inv c → command_ok c cmd → apply_command_tx cmd c = (Ok o, c') →
  payload_step (introduces cmd) c c' ∧
  (cmd ≠ RecoverMultipartCompletions → ∀ id, id ∈ outcome_payloads o → is_Some (CLEANUP c' !! id)).
Proof.
  intros Hinv Hok Hrun.
  destruct (moves_payloads cmd) eqn:Hq.
  2:{ pose proof (quiet_same _ Hq _ _ _ Hrun) as Hs. split; [by apply same_step|]. intros _ id Hid. exfalso.
      destruct cmd; try discriminate Hq; unfold apply_command_tx in Hrun; tx_step Hrun; by apply elem_of_nil in Hid. }
  destruct cmd; try discriminate Hq; cbn [introduces]; clear Hq.
  all: unfold apply_command_tx in Hrun; tx_step Hrun.
  all: cbn [command_ok] in Hok.
  - by apply put_object_step in Ha as [? ?].
  - by apply delete_object_step in Ha as [? ?].
  - by apply delete_object_version_step in Ha as [? ?]; [|done|apply Hok..].
  - by apply put_multipart_part_step in Ha as [? ?].
  - by apply remove_multipart_step in Ha as [? ?].
  - by apply remove_multipart_step in Ha as [? ?].
  - split; [by eapply recover_multipart_step|done].
  - split; [by eapply complete_cleanup_step|]. intros _ id Hid. by apply elem_of_nil in Hid.
Qed.

(** ** Ownership

    Every payload belongs to one version or one part, and is not queued for cleanup
    while it does: as long as callers introduce payloads that are in no use. *)

(** No version and no part uses the payload, and it is not queued for cleanup. *)
Definition fresh_payload (c : Catalog) (id : bytes) : Prop :=
  map_Forall (λ _ r, o_id <$> as_object r ≠ Some id) (VERSIONS c) ∧
  map_Forall (λ _ p, p_object_id p ≠ id) (PARTS c) ∧ CLEANUP c !! id = None.
Lemma fresh_payload_unreferenced c id :
  fresh_payload c id → unreferenced (VERSIONS c) (PARTS c) id ∧ CLEANUP c !! id = None.
Proof.
  intros (HV & HP & HC). split; [|done]. split.
  - intros v r m Hr Hm Heq. apply (HV v r Hr). by rewrite Hm, <-Heq.
  - intros k p Hp. by apply (HP k p).
Qed.

Definition owned (c : Catalog) : Prop := payloads_ok (VERSIONS c) (PARTS c) (CLEANUP c).
(** The payload a command introduces is in no use. *)
Definition introduces_fresh (c : Catalog) (cmd : MetadataCommand) : Prop :=
  match introduces cmd with Some x => fresh_payload c (pc_id x) | None => True end.

Lemma owned_same c c' : payload_same c c' → owned c → owned c'.
Proof. intros (HV & HP & HC). unfold owned. by rewrite HV, HP, HC. Qed.

Lemma put_object_owned m lock origin c cl c' :
  Inv c → owned c → VERSIONS c !! o_version_id m = None → fresh_payload c (o_id m) →
  put_object_tx m lock origin c = (Ok cl, c') → owned c'.
Proof.
  intros Hinv Hown Hv [Hun Hcl]%fresh_payload_unreferenced Hrun.
  destruct (put_object_ok _ _ _ _ _ _ Hinv Hrun) as (b & ro & f & c1 & Hb & Hro & _ & _ & _ & Hc1 & _ & _ & Hj).
  eapply owned_same; [by eapply journal_events_same|]. rewrite Hc1. exact (put_payloads c m b ro Hv Hro Hown Hun Hcl).
Qed.

Lemma delete_object_owned bucket k values c res c' :
  Inv c → owned c → VERSIONS c !! marker_version_id values = None →
  delete_object_tx bucket k values c = (Ok res, c') → owned c'.
Proof.
  intros Hinv Hown Hv Hrun.
  destruct (delete_object_ok _ _ _ _ _ _ Hinv Hrun) as (b & ro & u & c1 & Hbk & Hro & Hc1 & _ & _ & _ & Hj).
  assert (Hown1 : owned c1).
  { rewrite Hc1. unfold owned, delete_rows. tables.
    assert (Hok := payloads_replace _ _ _ ro Hown (λ r Hr, proj1 (replaces_row _ _ _ _ _ r Hro Hr))).
    unfold marker_of. case_bool_decide; [done|]. cbn [add_marker_row]. by apply payloads_add_version; [|simpl|apply vdrop_none]. }
  destruct Hj as [[-> _]|Hj]; [done|]. eapply owned_same; [|exact Hown1]. by eapply journal_event_same.
Qed.

Lemma delete_object_version_owned bucket k version release c res c' :
  Inv c → owned c → uuid_ok bucket → key_ok k →
  delete_object_version_tx bucket k version release c = (Ok res, c') → owned c'.
Proof.
  intros Hinv Hown Hb Hk Hrun.
  destruct (delete_object_version_ok _ _ _ _ _ _ _ Hinv Hb Hk Hrun) as
    [[-> _]|(r & f & next & u & c1 & Hr & _ & _ & _ & _ & Hc1 & _ & _ & _ & b & _ & Hj)]; [done|].
  pose proof (versions_id (inv_versions _ Hinv) _ _ Hr) as <-.
  eapply owned_same; [by eapply journal_event_same|]. rewrite Hc1.
  apply (payloads_replace _ _ _ (Some r)); [done|]. by intros ? [= <-].
Qed.

Lemma put_multipart_part_owned part c prev c' :
  Inv c → owned c → fresh_payload c (p_object_id part) → put_multipart_part_tx part c = (Ok prev, c') → owned c'.
Proof.
  intros Hinv Hown [Hun Hcl]%fresh_payload_unreferenced Hrun.
  destruct (put_multipart_part_ok _ _ _ _ Hinv Hrun) as (u & b & _ & _ & _ & Hprev & _ & Hc' & _).
  rewrite Hc'. unfold owned. tables. rewrite Hprev. by apply payloads_put_part.
Qed.

Lemma remove_multipart_owned id completing at_ c parts c' :
  Inv c → owned c → remove_multipart_tx id completing at_ c = (Ok parts, c') → owned c'.
Proof.
  intros Hinv Hown Hrun.
  destruct (remove_multipart_ok _ _ _ _ _ _ Hinv Hrun) as (u & c1 & Hu & _ & Hparts & Hc1 & _ & Hend).
  pose proof (inv_multipart _ Hinv) as Hmp. destruct (upload_row _ _ _ _ Hmp _ _ Hu) as (<- & [Hid _] & _).
  pose proof (list_parts_spec _ _ _ _ _ Hmp Hid) as Hlist. rewrite <-Hparts in Hlist.
  assert (Hown1 : owned c1).
  { rewrite Hc1. apply payloads_drop_parts; [done| |apply Hlist]. intros p Hp. by apply (parts_rows _ _ _ Hlist). }
  destruct Hend as [[_ ->]|(_ & name & Hj)]; [done|]. eapply owned_same; [|exact Hown1]. by eapply journal_event_same.
Qed.

Lemma recover_uploads_owned l c parts c' :
  Inv c → owned c → NoDup (u_id <$> l) → (∀ u, u ∈ l → MULTIPART c !! u_id u = Some u) →
  recover_uploads l c = (Ok parts, c') → owned c'.
Proof.
  revert c parts. induction l as [|u l IH]; intros c parts Hinv Hown Hnd Hrow Hrun; cbn [recover_uploads] in Hrun; [by tx_all|].
  tx_step Hrun. cbn [fmap list_fmap] in *. apply NoDup_cons in Hnd as [Hni Hnd].
  assert (Hown1 : owned s).
  { pose proof Ha as Hone. unfold recover_upload in Hone. destruct (u_state u); [by tx_all|].
    tx_step Hone. destruct (match OBJECTS c !! _ with Some _ => _ | None => _ end); [by eapply remove_multipart_owned|by tx_all]. }
  apply recover_upload_inv in Ha as (Hinv1 & _ & Hother); [|done|by apply Hrow; left].
  eapply IH; [exact Hinv1|done|done| |done]. intros v Hv. rewrite Hother; [by apply Hrow; right|].
  intros Heq. apply Hni. rewrite <-Heq. apply list_elem_of_fmap. by exists v.
Qed.

Lemma command_owned cmd c o c' :
  Inv c → owned c → command_ok c cmd → introduces_fresh c cmd → apply_command_tx cmd c = (Ok o, c') → owned c'.
Proof.
  intros Hinv Hown Hok Hnew Hrun. destruct (moves_payloads cmd) eqn:Hq.
  2:{ eapply owned_same; [by eapply quiet_same|done]. }
  destruct cmd; try discriminate Hq; clear Hq; unfold apply_command_tx in Hrun; tx_step Hrun; cbn [command_ok introduces_fresh introduces] in Hok, Hnew.
  - destruct Hok as (_ & _ & Hv). by eapply put_object_owned.
  - destruct Hok as (_ & _ & _ & _ & Hv). by eapply delete_object_owned.
  - destruct Hok. by eapply delete_object_version_owned.
  - exact (put_multipart_part_owned _ _ _ _ Hinv Hown Hnew Ha).
  - exact (remove_multipart_owned _ _ _ _ _ _ Hinv Hown Ha).
  - by eapply remove_multipart_owned.
  - unfold recover_multipart_completions_tx in Ha. tx_step Ha. destruct (completing_uploads c Hinv) as [Hnd Hl].
    eapply recover_uploads_owned; [exact Hinv|done|exact Hnd| |eassumption]. intros u Hu. by apply Hl.
  - unfold complete_cleanup_tx in Ha. tx_all. eapply payloads_fewer; [exact Hown|done|done|].
    intros i Hi. tables. apply lookup_delete_None. auto.
Qed.

Lemma empty_owned : owned empty_catalog.
Proof. by split. Qed.

(** ** Completions in progress *)

Definition completing (c : Catalog) (upload id : bytes) : Prop :=
  ∃ u, MULTIPART c !! upload = Some u ∧ u_state u = Completing id.
Definition completing_le (c c' : Catalog) : Prop := ∀ upload id, completing c' upload id → completing c upload id.

#[export] Instance completing_le_preorder : PreOrder completing_le.
Proof. split; [by intros c upload id|]. intros c1 c2 c3 H1 H2 upload id H3. by apply H1, H2. Qed.

Lemma completing_same c c' : MULTIPART c' = MULTIPART c → completing_le c c'.
Proof. intros Heq upload id. unfold completing. by rewrite Heq. Qed.
Lemma completing_delete k c : completing_le c (upd_multipart (delete k) c).
Proof. intros upload id (u & Hu & Hs). tables. cbn in Hu. apply lookup_delete_Some in Hu as [_ Hu]. by exists u. Qed.
Lemma completing_active k u c : u_state u = Active → completing_le c (upd_multipart <[k := u]> c).
Proof.
  intros Hu upload id (v & Hv & Hs). cbn in Hv. apply lookup_insert_Some in Hv as [[_ <-]|[_ Hv]]; [congruence|by exists v].
Qed.

Ltac completing_frame :=
  match goal with
  | |- keeps _ (tx_modify _) =>
      apply keeps_modify; intros ?; first [apply completing_delete|by apply completing_active|by apply completing_same]
  end.

Lemma journal_event_completing ty b k v sz at_ : keeps completing_le (journal_event ty b k v sz at_).
Proof. unfold journal_event. keeps_steps; completing_frame. Qed.
Lemma observe_clock_completing release : keeps completing_le (observe_clock release).
Proof. unfold observe_clock. keeps_steps; completing_frame. Qed.
Lemma remove_multipart_completing id completing at_ : keeps completing_le (remove_multipart_tx id completing at_).
Proof. unfold_command. keeps_steps; first [apply journal_event_completing|completing_frame]. Qed.
Lemma recover_multipart_completing : keeps completing_le recover_multipart_completions_tx.
Proof.
  unfold recover_multipart_completions_tx. keeps_steps.
  match goal with |- keeps _ (recover_uploads ?l) => induction l as [|u l IH] end; cbn [recover_uploads]; keeps_steps.
  - unfold recover_upload. keeps_steps; first [apply remove_multipart_completing|completing_frame].
  - done.
Qed.

(** A completion begins only by the command that begins it. *)
Definition creates_active (cmd : MetadataCommand) : Prop :=
  match cmd with CreateMultipartUpload u => u_state u = Active | _ => True end.

Lemma command_completing cmd c o c' upload id :
  creates_active cmd → apply_command_tx cmd c = (Ok o, c') → completing c' upload id →
  completing c upload id ∨ cmd = BeginMultipartCompletion upload id.
Proof.
  intros Hact Hrun Hc.
  assert (Hk : (∀ i j, cmd ≠ BeginMultipartCompletion i j) → keeps completing_le (apply_command_tx cmd)).
  { intros Hb. destruct cmd; try (by destruct (Hb upload_id object_id)); cbn [creates_active] in Hact; unfold_command; keeps_steps;
      first [apply observe_clock_completing|apply journal_event_completing|apply recover_multipart_completing|completing_frame]. }
  destruct cmd; try (left; by eapply Hk; [|eassumption..]).
  unfold apply_command_tx, begin_multipart_completion_tx in Hrun. tx_step Hrun.
  destruct Hc as (v & Hv & Hs). cbn in Hv.
  destruct (u_state a0) as [|existing] eqn:Hst; [|destruct (bool_decide (existing = object_id))]; tx_all; cbn in Hv;
    apply lookup_insert_Some in Hv as [[<- <-]|[_ Hv]]; try (left; by eexists).
  right. cbn in Hs. by injection Hs as <-.
Qed.
End Payloads.

End CatalogPayloads.
