(* ===== verification/CatalogTheorems.v ===== *)
(** * The catalog keeps its books

    Properties of every catalog that committed commands can lead to: the
    tables agree with each other, usage and counters are exact, limits and the
    journal hold, payloads queued for deletion are unused, and batching commands
    into transactions changes nothing. *)

From S2P Require Import Prelude Bytes Tables ObjectLock CoreTypes Keys Catalog Commands CatalogInv CatalogSteps CatalogUploads CatalogMultipart Reachable.
Import ObjectLock CoreTypes Keys Catalog Commands CatalogInv CatalogSteps CatalogUploads CatalogMultipart Reachable Frames Samples.

Module CatalogTheorems.
Section CatalogTheorems.
Context `{UuidCrate}.

Lemma reachable_run c cmds : reachable c → admissible c cmds → reachable (run cmds c).
Proof.
  intros (cmds0 & Hok0 & ->) Hok. exists (cmds0 ++ cmds). rewrite run_app. split; [|done].
  by apply admissible_app.
Qed.

(** C2: every reachable catalog is consistent. Whatever commands are committed,
    in whatever order and whether or not they fail, as long as their arguments are
    well-formed values of their Rust types and the identifier drawn for a new version
    or marker is not in use ([command_ok]; nothing is asked of payload identifiers,
    so retried and concurrent completions are covered), the tables keep describing
    one another: names and identifiers of buckets are two views of the same
    records, the order and null indexes list exactly the versions and the null
    versions, the current view shows at most one live version per key, every
    lock belongs to a non-null version of a versioned bucket with Object Lock,
    uploads and parts belong to existing buckets and uploads, lifecycle rules to
    existing buckets, the journal has no gaps, and usage rows, counters and byte
    limits agree with the rows. *)
Theorem catalog_consistent (c : Catalog) (Hreach : reachable c) : Inv c.
Proof. by apply reachable_inv. Qed.

(** C4: usage and counters are exact. In every reachable catalog each bucket's
    usage row and the global counters are what counting the rows and adding up
    the sizes of objects, versions and parts gives: no command loses or double
    counts a byte, and the 64-bit arithmetic never wraps. *)
Theorem accounting_exact (c : Catalog) (Hreach : reachable c) :
  (∀ b, usage_of c b = exact_usage (OBJECTS c) (VERSIONS c) (MULTIPART c) (PARTS c) b) ∧
  totals c = exact_totals (OBJECTS c) (VERSIONS c) (PARTS c) ∧
  counter c PHYSICAL_BYTES = tsum rsize (VERSIONS c) ∧
  counter c BUCKET_COUNT = Z.of_nat (size (BUCKETS c)).
Proof.
  pose proof (reachable_inv c Hreach) as Hinv. destruct (inv_books _ Hinv) as [Hu Ht].
  split_and!; [done|done| |].
  - rewrite (inv_physical _ Hinv). by apply (f_equal version_bytes) in Ht.
  - rewrite (inv_bucket_count _ Hinv). apply tsum_one_size.
Qed.

(** C13: the byte limit the code enforces. In every reachable catalog the bytes of all
    versions of a bucket, current or not, together with the bytes of the parts
    of its unfinished uploads, stay within the bucket's byte limit, if the limit is
    below 2^64 - 1 (the saturating sum of the check cannot exceed that one). This is
    stricter than docs/administration/quotas.md, which says that noncurrent versions
    and unfinished uploads do not count. *)
Theorem byte_quota_respected (c : Catalog) (id : bytes) (b : Bucket) (limit : Z)
    (Hreach : reachable c) (Hb : BUCKETS c !! id = Some b)
    (Hlimit : quota_bytes (b_quota b) = LimitBytes limit) (Hmax : limit < u64_max) :
  bsum record_bucket rsize id (VERSIONS c) + bsum (part_bucket (MULTIPART c)) p_size id (PARTS c) ≤ limit.
Proof.
  pose proof (reachable_inv c Hreach) as Hinv. pose proof (inv_quotas _ Hinv _ _ Hb) as Hq.
  rewrite Hlimit, (books_usage _ _ _ _ _ _ (inv_books _ Hinv)) in Hq. simpl in Hq.
  apply Z.leb_le in Hq. unfold u64_saturating_add in Hq. lia.
Qed.

Lemma commit_one_grows cmd c : is_prune cmd = false → journal_grows c (commit_one cmd c).2.
Proof.
  intros Hp. unfold commit_one, atomically. destruct (apply_command_tx cmd c) as [[o|e] c'] eqn:Hrun; [|done].
  by eapply apply_command_grows.
Qed.

(** The journal rows a run must not prune. *)
Definition keeps_event (s : Z) (cmd : MetadataCommand) : Prop :=
  match cmd with PruneMutationEvents through => through < s | _ => True end.

Lemma commit_one_event cmd c s e :
  Inv c → keeps_event s cmd → MUTATION_EVENTS c !! s = Some e →
  MUTATION_EVENTS (commit_one cmd c).2 !! s = Some e.
Proof.
  intros Hinv Hk He. destruct (is_prune cmd) eqn:Hp.
  - destruct cmd; try discriminate Hp. cbn [keeps_event] in Hk.
    destruct (commit_one_cases (PruneMutationEvents through_sequence) c) as [(o & c' & Hrun & ->)|[e' ->]]; [|done].
    cbn [apply_command_tx] in Hrun. tx_step Hrun. by eapply prune_lookup.
  - by apply (commit_one_grows cmd c Hp (inv_journal _ Hinv)).
Qed.

(** C35: the journal is gapless and append-only. In every reachable catalog the
    journal holds exactly the events after the last pruned one up to the last
    number assigned, each under its own sequence number; and whatever commands
    follow, an event stays as it is until a prune names its number or a later
    one. *)
Theorem journal_gapless_append_only (c : Catalog) (cmds : list MetadataCommand) (s : Z)
    (e : MutationEvent) (Hreach : reachable c) (Hok : admissible c cmds)
    (He : MUTATION_EVENTS c !! s = Some e) (Hprune : Forall (keeps_event s) cmds) :
  (∃ pruned, ∀ s, is_Some (MUTATION_EVENTS c !! s) ↔ pruned < s ≤ counter c MUTATION_EVENT_SEQUENCE) ∧
  e_sequence e = s ∧ MUTATION_EVENTS (run cmds c) !! s = Some e.
Proof.
  pose proof (reachable_inv c Hreach) as Hinv.
  destruct (inv_journal _ Hinv) as (_ & pruned & _ & Hdom & Hseq). split_and!; [by eauto|by apply Hseq|].
  clear Hdom Hseq Hreach. revert c Hinv Hok He. induction Hprune as [|cmd cmds Hk _ IH]; intros c Hinv Hok He; [done|].
  destruct Hok as [Hcmd Hok]. cbn [run]. apply IH; [by apply commit_one_inv|done|by apply commit_one_event].
Qed.

(** C26: group commit is invisible. However the commands that arrive are cut into
    batches, and whether the transaction of a batch commits or is abandoned for
    one transaction per command, the replies and the catalog are those of
    committing the commands one at a time in arrival order. *)
Theorem metadata_group_commit (batches : list (list MetadataCommand)) (c : Catalog) :
  GroupCommit.writer_run commit_batch batches c =
  GroupCommit.one_at_a_time apply_command_tx (concat batches) c.
Proof.
  apply GroupCommit.writer_run_one_at_a_time. intros batch c0. unfold commit_batch.
  destruct batch as [|x [|y batch]]; [done|by rewrite GroupCommit.one_at_a_time_singleton|].
  unfold atomically. destruct (GroupCommit.apply_all apply_command_tx (x :: y :: batch) c0) as [[os|e] c1] eqn:Hrun; [|done].
  by rewrite (GroupCommit.apply_all_one_at_a_time _ _ _ _ _ Hrun).
Qed.

Lemma commit_one_mark cmd c : mark_le c (commit_one cmd c).2.
Proof.
  unfold commit_one, atomically. destruct (apply_command_tx cmd c) as [[o|e] c'] eqn:Hrun; [|done].
  by eapply apply_command_mark.
Qed.

(** the observed clock never goes back. The high-water mark of the clock only
    rises along any sequence of commands, and a release that observes a time
    further behind the mark than its tolerance is refused without effect. *)
Theorem clock_watermark_monotone (c : Catalog) (cmds : list MetadataCommand) (release : LockRelease)
    (m : Z) (Hm : CLOCK c !! CLOCK_WATERMARK = Some m) :
  (∃ m', CLOCK (run cmds c) !! CLOCK_WATERMARK = Some m' ∧ m ≤ m') ∧
  (micros (observed_at release) < i64_saturating_sub m (clock_tolerance_seconds release * 1000000) →
   observe_clock release c = (Err ClockWentBackwards, c)).
Proof.
  split.
  - assert (Hle : mark_le c (run cmds c)).
    { clear Hm. revert c. induction cmds as [|cmd cmds IH]; intros c; cbn [run]; [done|].
      etrans; [apply commit_one_mark|apply IH]. }
    unfold mark_le, mark in Hle. rewrite Hm in Hle.
    destruct (CLOCK (run cmds c) !! CLOCK_WATERMARK) as [m'|]; [by eauto|done].
  - intros Hback. unfold observe_clock, mbind, tx_bind, tx_gets, tx_guard. rewrite Hm.
    apply Z.ltb_lt in Hback. by rewrite Hback.
Qed.

End CatalogTheorems.

(** ** Witnesses *)

#[local] Existing Instance sample_uuids.

Lemma catalog_consistent_witness : Inv sample_catalog.
Proof. apply (catalog_consistent sample_catalog). exact sample_reachable. Defined.

Lemma accounting_exact_witness :
  (∀ b, usage_of sample_catalog b =
     exact_usage (OBJECTS sample_catalog) (VERSIONS sample_catalog) (MULTIPART sample_catalog) (PARTS sample_catalog) b) ∧
  totals sample_catalog = exact_totals (OBJECTS sample_catalog) (VERSIONS sample_catalog) (PARTS sample_catalog) ∧
  counter sample_catalog PHYSICAL_BYTES = tsum rsize (VERSIONS sample_catalog) ∧
  counter sample_catalog BUCKET_COUNT = Z.of_nat (size (BUCKETS sample_catalog)).
Proof. apply (accounting_exact sample_catalog). exact sample_reachable. Defined.

Lemma byte_quota_respected_witness :
  bsum record_bucket rsize (uid 1) (VERSIONS sample_catalog) +
  bsum (part_bucket (MULTIPART sample_catalog)) p_size (uid 1) (PARTS sample_catalog) ≤ 40.
Proof.
  eapply (byte_quota_respected sample_catalog (uid 1)).
  - exact sample_reachable.
  - vm_compute. reflexivity.
  - reflexivity.
  - unfold u64_max. lia.
Defined.

Lemma journal_gapless_append_only_witness :
  ∃ e, (∃ pruned, ∀ s, is_Some (MUTATION_EVENTS sample_catalog !! s) ↔
          pruned < s ≤ counter sample_catalog MUTATION_EVENT_SEQUENCE) ∧
    e_sequence e = 3 ∧
    MUTATION_EVENTS (run [PruneMutationEvents 2; RecoverMultipartCompletions] sample_catalog) !! 3 = Some e.
Proof.
  eexists. eapply (journal_gapless_append_only sample_catalog [PruneMutationEvents 2; RecoverMultipartCompletions] 3).
  - exact sample_reachable.
  - repeat split.
  - vm_compute. reflexivity.
  - repeat constructor; cbn; lia.
Defined.

Lemma clock_watermark_monotone_witness :
  let c := run [ObserveClock (lock_release_new 5000000 1)] empty_catalog in
  let cmds := [ObserveClock (lock_release_new 4000000 1); ObserveClock (lock_release_new 7000000 1)] in
  (∃ m', CLOCK (run cmds c) !! CLOCK_WATERMARK = Some m' ∧ 5000 ≤ m') ∧
  (micros 1 < i64_saturating_sub 5000 0 → observe_clock (lock_release_new 1 0) c = (Err ClockWentBackwards, c)).
Proof. intros c cmds. apply (clock_watermark_monotone c cmds (lock_release_new 1 0)). reflexivity. Defined.

End CatalogTheorems.
