(* ===== verification/Worm.v ===== *)
(** * Object Lock through the catalog

    What Object Lock promises once it is combined with every other command of
    [crates/record-store-metadata/src/commands.rs]: a version under a compliance
    retention or a legal hold is neither removed nor changed by any sequence of
    commands, deletes, overwrites, bucket changes, multipart completions and
    attempts to weaken the lock included. *)

From S2P Require Import Prelude Bytes Tables ObjectLock CoreTypes Keys Catalog Commands CatalogInv CatalogSteps CatalogUploads CatalogMultipart Reachable.
Import ObjectLock CoreTypes Keys Catalog Commands CatalogInv CatalogSteps CatalogUploads CatalogMultipart Reachable Frames Samples.

Module Worm.

(** ** Commands that do not touch versions or locks *)

Definition same_versions (c c' : Catalog) : Prop :=
  VERSIONS c' = VERSIONS c ∧ OBJECT_LOCKS c' = OBJECT_LOCKS c.

#[export] Instance same_versions_preorder : PreOrder same_versions.
Proof. split; [done|]. intros c1 c2 c3 [H1 H2] [H3 H4]. split; congruence. Qed.

Lemma same_versions_intro c c' :
  VERSIONS c' = VERSIONS c → OBJECT_LOCKS c' = OBJECT_LOCKS c → same_versions c c'.
Proof. by split. Qed.

Section Worm.
Context `{UuidCrate}.

Lemma observe_clock_versions release : keeps same_versions (observe_clock release).
Proof. unfold observe_clock. keeps_steps; frame_with same_versions_intro. Qed.

Lemma journal_event_versions ty b k v sz at_ : keeps same_versions (journal_event ty b k v sz at_).
Proof. unfold journal_event. keeps_steps; frame_with same_versions_intro. Qed.

Lemma remove_multipart_versions id completing at_ : keeps same_versions (remove_multipart_tx id completing at_).
Proof. unfold_command. keeps_steps; first [apply journal_event_versions|frame_with same_versions_intro]. Qed.

Lemma recover_multipart_versions : keeps same_versions recover_multipart_completions_tx.
Proof.
  unfold recover_multipart_completions_tx. keeps_steps.
  match goal with |- keeps _ (recover_uploads ?l) => induction l as [|u l IH] end; cbn [recover_uploads]; keeps_steps.
  - unfold recover_upload. keeps_steps; first [apply remove_multipart_versions|frame_with same_versions_intro].
  - done.
Qed.

Definition writes_versions (cmd : MetadataCommand) : bool :=
  match cmd with
  | PutObject _ _ _ | DeleteObject _ _ _ | DeleteObjectVersion _ _ _ _ | PutObjectLock _ _ _ _ _ => true
  | _ => false
  end.

Lemma apply_command_versions cmd :
  writes_versions cmd = false → keeps same_versions (apply_command_tx cmd).
Proof.
  destruct cmd; intros Hp; try discriminate Hp; clear Hp; unfold_command; keeps_steps;
    first [apply observe_clock_versions|apply journal_event_versions|apply recover_multipart_versions
          |frame_with same_versions_intro].
Qed.

(** ** Locked versions *)

(** A locked version is not the null version a write replaces. *)
Lemma locked_not_replaced c v s null key ro :
  Inv c → OBJECT_LOCKS c !! v = Some s → replaces (VERSIONS c) (NULL_VERSIONS c) null key ro →
  ∀ r, ro = Some r → version_id r ≠ v.
Proof.
  intros Hinv Hs Hro r -> Heq. destruct Hro as (_ & Hr & Hn & _).
  apply (null_unlocked (inv_versions _ Hinv)) in Hr; [|done]. congruence.
Qed.

Lemma vdrop_other {A} (ro : option ObjectVersionRecord) (t : gmap bytes A) (v : bytes) :
  (∀ r, ro = Some r → version_id r ≠ v) → vdrop ro t !! v = t !! v.
Proof. destruct ro as [r|]; simpl; [|done]. intros Hr. by rewrite lookup_delete_ne by auto. Qed.

Lemma lock_of_lookup c v s : OBJECT_LOCKS c !! v = Some s → lock_of c v = s.
Proof. intros Hs. unfold lock_of, lock_key. by rewrite Hs. Qed.

Lemma put_object_locked m lo origin c cl c' v r s :
  Inv c → VERSIONS c !! o_version_id m = None → put_object_tx m lo origin c = (Ok cl, c') →
  VERSIONS c !! v = Some r → OBJECT_LOCKS c !! v = Some s →
  VERSIONS c' !! v = Some r ∧ OBJECT_LOCKS c' !! v = Some s.
Proof.
  intros Hinv Hnew Hrun Hv Hs.
  destruct (put_object_ok _ _ _ _ _ _ Hinv Hrun) as (b & ro & f & c1 & _ & Hro & Hf & _ & _ & Hc1 & _ & _ & Hj).
  assert (Hne : o_version_id m ≠ v) by congruence.
  pose proof (locked_not_replaced _ _ _ _ _ _ Hinv Hs Hro) as Hother.
  assert (Hj' : keeps same_versions (tx_iter (λ ty, journal_event ty (b_name b) (Some (o_key m))
    (Some (o_version_id m)) (Some (o_size m)) (o_created_at m))
    (put_events origin (OBJECTS c !! object_key (o_bucket_id m) (o_key m)))))
    by (keeps_steps; apply journal_event_versions).
  destruct (Hj' _ _ _ Hj) as [-> ->]. subst c1. split.
  - cbn. rewrite lookup_insert_ne by done. by rewrite vdrop_other.
  - cbn. destruct Hf as [Hf|(s' & _ & _ & Hf)]; rewrite Hf; [|rewrite lookup_insert_ne by done];
      by rewrite vdrop_other.
Qed.

Lemma delete_object_locked bucket k values c res c' v r s :
  Inv c → VERSIONS c !! marker_version_id values = None →
  delete_object_tx bucket k values c = (Ok res, c') →
  VERSIONS c !! v = Some r → OBJECT_LOCKS c !! v = Some s →
  VERSIONS c' !! v = Some r ∧ OBJECT_LOCKS c' !! v = Some s.
Proof.
  intros Hinv Hnew Hrun Hv Hs.
  destruct (delete_object_ok _ _ _ _ _ _ Hinv Hrun) as (b & ro & u & c1 & _ & Hro & Hc1 & _ & _ & _ & Hj).
  pose proof (locked_not_replaced _ _ _ _ _ _ Hinv Hs Hro) as Hother.
  assert (Hend : same_versions c1 c').
  { destruct Hj as [[-> _]|Hj]; [done|by eapply journal_event_versions]. }
  destruct Hend as [-> ->]. rewrite Hc1. cbn. split; [|by rewrite vdrop_other].
  unfold marker_of. case_bool_decide; simpl; [by rewrite vdrop_other|].
  rewrite lookup_insert_ne by congruence. by rewrite vdrop_other.
Qed.

Lemma delete_object_version_locked bucket k version release c res c' v r s :
  Inv c → uuid_ok bucket → key_ok k →
  delete_object_version_tx bucket k version release c = (Ok res, c') →
  VERSIONS c !! v = Some r → OBJECT_LOCKS c !! v = Some s →
  (VERSIONS c' !! v = Some r ∧ OBJECT_LOCKS c' !! v = Some s) ∨
  version = v ∧ ∃ c1, enforce_deletable v release c = (Ok (), c1).
Proof.
  intros Hinv Hb Hk Hrun Hv Hs.
  destruct (delete_object_version_ok _ _ _ _ _ _ _ Hinv Hb Hk Hrun) as
    [[-> _]|(r' & f & next & u & c1 & Hr' & _ & _ & Hrel & _ & Hc1 & _ & _ & _ & b & _ & Hj)]; [by left|].
  destruct (decide (version = v)) as [->|Hne]; [by right; eauto|left].
  apply journal_event_versions in Hj as [-> ->]. rewrite Hc1. cbn.
  rewrite (versions_id (inv_versions _ Hinv) _ _ Hr'). by rewrite !lookup_delete_ne.
Qed.

(** What one command can do to a locked version. *)
Lemma apply_command_locked cmd c o c' v r s :
  Inv c → command_ok c cmd → apply_command_tx cmd c = (Ok o, c') →
  VERSIONS c !! v = Some r → OBJECT_LOCKS c !! v = Some s →
  (VERSIONS c' !! v = Some r ∧ OBJECT_LOCKS c' !! v = Some s) ∨
  (∃ b k requested release, cmd = PutObjectLock b k v requested release ∧ VERSIONS c' !! v = Some r ∧
     ∃ s0, with_retention s (retention requested) (observed_at release) (bypass_governance release) = Ok s0 ∧
       let s' := with_legal_hold s0 (legal_hold requested) in
       OBJECT_LOCKS c' !! v = if is_unlocked s' then None else Some s') ∨
  (∃ b k release, cmd = DeleteObjectVersion b k v release ∧ ∃ c1, enforce_deletable v release c = (Ok (), c1)).
Proof.
  intros Hinv Hok Hrun Hv Hs. destruct (writes_versions cmd) eqn:Hw.
  2: { destruct (apply_command_versions cmd Hw _ _ _ Hrun) as [-> ->]. by left. }
  destruct cmd; try discriminate Hw; cbn [apply_command_tx command_ok] in Hrun, Hok; tx_step Hrun.
  - left. by eapply put_object_locked; [|apply Hok|..].
  - left. destruct Hok as (_ & _ & _ & _ & Hnew). by eapply delete_object_locked.
  - destruct Hok as [Hb Hk].
    destruct (delete_object_version_locked _ _ _ _ _ _ _ _ _ _ Hinv Hb Hk Ha Hv Hs) as [?|[-> Hrel]]; [by left|].
    right. right. by eexists _, _, _.
  - apply put_object_lock_ok in Ha as (b & m & n & f & _ & _ & _ & _ & _ & _ & _ & (st & Hst & ->) & ->).
    destruct (decide (version_id0 = v)) as [->|Hne].
    + right. left. rewrite (lock_of_lookup _ _ _ Hs) in Hst. eexists _, _, _, _. split_and!; [done|done|].
      exists st. split; [done|]. cbn. destruct (is_unlocked _); [apply lookup_delete_eq|apply lookup_insert_eq].
    + left. cbn. split; [done|]. destruct (is_unlocked _); [by rewrite lookup_delete_ne|by rewrite lookup_insert_ne].
Qed.

(** A block that cannot be bypassed stops a delete. *)
Lemma enforce_deletable_blocked v release c c1 s b :
  enforce_deletable v release c = (Ok (), c1) → OBJECT_LOCKS c !! v = Some s →
  deletion_block_at s (observed_at release) = Some b → is_bypassable b = false → is_unlocked s = true.
Proof.
  unfold enforce_deletable, read_object_lock. intros Hrun Hs Hb Hby. tx_step Hrun.
  rewrite (lock_of_lookup _ _ _ Hs) in *. destruct (is_unlocked s); [done|]. tx_all.
  rewrite Hb, Hby in *. simpl in *. tx_all.
Qed.

(** ** Compliance *)

(** The releases a run presents for a version all observe times before [t]. *)
Definition releases_before (v : bytes) (t : Z) (cmd : MetadataCommand) : Prop :=
  match cmd with
  | DeleteObjectVersion _ _ v' release | PutObjectLock _ _ v' _ release =>
      v' = v → micros (observed_at release) < micros t
  | _ => True
  end.

(** The version is there with a compliance retention until at least [t]. *)
Definition retained (v : bytes) (r : ObjectVersionRecord) (t : Z) (c : Catalog) : Prop :=
  VERSIONS c !! v = Some r ∧ ∃ s rt, OBJECT_LOCKS c !! v = Some s ∧ retention s = Some rt ∧
    mode rt = Compliance ∧ t ≤ retain_until rt.

Lemma commit_one_retained cmd c v r t :
  Inv c → command_ok c cmd → releases_before v t cmd → retained v r t c →
  retained v r t (commit_one cmd c).2.
Proof.
  intros Hinv Hok Hbefore Hret. destruct (commit_one_cases cmd c) as [(o & c' & Hrun & ->)|[e ->]]; [|done].
  destruct Hret as (Hv & s & rt & Hs & Hrt & Hmode & Hle).
  assert (Hact : ∀ now, micros now < micros t → is_active_at rt now = true).
  { intros now Hnow. unfold is_active_at. apply Z.ltb_lt. pose proof (micros_mono _ _ Hle). lia. }
  destruct (apply_command_locked _ _ _ _ _ _ _ Hinv Hok Hrun Hv Hs) as
    [[Hv' Hs']|[(b & k & req & rel & -> & Hv' & s0 & Hs0 & Hs')|(b & k & rel & -> & c1 & Hrel)]].
  - split; [done|]. by exists s, rt.
  - cbn in Hbefore. specialize (Hact _ (Hbefore eq_refl)).
    destruct (with_retention_keeps _ _ _ _ _ _ Hs0 Hrt Hact) as (rt' & Hrt' & Ht); [by left|].
    apply tightens_spec in Ht as [Hle' Hm']. cbv zeta in Hs'.
    assert (Hlocked : is_unlocked (with_legal_hold s0 (legal_hold req)) = false)
      by (unfold is_unlocked; simpl; by rewrite Hrt', bool_decide_false).
    rewrite Hlocked in Hs'. split; [done|]. eexists _, rt'. split_and!; [exact Hs'|done|by apply Hm'|lia].
  - cbn in Hbefore. specialize (Hact _ (Hbefore eq_refl)). exfalso.
    assert (Hblock : ∃ b, deletion_block_at s (observed_at rel) = Some b ∧ is_bypassable b = false).
    { unfold deletion_block_at. rewrite Hrt, Hact, Hmode. destruct (legal_hold s); by eexists. }
    destruct Hblock as (bl & Hbl & Hby).
    pose proof (enforce_deletable_blocked _ _ _ _ _ _ Hrel Hs Hbl Hby) as Hun.
    unfold is_unlocked in Hun. by rewrite Hrt, bool_decide_false in Hun.
Qed.

(** C1: a compliance retention is WORM. Take a version of any reachable catalog
    whose lock is a compliance retention until [t]. No sequence of commands,
    whoever issues them and with whatever bypass, removes the version or changes
    its record, nor shortens or weakens its retention, as long as the releases
    presented for that version observe times before [t]. *)
Theorem compliance_worm (c : Catalog) (cmds : list MetadataCommand) (v : bytes)
    (r : ObjectVersionRecord) (s : ObjectLockState) (rt : Retention)
    (Hreach : reachable c) (Hok : admissible c cmds)
    (Hv : VERSIONS c !! v = Some r) (Hs : OBJECT_LOCKS c !! v = Some s)
    (Hrt : retention s = Some rt) (Hmode : mode rt = Compliance)
    (Hbefore : Forall (releases_before v (retain_until rt)) cmds) :
  VERSIONS (run cmds c) !! v = Some r ∧
  ∃ s' rt', OBJECT_LOCKS (run cmds c) !! v = Some s' ∧ retention s' = Some rt' ∧
    mode rt' = Compliance ∧ retain_until rt ≤ retain_until rt'.
Proof.
  assert (Hret : retained v r (retain_until rt) c) by (split; [done|by exists s, rt]).
  destruct Hreach as (cmds0 & Hok0 & Hc). pose proof (run_inv _ _ empty_inv Hok0) as Hinv. rewrite <-Hc in Hinv.
  clear cmds0 Hok0 Hc Hv Hs Hrt. revert c Hinv Hok Hret.
  induction Hbefore as [|cmd cmds Hb _ IH]; intros c Hinv Hok Hret; [exact Hret|].
  destruct Hok as [Hcmd Hok]. cbn [run]. apply IH; [by apply commit_one_inv|done|by apply commit_one_retained].
Qed.

(** ** Legal hold *)

(** No lock change of the run lifts the hold of the version. *)
Definition keeps_hold (v : bytes) (cmd : MetadataCommand) : Prop :=
  match cmd with PutObjectLock _ _ v' requested _ => v' = v → legal_hold requested = true | _ => True end.

Definition held (v : bytes) (r : ObjectVersionRecord) (c : Catalog) : Prop :=
  VERSIONS c !! v = Some r ∧ ∃ s, OBJECT_LOCKS c !! v = Some s ∧ legal_hold s = true.

Lemma commit_one_held cmd c v r :
  Inv c → command_ok c cmd → keeps_hold v cmd → held v r c → held v r (commit_one cmd c).2.
Proof.
  intros Hinv Hok Hkeep Hheld. destruct (commit_one_cases cmd c) as [(o & c' & Hrun & ->)|[e ->]]; [|done].
  destruct Hheld as (Hv & s & Hs & Hh).
  assert (Hlocked : ∀ s, legal_hold s = true → is_unlocked s = false).
  { intros s1 Hs1. unfold is_unlocked. by rewrite Hs1, andb_false_r. }
  destruct (apply_command_locked _ _ _ _ _ _ _ Hinv Hok Hrun Hv Hs) as
    [[Hv' Hs']|[(b & k & req & rel & -> & Hv' & s0 & Hs0 & Hs')|(b & k & rel & -> & c1 & Hrel)]].
  - split; [done|]. by exists s.
  - cbn in Hkeep. specialize (Hkeep eq_refl). cbv zeta in Hs'. rewrite Hlocked in Hs' by done.
    split; [done|]. eexists. split; [exact Hs'|done].
  - exfalso. assert (Hblock : deletion_block_at s (observed_at rel) = Some LegalHold)
      by (unfold deletion_block_at; by rewrite Hh).
    pose proof (enforce_deletable_blocked _ _ _ _ _ _ Hrel Hs Hblock eq_refl) as Hun.
    rewrite Hlocked in Hun; done.
Qed.

(** C5: a legal hold is unconditional. A version of a reachable catalog that is
    under a legal hold survives unchanged, and held, every sequence of commands
    in which no lock change of that version turns the hold off; no clock, no
    retention and no bypass releases it. *)
Theorem legal_hold_worm (c : Catalog) (cmds : list MetadataCommand) (v : bytes)
    (r : ObjectVersionRecord) (s : ObjectLockState)
    (Hreach : reachable c) (Hok : admissible c cmds)
    (Hv : VERSIONS c !! v = Some r) (Hs : OBJECT_LOCKS c !! v = Some s)
    (Hhold : legal_hold s = true) (Hkeep : Forall (keeps_hold v) cmds) :
  VERSIONS (run cmds c) !! v = Some r ∧
  ∃ s', OBJECT_LOCKS (run cmds c) !! v = Some s' ∧ legal_hold s' = true.
Proof.
  assert (Hheld : held v r c) by (split; [done|by exists s]).
  destruct Hreach as (cmds0 & Hok0 & Hc). pose proof (run_inv _ _ empty_inv Hok0) as Hinv. rewrite <-Hc in Hinv.
  clear cmds0 Hok0 Hc Hv Hs Hhold. revert c Hinv Hok Hheld.
  induction Hkeep as [|cmd cmds Hk _ IH]; intros c Hinv Hok Hheld; [exact Hheld|].
  destruct Hok as [Hcmd Hok]. cbn [run]. apply IH; [by apply commit_one_inv|done|by apply commit_one_held].
Qed.

End Worm.

(** ** Witnesses *)

#[local] Existing Instance sample_uuids.

(** Attempts on the locked version: a delete with a bypass, a marker over it, a
    newer object, a request to drop the retention, and one to extend it. *)
Definition attempts : list MetadataCommand :=
  let release := with_governance_bypass (lock_release_new 5000 300) true in
  [DeleteObjectVersion (uid 1) [97] (uid 11) release;
   DeleteObject (uid 1) [97] (sample_marker 1 3000);
   PutObject (sample_object 2 [97] 7 4000) None Direct;
   PutObjectLock (uid 1) [97] (uid 11) {| retention := None; legal_hold := true |} release;
   PutObjectLock (uid 1) [97] (uid 11)
     {| retention := Some {| mode := Compliance; retain_until := 9000001000 |}; legal_hold := true |} release;
   DeleteBucket [98; 49] 6000].

Lemma attempts_admissible : admissible locked_catalog attempts.
Proof. apply (bool_decide_unpack (admissible locked_catalog attempts)). vm_compute. exact I. Defined.

Lemma compliance_worm_witness :
  VERSIONS (run attempts locked_catalog) !! uid 11 = Some (ObjectRecord (sample_object 1 [97] 5 1000) false) ∧
  ∃ s' rt', OBJECT_LOCKS (run attempts locked_catalog) !! uid 11 = Some s' ∧ retention s' = Some rt' ∧
    mode rt' = Compliance ∧ retain_until sample_retention ≤ retain_until rt'.
Proof.
  apply (compliance_worm locked_catalog attempts (uid 11) (ObjectRecord (sample_object 1 [97] 5 1000) false)
    {| retention := Some sample_retention; legal_hold := true |} sample_retention).
  - exact locked_reachable.
  - exact attempts_admissible.
  - vm_compute. reflexivity.
  - vm_compute. reflexivity.
  - reflexivity.
  - reflexivity.
  - repeat constructor; intros; reflexivity.
Defined.

Lemma legal_hold_worm_witness :
  VERSIONS (run attempts locked_catalog) !! uid 11 = Some (ObjectRecord (sample_object 1 [97] 5 1000) false) ∧
  ∃ s', OBJECT_LOCKS (run attempts locked_catalog) !! uid 11 = Some s' ∧ legal_hold s' = true.
Proof.
  apply (legal_hold_worm locked_catalog attempts (uid 11) (ObjectRecord (sample_object 1 [97] 5 1000) false)
    {| retention := Some sample_retention; legal_hold := true |}).
  - exact locked_reachable.
  - exact attempts_admissible.
  - vm_compute. reflexivity.
  - vm_compute. reflexivity.
  - reflexivity.
  - repeat constructor; intros; reflexivity.
Defined.

End Worm.
