(* ===== verification/ObjectTheorems.v ===== *)
(** * What object commands do

    The functional behaviour of writing and deleting objects and versions on
    every kind of bucket, of the recovery of interrupted multipart completions,
    and two places where limits behave differently from their documentation. *)

From S2P Require Import Prelude Bytes Tables ObjectLock CoreTypes Keys Catalog Commands CatalogInv CatalogSteps CatalogUploads CatalogMultipart Reachable.
Import ObjectLock CoreTypes Keys Catalog Commands CatalogInv CatalogSteps CatalogUploads CatalogMultipart Reachable Samples.

Module ObjectTheorems.
Section ObjectTheorems.
Context `{UuidCrate}.

(** Journalling changes the journal and counters only. *)
Definition journals (c c' : Catalog) : Prop := ∃ fe fc, c' = upd_events fe (upd_counters fc c).

Lemma journals_refl c : journals c c.
Proof. exists (λ t, t), (λ t, t). by destruct c. Qed.

Lemma journals_event ty b k v sz at_ c u c' :
  journal_event ty b k v sz at_ c = (Ok u, c') → journals c c'.
Proof. intros (e & _ & _ & ->)%journal_event_ok. by eexists _, _. Qed.

Lemma journals_iter b k v sz at_ l c u c' :
  tx_iter (λ ty, journal_event ty b k v sz at_) l c = (Ok u, c') → journals c c'.
Proof.
  revert c. induction l as [|ty l IH]; intros c Hrun; cbn [tx_iter] in Hrun.
  - apply tx_ret_ok in Hrun as [_ ->]. apply journals_refl.
  - tx_step Hrun. apply journals_event in Ha as (fe & fc & ->).
    apply IH in Hb as (fe' & fc' & ->). by exists (λ t, fe' (fe t)), (λ t, fc' (fc t)).
Qed.

(** The versions of a catalog after those a write replaces are gone. *)
Lemma kept_versions c null key ro v r :
  replaces (VERSIONS c) (NULL_VERSIONS c) null key ro → VERSIONS c !! v = Some r →
  vdrop ro (VERSIONS c) !! v = Some r ∨ (null = true ∧ is_null r = true ∧ rkey r = key).
Proof.
  intros Hro Hv. destruct ro as [r'|]; simpl; [|by left]. destruct Hro as (-> & Hr' & Hn & Hk).
  destruct (decide (version_id r' = v)) as [Heq|Hne].
  - right. rewrite Heq, Hv in Hr'. by simplify_eq.
  - left. by rewrite lookup_delete_ne.
Qed.

(** C7: a put is visible and disturbs nothing else. After a successful put the
    object is the current one of its key and a version of its own, the current
    view of every other key is what it was, and every other version stays,
    except that on a bucket that is not versioned the key's null version is
    replaced. *)
Theorem put_object_effect (c c' : Catalog) (m : ObjectMetadata) (lock : option ObjectLockState)
    (origin : WriteOrigin) (o : MetadataOutcome) (b : Bucket)
    (Hreach : reachable c) (Hok : command_ok c (PutObject m lock origin))
    (Hb : BUCKETS c !! o_bucket_id m = Some b)
    (Hrun : commit_one (PutObject m lock origin) c = (Ok o, c')) :
  let key := object_key (o_bucket_id m) (o_key m) in
  OBJECTS c' !! key = Some m ∧ MARKERS c' !! key = None ∧
  VERSIONS c' !! o_version_id m = Some (ObjectRecord m (not_enabled b)) ∧
  (∀ k, k ≠ key → OBJECTS c' !! k = OBJECTS c !! k ∧ MARKERS c' !! k = MARKERS c !! k) ∧
  (∀ v r, VERSIONS c !! v = Some r →
     VERSIONS c' !! v = Some r ∨ (not_enabled b = true ∧ is_null r = true ∧ rkey r = key)).
Proof.
  intros key. apply commit_one_ok in Hrun. cbn [apply_command_tx] in Hrun. tx_step Hrun.
  apply reachable_inv in Hreach as Hinv. destruct Hok as (_ & _ & Hnew). unfold fresh_version in Hnew.
  destruct (put_object_ok _ _ _ _ _ _ Hinv Ha) as (b' & ro & f & c1 & Hb' & Hro & _ & _ & _ & -> & _ & _ & Hj).
  simplify_eq. apply journals_iter in Hj as (fe & fc & ->). unfold put_counters, put_rows, bump_counter. tables.
  split_and!.
  - apply lookup_insert_eq.
  - apply lookup_delete_eq.
  - apply lookup_insert_eq.
  - intros k Hne. by rewrite lookup_insert_ne, lookup_delete_ne.
  - intros v r Hv. rewrite lookup_insert_ne by congruence. by eapply kept_versions.
Qed.

(** C10: a delete hides the key and keeps what it must. After a successful delete
    of a key it has no current object and the current view of every other key is
    what it was. On a versioned bucket every version stays and the new delete
    marker is current; otherwise the key's null version is the only one that may
    go, and on a bucket that never was versioned the key has no current version
    at all. *)
Theorem delete_object_effect (c c' : Catalog) (bucket k : bytes) (values : NewDeleteMarker)
    (o : MetadataOutcome) (b : Bucket)
    (Hreach : reachable c) (Hok : command_ok c (DeleteObject bucket k values))
    (Hb : BUCKETS c !! bucket = Some b)
    (Hrun : commit_one (DeleteObject bucket k values) c = (Ok o, c')) :
  let key := object_key bucket k in
  OBJECTS c' !! key = None ∧
  (∀ k', k' ≠ key → OBJECTS c' !! k' = OBJECTS c !! k' ∧ MARKERS c' !! k' = MARKERS c !! k') ∧
  (∀ v r, VERSIONS c !! v = Some r →
     VERSIONS c' !! v = Some r ∨ (not_enabled b = true ∧ is_null r = true ∧ rkey r = key)) ∧
  match b_versioning b with
  | Disabled => MARKERS c' !! key = None
  | _ => m_version_id <$> MARKERS c' !! key = Some (marker_version_id values)
  end.
Proof.
  intros key. apply commit_one_ok in Hrun. cbn [apply_command_tx] in Hrun. tx_step Hrun.
  apply reachable_inv in Hreach as Hinv. destruct Hok as (_ & _ & _ & _ & Hnew). unfold fresh_version in Hnew.
  destruct (delete_object_ok _ _ _ _ _ _ Hinv Ha) as (b' & ro & u & c1 & Hb' & Hro & Hc1 & _ & _ & _ & Hj).
  simplify_eq. match goal with Ha : delete_object_tx _ _ _ _ = (_, ?s) |- _ => rename s into c' end.
  assert (Hend : journals c1 c') by (destruct Hj as [[-> _]|Hj]; [apply journals_refl|by eapply journals_event]).
  destruct Hend as (fe & fc & ->). rewrite Hc1. unfold delete_rows. tables. clear Hj Hc1. split_and!.
  - apply lookup_delete_eq.
  - intros k' Hne. rewrite lookup_delete_ne by done. split; [done|].
    unfold marker_of. case_bool_decide; simpl; [by rewrite lookup_delete_ne|by rewrite lookup_insert_ne].
  - intros v r Hv. unfold marker_of. case_bool_decide; simpl; [by eapply kept_versions|].
    rewrite lookup_insert_ne by congruence. by eapply kept_versions.
  - unfold marker_of. case_bool_decide as Hd; simpl.
    + rewrite Hd. apply lookup_delete_eq.
    + rewrite lookup_insert_eq. by destruct (b_versioning b).
Qed.

Lemma current_after_promotion (key : bytes) (next : option ObjectVersionRecord) (OB : gmap bytes ObjectMetadata) (MK : gmap bytes DeleteMarker) :
  match show_object key next OB !! key with
  | Some m => Some (o_version_id m)
  | None => m_version_id <$> show_marker key next MK !! key
  end = version_id <$> next.
Proof.
  destruct next as [[m n|d n]|]; simpl.
  - by rewrite lookup_insert_eq.
  - by rewrite lookup_delete_eq, lookup_insert_eq.
  - by rewrite !lookup_delete_eq.
Qed.

(** C8: deleting a version promotes the newest remaining one. A version delete
    that reports a removed version removes exactly that version and its lock. If
    the version was the current one of its key, the remaining version with the
    latest creation time becomes current, marker or object, and the key has no
    current version only if none remains; if it was not, the current view does
    not change. *)
Theorem delete_version_effect (c c' : Catalog) (bucket k version : bytes) (release : LockRelease)
    (res : DeleteVersionResult) (Hreach : reachable c)
    (Hok : command_ok c (DeleteObjectVersion bucket k version release))
    (Hrun : commit_one (DeleteObjectVersion bucket k version release) c =
            (Ok (DeleteVersionOutcome (Some res)), c')) :
  let key := object_key bucket k in
  VERSIONS c !! version = Some (removed res) ∧ VERSIONS c' = delete version (VERSIONS c) ∧
  OBJECT_LOCKS c' = delete version (OBJECT_LOCKS c) ∧
  (current_version_of c key = Some version →
     ∃ next, newest (VERSIONS c') bucket k next ∧ current_version_of c' key = version_id <$> next) ∧
  (current_version_of c key ≠ Some version → OBJECTS c' = OBJECTS c ∧ MARKERS c' = MARKERS c).
Proof.
  intros key. apply commit_one_ok in Hrun. cbn [apply_command_tx] in Hrun. destruct Hok as [Hb Hk].
  apply reachable_inv in Hreach as Hinv. apply tx_bind_ok in Hrun as (res' & c2 & Hdel & Hret).
  apply tx_ret_ok in Hret as [[= <-] ->].
  destruct (delete_object_version_ok _ _ _ _ _ _ _ Hinv Hb Hk Hdel) as
    [[_ ?]|(r & f & next & u & c1 & Hr & _ & _ & _ & Hnew & Hc1 & _ & _ & [= ->] & b & _ & Hj)]; [done|].
  pose proof (versions_id (inv_versions _ Hinv) _ _ Hr) as Hid.
  apply journals_event in Hj as (fe & fc & ->). rewrite Hc1. clear Hc1. fold key in Hnew |- *.
  unfold current_version_of at 2, drop_rows. tables. cbn [vdrop removed]. rewrite Hid.
  split_and!; [done|done|done| |]; revert Hnew; case_bool_decide as Hcur; try done.
  intros Hnew _. exists next. split; [by apply Hnew|apply current_after_promotion].
Qed.

(** C39: recovery always completes. In every reachable catalog the recovery of
    interrupted multipart completions succeeds, no upload is left in its
    completing state, and the catalog stays consistent. *)
Theorem recovery_completes (c : Catalog) (Hreach : reachable c) :
  ∃ o c', commit_one RecoverMultipartCompletions c = (Ok o, c') ∧
    (∀ id u, MULTIPART c' !! id = Some u → u_state u = Active) ∧ Inv c'.
Proof.
  apply reachable_inv in Hreach as Hinv.
  destruct (recover_multipart_total c Hinv) as (parts & c' & Hrun).
  destruct (recover_multipart_inv c parts c' Hinv Hrun) as [Hinv' Hact].
  exists (MultipartCleanupOutcome parts), c'. split_and!; [|done|done].
  unfold commit_one, atomically. cbn [apply_command_tx]. by rewrite (tx_bind_run_ok _ _ _ _ _ Hrun).
Qed.

End ObjectTheorems.

(** ** Limits, against their documentation *)

#[local] Existing Instance sample_uuids.

Definition outcomes (cmds : list MetadataCommand) (c : Catalog) : list bool :=
  is_ok <$> (GroupCommit.one_at_a_time apply_command_tx cmds c).1.

(** One object allowed. The first is hidden by a delete marker, a second takes
    its place, and then the marker is deleted. *)
Definition undelete_run : list MetadataCommand :=
  [CreateBucket (sample_bucket Enabled {| quota_bytes := UnlimitedBytes; quota_objects := LimitObjects 1 |} None);
   PutObject (sample_object 1 [97] 5 1000) None Direct;
   DeleteObject (uid 1) [97] (sample_marker 1 2000);
   PutObject (sample_object 2 [98] 5 3000) None Direct;
   DeleteObjectVersion (uid 1) [97] (uid 51) (lock_release_new 4000 5)].

(** an object-count limit can be exceeded. Deleting a delete marker brings an
    older object back without checking the limit: in a bucket limited to one
    object every command of this run succeeds and two objects are current. *)
Theorem object_limit_exceeded :
  admissible empty_catalog undelete_run ∧
  outcomes undelete_run empty_catalog = [true; true; true; true; true] ∧
  current_objects (usage_of (run undelete_run empty_catalog) (uid 1)) = 2 ∧
  (quota_objects ∘ b_quota <$> BUCKETS (run undelete_run empty_catalog) !! uid 1) = Some (LimitObjects 1).
Proof.
  split_and!; [|vm_compute; reflexivity..].
  apply (bool_decide_unpack (admissible empty_catalog undelete_run)). vm_compute. exact I.
Qed.

(** Ten bytes allowed; the same key is written twice with six. *)
Definition overwrite_run : list MetadataCommand :=
  [CreateBucket (sample_bucket Enabled {| quota_bytes := LimitBytes 10; quota_objects := UnlimitedObjects |} None);
   PutObject (sample_object 1 [97] 6 1000) None Direct;
   PutObject (sample_object 2 [97] 6 2000) None Direct].

(** non-current versions count against a byte limit. In a versioned bucket
    limited to ten bytes, overwriting a six-byte object with a six-byte object is
    refused, although six bytes would be current before and after. *)
Theorem noncurrent_bytes_counted :
  admissible empty_catalog overwrite_run ∧
  (GroupCommit.one_at_a_time apply_command_tx overwrite_run empty_catalog).1 =
    [Ok NoOutcome; Ok (ObjectCommitOutcome []); Err QuotaExceeded] ∧
  logical_bytes (usage_of (run overwrite_run empty_catalog) (uid 1)) = 6.
Proof.
  split_and!; [|vm_compute; reflexivity..].
  apply (bool_decide_unpack (admissible empty_catalog overwrite_run)). vm_compute. exact I.
Qed.

(** ** Witnesses *)

Lemma put_object_effect_witness :
  let m := sample_object 3 [97] 4 6000 in
  ∃ c', OBJECTS c' !! object_key (uid 1) [97] = Some m ∧ MARKERS c' !! object_key (uid 1) [97] = None ∧
    VERSIONS c' !! uid 13 = Some (ObjectRecord m false) ∧
    (∀ k, k ≠ object_key (uid 1) [97] →
       OBJECTS c' !! k = OBJECTS sample_catalog !! k ∧ MARKERS c' !! k = MARKERS sample_catalog !! k) ∧
    (∀ v r, VERSIONS sample_catalog !! v = Some r →
       VERSIONS c' !! v = Some r ∨ (false = true ∧ is_null r = true ∧ rkey r = object_key (uid 1) [97])).
Proof.
  intros m. eexists.
  eapply (put_object_effect sample_catalog _ m None Direct (ObjectCommitOutcome [])
    (sample_bucket Enabled {| quota_bytes := LimitBytes 40; quota_objects := UnlimitedObjects |} None)).
  - exact sample_reachable.
  - apply (bool_decide_unpack (command_ok sample_catalog _)). vm_compute. exact I.
  - vm_compute. reflexivity.
  - vm_compute. reflexivity.
Defined.

Lemma delete_object_effect_witness :
  ∃ c', OBJECTS c' !! object_key (uid 1) [97] = None ∧
    (∀ k', k' ≠ object_key (uid 1) [97] →
       OBJECTS c' !! k' = OBJECTS locked_catalog !! k' ∧ MARKERS c' !! k' = MARKERS locked_catalog !! k') ∧
    (∀ v r, VERSIONS locked_catalog !! v = Some r →
       VERSIONS c' !! v = Some r ∨ (false = true ∧ is_null r = true ∧ rkey r = object_key (uid 1) [97])) ∧
    m_version_id <$> MARKERS c' !! object_key (uid 1) [97] = Some (uid 51).
Proof.
  eexists.
  eapply (delete_object_effect locked_catalog _ (uid 1) [97] (sample_marker 1 3000) _
    (sample_bucket Enabled no_quota (Some {| default_retention := None |}))).
  - exact locked_reachable.
  - apply (bool_decide_unpack (command_ok locked_catalog _)). vm_compute. exact I.
  - vm_compute. reflexivity.
  - vm_compute. reflexivity.
Defined.

Lemma delete_version_effect_witness :
  ∃ c' res, VERSIONS sample_catalog !! uid 51 = Some (removed res) ∧
    VERSIONS c' = delete (uid 51) (VERSIONS sample_catalog) ∧
    OBJECT_LOCKS c' = delete (uid 51) (OBJECT_LOCKS sample_catalog) ∧
    (current_version_of sample_catalog (object_key (uid 1) [97]) = Some (uid 51) →
       ∃ next, newest (VERSIONS c') (uid 1) [97] next ∧
         current_version_of c' (object_key (uid 1) [97]) = version_id <$> next) ∧
    (current_version_of sample_catalog (object_key (uid 1) [97]) ≠ Some (uid 51) →
       OBJECTS c' = OBJECTS sample_catalog ∧ MARKERS c' = MARKERS sample_catalog).
Proof.
  eexists _, _.
  eapply (delete_version_effect sample_catalog _ (uid 1) [97] (uid 51) (lock_release_new 4000 5)).
  - exact sample_reachable.
  - apply (bool_decide_unpack (command_ok sample_catalog _)). vm_compute. exact I.
  - vm_compute. reflexivity.
Defined.

Lemma recovery_completes_witness :
  ∃ o c', commit_one RecoverMultipartCompletions sample_catalog = (Ok o, c') ∧
    (∀ id u, MULTIPART c' !! id = Some u → u_state u = Active) ∧ Inv c'.
Proof. apply (recovery_completes sample_catalog). exact sample_reachable. Defined.

End ObjectTheorems.
