(* ===== verification/Listing.v ===== *)
(** * Reading the catalog

    The read side of [crates/record-store-metadata/src/redb_store.rs], with the
    request and page types of [types.rs]: lookups, listings with their cursors,
    usage, and the scans the storage maintenance relies on. A read sees one
    consistent snapshot of the tables, so it is a function of the catalog; the
    failures of the database file and of JSON decoding are not modelled. *)

From S2P Require Import Prelude Bytes Tables ObjectLock CoreTypes Keys Catalog Commands.
Import ObjectLock CoreTypes Keys Catalog Commands.

Module Listing.

(** ** Requests and pages ([types.rs]) *)

Record ListObjectsRequest := {
  lo_bucket_id : bytes; lo_prefix : bytes; lo_start_after : option bytes; lo_limit : Z }.
Record ObjectMetadataPage := { objects : list ObjectMetadata; next_key : option bytes }.

Record ListObjectVersionsRequest := {
  lv_bucket_id : bytes; lv_prefix : bytes; lv_key_marker : option bytes;
  lv_version_id_marker : option bytes; lv_limit : Z }.
Record ListedObjectVersion := { listed_record : ObjectVersionRecord; is_latest : bool }.
Record ObjectVersionPage := {
  page_versions : list ListedObjectVersion; next_key_marker : option bytes;
  next_version_id_marker : option bytes }.

Record ListMultipartUploadsRequest := {
  lu_bucket_id : bytes; lu_prefix : bytes; lu_key_marker : option bytes;
  lu_upload_id_marker : option bytes; lu_limit : Z }.
Record MultipartUploadPage := { uploads : list MultipartUpload; next_upload_id_marker : option bytes }.

Record LockedVersion := {
  locked_bucket_id : bytes; locked_key : bytes; locked_version_id : bytes; locked_state : ObjectLockState }.
Record LockedVersionPage := { locked_versions : list LockedVersion; next_locked : option bytes }.

Record PayloadReferencePage := { object_ids : list bytes; next_object_id : option bytes }.

Record StorageUsage := {
  su_object_count : Z; su_bytes_used : Z; su_bucket_count : Z; su_version_count : Z;
  su_version_bytes : Z; su_physical_bytes : Z; su_temporary_multipart_bytes : Z }.
Record BucketUsageSummary := {
  bs_object_count : Z; bs_logical_bytes : Z; bs_version_count : Z; bs_version_bytes : Z;
  bs_multipart_bytes : Z }.

(** ** Lookups *)

Definition get_bucket (id : bytes) (c : Catalog) : option Bucket := BUCKETS c !! bucket_key id.
Definition get_bucket_by_name (name : bytes) (c : Catalog) : option Bucket := BUCKET_NAMES c !! name.
Definition list_buckets (c : Catalog) : list Bucket := (table_iter (BUCKET_NAMES c)).*2.

Definition get_object (bucket key : bytes) (c : Catalog) : option ObjectMetadata :=
  OBJECTS c !! object_key bucket key.

Definition get_object_version (bucket key version : bytes) (c : Catalog) : option ObjectVersionRecord :=
  record ← VERSIONS c !! version;
  if record_matches record bucket key then Some record else None.

Definition get_null_version (bucket key : bytes) (c : Catalog) : option ObjectVersionRecord :=
  id ← NULL_VERSIONS c !! object_key bucket key;
  VERSIONS c !! id.

Definition get_object_lock (version : bytes) (c : Catalog) : ObjectLockState :=
  default {| retention := None; legal_hold := false |} (OBJECT_LOCKS c !! lock_key version).

Definition get_multipart_upload (id : bytes) (c : Catalog) : option MultipartUpload := MULTIPART c !! id.

(** ** Current objects *)

Definition list_objects (request : ListObjectsRequest) (c : Catalog) : ObjectMetadataPage :=
  if lo_limit request =? 0 then {| objects := []; next_key := None |}
  else
    let prefix := object_prefix (lo_bucket_id request) (lo_prefix request) in
    let start := match lo_start_after request with
                 | None => prefix
                 | Some value => object_prefix (lo_bucket_id request) value ++ [0]
                 end in
    let end_ := prefix_successor prefix in
    let found := (scan_limit (lo_limit request) (table_range start end_ (OBJECTS c))).*2 in
    let '(found, more) := trim (lo_limit request) found in
    {| objects := found; next_key := if more then o_key <$> last found else None |}.

(** ** Versions *)

(** [current_version_read]. *)
Definition current_version_read (key : bytes) (c : Catalog) : option bytes := current_version_of c key.

(** The loop body: an entry of the order index, its record, and whether it is current. *)
Definition listed_version (bucket id : bytes) (c : Catalog) : option ListedObjectVersion :=
  record ← VERSIONS c !! id;
  Some {| listed_record := record;
          is_latest := bool_decide (current_version_read (object_key bucket (record_key record)) c =
                                    Some (version_id record)) |}.

Definition list_object_versions (request : ListObjectVersionsRequest) (c : Catalog)
    : result MetadataError ObjectVersionPage :=
  if negb (Bool.eqb (is_some (lv_key_marker request)) (is_some (lv_version_id_marker request)))
  then Err (Database "list versions" "both markers are required")
  else if lv_limit request =? 0
  then Ok {| page_versions := []; next_key_marker := None; next_version_id_marker := None |}
  else
    let prefix := object_prefix (lv_bucket_id request) (lv_prefix request) in
    start ← match lv_key_marker request, lv_version_id_marker request with
            | Some marker_key, Some marker_id =>
                record ← ok_or (Database "list versions" "unknown marker") (VERSIONS c !! marker_id);
                if negb (bool_decide (record_key record = marker_key)) ||
                   negb (record_matches record (lv_bucket_id request) (record_key record))
                then Err (Database "list versions" "mismatched marker")
                else Ok (version_order_key record ++ [0])
            | _, _ => Ok prefix
            end;
    let end_ := prefix_successor prefix in
    out ← mapM (λ entry, ok_or (Database "list versions" "inconsistent index")
                           (listed_version (lv_bucket_id request) entry.2 c))
            (scan_limit (lv_limit request) (table_range start end_ (VERSION_ORDER c)));
    let '(out, truncated) := trim (lv_limit request) out in
    Ok {| page_versions := out;
          next_key_marker := if truncated then record_key ∘ listed_record <$> last out else None;
          next_version_id_marker := if truncated then version_id ∘ listed_record <$> last out else None |}.

(** ** Multipart uploads and parts *)

Definition max_bytes (a b : bytes) : bytes := if bool_decide (bytes_le a b) then b else a.

(** Where a listing resumes, from the markers of the request and the upload the
    upload marker names, if it still exists in the bucket. *)
Definition resume_point (bucket : bytes) (key_marker : option bytes) (marker : option MultipartUpload)
    (upload_id_marker : option bytes) : result MetadataError (option bytes) :=
  match key_marker, marker, upload_id_marker with
  | Some key, Some upload, Some _ =>
      if bool_decide (u_key upload = key) then Ok (Some (multipart_order_key upload ++ [0]))
      else Ok (Some (object_prefix bucket key ++ [0]))
  | Some key, None, Some _ => Ok (Some (object_prefix bucket key ++ [0]))
  | Some key, _, None => Ok (Some (object_prefix bucket key ++ [1]))
  | None, Some upload, Some _ => Ok (Some (multipart_order_key upload ++ [0]))
  | None, None, Some _ => Err MultipartUploadNotFound
  | None, _, None => Ok None
  end.

Definition list_multipart_uploads (request : ListMultipartUploadsRequest) (c : Catalog)
    : result MetadataError MultipartUploadPage :=
  let bucket := lu_bucket_id request in
  if lu_limit request =? 0 then Ok {| uploads := []; next_upload_id_marker := None |}
  else
    let prefix := object_prefix bucket (lu_prefix request) in
    let marker := id ← lu_upload_id_marker request;
                  upload ← MULTIPART c !! id;
                  if bool_decide (u_bucket_id upload = bucket) then Some upload else None in
    resume ← resume_point bucket (lu_key_marker request) marker (lu_upload_id_marker request);
    let start := match resume with None => prefix | Some resume => max_bytes resume prefix end in
    let end_ := prefix_successor prefix in
    if bool_decide (bytes_le end_ start) then Ok {| uploads := []; next_upload_id_marker := None |}
    else
      out ← mapM (λ entry, ok_or (Database "list multipart" "inconsistent index") (MULTIPART c !! entry.2))
              (scan_limit (lu_limit request) (table_range start end_ (MULTIPART_ORDER c)));
      let '(out, more) := trim (lu_limit request) out in
      Ok {| uploads := out; next_upload_id_marker := if more then u_id <$> last out else None |}.

Definition list_multipart_parts (id : bytes) (after : option Z) (limit : Z) (c : Catalog)
    : result MetadataError (list UploadedPart) :=
  if bool_decide (MULTIPART c !! id = None) then Err MultipartUploadNotFound
  else
    let start := match after with None => id | Some number => part_key id number ++ [0] end in
    Ok (take (Z.to_nat limit) (table_range start (prefix_successor id) (PARTS c))).*2.

(** ** Rules, usage, cleanup *)

Definition list_lifecycle_rules (bucket : option bytes) (c : Catalog) : list LifecycleRule :=
  filter (λ rule, bucket = None ∨ bucket = Some (l_bucket_id rule))
    (table_iter (LIFECYCLE_RULES c)).*2.

Definition storage_usage (c : Catalog) : StorageUsage :=
  {| su_object_count := counter c OBJECT_COUNT; su_bytes_used := counter c LOGICAL_BYTES;
     su_bucket_count := counter c BUCKET_COUNT; su_version_count := counter c VERSION_COUNT;
     su_version_bytes := counter c VERSION_BYTES; su_physical_bytes := counter c PHYSICAL_BYTES;
     su_temporary_multipart_bytes := counter c MULTIPART_BYTES |}.

Definition usage_summary (value : BucketUsage) : BucketUsageSummary :=
  {| bs_object_count := current_objects value; bs_logical_bytes := logical_bytes value;
     bs_version_count := versions value; bs_version_bytes := version_bytes value;
     bs_multipart_bytes := multipart_bytes value |}.

(** Every row of the usage table, the keys decoded as identifiers. *)
Definition bucket_usage (c : Catalog) : result MetadataError (gmap bytes BucketUsageSummary) :=
  if bool_decide (map_Forall (λ key _, length key = 16%nat) (BUCKET_USAGE c))
  then Ok (usage_summary <$> BUCKET_USAGE c)
  else Err (Database "decode bucket usage key" "bucket identifier is malformed").

Definition pending_cleanup (limit : Z) (c : Catalog) : list bytes :=
  (take (Z.to_nat limit) (table_iter (CLEANUP c))).*1.

(** ** The storage-event journal *)

Definition event_le (p q : Z * MutationEvent) : Prop := p.1 ≤ q.1.
#[export] Instance event_le_dec : RelDecision event_le.
Proof. intros p q. unfold event_le. apply _. Defined.

Definition pending_mutation_events (after limit : Z) (c : Catalog) : list MutationEvent :=
  let limit := Z.max 1 (Z.min limit 10000) in
  let rows := merge_sort event_le (map_to_list (MUTATION_EVENTS c)) in
  (take (Z.to_nat limit) (filter (λ kv, u64_saturating_add after 1 ≤ kv.1) rows)).*2.

(** ** Locks *)

(** The loop over the lock table; [found] is the page so far, in reverse. *)
Fixpoint locks_loop (limit : Z) (c : Catalog) (entries : list (bytes * ObjectLockState))
    (found : list LockedVersion) : LockedVersionPage :=
  match entries with
  | [] => {| locked_versions := reverse found; next_locked := None |}
  | (key, state) :: entries =>
      if Z.of_nat (length found) =? limit
      then {| locked_versions := reverse found; next_locked := locked_version_id <$> head found |}
      else match VERSIONS c !! key with
           | None => locks_loop limit c entries found
           | Some record =>
               locks_loop limit c entries
                 ({| locked_bucket_id := record_bucket record; locked_key := record_key record;
                     locked_version_id := version_id record; locked_state := state |} :: found)
           end
  end.

Definition list_object_locks (after : option bytes) (limit : Z) (c : Catalog)
    : result MetadataError LockedVersionPage :=
  if (limit =? 0) || (1000 <? limit)
  then Err (Database "list object locks" "limit must be between 1 and 1000")
  else
    let start := match after with None => [] | Some id => lock_key id ++ [0] end in
    Ok (locks_loop limit c (filter (λ kv, bytes_le start kv.1) (table_iter (OBJECT_LOCKS c))) []).

(** ** Payload references *)

(** [BTreeSet::insert] on the ascending list of the elements. *)
Fixpoint set_insert (x : bytes) (s : list bytes) : list bytes :=
  match s with
  | [] => [x]
  | y :: s' =>
      if bool_decide (x = y) then s
      else if bool_decide (bytes_lt x y) then x :: s else y :: set_insert x s'
  end.

(** The closure [insert]: keeps at most [limit + 1] of the smallest identifiers. *)
Definition insert_bounded (after : option bytes) (limit : Z) (identifiers : list bytes) (id : bytes)
    : list bytes :=
  if match after with None => true | Some after => bool_decide (bytes_lt after id) end
  then
    let identifiers := set_insert id identifiers in
    if limit + 1 <? Z.of_nat (length identifiers) then pop identifiers else identifiers
  else identifiers.

Definition list_payload_references (after : option bytes) (limit : Z) (c : Catalog)
    : result MetadataError PayloadReferencePage :=
  if (limit =? 0) || (1000 <? limit)
  then Err (Database "list payload references" "limit must be between 1 and 1000")
  else
    let of_versions := o_id <$> omap as_object (table_iter (VERSIONS c)).*2 in
    let of_parts := p_object_id <$> (table_iter (PARTS c)).*2 in
    let identifiers := foldl (insert_bounded after limit) [] of_versions in
    let identifiers := foldl (insert_bounded after limit) identifiers of_parts in
    let '(identifiers, truncated) := trim limit identifiers in
    Ok {| object_ids := identifiers; next_object_id := if truncated then last identifiers else None |}.

(** Scans the versions, then the parts. *)
Definition payload_referenced (id : bytes) (c : Catalog) : bool :=
  existsb (λ record, match record with
                     | ObjectRecord metadata _ => bool_decide (o_id metadata = id)
                     | MarkerRecord _ _ => false
                     end) (table_iter (VERSIONS c)).*2 ||
  existsb (λ part, bool_decide (p_object_id part = id)) (table_iter (PARTS c)).*2.

End Listing.
