(* ===== verification/ListingTheorems.v ===== *)
(** * Listings are complete

    Following the cursors of a listing to its end, page by page and with any
    page size, collects every row the listing is about exactly once and in order:
    current objects, versions, uploads, locked versions, payload references. The
    listing of objects has a case in which it shows too much. *)

From S2P Require Import Prelude Bytes Tables ObjectLock CoreTypes Keys Catalog Commands CatalogInv CatalogSteps CatalogUploads CatalogMultipart Reachable Listing.
Import ObjectLock CoreTypes Keys Catalog Commands CatalogInv CatalogSteps CatalogUploads CatalogMultipart Reachable Samples Listing.

Module ListingTheorems.

(** Evaluates the branches of a listing and leaves its scan alone. *)
Ltac page_cbn :=
  cbn -[scan_limit trim table_range bytes_le max_bytes mapM omap prefix_successor object_prefix multipart_order_key version_order_key].

(** ** Ranges of a bucket and a prefix *)

Lemma length_table_range {V} (t : gmap bytes V) lo hi : (length (table_range lo hi t) ≤ size t)%nat.
Proof.
  unfold table_range, table_iter. rewrite length_filter, merge_sort_Permutation.
  by rewrite length_map_to_list.
Qed.

Lemma in_range_from start lo hi k :
  bytes_le lo start → in_range start hi k ↔ in_range lo hi k ∧ bytes_le start k.
Proof.
  intros Hle. unfold in_range. split; [|tauto]. intros [Hs Hh]. split_and!; [by etrans|done|done].
Qed.

(** A prefix without zero bytes of zero-terminated text is a prefix of the text. *)
Lemma prefix_before_zero p key rest :
  key_ok p → p `prefix_of` key ++ 0 :: rest → p `prefix_of` key.
Proof.
  revert key. induction p as [|x p IH]; intros key Hp Hpre; [apply prefix_nil|].
  apply Forall_cons in Hp as [Hx Hp]. destruct key as [|y key]; cbn in Hpre.
  - apply prefix_cons_inv_1 in Hpre. lia.
  - pose proof (prefix_cons_inv_1 _ _ _ _ Hpre) as ->. apply prefix_cons_inv_2 in Hpre.
    apply prefix_cons. by apply IH.
Qed.

(** Rows filed under a bucket and a key, possibly with a zero-terminated tail. *)
Lemma prefix_rows bucket prefix b key tail :
  uuid_ok bucket → key_ok prefix → uuid_ok b → key_ok key → bytes_ok tail →
  tail = [] ∨ head tail = Some 0 →
  in_range (object_prefix bucket prefix) (prefix_successor (object_prefix bucket prefix))
    (object_key b key ++ tail) ↔ b = bucket ∧ prefix `prefix_of` key.
Proof.
  intros Hbu Hp Hb Hk Htl Hz. unfold object_key, object_prefix. split.
  - intros [rest Heq]%prefix_range_sound.
    + rewrite <-!app_assoc in Heq. apply app_inj_len in Heq as [-> Heq]; [|destruct Hbu, Hb; congruence].
      split; [done|]. destruct Hz as [->|Hz].
      * rewrite app_nil_r in Heq. by exists rest.
      * destruct tail as [|z tail]; [done|]. injection Hz as ->.
        apply (prefix_before_zero _ _ tail); [done|]. by exists rest.
    + apply Forall_app. split; [|done]. apply Forall_app. split; [apply Hb|by apply key_ok_bytes].
  - intros [-> [rest ->]]. rewrite <-!app_assoc, app_assoc. apply prefix_range_complete. left. intros x Hx.
    apply Forall_app in Hk as [_ Hk]. destruct rest as [|y rest]; simpl in Hx.
    + destruct Hz as [->|Hz]; [done|]. simplify_eq. lia.
    + simplify_eq. apply Forall_cons in Hk as [? _]. lia.
Qed.

Lemma prefix_row_bytes b key tail : uuid_ok b → key_ok key → bytes_ok tail → bytes_ok (object_key b key ++ tail).
Proof.
  intros Hb Hk Ht. apply Forall_app. split; [|done]. apply Forall_app. split; [apply Hb|by apply key_ok_bytes].
Qed.

Lemma version_order_split r :
  ∃ tail, version_order_key r = object_key (record_bucket r) (record_key r) ++ 0 :: tail.
Proof. unfold version_order_key, exact_version_prefix. rewrite <-app_assoc. by eexists. Qed.

Lemma upload_order_split u :
  ∃ tail, multipart_order_key u = object_key (u_bucket_id u) (u_key u) ++ 0 :: tail.
Proof. by eexists. Qed.

Lemma version_prefix_rows bucket prefix r :
  uuid_ok bucket → key_ok prefix → record_ok r →
  in_range (object_prefix bucket prefix) (prefix_successor (object_prefix bucket prefix)) (version_order_key r) ↔
  record_bucket r = bucket ∧ prefix `prefix_of` record_key r.
Proof.
  intros Hb Hp Hr. pose proof (version_order_key_bytes r Hr) as Hok. destruct Hr as (_ & Hrb & Hrk & _).
  destruct (version_order_split r) as [tail Heq]. rewrite Heq in Hok |- *. apply Forall_app in Hok as [_ Hok].
  apply prefix_rows; try done. by right.
Qed.

Lemma upload_prefix_rows bucket prefix u :
  uuid_ok bucket → key_ok prefix → upload_ok u →
  in_range (object_prefix bucket prefix) (prefix_successor (object_prefix bucket prefix)) (multipart_order_key u) ↔
  u_bucket_id u = bucket ∧ prefix `prefix_of` u_key u.
Proof.
  intros Hb Hp Hu. pose proof (multipart_order_key_bytes u Hu) as Hok. destruct Hu as (_ & Hub & Huk & _).
  destruct (upload_order_split u) as [tail Heq]. rewrite Heq in Hok |- *. apply Forall_app in Hok as [_ Hok].
  apply prefix_rows; try done. by right.
Qed.

(** Text is ordered as its zero-terminated form is. *)
Lemma zero_terminated_lt k k' r r' :
  key_ok k → key_ok k' → bytes_lt (k ++ 0 :: r) (k' ++ 0 :: r') ↔ bytes_lt k k' ∨ (k = k' ∧ bytes_lt r r').
Proof.
  revert k'. induction k as [|x k IH]; intros [|y k'] Hk Hk'; cbn [app].
  - rewrite bytes_lt_cons. split; [intros [?|[_ ?]]; [lia|by right]|].
    intros [[]%bytes_lt_nil_r|[_ ?]]. by right.
  - apply Forall_cons in Hk' as [? _]. rewrite bytes_lt_cons, bytes_lt_nil_l. split; [by left|left; lia].
  - apply Forall_cons in Hk as [? _]. rewrite bytes_lt_cons. split; [intros [?|[? _]]; lia|].
    intros [[]%bytes_lt_nil_r|[? _]]. done.
  - apply Forall_cons in Hk as [_ Hk]. apply Forall_cons in Hk' as [_ Hk']. rewrite !bytes_lt_cons, IH by done.
    split.
    + intros [?|[-> [?|[-> ?]]]]; [left; by left|left; by right|by right].
    + intros [[?|[-> ?]]|[[= -> ->] ?]]; [by left|right; auto|right; auto].
Qed.

(** ** Rows of a consistent catalog *)

Section Rows.
Context (c : Catalog) (Hinv : Inv c).

Lemma record_row v r : VERSIONS c !! v = Some r → version_id r = v ∧ record_ok r.
Proof. intros Hr. destruct (version_row _ _ _ _ _ (inv_versions _ Hinv) _ _ Hr) as (? & ? & _). done. Qed.

Lemma current_row k m :
  OBJECTS c !! k = Some m → k = object_key (o_bucket_id m) (o_key m) ∧ uuid_ok (o_bucket_id m) ∧ key_ok (o_key m).
Proof.
  intros Hm. destruct (object_row _ _ _ (inv_current _ Hinv) _ _ Hm) as (-> & n & Hv).
  apply record_row in Hv as (_ & _ & ? & ? & _). done.
Qed.

Lemma current_row_bytes k m : OBJECTS c !! k = Some m → bytes_ok k.
Proof.
  intros (-> & Hb & Hk)%current_row. rewrite <-(app_nil_r (object_key _ _)).
  apply prefix_row_bytes; [done|done|constructor].
Qed.

Lemma order_row_of k v :
  VERSION_ORDER c !! k = Some v → ∃ r, VERSIONS c !! v = Some r ∧ k = version_order_key r ∧ version_id r = v ∧ record_ok r.
Proof.
  intros (r & Hr & ->)%(order_row _ _ _ _ _ (inv_versions _ Hinv)). destruct (record_row _ _ Hr). by exists r.
Qed.

Lemma order_row_bytes k v : VERSION_ORDER c !! k = Some v → bytes_ok k.
Proof. intros (r & _ & -> & _ & Hr)%order_row_of. by apply version_order_key_bytes. Qed.

Lemma upload_row_of k i :
  MULTIPART_ORDER c !! k = Some i → ∃ u, MULTIPART c !! i = Some u ∧ k = multipart_order_key u ∧ u_id u = i ∧ upload_ok u.
Proof.
  intros (u & Hu & ->)%(upload_order_row _ _ _ _ (inv_multipart _ Hinv)).
  destruct (upload_row _ _ _ _ (inv_multipart _ Hinv) _ _ Hu) as (? & ? & _). by exists u.
Qed.

Lemma upload_row_bytes k i : MULTIPART_ORDER c !! k = Some i → bytes_ok k.
Proof. intros (u & _ & -> & _ & Hu)%upload_row_of. by apply multipart_order_key_bytes. Qed.
End Rows.

(** ** Current objects *)

Section Objects.
Context (c : Catalog) (Hinv : Inv c) (bucket prefix : bytes) (limit : Z).
Context (Hbucket : uuid_ok bucket) (Hprefix : key_ok prefix) (Hlimit : 1 ≤ limit < u64_max).

Let lo := object_prefix bucket prefix.
Let hi := prefix_successor lo.

Definition objects_request (start_after : option bytes) : ListObjectsRequest :=
  {| lo_bucket_id := bucket; lo_prefix := prefix; lo_start_after := start_after; lo_limit := limit |}.
Definition objects_page (start_after : option bytes)
    : result MetadataError (list ObjectMetadata * option (option bytes)) :=
  let page := list_objects (objects_request start_after) c in Ok (objects page, Some <$> next_key page).

Let start (start_after : option bytes) : bytes :=
  match start_after with None => lo | Some value => object_prefix bucket value ++ [0] end.
Let rest start_after : list ObjectMetadata :=
  omap (λ kv, Some kv.2) (table_range (start start_after) hi (OBJECTS c)).

Lemma omap_snd {A B} (l : list (A * B)) : omap (λ kv, Some kv.2) l = l.*2.
Proof. induction l as [|kv l IH]; [done|]. cbn [omap list_omap]. by rewrite IH. Qed.

Lemma objects_page_spec sa :
  bytes_le lo (start sa) →
  ∃ items next, objects_page sa = Ok (items, next) ∧
    match next with
    | None => items = rest sa
    | Some sa' => items ≠ [] ∧ bytes_le lo (start sa') ∧ rest sa = items ++ rest sa'
    end.
Proof.
  intros Hgood. unfold objects_page, list_objects. cbn [objects_request lo_limit lo_bucket_id lo_prefix lo_start_after].
  rewrite (proj2 (Z.eqb_neq limit 0)) by lia. fold lo hi. fold (start sa).
  pose proof (table_page (λ kv, Some kv.2) (OBJECTS c) (start sa) hi limit (current_row_bytes c Hinv) Hlimit) as Hpage.
  rewrite !omap_snd in Hpage. specialize (Hpage ltac:(apply Forall_true; by eexists)).
  destruct (trim limit _) as [items more]. cbn [objects next_key]. eexists _, _. split; [done|].
  unfold rest at 1. rewrite omap_snd. destruct more; [|done].
  destruct Hpage as (pre & k & m & x & -> & [= <-] & Hm & Hr & Heq).
  apply (in_range_from _ lo) in Hr as [Hr Hle]; [|done]. rewrite last_snoc. cbn.
  destruct (current_row c Hinv _ _ Hm) as (Hk & Hb & Hkey). rewrite <-(app_nil_r k), Hk in Hr.
  apply prefix_rows in Hr as [Hbu _]; try done; [|constructor|by left]. rewrite Hk, Hbu in Heq, Hle.
  unfold rest at 1. rewrite omap_snd. cbn [start].
  split_and!; [by destruct pre| |done]. etrans; [exact Hgood|]. etrans; [exact Hle|apply bytes_le_app].
Qed.

Lemma all_objects_spec :
  follow objects_page (size (OBJECTS c)) None = Ok (Some (table_range lo hi (OBJECTS c)).*2).
Proof.
  rewrite (follow_complete _ (λ sa, bytes_le lo (start sa)) rest).
  - unfold rest. by rewrite omap_snd.
  - apply objects_page_spec.
  - done.
  - unfold rest. rewrite omap_snd, length_fmap. apply length_table_range.
Qed.

Lemma objects_in_range k m :
  OBJECTS c !! k = Some m → in_range lo hi k ↔ o_bucket_id m = bucket ∧ prefix `prefix_of` o_key m.
Proof.
  intros (-> & Hb & Hk)%(current_row c Hinv). rewrite <-(app_nil_r (object_key _ _)).
  apply prefix_rows; try done; [constructor|by left].
Qed.

Lemma listed_objects_sorted :
  StronglySorted (λ m m', bytes_lt (o_key m) (o_key m')) (table_range lo hi (OBJECTS c)).*2.
Proof.
  rewrite <-omap_snd. apply table_range_omap_sorted. intros k m k' m' x x' Hm Hm' Hr Hr' [= <-] [= <-] Hlt.
  apply (objects_in_range _ _ Hm) in Hr as [Hb _]. apply (objects_in_range _ _ Hm') in Hr' as [Hb' _].
  apply (current_row c Hinv) in Hm as (-> & _), Hm' as (-> & _). rewrite Hb, Hb' in Hlt.
  by apply bytes_lt_app_l in Hlt.
Qed.

Lemma elem_of_listed_objects m :
  m ∈ (table_range lo hi (OBJECTS c)).*2 ↔ get_object bucket (o_key m) c = Some m ∧ prefix `prefix_of` o_key m.
Proof.
  rewrite list_elem_of_fmap. split.
  - intros ([k m'] & -> & [Hm Hr]%elem_of_table_range). simpl. pose proof Hr as Hr'.
    apply (objects_in_range _ _ Hm) in Hr' as [Hb Hp]. apply (current_row c Hinv) in Hm as Hk.
    destruct Hk as [-> _]. rewrite Hb in Hm. done.
  - intros [Hm Hp]. exists (object_key bucket (o_key m), m). split; [done|]. apply elem_of_table_range.
    split; [done|]. apply (objects_in_range _ _ Hm). split; [|done].
    apply (current_row c Hinv) in Hm as (Hk & Hb & _). apply object_key_inj in Hk as [<- _]; [done|].
    destruct Hbucket, Hb; congruence.
Qed.
End Objects.

(** ** Versions *)

Section Versions.
Context (c : Catalog) (Hinv : Inv c) (bucket prefix : bytes) (limit : Z).
Context (Hbucket : uuid_ok bucket) (Hprefix : key_ok prefix) (Hlimit : 1 ≤ limit < u64_max).

Let lo := object_prefix bucket prefix.
Let hi := prefix_successor lo.

Definition versions_request (markers : option (bytes * bytes)) : ListObjectVersionsRequest :=
  {| lv_bucket_id := bucket; lv_prefix := prefix; lv_key_marker := fst <$> markers;
     lv_version_id_marker := snd <$> markers; lv_limit := limit |}.
Definition versions_page (markers : option (bytes * bytes))
    : result MetadataError (list ListedObjectVersion * option (option (bytes * bytes))) :=
  page ← list_object_versions (versions_request markers) c;
  Ok (page_versions page,
      k ← next_key_marker page; v ← next_version_id_marker page; Some (Some (k, v))).

Let listed (kv : bytes * bytes) := listed_version bucket kv.2 c.
Let good (markers : option (bytes * bytes)) : Prop :=
  match markers with
  | None => True
  | Some (k, v) => ∃ r, VERSIONS c !! v = Some r ∧ record_key r = k ∧
                        record_bucket r = bucket ∧ prefix `prefix_of` k
  end.
Let start (markers : option (bytes * bytes)) : bytes :=
  from_option (λ r, version_order_key r ++ [0]) lo (kv ← markers; VERSIONS c !! kv.2).
Let rest markers : list ListedObjectVersion := omap listed (table_range (start markers) hi (VERSION_ORDER c)).

Lemma listed_all start0 : Forall (λ kv, is_Some (listed kv)) (table_range start0 hi (VERSION_ORDER c)).
Proof.
  apply Forall_forall. intros [k v] [Hv _]%elem_of_table_range.
  apply (order_row_of c Hinv) in Hv as (r & Hr & _). unfold listed, listed_version. simpl. rewrite Hr. by eexists.
Qed.

Lemma version_start_after markers : good markers → bytes_le lo (start markers).
Proof.
  destruct markers as [[k v]|]; [|done]. intros (r & Hr & <- & Hb & Hp). unfold start. simpl. rewrite Hr. simpl.
  destruct (version_prefix_rows bucket prefix r) as [_ [Hle _]]; [done..|by apply (record_row c Hinv) in Hr as [_ ?]|done|].
  etrans; [exact Hle|apply bytes_le_app].
Qed.

Lemma list_versions_run markers :
  good markers →
  list_object_versions (versions_request markers) c =
  let '(out, truncated) := trim limit (omap listed (scan_limit limit (table_range (start markers) hi (VERSION_ORDER c)))) in
  Ok {| page_versions := out;
        next_key_marker := if truncated then record_key ∘ listed_record <$> last out else None;
        next_version_id_marker := if truncated then version_id ∘ listed_record <$> last out else None |}.
Proof.
  intros Hgood. unfold list_object_versions. cbn [versions_request lv_limit lv_bucket_id lv_prefix lv_key_marker lv_version_id_marker].
  rewrite (proj2 (Z.eqb_neq limit 0)) by lia. fold lo hi.
  assert (Hscan : ∀ start0, mapM (λ entry, ok_or (Database "list versions" "inconsistent index") (listed_version bucket entry.2 c))
      (scan_limit limit (table_range start0 hi (VERSION_ORDER c))) =
    Ok (omap listed (scan_limit limit (table_range start0 hi (VERSION_ORDER c))))).
  { intros start0. apply (resolve_all listed). unfold scan_limit. apply Forall_take, listed_all. }
  destruct markers as [[k v]|]; page_cbn.
  - destruct Hgood as (r & Hr & <- & Hb & Hp). unfold start. simpl. rewrite Hr. page_cbn.
    unfold record_matches. rewrite !bool_decide_true by done. page_cbn. by rewrite Hscan.
  - by rewrite Hscan.
Qed.

Lemma versions_page_spec markers :
  good markers →
  ∃ items next, versions_page markers = Ok (items, next) ∧
    match next with
    | None => items = rest markers
    | Some markers' => items ≠ [] ∧ good markers' ∧ rest markers = items ++ rest markers'
    end.
Proof.
  intros Hgood. unfold versions_page. rewrite list_versions_run by done.
  pose proof (table_page listed (VERSION_ORDER c) (start markers) hi limit (order_row_bytes c Hinv) Hlimit (listed_all _)) as Hpage.
  destruct (trim limit _) as [items more]. cbn. eexists _, _. split; [done|]. destruct more; [|done].
  destruct Hpage as (pre & k & v & x & -> & Hx & Hv & Hr & Heq). rewrite last_snoc. cbn.
  apply (in_range_from _ lo) in Hr as [Hr _]; [|by apply version_start_after].
  destruct (order_row_of c Hinv _ _ Hv) as (r & Hver & -> & Hid & Hok). unfold listed, listed_version in Hx. simpl in Hx.
  rewrite Hver in Hx. injection Hx as <-. cbn. apply version_prefix_rows in Hr as [Hb Hp]; try done.
  split_and!; [by destruct pre|by exists r; rewrite Hid|].
  assert (Hs : start (Some (record_key r, version_id r)) = version_order_key r ++ [0])
    by (unfold start; simpl; by rewrite Hid, Hver).
  unfold rest. rewrite Hs. exact Heq.
Qed.

Lemma all_versions_spec :
  follow versions_page (size (VERSION_ORDER c)) None = Ok (Some (omap listed (table_range lo hi (VERSION_ORDER c)))).
Proof.
  rewrite (follow_complete _ good rest); [done|apply versions_page_spec|done|].
  unfold rest. rewrite omap_length_all by apply listed_all. apply length_table_range.
Qed.
End Versions.

(** ** Multipart uploads *)

Lemma max_bytes_le a b k : bytes_le (max_bytes a b) k ↔ bytes_le a k ∧ bytes_le b k.
Proof.
  unfold max_bytes. case_bool_decide as Hab; split; try tauto; intros Hk; split; try done.
  - by etrans.
  - etrans; [|exact Hk]. by destruct (total bytes_le a b).
Qed.

Lemma max_bytes_l a b : bytes_le b a → max_bytes a b = a.
Proof. intros Hba. unfold max_bytes. case_bool_decide; [|done]. by apply (anti_symm bytes_le). Qed.

Lemma range_crossed {V} (t : gmap bytes V) lo hi : bytes_le hi lo → table_range lo hi t = [].
Proof.
  intros Hle. apply table_range_nil. intros k v _ [Hlo Hhi].
  pose proof (bytes_le_lt_trans _ _ _ Hlo Hhi) as Hlt. apply bytes_nlt_le in Hle. done.
Qed.

Section Uploads.
Context (c : Catalog) (Hinv : Inv c) (bucket prefix : bytes) (limit : Z).
Context (Hbucket : uuid_ok bucket) (Hprefix : key_ok prefix) (Hlimit : 1 ≤ limit < u64_max).

Let lo := object_prefix bucket prefix.
Let hi := prefix_successor lo.

Definition uploads_request (markers : option (bytes * bytes)) : ListMultipartUploadsRequest :=
  {| lu_bucket_id := bucket; lu_prefix := prefix; lu_key_marker := fst <$> markers;
     lu_upload_id_marker := snd <$> markers; lu_limit := limit |}.
(** The markers of the next page are the key and the identifier of the last
    upload of this one. *)
Definition uploads_page (markers : option (bytes * bytes))
    : result MetadataError (list MultipartUpload * option (option (bytes * bytes))) :=
  page ← list_multipart_uploads (uploads_request markers) c;
  Ok (uploads page, id ← next_upload_id_marker page; u ← last (uploads page); Some (Some (u_key u, id))).

(** The upload the markers name, if it is still there. *)
Definition marked_upload (markers : bytes * bytes) : option MultipartUpload :=
  u ← MULTIPART c !! markers.2;
  if bool_decide (u_bucket_id u = bucket ∧ u_key u = markers.1) then Some u else None.

Let named (kv : bytes * bytes) := MULTIPART c !! kv.2.
Let resume (markers : bytes * bytes) : bytes :=
  match marked_upload markers with
  | Some u => multipart_order_key u ++ [0]
  | None => object_prefix bucket markers.1 ++ [0]
  end.
Let start (markers : option (bytes * bytes)) : bytes :=
  match markers with None => lo | Some markers => max_bytes (resume markers) lo end.
Let rest markers : list MultipartUpload := omap named (table_range (start markers) hi (MULTIPART_ORDER c)).

Lemma named_all start0 : Forall (λ kv, is_Some (named kv)) (table_range start0 hi (MULTIPART_ORDER c)).
Proof.
  apply Forall_forall. intros [k v] [Hv _]%elem_of_table_range.
  apply (upload_row_of c Hinv) in Hv as (u & Hu & _). unfold named. simpl. rewrite Hu. by eexists.
Qed.

Lemma upload_start_after markers : bytes_le lo (start markers).
Proof. destruct markers as [m|]; [|done]. by apply (max_bytes_le (resume m) lo). Qed.

Lemma list_uploads_run markers :
  list_multipart_uploads (uploads_request markers) c =
  if bool_decide (bytes_le hi (start markers)) then Ok {| uploads := []; next_upload_id_marker := None |}
  else let '(out, more) := trim limit (omap named (scan_limit limit (table_range (start markers) hi (MULTIPART_ORDER c)))) in
       Ok {| uploads := out; next_upload_id_marker := if more then u_id <$> last out else None |}.
Proof.
  unfold list_multipart_uploads. cbn [uploads_request lu_limit lu_bucket_id lu_prefix lu_key_marker lu_upload_id_marker].
  rewrite (proj2 (Z.eqb_neq limit 0)) by lia. fold lo hi.
  assert (Hscan : ∀ start0, mapM (λ entry, ok_or (Database "list multipart" "inconsistent index") (MULTIPART c !! entry.2))
      (scan_limit limit (table_range start0 hi (MULTIPART_ORDER c))) =
    Ok (omap named (scan_limit limit (table_range start0 hi (MULTIPART_ORDER c))))).
  { intros start0. apply (resolve_all named). unfold scan_limit. apply Forall_take, named_all. }
  destruct markers as [[k v]|]; page_cbn; [|by rewrite Hscan].
  unfold resume, marked_upload. page_cbn.
  destruct (MULTIPART c !! v) as [u|]; page_cbn; [|by rewrite Hscan].
  destruct (decide (u_bucket_id u = bucket)) as [Hb|Hb]; [rewrite (bool_decide_true (u_bucket_id u = bucket)) by done|
    rewrite (bool_decide_false (u_bucket_id u = bucket)) by done].
  - destruct (decide (u_key u = k)) as [Hk|Hk].
    + rewrite (bool_decide_true (u_key u = k)), (bool_decide_true (_ ∧ _)) by done.
      page_cbn. by rewrite Hscan.
    + rewrite (bool_decide_false (u_key u = k)), (bool_decide_false (_ ∧ _)) by naive_solver.
      page_cbn. by rewrite Hscan.
  - rewrite (bool_decide_false (_ ∧ _)) by naive_solver. page_cbn. by rewrite Hscan.
Qed.

Lemma uploads_page_spec markers :
  ∃ items next, uploads_page markers = Ok (items, next) ∧
    match next with
    | None => items = rest markers
    | Some markers' => items ≠ [] ∧ True ∧ rest markers = items ++ rest markers'
    end.
Proof.
  unfold uploads_page. rewrite list_uploads_run. case_bool_decide as Hcross.
  { eexists _, _. split; [done|]. unfold rest. by rewrite range_crossed. }
  pose proof (table_page named (MULTIPART_ORDER c) (start markers) hi limit (upload_row_bytes c Hinv) Hlimit (named_all _)) as Hpage.
  destruct (trim limit _) as [items more]. page_cbn. eexists _, _. split; [done|]. destruct more; [|done].
  destruct Hpage as (pre & k & v & x & -> & Hx & Hv & Hr & Heq). rewrite last_snoc. page_cbn.
  split_and!; [by destruct pre|done|].
  destruct (upload_row_of c Hinv _ _ Hv) as (u & Hu & -> & Hid & Hok). unfold named in Hx. simpl in Hx.
  rewrite Hu in Hx. injection Hx as <-.
  apply (in_range_from _ lo) in Hr as [Hr _]; [|by apply upload_start_after].
  pose proof Hr as [Hb Hp]%upload_prefix_rows; try done. destruct Hr as [Hlo _].
  assert (Hs : start (Some (u_key u, u_id u)) = multipart_order_key u ++ [0]).
  { unfold start, resume, marked_upload. simpl. rewrite Hid, Hu. simpl. rewrite bool_decide_true by done.
    apply max_bytes_l. etrans; [exact Hlo|apply bytes_le_app]. }
  unfold rest. rewrite Hs. exact Heq.
Qed.

Lemma all_uploads_spec markers :
  follow uploads_page (size (MULTIPART_ORDER c)) markers = Ok (Some (rest markers)).
Proof.
  apply (follow_complete _ (λ _, True) rest); [intros m _; apply uploads_page_spec|done|].
  unfold rest. rewrite omap_length_all by apply named_all. apply length_table_range.
Qed.

(** Where a listing with markers goes on: after the marked upload, or, if that
    is gone, at the first upload of the marker key or a later one. *)
Definition listed_after (markers : option (bytes * bytes)) (u : MultipartUpload) : Prop :=
  match markers with
  | None => True
  | Some markers =>
      match marked_upload markers with
      | Some m => bytes_lt (multipart_order_key m) (multipart_order_key u)
      | None => bytes_le markers.1 (u_key u)
      end
  end.

Lemma marked_upload_spec markers m : marked_upload markers = Some m → MULTIPART c !! markers.2 = Some m.
Proof.
  unfold marked_upload. destruct (MULTIPART c !! markers.2); simpl; [|done]. by case_bool_decide; intros; simplify_eq.
Qed.

Lemma resume_after markers u :
  key_ok markers.1 → upload_ok u → u_bucket_id u = bucket →
  bytes_le (resume markers) (multipart_order_key u) ↔ listed_after (Some markers) u.
Proof.
  intros Hk Hu Hb. unfold resume, listed_after. destruct (marked_upload markers) as [m|] eqn:Hm.
  - apply bytes_le_snoc_zero. by apply multipart_order_key_bytes.
  - destruct (upload_order_split u) as [tail ->]. rewrite Hb. unfold object_key, object_prefix.
    rewrite <-!app_assoc, bytes_le_app_l, <-!bytes_nlt_le, zero_terminated_lt; [|by destruct Hu as (_ & _ & ? & _)|done].
    split; [tauto|]. intros Hn [?|[_ []%bytes_lt_nil_r]]. done.
Qed.

Lemma elem_of_all_uploads markers u :
  match markers with None => True | Some m => key_ok m.1 end →
  u ∈ rest markers ↔ MULTIPART c !! u_id u = Some u ∧ u_bucket_id u = bucket ∧
                     prefix `prefix_of` u_key u ∧ listed_after markers u.
Proof.
  intros Hm. unfold rest. rewrite list_elem_of_omap. split.
  - intros ([k v] & [Hv Hr]%elem_of_table_range & Hn). destruct (upload_row_of c Hinv _ _ Hv) as (u' & Hu & -> & <- & Hok).
    unfold named in Hn. simpl in Hn. simplify_eq. apply (in_range_from _ lo) in Hr as [Hr Hs]; [|apply upload_start_after].
    apply upload_prefix_rows in Hr as [Hb Hp]; try done. split_and!; [done..|].
    destruct markers as [m|]; [|done]. apply max_bytes_le in Hs as [Hs _]. by apply resume_after.
  - intros (Hu & Hb & Hp & Ha). destruct (upload_row _ _ _ _ (inv_multipart _ Hinv) _ _ Hu) as (_ & Hok & _).
    exists (multipart_order_key u, u_id u). split; [|done]. apply elem_of_table_range.
    assert (Hr : in_range lo hi (multipart_order_key u)) by by apply upload_prefix_rows.
    split; [apply (upload_order_row _ _ _ _ (inv_multipart _ Hinv)); by exists u|].
    apply (in_range_from _ lo); [apply upload_start_after|]. split; [done|].
    destruct markers as [m|]; [|by destruct Hr]. apply max_bytes_le. destruct Hr. split; [by apply resume_after|done].
Qed.
End Uploads.

(** ** The order of rows *)

(** By key, and the versions of a key newest first. *)
Definition version_before (x y : ListedObjectVersion) : Prop :=
  let r := listed_record x in let r' := listed_record y in
  bytes_lt (record_key r) (record_key r') ∨
  (record_key r = record_key r' ∧ version_id r ≠ version_id r' ∧
   order_micros (record_created_at r') ≤ order_micros (record_created_at r)).

(** By key, and the uploads of a key oldest first. *)
Definition upload_before (u u' : MultipartUpload) : Prop :=
  bytes_lt (u_key u) (u_key u') ∨
  (u_key u = u_key u' ∧ u_id u ≠ u_id u' ∧ order_micros (u_initiated_at u) ≤ order_micros (u_initiated_at u')).

Lemma version_order_before x y :
  let r := listed_record x in let r' := listed_record y in
  record_ok r → record_ok r' → record_bucket r = record_bucket r' → version_id r ≠ version_id r' →
  bytes_lt (version_order_key r) (version_order_key r') → version_before x y.
Proof.
  intros r r' Hr Hr' Hb Hid Hlt. unfold version_before. fold r r'. pose proof Hlt as Hkeys.
  destruct (version_order_split r) as [t Ht], (version_order_split r') as [t' Ht'].
  rewrite Ht, Ht', Hb in Hkeys. unfold object_key, object_prefix in Hkeys. rewrite <-!app_assoc in Hkeys.
  apply bytes_lt_app_l, zero_terminated_lt in Hkeys; [|by destruct Hr as (_ & _ & ? & _)|by destruct Hr' as (_ & _ & ? & _)].
  destruct Hkeys as [?|[Hk Htl]]; [by left|]. right. split_and!; [done|done|].
  apply bytes_lt_le in Hlt. by apply version_order_newest.
Qed.

Lemma upload_order_before u u' :
  upload_ok u → upload_ok u' → u_bucket_id u = u_bucket_id u' → u_id u ≠ u_id u' →
  bytes_lt (multipart_order_key u) (multipart_order_key u') → upload_before u u'.
Proof.
  intros (_ & _ & Hk & Ht) (_ & _ & Hk' & Ht') Hb Hid Hlt. unfold upload_before.
  unfold multipart_order_key, object_key, object_prefix in Hlt. rewrite Hb, <-!app_assoc in Hlt.
  apply bytes_lt_app_l, zero_terminated_lt in Hlt; [|done..].
  destruct Hlt as [?|[Hkey Htl]]; [by left|]. right. split_and!; [done|done|].
  apply bytes_lt_le, bytes_le_app_head in Htl; [|by rewrite !length_be_bytes].
  apply order_micros_u64 in Ht, Ht'. apply be_bytes_le in Htl; [lia|..]; simpl; lia.
Qed.

(** ** Payload references *)

Lemma set_insert_elem x y s : y ∈ set_insert x s ↔ y = x ∨ y ∈ s.
Proof.
  induction s as [|z s IH]; cbn [set_insert]; [set_solver|].
  case_bool_decide; [set_solver|]. case_bool_decide; [set_solver|]. set_solver.
Qed.

Lemma set_insert_sorted x s : StronglySorted bytes_lt s → StronglySorted bytes_lt (set_insert x s).
Proof.
  induction 1 as [|y s Hs IH Hy]; cbn [set_insert]; [repeat constructor|].
  case_bool_decide as Hxy; [by constructor|]. case_bool_decide as Hlt.
  - constructor; [by constructor|]. constructor; [done|]. eapply Forall_impl; [exact Hy|].
    intros z Hz. cbn. eapply bytes_lt_le_trans; [exact Hlt|by apply bytes_lt_le].
  - constructor; [done|]. apply Forall_forall. intros z [->|Hz]%set_insert_elem.
    + apply bytes_lt_alt. split; [by apply bytes_nlt_le|done].
    + rewrite Forall_forall in Hy. by apply Hy.
Qed.

(** Inserting into the smallest elements only, and keeping the smallest again,
    loses nothing. *)
Lemma set_insert_take n x s : take n (set_insert x (take n s)) = take n (set_insert x s).
Proof.
  revert n. induction s as [|y s IH]; intros [|n]; [done..|]. cbn [take set_insert].
  case_bool_decide; [cbn [take]; by rewrite take_take, Nat.min_id|]. case_bool_decide; cbn [take].
  - f_equal. destruct n as [|n]; [done|]. cbn [take]. f_equal. rewrite take_take. f_equal. lia.
  - by rewrite IH.
Qed.

Lemma set_insert_length x s : (length (set_insert x s) ≤ S (length s))%nat.
Proof. induction s as [|y s IH]; simpl; [lia|]. repeat case_bool_decide; simpl; lia. Qed.

Definition is_after (after : option bytes) (id : bytes) : bool :=
  match after with None => true | Some after => bool_decide (bytes_lt after id) end.

(** The set without a bound. *)
Definition insert_all (after : option bytes) (s : list bytes) (id : bytes) : list bytes :=
  if is_after after id then set_insert id s else s.

Lemma insert_bounded_take after limit s id :
  0 ≤ limit → insert_bounded after limit (take (Z.to_nat (limit + 1)) s) id =
              take (Z.to_nat (limit + 1)) (insert_all after s id).
Proof.
  intros Hl. unfold insert_bounded, insert_all. fold (is_after after id). destruct (is_after after id); [|done].
  rewrite <-set_insert_take. pose proof (set_insert_length id (take (Z.to_nat (limit + 1)) s)) as Hlen.
  rewrite length_take in Hlen. unfold pop. destruct (Z.ltb_spec (limit + 1) (Z.of_nat (length (set_insert id (take (Z.to_nat (limit + 1)) s))))).
  - f_equal. lia.
  - rewrite (take_ge (set_insert _ _)); [done|lia].
Qed.

Lemma foldl_bounded after limit s ids :
  0 ≤ limit → foldl (insert_bounded after limit) (take (Z.to_nat (limit + 1)) s) ids =
              take (Z.to_nat (limit + 1)) (foldl (insert_all after) s ids).
Proof.
  intros Hl. revert s. induction ids as [|id ids IH]; intros s; [done|]. cbn [foldl].
  by rewrite insert_bounded_take, IH.
Qed.

Lemma foldl_all_elem after s ids y :
  y ∈ foldl (insert_all after) s ids ↔ y ∈ s ∨ (y ∈ ids ∧ is_after after y = true).
Proof.
  revert s. induction ids as [|id ids IH]; intros s; cbn [foldl]; [set_solver|]. rewrite IH. unfold insert_all.
  destruct (is_after after id) eqn:Ha; [rewrite set_insert_elem|]; rewrite elem_of_cons; naive_solver congruence.
Qed.

Lemma foldl_all_sorted after s ids :
  StronglySorted bytes_lt s → StronglySorted bytes_lt (foldl (insert_all after) s ids).
Proof.
  revert s. induction ids as [|id ids IH]; intros s Hs; cbn [foldl]; [done|]. apply IH. unfold insert_all.
  destruct (is_after after id); [by apply set_insert_sorted|done].
Qed.

(** Strictly ascending lists with the same elements are the same. *)
Lemma ascending_ext (l l' : list bytes) :
  StronglySorted bytes_lt l → StronglySorted bytes_lt l' → (∀ x, x ∈ l ↔ x ∈ l') → l = l'.
Proof.
  assert (Hirr : ∀ x, ¬ bytes_lt x x) by (intros x; rewrite bytes_lt_alt; tauto).
  intros Hl. revert l'. induction Hl as [|x l Hl IH Hx]; intros l' Hl' Heq.
  - destruct l' as [|y l']; [done|]. exfalso. apply (not_elem_of_nil y), Heq. by left.
  - inversion Hl' as [|y l1 Hl1 Hy]; subst.
    { exfalso. apply (not_elem_of_nil x), Heq. by left. }
    rewrite Forall_forall in Hx, Hy.
    assert (x = y) as ->.
    { assert (Hin : x ∈ y :: l1) by (apply Heq; by left). assert (Hin' : y ∈ x :: l) by (apply Heq; by left).
      apply elem_of_cons in Hin as [?|Hin], Hin' as [?|Hin']; try done.
      exfalso. apply (Hirr x). eapply bytes_lt_le_trans; [by apply Hx|by apply bytes_lt_le, Hy]. }
    f_equal. apply IH; [done|]. intros z. specialize (Heq z). rewrite !elem_of_cons in Heq. split; intros Hz.
    + destruct (proj1 Heq) as [->|?]; [by right|by apply Hx, Hirr in Hz|done].
    + destruct (proj2 Heq) as [->|?]; [by right|by apply Hy, Hirr in Hz|done].
Qed.

Section References.
Context (c : Catalog) (limit : Z) (Hlimit : 1 ≤ limit ≤ 1000).

Definition references_page (after : option bytes) : result MetadataError (list bytes * option (option bytes)) :=
  page ← list_payload_references after limit c; Ok (object_ids page, Some <$> next_object_id page).

Let ids : list bytes :=
  (o_id <$> omap as_object (table_iter (VERSIONS c)).*2) ++ (p_object_id <$> (table_iter (PARTS c)).*2).
Let rest (after : option bytes) : list bytes := foldl (insert_all after) [] ids.

Lemma references_run after :
  list_payload_references after limit c =
  Ok {| object_ids := take (Z.to_nat limit) (rest after);
        next_object_id := if limit <? Z.of_nat (length (rest after)) then last (take (Z.to_nat limit) (rest after)) else None |}.
Proof.
  unfold list_payload_references. destruct (Z.eqb_spec limit 0), (Z.ltb_spec 1000 limit); try lia. simpl orb. cbv iota.
  cbv zeta. rewrite <-foldl_app. fold ids.
  pose proof (foldl_bounded after limit [] ids ltac:(lia)) as Hids. rewrite take_nil in Hids. rewrite Hids. fold (rest after).
  rewrite <-(u64_wrap_id (limit + 1)) by (unfold is_u64, u64_max; lia). fold (u64_add limit 1).
  fold (scan_limit limit (rest after)). by rewrite trim_scan by (unfold u64_max; lia).
Qed.

Lemma rest_after after items x post :
  rest after = items ++ x :: post → rest (Some x) = post.
Proof.
  intros Heq. assert (Hs : StronglySorted bytes_lt (rest after)) by (apply foldl_all_sorted; constructor).
  assert (Hirr : ¬ bytes_lt x x) by (rewrite bytes_lt_alt; tauto).
  assert (Hafter : is_after after x = true ∧ ∀ y, is_after (Some x) y = true → is_after after y = true).
  { assert (Hx : x ∈ rest after) by (rewrite Heq; set_solver). apply foldl_all_elem in Hx as [Hx|[_ Hx]]; [set_solver|].
    split; [done|]. intros y Hy%bool_decide_eq_true. destruct after as [a|]; [|done]. simpl in *.
    apply bool_decide_eq_true in Hx. apply bool_decide_eq_true. eapply bytes_lt_le_trans; [done|by apply bytes_lt_le]. }
  rewrite Heq in Hs. apply StronglySorted_app in Hs as (Hcross & Hpre & Hs). apply StronglySorted_inv in Hs as [Hpost Hx].
  apply ascending_ext; [apply foldl_all_sorted; constructor|done|]. intros y. unfold rest. rewrite foldl_all_elem. fold (rest after).
  rewrite Forall_forall in Hx. split.
  - intros [?|[Hy Ha]]; [set_solver|]. assert (Hin : y ∈ rest after) by (apply foldl_all_elem; right; split; [done|by apply Hafter]).
    apply bool_decide_eq_true in Ha. rewrite Heq in Hin. apply elem_of_app in Hin as [Hin|[->|Hin]%elem_of_cons]; [|done|done].
    exfalso. apply Hirr. eapply bytes_lt_le_trans; [exact Ha|]. apply bytes_lt_le, Hcross; [done|by left].
  - intros Hy. right. split; [|by apply bool_decide_eq_true, Hx].
    assert (Hin : y ∈ rest after) by (rewrite Heq; set_solver). apply foldl_all_elem in Hin as [?|[? _]]; [set_solver|done].
Qed.

Lemma references_page_spec after :
  ∃ items next, references_page after = Ok (items, next) ∧
    match next with
    | None => items = rest after
    | Some after' => items ≠ [] ∧ True ∧ rest after = items ++ rest after'
    end.
Proof.
  unfold references_page. rewrite references_run. cbn -[rest]. eexists _, _. split; [done|].
  destruct (Z.ltb_spec limit (Z.of_nat (length (rest after)))) as [Hlt|Hge]; [|by rewrite take_ge by lia].
  set (n := (Z.to_nat limit - 1)%nat). replace (Z.to_nat limit) with (S n) by lia.
  destruct (lookup_lt_is_Some_2 (rest after) n) as [x Hx]; [lia|]. pose proof (take_drop_middle _ _ _ Hx) as Hsplit.
  rewrite (take_S_r _ _ _ Hx), last_snoc. simpl. split_and!; [by destruct (take n (rest after))|done|].
  rewrite (rest_after after _ _ _ (eq_sym Hsplit)), <-app_assoc. by rewrite <-Hsplit at 1.
Qed.

Lemma length_rest after : (length (rest after) ≤ size (VERSIONS c) + size (PARTS c))%nat.
Proof.
  assert (Hfold : ∀ l s, (length (foldl (insert_all after) s l) ≤ length s + length l)%nat).
  { induction l as [|id l IH]; intros s; cbn [foldl length]; [lia|]. specialize (IH (insert_all after s id)).
    assert (length (insert_all after s id) ≤ S (length s))%nat; [|lia].
    unfold insert_all. destruct (is_after after id); [apply set_insert_length|lia]. }
  assert (Homap : ∀ {A B} (f : A → option B) l, (length (omap f l) ≤ length l)%nat).
  { intros A B f l. induction l as [|x l IH]; [done|].
    change (omap f (x :: l)) with (match f x with Some y => y :: omap f l | None => omap f l end).
    destruct (f x); cbn [length]; lia. }
  etrans; [apply Hfold|]. unfold ids. rewrite length_app, !length_fmap. cbn [length].
  pose proof (Homap _ _ as_object (table_iter (VERSIONS c)).*2) as Hv. rewrite length_fmap in Hv. unfold table_iter in *.
  rewrite !merge_sort_Permutation, !length_map_to_list in *. lia.
Qed.

Lemma all_references_spec :
  follow references_page (size (VERSIONS c) + size (PARTS c)) None = Ok (Some (rest None)).
Proof. apply (follow_complete _ (λ _, True) rest); [intros a _; apply references_page_spec|done|apply length_rest]. Qed.

Lemma elem_of_references id : id ∈ rest None ↔ payload_referenced id c = true.
Proof.
  unfold rest. rewrite foldl_all_elem. unfold payload_referenced. rewrite orb_true_iff, !existsb_exists. unfold ids.
  rewrite elem_of_app, !list_elem_of_fmap. split.
  - intros [?|[[(m & -> & (r & Hr & Hm)%list_elem_of_omap)|(p & -> & Hp)] _]]; [set_solver|left|right].
    + exists r. split; [by apply list_elem_of_In|]. destruct r; simplify_eq/=. by apply bool_decide_eq_true.
    + exists p. split; [by apply list_elem_of_In|by apply bool_decide_eq_true].
  - intros Hin. right. split; [|done]. destruct Hin as [(r & Hr%list_elem_of_In & Hid)|(p & Hp%list_elem_of_In & Hid)]; [left|right].
    + destruct r as [m n|]; [|done]. apply bool_decide_eq_true in Hid. exists m. split; [done|]. apply list_elem_of_omap. by exists (ObjectRecord m n).
    + apply bool_decide_eq_true in Hid. by exists p.
Qed.
End References.

(** ** Locked versions *)

Section Locks.
Context (c : Catalog) (Hinv : Inv c) (limit : Z) (Hlimit : 1 ≤ limit ≤ 1000).

Definition locks_page (after : option bytes) : result MetadataError (list LockedVersion * option (option bytes)) :=
  page ← list_object_locks after limit c; Ok (locked_versions page, Some <$> next_locked page).

(** The row of the report for a lock. *)
Definition locked_row (kv : bytes * ObjectLockState) : option LockedVersion :=
  record ← VERSIONS c !! kv.1;
  Some {| locked_bucket_id := record_bucket record; locked_key := record_key record;
          locked_version_id := version_id record; locked_state := kv.2 |}.

(** Above every identifier. *)
Let hi : bytes := replicate 17 255.
Let start (after : option bytes) : bytes := match after with None => [] | Some id => lock_key id ++ [0] end.
Let rest after : list LockedVersion := omap locked_row (table_range (start after) hi (OBJECT_LOCKS c)).

Lemma lock_key_row v s : OBJECT_LOCKS c !! v = Some s → ∃ r, VERSIONS c !! v = Some r ∧ version_id r = v ∧ uuid_ok v.
Proof.
  intros Hs. destruct (lock_row _ _ _ _ _ (inv_versions _ Hinv) _ _ Hs) as (_ & m & b & Hv & _).
  destruct (record_row c Hinv _ _ Hv) as (Hid & Hok & _). rewrite Hid in Hok. eauto.
Qed.

Lemma below_hi k : length k = 16%nat → bytes_ok k → bytes_lt k hi.
Proof.
  unfold hi. change 17%nat with (S 16). generalize 16%nat as n. intros n. revert n.
  induction k as [|x k IH]; intros [|n] Hl Hk; simplify_eq/=; [done|]. apply Forall_cons in Hk as [Hx Hk].
  apply bytes_lt_cons. unfold byte_ok in Hx. destruct (decide (x = 255)) as [->|]; [right; split; [done|by apply IH]|left; lia].
Qed.

Lemma locks_scan after :
  filter (λ kv, bytes_le (start after) kv.1) (table_iter (OBJECT_LOCKS c)) = table_range (start after) hi (OBJECT_LOCKS c).
Proof.
  unfold table_range. apply filter_ext_in. intros [k s] Hs%elem_of_table_iter. cbn. unfold in_range.
  apply lock_key_row in Hs as (_ & _ & _ & Hl & Hk). pose proof (below_hi k Hl Hk). tauto.
Qed.

Lemma locked_all start0 : Forall (λ kv, is_Some (locked_row kv)) (table_range start0 hi (OBJECT_LOCKS c)).
Proof.
  apply Forall_forall. intros [k s] [Hs _]%elem_of_table_range. apply lock_key_row in Hs as (r & Hr & _).
  unfold locked_row. simpl. rewrite Hr. by eexists.
Qed.

Lemma locks_loop_spec entries found :
  Forall (λ kv, is_Some (locked_row kv)) entries → Z.of_nat (length found) ≤ limit →
  let n := (Z.to_nat limit - length found)%nat in
  let out := reverse found ++ omap locked_row (take n entries) in
  locks_loop limit c entries found =
  {| locked_versions := out;
     next_locked := if (n <? length entries)%nat then locked_version_id <$> last out else None |}.
Proof.
  intros Hall. revert found. induction Hall as [|[k s] entries [x Hx] _ IH]; intros found Hlen; cbn zeta.
  { rewrite take_nil, app_nil_r. by destruct (Z.to_nat limit - length found)%nat. }
  cbn [locks_loop]. destruct (Z.eqb_spec (Z.of_nat (length found)) limit) as [Heq|Hne].
  - replace (Z.to_nat limit - length found)%nat with 0%nat by lia. simpl. rewrite app_nil_r.
    f_equal. destruct found as [|y found]; [done|]. by rewrite reverse_cons, last_snoc.
  - pose proof Hx as Hrow. unfold locked_row in Hrow. simpl in Hrow. destruct (VERSIONS c !! k) as [r|]; [|done].
    injection Hrow as Hrow. rewrite Hrow, IH by (simpl; lia). cbn zeta. cbn [length].
    destruct (Z.to_nat limit - length found)%nat as [|n] eqn:Hn; [lia|].
    replace (Z.to_nat limit - S (length found))%nat with n by lia.
    cbn [take omap list_omap]. rewrite Hx, reverse_cons, <-app_assoc. done.
Qed.

Lemma locks_page_spec after :
  ∃ items next, locks_page after = Ok (items, next) ∧
    match next with
    | None => items = rest after
    | Some after' => items ≠ [] ∧ True ∧ rest after = items ++ rest after'
    end.
Proof.
  unfold locks_page, list_object_locks. destruct (Z.eqb_spec limit 0), (Z.ltb_spec 1000 limit); try lia. simpl orb. cbv iota zeta.
  fold (start after). rewrite locks_scan, locks_loop_spec by (apply locked_all || (simpl; lia)). cbv zeta. cbn -[rest start take hi Nat.ltb omap].
  rewrite Nat.sub_0_r. eexists _, _. split; [done|].
  pose proof (table_page locked_row (OBJECT_LOCKS c) (start after) hi limit) as Hpage.
  unfold scan_limit in Hpage. rewrite omap_take_all in Hpage by apply locked_all.
  change (take (Z.to_nat (u64_add limit 1)) ?l) with (scan_limit limit l) in Hpage.
  rewrite trim_scan in Hpage by (unfold u64_max; lia). rewrite omap_length_all in Hpage by apply locked_all.
  rewrite <-omap_take_all in Hpage by apply locked_all.
  specialize (Hpage ltac:(intros k s (_ & _ & _ & _ & Hk)%lock_key_row; exact Hk) ltac:(unfold u64_max; lia) (locked_all _)).
  destruct (Z.ltb_spec limit (Z.of_nat (length (table_range (start after) hi (OBJECT_LOCKS c))))) as [Hlt|Hge].
  - rewrite (proj2 (Nat.ltb_lt _ _)) by lia.
    destruct Hpage as (pre & k & s & x & Hitems & Hx & Hs & Hr & Heq). rewrite Hitems in Heq |- *. rewrite last_snoc. cbn -[rest].
    split_and!; [by destruct pre|done|]. apply lock_key_row in Hs as (r & Hver & Hid & _).
    unfold locked_row in Hx. simpl in Hx. rewrite Hver in Hx. injection Hx as <-. cbn [locked_version_id].
    subst k. exact Heq.
  - by rewrite (proj2 (Nat.ltb_ge _ _)) by lia.
Qed.

Lemma all_locks_spec :
  follow locks_page (size (OBJECT_LOCKS c)) None = Ok (Some (omap locked_row (table_range [] hi (OBJECT_LOCKS c)))).
Proof.
  rewrite (follow_complete _ (λ _, True) rest); [done|intros a _; apply locks_page_spec|done|].
  unfold rest. rewrite omap_length_all by apply locked_all. apply length_table_range.
Qed.

Lemma elem_of_locks x :
  x ∈ omap locked_row (table_range [] hi (OBJECT_LOCKS c)) ↔
  ∃ v s, OBJECT_LOCKS c !! v = Some s ∧ locked_row (v, s) = Some x.
Proof.
  rewrite list_elem_of_omap. split.
  - intros ([v s] & [Hs _]%elem_of_table_range & Hx). eauto.
  - intros (v & s & Hs & Hx). exists (v, s). split; [|done]. apply elem_of_table_range.
    apply lock_key_row in Hs as Hok. destruct Hok as (_ & _ & _ & Hl & Hk). split; [done|]. split; [|by apply below_hi].
    apply (bytes_le_app [] v).
Qed.
End Locks.

Section Theorems.
Context `{UuidCrate}.

(** Listing a bucket is complete. In every reachable catalog, with any
    prefix and any page size, following the continuation keys of [list_objects]
    ends, and the pages together are exactly the current objects of the bucket
    whose key has the prefix, each once, in ascending order of keys; no page is
    longer than asked for. *)
Theorem list_objects_pages (c : Catalog) (bucket prefix : bytes) (limit : Z)
    (Hreach : reachable c) (Hbucket : uuid_ok bucket) (Hprefix : key_ok prefix)
    (Hlimit : 1 ≤ limit < u64_max) :
  ∃ found, follow (objects_page c bucket prefix limit) (size (OBJECTS c)) None = Ok (Some found) ∧
    StronglySorted (λ m m', bytes_lt (o_key m) (o_key m')) found ∧
    (∀ m, m ∈ found ↔ get_object bucket (o_key m) c = Some m ∧ prefix `prefix_of` o_key m) ∧
    (∀ start_after, Z.of_nat (length (objects (list_objects (objects_request bucket prefix limit start_after) c))) ≤ limit).
Proof.
  apply reachable_inv in Hreach as Hinv. eexists.
  split_and!; [by apply all_objects_spec|by apply listed_objects_sorted|intros m; by apply elem_of_listed_objects|].
  intros sa. unfold list_objects. cbn [objects_request lo_limit lo_bucket_id lo_prefix lo_start_after].
  rewrite (proj2 (Z.eqb_neq limit 0)) by lia. unfold scan_limit at 1. rewrite fmap_take.
  match goal with |- context [trim limit (take _ ?l)] => change (take _ l) with (scan_limit limit l) end.
  rewrite trim_scan by lia. cbn [objects]. rewrite length_take. lia.
Qed.

(** Listing versions is complete. Following the two markers of
    [list_object_versions] ends, without an error on the way, and the pages
    together are exactly the versions and delete markers of the bucket whose key
    has the prefix, each once, ordered by key and newest first, each flagged as
    latest exactly if it is the current version of its key. *)
Theorem list_versions_pages (c : Catalog) (bucket prefix : bytes) (limit : Z)
    (Hreach : reachable c) (Hbucket : uuid_ok bucket) (Hprefix : key_ok prefix)
    (Hlimit : 1 ≤ limit < u64_max) :
  ∃ found, follow (versions_page c bucket prefix limit) (size (VERSION_ORDER c)) None = Ok (Some found) ∧
    StronglySorted version_before found ∧
    (∀ x, x ∈ found ↔
       get_object_version bucket (record_key (listed_record x)) (version_id (listed_record x)) c =
         Some (listed_record x) ∧
       prefix `prefix_of` record_key (listed_record x) ∧
       (is_latest x = true ↔ current_version_of c (object_key bucket (record_key (listed_record x))) =
                             Some (version_id (listed_record x)))).
Proof.
  apply reachable_inv in Hreach as Hinv. eexists. split_and!; [by apply all_versions_spec| |].
  - apply table_range_omap_sorted. intros k v k' v' x x' Hv Hv' Hr Hr' Hx Hx' Hlt.
    destruct (order_row_of c Hinv _ _ Hv) as (r & Hver & -> & Hid & Hok), (order_row_of c Hinv _ _ Hv') as (r' & Hver' & -> & Hid' & Hok').
    unfold listed_version in Hx, Hx'. simpl in Hx, Hx'. rewrite Hver in Hx. rewrite Hver' in Hx'. simplify_eq/=.
    apply version_prefix_rows in Hr as [Hb _], Hr' as [Hb' _]; try done.
    apply version_order_before; simpl; try done; [congruence|]. intros Heq. rewrite Heq in Hver. simplify_eq.
    apply bytes_lt_alt in Hlt as [_ ?]. done.
  - intros [r l]. rewrite list_elem_of_omap. cbn [listed_record is_latest]. unfold get_object_version. split.
    + intros ([k v] & [Hv Hr]%elem_of_table_range & Hx).
      destruct (order_row_of c Hinv _ _ Hv) as (r' & Hver & -> & Hid & Hok).
      unfold listed_version in Hx. simpl in Hx. rewrite Hver in Hx. simplify_eq/=.
      apply version_prefix_rows in Hr as [Hb Hp]; try done. rewrite Hver. simpl. unfold record_matches.
      rewrite !(bool_decide_true (_ = _)) by done. split_and!; [done|done|apply bool_decide_eq_true].
    + intros (Hget & Hp & Hl). destruct (VERSIONS c !! version_id r) as [r'|] eqn:Hver; [|done]. simpl in Hget.
      unfold record_matches in Hget. repeat case_bool_decide; simplify_eq/=.
      exists (version_order_key r, version_id r). rewrite elem_of_table_range. destruct (record_row c Hinv _ _ Hver) as [_ Hok].
      split_and!; [apply (order_row _ _ _ _ _ (inv_versions _ Hinv)); by exists r|by apply version_prefix_rows|].
      unfold listed_version. simpl. rewrite Hver. simpl. do 2 f_equal.
      destruct l; [by apply bool_decide_eq_true, Hl|]. apply bool_decide_eq_false. by intros ?%Hl.
Qed.

(** Listing uploads never misses one. Following the markers of
    [list_multipart_uploads] ends, whatever markers it starts from, and the
    pages together are exactly the uploads of the bucket whose key has the prefix
    and that come after the marked upload; when the marked upload is gone, the
    listing goes on with the first upload of its key, and a marker before the
    prefix does not widen the listing. Each upload is listed once, ordered by key
    and by initiation. *)
Theorem list_uploads_pages (c : Catalog) (bucket prefix : bytes) (limit : Z)
    (markers : option (bytes * bytes))
    (Hreach : reachable c) (Hbucket : uuid_ok bucket) (Hprefix : key_ok prefix)
    (Hlimit : 1 ≤ limit < u64_max) (Hmarker : match markers with None => True | Some m => key_ok m.1 end) :
  ∃ found, follow (uploads_page c bucket prefix limit) (size (MULTIPART_ORDER c)) markers = Ok (Some found) ∧
    StronglySorted upload_before found ∧
    (∀ u, u ∈ found ↔ get_multipart_upload (u_id u) c = Some u ∧ u_bucket_id u = bucket ∧
                      prefix `prefix_of` u_key u ∧ listed_after c bucket markers u).
Proof.
  apply reachable_inv in Hreach as Hinv. eexists.
  split_and!; [by apply all_uploads_spec| |intros u; by apply (elem_of_all_uploads c Hinv bucket prefix limit)].
  apply table_range_omap_sorted. intros k v k' v' u u' Hv Hv' Hr Hr' Hx Hx' Hlt. simpl in Hx, Hx'.
  destruct (upload_row_of c Hinv _ _ Hv) as (u1 & Hu & -> & Hid & Hok), (upload_row_of c Hinv _ _ Hv') as (u2 & Hu' & -> & Hid' & Hok').
  simplify_eq. apply (in_range_from _ (object_prefix bucket prefix)) in Hr as [Hr _], Hr' as [Hr' _]; try by apply (upload_start_after c bucket prefix).
  apply upload_prefix_rows in Hr as [Hb _], Hr' as [Hb' _]; try done.
  apply upload_order_before; try done; [congruence|]. intros Heq. assert (u = u') as -> by congruence.
  apply bytes_lt_alt in Hlt as [_ ?]. done.
Qed.

(** The retention report is complete. Following the cursor of
    [list_object_locks] ends, and the pages together are exactly the lock records
    of the catalog, each once, with the bucket, key and version they belong to;
    no lock is without its version. *)
Theorem list_locks_pages (c : Catalog) (limit : Z) (Hreach : reachable c) (Hlimit : 1 ≤ limit ≤ 1000) :
  ∃ found, follow (locks_page c limit) (size (OBJECT_LOCKS c)) None = Ok (Some found) ∧
    StronglySorted (λ x y, bytes_lt (locked_version_id x) (locked_version_id y)) found ∧
    (∀ v s, OBJECT_LOCKS c !! v = Some s ↔ ∃ x, x ∈ found ∧ locked_version_id x = v ∧ locked_state x = s) ∧
    (∀ x, x ∈ found → is_Some (get_object_version (locked_bucket_id x) (locked_key x) (locked_version_id x) c)).
Proof.
  apply reachable_inv in Hreach as Hinv. eexists. split_and!; [by apply all_locks_spec| | |].
  - apply table_range_omap_sorted. intros k s k' s' x x' Hs Hs' _ _ Hx Hx' Hlt.
    destruct (lock_key_row c Hinv _ _ Hs) as (r & Hr & Hid & _), (lock_key_row c Hinv _ _ Hs') as (r' & Hr' & Hid' & _).
    unfold locked_row in Hx, Hx'. simpl in Hx, Hx'. rewrite Hr in Hx. rewrite Hr' in Hx'. simplify_eq/=. done.
  - intros v s. split.
    + intros Hs. destruct (lock_key_row c Hinv _ _ Hs) as (r & Hr & Hid & _). eexists. split; [|split].
      * apply elem_of_locks; [done|]. exists v, s. split; [done|]. unfold locked_row. simpl. by rewrite Hr.
      * done.
      * done.
    + intros (x & (v' & s' & Hs & Hx)%elem_of_locks & <- & <-); [|done].
      destruct (lock_key_row c Hinv _ _ Hs) as (r & Hr & Hid & _).
      unfold locked_row in Hx. simpl in Hx. rewrite Hr in Hx. by simplify_eq/=.
  - intros x (v & s & Hs & Hx)%elem_of_locks; [|done]. destruct (lock_key_row c Hinv _ _ Hs) as (r & Hr & Hid & _).
    unfold locked_row in Hx. simpl in Hx. rewrite Hr in Hx. injection Hx as <-. unfold get_object_version, record_matches.
    cbn. rewrite Hid, Hr. cbn. rewrite !(bool_decide_true (_ = _)) by done. by eexists.
Qed.
End Theorems.

(** The scan for orphaned payloads misses no reference. With any page size
    [list_payload_references] accepts, following its cursor ends, and the pages
    together are in ascending order and without repetition exactly the payloads
    that a version or a part of an upload refers to, which is what
    [payload_referenced] answers for a single payload. *)
Theorem payload_references_pages (c : Catalog) (limit : Z) (Hlimit : 1 ≤ limit ≤ 1000) :
  ∃ found, follow (references_page c limit) (size (VERSIONS c) + size (PARTS c)) None = Ok (Some found) ∧
    StronglySorted bytes_lt found ∧
    (∀ id, id ∈ found ↔ payload_referenced id c = true) ∧
    (∀ id, id ∈ found ↔ (∃ v r m, VERSIONS c !! v = Some r ∧ as_object r = Some m ∧ o_id m = id) ∨
                        (∃ k p, PARTS c !! k = Some p ∧ p_object_id p = id)).
Proof.
  eexists. split_and!; [by apply all_references_spec|apply foldl_all_sorted, SSorted_nil|by apply (elem_of_references c limit)|].
  intros id. rewrite foldl_all_elem, elem_of_app, !list_elem_of_fmap. split.
  - intros [?|[[(m & -> & (r & ([v r'] & -> & Hr%elem_of_table_iter)%list_elem_of_fmap & Hm)%list_elem_of_omap)|
              (p & -> & ([k p'] & -> & Hp%elem_of_table_iter)%list_elem_of_fmap)] _]]; [set_solver|left|right].
    + by exists v, r', m.
    + by exists k, p'.
  - intros Hid. right. split; [|done]. destruct Hid as [(v & r & m & Hr & Hm & <-)|(k & p & Hp & <-)]; [left|right].
    + exists m. split; [done|]. apply list_elem_of_omap. exists r. split; [|done].
      apply list_elem_of_fmap. exists (v, r). split; [done|]. by apply elem_of_table_iter.
    + exists p. split; [done|]. apply list_elem_of_fmap. exists (k, p). split; [done|]. by apply elem_of_table_iter.
Qed.

(** ** A listing that shows too much *)

#[local] Existing Instance sample_uuids.

(** Objects [a], [b1] and [b2]. *)
Definition listing_run : list MetadataCommand :=
  [CreateBucket (sample_bucket Enabled no_quota None);
   PutObject (sample_object 1 [97] 5 1000) None Direct;
   PutObject (sample_object 2 [98; 49] 5 2000) None Direct;
   PutObject (sample_object 3 [98; 50] 5 3000) None Direct;
   CreateMultipartUpload sample_upload].
Definition listing_catalog : Catalog := run listing_run empty_catalog.

Lemma listing_reachable : reachable listing_catalog.
Proof. exists listing_run. split; [|done]. apply (bool_decide_unpack (admissible empty_catalog _)). vm_compute. exact I. Defined.

(** A start key before the prefix widens the listing. Objects with prefix
    [b] are asked for, starting after [0]: the listing also shows the object [a],
    whose key does not have the prefix. *)
Theorem start_after_widens_listing :
  o_key <$> objects (list_objects {| lo_bucket_id := uid 1; lo_prefix := [98]; lo_start_after := Some [48];
                                     lo_limit := 10 |} listing_catalog) = [[97]; [98; 49]; [98; 50]] ∧
  o_key <$> objects (list_objects {| lo_bucket_id := uid 1; lo_prefix := [98]; lo_start_after := None;
                                     lo_limit := 10 |} listing_catalog) = [[98; 49]; [98; 50]].
Proof. split; vm_compute; reflexivity. Qed.

(** ** Witnesses *)

Lemma small_limit : 1 ≤ 1 < u64_max.
Proof. unfold u64_max. lia. Defined.
Lemma sample_prefix : key_ok [98].
Proof. repeat constructor; lia. Defined.
Lemma sample_id n : 0 ≤ n < 256 → uuid_ok (uid n).
Proof. intros Hn. split; [done|]. apply Forall_app. split; [by apply Forall_replicate|]. apply Forall_singleton. done. Qed.

Lemma list_versions_pages_witness :
  ∃ found, follow (versions_page sample_catalog (uid 1) [97] 1) (size (VERSION_ORDER sample_catalog)) None = Ok (Some found) ∧
    StronglySorted version_before found ∧
    (∀ x, x ∈ found ↔
       get_object_version (uid 1) (record_key (listed_record x)) (version_id (listed_record x)) sample_catalog =
         Some (listed_record x) ∧
       [97] `prefix_of` record_key (listed_record x) ∧
       (is_latest x = true ↔ current_version_of sample_catalog (object_key (uid 1) (record_key (listed_record x))) =
                             Some (version_id (listed_record x)))).
Proof.
  apply (list_versions_pages sample_catalog (uid 1) [97] 1).
  - exact sample_reachable.
  - apply sample_id. lia.
  - repeat constructor; lia.
  - exact small_limit.
Defined.

Lemma list_uploads_pages_witness :
  ∃ found, follow (uploads_page listing_catalog (uid 1) [] 1) (size (MULTIPART_ORDER listing_catalog)) (Some ([98], uid 9)) = Ok (Some found) ∧
    StronglySorted upload_before found ∧
    (∀ u, u ∈ found ↔ get_multipart_upload (u_id u) listing_catalog = Some u ∧ u_bucket_id u = uid 1 ∧
                      [] `prefix_of` u_key u ∧ listed_after listing_catalog (uid 1) (Some ([98], uid 9)) u).
Proof.
  apply (list_uploads_pages listing_catalog (uid 1) [] 1 (Some ([98], uid 9))).
  - exact listing_reachable.
  - apply sample_id. lia.
  - constructor.
  - exact small_limit.
  - exact sample_prefix.
Defined.

Lemma payload_references_pages_witness :
  ∃ found, follow (references_page sample_catalog 1) (size (VERSIONS sample_catalog) + size (PARTS sample_catalog)) None = Ok (Some found) ∧
    StronglySorted bytes_lt found ∧
    (∀ id, id ∈ found ↔ payload_referenced id sample_catalog = true) ∧
    (∀ id, id ∈ found ↔ (∃ v r m, VERSIONS sample_catalog !! v = Some r ∧ as_object r = Some m ∧ o_id m = id) ∨
                        (∃ k p, PARTS sample_catalog !! k = Some p ∧ p_object_id p = id)).
Proof. apply (payload_references_pages sample_catalog 1). lia. Defined.

End ListingTheorems.
