(* ===== verification/ServiceList.v ===== *)
(** * Listing with a delimiter

    [ObjectService::list] of [crates/record-store-service/src/admin.rs], the
    listing behind S3's ListObjectsV2: it walks the catalog's pages, groups keys
    by the part of them up to a delimiter, and stops when objects and groups
    together fill the page. The pages of one call are read from one catalog here,
    while the code reads a snapshot per page and a writer may come in between.
    Admission control, the bucket's lock and metrics are not modelled; the two
    failures are those the function raises itself.

    What is shown: the call always returns; following its continuation markers
    shows every object that is in no group exactly once and in order, and every
    group exactly once, even when a group is larger than a page of the catalog or
    spans two pages of the listing. *)

From S2P Require Import Prelude Bytes Tables ObjectLock CoreTypes Keys Catalog Commands CatalogInv CatalogSteps CatalogUploads CatalogMultipart Reachable Listing ListingTheorems.
Import ObjectLock CoreTypes Keys Catalog Commands CatalogInv Reachable Samples Listing ListingTheorems.

Module ServiceList.

Record ServiceListRequest := {
  sl_bucket : bytes; sl_prefix : bytes; sl_delimiter : option bytes; sl_maximum_keys : Z;
  sl_start_after : option bytes }.

Record ServiceListResult := {
  sl_objects : list ObjectMetadata;
  sl_common_prefixes : list bytes;
  sl_is_truncated : bool;
  sl_next_marker : option bytes }.

Inductive ServiceError :=
  | ServiceBucketNotFound
  | InvalidRequest (reason : string).

Definition empty_list : ServiceListResult :=
  {| sl_objects := []; sl_common_prefixes := []; sl_is_truncated := false; sl_next_marker := None |}.

Definition entry_count (r : ServiceListResult) : Z :=
  Z.of_nat (length (sl_objects r) + length (sl_common_prefixes r)).

(** [str::strip_prefix] and [str::find], on bytes. *)
Fixpoint strip_prefix (p s : bytes) : option bytes :=
  match p, s with
  | [], _ => Some s
  | x :: p, y :: s => if x =? y then strip_prefix p s else None
  | _ :: _, [] => None
  end.

Fixpoint find_sub (d s : bytes) : option nat :=
  match strip_prefix d s with
  | Some _ => Some 0%nat
  | None => match s with [] => None | _ :: s => S <$> find_sub d s end
  end.

Definition common_prefix (request : ServiceListRequest) (key : bytes) : option bytes :=
  delimiter ← sl_delimiter request;
  suffix ← strip_prefix (sl_prefix request) key;
  position ← find_sub delimiter suffix;
  Some (sl_prefix request ++ take position suffix ++ delimiter).

(** The mutable state of the walk: the result so far, whether it is full, and
    the last key seen. *)
Record walk := { w_result : ServiceListResult; w_at_capacity : bool; w_last_scanned_key : option bytes }.

(** The body of the inner loop: go on with a new state, or return a page. *)
Definition walk_one (request : ServiceListRequest) (w : walk) (metadata : ObjectMetadata)
    : walk + ServiceListResult :=
  let key := o_key metadata in
  let result := w_result w in
  let group := common_prefix request key in
  if w_at_capacity w then
    if match group with Some p => bool_decide (p ∈ sl_common_prefixes result) | None => false end
    then inl {| w_result := result; w_at_capacity := true; w_last_scanned_key := Some key |}
    else inr {| sl_objects := sl_objects result; sl_common_prefixes := sl_common_prefixes result;
                sl_is_truncated := true; sl_next_marker := w_last_scanned_key w |}
  else
    let result := match group with
                  | Some p => {| sl_objects := sl_objects result;
                                 sl_common_prefixes := set_insert p (sl_common_prefixes result);
                                 sl_is_truncated := sl_is_truncated result;
                                 sl_next_marker := sl_next_marker result |}
                  | None => {| sl_objects := sl_objects result ++ [metadata];
                               sl_common_prefixes := sl_common_prefixes result;
                               sl_is_truncated := sl_is_truncated result;
                               sl_next_marker := sl_next_marker result |}
                  end in
    inl {| w_result := result; w_at_capacity := sl_maximum_keys request <=? entry_count result;
           w_last_scanned_key := Some key |}.

Fixpoint walk_page (request : ServiceListRequest) (w : walk) (page : list ObjectMetadata)
    : walk + ServiceListResult :=
  match page with
  | [] => inl w
  | metadata :: page =>
      match walk_one request w metadata with
      | inl w => walk_page request w page
      | inr result => inr result
      end
  end.

(** The outer loop; [None] only when the fuel, one per page of the catalog, runs out. *)
Fixpoint walk_pages (fuel : nat) (request : ServiceListRequest) (bucket_id : bytes)
    (start_after : option bytes) (w : walk) (c : Catalog) : option ServiceListResult :=
  let page := list_objects {| lo_bucket_id := bucket_id; lo_prefix := sl_prefix request;
                              lo_start_after := start_after; lo_limit := 256 |} c in
  match objects page with
  | [] => Some (w_result w)
  | _ =>
      match walk_page request w (objects page) with
      | inr result => Some result
      | inl w =>
          match next_key page with
          | None => Some (w_result w)
          | Some key =>
              match fuel with
              | O => None
              | S fuel => walk_pages fuel request bucket_id (Some key) w c
              end
          end
      end
  end.

Definition service_list (request : ServiceListRequest) (c : Catalog)
    : result ServiceError (option ServiceListResult) :=
  bucket ← ok_or ServiceBucketNotFound (get_bucket_by_name (sl_bucket request) c);
  if 1000 <? sl_maximum_keys request
  then Err (InvalidRequest "maximum_keys must not exceed 1000")
  else if sl_maximum_keys request =? 0 then Ok (Some empty_list)
  else Ok (walk_pages (size (OBJECTS c)) request (b_id bucket) (sl_start_after request)
             {| w_result := empty_list; w_at_capacity := false; w_last_scanned_key := None |} c).

(** ** Groups *)

Lemma strip_prefix_spec p s r : strip_prefix p s = Some r ↔ s = p ++ r.
Proof.
  revert s. induction p as [|x p IH]; intros s; cbn; [naive_solver|]. destruct s as [|y s]; [naive_solver|].
  destruct (Z.eqb_spec x y) as [->|]; [rewrite IH; naive_solver|naive_solver].
Qed.

Definition occurs (d s : bytes) (n : nat) : Prop := ∃ r, drop n s = d ++ r ∧ (n ≤ length s)%nat.

Lemma find_sub_occurs d s n : find_sub d s = Some n → occurs d s n ∧ ∀ m, (m < n)%nat → ¬ occurs d s m.
Proof.
  revert n. induction s as [|x s IH]; intros n; cbn [find_sub]; destruct (strip_prefix d _) as [r|] eqn:Hd; try done.
  - intros [= <-]. apply strip_prefix_spec in Hd. split; [exists r; split; [done|simpl; lia]|lia].
  - intros [= <-]. apply strip_prefix_spec in Hd. split; [exists r; split; [done|simpl; lia]|lia].
  - intros (k & Hk & ->)%fmap_Some. destruct (IH _ Hk) as [(r & Hr & Hl) Hmin]. split; [exists r; split; [done|simpl; lia]|].
    intros [|m] Hm (r' & Hr' & Hl').
    + cbn [drop] in Hr'. apply strip_prefix_spec in Hr'. congruence.
    + apply (Hmin m); [lia|]. exists r'. cbn in *. split; [done|lia].
Qed.

Lemma occurs_find_sub d s n : occurs d s n → (∀ m, (m < n)%nat → ¬ occurs d s m) → find_sub d s = Some n.
Proof.
  revert n. induction s as [|x s IH]; intros n (r & Hr & Hl) Hmin; cbn [find_sub].
  - assert (n = 0%nat) as -> by (simpl in Hl; lia). apply strip_prefix_spec in Hr. cbn [drop] in Hr. by rewrite Hr.
  - destruct n as [|n]; [apply strip_prefix_spec in Hr; cbn [drop] in Hr; by rewrite Hr|].
    destruct (strip_prefix d (x :: s)) as [r'|] eqn:Hd.
    + apply strip_prefix_spec in Hd. exfalso. apply (Hmin 0%nat); [lia|]. exists r'. split; [done|lia].
    + rewrite (IH n); [done| |].
      * exists r. cbn in *. split; [done|lia].
      * intros m Hm (r' & Hr' & Hl'). apply (Hmin (S m)); [lia|]. exists r'. cbn. split; [done|lia].
Qed.

(** An occurrence depends only on the bytes it covers. *)
Lemma occurs_head d h r r' m : (m + length d ≤ length h)%nat → occurs d (h ++ r') m → occurs d (h ++ r) m.
Proof.
  intros Hm (x & Hx & _). rewrite drop_app_le in Hx by lia.
  assert (Hd : d = take (length d) (drop m h)).
  { apply (f_equal (take (length d))) in Hx. rewrite take_app_le in Hx by (rewrite length_drop; lia).
    by rewrite take_app_length in Hx. }
  exists (drop (length d) (drop m h) ++ r). rewrite drop_app_le by lia. split; [|rewrite length_app; lia].
  rewrite app_assoc. f_equal. rewrite Hd at 1. rewrite Hd at 2. by rewrite length_take_le, take_drop by (rewrite length_drop; lia).
Qed.

Section Groups.
Context (request : ServiceListRequest).

Lemma group_prefix key p : common_prefix request key = Some p → p `prefix_of` key.
Proof.
  unfold common_prefix. destruct (sl_delimiter request) as [d|]; [|done]. simpl.
  destruct (strip_prefix _ key) as [suffix|] eqn:Hs; [|done]. apply strip_prefix_spec in Hs. simpl.
  destruct (find_sub d suffix) as [n|] eqn:Hn; [|done]. intros [= <-]. apply find_sub_occurs in Hn as [(r & Hr & _) _].
  exists r. rewrite Hs, <-!app_assoc. f_equal. rewrite <-Hr. by rewrite take_drop.
Qed.

(** Every key that begins with a group's prefix is in the group. *)
Lemma group_stable key key' p :
  common_prefix request key = Some p → p `prefix_of` key' → common_prefix request key' = Some p.
Proof.
  unfold common_prefix. destruct (sl_delimiter request) as [d|]; [|done]. simpl.
  destruct (strip_prefix _ key) as [suffix|] eqn:Hs; [|done]. simpl.
  destruct (find_sub d suffix) as [n|] eqn:Hn; [|done]. intros [= <-] [r' ->].
  apply find_sub_occurs in Hn as [(r & Hr & Hl) Hmin]. rewrite <-!app_assoc.
  set (rest := take n suffix ++ d ++ r').
  assert (Hstrip : strip_prefix (sl_prefix request) (sl_prefix request ++ rest) = Some rest) by by apply strip_prefix_spec.
  rewrite Hstrip. cbn [mbind option_bind]. assert (Hlen : length (take n suffix) = n) by (rewrite length_take; lia).
  assert (Hfind : find_sub d rest = Some n).
  { apply occurs_find_sub.
    - exists r'. unfold rest. rewrite drop_app_length' by done. split; [done|]. rewrite length_app. lia.
    - intros m Hm Ho. apply (Hmin m Hm). rewrite <-(take_drop n suffix), Hr, app_assoc.
      apply (occurs_head d (take n suffix ++ d) r r'); [rewrite length_app; lia|]. unfold rest in Ho. by rewrite app_assoc in Ho. }
  rewrite Hfind. cbn [mbind option_bind]. unfold rest. by rewrite take_app_length' by done.
Qed.
End Groups.

(** Strings between two strings with a prefix have it too. *)
Lemma prefix_between p a b k :
  p `prefix_of` a → p `prefix_of` b → bytes_le a k → bytes_le k b → p `prefix_of` k.
Proof.
  intros [ra ->] [rb ->]. revert k. induction p as [|x p IH]; intros k Ha Hb; [apply prefix_nil|].
  destruct k as [|y k]; cbn [app] in *; [by apply bytes_le_nil_r in Ha|].
  apply bytes_le_cons in Ha, Hb. destruct Ha as [?|[-> Ha]], Hb as [?|[? Hb]]; try lia. apply prefix_cons. by apply IH.
Qed.

(** ** One walk *)

Section Walk.
Context (request : ServiceListRequest) (Hmax : 1 ≤ sl_maximum_keys request).

Definition group (m : ObjectMetadata) : option bytes := common_prefix request (o_key m).

(** What a page shows of the objects it covers. *)
Record shown (covered : list ObjectMetadata) (r : ServiceListResult) : Prop := {
  shown_objects : sl_objects r = filter (λ m, group m = None) covered;
  shown_prefixes : ∀ p, p ∈ sl_common_prefixes r ↔ ∃ m, m ∈ covered ∧ group m = Some p;
  shown_sorted : StronglySorted bytes_lt (sl_common_prefixes r);
  shown_count : entry_count r ≤ sl_maximum_keys request
}.

Record walked (covered : list ObjectMetadata) (w : walk) : Prop := {
  walked_shown : shown covered (w_result w);
  walked_going : sl_is_truncated (w_result w) = false ∧ sl_next_marker (w_result w) = None;
  walked_full : w_at_capacity w = (sl_maximum_keys request <=? entry_count (w_result w));
  walked_last : w_last_scanned_key w = o_key <$> last covered
}.

(** A page that is cut before [next]: there is something on it, its marker is
    the last key it covers, and the group of [next] is not one of its groups. *)
Record cut (covered : list ObjectMetadata) (next : ObjectMetadata) (r : ServiceListResult) : Prop := {
  cut_shown : shown covered r;
  cut_truncated : sl_is_truncated r = true;
  cut_marker : sl_next_marker r = o_key <$> last covered;
  cut_nonempty : covered ≠ [];
  cut_group : ∀ p, group next = Some p → ¬ ∃ m, m ∈ covered ∧ group m = Some p
}.

Lemma shown_snoc_object covered r m :
  shown covered r → group m = None → entry_count r < sl_maximum_keys request →
  shown (covered ++ [m]) {| sl_objects := sl_objects r ++ [m]; sl_common_prefixes := sl_common_prefixes r;
                            sl_is_truncated := sl_is_truncated r; sl_next_marker := sl_next_marker r |}.
Proof.
  intros [Ho Hp Hs Hc] Hm Hlt. split; cbn.
  - by rewrite filter_app, filter_cons_True, Ho by done.
  - intros p. rewrite Hp. split; [set_solver|]. intros (m' & [Hin|Heq%list_elem_of_singleton]%elem_of_app & Hg); [eauto|congruence].
  - done.
  - unfold entry_count in *. cbn. rewrite length_app. simpl. lia.
Qed.

Lemma shown_snoc_group covered r m p :
  shown covered r → group m = Some p → entry_count r < sl_maximum_keys request ∨ p ∈ sl_common_prefixes r →
  shown (covered ++ [m]) {| sl_objects := sl_objects r; sl_common_prefixes := set_insert p (sl_common_prefixes r);
                            sl_is_truncated := sl_is_truncated r; sl_next_marker := sl_next_marker r |}.
Proof.
  intros [Ho Hp Hs Hc] Hm Hlt. split; cbn.
  - rewrite filter_app, filter_cons_False by congruence. by rewrite app_nil_r.
  - intros q. rewrite set_insert_elem, Hp. split.
    + intros [->|(m' & Hin & Hg)]; [exists m; set_solver|exists m'; set_solver].
    + intros (m' & [Hin|Heq%list_elem_of_singleton]%elem_of_app & Hg); [eauto|]. left. congruence.
  - by apply set_insert_sorted.
  - unfold entry_count in *. cbn. destruct Hlt as [Hlt|Hin]; [pose proof (set_insert_length p (sl_common_prefixes r)); lia|].
    assert (set_insert p (sl_common_prefixes r) = sl_common_prefixes r) as ->; [|done].
    apply ascending_ext; [by apply set_insert_sorted|done|]. intros x. rewrite set_insert_elem. naive_solver.
Qed.

Lemma walk_cut covered w m :
  shown covered (w_result w) → sl_maximum_keys request ≤ entry_count (w_result w) →
  w_last_scanned_key w = o_key <$> last covered →
  (∀ p, group m = Some p → p ∉ sl_common_prefixes (w_result w)) →
  cut covered m {| sl_objects := sl_objects (w_result w); sl_common_prefixes := sl_common_prefixes (w_result w);
                   sl_is_truncated := true; sl_next_marker := w_last_scanned_key w |}.
Proof.
  intros [Ho Hp Hs Hc] Hfull Hlast Hg. split; [done|done|done| |].
  - intros ->. cbn in Ho. assert (sl_common_prefixes (w_result w) = []) as Hnil.
    { apply elem_of_nil_inv. intros p (m' & Hin & _)%Hp. by apply not_elem_of_nil in Hin. }
    unfold entry_count in Hfull. rewrite Ho, Hnil in Hfull. simpl in Hfull. lia.
  - intros p Hgp Hex. apply (Hg p Hgp). by apply Hp.
Qed.

Lemma walk_one_spec covered w m :
  walked covered w →
  match walk_one request w m with
  | inl w' => walked (covered ++ [m]) w'
  | inr r => cut covered m r
  end.
Proof.
  intros [Hshown [Htr Hnm] Hfull Hlast]. unfold walk_one. fold (group m).
  destruct (w_at_capacity w) eqn:Hcap.
  - symmetry in Hfull. apply Z.leb_le in Hfull.
    destruct (group m) as [p|] eqn:Hg; [case_bool_decide as Hin|].
    + pose proof (shown_snoc_group _ _ _ _ Hshown Hg (or_intror Hin)) as Hs.
      assert (Hsame : set_insert p (sl_common_prefixes (w_result w)) = sl_common_prefixes (w_result w)).
      { apply ascending_ext; [apply set_insert_sorted, Hshown|apply Hshown|]. intros x. rewrite set_insert_elem. naive_solver. }
      rewrite Hsame in Hs. destruct (w_result w) as [ob cp tr nm] eqn:Hw. cbn in *.
      split; cbn; [exact Hs|done|symmetry; by apply Z.leb_le|by rewrite last_snoc].
    + apply walk_cut; try done. intros q Hq. by simplify_eq.
    + apply walk_cut; try done. intros q Hq. by simplify_eq.
  - symmetry in Hfull. apply Z.leb_gt in Hfull. destruct (group m) as [p|] eqn:Hg.
    + split; cbn; [by apply shown_snoc_group; [| |left]|done|done|by rewrite last_snoc].
    + split; cbn; [by apply shown_snoc_object|done|done|by rewrite last_snoc].
Qed.

Lemma walk_page_spec covered w page :
  walked covered w →
  match walk_page request w page with
  | inl w' => walked (covered ++ page) w'
  | inr r => ∃ before next after, page = before ++ next :: after ∧ cut (covered ++ before) next r
  end.
Proof.
  revert covered w. induction page as [|m page IH]; intros covered w Hw; cbn [walk_page]; [by rewrite app_nil_r|].
  pose proof (walk_one_spec _ _ m Hw) as Hone. destruct (walk_one request w m) as [w'|r].
  - specialize (IH _ _ Hone). rewrite <-app_assoc in IH. destruct (walk_page request w' page) as [w''|r]; [done|].
    destruct IH as (before & next & after & -> & Hcut). exists (m :: before), next, after. split; [done|].
    by rewrite <-app_assoc in Hcut.
  - exists [], m, page. split; [done|]. by rewrite app_nil_r.
Qed.
End Walk.

(** ** The walk over the pages of the catalog *)

Section Pages.
Context (c : Catalog) (Hinv : Inv c) (bucket prefix : bytes).
Context (Hbucket : uuid_ok bucket) (Hprefix : key_ok prefix).

Definition list_start (start_after : option bytes) : bytes :=
  match start_after with
  | None => object_prefix bucket prefix
  | Some value => object_prefix bucket value ++ [0]
  end.

(** The objects a listing that starts after a key is about. *)
Definition remaining (start_after : option bytes) : list ObjectMetadata :=
  (table_range (list_start start_after) (prefix_successor (object_prefix bucket prefix)) (OBJECTS c)).*2.

Definition within (start_after : option bytes) : Prop :=
  bytes_le (object_prefix bucket prefix) (list_start start_after).

Lemma catalog_page start_after :
  within start_after →
  ∃ page, list_objects {| lo_bucket_id := bucket; lo_prefix := prefix; lo_start_after := start_after; lo_limit := 256 |} c = page ∧
    match next_key page with
    | None => objects page = remaining start_after
    | Some k => objects page ≠ [] ∧ within (Some k) ∧ remaining start_after = objects page ++ remaining (Some k)
    end.
Proof.
  intros Hw. eexists. split; [done|]. set (page := list_objects _ c).
  destruct (objects_page_spec c Hinv bucket prefix 256 Hbucket Hprefix ltac:(unfold u64_max; lia) start_after Hw)
    as (items & next & Hpage & Hrest).
  unfold objects_page, objects_request in Hpage. fold page in Hpage. clearbody page. injection Hpage as <- <-.
  destruct (next_key page) as [k|]; cbn in Hrest; rewrite !omap_snd in Hrest; exact Hrest.
Qed.

Lemma length_remaining start_after : (length (remaining start_after) ≤ size (OBJECTS c))%nat.
Proof. unfold remaining. rewrite length_fmap. apply length_table_range. Qed.

(** After an object of the listing, what remains is what follows it. *)
Lemma remaining_after start_after before m after :
  within start_after → remaining start_after = before ++ m :: after →
  remaining (Some (o_key m)) = after ∧ within (Some (o_key m)).
Proof.
  intros Hw Heq. unfold remaining in Heq. apply fmap_app_inv in Heq as (l1 & l2 & -> & Hl2 & Hrange).
  destruct l2 as [|[k m'] l2]; [done|]. cbn in Hl2. injection Hl2 as -> ->.
  pose proof (table_range_resume _ _ _ _ _ _ _ (current_row_bytes c Hinv) Hrange) as Hres.
  assert (Hin : (k, m') ∈ table_range (list_start start_after) (prefix_successor (object_prefix bucket prefix)) (OBJECTS c))
    by (rewrite Hrange; set_solver).
  apply elem_of_table_range in Hin as [Hm Hr]. apply (in_range_from _ (object_prefix bucket prefix)) in Hr as [Hr Hle]; [|done].
  pose proof (proj1 (objects_in_range c Hinv bucket prefix Hbucket Hprefix _ _ Hm) Hr) as [Hb _].
  apply (current_row c Hinv) in Hm as (-> & _). rewrite Hb in *. unfold remaining, within, list_start. unfold object_key in *.
  split; [by rewrite Hres|]. destruct Hr as [Hlo _]. etrans; [exact Hlo|]. apply bytes_le_app.
Qed.

Context (request : ServiceListRequest) (Hrequest : sl_prefix request = prefix) (Hmax : 1 ≤ sl_maximum_keys request).

Lemma walk_pages_spec fuel covered w start_after :
  within start_after → walked request covered w → (length (remaining start_after) ≤ fuel)%nat →
  ∃ r, walk_pages fuel request bucket start_after w c = Some r ∧
    ((shown request (covered ++ remaining start_after) r ∧ sl_is_truncated r = false ∧ sl_next_marker r = None) ∨
     (∃ before next after, remaining start_after = before ++ next :: after ∧ cut request (covered ++ before) next r)).
Proof.
  revert covered w start_after. induction fuel as [|fuel IH]; intros covered w sa Hw Hwalked Hlen;
    destruct (catalog_page sa Hw) as (page & Hpage & Hrest); cbn [walk_pages]; rewrite Hrequest, Hpage;
    pose proof (walk_page_spec request Hmax _ _ (objects page) Hwalked) as Hwalk.
  - destruct (next_key page) as [k|].
    { destruct Hrest as (Hne & _ & Hr). rewrite Hr, length_app in Hlen. destruct (objects page); [done|simpl in Hlen; lia]. }
    rewrite <-Hrest in Hlen |- *. destruct (objects page) as [|m l]; [|simpl in Hlen; lia].
    eexists. split; [done|]. left. rewrite app_nil_r. destruct Hwalked. tauto.
  - destruct (objects page) as [|m items] eqn:Hitems.
    { destruct (next_key page) as [k|]; [by destruct Hrest|]. rewrite <-Hrest. eexists. split; [done|].
      left. rewrite app_nil_r. destruct Hwalked. tauto. }
    destruct (walk_page request w (m :: items)) as [w'|r].
    + destruct (next_key page) as [k|].
      * destruct Hrest as (_ & Hw' & Hr). rewrite Hr, length_app in Hlen. cbn in Hlen.
        destruct (IH _ w' (Some k) Hw' Hwalk) as (r & Hrun & Hcase); [lia|]. exists r. split; [done|]. rewrite Hr.
        destruct Hcase as [Hdone|(before & next & after & Hsplit & Hcut)].
        -- left. by rewrite <-app_assoc in Hdone.
        -- right. exists ((m :: items) ++ before), next, after. rewrite Hsplit, <-app_assoc. split; [done|].
           by rewrite <-app_assoc in Hcut.
      * rewrite <-Hrest. eexists. split; [done|]. left. destruct Hwalk. tauto.
    + eexists. split; [done|]. right. destruct Hwalk as (before & next & after & Hsplit & Hcut).
      destruct (next_key page) as [k|].
      * destruct Hrest as (_ & _ & Hr). exists before, next, (after ++ remaining (Some k)). split; [|done].
        rewrite Hr, Hsplit, <-app_assoc. done.
      * exists before, next, after. split; [|done]. by rewrite <-Hrest.
Qed.
End Pages.

(** ** Following the markers of the listing *)

Definition resumed (request : ServiceListRequest) (start_after : option bytes) : ServiceListRequest :=
  {| sl_bucket := sl_bucket request; sl_prefix := sl_prefix request; sl_delimiter := sl_delimiter request;
     sl_maximum_keys := sl_maximum_keys request; sl_start_after := start_after |}.

(** One page, and the marker a client resumes from; a call that ran out of fuel
    is asked again and so never counts as an answer. *)
Definition service_page (c : Catalog) (request : ServiceListRequest) (start_after : option bytes)
    : result ServiceError (list ServiceListResult * option (option bytes)) :=
  answer ← service_list (resumed request start_after) c;
  match answer with
  | Some r => Ok ([r], if sl_is_truncated r then Some (sl_next_marker r) else None)
  | None => Ok ([], Some start_after)
  end.

Lemma shown_resumed request sa covered r : shown (resumed request sa) covered r → shown request covered r.
Proof. by intros [? ? ? ?]. Qed.

(** The groups of what a cut page covers are not met again. *)
Lemma groups_apart request (before after : list ObjectMetadata) (next : ObjectMetadata) p :
  StronglySorted (λ m m', bytes_lt (o_key m) (o_key m')) (before ++ next :: after) →
  (∀ p, group request next = Some p → ¬ ∃ m, m ∈ before ∧ group request m = Some p) →
  (∃ m, m ∈ before ∧ group request m = Some p) → ¬ ∃ m, m ∈ next :: after ∧ group request m = Some p.
Proof.
  intros Hs Hcut (a & Ha & Hga) (b & Hb & Hgb).
  assert (Hnext : group request next = Some p); [|by apply (Hcut p Hnext); exists a].
  apply StronglySorted_app in Hs as (Hcross & _ & Hs). apply StronglySorted_inv in Hs as [_ Hafter].
  apply (group_stable _ _ _ _ Hga), (prefix_between _ (o_key a) (o_key b)); [by eapply group_prefix|by eapply group_prefix| |].
  - apply bytes_lt_le, Hcross; [done|by left].
  - apply elem_of_cons in Hb as [->|Hb]; [done|]. rewrite Forall_forall in Hafter. by apply bytes_lt_le, Hafter.
Qed.

Lemma exists_elem_app {A} (P : A → Prop) (l k : list A) :
  (∃ x, x ∈ l ++ k ∧ P x) ↔ (∃ x, x ∈ l ∧ P x) ∨ (∃ x, x ∈ k ∧ P x).
Proof. setoid_rewrite elem_of_app. firstorder. Qed.

Section Follow.
Context (c : Catalog) (Hinv : Inv c) (request : ServiceListRequest) (b : Bucket).
Context (Hb : get_bucket_by_name (sl_bucket request) c = Some b) (Hprefix : key_ok (sl_prefix request)).
Context (Hmax : 1 ≤ sl_maximum_keys request ≤ 1000).

Let rest (start_after : option bytes) := remaining c (b_id b) (sl_prefix request) start_after.
Let inside (start_after : option bytes) := within (b_id b) (sl_prefix request) start_after.

Lemma listed_bucket_ok : uuid_ok (b_id b).
Proof.
  destruct (bucket_name_row _ _ (inv_buckets _ Hinv) _ _ Hb) as [_ Hid].
  by destruct (bucket_row _ _ (inv_buckets _ Hinv) _ _ Hid) as (_ & ? & _).
Qed.

Lemma service_page_spec start_after :
  inside start_after →
  ∃ r, service_list (resumed request start_after) c = Ok (Some r) ∧
    ((shown request (rest start_after) r ∧ sl_is_truncated r = false) ∨
     (∃ before next after, rest start_after = before ++ next :: after ∧ before ≠ [] ∧ shown request before r ∧
        sl_is_truncated r = true ∧ sl_next_marker r = o_key <$> last before ∧
        ∀ p, group request next = Some p → ¬ ∃ m, m ∈ before ∧ group request m = Some p)).
Proof.
  intros Hin. unfold service_list. cbn [resumed sl_bucket sl_maximum_keys]. rewrite Hb. cbn [ok_or mbind result_bind].
  destruct (Z.ltb_spec 1000 (sl_maximum_keys request)), (Z.eqb_spec (sl_maximum_keys request) 0); try lia.
  set (w := {| w_result := empty_list; w_at_capacity := false; w_last_scanned_key := None |}).
  assert (Hw : walked (resumed request start_after) [] w).
  { split; cbn; [split; cbn; [done|set_solver|apply SSorted_nil|unfold entry_count; cbn; lia]|done| |done]. symmetry. apply Z.leb_gt. unfold entry_count. cbn. lia. }
  destruct (walk_pages_spec c Hinv (b_id b) (sl_prefix request) listed_bucket_ok Hprefix (resumed request start_after)
    eq_refl ltac:(cbn; lia) (size (OBJECTS c)) [] w start_after Hin Hw (length_remaining _ _ _ _)) as (r & Hrun & Hcase).
  exists r. split; [by rewrite <-Hrun|]. destruct Hcase as [(Hs & Ht & _)|(before & next & after & Hsplit & [Hs Ht Hm Hne Hg])].
  - left. split; [by apply shown_resumed in Hs|done].
  - right. exists before, next, after. split_and!; [done|done|by apply shown_resumed in Hs|done|done|exact Hg].
Qed.

Lemma all_pages fuel start_after :
  inside start_after → StronglySorted (λ m m', bytes_lt (o_key m) (o_key m')) (rest start_after) →
  (length (rest start_after) ≤ fuel)%nat →
  ∃ pages, follow (service_page c request) fuel start_after = Ok (Some pages) ∧
    concat (sl_objects <$> pages) = filter (λ m, group request m = None) (rest start_after) ∧
    NoDup (concat (sl_common_prefixes <$> pages)) ∧
    (∀ p, p ∈ concat (sl_common_prefixes <$> pages) ↔ ∃ m, m ∈ rest start_after ∧ group request m = Some p) ∧
    Forall (λ r, entry_count r ≤ sl_maximum_keys request) pages.
Proof.
  assert (Hnodup : ∀ l, StronglySorted bytes_lt l → NoDup l).
  { intros l. induction 1 as [|x l _ IH Hx]; constructor; [|done]. intros Hin. rewrite Forall_forall in Hx.
    specialize (Hx x Hin). apply bytes_lt_alt in Hx as [_ ?]. done. }
  revert start_after. induction fuel as [|fuel IH]; intros sa Hin Hsorted Hlen;
    destruct (service_page_spec sa Hin) as (r & Hr & [([Ho Hp Hs Hc] & Ht)|(before & next & after & Hsplit & Hne & [Ho Hp Hs Hc] & Ht & Hm & Hg)]);
    (assert (Hpage : service_page c request sa = Ok ([r], if sl_is_truncated r then Some (sl_next_marker r) else None))
      by (unfold service_page; by rewrite Hr)); cbn [follow]; rewrite Hpage, Ht.
  1, 3: exists [r]; cbn; rewrite !app_nil_r; split_and!; [done|done|by apply Hnodup|done|by constructor].
  - rewrite Hsplit, length_app in Hlen. cbn in Hlen. lia.
  - destruct (exists_last Hne) as (before' & m & ->). rewrite last_snoc in Hm. cbn in Hm. rewrite Hm.
    rewrite <-app_assoc in Hsplit.
    destruct (remaining_after c Hinv (b_id b) (sl_prefix request) listed_bucket_ok Hprefix sa before' m (next :: after) Hin Hsplit) as [Hrest Hin'].
    fold (rest (Some (o_key m))) in Hrest. rewrite Hsplit, app_assoc in Hsorted. rewrite Hsplit, length_app in Hlen. cbn in Hlen.
    destruct (IH (Some (o_key m)) Hin') as (pages & Hrun & Hob & Hnd & Hpr & Hcount).
    { rewrite Hrest. by apply StronglySorted_app in Hsorted as (_ & _ & ?). }
    { rewrite Hrest. cbn. lia. }
    exists (r :: pages). split_and!.
    + by rewrite Hrun.
    + change (sl_objects r ++ concat (sl_objects <$> pages) = filter (λ m0, group request m0 = None) (rest sa)).
      by rewrite Hob, Ho, Hrest, <-filter_app, <-app_assoc, Hsplit.
    + change (NoDup (sl_common_prefixes r ++ concat (sl_common_prefixes <$> pages))). apply NoDup_app. split_and!; [by apply Hnodup| |done].
      intros p Hin1 Hin2. apply Hp in Hin1. apply Hpr in Hin2. rewrite Hrest in Hin2.
      by apply (groups_apart request (before' ++ [m]) after next p Hsorted Hg Hin1).
    + intros p. change (p ∈ sl_common_prefixes r ++ concat (sl_common_prefixes <$> pages) ↔ ∃ m0, m0 ∈ rest sa ∧ group request m0 = Some p).
      rewrite elem_of_app, Hp, Hpr, Hrest, Hsplit, (app_assoc before' [m]). symmetry. apply exists_elem_app.
    + by constructor.
Qed.
End Follow.

Section Theorems.
Context `{UuidCrate}.

(** C28: a delimited listing shows everything once. For every bucket of a
    reachable catalog, every prefix, delimiter and page size, the listing returns
    a page of at most the size asked for, and following its markers ends: the
    pages together show exactly the current objects with the prefix that are in
    no group, in ascending order, and every group exactly once, however the
    groups fall across pages. *)
Theorem service_list_pages (c : Catalog) (request : ServiceListRequest) (b : Bucket)
    (Hreach : reachable c) (Hb : get_bucket_by_name (sl_bucket request) c = Some b)
    (Hprefix : key_ok (sl_prefix request)) (Hmax : 1 ≤ sl_maximum_keys request ≤ 1000) :
  ∃ pages all, follow (service_page c request) (size (OBJECTS c)) None = Ok (Some pages) ∧
    StronglySorted (λ m m', bytes_lt (o_key m) (o_key m')) all ∧
    (∀ m, m ∈ all ↔ get_object (b_id b) (o_key m) c = Some m ∧ sl_prefix request `prefix_of` o_key m) ∧
    concat (sl_objects <$> pages) = filter (λ m, common_prefix request (o_key m) = None) all ∧
    NoDup (concat (sl_common_prefixes <$> pages)) ∧
    (∀ p, p ∈ concat (sl_common_prefixes <$> pages) ↔ ∃ m, m ∈ all ∧ common_prefix request (o_key m) = Some p) ∧
    Forall (λ r, entry_count r ≤ sl_maximum_keys request) pages.
Proof.
  apply reachable_inv in Hreach as Hinv. pose proof (listed_bucket_ok c Hinv request b Hb) as Hid.
  pose proof (listed_objects_sorted c Hinv (b_id b) (sl_prefix request) Hid Hprefix) as Hsorted.
  destruct (all_pages c Hinv request b Hb Hprefix Hmax (size (OBJECTS c)) None) as (pages & Hrun & Hrest);
    [unfold within; done|done|apply length_remaining|].
  exists pages, (remaining c (b_id b) (sl_prefix request) None). split_and!; try apply Hrest; [done|done|].
  intros m. by apply elem_of_listed_objects.
Qed.
End Theorems.

(** ** Witness *)

#[local] Existing Instance sample_uuids.

(** Everything under [b] is one group. *)
Definition sample_listing : ServiceListRequest :=
  {| sl_bucket := [98; 49]; sl_prefix := []; sl_delimiter := Some [98]; sl_maximum_keys := 1; sl_start_after := None |}.

Lemma service_list_pages_witness :
  ∃ pages all, follow (service_page listing_catalog sample_listing) (size (OBJECTS listing_catalog)) None = Ok (Some pages) ∧
    StronglySorted (λ m m', bytes_lt (o_key m) (o_key m')) all ∧
    (∀ m, m ∈ all ↔ get_object (uid 1) (o_key m) listing_catalog = Some m ∧ [] `prefix_of` o_key m) ∧
    concat (sl_objects <$> pages) = filter (λ m, common_prefix sample_listing (o_key m) = None) all ∧
    NoDup (concat (sl_common_prefixes <$> pages)) ∧
    (∀ p, p ∈ concat (sl_common_prefixes <$> pages) ↔ ∃ m, m ∈ all ∧ common_prefix sample_listing (o_key m) = Some p) ∧
    Forall (λ r, entry_count r ≤ 1) pages.
Proof.
  apply (service_list_pages listing_catalog sample_listing (sample_bucket Enabled no_quota None)).
  - exact listing_reachable.
  - vm_compute. reflexivity.
  - constructor.
  - cbn. lia.
Defined.

End ServiceList.
