(* ===== verification/Auth.v ===== *)
(** * Credentials and policies

    [crates/record-store-auth/src]: service accounts with rotatable credentials
    ([accounts.rs], [manager.rs], [evaluate.rs], [keys.rs], [schema.rs],
    [crypto.rs]), policies and their evaluation ([policies.rs], [evaluate.rs]),
    input validation ([validation.rs]).

    The database is a record of tables, as for the catalog. AES-GCM and HKDF are
    an interface. What the code draws at random or reads off the clock (account
    and credential identifiers, access keys, secrets, nonces, the time) is an
    argument. An operation that reads in one transaction and writes in another is
    two definitions, so that others can come between ([AuthSteps]). Constant-time
    comparison is equality; zeroing of memory is not modelled. *)

From S2P Require Import Prelude Bytes Text Tables ObjectLock CoreTypes Keys.
Import Keys.

Module Auth.

(** ** Data ([model.rs], [manager.rs], [error.rs]) *)

Inductive Principal :=
  | ServiceAccountPrincipal (id organization_id : bytes) (credential_id : option bytes)
  | System (component : bytes)
  | Anonymous.

Record ServiceAccount := {
  sa_id : bytes; sa_organization_id : bytes; sa_name : bytes; sa_description : bytes;
  sa_disabled : bool; sa_created_at : Z; sa_updated_at : Z }.

Record Credential := {
  cr_id : bytes; cr_service_account_id : bytes; cr_key_id : bytes; cr_disabled : bool;
  cr_created_at : Z; cr_expires_at : option Z }.

Inductive Action :=
  | ListBucket | GetObject | PutObject | DeleteObject | GetObjectVersion | DeleteObjectVersion
  | ManageBucket | GetObjectRetention | PutObjectRetention | GetObjectLegalHold
  | PutObjectLegalHold | BypassGovernanceRetention.
#[export] Instance Action_eq_dec : EqDecision Action.
Proof. solve_decision. Defined.

Record Permission := { p_action : Action; p_resource : bytes }.

Inductive PolicyEffect := Allow | Deny.
#[export] Instance PolicyEffect_eq_dec : EqDecision PolicyEffect.
Proof. solve_decision. Defined.

Record PolicyStatement := { s_effect : PolicyEffect; s_actions : list Action; s_resources : list bytes }.

Record Policy := {
  pol_id : bytes; pol_name : bytes; pol_description : bytes; pol_statements : list PolicyStatement;
  pol_created_at : Z; pol_updated_at : Z }.

Record ServiceAccountInfo := {
  si_account : ServiceAccount; si_credential : Credential; si_credentials : list Credential;
  si_policy_bindings : list bytes }.

Record EncryptedCredentialRecord := {
  er_info : ServiceAccountInfo; er_encryption_version : Z; er_nonce : bytes; er_ciphertext : bytes }.

Inductive AuthorizationError := Denied | BackendUnavailable.
Inductive CredentialLookupError := UnknownAccessKey | Inactive | Backend.
(** Without the failures of files, JSON, the database and tasks. *)
Inductive CredentialStoreError :=
  | MasterKeyRequired
  | AccessKeyCollision
  | AccountNotFound
  | CredentialNotFound
  | PolicyAlreadyExists
  | PolicyNotFound
  | CredentialInactive
  | CorruptIndex
  | InvalidInput (reason : string)
  | Cryptography.

(** ** The database ([schema.rs]) *)

Record Store := {
  ACCOUNTS : gmap bytes EncryptedCredentialRecord;
  ACCESS_KEYS : gmap bytes bytes;
  ROTATED_CREDENTIALS : gmap bytes EncryptedCredentialRecord;
  ACCOUNT_CREDENTIALS : gmap bytes Z;
  POLICIES : gmap bytes Policy;
  POLICY_NAMES : gmap bytes bytes;
  POLICY_BINDINGS : gmap bytes Z }.

Definition empty_store : Store :=
  {| ACCOUNTS := ∅; ACCESS_KEYS := ∅; ROTATED_CREDENTIALS := ∅; ACCOUNT_CREDENTIALS := ∅;
     POLICIES := ∅; POLICY_NAMES := ∅; POLICY_BINDINGS := ∅ |}.

Definition upd_accounts f s := {| ACCOUNTS := f (ACCOUNTS s); ACCESS_KEYS := ACCESS_KEYS s;
  ROTATED_CREDENTIALS := ROTATED_CREDENTIALS s; ACCOUNT_CREDENTIALS := ACCOUNT_CREDENTIALS s;
  POLICIES := POLICIES s; POLICY_NAMES := POLICY_NAMES s; POLICY_BINDINGS := POLICY_BINDINGS s |}.
Definition upd_access_keys f s := {| ACCOUNTS := ACCOUNTS s; ACCESS_KEYS := f (ACCESS_KEYS s);
  ROTATED_CREDENTIALS := ROTATED_CREDENTIALS s; ACCOUNT_CREDENTIALS := ACCOUNT_CREDENTIALS s;
  POLICIES := POLICIES s; POLICY_NAMES := POLICY_NAMES s; POLICY_BINDINGS := POLICY_BINDINGS s |}.
Definition upd_rotated f s := {| ACCOUNTS := ACCOUNTS s; ACCESS_KEYS := ACCESS_KEYS s;
  ROTATED_CREDENTIALS := f (ROTATED_CREDENTIALS s); ACCOUNT_CREDENTIALS := ACCOUNT_CREDENTIALS s;
  POLICIES := POLICIES s; POLICY_NAMES := POLICY_NAMES s; POLICY_BINDINGS := POLICY_BINDINGS s |}.
Definition upd_account_credentials f s := {| ACCOUNTS := ACCOUNTS s; ACCESS_KEYS := ACCESS_KEYS s;
  ROTATED_CREDENTIALS := ROTATED_CREDENTIALS s; ACCOUNT_CREDENTIALS := f (ACCOUNT_CREDENTIALS s);
  POLICIES := POLICIES s; POLICY_NAMES := POLICY_NAMES s; POLICY_BINDINGS := POLICY_BINDINGS s |}.
Definition upd_policies f s := {| ACCOUNTS := ACCOUNTS s; ACCESS_KEYS := ACCESS_KEYS s;
  ROTATED_CREDENTIALS := ROTATED_CREDENTIALS s; ACCOUNT_CREDENTIALS := ACCOUNT_CREDENTIALS s;
  POLICIES := f (POLICIES s); POLICY_NAMES := POLICY_NAMES s; POLICY_BINDINGS := POLICY_BINDINGS s |}.
Definition upd_policy_names f s := {| ACCOUNTS := ACCOUNTS s; ACCESS_KEYS := ACCESS_KEYS s;
  ROTATED_CREDENTIALS := ROTATED_CREDENTIALS s; ACCOUNT_CREDENTIALS := ACCOUNT_CREDENTIALS s;
  POLICIES := POLICIES s; POLICY_NAMES := f (POLICY_NAMES s); POLICY_BINDINGS := POLICY_BINDINGS s |}.
Definition upd_bindings f s := {| ACCOUNTS := ACCOUNTS s; ACCESS_KEYS := ACCESS_KEYS s;
  ROTATED_CREDENTIALS := ROTATED_CREDENTIALS s; ACCOUNT_CREDENTIALS := ACCOUNT_CREDENTIALS s;
  POLICIES := POLICIES s; POLICY_NAMES := POLICY_NAMES s; POLICY_BINDINGS := f (POLICY_BINDINGS s) |}.

Abbreviation auth_tx := (tx Store CredentialStoreError).

(** ** Keys ([keys.rs]); its [prefix_successor] is that of the catalog *)

Definition account_credential_key (account credential : bytes) : bytes := account ++ credential.
Definition policy_binding_key (account policy : bytes) : bytes := account ++ policy.

(** ** Validation ([validation.rs]) *)

Definition blen (text : bytes) : Z := Z.of_nat (length text).

Definition validate_service_account_name (name : bytes) : result CredentialStoreError () :=
  if (blen name =? 0) || (128 <? blen name) || StdText.any_control name
  then Err (InvalidInput "name must contain 1 to 128 non-control characters")
  else Ok ().

Definition validate_description (description : bytes) : result CredentialStoreError () :=
  if (1024 <? blen description) || StdText.any_control description
  then Err (InvalidInput "description must not exceed 1024 non-control characters")
  else Ok ().

(** ["*"] and ["bucket:"]. *)
Definition star : Z := 42.
Definition bucket_scheme : bytes := bytes_of_string "bucket:".

Definition resource_ok (resource : bytes) : bool :=
  let wildcard_count := Z.of_nat (length (filter (λ b, b = star) resource)) in
  negb (negb (StdText.starts_with bucket_scheme resource) || (1 <? wildcard_count) ||
        ((wildcard_count =? 1) && negb (bool_decide (last resource = Some star))) ||
        StdText.any_control resource).

Definition statement_check (statement : PolicyStatement) : result CredentialStoreError () :=
  if bool_decide (s_actions statement = []) || bool_decide (s_resources statement = [])
  then Err (InvalidInput "policy statements require actions and resources")
  else if forallb resource_ok (s_resources statement) then Ok ()
  else Err (InvalidInput "policy resources must use bucket:... with an optional final wildcard").

Fixpoint check_statements (statements : list PolicyStatement) : result CredentialStoreError () :=
  match statements with
  | [] => Ok ()
  | statement :: rest => statement_check statement ≫= λ _, check_statements rest
  end.

Definition validate_policy_statements (statements : list PolicyStatement) : result CredentialStoreError () :=
  if bool_decide (statements = []) || (128 <? Z.of_nat (length statements))
  then Err (InvalidInput "policy must contain between 1 and 128 statements")
  else check_statements statements.

(** ** Cryptography ([crypto.rs]) *)

(** AES-256-GCM (key, nonce, associated data, text) and HKDF-SHA256 (salt, input
    key material, info), of the crates of those names. *)
Class Cryptography_ := {
  aead_encrypt : bytes → bytes → bytes → bytes → option bytes;
  aead_decrypt : bytes → bytes → bytes → bytes → option bytes;
  hkdf_expand : bytes → bytes → bytes → option bytes }.

(** What was encrypted decrypts under the same key, nonce and associated data. *)
Class CryptographyLaws `{Cryptography_} : Prop := {
  decrypt_encrypt : ∀ key nonce aad text sealed,
    aead_encrypt key nonce aad text = Some sealed → aead_decrypt key nonce aad sealed = Some text }.

Section Operations.
Context `{Cryptography_}.

Definition derive_encryption_key (material : bytes) : result CredentialStoreError bytes :=
  ok_or Cryptography
    (hkdf_expand (bytes_of_string "credential-store-v1") material
       (bytes_of_string "service-account-encryption-key")).

Definition encrypt_record (info : ServiceAccountInfo) (secret key nonce : bytes)
    : result CredentialStoreError EncryptedCredentialRecord :=
  ciphertext ← ok_or Cryptography (aead_encrypt key nonce (cr_key_id (si_credential info)) secret);
  Ok {| er_info := info; er_encryption_version := 1; er_nonce := nonce; er_ciphertext := ciphertext |}.

Definition decrypt_record (record : EncryptedCredentialRecord) (key : bytes)
    : result CredentialStoreError bytes :=
  if negb (er_encryption_version record =? 1) then Err Cryptography
  else ok_or Cryptography
         (aead_decrypt key (er_nonce record) (cr_key_id (si_credential (er_info record))) (er_ciphertext record)).

(** ** Opening ([CredentialManager::open]) *)

Record CredentialManager := {
  root_access_key : bytes; root_secret : bytes; encryption_key : bytes; explicit_master_key : bool }.

Definition open (access_key secret : bytes) (credential_master_key : option bytes) (s : Store)
    : result CredentialStoreError CredentialManager :=
  encryption_key ← derive_encryption_key (default secret credential_master_key);
  let explicit := bool_decide (is_Some credential_master_key) in
  if negb explicit && negb (bool_decide (ACCOUNTS s = ∅)) then Err MasterKeyRequired
  else Ok {| root_access_key := access_key; root_secret := secret; encryption_key := encryption_key;
             explicit_master_key := explicit |}.

Context (m : CredentialManager).

(** ** Reading accounts *)

Definition created_le (a b : Credential) : Prop := cr_created_at a ≤ cr_created_at b.
#[local] Instance created_le_dec : RelDecision created_le.
Proof. intros a b. unfold created_le. apply _. Defined.

Definition enrich_info (s : Store) (info : ServiceAccountInfo) : ServiceAccountInfo :=
  let rotated := filter (λ credential, cr_service_account_id credential = sa_id (si_account info))
                   (si_credential ∘ er_info <$> (table_iter (ROTATED_CREDENTIALS s)).*2) in
  let prefix := sa_id (si_account info) in
  let bound := (table_range prefix (prefix_successor prefix) (POLICY_BINDINGS s)).*1 in
  {| si_account := si_account info; si_credential := si_credential info;
     si_credentials := merge_sort created_le (si_credential info :: rotated);
     si_policy_bindings := drop 16 <$> filter (λ raw, length raw = 32%nat) bound |}.

Definition get_service_account (account_id : bytes) (s : Store) : result CredentialStoreError ServiceAccountInfo :=
  record ← ok_or AccountNotFound (ACCOUNTS s !! account_id);
  Ok (enrich_info s (er_info record)).

Definition name_le (a b : ServiceAccountInfo) : Prop :=
  bytes_le (sa_name (si_account a)) (sa_name (si_account b)).
#[local] Instance name_le_dec : RelDecision name_le.
Proof. intros a b. unfold name_le. apply _. Defined.

Definition list_service_accounts (s : Store) : list ServiceAccountInfo :=
  merge_sort name_le (enrich_info s ∘ er_info <$> (table_iter (ACCOUNTS s)).*2).

(** ** Accounts and credentials *)

Definition insert_access_key (access_key index_value : bytes) : auth_tx () :=
  found ← tx_gets (λ s, ACCESS_KEYS s !! access_key);
  tx_guard (bool_decide (found = None)) AccessKeyCollision;;
  tx_modify (upd_access_keys <[access_key := index_value]>).

(** What the code mints for a new credential. *)
Record Minted := { mint_credential_id : bytes; mint_access_key : bytes; mint_secret : bytes; mint_nonce : bytes }.

Definition create_service_account_with_description (name description organization_id : bytes)
    (account_id : bytes) (mint : Minted) (now : Z) : auth_tx (ServiceAccountInfo * bytes) :=
  tx_guard (explicit_master_key m) MasterKeyRequired;;
  tx_lift (validate_service_account_name name);;
  tx_lift (validate_description description);;
  let account := {| sa_id := account_id; sa_organization_id := organization_id; sa_name := name;
                    sa_description := description; sa_disabled := false; sa_created_at := now;
                    sa_updated_at := now |} in
  let credential := {| cr_id := mint_credential_id mint; cr_service_account_id := account_id;
                       cr_key_id := mint_access_key mint; cr_disabled := false; cr_created_at := now;
                       cr_expires_at := None |} in
  let info := {| si_account := account; si_credential := credential; si_credentials := [credential];
                 si_policy_bindings := [] |} in
  record ← tx_lift (encrypt_record info (mint_secret mint) (encryption_key m) (mint_nonce mint));
  insert_access_key (mint_access_key mint) account_id;;
  tx_modify (upd_accounts <[account_id := record]>);;
  tx_modify (upd_account_credentials <[account_credential_key account_id (mint_credential_id mint) := 1]>);;
  mret (info, mint_secret mint).

Definition create_service_account (name organization_id account_id : bytes) (mint : Minted) (now : Z)
    : auth_tx (ServiceAccountInfo * bytes) :=
  tx_guard (explicit_master_key m) MasterKeyRequired;;
  create_service_account_with_description name [] organization_id account_id mint now.

Definition with_account (f : ServiceAccount → ServiceAccount) (g : Credential → Credential)
    (h : list Credential → list Credential) (record : EncryptedCredentialRecord) : EncryptedCredentialRecord :=
  let info := er_info record in
  {| er_info := {| si_account := f (si_account info); si_credential := g (si_credential info);
                   si_credentials := h (si_credentials info);
                   si_policy_bindings := si_policy_bindings info |};
     er_encryption_version := er_encryption_version record; er_nonce := er_nonce record;
     er_ciphertext := er_ciphertext record |}.

Definition disable_account (disabled : bool) (now : option Z) (a : ServiceAccount) : ServiceAccount :=
  {| sa_id := sa_id a; sa_organization_id := sa_organization_id a; sa_name := sa_name a;
     sa_description := sa_description a; sa_disabled := disabled; sa_created_at := sa_created_at a;
     sa_updated_at := default (sa_updated_at a) now |}.
Definition disable_credential (disabled : bool) (c : Credential) : Credential :=
  {| cr_id := cr_id c; cr_service_account_id := cr_service_account_id c; cr_key_id := cr_key_id c;
     cr_disabled := disabled; cr_created_at := cr_created_at c; cr_expires_at := cr_expires_at c |}.

Definition set_service_account_enabled (account_id : bytes) (enabled : bool) (now : Z) : auth_tx ServiceAccountInfo :=
  found ← tx_gets (λ s, ACCOUNTS s !! account_id);
  record ← tx_some AccountNotFound found;
  let record := with_account (disable_account (negb enabled) (Some now)) id id record in
  tx_modify (upd_accounts <[account_id := record]>);;
  mret (er_info record).

Definition revoke_service_account (account_id : bytes) : auth_tx () :=
  found ← tx_gets (λ s, ACCOUNTS s !! account_id);
  record ← tx_some AccountNotFound found;
  tx_modify (upd_accounts <[account_id :=
    with_account (disable_account true None) (disable_credential true) id record]>).

(** [rotate_credential] reads the account, then writes in a second transaction. *)
Definition rotate_read (account_id : bytes) (s : Store) : result CredentialStoreError ServiceAccountInfo :=
  if negb (explicit_master_key m) then Err MasterKeyRequired
  else
    account_info ← get_service_account account_id s;
    if sa_disabled (si_account account_info) then Err CredentialInactive else Ok account_info.

Definition rotate_write (account_id : bytes) (account_info : ServiceAccountInfo) (expires_at : option Z)
    (mint : Minted) (now : Z) : auth_tx (ServiceAccountInfo * bytes) :=
  let credential := {| cr_id := mint_credential_id mint; cr_service_account_id := account_id;
                       cr_key_id := mint_access_key mint; cr_disabled := false; cr_created_at := now;
                       cr_expires_at := expires_at |} in
  let info := {| si_account := si_account account_info; si_credential := credential;
                 si_credentials := [credential]; si_policy_bindings := si_policy_bindings account_info |} in
  record ← tx_lift (encrypt_record info (mint_secret mint) (encryption_key m) (mint_nonce mint));
  insert_access_key (mint_access_key mint) (account_id ++ mint_credential_id mint);;
  tx_modify (upd_rotated <[mint_credential_id mint := record]>);;
  tx_modify (upd_account_credentials <[account_credential_key account_id (mint_credential_id mint) := 1]>);;
  mret (info, mint_secret mint).

(** The first credential of the list with the identifier is updated. *)
Fixpoint update_first (credential_id : bytes) (f : Credential → Credential) (l : list Credential) : list Credential :=
  match l with
  | [] => []
  | c :: l => if bool_decide (cr_id c = credential_id) then f c :: l else c :: update_first credential_id f l
  end.

Definition set_credential_enabled (account_id credential_id : bytes) (enabled : bool) : auth_tx () :=
  found ← tx_gets (λ s, ACCOUNTS s !! account_id);
  record ← tx_some AccountNotFound found;
  let disable := disable_credential (negb enabled) in
  if bool_decide (cr_id (si_credential (er_info record)) = credential_id) then
    tx_modify (upd_accounts <[account_id := with_account id disable (update_first credential_id disable) record]>)
  else
    found ← tx_gets (λ s, ROTATED_CREDENTIALS s !! credential_id);
    record ← tx_some CredentialNotFound found;
    tx_guard (bool_decide (cr_service_account_id (si_credential (er_info record)) = account_id)) CredentialNotFound;;
    tx_modify (upd_rotated <[credential_id := with_account id disable id record]>).

(** [delete_service_account] removes, in a second transaction, what it read in
    the first. *)
Definition delete_write (account_id : bytes) (info : ServiceAccountInfo) : auth_tx () :=
  tx_iter (λ credential, tx_modify (upd_access_keys (delete (cr_key_id credential)))) (si_credentials info);;
  tx_iter (λ credential, tx_modify (upd_rotated (delete (cr_id credential))))
    (filter (λ credential, cr_id credential ≠ cr_id (si_credential info)) (si_credentials info));;
  tx_modify (upd_accounts (delete account_id));;
  tx_iter (λ policy, tx_modify (upd_bindings (delete (policy_binding_key account_id policy)))) (si_policy_bindings info).

(** ** Policies ([policies.rs]) *)

Definition create_policy (name description : bytes) (statements : list PolicyStatement) (id : bytes) (now : Z)
    : auth_tx Policy :=
  tx_lift (validate_service_account_name name);;
  tx_lift (validate_description description);;
  tx_lift (validate_policy_statements statements);;
  let policy := {| pol_id := id; pol_name := name; pol_description := description;
                   pol_statements := statements; pol_created_at := now; pol_updated_at := now |} in
  found ← tx_gets (λ s, POLICY_NAMES s !! name);
  tx_guard (bool_decide (found = None)) PolicyAlreadyExists;;
  tx_modify (upd_policies <[id := policy]>);;
  tx_modify (upd_policy_names <[name := id]>);;
  mret policy.

Definition list_policies (s : Store) : result CredentialStoreError (list Policy) :=
  mapM (λ entry, ok_or CorruptIndex (POLICIES s !! entry.2)) (table_iter (POLICY_NAMES s)).

(** The account is looked up in a transaction of its own, before. *)
Definition attach_write (account_id policy_id : bytes) : auth_tx () :=
  found ← tx_gets (λ s, POLICIES s !! policy_id);
  tx_guard (bool_decide (is_Some found)) PolicyNotFound;;
  tx_modify (upd_bindings <[policy_binding_key account_id policy_id := 1]>).

Definition detach_policy (account_id policy_id : bytes) : auth_tx () :=
  tx_modify (upd_bindings (delete (policy_binding_key account_id policy_id))).

(** ** Authorization ([evaluate.rs], [manager.rs]) *)

Definition resource_matches (pattern resource : bytes) : bool :=
  match last pattern with
  | Some b => if b =? star then StdText.starts_with (take (length pattern - 1) pattern) resource
              else bool_decide (pattern = resource)
  | None => bool_decide (pattern = resource)
  end.

Definition statement_applies (permission : Permission) (statement : PolicyStatement) : bool :=
  bool_decide (p_action permission ∈ s_actions statement) &&
  existsb (λ resource, resource_matches resource (p_resource permission)) (s_resources statement).

(** The statements of one policy: an applicable deny ends the evaluation. *)
Fixpoint evaluate_statements (permission : Permission) (allowed : bool) (statements : list PolicyStatement)
    : result AuthorizationError bool :=
  match statements with
  | [] => Ok allowed
  | statement :: rest =>
      if statement_applies permission statement then
        if bool_decide (s_effect statement = Deny) then Err Denied
        else evaluate_statements permission true rest
      else evaluate_statements permission allowed rest
  end.

Fixpoint evaluate_bindings (s : Store) (permission : Permission) (allowed : bool) (bindings : list bytes)
    : result AuthorizationError bool :=
  match bindings with
  | [] => Ok allowed
  | key :: rest =>
      if negb (bool_decide (length key = 32%nat)) then Err BackendUnavailable
      else
        policy ← ok_or BackendUnavailable (POLICIES s !! drop 16 key);
        allowed ← evaluate_statements permission allowed (pol_statements policy);
        evaluate_bindings s permission allowed rest
  end.

Definition evaluate_policies (s : Store) (account_id : bytes) (permission : Permission)
    : result AuthorizationError () :=
  let bound := (table_range account_id (prefix_successor account_id) (POLICY_BINDINGS s)).*1 in
  allowed ← evaluate_bindings s permission false bound;
  if (allowed : bool) then Ok () else Err Denied.

Definition authorize (s : Store) (principal : Principal) (permission : Permission) : result AuthorizationError () :=
  match principal with
  | ServiceAccountPrincipal id _ _ => evaluate_policies s id permission
  | System _ => Ok ()
  | Anonymous => Err Denied
  end.

(** ** Signing credentials ([manager.rs]) *)

Definition verify_root (access_key secret : bytes) : bool :=
  bool_decide (access_key = root_access_key m) && bool_decide (secret = root_secret m).

Definition lookup_service_secret (s : Store) (access_key_id : bytes) (now : Z)
    : result CredentialStoreError (option (Principal * bytes)) :=
  match ACCESS_KEYS s !! access_key_id with
  | None => Ok None
  | Some id =>
      if negb (bool_decide (length id = 16%nat)) && negb (bool_decide (length id = 32%nat)) then Err CorruptIndex
      else
        account_record ← ok_or CorruptIndex (ACCOUNTS s !! take 16 id);
        record ← (if bool_decide (length id = 16%nat) then Ok account_record
                  else ok_or CorruptIndex (ROTATED_CREDENTIALS s !! drop 16 id));
        let credential := si_credential (er_info record) in
        if sa_disabled (si_account (er_info account_record)) || cr_disabled credential ||
           match cr_expires_at credential with Some expiry => expiry <=? now | None => false end
        then Err CredentialInactive
        else
          secret ← decrypt_record record (encryption_key m);
          let account := si_account (er_info record) in
          Ok (Some (ServiceAccountPrincipal (sa_id account) (sa_organization_id account) (Some (cr_id credential)), secret))
  end.

Definition signing_secret (s : Store) (access_key_id : bytes) (now : Z)
    : result CredentialLookupError (Principal * bytes) :=
  if bool_decide (access_key_id = root_access_key m)
  then Ok (System (bytes_of_string "root"), root_secret m)
  else match lookup_service_secret s access_key_id now with
       | Err CredentialInactive => Err Inactive
       | Err _ => Err Backend
       | Ok None => Err UnknownAccessKey
       | Ok (Some found) => Ok found
       end.
End Operations.

End Auth.
