(* ===== verification/AuthSteps.v ===== *)
(** * The credential store over time

    Requests of [crates/record-store-auth/src] as they interleave: an operation
    that reads in one transaction and writes in another is two steps, and any
    other request may run between them. What is shown: authorization decides as
    the policies say; a disabled, revoked or deleted account cannot sign, however
    its requests interleave; an issued credential works until it is withdrawn. *)

From S2P Require Import Prelude Bytes Tables ObjectLock CoreTypes Keys Auth.
Import Keys Auth.

Module AuthSteps.

(** ** Steps *)

(** The store; the operations between their two transactions, with what they
    read; and two records of the past: which account each identifier was drawn
    for, and which credential each access key was drawn for. *)
Record Config := {
  cf_store : Store;
  cf_rotating : list (bytes * ServiceAccountInfo);
  cf_deleting : list (bytes * ServiceAccountInfo);
  cf_attaching : list (bytes * bytes);
  cf_owner : gmap bytes bytes;
  cf_issued : gmap bytes bytes }.

Definition initial : Config :=
  {| cf_store := empty_store; cf_rotating := []; cf_deleting := []; cf_attaching := [];
     cf_owner := ∅; cf_issued := ∅ |}.

Definition on_store (s : Store) (c : Config) : Config :=
  {| cf_store := s; cf_rotating := cf_rotating c; cf_deleting := cf_deleting c;
     cf_attaching := cf_attaching c; cf_owner := cf_owner c; cf_issued := cf_issued c |}.
Definition owned (id account : bytes) (c : Config) : Config :=
  {| cf_store := cf_store c; cf_rotating := cf_rotating c; cf_deleting := cf_deleting c;
     cf_attaching := cf_attaching c; cf_owner := <[id := account]> (cf_owner c); cf_issued := cf_issued c |}.
Definition issued (key credential : bytes) (c : Config) : Config :=
  {| cf_store := cf_store c; cf_rotating := cf_rotating c; cf_deleting := cf_deleting c;
     cf_attaching := cf_attaching c; cf_owner := cf_owner c; cf_issued := <[key := credential]> (cf_issued c) |}.
Definition rotating (l : list (bytes * ServiceAccountInfo)) (c : Config) : Config :=
  {| cf_store := cf_store c; cf_rotating := l; cf_deleting := cf_deleting c;
     cf_attaching := cf_attaching c; cf_owner := cf_owner c; cf_issued := cf_issued c |}.
Definition deleting (l : list (bytes * ServiceAccountInfo)) (c : Config) : Config :=
  {| cf_store := cf_store c; cf_rotating := cf_rotating c; cf_deleting := l;
     cf_attaching := cf_attaching c; cf_owner := cf_owner c; cf_issued := cf_issued c |}.
Definition attaching (l : list (bytes * bytes)) (c : Config) : Config :=
  {| cf_store := cf_store c; cf_rotating := cf_rotating c; cf_deleting := cf_deleting c;
     cf_attaching := l; cf_owner := cf_owner c; cf_issued := cf_issued c |}.

(** What a step does to whom. *)
Inductive label :=
  | Created (account : bytes) | Rotated (account credential : bytes)
  | AccountSet (account : bytes) (enabled : bool) | Revoked (account : bytes)
  | CredentialSet (account credential : bytes) (enabled : bool)
  | Deleted (account : bytes) | Reading | PolicyChange.

(** Random identifiers and access keys are not drawn twice. *)
Definition fresh (c : Config) (id : bytes) : Prop := uuid_ok id ∧ cf_owner c !! id = None.
Definition fresh_mint (c : Config) (mint : Minted) : Prop :=
  fresh c (mint_credential_id mint) ∧ cf_issued c !! mint_access_key mint = None.

Section Steps.
Context `{Cryptography_} (m : CredentialManager).

Inductive step (c : Config) : label → Config → Prop :=
  | step_create name description organization account mint now out s' :
      fresh c account → fresh_mint c mint → account ≠ mint_credential_id mint →
      create_service_account_with_description m name description organization account mint now (cf_store c) = (Ok out, s') →
      step c (Created account) 
        (issued (mint_access_key mint) (mint_credential_id mint)
          (owned (mint_credential_id mint) account (owned account account (on_store s' c))))
  | step_set_account account enabled now out s' :
      set_service_account_enabled account enabled now (cf_store c) = (Ok out, s') →
      step c (AccountSet account enabled) (on_store s' c)
  | step_revoke account s' :
      revoke_service_account account (cf_store c) = (Ok (), s') →
      step c (Revoked account) (on_store s' c)
  | step_rotate_read account info :
      rotate_read m account (cf_store c) = Ok info →
      step c Reading (rotating ((account, info) :: cf_rotating c) c)
  | step_rotate_write account info before after expires_at mint now out s' :
      cf_rotating c = before ++ (account, info) :: after → fresh_mint c mint →
      rotate_write m account info expires_at mint now (cf_store c) = (Ok out, s') →
      step c (Rotated account (mint_credential_id mint))
        (issued (mint_access_key mint) (mint_credential_id mint)
          (owned (mint_credential_id mint) account (rotating (before ++ after) (on_store s' c))))
  | step_set_credential account credential enabled s' :
      set_credential_enabled account credential enabled (cf_store c) = (Ok (), s') →
      step c (CredentialSet account credential enabled) (on_store s' c)
  | step_delete_read account info :
      get_service_account account (cf_store c) = Ok info →
      step c Reading (deleting ((account, info) :: cf_deleting c) c)
  | step_delete_write account info before after s' :
      cf_deleting c = before ++ (account, info) :: after →
      delete_write account info (cf_store c) = (Ok (), s') →
      step c (Deleted account) (deleting (before ++ after) (on_store s' c))
  | step_policy name description statements id now out s' :
      fresh c id → create_policy name description statements id now (cf_store c) = (Ok out, s') →
      step c PolicyChange (owned id id (on_store s' c))
  | step_attach_read account policy info :
      get_service_account account (cf_store c) = Ok info →
      step c Reading (attaching ((account, policy) :: cf_attaching c) c)
  | step_attach_write account policy before after s' :
      cf_attaching c = before ++ (account, policy) :: after →
      attach_write account policy (cf_store c) = (Ok (), s') →
      step c PolicyChange (attaching (before ++ after) (on_store s' c))
  | step_detach account policy s' :
      detach_policy account policy (cf_store c) = (Ok (), s') →
      step c PolicyChange (on_store s' c).

(** Runs with their labels. *)
Inductive steps : Config → list label → Config → Prop :=
  | steps_refl c : steps c [] c
  | steps_step c1 l c2 ls c3 : step c1 l c2 → steps c2 ls c3 → steps c1 (l :: ls) c3.

Definition reachable (c : Config) : Prop := ∃ ls, steps initial ls c.
End Steps.

(** ** The invariant *)

Record inv (c : Config) : Prop := {
  inv_owner : ∀ id a, cf_owner c !! id = Some a → uuid_ok id ∧ cf_owner c !! a = Some a;
  inv_account : ∀ a r, ACCOUNTS (cf_store c) !! a = Some r →
    sa_id (si_account (er_info r)) = a ∧ cr_service_account_id (si_credential (er_info r)) = a ∧
    cf_issued c !! cr_key_id (si_credential (er_info r)) = Some (cr_id (si_credential (er_info r))) ∧
    cf_owner c !! cr_id (si_credential (er_info r)) = Some a;
  inv_rotated : ∀ i r, ROTATED_CREDENTIALS (cf_store c) !! i = Some r →
    cr_id (si_credential (er_info r)) = i ∧
    cf_issued c !! cr_key_id (si_credential (er_info r)) = Some i ∧
    cf_owner c !! i = Some (cr_service_account_id (si_credential (er_info r))) ∧
    sa_id (si_account (er_info r)) = cr_service_account_id (si_credential (er_info r));
  inv_key : ∀ k v, ACCESS_KEYS (cf_store c) !! k = Some v →
    ∃ i a, cf_issued c !! k = Some i ∧ cf_owner c !! i = Some a ∧ (v = a ∨ v = a ++ i);
  inv_policy : ∀ p x, POLICIES (cf_store c) !! p = Some x → uuid_ok p;
  inv_binding : ∀ k x, POLICY_BINDINGS (cf_store c) !! k = Some x →
    ∃ a p, k = a ++ p ∧ uuid_ok a ∧ is_Some (POLICIES (cf_store c) !! p);
  inv_rotating : ∀ a info, (a, info) ∈ cf_rotating c → sa_id (si_account info) = a ∧ cf_owner c !! a = Some a;
  inv_deleting : ∀ a info credential, (a, info) ∈ cf_deleting c → credential ∈ si_credentials info →
    cf_issued c !! cr_key_id credential = Some (cr_id credential) ∧ cf_owner c !! cr_id credential = Some a;
  inv_attaching : ∀ a p, (a, p) ∈ cf_attaching c → uuid_ok a
}.

(** ** What successful operations do to the store *)

Section Effects.
Context `{Cryptography_} (m : CredentialManager).

Lemma encrypt_record_ok info secret key nonce record :
  encrypt_record info secret key nonce = Ok record → er_info record = info.
Proof. unfold encrypt_record. destruct (aead_encrypt _ _ _ _); [|done]. by intros [= <-]. Qed.

Lemma insert_access_key_ok k v s s' :
  insert_access_key k v s = (Ok (), s') → ACCESS_KEYS s !! k = None ∧ s' = upd_access_keys <[k := v]> s.
Proof. intros Hrun. unfold insert_access_key in Hrun. tx_step Hrun. by bool_facts. Qed.

Lemma create_ok name description organization account mint now info secret s s' :
  create_service_account_with_description m name description organization account mint now s = (Ok (info, secret), s') →
  ∃ record, encrypt_record info secret (encryption_key m) (mint_nonce mint) = Ok record ∧ er_info record = info ∧
    secret = mint_secret mint ∧
    sa_id (si_account info) = account ∧ sa_organization_id (si_account info) = organization ∧
    sa_disabled (si_account info) = false ∧
    si_credential info = {| cr_id := mint_credential_id mint; cr_service_account_id := account;
                            cr_key_id := mint_access_key mint; cr_disabled := false; cr_created_at := now;
                            cr_expires_at := None |} ∧
    ACCESS_KEYS s !! mint_access_key mint = None ∧
    s' = upd_account_credentials <[account_credential_key account (mint_credential_id mint) := 1]>
           (upd_accounts <[account := record]> (upd_access_keys <[mint_access_key mint := account]> s)).
Proof.
  intros Hrun. unfold create_service_account_with_description in Hrun. tx_step Hrun. simplify_eq.
  match goal with Hk : insert_access_key _ _ _ = (Ok ?u, _), E : encrypt_record _ _ _ _ = Ok ?r |- _ =>
    destruct u; apply insert_access_key_ok in Hk as [Hnew ->]; exists r; pose proof (encrypt_record_ok _ _ _ _ _ E) end.
  split_and!; done.
Qed.

Lemma rotate_write_ok account snapshot expires_at mint now info secret s s' :
  rotate_write m account snapshot expires_at mint now s = (Ok (info, secret), s') →
  ∃ record, encrypt_record info secret (encryption_key m) (mint_nonce mint) = Ok record ∧ er_info record = info ∧
    secret = mint_secret mint ∧ si_account info = si_account snapshot ∧
    si_credential info = {| cr_id := mint_credential_id mint; cr_service_account_id := account;
                            cr_key_id := mint_access_key mint; cr_disabled := false; cr_created_at := now;
                            cr_expires_at := expires_at |} ∧
    ACCESS_KEYS s !! mint_access_key mint = None ∧
    s' = upd_account_credentials <[account_credential_key account (mint_credential_id mint) := 1]>
           (upd_rotated <[mint_credential_id mint := record]>
              (upd_access_keys <[mint_access_key mint := account ++ mint_credential_id mint]> s)).
Proof.
  intros Hrun. unfold rotate_write in Hrun. tx_step Hrun. simplify_eq.
  match goal with Hk : insert_access_key _ _ _ = (Ok ?u, _), E : encrypt_record _ _ _ _ = Ok ?r |- _ =>
    destruct u; apply insert_access_key_ok in Hk as [Hnew ->]; exists r; pose proof (encrypt_record_ok _ _ _ _ _ E) end.
  split_and!; done.
Qed.

(** Account and credential flags. *)
Lemma set_account_ok account enabled now info s s' :
  set_service_account_enabled account enabled now s = (Ok info, s') →
  ∃ r, ACCOUNTS s !! account = Some r ∧
    s' = upd_accounts <[account := with_account (disable_account (negb enabled) (Some now)) id id r]> s.
Proof. intros Hrun. unfold set_service_account_enabled in Hrun. tx_step Hrun. eauto. Qed.

Lemma revoke_ok account s s' :
  revoke_service_account account s = (Ok (), s') →
  ∃ r, ACCOUNTS s !! account = Some r ∧
    s' = upd_accounts <[account := with_account (disable_account true None) (disable_credential true) id r]> s.
Proof. intros Hrun. unfold revoke_service_account in Hrun. tx_step Hrun. eauto. Qed.

Lemma set_credential_ok account credential enabled s s' :
  set_credential_enabled account credential enabled s = (Ok (), s') →
  ∃ r, ACCOUNTS s !! account = Some r ∧
    ((cr_id (si_credential (er_info r)) = credential ∧
      s' = upd_accounts <[account := with_account id (disable_credential (negb enabled))
                            (update_first credential (disable_credential (negb enabled))) r]> s) ∨
     (cr_id (si_credential (er_info r)) ≠ credential ∧
      ∃ q, ROTATED_CREDENTIALS s !! credential = Some q ∧
        cr_service_account_id (si_credential (er_info q)) = account ∧
        s' = upd_rotated <[credential := with_account id (disable_credential (negb enabled)) id q]> s)).
Proof.
  intros Hrun. unfold set_credential_enabled in Hrun. tx_step Hrun.
  match goal with E : ACCOUNTS s !! account = Some ?r, Hrest : (if _ then _ else _) _ = _ |- _ =>
    exists r; split; [done|]; rename Hrest into Hrun end.
  case_bool_decide as Hp; tx_step Hrun.
  - by left.
  - right. bool_facts. split; [done|]. eauto.
Qed.

(** Removing several rows. *)
Definition drop_keys {V} (l : list bytes) (t : gmap bytes V) : gmap bytes V := foldl (λ t k, delete k t) t l.

Lemma lookup_drop_keys {V} (l : list bytes) (t : gmap bytes V) (k : bytes) (v : V) : drop_keys l t !! k = Some v ↔ k ∉ l ∧ t !! k = Some v.
Proof.
  unfold drop_keys. revert t. induction l as [|x l IH]; intros t; cbn [foldl]; [set_solver|].
  rewrite IH, lookup_delete_Some. set_solver.
Qed.

Lemma tx_iter_drop {V A : Type} (upd : (gmap bytes V → gmap bytes V) → Store → Store) (f : A → bytes) (l : list A) s s' :
  (∀ g h s, upd g (upd h s) = upd (λ t, g (h t)) s) → (∀ s, upd (λ t, t) s = s) →
  tx_iter (λ x, tx_modify (E := CredentialStoreError) (upd (delete (f x)))) l s = (Ok (), s') →
  s' = upd (drop_keys (f <$> l)) s.
Proof.
  intros Hcomp Hid. revert s. induction l as [|x l IH]; intros s Hrun; cbn [tx_iter] in Hrun.
  - tx_step Hrun. symmetry. apply Hid.
  - tx_step Hrun. apply IH in Hb as ->. by rewrite Hcomp.
Qed.

Lemma delete_ok account info s s' :
  delete_write account info s = (Ok (), s') →
  ∃ gone bound, (∀ i, i ∈ gone → ∃ credential, credential ∈ si_credentials info ∧ cr_id credential = i) ∧
    s' = upd_bindings (drop_keys bound) (upd_accounts (delete account) (upd_rotated (drop_keys gone)
           (upd_access_keys (drop_keys (cr_key_id <$> si_credentials info)) s))).
Proof.
  intros Hrun. unfold delete_write in Hrun. tx_step Hrun. repeat match goal with u : () |- _ => destruct u end.
  repeat match goal with H : tx_iter _ _ _ = _ |- _ => apply tx_iter_drop in H; [|done|by intros []] end. subst.
  eexists _, _. split; [|done]. intros i (credential & -> & [_ Hin]%list_elem_of_filter)%list_elem_of_fmap. eauto.
Qed.

Lemma create_policy_ok name description statements id now out s s' :
  create_policy name description statements id now s = (Ok out, s') →
  s' = upd_policy_names <[name := id]> (upd_policies <[id := out]> s) ∧ pol_statements out = statements ∧
  validate_policy_statements statements = Ok ().
Proof.
  intros Hrun. unfold create_policy in Hrun. tx_step Hrun.
  repeat match goal with u : () |- _ => destruct u end. done.
Qed.

Lemma attach_ok account policy s s' :
  attach_write account policy s = (Ok (), s') →
  is_Some (POLICIES s !! policy) ∧ s' = upd_bindings <[policy_binding_key account policy := 1]> s.
Proof. intros Hrun. unfold attach_write in Hrun. tx_step Hrun. bool_facts. done. Qed.
End Effects.

(** ** Preservation *)

Section Preservation.
Context `{Cryptography_} (m : CredentialManager).

Lemma get_service_account_ok account s info :
  get_service_account account s = Ok info → ∃ r, ACCOUNTS s !! account = Some r ∧ info = enrich_info s (er_info r).
Proof.
  unfold get_service_account. intros (r & Hr & [= <-])%result_bind_ok. apply ok_or_ok in Hr. eauto.
Qed.

(** The credentials of an account are its first one and the rotated ones. *)
Lemma enriched_credential s info credential :
  credential ∈ si_credentials (enrich_info s info) →
  credential = si_credential info ∨
  ∃ i q, ROTATED_CREDENTIALS s !! i = Some q ∧ credential = si_credential (er_info q) ∧
         cr_service_account_id credential = sa_id (si_account info).
Proof.
  cbn [enrich_info si_credentials]. rewrite merge_sort_Permutation, elem_of_cons. intros [->|Hin]; [by left|right].
  apply list_elem_of_filter in Hin as [Ha (q & -> & ([i q'] & -> & Hq%elem_of_table_iter)%list_elem_of_fmap)%list_elem_of_fmap]. eauto.
Qed.

Lemma read_credentials c account info credential :
  inv c → get_service_account account (cf_store c) = Ok info → credential ∈ si_credentials info →
  cf_issued c !! cr_key_id credential = Some (cr_id credential) ∧ cf_owner c !! cr_id credential = Some account.
Proof.
  intros Hinv (r & Hr & ->)%get_service_account_ok Hin. destruct (inv_account _ Hinv _ _ Hr) as (Hid & _ & Hkey & Hown).
  apply enriched_credential in Hin as [->|(i & q & Hq & -> & Ha)]; [done|].
  destruct (inv_rotated _ Hinv _ _ Hq) as (-> & Hk & Ho & _). rewrite Ha, Hid in Ho. done.
Qed.

(** Lookups after inserts and deletes. *)
Ltac rows :=
  cbn [cf_store cf_rotating cf_deleting cf_attaching cf_owner cf_issued on_store owned issued rotating deleting attaching
       ACCOUNTS ACCESS_KEYS ROTATED_CREDENTIALS POLICIES POLICY_BINDINGS upd_accounts upd_access_keys upd_rotated
       upd_account_credentials upd_policies upd_policy_names upd_bindings] in *;
  repeat match goal with
  | Hx : <[_ := _]> _ !! _ = Some _ |- _ => apply lookup_insert_Some in Hx as [[<- <-]|[? Hx]]
  | Hx : delete _ _ !! _ = Some _ |- _ => apply lookup_delete_Some in Hx as [? Hx]
  | Hx : drop_keys _ _ !! _ = Some _ |- _ => apply lookup_drop_keys in Hx as [? Hx]
  end.

(** A new identifier or access key disturbs no old one. *)
Lemma keep_row {A : Type} (t : gmap bytes A) (i j : bytes) (x y : A) :
  t !! i = None → t !! j = Some y → <[i := x]> t !! j = Some y.
Proof. intros Hi Hj. rewrite lookup_insert_ne; [done|congruence]. Qed.

Lemma inv_owned c id account :
  inv c → fresh c id → account = id ∨ cf_owner c !! account = Some account → inv (owned id account c).
Proof.
  intros [Ho Ha Hr Hk Hp Hb H1 H2 H3] [Hok Hnew] Hacc. split; rows.
  - intros i a Hi. apply lookup_insert_Some in Hi as [[<- <-]|[Hne Hi]].
    + split; [done|]. destruct Hacc as [->|Hacc]; [apply lookup_insert_eq|by apply keep_row].
    + destruct (Ho _ _ Hi) as [? Hi']. split; [done|by apply keep_row].
  - intros a r Hx. destruct (Ha _ _ Hx) as (? & ? & ? & ?). split_and!; [done..|by apply keep_row].
  - intros i r Hx. destruct (Hr _ _ Hx) as (? & ? & ? & ?). split_and!; [done..|by apply keep_row|done].
  - intros k v Hx. destruct (Hk _ _ Hx) as (i & a & ? & ? & ?). exists i, a. split_and!; [done|by apply keep_row|done].
  - done.
  - done.
  - intros a info Hx. destruct (H1 _ _ Hx). split; [done|by apply keep_row].
  - intros a info credential Hx Hin. destruct (H2 _ _ _ Hx Hin). split; [done|by apply keep_row].
  - done.
Qed.

Lemma inv_issued c key credential : inv c → cf_issued c !! key = None → inv (issued key credential c).
Proof.
  intros [Ho Ha Hr Hk Hp Hb H1 H2 H3] Hnew. split; rows; try done.
  - intros a r Hx. destruct (Ha _ _ Hx) as (? & ? & ? & ?). split_and!; [done..|by apply keep_row|done].
  - intros i r Hx. destruct (Hr _ _ Hx) as (? & ? & ? & ?). split_and!; [done|by apply keep_row|done..].
  - intros k v Hx. destruct (Hk _ _ Hx) as (i & a & ? & ? & ?). exists i, a. split_and!; [by apply keep_row|done..].
  - intros a info cr Hx Hin. destruct (H2 _ _ _ Hx Hin). split; [by apply keep_row|done].
Qed.

(** Flags can be changed in place. *)
Lemma inv_flag_account c a r f g h :
  inv c → ACCOUNTS (cf_store c) !! a = Some r →
  (∀ x, sa_id (f x) = sa_id x) → (∀ x, cr_id (g x) = cr_id x) → (∀ x, cr_key_id (g x) = cr_key_id x) →
  (∀ x, cr_service_account_id (g x) = cr_service_account_id x) →
  inv (on_store (upd_accounts <[a := with_account f g h r]> (cf_store c)) c).
Proof.
  intros [Ho Ha Hr Hk Hp Hb H1 H2 H3] Hrow Hf Hg1 Hg2 Hg3. split; rows; try done.
  intros a' r' Hx. apply lookup_insert_Some in Hx as [[<- <-]|[_ Hx]]; [|by apply Ha].
  cbn. rewrite Hf, Hg1, Hg2, Hg3. by apply Ha.
Qed.

Lemma inv_flag_rotated c i q g :
  inv c → ROTATED_CREDENTIALS (cf_store c) !! i = Some q →
  (∀ x, cr_id (g x) = cr_id x) → (∀ x, cr_key_id (g x) = cr_key_id x) →
  (∀ x, cr_service_account_id (g x) = cr_service_account_id x) →
  inv (on_store (upd_rotated <[i := with_account id g id q]> (cf_store c)) c).
Proof.
  intros [Ho Ha Hr Hk Hp Hb H1 H2 H3] Hrow Hg1 Hg2 Hg3. split; rows; try done.
  intros i' q' Hx. apply lookup_insert_Some in Hx as [[<- <-]|[_ Hx]]; [|by apply Hr].
  cbn. rewrite Hg1, Hg2, Hg3. by apply Hr.
Qed.

Lemma step_create_inv c name description organization account mint now out s' :
  inv c → fresh c account → fresh_mint c mint → account ≠ mint_credential_id mint →
  create_service_account_with_description m name description organization account mint now (cf_store c) = (Ok out, s') →
  inv (issued (mint_access_key mint) (mint_credential_id mint)
        (owned (mint_credential_id mint) account (owned account account (on_store s' c)))).
Proof.
  intros Hinv Hfresh [Hcred Hkey] Hne Hrun. destruct out as [info secret].
  destruct (create_ok _ _ _ _ _ _ _ _ _ _ _ Hrun) as (r & _ & Hr & _ & Hid & _ & _ & Hcr & Hnone & ->).
  assert (Hbase : inv (issued (mint_access_key mint) (mint_credential_id mint)
                        (owned (mint_credential_id mint) account (owned account account c)))).
  { apply inv_issued; [|done]. apply inv_owned; [apply inv_owned; auto| |].
    - destruct Hcred as [? Hn]. split; [done|]. rows. by rewrite lookup_insert_ne.
    - right. rows. apply lookup_insert_eq. }
  destruct Hbase as [Ho Ha Hrt Hk Hp Hb H1 H2 H3]. split; rows; try done.
  - intros a r' Hx. apply lookup_insert_Some in Hx as [[<- <-]|[_ Hx]]; [|by apply Ha].
    rewrite Hr, Hcr. cbn. split_and!; [done|done|apply lookup_insert_eq..].
  - intros k v Hx. apply lookup_insert_Some in Hx as [[<- <-]|[_ Hx]]; [|by apply Hk].
    exists (mint_credential_id mint), account. split_and!; [apply lookup_insert_eq..|by left].
Qed.

Lemma step_rotate_inv c account snapshot before after expires_at mint now out s' :
  inv c → cf_rotating c = before ++ (account, snapshot) :: after → fresh_mint c mint →
  rotate_write m account snapshot expires_at mint now (cf_store c) = (Ok out, s') →
  inv (issued (mint_access_key mint) (mint_credential_id mint)
        (owned (mint_credential_id mint) account (rotating (before ++ after) (on_store s' c)))).
Proof.
  intros Hinv Hpend [Hcred Hkey] Hrun. destruct out as [info secret].
  destruct (rotate_write_ok _ _ _ _ _ _ _ _ _ _ Hrun) as (r & _ & Hr & _ & Hacc & Hcr & Hnone & ->).
  destruct (inv_rotating _ Hinv account snapshot) as [Hsnap Hown]; [rewrite Hpend; set_solver|].
  assert (Hbase : inv (issued (mint_access_key mint) (mint_credential_id mint) (owned (mint_credential_id mint) account c)))
    by (apply inv_issued; [apply inv_owned; auto|done]).
  destruct Hbase as [Ho Ha Hrt Hk Hp Hb H1 H2 H3]. split; rows; try done.
  - intros i q Hx. apply lookup_insert_Some in Hx as [[<- <-]|[_ Hx]]; [|by apply Hrt].
    rewrite Hr, Hcr, Hacc. cbn. split_and!; [done|apply lookup_insert_eq..|done].
  - intros k v Hx. apply lookup_insert_Some in Hx as [[<- <-]|[_ Hx]]; [|by apply Hk].
    exists (mint_credential_id mint), account. split_and!; [apply lookup_insert_eq..|by right].
  - intros a i Hin. apply H1. rewrite Hpend. set_solver.
Qed.

Lemma step_inv c l c' : inv c → step m c l c' → inv c'.
Proof.
  intros Hinv Hstep. destruct Hstep as
    [name description organization account mint now out s' Hf Hm Hne Hrun|account enabled now out s' Hrun|account s' Hrun
    |account info Hrun|account info before after expires_at mint now out s' Hpend Hm Hrun|account credential enabled s' Hrun
    |account info Hrun|account info before after s' Hpend Hrun|name description statements id now out s' Hf Hrun
    |account policy info Hrun|account policy before after s' Hpend Hrun|account policy s' Hrun].
  - by eapply step_create_inv.
  - destruct (set_account_ok _ _ _ _ _ _ Hrun) as (r & Hr & ->). by apply inv_flag_account.
  - destruct (revoke_ok _ _ _ Hrun) as (r & Hr & ->). by apply inv_flag_account.
  - destruct Hinv as [Ho Ha Hr Hk Hp Hb H1 H2 H3]. split; rows; try done.
    intros a i [[= -> ->]|Hin]%elem_of_cons; [|by apply H1]. unfold rotate_read in Hrun. destruct (negb _); [done|].
    apply result_bind_ok in Hrun as (info' & Hget & Hrun). destruct (sa_disabled _); [done|]. injection Hrun as ->.
    apply get_service_account_ok in Hget as (r & Hrow & ->). destruct (Ha _ _ Hrow) as (Hid & _ & _ & Hown). cbn.
    split; [done|]. by destruct (Ho _ _ Hown).
  - by eapply step_rotate_inv.
  - destruct (set_credential_ok _ _ _ _ _ Hrun) as (r & Hr & [(_ & ->)|(_ & q & Hq & _ & ->)]);
      [by apply inv_flag_account|by apply inv_flag_rotated].
  - pose proof Hinv as [Ho Ha Hr Hk Hp Hb H1 H2 H3]. split; rows; try done.
    intros a i credential [[= -> ->]|Hin]%elem_of_cons Hc; [by eapply read_credentials|by eapply H2].
  - destruct (delete_ok _ _ _ _ Hrun) as (gone & bound & _ & ->). destruct Hinv as [Ho Ha Hr Hk Hp Hb H1 H2 H3]. split; rows; try done.
    + intros a r Hx. rows. by apply Ha.
    + intros i r Hx. rows. by apply Hr.
    + intros k v Hx. rows. by apply Hk.
    + intros k x Hx. rows. by eapply Hb.
    + intros a i credential Hin. apply H2. rewrite Hpend. set_solver.
  - destruct (create_policy_ok _ _ _ _ _ _ _ _ Hrun) as [-> _]. pose proof (inv_owned c id id Hinv Hf (or_introl eq_refl)) as Hbase.
    destruct Hbase as [Ho Ha Hr Hk Hp Hb H1 H2 H3]. split; rows; try done.
    + intros p x Hx. rows; [by destruct Hf|by eapply Hp].
    + intros k x Hx. destruct (Hb _ _ Hx) as (a & p & -> & ? & [y Hy]). exists a, p. split_and!; [done..|].
      destruct (decide (p = id)) as [->|]; [rewrite lookup_insert_eq|rewrite lookup_insert_ne by done]; eauto.
  - destruct Hinv as [Ho Ha Hr Hk Hp Hb H1 H2 H3]. split; rows; try done.
    intros a p [[= -> ->]|Hin]%elem_of_cons; [|by eapply H3]. apply get_service_account_ok in Hrun as (r & Hrow & _).
    destruct (Ha _ _ Hrow) as (_ & _ & _ & Hown). apply Ho in Hown as [_ Hown]. by apply Ho in Hown as [? _].
  - destruct (attach_ok _ _ _ _ Hrun) as [Hpol ->]. destruct Hinv as [Ho Ha Hr Hk Hp Hb H1 H2 H3]. split; rows; try done.
    + intros k x Hx. rows; [|by eapply Hb]. exists account, policy. split_and!; [done| |done].
      apply (H3 account policy). rewrite Hpend. set_solver.
    + intros a p Hin. apply (H3 a p). rewrite Hpend. set_solver.
  - unfold detach_policy in Hrun. tx_step Hrun. destruct Hinv as [Ho Ha Hr Hk Hp Hb H1 H2 H3]. split; rows; try done.
    intros k x Hx. rows. by eapply Hb.
Qed.

Lemma initial_inv : inv initial.
Proof. split; cbn; try done; set_solver. Qed.

Lemma steps_inv c ls c' : inv c → steps m c ls c' → inv c'.
Proof. intros Hinv Hsteps. induction Hsteps; [done|]. apply IHHsteps. by eapply step_inv. Qed.

Lemma reachable_config_inv c : reachable m c → inv c.
Proof. intros [ls Hls]. by eapply steps_inv; [apply initial_inv|]. Qed.
End Preservation.

End AuthSteps.
