(* ===== verification/AuthTheorems.v ===== *)
(** * What credentials and policies promise

    Theorems about every configuration of the credential store that requests can
    lead to, in any interleaving ([AuthSteps]). *)

From S2P Require Import Prelude Bytes Text Tables ObjectLock CoreTypes Keys Auth AuthSteps.
Import Keys Auth AuthSteps.

Module AuthTheorems.

(** ** What policies say *)

(** A pattern that ends in a star stands for everything with the prefix before
    it, any other pattern for itself. *)
Definition pattern_covers (pattern resource : bytes) : Prop :=
  (∃ prefix, pattern = prefix ++ [star] ∧ prefix `prefix_of` resource) ∨
  (last pattern ≠ Some star ∧ pattern = resource).

Lemma resource_matches_spec pattern resource :
  resource_matches pattern resource = true ↔ pattern_covers pattern resource.
Proof.
  unfold resource_matches, pattern_covers. destruct pattern as [|x l _] using rev_ind.
  - cbn. rewrite bool_decide_eq_true. split; [auto|]. intros [(p & Hp & _)|[_ ?]]; [by destruct p|done].
  - rewrite last_snoc, length_app, Nat.add_sub. rewrite take_app_length. destruct (Z.eqb_spec x star) as [->|Hx].
    + unfold StdText.starts_with. rewrite bool_decide_eq_true. split; [by left; exists l|].
      intros [(p & [-> _]%app_inj_tail & Hp)|[? _]]; done.
    + rewrite bool_decide_eq_true. split; [right; split; [congruence|done]|].
      intros [(p & [_ ?]%app_inj_tail & _)|[_ ?]]; done.
Qed.

Definition covers (permission : Permission) (statement : PolicyStatement) : Prop :=
  p_action permission ∈ s_actions statement ∧
  ∃ pattern, pattern ∈ s_resources statement ∧ pattern_covers pattern (p_resource permission).

Lemma statement_applies_spec permission statement :
  statement_applies permission statement = true ↔ covers permission statement.
Proof.
  unfold statement_applies, covers. rewrite andb_true_iff, bool_decide_eq_true, existsb_exists.
  setoid_rewrite resource_matches_spec. setoid_rewrite list_elem_of_In. done.
Qed.

(** A policy attached to the account has a statement of the effect that covers
    the permission. *)
Definition policies_say (s : Store) (account : bytes) (permission : Permission) (effect : PolicyEffect) : Prop :=
  ∃ policy_id policy statement,
    is_Some (POLICY_BINDINGS s !! policy_binding_key account policy_id) ∧
    POLICIES s !! policy_id = Some policy ∧ statement ∈ pol_statements policy ∧
    s_effect statement = effect ∧ covers permission statement.

(** ** Evaluation *)

Definition said (permission : Permission) (effect : PolicyEffect) (statements : list PolicyStatement) : Prop :=
  ∃ statement, statement ∈ statements ∧ s_effect statement = effect ∧ covers permission statement.

Lemma said_cons permission effect statement statements :
  said permission effect (statement :: statements) ↔
  (s_effect statement = effect ∧ covers permission statement) ∨ said permission effect statements.
Proof. unfold said. setoid_rewrite elem_of_cons. naive_solver. Qed.

Lemma said_app permission effect l k :
  said permission effect (l ++ k) ↔ said permission effect l ∨ said permission effect k.
Proof. unfold said. setoid_rewrite elem_of_app. naive_solver. Qed.

(** The verdict of evaluating statements, [allowed] being what was allowed before. *)
Definition verdict (permission : Permission) (allowed : bool) (statements : list PolicyStatement)
    (r : result AuthorizationError bool) : Prop :=
  (said permission Deny statements ∧ r = Err Denied) ∨
  (¬ said permission Deny statements ∧
   ∃ b, r = Ok b ∧ (b = true ↔ allowed = true ∨ said permission Allow statements)).

Lemma verdict_nil permission allowed : verdict permission allowed [] (Ok allowed).
Proof.
  right. assert (Hno : ∀ e, ¬ said permission e []) by (intros e (x & Hx & _); by apply not_elem_of_nil in Hx).
  split; [apply Hno|]. exists allowed. split; [done|]. split; [auto|]. intros [?|?%Hno]; done.
Qed.

Lemma evaluate_statements_verdict permission allowed statements :
  verdict permission allowed statements (evaluate_statements permission allowed statements).
Proof.
  revert allowed. induction statements as [|statement statements IH]; intros allowed; cbn [evaluate_statements]; [apply verdict_nil|].
  unfold verdict. setoid_rewrite said_cons. destruct (statement_applies permission statement) eqn:Happ.
  - apply statement_applies_spec in Happ. case_bool_decide as Heff; [left; split; [by left|done]|].
    assert (Hallow : s_effect statement = Allow) by (by destruct (s_effect statement)).
    destruct (IH true) as [[Hd ->]|(Hd & b & -> & Hb)]; [left; split; [by right|done]|right].
    split; [intros [[? _]|?]; [congruence|done]|]. exists b. split; [done|]. split; [auto|]. intros _. apply Hb. by left.
  - assert (Hno : ¬ covers permission statement) by (rewrite <-statement_applies_spec; congruence).
    destruct (IH allowed) as [[Hd ->]|(Hd & b & -> & Hb)]; [left; split; [by right|done]|right].
    split; [tauto|]. exists b. split; [done|]. rewrite Hb. tauto.
Qed.

Lemma evaluate_bindings_verdict s permission allowed keys policies :
  Forall2 (λ key policy, length key = 32%nat ∧ POLICIES s !! drop 16 key = Some policy) keys policies →
  verdict permission allowed (policies ≫= pol_statements) (evaluate_bindings s permission allowed keys).
Proof.
  intros Hall. revert allowed. induction Hall as [|key policy keys policies [Hl Hp] _ IH]; intros allowed; cbn [evaluate_bindings].
  { apply verdict_nil. }
  rewrite bool_decide_true by done. cbn [negb]. rewrite Hp. cbn [ok_or mbind result_bind].
  change (policy :: policies ≫= pol_statements) with (pol_statements policy ++ (policies ≫= pol_statements)).
  unfold verdict. setoid_rewrite said_app.
  destruct (evaluate_statements_verdict permission allowed (pol_statements policy)) as [[Hd ->]|(Hd & b & -> & Hb)]; [left; auto|].
  cbn [mbind result_bind]. destruct (IH b) as [[Hd' ->]|(Hd' & b' & -> & Hb')]; [left; auto|right].
  split; [tauto|]. exists b'. split; [done|]. rewrite Hb', Hb. tauto.
Qed.

(** ** The bindings of an account *)

Section Bindings.
Context (c : Config) (Hinv : inv c) (account : bytes) (Hv4 : is_v4 account).

Let keys := (table_range account (prefix_successor account) (POLICY_BINDINGS (cf_store c))).*1.

Lemma bound_keys key :
  key ∈ keys ↔ ∃ policy_id, key = policy_binding_key account policy_id ∧
                            is_Some (POLICY_BINDINGS (cf_store c) !! key).
Proof.
  unfold keys. rewrite list_elem_of_fmap. split.
  - intros ([k x] & -> & [Hk Hr]%elem_of_table_range). cbn. destruct (inv_binding _ Hinv _ _ Hk) as (a & p & -> & Ha & [pol Hp]).
    apply (inv_policy _ Hinv) in Hp as Hpok. apply prefix_range_sound in Hr as [rest Heq].
    + apply app_inj_len in Heq as [<- _]; [|destruct Ha, Hv4 as [[] _]; congruence]. exists p. eauto.
    + apply Forall_app. split; [apply Ha|apply Hpok].
  - intros (p & -> & [x Hx]). exists (policy_binding_key account p, x). split; [done|]. apply elem_of_table_range.
    split; [done|]. apply prefix_range_complete. right. by apply v4_successor.
Qed.

Lemma bound_policies :
  ∃ policies, Forall2 (λ key policy, length key = 32%nat ∧ POLICIES (cf_store c) !! drop 16 key = Some policy) keys policies ∧
    ∀ permission effect, said permission effect (policies ≫= pol_statements) ↔ policies_say (cf_store c) account permission effect.
Proof.
  assert (Hall : Forall (λ key, ∃ policy, length key = 32%nat ∧ POLICIES (cf_store c) !! drop 16 key = Some policy) keys).
  { apply Forall_forall. intros key (p & -> & [x Hx])%bound_keys.
    destruct (inv_binding _ Hinv _ _ Hx) as (a & p' & Heq & Ha & [pol Hpol]). destruct Hv4 as [[Hl _] _].
    apply app_inj_len in Heq as [-> ->]; [|destruct Ha; congruence]. apply (inv_policy _ Hinv) in Hpol as Hok. destruct Hok as [Hl' _].
    exists pol. unfold policy_binding_key. rewrite length_app, drop_app_length' by done. split; [lia|done]. }
  apply Forall_exists_Forall2_l in Hall as (policies & Hall). exists policies. split; [done|]. intros permission effect.
  unfold said, policies_say. split.
  - intros (st & (pol & Hst & Hpol)%list_elem_of_bind & He & Hc). apply list_elem_of_lookup_1 in Hpol as [n Hn].
    destruct (Forall2_lookup_r _ _ _ _ _ Hall Hn) as (key & Hkey & Hl & Hp). apply list_elem_of_lookup_2 in Hkey.
    apply bound_keys in Hkey as (p & -> & Hb). unfold policy_binding_key in Hp. rewrite drop_app_length' in Hp by (by apply v4_length).
    exists p, pol, st. done.
  - intros (p & pol & st & Hb & Hpol & Hst & He & Hc). exists st. split; [|done]. apply list_elem_of_bind. exists pol. split; [done|].
    assert (Hkey : policy_binding_key account p ∈ keys) by (apply bound_keys; eauto).
    apply list_elem_of_lookup_1 in Hkey as [n Hn]. destruct (Forall2_lookup_l _ _ _ _ _ Hall Hn) as (pol' & Hn' & _ & Hp).
    unfold policy_binding_key in Hp. rewrite drop_app_length' in Hp by (by apply v4_length). simplify_eq. by eapply list_elem_of_lookup_2.
Qed.

Lemma authorize_verdict organization credential permission :
  let r := authorize (cf_store c) (ServiceAccountPrincipal account organization credential) permission in
  let granted := policies_say (cf_store c) account permission Allow ∧ ¬ policies_say (cf_store c) account permission Deny in
  (r = Ok () ∧ granted) ∨ (r = Err Denied ∧ ¬ granted).
Proof.
  cbn [authorize]. unfold evaluate_policies. fold keys. destruct bound_policies as (policies & Hall & Hsay).
  destruct (evaluate_bindings_verdict (cf_store c) permission false keys policies Hall) as [[Hd ->]|(Hd & b & -> & Hb)];
    rewrite !Hsay in *; cbn [mbind result_bind].
  - right. tauto.
  - destruct b; [left|right]; (split; [done|]).
    + split; [|done]. destruct (proj1 Hb eq_refl) as [?|?]; done.
    + intros [Ha _]. assert (false = true) by (apply Hb; by right). done.
Qed.
End Bindings.

(** ** Lookups *)

Section Lookups.
Context `{Cryptography_} (m : CredentialManager).

Definition expired (credential : Credential) (now : Z) : bool :=
  match cr_expires_at credential with Some expiry => expiry <=? now | None => false end.

(** The credential behind an access key: the first one of its account, or a
    rotated one. *)
Definition signs_with (s : Store) (key account : bytes) (r : EncryptedCredentialRecord) : Prop :=
  (ACCESS_KEYS s !! key = Some account ∧ ACCOUNTS s !! account = Some r) ∨
  (ACCESS_KEYS s !! key = Some (account ++ cr_id (si_credential (er_info r))) ∧
   ROTATED_CREDENTIALS s !! cr_id (si_credential (er_info r)) = Some r).

(** A key that signs for an account belongs to a credential of the account, and
    both are enabled. *)
Lemma signing_secret_inv c key now account organization credential secret :
  inv c → signing_secret m (cf_store c) key now = Ok (ServiceAccountPrincipal account organization credential, secret) →
  ∃ a, ACCOUNTS (cf_store c) !! account = Some a ∧ sa_disabled (si_account (er_info a)) = false.
Proof.
  intros Hinv. unfold signing_secret. case_bool_decide; [done|]. unfold lookup_service_secret.
  destruct (ACCESS_KEYS (cf_store c) !! key) as [v|] eqn:Hkey; [|done].
  destruct (inv_key _ Hinv _ _ Hkey) as (i & a & Hi & Ho & Hv).
  destruct (inv_owner _ Hinv _ _ Ho) as [[Hli _] Ha]. destruct (inv_owner _ Hinv _ _ Ha) as [[Hla _] _].
  assert (Htake : take 16 v = a) by (destruct Hv as [->| ->]; [by rewrite take_ge by lia|by rewrite take_app_length' by done]).
  destruct (_ && _); [done|]. rewrite Htake.
  destruct (ACCOUNTS (cf_store c) !! a) as [ar|] eqn:Har; [|done]. cbn [ok_or mbind result_bind].
  case_bool_decide as Hlen; cbn [mbind result_bind].
  - destruct (sa_disabled (si_account (er_info ar))) eqn:Hd; [done|]. destruct (_ || _); [done|].
    destruct (decrypt_record _ _); [|by destruct e]. cbn. intros [= <- _ _ _].
    destruct (inv_account _ Hinv _ _ Har) as [-> _]. eauto.
  - assert (Hdrop : drop 16 v = i) by (destruct Hv as [->| ->]; [congruence|by rewrite drop_app_length' by done]).
    rewrite Hdrop. destruct (ROTATED_CREDENTIALS (cf_store c) !! i) as [q|] eqn:Hq; [|done]. cbn [ok_or mbind result_bind].
    destruct (sa_disabled (si_account (er_info ar))) eqn:Hd; [done|]. destruct (_ || _); [done|].
    destruct (decrypt_record _ _); [|by destruct e]. cbn. intros [= <- _ _ _].
    destruct (inv_rotated _ Hinv _ _ Hq) as (_ & _ & Ho' & ->). rewrite Ho in Ho'. injection Ho' as <-. eauto.
Qed.

(** ** Withdrawn accounts *)

(** Disabled, revoked or deleted. *)
Definition withdrawn (c : Config) (account : bytes) : Prop :=
  cf_owner c !! account = Some account ∧
  ∀ r, ACCOUNTS (cf_store c) !! account = Some r → sa_disabled (si_account (er_info r)) = true.

(** No step of the run enables the account again. *)
Definition not_enabling (account : bytes) (l : label) : Prop := l ≠ AccountSet account true.

Ltac table_rows :=
  cbn [cf_store cf_rotating cf_deleting cf_attaching cf_owner cf_issued on_store owned issued rotating deleting attaching
       ACCOUNTS ACCESS_KEYS ROTATED_CREDENTIALS POLICIES POLICY_BINDINGS upd_accounts upd_access_keys upd_rotated
       upd_account_credentials upd_policies upd_policy_names upd_bindings] in *.

Lemma step_withdrawn c l c' account :
  step m c l c' → not_enabling account l → withdrawn c account → withdrawn c' account.
Proof.
  intros Hstep Hl [Hown Hoff]. destruct Hstep as
    [name description organization account' mint now out s' [Hf1 Hf2] Hm Hne Hrun|account' enabled now out s' Hrun|account' s' Hrun
    |account' info Hrun|account' info before after expires_at mint now out s' Hpend [[_ Hm] _] Hrun|account' credential enabled s' Hrun
    |account' info Hrun|account' info before after s' Hpend Hrun|name description statements id now out s' [Hf1 Hf2] Hrun
    |account' policy info Hrun|account' policy before after s' Hpend Hrun|account' policy s' Hrun].
  - destruct out as [info secret]. destruct (create_ok _ _ _ _ _ _ _ _ _ _ _ Hrun) as (r & _ & _ & _ & _ & _ & _ & _ & _ & ->).
    destruct Hm as [[_ Hm] _]. split; table_rows.
    + apply keep_row; [|by apply keep_row]. by rewrite lookup_insert_ne.
    + intros r' [[<- _]|[_ Hx]]%lookup_insert_Some; [congruence|by apply Hoff].
  - destruct (set_account_ok _ _ _ _ _ _ Hrun) as (r & Hr & ->). split; table_rows; [done|].
    intros r' [[<- <-]|[_ Hx]]%lookup_insert_Some; [|by apply Hoff]. cbn. destruct enabled; [by destruct Hl|done].
  - destruct (revoke_ok _ _ _ Hrun) as (r & Hr & ->). split; table_rows; [done|].
    intros r' [[<- <-]|[_ Hx]]%lookup_insert_Some; [done|by apply Hoff].
  - done.
  - destruct out as [info' secret]. destruct (rotate_write_ok _ _ _ _ _ _ _ _ _ _ Hrun) as (r & _ & _ & _ & _ & _ & _ & ->).
    split; table_rows; [by apply keep_row|done].
  - destruct (set_credential_ok _ _ _ _ _ Hrun) as (r & Hr & [(_ & ->)|(_ & q & Hq & _ & ->)]); split; table_rows; try done.
    intros r' [[<- <-]|[_ Hx]]%lookup_insert_Some; [cbn; by apply Hoff|by apply Hoff].
  - done.
  - destruct (delete_ok _ _ _ _ Hrun) as (gone & bound & _ & ->). split; table_rows; [done|].
    intros r' [_ Hx]%lookup_delete_Some. by apply Hoff.
  - destruct (create_policy_ok _ _ _ _ _ _ _ _ Hrun) as [-> _]. split; table_rows; [by apply keep_row|done].
  - done.
  - destruct (attach_ok _ _ _ _ Hrun) as [_ ->]. done.
  - unfold detach_policy in Hrun. tx_step Hrun. done.
Qed.

Lemma steps_withdrawn c ls c' account :
  steps m c ls c' → Forall (not_enabling account) ls → withdrawn c account → withdrawn c' account.
Proof.
  induction 1 as [|c1 l c2 ls c3 Hs _ IH]; intros Hls Hw; [done|]. apply Forall_cons in Hls as [Hl Hls].
  apply IH; [done|]. by eapply step_withdrawn.
Qed.

(** ** Credentials in use *)

(** What a record must be for its credential to sign. *)
Record record_works (key account credential organization secret : bytes) (expiry : option Z)
    (r : EncryptedCredentialRecord) : Prop := {
  rw_key : cr_key_id (si_credential (er_info r)) = key;
  rw_id : cr_id (si_credential (er_info r)) = credential;
  rw_enabled : cr_disabled (si_credential (er_info r)) = false;
  rw_expiry : cr_expires_at (si_credential (er_info r)) = expiry;
  rw_account : sa_id (si_account (er_info r)) = account;
  rw_organization : sa_organization_id (si_account (er_info r)) = organization;
  rw_secret : decrypt_record r (encryption_key m) = Ok secret }.

Definition works (c : Config) (key account credential organization secret : bytes) (expiry : option Z) : Prop :=
  ∃ r a, signs_with (cf_store c) key account r ∧ record_works key account credential organization secret expiry r ∧
    ACCOUNTS (cf_store c) !! account = Some a ∧ sa_disabled (si_account (er_info a)) = false.

Lemma works_signs c key account credential organization secret expiry now :
  inv c → works c key account credential organization secret expiry → key ≠ root_access_key m →
  match expiry with Some e => now < e | None => True end →
  signing_secret m (cf_store c) key now = Ok (ServiceAccountPrincipal account organization (Some credential), secret).
Proof.
  intros Hinv (r & a & Hsign & [Hkid Hid Hen Hexp Hacc Horg Hsec] & Ha & Hoff) Hroot Hnow.
  unfold signing_secret. rewrite bool_decide_false by done. unfold lookup_service_secret.
  destruct (inv_account _ Hinv _ _ Ha) as (_ & _ & _ & Hown). apply (inv_owner _ Hinv) in Hown as [_ Hown].
  apply (inv_owner _ Hinv) in Hown as [[Hla _] _].
  assert (Hlive : sa_disabled (si_account (er_info a)) || cr_disabled (si_credential (er_info r)) ||
                  match cr_expires_at (si_credential (er_info r)) with Some e => e <=? now | None => false end = false).
  { rewrite Hoff, Hen, Hexp. destruct expiry; [|done]. by apply Z.leb_gt. }
  destruct Hsign as [[Hk Hr]|[Hk Hr]]; rewrite Hk.
  - rewrite bool_decide_true by done. cbn [andb negb]. rewrite take_ge by lia. rewrite Hr. simplify_eq.
    cbn [ok_or mbind result_bind]. rewrite Hlive, Hsec. cbn [mbind result_bind]. congruence.
  - destruct (inv_rotated _ Hinv _ _ Hr) as (_ & _ & Ho & _). apply (inv_owner _ Hinv) in Ho as [[Hli _] _].
    rewrite length_app, Hla, Hli, (bool_decide_false (16 + 16 = 16)%nat), (bool_decide_true (16 + 16 = 32)%nat) by done.
    cbn [andb negb]. rewrite take_app_length', drop_app_length' by done. rewrite Ha, Hr.
    cbn [ok_or mbind result_bind]. rewrite Hlive, Hsec. cbn [mbind result_bind]. congruence.
Qed.

(** The step neither disables, revokes or deletes the account nor disables the
    credential. *)
Definition spares (account credential : bytes) (l : label) : Prop :=
  match l with
  | AccountSet a enabled => a = account → enabled = true
  | Revoked a | Deleted a => a ≠ account
  | CredentialSet _ i enabled => i = credential → enabled = true
  | _ => True
  end.

Lemma record_works_flags key account credential organization secret expiry r f g h :
  record_works key account credential organization secret expiry r →
  (∀ x, sa_id (f x) = sa_id x) → (∀ x, sa_organization_id (f x) = sa_organization_id x) →
  (∀ x, cr_id (g x) = cr_id x) → (∀ x, cr_key_id (g x) = cr_key_id x) → (∀ x, cr_expires_at (g x) = cr_expires_at x) →
  cr_disabled (g (si_credential (er_info r))) = false →
  record_works key account credential organization secret expiry (with_account f g h r).
Proof.
  intros [Hkid Hid Hen Hexp Hacc Horg Hsec] Hf1 Hf2 Hg1 Hg2 Hg3 Hg4. split; cbn; [congruence..|].
  unfold decrypt_record in *. cbn in *. by rewrite Hg2.
Qed.

(** The owner of the credential that signs, and of its key. *)
Lemma signs_owner c key account credential organization secret expiry r :
  inv c → is_Some (ACCOUNTS (cf_store c) !! account) →
  record_works key account credential organization secret expiry r → signs_with (cf_store c) key account r →
  cf_owner c !! credential = Some account ∧ cf_owner c !! account = Some account ∧ cf_issued c !! key = Some credential.
Proof.
  intros Hinv [a Ha] [Hkid Hid _ _ Hacc _ _] Hsign. destruct (inv_account _ Hinv _ _ Ha) as (_ & _ & _ & Hown).
  apply (inv_owner _ Hinv) in Hown as [_ Hown]. destruct Hsign as [[Hk Hr]|[Hk Hr]].
  - destruct (inv_account _ Hinv _ _ Hr) as (_ & _ & Hk1 & Ho1). rewrite Hkid, Hid in *. done.
  - destruct (inv_rotated _ Hinv _ _ Hr) as (_ & Hk1 & Ho1 & Hs1). rewrite <-Hs1, Hacc, Hkid, Hid in *. done.
Qed.

(** Changing flags of an account row leaves a credential working, when it leaves
    the account and the credential enabled. *)
Lemma works_flag_account c key account credential organization secret expiry b x f g h :
  works c key account credential organization secret expiry → ACCOUNTS (cf_store c) !! b = Some x →
  (∀ y, sa_id (f y) = sa_id y) → (∀ y, sa_organization_id (f y) = sa_organization_id y) →
  (∀ y, cr_id (g y) = cr_id y) → (∀ y, cr_key_id (g y) = cr_key_id y) → (∀ y, cr_expires_at (g y) = cr_expires_at y) →
  (b = account → sa_disabled (si_account (er_info x)) = false → sa_disabled (f (si_account (er_info x))) = false) →
  (b = account → cr_id (si_credential (er_info x)) = credential → cr_disabled (si_credential (er_info x)) = false →
   cr_disabled (g (si_credential (er_info x))) = false) →
  works (on_store (upd_accounts <[b := with_account f g h x]> (cf_store c)) c)
    key account credential organization secret expiry.
Proof.
  intros (r & a & Hsign & Hrec & Ha & Hoff) Hx Hf1 Hf2 Hg1 Hg2 Hg3 Hf Hg.
  pose proof (rw_id _ _ _ _ _ _ _ Hrec) as Hid. pose proof (rw_enabled _ _ _ _ _ _ _ Hrec) as Hen.
  destruct (decide (b = account)) as [->|Hne].
  - simplify_eq. destruct Hsign as [[Hk Hr]|Hsign].
    + simplify_eq. eexists _, _. split_and!; table_rows; [left; split; [done|apply lookup_insert_eq]| |apply lookup_insert_eq|by apply Hf].
      apply record_works_flags; auto.
    + eexists r, _. split_and!; table_rows; [by right|done|apply lookup_insert_eq|by apply Hf].
  - exists r, a. split_and!; table_rows; [|done|by rewrite lookup_insert_ne|done].
    destruct Hsign as [[Hk Hr]|Hsign]; [left; split; [done|]; table_rows; by rewrite lookup_insert_ne|by right].
Qed.

Lemma works_flag_rotated c key account credential organization secret expiry i x g :
  inv c → works c key account credential organization secret expiry → ROTATED_CREDENTIALS (cf_store c) !! i = Some x →
  (∀ y, cr_id (g y) = cr_id y) → (∀ y, cr_key_id (g y) = cr_key_id y) → (∀ y, cr_expires_at (g y) = cr_expires_at y) →
  (i = credential → cr_disabled (g (si_credential (er_info x))) = false) →
  works (on_store (upd_rotated <[i := with_account id g id x]> (cf_store c)) c)
    key account credential organization secret expiry.
Proof.
  intros Hinv (r & a & Hsign & Hrec & Ha & Hoff) Hx Hg1 Hg2 Hg3 Hg.
  pose proof (rw_id _ _ _ _ _ _ _ Hrec) as Hid. destruct (inv_rotated _ Hinv _ _ Hx) as (Hxi & _).
  destruct Hsign as [Hsign|[Hk Hr]]; [exists r, a; split_and!; table_rows; [by left|done..]|].
  rewrite Hid in *. destruct (decide (i = credential)) as [->|Hne].
  - simplify_eq. eexists (with_account id g id r), a. split_and!; table_rows; [|apply record_works_flags; auto|done..].
    right. table_rows. cbn. rewrite Hg1, lookup_insert_eq. done.
  - exists r, a. split_and!; table_rows; [|done..]. right. table_rows. rewrite Hid, lookup_insert_ne by done. done.
Qed.

(** Deleting an account removes rows of that account only. *)
Lemma works_delete c key account credential organization secret expiry b info gone bound :
  inv c → works c key account credential organization secret expiry → b ≠ account → (b, info) ∈ cf_deleting c →
  (∀ i, i ∈ gone → ∃ x, x ∈ si_credentials info ∧ cr_id x = i) →
  works (on_store (upd_bindings (drop_keys bound) (upd_accounts (delete b) (upd_rotated (drop_keys gone)
           (upd_access_keys (drop_keys (cr_key_id <$> si_credentials info)) (cf_store c))))) c)
    key account credential organization secret expiry.
Proof.
  intros Hinv (r & a & Hsign & Hrec & Ha & Hoff) Hne Hpend Hgone.
  destruct (signs_owner _ _ _ _ _ _ _ _ Hinv (mk_is_Some _ _ Ha) Hrec Hsign) as (Hoc & Hoa & Hik).
  assert (Hkey : key ∉ cr_key_id <$> si_credentials info).
  { intros (x & -> & Hx)%list_elem_of_fmap. destruct (inv_deleting _ Hinv _ _ _ Hpend Hx). congruence. }
  assert (Hcred : credential ∉ gone).
  { intros (x & Hx & <-)%Hgone. destruct (inv_deleting _ Hinv _ _ _ Hpend Hx). congruence. }
  pose proof (rw_id _ _ _ _ _ _ _ Hrec) as Hid.
  exists r, a. split_and!; table_rows; [|done|by rewrite lookup_delete_ne|done].
  destruct Hsign as [[Hk Hr]|[Hk Hr]]; [left|right]; table_rows; rewrite ?lookup_drop_keys, ?Hid in *.
  - by rewrite lookup_delete_ne.
  - done.
Qed.

Lemma step_works c l c' key account credential organization secret expiry :
  inv c → step m c l c' → spares account credential l →
  works c key account credential organization secret expiry →
  works c' key account credential organization secret expiry.
Proof.
  intros Hinv Hstep Hl Hw. pose proof Hw as (r & a & Hsign & Hrec & Ha & Hoff).
  destruct (signs_owner _ _ _ _ _ _ _ _ Hinv (mk_is_Some _ _ Ha) Hrec Hsign) as (Hoc & Hoa & Hik).
  pose proof (rw_id _ _ _ _ _ _ _ Hrec) as Hid. destruct Hstep as
    [name description organization' account' mint now out s' [Hf1 Hf2] [[_ Hm] _] Hne Hrun|account' enabled now out s' Hrun|account' s' Hrun
    |account' info Hrun|account' info before after expires_at mint now out s' Hpend [[_ Hm] _] Hrun|account' credential' enabled s' Hrun
    |account' info Hrun|account' info before after s' Hpend Hrun|name description statements id now out s' [Hf1 Hf2] Hrun
    |account' policy info Hrun|account' policy before after s' Hpend Hrun|account' policy s' Hrun]; cbn in Hl.
  - destruct out as [info secret']. destruct (create_ok _ _ _ _ _ _ _ _ _ _ _ Hrun) as (r' & _ & _ & _ & _ & _ & _ & _ & Hnone & ->).
    exists r, a. table_rows. assert (account' ≠ account) by congruence.
    split_and!; [|done|by rewrite lookup_insert_ne|done].
    destruct Hsign as [[Hk Hr]|[Hk Hr]]; [left|right]; table_rows; (split; [by apply keep_row|]); [by rewrite lookup_insert_ne|done].
  - destruct (set_account_ok _ _ _ _ _ _ Hrun) as (r' & Hr' & ->).
    apply works_flag_account; try done. intros ->. by specialize (Hl eq_refl) as ->.
  - destruct (revoke_ok _ _ _ Hrun) as (r' & Hr' & ->). by apply works_flag_account.
  - done.
  - destruct out as [info' secret']. destruct (rotate_write_ok _ _ _ _ _ _ _ _ _ _ Hrun) as (r' & _ & _ & _ & _ & _ & Hnone & ->).
    exists r, a. table_rows. split_and!; [|done|done|done].
    destruct Hsign as [[Hk Hr]|[Hk Hr]]; [left|right]; table_rows; (split; [by apply keep_row|]); [done|].
    rewrite lookup_insert_ne; [done|congruence].
  - destruct (set_credential_ok _ _ _ _ _ Hrun) as (r' & Hr' & [(Hi & ->)|(_ & q & Hq & _ & ->)]).
    + apply works_flag_account; try done. intros _ Hj _. subst credential'. by rewrite (Hl Hj).
    + apply works_flag_rotated; try done. intros ->. by specialize (Hl eq_refl) as ->.
  - done.
  - destruct (delete_ok _ _ _ _ Hrun) as (gone & bound & Hgone & ->).
    assert (Hin : (account', info) ∈ cf_deleting c) by (rewrite Hpend; set_solver).
    exact (works_delete _ _ _ _ _ _ _ _ _ gone bound Hinv Hw Hl Hin Hgone).
  - destruct (create_policy_ok _ _ _ _ _ _ _ _ Hrun) as [-> _]. by exists r, a.
  - done.
  - destruct (attach_ok _ _ _ _ Hrun) as [_ ->]. by exists r, a.
  - unfold detach_policy in Hrun. tx_step Hrun. by exists r, a.
Qed.

Lemma steps_works c ls c' key account credential organization secret expiry :
  inv c → steps m c ls c' → Forall (spares account credential) ls →
  works c key account credential organization secret expiry →
  works c' key account credential organization secret expiry.
Proof.
  intros Hinv. induction 1 as [|c1 l c2 ls c3 Hs _ IH]; intros Hls Hw; [done|]. apply Forall_cons in Hls as [Hl Hls].
  apply IH; [by eapply step_inv|done|]. by eapply step_works.
Qed.

(** ** Issuing *)

(** The operation that returns a new secret: creating an account, or rotating
    the credential of an account that is enabled when the rotation is written. *)
Inductive issues (c : Config) (organization secret : bytes) : bytes → bytes → bytes → option Z → Config → Prop :=
  | issues_create name description account mint now info s' :
      fresh c account → fresh_mint c mint → account ≠ mint_credential_id mint →
      create_service_account_with_description m name description organization account mint now (cf_store c)
        = (Ok (info, secret), s') →
      issues c organization secret (mint_access_key mint) account (mint_credential_id mint) None
        (issued (mint_access_key mint) (mint_credential_id mint)
          (owned (mint_credential_id mint) account (owned account account (on_store s' c))))
  | issues_rotate account snapshot row before after expires_at mint now info s' :
      cf_rotating c = before ++ (account, snapshot) :: after → fresh_mint c mint →
      organization = sa_organization_id (si_account snapshot) →
      ACCOUNTS (cf_store c) !! account = Some row → sa_disabled (si_account (er_info row)) = false →
      rotate_write m account snapshot expires_at mint now (cf_store c) = (Ok (info, secret), s') →
      issues c organization secret (mint_access_key mint) account (mint_credential_id mint) expires_at
        (issued (mint_access_key mint) (mint_credential_id mint)
          (owned (mint_credential_id mint) account (rotating (before ++ after) (on_store s' c)))).

Lemma issues_step c organization secret key account credential expiry c' :
  issues c organization secret key account credential expiry c' → ∃ l, step m c l c'.
Proof. intros Hiss. destruct Hiss; eexists; [by eapply step_create|by eapply step_rotate_write]. Qed.

Lemma decrypt_encrypt_record `{!CryptographyLaws} info secret key nonce record :
  encrypt_record info secret key nonce = Ok record → decrypt_record record key = Ok secret.
Proof.
  unfold encrypt_record, decrypt_record. intros (sealed & Hsealed & Hrec)%result_bind_ok. injection Hrec as <-. cbn.
  destruct (aead_encrypt _ _ _ _) as [t|] eqn:E; cbn in Hsealed; [|done]. injection Hsealed as ->.
  by rewrite (decrypt_encrypt _ _ _ _ _ E).
Qed.

Lemma issues_works `{!CryptographyLaws} c organization secret key account credential expiry c' :
  inv c → issues c organization secret key account credential expiry c' →
  works c' key account credential organization secret expiry.
Proof.
  intros Hinv Hiss. destruct Hiss as [name description account mint now info s' Hf Hm Hne Hrun
    |account snapshot row before after expires_at mint now info s' Hpend Hm Horg Hrow Hoff Hrun].
  - destruct (create_ok _ _ _ _ _ _ _ _ _ _ _ Hrun) as (r & Henc & Hinfo & Hsec & Hid & Ho & Hd & Hcred & _ & ->).
    exists r, r. table_rows. rewrite Hinfo. split_and!; [| |apply lookup_insert_eq|done].
    + left. table_rows. by rewrite !lookup_insert_eq.
    + split; rewrite ?Hinfo, ?Hcred; try done. by eapply decrypt_encrypt_record.
  - destruct (rotate_write_ok _ _ _ _ _ _ _ _ _ _ Hrun) as (r & Henc & Hinfo & Hsec & Hacc & Hcred & _ & ->).
    assert (Hin : (account, snapshot) ∈ cf_rotating c) by (rewrite Hpend; set_solver).
    destruct (inv_rotating _ Hinv _ _ Hin) as [Hid _].
    exists r, row. table_rows. split_and!; [| |done|done].
    + right. table_rows. by rewrite Hinfo, Hcred, !lookup_insert_eq.
    + split; rewrite ?Hinfo, ?Hcred, ?Hacc; try done. by eapply decrypt_encrypt_record.
Qed.
End Lookups.

(** ** The promises *)

(** C30: What a service account may do is what its policies say: [authorize] lets a
    permission through exactly when some policy attached to the account allows it
    and none denies it, and otherwise answers that it is denied, never that the
    index is corrupt. This holds after any sequence of requests, in any
    interleaving of the ones that read and write in separate transactions. *)
Theorem authorize_decides `{Cryptography_} (m : CredentialManager) (c : Config)
    (account organization : bytes) (credential : option bytes) (permission : Permission) :
  reachable m c → is_v4 account →
  let r := authorize (cf_store c) (ServiceAccountPrincipal account organization credential) permission in
  let granted := policies_say (cf_store c) account permission Allow ∧ ¬ policies_say (cf_store c) account permission Deny in
  (r = Ok () ∧ granted) ∨ (r = Err Denied ∧ ¬ granted).
Proof. intros Hr Hv. apply authorize_verdict; [by apply (reachable_config_inv m)|done]. Qed.

(** C33: An account that was disabled, revoked or deleted signs nothing more: no
    access key, of its first credential or of a rotated one, leads
    [signing_secret] to a principal of the account until somebody enables the
    account again, whatever else happens, rotations and deletions that were under
    way when it was withdrawn included. *)
Theorem withdrawn_account_cannot_sign `{Cryptography_} (m : CredentialManager) (c c' : Config) (ls : list label)
    (account key organization secret : bytes) (credential : option bytes) (now : Z) :
  reachable m c → withdrawn c account → steps m c ls c' → Forall (not_enabling account) ls →
  signing_secret m (cf_store c') key now ≠ Ok (ServiceAccountPrincipal account organization credential, secret).
Proof.
  intros Hr Hw Hsteps Hls Hsign. assert (Hinv : inv c') by (eapply steps_inv, Hsteps; by apply (reachable_config_inv m)).
  destruct (signing_secret_inv _ _ _ _ _ _ _ _ Hinv Hsign) as (a & Ha & Hon).
  destruct (steps_withdrawn _ _ _ _ _ Hsteps Hls Hw) as [_ Hoff]. apply Hoff in Ha. congruence.
Qed.

(** C36: A secret handed out works: the access key and secret that creating an
    account or rotating its credential returned sign for that account, with the
    right organization and credential, until the credential expires, through any
    sequence of requests that does not withdraw the account or disable the
    credential. The secret is stored only encrypted, so this rests on AES-GCM
    decrypting what it encrypted. *)
Theorem issued_credential_works `{CryptographyLaws} (m : CredentialManager) (c c1 c2 : Config) (ls : list label)
    (organization secret key account credential : bytes) (expiry : option Z) (now : Z) :
  reachable m c → issues m c organization secret key account credential expiry c1 →
  steps m c1 ls c2 → Forall (spares account credential) ls →
  key ≠ root_access_key m → match expiry with Some e => now < e | None => True end →
  signing_secret m (cf_store c2) key now = Ok (ServiceAccountPrincipal account organization (Some credential), secret).
Proof.
  intros Hr Hiss Hsteps Hls Hroot Hnow. apply reachable_config_inv in Hr.
  destruct (issues_step _ _ _ _ _ _ _ _ _ Hiss) as [l Hl]. assert (inv c1) by (by eapply step_inv).
  apply (works_signs _ _ _ _ _ _ _ expiry); [by eapply steps_inv| |done..].
  apply (steps_works m c1 ls); [done..|]. by apply (issues_works m c).
Qed.

(** ** A run *)

Section Run.
(** A cipher that seals a text by prefixing the associated data. *)
#[local] Instance sample_cipher : Cryptography_ := {|
  aead_encrypt _ _ aad text := Some (aad ++ text); aead_decrypt _ _ aad sealed := Some (drop (length aad) sealed);
  hkdf_expand _ material _ := Some material |}.

#[local] Instance sample_cipher_laws : CryptographyLaws.
Proof. split. cbn. intros key nonce aad text sealed [= <-]. by rewrite drop_app_length. Qed.

Definition sample_manager : CredentialManager :=
  {| root_access_key := [114]; root_secret := [1]; encryption_key := [2]; explicit_master_key := true |}.

Definition v4_id (n : Z) : bytes := replicate 6%nat 0 ++ [64] ++ replicate 8%nat 0 ++ [n].

Definition sample_mint (n : Z) : Minted :=
  {| mint_credential_id := v4_id n; mint_access_key := [65; n]; mint_secret := [83; n]; mint_nonce := [n] |}.

Definition sample_statement (effect : PolicyEffect) (resource : bytes) : PolicyStatement :=
  {| s_effect := effect; s_actions := [GetObject]; s_resources := [bucket_scheme ++ resource] |}.

(** An account, its second credential, a policy that allows what begins with
    [a] but not [ab], and the policy attached to the account. *)
Definition after_create : Config :=
  issued [65; 2] (v4_id 2) (owned (v4_id 2) (v4_id 1) (owned (v4_id 1) (v4_id 1)
    (on_store (create_service_account_with_description sample_manager [97] [] (v4_id 9) (v4_id 1) (sample_mint 2) 10
                 (cf_store initial)).2 initial))).

Definition sample_info (c : Config) : ServiceAccountInfo :=
  match get_service_account (v4_id 1) (cf_store c) with
  | Ok info => info
  | Err _ => {| si_account := {| sa_id := []; sa_organization_id := []; sa_name := []; sa_description := [];
                                 sa_disabled := true; sa_created_at := 0; sa_updated_at := 0 |};
                si_credential := {| cr_id := []; cr_service_account_id := []; cr_key_id := []; cr_disabled := true;
                                    cr_created_at := 0; cr_expires_at := None |};
                si_credentials := []; si_policy_bindings := [] |}
  end.

Definition after_rotate_read : Config := rotating [(v4_id 1, sample_info after_create)] after_create.
Definition after_rotate : Config :=
  issued [65; 3] (v4_id 3) (owned (v4_id 3) (v4_id 1) (rotating []
    (on_store (rotate_write sample_manager (v4_id 1) (sample_info after_create) (Some 100) (sample_mint 3) 20
                 (cf_store after_rotate_read)).2 after_rotate_read))).
Definition after_policy : Config :=
  owned (v4_id 4) (v4_id 4)
    (on_store (create_policy [112] [] [sample_statement Allow [97; star]; sample_statement Deny [97; 98]] (v4_id 4) 30
                 (cf_store after_rotate)).2 after_rotate).
Definition after_attach_read : Config := attaching [(v4_id 1, v4_id 4)] after_policy.
Definition after_attach : Config :=
  attaching [] (on_store (attach_write (v4_id 1) (v4_id 4) (cf_store after_attach_read)).2 after_attach_read).

Lemma tx_ran {S E A : Type} (t : tx S E A) (s : S) (a : A) : (t s).1 = Ok a → t s = (Ok a, (t s).2).
Proof. intros <-. by destruct (t s). Qed.

Ltac ran := eapply tx_ran; vm_compute; reflexivity.
Ltac is_fresh :=
  repeat match goal with
  | |- uuid_ok _ => apply (bool_decide_unpack _); vm_compute; exact I
  | |- _ ∧ _ => split
  | |- fresh _ _ => split
  | |- fresh_mint _ _ => split
  | |- _ => vm_compute; reflexivity
  end.

Lemma create_steps : step sample_manager initial (Created (v4_id 1)) after_create.
Proof. eapply (step_create _ _ _ _ _ _ (sample_mint 2)); [is_fresh|is_fresh|by vm_compute|ran]. Qed.

Lemma rotate_read_steps : step sample_manager after_create Reading after_rotate_read.
Proof. apply step_rotate_read. by vm_compute. Qed.

Lemma rotate_steps : step sample_manager after_rotate_read (Rotated (v4_id 1) (v4_id 3)) after_rotate.
Proof. eapply (step_rotate_write _ _ _ _ [] [] _ (sample_mint 3)); [by vm_compute|is_fresh|ran]. Qed.

Lemma attached_steps : steps sample_manager after_rotate [PolicyChange; Reading; PolicyChange] after_attach.
Proof.
  eapply (steps_step _ _ _ after_policy); [eapply step_policy; [is_fresh|ran]|].
  eapply (steps_step _ _ _ after_attach_read); [apply (step_attach_read _ after_policy (v4_id 1) (v4_id 4) (sample_info after_policy)); by vm_compute|].
  eapply steps_step; [|apply steps_refl]. apply (step_attach_write _ _ (v4_id 1) (v4_id 4) [] []); [by vm_compute|ran].
Qed.

Lemma rotate_read_reachable : reachable sample_manager after_rotate_read.
Proof.
  eexists. eapply steps_step; [apply create_steps|]. eapply steps_step; [apply rotate_read_steps|apply steps_refl].
Qed.

Lemma reachable_steps c ls c' : reachable sample_manager c → steps sample_manager c ls c' → reachable sample_manager c'.
Proof.
  intros [ls0 H0] Hs. exists (ls0 ++ ls). induction H0; [done|]. cbn. eapply steps_step; [done|]. by apply IHsteps.
Qed.

Lemma reachable_step c l c' : reachable sample_manager c → step sample_manager c l c' → reachable sample_manager c'.
Proof. intros Hr Hs. eapply reachable_steps; [done|]. eapply steps_step; [done|apply steps_refl]. Qed.

Lemma attach_reachable : reachable sample_manager after_attach.
Proof.
  eapply reachable_steps; [|apply attached_steps]. eapply reachable_step; [apply rotate_read_reachable|apply rotate_steps].
Qed.

(** Reading an object whose name begins with [a] is allowed, reading [ab] denied. *)
Lemma authorize_decides_witness :
  ∃ c, reachable sample_manager c ∧
    authorize (cf_store c) (ServiceAccountPrincipal (v4_id 1) (v4_id 9) None)
      {| p_action := GetObject; p_resource := bucket_scheme ++ [97; 99] |} = Ok () ∧
    ¬ policies_say (cf_store c) (v4_id 1) {| p_action := GetObject; p_resource := bucket_scheme ++ [97; 99] |} Deny ∧
    authorize (cf_store c) (ServiceAccountPrincipal (v4_id 1) (v4_id 9) None)
      {| p_action := GetObject; p_resource := bucket_scheme ++ [97; 98] |} = Err Denied.
Proof.
  assert (Hr : reachable sample_manager after_attach) by apply attach_reachable.
  exists after_attach. split; [exact Hr|]. split; [vm_compute; reflexivity|]. split; [|vm_compute; reflexivity].
  destruct (authorize_decides sample_manager after_attach (v4_id 1) (v4_id 9) None
    {| p_action := GetObject; p_resource := bucket_scheme ++ [97; 99] |} Hr) as [[_ [_ Hd]]|[He _]].
  - split; [apply (bool_decide_unpack _); vm_compute; exact I|]. exists 64. vm_compute. repeat split; discriminate.
  - exact Hd.
  - vm_compute in He. discriminate He.
Defined.

(** The account of the run is disabled; its first key no longer signs. *)
Lemma withdrawn_account_cannot_sign_witness :
  ∃ c, withdrawn c (v4_id 1) ∧
    signing_secret sample_manager (cf_store c) [65; 2] 50
      ≠ Ok (ServiceAccountPrincipal (v4_id 1) (v4_id 9) (Some (v4_id 2)), [83; 2]).
Proof.
  set (c := on_store (set_service_account_enabled (v4_id 1) false 40 (cf_store after_attach)).2 after_attach).
  assert (Hs : step sample_manager after_attach (AccountSet (v4_id 1) false) c) by (eapply step_set_account; ran).
  assert (Hw : withdrawn c (v4_id 1)).
  { split; [vm_compute; reflexivity|]. intros r Hr. vm_compute in Hr. injection Hr as <-. reflexivity. }
  exists c. split; [exact Hw|].
  apply (withdrawn_account_cannot_sign sample_manager c c []); [|exact Hw|apply steps_refl|apply Forall_nil_2].
  exact (reachable_step _ _ _ attach_reachable Hs).
Defined.

(** The rotated credential of the run still signs after the policy was attached. *)
Lemma issued_credential_works_witness :
  signing_secret sample_manager (cf_store after_attach) [65; 3] 50
    = Ok (ServiceAccountPrincipal (v4_id 1) (v4_id 9) (Some (v4_id 3)), [83; 3]).
Proof.
  assert (Hi : ∃ row, ACCOUNTS (cf_store after_rotate_read) !! v4_id 1 = Some row ∧
                 sa_disabled (si_account (er_info row)) = false)
    by (eexists; split; vm_compute; reflexivity).
  destruct Hi as (row & Hrow & Hon).
  apply (issued_credential_works sample_manager after_rotate_read after_rotate after_attach
           [PolicyChange; Reading; PolicyChange] (v4_id 9) [83; 3] [65; 3] (v4_id 1) (v4_id 3) (Some 100) 50);
    [exact rotate_read_reachable| |exact attached_steps|repeat constructor|vm_compute; congruence|vm_compute; reflexivity].
  eapply (issues_rotate sample_manager _ _ _ _ _ row [] [] _ (sample_mint 3));
    [vm_compute; reflexivity|is_fresh|vm_compute; reflexivity|exact Hrow|exact Hon|ran].
Defined.
End Run.

End AuthTheorems.
