(* ===== verification/Topology.v ===== *)
(** * Nodes, devices and configuration of a cluster

    [crates/record-store-cluster/src]: storage devices and their lifecycle
    ([device.rs]), the cluster-wide configuration ([config.rs]), storage policies
    ([policy.rs]), node records, failure domains and the topology view
    ([topology.rs]), and the compatibility window of versions ([version.rs]). *)

From S2P Require Import Prelude Bytes Tables ObjectLock CoreTypes.
Import CoreTypes.

Module Topology.

(** A storage-class label ([core/storage_class.rs]) and its default. *)
Definition DEFAULT_CLASS : bytes := bytes_of_string "standard".

Definition u32_saturating_add (a b : Z) : Z := Z.min (a + b) u32_max.
Definition saturating_sub (a b : Z) : Z := Z.max (a - b) 0.

(** ** Devices ([device.rs]) *)

Inductive DeviceKind :=
  | Nvme | SataSsd | SasSsd | SataHdd | SasHdd | Ssd | Hdd | BlockDevice | RaidLogicalVolume
  | CloudBlockVolume | FilesystemDirectory | UnknownKind.
#[export] Instance DeviceKind_eq_dec : EqDecision DeviceKind.
Proof. solve_decision. Defined.

Definition kind_rotational (kind : DeviceKind) : option bool :=
  match kind with
  | SataHdd | SasHdd | Hdd => Some true
  | Nvme | SataSsd | SasSsd | Ssd => Some false
  | _ => None
  end.

Definition default_movement_concurrency (kind : DeviceKind) : Z :=
  match kind_rotational kind with Some true => 1 | Some false => 4 | None => 2 end.

Record DeviceCapacity := {
  raw_bytes : Z; usable_bytes : Z; allocated_bytes : Z; reserved_bytes : Z; device_available_bytes : Z }.
#[export] Instance DeviceCapacity_eq_dec : EqDecision DeviceCapacity.
Proof. solve_decision. Defined.

Inductive DeviceHealth :=
  | HealthUnknown | HealthHealthy | HealthDegraded | HealthFailed | HealthUnavailable | HealthUnsupported.
#[export] Instance DeviceHealth_eq_dec : EqDecision DeviceHealth.
Proof. solve_decision. Defined.

Definition permits_placement (h : DeviceHealth) : bool :=
  match h with HealthUnknown | HealthHealthy | HealthUnsupported => true | _ => false end.
Definition health_contributes (h : DeviceHealth) : bool :=
  match h with HealthFailed | HealthUnavailable => false | _ => true end.

Inductive DeviceState :=
  | Discovered | Available | Active | DeviceDegraded | DeviceDraining | DeviceMaintenance
  | DeviceFailed | SafeToRemove | Retired.
#[export] Instance DeviceState_eq_dec : EqDecision DeviceState.
Proof. solve_decision. Defined.

Definition accepts_new_placements (s : DeviceState) : bool := match s with Active => true | _ => false end.
Definition device_state_contributes (s : DeviceState) : bool :=
  match s with Active | DeviceDegraded | DeviceDraining | DeviceMaintenance => true | _ => false end.

Definition device_can_transition (from next : DeviceState) : bool :=
  bool_decide (from = next) ||
  match from, next with
  | Discovered, (Available | Retired) => true
  | Available, (Active | DeviceMaintenance | Retired) => true
  | Active, (DeviceDegraded | DeviceDraining | DeviceMaintenance | DeviceFailed) => true
  | DeviceDegraded, (Active | DeviceDraining | DeviceMaintenance | DeviceFailed) => true
  | DeviceDraining, (Active | DeviceMaintenance | DeviceFailed | SafeToRemove) => true
  | DeviceMaintenance, (Available | Active | DeviceDraining | DeviceFailed | Retired) => true
  | DeviceFailed, (DeviceDraining | SafeToRemove | Retired) => true
  | SafeToRemove, (Active | Retired) => true
  | _, _ => false
  end.

Inductive DeviceError :=
  | InvalidWeight
  | InvalidCapacity (reason : string)
  | DuplicateDevice (device : bytes)
  | WrongNode (device expected actual : bytes)
  | DeviceMissing (device : bytes)
  | InvalidDeviceTransition (from to : DeviceState).

Definition MAXIMUM_WEIGHT : Z := 10000.
Definition DEFAULT_WEIGHT : Z := 1000.
Definition placement_weight_new (value : Z) : result DeviceError Z :=
  if (value =? 0) || (MAXIMUM_WEIGHT <? value) then Err InvalidWeight else Ok value.

Definition capacity_validate (c : DeviceCapacity) : result DeviceError () :=
  if raw_bytes c <? usable_bytes c then Err (InvalidCapacity "usable capacity exceeds raw capacity")
  else if usable_bytes c <? device_available_bytes c
  then Err (InvalidCapacity "available capacity exceeds usable capacity")
  else if raw_bytes c <? reserved_bytes c then Err (InvalidCapacity "reserved capacity exceeds raw capacity")
  else Ok ().

Definition device_used_bytes (c : DeviceCapacity) : Z := saturating_sub (usable_bytes c) (device_available_bytes c).
Definition device_utilization_permille (c : DeviceCapacity) : Z :=
  if usable_bytes c =? 0 then 1000 else Z.min (device_used_bytes c * 1000 / usable_bytes c) 1000.

Record HardwareMetadata := {
  hw_model : option bytes; hw_serial : option bytes; hw_controller : option bytes; hw_filesystem : option bytes;
  hw_mount_point : option bytes; hw_rotational : option bool; hw_logical_block_size : option Z;
  hw_physical_block_size : option Z; hw_temperature_celsius : option Z; hw_wear_percentage : option Z;
  hw_health_summary : option bytes }.
#[export] Instance HardwareMetadata_eq_dec : EqDecision HardwareMetadata.
Proof. solve_decision. Defined.
Definition hardware_default : HardwareMetadata :=
  {| hw_model := None; hw_serial := None; hw_controller := None; hw_filesystem := None; hw_mount_point := None;
     hw_rotational := None; hw_logical_block_size := None; hw_physical_block_size := None;
     hw_temperature_celsius := None; hw_wear_percentage := None; hw_health_summary := None |}.

Record DeviceRecord := {
  d_id : bytes; d_node_id : bytes; d_current_path : option bytes; d_stable_hardware_identifier : option bytes;
  d_kind : DeviceKind; d_storage_class : bytes; d_capacity : DeviceCapacity; d_configured_weight : Z;
  d_health : DeviceHealth; d_state : DeviceState; d_hardware : HardwareMetadata;
  d_movement_concurrency : option Z }.
#[export] Instance DeviceRecord_eq_dec : EqDecision DeviceRecord.
Proof. solve_decision. Defined.

Definition device_with_state (state : DeviceState) (d : DeviceRecord) : DeviceRecord :=
  {| d_id := d_id d; d_node_id := d_node_id d; d_current_path := d_current_path d;
     d_stable_hardware_identifier := d_stable_hardware_identifier d; d_kind := d_kind d;
     d_storage_class := d_storage_class d; d_capacity := d_capacity d;
     d_configured_weight := d_configured_weight d; d_health := d_health d; d_state := state;
     d_hardware := d_hardware d; d_movement_concurrency := d_movement_concurrency d |}.

Definition legacy_id (node_id : bytes) : bytes := node_id.
Definition legacy_directory (node_id : bytes) (path : option bytes) (storage_class : bytes)
    (capacity : DeviceCapacity) : DeviceRecord :=
  {| d_id := legacy_id node_id; d_node_id := node_id; d_current_path := path;
     d_stable_hardware_identifier := None; d_kind := FilesystemDirectory; d_storage_class := storage_class;
     d_capacity := capacity; d_configured_weight := DEFAULT_WEIGHT; d_health := HealthUnknown;
     d_state := Active; d_hardware := hardware_default; d_movement_concurrency := None |}.

Definition device_eligible (reservation margin : Z) (d : DeviceRecord) : bool :=
  accepts_new_placements (d_state d) && permits_placement (d_health d) &&
  (0 <? usable_bytes (d_capacity d)) &&
  (u64_saturating_add reservation margin <=? device_available_bytes (d_capacity d)).

(** The product of two values below [2^64] and [10000] fits [u128]. *)
Definition effective_weight (d : DeviceRecord) : Z :=
  usable_bytes (d_capacity d) * d_configured_weight d / DEFAULT_WEIGHT.

Definition movement_concurrency (d : DeviceRecord) : Z :=
  let derived := match hw_rotational (d_hardware d) with
                 | Some true => 1
                 | Some false => 4
                 | None => default_movement_concurrency (d_kind d)
                 end in
  match d_movement_concurrency d with
  | Some value => if 0 <? value then value else derived
  | None => derived
  end.

Definition device_transition (next : DeviceState) (d : DeviceRecord) : result DeviceError (bool * DeviceRecord) :=
  if bool_decide (d_state d = next) then Ok (false, d)
  else if negb (device_can_transition (d_state d) next) then Err (InvalidDeviceTransition (d_state d) next)
  else Ok (true, device_with_state next d).

(** [DeviceManager]: a validated inventory. *)
Fixpoint device_manager_new (node_id : bytes) (devices : list DeviceRecord) (inventory : gmap bytes DeviceRecord)
    : result DeviceError (gmap bytes DeviceRecord) :=
  match devices with
  | [] => Ok inventory
  | d :: rest =>
      if negb (bool_decide (d_node_id d = node_id)) then Err (WrongNode (d_id d) node_id (d_node_id d))
      else
        _ ← capacity_validate (d_capacity d);
        if bool_decide (is_Some (inventory !! d_id d)) then Err (DuplicateDevice (d_id d))
        else device_manager_new node_id rest (<[d_id d := d]> inventory)
  end.

(** ** Configuration ([config.rs]) *)

Inductive FailureDomainScope :=
  | DomainDevice | DomainNode | DomainHost | DomainRack | DomainDatacenter | DomainZone | DomainRegion.
#[export] Instance FailureDomainScope_eq_dec : EqDecision FailureDomainScope.
Proof. solve_decision. Defined.

Definition scope_label (scope : FailureDomainScope) : option bytes :=
  match scope with
  | DomainDevice | DomainNode => None
  | DomainHost => Some (bytes_of_string "host") | DomainRack => Some (bytes_of_string "rack")
  | DomainDatacenter => Some (bytes_of_string "datacenter") | DomainZone => Some (bytes_of_string "zone")
  | DomainRegion => Some (bytes_of_string "region")
  end.
Definition scope_display (scope : FailureDomainScope) : bytes :=
  match scope with
  | DomainDevice => bytes_of_string "device" | DomainNode => bytes_of_string "node"
  | DomainHost => bytes_of_string "host" | DomainRack => bytes_of_string "rack"
  | DomainDatacenter => bytes_of_string "datacenter" | DomainZone => bytes_of_string "zone"
  | DomainRegion => bytes_of_string "region"
  end.

Inductive CapacityLevel := LevelNormal | LevelConstrained | LevelUrgent | LevelCritical.
#[export] Instance CapacityLevel_eq_dec : EqDecision CapacityLevel.
Proof. solve_decision. Defined.
Definition level_accepts (l : CapacityLevel) : bool :=
  match l with LevelNormal | LevelConstrained => true | _ => false end.
Definition needs_relief (l : CapacityLevel) : bool :=
  match l with LevelUrgent | LevelCritical => true | _ => false end.

Record CapacityWatermarks := { low_percent : Z; high_percent : Z; critical_percent : Z }.
Definition watermark_level (w : CapacityWatermarks) (utilization_percent : Z) : CapacityLevel :=
  if critical_percent w <=? utilization_percent then LevelCritical
  else if high_percent w <=? utilization_percent then LevelUrgent
  else if low_percent w <=? utilization_percent then LevelConstrained
  else LevelNormal.

Inductive WriteAcknowledgement := Quorum | AllReplicas | CountReplicas (count : Z).
Definition required (ack : WriteAcknowledgement) (replication_factor : Z) : Z :=
  match ack with
  | Quorum => replication_factor / 2 + 1
  | AllReplicas => replication_factor
  | CountReplicas count =>
      if replication_factor <? count then replication_factor else if count =? 0 then 1 else count
  end.

Record MovementPolicy := {
  maximum_concurrent_tasks : Z; maximum_streams_per_node : Z; maximum_bytes_per_second : Z;
  interval_seconds : Z; batch_size : Z }.
Record RepairPolicy := { repair_movement : MovementPolicy; maximum_attempts : Z; repair_lease_seconds : Z }.
Record RebalancePolicy := { automatic : bool; rebalance_movement : MovementPolicy; tolerance_percent : Z }.
Record FailureDetectionPolicy := {
  heartbeat_interval_seconds : Z; suspect_timeout_seconds : Z; offline_timeout_seconds : Z }.

Record ClusterConfig := {
  replication_factor : Z; write_acknowledgement : WriteAcknowledgement;
  failure_domain_scope : FailureDomainScope; strict_failure_domains : bool; allow_degraded_writes : bool;
  watermarks : CapacityWatermarks; capacity_safety_margin_bytes : Z;
  failure_detection : FailureDetectionPolicy; repair : RepairPolicy; rebalance : RebalancePolicy;
  metadata_voter_target : Z; maintenance_serves_reads : bool; tombstone_retention_hours : Z;
  unknown_upload_size_reservation_bytes : Z }.

Definition config_check (ok : bool) (reason : string) : result string () := if ok then Ok () else Err reason.

Definition watermarks_validate (w : CapacityWatermarks) : result string () :=
  config_check (negb ((low_percent w =? 0) || (high_percent w <=? low_percent w) ||
                      (critical_percent w <=? high_percent w) || (100 <? critical_percent w)))
    "capacity watermarks must satisfy 0 < low < high < critical <= 100".

Definition movement_validate (name : string) (p : MovementPolicy) : result string () :=
  _ ← config_check (negb ((maximum_concurrent_tasks p =? 0) || (1024 <? maximum_concurrent_tasks p)))
        (name +:+ ".maximum_concurrent_tasks must be between 1 and 1024");
  _ ← config_check (negb ((maximum_streams_per_node p =? 0) || (256 <? maximum_streams_per_node p)))
        (name +:+ ".maximum_streams_per_node must be between 1 and 256");
  _ ← config_check (negb ((interval_seconds p =? 0) || (86400 <? interval_seconds p)))
        (name +:+ ".interval_seconds must be between 1 and 86400");
  config_check (negb ((batch_size p =? 0) || (10000 <? batch_size p)))
    (name +:+ ".batch_size must be between 1 and 10000").

Definition failure_detection_validate (p : FailureDetectionPolicy) : result string () :=
  _ ← config_check (negb ((heartbeat_interval_seconds p =? 0) || (300 <? heartbeat_interval_seconds p)))
        "failure_detection.heartbeat_interval_seconds must be between 1 and 300";
  _ ← config_check (heartbeat_interval_seconds p <? suspect_timeout_seconds p)
        "failure_detection.suspect_timeout_seconds must exceed the heartbeat interval";
  _ ← config_check (suspect_timeout_seconds p <? offline_timeout_seconds p)
        "failure_detection.offline_timeout_seconds must exceed the suspect timeout";
  config_check (offline_timeout_seconds p <=? 86400)
    "failure_detection.offline_timeout_seconds must not exceed 86400".

Definition MAXIMUM_REPLICATION_FACTOR : Z := 3.

Definition config_validate (c : ClusterConfig) : result string () :=
  _ ← config_check (negb ((replication_factor c =? 0) || (MAXIMUM_REPLICATION_FACTOR <? replication_factor c)))
        "replication_factor must be between 1 and 3";
  _ ← config_check
        match write_acknowledgement c with
        | CountReplicas count => negb ((count =? 0) || (replication_factor c <? count))
        | _ => true
        end "write_acknowledgement count must be between 1 and replication_factor";
  _ ← watermarks_validate (watermarks c);
  _ ← failure_detection_validate (failure_detection c);
  _ ← movement_validate "repair" (repair_movement (repair c));
  _ ← movement_validate "rebalance" (rebalance_movement (rebalance c));
  _ ← config_check (negb ((maximum_attempts (repair c) =? 0) || (1000 <? maximum_attempts (repair c))))
        "repair.maximum_attempts must be between 1 and 1000";
  _ ← config_check (negb ((repair_lease_seconds (repair c) <? 10) || (86400 <? repair_lease_seconds (repair c))))
        "repair.lease_seconds must be between 10 and 86400";
  _ ← config_check (negb ((tolerance_percent (rebalance c) =? 0) || (50 <? tolerance_percent (rebalance c))))
        "rebalance.tolerance_percent must be between 1 and 50";
  _ ← config_check (negb ((metadata_voter_target c =? 0) || (7 <? metadata_voter_target c)))
        "metadata_voter_target must be between 1 and 7";
  _ ← config_check (negb ((1 <? metadata_voter_target c) && (metadata_voter_target c mod 2 =? 0)))
        "metadata_voter_target must be odd so that a quorum is unambiguous";
  _ ← config_check (negb ((tombstone_retention_hours c =? 0) || (8760 <? tombstone_retention_hours c)))
        "tombstone_retention_hours must be between 1 and 8760";
  config_check (negb ((unknown_upload_size_reservation_bytes c =? 0) ||
                      (1024 ^ 4 <? unknown_upload_size_reservation_bytes c)))
    "unknown_upload_size_reservation_bytes must be between 1 and 1 TiB".

Definition required_acknowledgements (c : ClusterConfig) : Z := required (write_acknowledgement c) (replication_factor c).

Definition repair_default : RepairPolicy :=
  {| repair_movement := {| maximum_concurrent_tasks := 8; maximum_streams_per_node := 4;
                           maximum_bytes_per_second := 64 * 1024 * 1024; interval_seconds := 30; batch_size := 256 |};
     maximum_attempts := 8; repair_lease_seconds := 600 |}.
Definition rebalance_default : RebalancePolicy :=
  {| automatic := false;
     rebalance_movement := {| maximum_concurrent_tasks := 4; maximum_streams_per_node := 2;
                              maximum_bytes_per_second := 32 * 1024 * 1024; interval_seconds := 300; batch_size := 128 |};
     tolerance_percent := 10 |}.
Definition config_default : ClusterConfig :=
  {| replication_factor := 3; write_acknowledgement := Quorum; failure_domain_scope := DomainRack;
     strict_failure_domains := false; allow_degraded_writes := true;
     watermarks := {| low_percent := 80; high_percent := 90; critical_percent := 95 |};
     capacity_safety_margin_bytes := 1024 * 1024 * 1024;
     failure_detection := {| heartbeat_interval_seconds := 5; suspect_timeout_seconds := 20;
                             offline_timeout_seconds := 120 |};
     repair := repair_default; rebalance := rebalance_default; metadata_voter_target := 3;
     maintenance_serves_reads := true; tombstone_retention_hours := 168;
     unknown_upload_size_reservation_bytes := 64 * 1024 * 1024 |}.

(** ** Storage policies ([policy.rs]) *)

Inductive DurabilityStrategy :=
  | Replication (replicas : Z)
  | ErasureCoding (profile : ErasureProfile).

Record StoragePolicy := {
  sp_class : bytes; sp_description : option bytes; sp_allowed_kinds : list DeviceKind;
  sp_durability : DurabilityStrategy; sp_failure_domain : FailureDomainScope;
  sp_strict_failure_domains : bool; sp_minimum_free_space_percent : Z }.

Inductive StoragePolicyError :=
  | InvalidReplicas | InvalidReserve | ErasureCodingUnavailable | DuplicateDeviceKind (kind : DeviceKind).

Definition MAXIMUM_POLICY_REPLICAS : Z := 16.

(** [Debug] of a device kind and [Display] of a policy error. *)
Definition kind_debug (kind : DeviceKind) : string :=
  match kind with
  | Nvme => "Nvme" | SataSsd => "SataSsd" | SasSsd => "SasSsd" | SataHdd => "SataHdd" | SasHdd => "SasHdd"
  | Ssd => "Ssd" | Hdd => "Hdd" | BlockDevice => "BlockDevice" | RaidLogicalVolume => "RaidLogicalVolume"
  | CloudBlockVolume => "CloudBlockVolume" | FilesystemDirectory => "FilesystemDirectory" | UnknownKind => "Unknown"
  end.
Definition policy_error_display (e : StoragePolicyError) : string :=
  match e with
  | InvalidReplicas => "replication factor must be between 1 and 16"
  | InvalidReserve => "minimum free space must be below 100 percent"
  | ErasureCodingUnavailable =>
      "erasure coding is not available as a bucket durability strategy in this release; the coding engine exists but no write path uses it"
  | DuplicateDeviceKind kind => "device kind " +:+ kind_debug kind +:+ " is listed more than once"
  end.

(** [DeviceFilter::accepts]. *)
Definition filter_accepts (allowed : list DeviceKind) (kind : DeviceKind) : bool :=
  bool_decide (allowed = []) || bool_decide (kind ∈ allowed).

Fixpoint first_duplicate (seen kinds : list DeviceKind) : option DeviceKind :=
  match kinds with
  | [] => None
  | kind :: rest => if bool_decide (kind ∈ seen) then Some kind else first_duplicate (kind :: seen) rest
  end.

Definition policy_validate (p : StoragePolicy) : result StoragePolicyError () :=
  _ ← match sp_durability p with
      | Replication replicas =>
          if (replicas =? 0) || (MAXIMUM_POLICY_REPLICAS <? replicas) then Err InvalidReplicas else Ok ()
      | ErasureCoding _ => Err ErasureCodingUnavailable
      end;
  if 100 <=? sp_minimum_free_space_percent p then Err InvalidReserve
  else match first_duplicate [] (sp_allowed_kinds p) with
       | Some kind => Err (DuplicateDeviceKind kind)
       | None => Ok ()
       end.

Definition default_policy (failure_domain : FailureDomainScope) (replicas : Z) : StoragePolicy :=
  {| sp_class := DEFAULT_CLASS;
     sp_description := Some (bytes_of_string "Default policy for buckets that select no class");
     sp_allowed_kinds := []; sp_durability := Replication replicas; sp_failure_domain := failure_domain;
     sp_strict_failure_domains := false; sp_minimum_free_space_percent := 0 |}.

Definition accepts_device (p : StoragePolicy) (d : DeviceRecord) : bool :=
  bool_decide (d_storage_class d = sp_class p) && filter_accepts (sp_allowed_kinds p) (d_kind d).

Definition policy_reserved_bytes (p : StoragePolicy) (usable : Z) : Z :=
  if sp_minimum_free_space_percent p =? 0 then 0
  else let reserved := usable * sp_minimum_free_space_percent p / 100 in
       if reserved <=? u64_max then reserved else u64_max.

(** ** Versions ([version.rs]) *)

Record NodeVersions := { protocol_major : Z; protocol_minor : Z; software : bytes; storage_format : Z; cluster_format : Z }.

Inductive CompatibilityError :=
  | ProtocolMajor (local remote : Z)
  | ProtocolMinorTooOld (remote minimum : Z)
  | StorageFormatTooNew (local remote : Z)
  | ClusterFormatTooNew (local remote : Z).

Definition MINIMUM_COMPATIBLE_PROTOCOL_MINOR_VERSION : Z := 1.

Definition check_compatibility (local remote : NodeVersions) : result CompatibilityError () :=
  if negb (protocol_major local =? protocol_major remote)
  then Err (ProtocolMajor (protocol_major local) (protocol_major remote))
  else if protocol_minor remote <? MINIMUM_COMPATIBLE_PROTOCOL_MINOR_VERSION
  then Err (ProtocolMinorTooOld (protocol_minor remote) MINIMUM_COMPATIBLE_PROTOCOL_MINOR_VERSION)
  else if storage_format local <? storage_format remote
  then Err (StorageFormatTooNew (storage_format local) (storage_format remote))
  else if cluster_format local <? cluster_format remote
  then Err (ClusterFormatTooNew (cluster_format local) (cluster_format remote))
  else Ok ().

(** ** Nodes ([topology.rs]) *)

Inductive NodeState :=
  | Joining | NodeHealthy | Suspect | Unreachable | Draining | Maintenance | Offline | Decommissioned.
#[export] Instance NodeState_eq_dec : EqDecision NodeState.
Proof. solve_decision. Defined.

Definition accepts_new_replicas (s : NodeState) : bool := match s with NodeHealthy => true | _ => false end.
Definition state_serves_reads (s : NodeState) : bool :=
  match s with NodeHealthy | Suspect | Draining => true | _ => false end.
Definition node_state_contributes (s : NodeState) : bool :=
  match s with NodeHealthy | Suspect | Unreachable | Draining | Maintenance => true | _ => false end.
Definition expected_reachable (s : NodeState) : bool :=
  match s with Joining | NodeHealthy | Suspect | Draining | Maintenance => true | _ => false end.
Definition is_terminal (s : NodeState) : bool := match s with Decommissioned => true | _ => false end.
Definition is_administrative (s : NodeState) : bool :=
  match s with Draining | Maintenance | Decommissioned => true | _ => false end.

Definition node_can_transition (from next : NodeState) : bool :=
  bool_decide (from = next) ||
  negb (is_terminal from) &&
  match from, next with
  | Joining, (NodeHealthy | Suspect | Unreachable | Offline) => true
  | Joining, (Maintenance | Decommissioned) => true
  | NodeHealthy, (Suspect | Unreachable | Offline | Draining | Maintenance | Decommissioned) => true
  | Suspect, (NodeHealthy | Unreachable | Offline | Draining | Maintenance | Decommissioned) => true
  | Unreachable, (NodeHealthy | Suspect | Offline | Draining | Maintenance | Decommissioned) => true
  | Offline, (Joining | NodeHealthy | Suspect | Unreachable) => true
  | Offline, (Maintenance | Decommissioned) => true
  | Draining, (NodeHealthy | Maintenance | Decommissioned) => true
  | Draining, (Suspect | Unreachable | Offline) => true
  | Maintenance, (NodeHealthy | Draining | Decommissioned) => true
  | Maintenance, (Suspect | Unreachable | Offline) => true
  | _, _ => false
  end.

Inductive TopologyError := InvalidStateTransition (from to : NodeState).

Record NodeCapacity := { total_bytes : Z; available_bytes : Z; replica_bytes : Z; temporary_bytes : Z }.
#[export] Instance NodeCapacity_eq_dec : EqDecision NodeCapacity.
Proof. solve_decision. Defined.

Definition node_capacity_default : NodeCapacity :=
  {| total_bytes := 0; available_bytes := 0; replica_bytes := 0; temporary_bytes := 0 |}.
Definition from_devices (devices : list DeviceRecord) : NodeCapacity :=
  foldl (λ total d,
    {| total_bytes := u64_saturating_add (total_bytes total) (raw_bytes (d_capacity d));
       available_bytes := u64_saturating_add (available_bytes total) (device_available_bytes (d_capacity d));
       replica_bytes := u64_saturating_add (replica_bytes total) (allocated_bytes (d_capacity d));
       temporary_bytes := temporary_bytes total |}) node_capacity_default devices.

Definition used_bytes (c : NodeCapacity) : Z := saturating_sub (total_bytes c) (available_bytes c).
Definition utilization_scaled (scale : Z) (c : NodeCapacity) : Z :=
  if total_bytes c =? 0 then scale else Z.min (used_bytes c * scale / total_bytes c) scale.
Definition utilization_percent (c : NodeCapacity) : Z := utilization_scaled 100 c.

Record NodeActivity := { active_uploads : Z; active_downloads : Z; replication_backlog : Z; integrity_failures : Z }.
Definition activity_default : NodeActivity :=
  {| active_uploads := 0; active_downloads := 0; replication_backlog := 0; integrity_failures := 0 |}.

Record NodeRegistration := {
  reg_node_id : bytes; reg_versions : NodeVersions; reg_rpc_address : bytes; reg_s3_endpoint : option bytes;
  reg_management_endpoint : option bytes; reg_storage_class : bytes; reg_failure_domain : gmap bytes bytes;
  reg_capacity : NodeCapacity; reg_devices : list DeviceRecord; reg_started_at : Z }.

Record NodeRecord := {
  n_node_id : bytes; n_raft_id : Z; n_protocol : Z * Z; n_software_version : bytes;
  n_storage_format_version : Z; n_rpc_address : bytes; n_s3_endpoint : option bytes;
  n_management_endpoint : option bytes; n_storage_class : bytes; n_failure_domain : gmap bytes bytes;
  n_state : NodeState; n_metadata_voter : bool; n_capacity : NodeCapacity; n_devices : list DeviceRecord;
  n_activity : NodeActivity; n_joined_at : Z; n_started_at : Z; n_last_heartbeat_at : option Z;
  n_state_changed_at : Z; n_state_reason : option bytes }.

Definition node_joining (r : NodeRegistration) (raft_id : Z) (metadata_voter : bool) (now : Z) : NodeRecord :=
  {| n_node_id := reg_node_id r; n_raft_id := raft_id;
     n_protocol := (protocol_major (reg_versions r), protocol_minor (reg_versions r));
     n_software_version := software (reg_versions r); n_storage_format_version := storage_format (reg_versions r);
     n_rpc_address := reg_rpc_address r; n_s3_endpoint := reg_s3_endpoint r;
     n_management_endpoint := reg_management_endpoint r; n_storage_class := reg_storage_class r;
     n_failure_domain := reg_failure_domain r; n_state := Joining; n_metadata_voter := metadata_voter;
     n_capacity := reg_capacity r; n_devices := reg_devices r; n_activity := activity_default;
     n_joined_at := now; n_started_at := reg_started_at r; n_last_heartbeat_at := Some now;
     n_state_changed_at := now; n_state_reason := Some (bytes_of_string "registered") |}.

(** Assignments to fields of a node record. *)
Definition node_with_state (state : NodeState) (changed_at : Z) (reason : option bytes) (n : NodeRecord) : NodeRecord :=
  {| n_node_id := n_node_id n; n_raft_id := n_raft_id n; n_protocol := n_protocol n;
     n_software_version := n_software_version n; n_storage_format_version := n_storage_format_version n;
     n_rpc_address := n_rpc_address n; n_s3_endpoint := n_s3_endpoint n;
     n_management_endpoint := n_management_endpoint n; n_storage_class := n_storage_class n;
     n_failure_domain := n_failure_domain n; n_state := state; n_metadata_voter := n_metadata_voter n;
     n_capacity := n_capacity n; n_devices := n_devices n; n_activity := n_activity n;
     n_joined_at := n_joined_at n; n_started_at := n_started_at n; n_last_heartbeat_at := n_last_heartbeat_at n;
     n_state_changed_at := changed_at; n_state_reason := reason |}.
Definition node_with_voter (voter : bool) (n : NodeRecord) : NodeRecord :=
  {| n_node_id := n_node_id n; n_raft_id := n_raft_id n; n_protocol := n_protocol n;
     n_software_version := n_software_version n; n_storage_format_version := n_storage_format_version n;
     n_rpc_address := n_rpc_address n; n_s3_endpoint := n_s3_endpoint n;
     n_management_endpoint := n_management_endpoint n; n_storage_class := n_storage_class n;
     n_failure_domain := n_failure_domain n; n_state := n_state n; n_metadata_voter := voter;
     n_capacity := n_capacity n; n_devices := n_devices n; n_activity := n_activity n;
     n_joined_at := n_joined_at n; n_started_at := n_started_at n; n_last_heartbeat_at := n_last_heartbeat_at n;
     n_state_changed_at := n_state_changed_at n; n_state_reason := n_state_reason n |}.
Definition node_with_devices (capacity : NodeCapacity) (devices : list DeviceRecord) (n : NodeRecord) : NodeRecord :=
  {| n_node_id := n_node_id n; n_raft_id := n_raft_id n; n_protocol := n_protocol n;
     n_software_version := n_software_version n; n_storage_format_version := n_storage_format_version n;
     n_rpc_address := n_rpc_address n; n_s3_endpoint := n_s3_endpoint n;
     n_management_endpoint := n_management_endpoint n; n_storage_class := n_storage_class n;
     n_failure_domain := n_failure_domain n; n_state := n_state n; n_metadata_voter := n_metadata_voter n;
     n_capacity := capacity; n_devices := devices; n_activity := n_activity n;
     n_joined_at := n_joined_at n; n_started_at := n_started_at n; n_last_heartbeat_at := n_last_heartbeat_at n;
     n_state_changed_at := n_state_changed_at n; n_state_reason := n_state_reason n |}.
Definition node_with_report (capacity : NodeCapacity) (activity : NodeActivity) (at_ : Z) (n : NodeRecord) : NodeRecord :=
  {| n_node_id := n_node_id n; n_raft_id := n_raft_id n; n_protocol := n_protocol n;
     n_software_version := n_software_version n; n_storage_format_version := n_storage_format_version n;
     n_rpc_address := n_rpc_address n; n_s3_endpoint := n_s3_endpoint n;
     n_management_endpoint := n_management_endpoint n; n_storage_class := n_storage_class n;
     n_failure_domain := n_failure_domain n; n_state := n_state n; n_metadata_voter := n_metadata_voter n;
     n_capacity := capacity; n_devices := n_devices n; n_activity := activity;
     n_joined_at := n_joined_at n; n_started_at := n_started_at n; n_last_heartbeat_at := Some at_;
     n_state_changed_at := n_state_changed_at n; n_state_reason := n_state_reason n |}.

(** [iter_mut().find(p)] followed by an assignment through the reference; [None]
    when nothing is found. *)
Fixpoint alter_first {A} (p : A → bool) (f : A → A) (l : list A) : option (list A) :=
  match l with
  | [] => None
  | x :: l => if p x then Some (f x :: l) else cons x <$> alter_first p f l
  end.

Definition is_device (device_id : bytes) (d : DeviceRecord) : bool := bool_decide (d_id d = device_id).
Definition node_device (n : NodeRecord) (device_id : bytes) : option DeviceRecord :=
  find (is_device device_id) (n_devices n).

Definition ensure_legacy_device (n : NodeRecord) : NodeRecord :=
  match n_devices n with
  | _ :: _ => n
  | [] =>
      let capacity := {| raw_bytes := total_bytes (n_capacity n); usable_bytes := total_bytes (n_capacity n);
                         allocated_bytes := replica_bytes (n_capacity n); reserved_bytes := 0;
                         device_available_bytes := available_bytes (n_capacity n) |} in
      node_with_devices (n_capacity n) [legacy_directory (n_node_id n) None (n_storage_class n) capacity] n
  end.

Definition node_transition (next : NodeState) (reason : option bytes) (now : Z) (n : NodeRecord)
    : result TopologyError (bool * NodeRecord) :=
  if bool_decide (n_state n = next) then
    Ok (false, if reason then node_with_state (n_state n) (n_state_changed_at n) reason n else n)
  else if negb (node_can_transition (n_state n) next) then Err (InvalidStateTransition (n_state n) next)
  else Ok (true, node_with_state next now reason n).

Definition capacity_level (config : ClusterConfig) (n : NodeRecord) : CapacityLevel :=
  watermark_level (watermarks config) (utilization_percent (n_capacity n)).
Definition node_eligible (config : ClusterConfig) (n : NodeRecord) : bool :=
  accepts_new_replicas (n_state n) && level_accepts (capacity_level config n).

Section Domains.
Context `{UuidCrate}.

Definition domain_key (n : NodeRecord) (scope : FailureDomainScope) : bytes :=
  match scope with
  | DomainDevice => bytes_of_string "unknown:device"
  | DomainNode => bytes_of_string "node:" ++ uuid_to_string (n_node_id n)
  | other =>
      match scope_label other ≫= λ label, n_failure_domain n !! label with
      | Some value => scope_display other ++ bytes_of_string ":" ++ value
      | None => bytes_of_string "unknown:" ++ scope_display other
      end
  end.
End Domains.

(** ** The topology view *)

Record ClusterTopology := {
  tp_cluster_id : bytes; tp_config : ClusterConfig; tp_epoch : Z; tp_nodes : list NodeRecord }.

Definition node_le (a b : NodeRecord) : Prop := bytes_le (n_node_id a) (n_node_id b).
#[export] Instance node_le_dec : RelDecision node_le.
Proof. intros a b. unfold node_le. apply _. Defined.

Definition topology_new (cluster_id : bytes) (config : ClusterConfig) (nodes : list NodeRecord) : ClusterTopology :=
  {| tp_cluster_id := cluster_id; tp_config := config; tp_epoch := 0;
     tp_nodes := merge_sort node_le (ensure_legacy_device <$> nodes) |}.
Definition at_epoch (cluster_id : bytes) (config : ClusterConfig) (nodes : list NodeRecord) (epoch : Z)
    : ClusterTopology :=
  let t := topology_new cluster_id config nodes in
  {| tp_cluster_id := tp_cluster_id t; tp_config := tp_config t; tp_epoch := epoch; tp_nodes := tp_nodes t |}.

Definition topology_node (t : ClusterTopology) (node_id : bytes) : option NodeRecord :=
  find (λ n, bool_decide (n_node_id n = node_id)) (tp_nodes t).

Fixpoint find_map {A B} (f : A → option B) (l : list A) : option B :=
  match l with [] => None | x :: l => match f x with Some y => Some y | None => find_map f l end end.
Definition topology_device (t : ClusterTopology) (device_id : bytes) : option (NodeRecord * DeviceRecord) :=
  find_map (λ n, pair n <$> node_device n device_id) (tp_nodes t).

Definition members (t : ClusterTopology) : list NodeRecord :=
  List.filter (λ n, negb (is_terminal (n_state n))) (tp_nodes t).
Definition placeable (t : ClusterTopology) : list NodeRecord :=
  List.filter (node_eligible (tp_config t)) (tp_nodes t).

Definition serves_reads (t : ClusterTopology) (node_id : bytes) : bool :=
  match topology_node t node_id with
  | Some n => state_serves_reads (n_state n) ||
              (bool_decide (n_state n = Maintenance) && maintenance_serves_reads (tp_config t))
  | None => false
  end.
Definition contributes_durability (t : ClusterTopology) (node_id : bytes) : bool :=
  match topology_node t node_id with Some n => node_state_contributes (n_state n) | None => false end.
Definition device_contributes_durability (t : ClusterTopology) (node_id device_id : bytes) : bool :=
  match topology_node t node_id with
  | Some n =>
      node_state_contributes (n_state n) &&
      match node_device n device_id with
      | Some d => device_state_contributes (d_state d) && health_contributes (d_health d)
      | None => false
      end
  | None => false
  end.

End Topology.
