(* ===== verification/Replicas.v ===== *)
(** * Replicas, movement tasks and cluster credentials

    [crates/record-store-cluster/src]: placement metadata, durability accounting
    and tombstones ([replica.rs]), replica movement tasks with their fenced
    leases and long-running operations ([tasks.rs]), node credentials and join
    tokens ([credentials.rs]). *)

From S2P Require Import Prelude Bytes Tables Digest ObjectLock CoreTypes Topology.
Import CoreTypes Topology.

Module Replicas.

(** ** Replicas ([replica.rs]) *)

Inductive ReplicaState := Pending | Healthy | Repairing | Stale | Missing | Deleting | Corrupt.
#[export] Instance ReplicaState_eq_dec : EqDecision ReplicaState.
Proof. solve_decision. Defined.

Definition readable (s : ReplicaState) : bool := match s with Healthy => true | _ => false end.
Definition durable (s : ReplicaState) : bool := match s with Healthy => true | _ => false end.
Definition usable_as_source (s : ReplicaState) : bool := match s with Healthy => true | _ => false end.
Definition needs_repair (s : ReplicaState) : bool :=
  match s with Missing | Corrupt | Stale => true | _ => false end.

Record Replica := {
  r_node_id : bytes; r_device_id : bytes; r_state : ReplicaState; r_location : bytes; r_size : Z;
  r_checksum : option Checksum; r_created_at : Z; r_verified_at : option Z; r_generation : Z }.
#[export] Instance Replica_eq_dec : EqDecision Replica.
Proof. solve_decision. Defined.

Record PayloadPlacement := {
  pl_object_id : bytes; pl_size : Z; pl_checksum : Checksum; pl_desired_replicas : Z;
  pl_storage_class : bytes; pl_placement_epoch : Z; pl_replicas : list Replica; pl_created_at : Z;
  pl_updated_at : Z }.
#[export] Instance PayloadPlacement_eq_dec : EqDecision PayloadPlacement.
Proof. solve_decision. Defined.

Definition with_replicas (replicas : list Replica) (updated_at : Z) (p : PayloadPlacement) : PayloadPlacement :=
  {| pl_object_id := pl_object_id p; pl_size := pl_size p; pl_checksum := pl_checksum p;
     pl_desired_replicas := pl_desired_replicas p; pl_storage_class := pl_storage_class p;
     pl_placement_epoch := pl_placement_epoch p; pl_replicas := replicas; pl_created_at := pl_created_at p;
     pl_updated_at := updated_at |}.

(** The order of [(node_id, device_id)] pairs. *)
Definition target_le (a b : bytes * bytes) : Prop :=
  bytes_lt a.1 b.1 ∨ (a.1 = b.1 ∧ bytes_le a.2 b.2).
#[export] Instance target_le_dec : RelDecision target_le.
Proof. intros a b. unfold target_le. apply _. Defined.

Definition target (r : Replica) : bytes * bytes := (r_node_id r, r_device_id r).
Definition replica_le (a b : Replica) : Prop := target_le (target a) (target b).
#[export] Instance replica_le_dec : RelDecision replica_le.
Proof. intros a b. unfold replica_le. apply _. Defined.

Definition on_target (node_id device_id : bytes) (r : Replica) : bool :=
  bool_decide (r_node_id r = node_id) && bool_decide (r_device_id r = device_id).
Definition on_node (node_id : bytes) (r : Replica) : bool := bool_decide (r_node_id r = node_id).

Definition replica (p : PayloadPlacement) (node_id : bytes) : option Replica := find (on_node node_id) (pl_replicas p).
Definition replica_on (p : PayloadPlacement) (node_id device_id : bytes) : option Replica :=
  find (on_target node_id device_id) (pl_replicas p).

(** [Vec::dedup_by_key] keeps the first of each run of equal keys. *)
Fixpoint dedup_targets (l : list Replica) : list Replica :=
  match l with
  | x :: (y :: _) as rest => if bool_decide (target x = target y) then
                               match dedup_targets rest with [] => [x] | _ :: tail => x :: tail end
                             else x :: dedup_targets rest
  | l => l
  end.

Definition placement_new (object_id : bytes) (size : Z) (checksum : Checksum) (desired_replicas : Z)
    (storage_class : bytes) (replicas : list Replica) (now : Z) : PayloadPlacement :=
  {| pl_object_id := object_id; pl_size := size; pl_checksum := checksum; pl_desired_replicas := desired_replicas;
     pl_storage_class := storage_class; pl_placement_epoch := 0;
     pl_replicas := dedup_targets (merge_sort replica_le replicas); pl_created_at := now; pl_updated_at := now |}.

Definition upsert_replica (r : Replica) (now : Z) (p : PayloadPlacement) : PayloadPlacement :=
  with_replicas
    match alter_first (on_target (r_node_id r) (r_device_id r)) (λ _, r) (pl_replicas p) with
    | Some replicas => replicas
    | None => merge_sort replica_le (pl_replicas p ++ [r])
    end now p.

(** [retain] and the flag whether anything was removed. *)
Definition retain_replicas (keep : Replica → bool) (now : Z) (p : PayloadPlacement) : bool * PayloadPlacement :=
  let kept := List.filter keep (pl_replicas p) in
  if bool_decide (length kept = length (pl_replicas p)) then (false, p)
  else (true, with_replicas kept now p).
Definition remove_replica (node_id : bytes) (now : Z) (p : PayloadPlacement) : bool * PayloadPlacement :=
  retain_replicas (λ r, negb (on_node node_id r)) now p.
Definition remove_replica_on (node_id device_id : bytes) (now : Z) (p : PayloadPlacement) : bool * PayloadPlacement :=
  retain_replicas (λ r, negb (on_target node_id device_id r)) now p.

Definition placement_nodes (p : PayloadPlacement) : gset bytes := list_to_set (r_node_id <$> pl_replicas p).

Record Durability := {
  desired : Z; current : Z; healthy : Z; readable_count : Z; unavailable : Z; damaged : Z }.
#[export] Instance Durability_eq_dec : EqDecision Durability.
Proof. solve_decision. Defined.

Definition durability_step (t : ClusterTopology) (acc : Durability) (r : Replica) : Durability :=
  let target_counts := device_contributes_durability t (r_node_id r) (r_device_id r) in
  {| desired := desired acc;
     current := u32_saturating_add (current acc) 1;
     healthy := if durable (r_state r) && target_counts then u32_saturating_add (healthy acc) 1 else healthy acc;
     readable_count :=
       if readable (r_state r) && serves_reads t (r_node_id r) &&
          match topology_device t (r_device_id r) with
          | Some (_, d) => health_contributes (d_health d)
          | None => false
          end
       then u32_saturating_add (readable_count acc) 1 else readable_count acc;
     unavailable := if negb target_counts then u32_saturating_add (unavailable acc) 1 else unavailable acc;
     damaged := if target_counts && needs_repair (r_state r) then u32_saturating_add (damaged acc) 1
                else damaged acc |}.

Definition durability (t : ClusterTopology) (p : PayloadPlacement) : Durability :=
  foldl (durability_step t)
    {| desired := pl_desired_replicas p; current := 0; healthy := 0; readable_count := 0; unavailable := 0; damaged := 0 |}
    (pl_replicas p).

Definition under_replicated (d : Durability) : bool := healthy d <? desired d.
Definition is_unavailable (d : Durability) : bool := healthy d =? 0.
Definition deficit (d : Durability) : Z := saturating_sub (desired d) (healthy d).

(** Tombstones. *)
Record Tombstone := {
  ts_object_id : bytes; ts_created_at : Z; pending_nodes : gset bytes; completed_nodes : gset bytes;
  ts_completed_at : option Z }.

Definition tombstone_new (object_id : bytes) (nodes : gset bytes) (now : Z) : Tombstone :=
  {| ts_object_id := object_id; ts_created_at := now; pending_nodes := nodes; completed_nodes := ∅;
     ts_completed_at := if bool_decide (nodes = ∅) then Some now else None |}.
Definition acknowledge (node_id : bytes) (now : Z) (t : Tombstone) : Tombstone :=
  let pending := pending_nodes t ∖ {[node_id]} in
  {| ts_object_id := ts_object_id t; ts_created_at := ts_created_at t; pending_nodes := pending;
     completed_nodes := {[node_id]} ∪ completed_nodes t;
     ts_completed_at := if bool_decide (pending = ∅) && bool_decide (ts_completed_at t = None)
                        then Some now else ts_completed_at t |}.
Definition tombstone_completed (t : Tombstone) : bool := bool_decide (is_Some (ts_completed_at t)).

Definition HOUR : Z := 3600 * 10 ^ 9.
Definition purgeable (retention_hours now : Z) (t : Tombstone) : bool :=
  match ts_completed_at t with
  | Some completed => retention_hours * HOUR <=? now - completed
  | None => false
  end.

(** ** Movement tasks ([tasks.rs]) *)

Inductive ReplicaTaskKind := Repair | RepairCorrupt | Drain | DeviceLost | Rebalance | RebalanceDomain | Delete.
#[export] Instance ReplicaTaskKind_eq_dec : EqDecision ReplicaTaskKind.
Proof. solve_decision. Defined.

Definition removes_source (k : ReplicaTaskKind) : bool :=
  match k with Drain | Rebalance | RebalanceDomain => true | _ => false end.
Definition is_deletion (k : ReplicaTaskKind) : bool := match k with Delete => true | _ => false end.

Inductive MovementBudget := RepairBudget | RebalanceBudget.
Definition budget (k : ReplicaTaskKind) : MovementBudget :=
  match k with Rebalance | RebalanceDomain => RebalanceBudget | _ => RepairBudget end.

Inductive ReplicaTaskPriority := UnavailablePriority | CriticalPriority | HighPriority | NormalPriority | LowPriority.
#[export] Instance ReplicaTaskPriority_eq_dec : EqDecision ReplicaTaskPriority.
Proof. solve_decision. Defined.
Definition rank (p : ReplicaTaskPriority) : Z :=
  match p with
  | UnavailablePriority => 0 | CriticalPriority => 1 | HighPriority => 2 | NormalPriority => 3 | LowPriority => 4
  end.

Definition classify (kind : ReplicaTaskKind) (healthy desired : Z) : ReplicaTaskPriority :=
  match kind with
  | Delete => NormalPriority
  | Rebalance | RebalanceDomain => LowPriority
  | Drain => if healthy <=? 1 then CriticalPriority else NormalPriority
  | DeviceLost =>
      if healthy =? 0 then UnavailablePriority
      else if (healthy =? 1) && (1 <? desired) then CriticalPriority
      else HighPriority
  | Repair | RepairCorrupt =>
      if healthy =? 0 then UnavailablePriority
      else if (healthy =? 1) && (1 <? desired) then CriticalPriority
      else if healthy <? desired then HighPriority
      else LowPriority
  end.

Inductive ReplicaTaskState :=
  | Queued
  | Running (node_id : bytes) (started_at lease_expires_at : Z)
  | Completed (completed_at : Z)
  | Parked (parked_at : Z) (reason : bytes)
  | Cancelled (cancelled_at : Z) (reason : bytes).
#[export] Instance ReplicaTaskState_eq_dec : EqDecision ReplicaTaskState.
Proof. solve_decision. Defined.

Definition active (s : ReplicaTaskState) : bool := match s with Queued | Running _ _ _ => true | _ => false end.
Definition is_parked (s : ReplicaTaskState) : bool := match s with Parked _ _ => true | _ => false end.

Record ReplicaTask := {
  t_id : bytes; t_object_id : bytes; t_kind : ReplicaTaskKind; t_priority : ReplicaTaskPriority;
  t_source_node : option bytes; t_source_device : option bytes; t_target_node : option bytes;
  t_target_device : option bytes; t_operation_id : option bytes; t_size : Z; t_fence : Z;
  t_state : ReplicaTaskState; t_attempts : Z; t_last_error : option bytes; t_created_at : Z; t_updated_at : Z }.
#[export] Instance ReplicaTask_eq_dec : EqDecision ReplicaTask.
Proof. solve_decision. Defined.

Definition task_queued (id object_id : bytes) (kind : ReplicaTaskKind) (priority : ReplicaTaskPriority) (size now : Z)
    : ReplicaTask :=
  {| t_id := id; t_object_id := object_id; t_kind := kind; t_priority := priority; t_source_node := None;
     t_source_device := None; t_target_node := None; t_target_device := None; t_operation_id := None;
     t_size := size; t_fence := 0; t_state := Queued; t_attempts := 0; t_last_error := None;
     t_created_at := now; t_updated_at := now |}.

(** Assignments to the fields that change while a task is worked on. *)
Definition task_with (fence : Z) (state : ReplicaTaskState) (attempts : Z) (last_error : option bytes) (updated_at : Z)
    (t : ReplicaTask) : ReplicaTask :=
  {| t_id := t_id t; t_object_id := t_object_id t; t_kind := t_kind t; t_priority := t_priority t;
     t_source_node := t_source_node t; t_source_device := t_source_device t; t_target_node := t_target_node t;
     t_target_device := t_target_device t; t_operation_id := t_operation_id t; t_size := t_size t;
     t_fence := fence; t_state := state; t_attempts := attempts; t_last_error := last_error;
     t_created_at := t_created_at t; t_updated_at := updated_at |}.

(** [TimeDelta::try_seconds] accepts what fits in [i64] milliseconds. *)
Definition MAX_SECONDS : Z := (2 ^ 63 - 1) / 1000.
Definition lease_nanos (lease_seconds : Z) : Z :=
  let seconds := if lease_seconds <? 2 ^ 63 then lease_seconds else 600 in
  (if seconds <=? MAX_SECONDS then seconds else 0) * 10 ^ 9.

Definition task_claim (node_id : bytes) (lease_seconds now : Z) (t : ReplicaTask) : ReplicaTask :=
  task_with (u64_saturating_add (t_fence t) 1) (Running node_id now (now + lease_nanos lease_seconds))
    (t_attempts t) (t_last_error t) now t.
Definition holds_claim (node_id : bytes) (fence : Z) (t : ReplicaTask) : bool :=
  (t_fence t =? fence) && negb (fence =? 0) &&
  match t_state t with Running owner _ _ => bool_decide (owner = node_id) | _ => false end.
Definition lease_expired (now : Z) (t : ReplicaTask) : bool :=
  match t_state t with Running _ _ lease_expires_at => lease_expires_at <=? now | _ => false end.
Definition task_requeue (reason : option bytes) (now : Z) (t : ReplicaTask) : ReplicaTask :=
  task_with (t_fence t) Queued (t_attempts t) (if reason then reason else t_last_error t) now t.
Definition task_fail (reason : bytes) (maximum_attempts now : Z) (t : ReplicaTask) : ReplicaTask :=
  let attempts := u32_saturating_add (t_attempts t) 1 in
  task_with (t_fence t) (if maximum_attempts <=? attempts then Parked now reason else Queued)
    attempts (Some reason) now t.
Definition task_complete (now : Z) (t : ReplicaTask) : ReplicaTask :=
  task_with (t_fence t) (Completed now) (t_attempts t) (t_last_error t) now t.
Definition task_cancel (reason : bytes) (now : Z) (t : ReplicaTask) : ReplicaTask :=
  task_with (t_fence t) (Cancelled now reason) (t_attempts t) (t_last_error t) now t.

(** Long-running operations. *)
Inductive ClusterOperationKind := OperationDrain | OperationRebalance | OperationDecommission.
Inductive ClusterOperationState := Planning | Moving | Verifying | Paused | OpCompleted | OpCancelled | OpFailed.
Definition operation_active (s : ClusterOperationState) : bool :=
  match s with Planning | Moving | Verifying | Paused => true | _ => false end.
Definition progressing (s : ClusterOperationState) : bool :=
  match s with Planning | Moving | Verifying => true | _ => false end.

Record OperationProgress := {
  objects_remaining : Z; bytes_remaining : Z; objects_moved : Z; bytes_moved : Z; replicas_moving : Z; tasks_parked : Z }.
Record ClusterOperation := {
  op_id : bytes; op_kind : ClusterOperationKind; op_node_id : option bytes; op_state : ClusterOperationState;
  op_progress : OperationProgress; op_started_at : Z; op_updated_at : Z; op_completed_at : option Z;
  op_message : option bytes }.

(** ** Credentials ([credentials.rs]) *)

Record NodeCredential := {
  nc_id : bytes; nc_node_id : bytes; nc_secret_digest : bytes; nc_created_at : Z; nc_rotated_at : option Z;
  nc_disabled : bool }.

Inductive CredentialError := Malformed | UnknownCredential | Disabled | Expired | Exhausted | Revoked.

Record JoinToken := {
  jt_id : bytes; jt_token_digest : bytes; jt_created_at : Z; jt_expires_at : Z; jt_maximum_uses : Z;
  jt_uses : Z; jt_revoked : bool; jt_description : bytes }.

Definition MAXIMUM_LIFETIME_SECONDS : Z := 24 * 60 * 60.
Definition MINIMUM_LIFETIME_SECONDS : Z := 60.

Section Credentials.
Context `{HashFunction}.

Definition node_credential_verify (c : NodeCredential) (presented : bytes) : result CredentialError () :=
  if nc_disabled c then Err Disabled
  else if bool_decide (nc_secret_digest c = digest presented) then Ok () else Err UnknownCredential.

(** [raw] is the token handed out: a prefix, the identifier and random text. *)
Definition join_token_issue (id raw description : bytes) (lifetime_seconds maximum_uses now : Z) : JoinToken :=
  let lifetime := Z.min (Z.max lifetime_seconds MINIMUM_LIFETIME_SECONDS) MAXIMUM_LIFETIME_SECONDS in
  {| jt_id := id; jt_token_digest := digest raw; jt_created_at := now; jt_expires_at := now + lifetime * 10 ^ 9;
     jt_maximum_uses := Z.max maximum_uses 1; jt_uses := 0; jt_revoked := false; jt_description := description |}.

Definition join_token_verify (t : JoinToken) (presented : bytes) (now : Z) : result CredentialError () :=
  if jt_revoked t then Err Revoked
  else if jt_expires_at t <=? now then Err Expired
  else if jt_maximum_uses t <=? jt_uses t then Err Exhausted
  else if bool_decide (jt_token_digest t = digest presented) then Ok () else Err UnknownCredential.
End Credentials.

Definition join_token_with (uses : Z) (revoked : bool) (t : JoinToken) : JoinToken :=
  {| jt_id := jt_id t; jt_token_digest := jt_token_digest t; jt_created_at := jt_created_at t;
     jt_expires_at := jt_expires_at t; jt_maximum_uses := jt_maximum_uses t; jt_uses := uses;
     jt_revoked := revoked; jt_description := jt_description t |}.
Definition join_token_consume (t : JoinToken) : JoinToken :=
  join_token_with (u32_saturating_add (jt_uses t) 1) (jt_revoked t) t.
Definition spent (now : Z) (t : JoinToken) : bool :=
  jt_revoked t || (jt_maximum_uses t <=? jt_uses t) || (jt_expires_at t <=? now).

End Replicas.
