(* ===== verification/ClusterCatalog.v ===== *)
(** * The cluster catalog

    The replicated state of a cluster ([crates/record-store-cluster/src/catalog]):
    its tables ([schema.rs]), row keys ([keys.rs]), primitives ([codec.rs]) and the
    deterministic commands that change it ([command.rs], [commands.rs]). A row
    holds the decoded value where the database holds JSON. *)

From S2P Require Import Prelude Bytes Tables ObjectLock CoreTypes Keys Topology Replicas.
Import CoreTypes Topology Replicas.

Module ClusterCatalog.

(** ** Data ([command.rs], [error.rs], [schema.rs]) *)

Record ClusterIdentity := {
  ci_cluster_id : bytes; ci_cluster_format_version : Z; ci_created_at : Z; ci_recovery_generation : Z;
  ci_recovery_id : option bytes; ci_recovered_at : option Z }.

Definition founding (cluster_id : bytes) (format created_at : Z) : ClusterIdentity :=
  {| ci_cluster_id := cluster_id; ci_cluster_format_version := format; ci_created_at := created_at;
     ci_recovery_generation := 0; ci_recovery_id := None; ci_recovered_at := None |}.
Definition same_lineage (a b : ClusterIdentity) : bool :=
  bool_decide (ci_cluster_id a = ci_cluster_id b) &&
  (ci_recovery_generation a =? ci_recovery_generation b) &&
  bool_decide (ci_recovery_id a = ci_recovery_id b).

Inductive ClusterCommand :=
  | InitializeCluster (identity : ClusterIdentity) (config : ClusterConfig)
  | RecordRecovery (recovery_id reason : bytes) (at_ : Z)
  | UpdateConfig (config : ClusterConfig) (at_ : Z)
  | RegisterNode (registration : NodeRegistration) (at_ : Z)
  | Heartbeat (node_id : bytes) (capacity : NodeCapacity) (activity : NodeActivity) (at_ : Z)
  | UpdateNodeDescriptor (node_id rpc_address : bytes) (s3_endpoint management_endpoint : option bytes)
      (versions : NodeVersions) (storage_class : bytes) (failure_domain : gmap bytes bytes) (started_at at_ : Z)
  | SetNodeState (node_id : bytes) (state : NodeState) (reason : option bytes) (at_ : Z)
  | RegisterDevice (node_id : bytes) (device : DeviceRecord) (at_ : Z)
  | PutStoragePolicy (policy : StoragePolicy) (at_ : Z)
  | DeleteStoragePolicy (class : bytes) (at_ : Z)
  | SetDeviceState (node_id device_id : bytes) (state : DeviceState) (at_ : Z)
  | SetNodeMetadataVoter (node_id : bytes) (voter : bool) (at_ : Z)
  | ForgetNode (node_id : bytes)
  | PutPlacement (placement : PayloadPlacement)
  | UpsertReplica (object_id : bytes) (replica : Replica) (at_ : Z)
  | SetReplicaState (object_id node_id : bytes) (state : ReplicaState) (checksum : option Checksum)
      (verified : bool) (at_ : Z)
  | SetReplicaStateOnDevice (object_id node_id device_id : bytes) (state : ReplicaState)
      (checksum : option Checksum) (verified : bool) (at_ : Z)
  | RemoveReplica (object_id node_id : bytes) (at_ : Z)
  | RemoveReplicaFromDevice (object_id node_id device_id : bytes) (at_ : Z)
  | SetDesiredReplicas (object_id : bytes) (desired at_ : Z)
  | DeletePlacement (object_id : bytes) (at_ : Z)
  | AcknowledgeTombstone (object_id node_id : bytes) (at_ : Z)
  | PurgeTombstone (object_id : bytes)
  | EnqueueTask (task : ReplicaTask)
  | ClaimTask (task_id node_id : bytes) (lease_seconds at_ : Z)
  | CompleteTask (task_id : bytes) (node_id : option bytes) (fence at_ : Z)
  | FailTask (task_id : bytes) (node_id : option bytes) (fence : Z) (reason : bytes) (maximum_attempts at_ : Z)
  | RequeueTask (task_id : bytes) (reason : option bytes) (at_ : Z)
  | CancelTask (task_id reason : bytes) (at_ : Z)
  | PurgeTask (task_id : bytes)
  | StartOperation (operation : ClusterOperation)
  | UpdateOperation (operation_id : bytes) (state : ClusterOperationState) (progress : OperationProgress)
      (message : option bytes) (at_ : Z)
  | IssueJoinToken (token : JoinToken)
  | ConsumeJoinToken (token_id : bytes) (at_ : Z)
  | RevokeJoinToken (token_id : bytes) (at_ : Z)
  | PurgeJoinToken (token_id : bytes)
  | PutNodeCredential (credential : NodeCredential)
  | SetNodeCredentialDisabled (node_id : bytes) (disabled : bool) (at_ : Z).

Inductive ClusterOutcome :=
  | NoOutcome
  | NodeOutcome (record : NodeRecord)
  | DeviceOutcome (device : DeviceRecord)
  | StoragePolicyOutcome (policy : StoragePolicy)
  | Registration (record : NodeRecord) (raft_id : Z) (created : bool)
  | PlacementOutcome (placement : PayloadPlacement)
  | TaskOutcome (task : ReplicaTask)
  | OperationOutcome (operation : ClusterOperation)
  | ConfigOutcome (config : ClusterConfig)
  | IdentityOutcome (identity : ClusterIdentity)
  | Changed (changed : bool).

Inductive ClusterCatalogError :=
  | NotInitialized
  | AlreadyInitialized (cluster_id : bytes)
  | NodeNotFound (node_id : bytes)
  | DeviceNotFound (node_id device_id : bytes)
  | PlacementNotFound (object_id : bytes)
  | ReplicaNotFound (object_id node_id : bytes)
  | TombstoneNotFound (object_id : bytes)
  | TaskNotFound (task_id : bytes)
  | OperationNotFound (operation_id : bytes)
  | JoinTokenNotFound (token_id : bytes)
  | CredentialNotFound (node_id : bytes)
  | TopologyRefused (e : TopologyError)
  | DeviceRefused (e : DeviceError)
  | ConfigurationRefused (reason : string)
  | DatabaseRefused (operation reason : string).

(** One field per table; the singletons are optional values. *)
Record ClusterCatalog := {
  IDENTITY : option ClusterIdentity;
  CONFIG : option ClusterConfig;
  NODES : gmap bytes NodeRecord;
  NODE_BY_MEMBER : gmap bytes bytes;
  COUNTERS : gmap string Z;
  PLACEMENTS : gmap bytes PayloadPlacement;
  NODE_REPLICAS : gmap bytes Z;
  TOMBSTONES : gmap bytes Tombstone;
  TASKS : gmap bytes ReplicaTask;
  TASK_QUEUE : gmap bytes bytes;
  TASK_BY_OBJECT : gmap bytes bytes;
  OPERATIONS : gmap bytes ClusterOperation;
  JOIN_TOKENS : gmap bytes JoinToken;
  NODE_CREDENTIALS : gmap bytes NodeCredential;
  STORAGE_POLICIES : gmap bytes StoragePolicy
}.

Definition empty_cluster : ClusterCatalog :=
  {| IDENTITY := None; CONFIG := None; NODES := ∅; NODE_BY_MEMBER := ∅; COUNTERS := ∅; PLACEMENTS := ∅;
     NODE_REPLICAS := ∅; TOMBSTONES := ∅; TASKS := ∅; TASK_QUEUE := ∅; TASK_BY_OBJECT := ∅; OPERATIONS := ∅;
     JOIN_TOKENS := ∅; NODE_CREDENTIALS := ∅; STORAGE_POLICIES := ∅ |}.

Definition upd_identity f c :=
  {| IDENTITY := f (IDENTITY c); CONFIG := CONFIG c; NODES := NODES c; NODE_BY_MEMBER := NODE_BY_MEMBER c; COUNTERS
     := COUNTERS c; PLACEMENTS := PLACEMENTS c; NODE_REPLICAS := NODE_REPLICAS c; TOMBSTONES := TOMBSTONES c; TASKS
     := TASKS c; TASK_QUEUE := TASK_QUEUE c; TASK_BY_OBJECT := TASK_BY_OBJECT c; OPERATIONS := OPERATIONS c;
     JOIN_TOKENS := JOIN_TOKENS c; NODE_CREDENTIALS := NODE_CREDENTIALS c; STORAGE_POLICIES := STORAGE_POLICIES c
     |}.
Definition upd_config f c :=
  {| IDENTITY := IDENTITY c; CONFIG := f (CONFIG c); NODES := NODES c; NODE_BY_MEMBER := NODE_BY_MEMBER c; COUNTERS
     := COUNTERS c; PLACEMENTS := PLACEMENTS c; NODE_REPLICAS := NODE_REPLICAS c; TOMBSTONES := TOMBSTONES c; TASKS
     := TASKS c; TASK_QUEUE := TASK_QUEUE c; TASK_BY_OBJECT := TASK_BY_OBJECT c; OPERATIONS := OPERATIONS c;
     JOIN_TOKENS := JOIN_TOKENS c; NODE_CREDENTIALS := NODE_CREDENTIALS c; STORAGE_POLICIES := STORAGE_POLICIES c
     |}.
Definition upd_nodes f c :=
  {| IDENTITY := IDENTITY c; CONFIG := CONFIG c; NODES := f (NODES c); NODE_BY_MEMBER := NODE_BY_MEMBER c; COUNTERS
     := COUNTERS c; PLACEMENTS := PLACEMENTS c; NODE_REPLICAS := NODE_REPLICAS c; TOMBSTONES := TOMBSTONES c; TASKS
     := TASKS c; TASK_QUEUE := TASK_QUEUE c; TASK_BY_OBJECT := TASK_BY_OBJECT c; OPERATIONS := OPERATIONS c;
     JOIN_TOKENS := JOIN_TOKENS c; NODE_CREDENTIALS := NODE_CREDENTIALS c; STORAGE_POLICIES := STORAGE_POLICIES c
     |}.
Definition upd_node_by_member f c :=
  {| IDENTITY := IDENTITY c; CONFIG := CONFIG c; NODES := NODES c; NODE_BY_MEMBER := f (NODE_BY_MEMBER c); COUNTERS
     := COUNTERS c; PLACEMENTS := PLACEMENTS c; NODE_REPLICAS := NODE_REPLICAS c; TOMBSTONES := TOMBSTONES c; TASKS
     := TASKS c; TASK_QUEUE := TASK_QUEUE c; TASK_BY_OBJECT := TASK_BY_OBJECT c; OPERATIONS := OPERATIONS c;
     JOIN_TOKENS := JOIN_TOKENS c; NODE_CREDENTIALS := NODE_CREDENTIALS c; STORAGE_POLICIES := STORAGE_POLICIES c
     |}.
Definition upd_counters f c :=
  {| IDENTITY := IDENTITY c; CONFIG := CONFIG c; NODES := NODES c; NODE_BY_MEMBER := NODE_BY_MEMBER c; COUNTERS :=
     f (COUNTERS c); PLACEMENTS := PLACEMENTS c; NODE_REPLICAS := NODE_REPLICAS c; TOMBSTONES := TOMBSTONES c;
     TASKS := TASKS c; TASK_QUEUE := TASK_QUEUE c; TASK_BY_OBJECT := TASK_BY_OBJECT c; OPERATIONS := OPERATIONS c;
     JOIN_TOKENS := JOIN_TOKENS c; NODE_CREDENTIALS := NODE_CREDENTIALS c; STORAGE_POLICIES := STORAGE_POLICIES c
     |}.
Definition upd_placements f c :=
  {| IDENTITY := IDENTITY c; CONFIG := CONFIG c; NODES := NODES c; NODE_BY_MEMBER := NODE_BY_MEMBER c; COUNTERS :=
     COUNTERS c; PLACEMENTS := f (PLACEMENTS c); NODE_REPLICAS := NODE_REPLICAS c; TOMBSTONES := TOMBSTONES c;
     TASKS := TASKS c; TASK_QUEUE := TASK_QUEUE c; TASK_BY_OBJECT := TASK_BY_OBJECT c; OPERATIONS := OPERATIONS c;
     JOIN_TOKENS := JOIN_TOKENS c; NODE_CREDENTIALS := NODE_CREDENTIALS c; STORAGE_POLICIES := STORAGE_POLICIES c
     |}.
Definition upd_node_replicas f c :=
  {| IDENTITY := IDENTITY c; CONFIG := CONFIG c; NODES := NODES c; NODE_BY_MEMBER := NODE_BY_MEMBER c; COUNTERS :=
     COUNTERS c; PLACEMENTS := PLACEMENTS c; NODE_REPLICAS := f (NODE_REPLICAS c); TOMBSTONES := TOMBSTONES c;
     TASKS := TASKS c; TASK_QUEUE := TASK_QUEUE c; TASK_BY_OBJECT := TASK_BY_OBJECT c; OPERATIONS := OPERATIONS c;
     JOIN_TOKENS := JOIN_TOKENS c; NODE_CREDENTIALS := NODE_CREDENTIALS c; STORAGE_POLICIES := STORAGE_POLICIES c
     |}.
Definition upd_tombstones f c :=
  {| IDENTITY := IDENTITY c; CONFIG := CONFIG c; NODES := NODES c; NODE_BY_MEMBER := NODE_BY_MEMBER c; COUNTERS :=
     COUNTERS c; PLACEMENTS := PLACEMENTS c; NODE_REPLICAS := NODE_REPLICAS c; TOMBSTONES := f (TOMBSTONES c);
     TASKS := TASKS c; TASK_QUEUE := TASK_QUEUE c; TASK_BY_OBJECT := TASK_BY_OBJECT c; OPERATIONS := OPERATIONS c;
     JOIN_TOKENS := JOIN_TOKENS c; NODE_CREDENTIALS := NODE_CREDENTIALS c; STORAGE_POLICIES := STORAGE_POLICIES c
     |}.
Definition upd_tasks f c :=
  {| IDENTITY := IDENTITY c; CONFIG := CONFIG c; NODES := NODES c; NODE_BY_MEMBER := NODE_BY_MEMBER c; COUNTERS :=
     COUNTERS c; PLACEMENTS := PLACEMENTS c; NODE_REPLICAS := NODE_REPLICAS c; TOMBSTONES := TOMBSTONES c; TASKS :=
     f (TASKS c); TASK_QUEUE := TASK_QUEUE c; TASK_BY_OBJECT := TASK_BY_OBJECT c; OPERATIONS := OPERATIONS c;
     JOIN_TOKENS := JOIN_TOKENS c; NODE_CREDENTIALS := NODE_CREDENTIALS c; STORAGE_POLICIES := STORAGE_POLICIES c
     |}.
Definition upd_task_queue f c :=
  {| IDENTITY := IDENTITY c; CONFIG := CONFIG c; NODES := NODES c; NODE_BY_MEMBER := NODE_BY_MEMBER c; COUNTERS :=
     COUNTERS c; PLACEMENTS := PLACEMENTS c; NODE_REPLICAS := NODE_REPLICAS c; TOMBSTONES := TOMBSTONES c; TASKS :=
     TASKS c; TASK_QUEUE := f (TASK_QUEUE c); TASK_BY_OBJECT := TASK_BY_OBJECT c; OPERATIONS := OPERATIONS c;
     JOIN_TOKENS := JOIN_TOKENS c; NODE_CREDENTIALS := NODE_CREDENTIALS c; STORAGE_POLICIES := STORAGE_POLICIES c
     |}.
Definition upd_task_by_object f c :=
  {| IDENTITY := IDENTITY c; CONFIG := CONFIG c; NODES := NODES c; NODE_BY_MEMBER := NODE_BY_MEMBER c; COUNTERS :=
     COUNTERS c; PLACEMENTS := PLACEMENTS c; NODE_REPLICAS := NODE_REPLICAS c; TOMBSTONES := TOMBSTONES c; TASKS :=
     TASKS c; TASK_QUEUE := TASK_QUEUE c; TASK_BY_OBJECT := f (TASK_BY_OBJECT c); OPERATIONS := OPERATIONS c;
     JOIN_TOKENS := JOIN_TOKENS c; NODE_CREDENTIALS := NODE_CREDENTIALS c; STORAGE_POLICIES := STORAGE_POLICIES c
     |}.
Definition upd_operations f c :=
  {| IDENTITY := IDENTITY c; CONFIG := CONFIG c; NODES := NODES c; NODE_BY_MEMBER := NODE_BY_MEMBER c; COUNTERS :=
     COUNTERS c; PLACEMENTS := PLACEMENTS c; NODE_REPLICAS := NODE_REPLICAS c; TOMBSTONES := TOMBSTONES c; TASKS :=
     TASKS c; TASK_QUEUE := TASK_QUEUE c; TASK_BY_OBJECT := TASK_BY_OBJECT c; OPERATIONS := f (OPERATIONS c);
     JOIN_TOKENS := JOIN_TOKENS c; NODE_CREDENTIALS := NODE_CREDENTIALS c; STORAGE_POLICIES := STORAGE_POLICIES c
     |}.
Definition upd_join_tokens f c :=
  {| IDENTITY := IDENTITY c; CONFIG := CONFIG c; NODES := NODES c; NODE_BY_MEMBER := NODE_BY_MEMBER c; COUNTERS :=
     COUNTERS c; PLACEMENTS := PLACEMENTS c; NODE_REPLICAS := NODE_REPLICAS c; TOMBSTONES := TOMBSTONES c; TASKS :=
     TASKS c; TASK_QUEUE := TASK_QUEUE c; TASK_BY_OBJECT := TASK_BY_OBJECT c; OPERATIONS := OPERATIONS c;
     JOIN_TOKENS := f (JOIN_TOKENS c); NODE_CREDENTIALS := NODE_CREDENTIALS c; STORAGE_POLICIES := STORAGE_POLICIES
     c |}.
Definition upd_node_credentials f c :=
  {| IDENTITY := IDENTITY c; CONFIG := CONFIG c; NODES := NODES c; NODE_BY_MEMBER := NODE_BY_MEMBER c; COUNTERS :=
     COUNTERS c; PLACEMENTS := PLACEMENTS c; NODE_REPLICAS := NODE_REPLICAS c; TOMBSTONES := TOMBSTONES c; TASKS :=
     TASKS c; TASK_QUEUE := TASK_QUEUE c; TASK_BY_OBJECT := TASK_BY_OBJECT c; OPERATIONS := OPERATIONS c;
     JOIN_TOKENS := JOIN_TOKENS c; NODE_CREDENTIALS := f (NODE_CREDENTIALS c); STORAGE_POLICIES := STORAGE_POLICIES
     c |}.
Definition upd_storage_policies f c :=
  {| IDENTITY := IDENTITY c; CONFIG := CONFIG c; NODES := NODES c; NODE_BY_MEMBER := NODE_BY_MEMBER c; COUNTERS :=
     COUNTERS c; PLACEMENTS := PLACEMENTS c; NODE_REPLICAS := NODE_REPLICAS c; TOMBSTONES := TOMBSTONES c; TASKS :=
     TASKS c; TASK_QUEUE := TASK_QUEUE c; TASK_BY_OBJECT := TASK_BY_OBJECT c; OPERATIONS := OPERATIONS c;
     JOIN_TOKENS := JOIN_TOKENS c; NODE_CREDENTIALS := NODE_CREDENTIALS c; STORAGE_POLICIES := f (STORAGE_POLICIES
     c) |}.

(** ** Row keys ([keys.rs]) *)

Definition task_kind_code (kind : ReplicaTaskKind) : Z :=
  match kind with
  | Repair => 0 | RepairCorrupt => 1 | Drain => 2 | Rebalance => 3 | RebalanceDomain => 4 | Delete => 5
  | DeviceLost => 6
  end.
Definition replica_state_code (state : ReplicaState) : Z :=
  match state with
  | Pending => 0 | Healthy => 1 | Repairing => 2 | Stale => 3 | Missing => 4 | Deleting => 5 | Corrupt => 6
  end.
Definition ordered_timestamp (value : Z) : bytes := be_bytes 8 (Z.lxor (u64_wrap (value / 10 ^ 6)) (2 ^ 63)).

Definition task_queue_key (t : ReplicaTask) : bytes :=
  [rank (t_priority t)] ++ ordered_timestamp (t_created_at t) ++ t_id t.
Definition task_object_key (object_id : bytes) (kind : ReplicaTaskKind) : bytes := object_id ++ [task_kind_code kind].
Definition node_replica_key (node_id object_id device_id : bytes) : bytes := node_id ++ object_id ++ device_id.

(** ** Primitives ([codec.rs]) *)

Definition NEXT_MEMBER_ID : string := "next_member_id".
Definition PLACEMENT_COUNT : string := "placements".
Definition LOGICAL_BYTES : string := "logical_bytes".
Definition PHYSICAL_BYTES : string := "physical_bytes".
Definition TOMBSTONE_COUNT : string := "tombstones".
Definition ACTIVE_TASKS : string := "active_tasks".
Definition PARKED_TASKS : string := "parked_tasks".
Definition UNDER_REPLICATED : string := "under_replicated".
Definition UNAVAILABLE_PAYLOADS : string := "unavailable_payloads".
Definition CLUSTER_MAP_EPOCH : string := "cluster_map_epoch".

Notation step := (tx ClusterCatalog ClusterCatalogError).

Definition require_node (node_id : bytes) : step NodeRecord :=
  found ← tx_gets (λ c, NODES c !! node_id); tx_some (NodeNotFound node_id) found.
Definition require_placement (object_id : bytes) : step PayloadPlacement :=
  found ← tx_gets (λ c, PLACEMENTS c !! object_id); tx_some (PlacementNotFound object_id) found.
Definition require_task (task_id : bytes) : step ReplicaTask :=
  found ← tx_gets (λ c, TASKS c !! task_id); tx_some (TaskNotFound task_id) found.
Definition require_config : step ClusterConfig :=
  found ← tx_gets CONFIG; tx_some NotInitialized found.

Definition put_node (n : NodeRecord) (node_id : bytes) : step () := tx_modify (upd_nodes <[node_id := n]>).

Definition read_nodes (c : ClusterCatalog) : list NodeRecord := (table_iter (NODES c)).*2.
Definition count_voters (c : ClusterCatalog) : Z :=
  Z.min (Z.of_nat (length (List.filter (λ n, n_metadata_voter n && negb (is_terminal (n_state n))) (read_nodes c))))
    u32_max.

Definition read_counter (c : ClusterCatalog) (key : string) : Z := default 0 (COUNTERS c !! key).
Definition set_counter (key : string) (value : Z) : step () := tx_modify (upd_counters <[key := value]>).
(** [i128] sums of a [u64] and a difference of two do not overflow. *)
Definition adjust_counter (key : string) (delta : Z) : step () :=
  current ← tx_gets (λ c, read_counter c key);
  set_counter key (Z.min (Z.max (current + delta) 0) u64_max).
Definition next_member_id : step Z :=
  found ← tx_gets (λ c, read_counter c NEXT_MEMBER_ID);
  let current := Z.max found 1 in
  set_counter NEXT_MEMBER_ID (u64_saturating_add current 1);;
  mret current.

(** ** Helpers of the commands ([commands.rs]) *)

Definition advance_cluster_map_epoch : step Z :=
  found ← tx_gets (λ c, read_counter c CLUSTER_MAP_EPOCH);
  let next := u64_saturating_add (Z.max found 1) 1 in
  set_counter CLUSTER_MAP_EPOCH next;;
  mret next.

Definition occupies_bytes (s : ReplicaState) : bool :=
  match s with Healthy | Pending | Repairing | Stale | Corrupt => true | _ => false end.
Definition physical_bytes (p : PayloadPlacement) : Z :=
  foldl (λ total r, u64_saturating_add total (r_size r)) 0
    (List.filter (λ r, occupies_bytes (r_state r)) (pl_replicas p)).

Definition put_node_replica (object_id : bytes) (state : Replica → ReplicaState) (r : Replica) : step () :=
  tx_modify (upd_node_replicas
    <[node_replica_key (r_node_id r) object_id (r_device_id r) := replica_state_code (state r)]>).

Definition write_placement (p : PayloadPlacement) (physical_before : Z) : step () :=
  adjust_counter PHYSICAL_BYTES (physical_bytes p - physical_before);;
  tx_modify (upd_placements <[pl_object_id p := p]>);;
  tx_iter (put_node_replica (pl_object_id p) r_state) (pl_replicas p).

Definition remove_node_replica (node_id object_id : bytes) : step () :=
  let prefix := node_id ++ object_id in
  keys ← tx_gets (λ c, (table_range prefix (Keys.prefix_successor prefix) (NODE_REPLICAS c)).*1);
  tx_iter (λ key, tx_modify (upd_node_replicas (delete key))) keys.
Definition remove_device_replica (node_id device_id object_id : bytes) : step () :=
  tx_modify (upd_node_replicas (delete (node_replica_key node_id object_id device_id))).

Definition node_replica_keys (c : ClusterCatalog) (node_id : bytes) : list bytes :=
  (table_range node_id (Keys.prefix_successor node_id) (NODE_REPLICAS c)).*1.
Definition node_replica_count (c : ClusterCatalog) (node_id : bytes) : Z :=
  Z.min (Z.of_nat (length (node_replica_keys c node_id))) u64_max.
Definition device_replica_count (c : ClusterCatalog) (node_id device_id : bytes) : Z :=
  Z.min (Z.of_nat (length (List.filter (λ raw,
    bool_decide (length raw = 48%nat) && bool_decide (take 16 (drop 32 raw) = device_id))
    (node_replica_keys c node_id)))) u64_max.

Definition insert_task_queue_entry (t : ReplicaTask) : step () :=
  if negb (active (t_state t)) then mret ()
  else tx_modify (upd_task_queue <[task_queue_key t := t_id t]>).
Definition remove_task_queue_entry (t : ReplicaTask) : step () := tx_modify (upd_task_queue (delete (task_queue_key t))).
Definition remove_task_object_entry (t : ReplicaTask) : step () :=
  let key := task_object_key (t_object_id t) (t_kind t) in
  found ← tx_gets (λ c, TASK_BY_OBJECT c !! key);
  if bool_decide (found = Some (t_id t)) then tx_modify (upd_task_by_object (delete key)) else mret ().
Definition put_task (t : ReplicaTask) (task_id : bytes) : step () := tx_modify (upd_tasks <[task_id := t]>).

Definition recount (topology : ClusterTopology) (test : Durability → bool) (placements : list PayloadPlacement) : Z :=
  foldl (λ count p, if test (durability topology p) then u64_saturating_add count 1 else count) 0 placements.
Definition recount_durability : step () :=
  identity ← tx_gets IDENTITY;
  match identity with
  | None => mret ()
  | Some identity =>
      config ← require_config;
      nodes ← tx_gets read_nodes;
      placements ← tx_gets (λ c, (table_iter (PLACEMENTS c)).*2);
      let topology := topology_new (ci_cluster_id identity) config nodes in
      set_counter UNDER_REPLICATED (recount topology under_replicated placements);;
      set_counter UNAVAILABLE_PAYLOADS (recount topology is_unavailable placements)
  end.

(** ** The commands ([commands.rs]) *)

Definition initialize_cluster (identity : ClusterIdentity) (config : ClusterConfig) : step ClusterOutcome :=
  tx_lift (map_err ConfigurationRefused (config_validate config));;
  existing ← tx_gets IDENTITY;
  match existing with
  | Some existing =>
      if bool_decide (ci_cluster_id existing = ci_cluster_id identity) then mret (IdentityOutcome existing)
      else tx_throw (AlreadyInitialized (ci_cluster_id existing))
  | None =>
      tx_modify (upd_identity (λ _, Some identity));;
      tx_modify (upd_config (λ _, Some config));;
      set_counter NEXT_MEMBER_ID 1;;
      set_counter CLUSTER_MAP_EPOCH 1;;
      mret (IdentityOutcome identity)
  end.

Definition record_recovery (recovery_id : bytes) (at_ : Z) : step ClusterOutcome :=
  found ← tx_gets IDENTITY;
  identity ← tx_some NotInitialized found;
  let identity := {| ci_cluster_id := ci_cluster_id identity;
                     ci_cluster_format_version := ci_cluster_format_version identity;
                     ci_created_at := ci_created_at identity;
                     ci_recovery_generation := u32_saturating_add (ci_recovery_generation identity) 1;
                     ci_recovery_id := Some recovery_id; ci_recovered_at := Some at_ |} in
  tx_modify (upd_identity (λ _, Some identity));;
  advance_cluster_map_epoch;;
  mret (IdentityOutcome identity).

Definition update_config (config : ClusterConfig) : step ClusterOutcome :=
  tx_lift (map_err ConfigurationRefused (config_validate config));;
  tx_modify (upd_config (λ _, Some config));;
  advance_cluster_map_epoch;;
  mret (ConfigOutcome config).

(** What a restarted node may declare anew. *)
Definition reregistered (r : NodeRegistration) (at_ : Z) (n : NodeRecord) : NodeRecord :=
  {| n_node_id := n_node_id n; n_raft_id := n_raft_id n;
     n_protocol := (protocol_major (reg_versions r), protocol_minor (reg_versions r));
     n_software_version := software (reg_versions r); n_storage_format_version := storage_format (reg_versions r);
     n_rpc_address := reg_rpc_address r; n_s3_endpoint := reg_s3_endpoint r;
     n_management_endpoint := n_management_endpoint n; n_storage_class := reg_storage_class r;
     n_failure_domain := reg_failure_domain r; n_state := n_state n; n_metadata_voter := n_metadata_voter n;
     n_capacity := reg_capacity r;
     n_devices := match reg_devices r with [] => n_devices n | devices => devices end;
     n_activity := n_activity n; n_joined_at := n_joined_at n; n_started_at := reg_started_at r;
     n_last_heartbeat_at := Some at_; n_state_changed_at := n_state_changed_at n; n_state_reason := n_state_reason n |}.

Definition register_node (registration : NodeRegistration) (at_ : Z) : step ClusterOutcome :=
  let node_id := reg_node_id registration in
  found ← tx_gets (λ c, NODES c !! node_id);
  match found with
  | Some existing =>
      let existing := reregistered registration at_ existing in
      existing ← tx_lift (
        if bool_decide (n_state existing = Offline) || bool_decide (n_state existing = Unreachable) ||
           bool_decide (n_state existing = Suspect)
        then snd <$> map_err TopologyRefused
                       (node_transition Joining (Some (bytes_of_string "node restarted")) at_ existing)
        else Ok existing);
      put_node existing node_id;;
      advance_cluster_map_epoch;;
      mret (Registration existing (n_raft_id existing) false)
  | None =>
      raft_id ← next_member_id;
      voters ← tx_gets count_voters;
      config ← require_config;
      let record := node_joining registration raft_id (voters <? metadata_voter_target config) at_ in
      put_node record node_id;;
      advance_cluster_map_epoch;;
      tx_modify (upd_node_by_member <[be_bytes 8 raft_id := node_id]>);;
      mret (Registration record raft_id true)
  end.

Definition heartbeat (node_id : bytes) (capacity : NodeCapacity) (activity : NodeActivity) (at_ : Z) : step ClusterOutcome :=
  n ← require_node node_id;
  let n := node_with_report capacity activity at_ n in
  put_node n node_id;;
  mret (NodeOutcome n).

Definition described (rpc_address : bytes) (s3_endpoint management_endpoint : option bytes) (versions : NodeVersions)
    (storage_class : bytes) (failure_domain : gmap bytes bytes) (started_at at_ : Z) (n : NodeRecord) : NodeRecord :=
  {| n_node_id := n_node_id n; n_raft_id := n_raft_id n;
     n_protocol := (protocol_major versions, protocol_minor versions); n_software_version := software versions;
     n_storage_format_version := storage_format versions; n_rpc_address := rpc_address; n_s3_endpoint := s3_endpoint;
     n_management_endpoint := management_endpoint; n_storage_class := storage_class;
     n_failure_domain := failure_domain; n_state := n_state n; n_metadata_voter := n_metadata_voter n;
     n_capacity := n_capacity n; n_devices := n_devices n; n_activity := n_activity n;
     n_joined_at := n_joined_at n; n_started_at := started_at; n_last_heartbeat_at := Some at_;
     n_state_changed_at := n_state_changed_at n; n_state_reason := n_state_reason n |}.
Definition update_node_descriptor (node_id rpc_address : bytes) (s3_endpoint management_endpoint : option bytes)
    (versions : NodeVersions) (storage_class : bytes) (failure_domain : gmap bytes bytes) (started_at at_ : Z)
    : step ClusterOutcome :=
  n ← require_node node_id;
  let n := described rpc_address s3_endpoint management_endpoint versions storage_class failure_domain started_at at_ n in
  put_node n node_id;;
  advance_cluster_map_epoch;;
  mret (NodeOutcome n).

Definition set_node_state (node_id : bytes) (state : NodeState) (reason : option bytes) (at_ : Z) : step ClusterOutcome :=
  n ← require_node node_id;
  moved ← tx_lift (map_err TopologyRefused (node_transition state reason at_ n));
  let '(changed, n) := moved in
  let n := if bool_decide (state = Decommissioned) then node_with_voter false n else n in
  put_node n node_id;;
  (if changed : bool then advance_cluster_map_epoch;; recount_durability else mret ());;
  mret (NodeOutcome n).

Definition device_id_le (a b : DeviceRecord) : Prop := bytes_le (d_id a) (d_id b).
#[export] Instance device_id_le_dec : RelDecision device_id_le.
Proof. intros a b. unfold device_id_le. apply _. Defined.

Definition register_device (node_id : bytes) (device : DeviceRecord) : step ClusterOutcome :=
  n ← require_node node_id;
  tx_guard (bool_decide (d_node_id device = node_id))
    (DeviceRefused (WrongNode (d_id device) node_id (d_node_id device)));;
  tx_lift (map_err DeviceRefused (capacity_validate (d_capacity device)));;
  let n := ensure_legacy_device n in
  let device := match node_device n (d_id device) with
                | Some existing => device_with_state (d_state existing) device
                | None => device
                end in
  let devices := match alter_first (is_device (d_id device)) (λ _, device) (n_devices n) with
                 | Some devices => devices
                 | None => n_devices n ++ [device]
                 end in
  let devices := merge_sort device_id_le devices in
  put_node (node_with_devices (from_devices devices) devices n) node_id;;
  advance_cluster_map_epoch;;
  mret (DeviceOutcome device).

Definition put_storage_policy (policy : StoragePolicy) : step ClusterOutcome :=
  tx_lift (map_err (λ e, DatabaseRefused "validate storage policy" (policy_error_display e)) (policy_validate policy));;
  tx_modify (upd_storage_policies <[sp_class policy := policy]>);;
  advance_cluster_map_epoch;;
  mret (StoragePolicyOutcome policy).
Definition delete_storage_policy (class : bytes) : step ClusterOutcome :=
  tx_guard (negb (bool_decide (class = DEFAULT_CLASS)))
    (DatabaseRefused "delete storage policy" "the default storage policy cannot be removed");;
  tx_modify (upd_storage_policies (delete class));;
  advance_cluster_map_epoch;;
  mret NoOutcome.

Definition set_device_state (node_id device_id : bytes) (state : DeviceState) : step ClusterOutcome :=
  n ← require_node node_id;
  held ← tx_gets (λ c, device_replica_count c node_id device_id);
  tx_guard (negb (bool_decide (state = SafeToRemove) && (0 <? held)))
    (DatabaseRefused "mark device safe to remove" "device still owns replica records; evacuation is incomplete");;
  device ← tx_some (DeviceNotFound node_id device_id) (node_device n device_id);
  moved ← tx_lift (map_err DeviceRefused (device_transition state device));
  let '(changed, device) := moved in
  devices ← tx_some (DeviceNotFound node_id device_id)
              (alter_first (is_device device_id) (λ _, device) (n_devices n));
  put_node (node_with_devices (n_capacity n) devices n) node_id;;
  (if changed : bool then advance_cluster_map_epoch;; recount_durability else mret ());;
  mret (DeviceOutcome device).

Definition set_node_metadata_voter (node_id : bytes) (voter : bool) : step ClusterOutcome :=
  n ← require_node node_id;
  let n := node_with_voter voter n in
  put_node n node_id;;
  mret (NodeOutcome n).

Definition forget_node (node_id : bytes) : step ClusterOutcome :=
  found ← tx_gets (λ c, NODES c !! node_id);
  match found with
  | None => mret (Changed false)
  | Some n =>
      tx_guard (bool_decide (n_state n = Decommissioned))
        (TopologyRefused (InvalidStateTransition (n_state n) Decommissioned));;
      held ← tx_gets (λ c, node_replica_count c node_id);
      tx_guard (negb (0 <? held)) (DatabaseRefused "forget node" "node still owns replica records");;
      tx_modify (upd_nodes (delete node_id));;
      tx_modify (upd_node_by_member (delete (be_bytes 8 (n_raft_id n))));;
      tx_modify (upd_node_credentials (delete node_id));;
      advance_cluster_map_epoch;;
      mret (Changed true)
  end.

Definition put_placement (p : PayloadPlacement) : step ClusterOutcome :=
  existing ← tx_gets (λ c, PLACEMENTS c !! pl_object_id p);
  let before := from_option physical_bytes 0 existing in
  match existing with
  | None =>
      adjust_counter PLACEMENT_COUNT 1;;
      adjust_counter LOGICAL_BYTES (pl_size p)
  | Some previous => adjust_counter LOGICAL_BYTES (pl_size p - pl_size previous)
  end;;
  write_placement p before;;
  mret (PlacementOutcome p).

(** The commands that rewrite the placement of one payload. *)
Definition rewrite_placement (object_id : bytes) (f : PayloadPlacement → step PayloadPlacement) : step ClusterOutcome :=
  p ← require_placement object_id;
  let before := physical_bytes p in
  p ← f p;
  write_placement p before;;
  mret (PlacementOutcome p).

Definition upsert_replica_tx (object_id : bytes) (r : Replica) (at_ : Z) : step ClusterOutcome :=
  rewrite_placement object_id (λ p, mret (upsert_replica r at_ p)).

Definition replica_reported (state : ReplicaState) (checksum : option Checksum) (verified : bool) (at_ : Z)
    (r : Replica) : Replica :=
  let promoted := negb (bool_decide (r_state r = Healthy)) && bool_decide (state = Healthy) in
  {| r_node_id := r_node_id r; r_device_id := r_device_id r; r_state := state; r_location := r_location r;
     r_size := r_size r; r_checksum := if checksum then checksum else r_checksum r; r_created_at := r_created_at r;
     r_verified_at := if verified then Some at_ else r_verified_at r;
     r_generation := if promoted then u64_saturating_add (r_generation r) 1 else r_generation r |}.
Definition set_replica_state (object_id node_id : bytes) (selected : Replica → bool) (state : ReplicaState)
    (checksum : option Checksum) (verified : bool) (at_ : Z) : step ClusterOutcome :=
  rewrite_placement object_id (λ p,
    replicas ← tx_some (ReplicaNotFound object_id node_id)
                 (alter_first selected (replica_reported state checksum verified at_) (pl_replicas p));
    mret (with_replicas replicas at_ p)).

Definition remove_replica_tx (object_id node_id : bytes) (at_ : Z) : step ClusterOutcome :=
  rewrite_placement object_id (λ p,
    let '(removed, p) := remove_replica node_id at_ p in
    (if removed : bool then remove_node_replica node_id object_id else mret ());;
    mret p).
Definition remove_replica_from_device (object_id node_id device_id : bytes) (at_ : Z) : step ClusterOutcome :=
  rewrite_placement object_id (λ p,
    let '(removed, p) := remove_replica_on node_id device_id at_ p in
    (if removed : bool then remove_device_replica node_id device_id object_id else mret ());;
    mret p).

Definition with_desired (desired updated_at : Z) (p : PayloadPlacement) : PayloadPlacement :=
  {| pl_object_id := pl_object_id p; pl_size := pl_size p; pl_checksum := pl_checksum p;
     pl_desired_replicas := desired; pl_storage_class := pl_storage_class p;
     pl_placement_epoch := pl_placement_epoch p; pl_replicas := pl_replicas p; pl_created_at := pl_created_at p;
     pl_updated_at := updated_at |}.
Definition set_desired_replicas (object_id : bytes) (desired at_ : Z) : step ClusterOutcome :=
  rewrite_placement object_id (λ p, mret (with_desired desired at_ p)).

Definition delete_placement (object_id : bytes) (at_ : Z) : step ClusterOutcome :=
  found ← tx_gets (λ c, PLACEMENTS c !! object_id);
  match found with
  | None => mret (Changed false)
  | Some p =>
      existing ← tx_gets (λ c, TOMBSTONES c !! object_id);
      tx_modify (upd_tombstones <[object_id := tombstone_new object_id (placement_nodes p) at_]>);;
      (if bool_decide (existing = None) then adjust_counter TOMBSTONE_COUNT 1 else mret ());;
      adjust_counter PLACEMENT_COUNT (-1);;
      adjust_counter LOGICAL_BYTES (- pl_size p);;
      adjust_counter PHYSICAL_BYTES (- physical_bytes p);;
      tx_modify (upd_placements (delete object_id));;
      tx_iter (put_node_replica object_id (λ _, Deleting)) (pl_replicas p);;
      mret (Changed true)
  end.

Definition acknowledge_tombstone (object_id node_id : bytes) (at_ : Z) : step ClusterOutcome :=
  found ← tx_gets (λ c, TOMBSTONES c !! object_id);
  t ← tx_some (TombstoneNotFound object_id) found;
  let t := acknowledge node_id at_ t in
  remove_node_replica node_id object_id;;
  tx_modify (upd_tombstones <[object_id := t]>);;
  mret (Changed (tombstone_completed t)).
Definition purge_tombstone (object_id : bytes) : step ClusterOutcome :=
  found ← tx_gets (λ c : ClusterCatalog, TOMBSTONES c !! object_id);
  tx_modify (upd_tombstones (delete object_id));;
  (if bool_decide (is_Some found) then adjust_counter TOMBSTONE_COUNT (-1) else mret ());;
  mret (Changed (bool_decide (is_Some found))).

(** Tasks. *)
Definition add_task (t : ReplicaTask) : step ClusterOutcome :=
  put_task t (t_id t);;
  tx_modify (upd_task_by_object <[task_object_key (t_object_id t) (t_kind t) := t_id t]>);;
  insert_task_queue_entry t;;
  adjust_counter ACTIVE_TASKS 1;;
  mret (TaskOutcome t).
Definition enqueue_task (t : ReplicaTask) : step ClusterOutcome :=
  found ← tx_gets (λ c, TASK_BY_OBJECT c !! task_object_key (t_object_id t) (t_kind t) ≫= λ id, TASKS c !! id);
  match found with
  | Some existing => if active (t_state existing) then mret (TaskOutcome existing) else add_task t
  | None => add_task t
  end.

Definition claim_task (task_id node_id : bytes) (lease_seconds at_ : Z) : step ClusterOutcome :=
  t ← require_task task_id;
  if negb (bool_decide (t_state t = Queued)) then mret (Changed false)
  else
    remove_task_queue_entry t;;
    let t := task_claim node_id lease_seconds at_ t in
    insert_task_queue_entry t;;
    put_task t task_id;;
    mret (TaskOutcome t).

(** A report that names a worker is ignored unless the worker holds the claim. *)
Definition stale_report (node_id : option bytes) (fence : Z) (t : ReplicaTask) : bool :=
  match node_id with Some node_id => negb (holds_claim node_id fence t) | None => false end.

Definition complete_task (task_id : bytes) (node_id : option bytes) (fence at_ : Z) : step ClusterOutcome :=
  t ← require_task task_id;
  if stale_report node_id fence t then mret (Changed false)
  else
    remove_task_queue_entry t;;
    let was_active := active (t_state t) in
    let t := task_complete at_ t in
    put_task t task_id;;
    remove_task_object_entry t;;
    (if was_active then adjust_counter ACTIVE_TASKS (-1) else mret ());;
    mret (TaskOutcome t).

Definition fail_task (task_id : bytes) (node_id : option bytes) (fence : Z) (reason : bytes) (maximum_attempts at_ : Z)
    : step ClusterOutcome :=
  t ← require_task task_id;
  if stale_report node_id fence t then mret (Changed false)
  else
    remove_task_queue_entry t;;
    let was_active := active (t_state t) in
    let t := task_fail reason maximum_attempts at_ t in
    (if active (t_state t) then insert_task_queue_entry t
     else
       remove_task_object_entry t;;
       (if was_active then adjust_counter ACTIVE_TASKS (-1) else mret ());;
       adjust_counter PARKED_TASKS 1);;
    put_task t task_id;;
    mret (TaskOutcome t).

Definition requeue_task (task_id : bytes) (reason : option bytes) (at_ : Z) : step ClusterOutcome :=
  t ← require_task task_id;
  remove_task_queue_entry t;;
  let was_active := active (t_state t) in
  let t := task_requeue reason at_ t in
  insert_task_queue_entry t;;
  put_task t task_id;;
  (if negb was_active then adjust_counter ACTIVE_TASKS 1;; adjust_counter PARKED_TASKS (-1) else mret ());;
  mret (TaskOutcome t).

Definition cancel_task (task_id reason : bytes) (at_ : Z) : step ClusterOutcome :=
  t ← require_task task_id;
  remove_task_queue_entry t;;
  let was_active := active (t_state t) in
  let t := task_cancel reason at_ t in
  put_task t task_id;;
  remove_task_object_entry t;;
  (if was_active then adjust_counter ACTIVE_TASKS (-1) else mret ());;
  mret (TaskOutcome t).

Definition purge_task (task_id : bytes) : step ClusterOutcome :=
  found ← tx_gets (λ c, TASKS c !! task_id);
  match found with
  | None => mret (Changed false)
  | Some t =>
      if active (t_state t) then mret (Changed false)
      else
        (if is_parked (t_state t) then adjust_counter PARKED_TASKS (-1) else mret ());;
        tx_modify (upd_tasks (delete task_id));;
        mret (Changed true)
  end.

(** Operations, join tokens and node credentials. *)
Definition update_operation (operation_id : bytes) (state : ClusterOperationState) (progress : OperationProgress)
    (message : option bytes) (at_ : Z) : step ClusterOutcome :=
  found ← tx_gets (λ c, OPERATIONS c !! operation_id);
  o ← tx_some (OperationNotFound operation_id) found;
  let o := {| op_id := op_id o; op_kind := op_kind o; op_node_id := op_node_id o; op_state := state;
              op_progress := progress; op_started_at := op_started_at o; op_updated_at := at_;
              op_completed_at := if negb (operation_active state) && bool_decide (op_completed_at o = None)
                                 then Some at_ else op_completed_at o;
              op_message := if message then message else op_message o |} in
  tx_modify (upd_operations <[operation_id := o]>);;
  mret (OperationOutcome o).

Definition consume_join_token (token_id : bytes) (at_ : Z) : step ClusterOutcome :=
  found ← tx_gets (λ c, JOIN_TOKENS c !! token_id);
  t ← tx_some (JoinTokenNotFound token_id) found;
  tx_guard (negb (spent at_ t)) (JoinTokenNotFound token_id);;
  tx_modify (upd_join_tokens <[token_id := join_token_consume t]>);;
  mret (Changed true).
Definition revoke_join_token (token_id : bytes) : step ClusterOutcome :=
  found ← tx_gets (λ c, JOIN_TOKENS c !! token_id);
  t ← tx_some (JoinTokenNotFound token_id) found;
  tx_modify (upd_join_tokens <[token_id := join_token_with (jt_uses t) true t]>);;
  mret (Changed true).
Definition purge_join_token (token_id : bytes) : step ClusterOutcome :=
  found ← tx_gets (λ c : ClusterCatalog, JOIN_TOKENS c !! token_id);
  tx_modify (upd_join_tokens (delete token_id));;
  mret (Changed (bool_decide (is_Some found))).

Definition set_node_credential_disabled (node_id : bytes) (disabled : bool) (at_ : Z) : step ClusterOutcome :=
  found ← tx_gets (λ c, NODE_CREDENTIALS c !! node_id);
  k ← tx_some (CredentialNotFound node_id) found;
  let k := {| nc_id := nc_id k; nc_node_id := nc_node_id k; nc_secret_digest := nc_secret_digest k;
              nc_created_at := nc_created_at k; nc_rotated_at := Some at_; nc_disabled := disabled |} in
  tx_modify (upd_node_credentials <[node_id := k]>);;
  mret (Changed true).

Definition apply_command_tx (command : ClusterCommand) : step ClusterOutcome :=
  match command with
  | InitializeCluster identity config => initialize_cluster identity config
  | RecordRecovery recovery_id _ at_ => record_recovery recovery_id at_
  | UpdateConfig config _ => update_config config
  | RegisterNode registration at_ => register_node registration at_
  | Heartbeat node_id capacity activity at_ => heartbeat node_id capacity activity at_
  | UpdateNodeDescriptor node_id rpc_address s3 management versions class domain started_at at_ =>
      update_node_descriptor node_id rpc_address s3 management versions class domain started_at at_
  | SetNodeState node_id state reason at_ => set_node_state node_id state reason at_
  | RegisterDevice node_id device _ => register_device node_id device
  | PutStoragePolicy policy _ => put_storage_policy policy
  | DeleteStoragePolicy class _ => delete_storage_policy class
  | SetDeviceState node_id device_id state _ => set_device_state node_id device_id state
  | SetNodeMetadataVoter node_id voter _ => set_node_metadata_voter node_id voter
  | ForgetNode node_id => forget_node node_id
  | PutPlacement placement => put_placement placement
  | UpsertReplica object_id r at_ => upsert_replica_tx object_id r at_
  | SetReplicaState object_id node_id state checksum verified at_ =>
      set_replica_state object_id node_id (on_node node_id) state checksum verified at_
  | SetReplicaStateOnDevice object_id node_id device_id state checksum verified at_ =>
      set_replica_state object_id node_id (on_target node_id device_id) state checksum verified at_
  | RemoveReplica object_id node_id at_ => remove_replica_tx object_id node_id at_
  | RemoveReplicaFromDevice object_id node_id device_id at_ => remove_replica_from_device object_id node_id device_id at_
  | SetDesiredReplicas object_id desired at_ => set_desired_replicas object_id desired at_
  | DeletePlacement object_id at_ => delete_placement object_id at_
  | AcknowledgeTombstone object_id node_id at_ => acknowledge_tombstone object_id node_id at_
  | PurgeTombstone object_id => purge_tombstone object_id
  | EnqueueTask task => enqueue_task task
  | ClaimTask task_id node_id lease_seconds at_ => claim_task task_id node_id lease_seconds at_
  | CompleteTask task_id node_id fence at_ => complete_task task_id node_id fence at_
  | FailTask task_id node_id fence reason attempts at_ => fail_task task_id node_id fence reason attempts at_
  | RequeueTask task_id reason at_ => requeue_task task_id reason at_
  | CancelTask task_id reason at_ => cancel_task task_id reason at_
  | PurgeTask task_id => purge_task task_id
  | StartOperation o => tx_modify (upd_operations <[op_id o := o]>);; mret (OperationOutcome o)
  | UpdateOperation operation_id state progress message at_ => update_operation operation_id state progress message at_
  | IssueJoinToken token => tx_modify (upd_join_tokens <[jt_id token := token]>);; mret NoOutcome
  | ConsumeJoinToken token_id at_ => consume_join_token token_id at_
  | RevokeJoinToken token_id _ => revoke_join_token token_id
  | PurgeJoinToken token_id => purge_join_token token_id
  | PutNodeCredential k => tx_modify (upd_node_credentials <[nc_node_id k := k]>);; mret NoOutcome
  | SetNodeCredentialDisabled node_id disabled at_ => set_node_credential_disabled node_id disabled at_
  end.

(** [ClusterCatalog::apply]: one command in a transaction of its own. *)
Definition apply_cluster (command : ClusterCommand) : step ClusterOutcome := atomically (apply_command_tx command).

(** ** Reading ([store.rs]) *)

Record ClusterUsage := {
  us_payloads : Z; us_logical_bytes : Z; us_physical_bytes : Z; us_tombstones : Z; us_active_tasks : Z;
  us_parked_tasks : Z; us_under_replicated : Z; us_unavailable : Z }.
Definition cluster_usage (c : ClusterCatalog) : ClusterUsage :=
  {| us_payloads := read_counter c PLACEMENT_COUNT; us_logical_bytes := read_counter c LOGICAL_BYTES;
     us_physical_bytes := read_counter c PHYSICAL_BYTES; us_tombstones := read_counter c TOMBSTONE_COUNT;
     us_active_tasks := read_counter c ACTIVE_TASKS; us_parked_tasks := read_counter c PARKED_TASKS;
     us_under_replicated := read_counter c UNDER_REPLICATED; us_unavailable := read_counter c UNAVAILABLE_PAYLOADS |}.

Definition node_by_member (raft_id : Z) (c : ClusterCatalog) : option NodeRecord :=
  NODE_BY_MEMBER c !! be_bytes 8 raft_id ≫= λ id, NODES c !! id.

Definition class_le (a b : StoragePolicy) : Prop := bytes_le (sp_class a) (sp_class b).
#[export] Instance class_le_dec : RelDecision class_le.
Proof. intros a b. unfold class_le. apply _. Defined.
Definition storage_policies (c : ClusterCatalog) : result ClusterCatalogError (list StoragePolicy) :=
  config ← ok_or NotInitialized (CONFIG c);
  let policies := (table_iter (STORAGE_POLICIES c)).*2 in
  let policies := if existsb (λ p, bool_decide (sp_class p = DEFAULT_CLASS)) policies then policies
                  else policies ++ [default_policy (failure_domain_scope config) (replication_factor config)] in
  Ok (merge_sort class_le policies).
Definition storage_policy (class : bytes) (c : ClusterCatalog) : result ClusterCatalogError (option StoragePolicy) :=
  policies ← storage_policies c;
  Ok (find (λ p, bool_decide (sp_class p = class)) policies).

Definition topology (c : ClusterCatalog) : result ClusterCatalogError ClusterTopology :=
  identity ← ok_or NotInitialized (IDENTITY c);
  config ← ok_or NotInitialized (CONFIG c);
  Ok (at_epoch (ci_cluster_id identity) config (merge_sort node_le (read_nodes c)) (read_counter c CLUSTER_MAP_EPOCH)).

Definition clamp_limit (limit maximum : Z) : Z := Z.min (Z.max limit 1) maximum.

Definition list_placements (after : option bytes) (limit : Z) (c : ClusterCatalog) : list PayloadPlacement * option bytes :=
  let limit := Z.to_nat (clamp_limit limit 10000) in
  let entries := filter (λ e, bytes_le (from_option (λ id, id ++ [0]) [] after) e.1) (table_iter (PLACEMENTS c)) in
  let found := take (S limit) entries.*2 in
  if bool_decide (limit < length found)%nat
  then (take limit found, pl_object_id <$> last (take limit found))
  else (found, None).

(** The scan of the queue, in key order: most urgent first, then oldest. *)
Fixpoint queue_scan (limit : nat) (c : ClusterCatalog) (entries : list (bytes * bytes)) (tasks : list ReplicaTask)
    : list ReplicaTask * bool :=
  match entries with
  | [] => (tasks, false)
  | (_, id) :: rest =>
      if bool_decide (limit <= length tasks)%nat then (tasks, true)
      else queue_scan limit c rest match TASKS c !! id with Some t => tasks ++ [t] | None => tasks end
  end.
Definition queued_tasks (limit : Z) (c : ClusterCatalog) : list ReplicaTask * bool :=
  queue_scan (Z.to_nat (clamp_limit limit 10000)) c (table_iter (TASK_QUEUE c)) [].

Fixpoint collect_tombstones (test : Tombstone → bool) (limit : nat) (out rest : list Tombstone) : list Tombstone :=
  match rest with
  | [] => out
  | t :: rest =>
      let out := if test t then out ++ [t] else out in
      if bool_decide (limit <= length out)%nat then out else collect_tombstones test limit out rest
  end.
Definition pending_tombstones (limit : Z) (c : ClusterCatalog) : list Tombstone :=
  collect_tombstones (λ t, negb (tombstone_completed t)) (Z.to_nat (clamp_limit limit 10000)) []
    (table_iter (TOMBSTONES c)).*2.
Definition purgeable_tombstones (retention_hours now limit : Z) (c : ClusterCatalog) : list bytes :=
  ts_object_id <$> collect_tombstones (purgeable retention_hours now) (Z.to_nat (clamp_limit limit 10000)) []
    (table_iter (TOMBSTONES c)).*2.

End ClusterCatalog.
