(* ===== verification/ClusterInv.v ===== *)
(** * What holds of every cluster catalog

    The runs of cluster commands and three invariants of the catalogs they lead
    to: member identifiers, placements with their indexes and sums, and movement
    tasks with their queue. Each part is stated over the tables it reads, and the
    commands that leave those tables alone are dealt with by a frame. *)

From S2P Require Import Prelude Bytes Tables ObjectLock CoreTypes Keys Topology Replicas ClusterCatalog.
Import CoreTypes Keys Topology Replicas ClusterCatalog.

Module ClusterInv.

(** ** Runs *)

Definition replica_ok (r : Replica) : Prop := is_v4 (r_node_id r) ∧ uuid_ok (r_device_id r) ∧ 0 ≤ r_size r.

(** What the proposer of a command respects: a cluster is initialized before it is
    reconfigured, identifiers are UUIDs and sizes are not negative, a new task has an
    identifier that is not in use, and workers report under their own name. *)
Definition cluster_ok (c : ClusterCatalog) (cmd : ClusterCommand) : Prop :=
  match cmd with
  | UpdateConfig _ _ => is_Some (IDENTITY c)
  | RegisterNode _ _ => read_counter c NEXT_MEMBER_ID < u64_max
  | PutPlacement p => uuid_ok (pl_object_id p) ∧ 0 ≤ pl_size p ∧ Forall replica_ok (pl_replicas p)
  | UpsertReplica _ r _ => replica_ok r
  | AcknowledgeTombstone _ node_id _ => uuid_ok node_id
  | EnqueueTask t => uuid_ok (t_id t) ∧ t_state t = Queued ∧ TASKS c !! t_id t = None
  | CompleteTask _ node_id _ _ | FailTask _ node_id _ _ _ _ => is_Some node_id
  | ClaimTask id _ _ _ => ∀ t, TASKS c !! id = Some t → 0 ≤ t_fence t < u64_max
  | _ => True
  end.

(** What the catalog leaves to the proposers and they do not always keep. Of the
    payloads [live], a placement is written only while no deletion is recorded for
    the payload and drops none of the replicas it has, and only an acknowledged
    deletion is purged. *)
Definition careful (live : bytes → Prop) (c : ClusterCatalog) (cmd : ClusterCommand) : Prop :=
  match cmd with
  | PutPlacement p => live (pl_object_id p) →
      TOMBSTONES c !! pl_object_id p = None ∧
      ∀ p0, PLACEMENTS c !! pl_object_id p = Some p0 → target <$> pl_replicas p0 ⊆ target <$> pl_replicas p
  | PurgeTombstone object_id => live object_id → ∀ t, TOMBSTONES c !! object_id = Some t → tombstone_completed t = true
  | _ => True
  end.

(** Only outstanding tasks are put back or cancelled. *)
Definition orderly (c : ClusterCatalog) (cmd : ClusterCommand) : Prop :=
  match cmd with
  | RequeueTask id _ _ | CancelTask id _ _ => ∀ t, TASKS c !! id = Some t → active (t_state t) = true
  | _ => True
  end.

Definition one_if (b : bool) : Z := if b then 1 else 0.
Definition logical_sum (c : ClusterCatalog) : Z := msum (λ _, pl_size) (PLACEMENTS c).
Definition physical_sum (c : ClusterCatalog) : Z := msum (λ _, physical_bytes) (PLACEMENTS c).
Definition placement_sum (c : ClusterCatalog) : Z := msum (λ _ _, 1) (PLACEMENTS c).
Definition tombstone_sum (c : ClusterCatalog) : Z := msum (λ _ _, 1) (TOMBSTONES c).
Definition active_sum (c : ClusterCatalog) : Z := msum (λ _ t, one_if (active (t_state t))) (TASKS c).
Definition parked_sum (c : ClusterCatalog) : Z := msum (λ _ t, one_if (is_parked (t_state t))) (TASKS c).

(** The totals fit the 64-bit counters that hold them. *)
Definition fits (c : ClusterCatalog) : Prop :=
  logical_sum c ≤ u64_max ∧ physical_sum c ≤ u64_max ∧ placement_sum c ≤ u64_max ∧ tombstone_sum c ≤ u64_max ∧
  active_sum c ≤ u64_max ∧ parked_sum c ≤ u64_max.

Definition cluster_step (c : ClusterCatalog) (cmd : ClusterCommand) (c' : ClusterCatalog) : Prop :=
  cluster_ok c cmd ∧ (∃ r, apply_cluster cmd c = (r, c')) ∧ fits c'.

Inductive cluster_run (c : ClusterCatalog) : list ClusterCommand → ClusterCatalog → Prop :=
  | run_nil : cluster_run c [] c
  | run_snoc cmds cmd c1 c2 : cluster_run c cmds c1 → cluster_step c1 cmd c2 → cluster_run c (cmds ++ [cmd]) c2.

Definition cluster_reachable (c : ClusterCatalog) : Prop := ∃ cmds, cluster_run empty_cluster cmds c.

Definition after (cmd : ClusterCommand) (c : ClusterCatalog) : ClusterCatalog := (apply_cluster cmd c).2.
Definition exec (cmds : list ClusterCommand) (c : ClusterCatalog) : ClusterCatalog := foldl (λ c cmd, after cmd c) c cmds.

(** [P] holds of every command at the catalog it is applied to. *)
Fixpoint along (P : ClusterCatalog → ClusterCommand → Prop) (c : ClusterCatalog) (cmds : list ClusterCommand) : Prop :=
  match cmds with
  | [] => True
  | cmd :: cmds => P c cmd ∧ along P (after cmd c) cmds
  end.

Lemma run_exec c cmds c' : cluster_run c cmds c' → c' = exec cmds c.
Proof.
  induction 1 as [|cmds cmd c1 c2 _ -> (_ & [r Hr] & _)]; [done|]. unfold exec. rewrite foldl_app. cbn. unfold after at 1.
  fold (exec cmds c). by rewrite Hr.
Qed.

Lemma along_snoc P c cmds cmd : along P c (cmds ++ [cmd]) ↔ along P c cmds ∧ P (exec cmds c) cmd.
Proof. revert c. induction cmds as [|x cmds IH]; intros c; cbn; [tauto|]. rewrite IH. tauto. Qed.

(** An invariant of the steps that respect [P]. *)
Lemma run_along P (I : ClusterCatalog → Prop) c cmds c' :
  (∀ c1 cmd c2, I c1 → cluster_step c1 cmd c2 → P c1 cmd → I c2) → cluster_run c cmds c' → along P c cmds → I c → I c'.
Proof.
  intros Hkeep. induction 1 as [|cmds cmd c1 c2 Hrun IH Hstep]; [done|]. intros [Hall Hone]%along_snoc Hstart.
  rewrite <-(run_exec _ _ _ Hrun) in Hone. eauto.
Qed.

Lemma cluster_run_app c cmds c1 cmds' c2 :
  cluster_run c cmds c1 → cluster_run c1 cmds' c2 → cluster_run c (cmds ++ cmds') c2.
Proof. intros H1. induction 1; [by rewrite app_nil_r|]. rewrite app_assoc. by eapply run_snoc. Qed.

Lemma cluster_reachable_run c cmds c' : cluster_reachable c → cluster_run c cmds c' → cluster_reachable c'.
Proof. intros [cmds0 H0] H1. exists (cmds0 ++ cmds). by eapply cluster_run_app. Qed.

Lemma apply_cluster_ok cmd c out c' : apply_cluster cmd c = (Ok out, c') ↔ apply_command_tx cmd c = (Ok out, c').
Proof. unfold apply_cluster, atomically. destruct (apply_command_tx cmd c) as [[]]; naive_solver. Qed.

(** A command that fails leaves the catalog as it was. *)
Lemma cluster_step_cases c cmd c' :
  cluster_step c cmd c' → c' = c ∨ ∃ out, apply_command_tx cmd c = (Ok out, c').
Proof.
  intros (_ & [r Hr] & _). unfold apply_cluster, atomically in Hr.
  destruct (apply_command_tx cmd c) as [[out|e] c1]; simplify_eq; eauto.
Qed.

(** ** Counters *)

Lemma cluster_adjust_ok key delta u c c' :
  adjust_counter key delta c = (Ok u, c') →
  c' = upd_counters <[key := Z.min (Z.max (read_counter c key + delta) 0) u64_max]> c.
Proof. intros Hrun. unfold adjust_counter, set_counter in Hrun. by tx_step Hrun. Qed.

(** A counter that held a total holds the new total. *)
Lemma clamp_exact z : 0 ≤ z ≤ u64_max → Z.min (Z.max z 0) u64_max = z.
Proof. lia. Qed.

(** Reduces reads of an updated catalog. *)
Ltac rows :=
  cbn [IDENTITY CONFIG NODES NODE_BY_MEMBER COUNTERS PLACEMENTS NODE_REPLICAS TOMBSTONES TASKS TASK_QUEUE
       TASK_BY_OBJECT OPERATIONS JOIN_TOKENS NODE_CREDENTIALS STORAGE_POLICIES upd_identity upd_config upd_nodes
       upd_node_by_member upd_counters upd_placements upd_node_replicas upd_tombstones upd_tasks upd_task_queue
       upd_task_by_object upd_operations upd_join_tokens upd_node_credentials upd_storage_policies] in *.

Lemma read_counter_insert c key value key' :
  read_counter (upd_counters <[key := value]> c) key' = if bool_decide (key = key') then value else read_counter c key'.
Proof.
  unfold read_counter. rows. case_bool_decide as Hk; [subst; by rewrite lookup_insert_eq|by rewrite lookup_insert_ne].
Qed.

Lemma advance_epoch_ok u c c' :
  advance_cluster_map_epoch c = (Ok u, c') → ∃ v, c' = upd_counters <[CLUSTER_MAP_EPOCH := v]> c.
Proof. intros Hrun. unfold advance_cluster_map_epoch, set_counter in Hrun. tx_step Hrun. eauto. Qed.

(** ** Member identifiers *)

Definition next (c : ClusterCatalog) : Z := Z.max (read_counter c NEXT_MEMBER_ID) 1.

Record MembersInv (c : ClusterCatalog) : Prop := {
  mi_uninitialized : IDENTITY c = None → CONFIG c = None ∧ NODES c = ∅ ∧ NODE_BY_MEMBER c = ∅ ∧ next c = 1;
  mi_next : next c ≤ u64_max;
  mi_node : ∀ k n, NODES c !! k = Some n →
    n_node_id n = k ∧ 1 ≤ n_raft_id n < next c ∧ NODE_BY_MEMBER c !! be_bytes 8 (n_raft_id n) = Some k;
  mi_member : ∀ m k, NODE_BY_MEMBER c !! m = Some k → ∃ n, NODES c !! k = Some n ∧ m = be_bytes 8 (n_raft_id n)
}.

(** Nodes of the later catalog were there before or have a new identifier. *)
Definition members_grow (c c' : ClusterCatalog) : Prop :=
  next c ≤ next c' ∧
  ∀ k n', NODES c' !! k = Some n' →
    (∃ n, NODES c !! k = Some n ∧ n_raft_id n = n_raft_id n') ∨ next c ≤ n_raft_id n'.

#[export] Instance members_grow_preorder : PreOrder members_grow.
Proof.
  split; [intros c; split; [done|]; eauto|]. intros c1 c2 c3 [Hn1 Hm1] [Hn2 Hm2]. split; [lia|].
  intros k n3 H3. destruct (Hm2 _ _ H3) as [(n2 & H2 & Heq)|?]; [|right; lia].
  destruct (Hm1 _ _ H2) as [(n1 & H1 & Heq')|?]; [left; exists n1; split; [done|congruence]|right; lia].
Qed.

Definition same_members (c c' : ClusterCatalog) : Prop :=
  NODES c' = NODES c ∧ NODE_BY_MEMBER c' = NODE_BY_MEMBER c ∧
  read_counter c' NEXT_MEMBER_ID = read_counter c NEXT_MEMBER_ID ∧ IDENTITY c' = IDENTITY c ∧ CONFIG c' = CONFIG c.
#[export] Instance same_members_preorder : PreOrder same_members.
Proof. split; [done|]. intros c1 c2 c3 (?&?&?&?&?) (?&?&?&?&?). unfold same_members. split_and!; congruence. Qed.

(** A node record may change as long as its identity does not. *)
Definition same_node (n n' : NodeRecord) : Prop := n_node_id n' = n_node_id n ∧ n_raft_id n' = n_raft_id n.

Lemma members_framed c c' : MembersInv c → same_members c c' → MembersInv c' ∧ members_grow c c'.
Proof.
  intros [H1 H2 H3 H4] (Hn & Hm & Hx & Hi & Hc). assert (Hnext : next c' = next c) by (unfold next; by rewrite Hx).
  split; [split|split]; rewrite ?Hn, ?Hm, ?Hi, ?Hc, ?Hnext; try done. eauto.
Qed.

Lemma members_updated c c1 c' k n n' :
  MembersInv c → NODES c !! k = Some n → same_node n n' → c1 = upd_nodes <[k := n']> c → same_members c1 c' →
  MembersInv c' ∧ members_grow c c'.
Proof.
  intros [H1 H2 H3 H4] Hk [Hid Hraft] -> Hsame.
  assert (Hinv1 : MembersInv (upd_nodes <[k := n']> c)).
  { split; unfold next, read_counter in *; rows; try done.
    - intros Hnone. destruct (H1 Hnone) as (_ & Hz & _). rewrite Hz in Hk. done.
    - intros j m [[<- <-]|[_ Hm]]%lookup_insert_Some; [|by apply H3]. rewrite Hid, Hraft. by apply H3.
    - intros m j Hm. destruct (H4 _ _ Hm) as (x & Hx & ->). destruct (decide (j = k)) as [->|].
      + exists n'. rewrite lookup_insert_eq. split; [done|]. simplify_eq. congruence.
      + exists x. by rewrite lookup_insert_ne. }
  destruct (members_framed _ _ Hinv1 Hsame) as [Hinv' Hgrow]. split; [done|]. etrans; [|exact Hgrow].
  split; [done|]. intros j m. rows. intros [[<- <-]|[_ Hm]]%lookup_insert_Some; left; eauto.
Qed.

Create HintDb frame.

Ltac unfold_members := unfold same_members, read_counter; rows; split_and!; rewrite ?lookup_insert_ne by done; try done.

Lemma set_counter_members key value : key ≠ NEXT_MEMBER_ID → keeps same_members (set_counter key value).
Proof. intros Hk. apply keeps_modify. intros c. unfold_members. Qed.
Lemma adjust_counter_members key delta : key ≠ NEXT_MEMBER_ID → keeps same_members (adjust_counter key delta).
Proof. intros Hk. unfold adjust_counter. keeps_steps. by apply set_counter_members. Qed.
Lemma advance_epoch_members : keeps same_members advance_cluster_map_epoch.
Proof. unfold advance_cluster_map_epoch. keeps_steps. by apply set_counter_members. Qed.
Lemma recount_members : keeps same_members recount_durability.
Proof. unfold recount_durability, require_config. keeps_steps; by apply set_counter_members. Qed.
Lemma put_node_replica_members o f r : keeps same_members (put_node_replica o f r).
Proof. apply keeps_modify. intros c. unfold_members. Qed.
Lemma write_placement_members p before : keeps same_members (write_placement p before).
Proof.
  unfold write_placement. keeps_steps; [by apply adjust_counter_members| |apply put_node_replica_members].
  apply keeps_modify. intros c. unfold_members.
Qed.
Lemma remove_node_replica_members n o : keeps same_members (remove_node_replica n o).
Proof. unfold remove_node_replica. keeps_steps. apply keeps_modify. intros c. unfold_members. Qed.

#[local] Hint Resolve set_counter_members adjust_counter_members advance_epoch_members recount_members
  put_node_replica_members write_placement_members remove_node_replica_members : frame.

Ltac frame_members :=
  keeps_steps; first [by auto with frame|apply keeps_modify; intros ?; unfold_members; fail|idtac].

(** Commands that do not touch nodes. *)
Lemma other_commands_members cmd :
  match cmd with
  | InitializeCluster _ _ | RecordRecovery _ _ _ | UpdateConfig _ _ | RegisterNode _ _ | Heartbeat _ _ _ _
  | UpdateNodeDescriptor _ _ _ _ _ _ _ _ _ | SetNodeState _ _ _ _ | RegisterDevice _ _ _
  | SetDeviceState _ _ _ _ | SetNodeMetadataVoter _ _ _ | ForgetNode _ => True
  | _ => keeps same_members (apply_command_tx cmd)
  end.
Proof.
  destruct cmd; try done; cbn [apply_command_tx];
    unfold put_storage_policy, delete_storage_policy, put_placement, upsert_replica_tx, set_replica_state,
      remove_replica_tx, remove_replica_from_device, set_desired_replicas, rewrite_placement, require_placement,
      remove_device_replica, delete_placement, acknowledge_tombstone, purge_tombstone, enqueue_task, add_task,
      claim_task, complete_task, fail_task, requeue_task, cancel_task, purge_task, update_operation,
      consume_join_token, revoke_join_token, purge_join_token, set_node_credential_disabled, require_task, put_task,
      insert_task_queue_entry, remove_task_queue_entry, remove_task_object_entry; frame_members.
Qed.

(** Replaces the runs of framed steps by what they leave alone. *)
Ltac use_frames :=
  repeat match goal with
  | H : advance_cluster_map_epoch _ = (Ok _, _) |- _ => apply advance_epoch_members in H
  | H : recount_durability _ = (Ok _, _) |- _ => apply recount_members in H
  end.

Lemma transition_same_node next reason now n b n' : node_transition next reason now n = Ok (b, n') → same_node n n'.
Proof.
  unfold node_transition. case_bool_decide; [intros [= _ <-]; by destruct reason|].
  destruct (negb _); [done|]. by intros [= _ <-].
Qed.

Lemma legacy_same_node n : same_node n (ensure_legacy_device n).
Proof. unfold ensure_legacy_device. by destruct (n_devices n). Qed.

(** A command that rewrites the row of one node: [require_node], a new record and
    updates of other tables. *)
Lemma members_put c k n n' c' :
  MembersInv c → NODES c !! k = Some n → same_node n n' → same_members (upd_nodes <[k := n']> c) c' →
  MembersInv c' ∧ members_grow c c'.
Proof. intros. by eapply members_updated. Qed.

Lemma member_key_ne a b : 1 ≤ a → a < b → b ≤ u64_max → be_bytes 8 b ≠ be_bytes 8 a.
Proof. intros H1 H2 H3 Heq. apply be_bytes_u64_inj in Heq; unfold is_u64; lia. Qed.

Lemma members_added c c' k n :
  MembersInv c → is_Some (IDENTITY c) → NODES c !! k = None → n_node_id n = k → n_raft_id n = next c →
  read_counter c NEXT_MEMBER_ID < u64_max → NODES c' = <[k := n]> (NODES c) →
  NODE_BY_MEMBER c' = <[be_bytes 8 (next c) := k]> (NODE_BY_MEMBER c) → next c' = next c + 1 →
  IDENTITY c' = IDENTITY c →
  MembersInv c' ∧ members_grow c c'.
Proof.
  intros [H1 H2 H3 H4] Hid Hk Hn Hraft Hroom HN HM Hnext HI.
  assert (Hle : next c + 1 ≤ u64_max) by (unfold next, u64_max in *; lia).
  split; [split|split]; rewrite ?HN, ?HM, ?Hnext, ?HI; try lia.
  - intros Hnone. rewrite Hnone in Hid. by destruct Hid.
  - intros j m [[<- <-]|[Hne Hm]]%lookup_insert_Some.
    + rewrite Hraft, lookup_insert_eq. split_and!; [done|unfold next; lia|lia|done].
    + destruct (H3 _ _ Hm) as (? & ? & Hrow). split_and!; [done|lia|lia|].
      rewrite lookup_insert_ne; [done|]. apply member_key_ne; lia.
  - intros m j [[<- <-]|[Hne Hm]]%lookup_insert_Some.
    + exists n. by rewrite lookup_insert_eq, Hraft.
    + destruct (H4 _ _ Hm) as (x & Hx & ->). exists x. rewrite lookup_insert_ne; [done|congruence].
  - intros j m [[<- <-]|[Hne Hm]]%lookup_insert_Some; [right; lia|left; eauto].
Qed.

Lemma register_members r at_ c out c' :
  MembersInv c → read_counter c NEXT_MEMBER_ID < u64_max → register_node r at_ c = (Ok out, c') →
  MembersInv c' ∧ members_grow c c'.
Proof.
  intros Hinv Hroom Hrun. unfold register_node in Hrun. apply tx_bind_ok in Hrun as (found & c0 & Hf & Hrun).
  apply tx_gets_ok in Hf as [-> ->]. destruct (NODES c !! reg_node_id r) as [n|] eqn:Hn.
  - unfold put_node in Hrun. tx_step Hrun. use_frames. eapply members_put; [done|done| |done].
    destruct (_ || _); [|by simplify_eq].
    destruct (node_transition _ _ _ _) as [[b n']|e] eqn:Ht; simplify_eq/=. by apply transition_same_node in Ht.
  - unfold next_member_id, set_counter, require_config, put_node in Hrun. tx_step Hrun. use_frames.
    match goal with Hs : same_members _ _ |- _ => destruct Hs as (HN & HM & HX & HI & HC) end.
    unfold read_counter in HX at 2. rows. rewrite lookup_insert_eq in HX.
    eapply (members_added c _ (reg_node_id r)); rows; [done| |done| | |done|exact HN|by rewrite HM| |done].
    + destruct (IDENTITY c) eqn:Hid; [done|]. destruct (mi_uninitialized _ Hinv Hid). congruence.
    + done.
    + done.
    + unfold next at 1. change (read_counter (upd_node_by_member _ s) NEXT_MEMBER_ID) with (read_counter s NEXT_MEMBER_ID).
      rewrite HX. unfold u64_saturating_add, next, u64_max in *. cbn. lia.
Qed.

Lemma forget_members k c out c' :
  MembersInv c → forget_node k c = (Ok out, c') → MembersInv c' ∧ members_grow c c'.
Proof.
  intros Hinv Hrun. unfold forget_node in Hrun. apply tx_bind_ok in Hrun as (found & c0 & Hf & Hrun).
  apply tx_gets_ok in Hf as [-> ->]. destruct (NODES c !! k) as [n|] eqn:Hn; tx_step Hrun; [|by apply members_framed].
  use_frames. match goal with Hs : same_members ?c1 _ |- _ => cut (MembersInv c1 ∧ members_grow c c1) end.
  { intros [Hinv1 Hgrow]. match goal with Hs : same_members _ _ |- _ => destruct (members_framed _ _ Hinv1 Hs) as [? Hg] end.
    split; [done|]. by etrans. }
  destruct Hinv as [H1 H2 H3 H4]. destruct (H3 _ _ Hn) as (Hid & Hr & Hrow).
  split; [split|split]; unfold next, read_counter in *; rows; try done.
  - intros Hnone. destruct (H1 Hnone) as (? & HN & ?). rewrite HN in Hn. done.
  - intros j m [Hne Hm]%lookup_delete_Some. destruct (H3 _ _ Hm) as (? & ? & Hrow'). split_and!; try done; [lia|lia|].
    rewrite lookup_delete_ne; [done|]. intros Heq. rewrite Heq in Hrow. congruence.
  - intros m j [Hne Hm]%lookup_delete_Some. destruct (H4 _ _ Hm) as (x & Hx & ->). exists x. split; [|done].
    rewrite lookup_delete_ne; [done|]. intros ->. congruence.
  - intros j m [Hne Hm]%lookup_delete_Some. eauto.
Qed.

Lemma initialize_members identity config c out c' :
  MembersInv c → initialize_cluster identity config c = (Ok out, c') → MembersInv c' ∧ members_grow c c'.
Proof.
  intros Hinv Hrun. unfold initialize_cluster, set_counter in Hrun.
  apply tx_bind_ok in Hrun as (u & c0 & Hv & Hrun). apply tx_lift_ok in Hv as [_ ->].
  apply tx_bind_ok in Hrun as (found & c0 & Hf & Hrun). apply tx_gets_ok in Hf as [-> ->].
  destruct (IDENTITY c) as [e|] eqn:Hi; [case_bool_decide; tx_step Hrun; by apply members_framed|]. tx_step Hrun.
  destruct Hinv as [H1 H2 H3 H4]. destruct (H1 Hi) as (_ & HN & HM & Hx).
  match goal with |- MembersInv ?c1 ∧ _ => assert (Hnext : next c1 = 1) by (unfold next; by rewrite !read_counter_insert) end.
  split; [split|split]; rewrite ?Hnext, ?Hx; rows; rewrite ?HN, ?HM; try done; unfold u64_max; lia.
Qed.

(** Commands on an initialized cluster that change its identity or configuration. *)
Lemma members_settled c c1 c' :
  MembersInv c → same_members c1 c' → NODES c1 = NODES c → NODE_BY_MEMBER c1 = NODE_BY_MEMBER c →
  COUNTERS c1 = COUNTERS c → is_Some (IDENTITY c1) → MembersInv c' ∧ members_grow c c'.
Proof.
  intros [H1 H2 H3 H4] Hsame HN HM HC [i Hi].
  assert (Hnext : next c1 = next c) by (unfold next, read_counter; by rewrite HC).
  assert (Hinv1 : MembersInv c1) by (split; rewrite ?HN, ?HM, ?Hnext, ?Hi; done).
  destruct (members_framed _ _ Hinv1 Hsame) as [? Hgrow]. split; [done|]. etrans; [|done].
  split; [lia|]. rewrite HN. eauto.
Qed.

Lemma changed_frames (changed : bool) c u c' :
  (if changed then advance_cluster_map_epoch ;; recount_durability else mret ()) c = (Ok u, c') → same_members c c'.
Proof. intros Hrun. destruct changed; tx_step Hrun; use_frames; [by etrans|done]. Qed.

Ltac node_put := eapply members_put; [eassumption|eassumption| |first [eassumption|reflexivity]]; try done.

Lemma members_step c cmd out c' :
  MembersInv c → cluster_ok c cmd → apply_command_tx cmd c = (Ok out, c') → MembersInv c' ∧ members_grow c c'.
Proof.
  intros Hinv Hok Hrun. pose proof (other_commands_members cmd) as Hother.
  destruct cmd; try (by apply members_framed; [|eapply Hother]); clear Hother; cbn [apply_command_tx] in Hrun.
  - by eapply initialize_members.
  - unfold record_recovery in Hrun. tx_step Hrun. use_frames. by eapply members_settled.
  - unfold update_config in Hrun. tx_step Hrun. use_frames. by eapply members_settled.
  - by eapply register_members.
  - unfold heartbeat, require_node, put_node in Hrun. tx_step Hrun. node_put.
  - unfold update_node_descriptor, require_node, put_node in Hrun. tx_step Hrun. use_frames. node_put.
  - unfold set_node_state, require_node, put_node in Hrun. tx_step Hrun.
    match goal with Hm : map_err _ _ = Ok ?x, Hr : (let '(_, _) := ?x in _) _ = _ |- _ =>
      destruct x as [changed n'] eqn:Hx; tx_step Hr; rename Hm into Hmove end.
    match goal with Hc : (if changed then _ else _) _ = _ |- _ => apply changed_frames in Hc end. node_put.
    destruct (node_transition _ _ _ _) as [[b n1]|e] eqn:Ht; simplify_eq/=. apply transition_same_node in Ht.
    by destruct (bool_decide _).
  - unfold register_device, require_node, put_node in Hrun. tx_step Hrun. use_frames. node_put. apply legacy_same_node.
  - unfold set_device_state, require_node, put_node in Hrun. tx_step Hrun.
    match goal with Hr : (let '(_, _) := ?x in _) _ = _ |- _ => destruct x as [changed d]; tx_step Hr end.
    match goal with Hc : (if changed then _ else _) _ = _ |- _ => apply changed_frames in Hc end. node_put.
  - unfold set_node_metadata_voter, require_node, put_node in Hrun. tx_step Hrun. node_put.
  - by eapply forget_members.
Qed.

Lemma empty_members : MembersInv empty_cluster.
Proof. split; cbn; try done. Qed.

Lemma members_run c cmds c' : MembersInv c → cluster_run c cmds c' → MembersInv c' ∧ members_grow c c'.
Proof.
  intros Hinv. induction 1 as [|cmds cmd c1 c2 _ [Hinv1 Hgrow] Hstep]; [done|].
  pose proof Hstep as [Hok _]. destruct (cluster_step_cases _ _ _ Hstep) as [->|[out Hrun]]; [done|].
  destruct (members_step _ _ _ _ Hinv1 Hok Hrun). split; [done|]. by etrans.
Qed.

End ClusterInv.

(** * Sample clusters

    Running a list of commands by computation, and the small cluster the examples
    of the cluster theorems use. *)

Import CoreTypes Keys Topology Replicas ClusterCatalog ClusterInv.

Module ClusterSamples.

(** ** Runs by computation *)

Fixpoint allowed (cmds : list ClusterCommand) (c : ClusterCatalog) : Prop :=
  match cmds with
  | [] => True
  | cmd :: cmds => cluster_ok c cmd ∧ fits (after cmd c) ∧ allowed cmds (after cmd c)
  end.

#[export] Instance lookup_forall_dec {A} (P : A → Prop) (o : option A) : (∀ x, Decision (P x)) → Decision (∀ x, o = Some x → P x).
Proof.
  intros Hdec. destruct o as [x|]; [|left; done].
  destruct (Hdec x) as [Hx|Hx]; [left; by intros ? [= <-]|right; intros Hall; by apply Hx, Hall].
Defined.

#[export] Instance is_v4_dec id : Decision (is_v4 id).
Proof.
  unfold is_v4. apply and_dec; [apply _|]. destruct (id !! 6%nat) as [b|] eqn:Hb; [|right; by intros (? & ? & _)].
  destruct (decide (64 ≤ b < 80)) as [H|H]; [left; eauto|right; by intros (? & [= <-] & ?)].
Defined.

#[export] Instance replica_ok_dec r : Decision (replica_ok r).
Proof. unfold replica_ok. apply _. Defined.

#[export] Instance cluster_ok_dec c cmd : Decision (cluster_ok c cmd).
Proof. destruct cmd; cbn [cluster_ok]; apply _. Defined.

#[export] Instance careful_dec live c cmd : (∀ o, Decision (live o)) → Decision (careful live c cmd).
Proof. intros ?. destruct cmd; cbn [careful]; apply _. Defined.

#[export] Instance orderly_dec c cmd : Decision (orderly c cmd).
Proof. destruct cmd; cbn [orderly]; apply _. Defined.

#[export] Instance along_dec P cmds : (∀ c cmd, Decision (P c cmd)) → ∀ c, Decision (along P c cmds).
Proof. intros ?. induction cmds; intros c; cbn [along]; apply _. Defined.

#[export] Instance fits_dec c : Decision (fits c).
Proof. unfold fits. apply _. Defined.

#[export] Instance allowed_dec cmds : ∀ c, Decision (allowed cmds c).
Proof. induction cmds; intros c; cbn [allowed]; apply _. Defined.

Lemma exec_run cmds c : allowed cmds c → cluster_run c cmds (exec cmds c).
Proof.
  revert c. induction cmds as [|cmd cmds IH]; intros c Hall; [constructor|]. destruct Hall as (Hok & Hfits & Hall).
  apply (cluster_run_app _ [cmd] (after cmd c)); [|by apply IH].
  eapply (run_snoc _ []); [constructor|]. split; [done|]. split; [|done]. unfold after. destruct (apply_cluster cmd c). eauto.
Qed.

(** ** A cluster of three nodes with one payload *)

Definition v4_id (n : Z) : bytes := [n; 0; 0; 0; 0; 0; 64; 0; 128; 0; 0; 0; 0; 0; 0; 0].
Lemma v4_id_ok n : 0 ≤ n < 256 → is_v4 (v4_id n).
Proof.
  intros Hn. split; [split; [done|repeat constructor; cbn; lia]|]. exists 64. split; [done|lia].
Qed.
Definition node_a : bytes := v4_id 1.
Definition node_b : bytes := v4_id 2.
Definition node_c : bytes := v4_id 3.
Definition device_a : bytes := v4_id 11.
Definition device_b : bytes := v4_id 12.
Definition payload : bytes := v4_id 21.

Definition versions : NodeVersions :=
  {| software := bytes_of_string "1.0.0"; protocol_major := 1; protocol_minor := 0; cluster_format := 1; storage_format := 1 |}.
Definition capacity : NodeCapacity :=
  {| total_bytes := 10 ^ 12; available_bytes := 9 * 10 ^ 11; replica_bytes := 0; temporary_bytes := 0 |}.
Definition joins (node_id : bytes) : NodeRegistration :=
  {| reg_node_id := node_id; reg_versions := versions; reg_rpc_address := bytes_of_string "10.0.0.1:7000";
     reg_s3_endpoint := None; reg_management_endpoint := None; reg_storage_class := DEFAULT_CLASS;
     reg_failure_domain := ∅; reg_capacity := capacity; reg_devices := []; reg_started_at := 0 |}.

Definition sum_of (n : Z) : Checksum := {| checksum_algorithm := Sha256Checksum; checksum_digest := repeat n 32 |}.
Definition copy (node_id device_id : bytes) : Replica :=
  {| r_node_id := node_id; r_device_id := device_id; r_state := Healthy; r_location := bytes_of_string "objects"; r_size := 100;
     r_checksum := Some (sum_of 7); r_created_at := 5; r_verified_at := None; r_generation := 1 |}.
Definition placed : PayloadPlacement :=
  {| pl_object_id := payload; pl_size := 100; pl_checksum := sum_of 7; pl_desired_replicas := 2;
     pl_storage_class := DEFAULT_CLASS; pl_placement_epoch := 1;
     pl_replicas := [copy node_a device_a; copy node_b device_b]; pl_created_at := 5; pl_updated_at := 5 |}.

Definition repair_task : ReplicaTask := task_queued (v4_id 31) payload Repair HighPriority 100 6.
Definition balance_task : ReplicaTask := task_queued (v4_id 32) payload Rebalance LowPriority 100 6.

Definition founded : list ClusterCommand :=
  [ InitializeCluster (founding (v4_id 90) 1 0) config_default;
    RegisterNode (joins node_a) 1; RegisterNode (joins node_b) 2; RegisterNode (joins node_c) 3;
    SetNodeState node_a NodeHealthy None 4; SetNodeState node_b NodeHealthy None 4 ].
Definition stored : list ClusterCommand :=
  founded ++ [PutPlacement placed; EnqueueTask balance_task; EnqueueTask repair_task].

Lemma founded_run : cluster_run empty_cluster founded (exec founded empty_cluster).
Proof. apply exec_run. apply (bool_decide_unpack _). vm_compute. done. Qed.
Lemma stored_run : cluster_run empty_cluster stored (exec stored empty_cluster).
Proof. apply exec_run. apply (bool_decide_unpack _). vm_compute. done. Qed.

End ClusterSamples.
