(* ===== verification/ClusterPlacements.v ===== *)
(** * Placements, their index and their sums

    The invariant of the placement tables: every replica of a placement has its
    row in the per-node index, deleted payloads have no placement, and the usage
    counters are the sums over the rows. *)

From S2P Require Import Prelude Bytes Tables ObjectLock CoreTypes Keys Topology Replicas ClusterCatalog ClusterInv.
Import CoreTypes Keys Topology Replicas ClusterCatalog ClusterInv.

Module ClusterPlacements.

Definition index_key (object_id : bytes) (r : Replica) : bytes := node_replica_key (r_node_id r) object_id (r_device_id r).

(** The usage counters hold the sums over the rows. *)
Record CountsInv (c : ClusterCatalog) : Prop := {
  co_count : read_counter c PLACEMENT_COUNT = placement_sum c;
  co_logical : read_counter c LOGICAL_BYTES = logical_sum c;
  co_physical : read_counter c PHYSICAL_BYTES = physical_sum c;
  co_tombstones : read_counter c TOMBSTONE_COUNT = tombstone_sum c }.

(** ** Sizes *)

Lemma physical_bytes_nonneg p : Forall replica_ok (pl_replicas p) → 0 ≤ physical_bytes p.
Proof.
  intros Hall. unfold physical_bytes. set (l := List.filter _ _).
  assert (Hl : Forall (λ r, 0 ≤ r_size r) l).
  { unfold l. induction Hall as [|r l' (_ & _ & Hr) _ IH]; cbn; [done|]. destruct (occupies_bytes _); [by constructor|done]. }
  clearbody l. assert (Hgen : ∀ acc, 0 ≤ acc → 0 ≤ foldl (λ total r, u64_saturating_add total (r_size r)) acc l).
  { induction Hl as [|r l' Hr _ IH]; intros acc Hacc; cbn [foldl]; [done|]. apply IH. unfold u64_saturating_add, u64_max. lia. }
  by apply Hgen.
Qed.

(** ** Updates of the index *)

Lemma index_puts o f l u c c' :
  tx_iter (put_node_replica o f) l c = (Ok u, c') →
  ∃ t, c' = upd_node_replicas (λ _, t) c ∧
    ∀ k, is_Some (t !! k) ↔ is_Some (NODE_REPLICAS c !! k) ∨ ∃ r, r ∈ l ∧ k = index_key o r.
Proof.
  revert c. induction l as [|r l IH]; intros c Hrun; cbn [tx_iter] in Hrun.
  - tx_step Hrun. exists (NODE_REPLICAS c). split; [by destruct c|]. intros k. set_solver.
  - apply tx_bind_ok in Hrun as (u1 & c1 & H1 & H2). unfold put_node_replica in H1. tx_step H1.
    destruct (IH _ H2) as (t & -> & Ht). exists t. split; [done|]. intros k. rewrite Ht. rows.
    rewrite lookup_insert_is_Some'. setoid_rewrite elem_of_cons. unfold index_key. naive_solver.
Qed.

Lemma write_placement_ok p before u c c' :
  write_placement p before c = (Ok u, c') →
  ∃ t, c' = upd_node_replicas (λ _, t) (upd_placements <[pl_object_id p := p]>
         (upd_counters <[PHYSICAL_BYTES :=
            Z.min (Z.max (read_counter c PHYSICAL_BYTES + (physical_bytes p - before)) 0) u64_max]> c)) ∧
    ∀ k, is_Some (t !! k) ↔ is_Some (NODE_REPLICAS c !! k) ∨ ∃ r, r ∈ pl_replicas p ∧ k = index_key (pl_object_id p) r.
Proof.
  intros Hrun. unfold write_placement in Hrun. tx_step Hrun.
  match goal with Ha : adjust_counter _ _ _ = _ |- _ => apply cluster_adjust_ok in Ha; subst end.
  match goal with Hi : tx_iter _ _ _ = _ |- _ => destruct (index_puts _ _ _ _ _ _ Hi) as (t & -> & Ht) end.
  exists t. split; [done|]. intros k. by rewrite Ht.
Qed.

Lemma index_deletes keys u c c' :
  tx_iter (λ key, tx_modify (upd_node_replicas (delete key)) : step ()) keys c = (Ok u, c') →
  ∃ t, c' = upd_node_replicas (λ _, t) c ∧ ∀ k x, t !! k = Some x ↔ NODE_REPLICAS c !! k = Some x ∧ k ∉ keys.
Proof.
  revert c. induction keys as [|key keys IH]; intros c Hrun; cbn [tx_iter] in Hrun.
  - tx_step Hrun. exists (NODE_REPLICAS c). split; [by destruct c|]. intros k x. set_solver.
  - apply tx_bind_ok in Hrun as (u1 & c1 & H1 & H2). tx_step H1. destruct (IH _ H2) as (t & -> & Ht). exists t.
    split; [done|]. intros k x. rewrite Ht. rows. rewrite lookup_delete_Some. set_solver.
Qed.

(** Removing the rows of an object on a node removes exactly those. *)
Lemma remove_node_replica_ok n o u c c' :
  uuid_ok n → uuid_ok o → remove_node_replica n o c = (Ok u, c') →
  ∃ t, c' = upd_node_replicas (λ _, t) c ∧
    (∀ k x, t !! k = Some x → NODE_REPLICAS c !! k = Some x) ∧
    (∀ n' o' d x, uuid_ok n' → uuid_ok o' → uuid_ok d → n' ≠ n ∨ o' ≠ o →
       NODE_REPLICAS c !! node_replica_key n' o' d = Some x → t !! node_replica_key n' o' d = Some x) ∧
    (is_v4 n → ∀ d, t !! node_replica_key n o d = None).
Proof.
  intros Hn Ho Hrun. unfold remove_node_replica in Hrun. apply tx_bind_ok in Hrun as (keys & c1 & Hk & Hrun).
  apply tx_gets_ok in Hk as [-> ->]. destruct (index_deletes _ _ _ _ Hrun) as (t & -> & Ht). exists t.
  split; [done|]. split; [intros k x Hx; by apply Ht in Hx as [? _]|]. split.
  - intros n' o' d x Hn' Ho' Hd Hne Hx. apply Ht. split; [done|]. intros ([k y] & Hkey & [Hy Hr]%elem_of_table_range)%list_elem_of_fmap.
    cbn in Hkey. subst k. apply prefix_range_sound in Hr as [rest Heq].
    + unfold node_replica_key in Heq. rewrite <-app_assoc in Heq. apply app_inj_len in Heq as [<- Heq]; [|destruct Hn, Hn'; congruence].
      apply app_inj_len in Heq as [<- _]; [|destruct Ho, Ho'; congruence]. naive_solver.
    + unfold node_replica_key. destruct Hn', Ho', Hd. unfold bytes_ok. by rewrite !Forall_app.
  - intros Hv4 d. apply eq_None_not_Some. intros [x [Hx Hnot]%Ht]. apply Hnot. apply list_elem_of_fmap.
    exists (node_replica_key n o d, x). split; [done|]. apply elem_of_table_range. split; [done|].
    unfold node_replica_key. rewrite app_assoc. apply prefix_range_complete. right. by apply v4_prefix_successor.
Qed.

Ltac adjusted := repeat match goal with H : adjust_counter _ _ _ = _ |- _ => apply cluster_adjust_ok in H; subst end.

(** ** Placements, their index and deletions *)

Section Placements.
(** The payloads whose placements are written with care. *)
Context (live : bytes → Prop).

Record PlacementRow (c : ClusterCatalog) (o : bytes) (p : PayloadPlacement) : Prop := {
  pr_id : pl_object_id p = o;
  pr_uuid : uuid_ok o;
  pr_size : 0 ≤ pl_size p;
  pr_replicas : Forall replica_ok (pl_replicas p);
  pr_indexed : live o → ∀ r, r ∈ pl_replicas p → is_Some (NODE_REPLICAS c !! index_key o r);
  pr_alive : live o → TOMBSTONES c !! o = None }.

(** Why a row of the index is there: a replica of a placement, or bytes a deletion
    has still to remove. *)
Definition owed (c : ClusterCatalog) (n o d : bytes) : Prop :=
  (∃ p, PLACEMENTS c !! o = Some p ∧ (n, d) ∈ target <$> pl_replicas p) ∨
  (∃ t, TOMBSTONES c !! o = Some t ∧ n ∈ pending_nodes t).

Record TombstoneRow (c : ClusterCatalog) (o : bytes) (t : Tombstone) : Prop := {
  tr_id : ts_object_id t = o;
  tr_uuid : uuid_ok o;
  tr_completed : tombstone_completed t = true → pending_nodes t = ∅;
  tr_pending : live o → ∀ n, n ∈ pending_nodes t →
    ∃ d, is_v4 n ∧ uuid_ok d ∧ is_Some (NODE_REPLICAS c !! node_replica_key n o d) }.

Record PlacementsInv (c : ClusterCatalog) : Prop := {
  pi_placement : ∀ o p, PLACEMENTS c !! o = Some p → PlacementRow c o p;
  pi_index : ∀ k, is_Some (NODE_REPLICAS c !! k) →
    ∃ n o d, k = node_replica_key n o d ∧ is_v4 n ∧ uuid_ok o ∧ uuid_ok d ∧ (live o → owed c n o d);
  pi_tombstone : ∀ o t, TOMBSTONES c !! o = Some t → TombstoneRow c o t }.

(** ** Rewriting a placement *)

Record placement_ok (o : bytes) (p : PayloadPlacement) : Prop := {
  po_id : pl_object_id p = o;
  po_uuid : uuid_ok o;
  po_size : 0 ≤ pl_size p;
  po_replicas : Forall replica_ok (pl_replicas p) }.

Lemma row_ok c o p : PlacementRow c o p → placement_ok o p.
Proof. by intros []. Qed.

Lemma replica_uuids r : replica_ok r → uuid_ok (r_node_id r) ∧ uuid_ok (r_device_id r).
Proof. by intros ([? _] & ? & _). Qed.

(** The index of the other objects is untouched, nothing is added, and what is left
    for this object are replicas of its new placement. *)
Record index_shrinks (o : bytes) (p : PayloadPlacement) (c : ClusterCatalog) (t : gmap bytes Z) : Prop := {
  is_sub : ∀ k, is_Some (t !! k) → is_Some (NODE_REPLICAS c !! k);
  is_other : ∀ n o' d, uuid_ok n → uuid_ok o' → uuid_ok d → o' ≠ o →
     is_Some (NODE_REPLICAS c !! node_replica_key n o' d) → is_Some (t !! node_replica_key n o' d);
  is_own : live o → ∀ n d, is_v4 n → uuid_ok d → is_Some (t !! node_replica_key n o d) → (n, d) ∈ target <$> pl_replicas p }.

Lemma placements_put c c' o p t :
  PlacementsInv c → placement_ok o p → (live o → TOMBSTONES c !! o = None) → index_shrinks o p c t →
  PLACEMENTS c' = <[o := p]> (PLACEMENTS c) → TOMBSTONES c' = TOMBSTONES c →
  (∀ k, is_Some (NODE_REPLICAS c' !! k) ↔ is_Some (t !! k) ∨ ∃ r, r ∈ pl_replicas p ∧ k = index_key o r) →
  PlacementsInv c'.
Proof.
  intros [H1 H2 H3] [Hid Huuid Hsize Hreps] Hdead [Hsub Hkeep Hown] HP HT HI. rewrite Forall_forall in Hreps. split.
  - intros o' p'. rewrite HP. intros [[<- <-]|[Hne Hp]]%lookup_insert_Some.
    + split; try done; [by apply Forall_forall| |by rewrite HT]. intros _ r Hr. apply HI. eauto.
    + destruct (H1 _ _ Hp) as [? ? ? Hr' Hi ?]. split; try done; [|by rewrite HT]. intros Hlive r Hr. apply HI. left.
      rewrite Forall_forall in Hr'. destruct (replica_uuids _ (Hr' _ Hr)). apply Hkeep; try done. by apply Hi.
  - intros k [Hold|(r & Hr & ->)]%HI.
    + destruct (H2 _ (Hsub _ Hold)) as (n & o' & d & -> & ? & ? & ? & Howed). exists n, o', d. split_and!; try done.
      intros Hlive. specialize (Howed Hlive). destruct (decide (o' = o)) as [->|Hne].
      * left. exists p. rewrite HP, lookup_insert_eq. split; [done|]. by apply Hown.
      * unfold owed. rewrite HP, HT, lookup_insert_ne by done. exact Howed.
    + destruct (Hreps _ Hr) as (? & ? & _). exists (r_node_id r), o, (r_device_id r). split_and!; try done.
      intros _. left. exists p. rewrite HP, lookup_insert_eq. split; [done|]. by apply (list_elem_of_fmap_2 target).
  - intros o' t'. rewrite HT. intros Ht. destruct (H3 _ _ Ht) as [? ? ? Hpend]. split; try done. intros Hlive n Hn.
    destruct (Hpend Hlive _ Hn) as (d & Hv4 & ? & ?). exists d. split_and!; [done..|]. apply HI. left.
    apply Hkeep; try done; [apply Hv4|]. intros ->. rewrite Hdead in Ht; done.
Qed.

Lemma placement_sums_nonneg c : PlacementsInv c → 0 ≤ logical_sum c ∧ 0 ≤ physical_sum c ∧ 0 ≤ placement_sum c ∧ 0 ≤ tombstone_sum c.
Proof.
  intros [H1 _ _]. split_and!; apply msum_nonneg; try lia; intros o p Hp; destruct (H1 _ _ Hp); [done|].
  by apply physical_bytes_nonneg.
Qed.

(** [adjust_counter] moves a counter by [d] within its width. *)
Definition moved (key : string) (d : Z) (c c' : ClusterCatalog) : Prop :=
  read_counter c' key = Z.min (Z.max (read_counter c key + d) 0) u64_max ∨ d = 0 ∧ read_counter c' key = read_counter c key.

Lemma moved_exact key d c c' total :
  moved key d c c' → read_counter c key = total → 0 ≤ total + d ≤ u64_max → read_counter c' key = total + d.
Proof. intros [->|[-> ->]] -> Hfit; [by apply clamp_exact|lia]. Qed.

(** The counters after a step, from what it added to each. *)
Lemma counts_step c c' dn dl dp dt :
  CountsInv c → PlacementsInv c' → fits c' →
  moved PLACEMENT_COUNT dn c c' → moved LOGICAL_BYTES dl c c' → moved PHYSICAL_BYTES dp c c' →
  moved TOMBSTONE_COUNT dt c c' →
  placement_sum c' = placement_sum c + dn → logical_sum c' = logical_sum c + dl →
  physical_sum c' = physical_sum c + dp → tombstone_sum c' = tombstone_sum c + dt →
  CountsInv c'.
Proof.
  intros [E1 E2 E3 E4] Hinv' (?&?&?&?&_) M1 M2 M3 M4 S1 S2 S3 S4.
  destruct (placement_sums_nonneg _ Hinv') as (?&?&?&?).
  split; [rewrite S1 in *|rewrite S2 in *|rewrite S3 in *|rewrite S4 in *]; by eapply moved_exact.
Qed.

(** [rewrite_placement] keeps the invariant when the new placement is well formed
    and the index has only lost rows of the object. *)
Definition rewrites (o : bytes) (f : PayloadPlacement → step PayloadPlacement) : Prop :=
  ∀ p c p' c', PlacementsInv c → PLACEMENTS c !! o = Some p → placement_ok o p → f p c = (Ok p', c') →
    placement_ok o p' ∧ pl_size p' = pl_size p ∧ ∃ t, c' = upd_node_replicas (λ _, t) c ∧ index_shrinks o p' c t.

Lemma rewrite_placement_inv o f c out c' :
  PlacementsInv c → CountsInv c → rewrites o f → rewrite_placement o f c = (Ok out, c') →
  PlacementsInv c' ∧ (fits c' → CountsInv c').
Proof.
  intros Hinv Hcounts Hf Hrun. unfold rewrite_placement, require_placement in Hrun.
  apply tx_bind_ok in Hrun as (p & c0 & Hp & Hrun). tx_step Hp.
  apply tx_bind_ok in Hrun as (p' & c1 & Hp' & Hrun).
  match goal with E : PLACEMENTS _ !! o = Some _ |- _ => rename E into Hrow end.
  pose proof (pi_placement _ Hinv _ _ Hrow) as Hr. destruct (Hf _ _ _ _ Hinv Hrow (row_ok _ _ _ Hr) Hp') as (Hok & Hsize & t & -> & Ht).
  apply tx_bind_ok in Hrun as (u & c2 & Hw & Hrun). tx_step Hrun. apply write_placement_ok in Hw as (t' & -> & Ht').
  rewrite (po_id _ _ Hok) in *.
  match goal with |- PlacementsInv ?c2 ∧ _ => assert (Hinv' : PlacementsInv c2) end.
  { eapply (placements_put _ _ o p'); [done|done|apply (pr_alive _ _ _ Hr)|done|done|done|]. done. }
  split; [done|]. intros Hfits. eapply (counts_step _ _ 0 0 (physical_bytes p' - physical_bytes p) 0); try done.
  all: try (right; split; [done|]; unfold read_counter; rows; by rewrite lookup_insert_ne).
  all: try (left; by rewrite read_counter_insert || (unfold read_counter; rows; by rewrite lookup_insert_eq)).
  all: unfold placement_sum, logical_sum, physical_sum, tombstone_sum; rows; rewrite ?msum_insert; unfold at_key;
    rewrite ?Hrow; cbn; lia.
Qed.

Lemma node_replica_key_inj n o d n' o' d' :
  uuid_ok n → uuid_ok n' → uuid_ok o → uuid_ok o' →
  node_replica_key n o d = node_replica_key n' o' d' → n = n' ∧ o = o' ∧ d = d'.
Proof.
  intros [Hn _] [Hn' _] [Ho _] [Ho' _] Heq. unfold node_replica_key in Heq. apply app_inj_len in Heq as [-> Heq]; [|congruence].
  by apply app_inj_len in Heq as [-> ->]; [|congruence].
Qed.

Lemma index_owed c n o d :
  PlacementsInv c → live o → is_v4 n → uuid_ok o → is_Some (NODE_REPLICAS c !! node_replica_key n o d) → owed c n o d.
Proof.
  intros Hinv Hlive Hn Ho Hrow. destruct (pi_index _ Hinv _ Hrow) as (n' & o' & d' & Heq & Hn' & Ho' & _ & Howed).
  apply node_replica_key_inj in Heq as (-> & -> & ->); [auto|apply Hn|apply Hn'|done..].
Qed.

(** The rows of a live payload are those of its replicas. *)
Lemma index_target c n o d p :
  PlacementsInv c → live o → is_v4 n → PLACEMENTS c !! o = Some p → is_Some (NODE_REPLICAS c !! node_replica_key n o d) →
  (n, d) ∈ target <$> pl_replicas p.
Proof.
  intros Hinv Hlive Hn Hp Hrow. destruct (pi_placement _ Hinv _ _ Hp) as [_ Ho _ _ _ Halive].
  specialize (Halive Hlive).
  destruct (index_owed _ _ _ _ Hinv Hlive Hn Ho Hrow) as [(p' & ? & ?)|(t & ? & _)]; congruence.
Qed.

Lemma shrinks_untouched o p p' c :
  PlacementsInv c → PLACEMENTS c !! o = Some p → (live o → target <$> pl_replicas p ⊆ target <$> pl_replicas p') →
  index_shrinks o p' c (NODE_REPLICAS c).
Proof. intros Hinv Hp Hsub. split; [done|done|]. intros Hlive n d Hn _ Hrow. eapply Hsub, index_target; done. Qed.

Lemma alter_first_elem {A} (f : A → A) q l l' x :
  alter_first q f l = Some l' → x ∈ l' → x ∈ l ∨ ∃ y, y ∈ l ∧ q y = true ∧ x = f y.
Proof.
  revert l'. induction l as [|y l IH]; intros l'; cbn; [done|]. destruct (q y) eqn:Hq.
  - intros [= <-] [->|?]%elem_of_cons; [|set_solver]. right. exists y. set_solver.
  - intros Hl. apply fmap_Some in Hl as (l1 & Hl1 & ->). intros [->|Hx]%elem_of_cons; [set_solver|].
    destruct (IH _ Hl1 Hx) as [?|(z & ? & ? & ?)]; [set_solver|]. right. exists z. set_solver.
Qed.

Lemma alter_first_fmap {A B} (g : A → B) (f : A → A) q l l' :
  (∀ x, q x = true → g (f x) = g x) → alter_first q f l = Some l' → g <$> l' = g <$> l.
Proof.
  intros Hg. revert l'. induction l as [|y l IH]; intros l'; cbn; [done|]. destruct (q y) eqn:Hq.
  - intros [= <-]. cbn. by rewrite Hg.
  - intros (l1 & Hl1 & ->)%fmap_Some. cbn. f_equal. by apply IH.
Qed.

Lemma on_target_target r x : on_target (r_node_id r) (r_device_id r) x = true → target r = target x.
Proof. unfold on_target, target. intros Hx. bool_facts. congruence. Qed.

Lemma rewrites_upsert o r at_ : replica_ok r → rewrites o (λ p, mret (upsert_replica r at_ p)).
Proof.
  intros Hr p c p' c' Hinv Hp [Hid Huuid Hsize Hreps] Hrun. tx_step Hrun. rewrite Forall_forall in Hreps.
  assert (Hset : (∀ x, x ∈ pl_replicas (upsert_replica r at_ p) → x ∈ pl_replicas p ∨ x = r) ∧
                 target <$> pl_replicas p ⊆ target <$> pl_replicas (upsert_replica r at_ p)).
  { unfold upsert_replica. cbn. destruct (alter_first _ _ _) as [l|] eqn:Hl.
    - split; [intros x Hx; destruct (alter_first_elem _ _ _ _ _ Hl Hx) as [?|(? & _ & _ & ->)]; auto|].
      rewrite (alter_first_fmap target _ _ _ _ (on_target_target r) Hl). done.
    - split; [intros x; rewrite merge_sort_Permutation; set_solver|]. rewrite merge_sort_Permutation, fmap_app. set_solver. }
  destruct Hset as [Hin Hsub]. split; [split; try done|split; [done|]].
  - apply Forall_forall. intros x [?| ->]%Hin; auto.
  - exists (NODE_REPLICAS c). split; [by destruct c|]. by eapply shrinks_untouched.
Qed.

Lemma rewrites_report o n sel state checksum verified at_ :
  rewrites o (λ p, replicas ← tx_some (ReplicaNotFound o n)
                     (alter_first sel (replica_reported state checksum verified at_) (pl_replicas p));
                   mret (with_replicas replicas at_ p)).
Proof.
  intros p c p' c' Hinv Hp [Hid Huuid Hsize Hreps] Hrun. tx_step Hrun. rewrite Forall_forall in Hreps.
  match goal with E : alter_first _ _ _ = Some ?l |- _ => rename l into l', E into Hl end.
  split; [split; try done|split; [done|]].
  - apply Forall_forall. intros x Hx. destruct (alter_first_elem _ _ _ _ _ Hl Hx) as [?|(y & Hy & _ & ->)]; [by apply Hreps|].
    by apply Hreps in Hy.
  - exists (NODE_REPLICAS c). split; [by destruct c|]. eapply shrinks_untouched; [done|done|]. cbn.
    by rewrite (alter_first_fmap target (replica_reported state checksum verified at_) _ _ _ (λ x _, eq_refl) Hl).
Qed.

Lemma rewrites_desired o desired at_ : rewrites o (λ p, mret (with_desired desired at_ p)).
Proof.
  intros p c p' c' Hinv Hp [Hid Huuid Hsize Hreps] Hrun. tx_step Hrun. split; [done|split; [done|]].
  exists (NODE_REPLICAS c). split; [by destruct c|]. by eapply shrinks_untouched.
Qed.

Lemma list_filter_elem {A} (q : A → bool) l x : x ∈ List.filter q l ↔ x ∈ l ∧ q x = true.
Proof. rewrite !list_elem_of_In. apply filter_In. Qed.

Lemma filter_shorter {A} (q : A → bool) l : length (List.filter q l) ≠ length l → ∃ x, x ∈ l ∧ q x = false.
Proof.
  induction l as [|y l IH]; cbn; [done|]. destruct (q y) eqn:Hq; [|intros _; exists y; set_solver].
  cbn. intros Hne. destruct IH as (x & ? & ?); [lia|]. exists x. set_solver.
Qed.

(** Removing replicas together with their rows. *)
Lemma rewrites_retain o keep at_ drop_rows :
  (∀ c p r u c', PlacementsInv c → PLACEMENTS c !! o = Some p → r ∈ pl_replicas p → replica_ok r → uuid_ok o →
     keep r = false → drop_rows c = (Ok u, c') →
     ∃ t, c' = upd_node_replicas (λ _, t) c ∧ (∀ k, is_Some (t !! k) → is_Some (NODE_REPLICAS c !! k)) ∧
       (∀ n o' d, uuid_ok n → uuid_ok o' → uuid_ok d → o' ≠ o →
          is_Some (NODE_REPLICAS c !! node_replica_key n o' d) → is_Some (t !! node_replica_key n o' d)) ∧
       (∀ x, replica_ok x → is_Some (t !! index_key o x) → keep x = true)) →
  rewrites o (λ p, let '(removed, p) := retain_replicas keep at_ p in
                   (if removed : bool then drop_rows else mret ());; mret p).
Proof.
  intros Hdrop p c p' c' Hinv Hp Hok Hrun. unfold retain_replicas in Hrun. case_bool_decide as Hlen.
  { tx_step Hrun. split; [done|split; [done|]]. exists (NODE_REPLICAS c). split; [by destruct c|]. by eapply shrinks_untouched. }
  destruct Hok as [Hid Huuid Hsize Hreps]. rewrite Forall_forall in Hreps.
  destruct (filter_shorter _ _ Hlen) as (r & Hr & Hkr). apply tx_bind_ok in Hrun as (u & c1 & Hd & Hrun).
  tx_step Hrun. destruct (Hdrop _ _ _ _ _ Hinv Hp Hr (Hreps _ Hr) Huuid Hkr Hd) as (t & -> & Hsub & Hother & Hown).
  split; [split; try done|split; [done|]].
  { cbn. apply Forall_forall. intros x [Hx _]%list_filter_elem. by apply Hreps. }
  exists t. split; [done|]. split; [done|done|]. intros Hlive n d Hn Hd' Hrow. cbn.
  assert (Htarget : (n, d) ∈ target <$> pl_replicas p) by (eapply index_target; eauto).
  apply list_elem_of_fmap in Htarget as (x & [= -> ->] & Hx). apply (list_elem_of_fmap_2 target).
  apply list_filter_elem. split; [done|]. apply Hown; [by apply Hreps|done].
Qed.

Lemma rewrites_remove o n at_ :
  rewrites o (λ p, let '(removed, p) := remove_replica n at_ p in
                   (if removed : bool then remove_node_replica n o else mret ());; mret p).
Proof.
  apply (rewrites_retain o (λ r, negb (on_node n r)) at_ (remove_node_replica n o)).
  intros c p r u c' Hinv Hp Hr (Hv4 & Hd & _) Ho Hkeep Hrun. unfold on_node in Hkeep. bool_facts. subst n.
  destruct (remove_node_replica_ok _ _ _ _ _ (proj1 Hv4) Ho Hrun) as (t & -> & Hsub & Hother & Hgone).
  exists t. split; [done|]. split; [intros k [x Hx]; eexists; by apply Hsub|].
  split; [intros n o' d ? ? ? Hne [x Hx]; eexists; apply Hother; eauto|].
  intros x Hx Hrow. unfold on_node. apply negb_true_iff, bool_decide_eq_false. intros Heq. unfold index_key in Hrow.
  rewrite Heq, Hgone in Hrow by done. by destruct Hrow.
Qed.

Lemma rewrites_remove_on o n d at_ :
  rewrites o (λ p, let '(removed, p) := remove_replica_on n d at_ p in
                   (if removed : bool then remove_device_replica n d o else mret ());; mret p).
Proof.
  apply (rewrites_retain o (λ r, negb (on_target n d r)) at_ (remove_device_replica n d o)).
  intros c p r u c' Hinv Hp Hr (Hv4 & Hd & _) Ho Hkeep Hrun. unfold on_target in Hkeep. bool_facts. subst n d.
  unfold remove_device_replica in Hrun. tx_step Hrun. exists (delete (index_key o r) (NODE_REPLICAS c)).
  split; [done|]. split; [intros k [x [_ Hx]%lookup_delete_Some]; by eexists|]. split.
  - intros n o' d ? ? ? Hne Hrow. unfold index_key. rewrite lookup_delete_ne; [done|].
    intros Heq. apply node_replica_key_inj in Heq; try done; [naive_solver|apply Hv4].
  - intros x Hx Hrow. unfold on_target. apply negb_true_iff, andb_false_iff.
    destruct (decide (r_node_id x = r_node_id r)) as [En|?]; [|left; by apply bool_decide_eq_false].
    right. apply bool_decide_eq_false. intros Ed. unfold index_key in Hrow. rewrite En, Ed, lookup_delete_eq in Hrow.
    by destruct Hrow.
Qed.

(** ** Writing, deleting and acknowledging *)

(** Discharges what a step did to the counters and the sums. *)
Ltac count_rows :=
  first
    [ right; split; [done|]; unfold read_counter; rows; by rewrite ?lookup_insert_ne by done
    | left; unfold read_counter; rows; by repeat first [rewrite lookup_insert_eq|rewrite lookup_insert_ne by done]
    | unfold placement_sum, logical_sum, physical_sum, tombstone_sum; rows; rewrite ?msum_insert, ?msum_delete; unfold at_key ].

Lemma put_placement_inv p c out c' :
  PlacementsInv c → CountsInv c → cluster_ok c (PutPlacement p) → careful live c (PutPlacement p) → put_placement p c = (Ok out, c') →
  PlacementsInv c' ∧ (fits c' → CountsInv c').
Proof.
  intros Hinv Hcounts (Ho & Hsize & Hreps) Hcare Hrun. cbn [careful] in Hcare. unfold put_placement in Hrun.
  apply tx_bind_ok in Hrun as (found & c0 & Hf & Hrun). apply tx_gets_ok in Hf as [-> ->].
  apply tx_bind_ok in Hrun as (u1 & c1 & Hcount & Hrun). apply tx_bind_ok in Hrun as (u2 & c2 & Hw & Hrun). tx_step Hrun.
  apply write_placement_ok in Hw as (t & -> & Ht).
  assert (Hc1 : ∃ counters, c1 = upd_counters (λ _, counters) c).
  { destruct (PLACEMENTS c !! _); tx_step Hcount; adjusted; eexists; by destruct c. }
  match goal with |- PlacementsInv ?c2 ∧ _ => assert (Hinv' : PlacementsInv c2) end.
  { destruct Hc1 as [counters ->]. eapply (placements_put c _ (pl_object_id p) p (NODE_REPLICAS c)); try done; [naive_solver|].
    destruct (PLACEMENTS c !! pl_object_id p) as [p0|] eqn:Hp0; [eapply shrinks_untouched; naive_solver|].
    split; [done|done|]. intros Hlive n d Hn Hd Hrow. destruct (Hcare Hlive) as [Halive _].
    destruct (index_owed _ _ _ _ Hinv Hlive Hn Ho Hrow) as [(? & ? & _)|(? & ? & _)]; congruence. }
  split; [done|]. intros Hfits. clear Hc1. destruct (PLACEMENTS c !! _) as [p0|] eqn:Hp0; tx_step Hcount; adjusted.
  - eapply (counts_step c _ 0 (pl_size p - pl_size p0) (physical_bytes p - physical_bytes p0) 0); try done; count_rows;
      rewrite ?Hp0; cbn; lia.
  - eapply (counts_step c _ 1 (pl_size p) (physical_bytes p - 0) 0); try done; count_rows; rewrite ?Hp0; cbn; lia.
Qed.

(** Deleting turns every replica into bytes that are owed. *)
Lemma placements_deleted c c' o p at_ :
  PlacementsInv c → PLACEMENTS c !! o = Some p →
  PLACEMENTS c' = delete o (PLACEMENTS c) →
  TOMBSTONES c' = <[o := tombstone_new o (placement_nodes p) at_]> (TOMBSTONES c) →
  (∀ k, is_Some (NODE_REPLICAS c' !! k) ↔ is_Some (NODE_REPLICAS c !! k) ∨ ∃ r, r ∈ pl_replicas p ∧ k = index_key o r) →
  PlacementsInv c'.
Proof.
  intros Hinv Hp HP HT HI. destruct (pi_placement _ Hinv _ _ Hp) as [Hid Ho Hsize Hreps Hindexed Halive].
  rewrite Forall_forall in Hreps. split.
  - intros o' p'. rewrite HP. intros [Hne Hp']%lookup_delete_Some. destruct (pi_placement _ Hinv _ _ Hp'). split; try done.
    + intros ? r Hr. apply HI. auto.
    + by rewrite HT, lookup_insert_ne.
  - assert (Hheld : ∀ r, r ∈ pl_replicas p → owed c' (r_node_id r) o (r_device_id r)).
    { intros r Hr. right. eexists. rewrite HT, lookup_insert_eq. split; [done|]. cbn. unfold placement_nodes.
      apply elem_of_list_to_set. by apply list_elem_of_fmap_2. }
    intros k [Hold|(r & Hr & ->)]%HI.
    + destruct (pi_index _ Hinv _ Hold) as (n & o' & d & -> & Hn & Ho' & Hd & Howed). exists n, o', d. split_and!; try done.
      intros Hlive. specialize (Howed Hlive). destruct (decide (o' = o)) as [->|Hne].
      * assert (Hin : (n, d) ∈ target <$> pl_replicas p) by by eapply index_target.
        apply list_elem_of_fmap in Hin as (r & [= -> ->] & Hr). by apply Hheld.
      * unfold owed. rewrite HP, HT, lookup_delete_ne, lookup_insert_ne by done. exact Howed.
    + destruct (Hreps _ Hr) as (? & ? & _). exists (r_node_id r), o, (r_device_id r). split_and!; try done. intros _. by apply Hheld.
  - intros o' t. rewrite HT. intros [[<- <-]|[Hne Ht]]%lookup_insert_Some.
    + split; try done; cbn.
      * unfold tombstone_completed, tombstone_new. cbn. intros [y Hy]%bool_decide_eq_true. by case_bool_decide.
      * intros _ n (r & -> & Hr)%elem_of_list_to_set%list_elem_of_fmap. destruct (Hreps _ Hr) as (? & ? & _).
        exists (r_device_id r). split_and!; try done. apply HI. eauto.
    + destruct (pi_tombstone _ Hinv _ _ Ht) as [? ? ? Hpend]. split; try done. intros Hlive n Hn.
      destruct (Hpend Hlive _ Hn) as (d & ? & ? & ?). exists d. split_and!; try done. apply HI. auto.
Qed.

Lemma delete_placement_inv o at_ c out c' :
  PlacementsInv c → CountsInv c → delete_placement o at_ c = (Ok out, c') →
  PlacementsInv c' ∧ (fits c' → CountsInv c').
Proof.
  intros Hinv Hcounts Hrun. unfold delete_placement in Hrun. apply tx_bind_ok in Hrun as (found & c0 & Hf & Hrun).
  apply tx_gets_ok in Hf as [-> ->]. destruct (PLACEMENTS c !! o) as [p|] eqn:Hp; [|by tx_step Hrun].
  apply tx_bind_ok in Hrun as (dead & c0 & Hf & Hrun). apply tx_gets_ok in Hf as [-> ->].
  case_bool_decide as Hdead; tx_step Hrun; adjusted.
  all: match goal with Hi : tx_iter _ _ _ = _ |- _ => destruct (index_puts _ _ _ _ _ _ Hi) as (t & -> & Ht) end.
  all: match goal with |- PlacementsInv ?c2 ∧ _ => assert (Hinv' : PlacementsInv c2) by by apply (placements_deleted c _ o p at_) end.
  all: split; [done|]; intros Hfits.
  - eapply (counts_step c _ (-1) (- pl_size p) (- physical_bytes p) 1); try done; count_rows; rewrite ?Hp, ?Hdead; cbn; lia.
  - apply not_eq_None_Some in Hdead as [t0 Ht0].
    eapply (counts_step c _ (-1) (- pl_size p) (- physical_bytes p) 0); try done; count_rows; rewrite ?Hp, ?Ht0; cbn; lia.
Qed.

Lemma acknowledged_completed n at_ t :
  (tombstone_completed t = true → pending_nodes t = ∅) →
  tombstone_completed (acknowledge n at_ t) = true → pending_nodes (acknowledge n at_ t) = ∅.
Proof.
  intros Hold. unfold tombstone_completed in *. cbn. destruct (decide (pending_nodes t ∖ {[n]} = ∅)) as [|Hne]; [done|].
  rewrite (bool_decide_eq_false_2 _ Hne). cbn. intros Hc. rewrite (Hold Hc). set_solver.
Qed.

Lemma placements_acknowledged c c1 c' o n at_ t0 u :
  PlacementsInv c → uuid_ok n → TOMBSTONES c !! o = Some t0 → remove_node_replica n o c = (Ok u, c1) →
  c' = upd_tombstones <[o := acknowledge n at_ t0]> c1 → PlacementsInv c'.
Proof.
  intros Hinv Hn Ht0 Hrm ->. destruct (pi_tombstone _ Hinv _ _ Ht0) as [Hid Ho Hcomp Hpend].
  destruct (remove_node_replica_ok _ _ _ _ _ Hn Ho Hrm) as (t & -> & Hsub & Hother & Hgone).
  assert (Hkeep : ∀ n' o' d, uuid_ok n' → uuid_ok o' → uuid_ok d → n' ≠ n ∨ o' ≠ o →
    is_Some (NODE_REPLICAS c !! node_replica_key n' o' d) → is_Some (t !! node_replica_key n' o' d)).
  { intros n' o' d ? ? ? Hne [x Hx]. eexists. by apply Hother. }
  split; rows.
  - intros o' p Hp. destruct (pi_placement _ Hinv _ _ Hp) as [? ? ? Hreps Hi Halive]. rewrite Forall_forall in Hreps.
    assert (Hne : live o' → o' ≠ o) by (intros ? ->; naive_solver congruence).
    split; rows; try done; [by apply Forall_forall| |intros Hlive; rewrite lookup_insert_ne; auto; intros ->; by apply Hne].
    intros Hlive r Hr. destruct (replica_uuids _ (Hreps _ Hr)). apply Hkeep; auto. by apply Hi.
  - intros k [x Hx]. destruct (pi_index _ Hinv k) as (n' & o' & d & -> & ? & ? & ? & Howed); [eexists; by apply Hsub|].
    exists n', o', d. split_and!; try done. intros Hlive. destruct (Howed Hlive) as [?|(t' & Ht' & Hpending)]; [by left|right].
    unfold owed. rows. destruct (decide (o' = o)) as [->|Hne]; [|exists t'; by rewrite lookup_insert_ne].
    eexists. rewrite lookup_insert_eq. split; [done|]. simplify_eq. cbn.
    enough (n' ≠ n) by set_solver. intros ->. rewrite Hgone in Hx; done.
  - intros o' t' [[<- <-]|[Hne Ht']]%lookup_insert_Some.
    + split; rows; try done; [by apply acknowledged_completed|]. cbn. intros Hlive n' [Hin Hne]%elem_of_difference.
      destruct (Hpend Hlive _ Hin) as (d & Hv4 & ? & ?). exists d. split_and!; try done. apply Hkeep; [apply Hv4|done|done| |done].
      left. set_solver.
    + destruct (pi_tombstone _ Hinv _ _ Ht') as [? ? ? Hpend']. split; rows; try done. intros Hlive n' Hn'.
      destruct (Hpend' Hlive _ Hn') as (d & Hv4 & ? & ?). exists d. split_and!; try done. apply Hkeep; auto. apply Hv4.
Qed.

Lemma acknowledge_inv o n at_ c out c' :
  PlacementsInv c → CountsInv c → uuid_ok n → acknowledge_tombstone o n at_ c = (Ok out, c') →
  PlacementsInv c' ∧ (fits c' → CountsInv c').
Proof.
  intros Hinv Hcounts Hn Hrun. unfold acknowledge_tombstone in Hrun. tx_step Hrun.
  match goal with Hrm : remove_node_replica _ _ _ = _, E : TOMBSTONES _ !! _ = Some _ |- _ => rename Hrm into Hrow, E into Ht0 end.
  match goal with |- PlacementsInv ?c2 ∧ _ => assert (Hinv' : PlacementsInv c2) by by eapply placements_acknowledged end.
  split; [done|]. intros Hfits.
  destruct (remove_node_replica_ok _ _ _ _ _ Hn (tr_uuid _ _ _ (pi_tombstone _ Hinv _ _ Ht0)) Hrow) as (t & -> & _).
  eapply (counts_step c _ 0 0 0 0); try done; count_rows; rewrite ?Ht0; cbn; lia.
Qed.

Lemma purge_inv o c out c' :
  PlacementsInv c → CountsInv c → (live o → ∀ t, TOMBSTONES c !! o = Some t → tombstone_completed t = true) →
  purge_tombstone o c = (Ok out, c') → PlacementsInv c' ∧ (fits c' → CountsInv c').
Proof.
  intros Hinv Hcounts Hdone Hrun. unfold purge_tombstone in Hrun. apply tx_bind_ok in Hrun as (found & c0 & Hf & Hrun).
  apply tx_gets_ok in Hf as [-> ->].
  assert (Hgone : ∀ counters, PlacementsInv (upd_counters counters (upd_tombstones (delete o) c))).
  { intros counters. split; rows.
    - intros o' p Hp. destruct (pi_placement _ Hinv _ _ Hp). split; rows; try done. rewrite lookup_delete_None. auto.
    - intros k Hk. destruct (pi_index _ Hinv _ Hk) as (n & o' & d & -> & ? & ? & ? & Howed). exists n, o', d.
      split_and!; try done. intros Hlive. destruct (Howed Hlive) as [?|(t & Ht & Hpending)]; [by left|right]. exists t. rows.
      rewrite lookup_delete_ne; [done|]. intros <-. pose proof (tr_completed _ _ _ (pi_tombstone _ Hinv _ _ Ht) (Hdone Hlive _ Ht)).
      set_solver.
    - intros o' t [_ Ht]%lookup_delete_Some. by destruct (pi_tombstone _ Hinv _ _ Ht). }
  destruct (TOMBSTONES c !! o) as [t|] eqn:Ht; cbn in Hrun; tx_step Hrun; adjusted.
  - split; [apply Hgone|]. intros Hfits. eapply (counts_step c _ 0 0 0 (-1)); try done; count_rows; rewrite ?Ht; cbn; lia.
  - split; [apply (Hgone id)|]. intros Hfits. eapply (counts_step c _ 0 0 0 0); try done; [apply (Hgone id)|..]; count_rows;
      rewrite ?Ht; cbn; lia.
Qed.

(** ** Commands that do not touch placements *)

Definition usage_keys : list string := [PLACEMENT_COUNT; LOGICAL_BYTES; PHYSICAL_BYTES; TOMBSTONE_COUNT].

Definition same_placements (c c' : ClusterCatalog) : Prop :=
  PLACEMENTS c' = PLACEMENTS c ∧ NODE_REPLICAS c' = NODE_REPLICAS c ∧ TOMBSTONES c' = TOMBSTONES c ∧
  ∀ key, key ∈ usage_keys → read_counter c' key = read_counter c key.
#[export] Instance same_placements_preorder : PreOrder same_placements.
Proof.
  split; [done|]. intros c1 c2 c3 (?&?&?&Hc1) (?&?&?&Hc2). unfold same_placements. split_and!; try congruence.
  intros key Hkey. rewrite Hc2, Hc1; done.
Qed.

Lemma placements_framed c c' : same_placements c c' → PlacementsInv c → PlacementsInv c'.
Proof.
  intros (HP & HI & HT & _) [H1 H2 H3]. split.
  - rewrite HP. intros o p Hp. destruct (H1 _ _ Hp). split; rewrite ?HI, ?HT; done.
  - unfold owed. rewrite HI, HP, HT. done.
  - rewrite HT. intros o t Ht. destruct (H3 _ _ Ht). split; rewrite ?HI; done.
Qed.

Lemma counts_framed c c' : same_placements c c' → CountsInv c → CountsInv c'.
Proof.
  intros (HP & _ & HT & HC) [H1 H2 H3 H4]. unfold placement_sum, logical_sum, physical_sum, tombstone_sum in *.
  split; unfold placement_sum, logical_sum, physical_sum, tombstone_sum; rewrite ?HP, ?HT, HC by (unfold usage_keys; set_solver);
    done.
Qed.

Ltac usage_key := apply (bool_decide_unpack _); vm_compute; done.
Ltac unfold_placements :=
  unfold same_placements, read_counter; rows; split_and!; try done;
  intros ? ?; rewrite ?lookup_insert_ne by (unfold usage_keys in *; set_solver); try done.

Lemma set_counter_placements key value : key ∉ usage_keys → keeps same_placements (set_counter key value).
Proof. intros Hk. apply keeps_modify. intros c. unfold_placements. Qed.
Lemma adjust_counter_placements key delta : key ∉ usage_keys → keeps same_placements (adjust_counter key delta).
Proof. intros Hk. unfold adjust_counter. keeps_steps. by apply set_counter_placements. Qed.
Lemma advance_epoch_placements : keeps same_placements advance_cluster_map_epoch.
Proof. unfold advance_cluster_map_epoch. keeps_steps. apply set_counter_placements. usage_key. Qed.
Lemma recount_placements : keeps same_placements recount_durability.
Proof. unfold recount_durability, require_config. keeps_steps; apply set_counter_placements; usage_key. Qed.

#[local] Hint Resolve set_counter_placements adjust_counter_placements advance_epoch_placements recount_placements : frame.
#[local] Hint Extern 1 (_ ∉ usage_keys) => usage_key : frame.

Lemma other_commands_placements cmd :
  match cmd with
  | PutPlacement _ | UpsertReplica _ _ _ | SetReplicaState _ _ _ _ _ _ | SetReplicaStateOnDevice _ _ _ _ _ _ _
  | RemoveReplica _ _ _ | RemoveReplicaFromDevice _ _ _ _ | SetDesiredReplicas _ _ _ | DeletePlacement _ _
  | AcknowledgeTombstone _ _ _ | PurgeTombstone _ => True
  | _ => keeps same_placements (apply_command_tx cmd)
  end.
Proof.
  destruct cmd; try done; cbn [apply_command_tx];
    unfold initialize_cluster, record_recovery, update_config, register_node, heartbeat, update_node_descriptor,
      set_node_state, register_device, set_device_state, set_node_metadata_voter, forget_node, put_storage_policy,
      delete_storage_policy, enqueue_task, add_task,
      claim_task, complete_task, fail_task, requeue_task, cancel_task, purge_task, update_operation,
      consume_join_token, revoke_join_token, purge_join_token, set_node_credential_disabled, require_task, put_task,
      insert_task_queue_entry, remove_task_queue_entry, remove_task_object_entry, next_member_id, require_config,
      require_node, put_node;
    keeps_steps; first [by auto with frame|apply keeps_modify; intros ?; unfold_placements; fail|idtac].
Qed.

Lemma placements_step c cmd out c' :
  PlacementsInv c → CountsInv c → cluster_ok c cmd → careful live c cmd → apply_command_tx cmd c = (Ok out, c') →
  PlacementsInv c' ∧ (fits c' → CountsInv c').
Proof.
  intros Hinv Hcounts Hok Hcare Hrun. pose proof (other_commands_placements cmd) as Hother.
  destruct cmd; try (apply Hother in Hrun; split; [by eapply placements_framed|intros _; by eapply counts_framed]);
    clear Hother; cbn [apply_command_tx] in Hrun.
  - by eapply put_placement_inv.
  - eapply rewrite_placement_inv; [done|done|by apply rewrites_upsert|exact Hrun].
  - eapply rewrite_placement_inv; [done|done|by apply rewrites_report|exact Hrun].
  - eapply rewrite_placement_inv; [done|done|by apply rewrites_report|exact Hrun].
  - eapply rewrite_placement_inv; [done|done|by apply rewrites_remove|exact Hrun].
  - eapply rewrite_placement_inv; [done|done|by apply rewrites_remove_on|exact Hrun].
  - eapply rewrite_placement_inv; [done|done|by apply rewrites_desired|exact Hrun].
  - by eapply delete_placement_inv.
  - by eapply acknowledge_inv.
  - by eapply purge_inv.
Qed.

Lemma empty_placements : PlacementsInv empty_cluster ∧ CountsInv empty_cluster.
Proof. split; split; cbn; try done. intros k Hk. by destruct Hk. Qed.

Lemma placements_run c cmds c' :
  PlacementsInv c → CountsInv c → cluster_run c cmds c' → along (careful live) c cmds → PlacementsInv c' ∧ CountsInv c'.
Proof.
  intros Hinv Hcounts Hrun Hcare. apply (run_along (careful live) (λ c, PlacementsInv c ∧ CountsInv c) c cmds); try done.
  intros c1 cmd c2 [Hinv1 Hc1] Hstep Hone.
  pose proof Hstep as (Hok & _ & Hfits). destruct (cluster_step_cases _ _ _ Hstep) as [->|[out Hr]]; [done|].
  destruct (placements_step _ _ _ _ Hinv1 Hc1 Hok Hone Hr). auto.
Qed.

End Placements.

Definition every (_ : bytes) : Prop := True.
Definition none (_ : bytes) : Prop := False.

(** Without any care, the rows are well formed and the counters exact. *)
Lemma along_none c cmds : along (careful none) c cmds.
Proof. revert c. induction cmds as [|cmd cmds IH]; intros c; cbn; [done|]. split; [|apply IH]. by destruct cmd; try intros []. Qed.

Lemma reachable_counts c : cluster_reachable c → PlacementsInv none c ∧ CountsInv c.
Proof.
  intros [cmds Hrun]. destruct (empty_placements none). eapply placements_run; [done..|apply along_none].
Qed.

(** What the index holds for a node. *)
Lemma node_rows live c n :
  PlacementsInv live c → is_v4 n → node_replica_count c n = 0 ↔ ∀ o d, ¬ is_Some (NODE_REPLICAS c !! node_replica_key n o d).
Proof.
  intros Hinv Hn. unfold node_replica_count, node_replica_keys. rewrite length_fmap.
  assert (Hzero : ∀ x : nat, Z.min (Z.of_nat x) u64_max = 0 ↔ x = 0%nat) by (intros; unfold u64_max; lia).
  rewrite Hzero. split.
  - intros Hlen o d [x Hx]. apply nil_length_inv in Hlen.
    assert (Hin : (node_replica_key n o d, x) ∈ table_range n (prefix_successor n) (NODE_REPLICAS c)).
    { apply elem_of_table_range. split; [done|]. apply prefix_range_complete. right. by apply v4_successor. }
    rewrite Hlen in Hin. set_solver.
  - intros Hnone. apply length_zero_iff_nil. apply elem_of_nil_inv. intros [k x] [Hk Hr]%elem_of_table_range.
    destruct (pi_index _ _ Hinv k) as (n' & o & d & -> & Hv4 & Ho & Hd & _); [by eexists|].
    apply prefix_range_sound in Hr as [rest Heq].
    + unfold node_replica_key in Heq. apply app_inj_len in Heq as [<- _]; [|by rewrite <-!v4_length]. by apply (Hnone o d).
    + unfold node_replica_key, bytes_ok. destruct Hv4 as [[_ ?] _], Ho, Hd. by rewrite !Forall_app.
Qed.

(** A node has rows exactly if a placement lists it or a deletion waits for it. *)
Lemma node_rows_owed c n :
  PlacementsInv every c → is_v4 n →
  node_replica_count c n = 0 ↔
  (∀ o p, PLACEMENTS c !! o = Some p → n ∉ placement_nodes p) ∧
  (∀ o t, TOMBSTONES c !! o = Some t → n ∉ pending_nodes t).
Proof.
  intros Hinv Hn. rewrite (node_rows every) by done. split.
  - intros Hnone. split.
    + intros o p Hp Hin. unfold placement_nodes in Hin. apply elem_of_list_to_set, list_elem_of_fmap in Hin as (r & -> & Hr).
      apply (Hnone o (r_device_id r)). by apply (pr_indexed _ _ _ _ (pi_placement _ _ Hinv _ _ Hp)).
    + intros o t Ht Hin. destruct (tr_pending _ _ _ _ (pi_tombstone _ _ Hinv _ _ Ht) I _ Hin) as (d & _ & _ & ?). by eapply Hnone.
  - intros [Hp Ht] o d Hrow. destruct (pi_index _ _ Hinv _ Hrow) as (n' & o' & d' & Heq & Hn' & _ & _ & Howed).
    unfold node_replica_key in Heq. apply app_inj_len in Heq as [<- _]; [|by rewrite <-!v4_length].
    destruct (Howed I) as [(p & HP & (r & [= Er _] & Hr)%list_elem_of_fmap)|(t & HT & Hin)]; [|by eapply Ht].
    apply (Hp _ _ HP). unfold placement_nodes. apply elem_of_list_to_set, list_elem_of_fmap. eauto.
Qed.

(** ** Deletions in progress *)

Definition same_tombstones (c c' : ClusterCatalog) : Prop := TOMBSTONES c' = TOMBSTONES c.
#[export] Instance same_tombstones_preorder : PreOrder same_tombstones.
Proof. split; [done|]. unfold same_tombstones. intros ? ? ?. congruence. Qed.

Definition touches_tombstones (cmd : ClusterCommand) : bool :=
  match cmd with DeletePlacement _ _ | AcknowledgeTombstone _ _ _ | PurgeTombstone _ => true | _ => false end.

Lemma other_commands_tombstones cmd : touches_tombstones cmd = false → keeps same_tombstones (apply_command_tx cmd).
Proof.
  pose proof (other_commands_placements cmd) as Hother.
  destruct cmd; try done; intros _; try (by intros c r c' Hrun; apply Hother in Hrun as (_ & _ & HT & _));
    cbn [apply_command_tx]; unfold put_placement, upsert_replica_tx, set_replica_state, remove_replica_tx,
      remove_replica_from_device, set_desired_replicas, rewrite_placement, require_placement,
      remove_device_replica, remove_node_replica, write_placement, put_node_replica, adjust_counter, set_counter;
    keeps_steps; by apply keeps_modify.
Qed.

(** The payload [o] has no placement and the node [n] has still to acknowledge its
    deletion. *)
Definition awaited (o n : bytes) (c : ClusterCatalog) : Prop :=
  PLACEMENTS c !! o = None ∧ ∃ t, TOMBSTONES c !! o = Some t ∧ n ∈ pending_nodes t.

Definition not_acknowledged (o n : bytes) (cmd : ClusterCommand) : Prop :=
  match cmd with AcknowledgeTombstone o' n' _ => o' ≠ o ∨ n' ≠ n | _ => True end.

(** Only [PutPlacement] gives a payload its first placement. *)
Lemma rewrite_placement_dom live o f c out c' :
  PlacementsInv live c → rewrites live o f → rewrite_placement o f c = (Ok out, c') →
  ∀ o', PLACEMENTS c !! o' = None → PLACEMENTS c' !! o' = None.
Proof.
  intros Hinv Hf Hrun o' Hnone. unfold rewrite_placement, require_placement in Hrun.
  apply tx_bind_ok in Hrun as (p & c0 & Hp & Hrun). tx_step Hp. apply tx_bind_ok in Hrun as (p' & c1 & Hp' & Hrun).
  match goal with E : PLACEMENTS _ !! o = Some _ |- _ => rename E into Hrow end.
  destruct (Hf _ _ _ _ Hinv Hrow (row_ok _ _ _ _ (pi_placement _ _ Hinv _ _ Hrow)) Hp') as (Hok & _ & t & -> & _).
  apply tx_bind_ok in Hrun as (u & c2 & Hw & Hrun). tx_step Hrun. apply write_placement_ok in Hw as (t' & -> & _). rows.
  rewrite (po_id _ _ Hok). rewrite lookup_insert_ne; [done|congruence].
Qed.

Lemma unplaced_step live c cmd out c' o :
  PlacementsInv live c → cluster_ok c cmd → (∀ p, cmd = PutPlacement p → pl_object_id p ≠ o) →
  apply_command_tx cmd c = (Ok out, c') → PLACEMENTS c !! o = None → PLACEMENTS c' !! o = None.
Proof.
  intros Hinv Hok Hput Hrun Hnone. pose proof (other_commands_placements cmd) as Hother.
  destruct cmd; try (apply Hother in Hrun as (-> & _); done); clear Hother; cbn [apply_command_tx] in Hrun.
  - unfold put_placement in Hrun. apply tx_bind_ok in Hrun as (found & c0 & Hf & Hrun). apply tx_gets_ok in Hf as [-> ->].
    apply tx_bind_ok in Hrun as (u1 & c1 & Hcount & Hrun). apply tx_bind_ok in Hrun as (u2 & c2 & Hw & Hrun). tx_step Hrun.
    apply write_placement_ok in Hw as (t & -> & _). rows. rewrite lookup_insert_ne by by apply Hput.
    destruct (PLACEMENTS c !! pl_object_id _); tx_step Hcount; adjusted; done.
  - eapply rewrite_placement_dom; [done|by apply rewrites_upsert|exact Hrun|done].
  - eapply rewrite_placement_dom; [done|by apply rewrites_report|exact Hrun|done].
  - eapply rewrite_placement_dom; [done|by apply rewrites_report|exact Hrun|done].
  - eapply rewrite_placement_dom; [done|by apply rewrites_remove|exact Hrun|done].
  - eapply rewrite_placement_dom; [done|by apply rewrites_remove_on|exact Hrun|done].
  - eapply rewrite_placement_dom; [done|by apply rewrites_desired|exact Hrun|done].
  - unfold delete_placement in Hrun. apply tx_bind_ok in Hrun as (found & c0 & Hf & Hrun). apply tx_gets_ok in Hf as [-> ->].
    destruct (PLACEMENTS c !! object_id) as [p|] eqn:Hp; [|by tx_step Hrun].
    apply tx_bind_ok in Hrun as (dead & c0 & Hf & Hrun). apply tx_gets_ok in Hf as [-> ->].
    case_bool_decide; tx_step Hrun; adjusted;
      match goal with Hi : tx_iter _ _ _ = _ |- _ => destruct (index_puts _ _ _ _ _ _ Hi) as (t & -> & _) end; rows;
      rewrite lookup_delete_None; auto.
  - unfold acknowledge_tombstone, remove_node_replica in Hrun. tx_step Hrun.
    match goal with Hi : tx_iter _ _ _ = _ |- _ => by destruct (index_deletes _ _ _ _ Hi) as (t & -> & _) end.
  - unfold purge_tombstone in Hrun. apply tx_bind_ok in Hrun as (found & c0 & Hf & Hrun). apply tx_gets_ok in Hf as [-> ->].
    destruct (bool_decide _); tx_step Hrun; adjusted; done.
Qed.

Lemma awaited_step live o n c cmd out c' :
  PlacementsInv live c → cluster_ok c cmd → careful (.= o) c cmd → not_acknowledged o n cmd →
  apply_command_tx cmd c = (Ok out, c') → awaited o n c → awaited o n c'.
Proof.
  intros Hinv Hok Hcare Hnot Hrun (Hp & t & Ht & Hn). split.
  { eapply unplaced_step; try done. intros p -> Hid. destruct (Hcare Hid). congruence. }
  destruct (touches_tombstones cmd) eqn:Htouch.
  2: { apply other_commands_tombstones in Hrun; [|done]. exists t. by rewrite Hrun. }
  destruct cmd as [| | | | | | | | | | | | | | | | | | | |o' at_|o' n' at_|o'| | | | | | | | | | | | | | |]; try done;
    cbn [apply_command_tx cluster_ok careful] in *.
  - unfold delete_placement in Hrun. apply tx_bind_ok in Hrun as (found & c0 & Hf & Hrun). apply tx_gets_ok in Hf as [-> ->].
    destruct (PLACEMENTS c !! o') as [p|] eqn:Hp'; [|tx_step Hrun; by exists t].
    assert (Hne : o' ≠ o) by congruence. exists t. split; [|done]. tx_step Hrun.
    match goal with Hi : tx_iter _ _ _ = _ |- _ => destruct (index_puts _ _ _ _ _ _ Hi) as (x & -> & _) end.
    case_bool_decide; tx_step Ha; adjusted; rows; by rewrite lookup_insert_ne.
  - unfold acknowledge_tombstone in Hrun. tx_step Hrun.
    match goal with Hrm : remove_node_replica _ _ _ = _, E : TOMBSTONES c !! o' = Some _ |- _ =>
      destruct (remove_node_replica_ok _ _ _ _ _ Hok (tr_uuid _ _ _ _ (pi_tombstone _ _ Hinv _ _ E)) Hrm) as (x & -> & _) end.
    rows. destruct (decide (o' = o)) as [->|Hne]; [|exists t; by rewrite lookup_insert_ne].
    eexists. rewrite lookup_insert_eq. split; [done|]. simplify_eq. cbn. destruct Hnot; set_solver.
  - unfold purge_tombstone in Hrun. assert (Hne : o' ≠ o).
    { intros ->. pose proof (tr_completed _ _ _ _ (pi_tombstone _ _ Hinv _ _ Ht) (Hcare eq_refl _ Ht)). set_solver. }
    exists t. split; [|done]. apply tx_bind_ok in Hrun as (found & c0 & Hf & Hrun). apply tx_gets_ok in Hf as [-> ->].
    destruct (bool_decide _); tx_step Hrun; adjusted; rows; by rewrite lookup_delete_ne.
Qed.

Lemma deletion_awaits c c1 o p n at_ out :
  PLACEMENTS c !! o = Some p → n ∈ placement_nodes p →
  apply_command_tx (DeletePlacement o at_) c = (Ok out, c1) → awaited o n c1.
Proof.
  intros Hp Hn Hrun. cbn [apply_command_tx] in Hrun. unfold delete_placement in Hrun.
  apply tx_bind_ok in Hrun as (found & c0 & Hf & Hrun). apply tx_gets_ok in Hf as [-> ->]. rewrite Hp in Hrun.
  apply tx_bind_ok in Hrun as (dead & c0 & Hf & Hrun). apply tx_gets_ok in Hf as [-> ->].
  case_bool_decide; tx_step Hrun; adjusted;
    match goal with Hi : tx_iter _ _ _ = _ |- _ => destruct (index_puts _ _ _ _ _ _ Hi) as (x & -> & _) end;
    unfold awaited; rows; rewrite lookup_insert_eq, lookup_delete_eq; eauto.
Qed.

Lemma awaited_run o n c cmds c' :
  cluster_reachable c → cluster_run c cmds c' → along (careful (.= o)) c cmds → Forall (not_acknowledged o n) cmds →
  awaited o n c → awaited o n c'.
Proof.
  intros Hreach. induction 1 as [|cmds cmd c1 c2 Hrun IH Hstep]; [done|].
  intros [Hcare Hone]%along_snoc [Hall Hnot]%Forall_app Hstart. rewrite <-(run_exec _ _ _ Hrun) in Hone.
  specialize (IH Hcare Hall Hstart). destruct (reachable_counts _ (cluster_reachable_run _ _ _ Hreach Hrun)) as [Hinv _].
  apply Forall_cons in Hnot as [Hnot _].
  destruct (cluster_step_cases _ _ _ Hstep) as [->|[out Hr]]; [done|]. destruct Hstep as [Hok _]. by eapply awaited_step.
Qed.

End ClusterPlacements.
