(* ===== verification/ClusterTasks.v ===== *)
(** * Movement tasks and their queue

    The invariant of the task tables: the queue and the index by payload hold
    exactly the outstanding tasks, each payload has at most one of each kind, and
    the counters are exact. The fence of a task only grows. *)

From S2P Require Import Prelude Bytes Tables ObjectLock CoreTypes Keys Topology Replicas ClusterCatalog ClusterInv.
Import CoreTypes Keys Topology Replicas ClusterCatalog ClusterInv.

Module ClusterTasks.

Definition object_key (t : ReplicaTask) : bytes := task_object_key (t_object_id t) (t_kind t).

Record TasksInv (c : ClusterCatalog) : Prop := {
  ti_task : ∀ id t, TASKS c !! id = Some t → t_id t = id ∧ uuid_ok id;
  ti_queued : ∀ id t, TASKS c !! id = Some t → active (t_state t) = true →
    TASK_QUEUE c !! task_queue_key t = Some id ∧ TASK_BY_OBJECT c !! object_key t = Some id;
  ti_queue : ∀ k id, TASK_QUEUE c !! k = Some id →
    ∃ t, TASKS c !! id = Some t ∧ active (t_state t) = true ∧ k = task_queue_key t;
  ti_object : ∀ k id, TASK_BY_OBJECT c !! k = Some id →
    ∃ t, TASKS c !! id = Some t ∧ active (t_state t) = true ∧ k = object_key t;
  ti_active : read_counter c ACTIVE_TASKS = active_sum c;
  ti_parked : read_counter c PARKED_TASKS = parked_sum c }.

(** The fields a transition of a task does not change. *)
Definition same_task (t t' : ReplicaTask) : Prop :=
  t_id t' = t_id t ∧ t_object_id t' = t_object_id t ∧ t_kind t' = t_kind t ∧ t_priority t' = t_priority t ∧
  t_created_at t' = t_created_at t.

Lemma same_task_keys t t' : same_task t t' → task_queue_key t' = task_queue_key t ∧ object_key t' = object_key t.
Proof. intros (H1 & H2 & H3 & H4 & H5). unfold task_queue_key, object_key. by rewrite H1, H2, H3, H4, H5. Qed.

Lemma task_queue_key_inj t t' :
  length (t_id t) = length (t_id t') → task_queue_key t = task_queue_key t' → t_id t = t_id t'.
Proof.
  intros Hlen Heq. unfold task_queue_key in Heq. apply app_inj_len in Heq as [_ Heq]; [|done].
  apply app_inj_len in Heq as [_ ->]; [done|]. unfold ordered_timestamp. by rewrite !length_be_bytes.
Qed.

Lemma sums_nonneg c : 0 ≤ active_sum c ∧ 0 ≤ parked_sum c.
Proof. split; apply msum_nonneg; intros ? t _; unfold one_if; by destruct (_ (t_state t)). Qed.

(** ** Transitions of one outstanding task *)

Lemma tasks_put c c' id t t' :
  TasksInv c → TASKS c !! id = Some t → active (t_state t) = true → same_task t t' →
  TASKS c' = <[id := t']> (TASKS c) →
  TASK_QUEUE c' = (if active (t_state t') then TASK_QUEUE c else delete (task_queue_key t) (TASK_QUEUE c)) →
  TASK_BY_OBJECT c' = (if active (t_state t') then TASK_BY_OBJECT c else delete (object_key t) (TASK_BY_OBJECT c)) →
  read_counter c' ACTIVE_TASKS = active_sum c' → read_counter c' PARKED_TASKS = parked_sum c' →
  TasksInv c'.
Proof.
  intros [H1 H2 H3 H4 _ _] Ht Hact Hsame HT HQ HO HA HP. destruct (same_task_keys _ _ Hsame) as [Hqk Hok].
  destruct (H1 _ _ Ht) as [Hid Huuid]. destruct (H2 _ _ Ht Hact) as [Hq Ho]. split; try done.
  - intros id' x. rewrite HT. intros [[<- <-]|[Hne Hx]]%lookup_insert_Some; [|by apply H1].
    destruct Hsame as (Hid' & _). by rewrite Hid'.
  - intros id' x. rewrite HT. intros [[<- <-]|[Hne Hx]]%lookup_insert_Some Hx'.
    + by rewrite HQ, HO, Hx', Hqk, Hok.
    + destruct (H2 _ _ Hx Hx') as [Hqx Hox]. rewrite HQ, HO. destruct (active (t_state t')); [done|].
      rewrite !lookup_delete_ne; [done|congruence..].
  - intros k id'. rewrite HQ, HT. destruct (decide (id' = id)) as [->|Hne].
    + rewrite lookup_insert_eq. destruct (active (t_state t')) eqn:Hact'.
      * intros Hk. destruct (H3 _ _ Hk) as (x & Hx & _ & ->). assert (x = t) as -> by congruence. exists t'. by rewrite Hqk.
      * intros [Hk' Hk]%lookup_delete_Some. destruct (H3 _ _ Hk) as (x & Hx & _ & ->). congruence.
    + rewrite lookup_insert_ne by done. destruct (active (t_state t')); [apply H3|]. intros [_ Hk]%lookup_delete_Some. by apply H3.
  - intros k id'. rewrite HO, HT. destruct (decide (id' = id)) as [->|Hne].
    + rewrite lookup_insert_eq. destruct (active (t_state t')) eqn:Hact'.
      * intros Hk. destruct (H4 _ _ Hk) as (x & Hx & _ & ->). assert (x = t) as -> by congruence. exists t'. by rewrite Hok.
      * intros [Hk' Hk]%lookup_delete_Some. destruct (H4 _ _ Hk) as (x & Hx & _ & ->). congruence.
    + rewrite lookup_insert_ne by done. destruct (active (t_state t')); [apply H4|]. intros [_ Hk]%lookup_delete_Some. by apply H4.
Qed.

(** Taking the row of an outstanding task out of the queue and putting it back. *)
Lemma queue_again c id t t' :
  TasksInv c → TASKS c !! id = Some t → active (t_state t) = true → same_task t t' →
  <[task_queue_key t' := t_id t']> (delete (task_queue_key t) (TASK_QUEUE c)) = TASK_QUEUE c.
Proof.
  intros Hinv Ht Hact Hsame. destruct (same_task_keys _ _ Hsame) as [-> _]. destruct Hsame as (-> & _).
  destruct (ti_task _ Hinv _ _ Ht) as [-> _]. destruct (ti_queued _ Hinv _ _ Ht Hact) as [Hq _].
  rewrite insert_delete_eq. by apply insert_id.
Qed.

(** [remove_task_object_entry] for a task that is still indexed. *)
Lemma object_entry_removed c1 t u c2 :
  TASK_BY_OBJECT c1 !! object_key t = Some (t_id t) → remove_task_object_entry t c1 = (Ok u, c2) →
  c2 = upd_task_by_object (delete (object_key t)) c1.
Proof.
  intros Hrow Hrun. unfold remove_task_object_entry in Hrun. change (task_object_key _ _) with (object_key t) in Hrun.
  apply tx_bind_ok in Hrun as (found & c0 & Hf & Hrun). apply tx_gets_ok in Hf as [-> ->].
  rewrite Hrow, bool_decide_eq_true_2 in Hrun by done. by tx_step Hrun.
Qed.

(** The counters after a transition. *)
Lemma task_counters c c' id t t' :
  TasksInv c → fits c' → TASKS c !! id = Some t → active (t_state t) = true → TASKS c' = <[id := t']> (TASKS c) →
  read_counter c' ACTIVE_TASKS =
    (if active (t_state t') then read_counter c ACTIVE_TASKS
     else Z.min (Z.max (read_counter c ACTIVE_TASKS + -1) 0) u64_max) →
  read_counter c' PARKED_TASKS =
    (if is_parked (t_state t') then Z.min (Z.max (read_counter c PARKED_TASKS + 1) 0) u64_max
     else read_counter c PARKED_TASKS) →
  read_counter c' ACTIVE_TASKS = active_sum c' ∧ read_counter c' PARKED_TASKS = parked_sum c'.
Proof.
  intros Hinv (_ & _ & _ & _ & Hfa & Hfp) Ht Hact HT HA HP. destruct (sums_nonneg c') as [Hna Hnp].
  rewrite HA, HP, (ti_active _ Hinv), (ti_parked _ Hinv). unfold active_sum, parked_sum in *.
  rewrite HT, msum_insert in Hfa, Hfp, Hna, Hnp |- *. rewrite msum_insert. unfold at_key in *. rewrite Ht in *. cbn in *.
  rewrite Hact in *. destruct (t_state t), (t_state t'); cbn in *; unfold one_if in *; lia.
Qed.

Ltac adjusted := repeat match goal with H : adjust_counter _ _ _ = _ |- _ => apply cluster_adjust_ok in H; subst end.
Ltac counters := unfold read_counter; rows; repeat first [rewrite lookup_insert_eq|rewrite lookup_insert_ne by done]; done.

Lemma stays_active c c' id t t' :
  TasksInv c → fits c' → TASKS c !! id = Some t → active (t_state t) = true → same_task t t' →
  active (t_state t') = true →
  c' = upd_tasks <[id := t']> (upd_task_queue <[task_queue_key t' := t_id t']> (upd_task_queue (delete (task_queue_key t)) c)) →
  TasksInv c'.
Proof.
  intros Hinv Hfits Ht Hact Hsame Hact' ->.
  assert (Hpark : is_parked (t_state t') = false) by by destruct (t_state t').
  assert (Hcount := task_counters c _ id t t' Hinv Hfits Ht Hact eq_refl). rewrite Hact', Hpark in Hcount.
  destruct Hcount as [HA HP]; [done..|].
  eapply tasks_put; try done; rewrite Hact'; rows; [by eapply queue_again|done].
Qed.

Lemma leaves_queue c c1 c2 c' id t t' u :
  remove_task_object_entry t' c1 = (Ok u, c2) → TasksInv c → fits c' → TASKS c !! id = Some t → active (t_state t) = true → same_task t t' →
  active (t_state t') = false →
  TASKS c' = <[id := t']> (TASKS c) → TASK_QUEUE c' = delete (task_queue_key t) (TASK_QUEUE c) →
  TASK_BY_OBJECT c1 = TASK_BY_OBJECT c → TASK_BY_OBJECT c' = TASK_BY_OBJECT c2 →
  read_counter c' ACTIVE_TASKS = Z.min (Z.max (read_counter c ACTIVE_TASKS + -1) 0) u64_max →
  read_counter c' PARKED_TASKS =
    (if is_parked (t_state t') then Z.min (Z.max (read_counter c PARKED_TASKS + 1) 0) u64_max
     else read_counter c PARKED_TASKS) →
  TasksInv c'.
Proof.
  intros Hrm Hinv Hfits Ht Hact Hsame Hact' HT HQ HO HO2 HA HP.
  destruct (same_task_keys _ _ Hsame) as [_ Hok]. destruct (ti_queued _ Hinv _ _ Ht Hact) as [_ Ho].
  destruct (ti_task _ Hinv _ _ Ht) as [Hid _].
  assert (HO' : TASK_BY_OBJECT c' = delete (object_key t) (TASK_BY_OBJECT c)).
  { assert (Hentry : TASK_BY_OBJECT c1 !! object_key t' = Some (t_id t')).
    { destruct Hsame as (-> & _). by rewrite HO, Hok, Ho, Hid. }
    apply (object_entry_removed _ _ _ _ Hentry) in Hrm. rewrite HO2, Hrm. rows. by rewrite Hok, HO. }
  destruct (task_counters c c' id t t' Hinv Hfits Ht Hact HT) as [? ?]; [by rewrite Hact'|done|].
  eapply tasks_put; try done; by rewrite Hact'.
Qed.

Lemma add_task_inv t c out c' :
  TasksInv c → fits c' → uuid_ok (t_id t) → t_state t = Queued → TASKS c !! t_id t = None →
  TASK_BY_OBJECT c !! object_key t = None → add_task t c = (Ok out, c') → TasksInv c'.
Proof.
  intros Hinv Hfits Hid Hstate Hfresh Hobj Hrun. unfold add_task, put_task, insert_task_queue_entry in Hrun.
  rewrite Hstate in Hrun. cbn [active negb] in Hrun. tx_step Hrun. adjusted. destruct Hinv as [H1 H2 H3 H4 H5 H6].
  assert (Hact : active (t_state t) = true) by by rewrite Hstate. split; rows.
  - intros id x [[<- <-]|[_ Hx]]%lookup_insert_Some; [done|by apply H1].
  - intros id x [[<- <-]|[Hne Hx]]%lookup_insert_Some Hx'; [by rewrite !lookup_insert_eq|].
    destruct (H2 _ _ Hx Hx') as [Hq Ho]. rewrite !lookup_insert_ne; [done| |].
    + change (object_key t ≠ object_key x). congruence.
    + intros Heq%task_queue_key_inj; destruct (H1 _ _ Hx) as [<- [? _]]; [done|]. destruct Hid. congruence.
  - intros k id [[<- <-]|[Hne Hk]]%lookup_insert_Some; [exists t; by rewrite lookup_insert_eq|].
    destruct (H3 _ _ Hk) as (x & Hx & ? & ->). exists x. by rewrite lookup_insert_ne by congruence.
  - intros k id [[<- <-]|[Hne Hk]]%lookup_insert_Some; [exists t; by rewrite lookup_insert_eq|].
    destruct (H4 _ _ Hk) as (x & Hx & ? & ->). exists x. by rewrite lookup_insert_ne by congruence.
  - destruct Hfits as (_ & _ & _ & _ & Hfa & _). unfold active_sum in *. rows. rewrite msum_insert_new in Hfa |- * by done.
    rewrite Hstate in *. cbn in *. unfold read_counter in *. rows. rewrite lookup_insert_eq. cbn. rewrite H5, clamp_exact; [lia|].
    pose proof (proj1 (sums_nonneg c)). unfold active_sum in *. lia.
  - unfold parked_sum in *. rows. rewrite msum_insert_new by done. rewrite Hstate. cbn. rewrite <-H6. counters.
Qed.

(** ** Commands *)

Lemma object_entry_frame t u c c' :
  remove_task_object_entry t c = (Ok u, c') → ∃ rows, c' = upd_task_by_object rows c.
Proof.
  intros Hrun. unfold remove_task_object_entry in Hrun. apply tx_bind_ok in Hrun as (found & c0 & Hf & Hrun).
  apply tx_gets_ok in Hf as [-> ->]. case_bool_decide; tx_step Hrun; [eauto|]. exists id. by destruct c.
Qed.

Lemma enqueue_inv t c out c' :
  TasksInv c → fits c' → cluster_ok c (EnqueueTask t) → enqueue_task t c = (Ok out, c') → TasksInv c'.
Proof.
  intros Hinv Hfits (Hid & Hstate & Hfresh) Hrun. unfold enqueue_task in Hrun. change (task_object_key _ _) with (object_key t) in Hrun.
  apply tx_bind_ok in Hrun as (found & c0 & Hf & Hrun). apply tx_gets_ok in Hf as [-> ->].
  destruct (TASK_BY_OBJECT c !! object_key t) as [id|] eqn:Hrow; cbn in Hrun; [|by eapply add_task_inv].
  destruct (ti_object _ Hinv _ _ Hrow) as (x & Hx & Hact & _). rewrite Hx, Hact in Hrun. by tx_step Hrun.
Qed.

Lemma claim_inv id node_id lease at_ c out c' :
  TasksInv c → fits c' → claim_task id node_id lease at_ c = (Ok out, c') → TasksInv c'.
Proof.
  intros Hinv Hfits Hrun. unfold claim_task, require_task in Hrun. apply tx_bind_ok in Hrun as (t & c0 & Hf & Hrun). tx_step Hf.
  case_bool_decide as Hq; cbn [negb] in Hrun; [|by tx_step Hrun].
  unfold remove_task_queue_entry, insert_task_queue_entry, put_task in Hrun. cbn [task_claim task_with t_state active negb] in Hrun.
  tx_step Hrun. eapply (stays_active c _ id t (task_claim node_id lease at_ t)); try done. by rewrite Hq.
Qed.

Lemma requeue_inv id reason at_ c out c' :
  TasksInv c → fits c' → (∀ t, TASKS c !! id = Some t → active (t_state t) = true) →
  requeue_task id reason at_ c = (Ok out, c') → TasksInv c'.
Proof.
  intros Hinv Hfits Hactive Hrun. unfold requeue_task, require_task in Hrun.
  apply tx_bind_ok in Hrun as (t & c0 & Hf & Hrun). tx_step Hf.
  match goal with E : TASKS _ !! _ = Some _ |- _ => rename E into Ht end. rewrite (Hactive _ Ht) in Hrun.
  unfold remove_task_queue_entry, insert_task_queue_entry, put_task in Hrun. cbn [task_requeue task_with t_state active negb] in Hrun.
  tx_step Hrun. eapply (stays_active c _ id t (task_requeue reason at_ t)); try done. by apply Hactive.
Qed.

Lemma holds_claim_active node_id fence t : holds_claim node_id fence t = true → active (t_state t) = true.
Proof. unfold holds_claim. by destruct (t_state t); rewrite ?andb_false_r. Qed.

Lemma complete_inv id node_id fence at_ c out c' :
  TasksInv c → fits c' → complete_task id (Some node_id) fence at_ c = (Ok out, c') → TasksInv c'.
Proof.
  intros Hinv Hfits Hrun. unfold complete_task, require_task in Hrun. apply tx_bind_ok in Hrun as (t & c0 & Hf & Hrun). tx_step Hf.
  cbn [stale_report] in Hrun. destruct (holds_claim node_id fence t) eqn:Hclaim; cbn [negb] in Hrun; [|by tx_step Hrun].
  apply holds_claim_active in Hclaim. rewrite Hclaim in Hrun. unfold remove_task_queue_entry, put_task in Hrun. tx_step Hrun. adjusted.
  match goal with Hrm : remove_task_object_entry _ _ = _ |- _ =>
    destruct (object_entry_frame _ _ _ _ Hrm) as [rows ->]; eapply (leaves_queue c _ _ _ id t (task_complete at_ t) _ Hrm) end; first [done|counters].
Qed.

Lemma cancel_inv id reason at_ c out c' :
  TasksInv c → fits c' → (∀ t, TASKS c !! id = Some t → active (t_state t) = true) →
  cancel_task id reason at_ c = (Ok out, c') → TasksInv c'.
Proof.
  intros Hinv Hfits Hactive Hrun. unfold cancel_task, require_task in Hrun. apply tx_bind_ok in Hrun as (t & c0 & Hf & Hrun). tx_step Hf.
  match goal with E : TASKS _ !! _ = Some _ |- _ => rename E into Ht end. rewrite (Hactive _ Ht) in Hrun.
  unfold remove_task_queue_entry, put_task in Hrun. tx_step Hrun. adjusted.
  match goal with Hrm : remove_task_object_entry _ _ = _ |- _ =>
    destruct (object_entry_frame _ _ _ _ Hrm) as [rows ->]; eapply (leaves_queue c _ _ _ id t (task_cancel reason at_ t) _ Hrm) end; first [done|by apply Hactive|counters].
Qed.

Lemma fail_inv id node_id fence reason attempts at_ c out c' :
  TasksInv c → fits c' → fail_task id (Some node_id) fence reason attempts at_ c = (Ok out, c') → TasksInv c'.
Proof.
  intros Hinv Hfits Hrun. unfold fail_task, require_task in Hrun. apply tx_bind_ok in Hrun as (t & c0 & Hf & Hrun). tx_step Hf.
  cbn [stale_report] in Hrun. destruct (holds_claim node_id fence t) eqn:Hclaim; cbn [negb] in Hrun; [|by tx_step Hrun].
  apply holds_claim_active in Hclaim. rewrite Hclaim in Hrun. cbv zeta in Hrun.
  set (t' := task_fail reason attempts at_ t) in *. assert (Hsame : same_task t t') by done.
  assert (Hstate : t_state t' = Queued ∨ ∃ r, t_state t' = Parked at_ r).
  { unfold t', task_fail. cbn. destruct (_ <=? _); [right; by eexists|by left]. }
  clearbody t'. unfold remove_task_queue_entry, insert_task_queue_entry, put_task in Hrun.
  destruct Hstate as [Hs|[r Hs]]; rewrite Hs in Hrun; cbn [active negb] in Hrun; tx_step Hrun; adjusted.
  - eapply (stays_active c _ id t t'); try done. by rewrite Hs.
  - match goal with Hrm : remove_task_object_entry _ _ = _ |- _ =>
      destruct (object_entry_frame _ _ _ _ Hrm) as [rows ->]; eapply (leaves_queue c _ _ _ id t t' _ Hrm) end; rewrite ?Hs; cbn [is_parked]; first [done|counters].
Qed.

Lemma purge_task_inv id c out c' : TasksInv c → fits c' → purge_task id c = (Ok out, c') → TasksInv c'.
Proof.
  intros Hinv Hfits Hrun. unfold purge_task in Hrun. apply tx_bind_ok in Hrun as (found & c0 & Hf & Hrun).
  apply tx_gets_ok in Hf as [-> ->]. destruct (TASKS c !! id) as [t|] eqn:Ht; [|by tx_step Hrun].
  destruct (active (t_state t)) eqn:Hact; [by tx_step Hrun|].
  apply tx_bind_ok in Hrun as (u & c1 & Hcount & Hrun). tx_step Hrun. destruct Hinv as [H1 H2 H3 H4 H5 H6].
  assert (Hc1 : c1 = upd_counters (λ m, if is_parked (t_state t)
    then <[PARKED_TASKS := Z.min (Z.max (read_counter c PARKED_TASKS + -1) 0) u64_max]> m else m) c).
  { destruct (is_parked _); tx_step Hcount; adjusted; by destruct c. }
  subst c1. clear Hcount. split; rows.
  - intros id' x [_ Hx]%lookup_delete_Some. by apply H1.
  - intros id' x [_ Hx]%lookup_delete_Some. by apply H2.
  - intros k id' Hk. destruct (H3 _ _ Hk) as (x & Hx & ? & ->). exists x. rewrite lookup_delete_ne by congruence. done.
  - intros k id' Hk. destruct (H4 _ _ Hk) as (x & Hx & ? & ->). exists x. rewrite lookup_delete_ne by congruence. done.
  - unfold active_sum in *. rows. rewrite msum_delete. unfold at_key. rewrite Ht. cbn. rewrite Hact. cbn. rewrite <-H5.
    destruct (is_parked _); unfold read_counter; rows; rewrite ?lookup_insert_ne by done; lia.
  - destruct Hfits as (_ & _ & _ & _ & _ & Hfp). pose proof (proj2 (sums_nonneg c)) as Hnn.
    unfold parked_sum in *. rows. rewrite msum_delete in Hfp |- *. unfold at_key in *. rewrite Ht in *. cbn in *.
    pose proof (msum_at_key_le (λ _ t, one_if (is_parked (t_state t))) (TASKS c) id) as Hle. unfold at_key in Hle. rewrite Ht in Hle. cbn in Hle.
    unfold read_counter in *. destruct (is_parked _); cbn in *; rows; rewrite ?lookup_insert_eq; cbn; rewrite H6; [|lia].
    rewrite clamp_exact; [lia|]. assert (1 ≤ msum (λ _ t, one_if (is_parked (t_state t))) (TASKS c)); [|lia].
    apply Hle. intros ? y _. unfold one_if. by case_match.
Qed.

(** ** Commands that do not touch tasks *)

Definition task_keys : list string := [ACTIVE_TASKS; PARKED_TASKS].

Definition same_tasks (c c' : ClusterCatalog) : Prop :=
  TASKS c' = TASKS c ∧ TASK_QUEUE c' = TASK_QUEUE c ∧ TASK_BY_OBJECT c' = TASK_BY_OBJECT c ∧
  ∀ key, key ∈ task_keys → read_counter c' key = read_counter c key.
#[export] Instance same_tasks_preorder : PreOrder same_tasks.
Proof.
  split; [done|]. intros c1 c2 c3 (?&?&?&Hc1) (?&?&?&Hc2). unfold same_tasks. split_and!; try congruence.
  intros key Hkey. rewrite Hc2, Hc1; done.
Qed.

Lemma tasks_framed c c' : same_tasks c c' → TasksInv c → TasksInv c'.
Proof.
  intros (HT & HQ & HO & HC) [H1 H2 H3 H4 H5 H6].
  split; unfold active_sum, parked_sum; rewrite ?HT, ?HQ, ?HO, ?HC by (unfold task_keys; set_solver); done.
Qed.

Ltac task_key := apply (bool_decide_unpack _); vm_compute; done.
Ltac unfold_tasks :=
  unfold same_tasks, read_counter; rows; split_and!; try done;
  intros ? ?; rewrite ?lookup_insert_ne by (unfold task_keys in *; set_solver); try done.

Lemma set_counter_tasks key value : key ∉ task_keys → keeps same_tasks (set_counter key value).
Proof. intros Hk. apply keeps_modify. intros c. unfold_tasks. Qed.
Lemma adjust_counter_tasks key delta : key ∉ task_keys → keeps same_tasks (adjust_counter key delta).
Proof. intros Hk. unfold adjust_counter. keeps_steps. by apply set_counter_tasks. Qed.

#[local] Hint Resolve set_counter_tasks adjust_counter_tasks : frame.
#[local] Hint Extern 1 (_ ∉ task_keys) => task_key : frame.

Definition touches_tasks (cmd : ClusterCommand) : bool :=
  match cmd with
  | EnqueueTask _ | ClaimTask _ _ _ _ | CompleteTask _ _ _ _ | FailTask _ _ _ _ _ _ | RequeueTask _ _ _
  | CancelTask _ _ _ | PurgeTask _ => true
  | _ => false
  end.

Lemma other_commands_tasks cmd : touches_tasks cmd = false → keeps same_tasks (apply_command_tx cmd).
Proof.
  destruct cmd; try done; intros _; cbn [apply_command_tx];
    unfold initialize_cluster, record_recovery, update_config, register_node, heartbeat, update_node_descriptor,
      set_node_state, register_device, set_device_state, set_node_metadata_voter, forget_node, put_storage_policy,
      delete_storage_policy, put_placement, upsert_replica_tx, set_replica_state,
      remove_replica_tx, remove_replica_from_device, set_desired_replicas, rewrite_placement, require_placement,
      delete_placement, acknowledge_tombstone, purge_tombstone, update_operation, consume_join_token,
      revoke_join_token, purge_join_token, set_node_credential_disabled, remove_device_replica,
      remove_node_replica, write_placement, put_node_replica, next_member_id,
      advance_cluster_map_epoch, recount_durability, require_config, require_node, put_node;
    keeps_steps; first [by auto with frame|apply keeps_modify; intros ?; unfold_tasks; fail|idtac].
Qed.

Lemma tasks_step c cmd out c' :
  TasksInv c → cluster_ok c cmd → orderly c cmd → fits c' → apply_command_tx cmd c = (Ok out, c') → TasksInv c'.
Proof.
  intros Hinv Hok Horder Hfits Hrun. destruct (touches_tasks cmd) eqn:Htouch.
  2: { apply other_commands_tasks in Hrun; [|done]. by eapply tasks_framed. }
  destruct cmd; try done; cbn [apply_command_tx cluster_ok orderly] in *.
  - by eapply enqueue_inv.
  - by eapply claim_inv.
  - destruct node_id as [node_id|]; [|by destruct Hok]. by eapply complete_inv.
  - destruct node_id as [node_id|]; [|by destruct Hok]. by eapply fail_inv.
  - by eapply requeue_inv.
  - by eapply cancel_inv.
  - by eapply purge_task_inv.
Qed.

Lemma empty_tasks : TasksInv empty_cluster.
Proof. split; cbn; try done. Qed.

Lemma tasks_run c cmds c' : TasksInv c → cluster_run c cmds c' → along orderly c cmds → TasksInv c'.
Proof.
  intros Hinv Hrun Horder. eapply (run_along orderly); [|done|done|done]. intros c1 cmd c2 Hinv1 Hstep Hone.
  pose proof Hstep as (Hok & _ & Hfits). destruct (cluster_step_cases _ _ _ Hstep) as [->|[out Hr]]; [done|]. by eapply tasks_step.
Qed.

(** ** Fences *)

(** How one command may change the row of a task: it leaves the fence and either
    the state or the claim, or it claims the task under the next fence. *)
Definition fence_step (t t' : ReplicaTask) : Prop :=
  t' = t ∨ t_fence t' = t_fence t ∧ (∀ node_id at_ lease, t_state t' ≠ Running node_id at_ lease) ∨ t_fence t < t_fence t'.

(** The rows of tasks before and after a command. *)
Inductive rows_step (cmd : ClusterCommand) (before after : gmap bytes ReplicaTask) : Prop :=
  | rows_same : after = before → rows_step cmd before after
  | rows_put id t t' : before !! id = Some t → fence_step t t' → after = <[id := t']> before → rows_step cmd before after
  | rows_add t : cmd = EnqueueTask t → after = <[t_id t := t]> before → rows_step cmd before after
  | rows_drop id : after = delete id before → rows_step cmd before after.

Ltac settle :=
  repeat match goal with
  | H : adjust_counter _ _ _ = (Ok _, _) |- _ => apply cluster_adjust_ok in H; subst
  | H : remove_task_object_entry _ _ = (Ok _, _) |- _ => apply object_entry_frame in H as [? ->]
  end; rows.

Lemma add_task_rows t c out c' : add_task t c = (Ok out, c') → TASKS c' = <[t_id t := t]> (TASKS c).
Proof.
  intros Hrun. unfold add_task, put_task, insert_task_queue_entry in Hrun.
  destruct (negb _); tx_step Hrun; settle; done.
Qed.

(** Reports, requests to put back and cancellations end a claim. *)
Lemma ended_rows cmd id t t' before :
  before !! id = Some t → t_fence t' = t_fence t → (∀ n a l, t_state t' ≠ Running n a l) →
  rows_step cmd before (<[id := t']> before).
Proof. intros Ht Hf Hs. eapply rows_put; [done| |done]. right. by left. Qed.

Lemma task_rows_step c cmd out c' :
  cluster_ok c cmd → apply_command_tx cmd c = (Ok out, c') → rows_step cmd (TASKS c) (TASKS c').
Proof.
  intros Hok Hrun. destruct (touches_tasks cmd) eqn:Htouch.
  2: { apply other_commands_tasks in Hrun as (HT & _); [|done]. by apply rows_same. }
  destruct cmd; try done; cbn [apply_command_tx cluster_ok] in *; clear Htouch;
    unfold enqueue_task, claim_task, complete_task, fail_task, requeue_task, cancel_task, purge_task, require_task in Hrun;
    apply tx_bind_ok in Hrun as (found & c0 & Hf & Hrun);
    unfold put_task, remove_task_queue_entry, insert_task_queue_entry in Hrun.
  - tx_step Hf. destruct (_ ≫= _) as [x|]; [destruct (active (t_state x)); [tx_step Hrun; by apply rows_same|]|];
      apply add_task_rows in Hrun; by eapply rows_add.
  - tx_step Hf. destruct (negb _); [tx_step Hrun; by apply rows_same|]. cbn [task_claim task_with t_state active negb] in Hrun.
    tx_step Hrun. rows. eapply rows_put; [done| |done]. right. right. cbn. destruct (Hok _ E). unfold u64_saturating_add. lia.
  - tx_step Hf. destruct (stale_report _ _ _); [tx_step Hrun; by apply rows_same|].
    destruct (active _); tx_step Hrun; settle; by eapply ended_rows.
  - tx_step Hf. destruct (stale_report _ _ _); [tx_step Hrun; by apply rows_same|]. cbv zeta in Hrun.
    apply tx_bind_ok in Hrun as (u & c1 & H1 & Hrun). apply tx_bind_ok in Hrun as (u2 & c2 & H2 & Hrun). tx_step H1. tx_step Hrun.
    assert (HT : TASKS c2 = TASKS c).
    { destruct (active (t_state (task_fail _ _ _ _))); [|destruct (active (t_state found))];
        cbn [negb] in H2; tx_step H2; settle; done. }
    rows. rewrite HT. eapply ended_rows; [done|done|]. intros ? ? ?. cbn. by destruct (_ <=? _).
  - tx_step Hf. cbn [task_requeue task_with t_state active negb] in Hrun.
    destruct (active _); cbn [negb] in Hrun; tx_step Hrun; settle; by eapply ended_rows.
  - tx_step Hf. destruct (active _); tx_step Hrun; settle; by eapply ended_rows.
  - tx_step Hf. destruct (TASKS c !! task_id) as [x|]; [|tx_step Hrun; by apply rows_same].
    destruct (active _); [tx_step Hrun; by apply rows_same|].
    destruct (is_parked _); tx_step Hrun; settle; by eapply rows_drop.
Qed.

(** A claim that has ended: its task has at least that fence and is not under it. *)
Definition claim_over (id node_id : bytes) (fence : Z) (c : ClusterCatalog) : Prop :=
  ∀ t, TASKS c !! id = Some t → fence ≤ t_fence t ∧ holds_claim node_id fence t = false.

Definition not_enqueued (id : bytes) (cmd : ClusterCommand) : Prop :=
  match cmd with EnqueueTask t => t_id t ≠ id | _ => True end.

Lemma fence_step_over t t' node_id fence :
  fence_step t t' → fence ≤ t_fence t → holds_claim node_id fence t = false →
  fence ≤ t_fence t' ∧ holds_claim node_id fence t' = false.
Proof.
  intros [->|[[Hf Hs]|Hlt]] Hle Hover; [done| |].
  - split; [lia|]. unfold holds_claim. destruct (t_state t') eqn:Hst; rewrite ?andb_false_r; try done. by edestruct Hs.
  - split; [lia|]. unfold holds_claim. assert (t_fence t' =? fence = false) as -> by lia. done.
Qed.

(** What every transition of a task keeps holds of the task as long as no new one
    is filed under its identifier. *)
Lemma task_stable_run (P : ReplicaTask → Prop) id c cmds c' :
  (∀ t t', fence_step t t' → P t → P t') → cluster_run c cmds c' → Forall (not_enqueued id) cmds →
  (∀ t, TASKS c !! id = Some t → P t) → ∀ t, TASKS c' !! id = Some t → P t.
Proof.
  intros Hkeep. induction 1 as [|cmds cmd c1 c2 _ IH Hstep]; [done|]. intros [Hall Hone]%Forall_app Hstart t' Ht'.
  specialize (IH Hall Hstart). destruct (cluster_step_cases _ _ _ Hstep) as [->|[out Hrun]]; [auto|]. destruct Hstep as [Hok _].
  destruct (task_rows_step _ _ _ _ Hok Hrun) as [HT|i t t1 Ht Hf HT|t -> HT|i HT]; rewrite HT in Ht'; [auto|..].
  - apply lookup_insert_Some in Ht' as [[-> ->]|[_ Ht']]; [eauto|auto].
  - apply Forall_cons in Hone as [Hone _]. apply lookup_insert_Some in Ht' as [[? _]|[_ Ht']]; [done|auto].
  - apply lookup_delete_Some in Ht' as [_ Ht']. auto.
Qed.

Lemma claim_over_run id node_id fence c cmds c' :
  cluster_run c cmds c' → Forall (not_enqueued id) cmds → claim_over id node_id fence c → claim_over id node_id fence c'.
Proof.
  intros Hrun Hnew Hover t0. apply (task_stable_run (λ t, fence ≤ t_fence t ∧ holds_claim node_id fence t = false) id c cmds c'); try done.
  intros t t' Hf [? ?]. by eapply fence_step_over.
Qed.

Lemma fence_floor_run id fence c cmds c' :
  cluster_run c cmds c' → Forall (not_enqueued id) cmds →
  (∀ t, TASKS c !! id = Some t → fence ≤ t_fence t) → ∀ t, TASKS c' !! id = Some t → fence ≤ t_fence t.
Proof. intros Hrun Hnew. apply (task_stable_run (λ t, fence ≤ t_fence t) id c cmds c'); try done. intros t t' [->|[[? _]|?]] ?; lia. Qed.

Lemma holds_claim_fence node_id fence t : holds_claim node_id fence t = true → t_fence t = fence.
Proof. unfold holds_claim. intros H. bool_facts. lia. Qed.

(** ** The order of the queue *)

Definition created_millis (t : ReplicaTask) : Z := t_created_at t / 10 ^ 6.

(** Urgent before less urgent, then older before newer. *)
Definition runs_before (a b : ReplicaTask) : Prop :=
  rank (t_priority a) < rank (t_priority b) ∨
  rank (t_priority a) = rank (t_priority b) ∧ created_millis a ≤ created_millis b.

Lemma sign_free x : 0 ≤ x < 2 ^ 63 → Z.lxor x (2 ^ 63) = x + 2 ^ 63.
Proof.
  intros Hx. symmetry. apply Z.add_nocarry_lxor, Z.bits_inj'. intros n Hn. rewrite Z.land_spec, Z.bits_0, Z.pow2_bits_eqb by lia.
  destruct (63 =? n) eqn:Hn'; [|by rewrite andb_false_r]. assert (n = 63) as -> by lia. rewrite andb_true_r.
  apply Z.testbit_false; [lia|]. by rewrite Z.div_small by lia.
Qed.

Lemma flip_sign x : 0 ≤ x < 2 ^ 64 → Z.lxor x (2 ^ 63) = if x <? 2 ^ 63 then x + 2 ^ 63 else x - 2 ^ 63.
Proof.
  intros Hx. destruct (x <? 2 ^ 63) eqn:Hlt; [apply sign_free; lia|].
  assert (Heq : x = Z.lxor (x - 2 ^ 63) (2 ^ 63)) by (rewrite sign_free; lia).
  rewrite Heq at 1. rewrite Z.lxor_assoc, Z.lxor_nilpotent. apply Z.lxor_0_r.
Qed.

Lemma ordered_millis z : is_i64 z → Z.lxor (u64_wrap z) (2 ^ 63) = z + 2 ^ 63.
Proof.
  unfold is_i64, u64_wrap. intros Hz. rewrite flip_sign by (apply Z.mod_pos_bound; lia).
  destruct (decide (0 ≤ z)) as [Hp|Hn].
  - rewrite Z.mod_small by lia. assert (z <? 2 ^ 63 = true) as -> by lia. done.
  - rewrite <-(Z.mod_add z 1), Z.mod_small by lia. assert (z + 1 * 2 ^ 64 <? 2 ^ 63 = false) as -> by lia. lia.
Qed.

Lemma queue_key_order a b :
  is_i64 (created_millis a) → is_i64 (created_millis b) → bytes_le (task_queue_key a) (task_queue_key b) → runs_before a b.
Proof.
  intros Ha Hb Hle. unfold task_queue_key in Hle. cbn [app] in Hle. apply bytes_le_cons in Hle as [?|[Hr Hle]]; [by left|right].
  split; [done|]. apply bytes_le_app_head in Hle; [|unfold ordered_timestamp; by rewrite !length_be_bytes].
  unfold ordered_timestamp in Hle. rewrite !ordered_millis in Hle by done. unfold is_i64, created_millis in *.
  apply be_bytes_le in Hle; lia.
Qed.

(** ** Reading the queue *)

Definition listed (c : ClusterCatalog) (entries : list (bytes * bytes)) : list ReplicaTask :=
  omap (λ e, TASKS c !! e.2) entries.

Lemma queue_scan_listed limit c entries acc :
  Forall (λ e, is_Some (TASKS c !! e.2)) entries → (length acc ≤ limit)%nat →
  queue_scan limit c entries acc =
    (acc ++ take (limit - length acc) (listed c entries), bool_decide (limit < length acc + length entries)%nat).
Proof.
  intros Hall. revert acc. induction Hall as [|[k id] entries [t Ht] _ IH]; intros acc Hlen; cbn [queue_scan].
  - unfold listed. cbn. rewrite take_nil, app_nil_r, bool_decide_eq_false_2 by lia. done.
  - unfold listed. cbn in Ht |- *. rewrite Ht. fold (listed c entries). case_bool_decide as Hfull.
    + replace (limit - length acc)%nat with 0%nat by lia. rewrite app_nil_r, bool_decide_eq_true_2 by lia. done.
    + rewrite IH by (rewrite length_app; cbn; lia). rewrite length_app. cbn [length].
      replace (limit - length acc)%nat with (S (limit - (length acc + 1))) by lia. cbn [take].
      rewrite <-app_assoc. cbn. f_equal. apply bool_decide_ext. lia.
Qed.

Lemma queue_resolves c : TasksInv c → Forall (λ e, is_Some (TASKS c !! e.2)) (table_iter (TASK_QUEUE c)).
Proof.
  intros Hinv. apply Forall_forall. intros [k id] Hin%elem_of_table_iter. destruct (ti_queue _ Hinv _ _ Hin) as (t & Ht & _). by eexists.
Qed.

Definition outstanding (c : ClusterCatalog) : list ReplicaTask :=
  List.filter (λ t, active (t_state t)) (map_to_list (TASKS c)).*2.

Lemma elem_of_outstanding c t : TasksInv c → t ∈ outstanding c ↔ TASKS c !! t_id t = Some t ∧ active (t_state t) = true.
Proof.
  intros Hinv. unfold outstanding. rewrite list_elem_of_In, filter_In, <-list_elem_of_In, list_elem_of_fmap. split.
  - intros [([id x] & -> & Hx%elem_of_map_to_list) Hact]. cbn in *. by destruct (ti_task _ Hinv _ _ Hx) as [-> _].
  - intros [Ht Hact]. split; [|done]. exists (t_id t, t). by rewrite elem_of_map_to_list.
Qed.

Lemma elem_of_listed c t : TasksInv c → t ∈ listed c (table_iter (TASK_QUEUE c)) ↔ t ∈ outstanding c.
Proof.
  intros Hinv. rewrite elem_of_outstanding by done. unfold listed. rewrite list_elem_of_omap. split.
  - intros ([k id] & Hin%elem_of_table_iter & Ht). cbn in Ht. destruct (ti_queue _ Hinv _ _ Hin) as (x & Hx & Hact & _).
    destruct (ti_task _ Hinv _ _ Ht) as [-> _]. split; [done|congruence].
  - intros [Ht Hact]. destruct (ti_queued _ Hinv _ _ Ht Hact) as [Hq _]. exists (task_queue_key t, t_id t).
    by rewrite elem_of_table_iter.
Qed.

Lemma queue_entries c :
  TasksInv c → Forall (λ e, ∃ t, TASKS c !! e.2 = Some t ∧ e.1 = task_queue_key t) (table_iter (TASK_QUEUE c)).
Proof.
  intros Hinv. apply Forall_forall. intros [k id] Hin%elem_of_table_iter. destruct (ti_queue _ Hinv _ _ Hin) as (t & Ht & _ & ->). eauto.
Qed.

(** The queue in key order is the list of its tasks in key order. *)
Lemma listed_sorted c :
  TasksInv c → StronglySorted (λ a b, bytes_le (task_queue_key a) (task_queue_key b)) (listed c (table_iter (TASK_QUEUE c))).
Proof.
  intros Hinv. pose proof (table_iter_sorted (TASK_QUEUE c)) as Hs.
  pose proof (queue_entries c Hinv) as Hall.
  induction Hs as [|[k id] entries Hs IH Hle]; [constructor|].
  apply Forall_cons in Hall as [(t & Ht & Hkey) Hall]. cbn in Hkey. subst k. unfold listed. cbn in Ht |- *. rewrite Ht. fold (listed c entries).
  constructor; [auto|]. apply Forall_forall. intros x (e & He & Hx)%list_elem_of_omap.
  rewrite Forall_forall in Hall, Hle. destruct (Hall _ He) as (y & Hy & Hk). apply Hle in He. unfold entry_le in He. cbn in *.
  rewrite Hk in He. congruence.
Qed.

Lemma listed_NoDup c : TasksInv c → NoDup (listed c (table_iter (TASK_QUEUE c))).
Proof.
  intros Hinv. pose proof (table_iter_NoDup (TASK_QUEUE c)) as Hnd.
  pose proof (queue_entries c Hinv) as Hall.
  induction (table_iter (TASK_QUEUE c)) as [|[k id] entries IH]; [constructor|].
  apply Forall_cons in Hall as [(t & Ht & Hkey) Hall]. cbn in Hkey. subst k. cbn in Hnd, Ht. apply NoDup_cons in Hnd as [Hnew Hnd].
  unfold listed. cbn. rewrite Ht. fold (listed c entries). constructor; [|auto]. intros (e & He & Hx)%list_elem_of_omap.
  apply Hnew. rewrite Forall_forall in Hall. destruct (Hall _ He) as (y & Hy & Hk). apply list_elem_of_fmap. exists e.
  split; [|done]. rewrite Hk. cbn in Hx. assert (t = y) as -> by congruence. done.
Qed.

Lemma listed_length c : TasksInv c → length (listed c (table_iter (TASK_QUEUE c))) = length (table_iter (TASK_QUEUE c)).
Proof.
  intros Hinv. pose proof (queue_resolves c Hinv) as Hall. unfold listed.
  induction Hall as [|e l [t Ht] _ IH]; [done|]. cbn. rewrite Ht. cbn. by rewrite IH.
Qed.

Lemma outstanding_NoDup c : TasksInv c → NoDup (outstanding c).
Proof.
  intros Hinv. unfold outstanding. apply NoDup_ListNoDup, List.NoDup_filter, NoDup_ListNoDup.
  apply (NoDup_fmap_1 t_id). rewrite <-list_fmap_compose.
  rewrite (list_fmap_ext _ fst); [apply NoDup_fst_map_to_list|].
  intros i [id t] Hi. apply list_elem_of_lookup_2, elem_of_map_to_list in Hi. cbn. apply (ti_task _ Hinv _ _ Hi).
Qed.

Lemma filter_count_perm {A} (q : A → bool) l l' : l ≡ₚ l' → length (List.filter q l) = length (List.filter q l').
Proof. induction 1; cbn; repeat destruct (q _); cbn; congruence. Qed.

Lemma msum_count {V} (q : V → bool) (m : gmap bytes V) :
  msum (λ _ v, one_if (q v)) m = Z.of_nat (length (List.filter q (map_to_list m).*2)).
Proof.
  induction m as [|k v m Hk IH] using map_ind; [done|]. rewrite msum_insert_new, IH by done.
  erewrite (filter_count_perm q (map_to_list (<[k := v]> m)).*2); [|by rewrite map_to_list_insert]. cbn.
  destruct (q v); cbn; lia.
Qed.

Lemma active_outstanding c : active_sum c = Z.of_nat (length (outstanding c)).
Proof. apply (msum_count (λ t, active (t_state t))). Qed.

Lemma listed_outstanding c : TasksInv c → listed c (table_iter (TASK_QUEUE c)) ≡ₚ outstanding c.
Proof.
  intros Hinv. apply NoDup_Permutation; [by apply listed_NoDup|by apply outstanding_NoDup|]. intros t. by apply elem_of_listed.
Qed.

End ClusterTasks.
