(* ===== verification/ClusterTheorems.v ===== *)
(** * What the cluster catalog promises

    Member identifiers are never given out twice, a node is forgotten only when it
    holds nothing, usage is exact, a worker that lost its claim cannot report, the
    queue lists the outstanding work in order, deletions wait for every holder and
    join tokens admit as many nodes as they say. *)

From S2P Require Import Prelude Bytes Tables ObjectLock CoreTypes Keys Topology Replicas ClusterCatalog ClusterInv ClusterPlacements ClusterTasks.
Import CoreTypes Keys Topology Replicas ClusterCatalog ClusterInv ClusterPlacements ClusterTasks ClusterSamples.

Module ClusterTheorems.

Lemma reachable_members c : cluster_reachable c → MembersInv c.
Proof. intros [cmds Hrun]. by destruct (members_run _ _ _ empty_members Hrun). Qed.

(** A consensus member identifier belongs to one node for the life of the
    cluster: a node that has an identifier some node had earlier is that node,
    whatever was registered, decommissioned and forgotten in between. *)
Theorem member_ids_never_reused c cmds c' k k' n n' :
  cluster_reachable c → cluster_run c cmds c' →
  NODES c !! k = Some n → NODES c' !! k' = Some n' → n_raft_id n' = n_raft_id n → k' = k.
Proof.
  intros Hreach Hrun Hn Hn' Heq. pose proof (reachable_members _ Hreach) as Hinv.
  destruct (mi_node _ Hinv _ _ Hn) as (_ & Hlt & Hrow). destruct (members_run _ _ _ Hinv Hrun) as [_ [_ Hgrow]].
  destruct (Hgrow _ _ Hn') as [(m & Hm & Hid)|?]; [|lia]. destruct (mi_node _ Hinv _ _ Hm) as (_ & _ & Hrow').
  rewrite Hid, Heq in Hrow'. congruence.
Qed.

Definition replaced : list ClusterCommand :=
  [SetNodeState node_c Decommissioned None 10; ForgetNode node_c; RegisterNode (joins (v4_id 4)) 11].
Lemma replaced_run : cluster_run (exec founded empty_cluster) replaced (exec replaced (exec founded empty_cluster)).
Proof. apply exec_run. apply (bool_decide_unpack _). vm_compute. done. Qed.

Lemma member_ids_never_reused_witness : node_a = node_a ∧ n_raft_id <$> NODES (exec replaced (exec founded empty_cluster)) !! v4_id 4 = Some 4.
Proof.
  split; [|vm_compute; reflexivity].
  refine (member_ids_never_reused (exec founded empty_cluster) replaced (exec replaced (exec founded empty_cluster))
    node_a node_a _ _ (ex_intro _ founded founded_run) replaced_run _ _ _); vm_compute; reflexivity.
Defined.

(** C19: Of a registered node, the removal goes through exactly if the node is
    decommissioned, no placement lists a replica on it and no deletion still waits
    for it; this after commands that [careful] describes, placements being written
    only of payloads no deletion is recorded for and without dropping replicas. The
    catalog does not check that, and after other commands the equivalence fails
    both ways ([forgotten_while_listed], [kept_for_nothing]). *)
Theorem forget_node_exact cmds c k n :
  cluster_run empty_cluster cmds c → along (careful every) empty_cluster cmds → is_v4 k → NODES c !! k = Some n →
  (∃ c', apply_cluster (ForgetNode k) c = (Ok (Changed true), c')) ↔
  n_state n = Decommissioned ∧
  (∀ o p, PLACEMENTS c !! o = Some p → k ∉ placement_nodes p) ∧
  (∀ o t, TOMBSTONES c !! o = Some t → k ∉ pending_nodes t).
Proof.
  intros Hrun Hcare Hv4 Hn. destruct (empty_placements every) as [He Hc].
  destruct (placements_run _ _ _ _ He Hc Hrun Hcare) as [Hinv _]. clear Hrun Hcare. rewrite <-node_rows_owed by done.
  setoid_rewrite apply_cluster_ok. cbn [apply_command_tx]. unfold forget_node. split.
  - intros [c' Hrun]. apply tx_bind_ok in Hrun as (found & c0 & Hf & Hrun). apply tx_gets_ok in Hf as [-> ->].
    rewrite Hn in Hrun. tx_step Hrun. bool_facts. split; [done|]. unfold node_replica_count, u64_max in *. lia.
  - intros [Hstate Hzero]. unfold mbind, tx_bind, tx_gets, tx_guard. rewrite Hn, Hstate, bool_decide_eq_true_2, Hzero by done. cbn. eauto.
Qed.

Definition emptied : list ClusterCommand := founded ++ [SetNodeState node_c Decommissioned None 10].
Lemma emptied_run : cluster_run empty_cluster emptied (exec emptied empty_cluster).
Proof. apply exec_run. apply (bool_decide_unpack _). vm_compute. done. Qed.

Lemma emptied_careful : along (careful every) empty_cluster emptied.
Proof. apply (bool_decide_unpack _). vm_compute. done. Qed.

Lemma forget_node_exact_witness :
  ∃ n c', NODES (exec emptied empty_cluster) !! node_c = Some n ∧
    apply_cluster (ForgetNode node_c) (exec emptied empty_cluster) = (Ok (Changed true), c').
Proof.
  eexists. assert (Hn : NODES (exec emptied empty_cluster) !! node_c = Some _) by (vm_compute; reflexivity).
  destruct (proj2 (forget_node_exact emptied (exec emptied empty_cluster) node_c _ emptied_run emptied_careful
    (v4_id_ok 3 ltac:(lia)) Hn)) as [c' Hc'].
  - split; [vm_compute; reflexivity|]. split; intros o x Hx; vm_compute in Hx; done.
  - exists c'. exact (conj Hn Hc').
Defined.

(** A placement written again while its deletion is recorded loses its index rows
    to the acknowledgements, and the node that holds it is removed. *)
Definition revived : list ClusterCommand :=
  stored ++ [DeletePlacement payload 20; PutPlacement placed; AcknowledgeTombstone payload node_a 30;
             SetNodeState node_a Draining None 40; SetNodeState node_a Decommissioned None 41].
Example forgotten_while_listed :
  let c := exec revived empty_cluster in
  cluster_run empty_cluster revived c ∧ PLACEMENTS c !! payload = Some placed ∧ node_a ∈ placement_nodes placed ∧
  (apply_cluster (ForgetNode node_a) c).1 = Ok (Changed true).
Proof.
  split; [apply exec_run; apply (bool_decide_unpack _); vm_compute; done|]. split; [vm_compute; reflexivity|].
  split; [apply (bool_decide_unpack _); vm_compute; done|vm_compute; reflexivity].
Qed.

(** A placement written over one with more replicas leaves their index rows behind. *)
Definition placed_on_a : PayloadPlacement := with_replicas [copy node_a device_a] 7 placed.
Definition shrunk : list ClusterCommand :=
  stored ++ [PutPlacement placed_on_a; SetNodeState node_b Draining None 40; SetNodeState node_b Decommissioned None 41].
Example kept_for_nothing :
  let c := exec shrunk empty_cluster in
  cluster_run empty_cluster shrunk c ∧ PLACEMENTS c = {[ payload := placed_on_a ]} ∧ TOMBSTONES c = ∅ ∧
  n_state <$> NODES c !! node_b = Some Decommissioned ∧ (apply_cluster (ForgetNode node_b) c).1 ≠ Ok (Changed true).
Proof.
  split; [apply exec_run; apply (bool_decide_unpack _); vm_compute; done|]. split_and!; vm_compute; done.
Qed.

Lemma rows_size {V} (m : gmap bytes V) : msum (λ _ _, 1) m = Z.of_nat (size m).
Proof. rewrite (msum_count (λ _, true)), <-length_map_to_list, <-(length_fmap snd). f_equal. by induction ((map_to_list m).*2) as [|?? IH]; [|cbn; rewrite IH]. Qed.

(** C18: What the cluster reports as used is what its tables hold: the payload and
    deletion counts are the numbers of rows, and the logical and physical bytes the
    sums over the placements. When tasks were put back or cancelled only while they
    were outstanding ([orderly]), the task counts are the numbers of outstanding and
    parked tasks as well; a task put back after it finished makes them wrong
    ([parked_undercounted]). The commands are well formed ([cluster_ok]) and the
    totals fit the 64-bit counters at every step ([fits]). *)
Theorem cluster_usage_exact cmds c :
  cluster_run empty_cluster cmds c →
  us_payloads (cluster_usage c) = Z.of_nat (size (PLACEMENTS c)) ∧
  us_tombstones (cluster_usage c) = Z.of_nat (size (TOMBSTONES c)) ∧
  us_logical_bytes (cluster_usage c) = msum (λ _, pl_size) (PLACEMENTS c) ∧
  us_physical_bytes (cluster_usage c) = msum (λ _, physical_bytes) (PLACEMENTS c) ∧
  (along orderly empty_cluster cmds →
    us_active_tasks (cluster_usage c) = Z.of_nat (length (outstanding c)) ∧
    us_parked_tasks (cluster_usage c) = msum (λ _ t, one_if (is_parked (t_state t))) (TASKS c)).
Proof.
  intros Hrun. destruct (reachable_counts c) as [_ [H1 H2 H3 H4]]; [by exists cmds|]. cbn. rewrite H1, H2, H3, H4.
  unfold placement_sum, tombstone_sum. rewrite !rows_size. do 4 (split; [done|]). intros Horder.
  destruct (tasks_run _ _ _ empty_tasks Hrun Horder) as [_ _ _ _ H5 H6]. by rewrite H5, H6, active_outstanding.
Qed.

Lemma stored_orderly : along orderly empty_cluster stored.
Proof. apply (bool_decide_unpack _). vm_compute. done. Qed.

Lemma cluster_usage_exact_witness :
  us_physical_bytes (cluster_usage (exec stored empty_cluster)) = 200 ∧ us_active_tasks (cluster_usage (exec stored empty_cluster)) = 2.
Proof.
  pose proof (cluster_usage_exact stored _ stored_run) as (_ & _ & _ & Hbytes & Htasks).
  rewrite Hbytes, (proj1 (Htasks stored_orderly)). clear Hbytes Htasks. vm_compute. split; reflexivity.
Defined.

(** A task that is put back after it finished takes one from the parked tasks. *)
Definition requeued_late : list ClusterCommand :=
  stored ++ [ClaimTask (v4_id 32) node_a 60 10; FailTask (v4_id 32) (Some node_a) 1 [] 1 11;
             ClaimTask (v4_id 31) node_a 60 12; CompleteTask (v4_id 31) (Some node_a) 1 13; RequeueTask (v4_id 31) None (10 ^ 12)].
Example parked_undercounted :
  let c := exec requeued_late empty_cluster in
  cluster_run empty_cluster requeued_late c ∧ us_parked_tasks (cluster_usage c) = 0 ∧
  msum (λ _ t, one_if (is_parked (t_state t))) (TASKS c) = 1.
Proof.
  split; [apply exec_run; apply (bool_decide_unpack _); vm_compute; done|]. split; vm_compute; reflexivity.
Qed.

(** The reports of a worker whose claim is over. *)
Lemma report_ignored c id node_id fence cmd :
  claim_over id node_id fence c →
  (∃ at_, cmd = CompleteTask id (Some node_id) fence at_) ∨
  (∃ reason attempts at_, cmd = FailTask id (Some node_id) fence reason attempts at_) →
  (apply_cluster cmd c).2 = c.
Proof.
  intros Hover Hcmd. unfold apply_cluster, atomically. destruct Hcmd as [(at_ & ->)|(reason & attempts & at_ & ->)];
    cbn [apply_command_tx]; unfold complete_task, fail_task, require_task, mbind, tx_bind, tx_gets, tx_some;
    (destruct (TASKS c !! id) as [t|] eqn:Ht; cbn; [|done]);
    destruct (Hover _ Ht) as [_ ->]; done.
Qed.

(** C20: A worker that lost its claim cannot report on the task. Once the claim it was
    given under some fence is over, whatever well-formed commands ([cluster_ok])
    follow, as long as no new task is filed under the same identifier and the fence
    is below its 64-bit limit, its reports of success and of failure leave the
    catalog as it is. *)
Theorem stale_worker_fenced c0 c1 c2 cmds1 cmds2 id node_id fence t :
  TASKS c0 !! id = Some t → holds_claim node_id fence t = true →
  cluster_run c0 cmds1 c1 → cluster_run c1 cmds2 c2 → Forall (not_enqueued id) (cmds1 ++ cmds2) →
  (∀ t1, TASKS c1 !! id = Some t1 → holds_claim node_id fence t1 = false) →
  ∀ at_ reason attempts,
    (apply_cluster (CompleteTask id (Some node_id) fence at_) c2).2 = c2 ∧
    (apply_cluster (FailTask id (Some node_id) fence reason attempts at_) c2).2 = c2.
Proof.
  intros Ht Hholds Hrun1 Hrun2 [Hnew1 Hnew2]%Forall_app Hlost at_ reason attempts.
  assert (Hover : claim_over id node_id fence c2).
  { eapply claim_over_run; [done|done|]. intros t1 Ht1. split; [|by apply Hlost].
    eapply fence_floor_run; [exact Hrun1|done| |done]. intros x Hx. apply holds_claim_fence in Hholds. simplify_eq. lia. }
  split; eapply report_ignored; eauto.
Qed.

Definition claimed : list ClusterCommand := [ClaimTask (v4_id 31) node_a 60 10].
Definition reclaimed : list ClusterCommand := [RequeueTask (v4_id 31) None (10 ^ 12)].
Definition claimed_again : list ClusterCommand := [ClaimTask (v4_id 31) node_b 60 (10 ^ 12 + 1)].

Lemma stale_worker_fenced_witness :
  let c0 := exec claimed (exec stored empty_cluster) in
  let c1 := exec reclaimed c0 in
  let c2 := exec claimed_again c1 in
  (apply_cluster (CompleteTask (v4_id 31) (Some node_a) 1 (10 ^ 12 + 5)) c2).2 = c2.
Proof.
  assert (Ht : TASKS (exec claimed (exec stored empty_cluster)) !! v4_id 31 = Some (task_claim node_a 60 10 repair_task))
    by (vm_compute; reflexivity).
  assert (Hclaim : holds_claim node_a 1 (task_claim node_a 60 10 repair_task) = true) by (vm_compute; reflexivity).
  assert (Hnew : Forall (not_enqueued (v4_id 31)) (reclaimed ++ claimed_again)) by (repeat constructor).
  refine (proj1 (stale_worker_fenced _ _ _ reclaimed claimed_again (v4_id 31) node_a 1 _ Ht Hclaim
    (exec_run _ _ _) (exec_run _ _ _) Hnew _ (10 ^ 12 + 5) [] 3)).
  - apply (bool_decide_unpack _). vm_compute. exact I.
  - apply (bool_decide_unpack _). vm_compute. exact I.
  - intros t1 Ht1. vm_compute in Ht1. injection Ht1 as <-. vm_compute. reflexivity.
Defined.

Lemma sorted_impl_elem {A} (R S : relation A) l :
  (∀ a b, a ∈ l → b ∈ l → R a b → S a b) → StronglySorted R l → StronglySorted S l.
Proof.
  intros Himpl Hs. induction Hs as [|a l Hs IH Hall]; [constructor|]. constructor; [apply IH; set_solver|].
  rewrite Forall_forall in Hall |- *. set_solver.
Qed.

(** The queue hands out the work in order: it lists the outstanding tasks and
    nothing else, each once, the more urgent before the less urgent and the older
    before the newer, and says when the limit left some out; tasks having been put back
    or cancelled only while they were outstanding. *)
Theorem queue_in_order cmds c limit :
  cluster_run empty_cluster cmds c → along orderly empty_cluster cmds →
  (∀ id t, TASKS c !! id = Some t → is_i64 (created_millis t)) →
  ∃ all, all ≡ₚ outstanding c ∧ StronglySorted runs_before all ∧
    queued_tasks limit c =
      (take (Z.to_nat (clamp_limit limit 10000)) all, bool_decide (Z.to_nat (clamp_limit limit 10000) < length all)%nat).
Proof.
  intros Hrun Horder Htimes. pose proof (tasks_run _ _ _ empty_tasks Hrun Horder) as Hinv. exists (listed c (table_iter (TASK_QUEUE c))).
  split; [by apply listed_outstanding|]. split.
  - eapply sorted_impl_elem; [|by apply listed_sorted]. cbn. intros a b Ha Hb Hle.
    rewrite !elem_of_listed, !elem_of_outstanding in Ha, Hb by done. apply queue_key_order; naive_solver.
  - unfold queued_tasks. rewrite queue_scan_listed by (first [by apply queue_resolves|cbn; lia]). cbn. rewrite Nat.sub_0_r. f_equal.
    apply bool_decide_ext. by rewrite listed_length by done.
Qed.

Lemma queue_in_order_witness :
  ∃ all, all ≡ₚ outstanding (exec stored empty_cluster) ∧ StronglySorted runs_before all ∧
    queued_tasks 1 (exec stored empty_cluster) = (take 1 all, bool_decide (1 < length all)%nat).
Proof.
  apply (queue_in_order stored (exec stored empty_cluster) 1 stored_run stored_orderly).
  assert (Hall : map_Forall (λ _ t, is_i64 (created_millis t)) (TASKS (exec stored empty_cluster)))
    by (apply (bool_decide_unpack _); vm_compute; exact I).
  intros id t Ht. exact (Hall id t Ht).
Defined.

(** C21: After the placement of a payload is deleted, a node that held a replica and
    has not acknowledged keeps the deletion recorded, open and waiting for it, as long
    as no placement is written for the payload while its deletion is recorded and the
    deletion is not purged before it is completed ([careful]), whatever is done to
    other payloads. The catalog checks neither: after a placement written in between,
    a second deletion forgets the holder ([holder_forgotten]). *)
Theorem deletion_waits_for_holders c c1 c2 o p n at_ cmds :
  cluster_reachable c → PLACEMENTS c !! o = Some p → n ∈ placement_nodes p →
  apply_cluster (DeletePlacement o at_) c = (Ok (Changed true), c1) → fits c1 →
  cluster_run c1 cmds c2 → along (careful (.= o)) c1 cmds → Forall (not_acknowledged o n) cmds →
  PLACEMENTS c2 !! o = None ∧
  ∃ t, TOMBSTONES c2 !! o = Some t ∧ tombstone_completed t = false ∧ n ∈ pending_nodes t.
Proof.
  intros Hreach Hp Hn Hdel Hfits Hrun Hcare Hnot.
  assert (Hstart : awaited o n c1) by (apply apply_cluster_ok in Hdel; by eapply deletion_awaits).
  assert (Hreach1 : cluster_reachable c1).
  { eapply (cluster_reachable_run c [DeletePlacement o at_]); [done|]. apply (run_snoc _ [] _ c); [constructor|].
    split; [done|]. split; [by eexists|done]. }
  destruct (awaited_run _ _ _ _ _ Hreach1 Hrun Hcare Hnot Hstart) as (Hnone & t & Ht & Hpending).
  destruct (reachable_counts _ (cluster_reachable_run _ _ _ Hreach1 Hrun)) as [Hinv _].
  split; [done|]. exists t. split_and!; [done| |done]. destruct (tombstone_completed t) eqn:Hdone; [|done].
  pose proof (tr_completed _ _ _ _ (pi_tombstone _ _ Hinv _ _ Ht) Hdone). set_solver.
Qed.

Definition deleted : ClusterCatalog := after (DeletePlacement payload 20) (exec stored empty_cluster).
Definition acknowledged_by_a : list ClusterCommand := [AcknowledgeTombstone payload node_a 30].

Lemma deletion_waits_for_holders_witness :
  ∃ t, TOMBSTONES (exec acknowledged_by_a deleted) !! payload = Some t ∧ tombstone_completed t = false ∧ node_b ∈ pending_nodes t.
Proof.
  assert (Hp : PLACEMENTS (exec stored empty_cluster) !! payload = Some placed) by (vm_compute; reflexivity).
  assert (Hn : node_b ∈ placement_nodes placed) by (apply (bool_decide_unpack _); vm_compute; exact I).
  assert (Hdel : apply_cluster (DeletePlacement payload 20) (exec stored empty_cluster) = (Ok (Changed true), deleted))
    by (vm_compute; reflexivity).
  assert (Hnot : Forall (not_acknowledged payload node_b) acknowledged_by_a) by (constructor; [right; done|constructor]).
  refine (proj2 (deletion_waits_for_holders _ _ _ _ _ _ _ _ (ex_intro _ stored stored_run) Hp Hn Hdel _ (exec_run _ _ _) _ Hnot));
    apply (bool_decide_unpack _); vm_compute; exact I.
Defined.

(** Written again on fewer nodes and deleted again, a payload no longer waits for a
    holder that never acknowledged. *)
Definition rewritten : list ClusterCommand := [PutPlacement placed_on_a; DeletePlacement payload 21; AcknowledgeTombstone payload node_a 30].
Example holder_forgotten :
  let c := exec rewritten deleted in
  cluster_run deleted rewritten c ∧ node_b ∈ placement_nodes placed ∧ Forall (not_acknowledged payload node_b) rewritten ∧
  tombstone_completed <$> TOMBSTONES c !! payload = Some true.
Proof.
  split; [apply exec_run; apply (bool_decide_unpack _); vm_compute; done|].
  split; [apply (bool_decide_unpack _); vm_compute; done|]. split; [|vm_compute; reflexivity].
  do 2 (constructor; [done|]). constructor; [right; done|constructor].
Qed.

(** ** The life of a node *)

(** One row of a node before and after a command. *)
Definition lives (before after_ : gmap bytes NodeRecord) : Prop :=
  ∀ k n', after_ !! k = Some n' →
    (∃ n, before !! k = Some n ∧ node_can_transition (n_state n) (n_state n') = true) ∨ n_state n' = Joining ∧ before !! k = None.

Lemma stays_in_state s : node_can_transition s s = true.
Proof. unfold node_can_transition. by rewrite bool_decide_eq_true_2. Qed.

Lemma lives_refl m : lives m m.
Proof. intros k n Hn. left. exists n. by rewrite stays_in_state. Qed.

Lemma lives_put m k n n' : m !! k = Some n → node_can_transition (n_state n) (n_state n') = true → lives m (<[k := n']> m).
Proof. intros Hn Hmove j x [[<- <-]|[_ Hx]]%lookup_insert_Some; [left; eauto|]. by apply lives_refl. Qed.

Lemma transition_lives next reason now n b n' :
  node_transition next reason now n = Ok (b, n') → node_can_transition (n_state n) (n_state n') = true.
Proof.
  unfold node_transition. case_bool_decide; [intros [= _ <-]; destruct reason; apply stays_in_state|].
  destruct (node_can_transition (n_state n) next) eqn:Hmove; [|done]. by intros [= _ <-].
Qed.

Lemma registered_lives r at_ c out c' : register_node r at_ c = (Ok out, c') → lives (NODES c) (NODES c').
Proof.
  intros Hrun. unfold register_node in Hrun. apply tx_bind_ok in Hrun as (found & c0 & Hf & Hrun).
  apply tx_gets_ok in Hf as [-> ->]. destruct (NODES c !! reg_node_id r) as [n|] eqn:Hn.
  - unfold put_node in Hrun. tx_step Hrun. use_frames. match goal with Hs : same_members _ _ |- _ => destruct Hs as (-> & _) end.
    rows. eapply lives_put; [done|]. destruct (_ || _); [|simplify_eq; apply stays_in_state].
    destruct (node_transition _ _ _ _) as [[b n']|e] eqn:Ht; simplify_eq/=. by apply transition_lives in Ht.
  - unfold next_member_id, set_counter, require_config, put_node in Hrun. tx_step Hrun. use_frames.
    match goal with Hs : same_members _ _ |- _ => destruct Hs as (HN & _) end. rows. rewrite HN.
    intros k x [[<- <-]|[_ Hx]]%lookup_insert_Some; [by right|by apply lives_refl].
Qed.

Lemma forgotten_lives k c out c' : forget_node k c = (Ok out, c') → lives (NODES c) (NODES c').
Proof.
  intros Hrun. unfold forget_node in Hrun. apply tx_bind_ok in Hrun as (found & c0 & Hf & Hrun).
  apply tx_gets_ok in Hf as [-> ->]. destruct (NODES c !! k) as [n|] eqn:Hn; tx_step Hrun; [|apply lives_refl]. use_frames.
  match goal with Hs : same_members _ _ |- _ => destruct Hs as (-> & _) end. rows.
  intros j x [_ Hx]%lookup_delete_Some. by apply lives_refl.
Qed.

Ltac node_lives :=
  match goal with Hs : same_members _ _ |- _ => destruct Hs as (-> & _) | _ => idtac end; rows;
  first [eapply lives_put; [eassumption|]; first [apply stays_in_state|idtac]|apply lives_refl].

Lemma lives_step c cmd out c' : apply_command_tx cmd c = (Ok out, c') → lives (NODES c) (NODES c').
Proof.
  intros Hrun. pose proof (other_commands_members cmd) as Hother.
  destruct cmd; try (apply Hother in Hrun as (-> & _); apply lives_refl); clear Hother; cbn [apply_command_tx] in Hrun.
  - unfold initialize_cluster, set_counter in Hrun. apply tx_bind_ok in Hrun as (u & c0 & Hv & Hrun). apply tx_lift_ok in Hv as [_ ->].
    apply tx_bind_ok in Hrun as (found & c0 & Hf & Hrun). apply tx_gets_ok in Hf as [-> ->].
    destruct (IDENTITY c); [case_bool_decide|]; tx_step Hrun; node_lives.
  - unfold record_recovery in Hrun. tx_step Hrun. use_frames. node_lives.
  - unfold update_config in Hrun. tx_step Hrun. use_frames. node_lives.
  - by eapply registered_lives.
  - unfold heartbeat, require_node, put_node in Hrun. tx_step Hrun. node_lives.
  - unfold update_node_descriptor, require_node, put_node in Hrun. tx_step Hrun. use_frames. node_lives.
  - unfold set_node_state, require_node, put_node in Hrun. tx_step Hrun.
    match goal with Hm : map_err _ _ = Ok ?x, Hr : (let '(_, _) := ?x in _) _ = _ |- _ =>
      destruct x as [changed n'] eqn:Hx; tx_step Hr; rename Hm into Hmove end.
    match goal with Hc : (if changed then _ else _) _ = _ |- _ => apply changed_frames in Hc end. node_lives.
    destruct (node_transition _ _ _ _) as [[b n1]|e] eqn:Ht; simplify_eq/=. apply transition_lives in Ht.
    by destruct (bool_decide _).
  - unfold register_device, require_node, put_node in Hrun. tx_step Hrun. use_frames. node_lives.
    cbn. unfold ensure_legacy_device. case_match; apply stays_in_state.
  - unfold set_device_state, require_node, put_node in Hrun. tx_step Hrun.
    match goal with Hr : (let '(_, _) := ?x in _) _ = _ |- _ => destruct x as [changed d]; tx_step Hr end.
    match goal with Hc : (if changed then _ else _) _ = _ |- _ => apply changed_frames in Hc end. node_lives.
  - unfold set_node_metadata_voter, require_node, put_node in Hrun. tx_step Hrun. node_lives.
  - by eapply forgotten_lives.
Qed.

(** Decommissioning is final. A node that was decommissioned stays so under the
    member identifier it had, whatever commands follow; only a node registered anew,
    under another identifier, can serve again. *)
Theorem decommission_is_final c cmds c' k n n' :
  cluster_reachable c → cluster_run c cmds c' → NODES c !! k = Some n → n_state n = Decommissioned →
  NODES c' !! k = Some n' → n_raft_id n' = n_raft_id n → n_state n' = Decommissioned.
Proof.
  intros Hreach Hrun Hn Hstate. pose proof (reachable_members _ Hreach) as Hinv.
  destruct (mi_node _ Hinv _ _ Hn) as (_ & Hlt & _). revert n'.
  induction Hrun as [|cmds cmd c1 c2 Hrun IH Hstep]; [intros; congruence|]. intros n' Hn' Hid.
  destruct (cluster_step_cases _ _ _ Hstep) as [->|[out Hr]]; [auto|]. destruct Hstep as [Hok _].
  destruct (members_run _ _ _ Hinv Hrun) as [Hinv1 [Hle _]]. destruct (members_step _ _ _ _ Hinv1 Hok Hr) as [_ [_ Hgrow]].
  destruct (Hgrow _ _ Hn') as [(n1 & Hn1 & Hid1)|?]; [|lia]. assert (Hs1 : n_state n1 = Decommissioned) by (apply IH; [done|congruence]).
  destruct (lives_step _ _ _ _ Hr _ _ Hn') as [(n2 & Hn2 & Hmove)|[_ ?]]; [|congruence]. simplify_eq. rewrite Hs1 in Hmove.
  by destruct (n_state n').
Qed.

Definition returns : list ClusterCommand := [SetNodeState node_c NodeHealthy None 12; RegisterNode (joins node_c) 13].
Lemma decommission_is_final_witness :
  ∃ n', NODES (exec returns (exec emptied empty_cluster)) !! node_c = Some n' ∧ n_raft_id n' = 3 ∧ n_state n' = Decommissioned.
Proof.
  assert (Hrun : cluster_run (exec emptied empty_cluster) returns (exec returns (exec emptied empty_cluster)))
    by (apply exec_run, (bool_decide_unpack _); vm_compute; exact I).
  eassert (Hn : NODES (exec emptied empty_cluster) !! node_c = Some _) by (vm_compute; reflexivity).
  eexists. split; [vm_compute; reflexivity|]. split; [reflexivity|].
  apply (decommission_is_final (exec emptied empty_cluster) returns (exec returns (exec emptied empty_cluster)) node_c _ _
    (ex_intro _ emptied emptied_run) Hrun Hn); vm_compute; reflexivity.
Defined.

(** ** Join tokens *)

(** Whether a command admitted a node with the token. *)
Definition admits (id : bytes) (cmd : ClusterCommand) (ok : bool) : option Z :=
  match cmd with ConsumeJoinToken id' at_ => if ok && bool_decide (id' = id) then Some at_ else None | _ => None end.

Definition succeeded {E A} (r : result E A) : bool := match r with Ok _ => true | Err _ => false end.

(** The times at which the token was consumed by a list of commands. *)
Fixpoint admissions (id : bytes) (cmds : list ClusterCommand) (c : ClusterCatalog) : list Z :=
  match cmds with
  | [] => []
  | cmd :: cmds =>
      let '(r, c') := apply_cluster cmd c in
      option_list (admits id cmd (succeeded r)) ++ admissions id cmds c'
  end.

Definition not_reissued (id : bytes) (cmd : ClusterCommand) : Prop :=
  match cmd with IssueJoinToken t => jt_id t ≠ id | _ => True end.

Definition same_tokens (c c' : ClusterCatalog) : Prop := JOIN_TOKENS c' = JOIN_TOKENS c.
#[export] Instance same_tokens_preorder : PreOrder same_tokens.
Proof. split; [done|]. unfold same_tokens. intros ? ? ?. congruence. Qed.

Lemma other_commands_tokens cmd :
  match cmd with
  | IssueJoinToken _ | ConsumeJoinToken _ _ | RevokeJoinToken _ _ | PurgeJoinToken _ => True
  | _ => keeps same_tokens (apply_command_tx cmd)
  end.
Proof.
  destruct cmd; try done; cbn [apply_command_tx];
    unfold initialize_cluster, record_recovery, update_config, register_node, heartbeat, update_node_descriptor,
      set_node_state, register_device, set_device_state, set_node_metadata_voter, forget_node, put_storage_policy,
      delete_storage_policy, put_placement, upsert_replica_tx, set_replica_state,
      remove_replica_tx, remove_replica_from_device, set_desired_replicas, rewrite_placement, require_placement,
      delete_placement, acknowledge_tombstone, purge_tombstone, enqueue_task, add_task,
      claim_task, complete_task, fail_task, requeue_task, cancel_task, purge_task, update_operation,
      set_node_credential_disabled, require_task, put_task,
      insert_task_queue_entry, remove_task_queue_entry, remove_task_object_entry, remove_device_replica,
      remove_node_replica, write_placement, put_node_replica, next_member_id,
      advance_cluster_map_epoch, recount_durability, require_config, require_node, put_node, adjust_counter, set_counter;
    keeps_steps; by apply keeps_modify.
Qed.

(** The nodes a token can still admit. *)
Definition token_left (t : JoinToken) : Z := if jt_revoked t then 0 else Z.max (jt_maximum_uses t - jt_uses t) 0.
Definition left_of (o : option JoinToken) : Z := from_option token_left 0 o.

Definition token_bounds (e : Z) (t : JoinToken) : Prop :=
  jt_expires_at t = e ∧ 0 ≤ jt_uses t ∧ jt_maximum_uses t ≤ u32_max.

Lemma admissions_cons id cmd cmds c r c' :
  apply_cluster cmd c = (r, c') →
  admissions id (cmd :: cmds) c = option_list (admits id cmd (succeeded r)) ++ admissions id cmds c'.
Proof. intros Hr. cbn [admissions]. by rewrite Hr. Qed.

Lemma token_step id e cmd c r c' :
  not_reissued id cmd → apply_cluster cmd c = (r, c') →
  (∀ t, JOIN_TOKENS c !! id = Some t → token_bounds e t) →
  (∀ t, JOIN_TOKENS c' !! id = Some t → token_bounds e t) ∧
  left_of (JOIN_TOKENS c' !! id) + Z.of_nat (length (option_list (admits id cmd (succeeded r)))) ≤ left_of (JOIN_TOKENS c !! id) ∧
  Forall (λ at_, at_ < e) (option_list (admits id cmd (succeeded r))).
Proof.
  intros Hnew Hr Hb. unfold apply_cluster, atomically in Hr. destruct (apply_command_tx cmd c) as [[out|err] c1] eqn:Hrun; simplify_eq.
  2: { destruct cmd; cbn; try (split_and!; [done|lia|constructor]). }
  pose proof (other_commands_tokens cmd) as Hother.
  destruct cmd as [| | | | | | | | | | | | | | | | | | | | | | | | | | | | | | | |token|i at_|i at_|i| |];
    try (apply Hother in Hrun; rewrite Hrun; cbn; split_and!; [done|lia|constructor]); clear Hother; cbn [apply_command_tx] in Hrun.
  - tx_step Hrun. cbn in Hnew |- *. rewrite lookup_insert_ne by done. split_and!; [done|lia|constructor].
  - unfold consume_join_token in Hrun. tx_step Hrun. cbn. match goal with E : _ !! i = Some ?x |- _ => rename E into Hi, x into t end.
    case_bool_decide as Hid; [subst i|rewrite lookup_insert_ne by done; cbn; split_and!; [done|lia|constructor]].
    destruct (Hb _ Hi) as (He & Hu & Hm). unfold spent in *. bool_facts. rewrite lookup_insert_eq, Hi. cbn. split_and!.
    + intros x [= <-]. unfold token_bounds, join_token_consume, join_token_with, u32_saturating_add, u32_max in *. cbn. lia.
    + unfold token_left, join_token_consume, join_token_with, u32_saturating_add in *. cbn.
      destruct (jt_revoked t); [done|]. lia.
    + constructor; [lia|constructor].
  - unfold revoke_join_token in Hrun. tx_step Hrun. cbn. match goal with E : _ !! i = Some ?x |- _ => rename E into Hi, x into t end.
    destruct (decide (i = id)) as [->|]; [|rewrite lookup_insert_ne by done; split_and!; [done|lia|constructor]].
    rewrite lookup_insert_eq, Hi. split_and!; [|cbn; unfold token_left; cbn; case_match; lia|constructor].
    intros x [= <-]. by apply Hb in Hi.
  - unfold purge_join_token in Hrun. tx_step Hrun. cbn. split_and!; [|rewrite lookup_delete|constructor].
    + intros t [_ Ht]%lookup_delete_Some. by apply Hb.
    + case_decide; cbn; [|lia]. destruct (JOIN_TOKENS c !! id) as [t|]; cbn; [|lia]. unfold token_left. case_match; lia.
Qed.

Lemma admissions_bounded id e cmds c :
  Forall (not_reissued id) cmds → (∀ t, JOIN_TOKENS c !! id = Some t → token_bounds e t) →
  Z.of_nat (length (admissions id cmds c)) ≤ left_of (JOIN_TOKENS c !! id) ∧ Forall (λ at_, at_ < e) (admissions id cmds c).
Proof.
  intros Hnew. revert c. induction Hnew as [|cmd cmds Hcmd _ IH]; intros c Hb.
  - cbn. split; [|done]. destruct (JOIN_TOKENS c !! id) as [t|]; cbn; [|lia]. unfold token_left. destruct (jt_revoked t); lia.
  - destruct (apply_cluster cmd c) as [r c'] eqn:Hr. destruct (token_step _ _ _ _ _ _ Hcmd Hr Hb) as (Hb' & Hleft & Htimes).
    destruct (IH c' Hb') as [Hlen Hall]. rewrite (admissions_cons _ _ _ _ _ _ Hr), length_app, Forall_app. split; [lia|done].
Qed.

(** A join token admits no more nodes than it says. From any point of its life,
    the commands that consume it successfully are at most its remaining uses, none
    after it was revoked, and all before it expires. *)
Theorem join_token_bounded id t c cmds :
  JOIN_TOKENS c !! id = Some t → 0 ≤ jt_uses t → jt_maximum_uses t ≤ u32_max → Forall (not_reissued id) cmds →
  Z.of_nat (length (admissions id cmds c)) ≤ token_left t ∧ Forall (λ at_, at_ < jt_expires_at t) (admissions id cmds c).
Proof.
  intros Ht Huses Hmax Hnew. destruct (admissions_bounded id (jt_expires_at t) cmds c Hnew) as [Hlen Hall].
  - intros x Hx. by simplify_eq.
  - by rewrite Ht in Hlen.
Qed.

Definition token : JoinToken :=
  {| jt_id := v4_id 51; jt_token_digest := repeat 9 32; jt_created_at := 0; jt_expires_at := 1000; jt_maximum_uses := 2;
     jt_uses := 0; jt_revoked := false; jt_description := [] |}.
Definition tokens : ClusterCatalog := after (IssueJoinToken token) empty_cluster.
Definition uses : list ClusterCommand :=
  [ConsumeJoinToken (v4_id 51) 1; ConsumeJoinToken (v4_id 51) 2; ConsumeJoinToken (v4_id 51) 3].

Lemma join_token_bounded_witness :
  admissions (v4_id 51) uses tokens = [1; 2] ∧ Z.of_nat (length (admissions (v4_id 51) uses tokens)) ≤ token_left token.
Proof.
  split; [vm_compute; reflexivity|].
  refine (proj1 (join_token_bounded (v4_id 51) token tokens uses _ _ _ _)); [vm_compute; reflexivity|done|done|].
  repeat constructor.
Defined.

(** ** Where the catalog falls short *)

(** Requeueing is not fenced: a task that was completed before the request to put it
    back arrived runs again, and its payload, no longer indexed, gets a second task
    of the same kind. *)
Theorem requeue_revives_completed :
  let id := v4_id 31 in
  let c := exec [ClaimTask id node_a 60 10; CompleteTask id (Some node_a) 1 20; RequeueTask id None 30;
                 EnqueueTask (task_queued (v4_id 33) payload Repair HighPriority 100 40)] (exec stored empty_cluster) in
  length (List.filter (λ t, bool_decide (t_object_id t = payload) && bool_decide (t_kind t = Repair)) (outstanding c)) = 2%nat.
Proof. vm_compute. reflexivity. Qed.

(** Cancelling a parked task leaves it counted as parked. *)
Theorem cancelled_task_counted_parked :
  let id := v4_id 31 in
  let c := exec [ClaimTask id node_a 60 10; FailTask id (Some node_a) 1 [] 1 20; CancelTask id [] 30] (exec stored empty_cluster) in
  us_parked_tasks (cluster_usage c) = 1 ∧ parked_sum c = 0.
Proof. vm_compute. done. Qed.

(** The deletion tasks of one payload collapse into the one of the first node. *)
Definition delete_on (id node_id : bytes) : ReplicaTask :=
  {| t_id := id; t_object_id := payload; t_kind := Delete; t_priority := NormalPriority; t_source_node := Some node_id;
     t_source_device := None; t_target_node := None; t_target_device := None; t_operation_id := None; t_size := 0;
     t_fence := 0; t_state := Queued; t_attempts := 0; t_last_error := None; t_created_at := 21; t_updated_at := 21 |}.
Theorem delete_tasks_collapse :
  let c := exec [EnqueueTask (delete_on (v4_id 34) node_a); EnqueueTask (delete_on (v4_id 35) node_b)] deleted in
  t_source_node <$> List.filter (λ t, is_deletion (t_kind t)) (outstanding c) = [Some node_a].
Proof. vm_compute. reflexivity. Qed.

End ClusterTheorems.
