(* ===== verification/Placement.v ===== *)
(** * Replica placement

    The placement decision ([placement.rs]): which devices of the cluster receive
    the replicas of a payload, and the explanation of that decision. The score of a
    device is a floating-point number that the decision only compares; it enters as
    its position in the total order of [f64]. *)

From S2P Require Import Prelude Bytes Tables Digest ObjectLock CoreTypes Keys Topology.
Import CoreTypes Topology.

Module Placement.

(** [-unit.ln() / weight] for the unit interval sample [(sample + 1) / 2^64], as its
    place among the floating-point numbers under [f64::total_cmp]. *)
Class RaceScore := { race_score : Z → Z → Z }.

Record ObjectPlacementRequest := {
  rq_object_id : bytes; rq_size_hint : option Z; rq_desired_replicas : Z; rq_required_acknowledgements : Z;
  rq_storage_class : bytes; rq_preferred_node : option bytes; rq_existing_nodes : gset bytes;
  rq_excluded_nodes : gset bytes; rq_existing_targets : gset (bytes * bytes); rq_excluded_devices : gset bytes;
  rq_policy : option StoragePolicy }.

Definition request_new (object_id : bytes) (desired acknowledgements : Z) (class : bytes) : ObjectPlacementRequest :=
  {| rq_object_id := object_id; rq_size_hint := None; rq_desired_replicas := desired;
     rq_required_acknowledgements := acknowledgements; rq_storage_class := class; rq_preferred_node := None;
     rq_existing_nodes := ∅; rq_excluded_nodes := ∅; rq_existing_targets := ∅; rq_excluded_devices := ∅;
     rq_policy := None |}.

Definition with_policy (policy : option StoragePolicy) (r : ObjectPlacementRequest) : ObjectPlacementRequest :=
  {| rq_object_id := rq_object_id r; rq_size_hint := rq_size_hint r; rq_desired_replicas := rq_desired_replicas r;
     rq_required_acknowledgements := rq_required_acknowledgements r;
     rq_storage_class := from_option sp_class (rq_storage_class r) policy; rq_preferred_node := rq_preferred_node r;
     rq_existing_nodes := rq_existing_nodes r; rq_excluded_nodes := rq_excluded_nodes r;
     rq_existing_targets := rq_existing_targets r; rq_excluded_devices := rq_excluded_devices r; rq_policy := policy |}.

Record PlacementTarget := {
  pt_node_id : bytes; pt_device_id : bytes; pt_rpc_address : bytes; pt_domain : bytes; pt_local : bool }.
Record PlacementPlan := {
  pp_epoch : Z; pp_targets : list PlacementTarget; pp_required_acknowledgements : Z; pp_desired_replicas : Z;
  pp_failure_domains_reused : bool }.

Definition fully_replicated (p : PlacementPlan) : bool := pp_desired_replicas p <=? Z.of_nat (length (pp_targets p)).

Inductive PlacementError :=
  | InvalidRequest (reason : string)
  | NoEligibleDevices (storage_class : bytes) (healthy class_matches with_capacity : nat)
  | InsufficientDurability (required : Z) (eligible : nat)
  | InsufficientFailureDomains (scope : bytes) (required : Z) (available : nat).

Record Candidate := {
  cd_node_id : bytes; cd_device_id : bytes; cd_rpc_address : bytes; cd_domain : bytes; cd_score : Z;
  cd_effective_weight : Z; cd_kind : DeviceKind }.

Definition into_target (local_node : option bytes) (c : Candidate) : PlacementTarget :=
  {| pt_local := bool_decide (local_node = Some (cd_node_id c)); pt_node_id := cd_node_id c;
     pt_device_id := cd_device_id c; pt_rpc_address := cd_rpc_address c; pt_domain := cd_domain c |}.

(** The comparison of two candidates: score, then node, then device. *)
Definition key_le (a b : Z * (bytes * bytes)) : Prop :=
  a.1 < b.1 ∨ (a.1 = b.1 ∧ (bytes_lt a.2.1 b.2.1 ∨ (a.2.1 = b.2.1 ∧ bytes_le a.2.2 b.2.2))).
#[export] Instance key_le_dec : RelDecision key_le.
Proof. intros a b. unfold key_le. apply _. Defined.
Definition candidate_key (c : Candidate) : Z * (bytes * bytes) := (cd_score c, (cd_node_id c, cd_device_id c)).
Definition candidate_le (a b : Candidate) : Prop := key_le (candidate_key a) (candidate_key b).
#[export] Instance candidate_le_dec : RelDecision candidate_le.
Proof. intros a b. unfold candidate_le. apply _. Defined.

Definition eligible_class (r : ObjectPlacementRequest) (d : DeviceRecord) : bool :=
  match rq_policy r with
  | Some policy => accepts_device policy d
  | None => bool_decide (d_storage_class d = rq_storage_class r)
  end.

Definition request_scope (r : ObjectPlacementRequest) (t : ClusterTopology) : FailureDomainScope :=
  from_option sp_failure_domain (failure_domain_scope (tp_config t)) (rq_policy r).
Definition request_strict (r : ObjectPlacementRequest) (t : ClusterTopology) : bool :=
  from_option sp_strict_failure_domains (strict_failure_domains (tp_config t)) (rq_policy r).
Definition reservation (r : ObjectPlacementRequest) (t : ClusterTopology) : Z :=
  default (unknown_upload_size_reservation_bytes (tp_config t)) (rq_size_hint r).
(** The bytes held back on a device: the cluster margin and the reserve of the policy. *)
Definition reserve (r : ObjectPlacementRequest) (t : ClusterTopology) (d : DeviceRecord) : Z :=
  u64_saturating_add (capacity_safety_margin_bytes (tp_config t))
    (from_option (λ p, policy_reserved_bytes p (usable_bytes (d_capacity d))) 0 (rq_policy r)).
Definition device_level (t : ClusterTopology) (d : DeviceRecord) : CapacityLevel :=
  watermark_level (watermarks (tp_config t)) (device_utilization_permille (d_capacity d) / 10).

(** The three filters a device of an accepting node passes. *)
Definition class_match (r : ObjectPlacementRequest) (d : DeviceRecord) : bool :=
  eligible_class r d && accepts_new_placements (d_state d).
Definition has_capacity (r : ObjectPlacementRequest) (t : ClusterTopology) (d : DeviceRecord) : bool :=
  negb (bool_decide (device_level t d = LevelCritical)) && level_accepts (device_level t d) &&
  device_eligible (reservation r t) (reserve r t d) d.
Definition barred (r : ObjectPlacementRequest) (n : NodeRecord) (d : DeviceRecord) : bool :=
  bool_decide (n_node_id n ∈ rq_excluded_nodes r) || bool_decide (n_node_id n ∈ rq_existing_nodes r) ||
  bool_decide (d_id d ∈ rq_excluded_devices r) || bool_decide ((n_node_id n, d_id d) ∈ rq_existing_targets r).

Section Placement.
Context `{UuidCrate} `{HashFunction} `{RaceScore}.

Definition placement_domain (n : NodeRecord) (device_id : bytes) (scope : FailureDomainScope) : bytes :=
  if bool_decide (scope = DomainDevice) then bytes_of_string "device:" ++ uuid_to_string device_id
  else domain_key n scope.

Definition candidate (n : NodeRecord) (d : DeviceRecord) (r : ObjectPlacementRequest) (scope : FailureDomainScope)
    : Candidate :=
  let hash := digest (rq_object_id r ++ rq_storage_class r ++ n_node_id n ++ d_id d) in
  let sample := be_value (take 8 hash) in
  let weight := Z.max (effective_weight d) 1 in
  {| cd_node_id := n_node_id n; cd_device_id := d_id d; cd_rpc_address := n_rpc_address n;
     cd_domain := placement_domain n (d_id d) scope; cd_score := race_score sample weight;
     cd_effective_weight := weight; cd_kind := d_kind d |}.

(** The walk over the nodes and their devices, with what it counts. *)
Record Walk := { w_healthy : nat; w_class_matches : nat; w_with_capacity : nat; w_candidates : list Candidate }.

Definition walk_device (r : ObjectPlacementRequest) (t : ClusterTopology) (n : NodeRecord) (w : Walk) (d : DeviceRecord) : Walk :=
  if negb (class_match r d) then w
  else if negb (has_capacity r t d) then
    {| w_healthy := w_healthy w; w_class_matches := S (w_class_matches w); w_with_capacity := w_with_capacity w;
       w_candidates := w_candidates w |}
  else
    {| w_healthy := w_healthy w; w_class_matches := S (w_class_matches w); w_with_capacity := S (w_with_capacity w);
       w_candidates := if barred r n d then w_candidates w
                       else w_candidates w ++ [candidate n d r (request_scope r t)] |}.
Definition walk_node (r : ObjectPlacementRequest) (t : ClusterTopology) (w : Walk) (n : NodeRecord) : Walk :=
  if negb (accepts_new_replicas (n_state n)) then w
  else foldl (walk_device r t n)
         {| w_healthy := S (w_healthy w); w_class_matches := w_class_matches w;
            w_with_capacity := w_with_capacity w; w_candidates := w_candidates w |} (n_devices n).
Definition survey (r : ObjectPlacementRequest) (t : ClusterTopology) : Walk :=
  foldl (walk_node r t) {| w_healthy := 0; w_class_matches := 0; w_with_capacity := 0; w_candidates := [] |} (tp_nodes t).

(** The failure domains the existing replicas take. *)
Definition occupy (domain : bytes) (occupied : gmap bytes Z) : gmap bytes Z :=
  <[domain := default 0 (occupied !! domain) + 1]> occupied.
Definition occupied_by (r : ObjectPlacementRequest) (t : ClusterTopology) : gmap bytes Z :=
  let scope := request_scope r t in
  let by_targets := foldl (λ m (e : bytes * bytes),
    match topology_node t e.1 with Some n => occupy (placement_domain n e.2 scope) m | None => m end)
    ∅ (elements (rq_existing_targets r)) in
  foldl (λ m node_id, match topology_node t node_id with Some n => occupy (domain_key n scope) m | None => m end)
    by_targets (elements (rq_existing_nodes r)).

(** The first pass keeps one replica per failure domain. *)
Fixpoint first_pass (local : option bytes) (wanted : nat) (candidates : list Candidate) (occupied : gmap bytes Z)
    (targets : list PlacementTarget) : gmap bytes Z * list PlacementTarget :=
  match candidates with
  | [] => (occupied, targets)
  | c :: rest =>
      if bool_decide (wanted <= length targets)%nat then (occupied, targets)
      else if bool_decide (is_Some (occupied !! cd_domain c)) then first_pass local wanted rest occupied targets
      else first_pass local wanted rest (<[cd_domain c := 1]> occupied) (targets ++ [into_target local c])
  end.

(** The second pass reuses domains. *)
Fixpoint second_pass (local : option bytes) (wanted : nat) (selected : gset bytes) (candidates : list Candidate)
    (reused : bool) (targets : list PlacementTarget) : bool * list PlacementTarget :=
  match candidates with
  | [] => (reused, targets)
  | c :: rest =>
      if bool_decide (wanted <= length targets)%nat then (reused, targets)
      else if bool_decide (cd_device_id c ∈ selected) then second_pass local wanted selected rest reused targets
      else second_pass local wanted selected rest true (targets ++ [into_target local c])
  end.

(** [targets[..=position].rotate_right(1)] for the first target on the local node. *)
Fixpoint position {A} (p : A → bool) (l : list A) : option nat :=
  match l with [] => None | x :: l => if p x then Some 0%nat else S <$> position p l end.
Definition local_first (local : option bytes) (targets : list PlacementTarget) : list PlacementTarget :=
  match local with
  | Some node_id =>
      match position (λ t, bool_decide (pt_node_id t = node_id)) targets with
      | Some i => option_list (targets !! i) ++ take i targets ++ drop (S i) targets
      | None => targets
      end
  | None => targets
  end.

Definition existing_count (r : ObjectPlacementRequest) : nat := Nat.max (size (rq_existing_targets r)) (size (rq_existing_nodes r)).
Definition wanted_replicas (r : ObjectPlacementRequest) : nat := (Z.to_nat (rq_desired_replicas r) - existing_count r)%nat.

Definition place (local : option bytes) (r : ObjectPlacementRequest) (t : ClusterTopology)
    : result PlacementError PlacementPlan :=
  if rq_desired_replicas r =? 0 then Err (InvalidRequest "desired replica count must be at least one")
  else if (rq_required_acknowledgements r =? 0) || (rq_desired_replicas r <? rq_required_acknowledgements r)
  then Err (InvalidRequest "required acknowledgements must be between one and the desired replica count")
  else
    let w := survey r t in
    if bool_decide (w_candidates w = [])
    then Err (NoEligibleDevices (rq_storage_class r) (w_healthy w) (w_class_matches w) (w_with_capacity w))
    else
      let candidates := merge_sort candidate_le (w_candidates w) in
      let wanted := wanted_replicas r in
      let '(occupied, targets) := first_pass local wanted candidates (occupied_by r t) [] in
      let distinct := size (list_to_set (C := gset bytes) (cd_domain <$> candidates)) in
      let short := bool_decide (length targets < wanted)%nat in
      if short && request_strict r t
      then Err (InsufficientFailureDomains (scope_display (request_scope r t)) (rq_desired_replicas r)
                  (distinct + size occupied)%nat)
      else
        let '(reused, targets) :=
          if short then second_pass local wanted (list_to_set (pt_device_id <$> targets)) candidates false targets
          else (false, targets) in
        let targets := local_first local targets in
        let total := (length targets + existing_count r)%nat in
        if Z.of_nat total <? rq_required_acknowledgements r
        then Err (InsufficientDurability (rq_required_acknowledgements r) total)
        else Ok {| pp_epoch := tp_epoch t; pp_targets := targets;
                   pp_required_acknowledgements := rq_required_acknowledgements r;
                   pp_desired_replicas := rq_desired_replicas r; pp_failure_domains_reused := reused |}.

(** ** Explaining a decision *)

Inductive PlacementRejection :=
  | NodeNotAcceptingReplicas | DeviceNotActive | DeviceUnhealthy | WrongStorageClass | DeviceKindFiltered
  | AboveCapacityWatermark | InsufficientFreeSpace | NodeExcluded | DeviceExcluded | AlreadyHoldsReplica.

Record PlacementExclusion := {
  ex_node_id : bytes; ex_device_id : bytes; ex_kind : DeviceKind; ex_reason : PlacementRejection }.
Record PlacementCandidateExplanation := {
  ce_node_id : bytes; ce_device_id : bytes; ce_kind : DeviceKind; ce_domain : bytes; ce_effective_weight : Z;
  ce_score : Z; ce_selected : bool }.
Record PlacementExplanation := {
  pe_epoch : Z; pe_storage_class : bytes; pe_failure_domain : FailureDomainScope; pe_decision : PlacementPlan;
  pe_candidates : list PlacementCandidateExplanation; pe_excluded : list PlacementExclusion }.

(** The first rule that rules the device out. *)
Definition rejection (r : ObjectPlacementRequest) (t : ClusterTopology) (n : NodeRecord) (d : DeviceRecord)
    : option PlacementRejection :=
  if negb (accepts_new_replicas (n_state n)) then Some NodeNotAcceptingReplicas
  else if negb (bool_decide (d_storage_class d = rq_storage_class r)) then Some WrongStorageClass
  else if negb (eligible_class r d) then Some DeviceKindFiltered
  else if negb (accepts_new_placements (d_state d)) then Some DeviceNotActive
  else if negb (permits_placement (d_health d)) then Some DeviceUnhealthy
  else if bool_decide (device_level t d = LevelCritical) || negb (level_accepts (device_level t d))
  then Some AboveCapacityWatermark
  else if negb (device_eligible (reservation r t) (reserve r t d) d) then Some InsufficientFreeSpace
  else if bool_decide (n_node_id n ∈ rq_excluded_nodes r) then Some NodeExcluded
  else if bool_decide (d_id d ∈ rq_excluded_devices r) then Some DeviceExcluded
  else if bool_decide (n_node_id n ∈ rq_existing_nodes r) || bool_decide ((n_node_id n, d_id d) ∈ rq_existing_targets r)
  then Some AlreadyHoldsReplica
  else None.

Definition explained (selected : gset bytes) (c : Candidate) : PlacementCandidateExplanation :=
  {| ce_node_id := cd_node_id c; ce_device_id := cd_device_id c; ce_kind := cd_kind c; ce_domain := cd_domain c;
     ce_effective_weight := cd_effective_weight c; ce_score := cd_score c;
     ce_selected := bool_decide (cd_device_id c ∈ selected) |}.
Definition exclusion (n : NodeRecord) (d : DeviceRecord) (reason : PlacementRejection) : PlacementExclusion :=
  {| ex_node_id := n_node_id n; ex_device_id := d_id d; ex_kind := d_kind d; ex_reason := reason |}.

Definition explanation_key (c : PlacementCandidateExplanation) : Z * (bytes * bytes) :=
  (ce_score c, (ce_node_id c, ce_device_id c)).
Definition explanation_le (a b : PlacementCandidateExplanation) : Prop := key_le (explanation_key a) (explanation_key b).
#[export] Instance explanation_le_dec : RelDecision explanation_le.
Proof. intros a b. unfold explanation_le. apply _. Defined.
Definition exclusion_le (a b : PlacementExclusion) : Prop :=
  bytes_lt (ex_node_id a) (ex_node_id b) ∨ (ex_node_id a = ex_node_id b ∧ bytes_le (ex_device_id a) (ex_device_id b)).
#[export] Instance exclusion_le_dec : RelDecision exclusion_le.
Proof. intros a b. unfold exclusion_le. apply _. Defined.

(** All devices with their nodes, in the order of the two loops. *)
Definition all_devices (t : ClusterTopology) : list (NodeRecord * DeviceRecord) :=
  n ← tp_nodes t; pair n <$> n_devices n.

Definition explain (local : option bytes) (r : ObjectPlacementRequest) (t : ClusterTopology)
    : result PlacementError PlacementExplanation :=
  decision ← place local r t;
  let scope := request_scope r t in
  let selected := list_to_set (C := gset bytes) (pt_device_id <$> pp_targets decision) in
  let '(candidates, excluded) :=
    foldl (λ '(candidates, excluded) '(n, d),
      match rejection r t n d with
      | Some reason => (candidates, excluded ++ [exclusion n d reason])
      | None => (candidates ++ [explained selected (candidate n d r scope)], excluded)
      end) ([], []) (all_devices t) in
  Ok {| pe_epoch := tp_epoch t; pe_storage_class := rq_storage_class r; pe_failure_domain := scope;
        pe_decision := decision; pe_candidates := merge_sort explanation_le candidates;
        pe_excluded := merge_sort exclusion_le excluded |}.

End Placement.
End Placement.
