(* ===== verification/PlacementTheorems.v ===== *)
(** * What placement decides

    The decision as a choice from the ranked list of eligible devices, and what
    follows: targets are eligible, distinct and spread over failure domains, the
    decision fails exactly when it must, it does not depend on the node that makes
    it, a new device takes data over but moves none between the others, and the
    explanation lists the same candidates. *)

From S2P Require Import Prelude Bytes Tables Digest ObjectLock CoreTypes Keys Topology Placement.
Import CoreTypes Topology Placement.

Module PlacementTheorems.

(** ** Choosing from a ranked list *)

(** The first candidates of [k] fresh domains. *)
Fixpoint spread (k : nat) (l : list Candidate) (seen : gset bytes) : list Candidate :=
  match k, l with
  | S k', c :: l =>
      if bool_decide (cd_domain c ∈ seen) then spread k l seen else c :: spread k' l ({[cd_domain c]} ∪ seen)
  | _, _ => []
  end.

Definition ids (l : list Candidate) : gset bytes := list_to_set (cd_device_id <$> l).
Definition domains (l : list Candidate) : gset bytes := list_to_set (cd_domain <$> l).
Definition others (sel : gset bytes) (l : list Candidate) : list Candidate := filter (λ c, cd_device_id c ∉ sel) l.

Definition chosen (k : nat) (l : list Candidate) (seen : gset bytes) : list Candidate :=
  let fresh := spread k l seen in fresh ++ take (k - length fresh) (others (ids fresh) l).

Lemma spread_0 l seen : spread 0 l seen = [].
Proof. by destruct l. Qed.

Lemma first_pass_spread local wanted l occupied ts :
  let fresh := spread (wanted - length ts) l (dom occupied) in
  let '(occupied', ts') := first_pass local wanted l occupied ts in
  ts' = ts ++ (into_target local <$> fresh) ∧ dom occupied' = dom occupied ∪ domains fresh.
Proof.
  revert occupied ts. induction l as [|c l IH]; intros occupied ts; cbn [first_pass].
  - unfold domains. destruct (wanted - length ts)%nat; cbn; (split; [by rewrite app_nil_r|set_solver]).
  - case_bool_decide as Hfull.
    { replace (wanted - length ts)%nat with 0%nat by lia. unfold domains. cbn. split; [by rewrite app_nil_r|set_solver]. }
    destruct (wanted - length ts)%nat as [|k] eqn:Hk; [lia|]. cbn [spread].
    rewrite (bool_decide_ext _ _ (elem_of_dom occupied (cd_domain c))).
    case_bool_decide as Hseen.
    + specialize (IH occupied ts). rewrite Hk in IH. exact IH.
    + specialize (IH (<[cd_domain c := 1]> occupied) (ts ++ [into_target local c])). rewrite length_app in IH. cbn [length] in IH.
      replace (wanted - (length ts + 1))%nat with k in IH by lia. rewrite dom_insert_L in IH.
      destruct (first_pass _ _ _ _ _) as [occupied' ts']. destruct IH as [-> ->]. rewrite <-app_assoc. split; [done|].
      unfold domains. cbn. set_solver.
Qed.

Lemma second_pass_fill local wanted sel l reused ts :
  second_pass local wanted sel l reused ts =
  (reused || bool_decide (take (wanted - length ts) (others sel l) ≠ []),
   ts ++ (into_target local <$> take (wanted - length ts) (others sel l))).
Proof.
  revert reused ts. induction l as [|c l IH]; intros reused ts; cbn [second_pass].
  - unfold others. cbn. rewrite take_nil. cbn. rewrite app_nil_r. by destruct reused.
  - case_bool_decide as Hfull.
    { replace (wanted - length ts)%nat with 0%nat by lia. cbn. rewrite app_nil_r. by destruct reused. }
    unfold others. rewrite filter_cons. case_bool_decide as Hsel.
    + rewrite decide_False by (intros H; by apply H). apply IH.
    + rewrite decide_True by done. rewrite IH. rewrite length_app. cbn [length].
      destruct (wanted - length ts)%nat as [|k] eqn:Hk; [lia|]. replace (wanted - (length ts + 1))%nat with k by lia.
      cbn [take fmap list_fmap]. rewrite <-app_assoc. fold (others sel l). cbn. f_equal. by destruct reused.
Qed.

Lemma spread_sublist k l seen : spread k l seen `sublist_of` l.
Proof.
  revert k seen. induction l as [|c l IH]; intros [|k] seen; cbn [spread]; [done|done|apply sublist_nil_l|].
  case_bool_decide; [by apply sublist_cons|by apply sublist_skip].
Qed.

Lemma spread_fresh k l seen c : c ∈ spread k l seen → cd_domain c ∉ seen.
Proof.
  revert k seen. induction l as [|x l IH]; intros [|k] seen; cbn [spread]; try set_solver.
  case_bool_decide; [apply IH|]. intros [->|Hc]%elem_of_cons; [done|]. apply IH in Hc. set_solver.
Qed.

Lemma spread_domains k l seen : NoDup (cd_domain <$> spread k l seen).
Proof.
  revert k seen. induction l as [|x l IH]; intros [|k] seen; cbn [spread]; try constructor.
  case_bool_decide; [apply IH|]. cbn. constructor; [|apply IH].
  intros (c & Heq & Hc%spread_fresh)%list_elem_of_fmap. set_solver.
Qed.

Lemma spread_length k l seen : length (spread k l seen) = Nat.min k (size (domains l ∖ seen)).
Proof.
  revert k seen. induction l as [|x l IH]; intros k seen.
  - unfold domains. cbn. replace (∅ ∖ seen) with (∅ : gset bytes) by set_solver. rewrite size_empty. destruct k; cbn; lia.
  - destruct k as [|k]; [done|]. cbn [spread]. unfold domains. cbn [fmap list_fmap list_to_set]. fold (domains l).
    case_bool_decide as Hseen.
    + rewrite IH. f_equal. f_equal. set_solver.
    + cbn [length]. rewrite IH. replace (({[cd_domain x]} ∪ domains l) ∖ seen)
        with ({[cd_domain x]} ∪ domains l ∖ ({[cd_domain x]} ∪ seen)).
      * pose proof (size_union (C := gset bytes) {[cd_domain x]} (domains l ∖ ({[cd_domain x]} ∪ seen))) as HU.
        rewrite HU by set_solver. pose proof (size_singleton (C := gset bytes) (cd_domain x)) as H1. rewrite H1. lia.
      * apply set_eq. intros d. destruct (decide (d = cd_domain x)); set_solver.
Qed.

(** Another domain taken, one candidate fewer: nothing new is chosen. *)
Lemma spread_taken k l seen d c : c ∈ spread k l ({[d]} ∪ seen) → c ∈ spread (S k) l seen.
Proof.
  revert k seen. induction l as [|x l IH]; intros k seen; [by rewrite elem_of_nil; destruct k; cbn; set_solver|].
  destruct k as [|k]; [cbn; set_solver|]. cbn [spread]. destruct (decide (cd_domain x ∈ seen)) as [Hs|Hs].
  - rewrite !bool_decide_eq_true_2 by set_solver. apply IH.
  - rewrite (bool_decide_eq_false_2 _ Hs). destruct (decide (cd_domain x = d)) as [<-|Hne].
    + rewrite bool_decide_eq_true_2 by set_solver. cbn [spread]. set_solver.
    + rewrite bool_decide_eq_false_2 by set_solver. intros [->|Hc]%elem_of_cons; [set_solver|]. apply elem_of_cons. right.
      apply IH. replace ({[d]} ∪ ({[cd_domain x]} ∪ seen)) with ({[cd_domain x]} ∪ ({[d]} ∪ seen)) by set_solver. done.
Qed.

Lemma spread_insert k l1 x l2 seen c : c ∈ spread k (l1 ++ x :: l2) seen → c = x ∨ c ∈ spread k (l1 ++ l2) seen.
Proof.
  revert k seen. induction l1 as [|y l1 IH]; intros [|k] seen; cbn [app spread]; try set_solver.
  - case_bool_decide; [auto|]. intros [->|Hc]%elem_of_cons; [auto|]. right. by apply spread_taken in Hc.
  - case_bool_decide; [apply IH|]. intros [->|[->|Hc]%IH]%elem_of_cons; set_solver.
Qed.

Lemma take_mono_elem {A} m m' (l : list A) x : (m ≤ m')%nat → x ∈ take m l → x ∈ take m' l.
Proof.
  intros Hle Hx. apply list_elem_of_lookup in Hx as [i Hi]. apply lookup_take_Some in Hi as [Hi ?].
  apply list_elem_of_lookup. exists i. apply lookup_take_Some. split; [done|lia].
Qed.

Lemma take_filter_elem {A} (P : A → Prop) `{∀ x, Decision (P x)} m l x : x ∈ take m l → P x → x ∈ take m (filter P l).
Proof.
  revert m. induction l as [|y l IH]; intros [|m]; cbn [take]; try set_solver. rewrite filter_cons.
  intros [->|Hx]%elem_of_cons HP; [rewrite decide_True by done; set_solver|]. specialize (IH _ Hx HP).
  case_decide; [set_solver|]. by apply (take_mono_elem m (S m)); [lia|].
Qed.

Lemma filter_ext_elem {A} (P Q : A → Prop) `{∀ x, Decision (P x)} `{∀ x, Decision (Q x)} (l : list A) :
  (∀ x, x ∈ l → P x ↔ Q x) → filter P l = filter Q l.
Proof.
  induction l as [|x l IH]; intros Hall; [done|]. rewrite !filter_cons. rewrite IH by set_solver.
  assert (Hx : P x ↔ Q x) by set_solver. destruct (decide (P x)), (decide (Q x)); naive_solver.
Qed.

Lemma filter_twice {A} (P Q : A → Prop) `{∀ x, Decision (P x)} `{∀ x, Decision (Q x)} (l : list A) :
  filter P (filter Q l) = filter (λ x, P x ∧ Q x) l.
Proof.
  induction l as [|x l IH]; [done|]. rewrite !filter_cons. destruct (decide (Q x)) as [q|q].
  - rewrite filter_cons, IH. destruct (decide (P x)) as [p|p]; [by rewrite decide_True|rewrite decide_False; [done|naive_solver]].
  - rewrite IH, decide_False; [done|naive_solver].
Qed.

Lemma elem_of_ids l id : id ∈ ids l ↔ ∃ c, c ∈ l ∧ cd_device_id c = id.
Proof. unfold ids. rewrite elem_of_list_to_set, list_elem_of_fmap. naive_solver. Qed.

Lemma ids_inj l a b : NoDup (cd_device_id <$> l) → a ∈ l → b ∈ l → cd_device_id a = cd_device_id b → a = b.
Proof.
  intros Hnd Ha Hb Heq. apply list_elem_of_lookup in Ha as [i Hi], Hb as [j Hj].
  assert (i = j) as ->; [|congruence]. eapply NoDup_lookup; [exact Hnd|..]; rewrite list_lookup_fmap; [by rewrite Hi|].
  rewrite Hj. cbn. congruence.
Qed.

Lemma domains_mono l l' : l ⊆ l' → domains l ⊆ domains l'.
Proof. intros Hsub d. unfold domains. rewrite !elem_of_list_to_set, !list_elem_of_fmap. naive_solver. Qed.

Lemma spread_length_mono k l l' seen : l ⊆ l' → (length (spread k l seen) ≤ length (spread k l' seen))%nat.
Proof.
  intros Hsub. rewrite !spread_length. apply Nat.min_le_compat_l. apply (subseteq_size (C := gset bytes)).
  pose proof (domains_mono _ _ Hsub). set_solver.
Qed.

(** One more candidate: it may be chosen, and nothing else that was not. *)
Lemma chosen_insert k l1 x l2 seen c :
  NoDup (cd_device_id <$> (l1 ++ x :: l2)) → c ∈ chosen k (l1 ++ x :: l2) seen → c = x ∨ c ∈ chosen k (l1 ++ l2) seen.
Proof.
  intros Hnd Hc. unfold chosen in *. set (F' := spread k (l1 ++ x :: l2) seen) in *. set (F := spread k (l1 ++ l2) seen).
  assert (Hsub : l1 ++ l2 ⊆ l1 ++ x :: l2) by set_solver.
  apply elem_of_app in Hc as [Hc|Hc]; [apply spread_insert in Hc; set_solver|].
  assert (Hin : c ∈ l1 ++ x :: l2).
  { apply list_elem_of_lookup in Hc as [i [Hi _]%lookup_take_Some]. apply list_elem_of_lookup_2 in Hi. by apply list_elem_of_filter in Hi as [_ ?]. }
  destruct (decide (cd_device_id c = cd_device_id x)) as [Heq|Hne]; [left; eapply ids_inj; [done|done| |done]; set_solver|].
  right. apply elem_of_app. destruct (decide (cd_device_id c ∈ ids F)) as [(z & Hz & Heq)%elem_of_ids|HnF].
  { left. assert (z = c) as ->; [|done]. eapply ids_inj; [done| |done|done]. apply (sublist_subseteq _ _ (spread_sublist _ _ _)) in Hz. by apply Hsub. }
  right. apply (take_mono_elem (k - length F')); [pose proof (spread_length_mono k _ _ seen Hsub); unfold F, F'; lia|].
  replace (others (ids F) (l1 ++ l2)) with
    (filter (λ c, cd_device_id c ∉ ids F ∧ cd_device_id c ≠ cd_device_id x) (others (ids F') (l1 ++ x :: l2))).
  { by apply take_filter_elem. }
  unfold others. rewrite filter_twice, !filter_app, filter_cons, decide_False by naive_solver.
  assert (Hother : ∀ y, y ∈ l1 ++ l2 → cd_device_id y ≠ cd_device_id x).
  { intros y Hy Heq. rewrite fmap_app in Hnd. apply NoDup_app in Hnd as (_ & Hd & Hnd). cbn in Hnd, Hd. apply NoDup_cons in Hnd as [Hx _].
    apply elem_of_app in Hy as [Hy|Hy]; [apply (Hd (cd_device_id y)); [by apply list_elem_of_fmap_2|set_solver]|].
    apply Hx. rewrite <-Heq. by apply list_elem_of_fmap_2. }
  assert (Hiff : ∀ y, y ∈ l1 ++ l2 →
    ((cd_device_id y ∉ ids F ∧ cd_device_id y ≠ cd_device_id x) ∧ cd_device_id y ∉ ids F') ↔ cd_device_id y ∉ ids F).
  { intros y Hy. split; [naive_solver|]. intros HyF. split; [split; [done|by apply Hother]|].
    intros (z & Hz & Heq)%elem_of_ids. apply spread_insert in Hz as [->|Hz]; [by apply (Hother y Hy)|]. apply HyF, elem_of_ids. eauto. }
  f_equal; apply filter_ext_elem; intros y Hy; apply Hiff; set_solver.
Qed.

(** ** Ranking *)

#[export] Instance candidate_le_trans : Transitive candidate_le.
Proof.
  intros a b c. unfold candidate_le, key_le. cbn. intros [?|(E1 & [Hab|[E2 Hab]])] [?|(E3 & [Hbc|[E4 Hbc]])];
    try (left; lia); right; (split; [congruence|]).
  - left. eapply bytes_lt_le_trans; [done|by apply bytes_lt_le].
  - left. by rewrite <-E4.
  - left. by rewrite E2.
  - right. split; [congruence|]. by etrans.
Qed.
#[export] Instance candidate_le_total : Total candidate_le.
Proof.
  intros a b. unfold candidate_le, key_le. cbn. destruct (Z.lt_trichotomy (cd_score a) (cd_score b)) as [?|[E|?]]; [by left; left| |by right; left].
  destruct (decide (cd_node_id a = cd_node_id b)) as [En|Hne].
  - destruct (bytes_le_total (cd_device_id a) (cd_device_id b)); [left|right]; right; auto.
  - destruct (bytes_le_total (cd_node_id a) (cd_node_id b)); [left|right]; right; (split; [done|]); left; apply bytes_lt_alt; auto.
Qed.

Lemma candidate_le_antisym a b : candidate_le a b → candidate_le b a → cd_device_id a = cd_device_id b.
Proof.
  unfold candidate_le, key_le. cbn. rewrite !bytes_lt_alt.
  intros [?|(E1 & [[Hab Hne]|[E2 Hab]])] [?|(E3 & [[Hba Hne']|[E4 Hba]])]; try lia; try congruence.
  - exfalso. apply Hne. by apply (anti_symm bytes_le).
  - by apply (anti_symm bytes_le).
Qed.

(** Ranking with one more candidate. *)
Lemma rank_insert l1 x l2 :
  NoDup (cd_device_id <$> (l1 ++ x :: l2)) →
  ∃ s1 s2, merge_sort candidate_le (l1 ++ x :: l2) = s1 ++ x :: s2 ∧ merge_sort candidate_le (l1 ++ l2) = s1 ++ s2.
Proof.
  intros Hnd. set (s := merge_sort candidate_le (l1 ++ x :: l2)).
  assert (Hperm : s ≡ₚ l1 ++ x :: l2) by apply merge_sort_Permutation.
  assert (Hsorted : StronglySorted candidate_le s) by (apply StronglySorted_merge_sort; apply _).
  assert (Hx : x ∈ s) by (rewrite Hperm; set_solver). apply list_elem_of_split in Hx as (s1 & s2 & Hs). exists s1, s2.
  split; [done|]. rewrite Hs in Hperm, Hsorted. clearbody s. clear Hs.
  rewrite <-!Permutation_middle in Hperm. apply Permutation_cons_inv in Hperm.
  apply (StronglySorted_unique_strong candidate_le).
  - intros a b Ha Hb Hab Hba. apply (ids_inj (l1 ++ x :: l2)); [done| | |by apply candidate_le_antisym].
    + rewrite merge_sort_Permutation in Ha. set_solver.
    + rewrite Hperm in Hb. set_solver.
  - apply StronglySorted_merge_sort; apply _.
  - apply StronglySorted_app in Hsorted as (Hc & H1 & H2). apply StronglySorted_app. inversion H2; subst. split_and!; try done.
    intros a b Ha Hb. apply Hc; set_solver.
  - by rewrite merge_sort_Permutation.
Qed.

(** ** The decision in terms of the ranked candidates *)

Section Decision.
Context `{UuidCrate} `{HashFunction} `{RaceScore}.

(** The device may receive a replica. *)
Definition eligible (r : ObjectPlacementRequest) (t : ClusterTopology) (n : NodeRecord) (d : DeviceRecord) : bool :=
  accepts_new_replicas (n_state n) && class_match r d && has_capacity r t d && negb (barred r n d).

Definition candidates (r : ObjectPlacementRequest) (t : ClusterTopology) : list Candidate :=
  (λ e : NodeRecord * DeviceRecord, candidate e.1 e.2 r (request_scope r t)) <$>
    List.filter (λ e, eligible r t e.1 e.2) (all_devices t).
Definition ranked (r : ObjectPlacementRequest) (t : ClusterTopology) : list Candidate := merge_sort candidate_le (candidates r t).
Definition taken (r : ObjectPlacementRequest) (t : ClusterTopology) : gset bytes := dom (occupied_by r t).

Lemma walk_devices r t n w ds :
  accepts_new_replicas (n_state n) = true →
  w_candidates (foldl (walk_device r t n) w ds) =
  w_candidates w ++ ((λ e : NodeRecord * DeviceRecord, candidate e.1 e.2 r (request_scope r t)) <$>
    List.filter (λ e, eligible r t e.1 e.2) (pair n <$> ds)).
Proof.
  intros Hn. revert w. induction ds as [|d ds IH]; intros w; cbn [foldl fmap list_fmap List.filter]; [by rewrite app_nil_r|].
  rewrite IH. unfold walk_device, eligible. cbn. rewrite Hn. destruct (class_match r d); cbn; [|done].
  destruct (has_capacity r t d); cbn; [|done]. destruct (barred r n d); cbn; [done|]. by rewrite <-app_assoc.
Qed.

Lemma bfilter_none {A} (q : A → bool) l : (∀ x, x ∈ l → q x = false) → List.filter q l = [].
Proof. induction l as [|x l IH]; intros Hq; cbn; [done|]. rewrite Hq by set_solver. apply IH. set_solver. Qed.

Lemma walk_nodes r t w ns :
  w_candidates (foldl (walk_node r t) w ns) =
  w_candidates w ++ ((λ e : NodeRecord * DeviceRecord, candidate e.1 e.2 r (request_scope r t)) <$>
    List.filter (λ e, eligible r t e.1 e.2) (ns ≫= λ n, pair n <$> n_devices n)).
Proof.
  revert w. induction ns as [|n ns IH]; intros w; [by rewrite app_nil_r|]. cbn [foldl]. rewrite IH.
  change ((n :: ns) ≫= _) with ((pair n <$> n_devices n) ++ (ns ≫= λ n, pair n <$> n_devices n)).
  rewrite List.filter_app, fmap_app. rewrite app_assoc. f_equal. unfold walk_node.
  destruct (accepts_new_replicas (n_state n)) eqn:Hn; cbn [negb]; [by rewrite walk_devices|].
  rewrite bfilter_none; [by rewrite app_nil_r|]. intros e (d & -> & _)%list_elem_of_fmap. unfold eligible. cbn. by rewrite Hn.
Qed.

Lemma survey_candidates r t : w_candidates (survey r t) = candidates r t.
Proof. unfold survey. by rewrite walk_nodes. Qed.

Definition picked (r : ObjectPlacementRequest) (t : ClusterTopology) : list Candidate :=
  chosen (wanted_replicas r) (ranked r t) (taken r t).
(** Whether the failure domains suffice. *)
Definition spread_out (r : ObjectPlacementRequest) (t : ClusterTopology) : bool :=
  bool_decide (wanted_replicas r ≤ size (domains (ranked r t) ∖ taken r t))%nat.
Definition valid_request (r : ObjectPlacementRequest) : bool :=
  negb (rq_desired_replicas r =? 0) && negb (rq_required_acknowledgements r =? 0) &&
  negb (rq_desired_replicas r <? rq_required_acknowledgements r).

Lemma chosen_spread k l seen : (k ≤ size (domains l ∖ seen))%nat → chosen k l seen = spread k l seen.
Proof.
  intros Hk. unfold chosen. pose proof (spread_length k l seen) as Hl.
  replace (k - length (spread k l seen))%nat with 0%nat by lia. apply app_nil_r.
Qed.

Lemma local_first_perm local ts : local_first local ts ≡ₚ ts.
Proof.
  unfold local_first. destruct local as [node_id|]; [|done]. destruct (position _ ts) as [i|]; [|done].
  destruct (ts !! i) as [x|] eqn:Hi; cbn.
  - rewrite Permutation_middle. by rewrite take_drop_middle.
  - apply lookup_ge_None in Hi. rewrite take_ge, drop_ge, app_nil_r by lia. done.
Qed.

Lemma local_first_length local ts : length (local_first local ts) = length ts.
Proof. by rewrite local_first_perm. Qed.

(** The decision from the ranked candidates. *)
Lemma place_picked local r t :
  match place local r t with
  | Ok p => valid_request r = true ∧ candidates r t ≠ [] ∧ (request_strict r t = true → spread_out r t = true) ∧
      rq_required_acknowledgements r ≤ Z.of_nat (length (picked r t) + existing_count r) ∧
      p = {| pp_epoch := tp_epoch t; pp_targets := local_first local (into_target local <$> picked r t);
             pp_required_acknowledgements := rq_required_acknowledgements r;
             pp_desired_replicas := rq_desired_replicas r;
             pp_failure_domains_reused := bool_decide (length (spread (wanted_replicas r) (ranked r t) (taken r t)) < length (picked r t))%nat |}
  | Err _ => valid_request r = false ∨ candidates r t = [] ∨ (request_strict r t = true ∧ spread_out r t = false) ∨
      Z.of_nat (length (picked r t) + existing_count r) < rq_required_acknowledgements r
  end.
Proof.
  unfold place, valid_request. destruct (rq_desired_replicas r =? 0); cbn [negb andb]; [by left|].
  destruct (rq_required_acknowledgements r =? 0); cbn [orb negb andb]; [by left|].
  destruct (rq_desired_replicas r <? rq_required_acknowledgements r); cbn [negb]; [by left|].
  rewrite survey_candidates. case_bool_decide as Hnone; [by right; left|]. fold (ranked r t).
  pose proof (first_pass_spread local (wanted_replicas r) (ranked r t) (occupied_by r t) []) as Hpass. cbn [length] in Hpass.
  rewrite Nat.sub_0_r in Hpass. fold (taken r t) in Hpass. destruct (first_pass _ _ _ _ _) as [occupied' ts]. destruct Hpass as [-> _]. cbn [app].
  set (F := spread (wanted_replicas r) (ranked r t) (taken r t)) in *. rewrite length_fmap.
  assert (Hshort : bool_decide (length F < wanted_replicas r)%nat = negb (spread_out r t)).
  { unfold spread_out, F. rewrite spread_length. repeat case_bool_decide; cbn; try done; lia. }
  assert (Hids : list_to_set (pt_device_id <$> (into_target local <$> F)) = ids F).
  { unfold ids. by rewrite <-list_fmap_compose. }
  rewrite Hshort, Hids. destruct (spread_out r t) eqn:Hout; cbn [negb andb].
  - assert (Hpick : picked r t = F) by (apply chosen_spread; unfold spread_out in Hout; by apply bool_decide_eq_true in Hout).
    rewrite local_first_length, length_fmap, Hpick. destruct (_ <? _) eqn:Hack; [right; right; right; by apply Z.ltb_lt|].
    split_and!; try done; [by apply Z.ltb_ge|]. clearbody F. by rewrite bool_decide_eq_false_2 by lia.
  - destruct (request_strict r t) eqn:Hstrict; [by right; right; left|]. rewrite second_pass_fill, length_fmap. cbn [orb].
    rewrite local_first_length, <-fmap_app. change (F ++ _) with (picked r t). rewrite length_fmap.
    destruct (_ <? _) eqn:Hack; [right; right; right; by apply Z.ltb_lt|]. split_and!; try done; [by apply Z.ltb_ge|]. f_equal. unfold picked, chosen. fold F.
    rewrite length_app. clearbody F. destruct (take _ _); cbn; repeat case_bool_decide; try done; lia.
Qed.

(** ** What is picked *)

(** Device identifiers are drawn at random (UUID v4) when a device is set up; a node
    refuses two devices of its own under one identifier (device.rs, [DeviceManager::new]),
    and nothing compares the devices of different nodes. *)
Definition devices_distinct (t : ClusterTopology) : Prop := NoDup ((λ e : NodeRecord * DeviceRecord, d_id e.2) <$> all_devices t).

Lemma NoDup_fmap_bfilter {A B} (f : A → B) (q : A → bool) l : NoDup (f <$> l) → NoDup (f <$> List.filter q l).
Proof.
  induction l as [|x l IH]; cbn; [done|]. intros [Hx Hl]%NoDup_cons. destruct (q x); cbn; [|auto]. constructor; [|auto].
  intros (y & Heq & Hy)%list_elem_of_fmap. apply Hx. apply list_elem_of_fmap. exists y. split; [done|]. apply list_elem_of_In in Hy. apply filter_In in Hy as [Hy _]. by apply list_elem_of_In.
Qed.

Lemma candidates_distinct r t : devices_distinct t → NoDup (cd_device_id <$> candidates r t).
Proof.
  intros Hd. unfold candidates. rewrite <-list_fmap_compose. by apply (NoDup_fmap_bfilter (λ e : NodeRecord * DeviceRecord, d_id e.2)).
Qed.
Lemma ranked_perm r t : ranked r t ≡ₚ candidates r t.
Proof. apply merge_sort_Permutation. Qed.
Lemma ranked_distinct r t : devices_distinct t → NoDup (cd_device_id <$> ranked r t).
Proof. intros Hd. rewrite ranked_perm. by apply candidates_distinct. Qed.

Lemma chosen_subset k l seen c : c ∈ chosen k l seen → c ∈ l.
Proof.
  intros [Hc|Hc]%elem_of_app; [by apply (sublist_subseteq _ _ (spread_sublist _ _ _)) in Hc|].
  apply list_elem_of_lookup in Hc as [i [Hi _]%lookup_take_Some]. apply list_elem_of_lookup_2 in Hi. by apply list_elem_of_filter in Hi as [_ ?].
Qed.

Lemma chosen_split l seen k : NoDup (cd_device_id <$> l) → l ≡ₚ spread k l seen ++ others (ids (spread k l seen)) l.
Proof.
  intros Hnd. set (F := spread k l seen). assert (HF : F `sublist_of` l) by apply spread_sublist.
  apply NoDup_Permutation; [by eapply NoDup_fmap_1|..].
  - apply NoDup_app. split; [eapply sublist_NoDup; [by eapply NoDup_fmap_1|exact HF]|]. split; [|by eapply NoDup_filter, NoDup_fmap_1].
    intros c Hc [Hc' _]%list_elem_of_filter. apply Hc', elem_of_ids. eauto.
  - intros c. rewrite elem_of_app. unfold others. rewrite list_elem_of_filter. split; [|intros [?|[_ ?]]; [by eapply sublist_subseteq|done]].
    intros Hc. destruct (decide (cd_device_id c ∈ ids F)) as [(z & Hz & Heq)%elem_of_ids|]; [left|by right].
    assert (z = c) as <-; [|done]. eapply ids_inj; [done| |done|done]. by eapply sublist_subseteq.
Qed.

Lemma chosen_length k l seen : NoDup (cd_device_id <$> l) → length (chosen k l seen) = Nat.min k (length l).
Proof.
  intros Hnd. unfold chosen. rewrite length_app, length_take.
  pose proof (Permutation_length (chosen_split l seen k Hnd)) as Hl. rewrite length_app in Hl.
  pose proof (spread_length k l seen). lia.
Qed.

Lemma chosen_distinct k l seen : NoDup (cd_device_id <$> l) → NoDup (cd_device_id <$> chosen k l seen).
Proof.
  intros Hnd. pose proof (fmap_Permutation cd_device_id _ _ (chosen_split l seen k Hnd)) as Hp.
  rewrite Hp, <-(take_drop (k - length (spread k l seen)) (others (ids _) l)), app_assoc, fmap_app in Hnd.
  by apply NoDup_app in Hnd as [? _].
Qed.

(** The device a target names, with everything placement asks of it. *)
Definition suits (r : ObjectPlacementRequest) (t : ClusterTopology) (x : PlacementTarget) : Prop :=
  ∃ n d, (n, d) ∈ all_devices t ∧ pt_node_id x = n_node_id n ∧ pt_device_id x = d_id d ∧
    pt_domain x = placement_domain n (d_id d) (request_scope r t) ∧
    n_state n = NodeHealthy ∧ eligible_class r d = true ∧ d_state d = Active ∧ permits_placement (d_health d) = true ∧
    level_accepts (device_level t d) = true ∧
    u64_saturating_add (reservation r t) (reserve r t d) ≤ device_available_bytes (d_capacity d) ∧
    n_node_id n ∉ rq_excluded_nodes r ∧ d_id d ∉ rq_excluded_devices r ∧
    n_node_id n ∉ rq_existing_nodes r ∧ (n_node_id n, d_id d) ∉ rq_existing_targets r.

Lemma candidate_suits local r t c : c ∈ candidates r t → suits r t (into_target local c).
Proof.
  unfold candidates. intros ([n d] & -> & Hin)%list_elem_of_fmap. apply list_elem_of_In in Hin. apply filter_In in Hin as [Hin Hel].
  apply list_elem_of_In in Hin. unfold eligible, class_match, has_capacity, barred, device_eligible in Hel. cbn [fst snd] in Hel. bool_facts.
  exists n, d. split_and!; try done.
  - by destruct (n_state n).
  - by destruct (d_state d).
Qed.

(** C22: A plan is sound when no two devices of the cluster share an identifier, which
    the code checks only within a node. Every target is a distinct active device with room on a
    healthy node that the request does not bar; the plan has no more targets than
    wanted and enough for the required acknowledgements. Unless it says that domains
    were reused, the targets lie in different failure domains, none of them taken by
    an existing replica; a strict policy never reuses one and is met in full. *)
Theorem place_sound local r t p :
  devices_distinct t → place local r t = Ok p →
  (∀ x, x ∈ pp_targets p → suits r t x) ∧ NoDup (pt_device_id <$> pp_targets p) ∧
  (length (pp_targets p) ≤ wanted_replicas r)%nat ∧
  rq_required_acknowledgements r ≤ Z.of_nat (length (pp_targets p) + existing_count r) ∧
  (pp_failure_domains_reused p = false →
     NoDup (pt_domain <$> pp_targets p) ∧ ∀ x, x ∈ pp_targets p → occupied_by r t !! pt_domain x = None) ∧
  (request_strict r t = true → pp_failure_domains_reused p = false ∧ length (pp_targets p) = wanted_replicas r).
Proof.
  intros Hd Hp. pose proof (place_picked local r t) as Hplan. rewrite Hp in Hplan. destruct Hplan as (_ & _ & Hstrict & Hack & ->).
  cbn [pp_targets pp_failure_domains_reused].
  pose proof (local_first_perm local (into_target local <$> picked r t)) as Hperm. rewrite local_first_length, length_fmap.
  assert (Hids : NoDup (cd_device_id <$> picked r t)) by (apply chosen_distinct; by apply ranked_distinct).
  split_and!; try done.
  - intros x Hx. rewrite Hperm in Hx. apply list_elem_of_fmap in Hx as (c & -> & Hc). apply candidate_suits.
    apply chosen_subset in Hc. by rewrite ranked_perm in Hc.
  - rewrite Hperm, <-list_fmap_compose. exact Hids.
  - unfold picked. rewrite chosen_length by by apply ranked_distinct. lia.
  - intros Hreuse. apply bool_decide_eq_false in Hreuse. assert (Hpick : picked r t = spread (wanted_replicas r) (ranked r t) (taken r t)).
    { unfold picked, chosen in *. rewrite length_app in Hreuse. destruct (take _ _) eqn:Ht; [by rewrite app_nil_r|]. cbn in Hreuse. lia. }
    split; [rewrite Hperm, <-list_fmap_compose, Hpick; apply spread_domains|].
    intros x Hx. rewrite Hperm in Hx. apply list_elem_of_fmap in Hx as (c & -> & Hc). rewrite Hpick in Hc. apply spread_fresh in Hc.
    unfold taken in Hc. by apply not_elem_of_dom in Hc.
  - intros Hs. apply Hstrict in Hs. unfold spread_out in Hs. apply bool_decide_eq_true in Hs. unfold picked. rewrite chosen_spread by done.
    split; [by rewrite bool_decide_eq_false_2 by lia|]. rewrite spread_length. lia.
Qed.

(** C23: When no two devices of the cluster share an identifier, placement gives up
    exactly when it has to: the request asks for nothing or for
    more acknowledgements than replicas, no device is eligible, a strict policy finds
    fewer fresh domains than replicas wanted, or all eligible devices together with
    the existing replicas stay below the required acknowledgements. *)
Theorem place_accepts local r t :
  devices_distinct t →
  (∃ p, place local r t = Ok p) ↔
  valid_request r = true ∧ candidates r t ≠ [] ∧
  (request_strict r t = true → (wanted_replicas r ≤ size (domains (candidates r t) ∖ taken r t))%nat) ∧
  rq_required_acknowledgements r ≤ Z.of_nat (Nat.min (wanted_replicas r) (length (candidates r t)) + existing_count r).
Proof.
  intros Hd. assert (Hlen : length (picked r t) = Nat.min (wanted_replicas r) (length (candidates r t))).
  { unfold picked. rewrite chosen_length by by apply ranked_distinct. by rewrite ranked_perm. }
  assert (Hdom : domains (ranked r t) = domains (candidates r t)) by (unfold domains; apply list_to_set_perm_L; by rewrite ranked_perm).
  assert (Hout : spread_out r t = true ↔ (wanted_replicas r ≤ size (domains (candidates r t) ∖ taken r t))%nat).
  { unfold spread_out. rewrite bool_decide_eq_true, Hdom. done. }
  pose proof (place_picked local r t) as Hplan. rewrite Hlen in Hplan. rewrite <-Hout. destruct (place local r t) as [p|e].
  - split; [naive_solver|eauto].
  - split; [by intros [? ?]|]. intros (Hv & Hc & Hs & Ha). exfalso.
    destruct Hplan as [?|[?|[[Hs' Ho]|?]]]; [congruence|done| |lia]. rewrite (Hs Hs') in Ho. done.
Qed.

(** Where a payload goes does not depend on the node that decides. Two nodes with
    the same view agree on whether there is a plan and on its devices, domains and
    acknowledgements; only the order of the targets differs. *)
Theorem place_local_independent a b r t :
  match place a r t, place b r t with
  | Ok p, Ok q => (λ x, (pt_node_id x, pt_device_id x, pt_domain x)) <$> pp_targets p ≡ₚ
                  (λ x, (pt_node_id x, pt_device_id x, pt_domain x)) <$> pp_targets q ∧
                  pp_epoch p = pp_epoch q ∧ pp_failure_domains_reused p = pp_failure_domains_reused q ∧
                  pp_required_acknowledgements p = pp_required_acknowledgements q
  | Err _, Err _ => True
  | _, _ => False
  end.
Proof.
  pose proof (place_picked a r t) as Ha. pose proof (place_picked b r t) as Hb.
  assert (Hboth : valid_request r = true → candidates r t ≠ [] → (request_strict r t = true → spread_out r t = true) →
    rq_required_acknowledgements r ≤ Z.of_nat (length (picked r t) + existing_count r) →
    ¬ (valid_request r = false ∨ candidates r t = [] ∨ (request_strict r t = true ∧ spread_out r t = false) ∨
       Z.of_nat (length (picked r t) + existing_count r) < rq_required_acknowledgements r)).
  { intros Hv Hc Hs Hk [?|[?|[[Hs' ?]|?]]]; [congruence|done|apply Hs in Hs'; congruence|lia]. }
  destruct (place a r t) as [p|e], (place b r t) as [q|e']; [|naive_solver..].
  - destruct Ha as (_ & _ & _ & _ & ->), Hb as (_ & _ & _ & _ & ->). cbn. split; [|done].
    rewrite (local_first_perm a), (local_first_perm b), <-!list_fmap_compose. done.
Qed.

(** ** A new device *)

(** The later view has the device [d] on the node [k] and is otherwise the same. *)
Definition gains (k : bytes) (d : DeviceRecord) (t t' : ClusterTopology) : Prop :=
  tp_config t' = tp_config t ∧
  ∃ ns1 n ns2 ds1 ds2 capacity, n_node_id n = k ∧ n_devices n = ds1 ++ ds2 ∧ tp_nodes t = ns1 ++ n :: ns2 ∧
    tp_nodes t' = ns1 ++ node_with_devices capacity (ds1 ++ d :: ds2) n :: ns2.

Lemma eligible_config r t t' n d : tp_config t' = tp_config t → eligible r t' n d = eligible r t n d.
Proof. intros Hc. unfold eligible, has_capacity, device_level, reservation, reserve. by rewrite Hc. Qed.

Definition offers (r : ObjectPlacementRequest) (t : ClusterTopology) (l : list (NodeRecord * DeviceRecord)) : list Candidate :=
  (λ e : NodeRecord * DeviceRecord, candidate e.1 e.2 r (request_scope r t)) <$> List.filter (λ e, eligible r t e.1 e.2) l.

Lemma offers_app r t l1 l2 : offers r t (l1 ++ l2) = offers r t l1 ++ offers r t l2.
Proof. unfold offers. by rewrite List.filter_app, fmap_app. Qed.

Lemma offers_one r t n d : offers r t [(n, d)] = if eligible r t n d then [candidate n d r (request_scope r t)] else [].
Proof. unfold offers. cbn. by destruct (eligible r t n d). Qed.

Lemma offers_config r t t' l : tp_config t' = tp_config t → offers r t' l = offers r t l.
Proof.
  intros Hc. unfold offers, request_scope. rewrite Hc. f_equal. apply List.filter_ext. intros e. by apply eligible_config.
Qed.

(** The candidates of a node do not change with its list of devices. *)
Lemma offers_node r t n capacity ds l : offers r t (pair (node_with_devices capacity ds n) <$> l) = offers r t (pair n <$> l).
Proof.
  unfold offers. induction l as [|d l IH]; [done|]. cbn [fmap list_fmap List.filter].
  change (eligible r t (node_with_devices capacity ds n, d).1 (node_with_devices capacity ds n, d).2) with (eligible r t n d).
  cbn [fst snd]. destruct (eligible r t n d); [|exact IH]. cbn [fmap list_fmap]. f_equal. exact IH.
Qed.

Lemma taken_gains r k d t t' : gains k d t t' → taken r t' = taken r t.
Proof.
  intros (Hc & ns1 & n & ns2 & ds1 & ds2 & cap & Hk & Hds & Hn & Hn').
  assert (Hfind : ∀ id, topology_node t' id = topology_node t id ∨
    topology_node t id = Some n ∧ topology_node t' id = Some (node_with_devices cap (ds1 ++ d :: ds2) n)).
  { intros id. unfold topology_node. rewrite Hn, Hn'. clear. induction ns1 as [|m ns1 IH]; cbn; [case_bool_decide; auto|].
    case_bool_decide; [auto|exact IH]. }
  unfold taken, occupied_by, request_scope. rewrite Hc. f_equal.
  assert (Hfold : ∀ (l : list bytes) m m', m = m' →
    foldl (λ m node_id, match topology_node t' node_id with Some n => occupy (domain_key n (from_option sp_failure_domain (failure_domain_scope (tp_config t)) (rq_policy r))) m | None => m end) m l =
    foldl (λ m node_id, match topology_node t node_id with Some n => occupy (domain_key n (from_option sp_failure_domain (failure_domain_scope (tp_config t)) (rq_policy r))) m | None => m end) m' l).
  { intros l. induction l as [|id l IH]; intros m m' ->; cbn; [done|]. apply IH. destruct (Hfind id) as [->|[-> ->]]; done. }
  apply Hfold. clear Hfold. generalize (∅ : gmap bytes Z) as m. induction (elements (rq_existing_targets r)) as [|e l IH]; intros m; cbn; [done|].
  rewrite IH. f_equal. destruct (Hfind e.1) as [->|[-> ->]]; done.
Qed.

Lemma candidates_gains r k d t t' :
  gains k d t t' →
  ∃ l1 l2, candidates r t = l1 ++ l2 ∧ (candidates r t' = l1 ++ l2 ∨
    ∃ x, cd_node_id x = k ∧ cd_device_id x = d_id d ∧ candidates r t' = l1 ++ x :: l2).
Proof.
  intros (Hc & ns1 & n & ns2 & ds1 & ds2 & cap & Hk & Hds & Hn & Hn'). set (n' := node_with_devices cap (ds1 ++ d :: ds2) n) in *.
  set (A := ns1 ≫= λ n, pair n <$> n_devices n). set (B := ns2 ≫= λ n, pair n <$> n_devices n).
  assert (Hall : all_devices t = A ++ (pair n <$> ds1) ++ (pair n <$> ds2) ++ B).
  { unfold all_devices. rewrite Hn, bind_app. cbn [mbind list_bind]. rewrite Hds, fmap_app, <-app_assoc. done. }
  assert (Hall' : all_devices t' = A ++ (pair n' <$> ds1) ++ (n', d) :: (pair n' <$> ds2) ++ B).
  { unfold all_devices. rewrite Hn', bind_app. cbn [mbind list_bind]. change (n_devices n') with (ds1 ++ d :: ds2).
    rewrite fmap_app, <-app_assoc. done. }
  exists (offers r t (A ++ (pair n <$> ds1))), (offers r t ((pair n <$> ds2) ++ B)). split.
  { change (candidates r t) with (offers r t (all_devices t)). rewrite Hall, !offers_app. by rewrite !app_assoc. }
  change (candidates r t') with (offers r t' (all_devices t')). rewrite (offers_config r t t') by done. rewrite Hall'.
  rewrite (cons_middle (n', d)). change [(n', d)] with (pair n' <$> [d]). unfold n'. rewrite !offers_app, !offers_node.
  change (pair n <$> [d]) with [(n, d)]. rewrite offers_one. destruct (eligible r t n d); [right; eexists|left; by rewrite <-!app_assoc].
  split; [|split]; [| |rewrite <-!app_assoc; reflexivity]; done.
Qed.

(** A new device takes data over and moves none between the others. When the view
    gains a device, the plan for any payload selects only devices of the plan before
    or the new one. *)
Theorem new_device_only_attracts local r t t' k d p p' :
  gains k d t t' → devices_distinct t' → place local r t = Ok p → place local r t' = Ok p' →
  ∀ x, x ∈ pp_targets p' →
    (pt_node_id x = k ∧ pt_device_id x = d_id d) ∨
    ∃ y, y ∈ pp_targets p ∧ pt_node_id y = pt_node_id x ∧ pt_device_id y = pt_device_id x.
Proof.
  intros Hg Hd Hp Hp' x Hx. pose proof (place_picked local r t) as Hq. pose proof (place_picked local r t') as Hq'.
  rewrite Hp in Hq. rewrite Hp' in Hq'. destruct Hq as (_ & _ & _ & _ & ->), Hq' as (_ & _ & _ & _ & ->). cbn [pp_targets] in *.
  rewrite local_first_perm in Hx. apply list_elem_of_fmap in Hx as (c & -> & Hc). setoid_rewrite local_first_perm.
  assert (Hold : c ∈ picked r t ∨ cd_node_id c = k ∧ cd_device_id c = d_id d).
  { pose proof (candidates_distinct r t' Hd) as Hnd. unfold picked, ranked in *. rewrite (taken_gains _ _ _ _ _ Hg) in Hc.
    destruct (candidates_gains r _ _ _ _ Hg) as (l1 & l2 & E1 & [E2|(y & Hk & Hy & E2)]); rewrite E1; rewrite E2 in *; [by left|].
    destruct (rank_insert _ _ _ Hnd) as (s1 & s2 & S1 & S2). rewrite S1 in Hc. rewrite S2.
    apply chosen_insert in Hc as [->|Hc]; [by right|by left|]. rewrite <-S1. by rewrite merge_sort_Permutation. }
  destruct Hold as [Hold|Hold]; [right|by left]. exists (into_target local c). split; [|done]. by apply list_elem_of_fmap_2.
Qed.

(** ** The explanation *)

Lemma rejection_eligible r t n d :
  (∀ p, rq_policy r = Some p → sp_class p = rq_storage_class r) → rejection r t n d = None ↔ eligible r t n d = true.
Proof.
  intros Hclass. unfold rejection, eligible, class_match, has_capacity, barred.
  assert (Hc : eligible_class r d = true → bool_decide (d_storage_class d = rq_storage_class r) = true).
  { unfold eligible_class. destruct (rq_policy r) as [p|] eqn:Hp; [|done]. unfold accepts_device. intros Hx. bool_facts.
    rewrite <-(Hclass _ eq_refl). by apply bool_decide_eq_true. }
  destruct (accepts_new_replicas (n_state n)); cbn; [|done]. destruct (eligible_class r d); cbn; [rewrite Hc by done; cbn|by case_bool_decide].
  destruct (accepts_new_placements (d_state d)) eqn:Hs; cbn; [|done]. unfold device_eligible. rewrite Hs. cbn.
  destruct (permits_placement (d_health d)); cbn; [|by rewrite !andb_false_r].
  repeat case_bool_decide; destruct (level_accepts (device_level t d)); cbn; try done; by destruct (_ && _).
Qed.

Lemma explain_walk r t sel l cs ex :
  foldl (λ '(candidates, excluded) '(n, d),
      match rejection r t n d with
      | Some reason => (candidates, excluded ++ [exclusion n d reason])
      | None => (candidates ++ [explained sel (candidate n d r (request_scope r t))], excluded)
      end) (cs, ex) l =
  (cs ++ (explained sel <$> ((λ e : NodeRecord * DeviceRecord, candidate e.1 e.2 r (request_scope r t)) <$>
     List.filter (λ e, bool_decide (rejection r t e.1 e.2 = None)) l)),
   ex ++ omap (λ e : NodeRecord * DeviceRecord, exclusion e.1 e.2 <$> rejection r t e.1 e.2) l).
Proof.
  revert cs ex. induction l as [|[n d] l IH]; intros cs ex; cbn [foldl]; [by rewrite !app_nil_r|].
  cbn [List.filter omap list_omap fst snd]. destruct (rejection r t n d) as [reason|]; rewrite IH; cbn; by rewrite <-app_assoc.
Qed.

(** An explained candidate ranks as the candidate it explains. *)
Definition explains (c : PlacementCandidateExplanation) : Candidate :=
  {| cd_node_id := ce_node_id c; cd_device_id := ce_device_id c; cd_rpc_address := []; cd_domain := ce_domain c;
     cd_score := ce_score c; cd_effective_weight := ce_effective_weight c; cd_kind := ce_kind c |}.
#[local] Instance explanation_le_trans : Transitive explanation_le.
Proof. intros a b c Hab Hbc. exact (candidate_le_trans (explains a) (explains b) (explains c) Hab Hbc). Qed.
#[local] Instance explanation_le_total : Total explanation_le.
Proof. intros a b. exact (candidate_le_total (explains a) (explains b)). Qed.

Lemma explanation_rank sel l :
  NoDup (cd_device_id <$> l) → merge_sort explanation_le (explained sel <$> l) = explained sel <$> merge_sort candidate_le l.
Proof.
  intros Hnd. apply (StronglySorted_unique_strong explanation_le).
  - intros a b Ha Hb Hab Hba. rewrite merge_sort_Permutation in Ha. apply list_elem_of_fmap in Ha as (x & -> & Hx), Hb as (y & -> & Hy).
    rewrite merge_sort_Permutation in Hy. f_equal. apply (ids_inj l); [done..|]. by apply candidate_le_antisym.
  - apply StronglySorted_merge_sort; apply _.
  - assert (Hs : StronglySorted candidate_le (merge_sort candidate_le l)) by (apply StronglySorted_merge_sort; apply _).
    induction Hs as [|c s Hs IH Hall]; [constructor|]. cbn. constructor; [done|]. rewrite Forall_fmap. done.
  - by rewrite !merge_sort_Permutation.
Qed.

(** The explanation of a decision is about that decision: it carries the plan
    placement makes, lists the devices placement ranked in their order and marks those
    the plan selected, and gives for every other device a rule that bars it. *)
Theorem explain_faithful local r t e :
  (∀ p, rq_policy r = Some p → sp_class p = rq_storage_class r) → devices_distinct t → explain local r t = Ok e →
  place local r t = Ok (pe_decision e) ∧
  pe_candidates e = explained (list_to_set (pt_device_id <$> pp_targets (pe_decision e))) <$>
                      merge_sort candidate_le (w_candidates (survey r t)) ∧
  pe_excluded e ≡ₚ omap (λ '(n, d), exclusion n d <$> rejection r t n d) (all_devices t) ∧
  (length (pe_candidates e) + length (pe_excluded e) = length (all_devices t))%nat.
Proof.
  intros Hclass Hd He. unfold explain in He. destruct (place local r t) as [p|err] eqn:Hp; [|done].
  cbn [mbind result_bind] in He. rewrite explain_walk in He. injection He as <-. cbn [pe_decision pe_candidates pe_excluded app].
  assert (Hsame : List.filter (λ e : NodeRecord * DeviceRecord, bool_decide (rejection r t e.1 e.2 = None)) (all_devices t) =
                  List.filter (λ e : NodeRecord * DeviceRecord, eligible r t e.1 e.2) (all_devices t)).
  { apply List.filter_ext. intros [n d]. cbn. apply eq_bool_prop_intro. rewrite !Is_true_true, bool_decide_eq_true. by apply rejection_eligible. }
  rewrite Hsame. fold (candidates r t). split; [done|]. split; [|split].
  - rewrite survey_candidates. apply explanation_rank. by apply candidates_distinct.
  - rewrite merge_sort_Permutation. clear. induction (all_devices t) as [|[n d] l IH]; [done|].
    cbn. destruct (rejection r t n d); cbn; [by rewrite IH|done].
  - rewrite !merge_sort_Permutation, length_fmap. unfold candidates. rewrite length_fmap, <-Hsame. clear.
    induction (all_devices t) as [|[n d] l IH]; [done|]. cbn. destruct (rejection r t n d); cbn; lia.
Qed.

End Decision.

(** ** Examples *)

(** Three nodes in two racks, a device each. *)
#[local] Existing Instance sha256_function.
#[local] Instance plain_uuids : UuidCrate := {| new_v5 := λ a b, a ++ b; uuid_to_string := λ id, id |}.
#[local] Instance fair_race : RaceScore := {| race_score := λ sample weight, (2 ^ 64 - sample) * 2 ^ 64 / weight |}.

Definition disk (node n : Z) : DeviceRecord :=
  {| d_id := [n]; d_node_id := [node]; d_current_path := None; d_stable_hardware_identifier := None; d_kind := Ssd;
     d_storage_class := DEFAULT_CLASS;
     d_capacity := {| raw_bytes := 10 ^ 12; usable_bytes := 10 ^ 12; allocated_bytes := 0; reserved_bytes := 0; device_available_bytes := 9 * 10 ^ 11 |};
     d_configured_weight := 1000; d_health := HealthHealthy; d_state := Active; d_hardware := hardware_default; d_movement_concurrency := None |}.
Definition member (id : Z) (rack : string) (devices : list DeviceRecord) : NodeRecord :=
  {| n_node_id := [id]; n_raft_id := id; n_protocol := (1, 0); n_software_version := []; n_storage_format_version := 1;
     n_rpc_address := []; n_s3_endpoint := None; n_management_endpoint := None; n_storage_class := DEFAULT_CLASS;
     n_failure_domain := {[ bytes_of_string "rack" := bytes_of_string rack ]}; n_state := NodeHealthy; n_metadata_voter := true;
     n_capacity := from_devices devices; n_devices := devices; n_activity := activity_default; n_joined_at := 0;
     n_started_at := 0; n_last_heartbeat_at := None; n_state_changed_at := 0; n_state_reason := None |}.
Definition racks (third : list DeviceRecord) : ClusterTopology :=
  {| tp_cluster_id := [0]; tp_config := config_default; tp_epoch := 1;
     tp_nodes := [member 1 "a" [disk 1 11]; member 2 "a" [disk 2 12]; member 3 "b" third] |}.
Definition two_copies : ObjectPlacementRequest := request_new [77] 2 1 DEFAULT_CLASS.

Lemma place_sound_witness :
  ∃ p, place (Some [2]) two_copies (racks [disk 3 13]) = Ok p ∧ NoDup (pt_domain <$> pp_targets p).
Proof.
  eexists. split; [vm_compute; reflexivity|].
  eapply (place_sound (Some [2]) two_copies (racks [disk 3 13])); [|vm_compute; reflexivity|reflexivity].
  apply (bool_decide_unpack _). vm_compute. exact I.
Defined.

Lemma place_accepts_witness : ∃ p, place None two_copies (racks [disk 3 13]) = Ok p.
Proof.
  apply (place_accepts None two_copies (racks [disk 3 13])); [apply (bool_decide_unpack _); vm_compute; exact I|].
  split; [vm_compute; reflexivity|]. split; [vm_compute; discriminate|]. split; [vm_compute; discriminate|]. vm_compute. discriminate.
Defined.

Lemma new_device_only_attracts_witness :
  ∃ p', place None two_copies (racks [disk 3 13; disk 3 14]) = Ok p' ∧
    ∀ x, x ∈ pp_targets p' → pt_device_id x = [14] ∨ pt_device_id x ∈ [[11]; [12]; [13]].
Proof.
  eassert (Hp : place None two_copies (racks [disk 3 13]) = Ok _) by (vm_compute; reflexivity).
  eassert (Hp' : place None two_copies (racks [disk 3 13; disk 3 14]) = Ok _) by (vm_compute; reflexivity).
  assert (Hd : devices_distinct (racks [disk 3 13; disk 3 14])) by (apply (bool_decide_unpack _); vm_compute; exact I).
  assert (Hg : gains [3] (disk 3 14) (racks [disk 3 13]) (racks [disk 3 13; disk 3 14])).
  { split; [reflexivity|]. exists [member 1 "a" [disk 1 11]; member 2 "a" [disk 2 12]], (member 3 "b" [disk 3 13]), [], [disk 3 13], [].
    exists (from_devices [disk 3 13; disk 3 14]). repeat split. }
  eexists. split; [exact Hp'|]. intros x Hx.
  destruct (new_device_only_attracts None two_copies _ _ _ _ _ _ Hg Hd Hp Hp' x Hx) as [[_ Hx']|(y & Hy & _ & <-)]; [by left|].
  right. cbn [pp_targets] in Hy. apply elem_of_cons in Hy as [->|[->|[]%not_elem_of_nil]%elem_of_cons];
    apply (bool_decide_unpack _); vm_compute; exact I.
Defined.

Lemma explain_faithful_witness :
  ∃ e, explain None two_copies (racks [disk 3 13]) = Ok e ∧ place None two_copies (racks [disk 3 13]) = Ok (pe_decision e).
Proof.
  eexists. split; [vm_compute; reflexivity|].
  eapply (explain_faithful None two_copies (racks [disk 3 13])); [intros p Hp; discriminate Hp| |vm_compute; reflexivity].
  apply (bool_decide_unpack _). vm_compute. exact I.
Defined.

(** The refusal of a strict policy counts the domains of the candidates twice: three
    replicas over two racks are refused for want of domains, of which it says there
    are four. *)
Definition strict_policy : StoragePolicy :=
  {| sp_class := DEFAULT_CLASS; sp_description := None; sp_allowed_kinds := []; sp_durability := Replication 3;
     sp_failure_domain := DomainRack; sp_strict_failure_domains := true; sp_minimum_free_space_percent := 0 |}.
Theorem refusal_overcounts_domains :
  place None (with_policy (Some strict_policy) (request_new [77] 3 1 DEFAULT_CLASS)) (racks [disk 3 13]) =
  Err (InsufficientFailureDomains (scope_display DomainRack) 3 4).
Proof. vm_compute. reflexivity. Qed.

End PlacementTheorems.
