(* ===== verification/Balance.v ===== *)
(** * Rebalancing, removal safety and failure detection

    The pure decisions of the cluster crate over a view of the cluster:
    [rebalance.rs] plans replica moves and checks whether a node can be removed,
    [health.rs] proposes state changes of silent nodes and classifies the health of
    the consensus group and of the data. *)

From stdpp Require Import pretty.
From S2P Require Import Prelude Bytes Tables Digest ObjectLock CoreTypes Keys Topology Replicas Placement.
Import CoreTypes Topology Replicas Placement.

Module Balance.

Definition text (s : string) : bytes := bytes_of_string s.
Definition number (z : Z) : bytes := bytes_of_string (pretty z).

(** ** Rebalancing ([rebalance.rs]) *)

Record RebalanceMove := {
  mv_object_id : bytes; mv_source_node : bytes; mv_source_device : bytes; mv_target_node : bytes;
  mv_target_device : bytes; mv_size : Z }.

(** [PlacementPolicy::place]. *)
Definition PlacementPolicy : Type := ObjectPlacementRequest → ClusterTopology → result PlacementError PlacementPlan.

Definition participating (t : ClusterTopology) : list (NodeRecord * DeviceRecord) :=
  n ← List.filter (λ n, bool_decide (n_state n = NodeHealthy)) (tp_nodes t); pair n <$> n_devices n.
Definition percent (d : DeviceRecord) : Z := device_utilization_permille (d_capacity d) / 10.
Definition mean_percent (devices : list (NodeRecord * DeviceRecord)) : Z :=
  foldr (λ e acc, percent e.2 + acc) 0 devices / Z.max (Z.of_nat (length devices)) 1.

Definition is_donor (t : ClusterTopology) (mean : Z) (d : DeviceRecord) : bool :=
  (u64_saturating_add mean (tolerance_percent (rebalance (tp_config t))) <? percent d) || needs_relief (device_level t d).
Definition is_recipient (t : ClusterTopology) (mean : Z) (d : DeviceRecord) : bool :=
  (u64_saturating_add (percent d) (tolerance_percent (rebalance (tp_config t))) <? mean) &&
  bool_decide (device_level t d = LevelNormal) && accepts_new_placements (d_state d).

Definition rebalance_request (p : PayloadPlacement) (source : Replica) (excluded : gset bytes) : ObjectPlacementRequest :=
  let desired := Z.min (Z.of_nat (length (pl_replicas p))) 255 in
  {| rq_object_id := pl_object_id p; rq_size_hint := Some (pl_size p); rq_desired_replicas := desired;
     rq_required_acknowledgements := 1; rq_storage_class := pl_storage_class p; rq_preferred_node := None;
     rq_existing_nodes := ∅; rq_excluded_nodes := ∅;
     rq_existing_targets := list_to_set (target <$> List.filter (λ r, negb (bool_decide (r_device_id r = r_device_id source))) (pl_replicas p));
     rq_excluded_devices := excluded; rq_policy := None |}.

Fixpoint plan_moves (t : ClusterTopology) (policy : PlacementPolicy) (devices donors recipients : gset bytes)
    (maximum fair_share : nat) (placements : list PayloadPlacement) (arrivals : gmap bytes nat) (moves : list RebalanceMove)
    : list RebalanceMove :=
  match placements with
  | [] => moves
  | p :: rest =>
      if bool_decide (maximum <= length moves)%nat then moves
      else
        let skip := plan_moves t policy devices donors recipients maximum fair_share rest arrivals moves in
        match find (λ r, bool_decide (r_device_id r ∈ donors)) (pl_replicas p) with
        | None => skip
        | Some source =>
            if negb (usable_as_source (r_state source)) then skip
            else
              let excluded := filter (λ id, id = r_device_id source ∨ id ∉ recipients ∨
                                            (fair_share <= default 0 (arrivals !! id))%nat) devices in
              match policy (rebalance_request p source excluded) t with
              | Err _ => skip
              | Ok plan =>
                  match pp_targets plan with
                  | [] => skip
                  | x :: _ =>
                      plan_moves t policy devices donors recipients maximum fair_share rest
                        (<[pt_device_id x := S (default 0%nat (arrivals !! pt_device_id x))]> arrivals)
                        (moves ++ [{| mv_object_id := pl_object_id p; mv_source_node := r_node_id source;
                                      mv_source_device := r_device_id source; mv_target_node := pt_node_id x;
                                      mv_target_device := pt_device_id x; mv_size := pl_size p |}])
                  end
              end
        end
  end.

Definition div_ceil (a b : nat) : nat := Nat.div (a + (b - 1)) b.
Definition plan_rebalance (t : ClusterTopology) (placements : list PayloadPlacement) (policy : PlacementPolicy) (maximum : nat)
    : list RebalanceMove :=
  if bool_decide (maximum = 0)%nat then []
  else
    let devices := participating t in
    if bool_decide (length devices < 2)%nat then []
    else
      let mean := mean_percent devices in
      let donors := list_to_set (C := gset bytes) (d_id <$> List.filter (is_donor t mean) devices.*2) in
      let recipients := list_to_set (C := gset bytes) (d_id <$> List.filter (is_recipient t mean) devices.*2) in
      if bool_decide (donors = ∅) || bool_decide (recipients = ∅) then []
      else
        let fair_share := Nat.max (div_ceil (length placements) (Nat.max (size recipients) 1)) 1 in
        plan_moves t policy (list_to_set (d_id <$> devices.*2)) donors recipients maximum fair_share placements ∅ [].

(** ** Removing a node ([rebalance.rs]) *)

Record DecommissionSafety := {
  ds_node_id : bytes; ds_safe : bool; ds_at_risk_payloads : Z; ds_unavailable_payloads : Z; ds_replicas_remaining : Z;
  ds_bytes_remaining : Z; ds_reason : bytes }.

Record SafetyCounts := { sc_at_risk : Z; sc_unavailable : Z; sc_replicas : Z; sc_bytes : Z }.
Definition safety_step (t : ClusterTopology) (node_id : bytes) (needed : Z) (acc : SafetyCounts) (p : PayloadPlacement) : SafetyCounts :=
  match replica p node_id with
  | None => acc
  | Some r =>
      let durability := durability t p in
      let remaining := if durable (r_state r) && contributes_durability t node_id
                       then saturating_sub (healthy durability) 1 else healthy durability in
      {| sc_replicas := u64_saturating_add (sc_replicas acc) 1;
         sc_bytes := u64_saturating_add (sc_bytes acc) (r_size r);
         sc_unavailable := if remaining =? 0 then u64_saturating_add (sc_unavailable acc) 1 else sc_unavailable acc;
         sc_at_risk := if remaining =? 0 then sc_at_risk acc
                       else if remaining <? Z.min needed (desired durability) then u64_saturating_add (sc_at_risk acc) 1
                       else sc_at_risk acc |}
  end.
Definition safety_counts (t : ClusterTopology) (node_id : bytes) (placements : list PayloadPlacement) : SafetyCounts :=
  foldl (safety_step t node_id (required_acknowledgements (tp_config t)))
    {| sc_at_risk := 0; sc_unavailable := 0; sc_replicas := 0; sc_bytes := 0 |} placements.

Section Removal.
Context `{UuidCrate}.

Definition safety_evaluate (t : ClusterTopology) (node_id : bytes) (placements : list PayloadPlacement) : DecommissionSafety :=
  let needed := required_acknowledgements (tp_config t) in
  let c := safety_counts t node_id placements in
  let safe := (sc_at_risk c =? 0) && (sc_unavailable c =? 0) in
  {| ds_node_id := node_id; ds_safe := safe; ds_at_risk_payloads := sc_at_risk c; ds_unavailable_payloads := sc_unavailable c;
     ds_replicas_remaining := sc_replicas c; ds_bytes_remaining := sc_bytes c;
     ds_reason :=
       if safe then
         if sc_replicas c =? 0
         then text "node " ++ uuid_to_string node_id ++ text " holds no replicas and can be removed"
         else text "removing node " ++ uuid_to_string node_id ++
              text " keeps every payload at or above the required durability of " ++ number needed ++ text " replica(s)"
       else number (sc_unavailable c) ++ text " object version(s) would become unreadable and " ++ number (sc_at_risk c) ++
            text " would fall below the required durability of " ++ number needed ++ text " replica(s)" |}.
End Removal.

(** ** Failure detection ([health.rs]) *)

Record HealthTransition := { ht_state : NodeState; ht_reason : bytes }.

Definition transition_to (n : NodeRecord) (state : NodeState) (reason : bytes) : option HealthTransition :=
  if bool_decide (n_state n = state) then None
  else if negb (node_can_transition (n_state n) state) then None
  else Some {| ht_state := state; ht_reason := reason |}.

(** [seconds]: a [TimeDelta], zero when it does not fit. *)
Definition seconds (value : Z) : Z :=
  let value := if value <? 2 ^ 63 then value else 2 ^ 63 - 1 in
  (if value <=? MAX_SECONDS then value else 0) * 10 ^ 9.

Definition silence_reason (silence timeout : Z) (name : string) : bytes :=
  text "no heartbeat for " ++ number (Z.max (Z.quot silence (10 ^ 9)) 0) ++ text "s, exceeding the " ++ number timeout ++
  text ("s " +:+ name +:+ " timeout").

Definition evaluate_node (n : NodeRecord) (policy : FailureDetectionPolicy) (now : Z) : option HealthTransition :=
  if is_administrative (n_state n) then None
  else
    let last_seen := default (n_joined_at n) (n_last_heartbeat_at n) in
    let silence := now - last_seen in
    if seconds (offline_timeout_seconds policy) <=? silence
    then transition_to n Offline (silence_reason silence (offline_timeout_seconds policy) "offline")
    else if seconds (suspect_timeout_seconds policy) <=? silence
    then if bool_decide (n_state n = Unreachable) then None
         else transition_to n Suspect (silence_reason silence (suspect_timeout_seconds policy) "suspect")
    else transition_to n NodeHealthy (text "heartbeats are current").

Inductive ClusterHealth := ClusterHealthy | ClusterDegraded | ClusterCritical | ClusterUnavailable.
#[export] Instance ClusterHealth_eq_dec : EqDecision ClusterHealth.
Proof. solve_decision. Defined.
Definition severity (h : ClusterHealth) : Z :=
  match h with ClusterHealthy => 0 | ClusterDegraded => 1 | ClusterCritical => 2 | ClusterUnavailable => 3 end.
Definition worst (a b : ClusterHealth) : ClusterHealth := if severity a <=? severity b then b else a.

Record QuorumStatus := {
  qs_members : Z; qs_healthy_members : option Z; qs_quorum : Z; qs_leader : option bytes; qs_writable : bool;
  qs_readable : bool; qs_health : ClusterHealth; qs_fault_tolerant : bool; qs_notes : list bytes }.

Definition quorum_writable (members : Z) (healthy_members : option Z) (leader : option bytes) : bool :=
  match healthy_members with
  | Some healthy => bool_decide (is_Some leader) && (members / 2 + 1 <=? healthy) && (0 <? members)
  | None => bool_decide (is_Some leader) && (0 <? members)
  end.
Definition quorum_evaluate (members : Z) (healthy_members : option Z) (leader : option bytes) : QuorumStatus :=
  let quorum := members / 2 + 1 in
  let writable := quorum_writable members healthy_members leader in
  let fault_tolerant := 3 <=? members in
  let '(health, notes) :=
    if members =? 0 then (ClusterUnavailable, [text "no metadata members are registered"])
    else if negb writable then
      (ClusterUnavailable,
       [match healthy_members with
        | Some healthy =>
            text "metadata quorum lost: " ++ number healthy ++ text " of " ++ number members ++ text " members reachable, " ++
            number quorum ++ text " required; metadata operations are read-only or unavailable"
        | None => text "metadata quorum lost: no leader is known to this member; metadata operations are read-only or unavailable"
        end])
    else if from_option (λ healthy, healthy <? members) false healthy_members then
      (ClusterDegraded,
       [text "metadata quorum degraded: " ++ number (default 0 healthy_members) ++ text " of " ++ number members ++
        text " members reachable"])
    else
      (ClusterHealthy,
       if bool_decide (healthy_members = None)
       then [text "peer reachability is only observable on the leader; this member reports the quorum implied by the leader it can see"]
       else []) in
  let notes := if negb fault_tolerant && (0 <? members)
               then notes ++ [number members ++ text " metadata member(s) configured: at least 3 are required to survive the loss of one member"]
               else notes in
  {| qs_members := members; qs_healthy_members := healthy_members; qs_quorum := quorum; qs_leader := leader;
     qs_writable := writable; qs_readable := 0 <? members; qs_health := health; qs_fault_tolerant := fault_tolerant;
     qs_notes := notes |}.

Record DataHealth := {
  dh_nodes : Z; dh_healthy_nodes : Z; dh_unavailable_nodes : Z; dh_under_replicated_payloads : Z;
  dh_unavailable_payloads : Z; dh_writable : bool; dh_health : ClusterHealth; dh_notes : list bytes }.

Definition count_u32 {A} (l : list A) : Z := Z.min (Z.of_nat (length l)) u32_max.
(** One finding: a note and the least severe classification it allows. *)
Definition note (when : bool) (text : bytes) (level : ClusterHealth) (acc : ClusterHealth * list bytes) : ClusterHealth * list bytes :=
  if when then (worst acc.1 level, acc.2 ++ [text]) else acc.

Definition data_evaluate (t : ClusterTopology) (under_replicated_payloads unavailable_payloads : Z) : DataHealth :=
  let nodes := count_u32 (members t) in
  let healthy_nodes := count_u32 (List.filter (λ n, bool_decide (n_state n = NodeHealthy)) (tp_nodes t)) in
  let accepting := count_u32 (placeable t) in
  let unavailable_nodes := count_u32 (List.filter (λ n, negb (node_state_contributes (n_state n))) (members t)) in
  let needed := required_acknowledgements (tp_config t) in
  let writable := needed <=? accepting in
  let factor := replication_factor (tp_config t) in
  let acc := (ClusterHealthy, []) in
  let acc := note (negb writable)
    (text "writes are refused: " ++ number accepting ++ text " node(s) can accept replicas, " ++ number needed ++
     text " acknowledgement(s) are required") ClusterCritical acc in
  let acc := note (0 <? unavailable_payloads)
    (number unavailable_payloads ++ text " payload(s) have no healthy replica and cannot be read") ClusterCritical acc in
  let acc := note (0 <? under_replicated_payloads)
    (number under_replicated_payloads ++ text " payload(s) are under-replicated and queued for repair") ClusterDegraded acc in
  let acc := note (healthy_nodes <? nodes)
    (number (saturating_sub nodes healthy_nodes) ++ text " of " ++ number nodes ++ text " node(s) are not healthy") ClusterDegraded acc in
  let acc := note ((accepting <? factor) && writable)
    (text "only " ++ number accepting ++
     text " node(s) can accept replicas: new writes land under-replicated at the configured factor of " ++ number factor)
    ClusterDegraded acc in
  {| dh_nodes := nodes; dh_healthy_nodes := healthy_nodes; dh_unavailable_nodes := unavailable_nodes;
     dh_under_replicated_payloads := under_replicated_payloads; dh_unavailable_payloads := unavailable_payloads;
     dh_writable := writable; dh_health := acc.1; dh_notes := acc.2 |}.

End Balance.
