(* ===== verification/BalanceTheorems.v ===== *)
(** * What rebalancing, removal checks and failure detection promise *)

From S2P Require Import Prelude Bytes Tables Digest ObjectLock CoreTypes Keys Topology Replicas Placement PlacementTheorems Balance.
Import CoreTypes Topology Replicas Placement PlacementTheorems Balance.

Module BalanceTheorems.

(** ** Removal *)

Definition counts (t : ClusterTopology) (r : Replica) : bool :=
  durable (r_state r) && device_contributes_durability t (r_node_id r) (r_device_id r).
Definition healthy_copies (t : ClusterTopology) (l : list Replica) : nat := length (List.filter (counts t) l).

Lemma healthy_count t p : healthy (durability t p) = Z.min (Z.of_nat (healthy_copies t (pl_replicas p))) u32_max.
Proof.
  unfold durability, healthy_copies. match goal with |- healthy (foldl _ ?d _) = _ => assert (H0 : healthy d = 0) by done; revert H0; generalize d end.
  enough (Hgen : ∀ l d, 0 ≤ healthy d ≤ u32_max →
    healthy (foldl (durability_step t) d l) = Z.min (healthy d + Z.of_nat (length (List.filter (counts t) l))) u32_max).
  { intros d Hd. rewrite Hgen, Hd; [f_equal; lia|rewrite Hd; unfold u32_max; lia]. }
  induction l as [|r l IH]; intros d Hd; cbn [foldl List.filter length]; [lia|]. rewrite IH; [|cbn; unfold u32_saturating_add, counts in *].
  - cbn [durability_step healthy]. unfold counts at 2. destruct (durable (r_state r) && _); cbn [length]; unfold u32_saturating_add; lia.
  - destruct (durable (r_state r) && _); lia.
Qed.

Lemma desired_kept t p : desired (durability t p) = pl_desired_replicas p.
Proof.
  unfold durability. match goal with |- desired (foldl _ ?d _) = _ => assert (H0 : desired d = pl_desired_replicas p) by done; revert H0; generalize d end.
  induction (pl_replicas p) as [|x l IH]; intros d Hd; [done|]. cbn [foldl]. apply IH. exact Hd.
Qed.

(** The placement once everything on the node is gone. *)
Definition without_node (node_id : bytes) (p : PayloadPlacement) : PayloadPlacement :=
  with_replicas (List.filter (λ r, negb (on_node node_id r)) (pl_replicas p)) (pl_updated_at p) p.

Definition sole (node_id : bytes) (p : PayloadPlacement) : Prop :=
  (length (List.filter (on_node node_id) (pl_replicas p)) ≤ 1)%nat.

Lemma device_contributes_node t n d : device_contributes_durability t n d = true → contributes_durability t n = true.
Proof. unfold device_contributes_durability, contributes_durability. destruct (topology_node t n); [|done]. intros Hx. by bool_facts. Qed.

Lemma copies_left t node_id p r :
  sole node_id p → replica p node_id = Some r →
  Z.of_nat (healthy_copies t (pl_replicas p)) - (if durable (r_state r) && contributes_durability t node_id then 1 else 0) ≤
  Z.of_nat (healthy_copies t (pl_replicas (without_node node_id p))).
Proof.
  unfold sole, replica, without_node, healthy_copies. cbn [pl_replicas with_replicas]. induction (pl_replicas p) as [|x l IH]; [done|].
  cbn [find List.filter]. destruct (on_node node_id x) eqn:Hx; cbn [length negb].
  - intros Hone [= ->]. assert (Hnone : List.filter (λ r, negb (on_node node_id r)) l = l).
    { assert (Hz : List.filter (on_node node_id) l = []) by (destruct (List.filter _ l); [done|cbn in Hone; lia]).
      clear -Hz. induction l as [|y l IH]; [done|]. cbn in *. destruct (on_node node_id y); [done|]. cbn. by rewrite IH. }
    rewrite Hnone. unfold counts at 1. destruct (durable (r_state r)); cbn; [|lia].
    assert (Hn : r_node_id r = node_id) by (unfold on_node in Hx; by bool_facts). rewrite Hn.
    destruct (device_contributes_durability t node_id (r_device_id r)) eqn:Hd; cbn; [|destruct (contributes_durability t node_id); lia].
    apply device_contributes_node in Hd. rewrite Hd. lia.
  - intros Hone Hf. specialize (IH Hone Hf). cbn [List.filter]. destruct (counts t x); cbn [length]; lia.
Qed.

(** What one payload contributes to the verdict. *)
Definition endangered (t : ClusterTopology) (node_id : bytes) (p : PayloadPlacement) : bool :=
  match replica p node_id with
  | Some r =>
      let remaining := if durable (r_state r) && contributes_durability t node_id
                       then saturating_sub (healthy (durability t p)) 1 else healthy (durability t p) in
      (remaining =? 0) || (remaining <? Z.min (required_acknowledgements (tp_config t)) (desired (durability t p)))
  | None => false
  end.

Lemma safety_counts_safe t node_id l acc :
  0 ≤ sc_at_risk acc → 0 ≤ sc_unavailable acc →
  let c := foldl (safety_step t node_id (required_acknowledgements (tp_config t))) acc l in
  (sc_at_risk c =? 0) && (sc_unavailable c =? 0) = true ↔
  sc_at_risk acc = 0 ∧ sc_unavailable acc = 0 ∧ ∀ p, p ∈ l → endangered t node_id p = false.
Proof.
  revert acc. induction l as [|p l IH]; intros acc Ha Hu; cbn [foldl].
  { split; [intros Hs; bool_facts; split_and!; [lia|lia|set_solver]|intros (-> & -> & _); done]. }
  assert (Hstep : 0 ≤ sc_at_risk (safety_step t node_id (required_acknowledgements (tp_config t)) acc p) ∧
    0 ≤ sc_unavailable (safety_step t node_id (required_acknowledgements (tp_config t)) acc p) ∧
    (sc_at_risk (safety_step t node_id (required_acknowledgements (tp_config t)) acc p) = 0 ∧
     sc_unavailable (safety_step t node_id (required_acknowledgements (tp_config t)) acc p) = 0 ↔
     sc_at_risk acc = 0 ∧ sc_unavailable acc = 0 ∧ endangered t node_id p = false)).
  { unfold safety_step, endangered. destruct (replica p node_id) as [r|]; [|naive_solver]. cbn [sc_at_risk sc_unavailable].
    set (rem := if _ && _ then _ else _). unfold u64_saturating_add, u64_max. clearbody rem.
    destruct (rem =? 0); cbn [orb]; [split_and!; [lia|lia|split; [lia|naive_solver]]|].
    destruct (rem <? _); split_and!; try lia; split; try lia; naive_solver. }
  destruct Hstep as (Ha' & Hu' & Hz). rewrite (IH _ Ha' Hu'). setoid_rewrite elem_of_cons. naive_solver.
Qed.

(** A removal judged safe is safe. If the check passes, then for every payload with
    one replica on the node the copies left after the node is gone are at least one
    and at least the write policy's requirement, or the desired count where that is
    less. *)
Theorem removal_check_sound `{UuidCrate} t node_id placements p r :
  ds_safe (safety_evaluate t node_id placements) = true → p ∈ placements → replica p node_id = Some r → sole node_id p →
  1 ≤ healthy (durability t (without_node node_id p)) ∧
  Z.min (required_acknowledgements (tp_config t)) (pl_desired_replicas p) ≤ healthy (durability t (without_node node_id p)).
Proof.
  intros Hsafe Hp Hr Hsole. unfold safety_evaluate in Hsafe. cbn [ds_safe] in Hsafe. unfold safety_counts in Hsafe.
  apply safety_counts_safe in Hsafe as (_ & _ & Hall); [|done|done]. specialize (Hall _ Hp). unfold endangered in Hall. rewrite Hr in Hall.
  pose proof (copies_left t node_id p r Hsole Hr) as Hleft. rewrite !healthy_count in *.
  rewrite desired_kept in Hall. bool_facts. unfold saturating_sub, u32_max in *. destruct (durable (r_state r) && _); lia.
Qed.

(** ** Failure detection *)

Definition silence (n : NodeRecord) (now : Z) : Z := now - default (n_joined_at n) (n_last_heartbeat_at n).

(** Failure detection proposes only what the node's life allows and settles. A
    proposal is never about a node in an operator's hands, is a legal change of state,
    matches the time the node has been silent, and once applied nothing more is
    proposed for that moment. *)
Theorem detection_settles n policy now h :
  evaluate_node n policy now = Some h →
  is_administrative (n_state n) = false ∧
  match ht_state h with
  | Offline => seconds (offline_timeout_seconds policy) ≤ silence n now
  | Suspect => seconds (suspect_timeout_seconds policy) ≤ silence n now < seconds (offline_timeout_seconds policy)
  | NodeHealthy => silence n now < seconds (suspect_timeout_seconds policy) ∧ silence n now < seconds (offline_timeout_seconds policy)
  | _ => False
  end ∧
  ∃ n', node_transition (ht_state h) (Some (ht_reason h)) now n = Ok (true, n') ∧ evaluate_node n' policy now = None.
Proof.
  unfold evaluate_node, silence. destruct (is_administrative (n_state n)) eqn:Hadm; [done|]. cbv zeta.
  destruct (seconds (offline_timeout_seconds policy) <=? _) eqn:Hoff; [|destruct (seconds (suspect_timeout_seconds policy) <=? _) eqn:Hsus];
    [|case_bool_decide; [done|]|]; unfold transition_to, node_transition; case_bool_decide; try done;
    destruct (node_can_transition (n_state n) _) eqn:Hcan; cbn [negb]; try done; intros [= <-]; cbn [ht_state ht_reason];
    (split; [done|]); (split; [lia|]); eexists; (split; [rewrite bool_decide_eq_false_2 by done; cbn; by rewrite Hcan|]);
    cbn; rewrite ?Hoff, ?Hsus; done.
Qed.

(** ** Rebalancing *)

Lemma participating_elem t n d : (n, d) ∈ participating t ↔ (n, d) ∈ all_devices t ∧ n_state n = NodeHealthy.
Proof.
  unfold participating, all_devices. rewrite !list_elem_of_bind. split.
  - intros (m & (d' & [= -> ->] & Hd)%list_elem_of_fmap & Hm%list_elem_of_In). apply filter_In in Hm as [Hm Hs]. bool_facts.
    split; [|done]. exists m. split; [by apply list_elem_of_fmap_2|by apply list_elem_of_In].
  - intros [(m & (d' & [= -> ->] & Hd)%list_elem_of_fmap & Hm) Hs]. exists m. split; [by apply list_elem_of_fmap_2|].
    apply list_elem_of_In, filter_In. split; [by apply list_elem_of_In|by apply bool_decide_eq_true].
Qed.

Lemma distinct_entry t n d n' d' :
  devices_distinct t → (n, d) ∈ all_devices t → (n', d') ∈ all_devices t → d_id d = d_id d' → n = n' ∧ d = d'.
Proof.
  unfold devices_distinct. intros Hd [i Hi]%list_elem_of_lookup [j Hj]%list_elem_of_lookup Heq.
  assert (i = j) as ->; [|by simplify_eq]. eapply NoDup_lookup; [exact Hd|..]; rewrite list_lookup_fmap; [by rewrite Hi|].
  rewrite Hj. cbn. congruence.
Qed.

(** Membership in the sets of donors and recipients. *)
Lemma elem_of_side (q : DeviceRecord → bool) t id :
  id ∈ list_to_set (C := gset bytes) (d_id <$> List.filter q (participating t).*2) ↔
  ∃ n d, (n, d) ∈ participating t ∧ d_id d = id ∧ q d = true.
Proof.
  rewrite elem_of_list_to_set, list_elem_of_fmap. split.
  - intros (d & -> & Hd%list_elem_of_In). apply filter_In in Hd as [Hd Hq]. apply list_elem_of_In, list_elem_of_fmap in Hd as ([n d'] & -> & Hin).
    eauto.
  - intros (n & d & Hin & <- & Hq). exists d. split; [done|]. apply list_elem_of_In, filter_In. split; [|done].
    apply list_elem_of_In, list_elem_of_fmap. by exists (n, d).
Qed.

Section Moves.
Context `{UuidCrate} `{HashFunction} `{RaceScore} (local : option bytes) (t : ClusterTopology) (mean : Z).

Definition good_move (placements : list PayloadPlacement) (m : RebalanceMove) : Prop := ∃ p r n d,
    p ∈ placements ∧ mv_object_id m = pl_object_id p ∧ mv_size m = pl_size p ∧
    r ∈ pl_replicas p ∧ mv_source_node m = r_node_id r ∧ mv_source_device m = r_device_id r ∧ usable_as_source (r_state r) = true ∧
    (∃ n' d', (n', d') ∈ participating t ∧ d_id d' = r_device_id r ∧ is_donor t mean d' = true) ∧
    (n, d) ∈ participating t ∧ mv_target_node m = n_node_id n ∧ mv_target_device m = d_id d ∧ is_recipient t mean d = true ∧
    (mv_target_node m, mv_target_device m) ∉ target <$> pl_replicas p.

Let devices : gset bytes := list_to_set (d_id <$> (participating t).*2).
Let donors : gset bytes := list_to_set (d_id <$> List.filter (is_donor t mean) (participating t).*2).
Let recipients : gset bytes := list_to_set (d_id <$> List.filter (is_recipient t mean) (participating t).*2).

(** The first target of a plan for the request of a move. *)
Lemma move_target p source excluded plan x rest :
  devices_distinct t → place local (rebalance_request p source excluded) t = Ok plan → pp_targets plan = x :: rest →
  (∀ id, id ∈ devices → id = r_device_id source ∨ id ∉ recipients → id ∈ excluded) →
  ∃ n d, (n, d) ∈ participating t ∧ pt_node_id x = n_node_id n ∧ pt_device_id x = d_id d ∧ is_recipient t mean d = true ∧
    (pt_node_id x, pt_device_id x) ∉ target <$> pl_replicas p.
Proof.
  intros Hd Hplan Hx Hex. destruct (place_sound _ _ _ _ Hd Hplan) as (Hsuits & _).
  destruct (Hsuits x) as (n & d & Hin & Hn & Hdev & _ & Hstate & _ & _ & _ & _ & _ & _ & Hnex & _ & Hfree); [rewrite Hx; set_solver|].
  assert (Hpart : (n, d) ∈ participating t) by by apply participating_elem. exists n, d. split_and!; try done.
  - assert (Hrec : d_id d ∈ recipients).
    { destruct (decide (d_id d ∈ recipients)) as [|Hno]; [done|]. exfalso. apply Hnex. apply Hex; [|by right].
      unfold devices. apply elem_of_list_to_set, list_elem_of_fmap. exists d. split; [done|]. apply list_elem_of_fmap. by exists (n, d). }
    apply elem_of_side in Hrec as (n' & d' & Hin' & Heq & Hq). apply participating_elem in Hin' as [Hin' _].
    by destruct (distinct_entry _ _ _ _ _ Hd Hin Hin' (eq_sym Heq)) as [_ ->].
  - rewrite Hn, Hdev. intros (r & [= En Ed] & Hr)%list_elem_of_fmap. apply Hfree. cbn. apply elem_of_list_to_set, list_elem_of_fmap.
    exists r. split; [by rewrite En, Ed|]. apply list_elem_of_In, filter_In. split; [by apply list_elem_of_In|].
    apply negb_true_iff, bool_decide_eq_false. intros Hsrc. apply Hnex. apply Hex; [|left; congruence].
    unfold devices. apply elem_of_list_to_set, list_elem_of_fmap. exists d. split; [done|]. apply list_elem_of_fmap. by exists (n, d).
Qed.

Lemma plan_moves_good maximum fair_share all placements arrivals moves :
  devices_distinct t → placements ⊆ all → (length moves ≤ maximum)%nat → Forall (good_move all) moves →
  let planned := plan_moves t (place local) devices donors recipients maximum fair_share placements arrivals moves in
  (length planned ≤ maximum)%nat ∧ Forall (good_move all) planned.
Proof.
  intros Hd. revert arrivals moves. induction placements as [|p placements IH]; intros arrivals moves Hall Hlen Hgood; cbn [plan_moves]; [done|].
  case_bool_decide as Hfull; [done|]. assert (Hskip := IH arrivals moves ltac:(set_solver) Hlen Hgood). cbv zeta in Hskip.
  destruct (find _ (pl_replicas p)) as [source|] eqn:Hsource; [|done]. apply find_some in Hsource as [Hsrc Hdonor]. bool_facts.
  destruct (usable_as_source (r_state source)) eqn:Hus; cbn [negb]; [|done].
  destruct (place _ _ _) as [plan|] eqn:Hplan; [|done]. destruct (pp_targets plan) as [|x rest] eqn:Hx; [done|].
  apply IH; [set_solver|rewrite length_app; cbn; lia|]. apply Forall_app. split; [done|]. constructor; [|done].
  destruct (move_target _ _ _ _ _ _ Hd Hplan Hx) as (n & d & Hin & Hn & Hdev & Hrec & Hfree).
  { intros id Hid Hor. apply elem_of_filter. naive_solver. }
  exists p, source, n, d. cbn. split_and!; try done; [set_solver|by apply list_elem_of_In|]. by apply elem_of_side.
Qed.
End Moves.

(** A rebalancing plan moves what should move to where it fits. There are at most
    the allowed number of moves, and each takes a usable replica from a device above
    the mean or short of space to a device below it, on a healthy node, active and
    under the first watermark, that holds no replica of the payload. *)
Theorem rebalance_moves_sound `{UuidCrate} `{HashFunction} `{RaceScore} local t placements maximum :
  devices_distinct t →
  let mean := mean_percent (participating t) in
  let moves := plan_rebalance t placements (place local) maximum in
  (length moves ≤ maximum)%nat ∧
  ∀ m, m ∈ moves → ∃ p r n d,
    p ∈ placements ∧ mv_object_id m = pl_object_id p ∧ mv_size m = pl_size p ∧
    r ∈ pl_replicas p ∧ mv_source_node m = r_node_id r ∧ mv_source_device m = r_device_id r ∧ usable_as_source (r_state r) = true ∧
    (∃ n' d', (n', d') ∈ participating t ∧ d_id d' = r_device_id r ∧ is_donor t mean d' = true) ∧
    (n, d) ∈ participating t ∧ mv_target_node m = n_node_id n ∧ mv_target_device m = d_id d ∧ is_recipient t mean d = true ∧
    (mv_target_node m, mv_target_device m) ∉ target <$> pl_replicas p.
Proof.
  intros Hd mean moves. unfold moves, plan_rebalance. case_bool_decide; [split; [cbn; lia|set_solver]|].
  case_bool_decide; [split; [cbn; lia|set_solver]|]. destruct (_ || _); [split; [cbn; lia|set_solver]|].
  destruct (plan_moves_good local t mean maximum
    (Nat.max (div_ceil (length placements) (Nat.max (size (list_to_set (C := gset bytes) (d_id <$> List.filter (is_recipient t mean) (participating t).*2))) 1)) 1)
    placements placements ∅ []) as [Hlen Hgood]; [done|done|cbn; lia|constructor|]. split; [exact Hlen|].
  intros m Hm. rewrite Forall_forall in Hgood. exact (Hgood m Hm).
Qed.

(** ** Examples *)

#[local] Existing Instance sha256_function.
#[local] Instance balance_uuids : UuidCrate := {| new_v5 := λ a b, a ++ b; uuid_to_string := λ id, id |}.
#[local] Instance balance_race : RaceScore := {| race_score := λ sample weight, (2 ^ 64 - sample) * 2 ^ 64 / weight |}.

Definition drive (node n free : Z) : DeviceRecord :=
  {| d_id := [n]; d_node_id := [node]; d_current_path := None; d_stable_hardware_identifier := None; d_kind := Ssd;
     d_storage_class := DEFAULT_CLASS;
     d_capacity := {| raw_bytes := 10 ^ 12; usable_bytes := 10 ^ 12; allocated_bytes := 10 ^ 12 - free; reserved_bytes := 0; device_available_bytes := free |};
     d_configured_weight := 1000; d_health := HealthHealthy; d_state := Active; d_hardware := hardware_default; d_movement_concurrency := None |}.
Definition pair_of_nodes : ClusterTopology :=
  {| tp_cluster_id := [0]; tp_config := config_default; tp_epoch := 1;
     tp_nodes := [member 1 "a" [drive 1 11 (10 ^ 11); drive 1 12 (9 * 10 ^ 11)]; member 2 "b" [drive 2 21 (9 * 10 ^ 11)]] |}.
Definition held_on (targets : list (Z * Z)) : PayloadPlacement :=
  {| pl_object_id := [77]; pl_size := 100; pl_checksum := {| checksum_algorithm := Sha256Checksum; checksum_digest := [] |};
     pl_desired_replicas := 3; pl_storage_class := DEFAULT_CLASS; pl_placement_epoch := 1;
     pl_replicas := (λ '(n, d), {| r_node_id := [n]; r_device_id := [d]; r_state := Healthy; r_location := []; r_size := 100;
       r_checksum := None; r_created_at := 0; r_verified_at := None; r_generation := 1 |}) <$> targets;
     pl_created_at := 0; pl_updated_at := 0 |}.

Lemma rebalance_moves_sound_witness :
  (λ m, (mv_source_device m, mv_target_device m)) <$> plan_rebalance pair_of_nodes [held_on [(1, 11)]] (place None) 4 ≠ [] ∧
  (length (plan_rebalance pair_of_nodes [held_on [(1%Z, 11%Z)]] (place None) 4) ≤ 4)%nat.
Proof.
  split; [vm_compute; discriminate|]. apply (rebalance_moves_sound None pair_of_nodes [held_on [(1, 11)]] 4).
  apply (bool_decide_unpack _). vm_compute. exact I.
Defined.

Lemma detection_settles_witness :
  ∃ h, evaluate_node (member 1 "a" []) (failure_detection config_default) (60 * 10 ^ 9) = Some h ∧ ht_state h = Suspect ∧
    is_administrative (n_state (member 1 "a" [])) = false.
Proof.
  eexists. split; [vm_compute; reflexivity|]. split; [reflexivity|].
  refine (proj1 (detection_settles _ (failure_detection config_default) (60 * 10 ^ 9) _ _)). vm_compute. reflexivity.
Defined.

Lemma removal_check_sound_witness :
  ds_safe (safety_evaluate pair_of_nodes [2] [held_on [(1, 11); (1, 12); (2, 21)]]) = true ∧
  2 ≤ healthy (durability pair_of_nodes (without_node [2] (held_on [(1, 11); (1, 12); (2, 21)]))).
Proof.
  assert (Hsafe : ds_safe (safety_evaluate pair_of_nodes [2] [held_on [(1, 11); (1, 12); (2, 21)]]) = true) by (vm_compute; reflexivity).
  split; [exact Hsafe|]. eassert (Hr : replica (held_on [(1, 11); (1, 12); (2, 21)]) [2] = Some _) by (vm_compute; reflexivity).
  refine (Z.le_trans _ _ _ _ (proj2 (removal_check_sound pair_of_nodes [2] _ _ _ Hsafe _ Hr _))).
  - vm_compute. discriminate.
  - apply list_elem_of_singleton. reflexivity.
  - unfold sole. vm_compute. apply le_n.
Defined.

(** The check looks at one replica of the node only: removing a node with two of the
    three copies is judged safe and leaves a single one where two are required. *)
Theorem removal_check_misses_second_replica :
  let p := held_on [(1, 11); (1, 12); (2, 21)] in
  ds_safe (safety_evaluate pair_of_nodes [1] [p]) = true ∧
  required_acknowledgements (tp_config pair_of_nodes) = 2 ∧
  healthy (durability pair_of_nodes (without_node [1] p)) = 1.
Proof. vm_compute. done. Qed.

End BalanceTheorems.
