(* ===== verification/CatalogTypes.v ===== *)
(** * The types of the catalog's tables

    The tables of [crates/record-store-metadata/src/schema.rs] are declared with
    integer and string types; the model keeps their rows as integers and bytes. Every
    command, whether it succeeds or fails, leaves rows of the declared types behind:
    counters within [u64], event numbers within [u64], the clock mark within [i64] and
    bucket names that are UTF-8. *)

From S2P Require Import Prelude Bytes Text Tables ObjectLock CoreTypes Keys Catalog Commands Topology Replicas ClusterCatalog.
Import Text ObjectLock CoreTypes Keys Catalog Commands.

Module CatalogTypes.

Record catalog_typed (c : Catalog) : Prop := {
  ct_buckets : map_Forall (λ _ b, utf8_valid (b_name b) = true) (BUCKETS c);
  ct_names : map_Forall (λ k _, utf8_valid k = true) (BUCKET_NAMES c);
  ct_events : map_Forall (λ k _, is_u64 k) (MUTATION_EVENTS c);
  ct_clock : map_Forall (λ k v, utf8_valid (bytes_of_string k) = true ∧ is_i64 v) (CLOCK c);
  ct_counters : map_Forall (λ k v, utf8_valid (bytes_of_string k) = true ∧ is_u64 v) (COUNTERS c) }.

(** The arguments of a command that reach those tables have their types. *)
Definition command_typed (cmd : MetadataCommand) : Prop :=
  match cmd with
  | CreateBucket b => utf8_valid (b_name b) = true
  | DeleteObjectVersion _ _ _ release | PutObjectLock _ _ _ _ release | ObserveClock release => is_i64 (micros (observed_at release))
  | _ => True
  end.
#[export] Instance command_typed_dec cmd : Decision (command_typed cmd).
Proof. destruct cmd; apply _. Defined.

Definition types_kept (c c' : Catalog) : Prop := catalog_typed c → catalog_typed c'.
#[export] Instance types_kept_preorder : PreOrder types_kept.
Proof. split; [intros c Hc; exact Hc|]. intros a b c Hab Hbc Ha. auto. Qed.

Lemma types_same c c' :
  BUCKETS c' = BUCKETS c → BUCKET_NAMES c' = BUCKET_NAMES c → MUTATION_EVENTS c' = MUTATION_EVENTS c →
  CLOCK c' = CLOCK c → COUNTERS c' = COUNTERS c → types_kept c c'.
Proof. intros HB HN HE HC HK []. split; [rewrite HB|rewrite HN|rewrite HE|rewrite HC|rewrite HK]; done. Qed.

(** Closes what remains of a frame after [keeps_steps]. *)
Ltac untyped := apply keeps_modify; intros ?; apply types_same; done.

Lemma bucket_write_types b id c :
  utf8_valid (b_name b) = true → types_kept c (upd_names <[b_name b := b]> (upd_buckets <[id := b]> c)).
Proof. intros Hb [HB HN HE HC HK]. split; cbn; [by apply map_Forall_insert_2|by apply map_Forall_insert_2|done..]. Qed.

(** Updating a bucket keeps its name. *)
Lemma update_bucket_types id update :
  (∀ b b', update b = Ok b' → b_name b' = b_name b) → keeps types_kept (update_bucket_tx id update).
Proof.
  intros Hname c r c' Hrun Hc. unfold update_bucket_tx, read_bucket, mbind, tx_bind, tx_gets, tx_some, tx_lift, tx_modify, mret, tx_ret in Hrun.
  destruct (BUCKETS c !! bucket_key id) as [b|] eqn:Hb; cbn in Hrun; [|by simplify_eq].
  destruct (update b) as [b'|e] eqn:Hu; simplify_eq; [|done]. apply bucket_write_types; [|done]. rewrite (Hname _ _ Hu).
  exact (ct_buckets _ Hc _ _ Hb).
Qed.

Lemma adjust_counter_types name delta : utf8_valid (bytes_of_string name) = true → keeps types_kept (adjust_counter name delta).
Proof.
  intros Hname c r c' Hrun [HB HN HE HC HK]. unfold adjust_counter, mbind, tx_bind, tx_gets, tx_some, tx_modify in Hrun.
  destruct (u64_checked _) as [v|] eqn:Hv; cbn in Hrun; simplify_eq; [|done]. apply u64_checked_Some in Hv as [-> Hv].
  split; cbn; try done. by apply map_Forall_insert_2.
Qed.

Lemma observe_clock_types release : is_i64 (micros (observed_at release)) → keeps types_kept (observe_clock release).
Proof.
  intros Hnow. unfold observe_clock. keeps_steps. all: apply keeps_modify; intros c [HB HN HE HC HK]; split; cbn; try done; by apply map_Forall_insert_2.
Qed.

Lemma prune_types through : keeps types_kept (prune_mutation_events_tx through).
Proof.
  unfold prune_mutation_events_tx. keeps_steps. apply keeps_modify. intros c [HB HN HE HC HK]. split; cbn; try done.
  generalize (MUTATION_EVENTS c) HE. clear HE. induction a as [|s doomed IH]; intros m Hm; [done|]. cbn. apply IH. by apply map_Forall_delete.
Qed.

Section Types.
Context `{UuidCrate}.

Lemma journal_event_types ty b k v sz at_ : keeps types_kept (journal_event ty b k v sz at_).
Proof.
  intros c r c' Hrun [HB HN HE HC HK]. unfold journal_event, mbind, tx_bind, tx_gets, tx_some, tx_modify in Hrun.
  destruct (u64_checked_add _ _) as [n|] eqn:Hn; cbn in Hrun; simplify_eq; [|done].
  unfold u64_checked_add in Hn. apply u64_checked_Some in Hn as [-> Hn].
  split; cbn; try done; apply map_Forall_insert_2; try done.
Qed.

(** The commands, down to the steps that touch a typed table and the writes of others. *)
Ltac unfold_steps :=
  unfold apply_command_tx, set_bucket_versioning_tx, set_bucket_object_lock_tx, set_bucket_quota_tx,
    delete_bucket_tx, put_object_tx, delete_object_tx, delete_by_versioning, remove_null_record, write_marker,
    delete_object_version_tx, promote_latest, uncount_version, uncount_current, put_object_lock_tx,
    create_multipart_upload_tx, put_multipart_part_tx, begin_multipart_completion_tx, remove_multipart_tx,
    put_lifecycle_rule_tx, delete_lifecycle_rule_tx, complete_cleanup_tx, bucket_name_of, enforce_deletable,
    assert_unlocked, read_bucket, read_bucket_usage, write_bucket_usage, insert_version, remove_version, take_null,
    set_null, clear_null, latest_version, publish_current, remove_current, current_version, list_parts_tx,
    has_multipart, queue_cleanup, read_object_lock, write_object_lock, remove_object_lock.

Ltac typed_step :=
  first [ by apply adjust_counter_types | apply journal_event_types | by apply observe_clock_types | untyped
        | apply update_bucket_types; intros ? ? ?; repeat case_match; by simplify_eq ].

Lemma create_bucket_types b : utf8_valid (b_name b) = true → keeps types_kept (create_bucket_tx b).
Proof.
  intros Hb. unfold create_bucket_tx, write_bucket_usage. keeps_steps; try typed_step;
    apply keeps_modify; intros c [HB HN HE HC HK]; split; cbn; try done; by apply map_Forall_insert_2.
Qed.

Lemma delete_bucket_types name at_ : keeps types_kept (delete_bucket_tx name at_).
Proof.
  unfold_steps. keeps_steps; try typed_step;
    apply keeps_modify; intros c [HB HN HE HC HK]; split; cbn; try done; by apply map_Forall_delete.
Qed.

Lemma remove_multipart_types id completing at_ : keeps types_kept (remove_multipart_tx id completing at_).
Proof. unfold_steps. keeps_steps; typed_step. Qed.

Lemma recover_multipart_types : keeps types_kept recover_multipart_completions_tx.
Proof.
  unfold recover_multipart_completions_tx. keeps_steps.
  match goal with |- keeps _ (recover_uploads ?l) => induction l as [|u l IH] end; cbn [recover_uploads]; keeps_steps.
  - unfold recover_upload. keeps_steps; first [apply remove_multipart_types|typed_step].
  - done.
Qed.

Lemma apply_command_types cmd : command_typed cmd → keeps types_kept (apply_command_tx cmd).
Proof.
  destruct cmd; cbn [apply_command_tx command_typed]; intros Hty;
    try (apply (keeps_bind types_kept); [by first [apply create_bucket_types|apply delete_bucket_types|apply prune_types|apply recover_multipart_types]|intros ?]);
    unfold_steps; keeps_steps; typed_step.
Qed.
End Types.

(** ** The cluster catalog *)

Definition cluster_typed (c : ClusterCatalog.ClusterCatalog) : Prop := map_Forall (λ _, is_u64) (ClusterCatalog.COUNTERS c).
Definition cluster_types_kept (c c' : ClusterCatalog.ClusterCatalog) : Prop := cluster_typed c → cluster_typed c'.
#[export] Instance cluster_types_kept_preorder : PreOrder cluster_types_kept.
Proof. split; [intros c Hc; exact Hc|]. intros a b c Hab Hbc Ha. auto. Qed.

Lemma set_counter_types key value : is_u64 value → keeps cluster_types_kept (ClusterCatalog.set_counter key value).
Proof. intros Hv. apply keeps_modify. intros c Hc. by apply map_Forall_insert_2. Qed.

Lemma cluster_adjust_types key delta : keeps cluster_types_kept (ClusterCatalog.adjust_counter key delta).
Proof. unfold ClusterCatalog.adjust_counter. keeps_steps. apply set_counter_types. unfold is_u64, u64_max. lia. Qed.

Lemma saturating_next a : is_u64 (u64_saturating_add (Z.max a 1) 1).
Proof. unfold u64_saturating_add, is_u64, u64_max. lia. Qed.

Lemma recount_u64 topology test placements : is_u64 (ClusterCatalog.recount topology test placements).
Proof.
  unfold ClusterCatalog.recount. assert (is_u64 0) as H0 by (unfold is_u64, u64_max; lia). revert H0. generalize 0.
  induction placements as [|p placements IH]; intros n Hn; [done|]. cbn. apply IH. case_match; [|done].
  unfold u64_saturating_add, is_u64, u64_max in *. lia.
Qed.

Ltac cluster_untyped := apply keeps_modify; intros ? ?; assumption.
Ltac cluster_typed_step :=
  first [ apply cluster_adjust_types | apply set_counter_types; first [apply saturating_next|apply recount_u64|unfold is_u64, u64_max; lia]
        | cluster_untyped ].

Ltac cluster_unfold :=
  unfold ClusterCatalog.initialize_cluster, ClusterCatalog.record_recovery, ClusterCatalog.update_config,
    ClusterCatalog.register_node, ClusterCatalog.next_member_id, ClusterCatalog.heartbeat,
    ClusterCatalog.update_node_descriptor, ClusterCatalog.set_node_state, ClusterCatalog.register_device,
    ClusterCatalog.put_storage_policy, ClusterCatalog.delete_storage_policy, ClusterCatalog.set_device_state,
    ClusterCatalog.set_node_metadata_voter, ClusterCatalog.forget_node, ClusterCatalog.put_placement,
    ClusterCatalog.upsert_replica_tx, ClusterCatalog.set_replica_state, ClusterCatalog.remove_replica_tx,
    ClusterCatalog.remove_replica_from_device, ClusterCatalog.set_desired_replicas, ClusterCatalog.rewrite_placement,
    ClusterCatalog.write_placement, ClusterCatalog.delete_placement, ClusterCatalog.put_node_replica,
    ClusterCatalog.acknowledge_tombstone, ClusterCatalog.remove_node_replica, ClusterCatalog.remove_device_replica,
    ClusterCatalog.purge_tombstone, ClusterCatalog.enqueue_task, ClusterCatalog.add_task, ClusterCatalog.claim_task,
    ClusterCatalog.complete_task, ClusterCatalog.fail_task, ClusterCatalog.requeue_task, ClusterCatalog.cancel_task,
    ClusterCatalog.purge_task, ClusterCatalog.update_operation, ClusterCatalog.consume_join_token,
    ClusterCatalog.revoke_join_token, ClusterCatalog.purge_join_token, ClusterCatalog.set_node_credential_disabled,
    ClusterCatalog.require_config, ClusterCatalog.require_node, ClusterCatalog.require_placement,
    ClusterCatalog.require_task, ClusterCatalog.put_node, ClusterCatalog.put_task,
    ClusterCatalog.insert_task_queue_entry, ClusterCatalog.remove_task_queue_entry,
    ClusterCatalog.remove_task_object_entry.

Lemma advance_epoch_types : keeps cluster_types_kept ClusterCatalog.advance_cluster_map_epoch.
Proof. unfold ClusterCatalog.advance_cluster_map_epoch. keeps_steps. cluster_typed_step. Qed.

Lemma recount_types : keeps cluster_types_kept ClusterCatalog.recount_durability.
Proof. unfold ClusterCatalog.recount_durability, ClusterCatalog.require_config. keeps_steps; cluster_typed_step. Qed.

Lemma apply_cluster_types cmd : keeps cluster_types_kept (ClusterCatalog.apply_command_tx cmd).
Proof.
  destruct cmd; cbn [ClusterCatalog.apply_command_tx]; cluster_unfold; keeps_steps;
    first [apply advance_epoch_types|apply recount_types|cluster_typed_step].
Qed.

End CatalogTypes.
