(* ===== verification/Consensus.v ===== *)
(** * Replicated commands

    [crates/record-store-consensus/src/command.rs] and the state machine of
    [state_machine.rs]: what a log entry carries, how the errors of the two
    catalogs become rejections that every member replicates or failures that stop
    a member, and how a member applies entries. One database holds both catalogs
    and the applied position, and an entry is one transaction over it. The Raft
    algorithm is the [openraft] library; log positions and memberships are its data
    types. *)

From S2P Require Import Prelude Bytes Tables ObjectLock CoreTypes Keys Catalog Commands Topology Replicas ClusterCatalog.
Import ObjectLock CoreTypes Catalog Commands.

Module Consensus.

(** ** Texts of errors *)

Definition string_of_bytes (l : bytes) : string := String.string_of_list_ascii ((λ b, Ascii.ascii_of_N (Z.to_N b)) <$> l).

(** The texts of the library errors that three constructors wrap. *)
Class LibraryTexts := { io_text : string; encoding_text : string; task_text : string }.

Section Texts.
Context `{LibraryTexts} `{UuidCrate}.

Definition metadata_error_display (e : MetadataError) : string :=
  match e with
  | Directory => "failed to prepare metadata directory: " +:+ io_text
  | BucketAlreadyExists => "bucket already exists"
  | BucketNotFound => "bucket was not found"
  | BucketNotEmpty => "bucket is not empty"
  | MultipartUploadNotFound => "multipart upload was not found"
  | MultipartStateConflict => "multipart upload state conflicts with the operation"
  | QuotaExceeded => "storage quota exceeded"
  | InvalidVersioningTransition => "invalid bucket versioning transition"
  | VersionLocked block => "object version is held by " +:+ block_label block
  | ClockWentBackwards => "the system clock is behind the recorded high-water mark"
  | ObjectLockNotEnabled => "object lock is not enabled on this bucket"
  | ObjectLockNotEnabledAtCreation => "object lock cannot be enabled on an existing bucket"
  | ObjectLockRequiresVersioning => "bucket versioning cannot be suspended while object lock is enabled"
  | ObjectLockVersionNotFound => "object lock version was not found"
  | ObjectLockChangeRefused reason => "object lock change refused: " +:+ refused_label reason
  | MInvalidObjectLock text => "invalid object lock: " +:+ text
  | LifecycleRuleNotFound => "lifecycle rule was not found"
  | MInvalidLifecycleRule text => "invalid lifecycle rule: " +:+ text
  | Encoding => "metadata encoding failed: " +:+ encoding_text
  | Database operation reason => "metadata database operation '" +:+ operation +:+ "' failed: " +:+ reason
  | Task => "metadata task failed: " +:+ task_text
  end.

Definition uuid_text (id : bytes) : string := string_of_bytes (uuid_to_string id).

Definition node_state_display (s : Topology.NodeState) : string :=
  match s with
  | Topology.Joining => "joining" | Topology.NodeHealthy => "healthy" | Topology.Suspect => "suspect"
  | Topology.Unreachable => "unreachable" | Topology.Draining => "draining" | Topology.Maintenance => "maintenance"
  | Topology.Offline => "offline" | Topology.Decommissioned => "decommissioned"
  end.
Definition device_state_display (s : Topology.DeviceState) : string :=
  match s with
  | Topology.Discovered => "discovered" | Topology.Available => "available" | Topology.Active => "active"
  | Topology.DeviceDegraded => "degraded" | Topology.DeviceDraining => "draining"
  | Topology.DeviceMaintenance => "maintenance" | Topology.DeviceFailed => "failed"
  | Topology.SafeToRemove => "safe_to_remove" | Topology.Retired => "retired"
  end.

Definition topology_error_display (e : Topology.TopologyError) : string :=
  match e with
  | Topology.InvalidStateTransition from to =>
      "node state transition from " +:+ node_state_display from +:+ " to " +:+ node_state_display to +:+ " is not allowed"
  end.
Definition device_error_display (e : Topology.DeviceError) : string :=
  match e with
  | Topology.InvalidWeight => "device placement weight must be between 1 and 10000"
  | Topology.InvalidCapacity reason => "invalid device capacity: " +:+ reason
  | Topology.DuplicateDevice device => "device " +:+ uuid_text device +:+ " is registered more than once"
  | Topology.WrongNode device expected actual =>
      "device " +:+ uuid_text device +:+ " belongs to node " +:+ uuid_text actual +:+
      ", not inventory owner " +:+ uuid_text expected
  | Topology.DeviceMissing device => "device " +:+ uuid_text device +:+ " is not registered"
  | Topology.InvalidDeviceTransition from to =>
      "device state transition from " +:+ device_state_display from +:+ " to " +:+ device_state_display to +:+ " is not allowed"
  end.

Definition cluster_error_display (e : ClusterCatalog.ClusterCatalogError) : string :=
  match e with
  | ClusterCatalog.NotInitialized => "cluster has not been initialized; run 'record-store cluster init' first"
  | ClusterCatalog.AlreadyInitialized id => "cluster " +:+ uuid_text id +:+ " is already initialized"
  | ClusterCatalog.NodeNotFound id => "node " +:+ uuid_text id +:+ " is not a member of this cluster"
  | ClusterCatalog.DeviceNotFound node device =>
      "device " +:+ uuid_text device +:+ " is not registered on node " +:+ uuid_text node
  | ClusterCatalog.PlacementNotFound id => "placement metadata for payload " +:+ uuid_text id +:+ " was not found"
  | ClusterCatalog.ReplicaNotFound object node => "payload " +:+ uuid_text object +:+ " has no replica on node " +:+ uuid_text node
  | ClusterCatalog.TombstoneNotFound id => "tombstone for payload " +:+ uuid_text id +:+ " was not found"
  | ClusterCatalog.TaskNotFound id => "replica task " +:+ uuid_text id +:+ " was not found"
  | ClusterCatalog.OperationNotFound id => "cluster operation " +:+ uuid_text id +:+ " was not found"
  | ClusterCatalog.JoinTokenNotFound id => "join token " +:+ uuid_text id +:+ " was not found"
  | ClusterCatalog.CredentialNotFound id => "node credential for node " +:+ uuid_text id +:+ " was not found"
  | ClusterCatalog.TopologyRefused e => topology_error_display e
  | ClusterCatalog.DeviceRefused e => device_error_display e
  | ClusterCatalog.ConfigurationRefused reason => "invalid cluster configuration: " +:+ reason
  | ClusterCatalog.DatabaseRefused operation reason =>
      "cluster catalog operation '" +:+ operation +:+ "' failed: " +:+ reason
  end.
End Texts.

(** ** Commands and responses *)

Inductive ClusterWrite :=
  | WMetadata (command : MetadataCommand)
  | WCluster (command : ClusterCatalog.ClusterCommand)
  | WBatch (commands : list ClusterWrite)
  | WNoop.

Inductive RejectionKind :=
  | KBucketAlreadyExists | KBucketNotFound | KBucketNotEmpty | KMultipartUploadNotFound | KMultipartStateConflict
  | KQuotaExceeded | KInvalidVersioningTransition | KLifecycleRuleNotFound | KInvalidLifecycleRule
  | KClusterNotInitialized | KClusterAlreadyInitialized | KNodeNotFound | KPlacementNotFound | KReplicaNotFound
  | KTombstoneNotFound | KTaskNotFound | KOperationNotFound | KJoinTokenNotFound | KCredentialNotFound
  | KInvalidTransition | KInvalidConfiguration | KInternal.

Record CommandRejection := { rejection_kind : RejectionKind; rejection_message : string }.

Inductive ClusterWriteResponse :=
  | RMetadata (outcome : MetadataOutcome)
  | RCluster (outcome : ClusterCatalog.ClusterOutcome)
  | RBatch (responses : list ClusterWriteResponse)
  | RNoop
  | Rejected (rejection : CommandRejection).

Definition response_name (r : ClusterWriteResponse) : string :=
  match r with
  | RMetadata _ => "metadata" | RCluster _ => "cluster" | RBatch _ => "batch" | RNoop => "noop" | Rejected _ => "rejected"
  end.

Definition metadata_kind (e : MetadataError) : RejectionKind :=
  match e with
  | BucketAlreadyExists => KBucketAlreadyExists
  | BucketNotFound => KBucketNotFound
  | BucketNotEmpty => KBucketNotEmpty
  | MultipartUploadNotFound => KMultipartUploadNotFound
  | MultipartStateConflict => KMultipartStateConflict
  | QuotaExceeded => KQuotaExceeded
  | InvalidVersioningTransition => KInvalidVersioningTransition
  | LifecycleRuleNotFound => KLifecycleRuleNotFound
  | MInvalidLifecycleRule _ => KInvalidLifecycleRule
  | _ => KInternal
  end.
Definition cluster_kind (e : ClusterCatalog.ClusterCatalogError) : RejectionKind :=
  match e with
  | ClusterCatalog.NotInitialized => KClusterNotInitialized
  | ClusterCatalog.AlreadyInitialized _ => KClusterAlreadyInitialized
  | ClusterCatalog.NodeNotFound _ => KNodeNotFound
  | ClusterCatalog.PlacementNotFound _ => KPlacementNotFound
  | ClusterCatalog.ReplicaNotFound _ _ => KReplicaNotFound
  | ClusterCatalog.TombstoneNotFound _ => KTombstoneNotFound
  | ClusterCatalog.TaskNotFound _ => KTaskNotFound
  | ClusterCatalog.OperationNotFound _ => KOperationNotFound
  | ClusterCatalog.JoinTokenNotFound _ => KJoinTokenNotFound
  | ClusterCatalog.CredentialNotFound _ => KCredentialNotFound
  | ClusterCatalog.TopologyRefused _ => KInvalidTransition
  | ClusterCatalog.ConfigurationRefused _ => KInvalidConfiguration
  | _ => KInternal
  end.

Definition is_durable_metadata_failure (e : MetadataError) : bool :=
  match e with Directory | Database _ _ | Task => true | _ => false end.
Definition is_durable_cluster_failure (e : ClusterCatalog.ClusterCatalogError) : bool :=
  match e with ClusterCatalog.DatabaseRefused _ _ => true | _ => false end.

(** [CommandRejection::into_metadata_error]. *)
Definition into_metadata_error (r : CommandRejection) : MetadataError :=
  match rejection_kind r with
  | KBucketAlreadyExists => BucketAlreadyExists
  | KBucketNotFound => BucketNotFound
  | KBucketNotEmpty => BucketNotEmpty
  | KMultipartUploadNotFound => MultipartUploadNotFound
  | KMultipartStateConflict => MultipartStateConflict
  | KQuotaExceeded => QuotaExceeded
  | KInvalidVersioningTransition => InvalidVersioningTransition
  | KLifecycleRuleNotFound => LifecycleRuleNotFound
  | KInvalidLifecycleRule => MInvalidLifecycleRule (rejection_message r)
  | _ => Database "replicated metadata command" (rejection_message r)
  end.

(** [ClusterWriteResponse::into_metadata], [into_cluster] and [into_batch]. A batch of
    one response stands for that response. *)
Fixpoint into_metadata (r : ClusterWriteResponse) : result MetadataError MetadataOutcome :=
  match r with
  | RMetadata outcome => Ok outcome
  | Rejected rejection => Err (into_metadata_error rejection)
  | RBatch [r] => into_metadata r
  | other => Err (Database "decode replicated response"
                    ("expected an object-catalog outcome, received " +:+ response_name other))
  end.
Fixpoint into_cluster (r : ClusterWriteResponse) : result CommandRejection ClusterCatalog.ClusterOutcome :=
  match r with
  | RCluster outcome => Ok outcome
  | Rejected rejection => Err rejection
  | RBatch [r] => into_cluster r
  | other => Err {| rejection_kind := KInternal;
                    rejection_message := "expected a cluster outcome, received " +:+ response_name other |}
  end.
Definition into_batch (r : ClusterWriteResponse) : result CommandRejection (list ClusterWriteResponse) :=
  match r with RBatch responses => Ok responses | Rejected rejection => Err rejection | other => Ok [other] end.

(** ** The state machine *)

(** A log position: the term and member of the leader that proposed it, and the index. *)
Record LogId := { leader_term : Z; leader_node : Z; log_index : Z }.

(** [openraft::Membership]: the voter sets (two while a change is under way) and the
    address of every member; [StoredMembership] adds where it was proposed. *)
Record Membership := { configs : list (gset Z); members : gmap Z bytes }.
Record StoredMembership := { membership_log_id : option LogId; membership : Membership }.
Definition no_membership : StoredMembership :=
  {| membership_log_id := None; membership := {| configs := []; members := ∅ |} |}.

Inductive EntryPayload :=
  | Blank
  | Normal (command : ClusterWrite)
  | MembershipChange (membership : Membership).
Record ConsensusEntry := { log_id : LogId; payload : EntryPayload }.

(** The database of a member: both catalogs and the [raft.applied.v1] table. *)
Record ReplicatedState := {
  metadata : Catalog;
  cluster : ClusterCatalog.ClusterCatalog;
  LAST_APPLIED : option LogId;
  LAST_MEMBERSHIP : StoredMembership }.

Definition initial_state : ReplicatedState :=
  {| metadata := empty_catalog; cluster := ClusterCatalog.empty_cluster;
     LAST_APPLIED := None; LAST_MEMBERSHIP := no_membership |}.

Definition upd_metadata (c : Catalog) (s : ReplicatedState) : ReplicatedState :=
  {| metadata := c; cluster := cluster s; LAST_APPLIED := LAST_APPLIED s; LAST_MEMBERSHIP := LAST_MEMBERSHIP s |}.
Definition upd_cluster (c : ClusterCatalog.ClusterCatalog) (s : ReplicatedState) : ReplicatedState :=
  {| metadata := metadata s; cluster := c; LAST_APPLIED := LAST_APPLIED s; LAST_MEMBERSHIP := LAST_MEMBERSHIP s |}.
Definition record_applied (id : LogId) (s : ReplicatedState) : ReplicatedState :=
  {| metadata := metadata s; cluster := cluster s; LAST_APPLIED := Some id; LAST_MEMBERSHIP := LAST_MEMBERSHIP s |}.
Definition record_membership (m : StoredMembership) (s : ReplicatedState) : ReplicatedState :=
  {| metadata := metadata s; cluster := cluster s; LAST_APPLIED := LAST_APPLIED s; LAST_MEMBERSHIP := m |}.

(** A failure of durable storage itself, which must stop this member. *)
Inductive DurableFailure := Durable (reason : string).
Inductive StorageError := ApplyFailed (at_ : LogId) (reason : string).
Notation step := (tx ReplicatedState DurableFailure).

Section StateMachine.
Context `{LibraryTexts} `{UuidCrate}.

Definition classify_metadata_error (e : MetadataError) : CommandRejection :=
  {| rejection_kind := metadata_kind e; rejection_message := metadata_error_display e |}.
Definition classify_cluster_error (e : ClusterCatalog.ClusterCatalogError) : CommandRejection :=
  {| rejection_kind := cluster_kind e; rejection_message := cluster_error_display e |}.

Definition apply_metadata_command (command : MetadataCommand) : step ClusterWriteResponse := λ s,
  match Commands.apply_command_tx command (metadata s) with
  | (Ok outcome, c) => (Ok (RMetadata outcome), upd_metadata c s)
  | (Err e, c) =>
      (if is_durable_metadata_failure e then Err (Durable (metadata_error_display e))
       else Ok (Rejected (classify_metadata_error e)), upd_metadata c s)
  end.
Definition apply_cluster_command (command : ClusterCatalog.ClusterCommand) : step ClusterWriteResponse := λ s,
  match ClusterCatalog.apply_command_tx command (cluster s) with
  | (Ok outcome, c) => (Ok (RCluster outcome), upd_cluster c s)
  | (Err e, c) =>
      (if is_durable_cluster_failure e then Err (Durable (cluster_error_display e))
       else Ok (Rejected (classify_cluster_error e)), upd_cluster c s)
  end.

(** One rejection rejects the whole batch; the caller rolls the transaction back. *)
Fixpoint apply_write (command : ClusterWrite) : step ClusterWriteResponse :=
  match command with
  | WNoop => mret RNoop
  | WMetadata command => apply_metadata_command command
  | WCluster command => apply_cluster_command command
  | WBatch commands =>
      (fix batch (commands : list ClusterWrite) (responses : list ClusterWriteResponse) : step ClusterWriteResponse :=
         match commands with
         | [] => mret (RBatch responses)
         | command :: rest =>
             response ← apply_write command;
             match response with
             | Rejected rejection => mret (Rejected rejection)
             | _ => batch rest (responses ++ [response])
             end
         end) commands []
  end.

(** One entry: a transaction that also advances the applied position. A rejected
    command is rolled back, and a transaction of its own advances the position. *)
Definition apply_entry (e : ConsensusEntry) (s : ReplicatedState) : result StorageError ClusterWriteResponse * ReplicatedState :=
  match payload e with
  | Blank => (Ok RNoop, record_applied (log_id e) s)
  | MembershipChange m =>
      (Ok RNoop, record_membership {| membership_log_id := Some (log_id e); membership := m |} (record_applied (log_id e) s))
  | Normal command =>
      match apply_write command (record_applied (log_id e) s) with
      | (Ok (Rejected rejection), _) => (Ok (Rejected rejection), record_applied (log_id e) s)
      | (Ok response, s') => (Ok response, s')
      | (Err (Durable reason), _) => (Err (ApplyFailed (log_id e) reason), s)
      end
  end.

(** [RaftStateMachine::apply]: every entry in a transaction of its own. *)
Fixpoint apply (entries : list ConsensusEntry) : tx ReplicatedState StorageError (list ClusterWriteResponse) :=
  match entries with
  | [] => mret []
  | e :: entries => response ← apply_entry e; responses ← apply entries; mret (response :: responses)
  end.
End StateMachine.

End Consensus.
