(* ===== verification/Snapshot.v ===== *)
(** * Catalog snapshots

    [crates/record-store-metadata/src/snapshot.rs] and
    [crates/record-store-cluster/src/catalog/snapshot.rs]: a snapshot is a list of raw
    rows, each with the name of its table; importing one clears every table and puts
    the rows back. Tables are raw here, as in the code: byte keys and byte values, and
    integers where a table is declared with them. How a catalog of decoded rows lies in
    the raw tables is [raw_metadata] and [raw_cluster]; the JSON of a row is an
    interface ([RowJson], [ClusterRowJson]). *)

From S2P Require Import Prelude Bytes Text Tables ObjectLock CoreTypes Keys Catalog Topology Replicas ClusterCatalog CatalogTypes.
Import Text ObjectLock CoreTypes Catalog.

Module Snapshot.

(** A raw row of a snapshot: [MetadataEntry] and [CatalogEntry]. *)
Record RawEntry := { table : string; key : bytes; value : bytes }.

Notation raw_table := (gmap bytes bytes).

(** ** The object catalog *)

Definition BYTE_TABLES : list string :=
  ["buckets.v1"; "objects.v1"; "delete_markers.v1"; "versions.v1"; "version_order.v1"; "null_versions.v1"; "multipart.v1";
   "multipart_order.v1"; "multipart_parts.v1"; "bucket_usage.v1"; "lifecycle_rules.v1"; "object_locks.v1"].
Definition BUCKET_NAMES_TABLE : string := "bucket_names.v1".
Definition CLEANUP_TABLE : string := "payload_cleanup.v1".
Definition MUTATION_EVENTS_TABLE : string := "mutation_events.v1".
Definition CLOCK_TABLE : string := "clock.v1".
Definition COUNTERS_TABLE : string := "counters.v1".
Definition SCHEMA_TABLE : string := "schema.v1".

Record RawMetadata := {
  byte_tables : gmap string raw_table;
  bucket_names : raw_table;
  cleanup : gmap bytes Z;
  mutation_events : gmap Z bytes;
  clock : gmap bytes Z;
  counters : gmap bytes Z;
  schema : gmap bytes Z }.

Definition byte_table (name : string) (db : RawMetadata) : raw_table := default ∅ (byte_tables db !! name).

Definition raw_upd_byte_table (name : string) (f : raw_table → raw_table) (db : RawMetadata) : RawMetadata :=
  {| byte_tables := <[name := f (byte_table name db)]> (byte_tables db); bucket_names := bucket_names db; cleanup := cleanup db;
     mutation_events := mutation_events db; clock := clock db; counters := counters db; schema := schema db |}.
Definition raw_upd_names (f : raw_table → raw_table) (db : RawMetadata) : RawMetadata :=
  {| byte_tables := byte_tables db; bucket_names := f (bucket_names db); cleanup := cleanup db;
     mutation_events := mutation_events db; clock := clock db; counters := counters db; schema := schema db |}.
Definition raw_upd_cleanup (f : gmap bytes Z → gmap bytes Z) (db : RawMetadata) : RawMetadata :=
  {| byte_tables := byte_tables db; bucket_names := bucket_names db; cleanup := f (cleanup db);
     mutation_events := mutation_events db; clock := clock db; counters := counters db; schema := schema db |}.
Definition raw_upd_events (f : gmap Z bytes → gmap Z bytes) (db : RawMetadata) : RawMetadata :=
  {| byte_tables := byte_tables db; bucket_names := bucket_names db; cleanup := cleanup db;
     mutation_events := f (mutation_events db); clock := clock db; counters := counters db; schema := schema db |}.
Definition raw_upd_clock (f : gmap bytes Z → gmap bytes Z) (db : RawMetadata) : RawMetadata :=
  {| byte_tables := byte_tables db; bucket_names := bucket_names db; cleanup := cleanup db;
     mutation_events := mutation_events db; clock := f (clock db); counters := counters db; schema := schema db |}.
Definition raw_upd_counters (f : gmap bytes Z → gmap bytes Z) (db : RawMetadata) : RawMetadata :=
  {| byte_tables := byte_tables db; bucket_names := bucket_names db; cleanup := cleanup db;
     mutation_events := mutation_events db; clock := clock db; counters := f (counters db); schema := schema db |}.
Definition raw_upd_schema (f : gmap bytes Z → gmap bytes Z) (db : RawMetadata) : RawMetadata :=
  {| byte_tables := byte_tables db; bucket_names := bucket_names db; cleanup := cleanup db;
     mutation_events := mutation_events db; clock := clock db; counters := counters db; schema := f (schema db) |}.

(** Scanning a table whose keys are [u64]. *)
Definition sequence_le {V} (a b : Z * V) : Prop := a.1 ≤ b.1.
#[export] Instance sequence_le_dec {V} : RelDecision (@sequence_le V).
Proof. intros a b. unfold sequence_le. apply _. Defined.
Definition sequence_iter {V} (t : gmap Z V) : list (Z * V) := merge_sort sequence_le (map_to_list t).

Definition rows (name : string) (t : raw_table) : list RawEntry :=
  (λ kv, {| table := name; key := kv.1; value := kv.2 |}) <$> table_iter t.
Definition flag_rows (name : string) (t : gmap bytes Z) : list RawEntry :=
  (λ kv, {| table := name; key := kv.1; value := [kv.2] |}) <$> table_iter t.
Definition number_rows (name : string) (t : gmap bytes Z) : list RawEntry :=
  (λ kv, {| table := name; key := kv.1; value := be_bytes 8 kv.2 |}) <$> table_iter t.
Definition sequence_rows (name : string) (t : gmap Z bytes) : list RawEntry :=
  (λ kv, {| table := name; key := be_bytes 8 kv.1; value := kv.2 |}) <$> sequence_iter t.

Definition export_tx (db : RawMetadata) : list RawEntry :=
  (BYTE_TABLES ≫= λ name, rows name (byte_table name db)) ++
  rows BUCKET_NAMES_TABLE (bucket_names db) ++
  flag_rows CLEANUP_TABLE (cleanup db) ++
  sequence_rows MUTATION_EVENTS_TABLE (mutation_events db) ++
  number_rows CLOCK_TABLE (clock db) ++
  number_rows COUNTERS_TABLE (counters db) ++
  number_rows SCHEMA_TABLE (schema db).

Notation step := (tx RawMetadata MetadataError).

Definition clear_tables : step () :=
  tx_iter (λ name, tx_modify (raw_upd_byte_table name (λ _, ∅))) BYTE_TABLES;;
  tx_modify (raw_upd_names (λ _, ∅));;
  tx_modify (raw_upd_cleanup (λ _, ∅));;
  tx_modify (raw_upd_events (λ _, ∅));;
  tx_modify (raw_upd_clock (λ _, ∅));;
  tx_modify (raw_upd_counters (λ _, ∅));;
  tx_modify (raw_upd_schema (λ _, ∅)).

(** [i64::from_be_bytes]. *)
Definition be_signed (b : bytes) : Z := let v := be_value b in if v <? 2 ^ 63 then v else v - 2 ^ 64.

Definition eight_bytes (b : bytes) : bool := bool_decide (length b = 8%nat).

Definition restore (e : RawEntry) : step () :=
  if bool_decide (table e ∈ BYTE_TABLES) then tx_modify (raw_upd_byte_table (table e) <[key e := value e]>)
  else if String.eqb (table e) BUCKET_NAMES_TABLE then
    tx_guard (utf8_valid (key e)) (Database "restore bucket name" "bucket name key is not valid UTF-8");;
    tx_modify (raw_upd_names <[key e := value e]>)
  else if String.eqb (table e) CLEANUP_TABLE then
    flag ← tx_some (Database "restore cleanup record" "cleanup value must be one byte")
             match value e with [flag] => Some flag | _ => None end;
    tx_modify (raw_upd_cleanup <[key e := flag]>)
  else if String.eqb (table e) MUTATION_EVENTS_TABLE then
    tx_guard (eight_bytes (key e)) (Database "restore mutation event" "mutation event sequence must be eight bytes");;
    tx_modify (raw_upd_events <[be_value (key e) := value e]>)
  else if String.eqb (table e) CLOCK_TABLE then
    tx_guard (utf8_valid (key e)) (Database "restore clock" "clock key is not valid UTF-8");;
    tx_guard (eight_bytes (value e)) (Database "restore clock" "clock value must be eight bytes");;
    tx_modify (raw_upd_clock <[key e := be_signed (value e)]>)
  else if String.eqb (table e) COUNTERS_TABLE || String.eqb (table e) SCHEMA_TABLE then
    tx_guard (utf8_valid (key e)) (Database "restore counter" "counter key is not valid UTF-8");;
    tx_guard (eight_bytes (value e)) (Database "restore counter" "counter value must be eight bytes");;
    tx_modify ((if String.eqb (table e) COUNTERS_TABLE then raw_upd_counters else raw_upd_schema) <[key e := be_value (value e)]>)
  else tx_throw (Database "restore snapshot" ("snapshot references unknown table '" +:+ table e +:+ "'")).

Definition import_tx (entries : list RawEntry) : step () :=
  clear_tables;; tx_iter restore entries.

(** ** The cluster catalog *)

Definition CLUSTER_TABLES : list string :=
  ["cluster.identity.v1"; "cluster.config.v1"; "cluster.nodes.v1"; "cluster.node_by_member.v1"; "cluster.counters.v1";
   "cluster.placements.v1"; "cluster.node_replicas.v1"; "cluster.tombstones.v1"; "cluster.tasks.v1"; "cluster.task_queue.v1";
   "cluster.task_by_object.v1"; "cluster.operations.v1"; "cluster.join_tokens.v1"; "cluster.node_credentials.v1";
   "cluster.storage_policies.v1"; "cluster.schema.v1"].

Notation RawCluster := (gmap string raw_table).
Definition cluster_table (name : string) (db : RawCluster) : raw_table := default ∅ (db !! name).

Definition export_cluster_tx (db : RawCluster) : list RawEntry :=
  CLUSTER_TABLES ≫= λ name,
    if bool_decide (cluster_table name db = ∅) then [] else rows name (cluster_table name db).

Notation cluster_step := (tx RawCluster ClusterCatalog.ClusterCatalogError).

Definition restore_cluster (e : RawEntry) : cluster_step () :=
  if bool_decide (table e ∈ CLUSTER_TABLES)
  then tx_modify (λ db, <[table e := <[key e := value e]> (cluster_table (table e) db)]> db)
  else tx_throw (ClusterCatalog.DatabaseRefused "import cluster snapshot"
                   ("snapshot references unknown table '" +:+ table e +:+ "'")).

Definition import_cluster_tx (entries : list RawEntry) : cluster_step () :=
  tx_iter (λ name, tx_modify <[name := ∅]>) CLUSTER_TABLES;;
  tx_iter restore_cluster entries.

(** ** Rows in raw tables *)

(** [serde_json] on the rows of the object catalog: what is written is read back. *)
Class RowJson := {
  bucket_json : Bucket → bytes; object_json : ObjectMetadata → bytes; marker_json : DeleteMarker → bytes;
  version_json : ObjectVersionRecord → bytes; upload_json : MultipartUpload → bytes; part_json : UploadedPart → bytes;
  usage_json : BucketUsage → bytes; rule_json : LifecycleRule → bytes; lock_json : ObjectLockState → bytes;
  event_json : MutationEvent → bytes;
  #[global] bucket_json_inj :: Inj (=) (=) bucket_json; #[global] object_json_inj :: Inj (=) (=) object_json;
  #[global] marker_json_inj :: Inj (=) (=) marker_json; #[global] version_json_inj :: Inj (=) (=) version_json;
  #[global] upload_json_inj :: Inj (=) (=) upload_json; #[global] part_json_inj :: Inj (=) (=) part_json;
  #[global] usage_json_inj :: Inj (=) (=) usage_json; #[global] rule_json_inj :: Inj (=) (=) rule_json;
  #[global] lock_json_inj :: Inj (=) (=) lock_json; #[global] event_json_inj :: Inj (=) (=) event_json }.

Class ClusterRowJson := {
  identity_json : ClusterCatalog.ClusterIdentity → bytes; config_json : Topology.ClusterConfig → bytes;
  node_json : Topology.NodeRecord → bytes; placement_json : Replicas.PayloadPlacement → bytes;
  tombstone_json : Replicas.Tombstone → bytes; task_json : Replicas.ReplicaTask → bytes;
  operation_json : Replicas.ClusterOperation → bytes; join_token_json : Replicas.JoinToken → bytes;
  credential_json : Replicas.NodeCredential → bytes; policy_json : Topology.StoragePolicy → bytes;
  #[global] identity_json_inj :: Inj (=) (=) identity_json; #[global] config_json_inj :: Inj (=) (=) config_json;
  #[global] node_json_inj :: Inj (=) (=) node_json; #[global] placement_json_inj :: Inj (=) (=) placement_json;
  #[global] tombstone_json_inj :: Inj (=) (=) tombstone_json; #[global] task_json_inj :: Inj (=) (=) task_json;
  #[global] operation_json_inj :: Inj (=) (=) operation_json; #[global] join_token_json_inj :: Inj (=) (=) join_token_json;
  #[global] credential_json_inj :: Inj (=) (=) credential_json; #[global] policy_json_inj :: Inj (=) (=) policy_json }.

Definition METADATA_SCHEMA_VERSION : Z := 6.
Definition CLUSTER_FORMAT_VERSION : Z := 3.
Definition SINGLETON : bytes := bytes_of_string "singleton".

(** Integer tables are keyed by strings in the decoded catalog. *)
Definition text_keys {V} (t : gmap string V) : gmap bytes V := kmap bytes_of_string t.

Definition raw_metadata `{RowJson} (c : Catalog) : RawMetadata :=
  {| byte_tables := list_to_map (zip BYTE_TABLES
       [bucket_json <$> BUCKETS c; object_json <$> OBJECTS c; marker_json <$> MARKERS c; version_json <$> VERSIONS c;
        VERSION_ORDER c; NULL_VERSIONS c; upload_json <$> MULTIPART c; MULTIPART_ORDER c; part_json <$> PARTS c;
        usage_json <$> BUCKET_USAGE c; rule_json <$> LIFECYCLE_RULES c; lock_json <$> OBJECT_LOCKS c]);
     bucket_names := bucket_json <$> BUCKET_NAMES c; cleanup := CLEANUP c; mutation_events := event_json <$> MUTATION_EVENTS c;
     clock := text_keys (CLOCK c); counters := text_keys (COUNTERS c);
     schema := {[ bytes_of_string "metadata" := METADATA_SCHEMA_VERSION ]} |}.

Definition singleton_row {A} (json : A → bytes) (o : option A) : raw_table :=
  match o with Some a => {[ SINGLETON := json a ]} | None => ∅ end.

Definition raw_cluster `{ClusterRowJson} (c : ClusterCatalog.ClusterCatalog) : RawCluster :=
  list_to_map (zip CLUSTER_TABLES
    [singleton_row identity_json (ClusterCatalog.IDENTITY c); singleton_row config_json (ClusterCatalog.CONFIG c);
     node_json <$> ClusterCatalog.NODES c; ClusterCatalog.NODE_BY_MEMBER c; be_bytes 8 <$> text_keys (ClusterCatalog.COUNTERS c);
     placement_json <$> ClusterCatalog.PLACEMENTS c; (λ code, [code]) <$> ClusterCatalog.NODE_REPLICAS c;
     tombstone_json <$> ClusterCatalog.TOMBSTONES c; task_json <$> ClusterCatalog.TASKS c; ClusterCatalog.TASK_QUEUE c;
     ClusterCatalog.TASK_BY_OBJECT c; operation_json <$> ClusterCatalog.OPERATIONS c; join_token_json <$> ClusterCatalog.JOIN_TOKENS c;
     credential_json <$> ClusterCatalog.NODE_CREDENTIALS c; policy_json <$> ClusterCatalog.STORAGE_POLICIES c;
     {[ bytes_of_string "cluster_format_version" := be_bytes 4 CLUSTER_FORMAT_VERSION ]}]).

End Snapshot.

(** * Snapshots restore the catalogs

    Importing what was exported gives back every table, whatever the importing
    database held before; and a catalog of decoded rows is determined by its raw
    tables, so a member that installs a snapshot has the catalog of the member that
    built it. *)

Import Text ObjectLock CoreTypes Catalog CatalogTypes Snapshot.

Module SnapshotTheorems.

(** ** Putting rows back *)

Lemma tx_iter_modify {S E A} (f : A → tx S E ()) (g : A → S → S) (l : list A) s :
  (∀ x s, x ∈ l → f x s = (Ok (), g x s)) → tx_iter f l s = (Ok (), foldl (λ s x, g x s) s l).
Proof.
  revert s. induction l as [|x l IH]; intros s Hf; [done|]. cbn [tx_iter foldl]. unfold mbind, tx_bind.
  rewrite Hf by left. apply IH. intros y s' Hy. apply Hf. by right.
Qed.

Lemma tx_iter_app {S E A} (f : A → tx S E ()) l k s s1 :
  tx_iter f l s = (Ok (), s1) → tx_iter f (l ++ k) s = tx_iter f k s1.
Proof.
  revert s. induction l as [|x l IH]; intros s Hl; cbn [tx_iter app] in *; [by apply tx_ret_ok in Hl as [_ ->]|].
  unfold mbind, tx_bind in *. destruct (f x s) as [[[]|e] s2]; [|done]. by apply IH.
Qed.

(** Inserting the rows of a scan into an empty table. *)
Definition put_rows {K V} `{Countable K} (l : list (K * V)) (m : gmap K V) : gmap K V := foldl (λ m kv, <[kv.1 := kv.2]> m) m l.

Lemma put_rows_lookup {K V} `{Countable K} (l : list (K * V)) (m : gmap K V) k :
  NoDup l.*1 → put_rows l m !! k = match list_to_map (M := gmap K V) l !! k with Some v => Some v | None => m !! k end.
Proof.
  unfold put_rows. revert m. induction l as [|[k1 v1] l IH]; intros m Hnd; [done|]. cbn in Hnd. apply NoDup_cons in Hnd as [Hn Hnd].
  cbn [foldl list_to_map foldr fst snd]. rewrite IH by done. cbn. destruct (decide (k1 = k)) as [->|Hk].
  - rewrite lookup_insert_eq. rewrite (not_elem_of_list_to_map_1 _ _ Hn). by rewrite lookup_insert_eq.
  - by rewrite !lookup_insert_ne by done.
Qed.

Lemma put_rows_perm {K V} `{Countable K} (l : list (K * V)) (m : gmap K V) : l ≡ₚ map_to_list m → put_rows l ∅ = m.
Proof.
  intros Hl. apply map_eq. intros k. assert (NoDup l.*1) as Hnd by (rewrite Hl; apply NoDup_fst_map_to_list).
  rewrite put_rows_lookup by done. rewrite lookup_empty. erewrite list_to_map_proper; [|done|exact Hl].
  rewrite list_to_map_to_list. by destruct (m !! k).
Qed.
Lemma iter_perm {V} (t : gmap bytes V) : table_iter t ≡ₚ map_to_list t.
Proof. apply merge_sort_Permutation. Qed.
Lemma sequence_perm {V} (t : gmap Z V) : sequence_iter t ≡ₚ map_to_list t.
Proof. apply merge_sort_Permutation. Qed.
Lemma elem_of_sequence_iter {V} (t : gmap Z V) k v : (k, v) ∈ sequence_iter t ↔ t !! k = Some v.
Proof. rewrite sequence_perm. apply elem_of_map_to_list. Qed.

(** One table of a database, read and updated. *)
Class Lens (D M : Type) (get : D → M) (upd : (M → M) → D → D) : Prop := {
  upd_twice f g d : upd f (upd g d) = upd (λ m, f (g m)) d;
  upd_ext f g d : f (get d) = g (get d) → upd f d = upd g d;
  get_upd f d : get (upd f d) = f (get d) }.

Lemma restore_rows {D E K V} `{Countable K} (get : D → gmap K V) (upd : (gmap K V → gmap K V) → D → D) `{!Lens D (gmap K V) get upd}
    (f : RawEntry → tx D E ()) (row : K * V → RawEntry) (l : list (K * V)) d :
  (∀ kv d, kv ∈ l → f (row kv) d = (Ok (), upd <[kv.1 := kv.2]> d)) →
  tx_iter f (row <$> l) d = (Ok (), if l is [] then d else upd (put_rows l) d).
Proof.
  intros Hf. revert d. induction l as [|kv l IH]; intros d; [done|]. cbn [fmap list_fmap tx_iter]. unfold mbind, tx_bind.
  rewrite Hf by left. rewrite IH by (intros; apply Hf; by right). destruct l; [done|]. by rewrite upd_twice.
Qed.

(** Restoring the exported rows of a table into an empty one gives the table. *)
Lemma restore_table {D E K V} `{Countable K} (get : D → gmap K V) (upd : (gmap K V → gmap K V) → D → D) `{!Lens D (gmap K V) get upd}
    (f : RawEntry → tx D E ()) (row : K * V → RawEntry) (l : list (K * V)) t d :
  l ≡ₚ map_to_list t → get d = ∅ → (∀ kv d, kv ∈ l → f (row kv) d = (Ok (), upd <[kv.1 := kv.2]> d)) → upd id d = d →
  tx_iter f (row <$> l) d = (Ok (), upd (λ _, t) d).
Proof.
  intros Hl Hd Hf Hid. rewrite (restore_rows get upd) by done. f_equal. destruct l as [|kv l'] eqn:Hrows.
  - apply Permutation_nil in Hl. apply map_to_list_empty_iff in Hl as ->. rewrite <-Hid at 1. apply upd_ext. by rewrite Hd.
  - apply upd_ext. rewrite Hd. by apply put_rows_perm.
Qed.

(** ** The tables of the object catalog *)

#[export] Instance byte_lens name : Lens RawMetadata raw_table (byte_table name) (raw_upd_byte_table name).
Proof.
  split.
  - intros f g []. unfold raw_upd_byte_table, byte_table. cbn. by rewrite lookup_insert_eq, insert_insert_eq.
  - intros f g [] Hfg. unfold raw_upd_byte_table. by rewrite Hfg.
  - intros f []. unfold raw_upd_byte_table, byte_table. cbn. by rewrite lookup_insert_eq.
Qed.
Lemma byte_id name db : is_Some (byte_tables db !! name) → raw_upd_byte_table name id db = db.
Proof. intros [t Ht]. destruct db. unfold raw_upd_byte_table, byte_table. cbn in *. rewrite Ht. cbn. by rewrite insert_id. Qed.

#[export] Instance names_lens : Lens RawMetadata raw_table bucket_names raw_upd_names.
Proof. split; intros; [done| |done]. unfold raw_upd_names. by rewrite H. Qed.
#[export] Instance cleanup_lens : Lens RawMetadata (gmap bytes Z) cleanup raw_upd_cleanup.
Proof. split; intros; [done| |done]. unfold raw_upd_cleanup. by rewrite H. Qed.
#[export] Instance events_lens : Lens RawMetadata (gmap Z bytes) mutation_events raw_upd_events.
Proof. split; intros; [done| |done]. unfold raw_upd_events. by rewrite H. Qed.
#[export] Instance clock_lens : Lens RawMetadata (gmap bytes Z) clock raw_upd_clock.
Proof. split; intros; [done| |done]. unfold raw_upd_clock. by rewrite H. Qed.
#[export] Instance counters_lens : Lens RawMetadata (gmap bytes Z) counters raw_upd_counters.
Proof. split; intros; [done| |done]. unfold raw_upd_counters. by rewrite H. Qed.
#[export] Instance schema_lens : Lens RawMetadata (gmap bytes Z) schema raw_upd_schema.
Proof. split; intros; [done| |done]. unfold raw_upd_schema. by rewrite H. Qed.

(** The tables a database has, and what their declared types say of the rows. *)
Definition has_tables (db : RawMetadata) : Prop := ∀ name, is_Some (byte_tables db !! name) ↔ name ∈ BYTE_TABLES.
Record raw_typed (db : RawMetadata) : Prop := {
  rt_tables : has_tables db;
  rt_names : map_Forall (λ k _, utf8_valid k = true) (bucket_names db);
  rt_events : map_Forall (λ k _, is_u64 k) (mutation_events db);
  rt_clock : map_Forall (λ k v, utf8_valid k = true ∧ is_i64 v) (clock db);
  rt_counters : map_Forall (λ k v, utf8_valid k = true ∧ is_u64 v) (counters db);
  rt_schema : map_Forall (λ k v, utf8_valid k = true ∧ is_u64 v) (schema db) }.

Definition blank : RawMetadata :=
  {| byte_tables := list_to_map ((λ name, (name, ∅)) <$> BYTE_TABLES); bucket_names := ∅; cleanup := ∅; mutation_events := ∅;
     clock := ∅; counters := ∅; schema := ∅ |}.

(** Writing the tables of a list of names. *)
Definition write_tables (names : list string) (content : string → raw_table) (db : RawMetadata) : RawMetadata :=
  foldl (λ db name, raw_upd_byte_table name (λ _, content name) db) db names.

Lemma write_tables_lookup names content db name :
  byte_tables (write_tables names content db) !! name =
    if bool_decide (name ∈ names) then Some (content name) else byte_tables db !! name.
Proof.
  unfold write_tables. revert db. induction names as [|n names IH]; intros db; [by rewrite bool_decide_eq_false_2 by set_solver|].
  cbn [foldl]. rewrite IH. cbn. destruct (decide (name = n)) as [->|Hn].
  - rewrite (bool_decide_eq_true_2 (n ∈ n :: names)) by left. case_bool_decide; [done|]. by rewrite lookup_insert_eq.
  - rewrite lookup_insert_ne by done. rewrite (bool_decide_ext (name ∈ n :: names) (name ∈ names)); [done|].
    rewrite elem_of_cons. naive_solver.
Qed.

Lemma write_tables_rest names content db :
  ∃ tables, write_tables names content db =
    {| byte_tables := tables; bucket_names := bucket_names db; cleanup := cleanup db; mutation_events := mutation_events db;
       clock := clock db; counters := counters db; schema := schema db |}.
Proof.
  unfold write_tables. revert db. induction names as [|n names IH]; intros db; [by exists (byte_tables db); destruct db|].
  destruct (IH (raw_upd_byte_table n (λ _, content n) db)) as [tables Heq]. exists tables. exact Heq.
Qed.

Lemma write_tables_all content db :
  has_tables db → ∀ t, (∀ name, t !! name = if bool_decide (name ∈ BYTE_TABLES) then Some (content name) else None) →
  write_tables BYTE_TABLES content db =
    {| byte_tables := t; bucket_names := bucket_names db; cleanup := cleanup db; mutation_events := mutation_events db;
       clock := clock db; counters := counters db; schema := schema db |}.
Proof.
  intros Hdb t Ht. destruct (write_tables_rest BYTE_TABLES content db) as [tables Heq]. rewrite Heq. f_equal. apply map_eq. intros name.
  rewrite Ht. pose proof (write_tables_lookup BYTE_TABLES content db name) as Hlook. rewrite Heq in Hlook. cbn [byte_tables] in Hlook.
  rewrite Hlook. case_bool_decide as Hin; [done|]. apply eq_None_not_Some. by rewrite (Hdb name).
Qed.

Lemma clear_blank db : has_tables db → clear_tables db = (Ok (), blank).
Proof.
  intros Hdb. unfold clear_tables. erewrite tx_bind_run_ok; [|apply (tx_iter_modify _ (λ name, raw_upd_byte_table name (λ _, ∅))); done].
  change (foldl _ db BYTE_TABLES) with (write_tables BYTE_TABLES (λ _, ∅) db).
  rewrite (write_tables_all (λ _, ∅) db Hdb (byte_tables blank)); [done|].
  intros name. case_bool_decide as Hin; unfold blank; cbn [byte_tables].
  - apply elem_of_list_to_map; [rewrite <-list_fmap_compose, list_fmap_id; apply (bool_decide_unpack _); vm_compute; exact I|].
    apply list_elem_of_fmap. by exists name.
  - apply not_elem_of_list_to_map_1. by rewrite <-list_fmap_compose, list_fmap_id.
Qed.

Lemma restore_byte name kv db :
  name ∈ BYTE_TABLES → restore {| table := name; key := kv.1; value := kv.2 |} db = (Ok (), raw_upd_byte_table name <[kv.1 := kv.2]> db).
Proof. intros Hin. unfold restore. cbn [table]. by rewrite bool_decide_eq_true_2. Qed.

Lemma restore_byte_tables (names : list string) (content : string → raw_table) db :
  names ⊆ BYTE_TABLES → NoDup names → (∀ name, name ∈ names → byte_tables db !! name = Some ∅) →
  tx_iter restore (names ≫= λ name, rows name (content name)) db = (Ok (), write_tables names content db).
Proof.
  unfold write_tables. revert db. induction names as [|n names IH]; intros db Hsub Hnd Hdb; [done|].
  apply NoDup_cons in Hnd as [Hn Hnd]. cbn [mbind list_bind foldl].
  erewrite tx_iter_app; [|apply (restore_table (byte_table n) (raw_upd_byte_table n) restore _ _ (content n))].
  - apply IH; [set_solver|done|]. intros name Hname. cbn. rewrite lookup_insert_ne by set_solver. apply Hdb. by right.
  - unfold table_iter. by rewrite merge_sort_Permutation.
  - unfold byte_table. by rewrite Hdb by left.
  - intros kv d _. apply restore_byte. set_solver.
  - apply byte_id. rewrite Hdb by left. eauto.
Qed.

Lemma be_signed_be_bytes v : is_i64 v → be_signed (be_bytes 8 v) = v.
Proof.
  unfold is_i64, be_signed. intros Hv. rewrite be_value_be_bytes. change (256 ^ Z.of_nat 8) with (2 ^ 64).
  destruct (decide (0 ≤ v)); [rewrite Z.mod_small by lia; rewrite (proj2 (Z.ltb_lt _ _)) by lia; done|].
  rewrite <-(Z.mod_unique v (2 ^ 64) (-1) (v + 2 ^ 64)) by lia. rewrite (proj2 (Z.ltb_ge _ _)) by lia. lia.
Qed.
Lemma be_value_u64 v : is_u64 v → be_value (be_bytes 8 v) = v.
Proof. unfold is_u64, u64_max. intros Hv. rewrite be_value_be_bytes. apply Z.mod_small. change (256 ^ Z.of_nat 8) with (2 ^ 64). lia. Qed.
Lemma eight_be_bytes v : eight_bytes (be_bytes 8 v) = true.
Proof. unfold eight_bytes. by rewrite length_be_bytes. Qed.

(** The typed tables: one row of each comes back as it was. *)
Lemma restore_name k v db : utf8_valid k = true →
  restore {| table := BUCKET_NAMES_TABLE; key := k; value := v |} db = (Ok (), raw_upd_names <[k := v]> db).
Proof. intros Hk. unfold restore. cbn -[utf8_valid]. unfold mbind, tx_bind, tx_guard. by rewrite Hk. Qed.
Lemma restore_flag k v db : restore {| table := CLEANUP_TABLE; key := k; value := [v] |} db = (Ok (), raw_upd_cleanup <[k := v]> db).
Proof. done. Qed.
Lemma restore_event k v db : is_u64 k →
  restore {| table := MUTATION_EVENTS_TABLE; key := be_bytes 8 k; value := v |} db = (Ok (), raw_upd_events <[k := v]> db).
Proof. intros Hk. unfold restore. cbn -[utf8_valid be_bytes be_value eight_bytes]. unfold mbind, tx_bind, tx_guard. by rewrite eight_be_bytes, be_value_u64. Qed.
Lemma restore_clock k v db : utf8_valid k = true → is_i64 v →
  restore {| table := CLOCK_TABLE; key := k; value := be_bytes 8 v |} db = (Ok (), raw_upd_clock <[k := v]> db).
Proof.
  intros Hk Hv. unfold restore. cbn -[utf8_valid be_bytes be_signed eight_bytes]. unfold mbind, tx_bind, tx_guard.
  by rewrite Hk, eight_be_bytes, be_signed_be_bytes.
Qed.
Lemma restore_counter k v db : utf8_valid k = true → is_u64 v →
  restore {| table := COUNTERS_TABLE; key := k; value := be_bytes 8 v |} db = (Ok (), raw_upd_counters <[k := v]> db).
Proof.
  intros Hk Hv. unfold restore. cbn -[utf8_valid be_bytes be_value eight_bytes]. unfold mbind, tx_bind, tx_guard.
  by rewrite Hk, eight_be_bytes, be_value_u64.
Qed.
Lemma restore_schema k v db : utf8_valid k = true → is_u64 v →
  restore {| table := SCHEMA_TABLE; key := k; value := be_bytes 8 v |} db = (Ok (), raw_upd_schema <[k := v]> db).
Proof.
  intros Hk Hv. unfold restore. cbn -[utf8_valid be_bytes be_value eight_bytes]. unfold mbind, tx_bind, tx_guard.
  by rewrite Hk, eight_be_bytes, be_value_u64.
Qed.

(** Importing an export gives the exported database. *)
Lemma import_export db db0 : raw_typed db → has_tables db0 → import_tx (export_tx db) db0 = (Ok (), db).
Proof.
  intros [Htables Hnames Hevents Hclock Hcounters Hschema] Hdb0. unfold import_tx. erewrite tx_bind_run_ok by by apply clear_blank.
  unfold export_tx. assert (Hblank : has_tables blank).
  { intros name. rewrite <-elem_of_dom. unfold blank. cbn [byte_tables]. rewrite dom_list_to_map_L, <-list_fmap_compose, list_fmap_id.
    by rewrite elem_of_list_to_set. }
  erewrite tx_iter_app; cycle 1.
  { apply restore_byte_tables; [done|apply (bool_decide_unpack _); vm_compute; exact I|]. intros name Hname. unfold blank. cbn [byte_tables].
    apply elem_of_list_to_map; [rewrite <-list_fmap_compose, list_fmap_id; apply (bool_decide_unpack _); vm_compute; exact I|].
    apply list_elem_of_fmap. by exists name. }
  rewrite (write_tables_all _ _ Hblank (byte_tables db)); cycle 1.
  { intros name. unfold byte_table. case_bool_decide as Hin; [by apply Htables in Hin as [t ->]|].
    apply eq_None_not_Some. by rewrite (Htables name). }
  erewrite tx_iter_app; [|apply (restore_table bucket_names raw_upd_names restore _ _ (bucket_names db)); [apply iter_perm|done| |done]].
  2: { intros [k v] d Hkv%elem_of_table_iter. by apply restore_name, (Hnames k v). }
  erewrite tx_iter_app; [|apply (restore_table cleanup raw_upd_cleanup restore _ _ (cleanup db)); [apply iter_perm|done|by intros [k v] d _|done]].
  erewrite tx_iter_app; [|apply (restore_table mutation_events raw_upd_events restore _ _ (mutation_events db)); [apply sequence_perm|done| |done]].
  2: { intros [k v] d Hkv%elem_of_sequence_iter. by apply restore_event, (Hevents k v). }
  erewrite tx_iter_app; [|apply (restore_table clock raw_upd_clock restore _ _ (clock db)); [apply iter_perm|done| |done]].
  2: { intros [k v] d Hkv%elem_of_table_iter. destruct (Hclock k v Hkv). by apply restore_clock. }
  erewrite tx_iter_app; [|apply (restore_table counters raw_upd_counters restore _ _ (counters db)); [apply iter_perm|done| |done]].
  2: { intros [k v] d Hkv%elem_of_table_iter. destruct (Hcounters k v Hkv). by apply restore_counter. }
  etrans; [apply (restore_table schema raw_upd_schema restore _ _ (schema db)); [apply iter_perm|done| |done]|by destruct db].
  intros [k v] d Hkv%elem_of_table_iter. destruct (Hschema k v Hkv). by apply restore_schema.
Qed.

(** ** The tables of the cluster catalog *)

Definition has_cluster_tables (db : gmap string raw_table) : Prop := ∀ name, is_Some (db !! name) ↔ name ∈ CLUSTER_TABLES.

Definition upd_cluster_table (name : string) (f : raw_table → raw_table) (db : gmap string raw_table) : gmap string raw_table :=
  <[name := f (cluster_table name db)]> db.
#[export] Instance cluster_lens name : Lens (gmap string raw_table) raw_table (cluster_table name) (upd_cluster_table name).
Proof.
  split.
  - intros f g d. unfold upd_cluster_table, cluster_table. by rewrite lookup_insert_eq, insert_insert_eq.
  - intros f g d Hfg. unfold upd_cluster_table. by rewrite Hfg.
  - intros f d. unfold upd_cluster_table, cluster_table. by rewrite lookup_insert_eq.
Qed.

Lemma restore_cluster_tables (names : list string) (content : string → raw_table) db :
  names ⊆ CLUSTER_TABLES → NoDup names → (∀ name, name ∈ names → db !! name = Some ∅) →
  ∃ db', tx_iter restore_cluster (names ≫= λ name, if bool_decide (content name = ∅) then [] else rows name (content name)) db = (Ok (), db') ∧
    ∀ name, db' !! name = if bool_decide (name ∈ names) then Some (content name) else db !! name.
Proof.
  revert db. induction names as [|n names IH]; intros db Hsub Hnd Hdb.
  { exists db. split; [done|]. intros name. by rewrite bool_decide_eq_false_2 by set_solver. }
  apply NoDup_cons in Hnd as [Hn Hnd]. cbn [mbind list_bind].
  assert (Hone : tx_iter restore_cluster (if bool_decide (content n = ∅) then [] else rows n (content n)) db =
                 (Ok (), upd_cluster_table n (λ _, content n) db)).
  { case_bool_decide as He.
    - unfold upd_cluster_table. rewrite He, insert_id; [done|]. apply Hdb. left.
    - apply (restore_table (cluster_table n) (upd_cluster_table n) restore_cluster _ _ (content n)).
      + apply iter_perm.
      + unfold cluster_table. by rewrite Hdb by left.
      + intros kv d _. unfold restore_cluster. cbn [table]. by rewrite bool_decide_eq_true_2 by set_solver.
      + unfold upd_cluster_table, cluster_table. rewrite insert_id; [done|]. rewrite Hdb by left. done. }
  destruct (IH (upd_cluster_table n (λ _, content n) db)) as (db' & Hrun & Hlook); [set_solver|done| |].
  { intros name Hname. unfold upd_cluster_table. rewrite lookup_insert_ne by set_solver. apply Hdb. by right. }
  exists db'. rewrite (tx_iter_app _ _ _ _ _ Hone). split; [done|]. intros name. rewrite Hlook. unfold upd_cluster_table.
  destruct (decide (name = n)) as [->|Hne].
  - rewrite (bool_decide_eq_true_2 (n ∈ n :: names)), (bool_decide_eq_false_2 (n ∈ names)) by (done || left). by rewrite lookup_insert_eq.
  - rewrite lookup_insert_ne by done. rewrite (bool_decide_ext (name ∈ n :: names) (name ∈ names)); [done|].
    rewrite elem_of_cons. naive_solver.
Qed.

Lemma foldl_blank (names : list string) (db : gmap string raw_table) name :
  foldl (λ db name, <[name := ∅]> db) db names !! name = if bool_decide (name ∈ names) then Some ∅ else db !! name.
Proof.
  revert db. induction names as [|n names IH]; intros db; [by rewrite bool_decide_eq_false_2 by set_solver|]. cbn [foldl]. rewrite IH.
  destruct (decide (name = n)) as [->|Hne].
  - rewrite (bool_decide_eq_true_2 (n ∈ n :: names)) by left. case_bool_decide; [done|]. by rewrite lookup_insert_eq.
  - rewrite lookup_insert_ne by done. rewrite (bool_decide_ext (name ∈ n :: names) (name ∈ names)); [done|].
    rewrite elem_of_cons. naive_solver.
Qed.

Lemma import_export_cluster db db0 :
  has_cluster_tables db → has_cluster_tables db0 → import_cluster_tx (export_cluster_tx db) db0 = (Ok (), db).
Proof.
  intros Hdb Hdb0. unfold import_cluster_tx.
  erewrite tx_bind_run_ok; [|apply (tx_iter_modify _ (λ name, <[name := ∅]>)); done].
  edestruct (restore_cluster_tables CLUSTER_TABLES (λ name, cluster_table name db)) as (db' & Hrun & Hlook); cycle 3.
  - unfold export_cluster_tx. rewrite Hrun. f_equal. apply map_eq. intros name. rewrite Hlook. unfold cluster_table.
    case_bool_decide as Hin; [by apply Hdb in Hin as [t ->]|]. rewrite foldl_blank, bool_decide_eq_false_2 by done.
    transitivity (@None raw_table); [apply eq_None_not_Some; by rewrite (Hdb0 name)|].
    symmetry. apply eq_None_not_Some. by rewrite (Hdb name).
  - done.
  - apply (bool_decide_unpack _). vm_compute. exact I.
  - intros name Hin. by rewrite foldl_blank, bool_decide_eq_true_2.
Qed.

(** ** A catalog is determined by its raw tables *)

Lemma zip_map_inj {V} (names : list string) (xs ys : list V) :
  NoDup names → length xs = length names → length ys = length names →
  list_to_map (M := gmap string V) (zip names xs) = list_to_map (zip names ys) → xs = ys.
Proof.
  revert xs ys. induction names as [|n names IH]; intros [|x xs] [|y ys] Hnd Hx Hy Heq; try done.
  apply NoDup_cons in Hnd as [Hn Hnd]. cbn in *.
  assert (Hout : ∀ zs : list V, list_to_map (M := gmap string V) (zip names zs) !! n = None).
  { intros zs. apply not_elem_of_list_to_map_1. intros Hin. apply Hn. apply list_elem_of_fmap in Hin as ([a b] & -> & Hin).
    by apply elem_of_zip_l in Hin. }
  assert (Hhead : x = y) by (apply (f_equal (.!! n)) in Heq; rewrite !lookup_insert_eq in Heq; congruence).
  f_equal; [done|]. apply IH; [done|lia|lia|]. apply (f_equal (delete n)) in Heq. by rewrite !delete_insert_id in Heq by done.
Qed.

Lemma zip_dom {V} (names : list string) (xs : list V) name :
  length xs = length names → is_Some (list_to_map (M := gmap string V) (zip names xs) !! name) ↔ name ∈ names.
Proof. intros Hx. rewrite <-elem_of_dom, dom_list_to_map_L, elem_of_list_to_set, fst_zip by lia. done. Qed.

#[export] Instance bytes_of_string_inj : Inj (=) (=) bytes_of_string.
Proof.
  intros s. induction s as [|a s IH]; intros [|b t] Heq; try done. cbn in Heq. injection Heq as Hab Heq. f_equal; [|by apply IH].
  unfold byte_of_ascii in Hab. apply (f_equal Z.to_N) in Hab. rewrite !N2Z.id in Hab. by rewrite <-(Ascii.ascii_N_embedding a), Hab, Ascii.ascii_N_embedding.
Qed.

Lemma text_keys_inj {V} : Inj (=) (=) (@text_keys V).
Proof. intros a b. apply (kmap_inj bytes_of_string). Qed.

#[export] Instance fmap_rows_inj {V W} (f : V → W) `{!Inj (=) (=) f} `{Countable K} : Inj (=) (=) (fmap f : gmap K V → gmap K W).
Proof. apply map_fmap_inj. done. Qed.

Lemma singleton_row_inj {A} (json : A → bytes) `{!Inj (=) (=) json} : Inj (=) (=) (singleton_row json).
Proof.
  intros [a|] [b|] Heq; cbn in Heq; [|by apply map_non_empty_singleton in Heq|symmetry in Heq; by apply map_non_empty_singleton in Heq|done].
  apply map_singleton_inj in Heq as [_ Heq]. f_equal. by apply (inj json).
Qed.

Lemma fmap_inj_on {V W} (f : V → W) (P : V → Prop) (a b : gmap bytes V) :
  (∀ x y, P x → P y → f x = f y → x = y) → map_Forall (λ _, P) a → map_Forall (λ _, P) b → f <$> a = f <$> b → a = b.
Proof.
  intros Hf Ha Hb Heq. apply map_eq. intros k. apply (f_equal (.!! k)) in Heq. rewrite !lookup_fmap in Heq.
  destruct (a !! k) as [x|] eqn:Hx, (b !! k) as [y|] eqn:Hy; try done. f_equal. cbn in Heq. apply Hf; [by eapply Ha|by eapply Hb|congruence].
Qed.

#[export] Instance one_byte_inj : Inj (=) (=) (λ code : Z, [code]).
Proof. by intros a b [= ->]. Qed.

Lemma text_keys_forall {V} (P : bytes → V → Prop) (t : gmap string V) :
  map_Forall (λ k, P (bytes_of_string k)) t → map_Forall P (text_keys t).
Proof. intros Ht k v. unfold text_keys. rewrite lookup_kmap_Some by apply _. intros (k' & -> & Hk). by apply Ht. Qed.

Section Rows.
Context `{RowJson} `{ClusterRowJson}.

Lemma raw_metadata_inj : Inj (=) (=) raw_metadata.
Proof.
  intros a b Heq. pose proof (f_equal byte_tables Heq) as Hbytes. pose proof (f_equal bucket_names Heq) as Hnames.
  pose proof (f_equal cleanup Heq) as Hclean. pose proof (f_equal mutation_events Heq) as Hevents.
  pose proof (f_equal clock Heq) as Hclock. pose proof (f_equal counters Heq) as Hcounters. clear Heq.
  cbn [raw_metadata byte_tables bucket_names cleanup mutation_events clock counters] in *.
  apply zip_map_inj in Hbytes; [|apply (bool_decide_unpack _); vm_compute; exact I|done|done].
  injection Hbytes. intros. destruct a, b; cbn in *. f_equal; try done; try (by eapply (inj (fmap _))); by apply text_keys_inj.
Qed.

Lemma raw_metadata_tables c : has_tables (raw_metadata c).
Proof. intros name. by apply zip_dom. Qed.

Lemma raw_metadata_typed c : catalog_typed c → raw_typed (raw_metadata c).
Proof.
  intros [_ Hnames Hevents Hclock Hcounters]. split; cbn [raw_metadata bucket_names mutation_events clock counters schema].
  - apply raw_metadata_tables.
  - apply map_Forall_fmap. exact Hnames.
  - apply map_Forall_fmap. exact Hevents.
  - by apply text_keys_forall.
  - by apply text_keys_forall.
  - apply map_Forall_singleton. split; [reflexivity|]. unfold METADATA_SCHEMA_VERSION, is_u64, u64_max. lia.
Qed.

Lemma raw_cluster_tables c : has_cluster_tables (raw_cluster c).
Proof. intros name. by apply zip_dom. Qed.

Lemma raw_cluster_inj a b : cluster_typed a → cluster_typed b → raw_cluster a = raw_cluster b → a = b.
Proof.
  intros Ha Hb Heq. unfold raw_cluster in Heq. apply zip_map_inj in Heq; [|apply (bool_decide_unpack _); vm_compute; exact I|done|done].
  injection Heq. intros Hpolicies Hcredentials Htokens Hoperations Hobjects Hqueue Htasks Htombs Hreplicas Hplacements Hcounters Hmembers Hnodes Hconfig Hident.
  apply (singleton_row_inj config_json) in Hconfig. apply (singleton_row_inj identity_json) in Hident.
  apply (fmap_inj_on _ is_u64) in Hcounters; [|intros x y; apply be_bytes_u64_inj|by apply text_keys_forall|by apply text_keys_forall].
  destruct a, b; cbn in *. f_equal; try done; try (by eapply (inj (fmap _))). by apply text_keys_inj.
Qed.
End Rows.

End SnapshotTheorems.
