(* ===== verification/ConsensusTheorems.v ===== *)
(** * Replicated writes

    What a log entry does to a member: a write of any nesting is its single commands in
    order, all of them or none; an object-catalog command answers as it does on a
    standalone node, up to the classification of its error; members that apply a log
    hold reachable catalogs of the declared types; and the refusals that stop a member. *)

From S2P Require Import Prelude Bytes Text Tables ObjectLock CoreTypes Keys Catalog Commands CatalogInv Reachable CatalogPayloads Topology Replicas ClusterCatalog ClusterInv CatalogTypes Consensus.
Import ObjectLock CoreTypes Keys Catalog Commands Reachable CatalogPayloads CatalogTypes Consensus.

Module ConsensusTheorems.

(** ** Writes as single commands *)

Inductive single :=
  | OneMetadata (command : MetadataCommand)
  | OneCluster (command : ClusterCatalog.ClusterCommand).

Fixpoint singles (w : ClusterWrite) : list single :=
  match w with
  | WMetadata command => [OneMetadata command]
  | WCluster command => [OneCluster command]
  | WBatch commands => flat_map singles commands
  | WNoop => []
  end.

Definition rejection_of (r : ClusterWriteResponse) : option CommandRejection :=
  match r with Rejected rejection => Some rejection | _ => None end.

Section write_ind.
Context (P : ClusterWrite → Prop) (Pm : ∀ c, P (WMetadata c)) (Pc : ∀ c, P (WCluster c))
  (Pb : ∀ ws, Forall P ws → P (WBatch ws)) (Pn : P WNoop).

Fixpoint write_ind (w : ClusterWrite) : P w :=
  match w with
  | WMetadata c => Pm c
  | WCluster c => Pc c
  | WBatch ws =>
      Pb ws ((fix go ws : Forall P ws :=
        match ws with [] => Forall_nil_2 P | w :: ws => Forall_cons_2 P w ws (write_ind w) (go ws) end) ws)
  | WNoop => Pn
  end.
End write_ind.

Section Writes.
Context `{LibraryTexts} `{UuidCrate}.
Notation step := (tx ReplicatedState DurableFailure).

Definition apply_single (x : single) : step ClusterWriteResponse :=
  match x with
  | OneMetadata command => apply_metadata_command command
  | OneCluster command => apply_cluster_command command
  end.

(** Commands one after the other, up to the first that is refused. *)
Fixpoint in_order (l : list single) : step (option CommandRejection) :=
  match l with
  | [] => mret None
  | x :: l =>
      response ← apply_single x;
      match rejection_of response with Some rejection => mret (Some rejection) | None => in_order l end
  end.

Lemma in_order_app l k s :
  in_order (l ++ k) s =
    match in_order l s with
    | (Ok None, s') => in_order k s'
    | other => other
    end.
Proof.
  revert s. induction l as [|x l IH]; intros s; [done|]. cbn [in_order app]. unfold mbind, tx_bind.
  destruct (apply_single x s) as [[r|e] s1]; [|done]. destruct (rejection_of r); [done|]. apply IH.
Qed.

Lemma apply_write_in_order w s :
  in_order (singles w) s = (rejection_of <$> (apply_write w s).1, (apply_write w s).2).
Proof.
  revert s. induction w as [c|c|ws IH|] using write_ind; intros s.
  - cbn [singles in_order apply_write apply_single]. unfold mbind, tx_bind.
    destruct (apply_metadata_command c s) as [[[]|] ?]; done.
  - cbn [singles in_order apply_write apply_single]. unfold mbind, tx_bind.
    destruct (apply_cluster_command c s) as [[[]|] ?]; done.
  - cbn [singles apply_write].
    match goal with |- context [?f ws (@nil ClusterWriteResponse) s] =>
      enough (∀ responses s, in_order (flat_map singles ws) s =
        (rejection_of <$> (f ws responses s).1, (f ws responses s).2)) as Hgo; [exact (Hgo [] s)|] end.
    clear s. induction IH as [|w ws Hw _ IH]; intros responses s; [reflexivity|]. cbn [flat_map].
    rewrite in_order_app, Hw. unfold mbind, tx_bind.
    destruct (apply_write w s) as [[r|e] s1]; [|reflexivity].
    destruct r; cbn [rejection_of fmap result_fmap fst snd]; first [apply IH|reflexivity].
  - done.
Qed.

Lemma apply_entry_in_order id w s :
  match in_order (singles w) (record_applied id s) with
  | (Ok None, s') =>
      ∃ response, apply_entry {| log_id := id; payload := Normal w |} s = (Ok response, s') ∧ rejection_of response = None
  | (Ok (Some rejection), _) =>
      apply_entry {| log_id := id; payload := Normal w |} s = (Ok (Rejected rejection), record_applied id s)
  | (Err (Durable reason), _) =>
      apply_entry {| log_id := id; payload := Normal w |} s = (Err (ApplyFailed id reason), s)
  end.
Proof.
  rewrite apply_write_in_order. unfold apply_entry. cbn [payload log_id].
  destruct (apply_write w (record_applied id s)) as [[[]|[]] s']; cbn; eauto.
Qed.

(** ** Invariants of members *)

(** What must hold of each command where it is applied. *)
Section Invariant.
Context (ok : single → ReplicatedState → Prop).

Fixpoint singles_ok (l : list single) (s : ReplicatedState) : Prop :=
  match l with
  | [] => True
  | x :: l =>
      ok x s ∧ match apply_single x s with
               | (Ok response, s') => if rejection_of response then True else singles_ok l s'
               | (Err _, _) => True
               end
  end.
Definition entry_ok (e : ConsensusEntry) (s : ReplicatedState) : Prop :=
  match payload e with Normal w => singles_ok (singles w) (record_applied (log_id e) s) | _ => True end.
Fixpoint log_ok (entries : list ConsensusEntry) (s : ReplicatedState) : Prop :=
  match entries with [] => True | e :: entries => entry_ok e s ∧ log_ok entries (apply_entry e s).2 end.

#[export] Instance singles_ok_dec `{∀ x s, Decision (ok x s)} l s : Decision (singles_ok l s).
Proof.
  revert s. induction l as [|x l IH]; intros s; cbn [singles_ok]; [apply _|]. apply and_dec; [apply _|].
  destruct (apply_single x s) as [[r|] ?]; [|apply _]. destruct (rejection_of r); apply _.
Defined.
#[export] Instance log_ok_dec `{∀ x s, Decision (ok x s)} entries s : Decision (log_ok entries s).
Proof.
  revert s. induction entries as [|e entries IH]; intros s; cbn [log_ok]; [apply _|]. apply and_dec; [|apply _].
  unfold entry_ok. destruct (payload e); apply _.
Defined.

Context (I : ReplicatedState → Prop).
Hypothesis I_applied : ∀ id s, I s → I (record_applied id s).
Hypothesis I_membership : ∀ m s, I s → I (record_membership m s).
Hypothesis I_single : ∀ x s response s', I s → ok x s → apply_single x s = (Ok response, s') → rejection_of response = None → I s'.

Lemma in_order_invariant l s s' : I s → singles_ok l s → in_order l s = (Ok None, s') → I s'.
Proof.
  revert s. induction l as [|x l IH]; intros s HI Hok Hrun; cbn [in_order singles_ok] in *; [by apply tx_ret_ok in Hrun as [_ ->]|].
  destruct Hok as [Hx Hok]. unfold mbind, tx_bind in Hrun. destruct (apply_single x s) as [[r|e] s1] eqn:Hs; [|done].
  destruct (rejection_of r) eqn:Hr; [done|]. eapply IH; [by eapply I_single|done|done].
Qed.

Lemma entry_invariant e s : I s → entry_ok e s → I (apply_entry e s).2.
Proof.
  intros HI Hok. destruct e as [id [|w|m]]; [by apply I_applied| |by apply I_membership, I_applied].
  pose proof (apply_entry_in_order id w s) as Hrun.
  destruct (in_order (singles w) (record_applied id s)) as [[[j|]|[reason]] s'] eqn:Hl.
  - rewrite Hrun. by apply I_applied.
  - destruct Hrun as (r & -> & _). eapply in_order_invariant; [by apply I_applied|exact Hok|exact Hl].
  - by rewrite Hrun.
Qed.

Lemma log_invariant entries s : I s → log_ok entries s → I (apply entries s).2.
Proof.
  revert s. induction entries as [|e entries IH]; intros s HI Hok; [done|]. destruct Hok as [He Hok].
  cbn [apply]. unfold mbind, tx_bind. pose proof (entry_invariant e s HI He) as HI'.
  destruct (apply_entry e s) as [[r|x] s1]; [|done]. cbn in Hok, HI'. specialize (IH s1 HI' Hok).
  destruct (apply entries s1) as [[rs|] s2]; done.
Qed.
End Invariant.

(** *** Reachable catalogs *)

Definition caller_ok (x : single) (s : ReplicatedState) : Prop :=
  match x with
  | OneMetadata command => command_ok (metadata s) command
  | OneCluster command =>
      ClusterInv.cluster_ok (cluster s) command ∧ ClusterInv.fits (ClusterInv.after command (cluster s))
  end.
#[export] Instance caller_ok_dec x s : Decision (caller_ok x s).
Proof.
  destruct x; cbn [caller_ok]; [apply _|]. apply and_dec; [apply ClusterSamples.cluster_ok_dec|apply ClusterSamples.fits_dec].
Defined.

Definition catalogs_reachable (s : ReplicatedState) : Prop :=
  reachable (metadata s) ∧ ClusterInv.cluster_reachable (cluster s).

Lemma catalog_reachable_step cmd c o c' :
  reachable c → command_ok c cmd → Commands.apply_command_tx cmd c = (Ok o, c') → reachable c'.
Proof.
  intros (cmds & Hadm & ->) Hok Hrun. exists (cmds ++ [cmd]).
  rewrite admissible_app, run_app. cbn. unfold commit_one, atomically. rewrite Hrun. auto.
Qed.

Lemma apply_metadata_ok cmd s r s' :
  apply_metadata_command cmd s = (Ok r, s') → rejection_of r = None →
  ∃ o c, Commands.apply_command_tx cmd (metadata s) = (Ok o, c) ∧ r = RMetadata o ∧ s' = upd_metadata c s.
Proof.
  unfold apply_metadata_command. destruct (Commands.apply_command_tx cmd (metadata s)) as [[o|e] c]; [naive_solver|].
  destruct (is_durable_metadata_failure e); intros; by simplify_eq.
Qed.
Lemma apply_cluster_write_ok cmd s r s' :
  apply_cluster_command cmd s = (Ok r, s') → rejection_of r = None →
  ∃ o c, ClusterCatalog.apply_command_tx cmd (cluster s) = (Ok o, c) ∧ r = RCluster o ∧ s' = upd_cluster c s.
Proof.
  unfold apply_cluster_command. destruct (ClusterCatalog.apply_command_tx cmd (cluster s)) as [[o|e] c]; [naive_solver|].
  destruct (is_durable_cluster_failure e); intros; by simplify_eq.
Qed.

Lemma caller_ok_single x s r s' :
  catalogs_reachable s → caller_ok x s → apply_single x s = (Ok r, s') → rejection_of r = None → catalogs_reachable s'.
Proof.
  intros [Hm Hc] Hok Hrun Hr. destruct x as [cmd|cmd]; cbn [caller_ok apply_single] in *.
  - apply apply_metadata_ok in Hrun as (o & c & Hrun & _ & ->); [|done]. split; [by eapply catalog_reachable_step|done].
  - apply apply_cluster_write_ok in Hrun as (o & c & Hrun & _ & ->); [|done]. split; [done|]. destruct Hok as [Hok Hfits].
    apply ClusterInv.apply_cluster_ok in Hrun. unfold ClusterInv.after in Hfits. rewrite Hrun in Hfits.
    apply (ClusterInv.cluster_reachable_run (cluster s) [cmd]); [done|].
    apply (ClusterInv.run_snoc (cluster s) [] cmd (cluster s)); [constructor|]. split_and!; eauto.
Qed.

Lemma log_reachable entries s : catalogs_reachable s → log_ok caller_ok entries s → catalogs_reachable (apply entries s).2.
Proof. apply log_invariant; [done|done|]. intros. by eapply caller_ok_single. Qed.

(** Callers that introduce payloads in no use. *)
Definition mints (x : single) (s : ReplicatedState) : Prop :=
  match x with
  | OneMetadata command => command_ok (metadata s) command ∧ introduces_fresh (metadata s) command
  | OneCluster _ => True
  end.
Lemma log_owned entries : log_ok mints entries initial_state → owned (metadata (apply entries initial_state).2).
Proof.
  intros Hok. apply (log_invariant mints (λ s, reachable (metadata s) ∧ owned (metadata s))); [done|done| | |done].
  - intros x s r s' [Hreach Hown] Hx Hrun Hr. destruct x as [cmd|cmd]; cbn [mints apply_single] in *.
    + apply apply_metadata_ok in Hrun as (o & c & Hrun & _ & ->); [|done]. destruct Hx as [Hx Hnew].
      split; [by eapply catalog_reachable_step|]. by eapply command_owned; [apply reachable_inv|..].
    + by apply apply_cluster_write_ok in Hrun as (o & c & _ & _ & ->).
  - split; [by exists []|apply empty_owned].
Qed.

(** *** Types *)

Definition single_typed (x : single) (_ : ReplicatedState) : Prop :=
  match x with OneMetadata command => command_typed command | OneCluster _ => True end.
Definition catalogs_typed (s : ReplicatedState) : Prop := catalog_typed (metadata s) ∧ cluster_typed (cluster s).

Lemma typed_single x s r s' :
  catalogs_typed s → single_typed x s → apply_single x s = (Ok r, s') → rejection_of r = None → catalogs_typed s'.
Proof.
  intros [Hm Hc] Hok Hrun Hr. destruct x as [cmd|cmd]; cbn [single_typed apply_single] in *.
  - apply apply_metadata_ok in Hrun as (o & c & Hrun & _ & ->); [|done]. split; [|done].
    exact (apply_command_types cmd Hok _ _ _ Hrun Hm).
  - apply apply_cluster_write_ok in Hrun as (o & c & Hrun & _ & ->); [|done]. split; [done|].
    exact (apply_cluster_types cmd _ _ _ Hrun Hc).
Qed.

(** A command is typed wherever it is applied. *)
Definition entry_typed (e : ConsensusEntry) : Prop :=
  match payload e with Normal w => Forall (λ x, single_typed x initial_state) (singles w) | _ => True end.
#[export] Instance entry_typed_dec e : Decision (entry_typed e).
Proof. unfold entry_typed. destruct (payload e) as [|w|]; [apply _| |apply _]. apply Forall_dec. intros []; apply _. Defined.

Lemma singles_typed l s : Forall (λ x, single_typed x initial_state) l → singles_ok single_typed l s.
Proof.
  intros Hl. revert s. induction Hl as [|x l Hx _ IH]; intros s; [done|]. split; [by destruct x|].
  destruct (apply_single x s) as [[r|] ?]; [|done]. by destruct (rejection_of r).
Qed.
Lemma entry_types e s : entry_typed e → catalogs_typed s → catalogs_typed (apply_entry e s).2.
Proof.
  intros He Hs. eapply (entry_invariant single_typed); [done|done| |done|].
  - intros. by eapply typed_single.
  - unfold entry_ok, entry_typed in *. destruct (payload e); [done| |done]. by apply singles_typed.
Qed.
End Writes.
End ConsensusTheorems.
