(* ===== verification/Replicated.v ===== *)
(** * The replicated repositories

    [crates/record-store-consensus/src/consensus.rs] and [repository.rs]: proposing a
    write to the consensus group, forwarding it to the leader, and turning the response
    into the result a caller of the object catalog or of the cluster catalog sees. The
    engine ([openraft]) and the transport to the leader are parameters. *)

From stdpp Require Import pretty.
From S2P Require Import Prelude Bytes Text Tables ObjectLock CoreTypes Keys Catalog Commands CatalogInv Reachable Topology Replicas ClusterCatalog ClusterInv CatalogTypes Consensus ConsensusTheorems.
Import ObjectLock CoreTypes Catalog Commands Consensus.

Module Replicated.

Inductive ConsensusError :=
  | LogStore (text : string)
  | State (text : string)
  | Configuration (reason : string)
  | NoLeader
  | NotLeader (leader : Z) (address : bytes)
  | QuorumUnavailable (reason : string)
  | Forward (reason : string)
  | Stopped (reason : string)
  | CommandRejected (rejection : CommandRejection)
  | Internal (reason : string).

Definition retryable (e : ConsensusError) : bool :=
  match e with NoLeader | QuorumUnavailable _ | Forward _ => true | _ => false end.
Definition definitely_not_committed (e : ConsensusError) : bool :=
  match e with
  | CommandRejected _ | NoLeader | NotLeader _ _ | Configuration _ | LogStore _ | State _ => true
  | Forward _ | Stopped _ | QuorumUnavailable _ | Internal _ => false
  end.

Definition consensus_error_display (e : ConsensusError) : string :=
  match e with
  | LogStore text | State text => text
  | Configuration reason => "invalid consensus configuration: " +:+ reason
  | NoLeader =>
      "cluster metadata has no leader right now; the operation cannot be completed until a quorum elects one"
  | NotLeader leader address =>
      "cluster metadata leader is member " +:+ pretty leader +:+ " at " +:+ string_of_bytes address +:+
      ", and this node cannot forward"
  | QuorumUnavailable reason => "cluster metadata quorum is unavailable: " +:+ reason
  | Forward reason => "forwarding the metadata operation to the leader failed: " +:+ reason
  | Stopped reason => "cluster metadata consensus stopped: " +:+ reason
  | CommandRejected rejection => rejection_message rejection
  | Internal reason => "cluster metadata consensus failed: " +:+ reason
  end.

(** [openraft]'s answer to [Raft::client_write]. *)
Record ForwardToLeader := { leader_id : option Z; leader_address_of : option bytes }.
Inductive ClientWrite :=
  | Committed (response : ClusterWriteResponse)
  | MustForward (forward : ForwardToLeader)
  | ChangeMembershipError (text : string)
  | Fatal (text : string).

Definition leader_address (forward : ForwardToLeader) : result ConsensusError (Z * bytes) :=
  match leader_id forward, leader_address_of forward with
  | Some leader, Some address => Ok (leader, address)
  | _, _ => Err NoLeader
  end.
Definition forward_error (forward : ForwardToLeader) : ConsensusError :=
  match leader_address forward with
  | Ok (leader, address) => NotLeader leader address
  | Err e => e
  end.

(** The transport to the leader, when the node has one ([LeaderForwarder]). *)
Definition forwarder := option (Z → bytes → ClusterWrite → result ConsensusError ClusterWriteResponse).

Definition forward_write (f : forwarder) (forward : ForwardToLeader) (command : ClusterWrite)
    : result ConsensusError ClusterWriteResponse :=
  '(leader, address) ← leader_address forward;
  match f with
  | None => Err (NotLeader leader address)
  | Some send => send leader address command
  end.

Section Proposals.
Context (client_write : ClusterWrite → ClientWrite) (f : forwarder).

Definition write (command : ClusterWrite) : result ConsensusError ClusterWriteResponse :=
  match client_write command with
  | Committed response => Ok response
  | MustForward forward => forward_write f forward command
  | ChangeMembershipError text => Err (Configuration text)
  | Fatal text => Err (Stopped text)
  end.
Definition write_without_forwarding (command : ClusterWrite) : result ConsensusError ClusterWriteResponse :=
  match client_write command with
  | Committed response => Ok response
  | MustForward forward => Err (forward_error forward)
  | ChangeMembershipError text => Err (Configuration text)
  | Fatal text => Err (Stopped text)
  end.
(** [leadership] is the term this member leads, if it leads one. *)
Definition write_as_leader (leadership : option Z) (term : Z) (command : ClusterWrite)
    : result ConsensusError ClusterWriteResponse :=
  if negb (bool_decide (leadership = Some term)) then Err NoLeader
  else
    match client_write command with
    | Committed response => Ok response
    | MustForward _ => Err NoLeader
    | ChangeMembershipError text => Err (Configuration text)
    | Fatal text => Err (Stopped text)
    end.

Definition metadata_error (e : ConsensusError) : MetadataError :=
  match e with
  | CommandRejected rejection => into_metadata_error rejection
  | other => Database "replicated metadata operation" (consensus_error_display other)
  end.
Definition propose (command : MetadataCommand) : result MetadataError MetadataOutcome :=
  match write (WMetadata command) with
  | Ok response => into_metadata response
  | Err e => Err (metadata_error e)
  end.

Definition cluster_error (e : ConsensusError) : ClusterCatalog.ClusterCatalogError :=
  match e with
  | CommandRejected rejection => ClusterCatalog.DatabaseRefused "replicated cluster command" (rejection_message rejection)
  | other => ClusterCatalog.DatabaseRefused "replicated cluster operation" (consensus_error_display other)
  end.
Definition propose_cluster (command : ClusterCatalog.ClusterCommand)
    : result ClusterCatalog.ClusterCatalogError ClusterCatalog.ClusterOutcome :=
  match write (WCluster command) with
  | Ok response =>
      map_err (λ rejection, ClusterCatalog.DatabaseRefused "replicated cluster command" (rejection_message rejection))
        (into_cluster response)
  | Err e => Err (cluster_error e)
  end.
End Proposals.

End Replicated.

(** * The replicated repositories answer like the catalogs

    A proposed object-catalog command changes the members' catalogs as a standalone node
    would change its own, and answers the same up to the classification of errors; the
    refusals of the cluster catalog that are classified as failures of the database. *)

Import Text ObjectLock CoreTypes Keys Catalog Commands Reachable Consensus ConsensusTheorems Replicated.

Module ReplicatedTheorems.

(** ** Errors of a transaction *)

Definition raises {S E A} (P : E → Prop) (m : tx S E A) : Prop := ∀ s e s', m s = (Err e, s') → P e.

Section Raises.
Context {S E : Type} (P : E → Prop).

Lemma raises_ret {A} (a : A) : raises P (mret (M := tx S E) a).
Proof. by intros s e s' [=]. Qed.
Lemma raises_gets {A} (f : S → A) : raises P (tx_gets (E := E) f).
Proof. by intros s e s' [=]. Qed.
Lemma raises_modify (f : S → S) : raises P (tx_modify (E := E) f).
Proof. by intros s e s' [=]. Qed.
Lemma raises_some {A} (e : E) (o : option A) : P e → raises P (tx_some (S := S) e o).
Proof. intros He s e' s'. unfold tx_some. by destruct o; intros [= <- _]. Qed.
Lemma raises_guard (b : bool) (e : E) : P e → raises P (tx_guard (S := S) b e).
Proof. intros He s e' s'. unfold tx_guard. by destruct b; intros [= <- _]. Qed.
Lemma raises_throw {A} (e : E) : P e → raises P (tx_throw (S := S) (A := A) e).
Proof. intros He s e' s' [= <- _]. done. Qed.
Lemma raises_lift {A} (r : result E A) : (∀ e, r = Err e → P e) → raises P (tx_lift (S := S) r).
Proof. intros He s e' s' [= -> _]. by apply He. Qed.
Lemma raises_bind {A B} (m : tx S E A) (f : A → tx S E B) : raises P m → (∀ a, raises P (f a)) → raises P (m ≫= f).
Proof.
  intros Hm Hf s e s'. unfold mbind, tx_bind. destruct (m s) as [[a|x] s1] eqn:Hs; intros Hrun; [by eapply Hf|].
  simplify_eq. by eapply Hm.
Qed.
Lemma raises_iter {A} (f : A → tx S E ()) l : (∀ x, raises P (f x)) → raises P (tx_iter f l).
Proof. intros Hf. induction l as [|x l IH]; cbn [tx_iter]; [apply raises_ret|by apply raises_bind]. Qed.
End Raises.

Lemma tx_bind_err {S E A B} (m : tx S E A) (f : A → tx S E B) s e s' :
  (m ≫= f) s = (Err e, s') → m s = (Err e, s') ∨ ∃ a s1, m s = (Ok a, s1) ∧ f a s1 = (Err e, s').
Proof. unfold mbind, tx_bind. destruct (m s) as [[a|x] s1]; naive_solver. Qed.

(** Descends through a transaction to the errors it raises itself. *)
Ltac raises_steps :=
  repeat match goal with
  | |- raises ?P (_ ≫= _) => apply (raises_bind P); [|intros ?]
  | |- raises ?P (mret _) => apply (raises_ret P)
  | |- raises ?P (tx_gets _) => apply (raises_gets P)
  | |- raises ?P (tx_modify _) => apply (raises_modify P)
  | |- raises ?P (tx_some _ _) => apply (raises_some P)
  | |- raises ?P (tx_guard _ _) => apply (raises_guard P)
  | |- raises ?P (tx_throw _) => apply (raises_throw P)
  | |- raises ?P (tx_lift _) => apply (raises_lift P); intros ? ?
  | |- raises ?P (tx_iter _ _) => apply (raises_iter P); intros ?
  | |- raises _ (let '(_, _) := ?x in _) => destruct x
  | |- raises _ (match ?x with _ => _ end) => destruct x
  | |- raises _ (let _ := _ in _) => cbv zeta
  end.

Lemma app_ne_self (a b : string) : a ≠ EmptyString → a +:+ b ≠ b.
Proof.
  intros Ha Heq. apply (f_equal String.length) in Heq. rewrite string_app_length in Heq. destruct a; [done|cbn in Heq; lia].
Qed.

Section Answers.
Context `{LibraryTexts} `{UuidCrate}.

(** The error a caller of the replicated repository sees where the catalog raised [e]. *)
Definition client_view (e : MetadataError) : MetadataError := into_metadata_error (classify_metadata_error e).

(** The errors whose constructor survives the classification. *)
Definition classified (e : MetadataError) : bool :=
  match e with
  | BucketAlreadyExists | BucketNotFound | BucketNotEmpty | MultipartUploadNotFound | MultipartStateConflict
  | QuotaExceeded | InvalidVersioningTransition | LifecycleRuleNotFound => true
  | _ => false
  end.

Lemma client_view_exact e : client_view e = e ↔ classified e = true.
Proof.
  destruct e as [| | | | | | | | | | | | | | | | |text| |op reason|]; try done; split; try done; intros Heq; exfalso.
  - unfold client_view in Heq. cbn in Heq. injection Heq. by apply (app_ne_self "invalid lifecycle rule: ").
  - unfold client_view in Heq. cbn in Heq. injection Heq. intros Hreason <-.
    assert (String.length reason < String.length reason)%nat; [|lia]. rewrite <-Hreason at 2. rewrite !string_app_length. cbn. lia.
Qed.

Lemma apply_one_metadata id cmd s :
  match commit_one cmd (metadata s) with
  | (Ok o, c) =>
      apply_entry {| log_id := id; payload := Normal (WMetadata cmd) |} s = (Ok (RMetadata o), upd_metadata c (record_applied id s))
  | (Err e, _) =>
      apply_entry {| log_id := id; payload := Normal (WMetadata cmd) |} s =
        if is_durable_metadata_failure e then (Err (ApplyFailed id (metadata_error_display e)), s)
        else (Ok (Rejected (classify_metadata_error e)), record_applied id s)
  end.
Proof.
  unfold commit_one, atomically, apply_entry. cbn [payload log_id apply_write]. unfold apply_metadata_command. cbn [metadata record_applied].
  destruct (Commands.apply_command_tx cmd (metadata s)) as [[o|e] c]; [done|]. by destruct (is_durable_metadata_failure e).
Qed.

(** C16: A write of the log, of any nesting, is its single commands one after the other: all
    of them take effect, in order and together with the applied position; or one is
    rejected and the entry changes nothing but the applied position; or the database
    fails and the entry changes nothing at all. *)
Theorem entry_all_or_nothing id w s :
  match apply_entry {| log_id := id; payload := Normal w |} s with
  | (Ok (Rejected rejection), s') =>
      s' = record_applied id s ∧ (in_order (singles w) (record_applied id s)).1 = Ok (Some rejection)
  | (Ok _, s') => in_order (singles w) (record_applied id s) = (Ok None, s')
  | (Err (ApplyFailed at_ reason), s') =>
      s' = s ∧ at_ = id ∧ (in_order (singles w) (record_applied id s)).1 = Err (Durable reason)
  end.
Proof.
  pose proof (apply_entry_in_order id w s) as Hrun.
  destruct (in_order (singles w) (record_applied id s)) as [[[j|]|[reason]] s'].
  - by rewrite Hrun.
  - destruct Hrun as (r & -> & Hr). by destruct r.
  - by rewrite Hrun.
Qed.

(** C17: An object-catalog command proposed to the cluster changes every member's catalog as
    the same command changes the catalog of a standalone node, and leaves the cluster
    catalog alone; the caller gets the same outcome. An error comes back as
    [client_view] of it, which is the same error exactly for the eight kinds the
    classification knows: a refusal of Object Lock, among others, comes back as an
    error of the database. *)
Theorem replicated_answers cmd id s r s' client_write f :
  apply_entry {| log_id := id; payload := Normal (WMetadata cmd) |} s = (Ok r, s') →
  client_write (WMetadata cmd) = Committed r →
  metadata s' = (commit_one cmd (metadata s)).2 ∧ cluster s' = cluster s ∧
  match (commit_one cmd (metadata s)).1 with
  | Ok outcome => propose client_write f cmd = Ok outcome
  | Err e => propose client_write f cmd = Err (client_view e) ∧ (propose client_write f cmd = Err e ↔ classified e = true)
  end.
Proof.
  intros Hrun Hcommitted. unfold propose, write. rewrite Hcommitted. pose proof (apply_one_metadata id cmd s) as Hone.
  destruct (commit_one_cases cmd (metadata s)) as [(o & c & _ & Hc)|[e Hc]]; rewrite Hc in *; cbn.
  - rewrite Hone in Hrun. by simplify_eq.
  - rewrite Hrun in Hone. destruct (is_durable_metadata_failure e); simplify_eq. split_and!; try done.
    rewrite <-(client_view_exact e). cbn. change (into_metadata_error (classify_metadata_error e)) with (client_view e).
    split; [by intros [= Heq]|by intros ->].
Qed.
End Answers.

(** ** Refusals classified as failures of the database *)

Section Stops.
Context `{LibraryTexts} `{UuidCrate}.
Import Topology Replicas ClusterCatalog.

(** Where the cluster catalog refuses a command with its [Database] error. *)
Definition refused_as_database (c : ClusterCatalog) (cmd : ClusterCommand) : Prop :=
  match cmd with
  | ForgetNode node_id =>
      ∃ n, NODES c !! node_id = Some n ∧ n_state n = Decommissioned ∧ 0 < node_replica_count c node_id
  | SetDeviceState node_id device_id SafeToRemove _ =>
      is_Some (NODES c !! node_id) ∧ 0 < device_replica_count c node_id device_id
  | DeleteStoragePolicy class _ => class = DEFAULT_CLASS
  | PutStoragePolicy policy _ => is_ok (policy_validate policy) = false
  | _ => False
  end.
#[export] Instance refused_as_database_dec c cmd : Decision (refused_as_database c cmd).
Proof.
  destruct cmd as [| | | | | | | | |n d state t| | |n| | | | | | | | | | | | | | | | | | | | | | | | |];
    cbn [refused_as_database]; try apply _.
  - destruct state; apply _.
  - destruct (NODES c !! n) as [r|]; [|right; by intros (? & ? & _)].
    destruct (decide (n_state r = Decommissioned ∧ 0 < node_replica_count c n)) as [Hd|Hd]; [left; eauto|].
    right. intros (r' & [= <-] & ?). by apply Hd.
Defined.

Definition not_database (e : ClusterCatalogError) : Prop := is_durable_cluster_failure e = false.

Lemma other_commands_raise cmd :
  match cmd with
  | ForgetNode _ | SetDeviceState _ _ _ _ | DeleteStoragePolicy _ _ | PutStoragePolicy _ _ => True
  | _ => raises not_database (ClusterCatalog.apply_command_tx cmd)
  end.
Proof.
  destruct cmd; try done; cbn [ClusterCatalog.apply_command_tx]; CatalogTypes.cluster_unfold;
    unfold ClusterCatalog.advance_cluster_map_epoch, ClusterCatalog.recount_durability, ClusterCatalog.require_config,
      ClusterCatalog.adjust_counter, ClusterCatalog.set_counter; raises_steps; try done;
    match goal with Hlift : _ = Err _ |- _ => unfold map_err, fmap, result_fmap in Hlift; repeat case_match; by simplify_eq end.
Qed.

Ltac not_durable Hrun :=
  match type of Hrun with ?m _ = _ =>
    assert (raises not_database m) as Hraises; [|apply Hraises in Hrun; unfold not_database in Hrun; rewrite Hrun] end.
Ltac no_error Hrun :=
  match type of Hrun with ?m _ = _ =>
    assert (raises (λ _, False) m) as Hraises; [|by apply Hraises in Hrun] end;
  unfold ClusterCatalog.advance_cluster_map_epoch, ClusterCatalog.set_counter; raises_steps.

(** Marking a device safe to remove while it owns replicas, and forgetting a node that
    owns replicas. *)
Lemma set_device_state_stops c node_id device_id state e c' :
  set_device_state node_id device_id state c = (Err e, c') →
  is_durable_cluster_failure e = true ↔
    state = SafeToRemove ∧ is_Some (NODES c !! node_id) ∧ 0 < device_replica_count c node_id device_id.
Proof.
  unfold set_device_state, require_node. intros Hrun.
  apply tx_bind_err in Hrun as [Hrun|(n & s1 & Hn & Hrun)].
  { unfold mbind, tx_bind, tx_gets, tx_some, ok_or in Hrun. destruct (NODES c !! node_id); simplify_eq. split; [done|]. by intros (_ & [? ?] & _). }
  tx_step Hn. apply tx_bind_err in Hrun as [Hg|(held & s1 & Hg & Hrun)]; [done|]. tx_step Hg.
  apply tx_bind_err in Hrun as [Hg|(u & s1 & Hg & Hrun)].
  - unfold tx_guard in Hg. destruct (bool_decide (state = SafeToRemove) && _) eqn:Hheld; cbn in Hg; simplify_eq. bool_facts.
    split; [|done]. intros _. eauto.
  - tx_step Hg. not_durable Hrun.
    + unfold put_node, ClusterCatalog.advance_cluster_map_epoch, ClusterCatalog.recount_durability, ClusterCatalog.require_config,
        ClusterCatalog.set_counter. raises_steps; try done.
      match goal with Hlift : map_err _ ?r = Err _ |- _ => unfold map_err in Hlift; destruct r; by simplify_eq end.
    + split; [done|]. intros (-> & _ & Hheld).
      match goal with Hg : negb _ = true |- _ => rewrite bool_decide_true in Hg by done; cbn in Hg; bool_facts; lia end.
Qed.

Lemma forget_node_stops c node_id e c' :
  forget_node node_id c = (Err e, c') →
  is_durable_cluster_failure e = true ↔
    ∃ n, NODES c !! node_id = Some n ∧ n_state n = Decommissioned ∧ 0 < node_replica_count c node_id.
Proof.
  unfold forget_node. intros Hrun. apply tx_bind_err in Hrun as [Hg|(found & s1 & Hg & Hrun)]; [done|]. tx_step Hg.
  destruct (NODES c !! node_id) as [n|]; [|done].
  apply tx_bind_err in Hrun as [Hg|(u & s1 & Hg & Hrun)].
  { unfold tx_guard in Hg. case_bool_decide as Hd; simplify_eq. split; [done|]. intros (n' & [= <-] & ? & _). done. }
  tx_step Hg. bool_facts. apply tx_bind_err in Hrun as [Hg|(held & s1 & Hg & Hrun)]; [done|]. tx_step Hg.
  apply tx_bind_err in Hrun as [Hg|(u' & s1 & _ & Hrun)]; [|exfalso; no_error Hrun].
  unfold tx_guard in Hg. destruct (0 <? _) eqn:Hheld; cbn in Hg; simplify_eq. split; [|done]. intros _. exists n. split_and!; [done|done|lia].
Qed.

(** A command of the cluster catalog fails with an error that stops the member exactly
    in those four situations. *)
Lemma refused_as_database_iff c cmd e c' :
  ClusterCatalog.apply_command_tx cmd c = (Err e, c') →
  is_durable_cluster_failure e = true ↔ refused_as_database c cmd.
Proof.
  intros Hrun. pose proof (other_commands_raise cmd) as Hother.
  destruct cmd; try (split; [|done]; apply Hother in Hrun; by rewrite Hrun); clear Hother; cbn [refused_as_database] in *.
  3: { rewrite (set_device_state_stops _ _ _ _ _ _ Hrun). destruct state; naive_solver. }
  3: by apply forget_node_stops with c'.
  - cbn [ClusterCatalog.apply_command_tx] in Hrun. unfold put_storage_policy in Hrun.
    apply tx_bind_err in Hrun as [Hv|(u & s1 & _ & Hrun)]; [|exfalso; no_error Hrun].
    unfold tx_lift, map_err in Hv. destruct (policy_validate policy); by simplify_eq.
  - cbn [ClusterCatalog.apply_command_tx] in Hrun. unfold delete_storage_policy in Hrun.
    apply tx_bind_err in Hrun as [Hg|(u & s1 & _ & Hrun)]; [|exfalso; no_error Hrun].
    unfold tx_guard in Hg. case_bool_decide; cbn in Hg; by simplify_eq.
Qed.

Lemma refused_fails c cmd :
  refused_as_database c cmd → ∃ e c', ClusterCatalog.apply_command_tx cmd c = (Err e, c').
Proof.
  intros Href. destruct cmd; try done; cbn [refused_as_database] in Href; cbn [ClusterCatalog.apply_command_tx].
  - unfold put_storage_policy, mbind, tx_bind, tx_lift, map_err. destruct (policy_validate policy); [done|eauto].
  - subst. unfold delete_storage_policy, mbind, tx_bind, tx_guard. rewrite bool_decide_true by done. cbn. eauto.
  - destruct state; try done. destruct Href as ([n Hn] & Hheld). apply Z.ltb_lt in Hheld.
    unfold set_device_state, require_node, mbind, tx_bind, tx_gets, tx_some, tx_guard. rewrite Hn. cbn -[device_replica_count].
    rewrite Hheld. cbn. eauto.
  - destruct Href as (n & Hn & Hstate & Hheld). apply Z.ltb_lt in Hheld.
    unfold forget_node, mbind, tx_bind, tx_gets, tx_guard. rewrite Hn, bool_decide_true, Hheld by done. cbn. eauto.
Qed.
End Stops.
(** ** Failures of object-catalog commands *)

Section MetadataFailures.
Context `{UuidCrate}.

Definition only_counters (e : MetadataError) : Prop := is_durable_metadata_failure e = true → e = counter_error.

Ltac unfold_errors :=
  unfold create_bucket_tx, set_bucket_versioning_tx, set_bucket_object_lock_tx,
    set_bucket_quota_tx, delete_bucket_tx, write_marker,
    delete_object_version_tx, promote_latest, uncount_version,
    uncount_current, put_object_lock_tx, create_multipart_upload_tx, put_multipart_part_tx,
    begin_multipart_completion_tx, remove_multipart_tx, put_lifecycle_rule_tx, delete_lifecycle_rule_tx,
    complete_cleanup_tx, update_bucket_tx, bucket_name_of, enforce_deletable, assert_unlocked,
    prune_mutation_events_tx, read_bucket, read_bucket_usage, write_bucket_usage,
    insert_version, remove_version, set_null, clear_null, latest_version, publish_current,
    remove_current, current_version, list_parts_tx, has_multipart, queue_cleanup, adjust_counter,
    read_object_lock, write_object_lock, remove_object_lock, observe_clock, journal_event.

Lemma remove_multipart_raises id completing at_ : raises only_counters (remove_multipart_tx id completing at_).
Proof. unfold_errors. raises_steps; done. Qed.

Lemma recover_multipart_raises : raises only_counters recover_multipart_completions_tx.
Proof.
  unfold recover_multipart_completions_tx. raises_steps.
  match goal with |- raises _ (recover_uploads ?l) => induction l as [|u l IH] end; cbn [recover_uploads]; raises_steps; [|done].
  unfold recover_upload. raises_steps. apply remove_multipart_raises.
Qed.

Lemma other_commands_counters cmd :
  match cmd with
  | PutObject _ _ _ | DeleteObject _ _ _ => True
  | _ => raises only_counters (Commands.apply_command_tx cmd)
  end.
Proof.
  destruct cmd; try done; cbn [Commands.apply_command_tx]; unfold_errors; raises_steps; try done;
    first [apply recover_multipart_raises|
           match goal with Hlift : _ = Err _ |- _ => unfold map_err in Hlift; repeat case_match; by simplify_eq end].
Qed.

Lemma take_null_total b k c e c' : CatalogInv.Inv c → take_null b k c ≠ (Err e, c').
Proof.
  intros Hinv Hrun. unfold take_null, mbind, tx_bind, tx_gets, tx_modify, tx_some, mret, tx_ret in Hrun.
  destruct (NULL_VERSIONS c !! object_key b k) as [id|] eqn:Hnull; [|done]. cbn in Hrun.
  pose proof (proj1 (CatalogInv.null_row _ _ _ _ _ (CatalogInv.inv_versions c Hinv) _ _) Hnull) as (r & Hr & _).
  by rewrite Hr in Hrun.
Qed.

Ltac counters_only Hrun :=
  match type of Hrun with ?m _ = _ => assert (raises only_counters m) as Hraises; [|by apply Hraises in Hrun] end;
  unfold_errors; raises_steps; done.

Lemma remove_null_raises b k now usage c e c' :
  CatalogInv.Inv c → remove_null_record b k now usage c = (Err e, c') → only_counters e.
Proof.
  intros Hinv Hrun. unfold remove_null_record in Hrun.
  apply tx_bind_err in Hrun as [Hg|(found & s1 & _ & Hrun)]; [by apply take_null_total in Hg|]. counters_only Hrun.
Qed.

Lemma put_object_raises m lock origin c e c' :
  CatalogInv.Inv c → put_object_tx m lock origin c = (Err e, c') → only_counters e.
Proof.
  intros Hinv Hrun. unfold put_object_tx in Hrun. cbv zeta in Hrun.
  apply tx_bind_err in Hrun as [Hg|(found & s1 & Hg & Hrun)]; [done|]. unfold read_bucket in Hg. tx_step Hg.
  apply tx_bind_err in Hrun as [Hg|(bucket & s1 & Hg & Hrun)]; [by refine (raises_some only_counters _ _ _ _ _ _ Hg)|]. tx_step Hg.
  apply tx_bind_err in Hrun as [Hg|(previous & s1 & Hg & Hrun)]; [done|]. tx_step Hg.
  apply tx_bind_err in Hrun as [Hg|(replaced & s1 & _ & Hrun)].
  { destruct (negb _); [by apply take_null_total in Hg|done]. }
  counters_only Hrun.
Qed.

Lemma delete_object_raises b k values c e c' :
  CatalogInv.Inv c → delete_object_tx b k values c = (Err e, c') → only_counters e.
Proof.
  intros Hinv Hrun. unfold delete_object_tx in Hrun. cbv zeta in Hrun.
  apply tx_bind_err in Hrun as [Hg|(found & s1 & Hg & Hrun)]; [done|]. unfold read_bucket in Hg. tx_step Hg.
  apply tx_bind_err in Hrun as [Hg|(bucket & s1 & Hg & Hrun)]; [by refine (raises_some only_counters _ _ _ _ _ _ Hg)|]. tx_step Hg.
  apply tx_bind_err in Hrun as [Hg|(previous & s1 & Hg & Hrun)]; [done|]. tx_step Hg.
  apply tx_bind_err in Hrun as [Hg|(usage & s1 & Hg & Hrun)]; [done|]. unfold read_bucket_usage in Hg. tx_step Hg.
  apply tx_bind_err in Hrun as [Hg|([[? ?] ?] & s1 & _ & Hrun)].
  - unfold delete_by_versioning in Hg. destruct (b_versioning bucket).
    all: apply tx_bind_err in Hg as [Hg|([? ?] & s1 & _ & Hg)]; [|counters_only Hg].
    all: repeat case_bool_decide; try done. all: by eapply remove_null_raises.
  - counters_only Hrun.
Qed.

Lemma metadata_failures cmd c e c' :
  CatalogInv.Inv c → Commands.apply_command_tx cmd c = (Err e, c') → only_counters e.
Proof.
  intros Hinv Hrun. pose proof (other_commands_counters cmd) as Hother. destruct cmd; try (by apply Hother in Hrun).
  - apply tx_bind_err in Hrun as [Hrun|(o & s1 & _ & Hrun)]; [by eapply put_object_raises|done].
  - apply tx_bind_err in Hrun as [Hrun|(o & s1 & _ & Hrun)]; [by eapply delete_object_raises|done].
Qed.
End MetadataFailures.

(** A command on the object catalog stops a member only when a counter would leave
    [u64]: in a catalog the commands can reach, no other failure of an entry is one of
    the database, and the member's state is left as it was. *)
Theorem metadata_stops_on_counters `{LibraryTexts} `{UuidCrate} cmd id s failure s' :
  reachable (metadata s) → apply_entry {| log_id := id; payload := Normal (WMetadata cmd) |} s = (Err failure, s') →
  (commit_one cmd (metadata s)).1 = Err counter_error ∧ s' = s.
Proof.
  intros Hreach Hrun. pose proof (apply_one_metadata id cmd s) as Hone.
  destruct (commit_one cmd (metadata s)) as [[o|e] c] eqn:Hc; rewrite Hone in Hrun; [done|].
  destruct (is_durable_metadata_failure e) eqn:He; simplify_eq. split; [|done]. cbn. f_equal.
  unfold commit_one, atomically in Hc. destruct (Commands.apply_command_tx cmd (metadata s')) as [[|e0] c0] eqn:Ht; simplify_eq.
  by eapply metadata_failures; [apply reachable_inv| |].
Qed.

(** ** Examples *)

Module Examples.
Import Samples.
#[local] Existing Instance sample_uuids.
#[local] Instance sample_texts : LibraryTexts := {| io_text := "io"; encoding_text := "json"; task_text := "task" |}.

Definition at_index (n : Z) : LogId := {| leader_term := 1; leader_node := 1; log_index := n |}.
Definition holding (c : Catalog) : ReplicatedState := upd_metadata c initial_state.

(** Deleting a version under retention: a standalone node answers that the version is
    locked, the cluster that a database operation failed. *)
Definition locked_delete : MetadataCommand := DeleteObjectVersion (uid 1) [97] (uid 11) (lock_release_new 1000 5).

Lemma replicated_answers_witness :
  ∃ block text, (commit_one locked_delete locked_catalog).1 = Err (VersionLocked block) ∧
    propose (λ w, Committed match (apply_entry {| log_id := at_index 3; payload := Normal w |} (holding locked_catalog)).1 with
                            | Ok r => r | Err _ => RNoop end) None locked_delete
    = Err (Database "replicated metadata command" text).
Proof.
  do 2 eexists. split; [vm_compute; reflexivity|].
  destruct (replicated_answers locked_delete (at_index 3) (holding locked_catalog) _ _
    (λ w, Committed match (apply_entry {| log_id := at_index 3; payload := Normal w |} (holding locked_catalog)).1 with
                    | Ok r => r | Err _ => RNoop end) None
    ltac:(vm_compute; reflexivity) ltac:(vm_compute; reflexivity)) as (_ & _ & Hanswer).
  vm_compute in Hanswer. destruct Hanswer as [Hanswer _]. vm_compute. exact Hanswer.
Defined.

(** Two objects whose sizes exceed [u64] together. *)
Definition full_run : list MetadataCommand :=
  [CreateBucket (sample_bucket Enabled no_quota None); PutObject (sample_object 1 [97] u64_max 1000) None Direct].
Definition overflow : MetadataCommand := PutObject (sample_object 2 [98] 1 2000) None Direct.

Lemma metadata_stops_on_counters_witness :
  (commit_one overflow (run full_run empty_catalog)).1 = Err counter_error.
Proof.
  refine (proj1 (metadata_stops_on_counters overflow (at_index 3) (holding (run full_run empty_catalog)) _ _ _ _)).
  - exists full_run. split; [|done]. apply (bool_decide_unpack (admissible empty_catalog _)). vm_compute. exact I.
  - vm_compute. reflexivity.
Defined.
End Examples.
End ReplicatedTheorems.
