(* ===== verification/Members.v ===== *)
(** * Members of the consensus group

    The durable state of a member and the snapshots of
    [crates/record-store-consensus/src/state_machine.rs]: one database holds the raw
    tables of both catalogs, the applied position and the membership; [build_snapshot]
    reads them in one transaction and [install_snapshot] replaces them in one. A member
    starts empty and then applies entries of the committed log or installs a snapshot
    built by another member. *)

From stdpp Require Import pretty.
From S2P Require Import Prelude Bytes Text Tables ObjectLock CoreTypes Keys Catalog Commands Topology Replicas ClusterCatalog CatalogTypes Consensus Snapshot ConsensusTheorems.
Import ObjectLock CoreTypes Catalog Commands CatalogTypes Snapshot Consensus ConsensusTheorems.

Module Members.

Definition SNAPSHOT_FORMAT_VERSION : Z := 1.

Record SnapshotDocument := {
  snapshot_format_version : Z;
  last_applied : option LogId;
  last_membership : StoredMembership;
  document_metadata : list RawEntry;
  document_cluster : list RawEntry }.
Record SnapshotMeta := { last_log_id : option LogId; meta_membership : StoredMembership }.

(** [serde_json] on the document: what is written is read back. *)
Class SnapshotJson := {
  encode_document : SnapshotDocument → bytes;
  decode_document : bytes → option SnapshotDocument;
  decode_encode_document : ∀ d, decode_document (encode_document d) = Some d }.

(** The database of a member. *)
Record RawState := {
  raw_catalog : RawMetadata;
  raw_cluster_catalog : gmap string (gmap bytes bytes);
  raw_applied : option LogId;
  raw_membership : StoredMembership }.

Inductive SnapshotError := ReadSnapshot (reason : string) | WriteSnapshot (reason : string).

Section Snapshots.
Context `{SnapshotJson} `{LibraryTexts} `{UuidCrate}.

(** The document and what [openraft] is told of it. *)
Definition build_snapshot (db : RawState) : SnapshotMeta * bytes :=
  ({| last_log_id := raw_applied db; meta_membership := raw_membership db |},
   encode_document {| snapshot_format_version := SNAPSHOT_FORMAT_VERSION; last_applied := raw_applied db;
                      last_membership := raw_membership db; document_metadata := export_tx (raw_catalog db);
                      document_cluster := export_cluster_tx (raw_cluster_catalog db) |}).

Definition install_snapshot (meta : SnapshotMeta) (payload : bytes) : tx RawState SnapshotError () := λ db,
  match decode_document payload with
  | None => (Err (ReadSnapshot encoding_text), db)
  | Some document =>
      if negb (bool_decide (snapshot_format_version document = SNAPSHOT_FORMAT_VERSION))
      then (Err (ReadSnapshot ("snapshot format version " +:+ pretty (snapshot_format_version document) +:+
                               " is not supported (expected " +:+ pretty SNAPSHOT_FORMAT_VERSION +:+ ")")), db)
      else
        match import_tx (document_metadata document) (raw_catalog db) with
        | (Err e, _) => (Err (WriteSnapshot (metadata_error_display e)), db)
        | (Ok _, catalog) =>
            match import_cluster_tx (document_cluster document) (raw_cluster_catalog db) with
            | (Err e, _) => (Err (WriteSnapshot (cluster_error_display e)), db)
            | (Ok _, cluster) =>
                (Ok (), {| raw_catalog := catalog; raw_cluster_catalog := cluster;
                           raw_applied := match last_log_id meta with Some id => Some id | None => raw_applied db end;
                           raw_membership := meta_membership meta |})
            end
        end
  end.
End Snapshots.

(** ** Members over a committed log *)

Section Members.
Context `{RowJson} `{ClusterRowJson} `{SnapshotJson} `{LibraryTexts} `{UuidCrate}.

(** The tables that hold a decoded state. *)
Definition raw_state (s : ReplicatedState) : RawState :=
  {| raw_catalog := raw_metadata (metadata s); raw_cluster_catalog := raw_cluster (cluster s);
     raw_applied := LAST_APPLIED s; raw_membership := LAST_MEMBERSHIP s |}.
Definition holds (db : RawState) (s : ReplicatedState) : Prop := db = raw_state s ∧ catalogs_typed s.

(** A member that has come to position [n] of the log: applying an entry is one
    transaction, so a crash leaves the member at a position; [openraft] installs only
    snapshots ahead of the member. *)
Inductive member (log : list ConsensusEntry) : RawState → nat → Prop :=
  | member_new : member log (raw_state initial_state) 0
  | member_apply db n s e r s' :
      member log db n → holds db s → log !! n = Some e → apply_entry e s = (Ok r, s') → member log (raw_state s') (S n)
  | member_install db n db' n' db'' :
      member log db n → member log db' n' → (n < n')%nat →
      install_snapshot (build_snapshot db').1 (build_snapshot db').2 db = (Ok (), db'') → member log db'' n'.
End Members.

End Members.

(** * A sample encoding

    Instances of [RowJson], [ClusterRowJson] and [SnapshotJson] by injective encodings
    into bytes, so that the theorems about snapshots apply to concrete members. *)

Import ObjectLock CoreTypes Catalog.

Module SampleJson.

(** Positive numbers as the list of their bits. *)
Fixpoint bits (p : positive) : bytes :=
  match p with xH => [] | xO p => 0 :: bits p | xI p => 1 :: bits p end.
Fixpoint of_bits (l : bytes) : positive :=
  match l with [] => xH | b :: l => if b =? 0 then xO (of_bits l) else xI (of_bits l) end.
Lemma of_bits_bits p : of_bits (bits p) = p.
Proof. induction p as [p IH|p IH|]; cbn; by rewrite ?IH. Qed.
#[local] Instance bits_inj : Inj (=) (=) bits.
Proof. intros p q Heq. by rewrite <-(of_bits_bits p), Heq, of_bits_bits. Qed.

Class Code (A : Type) := { code : A → positive; #[global] code_inj :: Inj (=) (=) code }.
#[local] Instance countable_coded `{Countable A} : Code A | 100 := {| code := encode |}.
#[local] Instance prod_coded `{Code A, Code B} : Code (A * B).
Proof. exists (λ p, encode (code p.1, code p.2)). intros [] [] Heq%(inj encode). by simplify_eq/=. Defined.
#[local] Instance sum_coded `{Code A, Code B} : Code (A + B).
Proof.
  exists (λ s, encode (match s with inl a => inl (code a) | inr b => inr (code b) end : positive + positive)).
  intros [] [] Heq%(inj encode); by simplify_eq/=.
Defined.
#[local] Instance option_coded `{Code A} : Code (option A).
Proof. exists (λ x, encode (code <$> x)). intros x y Heq%(inj encode). by apply (inj (fmap code)) in Heq. Defined.
#[local] Instance list_coded `{Code A} : Code (list A).
Proof. exists (λ x, encode (code <$> x)). intros x y Heq%(inj encode). by apply (inj (fmap code)) in Heq. Defined.

Definition via {A B} `{Code B} (f : A → B) (Hf : Inj (=) (=) f) : Code A := {| code := λ a, code (f a) |}.
Ltac fields := intros [] []; cbn; intros Heq; by simplify_eq.

#[local] Instance retention_mode_coded : Code RetentionMode.
Proof. apply (via (λ x, match x with Governance => 0 | Compliance => 1 end)%Z); fields. Defined.
#[local] Instance retention_coded : Code Retention.
Proof. apply (via (λ x, (mode x, retain_until x))); fields. Defined.
#[local] Instance object_lock_state_coded : Code ObjectLockState.
Proof. apply (via (λ x, (retention x, legal_hold x))); fields. Defined.
#[local] Instance retention_period_coded : Code RetentionPeriod.
Proof. apply (via (λ x, match x with Days a0 => inl a0 | Years a0 => inr a0 end)); fields. Defined.
#[local] Instance default_retention_coded : Code DefaultRetention.
Proof. apply (via (λ x, (default_mode x, period x))); fields. Defined.
#[local] Instance object_lock_configuration_coded : Code ObjectLockConfiguration.
Proof. apply (via (default_retention)); fields. Defined.
#[local] Instance versioning_state_coded : Code VersioningState.
Proof. apply (via (λ x, match x with Disabled => 0 | Enabled => 1 | Suspended => 2 end)%Z); fields. Defined.
#[local] Instance byte_quota_coded : Code ByteQuota.
Proof. apply (via (λ x, match x with UnlimitedBytes => inl () | LimitBytes a0 => inr a0 end)); fields. Defined.
#[local] Instance object_count_quota_coded : Code ObjectCountQuota.
Proof. apply (via (λ x, match x with UnlimitedObjects => inl () | LimitObjects a0 => inr a0 end)); fields. Defined.
#[local] Instance bucket_quota_coded : Code BucketQuota.
Proof. apply (via (λ x, (quota_bytes x, quota_objects x))); fields. Defined.
#[local] Instance erasure_profile_coded : Code ErasureProfile.
Proof. apply (via (λ x, (data_shards x, parity_shards x))); fields. Defined.
#[local] Instance replication_profile_coded : Code ReplicationProfile.
Proof. apply (via (λ x, (replicas x, required_acknowledgements x))); fields. Defined.
#[local] Instance durability_profile_coded : Code DurabilityProfile.
Proof. apply (via (
    λ x, match x with Single => inl () | Replicated a0 => inr (inl a0) | ErasureCoded a0 => inr (inr a0) end)); fields. Defined.
#[local] Instance cors_method_coded : Code CorsMethod.
Proof. apply (via (
    λ x, match x with CorsGet => 0 | CorsHead => 1 | CorsPut => 2 | CorsPost => 3 | CorsDelete => 4 end)%Z); fields. Defined.
#[local] Instance cors_rule_coded : Code CorsRule.
Proof. apply (via (
    λ x, (cors_id x, allowed_origins x, allowed_methods x, allowed_headers x, expose_headers x, max_age_seconds
     x))); fields. Defined.
#[local] Instance cors_configuration_coded : Code CorsConfiguration.
Proof. apply (via (cors_rules)); fields. Defined.
#[local] Instance bucket_coded : Code Bucket.
Proof. apply (via (
    λ x, (b_id x, b_organization_id x, b_name x, b_created_at x, b_versioning x, b_quota x, b_storage_class x,
     b_durability_policy x, b_object_lock x, b_cors x))); fields. Defined.
#[local] Instance checksum_algorithm_coded : Code ChecksumAlgorithm.
Proof. apply (via (λ _, 0)). by intros [] [] _. Defined.
#[local] Instance checksum_coded : Code Checksum.
Proof. apply (via (λ x, (checksum_algorithm x, checksum_digest x))); fields. Defined.
#[local] Instance payload_format_coded : Code PayloadFormat.
Proof. apply (via (λ x, match x with Plaintext => 0 | Aes256GcmEnvelopeV1 => 1 end)%Z); fields. Defined.
#[local] Instance object_metadata_coded : Code ObjectMetadata.
Proof. apply (via (
    λ x, (o_id x, o_bucket_id x, o_key x, o_version_id x, o_size x, o_checksum x, o_payload_format x,
     o_durability x, o_etag x, o_content_type x, o_custom_metadata x, o_created_at x, o_modified_at x))); fields. Defined.
#[local] Instance delete_marker_coded : Code DeleteMarker.
Proof. apply (via (λ x, (m_version_id x, m_bucket_id x, m_key x, m_created_at x))); fields. Defined.
#[local] Instance object_version_record_coded : Code ObjectVersionRecord.
Proof. apply (via (
    λ x, match x with ObjectRecord a0 a1 => inl (a0, a1) | MarkerRecord a0 a1 => inr (a0, a1) end)); fields. Defined.
#[local] Instance multipart_upload_state_coded : Code MultipartUploadState.
Proof. apply (via (λ x, match x with Active => inl () | Completing a0 => inr a0 end)); fields. Defined.
#[local] Instance multipart_upload_coded : Code MultipartUpload.
Proof. apply (via (
    λ x, (u_id x, u_bucket_id x, u_key x, u_content_type x, u_custom_metadata x, u_object_lock x, u_initiated_at
     x, u_state x))); fields. Defined.
#[local] Instance uploaded_part_coded : Code UploadedPart.
Proof. apply (via (
    λ x, (p_upload_id x, p_number x, p_object_id x, p_size x, p_checksum x, p_payload_format x, p_etag x,
     p_modified_at x))); fields. Defined.
#[local] Instance lifecycle_rule_coded : Code LifecycleRule.
Proof. apply (via (
    λ x, (l_id x, l_bucket_id x, l_prefix x, l_enabled x, l_expiration x, l_noncurrent_version_expiration x,
     l_created_at x, l_updated_at x))); fields. Defined.
#[local] Instance storage_event_type_coded : Code StorageEventType.
Proof. apply (via (
    λ x, match x with BucketCreated => 0 | BucketDeleted => 1 | ObjectCreated => 2 | ObjectUpdated => 3 |
     ObjectDeleted => 4 | ObjectRestored => 5 | MultipartCompleted => 6 | MultipartAborted => 7 end)%Z); fields. Defined.
#[local] Instance mutation_event_coded : Code MutationEvent.
Proof. apply (via (
    λ x, (e_sequence x, e_event_id x, e_event_type x, e_occurred_at x, e_bucket x, e_key x, e_version_id x,
     e_size x))); fields. Defined.
#[local] Instance bucket_usage_coded : Code Catalog.BucketUsage.
Proof. apply (via (
    λ x, (Catalog.current_objects x, Catalog.logical_bytes x, Catalog.versions x, Catalog.version_bytes x,
     Catalog.multipart_bytes x))); fields. Defined.
#[local] Instance device_kind_coded : Code Topology.DeviceKind.
Proof. apply (via (
    λ x, match x with Topology.Nvme => 0 | Topology.SataSsd => 1 | Topology.SasSsd => 2 | Topology.SataHdd => 3
     | Topology.SasHdd => 4 | Topology.Ssd => 5 | Topology.Hdd => 6 | Topology.BlockDevice => 7 |
     Topology.RaidLogicalVolume => 8 | Topology.CloudBlockVolume => 9 | Topology.FilesystemDirectory => 10 |
     Topology.UnknownKind => 11 end)%Z); fields. Defined.
#[local] Instance device_capacity_coded : Code Topology.DeviceCapacity.
Proof. apply (via (
    λ x, (Topology.raw_bytes x, Topology.usable_bytes x, Topology.allocated_bytes x, Topology.reserved_bytes x,
     Topology.device_available_bytes x))); fields. Defined.
#[local] Instance device_health_coded : Code Topology.DeviceHealth.
Proof. apply (via (
    λ x, match x with Topology.HealthUnknown => 0 | Topology.HealthHealthy => 1 | Topology.HealthDegraded => 2 |
     Topology.HealthFailed => 3 | Topology.HealthUnavailable => 4 | Topology.HealthUnsupported => 5 end)%Z); fields. Defined.
#[local] Instance device_state_coded : Code Topology.DeviceState.
Proof. apply (via (
    λ x, match x with Topology.Discovered => 0 | Topology.Available => 1 | Topology.Active => 2 |
     Topology.DeviceDegraded => 3 | Topology.DeviceDraining => 4 | Topology.DeviceMaintenance => 5 |
     Topology.DeviceFailed => 6 | Topology.SafeToRemove => 7 | Topology.Retired => 8 end)%Z); fields. Defined.
#[local] Instance hardware_metadata_coded : Code Topology.HardwareMetadata.
Proof. apply (via (
    λ x, (Topology.hw_model x, Topology.hw_serial x, Topology.hw_controller x, Topology.hw_filesystem x,
     Topology.hw_mount_point x, Topology.hw_rotational x, Topology.hw_logical_block_size x,
     Topology.hw_physical_block_size x, Topology.hw_temperature_celsius x, Topology.hw_wear_percentage x,
     Topology.hw_health_summary x))); fields. Defined.
#[local] Instance device_record_coded : Code Topology.DeviceRecord.
Proof. apply (via (
    λ x, (Topology.d_id x, Topology.d_node_id x, Topology.d_current_path x,
     Topology.d_stable_hardware_identifier x, Topology.d_kind x, Topology.d_storage_class x, Topology.d_capacity
     x, Topology.d_configured_weight x, Topology.d_health x, Topology.d_state x, Topology.d_hardware x,
     Topology.d_movement_concurrency x))); fields. Defined.
#[local] Instance failure_domain_scope_coded : Code Topology.FailureDomainScope.
Proof. apply (via (
    λ x, match x with Topology.DomainDevice => 0 | Topology.DomainNode => 1 | Topology.DomainHost => 2 |
     Topology.DomainRack => 3 | Topology.DomainDatacenter => 4 | Topology.DomainZone => 5 |
     Topology.DomainRegion => 6 end)%Z); fields. Defined.
#[local] Instance capacity_watermarks_coded : Code Topology.CapacityWatermarks.
Proof. apply (via (λ x, (Topology.low_percent x, Topology.high_percent x, Topology.critical_percent x))); fields. Defined.
#[local] Instance write_acknowledgement_coded : Code Topology.WriteAcknowledgement.
Proof. apply (via (
    λ x, match x with Topology.Quorum => inl () | Topology.AllReplicas => inr (inl ()) | Topology.CountReplicas
     a0 => inr (inr a0) end)); fields. Defined.
#[local] Instance movement_policy_coded : Code Topology.MovementPolicy.
Proof. apply (via (
    λ x, (Topology.maximum_concurrent_tasks x, Topology.maximum_streams_per_node x,
     Topology.maximum_bytes_per_second x, Topology.interval_seconds x, Topology.batch_size x))); fields. Defined.
#[local] Instance repair_policy_coded : Code Topology.RepairPolicy.
Proof. apply (via (
    λ x, (Topology.repair_movement x, Topology.maximum_attempts x, Topology.repair_lease_seconds x))); fields. Defined.
#[local] Instance rebalance_policy_coded : Code Topology.RebalancePolicy.
Proof. apply (via (
    λ x, (Topology.automatic x, Topology.rebalance_movement x, Topology.tolerance_percent x))); fields. Defined.
#[local] Instance failure_detection_policy_coded : Code Topology.FailureDetectionPolicy.
Proof. apply (via (
    λ x, (Topology.heartbeat_interval_seconds x, Topology.suspect_timeout_seconds x,
     Topology.offline_timeout_seconds x))); fields. Defined.
#[local] Instance cluster_config_coded : Code Topology.ClusterConfig.
Proof. apply (via (
    λ x, (Topology.replication_factor x, Topology.write_acknowledgement x, Topology.failure_domain_scope x,
     Topology.strict_failure_domains x, Topology.allow_degraded_writes x, Topology.watermarks x,
     Topology.capacity_safety_margin_bytes x, Topology.failure_detection x, Topology.repair x,
     Topology.rebalance x, Topology.metadata_voter_target x, Topology.maintenance_serves_reads x,
     Topology.tombstone_retention_hours x, Topology.unknown_upload_size_reservation_bytes x))); fields. Defined.
#[local] Instance durability_strategy_coded : Code Topology.DurabilityStrategy.
Proof. apply (via (
    λ x, match x with Topology.Replication a0 => inl a0 | Topology.ErasureCoding a0 => inr a0 end)); fields. Defined.
#[local] Instance storage_policy_coded : Code Topology.StoragePolicy.
Proof. apply (via (
    λ x, (Topology.sp_class x, Topology.sp_description x, Topology.sp_allowed_kinds x, Topology.sp_durability x,
     Topology.sp_failure_domain x, Topology.sp_strict_failure_domains x, Topology.sp_minimum_free_space_percent
     x))); fields. Defined.
#[local] Instance node_state_coded : Code Topology.NodeState.
Proof. apply (via (
    λ x, match x with Topology.Joining => 0 | Topology.NodeHealthy => 1 | Topology.Suspect => 2 |
     Topology.Unreachable => 3 | Topology.Draining => 4 | Topology.Maintenance => 5 | Topology.Offline => 6 |
     Topology.Decommissioned => 7 end)%Z); fields. Defined.
#[local] Instance node_capacity_coded : Code Topology.NodeCapacity.
Proof. apply (via (
    λ x, (Topology.total_bytes x, Topology.available_bytes x, Topology.replica_bytes x, Topology.temporary_bytes
     x))); fields. Defined.
#[local] Instance node_activity_coded : Code Topology.NodeActivity.
Proof. apply (via (
    λ x, (Topology.active_uploads x, Topology.active_downloads x, Topology.replication_backlog x,
     Topology.integrity_failures x))); fields. Defined.
#[local] Instance node_record_coded : Code Topology.NodeRecord.
Proof. apply (via (
    λ x, (Topology.n_node_id x, Topology.n_raft_id x, Topology.n_protocol x, Topology.n_software_version x,
     Topology.n_storage_format_version x, Topology.n_rpc_address x, Topology.n_s3_endpoint x,
     Topology.n_management_endpoint x, Topology.n_storage_class x, Topology.n_failure_domain x, Topology.n_state
     x, Topology.n_metadata_voter x, Topology.n_capacity x, Topology.n_devices x, Topology.n_activity x,
     Topology.n_joined_at x, Topology.n_started_at x, Topology.n_last_heartbeat_at x,
     Topology.n_state_changed_at x, Topology.n_state_reason x))); fields. Defined.
#[local] Instance replica_state_coded : Code Replicas.ReplicaState.
Proof. apply (via (
    λ x, match x with Replicas.Pending => 0 | Replicas.Healthy => 1 | Replicas.Repairing => 2 | Replicas.Stale
     => 3 | Replicas.Missing => 4 | Replicas.Deleting => 5 | Replicas.Corrupt => 6 end)%Z); fields. Defined.
#[local] Instance replica_coded : Code Replicas.Replica.
Proof. apply (via (
    λ x, (Replicas.r_node_id x, Replicas.r_device_id x, Replicas.r_state x, Replicas.r_location x,
     Replicas.r_size x, Replicas.r_checksum x, Replicas.r_created_at x, Replicas.r_verified_at x,
     Replicas.r_generation x))); fields. Defined.
#[local] Instance payload_placement_coded : Code Replicas.PayloadPlacement.
Proof. apply (via (
    λ x, (Replicas.pl_object_id x, Replicas.pl_size x, Replicas.pl_checksum x, Replicas.pl_desired_replicas x,
     Replicas.pl_storage_class x, Replicas.pl_placement_epoch x, Replicas.pl_replicas x, Replicas.pl_created_at
     x, Replicas.pl_updated_at x))); fields. Defined.
#[local] Instance tombstone_coded : Code Replicas.Tombstone.
Proof. apply (via (
    λ x, (Replicas.ts_object_id x, Replicas.ts_created_at x, Replicas.pending_nodes x, Replicas.completed_nodes
     x, Replicas.ts_completed_at x))); fields. Defined.
#[local] Instance replica_task_kind_coded : Code Replicas.ReplicaTaskKind.
Proof. apply (via (
    λ x, match x with Replicas.Repair => 0 | Replicas.RepairCorrupt => 1 | Replicas.Drain => 2 |
     Replicas.DeviceLost => 3 | Replicas.Rebalance => 4 | Replicas.RebalanceDomain => 5 | Replicas.Delete => 6
     end)%Z); fields. Defined.
#[local] Instance replica_task_priority_coded : Code Replicas.ReplicaTaskPriority.
Proof. apply (via (
    λ x, match x with Replicas.UnavailablePriority => 0 | Replicas.CriticalPriority => 1 | Replicas.HighPriority
     => 2 | Replicas.NormalPriority => 3 | Replicas.LowPriority => 4 end)%Z); fields. Defined.
#[local] Instance replica_task_state_coded : Code Replicas.ReplicaTaskState.
Proof. apply (via (
    λ x, match x with Replicas.Queued => inl () | Replicas.Running a0 a1 a2 => inr (inl (a0, a1, a2)) |
     Replicas.Completed a0 => inr (inr (inl a0)) | Replicas.Parked a0 a1 => inr (inr (inr (inl (a0, a1)))) |
     Replicas.Cancelled a0 a1 => inr (inr (inr (inr (a0, a1)))) end)); fields. Defined.
#[local] Instance replica_task_coded : Code Replicas.ReplicaTask.
Proof. apply (via (
    λ x, (Replicas.t_id x, Replicas.t_object_id x, Replicas.t_kind x, Replicas.t_priority x,
     Replicas.t_source_node x, Replicas.t_source_device x, Replicas.t_target_node x, Replicas.t_target_device x,
     Replicas.t_operation_id x, Replicas.t_size x, Replicas.t_fence x, Replicas.t_state x, Replicas.t_attempts
     x, Replicas.t_last_error x, Replicas.t_created_at x, Replicas.t_updated_at x))); fields. Defined.
#[local] Instance cluster_operation_kind_coded : Code Replicas.ClusterOperationKind.
Proof. apply (via (
    λ x, match x with Replicas.OperationDrain => 0 | Replicas.OperationRebalance => 1 |
     Replicas.OperationDecommission => 2 end)%Z); fields. Defined.
#[local] Instance cluster_operation_state_coded : Code Replicas.ClusterOperationState.
Proof. apply (via (
    λ x, match x with Replicas.Planning => 0 | Replicas.Moving => 1 | Replicas.Verifying => 2 | Replicas.Paused
     => 3 | Replicas.OpCompleted => 4 | Replicas.OpCancelled => 5 | Replicas.OpFailed => 6 end)%Z); fields. Defined.
#[local] Instance operation_progress_coded : Code Replicas.OperationProgress.
Proof. apply (via (
    λ x, (Replicas.objects_remaining x, Replicas.bytes_remaining x, Replicas.objects_moved x,
     Replicas.bytes_moved x, Replicas.replicas_moving x, Replicas.tasks_parked x))); fields. Defined.
#[local] Instance cluster_operation_coded : Code Replicas.ClusterOperation.
Proof. apply (via (
    λ x, (Replicas.op_id x, Replicas.op_kind x, Replicas.op_node_id x, Replicas.op_state x, Replicas.op_progress
     x, Replicas.op_started_at x, Replicas.op_updated_at x, Replicas.op_completed_at x, Replicas.op_message x))); fields. Defined.
#[local] Instance node_credential_coded : Code Replicas.NodeCredential.
Proof. apply (via (
    λ x, (Replicas.nc_id x, Replicas.nc_node_id x, Replicas.nc_secret_digest x, Replicas.nc_created_at x,
     Replicas.nc_rotated_at x, Replicas.nc_disabled x))); fields. Defined.
#[local] Instance join_token_coded : Code Replicas.JoinToken.
Proof. apply (via (
    λ x, (Replicas.jt_id x, Replicas.jt_token_digest x, Replicas.jt_created_at x, Replicas.jt_expires_at x,
     Replicas.jt_maximum_uses x, Replicas.jt_uses x, Replicas.jt_revoked x, Replicas.jt_description x))); fields. Defined.
#[local] Instance cluster_identity_coded : Code ClusterCatalog.ClusterIdentity.
Proof. apply (via (
    λ x, (ClusterCatalog.ci_cluster_id x, ClusterCatalog.ci_cluster_format_version x,
     ClusterCatalog.ci_created_at x, ClusterCatalog.ci_recovery_generation x, ClusterCatalog.ci_recovery_id x,
     ClusterCatalog.ci_recovered_at x))); fields. Defined.
#[local] Instance raw_entry_eq : EqDecision Snapshot.RawEntry.
Proof. solve_decision. Defined.
#[local] Instance raw_entry_countable : Countable Snapshot.RawEntry.
Proof.
  refine (inj_countable' (λ x, (Snapshot.table x, Snapshot.key x, Snapshot.value x))
    (λ '(x0, x1, x2), {| Snapshot.table := x0; Snapshot.key := x1; Snapshot.value := x2 |}) _). by intros [].
Defined.
#[export] Instance log_id_eq : EqDecision Consensus.LogId.
Proof. solve_decision. Defined.
#[export] Instance log_id_countable : Countable Consensus.LogId.
Proof.
  refine (inj_countable' (λ x, (Consensus.leader_term x, Consensus.leader_node x, Consensus.log_index x))
    (
    λ '(x0, x1, x2), {| Consensus.leader_term := x0; Consensus.leader_node := x1; Consensus.log_index := x2 |}) _). by intros [].
Defined.
#[export] Instance membership_eq : EqDecision Consensus.Membership.
Proof. solve_decision. Defined.
#[export] Instance membership_countable : Countable Consensus.Membership.
Proof.
  refine (inj_countable' (λ x, (Consensus.configs x, Consensus.members x))
    (λ '(x0, x1), {| Consensus.configs := x0; Consensus.members := x1 |}) _). by intros [].
Defined.
#[export] Instance stored_membership_eq : EqDecision Consensus.StoredMembership.
Proof. solve_decision. Defined.
#[export] Instance stored_membership_countable : Countable Consensus.StoredMembership.
Proof.
  refine (inj_countable' (λ x, (Consensus.membership_log_id x, Consensus.membership x))
    (λ '(x0, x1), {| Consensus.membership_log_id := x0; Consensus.membership := x1 |}) _). by intros [].
Defined.
#[local] Instance snapshot_document_eq : EqDecision Members.SnapshotDocument.
Proof. solve_decision. Defined.
#[local] Instance snapshot_document_countable : Countable Members.SnapshotDocument.
Proof.
  refine (inj_countable' (
    λ x, (Members.snapshot_format_version x, Members.last_applied x, Members.last_membership x,
     Members.document_metadata x, Members.document_cluster x))
    (
    λ '(x0, x1, x2, x3, x4), {| Members.snapshot_format_version := x0; Members.last_applied := x1;
     Members.last_membership := x2; Members.document_metadata := x3; Members.document_cluster := x4 |}) _). by intros [].
Defined.

Definition row {A} `{Code A} (a : A) : bytes := bits (code a).
#[local] Instance row_inj `{Code A} : Inj (=) (=) (@row A _).
Proof. intros a b Heq. by apply (inj bits), (inj code) in Heq. Qed.

#[export] Instance sample_rows : Snapshot.RowJson := {
  bucket_json := row; object_json := row; marker_json := row; version_json := row; upload_json := row; part_json := row;
  usage_json := row; rule_json := row; lock_json := row; event_json := row }.
#[export] Instance sample_cluster_rows : Snapshot.ClusterRowJson := {
  identity_json := row; config_json := row; node_json := row; placement_json := row; tombstone_json := row;
  task_json := row; operation_json := row; join_token_json := row; credential_json := row; policy_json := row }.
#[export] Program Instance sample_document : Members.SnapshotJson := {
  encode_document d := bits (encode d); decode_document b := decode (of_bits b) }.
Next Obligation. intros d. cbn. by rewrite of_bits_bits, decode_encode. Qed.

End SampleJson.
