(* ===== verification/MembersTheorems.v ===== *)
(** * Members agree

    Every member that has come to a position of the committed log holds the state the
    log prescribes there, whether it applied the entries itself or installed a snapshot
    of another member; an entry the cluster catalog refuses with its database error is a
    position no member gets past. *)

From S2P Require Import Prelude Bytes Text Tables ObjectLock CoreTypes Keys Catalog Commands CatalogInv Reachable CatalogPayloads Topology Replicas ClusterCatalog ClusterInv CatalogTypes Consensus Snapshot ConsensusTheorems Replicated Members.
Import ObjectLock CoreTypes Catalog Commands Reachable CatalogTypes Snapshot SnapshotTheorems Consensus ConsensusTheorems Members.

Module MembersTheorems.

Section Agreement.
Context `{RowJson} `{ClusterRowJson} `{SnapshotJson} `{LibraryTexts} `{UuidCrate}.

Lemma apply_snoc entries e s :
  apply (entries ++ [e]) s =
    match apply entries s with
    | (Ok responses, s1) =>
        match apply_entry e s1 with
        | (Ok response, s2) => (Ok (responses ++ [response]), s2)
        | (Err x, s2) => (Err x, s2)
        end
    | other => other
    end.
Proof.
  revert s. induction entries as [|e0 entries IH]; intros s; cbn [apply app].
  - unfold mbind, tx_bind, mret, tx_ret. by destruct (apply_entry e s) as [[r|] s1].
  - unfold mbind, tx_bind, mret, tx_ret. destruct (apply_entry e0 s) as [[r|] s1]; [|done]. rewrite IH.
    destruct (apply entries s1) as [[rs|] s2]; [|done]. by destruct (apply_entry e s2) as [[r'|] s3].
Qed.

Lemma initial_typed : catalogs_typed initial_state.
Proof. split; [split|]; apply map_Forall_empty. Qed.

Lemma apply_typed entries s : Forall entry_typed entries → catalogs_typed s → catalogs_typed (apply entries s).2.
Proof.
  intros Hall. revert s. induction Hall as [|e entries He _ IH]; intros s Hs; [done|]. cbn [apply]. unfold mbind, tx_bind.
  pose proof (entry_types e s He Hs) as Hs'. destruct (apply_entry e s) as [[r|] s1]; [|done].
  specialize (IH s1 Hs'). by destruct (apply entries s1) as [[rs|] s2].
Qed.

Lemma raw_state_inj a b : catalogs_typed a → catalogs_typed b → raw_state a = raw_state b → a = b.
Proof.
  intros [_ Ha] [_ Hb] Heq. destruct a as [ma ca la wa], b as [mb cb lb wb].
  pose proof (f_equal raw_catalog Heq) as Hm. pose proof (f_equal raw_cluster_catalog Heq) as Hc.
  pose proof (f_equal raw_applied Heq) as Hl. pose proof (f_equal raw_membership Heq) as Hw.
  cbn [raw_state raw_catalog raw_cluster_catalog raw_applied raw_membership metadata cluster LAST_APPLIED LAST_MEMBERSHIP] in *.
  apply raw_metadata_inj in Hm. apply raw_cluster_inj in Hc; [|done|done]. by subst.
Qed.

(** Installing the snapshot of a member gives that member's tables. *)
Lemma install_build a b :
  catalogs_typed b → is_Some (LAST_APPLIED b) →
  install_snapshot (build_snapshot (raw_state b)).1 (build_snapshot (raw_state b)).2 (raw_state a) = (Ok (), raw_state b).
Proof.
  intros [Hm Hc] [id Hid]. unfold install_snapshot, build_snapshot. cbn [fst snd]. rewrite decode_encode_document.
  cbn [snapshot_format_version document_metadata document_cluster raw_state raw_catalog raw_cluster_catalog].
  rewrite bool_decide_true by done. cbn [negb].
  rewrite (import_export _ _ (raw_metadata_typed _ Hm) (raw_metadata_tables (metadata a))).
  rewrite (import_export_cluster _ _ (raw_cluster_tables _) (raw_cluster_tables (cluster a))). unfold raw_state. cbn [last_log_id meta_membership raw_applied raw_membership]. by rewrite Hid.
Qed.

Lemma singles_positions l s r s' : in_order l s = (r, s') → LAST_APPLIED s' = LAST_APPLIED s.
Proof.
  revert s. induction l as [|x l IH]; intros s Hrun; cbn [in_order] in Hrun; [by unfold mret, tx_ret in Hrun; simplify_eq|].
  unfold mbind, tx_bind in Hrun. destruct (apply_single x s) as [[response|e] s1] eqn:Hs.
  - assert (LAST_APPLIED s1 = LAST_APPLIED s) as <-.
    { destruct x; cbn in Hs; unfold apply_metadata_command, apply_cluster_command in Hs; repeat case_match; by simplify_eq. }
    destruct (rejection_of response); [by unfold mret, tx_ret in Hrun; simplify_eq|by apply IH].
  - destruct x; cbn in Hs; unfold apply_metadata_command, apply_cluster_command in Hs; repeat case_match; by simplify_eq.
Qed.

Lemma entry_position e s r s' : apply_entry e s = (Ok r, s') → LAST_APPLIED s' = Some (log_id e).
Proof.
  destruct e as [id [|w|m]]; intros Hrun; [by injection Hrun as _ <-| |by injection Hrun as _ <-].
  pose proof (apply_entry_in_order id w s) as Hw. rewrite Hrun in Hw. cbn [log_id].
  destruct (in_order (singles w) (record_applied id s)) as [[[j|]|[reason]] s2] eqn:Hl; simplify_eq; [done|].
  destruct Hw as (response & ? & _). simplify_eq. by apply singles_positions in Hl as ->.
Qed.

Lemma member_state log db n :
  Forall entry_typed log → member log db n →
  (n ≤ length log)%nat ∧ ∃ rs s, apply (take n log) initial_state = (Ok rs, s) ∧ db = raw_state s ∧
    ((0 < n)%nat → is_Some (LAST_APPLIED s)).
Proof.
  intros Hall Hm. assert (∀ k, catalogs_typed (apply (take k log) initial_state).2) as Htyped.
  { intros k. apply apply_typed; [by apply Forall_take|apply initial_typed]. }
  induction Hm as [|db n s e r s' _ IH [-> Hs] He Hrun|db n db' n' db'' _ IH _ IH' Hlt Hinstall].
  - split; [lia|]. exists [], initial_state. split_and!; [done|done|lia].
  - destruct IH as (_ & rs & s0 & Hrs & Heq & _). assert (s = s0) as ->.
    { apply raw_state_inj; [done| |done]. specialize (Htyped n). by rewrite Hrs in Htyped. }
    apply lookup_lt_Some in He as Hlen. split; [lia|]. rewrite (take_S_r _ _ _ He), apply_snoc, Hrs, Hrun.
    do 2 eexists. split_and!; [done|done|]. intros _. apply entry_position in Hrun. eauto.
  - destruct IH as (_ & rs & s & Hrs & -> & _), IH' as (Hlen & rs' & s' & Hrs' & -> & Hpos).
    rewrite install_build in Hinstall; [simplify_eq; eauto 10| |apply Hpos; lia].
    specialize (Htyped n'). by rewrite Hrs' in Htyped.
Qed.

(** C6: Two members at the same position of the committed log hold the same tables,
    whatever mixture of applied entries, restarts and installed snapshots brought them
    there; they are the tables of the one state that applying the log prescribes. *)
Theorem members_agree log db db' n :
  Forall entry_typed log → member log db n → member log db' n →
  db = db' ∧ ∃ rs s, apply (take n log) initial_state = (Ok rs, s) ∧ db = raw_state s.
Proof.
  intros Hall Hm Hm'. destruct (member_state log db n Hall Hm) as (_ & rs & s & Hrun & -> & _).
  destruct (member_state log db' n Hall Hm') as (_ & rs' & s' & Hrun' & -> & _). rewrite Hrun in Hrun'. simplify_eq. eauto.
Qed.

(** C15: Every member of a cluster whose callers issue what they may holds an object catalog
    that satisfies the catalog invariant and a cluster catalog that commands can reach;
    and if the payloads they introduce are in no use, every payload of the object
    catalog has one owner and is not queued for cleanup. *)
Theorem members_reachable log db n :
  Forall entry_typed log → log_ok caller_ok (take n log) initial_state → member log db n →
  ∃ s, db = raw_state s ∧ CatalogInv.Inv (metadata s) ∧ ClusterInv.cluster_reachable (cluster s) ∧
    (log_ok mints (take n log) initial_state → CatalogPayloads.owned (metadata s)).
Proof.
  intros Hall Hok Hm. destruct (member_state log db n Hall Hm) as (_ & rs & s & Hrun & -> & _). exists s. split; [done|].
  assert (catalogs_reachable initial_state) as Hinit by (split; [by exists []|exists []; constructor]).
  pose proof (log_reachable _ _ Hinit Hok) as [Hmeta Hcluster]. rewrite Hrun in Hmeta, Hcluster.
  split_and!; [by apply reachable_inv|done|]. intros Hmint. pose proof (log_owned _ Hmint) as Hown. by rewrite Hrun in Hown.
Qed.

(** Applying any log of typed commands leaves tables of their declared types: counters
    and event numbers within [u64], the clock within [i64], bucket names in UTF-8. *)
Theorem replicated_types log : Forall entry_typed log → catalogs_typed (apply log initial_state).2.
Proof. intros Hall. apply apply_typed; [done|apply initial_typed]. Qed.

(** A snapshot of a typed catalog imported anywhere gives the same tables, and only the
    same catalog has them. *)
Theorem snapshot_roundtrip c c0 d d0 :
  catalog_typed c → cluster_typed d →
  import_tx (export_tx (raw_metadata c)) (raw_metadata c0) = (Ok (), raw_metadata c) ∧
  import_cluster_tx (export_cluster_tx (raw_cluster d)) (raw_cluster d0) = (Ok (), raw_cluster d) ∧
  (∀ c1 : Catalog, raw_metadata c1 = raw_metadata c → c1 = c) ∧
  (∀ d1, cluster_typed d1 → raw_cluster d1 = raw_cluster d → d1 = d).
Proof.
  intros Hc Hd. split_and!.
  - exact (import_export _ _ (raw_metadata_typed _ Hc) (raw_metadata_tables c0)).
  - exact (import_export_cluster _ _ (raw_cluster_tables _) (raw_cluster_tables d0)).
  - intros c1. apply raw_metadata_inj.
  - intros d1 Hd1. by apply raw_cluster_inj.
Qed.

(** ** Refusals that stop the cluster *)

Lemma refused_entry_fails id cmd s :
  ReplicatedTheorems.refused_as_database (cluster s) cmd →
  ∃ reason, apply_entry {| log_id := id; payload := Normal (WCluster cmd) |} s = (Err (ApplyFailed id reason), s).
Proof.
  intros Href. destruct (ReplicatedTheorems.refused_fails _ _ Href) as (e & c' & Hrun).
  pose proof (proj2 (ReplicatedTheorems.refused_as_database_iff _ _ _ _ Hrun) Href) as Hdurable.
  exists (cluster_error_display e). unfold apply_entry. cbn [payload log_id apply_write]. unfold apply_cluster_command.
  cbn [cluster record_applied]. by rewrite Hrun, Hdurable.
Qed.

Lemma apply_prefix l k s rs s' : apply (l ++ k) s = (Ok rs, s') → ∃ rs1 s1, apply l s = (Ok rs1, s1).
Proof.
  revert s rs s'. induction l as [|e l IH]; intros s rs s' Hrun; [by do 2 eexists|]. cbn [apply app] in *. unfold mbind, tx_bind in *.
  destruct (apply_entry e s) as [[r|] s1]; [|done]. destruct (apply (l ++ k) s1) as [[rs1|] s2] eqn:Hl; [|done].
  destruct (IH _ _ _ Hl) as (rs2 & s3 & ->). unfold mret, tx_ret. eauto.
Qed.

(** C14: An entry that asks to forget a node or to release a device that still owns replicas,
    to delete the default storage policy or to store an invalid one is a position that no
    member ever gets past, whether it applies the log again after a restart or installs
    a snapshot: every member of the cluster is stopped by it. *)
Theorem refusal_stops_cluster log n id cmd rs s :
  Forall entry_typed log → apply (take n log) initial_state = (Ok rs, s) →
  log !! n = Some {| log_id := id; payload := Normal (WCluster cmd) |} →
  ReplicatedTheorems.refused_as_database (cluster s) cmd →
  ∀ db m, member log db m → (m ≤ n)%nat.
Proof.
  intros Hall Hrun He Href db m Hm. destruct (decide (m ≤ n)%nat) as [|Hgt]; [done|exfalso].
  destruct (refused_entry_fails id cmd s Href) as [reason Hfail].
  destruct (member_state log db m Hall Hm) as (_ & rs' & s' & Hrun' & _).
  rewrite <-(take_drop (S n) (take m log)) in Hrun'. apply apply_prefix in Hrun' as (rs1 & s1 & Hrun1).
  rewrite take_take, Nat.min_l in Hrun1 by lia. by rewrite (take_S_r _ _ _ He), apply_snoc, Hrun, Hfail in Hrun1.
Qed.

(** ** Members that exist *)

Lemma member_by_log log n rs s :
  Forall entry_typed log → (n ≤ length log)%nat → apply (take n log) initial_state = (Ok rs, s) → member log (raw_state s) n.
Proof.
  intros Hall. revert rs s. induction n as [|n IH]; intros rs s Hn Hrun.
  { rewrite take_0 in Hrun. apply tx_ret_ok in Hrun as [_ ->]. apply member_new. }
  destruct (lookup_lt_is_Some_2 log n ltac:(lia)) as [e He]. rewrite (take_S_r _ _ _ He), apply_snoc in Hrun.
  destruct (apply (take n log) initial_state) as [[rs0|] s0] eqn:Hrun0; [|done].
  destruct (apply_entry e s0) as [[r|] s1] eqn:Hentry; [|done]. injection Hrun as _ <-.
  apply (member_apply _ (raw_state s0) n s0 e r); [apply (IH rs0); [lia|done]| |done|done]. split; [done|].
  pose proof (apply_typed (take n log) initial_state (Forall_take _ _ _ Hall) initial_typed) as Hs. by rewrite Hrun0 in Hs.
Qed.

Lemma member_by_snapshot log n rs s :
  Forall entry_typed log → (0 < n ≤ length log)%nat → apply (take n log) initial_state = (Ok rs, s) →
  install_snapshot (build_snapshot (raw_state s)).1 (build_snapshot (raw_state s)).2 (raw_state initial_state) = (Ok (), raw_state s) ∧
  member log (raw_state s) n.
Proof.
  intros Hall Hn Hrun. pose proof (member_by_log log n rs s Hall ltac:(lia) Hrun) as Hm.
  destruct (member_state _ _ _ Hall Hm) as (_ & rs' & s' & Hrun' & _ & Hpos). rewrite Hrun in Hrun'. simplify_eq.
  assert (install_snapshot (build_snapshot (raw_state s')).1 (build_snapshot (raw_state s')).2 (raw_state initial_state)
          = (Ok (), raw_state s')) as Hinstall.
  { apply install_build; [|apply Hpos; lia].
    pose proof (apply_typed (take n log) initial_state (Forall_take _ _ _ Hall) initial_typed) as Hs. by rewrite Hrun in Hs. }
  split; [done|]. eapply (member_install _ _ 0); [apply member_new|exact Hm|lia|exact Hinstall].
Qed.
End Agreement.

(** ** Examples *)

Module Examples.
Import Samples SampleJson ReplicatedTheorems.Examples.
#[local] Existing Instance sample_uuids.
#[local] Existing Instance sample_texts.

(** A cluster is founded, a bucket is created, an object and its placement are
    published together, and a device that holds the payload is released. *)
Definition writes : list ClusterWrite :=
  (WCluster <$> ClusterSamples.founded) ++
  [WMetadata (CreateBucket (sample_bucket CoreTypes.Enabled no_quota None));
   WBatch [WCluster (ClusterCatalog.PutPlacement ClusterSamples.placed);
           WMetadata (PutObject (sample_object 1 [97] 100 1000) None CoreTypes.Direct)];
   WCluster (ClusterCatalog.SetDeviceState ClusterSamples.node_a ClusterSamples.device_a Topology.SafeToRemove 9);
   WNoop].
Definition log : list ConsensusEntry := imap (λ i w, {| log_id := at_index (Z.of_nat i); payload := Normal w |}) writes.

Lemma log_typed : Forall entry_typed log.
Proof. apply (bool_decide_unpack _). vm_compute. exact I. Qed.
Lemma log_long : (8 ≤ length log)%nat.
Proof. apply (bool_decide_unpack _). vm_compute. exact I. Qed.
Lemma log_run : ∃ rs s, apply (take 8 log) initial_state = (Ok rs, s).
Proof. do 2 eexists. vm_compute. reflexivity. Qed.

Lemma members_agree_witness :
  ∃ rs s db', apply (take 8 log) initial_state = (Ok rs, s) ∧
    install_snapshot (build_snapshot (raw_state s)).1 (build_snapshot (raw_state s)).2 (raw_state initial_state) = (Ok (), db') ∧
    raw_state s = db'.
Proof.
  destruct log_run as (rs & s & Hrun).
  destruct (member_by_snapshot log 8 rs s log_typed (conj (Nat.lt_0_succ 7) log_long) Hrun) as [Hinstall Hm].
  exists rs, s, (raw_state s). split; [exact Hrun|]. split; [exact Hinstall|].
  refine (proj1 (members_agree log (raw_state s) (raw_state s) 8 log_typed _ Hm)).
  apply (member_by_log log 8 rs); [exact log_typed|exact log_long|exact Hrun].
Defined.

Lemma members_reachable_witness :
  ∃ rs s, apply (take 8 log) initial_state = (Ok rs, s) ∧ ∃ s', raw_state s = raw_state s' ∧ CatalogInv.Inv (metadata s').
Proof.
  destruct log_run as (rs & s & Hrun). exists rs, s. split; [exact Hrun|].
  destruct (members_reachable log (raw_state s) 8 log_typed) as (s' & Heq & Hinv & _).
  - apply (bool_decide_unpack (log_ok caller_ok (take 8 log) initial_state)). vm_compute. exact I.
  - apply (member_by_log log 8 rs); [exact log_typed|exact log_long|exact Hrun].
  - exact (ex_intro _ s' (conj Heq Hinv)).
Defined.

Lemma replicated_types_witness : catalogs_typed (apply log initial_state).2.
Proof. apply replicated_types. apply log_typed. Defined.

Lemma snapshot_roundtrip_witness :
  import_tx (export_tx (raw_metadata sample_catalog)) (raw_metadata locked_catalog) = (Ok (), raw_metadata sample_catalog).
Proof.
  assert (catalog_typed sample_catalog) as Hc.
  { split; apply (bool_decide_unpack _); vm_compute; exact I. }
  apply (snapshot_roundtrip sample_catalog locked_catalog ClusterCatalog.empty_cluster ClusterCatalog.empty_cluster Hc).
  apply map_Forall_empty.
Defined.

(** The device still holds the payload: no member gets past the entry that releases it,
    though an entry follows. *)
Lemma refusal_stops_cluster_witness :
  length log = 10%nat ∧ (∃ db, member log db 8) ∧ ∀ db m, member log db m → (m ≤ 8)%nat.
Proof.
  destruct log_run as (rs & s & Hrun). split; [by vm_compute|]. split.
  - exists (raw_state s). apply (member_by_log log 8 rs); [exact log_typed|exact log_long|exact Hrun].
  - apply (refusal_stops_cluster log 8 (at_index 8)
      (ClusterCatalog.SetDeviceState ClusterSamples.node_a ClusterSamples.device_a Topology.SafeToRemove 9) rs s log_typed Hrun).
    + vm_compute. reflexivity.
    + assert (s = (apply (take 8 log) initial_state).2) as -> by by rewrite Hrun.
      apply (bool_decide_unpack _). vm_compute. exact I.
Defined.
End Examples.
End MembersTheorems.
