(* ===== verification/LogStore.v ===== *)
(** * The durable consensus log

    [crates/record-store-consensus/src/log_store.rs]: entries keyed by index, the vote,
    the committed position and the last purged position. The operations are those
    [openraft] calls; [purge] is two transactions, and a crash may fall between them.
    The abstract log is the purged position and the list of entries after it. *)

From S2P Require Import Prelude Bytes Tables ObjectLock CoreTypes Catalog Commands Topology Replicas ClusterCatalog Consensus Snapshot.
Import Snapshot SnapshotTheorems Consensus.

Module LogStore.

Section LogStore.
Context {Vote : Type}.

Record RedbLogStore := {
  ENTRIES : gmap Z ConsensusEntry;
  VOTE : option Vote;
  COMMITTED : option (option LogId);
  LAST_PURGED : option LogId }.

Definition open_log : RedbLogStore := {| ENTRIES := ∅; VOTE := None; COMMITTED := None; LAST_PURGED := None |}.
Definition with_entries (m : gmap Z ConsensusEntry) (st : RedbLogStore) : RedbLogStore :=
  {| ENTRIES := m; VOTE := VOTE st; COMMITTED := COMMITTED st; LAST_PURGED := LAST_PURGED st |}.

Definition entry_index (e : ConsensusEntry) : Z := log_index (log_id e).

Definition save_vote (vote : Vote) (st : RedbLogStore) : RedbLogStore :=
  {| ENTRIES := ENTRIES st; VOTE := Some vote; COMMITTED := COMMITTED st; LAST_PURGED := LAST_PURGED st |}.
Definition read_vote (st : RedbLogStore) : option Vote := VOTE st.
Definition save_committed (committed : option LogId) (st : RedbLogStore) : RedbLogStore :=
  {| ENTRIES := ENTRIES st; VOTE := VOTE st; COMMITTED := Some committed; LAST_PURGED := LAST_PURGED st |}.
(** [Option::flatten]. *)
Definition read_committed (st : RedbLogStore) : option LogId := COMMITTED st ≫= id.

(** One transaction inserts every entry. *)
Definition append (entries : list ConsensusEntry) (st : RedbLogStore) : RedbLogStore :=
  with_entries (foldl (λ m e, <[entry_index e := e]> m) (ENTRIES st) entries) st.
Definition truncate (id : LogId) (st : RedbLogStore) : RedbLogStore :=
  with_entries (filter (λ ie, ie.1 < log_index id) (ENTRIES st)) st.

(** The two transactions of [purge]. *)
Definition record_purged (id : LogId) (st : RedbLogStore) : RedbLogStore :=
  {| ENTRIES := ENTRIES st; VOTE := VOTE st; COMMITTED := COMMITTED st; LAST_PURGED := Some id |}.
Definition drop_purged (id : LogId) (st : RedbLogStore) : RedbLogStore :=
  with_entries (filter (λ ie, log_index id < ie.1) (ENTRIES st)) st.
Definition purge (id : LogId) (st : RedbLogStore) : RedbLogStore := drop_purged id (record_purged id st).

Definition last_entry (st : RedbLogStore) : option LogId := log_id <$> (last (sequence_iter (ENTRIES st)).*2).
Definition get_log_state (st : RedbLogStore) : option LogId * option LogId :=
  (LAST_PURGED st, match last_entry st with Some id => Some id | None => LAST_PURGED st end).

(** [std::ops::Bound]. *)
Inductive Bound := Included (index : Z) | Excluded (index : Z) | Unbounded.

Definition try_get_log_entries (start finish : Bound) (st : RedbLogStore) : list ConsensusEntry :=
  let start := match start with Included index => index | Excluded index => u64_saturating_add index 1 | Unbounded => 0 end in
  let finish := match finish with
                | Included index => Some index
                | Excluded index => Some (Z.max (index - 1) 0)
                | Unbounded => None
                end in
  (List.filter (λ ie, (start <=? ie.1) && match finish with Some finish => ie.1 <=? finish | None => true end)
     (sequence_iter (ENTRIES st))).*2.

(** ** The abstract log *)

(** The index after the purged position. *)
Definition base (purged : option LogId) : Z := match purged with Some id => log_index id + 1 | None => 0 end.
Definition contiguous (from : Z) (l : list ConsensusEntry) : Prop := ∀ k e, l !! k = Some e → entry_index e = from + Z.of_nat k.

Definition represents (st : RedbLogStore) (purged : option LogId) (l : list ConsensusEntry) : Prop :=
  LAST_PURGED st = purged ∧ contiguous (base purged) l ∧
  ∀ i, ENTRIES st !! i = if i <? base purged then None else l !! Z.to_nat (i - base purged).

(** What [openraft] asks of a log: entries are appended at the end, a conflicting tail is
    truncated, and a prefix, or the whole log behind a snapshot, is purged. *)
Inductive log_op :=
  | Append (entries : list ConsensusEntry)
  | Truncate (id : LogId)
  | Purge (id : LogId)
  | SaveVote (vote : Vote)
  | SaveCommitted (committed : option LogId).

Definition exec (op : log_op) (st : RedbLogStore) : RedbLogStore :=
  match op with
  | Append entries => append entries st
  | Truncate id => truncate id st
  | Purge id => purge id st
  | SaveVote vote => save_vote vote st
  | SaveCommitted committed => save_committed committed st
  end.

Fixpoint positions_ok (from : Z) (l : list ConsensusEntry) : bool :=
  match l with [] => true | e :: l => (entry_index e =? from) && positions_ok (from + 1) l end.

Definition spec (op : log_op) (log : option LogId * list ConsensusEntry) : option (option LogId * list ConsensusEntry) :=
  let '(purged, l) := log in
  let from := base purged in
  match op with
  | Append entries => if positions_ok (from + Z.of_nat (length l)) entries then Some (purged, l ++ entries) else None
  | Truncate id =>
      if bool_decide (from ≤ log_index id) then Some (purged, take (Z.to_nat (log_index id - from)) l) else None
  | Purge id =>
      if bool_decide (from ≤ log_index id) then Some (Some id, drop (Z.to_nat (log_index id + 1 - from)) l) else None
  | SaveVote _ | SaveCommitted _ => Some log
  end.
Definition spec_run (ops : list log_op) (log : option LogId * list ConsensusEntry) : option (option LogId * list ConsensusEntry) :=
  foldl (λ o op, o ≫= spec op) (Some log) ops.
Definition exec_run (ops : list log_op) (st : RedbLogStore) : RedbLogStore := foldl (λ st op, exec op st) st ops.

(** *** Refinement *)

Lemma positions_contiguous from l : positions_ok from l = true → contiguous from l.
Proof.
  revert from. induction l as [|e l IH]; intros from Hok k x Hx; [done|]. cbn in Hok. apply andb_true_iff in Hok as [He%Z.eqb_eq Hok].
  destruct k as [|k]; cbn in Hx; [simplify_eq; lia|]. rewrite (IH (from + 1) Hok k x Hx). lia.
Qed.

Lemma contiguous_tail from e l : contiguous from (e :: l) → contiguous (from + 1) l.
Proof. intros Hl k x Hx. rewrite (Hl (S k) x Hx). lia. Qed.

Lemma insert_entries from l (m : gmap Z ConsensusEntry) i :
  contiguous from l →
  foldl (λ m e, <[entry_index e := e]> m) m l !! i =
    if (from <=? i) && (i <? from + Z.of_nat (length l)) then l !! Z.to_nat (i - from) else m !! i.
Proof.
  revert from m. induction l as [|e l IH]; intros from m Hl; cbn [foldl length].
  - destruct (from <=? i) eqn:H1, (i <? from + Z.of_nat 0) eqn:H2; bool_facts; try done. lia.
  - rewrite (IH (from + 1)) by by eapply contiguous_tail. pose proof (Hl 0%nat e eq_refl) as He.
    destruct (decide (i = from)) as [->|Hne].
    + rewrite Z.sub_diag. cbn. replace (from + 1 <=? from) with false by (symmetry; apply Z.leb_gt; lia). cbn.
      replace (from <=? from) with true by (symmetry; apply Z.leb_le; lia).
      replace (from <? from + _) with true by (symmetry; apply Z.ltb_lt; lia). cbn. rewrite He, Z.add_0_r. by rewrite lookup_insert_eq.
    + destruct (from + 1 <=? i) eqn:H1, (i <? from + 1 + Z.of_nat (length l)) eqn:H2,
        (from <=? i) eqn:H3, (i <? from + Z.of_nat (S (length l))) eqn:H4; bool_facts; try lia; cbn.
      1: replace (Z.to_nat (i - from)) with (S (Z.to_nat (i - (from + 1)))) by lia; done.
      all: rewrite lookup_insert_ne by lia; done.
Qed.

Lemma contiguous_app from l k : contiguous from l → contiguous (from + Z.of_nat (length l)) k → contiguous from (l ++ k).
Proof.
  intros Hl Hk n e. rewrite lookup_app. destruct (l !! n) as [x|] eqn:Hx; [intros [= <-]; by apply Hl|].
  intros He. apply lookup_ge_None in Hx. rewrite (Hk _ _ He). lia.
Qed.
Lemma contiguous_take from l n : contiguous from l → contiguous from (take n l).
Proof. intros Hl k e [He _]%lookup_take_Some. by apply Hl. Qed.
Lemma contiguous_drop from l n : contiguous from l → contiguous (from + Z.of_nat n) (drop n l).
Proof. intros Hl k e. rewrite lookup_drop. intros He. rewrite (Hl _ _ He). lia. Qed.

Lemma append_represents st purged l entries :
  represents st purged l → contiguous (base purged + Z.of_nat (length l)) entries → represents (append entries st) purged (l ++ entries).
Proof.
  intros (Hp & Hl & Hrows) He. split; [done|]. split; [by apply contiguous_app|]. intros i. cbn.
  rewrite (insert_entries _ _ _ _ He), Hrows.
  destruct (i <? base purged) eqn:H1, (base purged + Z.of_nat (length l) <=? i) eqn:H2,
    (i <? base purged + Z.of_nat (length l) + Z.of_nat (length entries)) eqn:H3; bool_facts; cbn; try lia; try done.
  - rewrite lookup_app_r by lia. f_equal. lia.
  - rewrite (lookup_ge_None_2 l), (lookup_ge_None_2 (l ++ entries)) by (rewrite ?length_app; lia). done.
  - rewrite lookup_app_l by lia. done.
Qed.

Lemma filter_row (P : Z * ConsensusEntry → Prop) `{∀ x, Decision (P x)} (Q : Z → bool) (m : gmap Z ConsensusEntry) i :
  (∀ e, P (i, e) ↔ Q i = true) → filter P m !! i = if Q i then m !! i else None.
Proof.
  intros HPQ. destruct (filter P m !! i) as [e|] eqn:Hf.
  - apply map_lookup_filter_Some in Hf as [Hm HP]. apply HPQ in HP. by rewrite HP.
  - apply map_lookup_filter_None in Hf. destruct (Q i) eqn:HQ; [|done]. destruct Hf as [Hf|Hf]; [done|].
    destruct (m !! i) as [e|] eqn:Hm; [|done]. exfalso. eapply Hf; [done|]. by apply HPQ.
Qed.

Lemma truncate_represents st purged l id :
  represents st purged l → base purged ≤ log_index id →
  represents (truncate id st) purged (take (Z.to_nat (log_index id - base purged)) l).
Proof.
  intros (Hp & Hl & Hrows) Hid. split; [done|]. split; [by apply contiguous_take|]. intros i. cbn.
  rewrite (filter_row _ (λ i, i <? log_index id)) by (intros e; cbn; rewrite Z.ltb_lt; done). rewrite Hrows.
  destruct (i <? log_index id) eqn:H1, (i <? base purged) eqn:H2; bool_facts; try done.
  - rewrite lookup_take_lt by lia. done.
  - rewrite lookup_take_ge by lia. done.
Qed.

Lemma purge_represents st purged l id :
  represents st purged l → base purged ≤ log_index id →
  represents (purge id st) (Some id) (drop (Z.to_nat (log_index id + 1 - base purged)) l).
Proof.
  intros (Hp & Hl & Hrows) Hid. split; [done|]. split.
  { intros k e. rewrite lookup_drop. intros He. rewrite (Hl _ _ He). cbn. lia. }
  intros i. cbn. rewrite (filter_row _ (λ i, log_index id <? i)) by (intros e; cbn; rewrite Z.ltb_lt; done). rewrite Hrows, lookup_drop.
  destruct (log_index id <? i) eqn:H1, (i <? base purged) eqn:H2, (i <? log_index id + 1) eqn:H3; bool_facts; try done; try lia.
  f_equal. lia.
Qed.

Lemma exec_represents st purged l op purged' l' :
  represents st purged l → spec op (purged, l) = Some (purged', l') → represents (exec op st) purged' l'.
Proof.
  intros Hst Hspec. destruct op; cbn in Hspec |- *.
  - destruct (positions_ok _ _) eqn:Hok; simplify_eq. apply append_represents; [done|by apply positions_contiguous].
  - case_bool_decide; simplify_eq. by apply truncate_represents.
  - case_bool_decide; simplify_eq. by apply purge_represents.
  - by simplify_eq.
  - by simplify_eq.
Qed.

Lemma run_represents ops st log log' :
  represents st log.1 log.2 → spec_run ops log = Some log' → represents (exec_run ops st) log'.1 log'.2.
Proof.
  unfold spec_run, exec_run. revert st log. induction ops as [|op ops IH]; intros st [purged l] Hst Hrun; cbn in *; [by simplify_eq|].
  destruct (spec op (purged, l)) as [[purged1 l1]|] eqn:Hs.
  - apply (IH (exec op st) (purged1, l1)); [by eapply exec_represents|]. cbn [spec] in Hs. by rewrite Hs in Hrun.
  - exfalso. cbn [spec] in Hs. rewrite Hs in Hrun. clear -Hrun. induction ops; cbn in Hrun; auto; done.
Qed.

(** *** Reading *)

Definition numbered (l : list ConsensusEntry) : list (Z * ConsensusEntry) := (λ e, (entry_index e, e)) <$> l.

Lemma numbered_sorted from l : contiguous from l → StronglySorted sequence_le (numbered l) ∧ Forall (λ ie, from ≤ ie.1) (numbered l).
Proof.
  revert from. induction l as [|e l IH]; intros from Hl; [split; constructor|].
  destruct (IH (from + 1)) as [Hs Hge]; [by eapply contiguous_tail|]. pose proof (Hl 0%nat e eq_refl) as He.
  split; cbn; constructor; try done; cbn; [|lia|].
  - eapply Forall_impl; [exact Hge|]. intros ie Hie. unfold sequence_le. cbn in *. lia.
  - eapply Forall_impl; [exact Hge|]. cbn. lia.
Qed.

Lemma elem_of_numbered st purged l i e : represents st purged l → (i, e) ∈ numbered l ↔ ENTRIES st !! i = Some e.
Proof.
  intros (_ & Hl & Hrows). rewrite Hrows. unfold numbered. rewrite list_elem_of_fmap. split.
  - intros (e' & [= -> ->] & [k Hk]%list_elem_of_lookup). rewrite (Hl _ _ Hk).
    destruct (base purged + Z.of_nat k <? base purged) eqn:H1; bool_facts; [lia|]. rewrite <-Hk. f_equal. lia.
  - destruct (i <? base purged) eqn:H1; [done|]. bool_facts. intros He. exists e. split.
    + f_equal. rewrite (Hl _ _ He). lia.
    + by eapply list_elem_of_lookup_2.
Qed.

Lemma iter_numbered st purged l : represents st purged l → sequence_iter (ENTRIES st) = numbered l.
Proof.
  intros Hst. pose proof Hst as (_ & Hl & _). apply (StronglySorted_unique_strong sequence_le).
  - intros [i x] [j y] Hx Hy Hij Hji. apply elem_of_sequence_iter in Hx. rewrite (elem_of_numbered st purged) in Hy by done.
    unfold sequence_le in *. cbn in *. assert (i = j) as -> by lia. congruence.
  - apply Sorted_StronglySorted; [intros [] [] []; unfold sequence_le; cbn; lia|].
    apply Sorted_merge_sort. intros [] []. unfold sequence_le. cbn. lia.
  - by eapply numbered_sorted.
  - apply NoDup_Permutation.
    + rewrite sequence_perm. apply NoDup_map_to_list.
    + unfold numbered. apply (NoDup_fmap_1 fst). rewrite <-list_fmap_compose. apply NoDup_alt. intros a b n.
      rewrite !list_lookup_fmap_Some. intros (x & -> & Hx) (y & Heq & Hy). cbn in Heq. rewrite (Hl _ _ Hx), (Hl _ _ Hy) in Heq. lia.
    + intros [i e]. by rewrite elem_of_sequence_iter, (elem_of_numbered st purged l).
Qed.

Lemma last_numbered st purged l : represents st purged l → last_entry st = log_id <$> last l.
Proof.
  intros Hst. unfold last_entry. rewrite (iter_numbered _ _ _ Hst). unfold numbered. rewrite <-list_fmap_compose. cbn. by rewrite list_fmap_id.
Qed.

Lemma range_saturated st purged l lo hi :
  represents st purged l →
  try_get_log_entries (Included lo) (Excluded hi) st =
    List.filter (λ e, (lo <=? entry_index e) && (entry_index e <=? Z.max (hi - 1) 0)) l.
Proof.
  intros Hst. unfold try_get_log_entries. rewrite (iter_numbered _ _ _ Hst). clear Hst. unfold numbered.
  induction l as [|e l IH]; [done|]. cbn [fmap list_fmap List.filter fst].
  destruct ((lo <=? entry_index e) && (entry_index e <=? Z.max (hi - 1) 0)); cbn [fmap list_fmap snd]; [f_equal|]; exact IH.
Qed.

Lemma range_numbered st purged l lo hi :
  represents st purged l → 0 < hi →
  try_get_log_entries (Included lo) (Excluded hi) st = List.filter (λ e, (lo <=? entry_index e) && (entry_index e <? hi)) l.
Proof.
  intros Hst Hhi. rewrite (range_saturated _ _ _ _ _ Hst). apply List.filter_ext. intros e. f_equal.
  destruct (entry_index e <? hi) eqn:Hlt; bool_facts; [apply Z.leb_le|apply Z.leb_gt]; lia.
Qed.

(** After any operations the engine may ask for, the log store is the abstract log: it
    reports its purged and last positions, a range of indices reads back exactly the
    entries of the range in order, and a purge interrupted between its two transactions
    is completed by purging again. *)
Theorem log_store_refines ops purged l :
  spec_run ops (None, []) = Some (purged, l) →
  let st := exec_run ops open_log in
  get_log_state st = (purged, match last l with Some e => Some (log_id e) | None => purged end) ∧
  (∀ lo hi, 0 < hi → try_get_log_entries (Included lo) (Excluded hi) st =
     List.filter (λ e, (lo <=? entry_index e) && (entry_index e <? hi)) l) ∧
  (∀ id, purge id (record_purged id st) = purge id st).
Proof.
  intros Hspec st. assert (represents st purged l) as Hst.
  { apply (run_represents ops open_log (None, []) (purged, l)); [|done]. split_and!; [done|by intros k e|].
    intros i. cbn. rewrite lookup_empty. by destruct (i <? 0). }
  split_and!; [|intros lo hi Hhi; by eapply range_numbered|intros id; reflexivity].
  unfold get_log_state. rewrite (last_numbered _ _ _ Hst). destruct Hst as (-> & _). by destruct (last l).
Qed.

(** The empty range [0..0] reads the first entry of a log that starts at index 0. *)
Lemma empty_range_reads_first st e l :
  represents st None (e :: l) → try_get_log_entries (Included 0) (Excluded 0) st = [e].
Proof.
  intros Hst. rewrite (range_saturated _ _ _ _ _ Hst). destruct Hst as (_ & Hl & _).
  pose proof (Hl 0%nat e eq_refl) as He. cbn [List.filter].
  replace ((0 <=? entry_index e) && (entry_index e <=? Z.max (0 - 1) 0)) with true by (rewrite He; reflexivity). f_equal.
  apply contiguous_tail in Hl. revert Hl. generalize (base None + 1) (Z.le_refl (0 + 1) : 1 ≤ base None + 1).
  induction l as [|x l IH]; intros from Hfrom Hl; [done|]. cbn [List.filter].
  pose proof (Hl 0%nat x eq_refl) as Hx.
  destruct ((0 <=? entry_index x) && _) eqn:Hread; [bool_facts; lia|]. apply (IH (from + 1)); [lia|by apply contiguous_tail in Hl].
Qed.
End LogStore.

(** ** An example: three entries, a conflicting tail and a purge *)

Definition blank (term index : Z) : ConsensusEntry :=
  {| log_id := {| leader_term := term; leader_node := 1; log_index := index |}; payload := Blank |}.
Definition ops : list (log_op (Vote := Z)) :=
  [SaveVote 1; Append [blank 1 0; blank 1 1; blank 1 2]; Truncate (log_id (blank 1 2)); Append [blank 2 2; blank 2 3];
   SaveCommitted (Some (log_id (blank 2 2))); Purge (log_id (blank 1 1))].

Lemma log_store_refines_witness :
  get_log_state (exec_run ops open_log) = (Some (log_id (blank 1 1)), Some (log_id (blank 2 3))) ∧
  try_get_log_entries (Included 0) (Excluded 3) (exec_run ops open_log) = [blank 2 2].
Proof.
  destruct (log_store_refines ops (Some (log_id (blank 1 1))) [blank 2 2; blank 2 3] ltac:(vm_compute; reflexivity))
    as (Hstate & Hrange & _).
  split; [exact Hstate|]. rewrite Hrange by lia. reflexivity.
Defined.
End LogStore.
