(* ===== verification/SnapshotFiles.v ===== *)
(** * Snapshot files

    Publishing a snapshot ([persist_snapshot]) and reading the published one back
    ([get_current_snapshot]) in [crates/record-store-consensus/src/state_machine.rs],
    over a directory whose updates survive a crash only once they are synced: a crash
    keeps any part of the directory updates since the last sync of the directory, and
    leaves arbitrary bytes in a file that was not synced. *)

From S2P Require Import Prelude Bytes Text Tables ObjectLock CoreTypes Catalog Commands Topology Replicas ClusterCatalog Consensus Members.
Import Consensus.

Module SnapshotFiles.

(** ** A directory *)

Record file := { content : bytes; synced : bool }.
Inductive effect := Put (name : string) (f : file) | Remove (name : string).
(** What running code sees, what is durable, and the updates between them. *)
Record Disk := { cache : gmap string file; durable : gmap string file; pending : list effect }.

Definition apply_effect (m : gmap string file) (e : effect) : gmap string file :=
  match e with Put name f => <[name := f]> m | Remove name => delete name m end.
Definition apply_effects (effects : list effect) (m : gmap string file) : gmap string file := foldl apply_effect m effects.

Definition update (effects : list effect) (d : Disk) : Disk :=
  {| cache := apply_effects effects (cache d); durable := durable d; pending := pending d ++ effects |}.

(** [File::create] and [write_all]; [sync_all] on the file; [rename]; [remove_file];
    [sync_all] on the directory. *)
Definition create_write (name : string) (data : bytes) : Disk → Disk := update [Put name {| content := data; synced := false |}].
Definition sync_file (name : string) (d : Disk) : Disk :=
  match cache d !! name with
  | Some f => update [Put name {| content := content f; synced := true |}] d
  | None => d
  end.
Definition rename (from to : string) (d : Disk) : Disk :=
  match cache d !! from with
  | Some f => update [Put to f; Remove from] d
  | None => d
  end.
Definition remove_file (name : string) : Disk → Disk := update [Remove name].
Definition sync_directory (d : Disk) : Disk := {| cache := cache d; durable := cache d; pending := [] |}.

(** The files found after a crash. *)
Definition survives (m : gmap string file) (files : gmap string bytes) : Prop :=
  ∀ name, match m !! name, files !! name with
          | Some f, Some data => synced f = true → data = content f
          | None, None => True
          | _, _ => False
          end.
Definition crash (d : Disk) (files : gmap string bytes) : Prop :=
  ∃ kept, kept `sublist_of` pending d ∧ survives (apply_effects kept (durable d)) files.

(** ** Publishing *)

Record SnapshotPointer := { snapshot_id : string; pointer_applied : option LogId; pointer_membership : StoredMembership }.

Class PointerJson := {
  encode_pointer : SnapshotPointer → bytes;
  decode_pointer : bytes → option SnapshotPointer;
  decode_encode_pointer : ∀ p, decode_pointer (encode_pointer p) = Some p }.

Definition snapshot_path (id : string) : string := id +:+ ".snapshot".
Definition temporary (id : string) : string := id +:+ ".snapshot.tmp".
Definition current_snapshot_pointer : string := "current.json".
Definition pointer_temporary : string := "current.json.tmp".

Fixpoint ends_with (suffix s : string) : bool :=
  String.eqb s suffix || match s with EmptyString => false | String _ s => ends_with suffix s end.
(** A name whose extension is [snapshot]. *)
Definition is_snapshot (name : string) : bool := ends_with ".snapshot" name && negb (String.eqb name ".snapshot").

Section Files.
Context `{PointerJson}.

(** Everything up to the pruning, one primitive at a time, so that a crash may come
    between any two. *)
Definition publish (pointer : SnapshotPointer) (payload : bytes) : list (Disk → Disk) :=
  let path := snapshot_path (snapshot_id pointer) in
  let temporary := temporary (snapshot_id pointer) in
  [create_write temporary payload; sync_file temporary; rename temporary path; sync_directory;
   create_write pointer_temporary (encode_pointer pointer); sync_file pointer_temporary;
   rename pointer_temporary current_snapshot_pointer; sync_directory].
(** The names [read_dir] finds that are removed. *)
Definition stale (path : string) (d : Disk) : list string :=
  List.filter (λ name, negb (String.eqb name path) && negb (String.eqb name current_snapshot_pointer) && is_snapshot name)
    (map_to_list (cache d)).*1.

Definition steps (l : list (Disk → Disk)) (d : Disk) : Disk := foldl (λ d f, f d) d l.
Definition prune (pointer : SnapshotPointer) (d : Disk) : list (Disk → Disk) :=
  remove_file <$> stale (snapshot_path (snapshot_id pointer)) d.
Definition persist_snapshot (pointer : SnapshotPointer) (payload : bytes) (d : Disk) : Disk :=
  let d := steps (publish pointer payload) d in steps (prune pointer d) d.
(** The disk after the first [n] primitives of [persist_snapshot]. *)
Definition interrupted (n : nat) (pointer : SnapshotPointer) (payload : bytes) (d : Disk) : Disk :=
  steps (take n (publish pointer payload ++ prune pointer (steps (publish pointer payload) d))) d.

(** ** Reading back *)

Definition pointed (files : gmap string bytes) : option SnapshotPointer :=
  files !! current_snapshot_pointer ≫= decode_pointer.
Definition get_current_snapshot (files : gmap string bytes) : option (SnapshotPointer * bytes) :=
  pointer ← pointed files;
  payload ← files !! snapshot_path (snapshot_id pointer);
  Some (pointer, payload).
End Files.

End SnapshotFiles.

(** * A published snapshot survives a crash

    Wherever a crash interrupts the publication of a snapshot, the published snapshot is
    the one before or the new one, complete; after the publication it is the new one,
    whatever crash follows. *)

Import Text Consensus SnapshotFiles.

Module SnapshotFilesTheorems.

(** ** Names *)

Fixpoint last_char (s : string) : option Ascii.ascii :=
  match s with EmptyString => None | String c EmptyString => Some c | String _ s => last_char s end.
Lemma last_char_app a b : b ≠ EmptyString → last_char (a +:+ b) = last_char b.
Proof.
  intros Hb. induction a as [|c a IH]; [done|]. change (last_char (String c (a +:+ b)) = last_char b). rewrite <-IH.
  destruct a; cbn; [by destruct b|done].
Qed.
Lemma path_last id : last_char (snapshot_path id) = last_char "t".
Proof. etrans; [by apply last_char_app|done]. Qed.
Lemma temporary_last id : last_char (temporary id) = last_char "p".
Proof. etrans; [by apply last_char_app|done]. Qed.

Lemma snapshot_path_inj : Inj (=) (=) snapshot_path.
Proof. intros a b. apply string_app_inj_r. Qed.

(** ** Effects *)

Definition effect_name (e : effect) : string := match e with Put name _ | Remove name => name end.

Lemma apply_effects_app k l m : apply_effects (k ++ l) m = apply_effects l (apply_effects k m).
Proof. apply foldl_app. Qed.
Lemma update_update k l d : update l (update k d) = update (k ++ l) d.
Proof. unfold update. cbn [cache pending durable]. by rewrite apply_effects_app, app_assoc. Qed.

Lemma untouched name effects m : name ∉ effect_name <$> effects → apply_effects effects m !! name = m !! name.
Proof.
  revert m. induction effects as [|e effects IH]; intros m Hn; [done|]. cbn in Hn. apply not_elem_of_cons in Hn as [Hne Hn].
  cbn. unfold apply_effects in IH. rewrite IH by done. destruct e; cbn in *; [by rewrite lookup_insert_ne|by rewrite lookup_delete_ne].
Qed.

(** All the effects on a name put the same file there. *)
Lemma put_only name f effects m :
  Forall (λ e, effect_name e = name → e = Put name f) effects →
  apply_effects effects m !! name = if bool_decide (name ∈ effect_name <$> effects) then Some f else m !! name.
Proof.
  revert m. induction effects as [|e effects IH]; intros m Hall; [done|]. apply Forall_cons in Hall as [He Hall].
  cbn. unfold apply_effects in IH. rewrite IH by done.
  destruct (decide (name ∈ effect_name <$> effects)) as [Hin|Hin].
  - rewrite !bool_decide_true by set_solver. done.
  - rewrite (bool_decide_false (name ∈ effect_name <$> effects)) by done. destruct (decide (effect_name e = name)) as [Heq|Hne].
    + rewrite (He Heq). cbn. rewrite lookup_insert_eq, bool_decide_true by set_solver. done.
    + rewrite bool_decide_false by set_solver. destruct e; cbn in *; [by rewrite lookup_insert_ne|by rewrite lookup_delete_ne].
Qed.

(** A crash before the effects can leave the names they do not touch as they are. *)
Lemma survives_before m effects files :
  survives (apply_effects effects m) files →
  ∃ files0, survives m files0 ∧ ∀ name, name ∉ effect_name <$> effects → files0 !! name = files !! name.
Proof.
  intros Hs. exists (map_imap (λ name f, Some (if bool_decide (name ∈ effect_name <$> effects) then content f else default [] (files !! name))) m).
  split; intros name.
  - rewrite map_lookup_imap. destruct (m !! name) as [f|] eqn:Hm; [|done]. cbn. case_bool_decide as Hin; [done|]. intros Hsync.
    specialize (Hs name). rewrite untouched, Hm in Hs by done. by destruct (files !! name); [apply Hs|].
  - intros Hin. rewrite map_lookup_imap. specialize (Hs name). rewrite untouched in Hs by done.
    destruct (m !! name) as [f|]; cbn; [|by destruct (files !! name)]. rewrite bool_decide_false by done. by destruct (files !! name).
Qed.

Definition wf (d : Disk) : Prop := cache d = apply_effects (pending d) (durable d).
Lemma update_wf effects d : wf d → wf (update effects d).
Proof. unfold wf, update. cbn [cache pending durable]. intros ->. by rewrite apply_effects_app. Qed.

Lemma crash_sync d files : wf d → crash (sync_directory d) files → crash d files.
Proof.
  intros Hwf (kept & Hkept & Hs). cbn in Hkept. apply sublist_nil_r in Hkept as ->. cbn in Hs. exists (pending d).
  split; [done|]. by rewrite <-Hwf.
Qed.

Lemma crash_update effects d files :
  crash (update effects d) files →
  ∃ kept later, kept `sublist_of` pending d ∧ later `sublist_of` effects ∧
    survives (apply_effects later (apply_effects kept (durable d))) files.
Proof.
  intros (all & Hall & Hs). cbn in Hall, Hs. apply sublist_app_r in Hall as (kept & later & -> & Hk & Hl).
  rewrite apply_effects_app in Hs. eauto.
Qed.

(** ** Putting a file in place: created, synced and renamed *)

Section Replace.
Context (temporary target : string) (data : bytes).

Definition written : effect := Put temporary {| content := data; synced := false |}.
Definition flushed : effect := Put temporary {| content := data; synced := true |}.
Definition replacement : list effect :=
  [written; flushed; Put target {| content := data; synced := true |}; Remove temporary].

Lemma create_step d : create_write temporary data d = update [written] d.
Proof. done. Qed.
Lemma sync_step d : sync_file temporary (update [written] d) = update [written; flushed] d.
Proof. unfold sync_file. cbn. rewrite lookup_insert_eq. apply (update_update [written] [flushed]). Qed.
Lemma rename_step d : rename temporary target (update [written; flushed] d) = update replacement d.
Proof. unfold rename. cbn. rewrite lookup_insert_eq. apply (update_update [written; flushed]). Qed.

Hypothesis Hne : target ≠ temporary.

Lemma replacement_cache d : cache (update replacement d) !! target = Some {| content := data; synced := true |}.
Proof. cbn. by rewrite lookup_delete_ne, lookup_insert_eq. Qed.

Lemma replacement_target later :
  later `sublist_of` replacement → Forall (λ e, effect_name e = target → e = Put target {| content := data; synced := true |}) later.
Proof.
  intros Hl%sublist_subseteq. apply Forall_forall. intros e He%Hl. unfold replacement in He.
  rewrite !elem_of_cons, elem_of_nil in He. naive_solver.
Qed.
Lemma replacement_names later name :
  later `sublist_of` replacement → name ∈ effect_name <$> later → name = temporary ∨ name = target.
Proof.
  intros Hl Hn. apply list_elem_of_fmap in Hn as (e & -> & He). apply (sublist_subseteq _ _ Hl) in He.
  unfold replacement in He. rewrite !elem_of_cons, elem_of_nil in He. naive_solver.
Qed.
End Replace.

(** ** The publication *)

Section Publication.
Context `{PointerJson} (pointer : SnapshotPointer) (payload : bytes) (d : Disk) (old : option (SnapshotPointer * bytes)).

Let path := snapshot_path (snapshot_id pointer).
Let tmp := temporary (snapshot_id pointer).

Hypothesis Hwf : wf d.
(** Whatever a crash would leave, the published snapshot is [old]. *)
Hypothesis Hstable : ∀ files, crash d files → get_current_snapshot files = old.
(** A pointer already on disk that names the same snapshot is the same pointer. *)
Hypothesis Hsame : ∀ files p, crash d files → pointed files = Some p → snapshot_id p = snapshot_id pointer → p = pointer.

Definition complete (files : gmap string bytes) : Prop :=
  get_current_snapshot files = old ∨ get_current_snapshot files = Some (pointer, payload).

Lemma names_differ :
  path ≠ tmp ∧ current_snapshot_pointer ≠ tmp ∧ current_snapshot_pointer ≠ path ∧
  current_snapshot_pointer ≠ pointer_temporary ∧ ∀ id, snapshot_path id ≠ pointer_temporary ∧ snapshot_path id ≠ tmp ∧ snapshot_path id ≠ current_snapshot_pointer.
Proof.
  assert (∀ a b, last_char a ≠ last_char b → a ≠ b) as Hlast by (by intros a b Hne ->).
  split_and!; [..|intros id; split_and!]; apply Hlast; unfold path, tmp; rewrite ?path_last, ?temporary_last; vm_compute; done.
Qed.

(** Reading back with a pointer and a snapshot that the crash left alone. *)
Lemma same_reading files files0 :
  files0 !! current_snapshot_pointer = files !! current_snapshot_pointer →
  (∀ p, pointed files = Some p → files0 !! snapshot_path (snapshot_id p) = files !! snapshot_path (snapshot_id p)) →
  get_current_snapshot files = get_current_snapshot files0.
Proof.
  intros Hp Hpath. unfold get_current_snapshot. assert (pointed files0 = pointed files) as Heq by (unfold pointed; by rewrite Hp).
  rewrite Heq. destruct (pointed files) as [p|]; [|done]. cbn. by rewrite Hpath.
Qed.

Lemma while_writing later files :
  later `sublist_of` replacement tmp path payload → crash (update later d) files → complete files.
Proof.
  destruct names_differ as (Hpt & Hct & Hcp & _ & Hid).
  intros Hlater (kept & k & Hkept & Hk & Hs)%crash_update. assert (k `sublist_of` replacement tmp path payload) as Hk' by by etrans.
  destruct (survives_before _ _ _ Hs) as (files0 & Hs0 & Hagree). assert (crash d files0) as Hcrash by (by exists kept).
  assert (files0 !! current_snapshot_pointer = files !! current_snapshot_pointer) as Hpointer.
  { apply Hagree. intros Hin. by destruct (replacement_names tmp path payload k _ Hk' Hin). }
  destruct (pointed files) as [p|] eqn:Hp.
  - destruct (decide (path ∈ effect_name <$> k ∧ snapshot_id p = snapshot_id pointer)) as [[Hin Hsid]|Hno].
    + right. assert (p = pointer) as -> by (apply (Hsame files0); [done| |done]; unfold pointed in *; by rewrite Hpointer).
      unfold get_current_snapshot. rewrite Hp. cbn. specialize (Hs path).
      rewrite (put_only path {| content := payload; synced := true |}), bool_decide_true in Hs by (done || by eapply replacement_target).
      fold path. destruct (files !! path) as [x|]; [|done]. by rewrite (Hs eq_refl).
    + left. rewrite <-(Hstable files0 Hcrash). apply same_reading; [done|]. intros p' Hp'. rewrite Hp in Hp'. injection Hp' as <-.
      apply Hagree. intros Hin. destruct (replacement_names tmp path payload k _ Hk' Hin) as [Heq|Heq]; [by apply Hid in Heq|].
      apply Hno. split; [by rewrite <-Heq|]. by apply snapshot_path_inj.
  - left. rewrite <-(Hstable files0 Hcrash). apply same_reading; [done|]. by rewrite Hp.
Qed.

(** The directory once the snapshot itself is in place. *)
Definition landed : Disk := sync_directory (update (replacement tmp path payload) d).

Lemma landed_wf : wf landed.
Proof. done. Qed.
Lemma landed_complete files : crash landed files → complete files.
Proof. intros Hc%crash_sync; [|by apply update_wf]. by apply while_writing in Hc. Qed.

Lemma while_pointing later files :
  later `sublist_of` replacement pointer_temporary current_snapshot_pointer (encode_pointer pointer) →
  crash (update later landed) files → complete files.
Proof.
  destruct names_differ as (Hpt & Hct & Hcp & Hcpt & Hid).
  intros Hlater (kept & k & Hkept & Hk & Hs)%crash_update. cbn in Hkept. apply sublist_nil_r in Hkept as ->.
  assert (k `sublist_of` replacement pointer_temporary current_snapshot_pointer (encode_pointer pointer)) as Hk' by by etrans.
  destruct (survives_before _ _ _ Hs) as (files0 & Hs0 & Hagree). assert (crash landed files0) as Hcrash by (by exists []).
  assert (∀ id, snapshot_path id ∉ effect_name <$> k) as Hpaths.
  { intros id Hin. destruct (replacement_names _ _ _ k _ Hk' Hin) as [Heq|Heq]; by apply Hid in Heq. }
  destruct (decide (current_snapshot_pointer ∈ effect_name <$> k)) as [Hin|Hin].
  - right. pose proof (Hs current_snapshot_pointer) as Hp.
    rewrite (put_only _ {| content := encode_pointer pointer; synced := true |}), bool_decide_true in Hp
      by (done || by eapply replacement_target).
    unfold get_current_snapshot, pointed. destruct (files !! current_snapshot_pointer) as [x|]; [|done]. rewrite (Hp eq_refl). cbn.
    rewrite decode_encode_pointer. cbn. specialize (Hs path). rewrite untouched in Hs by apply Hpaths.
    cbn [apply_effects foldl] in Hs. unfold landed in Hs. cbn [durable sync_directory] in Hs. rewrite replacement_cache in Hs by done.
    fold path. destruct (files !! path) as [y|]; [|done]. by rewrite (Hs eq_refl).
  - assert (get_current_snapshot files = get_current_snapshot files0) as Hread.
    { apply same_reading; [by apply Hagree|]. intros p _. by apply Hagree. }
    unfold complete. rewrite Hread. by apply landed_complete.
Qed.

(** The directory once the pointer is in place too. *)
Definition published : Disk :=
  sync_directory (update (replacement pointer_temporary current_snapshot_pointer (encode_pointer pointer)) landed).

Lemma published_new removals files :
  Forall (λ name, name ≠ path ∧ name ≠ current_snapshot_pointer) removals →
  crash (update (Remove <$> removals) published) files → get_current_snapshot files = Some (pointer, payload).
Proof.
  destruct names_differ as (Hpt & Hct & Hcp & Hcpt & Hid).
  intros Hall (kept & k & Hkept & Hk & Hs)%crash_update. cbn in Hkept. apply sublist_nil_r in Hkept as ->.
  assert (∀ name, name = path ∨ name = current_snapshot_pointer → name ∉ effect_name <$> k) as Hkeep.
  { intros name Hname (e & -> & He)%list_elem_of_fmap. apply (sublist_subseteq _ _ Hk) in He.
    apply list_elem_of_fmap in He as (n & -> & Hn). rewrite Forall_forall in Hall. destruct (Hall n Hn). naive_solver. }
  pose proof (Hs current_snapshot_pointer) as Hp. specialize (Hs path). rewrite untouched in Hs, Hp by auto.
  cbn [apply_effects foldl published durable sync_directory] in Hs, Hp. rewrite replacement_cache in Hp by done.
  unfold get_current_snapshot, pointed. destruct (files !! current_snapshot_pointer) as [x|]; [|done]. rewrite (Hp eq_refl). cbn.
  rewrite decode_encode_pointer. cbn. fold path.
  cbn [cache update] in Hs. rewrite untouched in Hs.
  - unfold landed in Hs. cbn [cache sync_directory] in Hs. rewrite replacement_cache in Hs by done.
    destruct (files !! path) as [y|]; [|done]. by rewrite (Hs eq_refl).
  - intros Hin. destruct (replacement_names _ _ _ _ _ (reflexivity _) Hin) as [Heq|Heq]; by apply Hid in Heq.
Qed.

Lemma update_nil d0 : update [] d0 = d0.
Proof. unfold update. cbn. rewrite app_nil_r. by destruct d0. Qed.
Lemma remove_steps names d0 : steps (remove_file <$> names) d0 = update (Remove <$> names) d0.
Proof.
  revert d0. induction names as [|name names IH]; intros d0; [by rewrite update_nil|]. cbn [fmap list_fmap steps foldl].
  unfold steps in IH. rewrite IH. apply (update_update [Remove name]).
Qed.

Lemma publish_steps : steps (publish pointer payload) d = published.
Proof.
  unfold publish. cbn [steps foldl]. rewrite create_step, sync_step, rename_step, create_step, sync_step, rename_step. done.
Qed.

Lemma stale_names l : l ⊆ stale path published → Forall (λ name, name ≠ path ∧ name ≠ current_snapshot_pointer) l.
Proof.
  intros Hl. apply Forall_forall. intros name Hn%Hl. unfold stale in Hn.
  apply list_elem_of_In, filter_In in Hn as [_ Hn]. bool_facts. by rewrite !String.eqb_neq in *.
Qed.

Lemma interrupted_complete n files : crash (interrupted n pointer payload d) files → complete files.
Proof.
  unfold interrupted. rewrite publish_steps. unfold prune. fold path.
  destruct (decide (n < 8)%nat) as [Hn|Hn].
  - rewrite take_app_le by (cbn; lia). unfold publish.
    destruct n as [|[|[|[|[|[|[|[|n]]]]]]]]; [..|lia]; cbn [take steps foldl]; rewrite ?create_step, ?sync_step, ?rename_step.
    + intros Hc. apply (while_writing []); [apply sublist_nil_l|by rewrite update_nil].
    + apply while_writing. by repeat constructor.
    + apply while_writing. by repeat constructor.
    + by apply while_writing.
    + apply landed_complete.
    + apply while_pointing. by repeat constructor.
    + apply while_pointing. by repeat constructor.
    + by apply while_pointing.
  - rewrite take_app_ge by (cbn; lia). unfold steps at 1. rewrite foldl_app.
    change (foldl (λ d0 f, f d0) d (publish pointer payload)) with (steps (publish pointer payload) d).
    rewrite publish_steps, <-fmap_take. fold (steps (remove_file <$> take (n - length (publish pointer payload)) (stale path published)) published).
    rewrite remove_steps. intros Hc. right. eapply published_new; [|exact Hc]. apply stale_names. apply sublist_subseteq, sublist_take.
Qed.

Lemma persisted files : crash (persist_snapshot pointer payload d) files → get_current_snapshot files = Some (pointer, payload).
Proof.
  unfold persist_snapshot. rewrite publish_steps. unfold prune. fold path. rewrite remove_steps.
  apply published_new. by apply stale_names.
Qed.
End Publication.

(** A crash between any two primitives of publishing a snapshot leaves the snapshot that
    was published before or the new one, each with its whole content; once the
    publication is done every crash leaves the new one. The first hypothesis says that
    running code sees the durable directory with the updates since. *)
Theorem snapshot_survives_crash `{PointerJson} pointer payload d old :
  wf d → (∀ files, crash d files → get_current_snapshot files = old) →
  (∀ files p, crash d files → pointed files = Some p → snapshot_id p = snapshot_id pointer → p = pointer) →
  (∀ n files, crash (interrupted n pointer payload d) files →
     get_current_snapshot files = old ∨ get_current_snapshot files = Some (pointer, payload)) ∧
  (∀ files, crash (persist_snapshot pointer payload d) files → get_current_snapshot files = Some (pointer, payload)).
Proof.
  intros Hwf Hstable Hsame. split.
  - intros n files. by apply (interrupted_complete pointer payload d old Hwf Hstable Hsame).
  - intros files. apply persisted.
Qed.

(** ** An example: the first publication *)

Module Examples.
Import SampleJson.
#[local] Instance pointer_eq : EqDecision SnapshotPointer.
Proof. solve_decision. Defined.
#[local] Instance pointer_countable : Countable SnapshotPointer.
Proof.
  refine (inj_countable' (λ x, (snapshot_id x, pointer_applied x, pointer_membership x))
    (λ '(x0, x1, x2), {| snapshot_id := x0; pointer_applied := x1; pointer_membership := x2 |}) _). by intros [].
Defined.
#[local] Program Instance sample_pointers : PointerJson := {
  encode_pointer p := bits (encode p); decode_pointer b := decode (of_bits b) }.
Next Obligation. intros p. cbn. by rewrite of_bits_bits, decode_encode. Qed.

Definition empty_disk : Disk := {| cache := ∅; durable := ∅; pending := [] |}.
Definition first : SnapshotPointer :=
  {| snapshot_id := "T1-N1-5-1"; pointer_applied := Some {| leader_term := 1; leader_node := 1; log_index := 5 |};
     pointer_membership := no_membership |}.

Lemma empty_crash files : crash empty_disk files → pointed files = None.
Proof.
  intros (kept & Hkept & Hs). cbn in Hkept. apply sublist_nil_r in Hkept as ->. specialize (Hs current_snapshot_pointer).
  cbn in Hs. rewrite lookup_empty in Hs. unfold pointed. by destruct (files !! current_snapshot_pointer).
Qed.

Lemma snapshot_survives_crash_witness :
  crash empty_disk ∅ ∧ ∀ files, crash (persist_snapshot first [7] empty_disk) files → get_current_snapshot files = Some (first, [7]).
Proof.
  split; [exists []; split; [done|]; intros name; by rewrite !lookup_empty|].
  refine (proj2 (snapshot_survives_crash first [7] empty_disk None _ _ _)).
  - reflexivity.
  - intros files Hc%empty_crash. unfold get_current_snapshot. by rewrite Hc.
  - intros files p Hc%empty_crash Hp. by rewrite Hc in Hp.
Defined.
End Examples.
End SnapshotFilesTheorems.
