(* ===== verification/Names.v ===== *)
(** * Names and media types

    Bucket names and object keys ([crates/record-store-core/src/names.rs]), and
    the classification of media types that decides how an object's bytes may be
    presented to a browser ([preview.rs]). Text is its UTF-8 bytes. *)

From S2P Require Import Prelude Bytes Text ObjectLock.
Import Text StdText ObjectLock.

Module Names.

Abbreviation str := bytes_of_string.

Definition len (s : bytes) : Z := Z.of_nat (length s).

(** ** [BucketName] *)

Definition BucketName_MIN_LENGTH : Z := 3.
Definition BucketName_MAX_LENGTH : Z := 63.

Fixpoint contains_str (p s : bytes) : bool :=
  starts_with p s || match s with [] => false | _ :: rest => contains_str p rest end.

Definition bucket_byte (b : Z) : bool := is_ascii_lowercase b || is_ascii_digit b || (b =? 45) || (b =? 46).

Definition validate_bucket_name (value : bytes) : result CoreError () :=
  if negb ((BucketName_MIN_LENGTH <=? len value) && (len value <=? BucketName_MAX_LENGTH))
  then Err (InvalidBucketName "name must contain between 3 and 63 bytes")
  else if negb (from_option is_ascii_alphanumeric false (head value)) ||
          negb (from_option is_ascii_alphanumeric false (last value))
  then Err (InvalidBucketName "name must begin and end with a letter or digit")
  else if negb (forallb bucket_byte value)
  then Err (InvalidBucketName "only lowercase letters, digits, hyphens, and periods are permitted")
  else if contains_str (str "..") value then Err (InvalidBucketName "adjacent periods are not permitted")
  else if parses_ipv4 value then Err (InvalidBucketName "IP address notation is not permitted")
  else if starts_with (str "xn--") value || starts_with (str "sthree-") value ||
          ends_with (str "-s3alias") value || ends_with (str "--ol-s3") value ||
          bool_decide (value = str "record-store-system") || bool_decide (value = str "record-store-internal")
  then Err (InvalidBucketName "name uses a reserved prefix, suffix, or internal name")
  else Ok ().

(** The validated value itself. *)
Definition bucket_name_new (value : bytes) : result CoreError bytes :=
  validate_bucket_name value ≫= λ _, Ok value.

(** ** [ObjectKey] *)

Definition ObjectKey_MAX_LENGTH : Z := 1024.

Definition validate_object_key (value : bytes) : result CoreError () :=
  if bool_decide (value = []) then Err (InvalidObjectKey "key must not be empty")
  else if ObjectKey_MAX_LENGTH <? len value then Err (InvalidObjectKey "key exceeds 1024 bytes")
  else if starts_with (str "/") value then Err (InvalidObjectKey "key must not begin with a slash")
  else if contains 92 value then Err (InvalidObjectKey "backslashes are not permitted")
  else if any_control value then Err (InvalidObjectKey "control characters are not permitted")
  else if existsb (λ segment, bool_decide (segment = []) || bool_decide (segment = str ".") ||
                              bool_decide (segment = str "..")) (split 47 value)
  then Err (InvalidObjectKey "empty, '.' and '..' path segments are not permitted")
  else Ok ().

Definition object_key_new (value : bytes) : result CoreError bytes :=
  validate_object_key value ≫= λ _, Ok value.

(** ** [PreviewKind] *)

Inductive PreviewKind := Image | Video | Audio | Pdf | TextKind | Json | UnsafeInline | Unsupported.
#[export] Instance PreviewKind_eq_dec : EqDecision PreviewKind.
Proof. solve_decision. Defined.

(** The media type without its parameters. *)
Definition essence (content_type : bytes) : bytes :=
  to_ascii_lowercase (trim (default [] (head (split 59 content_type)))).

Definition is_one_of (s : bytes) (names : list string) : bool := existsb (λ name, bool_decide (s = str name)) names.

Definition classify (content_type : option bytes) : PreviewKind :=
  match content_type with
  | None => Unsupported
  | Some content_type =>
      let e := essence content_type in
      if is_one_of e ["image/jpeg"; "image/png"; "image/webp"; "image/gif"] then Image
      else if is_one_of e ["video/mp4"; "video/webm"] then Video
      else if is_one_of e ["audio/mpeg"; "audio/ogg"; "audio/wav"; "audio/x-wav"; "audio/webm"] then Audio
      else if is_one_of e ["application/pdf"] then Pdf
      else if is_one_of e ["text/plain"; "text/markdown"; "text/csv"] then TextKind
      else if is_one_of e ["application/json"] then Json
      else if is_one_of e ["text/html"; "application/xhtml+xml"; "image/svg+xml"; "application/xml"; "text/xml";
                           "text/javascript"; "application/javascript"; "application/ecmascript";
                           "application/x-shockwave-flash"; "application/xslt+xml"] then UnsafeInline
      else Unsupported
  end.

Definition canonical_content_type (content_type : bytes) : option string :=
  let e := essence content_type in
  let listed := find (λ name, bool_decide (e = str name))
    ["image/jpeg"; "image/png"; "image/webp"; "image/gif"; "video/mp4"; "video/webm"; "audio/mpeg";
     "audio/ogg"; "audio/wav"; "audio/webm"; "application/pdf"] in
  match listed with
  | Some name => Some name
  | None =>
      if is_one_of e ["audio/x-wav"] then Some "audio/wav"
      else if is_one_of e ["text/plain"; "text/markdown"; "text/csv"] then Some "text/plain; charset=utf-8"
      else if is_one_of e ["application/json"] then Some "application/json; charset=utf-8"
      else None
  end%string.

Definition allows_inline (kind : PreviewKind) : bool :=
  match kind with Image | Video | Audio | Pdf | TextKind | Json => true | UnsafeInline | Unsupported => false end.
Definition allows_element_embed (kind : PreviewKind) : bool :=
  match kind with Image | Video | Audio => true | _ => false end.
Definition seekable (kind : PreviewKind) : bool :=
  match kind with Video | Audio | Pdf => true | _ => false end.

(** ** The leading bytes of an object *)

Definition CONTENT_SIGNATURE_PROBE_BYTES : Z := 64.

Fixpoint skip_whitespace (s : bytes) : bytes :=
  match s with b :: rest => if is_ascii_whitespace b then skip_whitespace rest else s | [] => [] end.

Definition looks_like_markup (prefix : bytes) : bool :=
  let bom := [239; 187; 191] in
  let start := if starts_with bom prefix then drop 3 prefix else prefix in
  let trimmed := to_ascii_lowercase (take 16 (skip_whitespace start)) in
  existsb (λ marker, starts_with (str marker) trimmed)
    ["<!doctype"; "<html"; "<head"; "<body"; "<script"; "<svg"; "<?xml"]%string.

Definition slice (from to : nat) (s : bytes) : bytes := take (to - from) (drop from s).

Definition riff_form (prefix form : bytes) : bool :=
  (12 <=? len prefix) && starts_with (str "RIFF") prefix && bool_decide (slice 8 12 prefix = form).
Definition mp4_brand (prefix : bytes) : bool :=
  (12 <=? len prefix) && bool_decide (slice 4 8 prefix = str "ftyp").

Definition content_signature_matches (content_type prefix : bytes) : bool :=
  let e := essence content_type in
  if is_one_of e ["image/jpeg"] then starts_with [255; 216; 255] prefix
  else if is_one_of e ["image/png"] then starts_with [137; 80; 78; 71; 13; 10; 26; 10] prefix
  else if is_one_of e ["image/gif"] then starts_with (str "GIF87a") prefix || starts_with (str "GIF89a") prefix
  else if is_one_of e ["image/webp"] then riff_form prefix (str "WEBP")
  else if is_one_of e ["application/pdf"] then starts_with (str "%PDF-") prefix
  else if is_one_of e ["video/mp4"] then mp4_brand prefix
  else if is_one_of e ["video/webm"; "audio/webm"] then starts_with [26; 69; 223; 163] prefix
  else if is_one_of e ["audio/ogg"] then starts_with (str "OggS") prefix
  else if is_one_of e ["audio/wav"; "audio/x-wav"] then riff_form prefix (str "WAVE")
  else if is_one_of e ["audio/mpeg"] then
    starts_with (str "ID3") prefix ||
    ((2 <=? len prefix) && bool_decide (prefix !! 0%nat = Some 255) &&
     (Z.land (default 0 (prefix !! 1%nat)) 224 =? 224))
  else if is_one_of e ["text/plain"; "text/markdown"; "text/csv"; "application/json"] then negb (looks_like_markup prefix)
  else true.

(** ** Lemmas *)

(** A canonical media type is emitted for exactly the kinds that are shown inline. *)
Lemma canonical_iff_inline content_type :
  is_Some (canonical_content_type content_type) ↔ allows_inline (classify (Some content_type)) = true.
Proof.
  unfold classify, canonical_content_type. generalize (essence content_type) as e. intros e.
  unfold is_one_of. cbn [existsb find].
  repeat match goal with
  | |- context [bool_decide (e = ?s)] =>
      destruct (decide (e = s)) as [->|]; 
        [first [split; intros _; [reflexivity|by eexists]|split; [by intros []|done]]
        |rewrite (bool_decide_eq_false_2 (e = s)) by done]
  end.
  split; [by intros []|done].
Qed.

(** Keys hold no byte that UTF-8 cannot, and no control character. *)
Lemma utf8_valid_below l : Forall byte_ok l → utf8_valid l = true → Forall (λ b, b < 255) l.
Proof.
  enough (∀ n l, (length l ≤ n)%nat → Forall byte_ok l → utf8_valid l = true → Forall (λ b, b < 255) l) by eauto.
  clear l. induction n as [|n IH]; intros [|a l] Hlen Hok Hv; try done; cbn in Hlen; [lia|].
  assert (Hcont : ∀ b, continuation b = true → b < 255) by (intros b ?%between_spec; lia).
  apply Forall_cons in Hok as [_ Hok]. cbn [utf8_valid] in Hv. destruct (between 0 127 a) eqn:Ha.
  { apply between_spec in Ha. constructor; [lia|]. apply IH; [lia|done|done]. }
  destruct l as [|b l]; [done|]. apply Forall_cons in Hok as [_ Hok]. cbn in Hlen. destruct (between 194 223 a) eqn:Ha2.
  { apply between_spec in Ha2. apply andb_true_iff in Hv as [Hb Hv].
    constructor; [lia|]. constructor; [by apply Hcont|]. apply IH; [lia|done|done]. }
  destruct l as [|c l]; [done|]. apply Forall_cons in Hok as [_ Hok]. cbn in Hlen. destruct (second_of_three a b) eqn:Hab.
  { apply andb_true_iff in Hv as [Hc Hv]. unfold second_of_three, continuation, between in Hab.
    do 2 (constructor; [repeat case_match; bool_facts; lia|]).
    constructor; [by apply Hcont|]. apply IH; [lia|done|done]. }
  destruct l as [|d l]; [done|]. apply Forall_cons in Hok as [_ Hok]. cbn in Hlen.
  rewrite !andb_true_iff in Hv. destruct Hv as [[[Hab' Hc] Hd] Hv]. unfold second_of_four, continuation, between in Hab'.
  do 2 (constructor; [repeat case_match; bool_facts; lia|]). do 2 (constructor; [by apply Hcont|]).
  apply IH; [lia|done|done].
Qed.

End Names.
