(* ===== verification/Limiter.v ===== *)
(** * Abuse limiter

    [crates/record-store-sharing/src/limiter.rs]: a fixed-window counter per key
    over a bounded number of keys. The mutex makes every call one step; an
    [Instant] is a number of nanoseconds, of which [duration_since] is the
    saturating difference. *)

From S2P Require Import Prelude Bytes.

Module Limiter.

Inductive RateDecision := Allowed | Throttled (retry_after_seconds : Z).
#[export] Instance RateDecision_eq_dec : EqDecision RateDecision.
Proof. solve_decision. Defined.

Definition allowed (decision : RateDecision) : bool :=
  match decision with Allowed => true | Throttled _ => false end.

Record Window := { started : Z; count : Z }.

Section Limiter.
Context {K : Type} `{Countable K}.

(** [poisoned] is the state of the mutex. *)
Record RateLimiter := {
  inner : gmap K Window; poisoned : bool; permitted : Z; window : Z; capacity : Z }.

Definition new (permitted_ window_ capacity_ : Z) : RateLimiter :=
  {| inner := ∅; poisoned := false; permitted := Z.max permitted_ 1; window := window_;
     capacity := Z.max capacity_ 1 |}.

Definition with_inner (self : RateLimiter) (m : gmap K Window) : RateLimiter :=
  {| inner := m; poisoned := poisoned self; permitted := permitted self; window := window self;
     capacity := capacity self |}.

Definition duration_since (now start : Z) : Z := Z.max 0 (now - start).
Definition as_secs (d : Z) : Z := d / 10 ^ 9.

Definition map_len (m : gmap K Window) : Z := Z.of_nat (size m).

(** [check] is [check_at] at the current instant. *)
Definition check_at (key : K) (now : Z) (self : RateLimiter) : RateDecision * RateLimiter :=
  let closed := Throttled (Z.max (as_secs (window self)) 1) in
  if poisoned self then (closed, self)
  else
    let full (m : gmap K Window) := (capacity self <=? map_len m) in
    let swept := full (inner self) && bool_decide (inner self !! key = None) in
    let m := if swept then filter (λ kw, duration_since now (started kw.2) < window self) (inner self)
             else inner self in
    if swept && full m then (closed, with_inner self m)
    else
      let entry := default {| started := now; count := 0 |} (m !! key) in
      let entry := if window self <=? duration_since now (started entry)
                   then {| started := now; count := 0 |} else entry in
      if permitted self <=? count entry
      then let elapsed := duration_since now (started entry) in
           let remaining := Z.max 0 (window self - elapsed) in
           (Throttled (u64_saturating_add (as_secs remaining) 1), with_inner self (<[key := entry]> m))
      else (Allowed, with_inner self (<[key := {| started := started entry; count := count entry + 1 |}]> m)).

Definition forget (key : K) (self : RateLimiter) : RateLimiter :=
  if poisoned self then self else with_inner self (delete key (inner self)).

Definition tracked (self : RateLimiter) : Z := if poisoned self then 0 else map_len (inner self).

(** ** Invariant *)

(** Counts stay within the allowance, keys within the capacity. *)
Record limiter_ok (self : RateLimiter) : Prop := {
  ok_healthy : poisoned self = false;
  ok_permitted : 1 ≤ permitted self ≤ u32_max;
  ok_bounded : map_len (inner self) ≤ capacity self;
  ok_counts : ∀ k w, inner self !! k = Some w → 0 ≤ count w ≤ permitted self }.

Lemma new_ok p w c : p ≤ u32_max → limiter_ok (new p w c).
Proof. intros Hp. split; cbn; [done|unfold u32_max in *; lia|unfold map_len; rewrite map_size_empty; lia|done]. Qed.

(** The map after the sweep: only windows that have ended are gone. *)
Lemma swept_lookup (m : gmap K Window) now win k w :
  filter (λ kw : K * Window, duration_since now (started kw.2) < win) m !! k = Some w ↔
  m !! k = Some w ∧ duration_since now (started w) < win.
Proof. by rewrite map_lookup_filter_Some. Qed.

Lemma map_len_insert (m : gmap K Window) k w c :
  map_len m ≤ c → (m !! k = None → map_len m < c) → map_len (<[k := w]> m) ≤ c.
Proof.
  intros Hle Hlt. unfold map_len in *. destruct (m !! k) eqn:Hk.
  - rewrite map_size_insert_Some by (by eexists). done.
  - rewrite map_size_insert_None by done. specialize (Hlt eq_refl). lia.
Qed.

(** What one check does to a healthy limiter: the map swept, then the key's window. *)
Inductive checked (key : K) (now : Z) (self : RateLimiter) : RateDecision → RateLimiter → Prop :=
  | check_full m :
      m ⊆ inner self → inner self !! key = None → capacity self ≤ map_len m →
      (∀ k w, inner self !! k = Some w → duration_since now (started w) < window self → m !! k = Some w) →
      checked key now self (Throttled (Z.max (as_secs (window self)) 1)) (with_inner self m)
  | check_counted m entry decision after :
      m ⊆ inner self → m !! key = inner self !! key →
      (∀ k w, inner self !! k = Some w → duration_since now (started w) < window self → m !! k = Some w) →
      (inner self !! key = None → map_len m < capacity self) →
      (entry = {| started := now; count := 0 |} ∧
       (∀ w, m !! key = Some w → window self ≤ duration_since now (started w)) ∨
       m !! key = Some entry ∧ duration_since now (started entry) < window self) →
      (decision = Allowed ∧ count entry < permitted self ∧
       after = {| started := started entry; count := count entry + 1 |} ∨
       (∃ retry, decision = Throttled retry) ∧ permitted self ≤ count entry ∧ after = entry) →
      checked key now self decision (with_inner self (<[key := after]> m)).

Lemma check_at_checked key now self decision self' :
  poisoned self = false → check_at key now self = (decision, self') → checked key now self decision self'.
Proof.
  intros Hp. unfold check_at. rewrite Hp.
  cbv zeta.
  set (swept := (capacity self <=? map_len (inner self)) && bool_decide (inner self !! key = None)).
  set (m := if swept then filter _ (inner self) else inner self).
  assert (Hsub : m ⊆ inner self) by (subst m; destruct swept; [apply map_filter_subseteq|done]).
  assert (Hlive : ∀ k w, inner self !! k = Some w → duration_since now (started w) < window self → m !! k = Some w).
  { intros k w Hk Hw. subst m. destruct swept; [by apply swept_lookup|done]. }
  assert (Hkey : m !! key = inner self !! key).
  { subst m. destruct swept eqn:Hs; [|done]. subst swept. bool_facts.
    match goal with Hn : inner self !! key = None |- _ => rewrite Hn end.
    apply map_lookup_filter_None. by left. }
  destruct (swept && _) eqn:Hfull.
  { intros [= <- <-]. apply andb_true_iff in Hfull as [Hs Hfull]. subst swept. bool_facts.
    apply check_full; [done|done|lia|done]. }
  set (entry := if window self <=? duration_since now (started (default _ (m !! key))) then _ else _).
  assert (Hroom : inner self !! key = None → map_len m < capacity self).
  { intros Hn. subst m swept. rewrite Hn in *. rewrite (bool_decide_eq_true_2 (None = None)), andb_true_r in Hfull |- * by done.
    destruct (capacity self <=? map_len (inner self)) eqn:Hc; bool_facts; cbn in Hfull; [by apply Z.leb_gt|lia]. }
  assert (Hentry : entry = {| started := now; count := 0 |} ∧
       (∀ w, m !! key = Some w → window self ≤ duration_since now (started w)) ∨
       m !! key = Some entry ∧ duration_since now (started entry) < window self).
  { subst entry. destruct (m !! key) as [w|] eqn:Hk; cbn [from_option id].
    - destruct (Z.leb_spec (window self) (duration_since now (started w))); [left|right]; [|done].
      split; [done|]. by intros ? [= <-].
    - left. split; [by case_match|done]. }
  destruct (Z.leb_spec (permitted self) (count entry)); intros [= <- <-];
    eapply check_counted; eauto; naive_solver.
Qed.

Lemma check_at_ok key now self : limiter_ok self → limiter_ok (check_at key now self).2.
Proof.
  intros Hok. destruct (check_at key now self) as [decision self'] eqn:Hc. cbn [snd].
  apply check_at_checked in Hc; [|apply Hok]. destruct Hok as [Hp Hperm Hb Hcounts].
  assert (Hsz : ∀ m : gmap K Window, m ⊆ inner self → map_len m ≤ capacity self).
  { intros m Hm. transitivity (map_len (inner self)); [|done]. unfold map_len. apply inj_le. by apply map_subseteq_size. }
  destruct Hc as [m Hsub Hn Hfull _|m entry decision after Hsub Hk _ Hroom Hentry Hcase];
    split; cbn; [done|done|by apply Hsz| |done|done| |].
  - intros k w Hw. eapply Hcounts, lookup_weaken; eauto.
  - apply map_len_insert; [by apply Hsz|]. rewrite Hk. exact Hroom.
  - assert (He : 0 ≤ count entry ≤ permitted self).
    { destruct Hentry as [[-> _]|[He _]]; [cbn; lia|]. eapply Hcounts, lookup_weaken; eauto. }
    intros k w. rewrite lookup_insert_Some. intros [[<- <-]|[_ Hw]]; [|eapply Hcounts, lookup_weaken; eauto].
    destruct Hcase as [(_ & ? & ->)|(_ & ? & ->)]; cbn; lia.
Qed.

Lemma check_at_fixed key now self :
  let self' := (check_at key now self).2 in
  permitted self' = permitted self ∧ window self' = window self ∧ capacity self' = capacity self.
Proof. unfold check_at. cbn. repeat case_match; done. Qed.

Lemma forget_ok key self : limiter_ok self → limiter_ok (forget key self).
Proof.
  intros [Hp Hperm Hb Hcounts]. unfold forget. rewrite Hp. split; cbn; [done|done| |].
  - unfold map_len in *. pose proof (map_subseteq_size _ _ (delete_subseteq (inner self) key)). lia.
  - intros k w Hw%lookup_delete_Some. naive_solver.
Qed.
End Limiter.
#[global] Arguments RateLimiter K {_ _}.

(** ** Runs of calls *)

Inductive Call (K : Type) := Check (key : K) (now : Z) | Forget (key : K).
#[global] Arguments Check {K}.
#[global] Arguments Forget {K}.

Section Runs.
Context {K : Type} `{Countable K}.

Definition call (c : Call K) (self : RateLimiter K) : option RateDecision * RateLimiter K :=
  match c with
  | Check key now => let '(decision, self) := check_at key now self in (Some decision, self)
  | Forget key => (None, forget key self)
  end.

Fixpoint calls (cs : list (Call K)) (self : RateLimiter K) : list (option RateDecision) * RateLimiter K :=
  match cs with
  | [] => ([], self)
  | c :: cs => let '(d, self) := call c self in let '(ds, self) := calls cs self in (d :: ds, self)
  end.

(** The instants of the checks do not go back: the mutex orders the calls. *)
Fixpoint monotone (from : Z) (cs : list (Call K)) : Prop :=
  match cs with
  | [] => True
  | Check _ now :: cs => from ≤ now ∧ monotone now cs
  | Forget _ :: cs => monotone from cs
  end.

(** How often [key] was let through, at instants from [lo] up to before [hi]. *)
Fixpoint let_through (key : K) (lo hi : Z) (cs : list (Call K)) (ds : list (option RateDecision)) : Z :=
  match cs, ds with
  | Check k now :: cs, Some Allowed :: ds =>
      (if bool_decide (k = key) && (lo <=? now) && (now <? hi) then 1 else 0) + let_through key lo hi cs ds
  | _ :: cs, _ :: ds => let_through key lo hi cs ds
  | _, _ => 0
  end.

Lemma calls_ok cs self : limiter_ok self → limiter_ok (calls cs self).2.
Proof.
  revert self. induction cs as [|c cs IH]; intros self Hok; [done|]. cbn [calls].
  assert (limiter_ok (call c self).2).
  { destruct c as [k t|k]; cbn [call]; [|by apply forget_ok].
    pose proof (check_at_ok k t self Hok). by destruct (check_at k t self). }
  destruct (call c self) as [d s1]. specialize (IH s1). destruct (calls cs s1) as [ds s2]. by apply IH.
Qed.

(** How many passed since [lo], against the key's window: a window begun before
    [lo] holds all of them, one begun after holds all but one allowance. *)
Definition account (self : RateLimiter K) (key : K) (lo n : Z) : Prop :=
  match inner self !! key with
  | None => n ≤ permitted self
  | Some w => if started w <? lo then n ≤ count w else n ≤ permitted self + count w
  end.

Lemma account_bound self key lo n : limiter_ok self → account self key lo n → n ≤ 2 * permitted self.
Proof.
  intros [_ Hp _ Hc]. unfold account. destruct (inner self !! key) as [w|] eqn:Hw; [|lia].
  specialize (Hc _ _ Hw). case_match; lia.
Qed.

Lemma account_check self key lo n k now :
  limiter_ok self → account self key lo n → lo ≤ now < lo + window self →
  let '(decision, self') := check_at k now self in
  account self' key lo (n + if bool_decide (k = key) && allowed decision then 1 else 0).
Proof.
  intros Hok Hacc Hnow. destruct (check_at k now self) as [decision self'] eqn:Hc.
  apply check_at_checked in Hc; [|apply Hok]. destruct Hok as [_ Hperm _ Hcounts]. unfold account in *.
  assert (Hlive : ∀ w, inner self !! key = Some w → lo ≤ started w → duration_since now (started w) < window self).
  { intros w Hw Hs. unfold duration_since. lia. }
  destruct Hc as [m Hsub Hn _ Hkeep|m entry decision after Hsub Hmk Hkeep _ Hentry Hcase].
  all: assert (Hother : match m !! key with None => n ≤ permitted self
       | Some w => if started w <? lo then n ≤ count w else n ≤ permitted self + count w end) by
    (destruct (m !! key) as [w|] eqn:Hw; [by rewrite (lookup_weaken _ _ _ _ Hw Hsub) in Hacc|];
     destruct (inner self !! key) as [w|] eqn:Hi; [|done]; specialize (Hcounts _ _ Hi);
     destruct (Z.ltb_spec (started w) lo); [lia|]; rewrite (Hkeep _ _ Hi) in Hw by (by apply Hlive); done).
  - cbn [with_inner inner permitted allowed]. by rewrite andb_false_r, Z.add_0_r.
  - cbn [with_inner inner permitted]. destruct (decide (k = key)) as [->|Hne].
    2: { rewrite lookup_insert_ne by done. by rewrite (bool_decide_eq_false_2 (k = key)), Z.add_0_r by done. }
    rewrite lookup_insert_eq, (bool_decide_eq_true_2 (key = key)) by done. cbn [andb].
    assert (Hent : if started entry <? lo then n ≤ count entry else n ≤ permitted self + count entry).
    { destruct Hentry as [[-> Hold]|[He _]]; [|by rewrite He in Hother]. cbn.
      rewrite (proj2 (Z.ltb_ge now lo)) by lia. destruct (m !! key) as [w|] eqn:Hw; [|lia].
      specialize (Hcounts _ _ (lookup_weaken _ _ _ _ Hw Hsub)). specialize (Hold w eq_refl).
      unfold duration_since in Hold. destruct (Z.ltb_spec (started w) lo); lia. }
    destruct Hcase as [(-> & _ & ->)|([? ->] & _ & ->)]; cbn [allowed started count]; case_match; lia.
Qed.

Lemma account_forget self key lo n k :
  limiter_ok self → k ≠ key → account self key lo n → account (forget k self) key lo n.
Proof.
  intros [Hp _ _ _] Hne Hacc. unfold account, forget in *. rewrite Hp. cbn. by rewrite lookup_delete_ne.
Qed.

Lemma window_self_calls c self : window (call c self).2 = window self ∧ permitted (call c self).2 = permitted self.
Proof.
  destruct c as [k t|k]; cbn [call].
  - pose proof (check_at_fixed k t self) as (? & ? & ?). by destruct (check_at k t self).
  - unfold forget. by case_match.
Qed.

(** Nothing is counted before [lo] or from [hi] on. *)
Lemma let_through_late key lo hi cs ds from : monotone from cs → hi ≤ from → let_through key lo hi cs ds = 0.
Proof.
  revert ds from. induction cs as [|c cs IH]; intros ds from Hm Hhi; [done|].
  destruct c as [k now|k]; destruct ds as [|d ds]; cbn [let_through monotone] in *; try done; [|by eapply IH].
  destruct Hm as [Hfrom Hm]. destruct d as [[|]|]; try (by eapply IH; eauto; lia).
  rewrite (IH ds now) by (done || lia). rewrite (proj2 (Z.ltb_ge now hi)) by lia. by rewrite andb_false_r.
Qed.

Lemma let_through_account cs key lo n self from :
  limiter_ok self → account self key lo n → monotone from cs → lo ≤ from → Forget key ∉ cs →
  n + let_through key lo (lo + window self) cs (calls cs self).1 ≤ 2 * permitted self.
Proof.
  revert n self from. induction cs as [|c cs IH]; intros n self from Hok Hacc Hm Hfrom Hf.
  { cbn. rewrite Z.add_0_r. by eapply account_bound. }
  apply not_elem_of_cons in Hf as [Hc Hf]. cbn [calls].
  pose proof (calls_ok [c] self Hok) as Hok1. cbn [calls] in Hok1.
  pose proof (window_self_calls c self) as [Hw Hp]. destruct c as [k now|k]; cbn [call monotone] in *.
  - destruct Hm as [Hnow Hm]. destruct (Z.lt_ge_cases now (lo + window self)).
    + pose proof (account_check self key lo n k now Hok Hacc ltac:(lia)) as Hacc1.
      destruct (check_at k now self) as [d s1]. cbn [snd] in *.
      specialize (IH _ s1 now Hok1 Hacc1 Hm ltac:(lia) Hf). rewrite Hw, Hp in IH.
      destruct (calls cs s1) as [ds s2]. cbn [fst let_through] in *.
      destruct d; cbn [allowed] in *; rewrite ?andb_true_r, ?andb_false_r in IH; [|lia].
      rewrite (proj2 (Z.leb_le lo now)), (proj2 (Z.ltb_lt now (lo + window self))) by lia.
      rewrite !andb_true_r. lia.
    + destruct (check_at k now self) as [d s1]. destruct (calls cs s1) as [ds s2]. cbn [fst].
      rewrite (let_through_late _ _ _ (Check k now :: cs) _ (lo + window self)) by (cbn; done || lia).
      rewrite Z.add_0_r. by eapply account_bound.
  - cbn [snd] in *. assert (k ≠ key) by congruence.
    specialize (IH n (forget k self) from Hok1 ltac:(by apply account_forget) Hm Hfrom Hf). rewrite Hw, Hp in IH.
    destruct (calls cs (forget k self)) as [ds s2]. exact IH.
Qed.

(** Before [lo] nothing counts, so a fresh account can be opened there. *)
Lemma let_through_from cs key lo self from :
  limiter_ok self → monotone from cs → Forget key ∉ cs →
  let_through key lo (lo + window self) cs (calls cs self).1 ≤ 2 * permitted self.
Proof.
  revert self from. induction cs as [|c cs IH]; intros self from Hok Hm Hf.
  { cbn. destruct (ok_permitted _ Hok). lia. }
  destruct (Z.le_gt_cases lo (match c with Check _ now => now | Forget _ => from end)) as [Hlo|Hlo].
  - destruct c as [k now|k].
    + cbn [monotone] in Hm. rewrite <-(Z.add_0_l (let_through _ _ _ _ _)).
      apply (let_through_account _ _ _ _ _ now); [done| |cbn; split; [lia|apply Hm]|done|done].
      unfold account. destruct (inner self !! key) as [w|] eqn:Hw; [|destruct (ok_permitted _ Hok); lia].
      pose proof (ok_counts _ Hok _ _ Hw). destruct (ok_permitted _ Hok). case_match; lia.
    + rewrite <-(Z.add_0_l (let_through _ _ _ _ _)).
      apply (let_through_account _ _ _ _ _ from); [done| |done|done|done].
      unfold account. destruct (inner self !! key) as [w|] eqn:Hw; [|destruct (ok_permitted _ Hok); lia].
      pose proof (ok_counts _ Hok _ _ Hw). destruct (ok_permitted _ Hok). case_match; lia.
  - apply not_elem_of_cons in Hf as [_ Hf]. cbn [calls].
    pose proof (calls_ok [c] self Hok) as Hok1. cbn [calls] in Hok1.
    pose proof (window_self_calls c self) as [Hw Hp].
    destruct (call c self) as [d s1] eqn:Hcall. cbn [snd] in *.
    assert (Hm' : ∃ from', monotone from' cs) by (destruct c; cbn in Hm; [destruct Hm|]; eauto).
    destruct Hm' as [from' Hm']. specialize (IH s1 from' Hok1 Hm' Hf). rewrite Hw, Hp in IH.
    destruct (calls cs s1) as [ds s2]. cbn [fst] in *.
    destruct c as [k now|k]; destruct d as [[|]|]; cbn [let_through]; try done.
    rewrite (proj2 (Z.leb_gt lo now)) by lia. rewrite andb_false_r. cbn. exact IH.
Qed.

(** *** Runs after one another *)

Lemma monotone_weaken from from' cs : from ≤ from' → monotone from' cs → monotone from cs.
Proof. intros Hle. induction cs as [|[k t|k] cs IH]; cbn; [done|intros [? ?]; split; [lia|done]|done]. Qed.

Lemma calls_app cs cs' self :
  calls (cs ++ cs') self = ((calls cs self).1 ++ (calls cs' (calls cs self).2).1, (calls cs' (calls cs self).2).2).
Proof.
  revert self. induction cs as [|c cs IH]; intros self; cbn [app calls fst snd]; [by destruct (calls cs' self)|].
  destruct (call c self) as [d s1]. rewrite IH. by destruct (calls cs s1).
Qed.

Lemma length_calls cs self : length (calls cs self).1 = length cs.
Proof.
  revert self. induction cs as [|c cs IH]; intros self; [done|]. cbn [calls]. destruct (call c self) as [d s1].
  specialize (IH s1). destruct (calls cs s1). cbn in *. congruence.
Qed.

Lemma let_through_app key lo hi cs cs' ds ds' :
  length ds = length cs → let_through key lo hi (cs ++ cs') (ds ++ ds') = let_through key lo hi cs ds + let_through key lo hi cs' ds'.
Proof.
  revert ds. induction cs as [|c cs IH]; intros [|d ds] Hlen; try done.
  cbn in Hlen. injection Hlen as Hlen. specialize (IH ds Hlen). cbn [app].
  destruct c as [k now|k]; destruct d as [[|]|]; cbn [let_through]; rewrite ?IH; lia.
Qed.
End Runs.

(** ** Theorems *)

(** Any client, whatever the others do: no span of one window lets a key through
    more than twice its allowance, unless a success cleared the key, and the
    limiter never holds more keys than its capacity. *)
Theorem limiter_bounds {K} `{Countable K} (permitted_ window_ capacity_ : Z) (cs : list (Call K)) (key : K) (lo from : Z) :
  permitted_ ≤ u32_max → monotone from cs → Forget key ∉ cs →
  let '(ds, self) := calls cs (new permitted_ window_ capacity_) in
  let_through key lo (lo + window_) cs ds ≤ 2 * Z.max permitted_ 1 ∧ tracked self ≤ Z.max capacity_ 1.
Proof.
  intros Hp Hm Hf. pose proof (new_ok (K := K) permitted_ window_ capacity_ Hp) as Hok.
  pose proof (let_through_from cs key lo _ from Hok Hm Hf) as Hlet. pose proof (calls_ok cs _ Hok) as Hok'.
  assert (Hcap : capacity (calls cs (new permitted_ window_ capacity_)).2 = Z.max capacity_ 1).
  { change (Z.max capacity_ 1) with (capacity (new (K := K) permitted_ window_ capacity_)).
    generalize (new (K := K) permitted_ window_ capacity_). clear. induction cs as [|c cs IH]; intros self; [done|].
    cbn [calls]. assert (capacity (call c self).2 = capacity self).
    { destruct c as [k t|k]; cbn [call]; [|unfold forget; by case_match].
      pose proof (check_at_fixed k t self) as (? & ? & ?). by destruct (check_at k t self). }
    destruct (call c self) as [d s1]. specialize (IH s1). destruct (calls cs s1). cbn in *. congruence. }
  destruct (calls cs (new permitted_ window_ capacity_)) as [ds self]. cbn [fst snd] in *.
  split; [exact Hlet|]. unfold tracked. rewrite (ok_healthy _ Hok'). rewrite <-Hcap. apply Hok'.
Qed.

(** Three visitors, two of them keeping at it over an end of the window. *)
Lemma limiter_bounds_witness :
  let cs := [Check 1 0; Check 1 0; Check 2 5; Check 1 7; Forget 2; Check 1 11; Check 1 12; Check 3 12; Check 1 13] in
  (let_through 1 5 15 cs (calls cs (new 2 10 2)).1 ≤ 4 ∧ tracked (calls cs (new (K := Z) 2 10 2)).2 ≤ 2) ∧
  (calls cs (new 2 10 2)).1 =
    [Some Allowed; Some Allowed; Some Allowed; Some (Throttled 1); None; Some Allowed; Some Allowed;
     Some Allowed; Some (Throttled 1)].
Proof.
  split; [|vm_compute; reflexivity].
  refine (limiter_bounds 2 10 2
    [Check 1 0; Check 1 0; Check 2 5; Check 1 7; Forget 2; Check 1 11; Check 1 12; Check 3 12; Check 1 13] 1 5 0 _ _ _).
  - vm_compute. discriminate.
  - cbn. lia.
  - rewrite !not_elem_of_cons. split_and!; (done || apply not_elem_of_nil).
Defined.

End Limiter.
