(* ===== verification/Origin.v ===== *)
(** * Origins of embeds

    [crates/record-store-sharing/src/origin.rs]: the normalised
    [scheme://host[:port]] entries of an embed's allowlist, and the decision on a
    request's [Origin] header. The operator's value inside an error message is
    kept as it is, without the escapes of its [Debug] form. *)

From S2P Require Import Prelude Bytes Text Names.
Import Text StdText Names.

Module Origin.

Definition MAXIMUM_ALLOWED_ORIGINS : Z := 20.

(** The rejected value and the reason. *)
Record OriginError := { origin_value : bytes; origin_reason : string }.

Definition ORIGIN_HAS_NO_HOST : string := "an origin must name a host".

(** ** Parsing *)

Definition split_host_and_port (value : bytes) : option (bytes * option Z) :=
  match read_given_char 91 value with
  | Some rest =>
      '(host, remainder) ← split_once [93] rest;
      let host := 91 :: to_ascii_lowercase host ++ [93] in
      match remainder with
      | [] => Some (host, None)
      | _ =>
          digits ← read_given_char 58 remainder;
          port ← parse_u16 digits;
          Some (host, Some port)
      end
  | None =>
      match rsplit_once 58 value with
      | Some (host, port) => port ← parse_u16 port; Some (to_ascii_lowercase host, Some port)
      | None => Some (to_ascii_lowercase value, None)
      end
  end.

Definition host_byte (b : Z) : bool := is_ascii_alphanumeric b || (b =? 46) || (b =? 45).

(** [None] when the host is fine. *)
Definition validate_host (host : bytes) : option string :=
  if bool_decide (host = []) then Some ORIGIN_HAS_NO_HOST
  else match read_given_char 91 host with
  | Some literal =>
      let literal := if ends_with [93] literal then take (length literal - 1) literal else literal in
      if parses_ipv6 literal then None else Some "the origin's IPv6 literal is not valid"
  | None =>
      if starts_with [46] host || ends_with [46] host || contains_str [46; 46] host
      then Some "the origin's host has an empty label"
      else if negb (forallb host_byte host)
      then Some "the origin's host may contain only letters, digits, dots, and hyphens"
      else None
  end%string.

Definition is_default_port (scheme : bytes) (port : Z) : bool :=
  (bool_decide (scheme = str "https") && (port =? 443)) || (bool_decide (scheme = str "http") && (port =? 80)).

Definition url_byte (b : Z) : bool := (b =? 47) || (b =? 63) || (b =? 35) || (b =? 64) || (b =? 92).

Definition normalized (scheme host : bytes) (port : option Z) : bytes :=
  scheme ++ str "://" ++ host ++
  match port with
  | Some port => if is_default_port scheme port then [] else 58 :: to_decimal port
  | None => []
  end.

Definition parse_origin (value : bytes) : result OriginError bytes :=
  let invalid reason := Err {| origin_value := value; origin_reason := reason |} in
  let trimmed := trim value in
  if bool_decide (trimmed = []) then invalid "an origin must not be empty"%string
  else if 255 <? len trimmed then invalid "an origin must be at most 255 characters"%string
  else if existsb (λ b, is_ascii_control b || (b =? 32)) trimmed
  then invalid "an origin must not contain control characters"%string
  else match split_once (str "://") trimmed with
  | None => invalid "an origin must be written as https://host or http://host"%string
  | Some (scheme, remainder) =>
      let scheme := to_ascii_lowercase scheme in
      if negb (bool_decide (scheme = str "https")) && negb (bool_decide (scheme = str "http"))
      then invalid "only http and https origins are supported"%string
      else if existsb url_byte remainder
      then invalid "an origin must carry no path, query, fragment, or credentials"%string
      else if bool_decide (remainder = []) then invalid ORIGIN_HAS_NO_HOST
      else match split_host_and_port remainder with
      | None => invalid "the origin's port is not a number"%string
      | Some (host, port) =>
          match validate_host host with
          | Some reason => invalid reason
          | None => Ok (normalized scheme host port)
          end
      end
  end.

(** [AllowedOrigin::matches]. *)
Definition origin_matches (entry candidate : bytes) : bool :=
  match parse_origin candidate with Ok parsed => bool_decide (parsed = entry) | Err _ => false end.

(** ** The decision *)

Inductive OriginDecision := Unrestricted | OriginAllowed | NoOriginPresented | OriginDenied.
#[export] Instance OriginDecision_eq_dec : EqDecision OriginDecision.
Proof. solve_decision. Defined.

Definition permits_delivery (decision : OriginDecision) : bool :=
  match decision with OriginDenied => false | _ => true end.

Definition evaluate_origin (allowed : list bytes) (presented : option bytes) : OriginDecision :=
  match allowed, presented with
  | [], _ => Unrestricted
  | _, None => NoOriginPresented
  | _, Some origin => if existsb (λ entry, origin_matches entry origin) allowed then OriginAllowed else OriginDenied
  end.

Definition matching_origin (allowed : list bytes) (presented : bytes) : option bytes :=
  find (λ entry, origin_matches entry presented) allowed.

(** ** Normal forms *)

(** A host as [split_host_and_port] leaves it and [validate_host] takes it. *)
Inductive host_form : bytes → Prop :=
  | literal_form literal : 93 ∉ literal → host_form (91 :: literal ++ [93])
  | name_form host : host ≠ [] → forallb host_byte host = true → host_form host.

Lemma host_byte_58 host : forallb host_byte host = true → 58 ∉ host.
Proof. rewrite forallb_forall. intros Hb Hin%list_elem_of_In. by specialize (Hb _ Hin). Qed.

Lemma lower_char b c : is_ascii_uppercase c = false → is_ascii_lowercase c = false → lower b = c → b = c.
Proof. unfold lower, is_ascii_uppercase, is_ascii_lowercase, between. repeat case_match; intros; bool_facts; lia. Qed.

Lemma lower_elem c s : is_ascii_uppercase c = false → is_ascii_lowercase c = false → c ∈ to_ascii_lowercase s → c ∈ s.
Proof.
  intros Hu Hl (b & Hb & Hin)%list_elem_of_fmap. symmetry in Hb. by apply lower_char in Hb as ->.
Qed.

Lemma digits_value_nonneg s : forallb is_ascii_digit s = true → 0 ≤ digits_value s.
Proof.
  unfold digits_value. enough (Hgen : ∀ acc, 0 ≤ acc → forallb is_ascii_digit s = true →
    0 ≤ foldl (λ acc b, acc * 10 + (b - 48)) acc s) by (by apply Hgen).
  induction s as [|b s IH]; intros acc Ha Hs; [done|]. cbn in *. apply andb_true_iff in Hs as [Hb Hs].
  apply between_spec in Hb. apply IH; [lia|done].
Qed.

Lemma parse_u16_range s p : parse_u16 s = Some p → 0 ≤ p ≤ u16_max.
Proof.
  assert (Hd : ∀ s, parse_digits u16_max s = Some p → 0 ≤ p ≤ u16_max).
  { intros t. unfold parse_digits. repeat case_match; intros; simplify_eq. bool_facts. split; [|lia].
    by apply digits_value_nonneg. }
  unfold parse_u16, parse_unsigned. repeat case_match; intros Heq; [done|by eapply Hd..].
Qed.

Lemma read_given_char_spec c s rest : read_given_char c s = Some rest ↔ s = c :: rest.
Proof. destruct s as [|b s]; cbn; [done|]. destruct (Z.eqb_spec b c); naive_solver. Qed.

(** The part in front of the first separator holds none. *)
Lemma split_once_before c s before after : split_once [c] s = Some (before, after) → c ∉ before.
Proof.
  revert before. induction s as [|b s IH]; intros before; cbn [split_once]; case_match eqn:Hp; intros Heq; simplify_eq.
  all: try apply not_elem_of_nil.
  apply fmap_Some in Heq as ([x y] & Hx & Heq). simplify_eq. apply not_elem_of_cons. split; [|by eapply IH].
  intros <-. apply bool_decide_eq_false in Hp. apply Hp. by exists s.
Qed.

Lemma split_literal_form rest host port :
  split_host_and_port (91 :: rest) = Some (host, port) →
  ∃ inside after, rest = inside ++ 93 :: after ∧ 93 ∉ inside ∧ host = 91 :: to_ascii_lowercase inside ++ [93] ∧
                  from_option (λ p, 0 ≤ p ≤ u16_max) True port.
Proof.
  unfold split_host_and_port. cbn [read_given_char]. rewrite Z.eqb_refl.
  destruct (split_once [93] rest) as [[inside after]|] eqn:Hsp; [|done]. cbn [mbind option_bind].
  intros Hs. exists inside, after. split; [by apply split_once_spec in Hsp|]. split; [by eapply split_once_before|].
  destruct after as [|b digits]; [by simplify_eq|].
  destruct (read_given_char 58 (b :: digits)) as [d|]; [|done]. cbn [mbind option_bind] in Hs.
  destruct (parse_u16 d) as [p|] eqn:Hp; [|done]. cbn in Hs. simplify_eq. split; [done|]. by eapply parse_u16_range.
Qed.

Lemma split_name_form remainder host port :
  read_given_char 91 remainder = None → split_host_and_port remainder = Some (host, port) →
  ∃ name, host = to_ascii_lowercase name ∧ name `prefix_of` remainder ∧ from_option (λ p, 0 ≤ p ≤ u16_max) True port.
Proof.
  unfold split_host_and_port. intros -> Hs. destruct (rsplit_once 58 remainder) as [[name digits]|] eqn:Hr.
  - destruct (parse_u16 digits) as [p|] eqn:Hp; [|done]. cbn in Hs. simplify_eq. exists name. split_and!; [done| |by eapply parse_u16_range].
    unfold rsplit_once in Hr. apply fmap_Some in Hr as ([x y] & Hx & Heq). simplify_eq.
    apply split_once_spec in Hx. apply (f_equal reverse) in Hx. rewrite reverse_involutive in Hx. subst remainder.
    rewrite !reverse_app. rewrite <-app_assoc. by eexists.
  - simplify_eq. by exists remainder.
Qed.

Lemma validate_name host : validate_host host = None → read_given_char 91 host = None → host ≠ [] ∧ forallb host_byte host = true.
Proof.
  unfold validate_host. intros Hv Hr. rewrite Hr in Hv. repeat case_match; simplify_eq; bool_facts; split; [done|].
  by destruct (forallb host_byte host).
Qed.

Lemma split_host_form remainder host port :
  split_host_and_port remainder = Some (host, port) → validate_host host = None →
  host_form host ∧ to_ascii_lowercase host = host ∧ from_option (λ p, 0 ≤ p ≤ u16_max) True port ∧
  (∀ c, is_ascii_uppercase c = false → is_ascii_lowercase c = false → c ∈ host → c ∈ remainder).
Proof.
  intros Hs Hv. destruct (read_given_char 91 remainder) as [rest|] eqn:Hr.
  - apply read_given_char_spec in Hr as ->. destruct (split_literal_form _ _ _ Hs) as (inside & after & -> & Hin & -> & Hp).
    split_and!; [|by unfold to_ascii_lowercase; rewrite fmap_cons, fmap_app; fold (to_ascii_lowercase (to_ascii_lowercase inside)); rewrite to_ascii_lowercase_idem|done|].
    + constructor. intros Hc. by apply Hin, lower_elem.
    + intros c Hu Hl Hc. rewrite elem_of_cons, elem_of_app, list_elem_of_singleton in Hc.
      destruct Hc as [->|[Hc| ->]]; [by left|apply lower_elem in Hc; [set_solver|done|done]|set_solver].
  - destruct (split_name_form _ _ _ Hr Hs) as (name & -> & [tail ->] & Hp).
    assert (Hr' : read_given_char 91 (to_ascii_lowercase name) = None).
    { destruct name as [|b name]; [done|]. cbn in Hr |- *. destruct (Z.eqb_spec (lower b) 91) as [Heq|]; [|done].
      apply lower_char in Heq as ->; done. }
    destruct (validate_name _ Hv Hr') as [Hne Hb]. split_and!; [|by rewrite to_ascii_lowercase_idem|done|].
    + by apply name_form.
    + intros c Hu Hl Hc. apply elem_of_app. left. by apply lower_elem.
Qed.

(** Printing a form back and splitting it again gives the same host and port. *)
Lemma to_decimal_port p : 0 ≤ p ≤ u16_max → parse_u16 (to_decimal p) = Some p.
Proof. intros Hp. apply parse_unsigned_decimal; unfold u16_max in *; lia. Qed.

Lemma to_decimal_digits p : 0 ≤ p ≤ u16_max → Forall (λ b, 48 ≤ b ≤ 57) (to_decimal p) ∧ to_decimal p ≠ [].
Proof.
  intros Hp. unfold to_decimal. rewrite (proj2 (Z.ltb_ge p 0)) by lia.
  destruct (decimal_digits_spec 20 p) as (_ & Hd & Hne); [unfold u16_max in *; lia|]. split; [|by apply Hne].
  rewrite forallb_forall in Hd. apply Forall_forall. intros b Hb%list_elem_of_In. by apply between_spec, Hd.
Qed.

Definition port_text (port : option Z) : bytes := match port with Some p => 58 :: to_decimal p | None => [] end.

Lemma split_host_and_port_print host port :
  host_form host → to_ascii_lowercase host = host → from_option (λ p, 0 ≤ p ≤ u16_max) True port →
  split_host_and_port (host ++ port_text port) = Some (host, port).
Proof.
  intros Hf Hlow Hp. unfold split_host_and_port. destruct Hf as [literal Hin|name Hne Hb].
  - cbn [app read_given_char]. rewrite Z.eqb_refl, <-app_assoc. cbn [app].
    rewrite split_once_first by done. cbn [mbind option_bind].
    assert (Hl : to_ascii_lowercase literal = literal).
    { unfold to_ascii_lowercase in *. rewrite fmap_cons, fmap_app in Hlow. injection Hlow as Hlow.
      by apply app_inj_2 in Hlow as [? _]. }
    rewrite Hl. destruct port as [p|]; cbn [port_text]; [|done]. cbn [read_given_char]. rewrite Z.eqb_refl.
    cbn [mbind option_bind]. by rewrite to_decimal_port.
  - assert (Hr : ∀ t, read_given_char 91 (name ++ t) = None).
    { intros t. destruct name as [|b name]; [done|]. cbn in Hb |- *. destruct (Z.eqb_spec b 91) as [->|]; done. }
    apply host_byte_58 in Hb. rewrite Hr. destruct port as [p|]; cbn [port_text].
    + rewrite rsplit_once_last by (intros Hin; destruct (to_decimal_digits p Hp) as [Hd _];
        rewrite Forall_forall in Hd; specialize (Hd _ Hin); lia).
      cbn [mbind option_bind]. rewrite to_decimal_port by done. cbn. by rewrite Hlow.
    + rewrite app_nil_r, rsplit_once_None by done. by rewrite Hlow.
Qed.

(** *** Lengths *)

Lemma digits_value_bound s : forallb is_ascii_digit s = true → digits_value s < 10 ^ Z.of_nat (length s).
Proof.
  induction s as [|b s IH] using rev_ind; intros Hs; [done|]. rewrite forallb_app in Hs. cbn [forallb] in Hs.
  rewrite andb_true_r in Hs. apply andb_true_iff in Hs as [Hs Hb]. apply between_spec in Hb. specialize (IH Hs).
  rewrite digits_value_snoc, length_app. cbn [length].
  rewrite Nat.add_1_r, Nat2Z.inj_succ, Z.pow_succ_r by lia. lia.
Qed.

Lemma parse_u16_length s p : parse_u16 s = Some p → (length (to_decimal p) ≤ length s)%nat.
Proof.
  assert (Hd : ∀ s, parse_digits u16_max s = Some p → (length (to_decimal p) ≤ length s)%nat).
  { intros t. unfold parse_digits. repeat case_match; intros; simplify_eq. bool_facts.
    match goal with Ht : forallb is_ascii_digit t = true |- _ => rename Ht into Hall end.
    pose proof (digits_value_bound t Hall) as Hb. pose proof (digits_value_nonneg t Hall) as Hn.
    unfold to_decimal. rewrite (proj2 (Z.ltb_ge _ 0)) by lia.
    assert (Ht : (length t ≠ 0)%nat) by (by destruct t).
    destruct (decide (length t ≤ 5)%nat).
    - pose proof (decimal_digits_length 20 (digits_value t) (length t) ltac:(lia) ltac:(lia)). lia.
    - pose proof (decimal_digits_length 20 (digits_value t) 5 ltac:(lia) ltac:(unfold u16_max in *; lia)). lia. }
  unfold parse_u16, parse_unsigned. destruct s as [|b s]; [done|]. destruct (b =? 43); intros Heq; [|by apply Hd].
  apply Hd in Heq. cbn [length]. lia.
Qed.

Lemma split_host_length remainder host port :
  split_host_and_port remainder = Some (host, port) → (length (host ++ port_text port) ≤ length remainder)%nat.
Proof.
  unfold split_host_and_port. destruct (read_given_char 91 remainder) as [rest|] eqn:Hr.
  - apply read_given_char_spec in Hr as ->. destruct (split_once [93] rest) as [[inside after]|] eqn:Hsp; [|done].
    apply split_once_spec in Hsp as ->. cbn [mbind option_bind]. intros Hs.
    assert (Hlen : host = 91 :: to_ascii_lowercase inside ++ [93] ∧ (length (port_text port) ≤ length after)%nat).
    { destruct after as [|b digits]; [by simplify_eq|]. destruct (read_given_char 58 (b :: digits)) as [d|] eqn:Hd; [|done].
      apply read_given_char_spec in Hd. injection Hd as -> ->. cbn [mbind option_bind] in Hs.
      destruct (parse_u16 d) as [p|] eqn:Hp; [|done]. cbn in Hs. simplify_eq. apply parse_u16_length in Hp. cbn. split; [done|lia]. }
    destruct Hlen as [-> Hlen]. cbn [app length]. rewrite !length_app, length_to_ascii_lowercase. cbn [length]. lia.
  - destruct (rsplit_once 58 remainder) as [[name digits]|] eqn:Hrs; intros Hs.
    + destruct (parse_u16 digits) as [p|] eqn:Hp; [|done]. cbn in Hs. simplify_eq. apply parse_u16_length in Hp.
      unfold rsplit_once in Hrs. apply fmap_Some in Hrs as ([x y] & Hx & Heq). simplify_eq.
      apply split_once_spec, (f_equal length) in Hx. rewrite length_reverse in Hx. rewrite Hx.
      cbn [port_text]. rewrite !length_app, length_to_ascii_lowercase, length_reverse in *. cbn [length] in *. lia.
    + simplify_eq. cbn. by rewrite app_nil_r, length_to_ascii_lowercase.
Qed.

(** *** The normal form is a fixed point *)

(** The port the normal form shows. *)
Definition shown_port (scheme : bytes) (port : option Z) : option Z :=
  match port with Some p => if is_default_port scheme p then None else Some p | None => None end.

Lemma normalized_shown scheme host port : normalized scheme host port = scheme ++ str "://" ++ host ++ port_text (shown_port scheme port).
Proof. unfold normalized, shown_port. destruct port as [p|]; [|done]. by destruct (is_default_port scheme p). Qed.

Lemma shown_port_idem scheme port : shown_port scheme (shown_port scheme port) = shown_port scheme port.
Proof. unfold shown_port. destruct port as [p|]; [|done]. destruct (is_default_port scheme p) eqn:Hd; [done|]. by rewrite Hd. Qed.

Lemma split_once_sep c sep before after : c ∉ before → split_once (c :: sep) (before ++ (c :: sep) ++ after) = Some (before, after).
Proof.
  induction before as [|b before IH]; intros Hc.
  - cbn [app]. pose proof (starts_with_app (c :: sep) after) as Hs. cbn [app] in Hs. cbn [split_once]. rewrite Hs.
    do 2 f_equal. exact (drop_app_length (c :: sep) after).
  - apply not_elem_of_cons in Hc as [Hb Hc]. cbn [app split_once].
    case_match eqn:Hp; [|specialize (IH Hc); cbn [app] in IH; by rewrite IH].
    apply bool_decide_eq_true, prefix_cons_inv_1 in Hp. congruence.
Qed.

(** The bytes an accepted remainder may hold. *)
Definition plain (b : Z) : bool := negb (is_ascii_control b || (b =? 32)) && negb (url_byte b).

Lemma plain_class b : plain b = false → is_ascii_uppercase b = false ∧ is_ascii_lowercase b = false.
Proof.
  unfold plain, is_ascii_control, url_byte, is_ascii_uppercase, is_ascii_lowercase, between. lia.
Qed.

Lemma plain_form host port :
  host_form host → (∀ b, b ∈ host → plain b = true) → from_option (λ p, 0 ≤ p ≤ u16_max) True port →
  Forall (λ b, plain b = true) (host ++ port_text port) ∧
  (∃ z, last (host ++ port_text port) = Some z ∧ z < 128 ∧ space1 z = false).
Proof.
  intros Hf Hh Hp. split.
  - apply Forall_app. split; [by apply Forall_forall|]. destruct port as [p|]; [|done]. cbn. constructor; [done|].
    destruct (to_decimal_digits p Hp) as [Hd _]. eapply Forall_impl; [exact Hd|]. intros b Hb.
    unfold plain, is_ascii_control, url_byte. cbv beta in Hb. lia.
  - destruct port as [p|]; cbn [port_text].
    + destruct (to_decimal_digits p Hp) as [Hd Hne]. destruct (to_decimal p) as [|x t _] using rev_ind; [done|].
      exists x. apply Forall_app in Hd as [_ Hx]. apply Forall_cons in Hx as [Hx _]. rewrite app_comm_cons, app_assoc, last_snoc. unfold space1, between. cbv beta in Hx. split_and!; [done|lia|lia].
    + rewrite app_nil_r. destruct Hf as [literal _|name Hne Hb].
      * exists 93. rewrite app_comm_cons, last_snoc. done.
      * destruct name as [|x t _] using rev_ind; [done|]. exists x. rewrite last_snoc. split; [done|].
        rewrite forallb_app in Hb. apply andb_true_iff in Hb as [_ Hx]. cbn in Hx. rewrite andb_true_r in Hx.
        unfold host_byte, is_ascii_alphanumeric, is_ascii_digit, is_ascii_lowercase, is_ascii_uppercase, between in Hx.
        unfold space1, between. lia.
Qed.

Lemma shown_port_length scheme port : (length (port_text (shown_port scheme port)) ≤ length (port_text port))%nat.
Proof. unfold shown_port. destruct port as [p|]; [|done]. destruct (is_default_port scheme p); cbn; lia. Qed.

(** What an accepted origin is made of. *)
Lemma parse_origin_inv value origin :
  parse_origin value = Ok origin →
  ∃ scheme host port,
    origin = scheme ++ str "://" ++ host ++ port_text (shown_port scheme port) ∧
    (scheme = str "https" ∨ scheme = str "http") ∧ host_form host ∧ to_ascii_lowercase host = host ∧
    validate_host host = None ∧ from_option (λ p, 0 ≤ p ≤ u16_max) True port ∧
    (∀ b, b ∈ host → plain b = true) ∧ len origin ≤ 255.
Proof.
  unfold parse_origin. repeat case_match; intros Heq; simplify_eq. bool_facts.
  match goal with Hs : split_once _ _ = Some (?s, ?r) |- _ => rename Hs into Hsplit; set (scheme := s) in *; set (rest := r) in * end.
  match goal with Hs : split_host_and_port _ = Some (?h, ?p) |- _ => rename Hs into Hhost; set (host := h) in *; set (port := p) in * end.
  apply split_once_spec in Hsplit. destruct (split_host_form rest host port) as (Hform & Hlow & Hport & Hsub); [done..|].
  exists (to_ascii_lowercase scheme), host, port. rewrite normalized_shown.
  assert (Hplain : ∀ b, b ∈ rest → plain b = true).
  { intros b Hb. unfold plain. apply andb_true_iff. rewrite !negb_true_iff. split; apply not_true_iff_false; intros Hc.
    - match goal with Hx : existsb _ (trim value) = false |- _ => apply not_true_iff_false in Hx; apply Hx end.
      apply existsb_exists. exists b. split; [|done]. apply list_elem_of_In. rewrite Hsplit. set_solver.
    - match goal with Hx : existsb url_byte rest = false |- _ => apply not_true_iff_false in Hx; apply Hx end.
      apply existsb_exists. exists b. split; [by apply list_elem_of_In|done]. }
  split_and!; [done| |done|done|done|done| |].
  - destruct (decide (to_ascii_lowercase scheme = str "https")) as [|Hn]; [by left|right].
    destruct (decide (to_ascii_lowercase scheme = str "http")) as [|Hn']; [done|].
    match goal with Hx : negb _ && negb _ = false |- _ => by rewrite !bool_decide_eq_false_2 in Hx by done end.
  - intros b Hb. destruct (plain b) eqn:Hpb; [done|]. destruct (plain_class b Hpb).
    rewrite <-Hpb. by apply Hplain, Hsub.
  - pose proof (split_host_length _ _ _ Hhost) as Hlen. pose proof (shown_port_length (to_ascii_lowercase scheme) port).
    match goal with Hx : len (trim value) ≤ 255 |- _ => rewrite Hsplit in Hx; unfold len in * end.
    rewrite !length_app, ?length_to_ascii_lowercase in *. lia.
Qed.

Lemma scheme_plain scheme : scheme = str "https" ∨ scheme = str "http" →
  58 ∉ scheme ∧ to_ascii_lowercase scheme = scheme ∧ head scheme = Some 104 ∧
  existsb (λ b, is_ascii_control b || (b =? 32)) scheme = false ∧
  negb (bool_decide (scheme = str "https")) && negb (bool_decide (scheme = str "http")) = false.
Proof. intros [-> | ->]; split_and!; try reflexivity; by apply contains_false. Qed.

(** Normalising a normalised origin changes nothing. *)
Lemma parse_origin_idem value origin : parse_origin value = Ok origin → parse_origin origin = Ok origin.
Proof.
  intros (scheme & host & port & Horigin & Hscheme & Hform & Hlow & Hvalid & Hport & Hplain & Hlen)%parse_origin_inv.
  set (shown := shown_port scheme port) in *.
  assert (Hshown : from_option (λ p, 0 ≤ p ≤ u16_max) True shown).
  { subst shown. unfold shown_port. destruct port as [p|]; [|done]. by destruct (is_default_port scheme p). }
  destruct (plain_form host shown Hform Hplain Hshown) as [Hrest (z & Hz & Hz128 & Hzs)].
  destruct (scheme_plain scheme Hscheme) as (Hcolon & Hslow & Hhead & Hctrl & Hok).
  set (rest := host ++ port_text shown) in *.
  assert (Hrne : rest ≠ []) by (by intros Hr; rewrite Hr in Hz).
  assert (Htrim : trim origin = origin).
  { apply (trim_id 104 _ z); [|by rewrite Horigin, !app_assoc, last_app, Hz|done..].
    rewrite Horigin. destruct scheme; [done|]. exact Hhead. }
  unfold parse_origin. rewrite Htrim, (bool_decide_eq_false_2 (origin = [])).
  2: { rewrite Horigin. by intros [_ [? _]%app_nil]%app_nil. }
  rewrite (proj2 (Z.ltb_ge 255 (len origin))) by done.
  assert (Hnoc : existsb (λ b, is_ascii_control b || (b =? 32)) origin = false).
  { rewrite Horigin, !existsb_app, Hctrl. cbn [orb]. apply not_true_iff_false. intros Hx.
    apply orb_true_iff in Hx as [Hx|Hx]; [done|]. apply existsb_exists in Hx as (b & Hb%list_elem_of_In & Hc).
    rewrite Forall_forall in Hrest. specialize (Hrest b Hb). unfold plain in Hrest. by rewrite Hc in Hrest. }
  assert (Hnou : existsb url_byte rest = false).
  { apply not_true_iff_false. intros (b & Hb%list_elem_of_In & Hc)%existsb_exists.
    rewrite Forall_forall in Hrest. specialize (Hrest b Hb). unfold plain in Hrest. by rewrite Hc, andb_false_r in Hrest. }
  rewrite Hnoc, Horigin. rewrite (split_once_sep 58 [47; 47] scheme rest Hcolon : split_once (str "://") (scheme ++ str "://" ++ rest) = _).
  rewrite Hslow, Hok, Hnou, (bool_decide_eq_false_2 (rest = [])) by done.
  subst rest. rewrite split_host_and_port_print by done. rewrite Hvalid. f_equal.
  rewrite normalized_shown. subst shown. by rewrite shown_port_idem.
Qed.

End Origin.
