(* ===== verification/Cors.v ===== *)
(** * Cross-origin rules of buckets

    [crates/record-store-core/src/cors.rs]: patterns with at most one wildcard, the
    validation of rules, and the grant a browser is answered with. Error texts that
    quote the rejected value are given without the quotation.

    What is shown: a pattern matches exactly the texts that have something in place
    of its wildcard; a preflight is granted by one rule that satisfies every
    condition, the first one; and an origin is only reflected after it matched. *)

From S2P Require Import Prelude Bytes Text ObjectLock CoreTypes Names Origin.
Import Text StdText ObjectLock CoreTypes Names Origin.

Module Cors.

Definition MAXIMUM_CORS_RULES : Z := 100.
Definition MAXIMUM_PATTERN_LENGTH : Z := 255.
Definition MAXIMUM_CORS_MAX_AGE_SECONDS : Z := 86400.

Definition upper (b : Z) : Z := if is_ascii_lowercase b then b - 32 else b.

Definition method_parse (value : bytes) : result CoreError CorsMethod :=
  let name := upper <$> trim value in
  if bool_decide (name = str "GET") then Ok CorsGet
  else if bool_decide (name = str "HEAD") then Ok CorsHead
  else if bool_decide (name = str "PUT") then Ok CorsPut
  else if bool_decide (name = str "POST") then Ok CorsPost
  else if bool_decide (name = str "DELETE") then Ok CorsDelete
  else Err (InvalidCorsRule "is not a method a CORS rule may allow").

Definition method_as_str (m : CorsMethod) : bytes :=
  match m with
  | CorsGet => str "GET" | CorsHead => str "HEAD" | CorsPut => str "PUT" | CorsPost => str "POST" | CorsDelete => str "DELETE"
  end.

(** ** Patterns *)

Definition STAR : Z := 42.
Definition stars (s : bytes) : nat := length (List.filter (Z.eqb STAR) s).

Definition sanitise (value : bytes) : result CoreError bytes :=
  let trimmed := trim value in
  if bool_decide (trimmed = []) then Err (InvalidCorsRule "must not be empty")
  else if MAXIMUM_PATTERN_LENGTH <? Z.of_nat (length trimmed) then Err (InvalidCorsRule "must be at most 255 characters")
  else if existsb (λ b, is_ascii_control b || (b =? 32)) trimmed
  then Err (InvalidCorsRule "must not contain spaces or control characters")
  else if negb (forallb (λ b, b <? 128) trimmed) then Err (InvalidCorsRule "must use its ASCII wire representation")
  else if (1 <? stars trimmed)%nat then Err (InvalidCorsRule "may contain at most one *")
  else Ok trimmed.

Definition origin_pattern (value : bytes) : result CoreError bytes :=
  value ← sanitise value;
  if bool_decide (value = str "*") then Ok value
  else if negb (starts_with (str "https://") value || starts_with (str "http://") value)
  then Err (InvalidCorsRule "must be * or an origin such as https://app.example.com")
  else
    let remainder := from_option snd [] (split_once (str "://") value) in
    if bool_decide (remainder = []) then Err (InvalidCorsRule "must name a host")
    else if contains 47 remainder || contains 63 remainder || contains 35 remainder || contains 64 remainder
    then Err (InvalidCorsRule "must carry no path, query, fragment, or credentials")
    else Ok value.

Definition header_pattern (value : bytes) : result CoreError bytes :=
  value ← sanitise value;
  if bool_decide (value = str "*") then Ok value
  else if negb (forallb (λ b, is_ascii_alphanumeric b || existsb (Z.eqb b) (str "-_.*")) value)
  then Err (InvalidCorsRule "is not a valid header name pattern")
  else Ok (to_ascii_lowercase value).

Definition is_wildcard (pattern : bytes) : bool := bool_decide (pattern = str "*").

Definition matches (pattern candidate : bytes) : bool :=
  match split_once [STAR] pattern with
  | None => bool_decide (pattern = candidate)
  | Some (prefix, suffix) =>
      (length prefix + length suffix <=? length candidate)%nat && starts_with prefix candidate && ends_with suffix candidate
  end.

(** ** Rules *)

Definition rule_validate (rule : CorsRule) : result CoreError () :=
  if bool_decide (allowed_origins rule = []) then Err (InvalidCorsRule "a CORS rule must allow at least one origin")
  else if bool_decide (allowed_methods rule = []) then Err (InvalidCorsRule "a CORS rule must allow at least one method")
  else if from_option (λ id, (255 <? Z.of_nat (length id)) || any_control id) false (cors_id rule)
  then Err (InvalidCorsRule "a CORS rule identifier must be at most 255 printable characters")
  else if from_option (λ age, MAXIMUM_CORS_MAX_AGE_SECONDS <? age) false (max_age_seconds rule)
  then Err (InvalidCorsRule "max_age_seconds must be at most 86400")
  else if existsb (λ header, contains STAR header || bool_decide (header = []) ||
                             (MAXIMUM_PATTERN_LENGTH <? Z.of_nat (length header)) ||
                             negb (forallb (λ b, is_ascii_alphanumeric b || existsb (Z.eqb b) (str "-_.")) header))
            (expose_headers rule)
  then Err (InvalidCorsRule "is not a valid header to expose")
  else Ok ().

Definition matches_origin (rule : CorsRule) (origin : bytes) : bool := existsb (λ pattern, matches pattern origin) (allowed_origins rule).
Definition permits (rule : CorsRule) (method : CorsMethod) : bool := existsb (λ m, bool_decide (m = method)) (allowed_methods rule).
Definition permits_headers (rule : CorsRule) (requested : list bytes) : bool :=
  forallb (λ header, existsb (λ pattern, matches pattern (to_ascii_lowercase header)) (allowed_headers rule)) requested.

Fixpoint validate_rules (rules : list CorsRule) : result CoreError () :=
  match rules with [] => Ok () | rule :: rules => _ ← rule_validate rule; validate_rules rules end.
Definition configuration_validate (c : CorsConfiguration) : result CoreError () :=
  if bool_decide (cors_rules c = []) then Err (InvalidCorsRule "a CORS configuration must contain at least one rule")
  else if MAXIMUM_CORS_RULES <? Z.of_nat (length (cors_rules c))
  then Err (InvalidCorsRule "a CORS configuration may contain at most 100 rules")
  else validate_rules (cors_rules c).

Definition match_preflight (c : CorsConfiguration) (origin : bytes) (method : CorsMethod) (requested_headers : list bytes) : option CorsRule :=
  List.find (λ rule, matches_origin rule origin && permits rule method && permits_headers rule requested_headers) (cors_rules c).
Definition match_request (c : CorsConfiguration) (origin : bytes) (method : CorsMethod) : option CorsRule :=
  List.find (λ rule, matches_origin rule origin && permits rule method) (cors_rules c).

(** ** Grants *)

Record CorsGrant := {
  allow_origin : bytes; allow_methods : option bytes; allow_headers : option bytes; grant_expose : option bytes; grant_max_age : option Z }.

(** [join(", ")]. *)
Definition joined (l : list bytes) : bytes := mjoin (drop 1 (l ≫= λ x, [str ", "; x])).
Definition granted_origin (rule : CorsRule) (origin : bytes) : bytes :=
  if existsb is_wildcard (allowed_origins rule) then str "*" else origin.
Definition expose (rule : CorsRule) : option bytes :=
  if bool_decide (expose_headers rule = []) then None else Some (joined (expose_headers rule)).

Definition preflight (rule : CorsRule) (origin : bytes) (requested_headers : list bytes) : CorsGrant :=
  {| allow_origin := granted_origin rule origin;
     allow_methods := Some (joined (method_as_str <$> allowed_methods rule));
     allow_headers := if bool_decide (requested_headers = []) then None else Some (joined requested_headers);
     grant_expose := expose rule; grant_max_age := max_age_seconds rule |}.
Definition response (rule : CorsRule) (origin : bytes) : CorsGrant :=
  {| allow_origin := granted_origin rule origin; allow_methods := None; allow_headers := None;
     grant_expose := expose rule; grant_max_age := None |}.

Definition parse_requested_headers (value : bytes) : list bytes :=
  to_ascii_lowercase <$> List.filter (λ name, negb (bool_decide (name = []))) (trim <$> split 44 value).

(** ** What the rules guarantee *)

(** The wildcard of a pattern stands for any text, the empty one included. *)
Lemma matches_wildcard prefix suffix candidate pattern :
  split_once [STAR] pattern = Some (prefix, suffix) →
  matches pattern candidate = true ↔ ∃ middle, candidate = prefix ++ middle ++ suffix.
Proof.
  intros Hs. unfold matches. rewrite Hs, !andb_true_iff, Nat.leb_le. unfold starts_with, ends_with.
  rewrite !bool_decide_eq_true. split.
  - intros [[Hlen [x ->]] [y Hy]]. rewrite length_app in Hlen.
    assert (Hx : x = take (length x - length suffix) x ++ suffix).
    { rewrite <-(take_drop (length x - length suffix) x) at 1. f_equal.
      assert (Hd : drop (length prefix + (length x - length suffix)) (prefix ++ x) = suffix).
      { rewrite Hy. rewrite drop_app_length'; [done|]. apply (f_equal length) in Hy. rewrite !length_app in Hy. lia. }
      by rewrite <-drop_drop, drop_app_length in Hd. }
    exists (take (length x - length suffix) x). by rewrite <-Hx.
  - intros [middle ->]. split; [split|].
    + rewrite !length_app. lia.
    + by eexists.
    + exists (prefix ++ middle). by rewrite <-app_assoc.
Qed.

Lemma origin_matched rule origin : matches_origin rule origin = true → ∃ pattern, pattern ∈ allowed_origins rule ∧ matches pattern origin = true.
Proof. unfold matches_origin. rewrite existsb_exists. intros (p & Hin & Hm). exists p. split; [by apply list_elem_of_In|done]. Qed.

(** What a rule must allow for a preflight. *)
Definition allows (rule : CorsRule) (origin : bytes) (method : CorsMethod) (headers : list bytes) : Prop :=
  (∃ pattern, pattern ∈ allowed_origins rule ∧ matches pattern origin = true) ∧ method ∈ allowed_methods rule ∧
  ∀ header, header ∈ headers → ∃ pattern, pattern ∈ allowed_headers rule ∧ matches pattern (to_ascii_lowercase header) = true.
Lemma allows_spec rule origin method headers :
  matches_origin rule origin && permits rule method && permits_headers rule headers = true ↔ allows rule origin method headers.
Proof.
  unfold matches_origin, permits, permits_headers, allows. rewrite !andb_true_iff, !existsb_exists, forallb_forall.
  setoid_rewrite existsb_exists. setoid_rewrite bool_decide_eq_true. setoid_rewrite <-list_elem_of_In. split.
  - intros [[Ho (m & Hm & ->)] Hh]. done.
  - intros (Ho & Hm & Hh). split; [split; [done|by exists method]|done].
Qed.

Lemma find_split {A} (f : A → bool) l x :
  List.find f l = Some x → ∃ l1 l2, l = l1 ++ x :: l2 ∧ f x = true ∧ ∀ y, y ∈ l1 → f y = false.
Proof.
  induction l as [|a l IH]; [done|]. cbn. destruct (f a) eqn:Hf.
  - intros [= ->]. exists [], l. split_and!; [done|done|]. intros y Hy. by apply not_elem_of_nil in Hy.
  - intros (l1 & l2 & -> & Hx & Hl)%IH. exists (a :: l1), l2. split_and!; [done|done|]. intros y [->|Hy]%elem_of_cons; auto.
Qed.

(** a preflight is granted by one rule, the first that allows the origin, the
    method and every header together. The origin the browser is answered with is the
    one it sent, which then matches a pattern of that rule, or a wildcard, which then
    is a pattern of that rule. A configuration no rule of which allows all three
    grants nothing. *)
Theorem preflight_needs_one_rule (c : CorsConfiguration) (origin : bytes) (method : CorsMethod) (headers : list bytes) :
  match match_preflight c origin method headers with
  | Some rule =>
      (∃ before after, cors_rules c = before ++ rule :: after ∧ ∀ r, r ∈ before → ¬ allows r origin method headers) ∧
      allows rule origin method headers ∧
      let g := preflight rule origin headers in
      (allow_origin g = origin ∧ ∃ pattern, pattern ∈ allowed_origins rule ∧ matches pattern origin = true) ∨
      (allow_origin g = str "*" ∧ str "*" ∈ allowed_origins rule)
  | None => ∀ r, r ∈ cors_rules c → ¬ allows r origin method headers
  end.
Proof.
  destruct (match_preflight c origin method headers) as [rule|] eqn:Hm.
  - apply find_split in Hm as (l1 & l2 & Hl & Hr & Hb). split.
    { exists l1, l2. split; [done|]. intros r Hin Ha. apply allows_spec in Ha. by rewrite Hb in Ha. }
    apply allows_spec in Hr as Ha. split; [done|]. cbn. unfold granted_origin.
    destruct (existsb is_wildcard (allowed_origins rule)) eqn:Hw; [right|left; split; [done|apply Ha]].
    split; [done|]. apply existsb_exists in Hw as (p & Hp & ->%bool_decide_eq_true). by apply list_elem_of_In.
  - intros r Hin Ha. apply allows_spec in Ha. apply list_elem_of_In in Hin.
    by rewrite (List.find_none _ _ Hm r Hin) in Ha.
Qed.

Lemma split_star_none s : split_once [STAR] s = None → STAR ∉ s.
Proof.
  induction s as [|b s IH]; [set_solver|]. cbn [split_once]. unfold starts_with. case_bool_decide as Hp; [done|].
  destruct (split_once [STAR] s) as [[x y]|]; [done|]. intros _ [Hb|Hs]%elem_of_cons; [|by apply IH].
  apply Hp. subst b. by exists s.
Qed.
Lemma stars_app s t : stars (s ++ t) = (stars s + stars t)%nat.
Proof. unfold stars. by rewrite List.filter_app, length_app. Qed.
Lemma stars_none s : stars s = 0%nat → STAR ∉ s.
Proof.
  intros Hs Hin. apply list_elem_of_split in Hin as (l1 & l2 & ->). rewrite stars_app in Hs. unfold stars in Hs. cbn in Hs. lia.
Qed.

Lemma first_star p q p' q' : p ++ [STAR] ++ q = p' ++ STAR :: q' → STAR ∉ p → STAR ∉ p' → p = p' ∧ q = q'.
Proof.
  revert p'. induction p as [|b p IH]; intros [|b' p'] Heq Hp Hp'; cbn in Heq; apply (inj2 cons) in Heq as [Hb Heq].
  - done.
  - set_solver.
  - set_solver.
  - destruct (IH p' Heq) as [-> ->]; [set_solver..|]. by rewrite Hb.
Qed.

Lemma sanitise_ok value s : sanitise value = Ok s → s = trim value ∧ (stars s ≤ 1)%nat.
Proof.
  unfold sanitise. repeat (case_match; [discriminate|]). intros [= <-]. split; [done|]. by apply Nat.ltb_ge.
Qed.

(** an origin pattern that was accepted matches an origin when it is equal to it,
    or when something takes the place of its one wildcard; it names a scheme and is
    not a path. *)
Theorem origin_pattern_meaning (value pattern candidate : bytes) (Hparse : origin_pattern value = Ok pattern) :
  pattern = trim value ∧
  (matches pattern candidate = true ↔
     (STAR ∉ pattern ∧ candidate = pattern) ∨
     ∃ prefix suffix middle, pattern = prefix ++ STAR :: suffix ∧ STAR ∉ prefix ∧ STAR ∉ suffix ∧
       candidate = prefix ++ middle ++ suffix) ∧
  (pattern = str "*" ∨ str "https://" `prefix_of` pattern ∨ str "http://" `prefix_of` pattern).
Proof.
  apply result_bind_ok in Hparse as (s & Hs & Hparse). apply sanitise_ok in Hs as [Hs Hstars].
  assert (Heq : pattern = s ∧ (s = str "*" ∨ str "https://" `prefix_of` s ∨ str "http://" `prefix_of` s)).
  { case_bool_decide; [injection Hparse as <-; auto|]. unfold starts_with in Hparse.
    repeat case_bool_decide; try discriminate Hparse; cbn [orb negb] in Hparse;
      repeat (case_match; try discriminate Hparse); injection Hparse as <-; auto. }
  destruct Heq as [-> Hscheme]. split; [done|]. split; [|done]. destruct (split_once [STAR] s) as [[prefix suffix]|] eqn:Hsp.
  - rewrite (matches_wildcard _ _ _ _ Hsp). apply split_once_before in Hsp as Hb. apply split_once_spec in Hsp. rewrite Hsp in Hstars |- *.
    rewrite !stars_app in Hstars. assert (Ha : STAR ∉ suffix) by (apply stars_none; unfold stars in *; cbn in *; lia). split.
    + intros [middle Hc]. right. by exists prefix, suffix, middle.
    + intros [[Hn _]|(p & q & middle & Hpq & Hp & Hq & ->)]; [exfalso; apply Hn; set_solver|].
      exists middle. assert (prefix = p ∧ suffix = q) as [-> ->]; [|done]. by apply first_star.
  - apply split_star_none in Hsp as Hn. unfold matches. rewrite Hsp, bool_decide_eq_true. split; [intros <-; by left|].
    intros [[_ ->]|(p & q & middle & -> & _)]; [done|]. exfalso. apply Hn. set_solver.
Qed.
End Cors.
