(* ===== verification/Capability.v ===== *)
(** * Capabilities

    [crates/record-store-sharing/src]: share and embed links ([model.rs]), their
    secret tokens ([token.rs]), share passwords ([password.rs]), unlock tickets
    ([ticket.rs]), the deployment policy ([policy.rs]), the requests and answers
    of the service ([request.rs], [error.rs]) and labels ([support.rs]).

    Base64, HMAC and Argon2 are an interface, as AES-GCM and HKDF are in [Auth].
    Random bytes are arguments, [None] where the operating system has none. A
    [DateTime] is a number of nanoseconds. *)

From S2P Require Import Prelude Bytes Text Digest ObjectLock CoreTypes Auth Names Limiter Origin.
Import Text StdText Names Auth Origin.

Module Capability.

(** ** Descriptors ([model.rs]) *)

Inductive VersionMode := FollowCurrent | Pinned (version_id : bytes).

Definition pinned (mode : VersionMode) : option bytes :=
  match mode with FollowCurrent => None | Pinned version_id => Some version_id end.

Record CapabilityTarget := { t_bucket_id : bytes; t_bucket : bytes; t_key : bytes; t_version : VersionMode }.

Definition file_name (target : CapabilityTarget) : bytes := default (str "download") (last (split 47 (t_key target))).
Definition audit_resource (target : CapabilityTarget) : bytes :=
  str "bucket:" ++ t_bucket target ++ str "/" ++ t_key target.

Inductive SharePermission := View | Download | ViewAndDownload.
#[export] Instance SharePermission_eq_dec : EqDecision SharePermission.
Proof. solve_decision. Defined.
Definition allows_view (p : SharePermission) : bool := match p with View | ViewAndDownload => true | Download => false end.
Definition allows_download (p : SharePermission) : bool := match p with Download | ViewAndDownload => true | View => false end.

Inductive EmbedDisposition := Inline | Attachment.

Inductive CapabilityStatus := Active | Revoked | Expired | Exhausted.
#[export] Instance CapabilityStatus_eq_dec : EqDecision CapabilityStatus.
Proof. solve_decision. Defined.
Definition usable (status : CapabilityStatus) : bool := match status with Active => true | _ => false end.

Record ShareLink := {
  sl_id : bytes; sl_label : bytes; sl_target : CapabilityTarget; sl_created_by : bytes; sl_created_at : Z;
  sl_expires_at : option Z; sl_permission : SharePermission; sl_password : option bytes;
  sl_maximum_access_count : option Z; sl_access_count : Z; sl_revoked_at : option Z;
  sl_last_accessed_at : option Z }.

Definition is_some_and {A} (o : option A) (p : A → bool) : bool := from_option p false o.
Definition is_none_or {A} (o : option A) (p : A → bool) : bool := from_option p true o.

Definition share_status (self : ShareLink) (now : Z) : CapabilityStatus :=
  if bool_decide (is_Some (sl_revoked_at self)) then Revoked
  else if is_some_and (sl_expires_at self) (λ expiry, expiry <=? now) then Expired
  else if is_some_and (sl_maximum_access_count self) (λ maximum, maximum <=? sl_access_count self) then Exhausted
  else Active.

Definition password_protected (self : ShareLink) : bool := bool_decide (is_Some (sl_password self)).

Record EmbedLink := {
  el_id : bytes; el_label : bytes; el_target : CapabilityTarget; el_created_by : bytes; el_created_at : Z;
  el_expires_at : option Z; el_allowed_origins : list bytes; el_disposition : EmbedDisposition;
  el_content_type : bytes; el_revoked_at : option Z; el_last_accessed_at : option Z; el_access_count : Z;
  el_updated_at : option Z }.

Definition embed_status (self : EmbedLink) (now : Z) : CapabilityStatus :=
  if bool_decide (is_Some (el_revoked_at self)) then Revoked
  else if is_some_and (el_expires_at self) (λ expiry, expiry <=? now) then Expired
  else Active.

Definition origin_restricted (self : EmbedLink) : bool := negb (bool_decide (el_allowed_origins self = [])).

(** ** Failures ([error.rs]), without those of files, JSON and tasks *)

Inductive SharingError :=
  | EntropyUnavailable
  | Cryptography
  | PasswordHashFailed
  | InvalidPassword (reason : bytes)
  | InvalidOrigin (e : OriginError)
  | Invalid (reason : bytes)
  | PolicyRefused (reason : bytes)
  | TokenCollision
  | Database (operation : string) (reason : bytes).

(** ** Policy ([policy.rs]); durations in nanoseconds *)

Definition seconds (n : Z) : Z := n * 10 ^ 9.
Definition days (n : Z) : Z := seconds (n * 86400).

Record SharingPolicy := {
  shares_enabled : bool; embeds_enabled : bool; maximum_lifetime : option Z; require_expiration : bool;
  require_share_password : bool; maximum_access_count : Z; password_attempts_per_window : Z;
  token_probes_per_window : Z; abuse_window : Z; unlock_lifetime : Z }.

Definition default_policy : SharingPolicy :=
  {| shares_enabled := true; embeds_enabled := true; maximum_lifetime := Some (days 365);
     require_expiration := false; require_share_password := false; maximum_access_count := 10000;
     password_attempts_per_window := 10; token_probes_per_window := 60; abuse_window := seconds 60;
     unlock_lifetime := seconds (12 * 3600) |}.

(** ** Requests and answers ([request.rs]) *)

Record CreateShareRequest := {
  cs_label : bytes; cs_bucket_id : bytes; cs_bucket : bytes; cs_key : bytes; cs_version : VersionMode;
  cs_permission : SharePermission; cs_expires_at : option Z; cs_password : option bytes;
  cs_maximum_access_count : option Z; cs_created_by : bytes }.

Record CreateEmbedRequest := {
  ce_label : bytes; ce_bucket_id : bytes; ce_bucket : bytes; ce_key : bytes; ce_version : VersionMode;
  ce_expires_at : option Z; ce_allowed_origins : list bytes; ce_disposition : EmbedDisposition;
  ce_content_type : option bytes; ce_created_by : bytes }.

Inductive AccessRefusal := UnknownToken | NotUsable (status : CapabilityStatus).
#[export] Instance AccessRefusal_eq_dec : EqDecision AccessRefusal.
Proof. solve_decision. Defined.

Inductive ShareLookup :=
  | LookupUnavailable (refusal : AccessRefusal)
  | LookupPasswordRequired (id : bytes)
  | LookupOpen (link : ShareLink).

Inductive UnlockFailure :=
  | UnlockUnavailable (refusal : AccessRefusal)
  | NotPasswordProtected
  | IncorrectPassword
  | UnlockThrottled (retry_after_seconds : Z).

Inductive AccessDenial :=
  | AccessUnavailable (refusal : AccessRefusal)
  | PasswordRequired
  | NotPermitted
  | OriginNotAllowed
  | AccessThrottled (retry_after_seconds : Z).

(** ** Labels ([support.rs]) *)

Definition MAXIMUM_LABEL_LENGTH : Z := 120.

Definition validated_label (label : bytes) : result SharingError bytes :=
  let trimmed := trim label in
  if bool_decide (trimmed = []) then Err (Invalid (str "a link needs a name so it can be recognised later"))
  else if MAXIMUM_LABEL_LENGTH <? chars_count trimmed
  then Err (Invalid (str "a link name must be at most 120 characters"))
  else if any_control trimmed then Err (Invalid (str "a link name must not contain control characters"))
  else Ok trimmed.

(** ** Interface of the crates *)

(** [URL_SAFE_NO_PAD] of [base64]; HMAC-SHA256 (key, message); Argon2 (password,
    salt) giving a PHC string, and its verifier (PHC string, password). *)
Class CapabilityCrypto := {
  base64_encode : bytes → bytes;
  base64_decode : bytes → option bytes;
  hmac_sha256 : bytes → bytes → bytes;
  hash_password : bytes → bytes → option bytes;
  verify_password : bytes → bytes → bool }.

Definition url_safe (b : Z) : bool := is_ascii_alphanumeric b || (b =? 45) || (b =? 95).

(** Encoding is undone by decoding, takes four characters of the URL-safe alphabet
    for three bytes (no padding), and a password verifies against its hash. *)
Class CapabilityCryptoLaws `{CapabilityCrypto} : Prop := {
  base64_decode_encode : ∀ b, bytes_ok b → base64_decode (base64_encode b) = Some b;
  base64_length : ∀ b, Z.of_nat (length (base64_encode b)) = (4 * Z.of_nat (length b) + 2) / 3;
  base64_alphabet : ∀ b, bytes_ok b → forallb url_safe (base64_encode b) = true;
  hmac_ok : ∀ k msg, length (hmac_sha256 k msg) = 32%nat ∧ bytes_ok (hmac_sha256 k msg);
  verify_hash : ∀ password salt hash, hash_password password salt = Some hash → verify_password hash password = true }.

Section Crypto.
Context `{HashFunction} `{Cryptography_} `{CapabilityCrypto}.

(** ** Tokens ([token.rs]) *)

Definition TOKEN_ENTROPY_BYTES : Z := 32.
Definition TOKEN_TEXT_LENGTH : Z := 43.

Definition generate (entropy : option bytes) : result SharingError bytes :=
  raw ← ok_or EntropyUnavailable entropy;
  Ok (base64_encode raw).

Definition parse_token (value : bytes) : option bytes :=
  if negb (len value =? TOKEN_TEXT_LENGTH) then None
  else if negb (forallb url_safe value) then None
  else Some value.

Definition token_digest (token : bytes) : bytes := digest token.

Definition redacted : bytes := str "<redacted>".

(** The loop over the segments: what is pushed for each, with the separators. *)
Fixpoint redact_segments (redact_next : bool) (segments : list bytes) : list bytes :=
  match segments with
  | [] => []
  | segment :: rest =>
      if redact_next && negb (bool_decide (segment = []))
      then redacted :: redact_segments false rest
      else segment :: redact_segments (bool_decide (segment = str "s") || bool_decide (segment = str "e")) rest
  end.

Fixpoint join (sep : Z) (segments : list bytes) : bytes :=
  match segments with
  | [] => []
  | [segment] => segment
  | segment :: rest => segment ++ sep :: join sep rest
  end.

Definition redact_capability_path (path : bytes) : bytes := join 47 (redact_segments false (split 47 path)).

(** ** Passwords ([password.rs]) *)

Definition MINIMUM_PASSWORD_LENGTH : Z := 8.
Definition MAXIMUM_PASSWORD_LENGTH : Z := 256.

Definition validate_password (password : bytes) : result SharingError () :=
  if chars_count password <? MINIMUM_PASSWORD_LENGTH
  then Err (InvalidPassword (str "a share password must be at least 8 characters"))
  else if MAXIMUM_PASSWORD_LENGTH <? len password
  then Err (InvalidPassword (str "a share password must be at most 256 bytes"))
  else Ok ().

Definition create_hash (password : bytes) (salt : option bytes) : result SharingError bytes :=
  _ ← validate_password password;
  salt ← ok_or EntropyUnavailable salt;
  ok_or PasswordHashFailed (hash_password password salt).

(** [verify_password] fails on a text that is no PHC string. *)
Definition verify_hash_password (self candidate : bytes) : bool :=
  if MAXIMUM_PASSWORD_LENGTH <? len candidate then false else verify_password self candidate.

(** ** Tickets ([ticket.rs]) *)

Definition derive_ticket_key (material : bytes) : result SharingError bytes :=
  ok_or Cryptography (hkdf_expand (str "capability-store-v1") material (str "share-unlock-ticket-key")).

(** [DateTime::timestamp]: whole seconds, rounded down. *)
Definition timestamp (t : Z) : Z := t / 10 ^ 9.

Definition sign (key share : bytes) (expiry : Z) : bytes :=
  hmac_sha256 key (share ++ str "." ++ to_decimal expiry).

Definition issue (key share : bytes) (expires_at : Z) : bytes :=
  let expiry := timestamp expires_at in
  to_decimal expiry ++ str "." ++ base64_encode (sign key share expiry).

Definition verify_ticket (key ticket share : bytes) (now : Z) : bool :=
  if 128 <? len ticket then false
  else match split_once (str ".") ticket with
  | None => false
  | Some (expiry, tag) =>
      match parse_i64 expiry with
      | None => false
      | Some expiry =>
          if expiry <=? timestamp now then false
          else match base64_decode tag with
               | None => false
               | Some presented => bool_decide (presented = sign key share expiry)
               end
      end
  end.
End Crypto.

(** ** Lemmas *)

Lemma digits_dot n : 46 ∉ to_decimal n.
Proof.
  assert (Hd : ∀ fuel m, 0 ≤ m → 46 ∉ decimal_digits fuel m).
  { induction fuel as [|fuel IH]; intros m Hm; cbn [decimal_digits]; [apply not_elem_of_nil|].
    destruct (Z.ltb_spec m 10).
    - rewrite list_elem_of_singleton. lia.
    - rewrite elem_of_app, list_elem_of_singleton. pose proof (Z.mod_pos_bound m 10). intros [Hin|]; [|lia].
      by apply IH in Hin; [|apply Z.div_pos; lia]. }
  unfold to_decimal. destruct (Z.ltb_spec n 0).
  - rewrite elem_of_cons. intros [|Hin]; [lia|]. by apply Hd in Hin; [|lia].
  - by apply Hd.
Qed.

Lemma to_decimal_length n : is_i64 n → (length (to_decimal n) ≤ 20)%nat.
Proof.
  unfold is_i64. intros Hn. unfold to_decimal. destruct (Z.ltb_spec n 0); cbn [length].
  - pose proof (decimal_digits_length 20 (- n) 19 ltac:(lia) ltac:(lia)). lia.
  - pose proof (decimal_digits_length 20 n 19 ltac:(lia) ltac:(lia)). lia.
Qed.

Section CryptoLemmas.
Context `{CapabilityCryptoLaws}.

(** A ticket is short enough for its verifier, which accepts it until it expires. *)
Lemma verify_issue key share expires_at now :
  is_i64 (timestamp expires_at) →
  verify_ticket key (issue key share expires_at) share now = (timestamp now <? timestamp expires_at).
Proof.
  intros Hi. unfold verify_ticket, issue. set (expiry := timestamp expires_at) in *.
  destruct (hmac_ok key (share ++ str "." ++ to_decimal expiry)) as [Hlen Hok]. fold (sign key share expiry) in *.
  pose proof (base64_length (sign key share expiry)) as Hb. rewrite Hlen in Hb.
  pose proof (to_decimal_length expiry Hi) as Hdl.
  rewrite (proj2 (Z.ltb_ge _ _)).
  2: { unfold len. rewrite !length_app. cbn [length bytes_of_string]. change ((4 * Z.of_nat 32 + 2) / 3) with 43 in Hb. lia. }
  rewrite (split_once_first 46 (to_decimal expiry) (base64_encode (sign key share expiry)) (digits_dot expiry)
             : split_once (str ".") (_ ++ str "." ++ _) = _).
  rewrite parse_i64_decimal by done. rewrite base64_decode_encode by done.
  rewrite bool_decide_eq_true_2 by done. destruct (Z.leb_spec expiry (timestamp now)), (Z.ltb_spec (timestamp now) expiry); (done || lia).
Qed.

(** What an accepted ticket carries. *)
Lemma verify_ticket_sound key ticket share now :
  verify_ticket key ticket share now = true →
  ∃ expiry text tag, split_once (str ".") ticket = Some (text, tag) ∧ parse_i64 text = Some expiry ∧
    timestamp now < expiry ∧ base64_decode tag = Some (sign key share expiry).
Proof.
  unfold verify_ticket. repeat case_match; try done. bool_facts. intros Hv%bool_decide_eq_true.
  subst. eauto 10.
Qed.
End CryptoLemmas.

End Capability.
