(* ===== verification/CapabilityStore.v ===== *)
(** * The capability store

    [crates/record-store-sharing/src/store.rs]: shares and embeds in one database,
    each kind in three tables (records, token index, object index). The code is
    written once per kind; here a kind is an instance of [Link], its tables a
    [Tables], and each operation is defined once and used at both kinds.

    Records are kept decoded. A write transaction is one step ([atomically]); a
    call that reads in one transaction and writes in the next
    ([record_embed_access]) is composed of two, so that others can come between. *)

From S2P Require Import Prelude Bytes Text Tables Digest ObjectLock CoreTypes Auth Names Limiter Origin Capability.
Import Text StdText Names Auth Capability.

Module CapabilityStore.

Definition SHARING_SCHEMA_VERSION : Z := 1.
Definition KEY_TERMINATOR : Z := 255.

Record SealedToken := { sealed_version : Z; sealed_nonce : bytes; sealed_ciphertext : bytes }.

(** [StoredShare], [StoredEmbed]. *)
Record Stored (L : Type) := { link : L; token : SealedToken }.
#[global] Arguments link {L}.
#[global] Arguments token {L}.

(** What the store needs to know of a link. *)
Class Link (L : Type) := {
  link_id : L → bytes; link_target : L → CapabilityTarget; link_created_at : L → Z; link_kind : string }.
#[export] Instance share_is_link : Link ShareLink :=
  {| link_id := sl_id; link_target := sl_target; link_created_at := sl_created_at; link_kind := "share" |}.
#[export] Instance embed_is_link : Link EmbedLink :=
  {| link_id := el_id; link_target := el_target; link_created_at := el_created_at; link_kind := "embed" |}.

Record Tables (L : Type) := { LINKS : gmap bytes (Stored L); TOKENS : gmap bytes bytes; OBJECTS : gmap bytes Z }.
#[global] Arguments LINKS {L}.
#[global] Arguments TOKENS {L}.
#[global] Arguments OBJECTS {L}.

Definition no_tables {L} : Tables L := {| LINKS := ∅; TOKENS := ∅; OBJECTS := ∅ |}.
Definition upd_links {L} f (t : Tables L) : Tables L := {| LINKS := f (LINKS t); TOKENS := TOKENS t; OBJECTS := OBJECTS t |}.
Definition upd_tokens {L} f (t : Tables L) : Tables L := {| LINKS := LINKS t; TOKENS := f (TOKENS t); OBJECTS := OBJECTS t |}.
Definition upd_objects {L} f (t : Tables L) : Tables L := {| LINKS := LINKS t; TOKENS := TOKENS t; OBJECTS := f (OBJECTS t) |}.

(** ** Index keys *)

Definition object_index_prefix (bucket_id key : bytes) : bytes := bucket_id ++ key ++ [KEY_TERMINATOR].
Definition object_index_key (bucket_id key id : bytes) : bytes := object_index_prefix bucket_id key ++ id.

Fixpoint take_while {A} (p : A → bool) (l : list A) : list A :=
  match l with x :: l => if p x then x :: take_while p l else [] | [] => [] end.

(** [table.range(prefix..)] up to the first key without the prefix. *)
Definition scan_index (prefix : bytes) (table : gmap bytes Z) : list bytes :=
  let keys := filter (bytes_le prefix) (table_iter table).*1 in
  filter (λ id, length id = 16%nat) (drop (length prefix) <$> take_while (starts_with prefix) keys).

(** ** One kind of link *)

Section Kind.
Context {L : Type} `{Link L}.

Definition index_key (l : L) : bytes :=
  object_index_key (t_bucket_id (link_target l)) (t_key (link_target l)) (link_id l).

Definition newer (a b : L) : Prop := link_created_at b ≤ link_created_at a.
#[export] Instance newer_dec : RelDecision newer.
Proof. intros a b. unfold newer. apply _. Defined.

(** [sort_by_key] is stable, as [merge_sort] is. *)
Definition newest_first (links : list L) : list L := merge_sort newer links.

Abbreviation link_tx := (tx (Tables L) SharingError).

Definition create_link (new_link : L) (sealed : SealedToken) (digest_ : bytes) : link_tx () :=
  atomically (
    found ← tx_gets (λ t, TOKENS t !! digest_);
    tx_guard (bool_decide (found = None)) TokenCollision;;
    tx_modify (upd_tokens <[digest_ := link_id new_link]>);;
    tx_modify (upd_links <[link_id new_link := {| link := new_link; token := sealed |}]>);;
    tx_modify (upd_objects <[index_key new_link := 1]>)).

Definition get_link (id : bytes) (t : Tables L) : option L := link <$> LINKS t !! id.

Definition lookup_token (digest_ : bytes) (t : Tables L) : result SharingError (option bytes) :=
  match TOKENS t !! digest_ with
  | None => Ok None
  | Some value =>
      if bool_decide (length value = 16%nat) then Ok (Some value)
      else Err (Database "read token index" (str link_kind ++ str " token index holds a malformed identifier"))
  end.

Definition resolve_link (digest_ : bytes) (t : Tables L) : result SharingError (option L) :=
  found ← lookup_token digest_ t;
  Ok (found ≫= λ id, get_link id t).

Definition list_links_for_object (bucket_id key : bytes) (t : Tables L) : list L :=
  newest_first (omap (λ id, get_link id t) (scan_index (object_index_prefix bucket_id key) (OBJECTS t))).

Definition list_links (t : Tables L) : list L := newest_first (link <$> (table_iter (LINKS t)).*2).

Definition mutate_link (id : bytes) (change : L → L) : link_tx (option L) :=
  atomically (
    existing ← tx_gets (λ t, LINKS t !! id);
    match existing with
    | Some stored =>
        let stored := {| link := change (link stored); token := token stored |} in
        tx_modify (upd_links <[id := stored]>);;
        mret (Some (link stored))
    | None => mret None
    end).

Definition delete_link (id : bytes) : link_tx bool :=
  atomically (
    removed ← tx_gets (λ t, LINKS t !! id);
    tx_modify (upd_links (delete id));;
    match removed with
    | None => mret false
    | Some stored =>
        tokens ← tx_gets TOKENS;
        let stale := fst <$> find (λ kv, bool_decide (kv.2 = link_id (link stored))) (table_iter tokens) in
        match stale with
        | Some key => tx_modify (upd_tokens (delete key))
        | None => mret ()
        end;;
        tx_modify (upd_objects (delete (index_key (link stored))));;
        mret true
    end).
End Kind.

(** ** The database and its handle *)

Record Store := { SHARES_ : Tables ShareLink; EMBEDS_ : Tables EmbedLink; SCHEMA : option Z }.

Record Handle := { encryption_key : bytes; telemetry_interval : Z }.

Abbreviation store_tx := (tx Store SharingError).

Definition upd_shares f d := {| SHARES_ := f (SHARES_ d); EMBEDS_ := EMBEDS_ d; SCHEMA := SCHEMA d |}.
Definition upd_embeds f d := {| SHARES_ := SHARES_ d; EMBEDS_ := f (EMBEDS_ d); SCHEMA := SCHEMA d |}.

Definition on_shares {A} (m : tx (Tables ShareLink) SharingError A) : store_tx A := λ d,
  let '(r, t) := m (SHARES_ d) in (r, upd_shares (λ _, t) d).
Definition on_embeds {A} (m : tx (Tables EmbedLink) SharingError A) : store_tx A := λ d,
  let '(r, t) := m (EMBEDS_ d) in (r, upd_embeds (λ _, t) d).

Definition initialize_schema : store_tx () :=
  atomically (
    version ← tx_gets (λ d, default 0 (SCHEMA d));
    tx_guard (version <=? SHARING_SCHEMA_VERSION)
      (Database "schema compatibility"
         (str "capability schema " ++ to_decimal version ++ str " is newer than supported schema 1"));;
    if version <? SHARING_SCHEMA_VERSION
    then tx_modify (λ d, {| SHARES_ := SHARES_ d; EMBEDS_ := EMBEDS_ d; SCHEMA := Some SHARING_SCHEMA_VERSION |})
    else mret ()).

Section Operations.
Context `{HashFunction} `{Cryptography_} `{CapabilityCrypto}.

Definition derive_encryption_key (material : bytes) : result SharingError bytes :=
  ok_or Cryptography (hkdf_expand (str "capability-store-v1") material (str "capability-token-encryption-key")).

(** A database that does not exist yet has empty tables and no schema entry. *)
Definition open_with_telemetry_interval (key_material : bytes) (interval : Z) : store_tx Handle :=
  key ← tx_lift (derive_encryption_key key_material);
  initialize_schema;;
  mret {| encryption_key := key; telemetry_interval := interval |}.

Definition open (key_material : bytes) : store_tx Handle := open_with_telemetry_interval key_material (seconds 60).

Context (self : Handle).

Definition seal (token_ id : bytes) (nonce : option bytes) : result SharingError SealedToken :=
  nonce ← ok_or EntropyUnavailable nonce;
  ciphertext ← ok_or Cryptography (aead_encrypt (encryption_key self) nonce id token_);
  Ok {| sealed_version := 1; sealed_nonce := nonce; sealed_ciphertext := ciphertext |}.

Definition unseal (sealed : SealedToken) (id key : bytes) : option bytes :=
  if negb (sealed_version sealed =? 1) then None
  else plaintext ← aead_decrypt key (sealed_nonce sealed) id (sealed_ciphertext sealed);
       if utf8_valid plaintext then parse_token plaintext else None.

(** *** Shares *)

Definition create_share (new_link : ShareLink) (token_ : bytes) (nonce : option bytes) : store_tx () :=
  sealed ← tx_lift (seal token_ (sl_id new_link) nonce);
  on_shares (create_link new_link sealed (token_digest token_)).

Definition get_share (id : bytes) (d : Store) : option ShareLink := get_link id (SHARES_ d).
Definition resolve_share (digest_ : bytes) (d : Store) : result SharingError (option ShareLink) :=
  resolve_link digest_ (SHARES_ d).
Definition list_shares_for_object (bucket_id key : bytes) (d : Store) : list ShareLink :=
  list_links_for_object bucket_id key (SHARES_ d).
Definition list_shares (d : Store) : list ShareLink := list_links (SHARES_ d).

Definition share_revoked (at_ : Z) (l : ShareLink) : ShareLink :=
  if bool_decide (sl_revoked_at l = None)
  then {| sl_id := sl_id l; sl_label := sl_label l; sl_target := sl_target l; sl_created_by := sl_created_by l;
          sl_created_at := sl_created_at l; sl_expires_at := sl_expires_at l; sl_permission := sl_permission l;
          sl_password := sl_password l; sl_maximum_access_count := sl_maximum_access_count l;
          sl_access_count := sl_access_count l; sl_revoked_at := Some at_;
          sl_last_accessed_at := sl_last_accessed_at l |}
  else l.

Definition mutate_share (id : bytes) (change : ShareLink → ShareLink) : store_tx (option ShareLink) :=
  on_shares (mutate_link id change).
Definition revoke_share (id : bytes) (at_ : Z) : store_tx (option ShareLink) := mutate_share id (share_revoked at_).
Definition delete_share (id : bytes) : store_tx bool := on_shares (delete_link id).

(** One more access, at [now]. *)
Definition share_accessed (now : Z) (l : ShareLink) : ShareLink :=
  {| sl_id := sl_id l; sl_label := sl_label l; sl_target := sl_target l; sl_created_by := sl_created_by l;
     sl_created_at := sl_created_at l; sl_expires_at := sl_expires_at l; sl_permission := sl_permission l;
     sl_password := sl_password l; sl_maximum_access_count := sl_maximum_access_count l;
     sl_access_count := Z.min (sl_access_count l + 1) u32_max; sl_revoked_at := sl_revoked_at l;
     sl_last_accessed_at := Some now |}.

Definition consume_share_access (id : bytes) (now : Z) : store_tx (result AccessRefusal ShareLink) :=
  atomically (
    existing ← tx_gets (λ d, LINKS (SHARES_ d) !! id);
    match existing with
    | None => mret (Err UnknownToken)
    | Some stored =>
        let status := share_status (link stored) now in
        if negb (usable status) then mret (Err (NotUsable status))
        else
          let budgeted := bool_decide (is_Some (sl_maximum_access_count (link stored))) in
          let stale := is_none_or (sl_last_accessed_at (link stored)) (λ last, telemetry_interval self <=? now - last) in
          let stored := {| link := share_accessed now (link stored); token := token stored |} in
          (if budgeted || stale then tx_modify (upd_shares (upd_links <[id := stored]>)) else mret ());;
          mret (Ok (link stored))
    end).

Definition reveal_share_token (id : bytes) (d : Store) : option bytes :=
  stored ← LINKS (SHARES_ d) !! id;
  unseal (token stored) id (encryption_key self).

(** *** Embeds *)

Definition create_embed (new_link : EmbedLink) (token_ : bytes) (nonce : option bytes) : store_tx () :=
  sealed ← tx_lift (seal token_ (el_id new_link) nonce);
  on_embeds (create_link new_link sealed (token_digest token_)).

Definition get_embed (id : bytes) (d : Store) : option EmbedLink := get_link id (EMBEDS_ d).
Definition resolve_embed (digest_ : bytes) (d : Store) : result SharingError (option EmbedLink) :=
  resolve_link digest_ (EMBEDS_ d).
Definition list_embeds_for_object (bucket_id key : bytes) (d : Store) : list EmbedLink :=
  list_links_for_object bucket_id key (EMBEDS_ d).
Definition list_embeds (d : Store) : list EmbedLink := list_links (EMBEDS_ d).

(** An embed with its mutable fields replaced. *)
Definition with_embed (l : EmbedLink) (origins : list bytes) (revoked_at last_accessed_at : option Z)
    (access_count : Z) (updated_at : option Z) : EmbedLink :=
  {| el_id := el_id l; el_label := el_label l; el_target := el_target l; el_created_by := el_created_by l;
     el_created_at := el_created_at l; el_expires_at := el_expires_at l; el_allowed_origins := origins;
     el_disposition := el_disposition l; el_content_type := el_content_type l; el_revoked_at := revoked_at;
     el_last_accessed_at := last_accessed_at; el_access_count := access_count; el_updated_at := updated_at |}.

Definition embed_revoked (at_ : Z) (l : EmbedLink) : EmbedLink :=
  with_embed l (el_allowed_origins l) (if bool_decide (el_revoked_at l = None) then Some at_ else el_revoked_at l)
    (el_last_accessed_at l) (el_access_count l) (Some at_).
Definition embed_origins (origins : list bytes) (at_ : Z) (l : EmbedLink) : EmbedLink :=
  with_embed l origins (el_revoked_at l) (el_last_accessed_at l) (el_access_count l) (Some at_).
Definition embed_accessed (now : Z) (l : EmbedLink) : EmbedLink :=
  with_embed l (el_allowed_origins l) (el_revoked_at l) (Some now) (u64_saturating_add (el_access_count l) 1)
    (el_updated_at l).

Definition mutate_embed (id : bytes) (change : EmbedLink → EmbedLink) : store_tx (option EmbedLink) :=
  on_embeds (mutate_link id change).
Definition revoke_embed (id : bytes) (at_ : Z) : store_tx (option EmbedLink) := mutate_embed id (embed_revoked at_).
Definition set_embed_origins (id : bytes) (origins : list bytes) (at_ : Z) : store_tx (option EmbedLink) :=
  mutate_embed id (embed_origins origins at_).
Definition delete_embed (id : bytes) : store_tx bool := on_embeds (delete_link id).

(** The read that decides whether the access is recorded, and the write. *)
Definition embed_telemetry_stale (id : bytes) (now : Z) (d : Store) : bool :=
  match get_embed id d with
  | None => false
  | Some l => is_none_or (el_last_accessed_at l) (λ last, telemetry_interval self <=? now - last)
  end.
Definition write_embed_access (id : bytes) (now : Z) : store_tx () :=
  _ ← mutate_embed id (embed_accessed now);
  mret ().
Definition record_embed_access (id : bytes) (now : Z) : store_tx () :=
  tx_gets (embed_telemetry_stale id now) ≫= λ stale : bool,
  if stale then write_embed_access id now else mret ().

Definition reveal_embed_token (id : bytes) (d : Store) : option bytes :=
  stored ← LINKS (EMBEDS_ d) !! id;
  unseal (token stored) id (encryption_key self).
End Operations.

End CapabilityStore.
