(* ===== verification/CapabilityInv.v ===== *)
(** * Invariants of the capability store

    The token index names exactly the stored links, each once; the object index
    holds exactly their keys. Every operation keeps this, and a scan of the object
    index finds exactly the links of an object. *)

From S2P Require Import Prelude Bytes Text Tables Digest ObjectLock CoreTypes Auth Names Limiter Origin Capability CapabilityStore.
Import StdText Capability CapabilityStore.

Module CapabilityInv.

(** Identifiers are UUIDs; a key is UTF-8, so it cannot hold the terminator. *)
Definition target_ok (target : CapabilityTarget) : Prop :=
  length (t_bucket_id target) = 16%nat ∧ KEY_TERMINATOR ∉ t_key target.

Section Kind.
Context {L : Type} `{Link L}.
Implicit Types (t : Tables L) (l : L).

Record tables_ok t : Prop := {
  ok_ids : ∀ id st, LINKS t !! id = Some st → link_id (link st) = id ∧ length id = 16%nat ∧ target_ok (link_target (link st));
  ok_tokens : ∀ d id, TOKENS t !! d = Some id → is_Some (LINKS t !! id);
  ok_token_of : ∀ id, is_Some (LINKS t !! id) → ∃ d, TOKENS t !! d = Some id;
  ok_one_token : ∀ d d' id, TOKENS t !! d = Some id → TOKENS t !! d' = Some id → d = d';
  ok_objects : ∀ k, is_Some (OBJECTS t !! k) ↔ ∃ id st, LINKS t !! id = Some st ∧ k = index_key (link st) }.

Lemma no_tables_ok : tables_ok no_tables.
Proof.
  split; cbn; try done.
  - intros id [st Hst]. done.
  - intros k. split; [intros [v Hv]; done|]. intros (id & st & Hst & _). done.
Qed.

(** ** Index keys *)

Lemma index_key_id l : length (link_id l) = 16%nat → drop (length (index_key l) - 16) (index_key l) = link_id l.
Proof.
  intros Hl. unfold index_key, object_index_key. rewrite length_app, Hl, Nat.add_sub. apply drop_app_length.
Qed.

Lemma index_key_inj l l' :
  length (link_id l) = 16%nat → length (link_id l') = 16%nat → index_key l = index_key l' → link_id l = link_id l'.
Proof. intros Hl Hl' Heq. by rewrite <-(index_key_id l), <-(index_key_id l'), Heq. Qed.

(** No key can forge the end of another: the prefix names one object. *)
Lemma terminated_inj key key' (rest rest' : bytes) :
  KEY_TERMINATOR ∉ key → KEY_TERMINATOR ∉ key' →
  key ++ KEY_TERMINATOR :: rest = key' ++ KEY_TERMINATOR :: rest' → key = key' ∧ rest = rest'.
Proof.
  revert key'. induction key as [|b key IH]; intros [|b' key'] Hk Hk' Heq; cbn in Heq.
  - by simplify_eq.
  - apply not_elem_of_cons in Hk' as [? _]. injection Heq as Heq _. congruence.
  - apply not_elem_of_cons in Hk as [? _]. injection Heq as Heq _. congruence.
  - apply not_elem_of_cons in Hk as [_ Hk]. apply not_elem_of_cons in Hk' as [_ Hk'].
    injection Heq as -> Heq. destruct (IH _ Hk Hk' Heq) as [-> ->]. done.
Qed.

Lemma prefix_of_index_key bucket_id key l :
  length bucket_id = 16%nat → KEY_TERMINATOR ∉ key → target_ok (link_target l) →
  object_index_prefix bucket_id key `prefix_of` index_key l ↔
  t_bucket_id (link_target l) = bucket_id ∧ t_key (link_target l) = key.
Proof.
  intros Hb Hk [Htb Htk]. unfold index_key, object_index_key, object_index_prefix. split.
  - intros [rest Heq]. rewrite <-!app_assoc in Heq. cbn [app] in Heq.
    apply app_inj_1 in Heq as [-> Heq]; [|congruence]. cbn [app] in Heq.
    by apply terminated_inj in Heq as [-> _].
  - intros [-> ->]. by eexists.
Qed.

(** ** Scanning a prefix *)

Lemma prefix_bytes_le p k : p `prefix_of` k → bytes_le p k.
Proof. intros [rest ->]. apply bytes_le_app. Qed.

(** Between a prefix and a key that has it, every key has it. *)
Lemma prefix_convex p k k' : bytes_le p k → bytes_le k k' → p `prefix_of` k' → p `prefix_of` k.
Proof.
  intros Hpk Hkk' [rest ->]. revert k Hpk Hkk'. induction p as [|b p IH]; intros k Hpk Hkk'; [apply prefix_nil|].
  destruct k as [|c k]; [by apply bytes_le_nil_r in Hpk|]. cbn [app] in Hkk'.
  apply bytes_le_cons in Hpk. apply bytes_le_cons in Hkk'.
  assert (b = c) as <- by lia. apply prefix_cons, IH; [by destruct Hpk as [|[_ ?]]; [lia|]|by destruct Hkk' as [|[_ ?]]; [lia|]].
Qed.

Lemma take_while_filter {A} (p : A → bool) (R : relation A) (xs : list A) :
  StronglySorted R xs → (∀ x y, x ∈ xs → R x y → p y = true → p x = true) →
  take_while p xs = filter (λ x, p x = true) xs.
Proof.
  induction 1 as [|x xs Hs IH Hx]; intros Hp; [done|]. cbn [take_while]. rewrite filter_cons.
  destruct (p x) eqn:Hpx.
  - rewrite decide_True by done. f_equal. apply IH. intros y z Hy. apply Hp. by right.
  - rewrite decide_False by done. symmetry. apply filter_none. eapply Forall_impl; [exact Hx|].
    intros y Hxy Hpy. rewrite (Hp x y) in Hpx; [done|by left|done|done].
Qed.

Lemma table_keys_sorted {V} (table : gmap bytes V) : StronglySorted bytes_le (table_iter table).*1.
Proof.
  induction (table_iter_sorted table) as [|[k v] l Hs IH Hk]; [constructor|]. cbn. constructor; [done|].
  apply Forall_fmap. exact Hk.
Qed.

Lemma elem_of_scan_index (pre : bytes) (table : gmap bytes Z) id :
  id ∈ scan_index pre table ↔ length id = 16%nat ∧ is_Some (table !! (pre ++ id)).
Proof.
  unfold scan_index. rewrite (take_while_filter _ bytes_le).
  2: { apply StronglySorted_filter, table_keys_sorted. }
  2: { intros k k' Hk Hkk' Hp. apply list_elem_of_filter in Hk as [Hk _].
       apply bool_decide_eq_true in Hp. apply bool_decide_eq_true. by eapply prefix_convex. }
  rewrite list_elem_of_filter, list_elem_of_fmap. apply and_iff_compat_l. split.
  - intros (k & -> & Hk). apply list_elem_of_filter in Hk as [Hp Hk]. apply list_elem_of_filter in Hk as [_ Hk].
    apply bool_decide_eq_true in Hp as [rest ->]. rewrite drop_app_length.
    apply list_elem_of_fmap in Hk as ([k' v] & -> & Hk). apply elem_of_table_iter in Hk. by eexists.
  - intros [v Hv]. exists (pre ++ id). rewrite drop_app_length. split; [done|].
    apply list_elem_of_filter. split; [apply starts_with_app|]. apply list_elem_of_filter.
    split; [apply bytes_le_app|]. apply list_elem_of_fmap. exists (pre ++ id, v). split; [done|].
    by apply elem_of_table_iter.
Qed.

Lemma NoDup_scan_index (pre : bytes) (table : gmap bytes Z) : NoDup (scan_index pre table).
Proof.
  unfold scan_index. apply NoDup_filter. rewrite (take_while_filter _ bytes_le).
  2: { apply StronglySorted_filter, table_keys_sorted. }
  2: { intros k k' Hk Hkk' Hp. apply list_elem_of_filter in Hk as [Hk _].
       apply bool_decide_eq_true in Hp. apply bool_decide_eq_true. by eapply prefix_convex. }
  apply NoDup_fmap_2_strong; [|apply NoDup_filter, NoDup_filter, table_iter_NoDup].
  intros k k' Hk Hk' Heq. apply list_elem_of_filter in Hk as [Hk _], Hk' as [Hk' _].
  apply bool_decide_eq_true in Hk as [rest ->], Hk' as [rest' ->]. rewrite !drop_app_length in Heq. congruence.
Qed.

(** ** Listing *)

Lemma get_link_Some id t l : get_link id t = Some l ↔ ∃ st, LINKS t !! id = Some st ∧ link st = l.
Proof. unfold get_link. rewrite fmap_Some. naive_solver. Qed.

Lemma elem_of_newest_first l ls : l ∈ newest_first ls ↔ l ∈ ls.
Proof. unfold newest_first. by rewrite merge_sort_Permutation. Qed.

Lemma newest_first_sorted ls : StronglySorted newer (newest_first ls).
Proof.
  apply StronglySorted_merge_sort.
  - intros a b c. unfold newer. lia.
  - intros a b. unfold newer. lia.
Qed.

Lemma elem_of_list_links_for_object t bucket_id key l :
  tables_ok t → length bucket_id = 16%nat → KEY_TERMINATOR ∉ key →
  l ∈ list_links_for_object bucket_id key t ↔
  get_link (link_id l) t = Some l ∧ t_bucket_id (link_target l) = bucket_id ∧ t_key (link_target l) = key.
Proof.
  intros Hok Hb Hk. unfold list_links_for_object. rewrite elem_of_newest_first, list_elem_of_omap. split.
  - intros (id & Hid & Hl). apply elem_of_scan_index in Hid as [Hlen Hobj].
    apply (ok_objects _ Hok) in Hobj as (id' & st' & Hst' & Heq).
    apply get_link_Some in Hl as (st & Hst & <-). destruct (ok_ids _ Hok _ _ Hst) as (Hlid & _ & Ht).
    destruct (ok_ids _ Hok _ _ Hst') as (Hlid' & Hlen' & Ht').
    assert (Hid : id = id').
    { rewrite <-Hlid'. rewrite <-(index_key_id (link st')) by congruence. rewrite <-Heq, length_app, Hlen, Nat.add_sub.
      by rewrite drop_app_length. }
    rewrite <-Hid, Hst in Hst'. injection Hst' as <-. rewrite Hlid. split; [apply get_link_Some; eauto|].
    apply (prefix_of_index_key bucket_id key); [done..|]. rewrite <-Heq. by eexists.
  - intros (Hget & <- & <-). apply get_link_Some in Hget as (st & Hst & Heq). exists (link_id l).
    split; [|by apply get_link_Some; eauto]. destruct (ok_ids _ Hok _ _ Hst) as (_ & Hlen & _).
    apply elem_of_scan_index. split; [done|]. apply (ok_objects _ Hok). exists (link_id l), st. by rewrite Heq.
Qed.

Lemma NoDup_list_links_for_object t bucket_id key :
  tables_ok t → NoDup (link_id <$> list_links_for_object bucket_id key t).
Proof.
  intros Hok. unfold list_links_for_object, newest_first. rewrite merge_sort_Permutation.
  induction (NoDup_scan_index (object_index_prefix bucket_id key) (OBJECTS t)) as [|id ids Hid Hnd IH]; [constructor|].
  cbn [omap list_omap]. destruct (get_link id t) as [l|] eqn:Hl; [|done]. cbn. constructor; [|done].
  rewrite list_elem_of_fmap. intros (l' & Heq & Hl'). apply list_elem_of_omap in Hl' as (id' & Hid' & Hget).
  apply get_link_Some in Hl as (st & Hst & <-), Hget as (st' & Hst' & <-).
  destruct (ok_ids _ Hok _ _ Hst) as [<- _], (ok_ids _ Hok _ _ Hst') as [<- _]. by rewrite Heq in Hid.
Qed.

(** ** The operations keep the invariant *)

Definition link_ok (l : L) : Prop := length (link_id l) = 16%nat ∧ target_ok (link_target l).

Lemma create_link_run l sealed d t :
  create_link l sealed d t =
  match TOKENS t !! d with
  | Some _ => (Err TokenCollision, t)
  | None => (Ok (), {| LINKS := <[link_id l := {| link := l; token := sealed |}]> (LINKS t);
                       TOKENS := <[d := link_id l]> (TOKENS t); OBJECTS := <[index_key l := 1]> (OBJECTS t) |})
  end.
Proof.
  unfold create_link, atomically, mbind, tx_bind, tx_gets, tx_guard, tx_modify. destruct (TOKENS t !! d) eqn:Hd.
  - by rewrite bool_decide_eq_false_2.
  - by rewrite bool_decide_eq_true_2.
Qed.

Lemma create_link_ok l sealed d t :
  tables_ok t → link_ok l → LINKS t !! link_id l = None → tables_ok (create_link l sealed d t).2.
Proof.
  intros Hok [Hlen Htgt] Hfresh. rewrite create_link_run. destruct (TOKENS t !! d) eqn:Hd; [done|].
  assert (Hnot : ∀ d' id, TOKENS t !! d' = Some id → id ≠ link_id l).
  { intros d' id Hd' ->. apply (ok_tokens _ Hok) in Hd' as [st Hst]. congruence. }
  split; cbn.
  - intros id st. rewrite lookup_insert_Some. intros [[<- <-]|[_ Hst]]; [done|by apply (ok_ids _ Hok)].
  - intros d' id. rewrite lookup_insert_Some, lookup_insert_is_Some. intros [[_ <-]|[_ Hd']]; [by left|].
    right. split; [by apply not_eq_sym, (Hnot d')|by eapply ok_tokens].
  - intros id. rewrite lookup_insert_is_Some. intros [<-|[_ Hid]]; [exists d; by rewrite lookup_insert_eq|].
    apply (ok_token_of _ Hok) in Hid as [d' Hd']. exists d'. rewrite lookup_insert_ne by (intros <-; congruence). done.
  - intros d1 d2 id. rewrite !lookup_insert_Some. intros [[<- <-]|[_ H1]] [[<- Heq]|[_ H2]].
    + done.
    + by apply Hnot in H2.
    + by apply Hnot in H1.
    + by eapply ok_one_token.
  - intros k. rewrite lookup_insert_is_Some. split.
    + intros [<-|[_ Hk]]; [exists (link_id l); eexists; by rewrite lookup_insert_eq|].
      apply (ok_objects _ Hok) in Hk as (id & st & Hst & ->). exists id, st.
      rewrite lookup_insert_ne by (intros <-; congruence). done.
    + intros (id & st & Hst & ->). apply lookup_insert_Some in Hst as [[<- <-]|[Hne Hst]]; [by left|].
      destruct (decide (index_key l = index_key (link st))) as [|Hk]; [by left|]. right. split; [done|].
      apply (ok_objects _ Hok). eauto.
Qed.

Lemma mutate_link_run id change t :
  mutate_link id change t =
  match LINKS t !! id with
  | None => (Ok None, t)
  | Some st => (Ok (Some (change (link st))), upd_links <[id := {| link := change (link st); token := token st |}]> t)
  end.
Proof. unfold mutate_link, atomically, mbind, tx_bind, tx_gets, tx_modify. by destruct (LINKS t !! id). Qed.

(** Replacing a record under its identifier, with its identity. *)
Lemma replace_link_ok id st st' t :
  tables_ok t → LINKS t !! id = Some st → link_id (link st') = link_id (link st) →
  link_target (link st') = link_target (link st) → tables_ok (upd_links <[id := st']> t).
Proof.
  intros Hok Hst Hid Htgt. assert (Hkey : index_key (link st') = index_key (link st)) by (unfold index_key; congruence).
  split; cbn.
  - intros id' st''. rewrite lookup_insert_Some. intros [[<- <-]|[_ H']]; [|by apply (ok_ids _ Hok)].
    rewrite Hid, Htgt. by apply (ok_ids _ Hok).
  - intros d id' Hd. rewrite lookup_insert_is_Some'. right. by eapply ok_tokens.
  - intros id'. rewrite lookup_insert_is_Some'. intros [<-|Hid']; apply (ok_token_of _ Hok); [by eexists|done].
  - apply (ok_one_token _ Hok).
  - intros k. rewrite (ok_objects _ Hok). split; intros (id' & st'' & Hst'' & ->).
    + destruct (decide (id' = id)) as [->|Hne].
      * exists id, st'. rewrite lookup_insert_eq. rewrite Hst in Hst''. injection Hst'' as <-. done.
      * exists id', st''. by rewrite lookup_insert_ne by done.
    + apply lookup_insert_Some in Hst'' as [[<- <-]|[_ ?]]; [exists id, st; by rewrite Hkey|by exists id', st''].
Qed.

Lemma mutate_link_ok id change t :
  (∀ l, link_id (change l) = link_id l ∧ link_target (change l) = link_target l) →
  tables_ok t → tables_ok (mutate_link id change t).2.
Proof.
  intros Hc Hok. rewrite mutate_link_run. destruct (LINKS t !! id) as [st|] eqn:Hst; [|done].
  eapply replace_link_ok; [done|done|apply Hc..].
Qed.

Lemma find_token t d id :
  tables_ok t → TOKENS t !! d = Some id →
  find (λ kv : bytes * bytes, bool_decide (kv.2 = id)) (table_iter (TOKENS t)) = Some (d, id).
Proof.
  intros Hok Hd. destruct (find _ _) as [[k v]|] eqn:Hf.
  - apply find_some in Hf as [Hin Hv]. apply list_elem_of_In, elem_of_table_iter in Hin.
    apply bool_decide_eq_true in Hv. cbn in Hv. subst v. by rewrite (ok_one_token _ Hok _ _ _ Hin Hd).
  - eapply find_none in Hf; [|apply list_elem_of_In, elem_of_table_iter, Hd]. by rewrite bool_decide_eq_true_2 in Hf.
Qed.

Lemma delete_link_run id t :
  tables_ok t →
  match LINKS t !! id with
  | None => delete_link id t = (Ok false, t)
  | Some st => ∃ d, TOKENS t !! d = Some id ∧
      delete_link id t = (Ok true, {| LINKS := delete id (LINKS t); TOKENS := delete d (TOKENS t);
                                      OBJECTS := delete (index_key (link st)) (OBJECTS t) |})
  end.
Proof.
  intros Hok. unfold delete_link, atomically, mbind, tx_bind, tx_gets, tx_modify.
  destruct (LINKS t !! id) as [st|] eqn:Hst.
  - destruct (ok_token_of _ Hok id ltac:(by eexists)) as [d Hd]. exists d. split; [done|].
    destruct (ok_ids _ Hok _ _ Hst) as (Hid & _). rewrite Hid. cbn [upd_links TOKENS].
    by rewrite (find_token _ _ _ Hok Hd).
  - cbn. f_equal. unfold upd_links. rewrite delete_id by done. by destruct t.
Qed.

Lemma delete_link_ok id t : tables_ok t → tables_ok (delete_link id t).2.
Proof.
  intros Hok. pose proof (delete_link_run id t Hok) as Hrun. destruct (LINKS t !! id) as [st|] eqn:Hst; [|by rewrite Hrun].
  destruct Hrun as (d & Hd & ->). destruct (ok_ids _ Hok _ _ Hst) as (Hid & Hlen & _). split; cbn.
  - intros id' st' [_ Hst']%lookup_delete_Some. by apply (ok_ids _ Hok).
  - intros d' id' [Hne Hd']%lookup_delete_Some. rewrite lookup_delete_is_Some.
    split; [intros <-; by apply Hne, (ok_one_token _ Hok _ _ id)|by eapply ok_tokens].
  - intros id' [Hne Hid']%lookup_delete_is_Some. apply (ok_token_of _ Hok) in Hid' as [d' Hd']. exists d'.
    rewrite lookup_delete_ne by (intros <-; congruence). done.
  - intros d1 d2 id' [_ H1]%lookup_delete_Some [_ H2]%lookup_delete_Some. by eapply ok_one_token.
  - intros k. rewrite lookup_delete_is_Some, (ok_objects _ Hok). split.
    + intros (Hne & id' & st' & Hst' & ->). exists id', st'. rewrite lookup_delete_ne; [done|]. intros <-. congruence.
    + intros (id' & st' & [Hne Hst']%lookup_delete_Some & ->). split; [|eauto].
      destruct (ok_ids _ Hok _ _ Hst') as (Hid' & Hlen' & _). intros Heq%index_key_inj; congruence.
Qed.

(** A token resolves to the stored link it was issued for, and to nothing else. *)
Lemma resolve_link_run d t :
  tables_ok t →
  resolve_link d t = Ok (TOKENS t !! d ≫= λ id, get_link id t) ∧
  (∀ l, (TOKENS t !! d ≫= λ id, get_link id t) = Some l → TOKENS t !! d = Some (link_id l)).
Proof.
  intros Hok. unfold resolve_link, lookup_token. destruct (TOKENS t !! d) as [id|] eqn:Hd; [|done].
  destruct (ok_tokens _ Hok _ _ Hd) as [st Hst]. destruct (ok_ids _ Hok _ _ Hst) as (Hid & Hlen & _).
  rewrite bool_decide_eq_true_2 by done. split; [done|]. cbn. intros l (st' & Hst' & <-)%get_link_Some. congruence.
Qed.

(** A link just created is under its identifier, its token and its object. *)
Lemma create_link_found l sealed d t :
  tables_ok t → link_ok l → LINKS t !! link_id l = None → TOKENS t !! d = None →
  let t' := (create_link l sealed d t).2 in
  LINKS t' !! link_id l = Some {| link := l; token := sealed |} ∧ TOKENS t' !! d = Some (link_id l) ∧
  resolve_link d t' = Ok (Some l) ∧
  l ∈ list_links_for_object (t_bucket_id (link_target l)) (t_key (link_target l)) t'.
Proof.
  intros Hok Hl Hfresh Hd t'. pose proof (create_link_ok l sealed d t Hok Hl Hfresh) as Hok'. fold t' in Hok'.
  assert (Hlinks : LINKS t' !! link_id l = Some {| link := l; token := sealed |}).
  { subst t'. rewrite create_link_run, Hd. cbn. by rewrite lookup_insert_eq. }
  assert (Htok : TOKENS t' !! d = Some (link_id l)).
  { subst t'. rewrite create_link_run, Hd. cbn. by rewrite lookup_insert_eq. }
  assert (Hget : get_link (link_id l) t' = Some l) by (apply get_link_Some; eauto).
  split_and!; [done|done| |].
  - destruct (resolve_link_run d t' Hok') as [-> _]. rewrite Htok. cbn. by rewrite Hget.
  - destruct Hl as [_ [Hb Hk]]. by apply elem_of_list_links_for_object.
Qed.

(** A deleted one is under none of them. *)
Lemma delete_link_gone id d t :
  tables_ok t → TOKENS t !! d = Some id →
  let t' := (delete_link id t).2 in
  resolve_link d t' = Ok None ∧
  (∀ bucket_id key l, length bucket_id = 16%nat → KEY_TERMINATOR ∉ key → link_id l = id → l ∉ list_links_for_object bucket_id key t').
Proof.
  intros Hok Hd t'. pose proof (delete_link_ok id t Hok) as Hok'. fold t' in Hok'.
  pose proof (delete_link_run id t Hok) as Hrun. destruct (ok_tokens _ Hok _ _ Hd) as [st Hst]. rewrite Hst in Hrun.
  destruct Hrun as (d' & Hd' & Hrun). rewrite (ok_one_token _ Hok _ _ _ Hd' Hd) in Hrun. subst t'. rewrite Hrun in *. split.
  - destruct (resolve_link_run d _ Hok') as [-> _]. cbn. by rewrite lookup_delete_eq.
  - intros bucket_id key l Hb Hk <- (Hin & _)%elem_of_list_links_for_object; [|done..].
    unfold get_link in Hin. cbn in Hin. by rewrite lookup_delete_eq in Hin.
Qed.
End Kind.

End CapabilityInv.
