(* ===== verification/Sharing.v ===== *)
(** * The sharing service

    [crates/record-store-sharing/src/service.rs]: creation of share and embed links
    under the deployment policy, lookup, unlocking by password, authorization of
    each delivery, revocation. The service's state is the capability store and its
    two limiters; its clock readings are arguments ([now], and [instant] for the
    monotonic clock of the limiters). *)

From S2P Require Import Prelude Bytes Text Tables Digest ObjectLock CoreTypes Auth Names Limiter Origin Capability CapabilityStore.
Import Text StdText Names Auth Origin Capability CapabilityStore.

Module Sharing.

(** What does not change while the service runs. *)
Record Config := { handle : Handle; policy : SharingPolicy; ticket_key : bytes }.

Record State := {
  store : Store;
  password_attempts : Limiter.RateLimiter (bytes * bytes);
  token_probes : Limiter.RateLimiter bytes }.

Definition upd_store f s := {| store := f (store s); password_attempts := password_attempts s; token_probes := token_probes s |}.
Definition upd_attempts f s := {| store := store s; password_attempts := f (password_attempts s); token_probes := token_probes s |}.
Definition upd_probes f s := {| store := store s; password_attempts := password_attempts s; token_probes := f (token_probes s) |}.

Abbreviation service_tx := (tx State SharingError).

Definition on_store {A} (m : store_tx A) : service_tx A := λ s,
  let '(r, d) := m (store s) in (r, upd_store (λ _, d) s).

Definition check_probe (client : bytes) (instant : Z) : service_tx Limiter.RateDecision := λ s,
  let '(decision, limiter) := Limiter.check_at client instant (token_probes s) in
  (Ok decision, upd_probes (λ _, limiter) s).
Definition check_attempt (key : bytes * bytes) (instant : Z) : service_tx Limiter.RateDecision := λ s,
  let '(decision, limiter) := Limiter.check_at key instant (password_attempts s) in
  (Ok decision, upd_attempts (λ _, limiter) s).

Definition new_service (policy_ : SharingPolicy) (store_ : Store) : State :=
  {| store := store_;
     password_attempts := Limiter.new (password_attempts_per_window policy_) (abuse_window policy_) 4096;
     token_probes := Limiter.new (token_probes_per_window policy_) (abuse_window policy_) 8192 |}.

(** What the service draws for a new link. *)
Record Drawn := { drawn_id : bytes; drawn_entropy : option bytes; drawn_salt : option bytes; drawn_nonce : option bytes }.

Section Service.
Context `{HashFunction} `{Cryptography_} `{CapabilityCrypto}.
Context (self : Config).

(** ** Creation *)

Definition validated_expiry (expires_at : option Z) (now : Z) : result SharingError (option Z) :=
  match expires_at with
  | Some expiry =>
      if expiry <=? now then Err (Invalid (str "an expiry must be in the future"))
      else match maximum_lifetime (policy self) with
      | Some maximum =>
          if now + maximum <? expiry
          then Err (PolicyRefused (str "this deployment allows a lifetime of at most " ++
                                   to_decimal (Z.quot maximum (days 1)) ++ str " days"))
          else Ok (Some expiry)
      | None => Ok (Some expiry)
      end
  | None =>
      if require_expiration (policy self)
      then Err (PolicyRefused (str "This deployment requires every link to expire"))
      else Ok None
  end.

Definition request_password (password salt : option bytes) : result SharingError (option bytes) :=
  match password with
  | Some password => hash ← create_hash password salt; Ok (Some hash)
  | None =>
      if require_share_password (policy self)
      then Err (PolicyRefused (str "This deployment requires every share link to have a password"))
      else Ok None
  end.

Definition create_share (request : CreateShareRequest) (drawn : Drawn) (now : Z) : service_tx (ShareLink * bytes) :=
  tx_guard (shares_enabled (policy self)) (PolicyRefused (str "Share links are disabled for this deployment"));;
  label ← tx_lift (validated_label (cs_label request));
  expires_at ← tx_lift (validated_expiry (cs_expires_at request) now);
  password ← tx_lift (request_password (cs_password request) (drawn_salt drawn));
  tx_guard (negb (is_some_and (cs_maximum_access_count request)
                    (λ maximum, (maximum =? 0) || (maximum_access_count (policy self) <? maximum))))
    (Invalid (str "an access limit must be between 1 and " ++ to_decimal (maximum_access_count (policy self))));;
  token_ ← tx_lift (generate (drawn_entropy drawn));
  let new_link :=
    {| sl_id := drawn_id drawn; sl_label := label;
       sl_target := {| t_bucket_id := cs_bucket_id request; t_bucket := cs_bucket request;
                       t_key := cs_key request; t_version := cs_version request |};
       sl_created_by := cs_created_by request; sl_created_at := now; sl_expires_at := expires_at;
       sl_permission := cs_permission request; sl_password := password;
       sl_maximum_access_count := cs_maximum_access_count request; sl_access_count := 0;
       sl_revoked_at := None; sl_last_accessed_at := None |} in
  on_store (CapabilityStore.create_share (handle self) new_link token_ (drawn_nonce drawn));;
  mret (new_link, token_).

Fixpoint parse_origins (origins : list bytes) : result SharingError (list bytes) :=
  match origins with
  | [] => Ok []
  | origin :: rest =>
      entry ← map_err InvalidOrigin (parse_origin origin);
      entries ← parse_origins rest;
      Ok (entry :: entries)
  end.

Definition too_many_origins : SharingError := Invalid (str "an embed may list at most 20 origins").
Definition count_origins (origins : list bytes) : Z := Z.of_nat (length origins).

Definition finish_embed (label : bytes) (request : CreateEmbedRequest) (allowed_origins : list bytes)
    (content_type : bytes) (expires_at : option Z) (drawn : Drawn) (now : Z) : service_tx (EmbedLink * bytes) :=
  token_ ← tx_lift (generate (drawn_entropy drawn));
  let new_link :=
    {| el_id := drawn_id drawn; el_label := label;
       el_target := {| t_bucket_id := ce_bucket_id request; t_bucket := ce_bucket request;
                       t_key := ce_key request; t_version := ce_version request |};
       el_created_by := ce_created_by request; el_created_at := now; el_expires_at := expires_at;
       el_allowed_origins := allowed_origins; el_disposition := ce_disposition request;
       el_content_type := content_type; el_revoked_at := None; el_last_accessed_at := None;
       el_access_count := 0; el_updated_at := None |} in
  on_store (CapabilityStore.create_embed (handle self) new_link token_ (drawn_nonce drawn));;
  mret (new_link, token_).

Definition create_embed (request : CreateEmbedRequest) (drawn : Drawn) (now : Z) : service_tx (EmbedLink * bytes) :=
  tx_guard (embeds_enabled (policy self)) (PolicyRefused (str "Embed links are disabled for this deployment"));;
  label ← tx_lift (validated_label (ce_label request));
  expires_at ← tx_lift (validated_expiry (ce_expires_at request) now);
  let content_type := default [] (ce_content_type request) in
  let kind := classify (Some content_type) in
  let refused text := tx_throw (PolicyRefused (text ++ str " Create a download embed instead.")) in
  match ce_disposition request with
  | Attachment =>
      origins ← tx_lift (parse_origins (ce_allowed_origins request));
      finish_embed label request origins (str "application/octet-stream") expires_at drawn now
  | Inline =>
      match (if allows_inline kind then canonical_content_type content_type else None) with
      | Some canonical =>
          tx_guard (count_origins (ce_allowed_origins request) <=? MAXIMUM_ALLOWED_ORIGINS) too_many_origins;;
          origins ← tx_lift (parse_origins (ce_allowed_origins request));
          finish_embed label request origins (str canonical) expires_at drawn now
      | None =>
          if bool_decide (kind = UnsafeInline)
          then refused (content_type ++ str " can carry active content and cannot be embedded inline.")
          else refused ((if bool_decide (content_type = []) then str "An object with no recorded media type"
                         else content_type) ++ str " cannot be embedded inline safely.")
      end
  end.

(** ** Access *)

Definition resolve (token_ : bytes) : service_tx (option ShareLink) := λ s,
  (resolve_share (token_digest token_) (store s), s).

(** Whether an earlier unlock of this share is proven. *)
Definition proven (l : ShareLink) (ticket : option bytes) (now : Z) : bool :=
  is_some_and ticket (λ ticket, verify_ticket (ticket_key self) ticket (sl_id l) now).

Definition look_up_share (token_ : bytes) (ticket : option bytes) (client : bytes) (now instant : Z)
    : service_tx ShareLookup :=
  found ← resolve token_;
  match found with
  | None =>
      _ ← check_probe client instant;
      mret (LookupUnavailable UnknownToken)
  | Some l =>
      let status := share_status l now in
      if negb (usable status) then mret (LookupUnavailable (NotUsable status))
      else if password_protected l && negb (proven l ticket now) then mret (LookupPasswordRequired (sl_id l))
      else mret (LookupOpen l)
  end.

Definition probe_allowance (client : bytes) (instant : Z) : service_tx Limiter.RateDecision := check_probe client instant.

Definition unlock_share (token_ password client : bytes) (now instant : Z) : service_tx (result UnlockFailure bytes) :=
  found ← resolve token_;
  match found with
  | None =>
      _ ← check_probe client instant;
      mret (Err (UnlockUnavailable UnknownToken))
  | Some l =>
      let status := share_status l now in
      if negb (usable status) then mret (Err (UnlockUnavailable (NotUsable status)))
      else match sl_password l with
      | None => mret (Err NotPasswordProtected)
      | Some hash =>
          let key := (sl_id l, client) in
          decision ← check_attempt key instant;
          match decision with
          | Limiter.Throttled retry_after_seconds => mret (Err (UnlockThrottled retry_after_seconds))
          | Limiter.Allowed =>
              if negb (verify_hash_password hash password) then mret (Err IncorrectPassword)
              else
                tx_modify (upd_attempts (Limiter.forget key));;
                mret (Ok (issue (ticket_key self) (sl_id l) (now + unlock_lifetime (policy self))))
          end
      end
  end.

(** The denial of a token that names nothing. *)
Definition unknown_token (client : bytes) (instant : Z) : service_tx AccessDenial :=
  decision ← check_probe client instant;
  mret (match decision with
        | Limiter.Throttled retry_after_seconds => AccessThrottled retry_after_seconds
        | Limiter.Allowed => AccessUnavailable UnknownToken
        end).

(** What is checked on the link as it was resolved, before the budget is touched. *)
Definition share_gate (l : ShareLink) (ticket : option bytes) (wants_download : bool) (now : Z) : option AccessDenial :=
  let status := share_status l now in
  if negb (usable status) then Some (AccessUnavailable (NotUsable status))
  else if password_protected l && negb (proven l ticket now) then Some PasswordRequired
  else if negb (if wants_download then allows_download (sl_permission l) else allows_view (sl_permission l))
  then Some NotPermitted
  else None.

Definition authorize_share_access (token_ : bytes) (ticket : option bytes) (wants_download : bool) (client : bytes)
    (now instant : Z) : service_tx (result AccessDenial ShareLink) :=
  found ← resolve token_;
  match found with
  | None => denial ← unknown_token client instant; mret (Err denial)
  | Some l =>
      match share_gate l ticket wants_download now with
      | Some denial => mret (Err denial)
      | None =>
          outcome ← on_store (consume_share_access (handle self) (sl_id l) now);
          mret (map_err AccessUnavailable outcome)
      end
  end.

Definition authorize_embed_access (token_ : bytes) (presented_origin : option bytes) (client : bytes) (now instant : Z)
    : service_tx (result AccessDenial (EmbedLink * OriginDecision)) :=
  found ← (λ s, (resolve_embed (token_digest token_) (store s), s)) : service_tx (option EmbedLink);
  match found with
  | None => denial ← unknown_token client instant; mret (Err denial)
  | Some l =>
      let status := embed_status l now in
      if negb (usable status) then mret (Err (AccessUnavailable (NotUsable status)))
      else
        let decision := evaluate_origin (el_allowed_origins l) presented_origin in
        if negb (permits_delivery decision) then mret (Err OriginNotAllowed)
        else
          on_store (record_embed_access (handle self) (el_id l) now);;
          mret (Ok (l, decision))
  end.

(** ** Administration *)

Definition revoke_share (id : bytes) (now : Z) : service_tx (option ShareLink) :=
  on_store (CapabilityStore.revoke_share id now).
Definition revoke_embed (id : bytes) (now : Z) : service_tx (option EmbedLink) :=
  on_store (CapabilityStore.revoke_embed id now).

Definition set_embed_origins (id : bytes) (origins : list bytes) (now : Z) : service_tx (option EmbedLink) :=
  tx_guard (count_origins origins <=? MAXIMUM_ALLOWED_ORIGINS) too_many_origins;;
  parsed ← tx_lift (parse_origins origins);
  on_store (CapabilityStore.set_embed_origins id parsed now).
End Service.

End Sharing.
