(* ===== verification/SharingSteps.v ===== *)
(** * Concurrent use of the sharing service

    A delivery over a share resolves the link and checks it in one read, and
    consumes its budget in a later write transaction; other deliveries,
    creations, revocations and deletions come between. [step] is one transaction
    of one of them. Beside the store a [World] has the deliveries that have passed
    their checks but not yet consumed, and the history: the deliveries granted and
    the identifiers given out. A new identifier is a fresh UUID. *)

From S2P Require Import Prelude Bytes Text Tables Digest ObjectLock CoreTypes Auth Names Limiter Origin Capability CapabilityStore CapabilityInv Sharing.
Import StdText Names Auth Capability CapabilityStore CapabilityInv Sharing.

Module SharingSteps.

(** A delivery: the link it was decided on, and the call's arguments. *)
Record Delivery := { d_link : ShareLink; d_ticket : option bytes; d_download : bool; d_now : Z }.

Record World := {
  w_store : Store; w_pending : list Delivery; w_granted : list Delivery; w_issued : gset bytes }.

Definition with_store (w : World) (d : Store) : World :=
  {| w_store := d; w_pending := w_pending w; w_granted := w_granted w; w_issued := w_issued w |}.

Definition shares (w : World) : gmap bytes (Stored ShareLink) := LINKS (SHARES_ (w_store w)).

(** How many deliveries of a share were granted. *)
Definition grants (id : bytes) (granted : list Delivery) : Z :=
  Z.of_nat (length (filter (λ g, sl_id (d_link g) = id) granted)).

Section Steps.
Context `{HashFunction} `{Cryptography_} `{CapabilityCrypto}.
Context (self : Config).

Inductive step (w : World) : World → Prop :=
  | step_begin token_ ticket wants_download now l :
      resolve_share (token_digest token_) (w_store w) = Ok (Some l) →
      share_gate self l ticket wants_download now = None →
      step w {| w_store := w_store w;
                w_pending := {| d_link := l; d_ticket := ticket; d_download := wants_download; d_now := now |} :: w_pending w;
                w_granted := w_granted w; w_issued := w_issued w |}
  | step_grant before p after l d :
      w_pending w = before ++ p :: after →
      consume_share_access (handle self) (sl_id (d_link p)) (d_now p) (w_store w) = (Ok (Ok l), d) →
      step w {| w_store := d; w_pending := before ++ after;
                w_granted := {| d_link := l; d_ticket := d_ticket p; d_download := d_download p; d_now := d_now p |} :: w_granted w;
                w_issued := w_issued w |}
  | step_refuse before p after refusal d :
      w_pending w = before ++ p :: after →
      consume_share_access (handle self) (sl_id (d_link p)) (d_now p) (w_store w) = (Ok (Err refusal), d) →
      step w {| w_store := d; w_pending := before ++ after; w_granted := w_granted w; w_issued := w_issued w |}
  | step_create request drawn now s l token_ s' :
      store s = w_store w → drawn_id drawn ∉ w_issued w → length (drawn_id drawn) = 16%nat →
      length (cs_bucket_id request) = 16%nat → KEY_TERMINATOR ∉ cs_key request →
      from_option is_u32 True (cs_maximum_access_count request) →
      create_share self request drawn now s = (Ok (l, token_), s') →
      step w {| w_store := store s'; w_pending := w_pending w; w_granted := w_granted w;
                w_issued := {[drawn_id drawn]} ∪ w_issued w |}
  | step_revoke id at_ : step w (with_store w (CapabilityStore.revoke_share id at_ (w_store w)).2)
  | step_delete id : step w (with_store w (delete_share id (w_store w)).2)
  | step_embeds A (m : tx (Tables EmbedLink) SharingError A) : step w (with_store w (on_embeds m (w_store w)).2).

(** A deployment starts without shares. *)
Definition initial (w : World) : Prop :=
  SHARES_ (w_store w) = no_tables ∧ w_pending w = [] ∧ w_granted w = [] ∧ w_issued w = ∅.

Definition reachable (w : World) : Prop := ∃ w0, initial w0 ∧ rtc step w0 w.

(** ** Invariant *)

(** What no operation changes on a share. *)
Definition same_terms (a b : ShareLink) : Prop :=
  sl_id a = sl_id b ∧ sl_target a = sl_target b ∧ sl_permission a = sl_permission b ∧
  sl_password a = sl_password b ∧ sl_expires_at a = sl_expires_at b ∧
  sl_maximum_access_count a = sl_maximum_access_count b.

#[global] Instance same_terms_equiv : Equivalence same_terms.
Proof. split; [intros a|intros a b|intros a b c]; unfold same_terms; intuition congruence. Qed.

(** What every granted delivery satisfied at its time. *)
Definition grant_ok (g : Delivery) : Prop :=
  sl_revoked_at (d_link g) = None ∧
  (∀ expiry, sl_expires_at (d_link g) = Some expiry → d_now g < expiry) ∧
  (∀ maximum, sl_maximum_access_count (d_link g) = Some maximum → sl_access_count (d_link g) ≤ maximum) ∧
  (if d_download g then allows_download (sl_permission (d_link g)) else allows_view (sl_permission (d_link g))) = true ∧
  (password_protected (d_link g) = true → proven self (d_link g) (d_ticket g) (d_now g) = true).

Record world_ok (w : World) : Prop := {
  wo_tables : tables_ok (SHARES_ (w_store w));
  wo_issued : ∀ id, is_Some (shares w !! id) → id ∈ w_issued w;
  wo_known : ∀ p, p ∈ w_pending w ∨ p ∈ w_granted w → sl_id (d_link p) ∈ w_issued w;
  wo_terms : ∀ p st, p ∈ w_pending w ∨ p ∈ w_granted w → shares w !! sl_id (d_link p) = Some st → same_terms (d_link p) (link st);
  wo_gate : ∀ p, p ∈ w_pending w → share_gate self (d_link p) (d_ticket p) (d_download p) (d_now p) = None;
  wo_count : ∀ id st maximum, shares w !! id = Some st → sl_maximum_access_count (link st) = Some maximum →
    0 ≤ maximum ≤ u32_max ∧ sl_access_count (link st) ≤ maximum ∧ grants id (w_granted w) = sl_access_count (link st);
  wo_budget : ∀ g maximum, g ∈ w_granted w → sl_maximum_access_count (d_link g) = Some maximum →
    grants (sl_id (d_link g)) (w_granted w) ≤ maximum;
  wo_sound : ∀ g, g ∈ w_granted w → grant_ok g }.

Lemma initial_ok w : initial w → world_ok w.
Proof.
  intros (Ht & Hp & Hg & Hi). assert (Hs : ∀ id, shares w !! id = None) by (intros id; unfold shares; by rewrite Ht).
  split; rewrite ?Hp, ?Hg.
  - rewrite Ht. apply no_tables_ok.
  - intros id [st Hst]. by rewrite Hs in Hst.
  - by intros p [?%not_elem_of_nil|?%not_elem_of_nil].
  - by intros p st [?%not_elem_of_nil|?%not_elem_of_nil].
  - by intros p ?%not_elem_of_nil.
  - intros id st m Hst. by rewrite Hs in Hst.
  - by intros g m ?%not_elem_of_nil.
  - by intros g ?%not_elem_of_nil.
Qed.

(** ** The transactions *)

Lemma upd_shares_self d : upd_shares (λ _, SHARES_ d) d = d.
Proof. by destruct d. Qed.

Lemma share_status_active l now :
  usable (share_status l now) = true ↔
  sl_revoked_at l = None ∧ (∀ e, sl_expires_at l = Some e → now < e) ∧
  (∀ m, sl_maximum_access_count l = Some m → sl_access_count l < m).
Proof.
  unfold share_status, is_some_and. destruct (sl_revoked_at l) as [r|]; cbn.
  { split; [done|by intros [? _]]. }
  destruct (sl_expires_at l) as [e|], (sl_maximum_access_count l) as [m|]; cbn; repeat case_match; bool_facts; cbn;
    split; try done; try naive_solver lia.
  all: intros (_ & He & Hm); try specialize (He _ eq_refl); try specialize (Hm _ eq_refl); lia.
Qed.

(** What a granted consumption did. *)
Lemma consume_granted id now d l d' :
  consume_share_access (handle self) id now d = (Ok (Ok l), d') →
  ∃ st, LINKS (SHARES_ d) !! id = Some st ∧ usable (share_status (link st) now) = true ∧ l = share_accessed now (link st) ∧
    (d' = upd_shares (upd_links <[id := {| link := l; token := token st |}]>) d ∨
     d' = d ∧ sl_maximum_access_count (link st) = None).
Proof.
  unfold consume_share_access, atomically, mbind, tx_bind, tx_gets.
  destruct (LINKS (SHARES_ d) !! id) as [st|] eqn:Hst; [|by intros [=]].
  destruct (usable (share_status (link st) now)) eqn:Hu; [|by intros [=]]. cbn [negb].
  intros Hrun. exists st. split; [done|]. split; [done|].
  destruct (bool_decide (is_Some (sl_maximum_access_count (link st)))) eqn:Hb; cbn [orb] in Hrun.
  - cbn in Hrun. injection Hrun as <- <-. split; [done|by left].
  - apply bool_decide_eq_false, eq_None_not_Some in Hb.
    destruct (is_none_or _ _); cbn in Hrun; injection Hrun as <- <-; split; try done; [by left|by right].
Qed.

Lemma consume_refused id now d refusal d' :
  consume_share_access (handle self) id now d = (Ok (Err refusal), d') → d' = d.
Proof.
  unfold consume_share_access, atomically, mbind, tx_bind, tx_gets, tx_modify, mret, tx_ret.
  repeat case_match; intros; by simplify_eq.
Qed.

Lemma share_accessed_terms now l : same_terms (share_accessed now l) l.
Proof. done. Qed.
Lemma share_revoked_terms at_ l : same_terms (share_revoked at_ l) l ∧ sl_access_count (share_revoked at_ l) = sl_access_count l.
Proof. unfold share_revoked. by case_match. Qed.

Lemma revoke_share_run id at_ d :
  (CapabilityStore.revoke_share id at_ d).2 =
  match LINKS (SHARES_ d) !! id with
  | None => d
  | Some st => upd_shares (upd_links <[id := {| link := share_revoked at_ (link st); token := token st |}]>) d
  end.
Proof.
  unfold CapabilityStore.revoke_share, mutate_share, on_shares. rewrite mutate_link_run.
  destruct (LINKS (SHARES_ d) !! id); cbn; [done|apply upd_shares_self].
Qed.

Lemma create_share_run request drawn now s l token_ s' :
  create_share self request drawn now s = (Ok (l, token_), s') →
  sl_id l = drawn_id drawn ∧ t_bucket_id (sl_target l) = cs_bucket_id request ∧ t_key (sl_target l) = cs_key request ∧
  sl_maximum_access_count l = cs_maximum_access_count request ∧ sl_access_count l = 0 ∧
  (∀ m, sl_maximum_access_count l = Some m → m ≠ 0 ∧ m ≤ maximum_access_count (policy self)) ∧
  TOKENS (SHARES_ (store s)) !! token_digest token_ = None ∧
  ∃ sealed, seal (handle self) token_ (drawn_id drawn) (drawn_nonce drawn) = Ok sealed ∧
    store s' = upd_shares (λ t, (create_link l sealed (token_digest token_) t).2) (store s).
Proof.
  unfold create_share. intros Hrun. tx_step Hrun. cbn zeta in *.
  match goal with Hs : on_store _ _ = (Ok ?u, ?s2) |- _ => unfold on_store, CapabilityStore.create_share in Hs; rename Hs into Hstore end.
  unfold mbind at 1, tx_bind at 1, tx_lift in Hstore. cbn [sl_id] in Hstore.
  destruct (seal (handle self) _ _ _) as [sealed|] eqn:Hseal; [|cbn in Hstore; discriminate].
  unfold on_shares in Hstore. rewrite create_link_run in Hstore.
  match type of Hstore with context [TOKENS ?t !! ?d] => destruct (TOKENS t !! d) eqn:Htok; [cbn in Hstore; discriminate|] end.
  injection Hstore as <- <-. cbn in Htok.
  match goal with Hl : (l, token_) = _ |- _ => injection Hl as -> -> end.
  split_and!; [done..| |done|].
  - cbn. intros m Hm. match goal with Hg : negb (is_some_and _ _) = true |- _ => rewrite Hm in Hg; cbn in Hg end. lia.
  - exists sealed. split; [done|]. unfold upd_shares. rewrite create_link_run. cbn. by rewrite Htok.
Qed.

(** ** Every step keeps the invariant *)

Lemma grants_cons id g granted :
  grants id (g :: granted) = (if decide (sl_id (d_link g) = id) then 1 else 0) + grants id granted.
Proof. unfold grants. rewrite filter_cons. case_decide; cbn [length]; lia. Qed.

Lemma grants_none id granted : (∀ g, g ∈ granted → sl_id (d_link g) ≠ id) → grants id granted = 0.
Proof.
  intros Hn. unfold grants. rewrite filter_none; [done|]. apply Forall_forall. intros g Hg. by apply Hn.
Qed.

(** Replacing a stored share by one with the same terms, count and history. *)
Lemma with_store_ok w d :
  world_ok w → tables_ok (SHARES_ d) →
  (∀ id st', LINKS (SHARES_ d) !! id = Some st' →
     ∃ st, shares w !! id = Some st ∧ same_terms (link st') (link st) ∧ sl_access_count (link st') = sl_access_count (link st)) →
  world_ok (with_store w d).
Proof.
  intros Hok Ht Hd. split; try apply Hok; [done|..].
  - intros id [st' Hst']. destruct (Hd _ _ Hst') as (st & Hst & _). apply (wo_issued _ Hok). by eexists.
  - intros p st' Hp Hst'. destruct (Hd _ _ Hst') as (st & Hst & Hsame & _).
    rewrite (wo_terms _ Hok p st Hp Hst). by symmetry.
  - intros id st' m Hst' Hm. destruct (Hd _ _ Hst') as (st & Hst & (_ & _ & _ & _ & _ & Hmax) & Hc).
    rewrite Hc. apply (wo_count _ Hok _ _ m Hst). congruence.
Qed.

Lemma step_begin_ok w token_ ticket wants_download now l :
  world_ok w → resolve_share (token_digest token_) (w_store w) = Ok (Some l) →
  share_gate self l ticket wants_download now = None →
  world_ok {| w_store := w_store w;
              w_pending := {| d_link := l; d_ticket := ticket; d_download := wants_download; d_now := now |} :: w_pending w;
              w_granted := w_granted w; w_issued := w_issued w |}.
Proof.
  intros Hok Hres Hgate. destruct (resolve_link_run (token_digest token_) _ (wo_tables _ Hok)) as [Hrun Htok].
  unfold resolve_share in Hres. rewrite Hrun in Hres. injection Hres as Hres.
  assert (Hst : ∃ st, shares w !! sl_id l = Some st ∧ link st = l).
  { specialize (Htok _ Hres). rewrite Htok in Hres. by apply get_link_Some in Hres. }
  destruct Hst as (st & Hst & Hl). split; cbn; try apply Hok.
  - intros p [[->|Hp]%elem_of_cons|Hp]; [|apply (wo_known _ Hok); by left|apply (wo_known _ Hok); by right].
    apply (wo_issued _ Hok). by eexists.
  - intros p st' [[->|Hp]%elem_of_cons|Hp] Hst'; [|apply (wo_terms _ Hok); [by left|done]|apply (wo_terms _ Hok); [by right|done]].
    cbn in Hst' |- *. unfold shares in Hst, Hst'. cbn in Hst'. rewrite Hst in Hst'. injection Hst' as <-. by rewrite Hl.
  - intros p [->|Hp]%elem_of_cons; [done|by apply (wo_gate _ Hok)].
Qed.

(** A gate passed on one reading of a share holds on any other with its terms. *)
Lemma gate_permits l ticket wants_download now :
  share_gate self l ticket wants_download now = None →
  (if wants_download then allows_download (sl_permission l) else allows_view (sl_permission l)) = true ∧
  (password_protected l = true → proven self l ticket now = true).
Proof.
  unfold share_gate. destruct (usable (share_status l now)); [|done]. cbn [negb].
  destruct (password_protected l); cbn [andb negb]; [destruct (proven self l ticket now); cbn [negb]; [|done]|].
  all: case_match eqn:Hperm; [done|]; intros _; split; [by destruct (if wants_download then _ else _)|done].
Qed.

Lemma proven_same l l' ticket now : sl_id l = sl_id l' → proven self l ticket now = proven self l' ticket now.
Proof. unfold proven. by intros ->. Qed.

Lemma grant_now w p now st :
  world_ok w → p ∈ w_pending w → shares w !! sl_id (d_link p) = Some st → d_now p = now →
  usable (share_status (link st) now) = true →
  grant_ok {| d_link := share_accessed now (link st); d_ticket := d_ticket p; d_download := d_download p; d_now := now |}.
Proof.
  intros Hok Hp Hst Hnow (Hr & He & Hm)%share_status_active.
  destruct (wo_terms _ Hok p st ltac:(by left) Hst) as (Hid & _ & Hperm & Hpass & _ & _).
  pose proof (wo_gate _ Hok p Hp) as [Hg Hpw]%gate_permits. rewrite Hnow in *.
  unfold grant_ok, password_protected in *. cbn -[proven]. rewrite <-Hperm, <-Hpass. split_and!; [done|done| |done|].
  - intros m Hmax. specialize (Hm _ Hmax). lia.
  - intros Hprot. rewrite (proven_same _ (d_link p)) by (cbn; congruence). by apply Hpw.
Qed.

(** The shares after a granted consumption: one access more on a budgeted one. *)
Lemma granted_stored w id0 now st l d :
  world_ok w → shares w !! id0 = Some st →
  (∀ m, sl_maximum_access_count (link st) = Some m → sl_access_count (link st) < m) → l = share_accessed now (link st) →
  d = upd_shares (upd_links <[id0 := {| link := l; token := token st |}]>) (w_store w) ∨
  d = w_store w ∧ sl_maximum_access_count (link st) = None →
  ∀ id st', LINKS (SHARES_ d) !! id = Some st' →
    ∃ st0, shares w !! id = Some st0 ∧ same_terms (link st') (link st0) ∧
      (∀ m, sl_maximum_access_count (link st0) = Some m →
         sl_access_count (link st') = sl_access_count (link st0) + (if decide (id = id0) then 1 else 0)).
Proof.
  intros Hok Hst Hlt Hl Hd id st' Hst'. destruct Hd as [->|[-> Hmax]].
  - cbn in Hst'. apply lookup_insert_Some in Hst' as [[<- <-]|[Hne Hst']].
    + exists st. split; [done|]. rewrite Hl. split; [apply share_accessed_terms|]. intros m Hm. rewrite decide_True by done.
      cbn. destruct (wo_count _ Hok _ _ _ Hst Hm) as (Hu32 & _ & _). specialize (Hlt _ Hm). lia.
    + exists st'. split; [done|]. split; [done|]. intros m _. rewrite decide_False by congruence. lia.
  - exists st'. split; [done|]. split; [done|]. intros m Hm. destruct (decide (id = id0)) as [->|]; [|lia].
    unfold shares in Hst. rewrite Hst in Hst'. injection Hst' as <-. congruence.
Qed.

Lemma step_grant_ok w before p after l d :
  world_ok w → w_pending w = before ++ p :: after →
  consume_share_access (handle self) (sl_id (d_link p)) (d_now p) (w_store w) = (Ok (Ok l), d) →
  world_ok {| w_store := d; w_pending := before ++ after;
              w_granted := {| d_link := l; d_ticket := d_ticket p; d_download := d_download p; d_now := d_now p |} :: w_granted w;
              w_issued := w_issued w |}.
Proof.
  intros Hok Hpend Hrun. assert (Hp : p ∈ w_pending w) by (rewrite Hpend; set_solver).
  assert (Hsub : ∀ q, q ∈ before ++ after → q ∈ w_pending w) by (intros q; rewrite Hpend; set_solver).
  apply consume_granted in Hrun as (st & Hst & Hu & Hl & Hd). fold (shares w) in Hst.
  destruct (ok_ids _ (wo_tables _ Hok) _ _ Hst) as (Hid & _ & _). cbn in Hid.
  pose proof (grant_now w p (d_now p) st Hok Hp Hst eq_refl Hu) as Hnew. rewrite <-Hl in Hnew.
  apply share_status_active in Hu as (_ & _ & Hlt).
  pose proof (granted_stored w (sl_id (d_link p)) (d_now p) st l d Hok Hst Hlt Hl Hd) as Hstored.
  assert (Ht : tables_ok (SHARES_ d)).
  { destruct Hd as [->|[-> _]]; [|apply Hok]. cbn. apply (replace_link_ok _ st); [apply Hok|done|by rewrite Hl..]. }
  assert (Hlid : sl_id l = sl_id (d_link p)) by (by rewrite Hl).
  split; cbn; [done|..].
  - intros id [st' Hst']. destruct (Hstored _ _ Hst') as (st0 & Hst0 & _). apply (wo_issued _ Hok). by eexists.
  - intros q [Hq|[->|Hq]%elem_of_cons]; [apply (wo_known _ Hok); left; by apply Hsub| |apply (wo_known _ Hok); by right].
    cbn. rewrite Hlid. apply (wo_known _ Hok). by left.
  - intros q st' Hq Hst'. destruct (Hstored _ _ Hst') as (st0 & Hst0 & Hsame & _). transitivity (link st0); [|by symmetry].
    destruct Hq as [Hq|[->|Hq]%elem_of_cons]; [apply (wo_terms _ Hok); [left; by apply Hsub|done]| |apply (wo_terms _ Hok); [by right|done]].
    cbn in Hst0 |- *. rewrite Hlid, Hst in Hst0. injection Hst0 as <-. rewrite Hl. apply share_accessed_terms.
  - intros q Hq. apply (wo_gate _ Hok). by apply Hsub.
  - intros id st' m Hst' Hm. destruct (Hstored _ _ Hst') as (st0 & Hst0 & (_ & _ & _ & _ & _ & Hmax) & Hc).
    rewrite Hmax in Hm. specialize (Hc _ Hm). destruct (wo_count _ Hok _ _ _ Hst0 Hm) as (Hu32 & Hle & Hcount).
    rewrite grants_cons, Hcount. cbn. rewrite Hlid, Hc. destruct (decide (id = sl_id (d_link p))) as [->|Hne].
    + rewrite decide_True by done. rewrite Hst in Hst0. injection Hst0 as <-. specialize (Hlt _ Hm). lia.
    + rewrite decide_False by done. lia.
  - intros g m Hg Hm. rewrite grants_cons. cbn. rewrite Hlid.
    destruct (decide (sl_id (d_link p) = sl_id (d_link g))) as [Heq|Hne].
    + assert (Hmax : sl_maximum_access_count (link st) = Some m).
      { apply elem_of_cons in Hg as [->|Hg]; [cbn in Hm; by rewrite Hl in Hm|]. rewrite <-Hm. symmetry.
        apply (wo_terms _ Hok g st); [by right|by rewrite <-Heq]. }
      destruct (wo_count _ Hok _ _ _ Hst Hmax) as (_ & _ & Hcount). rewrite <-Heq, Hcount. specialize (Hlt _ Hmax). lia.
    + apply elem_of_cons in Hg as [->|Hg]; [by cbn in Hne|]. apply (wo_budget _ Hok); done.
  - intros g [->|Hg]%elem_of_cons; [done|by apply (wo_sound _ Hok)].
Qed.

Lemma step_create_ok w request drawn now s l token_ s' :
  world_ok w → store s = w_store w → drawn_id drawn ∉ w_issued w → length (drawn_id drawn) = 16%nat →
  length (cs_bucket_id request) = 16%nat → KEY_TERMINATOR ∉ cs_key request →
  from_option is_u32 True (cs_maximum_access_count request) →
  create_share self request drawn now s = (Ok (l, token_), s') →
  world_ok {| w_store := store s'; w_pending := w_pending w; w_granted := w_granted w;
              w_issued := {[drawn_id drawn]} ∪ w_issued w |}.
Proof.
  intros Hok Hs Hfresh Hlen Hb Hk Hu Hrun. apply create_share_run in Hrun as (Hid & Htb & Htk & Hmax & Hzero & Hm & Htok & sealed & _ & ->).
  rewrite Hs in Htok |- *. assert (Hnone : shares w !! drawn_id drawn = None).
  { apply eq_None_not_Some. intros Hsome. by apply Hfresh, (wo_issued _ Hok). }
  assert (Hlinks : LINKS (SHARES_ (upd_shares (λ t, (create_link l sealed (token_digest token_) t).2) (w_store w))) =
                   <[drawn_id drawn := {| link := l; token := sealed |}]> (shares w)).
  { cbn. rewrite create_link_run, Htok. cbn. by rewrite Hid. }
  split; unfold shares; cbn -[create_link upd_shares]; rewrite ?Hlinks.
  - apply create_link_ok; [apply Hok| |cbn; by rewrite Hid].
    split; [cbn; congruence|]. split; cbn; congruence.
  - intros id. rewrite lookup_insert_is_Some'. intros [<-|Hid']; [set_solver|]. apply elem_of_union_r. by apply (wo_issued _ Hok).
  - intros p Hp. apply elem_of_union_r. by apply (wo_known _ Hok).
  - intros p st Hp Hst. rewrite lookup_insert_ne in Hst; [by apply (wo_terms _ Hok)|].
    intros Heq. apply Hfresh. rewrite Heq. by apply (wo_known _ Hok).
  - apply (wo_gate _ Hok).
  - intros id st m Hst Hmx. apply lookup_insert_Some in Hst as [[<- <-]|[_ Hst]]; [|by apply (wo_count _ Hok)].
    cbn in Hmx |- *. destruct (Hm _ Hmx) as [Hne _]. rewrite Hmax in Hmx. rewrite Hmx in Hu. cbn in Hu. unfold is_u32 in Hu.
    rewrite Hzero, grants_none; [lia|]. intros g Hg Heq. apply Hfresh. rewrite <-Heq. apply (wo_known _ Hok). by right.
  - apply (wo_budget _ Hok).
  - apply (wo_sound _ Hok).
Qed.

Lemma step_refuse_ok w before p after :
  world_ok w → w_pending w = before ++ p :: after →
  world_ok {| w_store := w_store w; w_pending := before ++ after; w_granted := w_granted w; w_issued := w_issued w |}.
Proof.
  intros Hok Hp. assert (Hsub : ∀ q, q ∈ before ++ after → q ∈ w_pending w) by (intros q; rewrite Hp; set_solver).
  destruct Hok as [Ht Hi Hk Hterms Hg Hc Hb Hs]. split; [exact Ht|exact Hi|..]; cbn [w_pending w_granted].
  - intros q [Hq|Hq]; apply Hk; [left; by apply Hsub|by right].
  - intros q st [Hq|Hq]; apply Hterms; [left; by apply Hsub|by right].
  - intros q Hq. by apply Hg, Hsub.
  - exact Hc.
  - exact Hb.
  - exact Hs.
Qed.

Lemma step_delete_ok w id : world_ok w → world_ok (with_store w (delete_share id (w_store w)).2).
Proof.
  intros Hok. unfold delete_share, on_shares. pose proof (delete_link_ok id _ (wo_tables _ Hok)) as Hok'.
  pose proof (delete_link_run id _ (wo_tables _ Hok)) as Hrun. fold (shares w) in Hrun.
  destruct (delete_link id (SHARES_ (w_store w))) as [r t]. cbn [snd] in *. apply with_store_ok; [exact Hok|exact Hok'|].
  destruct (shares w !! id) as [st|] eqn:Hst; [destruct Hrun as (d & _ & Hrun)|]; injection Hrun as -> ->; cbn [SHARES_ upd_shares LINKS].
  - intros id' st' [_ Hst']%lookup_delete_Some. exists st'. split; [exact Hst'|]. split; [reflexivity|reflexivity].
  - intros id' st' Hst'. exists st'. split; [exact Hst'|]. split; [reflexivity|reflexivity].
Qed.

Lemma step_revoke_ok w id at_ : world_ok w → world_ok (with_store w (CapabilityStore.revoke_share id at_ (w_store w)).2).
Proof.
  intros Hok. rewrite revoke_share_run. fold (shares w). destruct (shares w !! id) as [st|] eqn:Hst.
  - apply with_store_ok; [exact Hok|..]; cbn [SHARES_ upd_shares].
    + apply (replace_link_ok _ st); [apply Hok|exact Hst|..]; apply (share_revoked_terms at_ (link st)).
    + intros id' st' Hst'. cbn [LINKS upd_links] in Hst'. apply lookup_insert_Some in Hst' as [[<- <-]|[_ Hst']].
      * exists st. split; [exact Hst|]. apply share_revoked_terms.
      * exists st'. split; [exact Hst'|]. split; reflexivity.
  - by destruct w.
Qed.

Lemma step_ok w w' : world_ok w → step w w' → world_ok w'.
Proof.
  intros Hok Hstep. destruct Hstep as [| |before p after refusal d Hp Hrun| |id at_|id|A m].
  - eapply step_begin_ok; eassumption.
  - eapply step_grant_ok; eassumption.
  - apply consume_refused in Hrun as ->. eapply step_refuse_ok; eassumption.
  - eapply step_create_ok; eassumption.
  - by apply step_revoke_ok.
  - by apply step_delete_ok.
  - unfold on_embeds. destruct (m (EMBEDS_ (w_store w))) as [r t]. cbn [snd]. apply with_store_ok; [exact Hok|apply Hok|].
    intros id st Hst. exists st. split; [exact Hst|]. split; reflexivity.
Qed.

Lemma reachable_ok w : reachable w → world_ok w.
Proof.
  intros (w0 & Hw0 & Hrun). apply initial_ok in Hw0. induction Hrun as [|a b c Hab _ IH]; [done|].
  apply IH. by eapply step_ok.
Qed.

(** ** Executing the steps *)

(** A delivery resolves and checks its link, or is denied. *)
Definition begin_delivery (token_ : bytes) (ticket : option bytes) (wants_download : bool) (now : Z) (w : World) : World :=
  match resolve_share (token_digest token_) (w_store w) with
  | Ok (Some l) =>
      match share_gate self l ticket wants_download now with
      | None => {| w_store := w_store w;
                   w_pending := {| d_link := l; d_ticket := ticket; d_download := wants_download; d_now := now |} :: w_pending w;
                   w_granted := w_granted w; w_issued := w_issued w |}
      | Some _ => w
      end
  | _ => w
  end.

(** The delivery that began last consumes its budget. *)
Definition finish_delivery (w : World) : World :=
  match w_pending w with
  | [] => w
  | p :: after =>
      match consume_share_access (handle self) (sl_id (d_link p)) (d_now p) (w_store w) with
      | (Ok (Ok l), d) =>
          {| w_store := d; w_pending := after;
             w_granted := {| d_link := l; d_ticket := d_ticket p; d_download := d_download p; d_now := d_now p |} :: w_granted w;
             w_issued := w_issued w |}
      | (Ok (Err _), d) => {| w_store := d; w_pending := after; w_granted := w_granted w; w_issued := w_issued w |}
      | (Err _, _) => w
      end
  end.

Definition create_in (request : CreateShareRequest) (drawn : Drawn) (now : Z) (w : World) : World :=
  match create_share self request drawn now (new_service (policy self) (w_store w)) with
  | (Ok _, s) => {| w_store := store s; w_pending := w_pending w; w_granted := w_granted w;
                    w_issued := {[drawn_id drawn]} ∪ w_issued w |}
  | (Err _, _) => w
  end.

Lemma begin_delivery_steps token_ ticket wants_download now w : rtc step w (begin_delivery token_ ticket wants_download now w).
Proof.
  unfold begin_delivery. destruct (resolve_share _ _) as [[l|]|] eqn:Hres; [|done|done].
  destruct (share_gate _ _ _ _ _) eqn:Hg; [done|]. apply rtc_once. by eapply step_begin.
Qed.

Lemma finish_delivery_steps w : rtc step w (finish_delivery w).
Proof.
  unfold finish_delivery. destruct (w_pending w) as [|p after] eqn:Hp; [done|].
  destruct (consume_share_access _ _ _ _) as [[[l|refusal]|e] d] eqn:Hc; [| |done]; apply rtc_once.
  - by apply (step_grant w [] p after l d).
  - by apply (step_refuse w [] p after refusal d).
Qed.

Lemma create_in_steps request drawn now w :
  drawn_id drawn ∉ w_issued w → length (drawn_id drawn) = 16%nat → length (cs_bucket_id request) = 16%nat →
  KEY_TERMINATOR ∉ cs_key request → from_option is_u32 True (cs_maximum_access_count request) →
  rtc step w (create_in request drawn now w).
Proof.
  intros Hid Hlen Hb Hk Hm. unfold create_in. destruct (create_share _ _ _ _ _) as [[[l token_]|e] s] eqn:Hc; [|done].
  apply rtc_once.
  exact (step_create w request drawn now (new_service (policy self) (w_store w)) l token_ s eq_refl Hid Hlen Hb Hk Hm Hc).
Qed.
End Steps.

End SharingSteps.
