(* ===== verification/SharingTheorems.v ===== *)
(** * Properties of the sharing service

    Access limits are ceilings, revocation is final, guesses are bounded, under any
    interleaving. First comes a concrete instance of the sharing interfaces: Base64
    with the URL-safe alphabet and no padding, a signature that shows the message, a
    hash that is the password, and a small deployment, on which the theorems are
    evaluated. *)

From S2P Require Import Prelude Bytes Text Tables Digest ObjectLock CoreTypes Auth Names Limiter Origin Capability CapabilityStore CapabilityInv Sharing SharingSteps.
Import StdText Names Auth Capability CapabilityStore CapabilityInv Sharing SharingSteps.

Module SharingSamples.

(** ** Base64 *)

Definition encode6 (v : Z) : Z :=
  if v <? 26 then 65 + v else if v <? 52 then 71 + v else if v <? 62 then v - 4 else if v =? 62 then 45 else 95.
Definition decode6 (c : Z) : option Z :=
  if is_ascii_uppercase c then Some (c - 65) else if is_ascii_lowercase c then Some (c - 71)
  else if is_ascii_digit c then Some (c + 4) else if c =? 45 then Some 62 else if c =? 95 then Some 63 else None.

Fixpoint encode (l : bytes) : bytes :=
  match l with
  | a :: b :: c :: l => encode6 (a / 4) :: encode6 (a mod 4 * 16 + b / 16) :: encode6 (b mod 16 * 4 + c / 64) :: encode6 (c mod 64) :: encode l
  | [a; b] => [encode6 (a / 4); encode6 (a mod 4 * 16 + b / 16); encode6 (b mod 16 * 4)]
  | [a] => [encode6 (a / 4); encode6 (a mod 4 * 16)]
  | [] => []
  end.

Fixpoint decode (l : bytes) : option bytes :=
  match l with
  | p :: q :: r :: s :: l =>
      v ← decode6 p; w ← decode6 q; x ← decode6 r; y ← decode6 s; rest ← decode l;
      Some (v * 4 + w / 16 :: w mod 16 * 16 + x / 4 :: x mod 4 * 64 + y :: rest)
  | [p; q; r] =>
      v ← decode6 p; w ← decode6 q; x ← decode6 r;
      if x mod 4 =? 0 then Some [v * 4 + w / 16; w mod 16 * 16 + x / 4] else None
  | [p; q] => v ← decode6 p; w ← decode6 q; if w mod 16 =? 0 then Some [v * 4 + w / 16] else None
  | [_] => None
  | [] => Some []
  end.

Lemma decode6_encode6 v : 0 ≤ v < 64 → decode6 (encode6 v) = Some v.
Proof.
  intros Hv. unfold decode6, encode6, is_ascii_uppercase, is_ascii_lowercase, is_ascii_digit, Text.between.
  repeat case_match; bool_facts; try (f_equal; lia); lia.
Qed.
Lemma url_safe_encode6 v : 0 ≤ v < 64 → url_safe (encode6 v) = true.
Proof.
  intros Hv. unfold url_safe, encode6, is_ascii_alphanumeric, is_ascii_uppercase, is_ascii_lowercase, is_ascii_digit, Text.between.
  repeat case_match; lia.
Qed.

Ltac bits := unfold byte_ok in *; Z.to_euclidean_division_equations; lia.

(** Induction three bytes at a time. *)
Lemma triples (P : bytes → Prop) :
  P [] → (∀ a, byte_ok a → P [a]) → (∀ a b, byte_ok a → byte_ok b → P [a; b]) →
  (∀ a b c l, byte_ok a → byte_ok b → byte_ok c → P l → P (a :: b :: c :: l)) → ∀ l, bytes_ok l → P l.
Proof.
  intros H0 H1 H2 H3. fix IH 1. intros [|a [|b [|c l]]] Hl; [exact H0|..]; unfold bytes_ok in Hl; rewrite !Forall_cons in Hl.
  - apply H1, Hl.
  - apply H2; apply Hl.
  - apply H3; [apply Hl..|]. apply IH, Hl.
Qed.

Lemma decode_encode l : bytes_ok l → decode (encode l) = Some l.
Proof.
  revert l. apply (triples (λ l, decode (encode l) = Some l)); [done|..].
  - intros a Ha. cbn [encode decode]. rewrite !decode6_encode6 by bits. cbn [mbind option_bind].
    rewrite (proj2 (Z.eqb_eq _ 0)) by bits. do 2 f_equal. bits.
  - intros a b Ha Hb. cbn [encode decode]. rewrite !decode6_encode6 by bits. cbn [mbind option_bind].
    rewrite (proj2 (Z.eqb_eq _ 0)) by bits. f_equal. f_equal; [bits|]. f_equal. bits.
  - intros a b c l' Ha Hb Hc IH. cbn [encode decode]. rewrite !decode6_encode6 by bits. cbn [mbind option_bind]. rewrite IH.
    cbn [mbind option_bind]. f_equal. f_equal; [bits|]. f_equal; [bits|]. f_equal. bits.
Qed.

Lemma encode_alphabet l : bytes_ok l → forallb url_safe (encode l) = true.
Proof.
  revert l. apply (triples (λ l, forallb url_safe (encode l) = true)); [done|..].
  - intros a Ha. cbn [encode forallb]. by rewrite !url_safe_encode6 by bits.
  - intros a b Ha Hb. cbn [encode forallb]. by rewrite !url_safe_encode6 by bits.
  - intros a b c l' Ha Hb Hc IH. cbn [encode forallb]. rewrite !url_safe_encode6 by bits. by rewrite IH.
Qed.

Lemma encode_length l : Z.of_nat (length (encode l)) = (4 * Z.of_nat (length l) + 2) / 3.
Proof.
  revert l. fix IH 1. intros [|a [|b [|c l]]]; [done..|]. cbn [encode length]. rewrite !Nat2Z.inj_succ, (IH l). bits.
Qed.

(** ** The instances *)

Definition show_message (msg : bytes) : bytes := take 32 (((λ b, b mod 256) <$> msg) ++ replicate 32 0).

#[export] Instance sample_crypto : CapabilityCrypto :=
  {| base64_encode := encode; base64_decode := decode;
     hmac_sha256 key msg := show_message msg;
     hash_password password salt := Some password; verify_password hash password := bool_decide (hash = password) |}.

#[export] Instance sample_crypto_laws : CapabilityCryptoLaws.
Proof.
  split; cbn -[show_message].
  - exact decode_encode.
  - exact encode_length.
  - exact encode_alphabet.
  - intros _ msg. unfold show_message. split; [rewrite length_take, length_app, length_replicate; lia|].
    apply Forall_take, Forall_app. split; [|apply Forall_replicate; unfold byte_ok; lia].
    apply Forall_fmap, Forall_forall. intros b _. cbn. apply Z.mod_pos_bound. lia.
  - intros password salt hash [= <-]. by apply bool_decide_eq_true.
Qed.

#[export] Instance sharing_cipher : Cryptography_ := {|
  aead_encrypt _ _ aad text := Some (aad ++ text); aead_decrypt _ _ aad sealed := Some (drop (length aad) sealed);
  hkdf_expand _ material _ := Some material |}.
#[export] Instance sharing_cipher_laws : CryptographyLaws.
Proof. split. cbn. intros key nonce aad text sealed [= <-]. by rewrite drop_app_length. Qed.

#[export] Existing Instance sha256_function.

(** ** A deployment *)

Definition sample_config : Config :=
  {| handle := {| encryption_key := [1]; telemetry_interval := seconds 60 |}; policy := default_policy; ticket_key := [2] |}.

Definition empty_sharing : Store := {| SHARES_ := no_tables; EMBEDS_ := no_tables; SCHEMA := Some 1 |}.
Definition first_world : World := {| w_store := empty_sharing; w_pending := []; w_granted := []; w_issued := ∅ |}.

Definition uuid (n : Z) : bytes := replicate 15 0 ++ [n].
Definition draw (n : Z) : Drawn :=
  {| drawn_id := uuid n; drawn_entropy := Some (replicate 32 n); drawn_salt := Some [n]; drawn_nonce := Some [n] |}.
Definition sample_token (n : Z) : bytes := encode (replicate 32 n).

(** A share of one object, with a password and two deliveries. *)
Definition sample_share : CreateShareRequest :=
  {| cs_label := str " Board review "; cs_bucket_id := uuid 7; cs_bucket := str "reports"; cs_key := str "q1/summary.pdf";
     cs_version := FollowCurrent; cs_permission := ViewAndDownload; cs_expires_at := Some (seconds 3600);
     cs_password := Some (str "open sesame"); cs_maximum_access_count := Some 2; cs_created_by := str "admin" |}.

Definition shared : World := create_in sample_config sample_share (draw 1) (seconds 10) first_world.
Definition sample_ticket : bytes := issue [2] (uuid 1) (seconds 1000).

(** A delivery from check to consumption. *)
Definition deliver (now : Z) (w : World) : World :=
  finish_delivery sample_config (begin_delivery sample_config (sample_token 1) (Some sample_ticket) true now w).

Lemma shared_reachable : reachable sample_config shared.
Proof.
  exists first_world. split; [done|]. apply create_in_steps.
  - cbn. apply not_elem_of_empty.
  - done.
  - done.
  - apply contains_false. reflexivity.
  - cbn. unfold is_u32, u32_max. lia.
Qed.

Lemma deliver_steps now w : rtc (step sample_config) w (deliver now w).
Proof. unfold deliver. etrans; [apply begin_delivery_steps|apply finish_delivery_steps]. Qed.

Lemma deliver_reachable now w : reachable sample_config w → reachable sample_config (deliver now w).
Proof. intros (w0 & Hw0 & Hrun). exists w0. split; [done|]. etrans; [exact Hrun|apply deliver_steps]. Qed.

Lemma begin_reachable token_ ticket wants_download now w :
  reachable sample_config w → reachable sample_config (begin_delivery sample_config token_ ticket wants_download now w).
Proof. intros (w0 & Hw0 & Hrun). exists w0. split; [done|]. etrans; [exact Hrun|apply begin_delivery_steps]. Qed.

End SharingSamples.

(** * Theorems on sharing

    Access budgets are ceilings and revocation is final under any interleaving of
    deliveries with administration ([SharingSteps]); one call of the service is
    such an interleaving; a created link can be found by its token, listed under
    its object, shown again and deleted; tickets, origins and password guesses. *)

Import StdText Names Auth Origin Capability CapabilityStore CapabilityInv Sharing SharingSteps.

Module SharingTheorems.

(** ** Withdrawal *)

Section Withdrawal.
Context `{HashFunction} `{Cryptography_} `{CapabilityCrypto}.
Context (self : Config).

(** A share that was given out and is now deleted or revoked. *)
Definition withdrawn (w : World) (id : bytes) : Prop :=
  id ∈ w_issued w ∧ ∀ st, shares w !! id = Some st → is_Some (sl_revoked_at (link st)).

Lemma withdrawn_not_usable w id st now :
  withdrawn w id → shares w !! id = Some st → usable (share_status (link st) now) = false.
Proof.
  intros [_ Hr] Hst. apply not_true_iff_false. intros (Hn & _)%share_status_active.
  destruct (Hr _ Hst) as [r Hr']. congruence.
Qed.

Lemma withdrawn_step w w' id :
  world_ok self w → withdrawn w id → step self w w' → withdrawn w' id ∧ grants id (w_granted w') = grants id (w_granted w).
Proof.
  intros Hok Hw Hstep.
  destruct Hstep as [| before p after l d Hp Hrun|before p after refusal d Hp Hrun
                    |request drawn now s l token_ s' Hs Hfresh _ _ _ _ Hrun|id' at_|id'|A m].
  - done.
  - apply consume_granted in Hrun as (st & Hst & Hu & -> & Hd). fold (shares w) in Hst.
    assert (Hne : sl_id (d_link p) ≠ id) by (intros <-; by rewrite (withdrawn_not_usable w (sl_id (d_link p)) st) in Hu).
    destruct (ok_ids _ (wo_tables _ _ Hok) _ _ Hst) as (Hid & _). cbn in Hid. split.
    + split; [apply Hw|]. intros st' Hst'. apply (proj2 Hw). destruct Hd as [->|[-> _]]; [|exact Hst'].
      unfold shares in *. cbn in Hst'. by rewrite lookup_insert_ne in Hst' by done.
    + cbn. rewrite grants_cons. cbn. rewrite decide_False by congruence. done.
  - by apply consume_refused in Hrun as ->.
  - apply create_share_run in Hrun as (Hid & _ & _ & _ & _ & _ & Htok & sealed & _ & ->). rewrite Hs in *. split; [|done].
    split; [apply elem_of_union_r, Hw|]. intros st Hst. apply (proj2 Hw). unfold shares in *. cbn in Hst.
    rewrite create_link_run, Htok in Hst. cbn in Hst. rewrite lookup_insert_ne in Hst; [exact Hst|].
    intros Heq. apply Hfresh. rewrite <-Hid, Heq. apply Hw.
  - split; [|done]. split; [apply Hw|]. intros st. unfold shares. cbn. rewrite revoke_share_run. fold (shares w).
    destruct (shares w !! id') as [st'|] eqn:Hst'; [|apply Hw]. cbn. rewrite lookup_insert_Some.
    intros [[<- <-]|[_ Hst]]; [|by apply (proj2 Hw)]. cbn. unfold share_revoked. case_bool_decide; [by eexists|].
    by apply (proj2 Hw).
  - split; [|done]. split; [apply Hw|]. intros st Hst. apply (proj2 Hw). unfold shares in *. cbn in Hst.
    unfold delete_share, on_shares in Hst. pose proof (delete_link_run id' _ (wo_tables _ _ Hok)) as Hrun.
    destruct (LINKS (SHARES_ (w_store w)) !! id') as [st'|]; [destruct Hrun as (d & _ & Hrun)|]; rewrite Hrun in Hst; cbn in Hst; [|done].
    by apply lookup_delete_Some in Hst as [_ Hst].
  - split; [|done]. split; [apply Hw|]. intros st Hst. apply (proj2 Hw). unfold shares, on_embeds in *.
    destruct (m (EMBEDS_ (w_store w))). exact Hst.
Qed.

Lemma withdrawn_steps w w' id :
  world_ok self w → withdrawn w id → rtc (step self) w w' → grants id (w_granted w') = grants id (w_granted w).
Proof.
  intros Hok Hw Hrun. induction Hrun as [|a b c Hab _ IH]; [done|].
  destruct (withdrawn_step _ _ _ Hok Hw Hab) as [Hw' Heq]. rewrite <-Heq. apply IH; [by eapply step_ok|exact Hw'].
Qed.

Lemma revoked_withdrawn w id at_ :
  world_ok self w → is_Some (shares w !! id) → withdrawn (with_store w (CapabilityStore.revoke_share id at_ (w_store w)).2) id.
Proof.
  intros Hok [st Hst]. split; [apply (wo_issued _ _ Hok); by eexists|]. intros st'. unfold shares. cbn.
  rewrite revoke_share_run. fold (shares w). rewrite Hst. cbn. rewrite lookup_insert_eq. intros [= <-]. cbn.
  unfold share_revoked. case_bool_decide as Hn; [by eexists|]. by destruct (sl_revoked_at (link st)).
Qed.

Lemma deleted_withdrawn w id :
  world_ok self w → is_Some (shares w !! id) → withdrawn (with_store w (delete_share id (w_store w)).2) id.
Proof.
  intros Hok [st Hst]. split; [apply (wo_issued _ _ Hok); by eexists|]. intros st'. unfold shares. cbn.
  unfold delete_share, on_shares. pose proof (delete_link_run id _ (wo_tables _ _ Hok)) as Hrun.
  fold (shares w) in Hrun. rewrite Hst in Hrun. destruct Hrun as (d & _ & ->). cbn. by rewrite lookup_delete_eq.
Qed.

(** C24: An access limit is a ceiling: however deliveries, creations, revocations and
    deletions interleave, a share with a limit is delivered at most that often,
    and every delivery was made before the expiry, under the share's permission,
    and with the password proven where there is one. *)
Theorem share_budget_is_ceiling w :
  reachable self w →
  (∀ g maximum, g ∈ w_granted w → sl_maximum_access_count (d_link g) = Some maximum →
     grants (sl_id (d_link g)) (w_granted w) ≤ maximum) ∧
  (∀ g, g ∈ w_granted w → grant_ok self g).
Proof. intros Hok%reachable_ok. split; [apply (wo_budget _ _ Hok)|apply (wo_sound _ _ Hok)]. Qed.

(** C25: Once a share is revoked or deleted it is never delivered again, not even by
    a request that had passed all its checks before. *)
Theorem revocation_is_final w id at_ w' :
  reachable self w → is_Some (shares w !! id) →
  rtc (step self) (with_store w (CapabilityStore.revoke_share id at_ (w_store w)).2) w' ∨
  rtc (step self) (with_store w (delete_share id (w_store w)).2) w' →
  grants id (w_granted w') = grants id (w_granted w).
Proof.
  intros Hok%reachable_ok Hsome [Hrun|Hrun].
  - apply (withdrawn_steps _ _ id) in Hrun; [exact Hrun|by apply step_revoke_ok|by apply revoked_withdrawn].
  - apply (withdrawn_steps _ _ id) in Hrun; [exact Hrun|by apply step_delete_ok|by apply deleted_withdrawn].
Qed.

(** ** One call is two steps *)

Lemma on_store_run {A} (m : store_tx A) s : on_store m s = ((m (store s)).1, upd_store (λ _, (m (store s)).2) s).
Proof. unfold on_store. by destruct (m (store s)). Qed.

(** A call of the service that is granted is a check and a consumption with
    nothing between; refused calls leave the store as it is. *)
Theorem authorize_is_two_steps token_ ticket wants_download client now instant s outcome s' w :
  authorize_share_access self token_ ticket wants_download client now instant s = (Ok outcome, s') → store s = w_store w →
  match outcome with
  | Ok l => ∃ w', rtc (step self) w w' ∧ w_store w' = store s' ∧ w_pending w' = w_pending w ∧ w_issued w' = w_issued w ∧
      w_granted w' = {| d_link := l; d_ticket := ticket; d_download := wants_download; d_now := now |} :: w_granted w
  | Err _ => store s' = store s
  end.
Proof.
  intros Hrun Hs. unfold authorize_share_access, resolve in Hrun. unfold mbind at 1, tx_bind at 1 in Hrun.
  destruct (resolve_share (token_digest token_) (store s)) as [[l|]|] eqn:Hres; [| |discriminate].
  - destruct (share_gate self l ticket wants_download now) as [denial|] eqn:Hgate.
    { apply tx_ret_ok in Hrun as [-> ->]. done. }
    apply tx_bind_ok in Hrun as (result & s1 & Hc & Hret). apply tx_ret_ok in Hret as [-> ->].
    rewrite on_store_run in Hc. injection Hc as Hc <-. rewrite Hs in Hres.
    destruct (consume_share_access (handle self) (sl_id l) now (store s)) as [r d] eqn:Hcons. cbn [fst] in Hc. subst r.
    destruct result as [l'|refusal]; cbn [map_err].
    + eexists. split; [|split; [|split; [|split]]].
      * eapply rtc_l; [by eapply step_begin|]. eapply rtc_once. eapply (step_grant _ _ []); [reflexivity|].
        cbn. rewrite <-Hs. exact Hcons.
      * done.
      * done.
      * done.
      * done.
    + by apply consume_refused in Hcons as ->.
  - apply tx_bind_ok in Hrun as (denial & s1 & Hu & Hret). apply tx_ret_ok in Hret as [-> ->].
    unfold unknown_token, check_probe in Hu. apply tx_bind_ok in Hu as (decision & s2 & Hp & Hret).
    destruct (Limiter.check_at client instant (token_probes s)). apply tx_ret_ok in Hret as [_ ->]. by injection Hp as _ <-.
Qed.
End Withdrawal.

(** ** Creation, lookup, deletion *)

Section Lookup.
Context `{HashFunction} `{CryptographyLaws} `{CapabilityCryptoLaws}.
Context (self : Config).

Lemma generated_parses raw : length raw = 32%nat → bytes_ok raw → parse_token (base64_encode raw) = Some (base64_encode raw).
Proof.
  intros Hlen Hraw. unfold parse_token. pose proof (base64_length raw) as Hb. rewrite Hlen in Hb.
  change ((4 * Z.of_nat 32 + 2) / 3) with 43 in Hb.
  rewrite (proj2 (Z.eqb_eq (len (base64_encode raw)) TOKEN_TEXT_LENGTH)) by exact Hb.
  by rewrite base64_alphabet.
Qed.

Lemma url_safe_utf8 token_ : forallb url_safe token_ = true → Text.utf8_valid token_ = true.
Proof.
  intros Hs. apply Text.utf8_valid_ascii, Forall_forall. intros b Hb%list_elem_of_In.
  rewrite forallb_forall in Hs. specialize (Hs _ Hb). unfold Text.ascii.
  unfold url_safe, is_ascii_alphanumeric, is_ascii_digit, is_ascii_lowercase, is_ascii_uppercase, Text.between in Hs. lia.
Qed.

Lemma unseal_seal token_ id nonce sealed :
  seal self.(handle) token_ id nonce = Ok sealed → parse_token token_ = Some token_ → Text.utf8_valid token_ = true →
  unseal sealed id (encryption_key (handle self)) = Some token_.
Proof.
  unfold seal. destruct nonce as [nonce|]; [|done]. cbn. destruct (aead_encrypt _ _ _ _) as [c|] eqn:Henc; [|done].
  cbn. intros [= <-] Hparse Hutf. unfold unseal. cbn. rewrite (decrypt_encrypt _ _ _ _ _ Henc). cbn. by rewrite Hutf.
Qed.

Lemma create_share_generated request drawn now s l token_ s' :
  create_share self request drawn now s = (Ok (l, token_), s') → ∃ raw, drawn_entropy drawn = Some raw ∧ token_ = base64_encode raw.
Proof.
  unfold create_share. intros Hrun. tx_step Hrun. cbn zeta in *.
  match goal with Hl : (l, token_) = _ |- _ => injection Hl as -> -> end.
  match goal with Hg : generate _ = Ok _ |- _ => unfold generate in Hg; rename Hg into Hgen end.
  destruct (drawn_entropy drawn) as [raw|]; [|done]. exists raw. split; [done|]. by injection Hgen.
Qed.

(** A new share is found by its token, listed under its object, and its link can
    be shown again; deleted, its token resolves to nothing and it is listed
    nowhere. *)
Theorem share_link_roundtrip request drawn raw now s l token_ s' :
  tables_ok (SHARES_ (store s)) → LINKS (SHARES_ (store s)) !! drawn_id drawn = None →
  length (drawn_id drawn) = 16%nat → length (cs_bucket_id request) = 16%nat → KEY_TERMINATOR ∉ cs_key request →
  drawn_entropy drawn = Some raw → length raw = 32%nat → bytes_ok raw →
  create_share self request drawn now s = (Ok (l, token_), s') →
  let deleted := (delete_share (sl_id l) (store s')).2 in
  parse_token token_ = Some token_ ∧
  resolve_share (token_digest token_) (store s') = Ok (Some l) ∧
  l ∈ list_shares_for_object (cs_bucket_id request) (cs_key request) (store s') ∧
  reveal_share_token (handle self) (sl_id l) (store s') = Some token_ ∧
  resolve_share (token_digest token_) deleted = Ok None ∧
  (∀ bucket_id key, length bucket_id = 16%nat → KEY_TERMINATOR ∉ key → l ∉ list_shares_for_object bucket_id key deleted).
Proof.
  intros Hok Hfresh Hid16 Hb Hk Hraw Hlen Hbytes Hrun.
  destruct (create_share_generated _ _ _ _ _ _ _ Hrun) as (raw' & Hraw' & Htok). rewrite Hraw in Hraw'. injection Hraw' as <-.
  apply create_share_run in Hrun as (Hid & Htb & Htk & _ & _ & _ & Hnone & sealed & Hseal & Hs').
  assert (Hlok : link_ok l) by (split; [cbn; congruence|split; cbn; congruence]).
  pose proof (create_link_ok l sealed (token_digest token_) _ Hok Hlok ltac:(cbn; by rewrite Hid)) as Hok'.
  destruct (create_link_found l sealed (token_digest token_) _ Hok Hlok ltac:(cbn; by rewrite Hid) Hnone) as (Hlinks & Htl & Hres & Hin).
  destruct (delete_link_gone _ _ _ Hok' Htl) as [Hgone Hnot].
  assert (Hparse : parse_token token_ = Some token_) by (rewrite Htok; by apply generated_parses).
  rewrite Hs'. cbn zeta. unfold resolve_share, list_shares_for_object, reveal_share_token, delete_share, on_shares.
  cbn [SHARES_ upd_shares] in *.
  destruct (create_link l sealed (token_digest token_) (SHARES_ (store s))) as [r t]. cbn [snd] in *. cbn [link_id share_is_link] in *.
  destruct (delete_link (sl_id l) t) as [r' t']. cbn [snd] in *. split_and!; [exact Hparse|exact Hres| | |exact Hgone|].
  - rewrite <-Htb, <-Htk. exact Hin.
  - rewrite Hlinks. cbn [mbind option_bind token]. rewrite Hid.
    apply (unseal_seal _ _ (drawn_nonce drawn)); [exact Hseal|exact Hparse|]. rewrite Htok. by apply url_safe_utf8, base64_alphabet.
  - intros bucket_id key Hb' Hk'. by apply Hnot.
Qed.

(** In every reachable state the shares listed for an object are exactly the
    stored shares of that object, each once, newest first. *)
Theorem share_listing_exact w bucket_id key :
  reachable self w → length bucket_id = 16%nat → KEY_TERMINATOR ∉ key →
  let listed := list_shares_for_object bucket_id key (w_store w) in
  (∀ l, l ∈ listed ↔ get_share (sl_id l) (w_store w) = Some l ∧
                     t_bucket_id (sl_target l) = bucket_id ∧ t_key (sl_target l) = key) ∧
  NoDup (sl_id <$> listed) ∧ StronglySorted (λ a b, sl_created_at b ≤ sl_created_at a) listed.
Proof.
  intros Hok%reachable_ok Hb Hk listed. pose proof (wo_tables _ _ Hok) as Ht. split_and!.
  - intros l. exact (elem_of_list_links_for_object _ bucket_id key l Ht Hb Hk).
  - exact (NoDup_list_links_for_object _ bucket_id key Ht).
  - unfold listed, list_shares_for_object, list_links_for_object. exact (newest_first_sorted (L := ShareLink) _).
Qed.
End Lookup.

(** ** Unlocking *)

Section Unlocking.
Context `{HashFunction} `{Cryptography_} `{CapabilityCryptoLaws}.
Context (self : Config).

(** The cases of an unlock, by the link its token resolves to. *)
Lemma unlock_share_run token_ password client now instant s :
  unlock_share self token_ password client now instant s =
  match resolve_share (token_digest token_) (store s) with
  | Err e => (Err e, s)
  | Ok None => (Ok (Err (UnlockUnavailable UnknownToken)),
                upd_probes (λ _, (Limiter.check_at client instant (token_probes s)).2) s)
  | Ok (Some l) =>
      if negb (usable (share_status l now)) then (Ok (Err (UnlockUnavailable (NotUsable (share_status l now)))), s)
      else match sl_password l with
      | None => (Ok (Err NotPasswordProtected), s)
      | Some hash =>
          let '(decision, limiter) := Limiter.check_at (sl_id l, client) instant (password_attempts s) in
          match decision with
          | Limiter.Throttled r => (Ok (Err (UnlockThrottled r)), upd_attempts (λ _, limiter) s)
          | Limiter.Allowed =>
              if negb (verify_hash_password hash password) then (Ok (Err IncorrectPassword), upd_attempts (λ _, limiter) s)
              else (Ok (Ok (issue (ticket_key self) (sl_id l) (now + unlock_lifetime (policy self)))),
                    upd_attempts (λ _, Limiter.forget (sl_id l, client) limiter) s)
          end
      end
  end.
Proof.
  unfold unlock_share, resolve, check_probe, check_attempt, mbind, tx_bind, mret, tx_ret.
  destruct (resolve_share _ _) as [[l|]|]; [| |done].
  - destruct (usable _); [cbn [negb]|done]. destruct (sl_password l) as [hash|]; [|done].
    destruct (Limiter.check_at _ _ _) as [[|r] limiter]; [|done]. by destruct (verify_hash_password hash password).
  - by destruct (Limiter.check_at _ _ _).
Qed.

(** A ticket is handed out only for the right password of a usable share, proves
    the unlock of that share exactly until its lifetime is over, and proves
    nothing of another share whose signature differs. *)
Theorem ticket_proves_one_share token_ password client now instant s ticket s' other later :
  unlock_share self token_ password client now instant s = (Ok (Ok ticket), s') →
  is_i64 (timestamp (now + unlock_lifetime (policy self))) →
  ∃ l hash, resolve_share (token_digest token_) (store s) = Ok (Some l) ∧ usable (share_status l now) = true ∧
    sl_password l = Some hash ∧ verify_hash_password hash password = true ∧
    verify_ticket (ticket_key self) ticket (sl_id l) later =
      (timestamp later <? timestamp (now + unlock_lifetime (policy self))) ∧
    (sign (ticket_key self) other (timestamp (now + unlock_lifetime (policy self))) ≠
     sign (ticket_key self) (sl_id l) (timestamp (now + unlock_lifetime (policy self))) →
     verify_ticket (ticket_key self) ticket other later = false).
Proof.
  intros Hrun Hi. rewrite unlock_share_run in Hrun.
  destruct (resolve_share _ _) as [[l|]|] eqn:Hres; [|discriminate|discriminate].
  destruct (usable (share_status l now)) eqn:Hu; [cbn [negb] in Hrun|discriminate].
  destruct (sl_password l) as [hash|] eqn:Hpw; [|discriminate].
  destruct (Limiter.check_at _ _ _) as [[|r] limiter]; [|discriminate].
  destruct (verify_hash_password hash password) eqn:Hv; [cbn [negb] in Hrun|discriminate].
  injection Hrun as <- <-. exists l, hash. split_and!; [done..|by apply verify_issue|].
  intros Hdiff. apply not_true_iff_false. intros (expiry & text & tag & Heq & Hparse & _ & Hdec)%verify_ticket_sound.
  unfold issue in Heq. set (until := timestamp _) in *. set (tag' := base64_encode _) in Heq.
  rewrite (split_once_first 46 (to_decimal until) tag' (digits_dot until) : split_once (str ".") (_ ++ str "." ++ _) = _) in Heq.
  injection Heq as <- <-. rewrite parse_i64_decimal in Hparse by done. injection Hparse as <-.
  destruct (hmac_ok (ticket_key self) (sl_id l ++ str "." ++ to_decimal until)) as [_ Hok].
  unfold tag' in Hdec. rewrite base64_decode_encode in Hdec by exact Hok. injection Hdec as Hdec. by apply Hdiff.
Qed.

(** *** Guessing a password *)

(** A call of [unlock_share], with the store it finds: other requests change it. *)
Record Attempt := { a_store : Store; a_token : bytes; a_password : bytes; a_client : bytes; a_now : Z; a_instant : Z }.

Definition attempt (a : Attempt) (s : State) : result SharingError (result UnlockFailure bytes) * State :=
  unlock_share self (a_token a) (a_password a) (a_client a) (a_now a) (a_instant a) (upd_store (λ _, a_store a) s).

Fixpoint attempts (l : list Attempt) (s : State) : list (result SharingError (result UnlockFailure bytes)) * State :=
  match l with
  | [] => ([], s)
  | a :: l => let '(r, s) := attempt a s in let '(rs, s) := attempts l s in (r :: rs, s)
  end.

(** The key an attempt is counted under. *)
Definition attempt_key (a : Attempt) : option (bytes * bytes) :=
  match resolve_share (token_digest (a_token a)) (a_store a) with
  | Ok (Some l) => Some (sl_id l, a_client a)
  | _ => None
  end.

(** The wrong guesses against a key at instants from [lo] up to before [hi]. *)
Fixpoint wrong_guesses (key : bytes * bytes) (lo hi : Z) (l : list Attempt)
    (rs : list (result SharingError (result UnlockFailure bytes))) : Z :=
  match l, rs with
  | a :: l, Ok (Err IncorrectPassword) :: rs =>
      (if bool_decide (attempt_key a = Some key) && (lo <=? a_instant a) && (a_instant a <? hi) then 1 else 0) +
      wrong_guesses key lo hi l rs
  | _ :: l, _ :: rs => wrong_guesses key lo hi l rs
  | _, _ => 0
  end.

Fixpoint instants_from (from : Z) (l : list Attempt) : Prop :=
  match l with [] => True | a :: l => from ≤ a_instant a ∧ instants_from (a_instant a) l end.

(** None of the attempts opened the share for the client. *)
Fixpoint never_unlocked (key : bytes * bytes) (l : list Attempt) (rs : list (result SharingError (result UnlockFailure bytes))) : Prop :=
  match l, rs with
  | a :: l, r :: rs => (attempt_key a = Some key → ∀ ticket, r ≠ Ok (Ok ticket)) ∧ never_unlocked key l rs
  | _, _ => True
  end.

(** What an attempt does to the limiter of guesses. *)
Lemma attempt_calls a s r s' key lo hi from :
  attempt a s = (r, s') → from ≤ a_instant a → (attempt_key a = Some key → ∀ ticket, r ≠ Ok (Ok ticket)) →
  ∃ cs, password_attempts s' = (Limiter.calls cs (password_attempts s)).2 ∧
    (∀ tail, Limiter.monotone (a_instant a) tail → Limiter.monotone from (cs ++ tail)) ∧ Limiter.Forget key ∉ cs ∧
    wrong_guesses key lo hi [a] [r] = Limiter.let_through key lo hi cs (Limiter.calls cs (password_attempts s)).1.
Proof.
  unfold attempt. rewrite unlock_share_run. cbn [store upd_store password_attempts token_probes]. unfold wrong_guesses, attempt_key.
  assert (Hidle : from ≤ a_instant a →
    ∃ cs : list (Limiter.Call (bytes * bytes)), password_attempts s = (Limiter.calls cs (password_attempts s)).2 ∧
      (∀ tail, Limiter.monotone (a_instant a) tail → Limiter.monotone from (cs ++ tail)) ∧ Limiter.Forget key ∉ cs ∧
      0 = Limiter.let_through key lo hi cs (Limiter.calls cs (password_attempts s)).1).
  { intros Hfrom. exists []. split_and!; [done| |apply not_elem_of_nil|done]. intros tail. by apply Limiter.monotone_weaken. }
  destruct (resolve_share _ _) as [[l|]|] eqn:Hres; intros Hrun Hfrom Hno.
  2, 3: injection Hrun as <- <-; exact (Hidle Hfrom).
  destruct (usable _); [cbn [negb] in Hrun|injection Hrun as <- <-; exact (Hidle Hfrom)].
  destruct (sl_password l) as [hash|]; [|injection Hrun as <- <-; exact (Hidle Hfrom)].
  destruct (Limiter.check_at (sl_id l, a_client a) (a_instant a) (password_attempts s)) as [decision limiter] eqn:Hc.
  destruct decision as [|retry].
  - destruct (verify_hash_password hash (a_password a)); cbn [negb] in Hrun; injection Hrun as <- <-.
    + assert (Hne : (sl_id l, a_client a) ≠ key) by (intros <-; by eapply Hno).
      exists [Limiter.Check (sl_id l, a_client a) (a_instant a); Limiter.Forget (sl_id l, a_client a)].
      cbn [Limiter.calls Limiter.call]. rewrite Hc. split_and!; [done|by intros|rewrite !not_elem_of_cons; split_and!; [done|congruence|apply not_elem_of_nil]|].
      cbn. by rewrite bool_decide_eq_false_2.
    + exists [Limiter.Check (sl_id l, a_client a) (a_instant a)]. cbn [Limiter.calls Limiter.call]. rewrite Hc.
      split_and!; [done|by intros|rewrite !not_elem_of_cons; split_and!; [done|apply not_elem_of_nil]|].
      cbn. destruct (decide ((sl_id l, a_client a) = key)) as [->|Hne].
      * by rewrite !bool_decide_eq_true_2.
      * by rewrite !bool_decide_eq_false_2 by congruence.
  - injection Hrun as <- <-. exists [Limiter.Check (sl_id l, a_client a) (a_instant a)]. cbn [Limiter.calls Limiter.call]. rewrite Hc.
    split_and!; [done|by intros|rewrite !not_elem_of_cons; split_and!; [done|apply not_elem_of_nil]|done].
Qed.

Lemma wrong_guesses_cons key lo hi a r l rs :
  wrong_guesses key lo hi (a :: l) (r :: rs) = wrong_guesses key lo hi [a] [r] + wrong_guesses key lo hi l rs.
Proof. cbn. repeat case_match; lia. Qed.

Lemma attempts_calls l s key lo hi from :
  instants_from from l → never_unlocked key l (attempts l s).1 →
  ∃ cs, Limiter.monotone from cs ∧ Limiter.Forget key ∉ cs ∧
    wrong_guesses key lo hi l (attempts l s).1 = Limiter.let_through key lo hi cs (Limiter.calls cs (password_attempts s)).1.
Proof.
  revert s from. induction l as [|a l IH]; intros s from Hm Hno.
  { exists []. split_and!; [done|apply not_elem_of_nil|done]. }
  destruct Hm as [Hfrom Hm]. cbn [attempts] in Hno |- *. destruct (attempt a s) as [r s1] eqn:Ha.
  destruct (attempts l s1) as [rs s2] eqn:Hl. cbn [fst never_unlocked] in Hno |- *. destruct Hno as [Hr Hno].
  destruct (attempt_calls _ _ _ _ key lo hi from Ha Hfrom Hr) as (cs & Hs1 & Hmono & Hf & Hw).
  specialize (IH s1 _ Hm). rewrite Hl in IH. destruct (IH Hno) as (cs' & Hm' & Hf' & Hw'). exists (cs ++ cs').
  split_and!; [by apply Hmono|by rewrite not_elem_of_app|].
  rewrite wrong_guesses_cons, Hw. cbn [fst] in Hw'. rewrite Hw', Limiter.calls_app. cbn [fst].
  rewrite Limiter.let_through_app by apply Limiter.length_calls. by rewrite Hs1.
Qed.

(** C40: In one running process, whose limiter is in memory and whose clock never goes
    back, and whatever other clients and administrators do, a client that never finds the
    password of a share has at most twice the allowance of guesses checked in any
    span of one window. *)
Theorem password_guesses_bounded d l id client lo from :
  password_attempts_per_window (policy self) ≤ u32_max → instants_from from l →
  never_unlocked (id, client) l (attempts l (new_service (policy self) d)).1 →
  wrong_guesses (id, client) lo (lo + abuse_window (policy self)) l (attempts l (new_service (policy self) d)).1 ≤
  2 * Z.max (password_attempts_per_window (policy self)) 1.
Proof.
  intros Hp Hm Hno. destruct (attempts_calls l _ (id, client) lo (lo + abuse_window (policy self)) from Hm Hno) as (cs & Hmono & Hf & ->).
  pose proof (Limiter.let_through_from cs (id, client) lo _ from
    (Limiter.new_ok (K := bytes * bytes) (password_attempts_per_window (policy self)) (abuse_window (policy self)) 4096 Hp) Hmono Hf) as Hb.
  exact Hb.
Qed.
End Unlocking.

(** ** Origins *)

Lemma parse_origins_spec values entries :
  parse_origins values = Ok entries → Forall2 (λ value entry, parse_origin value = Ok entry) values entries.
Proof.
  revert entries. induction values as [|value values IH]; intros entries; cbn [parse_origins].
  - intros [= <-]. constructor.
  - destruct (parse_origin value) as [entry|e] eqn:Hv; [|discriminate]. cbn.
    destruct (parse_origins values) as [rest|e]; [|discriminate]. cbn. intros [= <-]. constructor; [done|by apply IH].
Qed.

(** The allowlist of an embed holds normal forms: each entry matches itself; a
    request's origin is let through exactly when its normal form is that of a
    value the operator listed; and what is echoed back is the stored entry, never
    the header. *)
Theorem origin_allowlist values entries presented :
  parse_origins values = Ok entries → entries ≠ [] →
  (∀ entry, entry ∈ entries → origin_matches entry entry = true) ∧
  (evaluate_origin entries (Some presented) = OriginAllowed ↔
   ∃ value entry, value ∈ values ∧ parse_origin value = Ok entry ∧ parse_origin presented = Ok entry) ∧
  (∀ echoed, matching_origin entries presented = Some echoed ↔
   evaluate_origin entries (Some presented) = OriginAllowed ∧ parse_origin presented = Ok echoed).
Proof.
  intros Hspec%parse_origins_spec Hne.
  assert (Hmatch : ∀ entry, origin_matches entry presented = true ↔ parse_origin presented = Ok entry).
  { intros entry. unfold origin_matches. destruct (parse_origin presented) as [o|]; [|done].
    rewrite bool_decide_eq_true. split; [by intros ->|by intros [= ->]]. }
  assert (Heval : evaluate_origin entries (Some presented) = OriginAllowed ↔ ∃ entry, entry ∈ entries ∧ parse_origin presented = Ok entry).
  { unfold evaluate_origin. destruct entries as [|e es]; [done|]. split.
    - destruct (existsb _ _) eqn:Hx; [|done]. intros _. apply existsb_exists in Hx as (entry & Hin%list_elem_of_In & Hm).
      exists entry. split; [done|by apply Hmatch].
    - intros (entry & Hin & Hp). rewrite (proj2 (existsb_exists _ _)); [done|]. exists entry.
      split; [by apply list_elem_of_In|by apply Hmatch]. }
  split_and!.
  - intros entry Hin. apply (list_elem_of_lookup_1) in Hin as [i Hi].
    destruct (Forall2_lookup_r _ _ _ _ _ Hspec Hi) as (value & _ & Hp). unfold origin_matches.
    rewrite (parse_origin_idem _ _ Hp). by apply bool_decide_eq_true.
  - rewrite Heval. split.
    + intros (entry & Hin & Hp). apply list_elem_of_lookup_1 in Hin as [i Hi].
      destruct (Forall2_lookup_r _ _ _ _ _ Hspec Hi) as (value & Hv & Hpv). exists value, entry.
      split; [by eapply list_elem_of_lookup_2|done].
    + intros (value & entry & Hin & Hv & Hp). apply list_elem_of_lookup_1 in Hin as [i Hi].
      destruct (Forall2_lookup_l _ _ _ _ _ Hspec Hi) as (entry' & Hi' & Hv'). exists entry.
      split; [|done]. rewrite Hv in Hv'. injection Hv' as ->. by eapply list_elem_of_lookup_2.
  - intros echoed. unfold matching_origin. rewrite Heval. split.
    + intros (Hin%list_elem_of_In & Hm%Hmatch)%find_some. eauto.
    + intros [(entry & Hin & Hp) Hpe]. rewrite Hp in Hpe. injection Hpe as ->.
      destruct (find _ _) as [e|] eqn:Hf.
      * apply find_some in Hf as [_ He%Hmatch]. congruence.
      * apply list_elem_of_In in Hin. eapply find_none in Hf; [|exact Hin]. cbn in Hf. rewrite (proj2 (Hmatch _)) in Hf; done.
Qed.

(** ** What the abuse controls and the bounds leave out *)

Section Limits.
Context `{HashFunction} `{Cryptography_} `{CapabilityCrypto}.
Context (self : Config).

(** Looking up or unlocking an unknown token is counted but never throttled: the
    answer is the same however many probes the client has made. *)
Lemma unknown_lookup_never_throttled token_ ticket password client now instant s :
  resolve_share (token_digest token_) (store s) = Ok None →
  (look_up_share self token_ ticket client now instant s).1 = Ok (LookupUnavailable UnknownToken) ∧
  (unlock_share self token_ password client now instant s).1 = Ok (Err (UnlockUnavailable UnknownToken)).
Proof.
  intros Hres. unfold look_up_share, unlock_share, resolve, check_probe, mbind, tx_bind. rewrite Hres.
  by destruct (Limiter.check_at client instant (token_probes s)).
Qed.
End Limits.

(** ** On the sample deployment *)

Module Examples.
Import SharingSamples.

(** Four deliveries of a share that allows two. *)
Definition asked_four : World := deliver (seconds 40) (deliver (seconds 30) (deliver (seconds 20) (deliver (seconds 15) shared))).

Lemma asked_four_reachable : reachable sample_config asked_four.
Proof. do 4 apply deliver_reachable. apply shared_reachable. Qed.

Lemma share_budget_is_ceiling_witness :
  length (w_granted asked_four) = 2%nat ∧
  Forall (λ g, grants (sl_id (d_link g)) (w_granted asked_four) ≤ 2 ∧ grant_ok sample_config g) (w_granted asked_four).
Proof.
  split; [vm_compute; reflexivity|]. destruct (share_budget_is_ceiling sample_config asked_four asked_four_reachable) as [Hb Hg].
  apply Forall_forall. intros g Hin. split; [|by apply Hg]. apply (Hb g 2 Hin).
  apply (proj1 (Forall_forall (λ g, sl_maximum_access_count (d_link g) = Some 2) (w_granted asked_four))); [|exact Hin].
  apply (bool_decide_unpack _). vm_compute. exact I.
Defined.

(** A delivery that passed its checks, then a revocation, then its consumption. *)
Definition checked_delivery : World :=
  begin_delivery sample_config (sample_token 1) (Some sample_ticket) true (seconds 20) (deliver (seconds 15) shared).

Lemma revocation_is_final_witness :
  length (w_pending checked_delivery) = 1%nat ∧
  grants (uuid 1) (w_granted (finish_delivery sample_config
     (with_store checked_delivery (CapabilityStore.revoke_share (uuid 1) (seconds 21) (w_store checked_delivery)).2))) = 1.
Proof.
  split; [vm_compute; reflexivity|].
  rewrite (revocation_is_final sample_config checked_delivery (uuid 1) (seconds 21) (finish_delivery sample_config
     (with_store checked_delivery (CapabilityStore.revoke_share (uuid 1) (seconds 21) (w_store checked_delivery)).2))).
  - vm_compute. reflexivity.
  - apply begin_reachable, deliver_reachable, shared_reachable.
  - apply (bool_decide_unpack _). vm_compute. exact I.
  - left. apply finish_delivery_steps.
Defined.

Definition serving (w : World) : State := new_service default_policy (w_store w).

Definition granted_ok {E F A} (r : result E (result F A)) : bool := match r with Ok (Ok _) => true | _ => false end.

Lemma authorize_is_two_steps_witness :
  ∃ l s', authorize_share_access sample_config (sample_token 1) (Some sample_ticket) true (str "client") (seconds 20) 0
            (serving shared) = (Ok (Ok l), s') ∧
    ∃ w', rtc (step sample_config) shared w' ∧ w_store w' = store s' ∧ w_pending w' = w_pending shared ∧
      w_issued w' = w_issued shared ∧
      w_granted w' = {| d_link := l; d_ticket := Some sample_ticket; d_download := true; d_now := seconds 20 |} :: w_granted shared.
Proof.
  assert (Hok : granted_ok (authorize_share_access sample_config (sample_token 1) (Some sample_ticket) true (str "client")
    (seconds 20) 0 (serving shared)).1 = true) by (vm_compute; reflexivity).
  destruct (authorize_share_access sample_config (sample_token 1) (Some sample_ticket) true (str "client") (seconds 20) 0
    (serving shared)) as [[[l|denial]|e] s'] eqn:Hrun; [|discriminate..].
  exists l, s'. split; [reflexivity|]. exact (authorize_is_two_steps sample_config _ _ _ _ _ _ _ (Ok l) s' shared Hrun eq_refl).
Defined.

Lemma share_link_roundtrip_witness :
  ∃ l token_ s', create_share sample_config sample_share (draw 1) (seconds 10) (serving first_world) = (Ok (l, token_), s') ∧
    resolve_share (token_digest token_) (store s') = Ok (Some l) ∧
    reveal_share_token (handle sample_config) (sl_id l) (store s') = Some token_ ∧
    resolve_share (token_digest token_) (delete_share (sl_id l) (store s')).2 = Ok None.
Proof.
  assert (Hok : is_ok (create_share sample_config sample_share (draw 1) (seconds 10) (serving first_world)).1 = true)
    by (vm_compute; reflexivity).
  destruct (create_share sample_config sample_share (draw 1) (seconds 10) (serving first_world)) as [[[l token_]|e] s'] eqn:Hrun;
    [|discriminate].
  exists l, token_, s'. split; [reflexivity|].
  destruct (share_link_roundtrip sample_config sample_share (draw 1) (replicate 32 1) (seconds 10) (serving first_world) l token_ s')
    as (_ & Hres & _ & Hrev & Hgone & _).
  - apply no_tables_ok.
  - reflexivity.
  - reflexivity.
  - reflexivity.
  - apply contains_false. reflexivity.
  - reflexivity.
  - reflexivity.
  - apply Forall_replicate. unfold byte_ok. lia.
  - exact Hrun.
  - exact (conj Hres (conj Hrev Hgone)).
Defined.

Lemma share_listing_exact_witness :
  length (list_shares_for_object (uuid 7) (str "q1/summary.pdf") (w_store shared)) = 1%nat ∧
  NoDup (sl_id <$> list_shares_for_object (uuid 7) (str "q1/summary.pdf") (w_store shared)).
Proof.
  split; [vm_compute; reflexivity|].
  apply (share_listing_exact sample_config shared (uuid 7) (str "q1/summary.pdf")); [apply shared_reachable|reflexivity|].
  apply contains_false. reflexivity.
Defined.

Lemma ticket_proves_one_share_witness :
  ∃ ticket s', unlock_share sample_config (sample_token 1) (str "open sesame") (str "client") (seconds 20) 0 (serving shared) =
                 (Ok (Ok ticket), s') ∧
    verify_ticket [2] ticket (uuid 1) (seconds 43219) = true ∧ verify_ticket [2] ticket (uuid 1) (seconds 43220) = false ∧
    verify_ticket [2] ticket (uuid 3) (seconds 21) = false.
Proof.
  assert (Hok : granted_ok (unlock_share sample_config (sample_token 1) (str "open sesame") (str "client") (seconds 20) 0
    (serving shared)).1 = true) by (vm_compute; reflexivity).
  destruct (unlock_share sample_config (sample_token 1) (str "open sesame") (str "client") (seconds 20) 0 (serving shared))
    as [[[ticket|f]|e] s'] eqn:Hrun; [|discriminate..].
  exists ticket, s'. split; [reflexivity|]. change [2] with (ticket_key sample_config).
  assert (Hi : is_i64 (timestamp (seconds 20 + unlock_lifetime (policy sample_config)))).
  { replace (timestamp _) with 43220 by (vm_compute; reflexivity). unfold is_i64. lia. }
  assert (Hl : ∀ l, resolve_share (token_digest (sample_token 1)) (store (serving shared)) = Ok (Some l) → sl_id l = uuid 1).
  { assert (Hid : match resolve_share (token_digest (sample_token 1)) (store (serving shared)) with
                  | Ok (Some l) => bool_decide (sl_id l = uuid 1) | _ => false end = true) by (vm_compute; reflexivity).
    intros l Hl. rewrite Hl in Hid. by apply bool_decide_eq_true in Hid. }
  split_and!.
  - destruct (ticket_proves_one_share sample_config _ _ _ _ _ _ _ _ [] (seconds 43219) Hrun Hi) as (l & h & Hres & _ & _ & _ & Hv & _).
    rewrite (Hl l Hres) in Hv. rewrite Hv. vm_compute. reflexivity.
  - destruct (ticket_proves_one_share sample_config _ _ _ _ _ _ _ _ [] (seconds 43220) Hrun Hi) as (l & h & Hres & _ & _ & _ & Hv & _).
    rewrite (Hl l Hres) in Hv. rewrite Hv. vm_compute. reflexivity.
  - destruct (ticket_proves_one_share sample_config _ _ _ _ _ _ _ _ (uuid 3) (seconds 21) Hrun Hi) as (l & h & Hres & _ & _ & _ & _ & Hv).
    apply Hv. rewrite (Hl l Hres). vm_compute. discriminate.
Defined.

(** Twelve wrong guesses in a minute: ten are checked. *)
Definition guess (n : Z) : Attempt :=
  {| a_store := w_store shared; a_token := sample_token 1; a_password := str "wrong"; a_client := str "client";
     a_now := seconds 20; a_instant := seconds n |}.
Definition guesses : list Attempt := guess <$> [1; 2; 3; 4; 5; 6; 7; 8; 9; 10; 11; 12].

Lemma password_guesses_bounded_witness :
  wrong_guesses (uuid 1, str "client") 0 (seconds 60) guesses (attempts sample_config guesses (serving shared)).1 ≤ 20 ∧
  wrong_guesses (uuid 1, str "client") 0 (seconds 60) guesses (attempts sample_config guesses (serving shared)).1 = 10.
Proof.
  split; [|vm_compute; reflexivity].
  apply (password_guesses_bounded sample_config (w_store shared) guesses (uuid 1) (str "client") 0 0).
  - vm_compute. discriminate.
  - vm_compute. repeat split; discriminate.
  - vm_compute. repeat split; intros; discriminate.
Defined.

Lemma origin_allowlist_witness :
  evaluate_origin [str "https://example.com"; str "http://[::1]:8080"] (Some (str " HTTPS://Example.com:443 ")) = OriginAllowed ∧
  matching_origin [str "https://example.com"; str "http://[::1]:8080"] (str "http://[::1]:08080") = Some (str "http://[::1]:8080").
Proof.
  assert (Hparse : parse_origins [str "https://EXAMPLE.com"; str "http://[::1]:8080"] =
                   Ok [str "https://example.com"; str "http://[::1]:8080"]) by (vm_compute; reflexivity).
  split.
  - apply (origin_allowlist _ _ (str " HTTPS://Example.com:443 ") Hparse); [done|].
    exists (str "https://EXAMPLE.com"), (str "https://example.com"). split; [left|]. split; vm_compute; reflexivity.
  - apply (origin_allowlist _ _ (str "http://[::1]:08080") Hparse); [done|]. split; vm_compute; reflexivity.
Defined.

(** An attachment embed takes more origins than an embed may list. *)
Definition many_origins : CreateEmbedRequest :=
  {| ce_label := str "banner"; ce_bucket_id := uuid 7; ce_bucket := str "reports"; ce_key := str "banner.png"; ce_version := FollowCurrent;
     ce_expires_at := None; ce_allowed_origins := replicate 21 (str "https://example.com"); ce_disposition := Attachment;
     ce_content_type := None; ce_created_by := str "admin" |}.

Lemma attachment_origins_unbounded :
  ∃ l token_ s', create_embed sample_config many_origins (draw 1) 0 (serving first_world) = (Ok (l, token_), s') ∧
    MAXIMUM_ALLOWED_ORIGINS < count_origins (el_allowed_origins l).
Proof. eexists _, _, _. split; [vm_compute; reflexivity|vm_compute; reflexivity]. Qed.

(** A doubled slash carries the token of a share path past the redaction. *)
Lemma doubled_slash_not_redacted :
  redact_capability_path (str "/s/TOKEN") = str "/s/<redacted>" ∧ redact_capability_path (str "/s//TOKEN") = str "/s//TOKEN".
Proof. split; vm_compute; reflexivity. Qed.
End Examples.

End SharingTheorems.
