(* ===== verification/ProofBundle.v ===== *)
(** * Proof bundles

    [crates/record-store-proof/src]: the portable statement about one object
    version ([bundle.rs]), its signature ([signing.rs]) and its offline check
    ([verify.rs]); and its assembly from the object's metadata by the management
    API ([record-store-api/src/handlers/proof.rs]).

    Texts are UTF-8 bytes. Ed25519 is an interface; HKDF is the one of [Auth]
    and hexadecimal that of [Crates]. A file is what reading it produces: the outcome of opening it,
    then the outcome of every [read] until one returns nothing. *)

From S2P Require Import Prelude Bytes Text Digest Merkle Canonical CoreTypes Auth Names.
Import StdText Names CoreTypes.

Module ProofBundle.

(** ** The document ([bundle.rs]) *)

Definition BUNDLE_FORMAT : bytes := str "record-store.proof-bundle".
Definition BUNDLE_FORMAT_VERSION : Z := 1.
Definition BUNDLE_CANONICAL_VERSION : Z := 1.
Definition BUNDLE_DOMAIN : bytes := str "record-store/proof-bundle/v1".

Record ObjectIdentity := {
  oi_bucket : bytes; oi_key : bytes; oi_version_id : bytes; oi_size : Z;
  oi_content_type : option bytes; oi_created_at : Z }.

Inductive HistoryUnavailable := ChainNotEnabled | VersionPredatesChain | NotYetCheckpointed.

Definition label (reason : HistoryUnavailable) : bytes :=
  match reason with
  | ChainNotEnabled => str "chain not enabled"
  | VersionPredatesChain => str "version predates the chain"
  | NotYetCheckpointed => str "not yet covered by a checkpoint"
  end.

Record HistoryRecord := {
  hr_sequence : Z; hr_timestamp : Z; hr_operation : bytes; hr_principal : bytes; hr_result : bytes;
  hr_previous_hash : bytes; hr_record_hash : bytes; hr_inclusion_path : Merkle.InclusionPath }.

Record Checkpoint := {
  cp_sequence : Z; cp_from_sequence : Z; cp_to_sequence : Z; cp_leaf_count : Z;
  cp_root : bytes; cp_previous_checkpoint_hash : bytes }.

Record AnchorReceipt := { ar_kind : bytes; ar_receipt : bytes; ar_asserted_at : option Z }.

Inductive History :=
  | Unavailable (reason : HistoryUnavailable) (detail : bytes)
  | Present (records : list HistoryRecord) (checkpoint : Checkpoint) (anchor : option AnchorReceipt).

Record Deployment := { dp_algorithm : bytes; dp_public_key : bytes; dp_key_id : bytes }.
Record BundleSignature := { bs_algorithm : bytes; bs_canonical_version : Z; bs_value : bytes }.

Record Bundle := {
  pb_format : bytes; pb_format_version : Z; pb_object : ObjectIdentity; pb_sha256 : bytes;
  pb_history : History; pb_deployment : Deployment; pb_signature : BundleSignature }.

(** ** The signed bytes *)

Definition put_bytes (out value : bytes) : bytes := out ++ be_bytes 4 (Canonical.u32_length value) ++ value.
Definition put_str (out value : bytes) : bytes := put_bytes out value.
Definition put_optional_str (out : bytes) (value : option bytes) : bytes :=
  match value with Some value => put_str (out ++ [1]) value | None => out ++ [0] end.
Definition put_time (out : bytes) (value : Z) : bytes := out ++ be_bytes 8 (Canonical.timestamp_micros value).

Definition put_step (out : bytes) (step : Merkle.PathStep) : bytes :=
  put_bytes (out ++ [match Merkle.step_side step with Merkle.Left => 0 | Merkle.Right => 1 end])
            (Merkle.step_hash step).

Definition put_record (out : bytes) (record : HistoryRecord) : bytes :=
  let out := out ++ be_bytes 8 (hr_sequence record) in
  let out := put_time out (hr_timestamp record) in
  let out := put_str out (hr_operation record) in
  let out := put_str out (hr_principal record) in
  let out := put_str out (hr_result record) in
  let out := put_str out (hr_previous_hash record) in
  let out := put_str out (hr_record_hash record) in
  let path := hr_inclusion_path record in
  let out := out ++ be_bytes 8 (Merkle.path_index path) in
  let out := out ++ be_bytes 4 (Canonical.u32_length (Merkle.path_steps path)) in
  foldl put_step out (Merkle.path_steps path).

Definition put_checkpoint (out : bytes) (checkpoint : Checkpoint) : bytes :=
  let out := out ++ be_bytes 8 (cp_sequence checkpoint) in
  let out := out ++ be_bytes 8 (cp_from_sequence checkpoint) in
  let out := out ++ be_bytes 8 (cp_to_sequence checkpoint) in
  let out := out ++ be_bytes 8 (cp_leaf_count checkpoint) in
  let out := put_str out (cp_root checkpoint) in
  put_str out (cp_previous_checkpoint_hash checkpoint).

Definition put_anchor (out : bytes) (anchor : option AnchorReceipt) : bytes :=
  match anchor with
  | Some anchor =>
      let out := out ++ [1] in
      let out := put_str out (ar_kind anchor) in
      let out := put_str out (ar_receipt anchor) in
      match ar_asserted_at anchor with Some time => put_time (out ++ [1]) time | None => out ++ [0] end
  | None => out ++ [0]
  end.

Definition put_history (out : bytes) (history : History) : bytes :=
  match history with
  | Unavailable reason detail =>
      let out := out ++ [0] in
      let out := put_str out (label reason) in
      put_str out detail
  | Present records checkpoint anchor =>
      let out := out ++ [1] in
      let out := out ++ be_bytes 4 (Canonical.u32_length records) in
      let out := foldl put_record out records in
      let out := put_checkpoint out checkpoint in
      put_anchor out anchor
  end.

Definition canonical_bytes (self : Bundle) : bytes :=
  let out := BUNDLE_DOMAIN in
  let out := out ++ be_bytes 2 BUNDLE_CANONICAL_VERSION in
  let out := put_str out (pb_format self) in
  let out := out ++ be_bytes 2 (pb_format_version self) in
  let object := pb_object self in
  let out := put_str out (oi_bucket object) in
  let out := put_str out (oi_key object) in
  let out := put_str out (oi_version_id object) in
  let out := out ++ be_bytes 8 (oi_size object) in
  let out := put_optional_str out (oi_content_type object) in
  let out := put_time out (oi_created_at object) in
  let out := put_str out (pb_sha256 self) in
  let out := put_history out (pb_history self) in
  let out := put_str out (dp_algorithm (pb_deployment self)) in
  let out := put_str out (dp_public_key (pb_deployment self)) in
  put_str out (dp_key_id (pb_deployment self)).

(** ** Interfaces *)

(** An [Ed25519KeyPair] is known by its seed. *)
Class Ed25519 := {
  ed_usable_seed : bytes → bool;
  ed_public_key : bytes → bytes;
  ed_sign : bytes → bytes → bytes;
  ed_verify : bytes → bytes → bytes → bool }.
Class Ed25519Laws `{Ed25519} : Prop := {
  ed_verify_sign : ∀ seed message,
    ed_usable_seed seed = true → ed_verify (ed_public_key seed) message (ed_sign seed message) = true;
  ed_public_key_ok : ∀ seed, bytes_ok (ed_public_key seed);
  ed_public_key_length : ∀ seed, length (ed_public_key seed) = 32%nat;
  ed_sign_ok : ∀ seed message, bytes_ok (ed_sign seed message) }.

Inductive ProofError :=
  | MissingMasterKey
  | KeyDerivation
  | MalformedDigest
  | Io (source : bytes).

Section Operations.
Context `{HashFunction} `{HexCrate} `{Ed25519} `{Auth.Cryptography_}.

(** [hex::decode] into a [Digest32]. *)
Definition decode_digest (value : bytes) : result ProofError bytes :=
  match hex_decode value with
  | Some digest => if decide (length digest = 32%nat) then Ok digest else Err MalformedDigest
  | None => Err MalformedDigest
  end.

Definition payload_digest (self : Bundle) : result ProofError bytes :=
  match hex_decode (pb_sha256 self) with
  | Some digest => if decide (length digest = 32%nat) then Ok digest else Err MalformedDigest
  | None => Err MalformedDigest
  end.

Definition key_id (public_key : bytes) : bytes := hex_encode (take 8 (digest public_key)).

(** ** Signing ([signing.rs]) *)

Definition SIGNING_SALT : bytes := str "record-store/proof-signing/v1".
Definition SIGNING_INFO : bytes := str "proof-bundle-signing-key".
Definition SIGNATURE_ALGORITHM : bytes := str "ed25519".

Record BundleSigner := { key_pair : bytes }.

Definition from_master_key (master_key : bytes) : result ProofError BundleSigner :=
  if decide (master_key = []) then Err MissingMasterKey
  else match Auth.hkdf_expand SIGNING_SALT master_key SIGNING_INFO with
       | None => Err KeyDerivation
       | Some seed => if ed_usable_seed seed then Ok {| key_pair := seed |} else Err KeyDerivation
       end.

Definition public_key (self : BundleSigner) : bytes := ed_public_key (key_pair self).

Definition deployment (self : BundleSigner) : Deployment :=
  {| dp_algorithm := SIGNATURE_ALGORITHM; dp_public_key := hex_encode (public_key self);
     dp_key_id := key_id (public_key self) |}.

Definition with_deployment (b : Bundle) (d : Deployment) : Bundle :=
  {| pb_format := pb_format b; pb_format_version := pb_format_version b; pb_object := pb_object b;
     pb_sha256 := pb_sha256 b; pb_history := pb_history b; pb_deployment := d;
     pb_signature := pb_signature b |}.
Definition with_signature (b : Bundle) (s : BundleSignature) : Bundle :=
  {| pb_format := pb_format b; pb_format_version := pb_format_version b; pb_object := pb_object b;
     pb_sha256 := pb_sha256 b; pb_history := pb_history b; pb_deployment := pb_deployment b;
     pb_signature := s |}.

Definition sign (self : BundleSigner) (bundle : Bundle) : Bundle :=
  let bundle := with_deployment bundle (deployment self) in
  let signature := ed_sign (key_pair self) (canonical_bytes bundle) in
  with_signature bundle
    {| bs_algorithm := SIGNATURE_ALGORITHM; bs_canonical_version := BUNDLE_CANONICAL_VERSION;
       bs_value := hex_encode signature |}.

(** ** Checking ([verify.rs]) *)

Definition CHUNK_BYTES : nat := Z.to_nat (64 * 1024).

Inductive CheckStatus := Passed | Failed | NotProved.
#[export] Instance CheckStatus_eq_dec : EqDecision CheckStatus.
Proof. solve_decision. Defined.

Record Check := { ck_name : bytes; ck_status : CheckStatus; ck_detail : bytes }.
Definition passed (name detail : bytes) : Check := {| ck_name := name; ck_status := Passed; ck_detail := detail |}.
Definition failed (name detail : bytes) : Check := {| ck_name := name; ck_status := Failed; ck_detail := detail |}.
Definition not_proved (name detail : bytes) : Check :=
  {| ck_name := name; ck_status := NotProved; ck_detail := detail |}.

Inductive Outcome := VerdictVerified | VerdictFailed.
Record Verdict := { v_outcome : Outcome; v_checks : list Check }.

Definition unproved (self : Verdict) : list Check := filter (λ c, ck_status c = NotProved) (v_checks self).
Definition is_verified (self : Verdict) : bool :=
  match v_outcome self with VerdictVerified => true | VerdictFailed => false end.

(** Opening a file, then its reads; [hasher] is what has been hashed so far. *)
Definition File : Type := result bytes (list (result bytes bytes)).

Fixpoint digest_loop (hasher : bytes) (reads : list (result bytes bytes)) : result ProofError bytes :=
  match reads with
  | [] | Ok [] :: _ => Ok (digest hasher)
  | Ok buffer :: reads => digest_loop (hasher ++ buffer) reads
  | Err source :: _ => Err (Io source)
  end.

Definition digest_file (file : File) : result ProofError bytes :=
  match file with
  | Err source => Err (Io source)
  | Ok reads => digest_loop [] reads
  end.

Definition verify_signature (bundle : Bundle) : Check :=
  let name := str "bundle signature" in
  let signature := pb_signature bundle in
  if negb (bool_decide (bs_algorithm signature = SIGNATURE_ALGORITHM))
  then failed name (str "unsupported algorithm " ++ bs_algorithm signature)
  else if negb (bs_canonical_version signature =? BUNDLE_CANONICAL_VERSION)
  then not_proved name
         (str "signature covers canonical encoding " ++ to_decimal (bs_canonical_version signature) ++
          str "; this build produces " ++ to_decimal BUNDLE_CANONICAL_VERSION)
  else match hex_decode (dp_public_key (pb_deployment bundle)), hex_decode (bs_value signature) with
       | Some public_key, Some signature =>
           if ed_verify public_key (canonical_bytes bundle) signature
           then passed name (str "the bundle has not been altered since it was signed")
           else failed name (str "the signature does not match the bundle contents")
       | _, _ => failed name (str "the key or signature is not valid hex")
       end.

Definition verify_key_identity (bundle : Bundle) (expected_public_key : option bytes) : Check :=
  let name := str "deployment identity" in
  let id := dp_key_id (pb_deployment bundle) in
  match expected_public_key with
  | None => not_proved name
      (str "the signature was checked against the key inside the bundle (id " ++ id ++
       str "). No expected key was supplied, so this does not establish which deployment produced it. Re-run with the deployment's published key to establish that.")
  | Some expected =>
      match hex_decode (dp_public_key (pb_deployment bundle)) with
      | Some actual =>
          if bool_decide (actual = expected)
          then passed name (str "signed by the expected deployment key (id " ++ id ++ str ")")
          else failed name (str "the bundle was signed by key id " ++ id ++ str ", which is not the expected key")
      | None => failed name (str "the bundle's key is not valid hex")
      end
  end.

Definition verify_payload (bundle : Bundle) (object : File) : result ProofError Check :=
  let name := str "payload digest" in
  match payload_digest bundle with
  | Err _ => Ok (failed name (str "the recorded digest is not 32 bytes of hex"))
  | Ok recorded =>
      actual ← digest_file object;
      Ok (if bool_decide (actual = recorded)
          then passed name (str "the file matches the SHA-256 recorded at write time (" ++ hex_encode recorded ++ str ")")
          else failed name (str "the file is not the object this bundle describes: recorded " ++
                            hex_encode recorded ++ str ", computed " ++ hex_encode actual))
  end.

Definition verify_checkpoint_size (checkpoint : Checkpoint) : Check :=
  let name := str "checkpoint range" in
  let range := to_decimal (cp_from_sequence checkpoint) ++ str "..=" ++ to_decimal (cp_to_sequence checkpoint) in
  let number := to_decimal (cp_sequence checkpoint) in
  let leaves := to_decimal (cp_leaf_count checkpoint) in
  if cp_to_sequence checkpoint <? cp_from_sequence checkpoint
  then failed name (str "checkpoint " ++ number ++ str " claims to cover sequences " ++ range ++
                    str ", which is not a range")
  else
    let covered := u64_add (u64_sub (cp_to_sequence checkpoint) (cp_from_sequence checkpoint)) 1 in
    if covered =? cp_leaf_count checkpoint
    then passed name (str "checkpoint " ++ number ++ str " covers sequences " ++ range ++ str ", which is the " ++
                      leaves ++ str " records its Merkle tree was built from")
    else failed name (str "checkpoint " ++ number ++ str " claims sequences " ++ range ++ str ", which is " ++
                      to_decimal covered ++ str " records, but its Merkle tree was built from " ++ leaves ++
                      str ". Records covered by this checkpoint are missing from the tree that commits to them.").

(** The records of [verify_inclusion]'s loop, [Some] at the first that fails. *)
Fixpoint inclusion_failure (root : bytes) (leaf_count : Z) (records : list HistoryRecord) : option bytes :=
  match records with
  | [] => None
  | record :: records =>
      let number := to_decimal (hr_sequence record) in
      match decode_digest (hr_record_hash record) with
      | Err _ => Some (str "record " ++ number ++ str " has a malformed hash")
      | Ok record_hash =>
          match Merkle.root_from_path record_hash (hr_inclusion_path record) leaf_count with
          | None => Some
              (str "record " ++ number ++ str " carries an inclusion path of " ++
               to_decimal (Z.of_nat (length (Merkle.path_steps (hr_inclusion_path record)))) ++
               str " step(s), which is not the path index " ++
               to_decimal (Merkle.path_index (hr_inclusion_path record)) ++ str " takes in a tree of " ++
               to_decimal leaf_count ++ str " leaves")
          | Some computed =>
              if bool_decide (computed = root) then inclusion_failure root leaf_count records
              else Some (str "record " ++ number ++ str " does not sit under the checkpoint root it claims")
          end
      end
  end.

Definition verify_inclusion (records : list HistoryRecord) (checkpoint : Checkpoint) : Check :=
  let name := str "audit inclusion" in
  match decode_digest (cp_root checkpoint) with
  | Err _ => failed name (str "the checkpoint root is not valid hex")
  | Ok root =>
      match inclusion_failure root (cp_leaf_count checkpoint) records with
      | Some detail => failed name detail
      | None => passed name
          (str "all " ++ to_decimal (Z.of_nat (length records)) ++ str " records sit under checkpoint " ++
           to_decimal (cp_sequence checkpoint) ++ str " covering sequences " ++
           to_decimal (cp_from_sequence checkpoint) ++ str "..=" ++ to_decimal (cp_to_sequence checkpoint) ++
           str " (" ++ to_decimal (cp_leaf_count checkpoint) ++ str " leaves)")
      end
  end.

(** [records.windows(2)]: the adjacent pairs that link, or the pair that does not. *)
Fixpoint links_loop (linked : Z) (records : list HistoryRecord) : (HistoryRecord * HistoryRecord) + Z :=
  match records with
  | earlier :: ((later :: _) as rest) =>
      if negb (hr_sequence later =? u64_add (hr_sequence earlier) 1) then links_loop linked rest
      else if negb (bool_decide (hr_previous_hash later = hr_record_hash earlier)) then inl (earlier, later)
      else links_loop (linked + 1) rest
  | _ => inr linked
  end.

Definition verify_links (records : list HistoryRecord) : Check :=
  let name := str "audit chain links" in
  match links_loop 0 records with
  | inl (earlier, later) => failed name
      (str "record " ++ to_decimal (hr_sequence later) ++ str " does not link to record " ++
       to_decimal (hr_sequence earlier))
  | inr linked =>
      if linked =? 0
      then not_proved name (str "the records in this bundle are not adjacent in the log, so their links cannot be checked against one another here. Verify the full chain on the deployment with `record-store audit verify`.")
      else passed name (to_decimal linked ++ str " adjacent record link(s) check out")
  end.

Definition verify_history (bundle : Bundle) : list Check :=
  match pb_history bundle with
  | Unavailable reason detail =>
      [not_proved (str "audit history")
         (str "this bundle carries no audit history (" ++ label reason ++ str "): " ++ detail ++
          str ". Nothing here establishes what happened to the object, only what it contains.");
       not_proved (str "external anchor")
         (str "without audit history there is no checkpoint to anchor, so nothing establishes that this state existed at a particular time.")]
  | Present records checkpoint anchor =>
      [verify_checkpoint_size checkpoint; verify_inclusion records checkpoint; verify_links records;
       match anchor with
       | Some anchor => not_proved (str "external anchor")
           (str "a " ++ ar_kind anchor ++
            str " receipt is present and is reproduced verbatim, but this build does not validate it. Verify it with the anchor's own tooling.")
       | None => not_proved (str "external anchor")
           (str "no anchor receipt is present, so nothing establishes that this state existed before now other than the deployment's own assertion.")
       end]
  end.

Definition verify_format (bundle : Bundle) : Check :=
  if bool_decide (pb_format bundle = BUNDLE_FORMAT) then passed (str "bundle format") BUNDLE_FORMAT
  else failed (str "bundle format") (str "expected " ++ BUNDLE_FORMAT ++ str ", found " ++ pb_format bundle).

Definition verify_version (bundle : Bundle) : Check :=
  let name := str "format version" in
  let version := pb_format_version bundle in
  if version =? BUNDLE_FORMAT_VERSION then passed name (str "version " ++ to_decimal BUNDLE_FORMAT_VERSION)
  else if BUNDLE_FORMAT_VERSION <? version
  then not_proved name (str "bundle is version " ++ to_decimal version ++ str "; this build understands " ++
                        to_decimal BUNDLE_FORMAT_VERSION ++ str " and cannot check anything it added")
  else failed name (str "version " ++ to_decimal version ++ str " is older than this build understands").

Definition verdict_of (checks : list Check) : Verdict :=
  let outcome :=
    if existsb (λ check, bool_decide (ck_status check = Failed)) checks then VerdictFailed else VerdictVerified in
  {| v_outcome := outcome; v_checks := checks |}.

Definition verify_bundle (bundle : Bundle) (object : File) (expected_public_key : option bytes)
    : result ProofError Verdict :=
  payload ← verify_payload bundle object;
  Ok (verdict_of
        ([verify_format bundle; verify_version bundle; verify_signature bundle;
          verify_key_identity bundle expected_public_key; payload] ++ verify_history bundle)).

(** ** Assembling ([handlers/proof.rs]) *)

Definition checksum_to_string (checksum : Checksum) : bytes :=
  match checksum_algorithm checksum with Sha256Checksum => str "sha256" end ++ str ":" ++
  hex_encode (checksum_digest checksum).

Definition payload_sha256 (metadata : ObjectMetadata) : bytes :=
  let rendered := checksum_to_string (o_checksum metadata) in
  match split_once (str ":") rendered with Some (_, digest) => digest | None => rendered end.

Definition HISTORY_DETAIL : bytes :=
  str "this deployment maintains a hash-chained audit log, which detects a record edited or removed by anyone who cannot rewrite every later link. It does not yet produce checkpoints or external anchors, so no Merkle root and no inclusion path can be included here, and this bundle establishes nothing against an operator who rewrote the whole log. Verify the chain directly with GET /api/v1/audit/chain.".

(** What [object_proof] returns for the metadata that the object service found. *)
Definition object_proof `{UuidCrate} (signer : BundleSigner) (name : bytes) (metadata : ObjectMetadata) : Bundle :=
  sign signer
    {| pb_format := BUNDLE_FORMAT; pb_format_version := BUNDLE_FORMAT_VERSION;
       pb_object := {| oi_bucket := name; oi_key := o_key metadata;
                       oi_version_id := uuid_to_string (o_version_id metadata); oi_size := o_size metadata;
                       oi_content_type := o_content_type metadata; oi_created_at := o_created_at metadata |};
       pb_sha256 := payload_sha256 metadata;
       pb_history := Unavailable NotYetCheckpointed HISTORY_DETAIL;
       pb_deployment := {| dp_algorithm := []; dp_public_key := []; dp_key_id := [] |};
       pb_signature := {| bs_algorithm := []; bs_canonical_version := 0; bs_value := [] |} |}.
End Operations.

End ProofBundle.
