(* ===== verification/ProofBundleTheorems.v ===== *)
(** * Properties of proof bundles

    The signed bytes determine every field but the signature, times to the
    microsecond; a bundle that a deployment signed over its own log verifies, and
    a bundle that verifies against a known key, signature included, is one that
    the deployment signed, describes the file at hand and quotes records of the
    log; and what the verdict leaves open: an unknown canonical version, a
    checkpoint of the full [u64] range, the sequence of a quoted record. *)

From S2P Require Import Prelude Bytes Text Digest Merkle Canonical CoreTypes Auth Names ProofBundle.
Import StdText Names CoreTypes ProofBundle.

Module ProofBundleTheorems.

(** ** Encoders that determine a part of what they encode *)

Definition splits_to {A B} (ok : A → Prop) (f : A → B) (enc : A → bytes) : Prop :=
  ∀ x y r s, ok x → ok y → enc x ++ r = enc y ++ s → f x = f y ∧ r = s.

Lemma splits_to_option {A B} (ok : A → Prop) (f : A → B) enc :
  splits_to ok f enc → splits_to (Canonical.option_ok ok) (fmap f) (Canonical.enc_option enc).
Proof.
  intros Henc [x|] [y|] r s Hx Hy Heq; simpl in *; injection Heq as Heq; try done.
  by apply Henc in Heq as [-> ->].
Qed.

Lemma splits_to_list {A B} (ok : A → Prop) (f : A → B) enc (xs ys : list A) r s :
  splits_to ok f enc → Forall ok xs → Forall ok ys → length xs = length ys →
  (xs ≫= enc) ++ r = (ys ≫= enc) ++ s → f <$> xs = f <$> ys ∧ r = s.
Proof.
  intros Henc Hxs. revert ys. induction Hxs as [|x xs Hx Hxs IH]; intros [|y ys] Hys Hlen Heq;
    simplify_eq/=; [done|].
  apply Forall_cons in Hys as [Hy Hys]. rewrite <-!app_assoc in Heq.
  apply Henc in Heq as [-> Heq]; [|done..].
  by apply IH in Heq as [-> ->].
Qed.

Definition time_ok (t : Z) : Prop := is_i64 (Canonical.timestamp_micros t).
Definition cut (t : Z) : Z := 1000 * Canonical.timestamp_micros t.
Definition enc_time (t : Z) : bytes := be_bytes 8 (Canonical.timestamp_micros t).

Lemma splits_time : splits_to time_ok cut enc_time.
Proof. intros x y r s Hx Hy [E ->]%Canonical.splits_i64; [|done..]. unfold cut. by rewrite E. Qed.

Lemma splits_u64 : Canonical.splits is_u64 (be_bytes 8).
Proof.
  intros x y r s Hx Hy [Heq ->]%app_inj_len; [|by rewrite !length_be_bytes].
  by apply be_bytes_u64_inj in Heq.
Qed.
Lemma splits_u16 : Canonical.splits is_u16 (be_bytes 2).
Proof.
  intros x y r s Hx Hy [Heq ->]%app_inj_len; [|by rewrite !length_be_bytes].
  by apply be_bytes_u16_inj in Heq.
Qed.

(** ** The fields of the signed bytes *)

Definition enc_step (step : Merkle.PathStep) : bytes :=
  [match Merkle.step_side step with Merkle.Left => 0 | Merkle.Right => 1 end] ++
  Canonical.enc_str (Merkle.step_hash step).
Definition enc_path (path : Merkle.InclusionPath) : bytes :=
  be_bytes 8 (Merkle.path_index path) ++ be_bytes 4 (Canonical.u32_length (Merkle.path_steps path)) ++
  (Merkle.path_steps path ≫= enc_step).
Definition enc_record (r : HistoryRecord) : bytes :=
  be_bytes 8 (hr_sequence r) ++ enc_time (hr_timestamp r) ++ Canonical.enc_str (hr_operation r) ++
  Canonical.enc_str (hr_principal r) ++ Canonical.enc_str (hr_result r) ++
  Canonical.enc_str (hr_previous_hash r) ++ Canonical.enc_str (hr_record_hash r) ++
  enc_path (hr_inclusion_path r).
Definition enc_checkpoint (c : Checkpoint) : bytes :=
  be_bytes 8 (cp_sequence c) ++ be_bytes 8 (cp_from_sequence c) ++ be_bytes 8 (cp_to_sequence c) ++
  be_bytes 8 (cp_leaf_count c) ++ Canonical.enc_str (cp_root c) ++
  Canonical.enc_str (cp_previous_checkpoint_hash c).
Definition enc_anchor (a : AnchorReceipt) : bytes :=
  Canonical.enc_str (ar_kind a) ++ Canonical.enc_str (ar_receipt a) ++
  Canonical.enc_option enc_time (ar_asserted_at a).
Definition enc_history (h : History) : bytes :=
  match h with
  | Unavailable reason detail => [0] ++ Canonical.enc_str (label reason) ++ Canonical.enc_str detail
  | Present records checkpoint anchor =>
      [1] ++ be_bytes 4 (Canonical.u32_length records) ++ (records ≫= enc_record) ++
      enc_checkpoint checkpoint ++ Canonical.enc_option enc_anchor anchor
  end.

(** Appending one by one is appending the concatenation. *)
Lemma foldl_put {A} (put : bytes → A → bytes) (enc : A → bytes) (xs : list A) out :
  (∀ out x, put out x = out ++ enc x) → foldl put out xs = out ++ (xs ≫= enc).
Proof.
  intros Hput. revert out. induction xs as [|x xs IH]; intros out; simpl; [by rewrite app_nil_r|].
  by rewrite IH, Hput, <-app_assoc.
Qed.

Ltac fields := rewrite <-?app_assoc; cbn [app]; reflexivity.

Lemma put_step_enc out step : put_step out step = out ++ enc_step step.
Proof. unfold put_step, put_bytes, enc_step, Canonical.enc_str. fields. Qed.
Lemma put_record_enc out r : put_record out r = out ++ enc_record r.
Proof.
  unfold put_record. rewrite (foldl_put _ _ _ _ put_step_enc).
  unfold put_str, put_bytes, put_time, enc_record, enc_path, enc_time, Canonical.enc_str. fields.
Qed.
Lemma put_history_enc out h : put_history out h = out ++ enc_history h.
Proof.
  destruct h as [reason detail|records checkpoint anchor]; unfold put_history, enc_history.
  - unfold put_str, put_bytes, Canonical.enc_str. fields.
  - rewrite (foldl_put _ _ _ _ put_record_enc).
    unfold put_anchor, put_checkpoint, enc_checkpoint, Canonical.enc_option, enc_anchor.
    destruct anchor as [[kind receipt [t|]]|]; cbn [ar_asserted_at ar_kind ar_receipt Canonical.enc_option];
      unfold put_str, put_bytes, put_time, enc_time, Canonical.enc_str; fields.
Qed.

Lemma bundle_fields b :
  canonical_bytes b =
    BUNDLE_DOMAIN ++ be_bytes 2 BUNDLE_CANONICAL_VERSION ++ Canonical.enc_str (pb_format b) ++
    be_bytes 2 (pb_format_version b) ++ Canonical.enc_str (oi_bucket (pb_object b)) ++
    Canonical.enc_str (oi_key (pb_object b)) ++ Canonical.enc_str (oi_version_id (pb_object b)) ++
    be_bytes 8 (oi_size (pb_object b)) ++
    Canonical.enc_option Canonical.enc_str (oi_content_type (pb_object b)) ++
    enc_time (oi_created_at (pb_object b)) ++ Canonical.enc_str (pb_sha256 b) ++
    enc_history (pb_history b) ++ Canonical.enc_str (dp_algorithm (pb_deployment b)) ++
    Canonical.enc_str (dp_public_key (pb_deployment b)) ++ Canonical.enc_str (dp_key_id (pb_deployment b)).
Proof.
  unfold canonical_bytes. rewrite put_history_enc.
  unfold put_optional_str, put_str, put_bytes, put_time, enc_time, Canonical.enc_str, Canonical.enc_option.
  destruct (oi_content_type (pb_object b)); fields.
Qed.

(** ** The types of the fields *)

Definition step_ok (s : Merkle.PathStep) : Prop := length (Merkle.step_hash s) = 32%nat.
Definition path_ok (p : Merkle.InclusionPath) : Prop :=
  is_u64 (Merkle.path_index p) ∧ Z.of_nat (length (Merkle.path_steps p)) ≤ u32_max ∧
  Forall step_ok (Merkle.path_steps p).
Definition hrecord_ok (r : HistoryRecord) : Prop :=
  is_u64 (hr_sequence r) ∧ time_ok (hr_timestamp r) ∧ Canonical.str_ok (hr_operation r) ∧
  Canonical.str_ok (hr_principal r) ∧ Canonical.str_ok (hr_result r) ∧
  Canonical.str_ok (hr_previous_hash r) ∧ Canonical.str_ok (hr_record_hash r) ∧
  path_ok (hr_inclusion_path r).
Definition checkpoint_ok (c : Checkpoint) : Prop :=
  is_u64 (cp_sequence c) ∧ is_u64 (cp_from_sequence c) ∧ is_u64 (cp_to_sequence c) ∧
  is_u64 (cp_leaf_count c) ∧ Canonical.str_ok (cp_root c) ∧
  Canonical.str_ok (cp_previous_checkpoint_hash c).
Definition anchor_ok (a : AnchorReceipt) : Prop :=
  Canonical.str_ok (ar_kind a) ∧ Canonical.str_ok (ar_receipt a) ∧
  Canonical.option_ok time_ok (ar_asserted_at a).
Definition history_ok (h : History) : Prop :=
  match h with
  | Unavailable _ detail => Canonical.str_ok detail
  | Present records checkpoint anchor =>
      Z.of_nat (length records) ≤ u32_max ∧ Forall hrecord_ok records ∧ checkpoint_ok checkpoint ∧
      Canonical.option_ok anchor_ok anchor
  end.

(** The document without its signature; texts fit their length prefixes. *)
Definition bundle_ok (b : Bundle) : Prop :=
  Canonical.str_ok (pb_format b) ∧ is_u16 (pb_format_version b) ∧
  Canonical.str_ok (oi_bucket (pb_object b)) ∧ Canonical.str_ok (oi_key (pb_object b)) ∧
  Canonical.str_ok (oi_version_id (pb_object b)) ∧ is_u64 (oi_size (pb_object b)) ∧
  Canonical.option_ok Canonical.str_ok (oi_content_type (pb_object b)) ∧
  time_ok (oi_created_at (pb_object b)) ∧ Canonical.str_ok (pb_sha256 b) ∧
  history_ok (pb_history b) ∧ Canonical.str_ok (dp_algorithm (pb_deployment b)) ∧
  Canonical.str_ok (dp_public_key (pb_deployment b)) ∧ Canonical.str_ok (dp_key_id (pb_deployment b)).

#[local] Existing Instance Canonical.option_ok_dec.
#[export] Instance step_ok_dec s : Decision (step_ok s).
Proof. unfold step_ok. apply _. Defined.
#[export] Instance path_ok_dec p : Decision (path_ok p).
Proof. unfold path_ok. apply _. Defined.
#[export] Instance time_ok_dec t : Decision (time_ok t).
Proof. unfold time_ok. apply _. Defined.
#[export] Instance hrecord_ok_dec r : Decision (hrecord_ok r).
Proof. unfold hrecord_ok. apply _. Defined.
#[export] Instance checkpoint_ok_dec c : Decision (checkpoint_ok c).
Proof. unfold checkpoint_ok. apply _. Defined.
#[export] Instance anchor_ok_dec a : Decision (anchor_ok a).
Proof. unfold anchor_ok. apply _. Defined.
#[export] Instance history_ok_dec h : Decision (history_ok h).
Proof. destruct h; simpl; apply _. Defined.
#[export] Instance bundle_ok_dec b : Decision (bundle_ok b).
Proof. unfold bundle_ok. apply _. Defined.

(** ** What the signature covers: times cut to the microsecond, no signature *)

Definition cut_record (r : HistoryRecord) : HistoryRecord :=
  {| hr_sequence := hr_sequence r; hr_timestamp := cut (hr_timestamp r); hr_operation := hr_operation r;
     hr_principal := hr_principal r; hr_result := hr_result r; hr_previous_hash := hr_previous_hash r;
     hr_record_hash := hr_record_hash r; hr_inclusion_path := hr_inclusion_path r |}.
Definition cut_anchor (a : AnchorReceipt) : AnchorReceipt :=
  {| ar_kind := ar_kind a; ar_receipt := ar_receipt a; ar_asserted_at := cut <$> ar_asserted_at a |}.
Definition cut_history (h : History) : History :=
  match h with
  | Unavailable reason detail => Unavailable reason detail
  | Present records checkpoint anchor => Present (cut_record <$> records) checkpoint (cut_anchor <$> anchor)
  end.
Definition cut_object (o : ObjectIdentity) : ObjectIdentity :=
  {| oi_bucket := oi_bucket o; oi_key := oi_key o; oi_version_id := oi_version_id o; oi_size := oi_size o;
     oi_content_type := oi_content_type o; oi_created_at := cut (oi_created_at o) |}.
Definition signed_content (b : Bundle) : Bundle :=
  {| pb_format := pb_format b; pb_format_version := pb_format_version b; pb_object := cut_object (pb_object b);
     pb_sha256 := pb_sha256 b; pb_history := cut_history (pb_history b); pb_deployment := pb_deployment b;
     pb_signature := {| bs_algorithm := []; bs_canonical_version := 0; bs_value := [] |} |}.

Lemma splits_step : Canonical.splits step_ok enc_step.
Proof.
  intros [sx hx] [sy hy] r s Hx Hy Heq. unfold enc_step, step_ok in *. cbn in Hx, Hy.
  rewrite <-!app_assoc in Heq. apply (Canonical.splits_fixed 1) in Heq as [Eside Heq]; [|done..].
  apply Canonical.splits_str in Heq as [Ehash ->];
    [|unfold Canonical.str_ok, u32_max; cbn; lia..].
  cbn in Eside, Ehash. split; [|done]. by destruct sx, sy; simplify_eq.
Qed.

Lemma splits_path : Canonical.splits path_ok enc_path.
Proof.
  intros [ix sx] [iy sy] r s (Hi & Hn & Hs) (Hi' & Hn' & Hs') Heq. unfold enc_path in Heq. cbn in *.
  rewrite <-!app_assoc in Heq. apply splits_u64 in Heq as [-> Heq]; [|done..].
  apply Canonical.splits_u32_length in Heq as [Hl Heq]; [|done..].
  by apply (Canonical.splits_list _ _ _ _ _ _ splits_step) in Heq as [-> ->].
Qed.

Lemma splits_record : splits_to hrecord_ok cut_record enc_record.
Proof.
  intros x y r s (H1 & H2 & H3 & H4 & H5 & H6 & H7 & H8) (G1 & G2 & G3 & G4 & G5 & G6 & G7 & G8).
  unfold enc_record. rewrite <-!app_assoc. intros Heq.
  apply splits_u64 in Heq as [E1 Heq]; [|done..].
  apply splits_time in Heq as [E2 Heq]; [|done..].
  apply Canonical.splits_str in Heq as [E3 Heq]; [|done..].
  apply Canonical.splits_str in Heq as [E4 Heq]; [|done..].
  apply Canonical.splits_str in Heq as [E5 Heq]; [|done..].
  apply Canonical.splits_str in Heq as [E6 Heq]; [|done..].
  apply Canonical.splits_str in Heq as [E7 Heq]; [|done..].
  apply splits_path in Heq as [E8 ->]; [|done..].
  split; [|done]. unfold cut_record. congruence.
Qed.

Lemma splits_checkpoint : Canonical.splits checkpoint_ok enc_checkpoint.
Proof.
  intros x y r s (H1 & H2 & H3 & H4 & H5 & H6) (G1 & G2 & G3 & G4 & G5 & G6).
  unfold enc_checkpoint. rewrite <-!app_assoc. intros Heq.
  apply splits_u64 in Heq as [E1 Heq]; [|done..].
  apply splits_u64 in Heq as [E2 Heq]; [|done..].
  apply splits_u64 in Heq as [E3 Heq]; [|done..].
  apply splits_u64 in Heq as [E4 Heq]; [|done..].
  apply Canonical.splits_str in Heq as [E5 Heq]; [|done..].
  apply Canonical.splits_str in Heq as [E6 ->]; [|done..].
  split; [|done]. destruct x, y. cbn in *. congruence.
Qed.

Lemma splits_anchor : splits_to anchor_ok cut_anchor enc_anchor.
Proof.
  intros x y r s (H1 & H2 & H3) (G1 & G2 & G3). unfold enc_anchor. rewrite <-!app_assoc. intros Heq.
  apply Canonical.splits_str in Heq as [E1 Heq]; [|done..].
  apply Canonical.splits_str in Heq as [E2 Heq]; [|done..].
  apply (splits_to_option _ _ _ splits_time) in Heq as [E3 ->]; [|done..].
  split; [|done]. unfold cut_anchor. congruence.
Qed.

Lemma label_ok reason : Canonical.str_ok (label reason).
Proof. destruct reason; vm_compute; discriminate. Qed.
Lemma label_inj a b : label a = label b → a = b.
Proof. by destruct a, b. Qed.

Lemma splits_history : splits_to history_ok cut_history enc_history.
Proof.
  intros [ra da|ra ca aa] [rb db|rb cb ab] r s Hx Hy Heq;
    cbn [enc_history] in Heq; rewrite <-!app_assoc in Heq;
    apply (Canonical.splits_fixed 1) in Heq as [Etag Heq]; try done.
  - apply Canonical.splits_str in Heq as [->%label_inj Heq]; [|apply label_ok..].
    by apply Canonical.splits_str in Heq as [-> ->].
  - destruct Hx as (H1 & H2 & H3 & H4), Hy as (G1 & G2 & G3 & G4).
    apply Canonical.splits_u32_length in Heq as [Hl Heq]; [|done..].
    apply (splits_to_list _ _ _ _ _ _ _ splits_record) in Heq as [E1 Heq]; [|done..].
    apply splits_checkpoint in Heq as [-> Heq]; [|done..].
    apply (splits_to_option _ _ _ splits_anchor) in Heq as [E2 ->]; [|done..].
    split; [|done]. cbn. by rewrite E1, E2.
Qed.

Lemma canonical_bytes_determine b b' :
  bundle_ok b → bundle_ok b' → canonical_bytes b = canonical_bytes b' → signed_content b = signed_content b'.
Proof.
  intros (H1 & H2 & H3 & H4 & H5 & H6 & H7 & H8 & H9 & H10 & H11 & H12 & H13)
    (G1 & G2 & G3 & G4 & G5 & G6 & G7 & G8 & G9 & G10 & G11 & G12 & G13).
  rewrite !bundle_fields. intros Heq%app_inv_head%app_inv_head.
  apply Canonical.splits_str in Heq as [E1 Heq]; [|done..].
  apply splits_u16 in Heq as [E2 Heq]; [|done..].
  apply Canonical.splits_str in Heq as [E3 Heq]; [|done..].
  apply Canonical.splits_str in Heq as [E4 Heq]; [|done..].
  apply Canonical.splits_str in Heq as [E5 Heq]; [|done..].
  apply splits_u64 in Heq as [E6 Heq]; [|done..].
  apply (Canonical.splits_option _ _ Canonical.splits_str) in Heq as [E7 Heq]; [|done..].
  apply splits_time in Heq as [E8 Heq]; [|done..].
  apply Canonical.splits_str in Heq as [E9 Heq]; [|done..].
  apply splits_history in Heq as [E10 Heq]; [|done..].
  apply Canonical.splits_str in Heq as [E11 Heq]; [|done..].
  apply Canonical.splits_str in Heq as [E12 Heq]; [|done..].
  rewrite <-(app_nil_r (Canonical.enc_str (dp_key_id (pb_deployment b)))),
    <-(app_nil_r (Canonical.enc_str (dp_key_id (pb_deployment b')))) in Heq.
  apply Canonical.splits_str in Heq as [E13 _]; [|done..].
  unfold signed_content, cut_object.
  destruct (pb_deployment b), (pb_deployment b'). cbn in *. congruence.
Qed.

(** ** What a file holds *)

Fixpoint contents_loop (reads : list (result bytes bytes)) : option bytes :=
  match reads with
  | [] | Ok [] :: _ => Some []
  | Ok buffer :: reads => app buffer <$> contents_loop reads
  | Err _ :: _ => None
  end.
Definition contents (file : File) : option bytes :=
  match file with Ok reads => contents_loop reads | Err _ => None end.

Section Properties.
Context `{HashFunction} `{HexCrate} `{Ed25519} `{Auth.Cryptography_}.

(** Hashing chunk by chunk is hashing the contents. *)
Lemma digest_loop_contents hasher reads d :
  digest_loop hasher reads = Ok d ↔ ∃ c, contents_loop reads = Some c ∧ d = digest (hasher ++ c).
Proof.
  revert hasher. induction reads as [|[[|x chunk]|e] reads IH]; intros hasher; cbn.
  - split; [intros [= <-]; eexists; by rewrite app_nil_r|].
    intros (c & [= <-] & ->). by rewrite app_nil_r.
  - split; [intros [= <-]; eexists; by rewrite app_nil_r|].
    intros (c & [= <-] & ->). by rewrite app_nil_r.
  - rewrite IH. split.
    + intros (c & -> & ->). eexists. split; [reflexivity|]. by rewrite <-app_assoc.
    + intros (c & Hc & ->). destruct (contents_loop reads) as [c'|]; [|done]. injection Hc as <-.
      eexists. split; [done|]. by rewrite <-app_assoc.
  - split; [done|naive_solver].
Qed.

Lemma digest_file_contents file d :
  digest_file file = Ok d ↔ ∃ c, contents file = Some c ∧ d = digest c.
Proof. destruct file as [reads|e]; cbn; [|naive_solver]. by rewrite digest_loop_contents. Qed.

(** ** Reading a verdict *)

Lemma verdict_of_verified checks :
  is_verified (verdict_of checks) = true ↔ Forall (λ c, ck_status c ≠ Failed) checks.
Proof.
  unfold is_verified, verdict_of. cbn [v_outcome].
  induction checks as [|c checks IH]; cbn [existsb]; [by split; [constructor|]|].
  rewrite Forall_cons. case_bool_decide; [naive_solver|]. cbn [orb]. rewrite IH. tauto.
Qed.

Lemma verify_bundle_checks b file k v :
  verify_bundle b file k = Ok v →
  ∃ payload, verify_payload b file = Ok payload ∧
    v_checks v = [verify_format b; verify_version b; verify_signature b; verify_key_identity b k; payload] ++
                 verify_history b ∧
    (is_verified v = true ↔ Forall (λ c, ck_status c ≠ Failed) (v_checks v)).
Proof.
  unfold verify_bundle. intros (payload & Hp & [= <-])%result_bind_ok.
  exists payload. split_and!; [done|done|apply verdict_of_verified].
Qed.

Lemma payload_not_failed b file payload :
  verify_payload b file = Ok payload → ck_status payload ≠ Failed →
  ∃ c, contents file = Some c ∧ hex_decode (pb_sha256 b) = Some (digest c).
Proof.
  unfold verify_payload, payload_digest. destruct (hex_decode _) as [recorded|]; [|by intros [= <-] ?].
  destruct (decide _); [|by intros [= <-] ?].
  destruct (digest_file file) as [actual|?] eqn:Hd; [|done]. cbn.
  case_bool_decide as Heq; intros [= <-] Hs; [|done].
  apply digest_file_contents in Hd as (c & Hc & ->). exists c. split; [done|]. by rewrite Heq.
Qed.

Lemma signature_not_failed b :
  ck_status (verify_signature b) ≠ Failed →
  ck_status (verify_signature b) = NotProved ∨
  ∃ pk s, hex_decode (dp_public_key (pb_deployment b)) = Some pk ∧ ed_verify pk (canonical_bytes b) s = true.
Proof.
  unfold verify_signature. destruct (negb _); [done|]. destruct (negb _); [by left|].
  destruct (hex_decode (dp_public_key _)) as [pk|]; [|done].
  destruct (hex_decode (bs_value _)) as [s|]; [|done].
  destruct (ed_verify _ _ _) eqn:Hv; [|done]. intros _. right. eauto.
Qed.

Lemma signature_name b : ck_name (verify_signature b) = str "bundle signature".
Proof. unfold verify_signature. repeat case_match; done. Qed.

Lemma identity_not_failed b pk :
  ck_status (verify_key_identity b (Some pk)) ≠ Failed →
  hex_decode (dp_public_key (pb_deployment b)) = Some pk.
Proof.
  unfold verify_key_identity. destruct (hex_decode _); [|done]. case_bool_decide; [by subst|done].
Qed.

(** C31: a verified bundle is the deployment's, and about this file. When a
    bundle verifies against a key the caller already held, and the signature is not
    among the checks reported as not proved, then the deployment signed it: it
    agrees in every field, times to the microsecond, with one of the bundles
    signed under that key, and the file at hand has the digest that bundle
    records. The assumption on Ed25519 is that no signature under the key exists
    on these bytes unless the deployment signed them. *)
Theorem verified_bundle_authentic (b : Bundle) (file : File) (pk : bytes) (v : Verdict) (signed : list Bundle)
    (Hok : bundle_ok b) (Hsigned : Forall bundle_ok signed)
    (Hunforged : ∀ s, ed_verify pk (canonical_bytes b) s = true → canonical_bytes b ∈ canonical_bytes <$> signed)
    (Hverify : verify_bundle b file (Some pk) = Ok v)
    (Hverdict : is_verified v = true)
    (Hproved : str "bundle signature" ∉ ck_name <$> unproved v) :
  ∃ issued content, issued ∈ signed ∧ signed_content b = signed_content issued ∧
    contents file = Some content ∧ hex_decode (pb_sha256 issued) = Some (digest content).
Proof.
  destruct (verify_bundle_checks _ _ _ _ Hverify) as (payload & Hpay & Hchecks & Hall).
  apply Hall in Hverdict. rewrite Hchecks in Hverdict.
  apply Forall_app in Hverdict as [Hfive _].
  apply Forall_cons in Hfive as [_ Hfive]. apply Forall_cons in Hfive as [_ Hfive].
  apply Forall_cons in Hfive as [Hsig Hfive]. apply Forall_cons in Hfive as [Hkey Hfive].
  apply Forall_cons in Hfive as [Hp _].
  destruct (payload_not_failed _ _ _ Hpay Hp) as (content & Hcontent & Hdigest).
  destruct (signature_not_failed _ Hsig) as [Hnot|(pk' & s & Hpk' & Hs)].
  { destruct Hproved. apply list_elem_of_fmap. exists (verify_signature b). split; [by rewrite signature_name|].
    unfold unproved. apply list_elem_of_filter. split; [done|]. rewrite Hchecks. set_solver. }
  rewrite (identity_not_failed _ _ Hkey) in Hpk'. injection Hpk' as <-.
  apply Hunforged, list_elem_of_fmap in Hs as (issued & Heq & Hissued).
  rewrite Forall_forall in Hsigned.
  assert (Hcontents : signed_content b = signed_content issued)
    by (apply canonical_bytes_determine; auto).
  exists issued, content. split_and!; [done|done|done|].
  rewrite <-Hdigest. apply (f_equal pb_sha256) in Hcontents. cbn in Hcontents. by rewrite Hcontents.
Qed.

(** ** History *)

Lemma inclusion_failure_None root leaf_count records :
  inclusion_failure root leaf_count records = None ↔
  Forall (λ r, ∃ rh, decode_digest (hr_record_hash r) = Ok rh ∧
                Merkle.verify_inclusion rh (hr_inclusion_path r) root leaf_count = true) records.
Proof.
  unfold Merkle.verify_inclusion.
  induction records as [|r records IH]; cbn [inclusion_failure]; [by split; [constructor|]|].
  rewrite Forall_cons, <-IH. destruct (decode_digest (hr_record_hash r)) as [rh|?]; [|naive_solver].
  destruct (Merkle.root_from_path rh (hr_inclusion_path r) leaf_count) as [computed|] eqn:Hp.
  - destruct (bool_decide_reflect (computed = root)) as [E|E].
    + split; [|tauto]. intros Hn. split; [|done]. exists rh. split; [done|]. rewrite Hp. by apply bool_decide_eq_true.
    + split; [done|]. intros [(rh' & [= <-] & Hv) _]. rewrite Hp in Hv. by apply bool_decide_eq_true in Hv.
  - split; [done|]. intros [(rh' & [= <-] & Hv) _]. by rewrite Hp in Hv.
Qed.

(** Records next to each other whose sequences are adjacent link. *)
Definition links (records : list HistoryRecord) : Prop :=
  ∀ i r r', records !! i = Some r → records !! S i = Some r' →
    hr_sequence r' = u64_add (hr_sequence r) 1 → hr_previous_hash r' = hr_record_hash r.

Lemma links_cons r r' rest :
  links (r :: r' :: rest) ↔
  (hr_sequence r' = u64_add (hr_sequence r) 1 → hr_previous_hash r' = hr_record_hash r) ∧ links (r' :: rest).
Proof.
  split.
  - intros Hl. split; [by apply (Hl 0%nat)|]. intros i x y Hx Hy. by apply (Hl (S i)).
  - intros [Hhead Hl] [|i] x y Hx Hy; [by simplify_eq/=|]. by apply (Hl i).
Qed.

Lemma links_loop_cons linked r r' rest :
  links_loop linked (r :: r' :: rest) =
    if negb (hr_sequence r' =? u64_add (hr_sequence r) 1) then links_loop linked (r' :: rest)
    else if negb (bool_decide (hr_previous_hash r' = hr_record_hash r)) then inl (r, r')
    else links_loop (linked + 1) (r' :: rest).
Proof. reflexivity. Qed.

Lemma links_loop_spec linked records : (∃ n, links_loop linked records = inr n) ↔ links records.
Proof.
  revert linked. induction records as [|r [|r' rest] IH]; intros linked.
  - split; [by intros _ [|?]|by exists linked].
  - split; [by intros _ [|?]|by exists linked].
  - rewrite links_cons, links_loop_cons.
    destruct (Z.eqb_spec (hr_sequence r') (u64_add (hr_sequence r) 1)) as [E|E]; cbn [negb].
    + destruct (bool_decide_reflect (hr_previous_hash r' = hr_record_hash r)) as [L|L]; cbn [negb].
      * rewrite IH. tauto.
      * split; [by intros [n ?]|]. intros [Hl _]. by destruct L; apply Hl.
    + rewrite IH. tauto.
Qed.

Lemma subseteq_app_r {A} (l m m' : list A) : m ⊆ m' → l ++ m ⊆ l ++ m'.
Proof. set_solver. Qed.

(** An accepted path is the path of a position. *)
Lemma quoted_position l root path rh leaf_count :
  collision_free_on (Merkle.root_preimages l ++ Merkle.path_preimages rh path) →
  Merkle.root l = Some root → Merkle.verify_inclusion rh path root leaf_count = true →
  ∃ i, l !! i = Some rh ∧
    Merkle.inclusion_path l i =
      Some {| Merkle.path_index := Z.of_nat i; Merkle.path_steps := Merkle.path_steps path |}.
Proof.
  unfold Merkle.verify_inclusion, Merkle.root_from_path. intros Hcf Hroot Hv.
  destruct (Merkle.path_length _ _) as [n|]; [|done]. cbn in Hv.
  destruct (decide _); [|done]. apply bool_decide_eq_true in Hv.
  destruct (Merkle.root_path_inv _ _ _ _ Hcf Hroot Hv) as (i & Hi & Hsteps). exists i. split; [done|].
  unfold Merkle.inclusion_path. pose proof (lookup_lt_Some _ _ _ Hi).
  destruct (Nat.leb_spec (length l) i); [lia|]. by rewrite Hsteps.
Qed.

(** The path preimages that a history makes the verifier hash. *)
Definition history_preimages (records : list HistoryRecord) : list bytes :=
  records ≫= λ r, match hex_decode (hr_record_hash r) with
                  | Some rh => Merkle.path_preimages rh (hr_inclusion_path r)
                  | None => []
                  end.

(** C32: a verified history quotes the log. When a bundle with a history
    verifies, with or without a known key, and its checkpoint root is the Merkle
    root of the record hashes [l], then each quoted record hash is in [l], with
    exactly the siblings of its position as its path; the checkpoint claims as
    many records as its leaf count says, computed in [u64]; and quoted records
    with adjacent sequences link. *)
Theorem verified_history_quotes_log (b : Bundle) (file : File) (k : option bytes) (v : Verdict)
    (records : list HistoryRecord) (checkpoint : Checkpoint) (anchor : option AnchorReceipt)
    (l : list bytes) (root : bytes)
    (Hhistory : pb_history b = Present records checkpoint anchor)
    (Hverify : verify_bundle b file k = Ok v)
    (Hverdict : is_verified v = true)
    (Hroot : Merkle.root l = Some root) (Hcp : hex_decode (cp_root checkpoint) = Some root)
    (Hcf : collision_free_on (Merkle.root_preimages l ++ history_preimages records)) :
  (∀ r, r ∈ records → ∃ i rh, l !! i = Some rh ∧ hex_decode (hr_record_hash r) = Some rh ∧
     Merkle.inclusion_path l i =
       Some {| Merkle.path_index := Z.of_nat i;
               Merkle.path_steps := Merkle.path_steps (hr_inclusion_path r) |}) ∧
  cp_leaf_count checkpoint = u64_add (u64_sub (cp_to_sequence checkpoint) (cp_from_sequence checkpoint)) 1 ∧
  links records.
Proof.
  destruct (verify_bundle_checks _ _ _ _ Hverify) as (payload & _ & Hchecks & Hall).
  apply Hall in Hverdict. rewrite Hchecks in Hverdict. apply Forall_app in Hverdict as [_ Hh].
  unfold verify_history in Hh. rewrite Hhistory in Hh.
  apply Forall_cons in Hh as [Hsize Hh]. apply Forall_cons in Hh as [Hincl Hh].
  apply Forall_cons in Hh as [Hlinks _]. split_and!.
  - intros r Hr. unfold verify_inclusion, decode_digest at 1 in Hincl. rewrite Hcp in Hincl.
    destruct (decide _) in Hincl; [|done].
    destruct (inclusion_failure _ _ _) eqn:Hnone in Hincl; [done|].
    rewrite inclusion_failure_None, Forall_forall in Hnone.
    destruct (Hnone r Hr) as (rh & Hrh & Hv). unfold decode_digest in Hrh.
    destruct (hex_decode (hr_record_hash r)) as [rh'|] eqn:Hdec; [|done].
    destruct (decide _) in Hrh; [|done]. injection Hrh as ->.
    destruct (quoted_position l root (hr_inclusion_path r) rh (cp_leaf_count checkpoint)) as (i & Hi & Hpath);
      [|done|done|by eauto].
    eapply collision_free_on_subset, Hcf. apply subseteq_app_r. intros x Hx.
    unfold history_preimages. apply list_elem_of_bind. exists r. by rewrite Hdec.
  - unfold verify_checkpoint_size in Hsize. destruct (_ <? _); [done|].
    destruct (Z.eqb_spec (u64_add (u64_sub (cp_to_sequence checkpoint) (cp_from_sequence checkpoint)) 1)
                (cp_leaf_count checkpoint)); [done|done].
  - apply (links_loop_spec 0). unfold verify_links in Hlinks.
    destruct (links_loop 0 records) as [[??]|n]; [done|eauto].
Qed.

(** ** Bundles of an honest deployment *)

(** A digest consists of bytes. *)
Class DigestBytes : Prop := digest_bytes : ∀ x, bytes_ok (digest x).
Context `{!HexLaws} `{!Ed25519Laws} `{!DigestBytes}.

Lemma decode_digest_encode x : bytes_ok x → length x = 32%nat → decode_digest (hex_encode x) = Ok x.
Proof. intros Hx Hl. unfold decode_digest. rewrite hex_decode_encode by done. by rewrite decide_True. Qed.

(** A record that quotes position [i] of the log segment [l], whose first
    sequence is [from]. *)
Definition quotes (l : list bytes) (from : Z) (r : HistoryRecord) : Prop :=
  ∃ i rh, l !! i = Some rh ∧ hr_sequence r = from + Z.of_nat i ∧ hr_record_hash r = hex_encode rh ∧
    Merkle.inclusion_path l i = Some (hr_inclusion_path r) ∧
    ∀ j previous, i = S j → l !! j = Some previous → hr_previous_hash r = hex_encode previous.

(** A history over the segment [l] of the log. *)
Definition history_over (l : list bytes) (h : History) : Prop :=
  match h with
  | Unavailable _ _ => True
  | Present records checkpoint anchor =>
      let from := cp_from_sequence checkpoint in
      0 ≤ from ∧ from + Z.of_nat (length l) ≤ u64_max ∧ Forall bytes_ok l ∧ Forall (λ rh, length rh = 32%nat) l ∧
      cp_to_sequence checkpoint = from + Z.of_nat (length l) - 1 ∧
      cp_leaf_count checkpoint = Z.of_nat (length l) ∧
      (∃ root, Merkle.root l = Some root ∧ cp_root checkpoint = hex_encode root) ∧
      Forall (quotes l from) records
  end.

Lemma root_digest l root : Merkle.root l = Some root → bytes_ok root ∧ length root = 32%nat.
Proof.
  intros Hroot. destruct (decide (l = [])) as [->|Hne]; [done|].
  destruct (Merkle.root_apex l Hne) as (apex & _ & Hr). rewrite Hr in Hroot. injection Hroot as <-.
  split; [apply digest_bytes|apply digest_length].
Qed.

Lemma quotes_links l from records :
  0 ≤ from → from + Z.of_nat (length l) ≤ u64_max → Forall (quotes l from) records → links records.
Proof.
  intros Hlo Hmax Hall i r r' Hr Hr' Hseq. rewrite Forall_lookup in Hall.
  destruct (Hall _ _ Hr) as (n & rh & Hn & Hs & Hh & _ & _).
  destruct (Hall _ _ Hr') as (n' & rh' & Hn' & Hs' & _ & _ & Hprev).
  pose proof (lookup_lt_Some _ _ _ Hn). pose proof (lookup_lt_Some _ _ _ Hn').
  unfold u64_add in Hseq. rewrite u64_wrap_id in Hseq by (unfold is_u64; lia).
  rewrite Hh. apply (Hprev n); [lia|done].
Qed.

Lemma history_over_checks l b :
  history_over l (pb_history b) → Forall (λ c, ck_status c ≠ Failed) (verify_history b).
Proof.
  unfold verify_history. destruct (pb_history b) as [reason detail|records cp anchor]; cbn [history_over].
  { intros _. by repeat constructor. }
  intros (Hlo & Hmax & Hbytes & Hlens & Hto & Hcount & (root & Hroot & Hcp) & Hq).
  destruct (root_digest _ _ Hroot) as [Hrb Hrl].
  assert (Hpos : (0 < length l)%nat) by (destruct l; [done|cbn; lia]).
  repeat apply Forall_cons_2; [| | |by destruct anchor|constructor].
  - unfold verify_checkpoint_size. rewrite (proj2 (Z.ltb_ge _ _)) by lia.
    rewrite (proj2 (Z.eqb_eq _ _)); [done|]. unfold u64_add, u64_sub.
    rewrite (u64_wrap_id (_ - _)) by (unfold is_u64; lia). rewrite u64_wrap_id by (unfold is_u64; lia). lia.
  - unfold verify_inclusion. rewrite Hcp, decode_digest_encode by done.
    replace (inclusion_failure _ _ _) with (@None bytes); [done|]. symmetry.
    apply inclusion_failure_None, Forall_forall. intros r Hr. rewrite Forall_forall in Hq.
    destruct (Hq r Hr) as (i & rh & Hi & _ & Hh & Hpath & _).
    exists rh. rewrite Hh. split.
    { apply decode_digest_encode; [by eapply (Forall_lookup_1 bytes_ok)|by eapply (Forall_lookup_1 _ _ _ _ Hlens)]. }
    destruct (Merkle.inclusion_path_verifies l i rh) as (path & root' & Hpath' & _ & Hroot' & Hv); [lia|done|].
    rewrite Hcount. by simplify_eq.
  - unfold verify_links. destruct (proj2 (links_loop_spec 0 records)) as [n ->]; [by eapply quotes_links|].
    by destruct (n =? 0).
Qed.

Lemma sign_signature signer b :
  ed_usable_seed (key_pair signer) = true → ck_status (verify_signature (sign signer b)) = Passed.
Proof.
  intros Hseed. unfold verify_signature. cbn [sign with_signature with_deployment pb_signature bs_algorithm
    bs_canonical_version bs_value pb_deployment deployment dp_public_key].
  rewrite bool_decide_eq_true_2 by done. cbn [negb]. rewrite Z.eqb_refl. cbn [negb].
  rewrite !hex_decode_encode by (apply ed_public_key_ok || apply ed_sign_ok).
  replace (canonical_bytes (sign signer b)) with (canonical_bytes (with_deployment b (deployment signer))) by done.
  unfold public_key. by rewrite ed_verify_sign.
Qed.

Lemma from_master_key_usable material signer :
  from_master_key material = Ok signer → ed_usable_seed (key_pair signer) = true.
Proof.
  unfold from_master_key. destruct (decide _); [done|]. destruct (Auth.hkdf_expand _ _ _); [|done].
  destruct (ed_usable_seed _) eqn:Hs; [|done]. by intros [= <-].
Qed.

(** The verdict on a signed bundle: the checks of the document pass. *)
Lemma sign_verdict signer b file content l :
  ed_usable_seed (key_pair signer) = true →
  pb_format b = BUNDLE_FORMAT → pb_format_version b = BUNDLE_FORMAT_VERSION →
  contents file = Some content → pb_sha256 b = hex_encode (digest content) → history_over l (pb_history b) →
  ∃ v, verify_bundle (sign signer b) file (Some (public_key signer)) = Ok v ∧ is_verified v = true ∧
    Forall (λ c, ck_status c = Passed) (take 5 (v_checks v)).
Proof.
  intros Hseed Hf Hv Hfile Hsha Hh.
  assert (Hd : digest_file file = Ok (digest content)) by (apply digest_file_contents; eauto).
  assert (Hp : ∃ p, verify_payload (sign signer b) file = Ok p ∧ ck_status p = Passed).
  { unfold verify_payload, payload_digest. cbn [sign with_signature with_deployment pb_sha256]. rewrite Hsha.
    rewrite hex_decode_encode by apply digest_bytes. rewrite decide_True by apply digest_length. rewrite Hd.
    cbn [mbind result_bind]. rewrite bool_decide_eq_true_2 by done. eexists. split; reflexivity. }
  destruct Hp as (p & Hp & Hps).
  assert (Hk : ck_status (verify_key_identity (sign signer b) (Some (public_key signer))) = Passed).
  { unfold verify_key_identity. cbn [sign with_signature with_deployment pb_deployment deployment dp_public_key].
    rewrite hex_decode_encode by apply ed_public_key_ok. by rewrite bool_decide_eq_true_2. }
  assert (Hfive : Forall (λ c, ck_status c = Passed)
    [verify_format (sign signer b); verify_version (sign signer b); verify_signature (sign signer b);
     verify_key_identity (sign signer b) (Some (public_key signer)); p]).
  { repeat apply Forall_cons_2; [| |by apply sign_signature|done|done|constructor].
    - unfold verify_format. cbn [sign with_signature with_deployment pb_format]. by rewrite bool_decide_eq_true_2.
    - unfold verify_version. cbn [sign with_signature with_deployment pb_format_version]. by rewrite Hv. }
  unfold verify_bundle. rewrite Hp. cbn [mbind result_bind]. eexists. split; [reflexivity|]. split; [|exact Hfive].
  apply verdict_of_verified, Forall_app. split; [|exact (history_over_checks l (sign signer b) Hh)].
  eapply Forall_impl; [exact Hfive|]. intros c Hc. by rewrite Hc.
Qed.

(** a bundle signed over the deployment's own log verifies. A signer
    derived from a master key signs a document of the current format about a file,
    with no history or with records quoted from a segment of the log under the
    checkpoint of that segment: against the deployment's key the verdict is
    verified, with format, version, signature, identity and payload all passed. *)
Theorem signed_bundle_verifies (material : bytes) (signer : BundleSigner) (b : Bundle) (file : File)
    (content : bytes) (l : list bytes)
    (Hsigner : from_master_key material = Ok signer)
    (Hformat : pb_format b = BUNDLE_FORMAT) (Hversion : pb_format_version b = BUNDLE_FORMAT_VERSION)
    (Hfile : contents file = Some content) (Hsha : pb_sha256 b = hex_encode (digest content))
    (Hhistory : history_over l (pb_history b)) :
  ∃ v, verify_bundle (sign signer b) file (Some (public_key signer)) = Ok v ∧ is_verified v = true ∧
    Forall (λ c, ck_status c = Passed) (take 5 (v_checks v)).
Proof. eapply sign_verdict; try done. by eapply from_master_key_usable. Qed.

Lemma filter_passed checks rest :
  Forall (λ c, ck_status c = Passed) checks →
  filter (λ c, ck_status c = NotProved) (checks ++ rest) = filter (λ c, ck_status c = NotProved) rest.
Proof. induction 1 as [|c checks Hc Hl IH]; [done|]. cbn [app]. rewrite filter_cons_False; [done|]. by rewrite Hc. Qed.

(** what the API issues, anyone can check. The bundle that the management
    API returns for an object verifies against every file with the object's
    contents, however the reads divide it, and reports exactly the audit history
    and the external anchor as not proved. *)
Theorem object_proof_verifies `{UuidCrate} (material : bytes) (signer : BundleSigner) (name : bytes)
    (metadata : ObjectMetadata) (file : File) (content : bytes)
    (Hsigner : from_master_key material = Ok signer)
    (Hfile : contents file = Some content) (Hchecksum : checksum_digest (o_checksum metadata) = digest content) :
  ∃ v, verify_bundle (object_proof signer name metadata) file (Some (public_key signer)) = Ok v ∧
    is_verified v = true ∧ ck_name <$> unproved v = [str "audit history"; str "external anchor"].
Proof.
  destruct (sign_verdict signer
    {| pb_format := BUNDLE_FORMAT; pb_format_version := BUNDLE_FORMAT_VERSION;
       pb_object := {| oi_bucket := name; oi_key := o_key metadata;
                       oi_version_id := uuid_to_string (o_version_id metadata); oi_size := o_size metadata;
                       oi_content_type := o_content_type metadata; oi_created_at := o_created_at metadata |};
       pb_sha256 := payload_sha256 metadata;
       pb_history := Unavailable NotYetCheckpointed HISTORY_DETAIL;
       pb_deployment := {| dp_algorithm := []; dp_public_key := []; dp_key_id := [] |};
       pb_signature := {| bs_algorithm := []; bs_canonical_version := 0; bs_value := [] |} |}
    file content []) as (v & Hv & Hok & Hfive);
    [by eapply from_master_key_usable|done|done|done| |done|].
  { cbn [pb_sha256]. unfold payload_sha256, checksum_to_string. destruct (checksum_algorithm _).
    rewrite Hchecksum. reflexivity. }
  exists v. split; [exact Hv|]. split; [done|].
  destruct (verify_bundle_checks _ _ _ _ Hv) as (payload & _ & Hchecks & _). unfold unproved.
  rewrite Hchecks in Hfive |- *. exact (f_equal (fmap ck_name) (filter_passed _ (verify_history _) Hfive)).
Qed.

(** ** What a verdict leaves open *)

(** an unknown encoding turns the signature off. The canonical version is
    not among the signed bytes. A document about any object and any content,
    signed by nobody, that carries a deployment's public key and any canonical
    version but this build's is reported as verified when checked against that
    very key, and its identity check passes with the sentence that the expected
    key signed it. *)
Theorem unknown_encoding_skips_signature (object : ObjectIdentity) (content pk value : bytes) (version : Z)
    (reason : HistoryUnavailable) (detail : bytes)
    (Hpk : bytes_ok pk) (Hversion : version ≠ BUNDLE_CANONICAL_VERSION) :
  let forged :=
    {| pb_format := BUNDLE_FORMAT; pb_format_version := BUNDLE_FORMAT_VERSION; pb_object := object;
       pb_sha256 := hex_encode (digest content); pb_history := Unavailable reason detail;
       pb_deployment := {| dp_algorithm := SIGNATURE_ALGORITHM; dp_public_key := hex_encode pk;
                           dp_key_id := key_id pk |};
       pb_signature := {| bs_algorithm := SIGNATURE_ALGORITHM; bs_canonical_version := version;
                          bs_value := value |} |} in
  ∃ v, verify_bundle forged (Ok [Ok content]) (Some pk) = Ok v ∧ is_verified v = true ∧
    passed (str "deployment identity") (str "signed by the expected deployment key (id " ++ key_id pk ++ str ")")
      ∈ v_checks v.
Proof.
  intros forged.
  assert (Hs : ck_status (verify_signature forged) = NotProved).
  { unfold verify_signature. cbn [forged pb_signature bs_algorithm bs_canonical_version].
    rewrite bool_decide_eq_true_2 by done. cbn [negb]. by rewrite (proj2 (Z.eqb_neq _ _)) by done. }
  assert (Hk : verify_key_identity forged (Some pk) =
    passed (str "deployment identity") (str "signed by the expected deployment key (id " ++ key_id pk ++ str ")")).
  { unfold verify_key_identity. cbn [forged pb_deployment dp_public_key dp_key_id].
    rewrite hex_decode_encode by done. by rewrite bool_decide_eq_true_2. }
  assert (Hp : ∃ p, verify_payload forged (Ok [Ok content]) = Ok p ∧ ck_status p = Passed).
  { unfold verify_payload, payload_digest. cbn [forged pb_sha256].
    rewrite hex_decode_encode by apply digest_bytes. rewrite decide_True by apply digest_length.
    rewrite (proj2 (digest_file_contents (Ok [Ok content]) (digest content)))
      by (exists content; split; [destruct content; cbn; by rewrite ?app_nil_r|done]).
    cbn [mbind result_bind]. rewrite bool_decide_eq_true_2 by done. eexists. split; reflexivity. }
  destruct Hp as (p & Hp & Hps). unfold verify_bundle. rewrite Hp. cbn [mbind result_bind].
  eexists. split; [reflexivity|]. split.
  - apply verdict_of_verified. cbn [app verify_history forged pb_history]. repeat apply Forall_cons_2; try done.
    + by rewrite Hs.
    + by rewrite Hk.
    + by rewrite Hps.
  - cbn [verdict_of v_checks app]. rewrite Hk. set_solver.
Qed.

Definition with_sequence (r : HistoryRecord) (sequence : Z) : HistoryRecord :=
  {| hr_sequence := sequence; hr_timestamp := hr_timestamp r; hr_operation := hr_operation r;
     hr_principal := hr_principal r; hr_result := hr_result r; hr_previous_hash := hr_previous_hash r;
     hr_record_hash := hr_record_hash r; hr_inclusion_path := hr_inclusion_path r |}.

(** a quoted record may claim any sequence. The checks of a history with
    one record come out the same whatever sequence the record carries, inside the
    range of the checkpoint or not. *)
Theorem quoted_sequence_unchecked (b b' : Bundle) (r : HistoryRecord) (sequence : Z) (checkpoint : Checkpoint)
    (anchor : option AnchorReceipt)
    (Hb : pb_history b = Present [r] checkpoint anchor)
    (Hb' : pb_history b' = Present [with_sequence r sequence] checkpoint anchor) :
  ck_status <$> verify_history b = ck_status <$> verify_history b'.
Proof.
  unfold verify_history. rewrite Hb, Hb'. cbn [fmap list_fmap]. f_equal. f_equal.
  unfold verify_inclusion. destruct (decode_digest (cp_root checkpoint)) as [root|]; [|done].
  cbn [inclusion_failure with_sequence hr_record_hash hr_inclusion_path].
  destruct (decode_digest (hr_record_hash r)) as [rh|]; [|done].
  destruct (Merkle.root_from_path _ _ _); [|done]. by case_bool_decide.
Qed.

(** a checkpoint of no leaves passes for the full range. A history without
    records whose checkpoint claims every [u64] sequence and a tree of no leaves
    has no failing check: the count of the range wraps to zero. *)
Theorem full_range_without_leaves (b : Bundle) (number : Z) (root previous : bytes) (anchor : option AnchorReceipt)
    (Hroot : bytes_ok root) (Hlength : length root = 32%nat)
    (Hb : pb_history b = Present []
      {| cp_sequence := number; cp_from_sequence := 0; cp_to_sequence := u64_max; cp_leaf_count := 0;
         cp_root := hex_encode root; cp_previous_checkpoint_hash := previous |} anchor) :
  ck_status <$> take 2 (verify_history b) = [Passed; Passed].
Proof.
  unfold verify_history. rewrite Hb. cbn [take fmap list_fmap]. f_equal. unfold verify_inclusion.
  cbn [cp_root]. by rewrite decode_digest_encode.
Qed.
End Properties.

End ProofBundleTheorems.

(** * Concrete proof bundles

    Hexadecimal as the [hex] crate reads and writes it, a signature scheme with
    the laws of Ed25519 (a signature is the key and the message), and a deployment
    that quotes two of three records of its log; the properties of
    [ProofBundleTheorems] at these inputs. *)

Import Names CoreTypes ProofBundle ProofBundleTheorems.

Module ProofBundleSamples.

(** ** Hexadecimal *)

Definition to_digit (n : Z) : Z := if n <? 10 then 48 + n else 87 + n.
Definition of_digit (b : Z) : option Z :=
  if (48 <=? b) && (b <=? 57) then Some (b - 48)
  else if (97 <=? b) && (b <=? 102) then Some (b - 87)
  else if (65 <=? b) && (b <=? 70) then Some (b - 55)
  else None.

Definition to_hex (l : bytes) : bytes := l ≫= λ b, [to_digit (b / 16); to_digit (b mod 16)].
Fixpoint from_hex (l : bytes) : option bytes :=
  match l with
  | [] => Some []
  | [_] => None
  | a :: b :: l => x ← of_digit a; y ← of_digit b; rest ← from_hex l; Some (x * 16 + y :: rest)
  end.

Lemma of_to_digit n : 0 ≤ n < 16 → of_digit (to_digit n) = Some n.
Proof. intros Hn. unfold of_digit, to_digit. repeat case_match; bool_facts; try (f_equal; lia); lia. Qed.

Lemma from_to_hex l : bytes_ok l → from_hex (to_hex l) = Some l.
Proof.
  induction 1 as [|b l Hb Hl IH]; [done|]. unfold byte_ok in Hb.
  change (to_hex (b :: l)) with (to_digit (b / 16) :: to_digit (b mod 16) :: to_hex l).
  cbn [from_hex]. rewrite !of_to_digit by (Z.to_euclidean_division_equations; lia). cbn [mbind option_bind].
  rewrite IH. cbn. do 2 f_equal. Z.to_euclidean_division_equations; lia.
Qed.

#[export] Instance sample_hex : HexCrate := {| hex_encode := to_hex; hex_decode := from_hex |}.
#[export] Instance sample_hex_laws : HexLaws.
Proof.
  split; [exact from_to_hex|]. intros l. induction l as [|b l IH]; [done|].
  cbn in *. unfold to_hex in IH. rewrite IH. lia.
Qed.

(** ** Signatures and digests *)

Definition plain (m : bytes) : bytes := (λ b, b mod 256) <$> m.
Lemma plain_ok m : bytes_ok (plain m).
Proof. apply Forall_fmap, Forall_forall. intros b _. cbn. unfold byte_ok. apply Z.mod_pos_bound. lia. Qed.
Definition toy_key (seed : bytes) : bytes := take 32 (plain seed ++ replicate 32 0).

#[export] Instance sample_ed25519 : Ed25519 :=
  {| ed_usable_seed seed := bool_decide (length seed = 32%nat); ed_public_key := toy_key;
     ed_sign seed message := toy_key seed ++ plain message;
     ed_verify pk message signature := bool_decide (signature = pk ++ plain message) |}.

Lemma toy_key_ok seed : bytes_ok (toy_key seed).
Proof.
  apply Forall_take, Forall_app. split; [apply plain_ok|]. apply Forall_replicate. unfold byte_ok. lia.
Qed.
#[export] Instance sample_ed25519_laws : Ed25519Laws.
Proof.
  split; cbn -[toy_key].
  - intros seed message _. by apply bool_decide_eq_true.
  - exact toy_key_ok.
  - intros seed. unfold toy_key. rewrite length_take, length_app, length_replicate. lia.
  - intros seed message. apply Forall_app. split; [apply toy_key_ok|apply plain_ok].
Qed.

#[export] Instance sample_hkdf : Auth.Cryptography_ := {|
  Auth.aead_encrypt _ _ _ text := Some text; Auth.aead_decrypt _ _ _ text := Some text;
  Auth.hkdf_expand salt material _ := Some (take 32 (material ++ salt)) |}.
#[export] Instance sample_digest : HashFunction := sha256_function.
#[export] Instance sample_digest_bytes : DigestBytes.
Proof.
  intros x. cbn [digest sample_digest sha256_function]. unfold Sha256.hash.
  repeat (apply Forall_app; split); apply be_bytes_ok.
Qed.
#[export] Instance proof_uuids : UuidCrate := {| new_v5 := λ _ m, take 16 m; uuid_to_string := λ id, id |}.

(** ** A deployment *)

Definition master_key : bytes := str "master-key-at-least-32-bytes-long!!".
Definition signer : BundleSigner := {| key_pair := take 32 master_key |}.
Definition payload : bytes := str "quarterly statement, Q1 2026".
Definition log_root : bytes := of_hex "47fa39c6153969ee2a062be28a9768fcc9db8418eb5d04a8b04a0adaff362c36".

(** The record at position [i] of the sample log, whose first sequence is 100. *)
Definition quote (i : nat) : HistoryRecord :=
  {| hr_sequence := 100 + Z.of_nat i; hr_timestamp := 1772359200000000000; hr_operation := str "s3:PUT";
     hr_principal := str "service_account:app"; hr_result := str "success";
     hr_previous_hash := to_hex (default [] (Merkle.sample !! Nat.pred i));
     hr_record_hash := to_hex (default [] (Merkle.sample !! i));
     hr_inclusion_path :=
       default {| Merkle.path_index := 0; Merkle.path_steps := [] |} (Merkle.inclusion_path Merkle.sample i) |}.

Definition sample_checkpoint : Checkpoint :=
  {| cp_sequence := 7; cp_from_sequence := 100; cp_to_sequence := 102; cp_leaf_count := 3;
     cp_root := to_hex log_root; cp_previous_checkpoint_hash := to_hex (replicate 32 1) |}.

Definition draft : Bundle :=
  {| pb_format := BUNDLE_FORMAT; pb_format_version := BUNDLE_FORMAT_VERSION;
     pb_object := {| oi_bucket := str "records"; oi_key := str "statement.pdf"; oi_version_id := str "v1";
                     oi_size := 28; oi_content_type := Some (str "application/pdf");
                     oi_created_at := 1772359200000000000 |};
     pb_sha256 := to_hex (Sha256.hash payload);
     pb_history := Present [quote 0; quote 1] sample_checkpoint None;
     pb_deployment := {| dp_algorithm := []; dp_public_key := []; dp_key_id := [] |};
     pb_signature := {| bs_algorithm := []; bs_canonical_version := 0; bs_value := [] |} |}.

Definition issued : Bundle := sign signer draft.
Definition object_file : File := Ok [Ok (take 10 payload); Ok (drop 10 payload)].
Definition sample_verdict : Verdict :=
  match verify_bundle issued object_file (Some (public_key signer)) with
  | Ok v => v
  | Err _ => verdict_of []
  end.

Lemma sample_verify : verify_bundle issued object_file (Some (public_key signer)) = Ok sample_verdict.
Proof. vm_compute. reflexivity. Qed.

Lemma sample_log : Merkle.root Merkle.sample = Some log_root.
Proof. vm_compute. reflexivity. Qed.

Lemma sample_history : history_over Merkle.sample (pb_history draft).
Proof.
  change (pb_history draft) with (Present [quote 0; quote 1] sample_checkpoint None).
  cbn [history_over sample_checkpoint cp_from_sequence cp_to_sequence cp_leaf_count cp_root].
  replace (Z.of_nat (length Merkle.sample)) with 3 by reflexivity.
  split; [lia|]. split; [unfold u64_max; lia|].
  split; [apply (bool_decide_unpack _); vm_compute; exact I|].
  split; [apply (bool_decide_unpack _); vm_compute; exact I|].
  split; [done|]. split; [done|]. split; [exists log_root; split; [exact sample_log|done]|].
  assert (Hq : ∀ i rh, Merkle.sample !! i = Some rh → quotes Merkle.sample 100 (quote i)).
  { intros i rh Hi. exists i, rh. split; [done|]. split; [done|]. cbn [quote hr_record_hash hr_previous_hash hr_inclusion_path].
    split; [by rewrite Hi|]. split.
    - unfold Merkle.inclusion_path. pose proof (lookup_lt_Some _ _ _ Hi).
      destruct (Nat.leb_spec (length Merkle.sample) i); [lia|done].
    - intros j previous -> Hj. cbn [Nat.pred]. by rewrite Hj. }
  repeat apply Forall_cons_2; [..|constructor]; eapply Hq; reflexivity.
Qed.

Lemma verified_bundle_authentic_witness :
  ∃ issued' content, issued' ∈ [issued] ∧ signed_content issued = signed_content issued' ∧
    contents object_file = Some content ∧ hex_decode (pb_sha256 issued') = Some (digest content).
Proof.
  apply (verified_bundle_authentic issued object_file (public_key signer) sample_verdict [issued]).
  - apply (bool_decide_unpack _). vm_compute. exact I.
  - apply (bool_decide_unpack _). vm_compute. exact I.
  - intros s _. apply list_elem_of_fmap. exists issued. split; [reflexivity|]. apply list_elem_of_singleton. reflexivity.
  - exact sample_verify.
  - vm_compute. reflexivity.
  - apply (bool_decide_unpack _). vm_compute. exact I.
Defined.

Lemma verified_history_quotes_log_witness :
  (∀ r, r ∈ [quote 0; quote 1] → ∃ i rh, Merkle.sample !! i = Some rh ∧ hex_decode (hr_record_hash r) = Some rh ∧
     Merkle.inclusion_path Merkle.sample i =
       Some {| Merkle.path_index := Z.of_nat i;
               Merkle.path_steps := Merkle.path_steps (hr_inclusion_path r) |}) ∧
  cp_leaf_count sample_checkpoint =
    u64_add (u64_sub (cp_to_sequence sample_checkpoint) (cp_from_sequence sample_checkpoint)) 1 ∧
  links [quote 0; quote 1].
Proof.
  apply (verified_history_quotes_log issued object_file (Some (public_key signer)) sample_verdict
    [quote 0; quote 1] sample_checkpoint None Merkle.sample log_root).
  - reflexivity.
  - exact sample_verify.
  - vm_compute. reflexivity.
  - exact sample_log.
  - vm_compute. reflexivity.
  - apply collision_free_onb_sound. vm_compute. reflexivity.
Defined.

Lemma signed_bundle_verifies_witness :
  ∃ v, verify_bundle (sign signer draft) object_file (Some (public_key signer)) = Ok v ∧ is_verified v = true ∧
    Forall (λ c, ck_status c = Passed) (take 5 (v_checks v)).
Proof.
  apply (signed_bundle_verifies master_key signer draft object_file payload Merkle.sample).
  - vm_compute. reflexivity.
  - reflexivity.
  - reflexivity.
  - vm_compute. reflexivity.
  - reflexivity.
  - exact sample_history.
Defined.

Definition statement : ObjectMetadata :=
  {| o_id := []; o_bucket_id := []; o_key := str "statement.pdf"; o_version_id := str "v1"; o_size := 28;
     o_checksum := {| checksum_algorithm := Sha256Checksum; checksum_digest := Sha256.hash payload |};
     o_payload_format := Plaintext; o_durability := Single;
     o_etag := []; o_content_type := None; o_custom_metadata := ∅; o_created_at := 0; o_modified_at := 0 |}.

Lemma object_proof_verifies_witness :
  ∃ v, verify_bundle (object_proof signer (str "records") statement) object_file (Some (public_key signer)) = Ok v ∧
    is_verified v = true ∧ ck_name <$> unproved v = [str "audit history"; str "external anchor"].
Proof.
  apply (object_proof_verifies master_key signer (str "records") statement object_file payload).
  - vm_compute. reflexivity.
  - vm_compute. reflexivity.
  - reflexivity.
Defined.

Definition stranger : bytes := str "not the statement".

Lemma unknown_encoding_skips_signature_witness :
  ∃ v, verify_bundle
    {| pb_format := BUNDLE_FORMAT; pb_format_version := BUNDLE_FORMAT_VERSION; pb_object := pb_object draft;
       pb_sha256 := hex_encode (digest stranger); pb_history := Unavailable NotYetCheckpointed [];
       pb_deployment := {| dp_algorithm := SIGNATURE_ALGORITHM; dp_public_key := hex_encode (public_key signer);
                           dp_key_id := key_id (public_key signer) |};
       pb_signature := {| bs_algorithm := SIGNATURE_ALGORITHM; bs_canonical_version := 2; bs_value := [] |} |}
    (Ok [Ok stranger]) (Some (public_key signer)) = Ok v ∧ is_verified v = true ∧
    passed (str "deployment identity")
      (str "signed by the expected deployment key (id " ++ key_id (public_key signer) ++ str ")") ∈ v_checks v.
Proof.
  apply (unknown_encoding_skips_signature (pb_object draft) stranger (public_key signer) [] 2 NotYetCheckpointed []).
  - apply toy_key_ok.
  - discriminate.
Defined.

Definition relabelled : Bundle :=
  {| pb_format := pb_format draft; pb_format_version := pb_format_version draft; pb_object := pb_object draft;
     pb_sha256 := pb_sha256 draft;
     pb_history := Present [with_sequence (quote 0) 9999] sample_checkpoint None;
     pb_deployment := pb_deployment draft; pb_signature := pb_signature draft |}.
Definition labelled : Bundle :=
  {| pb_format := pb_format draft; pb_format_version := pb_format_version draft; pb_object := pb_object draft;
     pb_sha256 := pb_sha256 draft; pb_history := Present [quote 0] sample_checkpoint None;
     pb_deployment := pb_deployment draft; pb_signature := pb_signature draft |}.

Lemma quoted_sequence_unchecked_witness :
  ck_status <$> verify_history labelled = ck_status <$> verify_history relabelled.
Proof. exact (quoted_sequence_unchecked labelled relabelled (quote 0) 9999 sample_checkpoint None eq_refl eq_refl). Defined.

Definition hollow : Bundle :=
  {| pb_format := pb_format draft; pb_format_version := pb_format_version draft; pb_object := pb_object draft;
     pb_sha256 := pb_sha256 draft;
     pb_history := Present []
       {| cp_sequence := 7; cp_from_sequence := 0; cp_to_sequence := u64_max; cp_leaf_count := 0;
          cp_root := hex_encode log_root; cp_previous_checkpoint_hash := [] |} None;
     pb_deployment := pb_deployment draft; pb_signature := pb_signature draft |}.

Lemma full_range_without_leaves_witness : ck_status <$> take 2 (verify_history hollow) = [Passed; Passed].
Proof.
  apply (full_range_without_leaves hollow 7 log_root [] None).
  - apply (bool_decide_unpack _). vm_compute. exact I.
  - reflexivity.
  - reflexivity.
Defined.

End ProofBundleSamples.
