(* ===== verification/Payload.v ===== *)
(** * Payload files

    [crates/record-store-storage/src]: what a payload file holds and how it is
    read back. [error.rs], [integrity.rs] (the checks of the read path),
    [encryption.rs] (the encrypted envelope: a header that wraps a data key, then
    chunks sealed one by one) and [layout.rs] (its constants).

    A stream is the list of its items; a download ends after its first error.
    AES-GCM and HKDF are those of [Auth]; random bytes are arguments, [None] where
    the operating system has none. A failing write to the file is not an outcome of
    these functions: it abandons the file, whatever was written. *)

From S2P Require Import Prelude Bytes Digest ObjectLock CoreTypes Catalog Commands Auth Names.
Import ObjectLock CoreTypes Catalog Commands Names.

Module Payload.

(** ** Failures ([error.rs]); those of tasks and devices are left out *)

Inductive StorageError :=
  | StorageBucketNotFound
  | StorageObjectNotFound
  | InvalidRequest (e : CoreError)
  | ChecksumMismatch (expected actual : Checksum)
  | StorageDeleteMarker (version_id : bytes)
  | UploadFailed (reason : bytes)
  | Filesystem (operation : string)
  | StorageMetadata (e : MetadataError)
  | InconsistentState
  | IntegrityMismatch
  | EncryptionKeyRequired
  | EncryptionKeyMismatch
  | StorageCryptography
  | Coordination
  | ClusterUnavailable (reason : bytes)
  | DurabilityNotMet (required achieved : Z) (detail : bytes)
  | NoHealthyReplica.

(** ** Streams ([types.rs]) *)

Definition UploadStream : Type := list (result bytes bytes).
Definition DownloadStream : Type := list (result StorageError bytes).

(** The bytes of a stream that ends without an error. *)
Fixpoint collected {E} (items : list (result E bytes)) : option bytes :=
  match items with
  | [] => Some []
  | Ok chunk :: items => app chunk <$> collected items
  | Err _ :: _ => None
  end.

(** The bytes released before a stream ends or fails. *)
Fixpoint released {E} (items : list (result E bytes)) : bytes :=
  match items with
  | Ok chunk :: items => chunk ++ released items
  | _ => []
  end.

(** ** Constants ([layout.rs]) *)

Definition ENCRYPTED_PAYLOAD_MAGIC : bytes := str "RSOBJV01".
Definition OBJECT_ENCRYPTION_FORMAT_VERSION : Z := 1.
Definition ENCRYPTED_PAYLOAD_HEADER_LEN : nat := 124.
Definition ENCRYPTED_PAYLOAD_CHUNK_SIZE : nat := Z.to_nat (64 * 1024).
Definition AES_GCM_TAG_LEN : nat := 16.

Record ObjectEncryption := { key_encryption_key : bytes; key_reference : bytes }.

Record WrittenPayload := {
  w_size : Z; w_checksum : Checksum; w_etag : bytes; w_payload_format : PayloadFormat }.

Section Operations.
Context `{HashFunction} `{HexCrate} `{Md5Crate} `{Auth.Cryptography_}.

Definition checksum_sha256 (body : bytes) : Checksum :=
  {| checksum_algorithm := Sha256Checksum; checksum_digest := digest body |}.
Definition etag_from_md5 (body : bytes) : bytes := hex_encode (md5 body).

(** ** The read path ([integrity.rs]) *)

Definition verify_physical_length (physical expected : Z) : result StorageError () :=
  if physical =? expected then Ok () else Err IntegrityMismatch.

(** The items of the stream, one chunk late: [held] is the chunk kept back and
    [hashed] what the hasher has seen. *)
Fixpoint verifying_loop (body : DownloadStream) (expected : Checksum) (hashed : bytes) (held : option bytes)
    : DownloadStream :=
  match body with
  | [] =>
      if bool_decide (checksum_sha256 hashed = expected) then Ok <$> option_list held
      else [Err IntegrityMismatch]
  | Err e :: _ => [Err e]
  | Ok chunk :: body =>
      if bool_decide (chunk = []) then verifying_loop body expected hashed held
      else (Ok <$> option_list held) ++ verifying_loop body expected (hashed ++ chunk) (Some chunk)
  end.
Definition verifying_stream (body : DownloadStream) (expected : Checksum) : DownloadStream :=
  verifying_loop body expected [] None.

(** ** Plaintext payloads *)

(** The size that is counted and the bytes that are written and hashed. *)
Fixpoint write_plaintext_loop (body : UploadStream) (size : Z) (file : bytes) : result StorageError (Z * bytes) :=
  match body with
  | [] => Ok (size, file)
  | Err reason :: _ => Err (UploadFailed reason)
  | Ok chunk :: body =>
      size ← ok_or (Filesystem "count upload bytes") (u64_checked_add size (Z.of_nat (length chunk)));
      write_plaintext_loop body size (file ++ chunk)
  end.

Definition write_plaintext_payload (body : UploadStream) : result StorageError (WrittenPayload * bytes) :=
  '(size, file) ← write_plaintext_loop body 0 [];
  Ok ({| w_size := size; w_checksum := checksum_sha256 file; w_etag := etag_from_md5 file;
         w_payload_format := Plaintext |}, file).

(** ** The envelope *)

Definition content_chunk_nonce (prefix : bytes) (index : Z) : bytes := prefix ++ be_bytes 4 index.
Definition content_chunk_aad (object_id : bytes) (index plaintext_len : Z) : bytes :=
  ENCRYPTED_PAYLOAD_MAGIC ++ object_id ++ be_bytes 4 index ++ be_bytes 4 plaintext_len.

Definition write_encrypted_chunk (data_key object_id content_nonce : bytes) (index : Z) (plaintext : bytes)
    : result StorageError bytes :=
  ok_or StorageCryptography
    (Auth.aead_encrypt data_key (content_chunk_nonce content_nonce index)
       (content_chunk_aad object_id index (Z.of_nat (length plaintext))) plaintext).

(** The first 76 bytes of the header, which authenticate the wrapped key. *)
Definition header_prefix (encryption : ObjectEncryption) (object_id : bytes) (size : Z)
    (wrap_nonce content_nonce : bytes) : bytes :=
  ENCRYPTED_PAYLOAD_MAGIC ++ be_bytes 2 OBJECT_ENCRYPTION_FORMAT_VERSION ++ [1; 0] ++
  be_bytes 4 (Z.of_nat ENCRYPTED_PAYLOAD_CHUNK_SIZE) ++ be_bytes 8 size ++ object_id ++
  key_reference encryption ++ wrap_nonce ++ content_nonce.

Definition encode_encrypted_header (encryption : ObjectEncryption) (object_id : bytes) (size : Z)
    (data_key content_nonce : bytes) (random : option bytes) : result StorageError bytes :=
  wrap_nonce ← ok_or StorageCryptography random;
  let header := header_prefix encryption object_id size wrap_nonce content_nonce in
  wrapped_key ← ok_or StorageCryptography
    (Auth.aead_encrypt (key_encryption_key encryption) wrap_nonce header data_key);
  if negb (length wrapped_key =? 48)%nat then Err StorageCryptography
  else Ok (header ++ wrapped_key).

(** The writer: the sealed chunks so far, the bytes of the next one, and what
    was counted and hashed. *)
Record Writer := { wr_chunks : bytes; wr_pending : bytes; wr_index : Z; wr_size : Z; wr_hashed : bytes }.

Section Writing.
Variables (data_key object_id content_nonce : bytes).

Definition seal_pending (st : Writer) : result StorageError Writer :=
  ciphertext ← write_encrypted_chunk data_key object_id content_nonce (wr_index st) (wr_pending st);
  Ok {| wr_chunks := wr_chunks st ++ ciphertext; wr_pending := []; wr_index := wr_index st;
        wr_size := wr_size st; wr_hashed := wr_hashed st |}.

Definition next_index (st : Writer) : result StorageError Writer :=
  if wr_index st + 1 <=? u32_max
  then Ok {| wr_chunks := wr_chunks st; wr_pending := wr_pending st; wr_index := wr_index st + 1;
             wr_size := wr_size st; wr_hashed := wr_hashed st |}
  else Err StorageCryptography.

(** The inner loop; each round takes at least one byte. *)
Fixpoint fill (fuel : nat) (remaining : bytes) (st : Writer) : result StorageError Writer :=
  match fuel with
  | O => Ok st
  | S fuel =>
      if bool_decide (remaining = []) then Ok st
      else
        let n := Nat.min (ENCRYPTED_PAYLOAD_CHUNK_SIZE - length (wr_pending st)) (length remaining) in
        let st := {| wr_chunks := wr_chunks st; wr_pending := wr_pending st ++ take n remaining;
                     wr_index := wr_index st; wr_size := wr_size st; wr_hashed := wr_hashed st |} in
        let remaining := drop n remaining in
        if (length (wr_pending st) =? ENCRYPTED_PAYLOAD_CHUNK_SIZE)%nat then
          st ← seal_pending st; st ← next_index st; fill fuel remaining st
        else fill fuel remaining st
  end.

Fixpoint write_loop (body : UploadStream) (st : Writer) : result StorageError Writer :=
  match body with
  | [] => Ok st
  | Err reason :: _ => Err (UploadFailed reason)
  | Ok chunk :: body =>
      size ← ok_or (Filesystem "count upload bytes") (u64_checked_add (wr_size st) (Z.of_nat (length chunk)));
      let st := {| wr_chunks := wr_chunks st; wr_pending := wr_pending st; wr_index := wr_index st;
                   wr_size := size; wr_hashed := wr_hashed st ++ chunk |} in
      st ← fill (length chunk) chunk st;
      write_loop body st
  end.

Definition write_last (st : Writer) : result StorageError Writer :=
  if negb (bool_decide (wr_pending st = [])) || (wr_size st =? 0) then seal_pending st else Ok st.
End Writing.

Definition writer_new : Writer :=
  {| wr_chunks := []; wr_pending := []; wr_index := 0; wr_size := 0; wr_hashed := [] |}.

(** The random bytes are the data key, the content nonce and the wrapping nonce. *)
Definition write_encrypted_payload (object_id : bytes) (body : UploadStream) (encryption : ObjectEncryption)
    (random_key random_content random_wrap : option bytes) : result StorageError (WrittenPayload * bytes) :=
  data_key ← ok_or StorageCryptography random_key;
  content_nonce ← ok_or StorageCryptography random_content;
  st ← write_loop data_key object_id content_nonce body writer_new;
  st ← write_last data_key object_id content_nonce st;
  header ← encode_encrypted_header encryption object_id (wr_size st) data_key content_nonce random_wrap;
  Ok ({| w_size := wr_size st; w_checksum := checksum_sha256 (wr_hashed st);
         w_etag := etag_from_md5 (wr_hashed st); w_payload_format := Aes256GcmEnvelopeV1 |},
      header ++ wr_chunks st).

(** ** Reading the envelope *)

Definition slice (from to : nat) (l : bytes) : bytes := take (to - from) (drop from l).

Definition decode_encrypted_header (header : bytes) (encryption : ObjectEncryption) (object_id : bytes) (size : Z)
    : result StorageError (bytes * bytes) :=
  if negb (bool_decide (slice 0 8 header = ENCRYPTED_PAYLOAD_MAGIC)) ||
     negb (be_value (slice 8 10 header) =? OBJECT_ENCRYPTION_FORMAT_VERSION) ||
     negb (bool_decide (slice 10 11 header = [1])) || negb (bool_decide (slice 11 12 header = [0]))
  then Err InconsistentState
  else if negb (be_value (slice 12 16 header) =? Z.of_nat ENCRYPTED_PAYLOAD_CHUNK_SIZE) ||
          negb (be_value (slice 16 24 header) =? size)
  then Err InconsistentState
  else if negb (bool_decide (slice 24 40 header = object_id)) ||
          negb (bool_decide (slice 40 56 header = key_reference encryption))
  then Err EncryptionKeyMismatch
  else
    let wrap_nonce := slice 56 68 header in
    let content_nonce := slice 68 76 header in
    unwrapped ← ok_or IntegrityMismatch
      (Auth.aead_decrypt (key_encryption_key encryption) wrap_nonce (take 76 header) (drop 76 header));
    if negb (length unwrapped =? 32)%nat then Err InconsistentState else Ok (unwrapped, content_nonce).

Definition encrypted_chunk_count (size : Z) : result StorageError Z :=
  let chunk := Z.of_nat ENCRYPTED_PAYLOAD_CHUNK_SIZE in
  let count := if size =? 0 then 1 else (size + chunk - 1) / chunk in
  if count <=? u32_max then Ok count else Err StorageCryptography.

(** [EncryptedReadState]; [rs_file] is what the file holds from its position on. *)
Record ReadState := {
  rs_file : bytes; rs_data_key : bytes; rs_object_id : bytes; rs_content_nonce : bytes;
  rs_plaintext_size : Z; rs_next_index : Z; rs_end_index : Z; rs_first_index : Z;
  rs_first_skip : nat; rs_output_remaining : Z }.

Definition plaintext_length (st : ReadState) : nat :=
  if rs_plaintext_size st =? 0 then 0
  else Z.to_nat (Z.min (rs_plaintext_size st - rs_next_index st * Z.of_nat ENCRYPTED_PAYLOAD_CHUNK_SIZE)
                       (Z.of_nat ENCRYPTED_PAYLOAD_CHUNK_SIZE)).

(** One item of the stream, and the state that follows it. *)
Definition read_chunk (st : ReadState) : result StorageError (bytes * ReadState) :=
  let index := rs_next_index st in
  let plaintext_len := plaintext_length st in
  let n := (plaintext_len + AES_GCM_TAG_LEN)%nat in
  if (length (rs_file st) <? n)%nat then Err InconsistentState
  else
    plaintext ← ok_or IntegrityMismatch
      (Auth.aead_decrypt (rs_data_key st) (content_chunk_nonce (rs_content_nonce st) index)
         (content_chunk_aad (rs_object_id st) index (Z.of_nat plaintext_len)) (take n (rs_file st)));
    let skip := if index =? rs_first_index st then rs_first_skip st else 0%nat in
    let available := (length plaintext - skip)%nat in
    let len := Nat.min available (Z.to_nat (rs_output_remaining st)) in
    Ok (take len (drop skip plaintext),
        {| rs_file := drop n (rs_file st); rs_data_key := rs_data_key st; rs_object_id := rs_object_id st;
           rs_content_nonce := rs_content_nonce st; rs_plaintext_size := rs_plaintext_size st;
           rs_next_index := index + 1; rs_end_index := rs_end_index st; rs_first_index := rs_first_index st;
           rs_first_skip := rs_first_skip st; rs_output_remaining := rs_output_remaining st - Z.of_nat len |}).

Fixpoint read_loop (fuel : nat) (st : ReadState) : DownloadStream :=
  match fuel with
  | O => []
  | S fuel =>
      if rs_end_index st <? rs_next_index st then []
      else match read_chunk st with
           | Ok (output, st) => Ok output :: read_loop fuel st
           | Err e => [Err e]
           end
  end.

Definition open_encrypted_payload (file object_id : bytes) (size : Z) (range : option ResolvedByteRange)
    (encryption : ObjectEncryption) : result StorageError DownloadStream :=
  let chunk := Z.of_nat ENCRYPTED_PAYLOAD_CHUNK_SIZE in
  if (length file <? ENCRYPTED_PAYLOAD_HEADER_LEN)%nat then Err InconsistentState
  else
    '(data_key, content_nonce) ←
       decode_encrypted_header (take ENCRYPTED_PAYLOAD_HEADER_LEN file) encryption object_id size;
    chunk_count ← encrypted_chunk_count size;
    expected ← ok_or InconsistentState
      (v ← u64_checked_add (Z.of_nat ENCRYPTED_PAYLOAD_HEADER_LEN) size;
       u64_checked_add v (chunk_count * Z.of_nat AES_GCM_TAG_LEN));
    if negb (Z.of_nat (length file) =? expected) then Err InconsistentState
    else
      let '(offset, len) := match range with
                            | Some range => (resolved_offset range, resolved_length range)
                            | None => (0, size)
                            end in
      let first_index := offset / chunk in
      let end_index := if len =? 0 then first_index else (offset + len - 1) / chunk in
      if (u32_max <? first_index) || (u32_max <? end_index) then Err InconsistentState
      else
        let physical := (ENCRYPTED_PAYLOAD_HEADER_LEN +
                         Z.to_nat first_index * (ENCRYPTED_PAYLOAD_CHUNK_SIZE + AES_GCM_TAG_LEN))%nat in
        Ok (read_loop (Z.to_nat (end_index - first_index + 1))
              {| rs_file := drop physical file; rs_data_key := data_key; rs_object_id := object_id;
                 rs_content_nonce := content_nonce; rs_plaintext_size := size; rs_next_index := first_index;
                 rs_end_index := end_index; rs_first_index := first_index;
                 rs_first_skip := Z.to_nat (offset mod chunk); rs_output_remaining := len |}).

(** ** The key of a deployment *)

Definition derive_object_encryption (master_key : bytes) : result StorageError ObjectEncryption :=
  key ← ok_or StorageCryptography
    (Auth.hkdf_expand (str "record-store-object-encryption-v1") master_key (str "object-key-encryption-key"));
  Ok {| key_encryption_key := key; key_reference := take 16 (digest key) |}.

Definition object_key_reference (master_key : bytes) : result StorageError bytes :=
  encryption ← derive_object_encryption master_key; Ok (hex_encode (key_reference encryption)).

(** [initialize_object_encryption], by what the record on disk says: nothing, or
    format version, algorithm and key reference. *)
Definition OBJECT_ENCRYPTION_ALGORITHM : bytes := str "AES-256-GCM-ENVELOPE-CHUNKED".

Record ObjectEncryptionRecord := {
  encryption_format_version : Z; encryption_algorithm : bytes; encryption_key_reference : bytes }.

Definition initialize_object_encryption (record : option ObjectEncryptionRecord) (master_key : option bytes)
    : result StorageError (option ObjectEncryption * option ObjectEncryptionRecord) :=
  encryption ← match master_key with
               | Some key => Some <$> derive_object_encryption key
               | None => Ok None
               end;
  match record with
  | Some record =>
      if negb (encryption_format_version record =? OBJECT_ENCRYPTION_FORMAT_VERSION) ||
         negb (bool_decide (encryption_algorithm record = OBJECT_ENCRYPTION_ALGORITHM))
      then Err InconsistentState
      else
        encryption ← ok_or EncryptionKeyRequired encryption;
        if negb (bool_decide (encryption_key_reference record = hex_encode (key_reference encryption)))
        then Err EncryptionKeyMismatch
        else Ok (Some encryption, Some record)
  | None =>
      match encryption with
      | None => Ok (None, None)
      | Some encryption =>
          Ok (Some encryption,
              Some {| encryption_format_version := OBJECT_ENCRYPTION_FORMAT_VERSION;
                      encryption_algorithm := OBJECT_ENCRYPTION_ALGORITHM;
                      encryption_key_reference := hex_encode (key_reference encryption) |})
      end
  end.
End Operations.

End Payload.
