(* ===== verification/PayloadTheorems.v ===== *)
(** * Properties of payload files

    What the encrypted envelope of [Payload] writes, any byte range of it reads
    back, however the upload was divided; what the reader releases of a file
    somebody changed is a prefix of what was written, as long as the cipher
    authenticates; and a digest mismatch withholds the last chunk of a plaintext. *)

From S2P Require Import Prelude Bytes Digest ObjectLock CoreTypes Catalog Commands Auth Names ProofBundleTheorems Payload.
Import ObjectLock CoreTypes Catalog Commands Names Payload.

Module PayloadTheorems.

Abbreviation CHUNK := ENCRYPTED_PAYLOAD_CHUNK_SIZE.

Lemma chunk_size : Z.of_nat CHUNK = 65536.
Proof. reflexivity. Qed.
#[local] Opaque ENCRYPTED_PAYLOAD_CHUNK_SIZE.

Lemma chunk_pos : (0 < CHUNK)%nat.
Proof. pose proof chunk_size. lia. Qed.

(** ** Streams *)

Lemma collected_released {E} (items : list (result E bytes)) b : collected items = Some b → released items = b.
Proof.
  revert b. induction items as [|[c|e] items IH]; intros b Hb; cbn in *; [by simplify_eq| |done].
  destruct (collected items) as [x|] eqn:Hx; [|done]. injection Hb as <-. by rewrite (IH x).
Qed.

Lemma collected_app {E} (xs ys : list (result E bytes)) :
  collected (xs ++ ys) = (x ← collected xs; y ← collected ys; Some (x ++ y)).
Proof.
  induction xs as [|[c|e] xs IH]; cbn; [by destruct (collected ys)| |done].
  rewrite IH. destruct (collected xs); [|done]. cbn. destruct (collected ys); [|done]. cbn.
  by rewrite app_assoc.
Qed.

(** ** Bodies in chunks *)

(** Full chunks, then a last one that is empty only if it is the only one. *)
Definition chunked (cs : list bytes) (b : bytes) : Prop :=
  ∃ fs l, cs = fs ++ [l] ∧ Forall (λ c, length c = CHUNK) fs ∧ (length l ≤ CHUNK)%nat ∧
          (l = [] → fs = []) ∧ concat cs = b.

Lemma length_full fs : Forall (λ c : bytes, length c = CHUNK) fs → length (concat fs) = (length fs * CHUNK)%nat.
Proof. induction 1 as [|c fs Hc Hfs IH]; [done|]. cbn. rewrite length_app, IH, Hc. lia. Qed.

Lemma chunked_lookup cs b j c :
  chunked cs b → cs !! j = Some c →
  length c = Nat.min (length b - j * CHUNK) CHUNK ∧ (j * CHUNK ≤ length b)%nat ∧
  (length b = 0%nat → c = []) ∧ (S j < length cs → length c = CHUNK)%nat.
Proof.
  intros (fs & l & -> & Hfs & Hl & Hne & <-) Hj. rewrite concat_app. cbn. rewrite app_nil_r.
  rewrite !length_app, (length_full _ Hfs). cbn [length].
  apply lookup_app_Some in Hj as [Hj|[Hge Hj]].
  - pose proof (lookup_lt_Some _ _ _ Hj) as Hlt.
    pose proof (Forall_lookup_1 _ _ _ _ Hfs Hj) as Hc. cbn in Hc.
    assert (length fs = j + (length fs - j - 1) + 1)%nat as Hlen by lia. split_and!; [| | |lia].
    + rewrite Hc. rewrite Hlen. nia.
    + nia.
    + intros Hz. pose proof chunk_pos. nia.
  - assert (j = length fs) as -> by (apply lookup_lt_Some in Hj; cbn in Hj; lia).
    rewrite Nat.sub_diag in Hj. cbn in Hj. injection Hj as <-. split_and!; [lia|lia| |lia].
    intros Hz. apply nil_length_inv. lia.
Qed.

Lemma chunked_length cs b :
  chunked cs b →
  Z.of_nat (length cs) = if (Z.of_nat (length b) =? 0) then 1 else (Z.of_nat (length b) + Z.of_nat CHUNK - 1) / Z.of_nat CHUNK.
Proof.
  intros (fs & l & -> & Hfs & Hl & Hne & <-). rewrite concat_app. cbn. rewrite app_nil_r.
  rewrite !length_app, (length_full _ Hfs). cbn [length]. pose proof chunk_pos.
  destruct (decide (l = [])) as [->|Hl0].
  - rewrite (Hne eq_refl). reflexivity.
  - assert (0 < length l)%nat by (destruct l; [done|cbn; lia]).
    destruct (Z.eqb_spec (Z.of_nat (length fs * CHUNK + length l)) 0); [lia|].
    apply Z.div_unique with (r := Z.of_nat (length l) - 1); [lia|]. nia.
Qed.

(** ** What is sealed *)

Section Sealing.
Context `{Auth.Cryptography_}.

Definition seal_chunk (dk id nonce : bytes) (index : Z) (c : bytes) : option bytes :=
  Auth.aead_encrypt dk (content_chunk_nonce nonce index) (content_chunk_aad id index (Z.of_nat (length c))) c.

Fixpoint seal_all (dk id nonce : bytes) (index : Z) (cs : list bytes) : option bytes :=
  match cs with
  | [] => Some []
  | c :: cs => x ← seal_chunk dk id nonce index c; rest ← seal_all dk id nonce (index + 1) cs; Some (x ++ rest)
  end.

Lemma seal_all_app dk id nonce index xs ys :
  seal_all dk id nonce index (xs ++ ys) =
    (x ← seal_all dk id nonce index xs; y ← seal_all dk id nonce (index + Z.of_nat (length xs)) ys; Some (x ++ y)).
Proof.
  revert index. induction xs as [|c xs IH]; intros index; cbn.
  - rewrite Z.add_0_r. by destruct (seal_all _ _ _ _ ys).
  - destruct (seal_chunk dk id nonce index c) as [x|]; [|done]. cbn. rewrite IH.
    replace (index + 1 + Z.of_nat (length xs)) with (index + Z.of_nat (S (length xs))) by lia.
    destruct (seal_all _ _ _ _ xs) as [y|]; [|done]. cbn. destruct (seal_all _ _ _ _ ys); [|done]. cbn.
    by rewrite app_assoc.
Qed.

(** AES-GCM seals every text this short, and adds a tag of sixteen bytes. *)
Class AeadLaws : Prop := {
  aead_seals : ∀ key nonce aad text, Z.of_nat (length text) ≤ 65536 →
    ∃ sealed, Auth.aead_encrypt key nonce aad text = Some sealed;
  aead_length : ∀ key nonce aad text sealed,
    Auth.aead_encrypt key nonce aad text = Some sealed → length sealed = (length text + 16)%nat;
  aead_opens : ∀ key nonce aad text sealed,
    Auth.aead_encrypt key nonce aad text = Some sealed → Auth.aead_decrypt key nonce aad sealed = Some text }.
Context `{!AeadLaws}.

Lemma seal_all_some dk id nonce index cs :
  Forall (λ c, length c ≤ CHUNK)%nat cs → ∃ x, seal_all dk id nonce index cs = Some x.
Proof.
  intros Hcs. revert index. induction Hcs as [|c cs Hc Hcs IH]; intros index; cbn; [eauto|].
  destruct (aead_seals dk (content_chunk_nonce nonce index) (content_chunk_aad id index (Z.of_nat (length c))) c)
    as [x Hx]; [pose proof chunk_size; lia|].
  unfold seal_chunk. rewrite Hx. destruct (IH (index + 1)) as [y ->]. cbn. eauto.
Qed.

Lemma length_seal_all dk id nonce index cs x :
  seal_all dk id nonce index cs = Some x → length x = (length (concat cs) + length cs * 16)%nat.
Proof.
  revert index x. induction cs as [|c cs IH]; intros index x; cbn; [by intros [= <-]|].
  destruct (seal_chunk _ _ _ _ _) as [s|] eqn:Hs; [|done]. cbn.
  destruct (seal_all _ _ _ _ cs) as [y|] eqn:Hy; [|done]. cbn. intros [= <-].
  unfold seal_chunk in Hs. apply aead_length in Hs. rewrite !length_app, Hs, (IH _ _ Hy). lia.
Qed.

(** The chunks from [j] on start after [j] full ones. *)
Lemma seal_all_drop dk id nonce cs x j :
  seal_all dk id nonce 0 cs = Some x → Forall (λ c, length c = CHUNK) (take j cs) → (j ≤ length cs)%nat →
  seal_all dk id nonce (Z.of_nat j) (drop j cs) = Some (drop (j * (CHUNK + 16)) x).
Proof.
  intros Hx Hfull Hj. rewrite <-(take_drop j cs), seal_all_app in Hx.
  destruct (seal_all dk id nonce 0 (take j cs)) as [y|] eqn:Hy; [|done]. cbn [mbind option_bind] in Hx.
  rewrite length_take, Nat.min_l, Z.add_0_l in Hx by done.
  destruct (seal_all dk id nonce (Z.of_nat j) (drop j cs)) as [z|]; [|done]. injection Hx as <-.
  apply length_seal_all in Hy. rewrite (length_full _ Hfull), length_take, Nat.min_l in Hy by done.
  f_equal. rewrite drop_app_length'; [done|]. lia.
Qed.

(** ** The writer *)

Section Writer.
Variables (dk id nonce : bytes).

Definition writer_at (st : Writer) (b : bytes) : Prop :=
  ∃ fs, Forall (λ c, length c = CHUNK) fs ∧ concat fs ++ wr_pending st = b ∧ (length (wr_pending st) < CHUNK)%nat ∧
        wr_index st = Z.of_nat (length fs) ∧ seal_all dk id nonce 0 fs = Some (wr_chunks st).

Definition small (b : bytes) : Prop := Z.of_nat (length b) ≤ u32_max * 65536.

Lemma write_chunk_ok index c :
  (length c ≤ CHUNK)%nat → ∃ x, write_encrypted_chunk dk id nonce index c = Ok x ∧ seal_chunk dk id nonce index c = Some x.
Proof.
  intros Hc. destruct (aead_seals dk (content_chunk_nonce nonce index)
    (content_chunk_aad id index (Z.of_nat (length c))) c) as [x Hx]; [pose proof chunk_size; lia|].
  exists x. unfold write_encrypted_chunk, seal_chunk. by rewrite Hx.
Qed.

(** The rest of [fill], from the writer it continues with. *)
Ltac again IH :=
  match goal with
  | |- ∃ _, fill _ _ _ _ ?r ?s = _ ∧ writer_at _ (?b ++ _) ∧ _ =>
      destruct (IH r s b) as (? & ? & ? & ? & ?); [|assumption|assumption|eexists; split_and!; eassumption]
  end.

Lemma fill_ok fuel remaining st b :
  writer_at st b → (length remaining ≤ fuel)%nat → small (b ++ remaining) →
  ∃ st', fill dk id nonce fuel remaining st = Ok st' ∧ writer_at st' (b ++ remaining) ∧
         wr_size st' = wr_size st ∧ wr_hashed st' = wr_hashed st.
Proof.
  revert remaining st b. induction fuel as [|fuel IH]; intros remaining st b Hat Hfuel Hsmall.
  { destruct remaining; [|cbn in Hfuel; lia]. exists st. by rewrite app_nil_r. }
  cbn [fill]. case_bool_decide as Hr; [subst; exists st; by rewrite app_nil_r|].
  destruct Hat as (fs & Hfs & Hb & Hp & Hi & Hc).
  assert (Hlen : (0 < length remaining)%nat) by (destruct remaining; [done|cbn; lia]).
  set (n := Nat.min (CHUNK - length (wr_pending st)) (length remaining)).
  assert (Hn : (0 < n)%nat) by lia. cbn zeta. cbn [wr_pending].
  assert (Hpl : length (wr_pending st ++ take n remaining) = (length (wr_pending st) + n)%nat)
    by (rewrite length_app, length_take; lia).
  assert (Hrest : (length (drop n remaining) ≤ fuel)%nat) by (rewrite length_drop; lia).
  assert (Hsplit : b ++ remaining = (b ++ take n remaining) ++ drop n remaining)
    by (by rewrite <-app_assoc, take_drop).
  rewrite Hsplit in Hsmall |- *. rewrite Hpl.
  destruct (Nat.eqb_spec (length (wr_pending st) + n) CHUNK) as [Hfull|Hnot].
  - unfold seal_pending. cbn [wr_index wr_pending].
    destruct (write_chunk_ok (wr_index st) (wr_pending st ++ take n remaining)) as (x & Hx & Hsx); [lia|].
    rewrite Hx. cbn [mbind result_bind wr_chunks wr_pending wr_index wr_size wr_hashed]. unfold next_index. cbn [wr_index].
    assert (Hfs' : Forall (λ c, length c = CHUNK) (fs ++ [wr_pending st ++ take n remaining])).
    { apply Forall_app. split; [done|]. apply Forall_cons_2; [lia|constructor]. }
    assert (Hb' : concat (fs ++ [wr_pending st ++ take n remaining]) = b ++ take n remaining).
    { rewrite concat_app. cbn. by rewrite app_nil_r, app_assoc, Hb. }
    assert (Hbound : wr_index st + 1 ≤ u32_max).
    { unfold small in Hsmall. rewrite length_app, <-Hb', (length_full _ Hfs'), length_app in Hsmall. cbn [length] in Hsmall.
      rewrite Hi. pose proof chunk_size. unfold u32_max in *. nia. }
    rewrite (proj2 (Z.leb_le _ _)) by done. cbn [mbind result_bind].
    again IH. exists (fs ++ [wr_pending st ++ take n remaining]).
    cbn [wr_pending wr_index wr_chunks]. split_and!; [done|by rewrite app_nil_r|pose proof chunk_pos; cbn; lia| |].
    + rewrite length_app. cbn. lia.
    + rewrite seal_all_app, Hc. cbn [mbind option_bind seal_all]. rewrite Z.add_0_l, <-Hi, Hsx. cbn. by rewrite app_nil_r.
  - again IH. exists fs. cbn [wr_pending wr_index wr_chunks]. split_and!; try done; [|lia].
    by rewrite app_assoc, Hb.
Qed.

Lemma write_loop_ok body st b x :
  writer_at st b → wr_size st = Z.of_nat (length b) → wr_hashed st = b → collected body = Some x → small (b ++ x) →
  ∃ st', write_loop dk id nonce body st = Ok st' ∧ writer_at st' (b ++ x) ∧
         wr_size st' = Z.of_nat (length (b ++ x)) ∧ wr_hashed st' = b ++ x.
Proof.
  revert st b x. induction body as [|[c|e] body IH]; intros st b x Hat Hs Hh Hx Hsmall; cbn in Hx; [|..|done].
  { injection Hx as <-. exists st. by rewrite app_nil_r. }
  destruct (collected body) as [y|] eqn:Hy; [|done]. injection Hx as <-. cbn [write_loop].
  assert (Hlen : Z.of_nat (length b) + Z.of_nat (length c) ≤ u32_max * 65536)
    by (unfold small in Hsmall; rewrite !length_app in Hsmall; lia).
  assert (Hadd : u64_checked_add (wr_size st) (Z.of_nat (length c)) = Some (Z.of_nat (length b) + Z.of_nat (length c))).
  { rewrite Hs. apply u64_checked_Some. split; [done|]. unfold is_u64, u64_max. unfold u32_max in *. lia. }
  rewrite Hadd. cbn [ok_or mbind result_bind].
  set (st1 := Build_Writer _ _ _ _ _).
  destruct (fill_ok (length c) c st1 b) as (st2 & Hf & Hat2 & Hs2 & Hh2); [exact Hat|done| |].
  { unfold small. rewrite length_app. lia. }
  rewrite Hf. cbn [mbind result_bind].
  destruct (IH st2 (b ++ c) y) as (st3 & Hw & Hat3 & Hs3 & Hh3); [done| |by rewrite Hh2; cbn; rewrite Hh|done|by rewrite <-app_assoc|].
  { rewrite Hs2. cbn. rewrite length_app. lia. }
  exists st3. by rewrite <-app_assoc in Hat3, Hs3, Hh3.
Qed.

(** The chunks of the whole body. *)
Lemma write_last_ok st b :
  writer_at st b → wr_size st = Z.of_nat (length b) →
  ∃ st' cs, write_last dk id nonce st = Ok st' ∧ chunked cs b ∧ seal_all dk id nonce 0 cs = Some (wr_chunks st') ∧
            wr_size st' = wr_size st ∧ wr_hashed st' = wr_hashed st.
Proof.
  intros (fs & Hfs & Hb & Hp & Hi & Hc) Hs. unfold write_last.
  destruct (negb (bool_decide (wr_pending st = [])) || (wr_size st =? 0)) eqn:Hlast.
  - unfold seal_pending. destruct (write_chunk_ok (wr_index st) (wr_pending st)) as (x & -> & Hsx); [lia|].
    cbn [mbind result_bind]. eexists _, (fs ++ [wr_pending st]). split; [done|]. split; [|split; [|done]].
    + exists fs, (wr_pending st). split_and!; [done|done|lia| |].
      * intros He. rewrite He in Hlast, Hb. rewrite app_nil_r in Hb. cbn in Hlast. apply Z.eqb_eq in Hlast.
        rewrite Hs in Hlast. destruct fs as [|f fs]; [done|]. exfalso. apply Forall_cons in Hfs as [Hf _].
        rewrite <-Hb in Hlast. cbn in Hlast. rewrite length_app in Hlast. pose proof chunk_pos. lia.
      * rewrite concat_app. cbn. by rewrite app_nil_r.
    + rewrite seal_all_app, Hc. cbn [mbind option_bind seal_all wr_chunks]. rewrite Z.add_0_l, <-Hi, Hsx. cbn. by rewrite app_nil_r.
  - apply orb_false_iff in Hlast as [Hpe Hz]. apply negb_false_iff, bool_decide_eq_true in Hpe.
    apply Z.eqb_neq in Hz. rewrite Hpe, app_nil_r in Hb.
    destruct fs as [|f fs _] using rev_ind; [subst b; cbn in Hs; lia|].
    exists st, (fs ++ [f]). split; [done|]. split; [|done]. apply Forall_app in Hfs as [Hfs Hf].
    apply Forall_cons in Hf as [Hf _]. exists fs, f. split_and!; [done|done|lia| |done].
    intros ->. cbn in Hf. pose proof chunk_pos. lia.
Qed.
End Writer.

(** ** The header *)

Lemma slice_field (ps : list bytes) k p :
  ps !! k = Some p →
  slice (length (concat (take k ps))) (length (concat (take k ps)) + length p) (concat ps) = p.
Proof.
  intros Hk. unfold slice.
  assert (concat ps = concat (take k ps) ++ p ++ concat (drop (S k) ps)) as ->.
  { rewrite <-(take_drop_middle ps k p Hk) at 1. by rewrite concat_app. }
  rewrite drop_app_length. replace (_ + length p - _)%nat with (length p) by lia. by rewrite take_app_length.
Qed.

Section Header.
Variables (enc : ObjectEncryption) (id wn cn dk wrapped : bytes) (size : Z).
Hypotheses (Hid : length id = 16%nat) (Href : length (key_reference enc) = 16%nat) (Hwn : length wn = 12%nat)
  (Hcn : length cn = 8%nat) (Hdk : length dk = 32%nat) (Hsize : is_u64 size).

Definition header_fields : list bytes :=
  [ENCRYPTED_PAYLOAD_MAGIC; be_bytes 2 OBJECT_ENCRYPTION_FORMAT_VERSION; [1]; [0];
   be_bytes 4 (Z.of_nat CHUNK); be_bytes 8 size; id; key_reference enc; wn; cn; wrapped].

Lemma header_concat : header_prefix enc id size wn cn ++ wrapped = concat header_fields.
Proof. unfold header_prefix, header_fields. cbn [concat]. rewrite app_nil_r, <-!app_assoc. reflexivity. Qed.

Lemma header_prefix_length : length (header_prefix enc id size wn cn) = 76%nat.
Proof.
  unfold header_prefix. rewrite !length_app, !length_be_bytes, Hid, Href, Hwn, Hcn. reflexivity.
Qed.

(** The field [k] of the header, at its place. *)
Lemma header_field k a b p :
  header_fields !! k = Some p → length (concat (take k header_fields)) = a → (a + length p)%nat = b →
  slice a b (header_prefix enc id size wn cn ++ wrapped) = p.
Proof. intros Hk <- <-. rewrite header_concat. by apply slice_field. Qed.

Ltac place := cbn [take header_fields concat]; rewrite ?length_app, ?length_be_bytes, ?Hid, ?Href, ?Hwn, ?Hcn; reflexivity.

Lemma be_value_header : be_value (be_bytes 8 size) = size.
Proof. rewrite be_value_be_bytes. apply Z.mod_small. unfold is_u64, u64_max in Hsize. lia. Qed.

Lemma decode_encoded_header :
  Auth.aead_encrypt (key_encryption_key enc) wn (header_prefix enc id size wn cn) dk = Some wrapped →
  decode_encrypted_header (header_prefix enc id size wn cn ++ wrapped) enc id size = Ok (dk, cn).
Proof.
  intros Hwrap. unfold decode_encrypted_header.
  rewrite (header_field 0 0 8 ENCRYPTED_PAYLOAD_MAGIC) by place.
  rewrite (header_field 1 8 10 (be_bytes 2 OBJECT_ENCRYPTION_FORMAT_VERSION)) by place.
  rewrite (header_field 2 10 11 [1]) by place. rewrite (header_field 3 11 12 [0]) by place.
  rewrite (header_field 4 12 16 (be_bytes 4 (Z.of_nat CHUNK))) by place.
  rewrite (header_field 5 16 24 (be_bytes 8 size)) by place.
  rewrite (header_field 6 24 40 id) by place. rewrite (header_field 7 40 56 (key_reference enc)) by place.
  rewrite (header_field 8 56 68 wn) by place. rewrite (header_field 9 68 76 cn) by place.
  rewrite be_value_header, !be_value_be_bytes, chunk_size, !bool_decide_eq_true_2 by done.
  change (OBJECT_ENCRYPTION_FORMAT_VERSION mod 256 ^ Z.of_nat 2 =? OBJECT_ENCRYPTION_FORMAT_VERSION) with true.
  change (65536 mod 256 ^ Z.of_nat 4 =? 65536) with true.
  rewrite take_app_length', drop_app_length' by (symmetry; apply header_prefix_length).
  rewrite (aead_opens _ _ _ _ _ Hwrap). cbn [negb orb ok_or mbind result_bind]. by rewrite Z.eqb_refl, Hdk.
Qed.
End Header.

(** ** The reader *)

Definition reader (file dk id cn : bytes) (size next last first : Z) (skip : nat) (remaining : Z) : ReadState :=
  {| rs_file := file; rs_data_key := dk; rs_object_id := id; rs_content_nonce := cn; rs_plaintext_size := size;
     rs_next_index := next; rs_end_index := last; rs_first_index := first; rs_first_skip := skip;
     rs_output_remaining := remaining |}.

Lemma plaintext_length_chunk cs b j c file dk id cn last first skip r :
  chunked cs b → cs !! j = Some c →
  plaintext_length (reader file dk id cn (Z.of_nat (length b)) (Z.of_nat j) last first skip r) = length c.
Proof.
  intros Hcs Hj. destruct (chunked_lookup _ _ _ _ Hcs Hj) as (Hl & Hle & Hz & _).
  unfold plaintext_length, reader. cbn [rs_plaintext_size rs_next_index].
  destruct (Z.eqb_spec (Z.of_nat (length b)) 0) as [E|E]; [by rewrite Hz by lia|]. lia.
Qed.

Lemma take_drop_app {A} (r skip : nat) (c rest : list A) :
  (skip ≤ length c)%nat →
  take r (drop skip (c ++ rest)) =
    take (Nat.min (length c - skip) r) (drop skip c) ++ take (r - Nat.min (length c - skip) r) rest.
Proof.
  intros Hs. rewrite drop_app_le by done. destruct (decide (r ≤ length c - skip)%nat) as [Hr|Hr].
  - rewrite take_app_le by (rewrite length_drop; lia). rewrite Nat.min_r by lia.
    replace (r - r)%nat with 0%nat by lia. by rewrite app_nil_r.
  - rewrite take_app_ge by (rewrite length_drop; lia). rewrite Nat.min_l by lia. rewrite length_drop.
    f_equal. rewrite take_ge; [done|]. rewrite length_drop. lia.
Qed.

(** Reading [fuel] chunks from the [j]-th one on. *)
Lemma read_loop_ok cs b dk id cn first skip fuel :
  chunked cs b → ∀ j r file last,
  seal_all dk id cn (Z.of_nat j) (drop j cs) = Some file → (j + fuel ≤ length cs)%nat →
  last = Z.of_nat j + Z.of_nat fuel - 1 → 0 ≤ r → (Z.of_nat j = first → (skip ≤ length (default [] (cs !! j)))%nat) →
  first ≤ Z.of_nat j →
  collected (read_loop fuel (reader file dk id cn (Z.of_nat (length b)) (Z.of_nat j) last first skip r)) =
    Some (take (Z.to_nat r) (drop (if Z.of_nat j =? first then skip else 0) (concat (take fuel (drop j cs))))).
Proof.
  intros Hcs. induction fuel as [|fuel IH]; intros j r file last Hfile Hfit -> Hr Hskip Hfirst.
  { rewrite take_0. cbn [read_loop collected concat]. by rewrite drop_nil, take_nil. }
  assert (Hlt : (j < length cs)%nat) by lia. destruct (lookup_lt_is_Some_2 _ _ Hlt) as [c Hc].
  rewrite (drop_S _ _ _ Hc) in Hfile |- *. cbn [seal_all] in Hfile.
  destruct (seal_chunk dk id cn (Z.of_nat j) c) as [sealed|] eqn:Hs; [|done].
  cbn [mbind option_bind] in Hfile.
  destruct (seal_all dk id cn (Z.of_nat j + 1) (drop (S j) cs)) as [rest|] eqn:Hrest; [|done]. injection Hfile as <-.
  unfold seal_chunk in Hs. pose proof (aead_length _ _ _ _ _ Hs) as Hlen. pose proof (aead_opens _ _ _ _ _ Hs) as Hopen.
  cbn [read_loop]. unfold reader at 1 2. cbn [rs_end_index rs_next_index].
  rewrite (proj2 (Z.ltb_ge _ _)) by lia. unfold read_chunk.
  rewrite (plaintext_length_chunk cs b j c) by done. cbn [reader rs_file rs_next_index rs_data_key rs_content_nonce rs_object_id
    rs_first_index rs_first_skip rs_output_remaining rs_plaintext_size rs_end_index].
  rewrite (proj2 (Nat.ltb_ge _ _)) by (rewrite length_app; unfold AES_GCM_TAG_LEN; lia).
  rewrite take_app_length', drop_app_length' by (unfold AES_GCM_TAG_LEN; lia).
  rewrite Hopen. cbn [ok_or mbind result_bind]. set (skip' := if Z.of_nat j =? first then skip else 0%nat).
  assert (Hskip' : (skip' ≤ length c)%nat).
  { unfold skip'. destruct (Z.eqb_spec (Z.of_nat j) first) as [E|E]; [|lia]. specialize (Hskip E). by rewrite Hc in Hskip. }
  cbn [collected]. change (Build_ReadState ?a ?b ?c ?d ?e ?f ?g ?h ?i ?k) with (reader a b c d e f g h i k).
  replace (Z.of_nat j + 1) with (Z.of_nat (S j)) by lia. rewrite IH; [| |lia|lia|lia|lia|lia].
  2:{ by replace (Z.of_nat (S j)) with (Z.of_nat j + 1) by lia. }
  rewrite (proj2 (Z.eqb_neq _ _)) by lia. rewrite firstn_cons. cbn [fmap option_fmap option_map concat]. rewrite drop_0.
  rewrite (take_drop_app _ _ c) by done. do 3 f_equal; lia.
Qed.

(** ** Ranges *)

Definition range_ok (range : option ResolvedByteRange) (size : Z) : Prop :=
  match range with
  | Some r => 0 ≤ resolved_offset r ∧ 1 ≤ resolved_length r ∧ resolved_offset r + resolved_length r ≤ size
  | None => True
  end.
Definition range_offset (range : option ResolvedByteRange) : Z :=
  match range with Some r => resolved_offset r | None => 0 end.
Definition range_length (range : option ResolvedByteRange) (size : Z) : Z :=
  match range with Some r => resolved_length r | None => size end.
Definition range_slice (range : option ResolvedByteRange) (x : bytes) : bytes :=
  take (Z.to_nat (range_length range (Z.of_nat (length x)))) (drop (Z.to_nat (range_offset range)) x).

Lemma take_full cs b j :
  chunked cs b → (j < length cs)%nat → Forall (λ c, length c = CHUNK) (take j cs).
Proof.
  intros (fs & l & -> & Hfs & _) Hj. rewrite length_app in Hj. cbn in Hj.
  rewrite take_app_le by lia. by apply Forall_take.
Qed.

(** The bytes from [off] on, of the [fuel] chunks that hold them. *)
Lemma chunk_window cs b (off len : nat) (j fuel : nat) :
  chunked cs b → (j + fuel ≤ length cs)%nat → (0 < fuel)%nat → (j * CHUNK ≤ off)%nat → (off + len ≤ length b)%nat →
  (off + len ≤ (j + fuel) * CHUNK)%nat →
  take len (drop (off - j * CHUNK) (concat (take fuel (drop j cs)))) = take len (drop off b).
Proof.
  intros Hcs Hfit Hpos Hoff Hlen Hend.
  assert (Hj : (j < length cs)%nat) by lia. pose proof (take_full _ _ _ Hcs Hj) as Hfull.
  assert (Hpre : length (concat (take j cs)) = (j * CHUNK)%nat) by (rewrite (length_full _ Hfull), length_take; lia).
  assert (Hb : b = concat (take j cs) ++ concat (take fuel (drop j cs)) ++ concat (drop (j + fuel) cs)).
  { destruct Hcs as (fs & l & Hcs & _ & _ & _ & Hb). rewrite <-Hb.
    rewrite <-(take_drop j cs) at 1. rewrite concat_app. f_equal.
    rewrite <-(take_drop fuel (drop j cs)) at 1. rewrite concat_app, drop_drop. done. }
  rewrite Hb. rewrite drop_app_ge, Hpre by lia.
  destruct (decide (j + fuel = length cs)%nat) as [Hall|Hmore].
  { rewrite (drop_ge cs (j + fuel)) by lia. cbn [concat]. by rewrite app_nil_r. }
  assert (Hmid : length (concat (take (j + fuel) cs)) = ((j + fuel) * CHUNK)%nat).
  { rewrite (length_full _ (take_full _ _ (j + fuel)%nat Hcs ltac:(lia))), length_take. lia. }
  rewrite <-(take_drop j (take (j + fuel) cs)), concat_app, length_app, take_take, Nat.min_l, Hpre in Hmid by lia.
  replace (drop j (take (j + fuel) cs)) with (take fuel (drop j cs)) in Hmid
    by (rewrite take_drop_commute; f_equal; f_equal; lia).
  rewrite drop_app_le by lia. rewrite take_app_le; [done|]. rewrite length_drop. lia.
Qed.

(** The window of a range: where it starts and how many chunks it spans. *)
Lemma window_bounds cs b range :
  chunked cs b → range_ok range (Z.of_nat (length b)) → small b →
  let off := range_offset range in let len := range_length range (Z.of_nat (length b)) in
  let first := off / Z.of_nat CHUNK in
  let last := if len =? 0 then first else (off + len - 1) / Z.of_nat CHUNK in
  0 ≤ off ∧ 0 ≤ len ∧ off + len ≤ Z.of_nat (length b) ∧ 0 ≤ first ≤ last ∧ last < Z.of_nat (length cs) ∧
  off + len ≤ (last + 1) * Z.of_nat CHUNK ∧ Z.of_nat (length cs) ≤ u32_max ∧
  (first * Z.of_nat CHUNK ≤ off) ∧ off - first * Z.of_nat CHUNK = off mod Z.of_nat CHUNK ∧
  (off < Z.of_nat (length b) ∨ off = 0 ∧ Z.of_nat (length b) = 0).
Proof.
  intros Hcs Hrange Hsmall off len first last.
  assert (Hb : 0 ≤ off ∧ 0 ≤ len ∧ off + len ≤ Z.of_nat (length b) ∧ (len = 0 → off = 0 ∧ Z.of_nat (length b) = 0)).
  { unfold off, len, range_ok, range_offset, range_length in *. destruct range as [r|]; lia. }
  destruct Hb as (H1 & H2 & H3 & H4). pose proof (chunked_length _ _ Hcs) as Hn. unfold small in Hsmall.
  subst last first. rewrite chunk_size in *. unfold u32_max in *. clearbody off len.
  pose proof (Z.div_mod off 65536). pose proof (Z.mod_pos_bound off 65536).
  pose proof (Z.div_mod (off + len - 1) 65536). pose proof (Z.mod_pos_bound (off + len - 1) 65536).
  set (S := Z.of_nat (length b)) in *. set (n := Z.of_nat (length cs)) in *.
  pose proof (Z.div_mod (S + 65536 - 1) 65536). pose proof (Z.mod_pos_bound (S + 65536 - 1) 65536).
  generalize dependent (off / 65536). generalize dependent (off mod 65536). intros m1 ? q1 ?.
  generalize dependent ((off + len - 1) / 65536). generalize dependent ((off + len - 1) mod 65536). intros m2 ? q2 ?.
  generalize dependent ((S + 65536 - 1) / 65536). generalize dependent ((S + 65536 - 1) mod 65536). intros m3 ? q3 ? ?.
  clearbody S n. destruct (Z.eqb_spec S 0), (Z.eqb_spec len 0); split_and!; lia.
Qed.
End Sealing.

(** ** The properties *)

Section Properties.
Context `{HashFunction} `{HexCrate} `{Md5Crate} `{Auth.Cryptography_} `{!AeadLaws}.

(** The identifiers and random bytes have the lengths of their types. *)
Record key_material := { km_data_key : bytes; km_content_nonce : bytes; km_wrap_nonce : bytes }.
Definition material_ok (enc : ObjectEncryption) (id : bytes) (km : key_material) : Prop :=
  length id = 16%nat ∧ length (key_reference enc) = 16%nat ∧ length (km_data_key km) = 32%nat ∧
  length (km_content_nonce km) = 8%nat ∧ length (km_wrap_nonce km) = 12%nat.

(** What [write_encrypted_payload] leaves in the file. *)
Definition envelope (enc : ObjectEncryption) (id : bytes) (km : key_material) (cs : list bytes) (b file : bytes) : Prop :=
  ∃ wrapped sealed, chunked cs b ∧ small b ∧
    Auth.aead_encrypt (key_encryption_key enc) (km_wrap_nonce km)
      (header_prefix enc id (Z.of_nat (length b)) (km_wrap_nonce km) (km_content_nonce km)) (km_data_key km) = Some wrapped ∧
    length wrapped = 48%nat ∧ seal_all (km_data_key km) id (km_content_nonce km) 0 cs = Some sealed ∧
    file = (header_prefix enc id (Z.of_nat (length b)) (km_wrap_nonce km) (km_content_nonce km) ++ wrapped) ++ sealed.

Lemma write_envelope enc id km body x :
  material_ok enc id km → collected body = Some x → small x →
  ∃ cs file, envelope enc id km cs x file ∧
    write_encrypted_payload id body enc (Some (km_data_key km)) (Some (km_content_nonce km)) (Some (km_wrap_nonce km)) =
      Ok ({| w_size := Z.of_nat (length x); w_checksum := checksum_sha256 x; w_etag := etag_from_md5 x;
             w_payload_format := Aes256GcmEnvelopeV1 |}, file).
Proof.
  intros (Hid & Href & Hdk & Hcn & Hwn) Hbody Hsmall. unfold write_encrypted_payload. cbn [ok_or mbind result_bind].
  destruct (write_loop_ok (km_data_key km) id (km_content_nonce km) body writer_new [] x)
    as (st & Hw & Hat & Hs & Hh); [|done|done|done|done|].
  { exists []. split_and!; try done. apply chunk_pos. }
  cbn [app] in *. rewrite Hw. cbn [mbind result_bind].
  destruct (write_last_ok (km_data_key km) id (km_content_nonce km) st x Hat Hs) as (st' & cs & -> & Hcs & Hsealed & Hs' & Hh').
  cbn [mbind result_bind]. unfold encode_encrypted_header. cbn [ok_or mbind result_bind]. rewrite Hs', Hs, Hh', Hh.
  destruct (aead_seals (key_encryption_key enc) (km_wrap_nonce km)
    (header_prefix enc id (Z.of_nat (length x)) (km_wrap_nonce km) (km_content_nonce km)) (km_data_key km)) as [wrapped Hwrap]; [lia|].
  rewrite Hwrap. cbn [ok_or mbind result_bind]. pose proof (aead_length _ _ _ _ _ Hwrap) as Hl. rewrite Hdk in Hl.
  rewrite Hl. cbn [Nat.eqb Nat.add negb mbind result_bind].
  eexists cs, _. split; [|reflexivity]. exists wrapped, (wr_chunks st'). by split_and!.
Qed.

Lemma chunk_count_ok cs x : chunked cs x → Z.of_nat (length cs) ≤ u32_max →
  encrypted_chunk_count (Z.of_nat (length x)) = Ok (Z.of_nat (length cs)).
Proof.
  intros Hcs Hn. unfold encrypted_chunk_count. cbn zeta. rewrite <-(chunked_length _ _ Hcs).
  by rewrite (proj2 (Z.leb_le _ _)).
Qed.

Lemma small_u64 x : small x → is_u64 (Z.of_nat (length x)).
Proof. unfold small, is_u64, u32_max, u64_max. lia. Qed.

(** The length of an envelope, which the reader computes from the size. *)
Lemma expected_length cs x :
  chunked cs x → small x → Z.of_nat (length cs) ≤ u32_max →
  (v ← u64_checked_add (Z.of_nat ENCRYPTED_PAYLOAD_HEADER_LEN) (Z.of_nat (length x));
   u64_checked_add v (Z.of_nat (length cs) * Z.of_nat AES_GCM_TAG_LEN)) =
  Some (124 + Z.of_nat (length x) + Z.of_nat (length cs) * 16).
Proof.
  intros Hcs Hs Hn. unfold small, u32_max in *. change (Z.of_nat ENCRYPTED_PAYLOAD_HEADER_LEN) with 124.
  change (Z.of_nat AES_GCM_TAG_LEN) with 16. unfold u64_checked_add.
  rewrite (proj2 (u64_checked_Some (124 + Z.of_nat (length x)) (124 + Z.of_nat (length x))))
    by (split; [done|unfold is_u64, u64_max; lia]).
  cbn [mbind option_bind]. apply u64_checked_Some. split; [done|]. unfold is_u64, u64_max. lia.
Qed.

(** What the reader does once the header is accepted and the length is right. *)
Definition range_read (file dk id cn : bytes) (size : Z) (range : option ResolvedByteRange) : DownloadStream :=
  let off := range_offset range in let len := range_length range size in
  let first := off / Z.of_nat CHUNK in
  let last := if len =? 0 then first else (off + len - 1) / Z.of_nat CHUNK in
  read_loop (Z.to_nat (last - first + 1))
    (reader (drop (124 + Z.to_nat first * (CHUNK + 16)) file) dk id cn size first last first (Z.to_nat (off mod Z.of_nat CHUNK)) len).

Lemma open_reads cs x file id range enc dk cn :
  chunked cs x → small x → range_ok range (Z.of_nat (length x)) → 
  decode_encrypted_header (take ENCRYPTED_PAYLOAD_HEADER_LEN file) enc id (Z.of_nat (length x)) = Ok (dk, cn) →
  length file = (124 + (length x + length cs * 16))%nat →
  open_encrypted_payload file id (Z.of_nat (length x)) range enc =
    Ok (range_read file dk id cn (Z.of_nat (length x)) range).
Proof.
  intros Hcs Hsmall Hrange Hdec Hlen. pose proof (window_bounds _ _ _ Hcs Hrange Hsmall) as Hwin. cbn zeta in Hwin.
  destruct Hwin as (_ & _ & _ & W4 & W5 & _ & W7 & _).
  unfold open_encrypted_payload. cbn zeta.
  rewrite (proj2 (Nat.ltb_ge _ _)) by (unfold ENCRYPTED_PAYLOAD_HEADER_LEN; lia).
  rewrite Hdec. cbn [mbind result_bind]. rewrite (chunk_count_ok _ _ Hcs W7). cbn [mbind result_bind].
  rewrite (expected_length _ _ Hcs Hsmall W7). cbn [ok_or mbind result_bind].
  rewrite (proj2 (Z.eqb_eq _ _)) by lia. cbn [negb].
  replace (match range with Some range0 => (resolved_offset range0, resolved_length range0) | None => (0, Z.of_nat (length x)) end)
    with (range_offset range, range_length range (Z.of_nat (length x))) by by destruct range.
  rewrite !(proj2 (Z.ltb_ge _ _)) by lia. reflexivity.
Qed.

Lemma open_inv file id size range enc items :
  open_encrypted_payload file id size range enc = Ok items →
  ∃ dk cn, decode_encrypted_header (take ENCRYPTED_PAYLOAD_HEADER_LEN file) enc id size = Ok (dk, cn) ∧
    (124 ≤ length file)%nat ∧ items = range_read file dk id cn size range.
Proof.
  unfold open_encrypted_payload. cbn zeta. intros Ho.
  destruct (Nat.ltb_spec (length file) ENCRYPTED_PAYLOAD_HEADER_LEN) as [|Hl]; [discriminate Ho|].
  apply result_bind_ok in Ho as ([dk cn] & Hdec & Ho). apply result_bind_ok in Ho as (n & _ & Ho).
  apply result_bind_ok in Ho as (expected & _ & Ho). destruct (negb _); [discriminate Ho|].
  replace (match range with Some range0 => (resolved_offset range0, resolved_length range0) | None => (0, size) end)
    with (range_offset range, range_length range size) in Ho by by destruct range.
  destruct (_ || _); [discriminate Ho|]. injection Ho as <-. exists dk, cn. by split_and!.
Qed.

Lemma range_window cs x range :
  chunked cs x → range_ok range (Z.of_nat (length x)) → small x →
  let off := range_offset range in let len := range_length range (Z.of_nat (length x)) in
  let first := off / Z.of_nat CHUNK in
  let last := if len =? 0 then first else (off + len - 1) / Z.of_nat CHUNK in
  take (Z.to_nat len) (drop (Z.to_nat (off mod Z.of_nat CHUNK)) (concat (take (Z.to_nat (last - first + 1)) (drop (Z.to_nat first) cs)))) =
    range_slice range x.
Proof.
  intros Hcs Hrange Hsmall. pose proof (window_bounds _ _ _ Hcs Hrange Hsmall) as Hwin. cbn zeta in Hwin |- *.
  destruct Hwin as (W1 & W2 & W3 & W4 & W5 & W6 & W7 & W8 & W9 & W10). rewrite <-W9.
  set (first := range_offset range / Z.of_nat CHUNK) in *. clearbody first.
  match type of W5 with ?l < _ => set (last := l) in * end. clearbody last.
  destruct (Z_of_nat_complete first) as [j ->]; [lia|].
  destruct (Z_of_nat_complete (last - Z.of_nat j + 1)) as [n Hn]; [lia|]. rewrite Hn, !Nat2Z.id.
  replace last with (Z.of_nat j + Z.of_nat n - 1) in * by lia. clear last Hn.
  replace (Z.to_nat (range_offset range - Z.of_nat j * Z.of_nat CHUNK)) with (Z.to_nat (range_offset range) - j * CHUNK)%nat by lia.
  unfold range_slice. apply chunk_window; [done|lia..].
Qed.

Lemma window_skip cs x range :
  chunked cs x → range_ok range (Z.of_nat (length x)) → small x →
  (Z.to_nat (range_offset range mod Z.of_nat CHUNK) ≤
   length (default [] (cs !! Z.to_nat (range_offset range / Z.of_nat CHUNK))))%nat.
Proof.
  intros Hcs Hrange Hsmall. pose proof (window_bounds _ _ _ Hcs Hrange Hsmall) as Hwin. cbn zeta in Hwin.
  destruct Hwin as (W1 & W2 & W3 & W4 & W5 & W6 & W7 & W8 & W9 & W10).
  set (first := range_offset range / Z.of_nat CHUNK) in *.
  destruct (lookup_lt_is_Some_2 cs (Z.to_nat first)) as [c Hc]; [lia|]. rewrite Hc. change (default [] (Some c)) with c.
  destruct (chunked_lookup _ _ _ _ Hcs Hc) as (-> & _).
  pose proof (Z.mod_pos_bound (range_offset range) (Z.of_nat CHUNK)). pose proof chunk_pos.
  rewrite <-W9 in *. clearbody first. destruct (Z_of_nat_complete first) as [j ->]; [lia|]. rewrite Nat2Z.id. lia.
Qed.

Lemma open_envelope enc id km cs x file range :
  material_ok enc id km → envelope enc id km cs x file → range_ok range (Z.of_nat (length x)) →
  ∃ items, open_encrypted_payload file id (Z.of_nat (length x)) range enc = Ok items ∧
    collected items = Some (range_slice range x).
Proof.
  intros (Hid & Href & Hdk & Hcn & Hwn) (wrapped & sealed & Hcs & Hsmall & Hwrap & Hwl & Hsealed & ->) Hrange.
  pose proof (small_u64 _ Hsmall) as Hu.
  pose proof (header_prefix_length enc id (km_wrap_nonce km) (km_content_nonce km) (Z.of_nat (length x)) Hid Href Hwn Hcn) as Hpl.
  pose proof (decode_encoded_header enc id _ _ (km_data_key km) wrapped _ Hid Href Hwn Hcn Hdk Hu Hwrap) as Hdec.
  set (header := header_prefix enc id (Z.of_nat (length x)) (km_wrap_nonce km) (km_content_nonce km) ++ wrapped) in *.
  assert (Hhl : length header = 124%nat) by (unfold header; rewrite length_app, Hpl, Hwl; done). clearbody header.
  pose proof (length_seal_all _ _ _ _ _ _ Hsealed) as Hsl.
  assert (Hcat : concat cs = x) by by destruct Hcs as (? & ? & _ & _ & _ & _ & ?). rewrite Hcat in Hsl.
  eexists. split.
  { apply (open_reads cs); [done..| |rewrite length_app, Hhl, Hsl; lia]. rewrite take_app_length' by done. exact Hdec. }
  rewrite <-(range_window cs x range) by done. unfold range_read. cbn zeta.
  pose proof (window_skip _ _ _ Hcs Hrange Hsmall) as Hskip.
  pose proof (window_bounds _ _ _ Hcs Hrange Hsmall) as Hwin. cbn zeta in Hwin.
  destruct Hwin as (W1 & W2 & W3 & W4 & W5 & W6 & W7 & W8 & W9 & W10).
  set (first := range_offset range / Z.of_nat CHUNK) in *. clearbody first.
  match type of W5 with ?l < _ => set (last := l) in * end. clearbody last.
  assert (Hj : (Z.to_nat first < length cs)%nat) by lia.
  pose proof (seal_all_drop _ _ _ _ _ (Z.to_nat first) Hsealed (take_full _ _ _ Hcs Hj) ltac:(lia)) as Hdrop.
  rewrite drop_app_ge by lia. rewrite Hhl.
  replace (124 + Z.to_nat first * (CHUNK + 16) - 124)%nat with (Z.to_nat first * (CHUNK + 16))%nat by lia.
  pose proof (read_loop_ok cs x (km_data_key km) id (km_content_nonce km) first (Z.to_nat (range_offset range mod Z.of_nat CHUNK))
    (Z.to_nat (last - first + 1)) Hcs (Z.to_nat first) (range_length range (Z.of_nat (length x))) _ last Hdrop) as Hread.
  rewrite Z2Nat.id in Hread by lia. rewrite Z.eqb_refl in Hread. by apply Hread; [lia..|].
Qed.

(** C11: an encrypted payload reads back. Whatever chunks an upload arrives in,
    the envelope that [write_encrypted_payload] produces opens under the same
    deployment key, and any byte range of it, at whatever chunk boundaries, is
    that range of the upload, without an error; size, checksum and entity tag are
    those of the upload. Uploads are those of up to 2^32 - 1 chunks of 64 KiB. *)
Theorem encrypted_payload_roundtrip (enc : ObjectEncryption) (id : bytes) (km : key_material)
    (body : UploadStream) (x : bytes) (range : option ResolvedByteRange)
    (Hmaterial : material_ok enc id km) (Hbody : collected body = Some x) (Hsmall : small x)
    (Hrange : range_ok range (Z.of_nat (length x))) :
  ∃ written file items,
    write_encrypted_payload id body enc (Some (km_data_key km)) (Some (km_content_nonce km)) (Some (km_wrap_nonce km)) =
      Ok (written, file) ∧
    w_size written = Z.of_nat (length x) ∧ w_checksum written = checksum_sha256 x ∧ w_etag written = etag_from_md5 x ∧
    open_encrypted_payload file id (w_size written) range enc = Ok items ∧
    collected items = Some (range_slice range x).
Proof.
  destruct (write_envelope enc id km body x Hmaterial Hbody Hsmall) as (cs & file & Henv & Hw).
  destruct (open_envelope enc id km cs x file range Hmaterial Henv Hrange) as (items & Ho & Hc).
  eexists _, file, items. split; [exact Hw|]. by split_and!.
Qed.
(** ** Files somebody changed *)

(** The [j]-th chunk of a body, and the region of the file it is sealed in. *)
Definition chunk_at (x : bytes) (j : nat) : bytes := take CHUNK (drop (j * CHUNK) x).
Definition region (file : bytes) (j n : nat) : bytes := take (n + 16) (drop (124 + j * (CHUNK + 16)) file).

(** The chunks a body has; the empty body has one. *)
Definition chunk_index (x : bytes) (j : nat) : Prop := j = 0%nat ∨ (j * CHUNK < length x)%nat.

(** An upload that was written: its identifier, the random bytes drawn for it and
    its body. *)
Record sealed_upload := { up_id : bytes; up_material : key_material; up_body : bytes }.

(** What was encrypted under which key, nonce and associated data when [uploads] were
    written: the data key of each in its header, and its chunks. *)
Inductive sealed (enc : ObjectEncryption) (uploads : list sealed_upload) : bytes → bytes → bytes → bytes → Prop :=
  | sealed_key u : u ∈ uploads →
      sealed enc uploads (key_encryption_key enc) (km_wrap_nonce (up_material u))
        (header_prefix enc (up_id u) (Z.of_nat (length (up_body u))) (km_wrap_nonce (up_material u)) (km_content_nonce (up_material u)))
        (km_data_key (up_material u))
  | sealed_chunk u j : u ∈ uploads → chunk_index (up_body u) j →
      sealed enc uploads (km_data_key (up_material u)) (content_chunk_nonce (km_content_nonce (up_material u)) (Z.of_nat j))
        (content_chunk_aad (up_id u) (Z.of_nat j) (Z.of_nat (length (chunk_at (up_body u) j)))) (chunk_at (up_body u) j).

(** Nothing in [file] is forged: where a read of the object [id] decrypts a part of it
    under a key of the deployment, and this succeeds, the result was encrypted under
    the same key, nonce and associated data when some upload was written. *)
Record unforged (enc : ObjectEncryption) (uploads : list sealed_upload) (id x file : bytes) : Prop := {
  unforged_header : ∀ dk,
    Auth.aead_decrypt (key_encryption_key enc) (slice 56 68 file) (take 76 file) (slice 76 124 file) = Some dk →
    sealed enc uploads (key_encryption_key enc) (slice 56 68 file) (take 76 file) dk;
  unforged_chunk : ∀ u j p, u ∈ uploads → up_id u = id → chunk_index x j →
    let nonce := content_chunk_nonce (km_content_nonce (up_material u)) (Z.of_nat j) in
    let aad := content_chunk_aad id (Z.of_nat j) (Z.of_nat (length (chunk_at x j))) in
    Auth.aead_decrypt (km_data_key (up_material u)) nonce aad (region file j (length (chunk_at x j))) = Some p →
    sealed enc uploads (km_data_key (up_material u)) nonce aad p }.

(** Uploads as they are written; the object [id] has the body [x], however often it
    was written. *)
Record written_uploads (enc : ObjectEncryption) (uploads : list sealed_upload) (id x : bytes) : Prop := {
  wu_material : ∀ u, u ∈ uploads → material_ok enc (up_id u) (up_material u);
  wu_id : length id = 16%nat;
  wu_body : ∀ u, u ∈ uploads → up_id u = id → up_body u = x;
  wu_small : small x }.

Lemma length_header_prefix enc id size km :
  material_ok enc id km → length (header_prefix enc id size (km_wrap_nonce km) (km_content_nonce km)) = 76%nat.
Proof.
  intros (Hid & Href & _ & Hcn & Hwn). unfold header_prefix. rewrite !length_app, !length_be_bytes, Hid, Href, Hwn, Hcn. reflexivity.
Qed.

Lemma length_chunk_aad id j n : length id = 16%nat → length (content_chunk_aad id j n) = 32%nat.
Proof. intros Hid. unfold content_chunk_aad. rewrite !length_app, !length_be_bytes, Hid. reflexivity. Qed.

(** The associated data of a chunk name its object and its index. *)
Lemma chunk_aad_inj id id' j j' n n' :
  length id = 16%nat → length id' = 16%nat → is_u32 j → is_u32 j' →
  content_chunk_aad id j n = content_chunk_aad id' j' n' → id = id' ∧ j = j'.
Proof.
  intros Hid Hid' Hj Hj' Heq. unfold content_chunk_aad in Heq. apply app_inj_len in Heq as [_ Heq]; [|done].
  apply app_inj_len in Heq as [-> Heq]; [|congruence]. apply app_inj_len in Heq as [Heq _]; [|by rewrite !length_be_bytes].
  by apply be_bytes_u32_inj in Heq.
Qed.

Lemma chunk_index_u32 x j : small x → chunk_index x j → is_u32 (Z.of_nat j).
Proof. intros Hsmall [->|Hj]; [by vm_compute|]. unfold small, is_u32, u32_max in *. pose proof chunk_size. nia. Qed.

(** What opens as a chunk of an object is that chunk. *)
Lemma sealed_is_chunk enc uploads id x key nonce j n p :
  written_uploads enc uploads id x → chunk_index x j →
  sealed enc uploads key nonce (content_chunk_aad id (Z.of_nat j) n) p → p = chunk_at x j.
Proof.
  intros [Hmat Hid Hbody Hsmall] Hj Hsealed. remember (content_chunk_aad id (Z.of_nat j) n) as aad eqn:Haad.
  destruct Hsealed as [u Hu|u i Hu Hi].
  - apply (f_equal length) in Haad. rewrite length_chunk_aad, length_header_prefix in Haad by auto. lia.
  - destruct (decide (up_id u = id)) as [E|Hne].
    + rewrite (Hbody _ Hu E) in *. apply chunk_aad_inj in Haad as [_ Heq]; [|by rewrite E|done|by eapply chunk_index_u32..].
      by apply Nat2Z.inj in Heq as ->.
    + unfold content_chunk_aad in Haad. apply app_inj_len in Haad as [_ Haad]; [|done].
      apply app_inj_len in Haad as [Heq _]; [done|]. destruct (Hmat _ Hu). congruence.
Qed.

Lemma chunked_chunk_at cs x j c : chunked cs x → cs !! j = Some c → c = chunk_at x j.
Proof.
  intros Hcs Hc. pose proof (lookup_lt_Some _ _ _ Hc) as Hlt.
  destruct (chunked_lookup _ _ _ _ Hcs Hc) as (Hl & Hle & _). unfold chunk_at.
  pose proof (chunk_window cs x (j * CHUNK) (length c) j 1 Hcs) as Hw.
  rewrite Nat.sub_diag, drop_0, (drop_S _ _ _ Hc), firstn_cons, take_0 in Hw. cbn [concat] in Hw.
  rewrite app_nil_r, take_ge in Hw by lia. rewrite Hw at 1 by lia.
  destruct (decide (length c = CHUNK)) as [->|Hne]; [done|]. rewrite !take_ge; [done|rewrite length_drop; lia..].
Qed.

Lemma chunked_index cs x j c : chunked cs x → cs !! j = Some c → chunk_index x j.
Proof.
  intros Hcs Hc. apply lookup_lt_Some in Hc. pose proof (chunked_length _ _ Hcs) as Hn. unfold chunk_index. pose proof chunk_pos.
  destruct (Z.eqb_spec (Z.of_nat (length x)) 0) as [Hz|Hz]; [lia|]. right.
  assert (Z.of_nat j ≤ (Z.of_nat (length x) - 1) / Z.of_nat CHUNK) as Hj.
  { replace (Z.of_nat (length x) + Z.of_nat CHUNK - 1) with (Z.of_nat (length x) - 1 + 1 * Z.of_nat CHUNK) in Hn by lia.
    rewrite Z.div_add in Hn by lia. lia. }
  pose proof (Z.mul_div_le (Z.of_nat (length x) - 1) (Z.of_nat CHUNK) ltac:(lia)). nia.
Qed.

Lemma index_chunked cs x j : chunked cs x → chunk_index x j → (j < length cs)%nat.
Proof.
  intros Hcs Hj. pose proof (chunked_length _ _ Hcs) as Hn. pose proof chunk_pos. destruct Hj as [->|Hj].
  { destruct Hcs as (fs & l & -> & _). rewrite length_app. cbn. lia. }
  destruct (Z.eqb_spec (Z.of_nat (length x)) 0) as [Hz|Hz]; [lia|]. apply Nat2Z.inj_lt. rewrite Hn.
  assert (Z.of_nat j + 1 ≤ (Z.of_nat (length x) + Z.of_nat CHUNK - 1) / Z.of_nat CHUNK); [|lia].
  apply Z.div_le_lower_bound; nia.
Qed.

(** Every body divides into chunks. *)
Lemma chunked_exists x : ∃ cs, chunked cs x.
Proof.
  remember (length x) as n eqn:Hn. revert x Hn. induction (lt_wf n) as [n _ IH]; intros x ->. pose proof chunk_pos.
  destruct (decide (length x ≤ CHUNK)%nat) as [Hle|Hgt].
  { exists [x], [], x. split_and!; try done. cbn. by rewrite app_nil_r. }
  destruct (IH (length (drop CHUNK x)) ltac:(rewrite length_drop; lia) (drop CHUNK x) eq_refl)
    as (cs & fs & l & -> & Hfs & Hl & Hne & Hcat).
  exists (take CHUNK x :: fs ++ [l]), (take CHUNK x :: fs), l. split_and!; try done.
  - constructor; [rewrite length_take; lia|done].
  - intros ->. rewrite (Hne eq_refl) in Hcat. cbn in Hcat. apply (f_equal length) in Hcat. rewrite length_drop in Hcat.
    cbn in Hcat. lia.
  - cbn [concat]. rewrite Hcat. apply take_drop.
Qed.

Lemma header_slices file a b : (b ≤ 124)%nat → slice a b (take ENCRYPTED_PAYLOAD_HEADER_LEN file) = slice a b file.
Proof.
  intros Hb. unfold slice, ENCRYPTED_PAYLOAD_HEADER_LEN. rewrite skipn_firstn_comm, take_take. f_equal. lia.
Qed.

Lemma decode_unforged enc uploads id x file dk cn :
  written_uploads enc uploads id x → unforged enc uploads id x file → (124 ≤ length file)%nat →
  decode_encrypted_header (take ENCRYPTED_PAYLOAD_HEADER_LEN file) enc id (Z.of_nat (length x)) = Ok (dk, cn) →
  ∃ u, u ∈ uploads ∧ up_id u = id ∧ dk = km_data_key (up_material u) ∧ cn = km_content_nonce (up_material u).
Proof.
  intros [Hmat Hid _ _] Hun Hlen. unfold decode_encrypted_header. rewrite !header_slices by lia.
  destruct (_ || _); [discriminate|]. destruct (_ || _); [discriminate|].
  destruct (bool_decide (slice 24 40 file = id)) eqn:Hslice; [|discriminate]. destruct (negb true || _); [discriminate|].
  apply bool_decide_eq_true in Hslice.
  replace (drop 76 (take ENCRYPTED_PAYLOAD_HEADER_LEN file)) with (slice 76 124 file)
    by (unfold slice, ENCRYPTED_PAYLOAD_HEADER_LEN; by rewrite skipn_firstn_comm).
  replace (take 76 (take ENCRYPTED_PAYLOAD_HEADER_LEN file)) with (take 76 file)
    by (unfold ENCRYPTED_PAYLOAD_HEADER_LEN; by rewrite take_take).
  intros Hd. apply result_bind_ok in Hd as (dk' & Hd & Hr). destruct (negb _); [discriminate|]. injection Hr as <- <-.
  destruct (Auth.aead_decrypt _ _ _ _) as [k|] eqn:Hdec; [|discriminate]. injection Hd as <-.
  apply (unforged_header _ _ _ _ _ Hun) in Hdec. remember (take 76 file) as prefix eqn:Hprefix.
  destruct Hdec as [u Hu|u j Hu Hj].
  2: { apply (f_equal length) in Hprefix. rewrite length_chunk_aad, length_take in Hprefix; [lia|by apply Hmat]. }
  exists u. destruct (Hmat _ Hu) as (Hid' & Href & _ & Hcn & Hwn).
  pose proof (λ k a b f H1 H2 H3, header_field enc (up_id u) (km_wrap_nonce (up_material u)) (km_content_nonce (up_material u)) []
    (Z.of_nat (length (up_body u))) k a b f H1 H2 H3) as Hfield. rewrite app_nil_r, Hprefix in Hfield.
  assert (Hcut : ∀ a b, (b ≤ 76)%nat → slice a b (take 76 file) = slice a b file).
  { intros a b Hb. unfold slice. rewrite skipn_firstn_comm, take_take. f_equal. lia. }
  split_and!; [done| |done|].
  - rewrite <-Hslice, <-Hcut by lia. symmetry. apply (Hfield 6%nat); [done| |by rewrite Hid']. cbn [take header_fields concat].
    rewrite ?length_app, ?length_be_bytes. reflexivity.
  - rewrite <-Hcut by lia. apply (Hfield 9%nat); [done| |by rewrite Hcn]. cbn [take header_fields concat].
    rewrite ?length_app, ?length_be_bytes, ?Hid', ?Href, ?Hwn. reflexivity.
Qed.

(** A stream that releases a prefix of [want], and all of it unless it fails. *)
Definition faithful {E} (items : list (result E bytes)) (want : bytes) : Prop :=
  released items `prefix_of` want ∧ ∀ b, collected items = Some b → b = want.

Lemma faithful_err {E} (e : E) rest want : faithful (Err e :: rest) want.
Proof. split; [apply prefix_nil|]. intros b [=]. Qed.

Lemma faithful_cons {E} c (items : list (result E bytes)) want : faithful items want → faithful (Ok c :: items) (c ++ want).
Proof.
  intros [Hp Hc]. split; [by apply prefix_app|]. cbn [collected]. intros b Hb.
  destruct (collected items) as [y|] eqn:Hy; [|discriminate Hb]. injection Hb as <-. by rewrite (Hc y).
Qed.

Lemma read_loop_faithful cs x dk id cn first skip file fuel :
  chunked cs x →
  (∀ j p, chunk_index x j →
    Auth.aead_decrypt dk (content_chunk_nonce cn (Z.of_nat j)) (content_chunk_aad id (Z.of_nat j) (Z.of_nat (length (chunk_at x j))))
      (region file j (length (chunk_at x j))) = Some p → p = chunk_at x j) →
  ∀ j r last, (j + fuel ≤ length cs)%nat → last = Z.of_nat j + Z.of_nat fuel - 1 → 0 ≤ r →
  (Z.of_nat j = first → (skip ≤ length (default [] (cs !! j)))%nat) → first ≤ Z.of_nat j →
  faithful
    (read_loop fuel (reader (drop (124 + j * (CHUNK + 16)) file) dk id cn (Z.of_nat (length x)) (Z.of_nat j) last first skip r))
    (take (Z.to_nat r) (drop (if Z.of_nat j =? first then skip else 0) (concat (take fuel (drop j cs))))).
Proof.
  intros Hcs Hauth. induction fuel as [|fuel IH]; intros j r last Hfit -> Hr Hskip Hfirst.
  { rewrite take_0. cbn [read_loop concat]. rewrite drop_nil, take_nil. split; [done|]. cbn. by intros b [= <-]. }
  assert (Hlt : (j < length cs)%nat) by lia. destruct (lookup_lt_is_Some_2 _ _ Hlt) as [c Hc].
  destruct (chunked_lookup _ _ _ _ Hcs Hc) as (_ & _ & _ & Hfull).
  pose proof (chunked_index _ _ _ _ Hcs Hc) as Hle. pose proof (chunked_chunk_at _ _ _ _ Hcs Hc) as Hat. specialize (Hauth j) as Hj. rewrite <-Hat in Hj.
  rewrite (drop_S _ _ _ Hc), firstn_cons.
  cbn [read_loop]. unfold reader at 1 2. cbn [rs_end_index rs_next_index].
  rewrite (proj2 (Z.ltb_ge _ _)) by lia. unfold read_chunk.
  rewrite (plaintext_length_chunk cs x j c) by done. cbn [reader rs_file rs_next_index rs_data_key rs_content_nonce rs_object_id
    rs_first_index rs_first_skip rs_output_remaining rs_plaintext_size rs_end_index].
  destruct (_ <? _)%nat; [apply faithful_err|]. unfold AES_GCM_TAG_LEN. fold (region file j (length c)).
  destruct (Auth.aead_decrypt _ _ _ _) as [p|] eqn:Hdec; [|apply faithful_err].
  rewrite (Hj p Hle eq_refl). cbn [ok_or mbind result_bind]. set (skip' := if Z.of_nat j =? first then skip else 0%nat).
  assert (Hskip' : (skip' ≤ length c)%nat).
  { unfold skip'. destruct (Z.eqb_spec (Z.of_nat j) first) as [E|E]; [|lia]. specialize (Hskip E). by rewrite Hc in Hskip. }
  cbn [concat]. rewrite (take_drop_app _ _ c) by done. apply faithful_cons.
  change (Build_ReadState ?a ?b ?c ?d ?e ?f ?g ?h ?i ?k) with (reader a b c d e f g h i k).
  replace (Z.of_nat j + 1) with (Z.of_nat (S j)) by lia. rewrite drop_drop.
  destruct fuel as [|fuel].
  { cbn [read_loop]. rewrite take_0. cbn [concat]. rewrite take_nil. split; [done|]. cbn. by intros b [= <-]. }
  replace (124 + j * (CHUNK + 16) + (length c + 16))%nat with (124 + S j * (CHUNK + 16))%nat
    by (rewrite Hfull by lia; lia).
  set (len := Nat.min (length c - skip') (Z.to_nat r)).
  pose proof (IH (S j) (r - Z.of_nat len) (Z.of_nat j + Z.of_nat (S (S fuel)) - 1) ltac:(lia) ltac:(lia) ltac:(lia) ltac:(lia) ltac:(lia)) as IHj.
  rewrite (proj2 (Z.eqb_neq (Z.of_nat (S j)) first)), drop_0 in IHj by lia.
  by replace (Z.to_nat r - len)%nat with (Z.to_nat (r - Z.of_nat len)) by lia.
Qed.

(** A file as it was written is not forged. *)
Lemma written_region enc id km cs x file j c :
  material_ok enc id km → envelope enc id km cs x file → cs !! j = Some c →
  seal_chunk (km_data_key km) id (km_content_nonce km) (Z.of_nat j) c = Some (region file j (length c)).
Proof.
  intros Hmat (wrapped & body & Hcs & _ & _ & Hwl & Hsealed & ->) Hc. pose proof (lookup_lt_Some _ _ _ Hc) as Hj.
  pose proof (seal_all_drop _ _ _ _ _ j Hsealed (take_full _ _ _ Hcs Hj) ltac:(lia)) as Hdrop. unfold region.
  rewrite drop_app_ge; rewrite length_app, length_header_prefix, Hwl by done; [|lia].
  replace (124 + j * (CHUNK + 16) - (76 + 48))%nat with (j * (CHUNK + 16))%nat by lia.
  rewrite (drop_S _ _ _ Hc) in Hdrop. cbn [seal_all] in Hdrop.
  destruct (seal_chunk _ _ _ _ _) as [y|] eqn:Hy; [|done]. cbn [mbind option_bind] in Hdrop.
  destruct (seal_all _ _ _ (_ + 1) _) as [z|]; [|done]. apply (inj Some) in Hdrop as <-.
  unfold seal_chunk in Hy. rewrite take_app_length'; [done|]. by apply aead_length in Hy.
Qed.

Lemma written_unforged enc id km cs x file :
  material_ok enc id km → envelope enc id km cs x file →
  unforged enc [{| up_id := id; up_material := km; up_body := x |}] id x file.
Proof.
  intros Hmat Henv. set (u := {| up_id := id; up_material := km; up_body := x |}).
  assert (Hu : u ∈ [u]) by by apply list_elem_of_singleton. split.
  - destruct Henv as (wrapped & body & _ & _ & Hwrap & Hwl & _ & ->). pose proof (length_header_prefix _ _ (Z.of_nat (length x)) _ Hmat) as Hl.
    destruct Hmat as (Hid & Href & _ & Hcn & Hwn).
    rewrite <-app_assoc, take_app_length' by done. set (prefix := header_prefix _ _ _ _ _) in *.
    assert (slice 56 68 (prefix ++ wrapped ++ body) = km_wrap_nonce km) as ->.
    { rewrite app_assoc. unfold slice. rewrite drop_app_le by (rewrite length_app; lia). rewrite take_app_le.
      2: { rewrite length_drop, length_app, Hl, Hwl. lia. }
      apply (header_field enc id (km_wrap_nonce km) (km_content_nonce km) wrapped (Z.of_nat (length x)) 8 56 68); [done| |by rewrite Hwn].
      cbn [take header_fields concat]. rewrite ?length_app, ?length_be_bytes, ?Hid, ?Href. reflexivity. }
    assert (slice 76 124 (prefix ++ wrapped ++ body) = wrapped) as ->.
    { unfold slice. rewrite drop_app_length' by done. by rewrite take_app_length'. }
    intros dk Hd. rewrite (aead_opens _ _ _ _ _ Hwrap) in Hd. injection Hd as <-. exact (sealed_key enc [u] u Hu).
  - intros v j p Hv _ Hj. apply list_elem_of_singleton in Hv as ->. pose proof Henv as (_ & _ & Hcs & _).
    destruct (lookup_lt_is_Some_2 cs j (index_chunked _ _ _ Hcs Hj)) as [c Hc].
    pose proof (written_region _ _ _ _ _ _ _ _ Hmat Henv Hc) as Hregion.
    pose proof (chunked_chunk_at _ _ _ _ Hcs Hc) as ->. intros nonce aad Hd. apply aead_opens in Hregion as Ho.
    assert (p = chunk_at x j) as -> by (apply (inj Some); etransitivity; [symmetry; exact Hd|exact Ho]).
    exact (sealed_chunk enc [u] u j Hu Hj).
Qed.

(** C12: a changed payload is detected. Whatever the file holds now, as long as what it
    decrypts to was encrypted by the deployment under the same key, nonce and
    associated data (the header or a chunk of another object, a chunk of another
    index, a truncated or extended file are all allowed), a read that opens releases
    only bytes of the upload, in order and from the right place, and if it ends
    without an error, all of them. The object has one body, also where it was written
    again under its identifier; payloads have up to 2^32 - 1 chunks of 64 KiB. *)
Theorem changed_payload_detected (enc : ObjectEncryption) (uploads : list sealed_upload) (id x file : bytes)
    (range : option ResolvedByteRange) (items : DownloadStream)
    (Hwritten : written_uploads enc uploads id x) (Hrange : range_ok range (Z.of_nat (length x)))
    (Hunforged : unforged enc uploads id x file)
    (Hopen : open_encrypted_payload file id (Z.of_nat (length x)) range enc = Ok items) :
  released items `prefix_of` range_slice range x ∧
  (∀ b, collected items = Some b → b = range_slice range x).
Proof.
  apply open_inv in Hopen as (dk & cn & Hdec & Hlen & ->).
  destruct (decode_unforged _ _ _ _ _ _ _ Hwritten Hunforged Hlen Hdec) as (u & Hu & Hid & -> & ->).
  pose proof (wu_small _ _ _ _ Hwritten) as Hsmall.
  destruct (chunked_exists x) as [cs Hcs]. change (faithful (range_read file (km_data_key (up_material u)) id (km_content_nonce (up_material u)) (Z.of_nat (length x)) range) (range_slice range x)).
  rewrite <-(range_window cs x range) by done. unfold range_read. cbn zeta.
  pose proof (window_skip _ _ _ Hcs Hrange Hsmall) as Hskip.
  pose proof (window_bounds _ _ _ Hcs Hrange Hsmall) as Hwin. cbn zeta in Hwin.
  destruct Hwin as (W1 & W2 & W3 & W4 & W5 & W6 & W7 & W8 & W9 & W10).
  set (first := range_offset range / Z.of_nat CHUNK) in *. clearbody first.
  match type of W5 with ?l < _ => set (last := l) in * end. clearbody last.
  assert (Hchunk := λ j p Hj Hd, sealed_is_chunk _ _ _ _ _ _ j _ p Hwritten Hj (unforged_chunk _ _ _ _ _ Hunforged u j p Hu Hid Hj Hd)).
  pose proof (read_loop_faithful cs x (km_data_key (up_material u)) id (km_content_nonce (up_material u)) first (Z.to_nat (range_offset range mod Z.of_nat CHUNK))
    file (Z.to_nat (last - first + 1)) Hcs Hchunk (Z.to_nat first) (range_length range (Z.of_nat (length x))) last) as Hread.
  rewrite Z2Nat.id in Hread by lia. rewrite Z.eqb_refl in Hread. by apply Hread; [lia..|].
Qed.

(** ** Digests of plaintexts *)

(** What [verifying_stream] releases of what it is given. *)
Lemma verifying_loop_ok body expected hashed held b :
  collected (verifying_loop body expected hashed held) = Some b ↔
  ∃ rest, collected body = Some rest ∧ b = default [] held ++ rest ∧ checksum_sha256 (hashed ++ rest) = expected.
Proof.
  revert hashed held b. induction body as [|[c|e] body IH]; intros hashed held b; cbn [verifying_loop].
  - cbn [collected]. case_bool_decide as Hd.
    + transitivity (b = default [] held).
      { destruct held; cbn; rewrite ?app_nil_r; split; congruence. }
      split; [intros ->; exists []; by rewrite !app_nil_r|]. intros (rest & [= <-] & -> & _). by rewrite app_nil_r.
    + split; [intros [=]|]. intros (rest & [= <-] & _ & Hr). by rewrite app_nil_r in Hr.
  - case_bool_decide as Hc.
    + subst c. rewrite IH. cbn [collected]. by destruct (collected body).
    + assert (Hcat : collected ((Ok <$> option_list held) ++ verifying_loop body expected (hashed ++ c) (Some c)) =
        app (default [] held) <$> collected (verifying_loop body expected (hashed ++ c) (Some c))).
      { rewrite collected_app. destruct held; cbn; rewrite ?app_nil_r; by destruct (collected _). }
      rewrite Hcat, fmap_Some. cbn [collected]. setoid_rewrite IH. split.
      * intros (y & (rest & -> & -> & Hd) & ->). exists (c ++ rest). by rewrite <-app_assoc in Hd.
      * intros (rest & Hb & -> & Hd). destruct (collected body) as [y|]; [|discriminate Hb]. injection Hb as <-.
        exists (c ++ y). split; [|done]. exists y. by rewrite <-app_assoc.
  - cbn. split; [done|]. by intros (? & ? & _).
Qed.

Lemma released_app_ok {E} (c : bytes) (items : list (result E bytes)) : released (Ok c :: items) = c ++ released items.
Proof. done. Qed.

Lemma verifying_loop_fails body expected hashed held :
  held ≠ Some [] → collected (verifying_loop body expected hashed held) = None →
  ∃ last, released (verifying_loop body expected hashed held) ++ last = default [] held ++ released body ∧
          (last = [] → default [] held ++ released body = []).
Proof.
  revert hashed held. induction body as [|[c|e] body IH]; intros hashed held Hheld; cbn [verifying_loop].
  - case_bool_decide; [by destruct held|]. intros _. exists (default [] held). cbn. by rewrite app_nil_r.
  - case_bool_decide as Hc; [subst c; apply IH, Hheld|]. rewrite released_app_ok. intros Hnone.
    destruct (IH (hashed ++ c) (Some c)) as (last & Hl & Hne); [congruence| |].
    { rewrite collected_app in Hnone. destruct (collected (verifying_loop _ _ _ _)) as [y|] eqn:Hy; [|done].
      destruct held; discriminate Hnone. }
    exists last. change (default [] (Some c)) with c in *. rewrite <-Hl. split.
    + destruct held as [h|]; [|done]. cbn. by rewrite <-app_assoc.
    + intros ->. specialize (Hne eq_refl). by destruct c.
  - intros _. exists (default [] held). cbn. by rewrite app_nil_r.
Qed.

(** a corrupt plaintext read fails. A whole read is delivered to its end
    exactly when the payload streams without an error and has the digest recorded
    at commit, and it then delivers the payload. When it fails, what was released is
    a proper prefix of what the file streamed: the last chunk is withheld, so that a
    client that counts bytes sees a short body. *)
Theorem verified_read_complete (body : DownloadStream) (expected : Checksum) :
  (∀ b, collected (verifying_stream body expected) = Some b ↔
     collected body = Some b ∧ checksum_sha256 b = expected) ∧
  (collected (verifying_stream body expected) = None → released body ≠ [] →
     ∃ last, last ≠ [] ∧ released (verifying_stream body expected) ++ last = released body).
Proof.
  unfold verifying_stream. split.
  - intros b. rewrite verifying_loop_ok. cbn. split; [by intros (rest & ? & -> & ?)|]. intros [? ?]. by exists b.
  - intros Hnone Hne. destruct (verifying_loop_fails body expected [] None ltac:(discriminate) Hnone) as (last & Hl & Hlast).
    exists last. split; [|done]. intros ->. by apply Hne, Hlast.
Qed.
End Properties.

End PayloadTheorems.

(** * Concrete payload files

    A cipher with the laws of AES-GCM (the text, then a tag of sixteen bytes over
    everything that is authenticated), an upload in two pieces, and the properties
    of [PayloadTheorems] at these inputs. *)

Import ObjectLock CoreTypes Catalog Commands Names Payload PayloadTheorems.

Module PayloadSamples.
#[local] Existing Instance ProofBundleSamples.sample_hex.
#[local] Existing Instance sha256_function.

(** ** A cipher *)

Definition tag (key nonce aad text : bytes) : bytes :=
  take 16 (Sha256.hash (key ++ nonce ++ aad ++ be_bytes 8 (Z.of_nat (length aad)) ++ text)).

#[export] Instance tagging : Auth.Cryptography_ := {|
  Auth.aead_encrypt key nonce aad text := Some (text ++ tag key nonce aad text);
  Auth.aead_decrypt key nonce aad sealed :=
    let text := take (length sealed - 16) sealed in
    if bool_decide (sealed = text ++ tag key nonce aad text) then Some text else None;
  Auth.hkdf_expand salt material info := Some (Sha256.hash (salt ++ material ++ info)) |}.

Lemma length_tag key nonce aad text : length (tag key nonce aad text) = 16%nat.
Proof.
  unfold tag. rewrite length_take. pose proof (digest_length (key ++ nonce ++ aad ++ be_bytes 8 (Z.of_nat (length aad)) ++ text)) as Hd.
  cbn [digest sha256_function] in Hd. rewrite Hd. reflexivity.
Qed.

#[export] Instance tagging_laws : AeadLaws.
Proof.
  split; cbn [Auth.aead_encrypt Auth.aead_decrypt tagging].
  - intros key nonce aad text _. eexists. reflexivity.
  - intros key nonce aad text sealed [= <-]. by rewrite length_app, length_tag.
  - intros key nonce aad text sealed [= <-]. rewrite length_app, length_tag.
    replace (length text + 16 - 16)%nat with (length text) by lia. rewrite take_app_length.
    by rewrite bool_decide_eq_true_2.
Qed.

(** Entity tags of this sample are prefixes of the body. *)
#[export] Instance sample_md5 : Md5Crate := {| md5 body := take 16 (body ++ replicate 16 0) |}.

(** ** An upload *)

Definition deployment : ObjectEncryption := {| key_encryption_key := replicate 32 7; key_reference := replicate 16 8 |}.
Definition object_id : bytes := replicate 16 3.
Definition material : key_material :=
  {| km_data_key := replicate 32 1; km_content_nonce := replicate 8 2; km_wrap_nonce := replicate 12 5 |}.
Definition statement : bytes := str "quarterly statement".
Definition upload : UploadStream := [Ok (take 5 statement); Ok []; Ok (drop 5 statement)].
Definition some_bytes : option ResolvedByteRange := Some {| resolved_offset := 3; resolved_length := 9 |}.

Lemma material_fits : material_ok deployment object_id material.
Proof. by split_and!. Qed.

Lemma encrypted_payload_roundtrip_witness :
  ∃ written file items,
    write_encrypted_payload object_id upload deployment (Some (km_data_key material)) (Some (km_content_nonce material))
      (Some (km_wrap_nonce material)) = Ok (written, file) ∧
    w_size written = 19 ∧ w_checksum written = checksum_sha256 statement ∧ w_etag written = etag_from_md5 statement ∧
    open_encrypted_payload file object_id (w_size written) some_bytes deployment = Ok items ∧
    collected items = Some (str "rterly st").
Proof.
  apply (encrypted_payload_roundtrip deployment object_id material upload statement some_bytes).
  - exact material_fits.
  - reflexivity.
  - by vm_compute.
  - cbn. lia.
Defined.

(** ** A changed file *)

Definition file_of (id : bytes) (body : UploadStream) : bytes :=
  match write_encrypted_payload id body deployment (Some (km_data_key material)) (Some (km_content_nonce material))
          (Some (km_wrap_nonce material)) with
  | Ok (_, file) => file
  | Err _ => []
  end.

(** Another object of the same length, for which even the same key was drawn. *)
Definition other_id : bytes := replicate 16 4.
Definition other_statement : bytes := str "doctored statements".
Definition both : list sealed_upload :=
  [{| up_id := object_id; up_material := material; up_body := statement |};
   {| up_id := other_id; up_material := material; up_body := other_statement |}].

(** The header of the one file and the sealed chunk of the other. *)
Definition spliced : bytes := take 124 (file_of object_id upload) ++ drop 124 (file_of other_id [Ok other_statement]).

Lemma both_written : written_uploads deployment both object_id statement.
Proof.
  split; [|done| |by vm_compute].
  - intros u Hu. apply elem_of_cons in Hu as [->|Hu]; [exact material_fits|]. apply list_elem_of_singleton in Hu as ->. by split_and!.
  - intros u Hu. apply elem_of_cons in Hu as [->|Hu]; [done|]. apply list_elem_of_singleton in Hu as ->. intros [=].
Qed.

Lemma spliced_unforged : unforged deployment both object_id statement spliced.
Proof.
  split.
  - intros dk. assert (Hd : Auth.aead_decrypt (key_encryption_key deployment) (slice 56 68 spliced) (take 76 spliced)
      (slice 76 124 spliced) = Some (km_data_key material)) by (vm_compute; reflexivity).
    rewrite Hd. intros [= <-]. exact (sealed_key deployment both _ (list_elem_of_here _ _)).
  - intros u j p Hu Hid Hj. assert (j = 0%nat) as ->.
    { destruct Hj as [->|Hj]; [done|]. pose proof chunk_size. change (length statement) with 19%nat in Hj. nia. }
    apply elem_of_cons in Hu as [->|Hu]; [|apply list_elem_of_singleton in Hu as ->; discriminate Hid].
    cbn zeta. match goal with |- ?d = _ → _ => assert (Hd : d = None) by (vm_compute; reflexivity) end. rewrite Hd. discriminate.
Qed.

Lemma changed_payload_detected_witness :
  open_encrypted_payload spliced object_id 19 None deployment = Ok [Err IntegrityMismatch] ∧
  released [@Err StorageError bytes IntegrityMismatch] `prefix_of` statement.
Proof.
  assert (Hopen : open_encrypted_payload spliced object_id 19 None deployment = Ok [Err IntegrityMismatch])
    by (vm_compute; reflexivity).
  split; [exact Hopen|].
  apply (changed_payload_detected deployment both object_id statement spliced None _ both_written I spliced_unforged Hopen).
Defined.

End PayloadSamples.
