(* ===== verification/Disk.v ===== *)
(** * A disk

    Files in directories, as running code sees them and as a crash may leave them.
    An update of a directory (a file put in place or removed) survives a crash once
    the directory is synced; before that, the crash keeps any part of the updates
    since then. A file that was not synced holds arbitrary bytes after a crash.

    Used by the model of the local storage engine. *)

From S2P Require Import Prelude Bytes.

Module Disk.

Record file := { content : bytes; synced : bool }.

Section Disk.
Context `{Countable K} `{EqDecision D} (parent : K → D).

Inductive effect := Put (p : K) (f : file) | Remove (p : K).
Definition effect_path (e : effect) : K := match e with Put p _ => p | Remove p => p end.

Definition apply_effect (m : gmap K file) (e : effect) : gmap K file :=
  match e with Put p f => <[p := f]> m | Remove p => delete p m end.
Definition apply_effects (l : list effect) (m : gmap K file) : gmap K file := foldl apply_effect m l.

(** What running code sees, what is durable, and the updates between them. *)
Record Disk := { cache : gmap K file; durable : gmap K file; pending : list effect }.
Definition empty_disk : Disk := {| cache := ∅; durable := ∅; pending := [] |}.

Definition update (l : list effect) (d : Disk) : Disk :=
  {| cache := apply_effects l (cache d); durable := durable d; pending := pending d ++ l |}.

Definition in_directory (dir : D) (e : effect) : Prop := parent (effect_path e) = dir.
#[export] Instance in_directory_dec dir e : Decision (in_directory dir e).
Proof. unfold in_directory. apply _. Defined.

Definition sync_directory (dir : D) (d : Disk) : Disk :=
  {| cache := cache d; durable := apply_effects (filter (in_directory dir) (pending d)) (durable d);
     pending := filter (λ e, ¬ in_directory dir e) (pending d) |}.

(** A crash: [mask] says which of the pending updates are kept. *)
Fixpoint keep (mask : list bool) (l : list effect) : list effect :=
  match mask, l with
  | b :: mask, e :: l => if b then e :: keep mask l else keep mask l
  | _, _ => []
  end.
Definition after_crash (garbage : K → bytes) (p : K) (f : file) : file :=
  {| content := if synced f then content f else garbage p; synced := true |}.
Definition crash (mask : list bool) (garbage : K → bytes) (d : Disk) : Disk :=
  let m := map_imap (λ p f, Some (after_crash garbage p f)) (apply_effects (keep mask (pending d)) (durable d)) in
  {| cache := m; durable := m; pending := [] |}.

(** ** What holds of every disk *)

Definition coherent (d : Disk) : Prop := cache d = apply_effects (pending d) (durable d).
(** The file is there and will be after any crash. *)
Definition settled (d : Disk) (p : K) (f : file) : Prop :=
  cache d !! p = Some f ∧ durable d !! p = Some f ∧ Forall (λ e, effect_path e ≠ p) (pending d).

Lemma disk_effects_app l l' m : apply_effects (l ++ l') m = apply_effects l' (apply_effects l m).
Proof. apply foldl_app. Qed.

Lemma lookup_apply_other l m p : Forall (λ e, effect_path e ≠ p) l → apply_effects l m !! p = m !! p.
Proof.
  intros Hl. revert m. induction Hl as [|e l He Hl IH]; intros m; [done|]. cbn [apply_effects foldl].
  fold (apply_effects l (apply_effect m e)). rewrite IH. destruct e; cbn in *; by rewrite ?lookup_insert_ne, ?lookup_delete_ne.
Qed.

(** Only the updates of a path matter at the path. *)
Lemma lookup_apply_filter (P : effect → Prop) `{∀ e, Decision (P e)} l m p :
  (∀ e, e ∈ l → effect_path e = p → P e) → apply_effects l m !! p = apply_effects (filter P l) m !! p.
Proof.
  assert (Hgen : ∀ l m m', m !! p = m' !! p → (∀ e, e ∈ l → effect_path e = p → P e) →
    apply_effects l m !! p = apply_effects (filter P l) m' !! p).
  { clear l m. intros l. induction l as [|e l IH]; intros m m' Hm HP; [done|]. rewrite filter_cons.
    assert (Hrest : ∀ e', e' ∈ l → effect_path e' = p → P e') by (intros e' He'; apply HP; by right).
    cbn [apply_effects foldl]. fold (apply_effects l (apply_effect m e)). destruct (decide (effect_path e = p)) as [Hep|Hep].
    - rewrite decide_True by (by apply HP; [left|]). cbn [apply_effects foldl].
      fold (apply_effects (filter P l) (apply_effect m' e)). apply IH; [|done].
      destruct e; cbn in *; subst; by rewrite ?lookup_insert_eq, ?lookup_delete_eq.
    - case_decide; cbn [apply_effects foldl]; [fold (apply_effects (filter P l) (apply_effect m' e))|fold (apply_effects (filter P l) m')];
        apply IH; try done; destruct e; cbn in *; by rewrite ?lookup_insert_ne, ?lookup_delete_ne. }
  intros HP. by apply Hgen.
Qed.

Lemma empty_coherent : coherent empty_disk.
Proof. done. Qed.

Lemma update_coherent l d : coherent d → coherent (update l d).
Proof. unfold coherent, update. cbn [cache durable pending]. intros ->. by rewrite disk_effects_app. Qed.

Lemma lookup_synced dir d p :
  coherent d → parent p = dir → durable (sync_directory dir d) !! p = cache d !! p.
Proof.
  intros Hd <-. rewrite Hd. cbn. rewrite (lookup_apply_filter (in_directory (parent p)) (pending d)); [done|].
  intros e _ <-. done.
Qed.

Lemma filter_other dir d p :
  parent p = dir → Forall (λ e, effect_path e ≠ p) (filter (λ e, ¬ in_directory dir e) (pending d)).
Proof.
  intros <-. apply Forall_forall. intros e [Hd _]%list_elem_of_filter Hp. apply Hd. unfold in_directory. by rewrite Hp.
Qed.

Lemma sync_coherent dir d : coherent d → coherent (sync_directory dir d).
Proof.
  intros Hd. apply map_eq. intros p. cbn [sync_directory cache pending durable].
  destruct (decide (parent p = dir)) as [Hp|Hp].
  - rewrite (lookup_apply_other (filter _ _)) by by apply filter_other. symmetry. by apply (lookup_synced dir d p).
  - rewrite Hd, (lookup_apply_filter (λ e, ¬ in_directory dir e) (pending d)) by (intros e _ <-; done).
    assert (Hgen : ∀ l m m', m !! p = m' !! p → apply_effects l m !! p = apply_effects l m' !! p).
    { intros l. induction l as [|e l IH]; intros m m' Hm; [done|]. cbn [apply_effects foldl]. apply IH.
      destruct e as [q f|q]; cbn; destruct (decide (q = p)) as [->|];
        by rewrite ?lookup_insert_eq, ?lookup_delete_eq, ?lookup_insert_ne, ?lookup_delete_ne. }
    apply Hgen. symmetry. apply lookup_apply_other. apply Forall_forall. intros e [He _]%list_elem_of_filter Hep.
    apply Hp. by rewrite <-Hep.
Qed.

Lemma crash_coherent mask garbage d : coherent (crash mask garbage d).
Proof. done. Qed.

(** ** Settled files *)

Lemma settled_update l d p f : settled d p f → Forall (λ e, effect_path e ≠ p) l → settled (update l d) p f.
Proof.
  intros (Hc & Hd & Hp) Hl. split_and!; cbn; [by rewrite lookup_apply_other|done|]. by apply Forall_app.
Qed.

Lemma settled_sync dir d p f : settled d p f → settled (sync_directory dir d) p f.
Proof.
  intros (Hc & Hd & Hp). split_and!; cbn; [done| |].
  - rewrite lookup_apply_other; [done|]. apply Forall_forall. intros e [_ He]%list_elem_of_filter. by eapply Forall_forall in Hp.
  - apply Forall_forall. intros e [_ He]%list_elem_of_filter. by eapply Forall_forall in Hp.
Qed.

Lemma sync_settles d p f : coherent d → cache d !! p = Some f → settled (sync_directory (parent p) d) p f.
Proof.
  intros Hd Hc. split_and!; [done| |by apply filter_other]. by rewrite lookup_synced.
Qed.

Lemma keep_elem mask l e : e ∈ keep mask l → e ∈ l.
Proof.
  revert l. induction mask as [|b mask IH]; intros [|x l]; cbn; try (by intros ?%elem_of_nil).
  destruct b; rewrite !elem_of_cons; naive_solver.
Qed.

Lemma settled_crash mask garbage d p f : synced f = true → settled d p f → settled (crash mask garbage d) p f.
Proof.
  intros Hs (_ & Hd & Hp).
  assert (Hl : cache (crash mask garbage d) !! p = Some f).
  { cbn. rewrite map_lookup_imap, lookup_apply_other, Hd.
    - cbn. unfold after_crash. rewrite Hs. destruct f. cbn in *. by subst.
    - apply Forall_forall. intros e He%keep_elem. by eapply Forall_forall in Hp. }
  by split_and!.
Qed.
End Disk.
Arguments effect K : clear implicits.
Arguments Disk K {_ _} : rename.

End Disk.
