(* ===== verification/LocalStore.v ===== *)
(** * The local storage engine

    [crates/record-store-storage/src/local_store.rs] and [maintenance.rs]: how an
    upload becomes an object. The payload is staged in a temporary file, a
    publication record is written, the file is renamed into place and its directory
    synced, and only then the catalog commits the version; payloads that a commit
    replaces are removed afterwards, and start-up removes what a crash left behind.

    An operation is a program: a tree of calls to the file system and the catalog,
    each answered before the next is made ([prog]). Programs run interleaved, one
    call at a time, in a pool; any call of the file system may fail; a request may be
    abandoned at any call, which runs its drop guards and may leave that call to be
    performed later ([Cancel]); and the machine may crash at any moment ([Crash]),
    after which the recovery of [open_with_master_key] runs alone. The lock per key
    that the code holds around a commit only removes interleavings and is left out.

    The catalog is that of [Catalog]; a committed transaction is durable. *)

From S2P Require Import Prelude Programs Bytes Text Tables Digest ObjectLock CoreTypes Keys Catalog Commands Listing Auth Names Payload Disk.
Import Programs ObjectLock CoreTypes Keys Catalog Commands Listing StdText Names Payload Disk.

Module LocalStore.

(** ** Paths ([layout.rs]) *)

Inductive path := UploadFile (id : bytes) | PartialRecord (id : bytes) | PublicationFile (id : bytes) | PayloadFile (id : bytes).
#[export] Instance path_eq_dec : EqDecision path.
Proof. solve_decision. Defined.

Definition path_code (p : path) : (bytes + bytes) + (bytes + bytes) :=
  match p with
  | UploadFile id => inl (inl id) | PartialRecord id => inl (inr id)
  | PublicationFile id => inr (inl id) | PayloadFile id => inr (inr id)
  end.
Definition path_decode (s : (bytes + bytes) + (bytes + bytes)) : path :=
  match s with
  | inl (inl id) => UploadFile id | inl (inr id) => PartialRecord id
  | inr (inl id) => PublicationFile id | inr (inr id) => PayloadFile id
  end.
#[export] Instance path_countable : Countable path.
Proof. apply (inj_countable' path_code path_decode). by intros []. Defined.

Definition path_id (p : path) : bytes :=
  match p with UploadFile id | PartialRecord id | PublicationFile id | PayloadFile id => id end.
Definition is_payload (p : path) : bool := match p with PayloadFile _ => true | _ => false end.

(** The temporary directory, and the two levels of shards named by the first bytes
    of the identifier. *)
Inductive directory := TemporaryDirectory | ShardDirectory (prefix : bytes).
#[export] Instance directory_eq_dec : EqDecision directory.
Proof. solve_decision. Defined.
Definition parent (p : path) : directory :=
  match p with PayloadFile id => ShardDirectory (take 2 id) | _ => TemporaryDirectory end.

(** Names [recover_incomplete_uploads] removes; the files of replica transfers are
    not part of this model. *)
Definition is_recognized_upload_name (p : path) : bool :=
  match p with UploadFile _ | PartialRecord _ => true | _ => false end.

Record PublicationRecord := { pr_object_id : bytes; pr_bucket_id : option bytes; pr_key : option bytes }.

(** [serde_json] on publication records. *)
Class PublicationJson := {
  encode_record : PublicationRecord → bytes;
  decode_record : bytes → option PublicationRecord }.
(** The text of an error, of [thiserror]. *)
Class StorageErrorText := { storage_error_text : StorageError → bytes }.

(** ** Calls *)

Inductive removal := Removed | NotFound | NotRemoved.

Inductive call : Type → Type :=
  | CreateNew (p : path) : call (result StorageError ())
  | WriteFile (p : path) (data : bytes) : call (result StorageError ())
  | SyncFile (p : path) : call (result StorageError ())
  | Rename (from to : path) : call (result StorageError ())
  | RemoveFile (p : path) : call removal
  | CreateDirectories (dir : directory) : call (result StorageError ())
  | SyncDirectory (dir : directory) : call (result StorageError ())
  | OpenFile (p : path) : call (result StorageError (option bytes))
  | ReadTemporary : call (result StorageError (list path))
  | ReadPayloads : call (result StorageError (list bytes))
  | Guard (p : path) : call ()
  | Disarm (p : path) : call ()
  | Commit (command : MetadataCommand) : call (result MetadataError MetadataOutcome)
  | GetUpload (upload : bytes) : call (option MultipartUpload)
  | PayloadReferenced (id : bytes) : call bool
  | PendingCleanup (limit : Z) : call (list bytes)
  | Ask {A : Type} (query : Catalog → A) : call A.

Notation prog := (program call).
(** The answer of a repository method, from the outcome of its command. *)
Definition decoded {A} (into : MetadataOutcome → result MetadataError A) (r : result MetadataError MetadataOutcome)
    : result MetadataError A := r ≫= into.
Open Scope prog_scope.

(** ** Payload files ([write_payload], [open_payload]) *)

Section Store.
Context `{HashFunction} `{HexCrate} `{Md5Crate} `{Auth.Cryptography_} `{PublicationJson} `{StorageErrorText}.
Variable (encryption : option ObjectEncryption).

(** What a request draws: identifiers, the time, and random bytes. *)
Record Draws := {
  dr_object_id : bytes; dr_version_id : bytes; dr_now : Z;
  dr_data_key : option bytes; dr_content_nonce : option bytes; dr_wrap_nonce : option bytes }.

Definition write_payload (object_id : bytes) (body : UploadStream) (draws : Draws)
    : result StorageError (WrittenPayload * bytes) :=
  match encryption with
  | Some encryption =>
      write_encrypted_payload object_id body encryption (dr_data_key draws) (dr_content_nonce draws) (dr_wrap_nonce draws)
  | None => write_plaintext_payload body
  end.

(** [ReaderStream] with its default capacity. *)
Fixpoint reader_stream (fuel : nat) (b : bytes) : DownloadStream :=
  match fuel with
  | O => []
  | S fuel => if bool_decide (b = []) then [] else Ok (take 4096 b) :: reader_stream fuel (drop 4096 b)
  end.

(** Reading [file], the content of the payload file; [None] if there is none. *)
Definition open_payload (file : option bytes) (object_id : bytes) (size : Z) (payload_format : PayloadFormat)
    (range : option ByteRange) (expected_checksum : option Checksum)
    : result StorageError (option ResolvedByteRange * DownloadStream) :=
  file ← ok_or InconsistentState file;
  resolved ← match range with
             | Some range => Some <$> map_err InvalidRequest (resolve range size)
             | None => Ok None
             end;
  body ← match payload_format with
         | Plaintext =>
             _ ← verify_physical_length (Z.of_nat (length file)) size;
             Ok (match resolved with
                 | Some range =>
                     let part := take (Z.to_nat (resolved_length range)) (drop (Z.to_nat (resolved_offset range)) file) in
                     reader_stream (length part) part
                 | None => reader_stream (length file) file
                 end)
         | Aes256GcmEnvelopeV1 =>
             encryption ← ok_or EncryptionKeyRequired encryption;
             open_encrypted_payload file object_id size resolved encryption
         end;
  Ok (resolved,
      match expected_checksum, resolved, payload_format with
      | Some expected, None, Plaintext => verifying_stream body expected
      | _, _, _ => body
      end).

Definition open_metadata (file : option bytes) (metadata : ObjectMetadata) (range : option ByteRange)
    : result StorageError (option ResolvedByteRange * DownloadStream) :=
  open_payload file (o_id metadata) (o_size metadata) (o_payload_format metadata) range (Some (o_checksum metadata)).

(** ** Reads *)

Definition metadata_for (bucket_id key : bytes) : prog (result StorageError ObjectMetadata) :=
  found ←! Ask (get_object bucket_id key);
  Ret (ok_or StorageObjectNotFound found).

Record GetObjectResult := { got_metadata : ObjectMetadata; got_range : option ResolvedByteRange; got_body : DownloadStream }.
Definition read_metadata (metadata : ObjectMetadata) (range : option ByteRange) : prog (result StorageError GetObjectResult) :=
  file ←? perform_call (OpenFile (PayloadFile (o_id metadata)));
  Ret (opened ← open_metadata file metadata range;
       Ok {| got_metadata := metadata; got_range := opened.1; got_body := opened.2 |}).

Definition get (bucket_id key : bytes) (range : option ByteRange) : prog (result StorageError GetObjectResult) :=
  metadata ←? metadata_for bucket_id key;
  read_metadata metadata range.
Definition get_version (bucket_id key version_id : bytes) (range : option ByteRange) : prog (result StorageError GetObjectResult) :=
  record ←! Ask (get_object_version bucket_id key version_id);
  match record with
  | None => Ret (Err StorageObjectNotFound)
  | Some (ObjectRecord metadata _) => read_metadata metadata range
  | Some (MarkerRecord marker _) => Ret (Err (StorageDeleteMarker (m_version_id marker)))
  end.
Definition head_object (bucket_id key : bytes) : prog (result StorageError ObjectMetadata) := metadata_for bucket_id key.

(** The first error of a stream, if any. *)
Fixpoint drained (items : DownloadStream) : result StorageError () :=
  match items with [] => Ok () | Ok _ :: items => drained items | Err e :: _ => Err e end.
Definition verify (bucket_id key : bytes) : prog (result StorageError ObjectMetadata) :=
  metadata ←? metadata_for bucket_id key;
  opened ←? read_metadata metadata None;
  let body := match o_payload_format metadata with
              | Plaintext => got_body opened
              | Aes256GcmEnvelopeV1 => verifying_stream (got_body opened) (o_checksum metadata)
              end in
  Ret (_ ← drained body; Ok metadata).

(** ** Helpers ([maintenance.rs]) *)

Definition cleanup_file (p : path) : prog bool :=
  r ←! RemoveFile p;
  Ret (match r with NotRemoved => false | _ => true end).

Definition write_publication_record (id : bytes) (record : PublicationRecord) : prog (result StorageError ()) :=
  _ ←? perform_call (CreateNew (PartialRecord id));
  _ ←! Guard (PartialRecord id);
  _ ←? perform_call (WriteFile (PartialRecord id) (encode_record record));
  _ ←? perform_call (SyncFile (PartialRecord id));
  _ ←? perform_call (Rename (PartialRecord id) (PublicationFile id));
  _ ←! Disarm (PartialRecord id);
  perform_call (SyncDirectory TemporaryDirectory).

Definition remove_queued_payload_id (id : bytes) : prog () :=
  r ←! RemoveFile (PayloadFile id);
  match r with
  | Removed | NotFound => _ ←! Commit (CompleteCleanup id); Ret ()
  | NotRemoved => Ret ()
  end.

(** The payload and its record, in the order in which an error removes them. *)
Definition discard_published (id : bytes) : prog () :=
  gone ←- cleanup_file (PayloadFile id);
  if gone then _ ←- cleanup_file (PublicationFile id); Ret () else Ret ().

(** ** Uploads *)

(** The body is read while the payload is staged; that of a completion reads files. *)
Record PutObjectRequest := {
  put_bucket_id : bytes; put_key : bytes; put_content_type : option bytes; put_custom_metadata : gmap bytes bytes;
  put_expected_checksum : option Checksum; put_object_id : option bytes; put_protocol_etag : option bytes;
  put_object_lock : option ObjectLockState; put_origin : WriteOrigin; put_body : prog UploadStream }.

(** Staging: the payload in a synced temporary file. *)
Definition stage (id : bytes) (body : prog UploadStream) (expected : option Checksum) (draws : Draws)
    : prog (result StorageError WrittenPayload) :=
  _ ←! Guard (UploadFile id);
  _ ←? perform_call (CreateNew (UploadFile id));
  body ←- body;
  payload ←? Ret (write_payload id body draws);
  let '(written, data) := payload in
  _ ←? perform_call (WriteFile (UploadFile id) data);
  _ ←? perform_call (SyncFile (UploadFile id));
  Ret (match expected with
       | Some expected =>
           if bool_decide (expected = w_checksum written) then Ok written
           else Err (ChecksumMismatch expected (w_checksum written))
       | None => Ok written
       end).

Definition committed_metadata (request : PutObjectRequest) (id : bytes) (written : WrittenPayload) (draws : Draws)
    : ObjectMetadata :=
  {| o_id := id; o_bucket_id := put_bucket_id request; o_key := put_key request; o_version_id := dr_version_id draws;
     o_size := w_size written; o_checksum := w_checksum written; o_payload_format := w_payload_format written;
     o_durability := Single; o_etag := default (w_etag written) (put_protocol_etag request);
     o_content_type := put_content_type request; o_custom_metadata := put_custom_metadata request;
     o_created_at := dr_now draws; o_modified_at := dr_now draws |}.

Definition put (request : PutObjectRequest) (draws : Draws) : prog (result StorageError ObjectMetadata) :=
  bucket ←! Ask (get_bucket (put_bucket_id request));
  match bucket with
  | None => Ret (Err StorageBucketNotFound)
  | Some _ =>
      let id := default (dr_object_id draws) (put_object_id request) in
      written ←? stage id (put_body request) (put_expected_checksum request) draws;
      _ ←! Guard (PublicationFile id);
      _ ←? write_publication_record id
             {| pr_object_id := id; pr_bucket_id := Some (put_bucket_id request); pr_key := Some (put_key request) |};
      _ ←? perform_call (CreateDirectories (parent (PayloadFile id)));
      _ ←? perform_call (Rename (UploadFile id) (PayloadFile id));
      _ ←! Disarm (UploadFile id);
      _ ←! Disarm (PublicationFile id);
      synced ←! SyncDirectory (parent (PayloadFile id));
      match synced with
      | Err e => _ ←- discard_published id; Ret (Err e)
      | Ok _ =>
          let metadata := committed_metadata request id written draws in
          commit ←! Commit (PutObject metadata (put_object_lock request) (put_origin request));
          match decoded into_object_commit commit with
          | Ok cleanup =>
              _ ←- cleanup_file (PublicationFile id);
              _ ←- for_each (λ previous, remove_queued_payload_id (o_id previous)) cleanup;
              Ret (Ok metadata)
          | Err e => _ ←- discard_published id; Ret (Err (StorageMetadata e))
          end
      end
  end.
Record PutMultipartPartRequest := {
  part_upload_id : bytes; part_number : Z; part_expected_checksum : option Checksum; part_body : UploadStream }.

Definition uploaded_part (request : PutMultipartPartRequest) (written : WrittenPayload) (draws : Draws) : UploadedPart :=
  {| p_upload_id := part_upload_id request; p_number := part_number request; p_object_id := dr_object_id draws;
     p_size := w_size written; p_checksum := w_checksum written; p_payload_format := w_payload_format written;
     p_etag := w_etag written; p_modified_at := dr_now draws |}.

Definition put_multipart_part (request : PutMultipartPartRequest) (draws : Draws) : prog (result StorageError UploadedPart) :=
  upload ←! GetUpload (part_upload_id request);
  match upload with
  | None => Ret (Err StorageObjectNotFound)
  | Some upload =>
      if negb (bool_decide (u_state upload = Active)) then Ret (Err (StorageMetadata MultipartStateConflict))
      else
        let id := dr_object_id draws in
        written ←? stage id (Ret (part_body request)) (part_expected_checksum request) draws;
        _ ←? perform_call (CreateDirectories (parent (PayloadFile id)));
        _ ←? perform_call (Rename (UploadFile id) (PayloadFile id));
        _ ←! Disarm (UploadFile id);
        _ ←? perform_call (SyncDirectory (parent (PayloadFile id)));
        let part := uploaded_part request written draws in
        commit ←! Commit (PutMultipartPart part);
        match decoded into_replaced_part commit with
        | Ok (Some previous) => _ ←- remove_queued_payload_id (p_object_id previous); Ret (Ok part)
        | Ok None => Ret (Ok part)
        | Err e => _ ←- cleanup_file (PayloadFile id); Ret (Err (StorageMetadata e))
        end
  end.

(** ** Multipart completion *)

(** The parts as one body, read in order; reading stops at the first error. *)
Definition as_upload_item (item : result StorageError bytes) : result bytes bytes := map_err storage_error_text item.
Fixpoint read_parts (parts : list UploadedPart) : prog UploadStream :=
  match parts with
  | [] => Ret []
  | part :: parts =>
      file ←! OpenFile (PayloadFile (p_object_id part));
      match file with
      | Err e => Ret [Err (storage_error_text e)]
      | Ok file =>
          match open_payload file (p_object_id part) (p_size part) (p_payload_format part) None (Some (p_checksum part)) with
          | Err e => Ret [Err (storage_error_text e)]
          | Ok (_, body) => rest ←- read_parts parts; Ret ((as_upload_item <$> body) ++ rest)
          end
      end
  end.

(** [ETag::new]. *)
Definition etag_new (value : bytes) : result CoreError bytes :=
  if bool_decide (value = []) || (128 <? Z.of_nat (length value)) ||
     negb (forallb (λ b, (33 <=? b) && (b <=? 126) && negb (b =? 34)) value)
  then Err (InvalidETag "ETag must contain 1 to 128 visible ASCII characters excluding quotes")
  else Ok value.

Fixpoint part_digests (parts : list UploadedPart) : result StorageError bytes :=
  match parts with
  | [] => Ok []
  | part :: parts =>
      let invalid := InvalidRequest (InvalidETag "multipart part ETag is not an MD5 digest") in
      digest ← ok_or invalid (hex_decode (p_etag part));
      if negb (length digest =? 16)%nat then Err invalid
      else rest ← part_digests parts; Ok (digest ++ rest)
  end.

Record CompleteMultipartRequest := { cm_upload : MultipartUpload; cm_parts : list UploadedPart }.

(** The steps after the object is committed. *)
Definition finish_completion (upload_id : bytes) (metadata : ObjectMetadata) : prog (result StorageError ObjectMetadata) :=
  finished ←! Commit (FinishMultipartUpload upload_id);
  match decoded into_multipart_cleanup finished with
  | Ok parts => _ ←- for_each (λ part, remove_queued_payload_id (p_object_id part)) parts; Ret (Ok metadata)
  | Err e => Ret (Err (StorageMetadata e))
  end.

(** The commit under the identifier [id] of the upload. *)
Definition complete_with (request : CompleteMultipartRequest) (persisted : MultipartUpload) (id : bytes) (draws : Draws)
    : prog (result StorageError ObjectMetadata) :=
  current ←! Ask (get_object (u_bucket_id persisted) (u_key persisted));
  match List.filter (λ m, bool_decide (o_id m = id)) (option_list current) with
  | metadata :: _ => finish_completion (u_id persisted) metadata
  | [] =>
      digests ←? Ret (part_digests (cm_parts request));
      etag ←? Ret (map_err InvalidRequest
                     (etag_new (hex_encode (md5 digests) ++ str "-" ++ to_decimal (Z.of_nat (length (cm_parts request))))));
      metadata ←? put {| put_bucket_id := u_bucket_id persisted; put_key := u_key persisted;
                         put_content_type := u_content_type persisted; put_custom_metadata := u_custom_metadata persisted;
                         put_expected_checksum := None; put_object_id := Some id; put_protocol_etag := Some etag;
                         put_object_lock := u_object_lock persisted; put_origin := MultipartCompletion;
                         put_body := read_parts (cm_parts request) |} draws;
      finish_completion (u_id persisted) metadata
  end.

Definition complete_multipart (request : CompleteMultipartRequest) (draws : Draws)
    : prog (result StorageError ObjectMetadata) :=
  if bool_decide (cm_parts request = [])
  then Ret (Err (InvalidRequest (InvalidPartNumber "completion manifest must not be empty")))
  else
    found ←! GetUpload (u_id (cm_upload request));
    match found with
    | None => Ret (Err StorageObjectNotFound)
    | Some persisted =>
        if negb (bool_decide (u_bucket_id persisted = u_bucket_id (cm_upload request)) &&
                 bool_decide (u_key persisted = u_key (cm_upload request)))
        then Ret (Err StorageObjectNotFound)
        else
          match u_state persisted with
          | Active =>
              begun ←! Commit (BeginMultipartCompletion (u_id persisted) (dr_object_id draws));
              match decoded into_multipart_upload begun with
              | Err e => Ret (Err (StorageMetadata e))
              | Ok _ => complete_with request persisted (dr_object_id draws) draws
              end
          | Completing id => complete_with request persisted id draws
          end
    end.

(** ** Deletions and cleanup *)

Definition delete (bucket_id key : bytes) (marker : NewDeleteMarker) : prog (result StorageError DeleteObjectResult) :=
  result ←! Commit (DeleteObject bucket_id key marker);
  match decoded into_delete_object result with
  | Ok result =>
      if negb (previously_visible result) && is_none (delete_marker result) then Ret (Err StorageObjectNotFound)
      else _ ←- for_each (λ metadata, remove_queued_payload_id (o_id metadata)) (delete_cleanup result); Ret (Ok result)
  | Err e => Ret (Err (StorageMetadata e))
  end.

Definition delete_version (bucket_id key version_id : bytes) (release : LockRelease) : prog (result StorageError ()) :=
  result ←! Commit (DeleteObjectVersion bucket_id key version_id release);
  match decoded into_delete_version result with
  | Ok (Some result) =>
      match version_cleanup result with
      | Some metadata => _ ←- remove_queued_payload_id (o_id metadata); Ret (Ok ())
      | None => Ret (Ok ())
      end
  | Ok None => Ret (Err StorageObjectNotFound)
  | Err e => Ret (Err (StorageMetadata e))
  end.

Fixpoint cleanup_loop (ids : list bytes) (completed : Z) : prog (result StorageError Z) :=
  match ids with
  | [] => Ret (Ok completed)
  | id :: ids =>
      r ←! RemoveFile (PayloadFile id);
      match r with
      | Removed | NotFound =>
          done ←! Commit (CompleteCleanup id);
          match done with
          | Ok _ => cleanup_loop ids (completed + 1)
          | Err e => Ret (Err (StorageMetadata e))
          end
      | NotRemoved => cleanup_loop ids completed
      end
  end.
Definition cleanup_pending (limit : Z) : prog (result StorageError Z) :=
  ids ←! PendingCleanup (Z.min limit 10000);
  cleanup_loop ids 0.
(** ** Start-up *)

(** The identifiers of publication records, in the order they are listed. *)
Definition published_ids (entries : list path) : list bytes :=
  omap (λ p, match p with PublicationFile id => Some id | _ => None end) entries.

Fixpoint recover_records (ids : list bytes) : prog (result StorageError ()) :=
  match ids with
  | [] => Ret (Ok ())
  | id :: ids =>
      encoded ←? perform_call (OpenFile (PublicationFile id));
      match encoded with
      | None => Ret (Err (Filesystem "read publication record"))
      | Some encoded =>
          if 4096 <? Z.of_nat (length encoded) then Ret (Err (Filesystem "decode publication record"))
          else
            (** A record that does not decode is recovered by its file name. *)
            if match decode_record encoded with Some record => negb (bool_decide (pr_object_id record = id)) | None => false end
            then Ret (Err (Filesystem "decode publication record"))
            else
              committed ←! PayloadReferenced id;
              gone ←- (if committed : bool then Ret true else cleanup_file (PayloadFile id));
              if gone : bool then
                r ←! RemoveFile (PublicationFile id);
                match r with
                | Removed => recover_records ids
                | _ => Ret (Err (Filesystem "complete publication recovery"))
                end
              else Ret (Err (Filesystem "recover unpublished payload"))
      end
  end.
Definition recover_publications : prog (result StorageError ()) :=
  entries ←? perform_call ReadTemporary;
  recover_records (published_ids entries).

Fixpoint remove_uploads (entries : list path) : prog (result StorageError ()) :=
  match entries with
  | [] => Ret (Ok ())
  | p :: entries =>
      if is_recognized_upload_name p then
        r ←! RemoveFile p;
        match r with
        | Removed => remove_uploads entries
        | _ => Ret (Err (Filesystem "remove abandoned upload"))
        end
      else remove_uploads entries
  end.
Definition recover_incomplete_uploads : prog (result StorageError ()) :=
  entries ←? perform_call ReadTemporary;
  remove_uploads entries.

(** Rounds of up to ten thousand; [fuel] rounds are made. *)
Fixpoint recover_pending_cleanup (fuel : nat) : prog (result StorageError ()) :=
  match fuel with
  | O => Ret (Ok ())
  | S fuel =>
      completed ←? cleanup_pending 10000;
      if completed =? 0 then Ret (Ok ()) else recover_pending_cleanup fuel
  end.

(** [open_with_master_key], from where the format and the key are accepted. *)
Definition open (fuel : nat) : prog (result StorageError ()) :=
  _ ←? recover_publications;
  recovered ←! Commit RecoverMultipartCompletions;
  match decoded into_multipart_cleanup recovered with
  | Err e => Ret (Err (StorageMetadata e))
  | Ok _ =>
      _ ←? recover_incomplete_uploads;
      recover_pending_cleanup fuel
  end.

(** ** Inspection and repair *)

Record StorageInspection := {
  metadata_payloads_scanned : Z; data_payloads_scanned : Z; metadata_without_data : Z; data_without_metadata : Z;
  recognized_temporary_entries : Z; inspection_truncated : bool;
  missing_payload_samples : list bytes; orphan_payload_samples : list bytes }.
Definition no_findings : StorageInspection :=
  {| metadata_payloads_scanned := 0; data_payloads_scanned := 0; metadata_without_data := 0; data_without_metadata := 0;
     recognized_temporary_entries := 0; inspection_truncated := false; missing_payload_samples := []; orphan_payload_samples := [] |}.
Definition sampled (samples : list bytes) (id : bytes) : list bytes :=
  if Z.of_nat (length samples) <? 100 then samples ++ [id] else samples.

Fixpoint inspect_references (ids : list bytes) (report : StorageInspection) : prog (result StorageError StorageInspection) :=
  match ids with
  | [] => Ret (Ok report)
  | id :: ids =>
      file ←? perform_call (OpenFile (PayloadFile id));
      let missing := is_none file in
      inspect_references ids
        {| metadata_payloads_scanned := u64_saturating_add (metadata_payloads_scanned report) 1;
           data_payloads_scanned := data_payloads_scanned report;
           metadata_without_data :=
             if missing then u64_saturating_add (metadata_without_data report) 1 else metadata_without_data report;
           data_without_metadata := data_without_metadata report;
           recognized_temporary_entries := recognized_temporary_entries report;
           inspection_truncated := inspection_truncated report;
           missing_payload_samples :=
             if missing then sampled (missing_payload_samples report) id else missing_payload_samples report;
           orphan_payload_samples := orphan_payload_samples report |}
  end.
Definition truncated_report (report : StorageInspection) : StorageInspection :=
  {| metadata_payloads_scanned := metadata_payloads_scanned report; data_payloads_scanned := data_payloads_scanned report;
     metadata_without_data := metadata_without_data report; data_without_metadata := data_without_metadata report;
     recognized_temporary_entries := recognized_temporary_entries report; inspection_truncated := true;
     missing_payload_samples := missing_payload_samples report; orphan_payload_samples := orphan_payload_samples report |}.
(** Pages of references; each page but the last has a successor. *)
Fixpoint inspect_pages (fuel : nat) (maximum_entries : Z) (cursor : option bytes) (report : StorageInspection)
    : prog (result StorageError StorageInspection) :=
  match fuel with
  | O => Ret (Ok report)
  | S fuel =>
      let remaining := Z.max 0 (maximum_entries - metadata_payloads_scanned report) in
      if remaining =? 0 then Ret (Ok (truncated_report report))
      else
        page ←! Ask (list_payload_references cursor (Z.min remaining 1000));
        match page with
        | Err e => Ret (Err (StorageMetadata e))
        | Ok page =>
            report ←? inspect_references (object_ids page) report;
            match next_object_id page with
            | None => Ret (Ok report)
            | Some next => inspect_pages fuel maximum_entries (Some next) report
            end
        end
  end.

Fixpoint inspect_payloads (maximum_entries : Z) (ids : list bytes) (report : StorageInspection) (orphans : list bytes)
    : prog (StorageInspection * list bytes) :=
  match ids with
  | [] => Ret (report, orphans)
  | id :: ids =>
      if maximum_entries <=? data_payloads_scanned report then Ret (truncated_report report, orphans)
      else
        referenced ←! PayloadReferenced id;
        inspect_payloads maximum_entries ids
          {| metadata_payloads_scanned := metadata_payloads_scanned report;
             data_payloads_scanned := u64_saturating_add (data_payloads_scanned report) 1;
             metadata_without_data := metadata_without_data report;
             data_without_metadata :=
               if referenced : bool then data_without_metadata report else u64_saturating_add (data_without_metadata report) 1;
             recognized_temporary_entries := recognized_temporary_entries report;
             inspection_truncated := inspection_truncated report;
             missing_payload_samples := missing_payload_samples report;
             orphan_payload_samples :=
               if referenced then orphan_payload_samples report else sampled (orphan_payload_samples report) id |}
          (if referenced then orphans else orphans ++ [id])
  end.
Definition recognized_report (entries : list path) (report : StorageInspection) : StorageInspection :=
  let recognized := List.filter (λ p, negb (is_payload p)) entries in
  {| metadata_payloads_scanned := metadata_payloads_scanned report; data_payloads_scanned := data_payloads_scanned report;
     metadata_without_data := metadata_without_data report; data_without_metadata := data_without_metadata report;
     recognized_temporary_entries := Z.min u64_max (recognized_temporary_entries report + Z.of_nat (length recognized));
     inspection_truncated := inspection_truncated report;
     missing_payload_samples := missing_payload_samples report; orphan_payload_samples := orphan_payload_samples report |}.

(** The report and the identifiers of orphans; a page holds at least one reference. *)
Definition inspect_consistency (maximum_entries : Z) : prog (result StorageError (StorageInspection * list bytes)) :=
  if (maximum_entries =? 0) || (1000000 <? maximum_entries)
  then Ret (Err (Filesystem "validate storage inspection bound"))
  else
    report ←? inspect_pages (S (Z.to_nat maximum_entries)) maximum_entries None no_findings;
    payloads ←? perform_call ReadPayloads;
    found ←- inspect_payloads maximum_entries payloads report [];
    let '(report, orphans) := found in
    entries ←? perform_call ReadTemporary;
    Ret (Ok (recognized_report entries report, orphans)).

Fixpoint remove_orphans (ids : list bytes) (removed : Z) : prog (result StorageError Z) :=
  match ids with
  | [] => Ret (Ok removed)
  | id :: ids =>
      r ←! RemoveFile (PayloadFile id);
      match r with
      | Removed => remove_orphans ids (u64_saturating_add removed 1)
      | NotFound => remove_orphans ids removed
      | NotRemoved => Ret (Err (Filesystem "remove orphan payload"))
      end
  end.
Definition repair (maximum_entries : Z) (dry_run : bool) : prog (result StorageError (StorageInspection * Z)) :=
  found ←? inspect_consistency maximum_entries;
  let '(inspection, orphans) := found in
  removed ←? (if dry_run then Ret (Ok 0) else remove_orphans orphans 0);
  Ret (Ok (inspection, removed)).
End Store.

End LocalStore.
