(* ===== verification/StoreRuns.v ===== *)
(** * Runs of the storage engine

    How the programs of [LocalStore] run: what each call does to the disk and the
    catalog, the pool of requests in progress, and the events that move it: a request
    starts, performs one call, or is abandoned; the machine crashes and the store is
    opened again. *)

From S2P Require Import Prelude Programs Bytes Tables Digest ObjectLock CoreTypes Keys Catalog Commands CatalogUploads Reachable Listing Auth Names Payload CatalogPayloads Disk LocalStore.
Import Programs ObjectLock CoreTypes Keys Catalog Commands Listing Reachable Names Payload Disk CatalogUploads CatalogPayloads LocalStore.

Module StoreRuns.

Record World := { w_catalog : Catalog; w_disk : Disk path }.
Definition on_disk (f : Disk path → Disk path) (w : World) : World := {| w_catalog := w_catalog w; w_disk := f (w_disk w) |}.
Definition lookup_file (p : path) (w : World) : option file := cache (w_disk w) !! p.

(** What the machine does to a call: perform it, or fail. A write that fails leaves
    [garbage]; a commit that fails reports [reason]. *)
Inductive fault := Works | Breaks (garbage : bytes) (reason : MetadataError).

Section Calls.
Context `{UuidCrate}.
(** The device holds this many bytes in a file. *)
Variable (capacity : Z).

Definition put_file (p : path) (f : file) : World → World := on_disk (update [Put p f]).
Definition drop_file (p : path) : World → World := on_disk (update [Remove p]).
Definition is_temporary (p : path) : Prop := parent p = TemporaryDirectory.
#[export] Instance is_temporary_dec p : Decision (is_temporary p).
Proof. unfold is_temporary. apply _. Defined.

(** A call: its answer, the world after it, and the guards of the request. *)
Definition perform {R} (e : call R) (f : fault) (w : World) (guards : list path) : R * World * list path :=
  match e in call R return R * World * list path with
  | CreateNew p =>
      match f, lookup_file p w with
      | Works, None => (Ok (), put_file p {| content := []; synced := false |} w, guards)
      | _, _ => (Err (Filesystem "create"), w, guards)
      end
  | WriteFile p data =>
      match f with
      | Works =>
          if Z.of_nat (length data) <=? capacity
          then (Ok (), put_file p {| content := data; synced := false |} w, guards)
          else (Err (Filesystem "write"), w, guards)
      | Breaks garbage _ => (Err (Filesystem "write"), put_file p {| content := garbage; synced := false |} w, guards)
      end
  | SyncFile p =>
      match f, lookup_file p w with
      | Works, Some file => (Ok (), put_file p {| content := content file; synced := true |} w, guards)
      | _, _ => (Err (Filesystem "synchronize"), w, guards)
      end
  | Rename from to =>
      match f, lookup_file from w with
      | Works, Some file => (Ok (), on_disk (update [Put to file; Remove from]) w, guards)
      | _, _ => (Err (Filesystem "rename"), w, guards)
      end
  | RemoveFile p =>
      match f, lookup_file p w with
      | Works, Some _ => (Removed, drop_file p w, guards)
      | Works, None => (NotFound, w, guards)
      | Breaks _ _, _ => (NotRemoved, w, guards)
      end
  | CreateDirectories dir => (match f with Works => Ok () | _ => Err (Filesystem "create directory") end, w, guards)
  | SyncDirectory dir =>
      match f with
      | Works => (Ok (), on_disk (sync_directory parent dir) w, guards)
      | Breaks _ _ => (Err (Filesystem "synchronize directory"), w, guards)
      end
  | OpenFile p =>
      (match f with Works => Ok (content <$> lookup_file p w) | _ => Err (Filesystem "open") end, w, guards)
  | ReadTemporary =>
      (match f with
       | Works => Ok (filter is_temporary (map_to_list (cache (w_disk w))).*1)
       | _ => Err (Filesystem "scan temporary directory")
       end, w, guards)
  | ReadPayloads =>
      (match f with
       | Works => Ok (omap (λ p, match p with PayloadFile id => Some id | _ => None end) (map_to_list (cache (w_disk w))).*1)
       | _ => Err (Filesystem "scan object data")
       end, w, guards)
  | Guard p => ((), w, p :: guards)
  | Disarm p => ((), w, filter (λ q, q ≠ p) guards)
  | Commit command =>
      match f with
      | Works => let '(r, c) := commit_one command (w_catalog w) in (r, {| w_catalog := c; w_disk := w_disk w |}, guards)
      | Breaks _ reason => (Err reason, w, guards)
      end
  | GetUpload upload => (get_multipart_upload upload (w_catalog w), w, guards)
  | PayloadReferenced id => (payload_referenced id (w_catalog w), w, guards)
  | PendingCleanup limit => (pending_cleanup limit (w_catalog w), w, guards)
  | Ask query => (query (w_catalog w), w, guards)
  end.

(** Dropping the guards of a request; [kept] says which files could not be removed. *)
Fixpoint drop_guards (guards : list path) (kept : list bool) (w : World) : World :=
  match guards with
  | [] => w
  | p :: guards => drop_guards guards (tail kept) (if default false (head kept) then w else drop_file p w)
  end.

(** A program that runs alone, without faults: its answer, the world, and the guards
    still armed. *)
Fixpoint run_to {A} (p : prog A) (w : World) (guards : list path) : A * World * list path :=
  match p with
  | Ret a => (a, w, guards)
  | Vis e k => let '(r, w, guards) := perform e Works w guards in run_to (k r) w guards
  end.
Definition run_alone {A} (p : prog A) (w : World) : A * World :=
  let '(a, w, guards) := run_to p w [] in (a, drop_guards guards [] w).
End Calls.

(** ** Requests *)

Inductive reply :=
  | PutReply (r : result StorageError ObjectMetadata)
  | PartReply (r : result StorageError UploadedPart)
  | DeleteReply (r : result StorageError DeleteObjectResult)
  | DeleteVersionReply (r : result StorageError ())
  | CleanupReply (r : result StorageError Z)
  | CommandReply (r : result MetadataError MetadataOutcome)
  | OpenReply (r : result StorageError ())
  | Abandoned.

Inductive request :=
  | Put_ (r : PutObjectRequest) (draws : Draws)
  | PutPart (r : PutMultipartPartRequest) (draws : Draws)
  | Complete (r : CompleteMultipartRequest) (draws : Draws)
  | Delete (bucket_id key : bytes) (marker : NewDeleteMarker)
  | DeleteVersion (bucket_id key version_id : bytes) (release : LockRelease)
  | CleanupPending (limit : Z)
  | Command (command : MetadataCommand).

Section Requests.
Context `{HashFunction} `{HexCrate} `{Md5Crate} `{Auth.Cryptography_} `{PublicationJson} `{StorageErrorText}.
Variable (encryption : option ObjectEncryption).

Definition program (r : request) : prog reply :=
  match r with
  | Put_ r draws => x ←- put encryption r draws; Ret (PutReply x)
  | PutPart r draws => x ←- put_multipart_part encryption r draws; Ret (PartReply x)
  | Complete r draws => x ←- complete_multipart encryption r draws; Ret (PutReply x)
  | Delete bucket key marker => x ←- delete bucket key marker; Ret (DeleteReply x)
  | DeleteVersion bucket key version release => x ←- delete_version bucket key version release; Ret (DeleteVersionReply x)
  | CleanupPending limit => x ←- cleanup_pending limit; Ret (CleanupReply x)
  | Command command => x ←! Commit command; Ret (CommandReply x)
  end%prog.
End Requests.

(** The identifier a request draws for a payload, and the upload it completes. *)
Definition drawn (r : request) : option bytes :=
  match r with Put_ _ d | PutPart _ d | Complete _ d => Some (dr_object_id d) | _ => None end.
Definition completes (r : request) : option bytes :=
  match r with Complete r _ => Some (u_id (cm_upload r)) | _ => None end.

(** Commands the service layer sends to the catalog itself. *)
Definition service_command (command : MetadataCommand) : Prop :=
  match command with
  | PutObject _ _ _ | PutMultipartPart _ | BeginMultipartCompletion _ _ | FinishMultipartUpload _
  | RecoverMultipartCompletions | CompleteCleanup _ | DeleteObject _ _ _ | DeleteObjectVersion _ _ _ _ => False
  | CreateBucket b => uuid_ok (b_id b) ∧ quota_ok (b_quota b)
  | CreateMultipartUpload u => upload_ok u ∧ u_state u = Active
  | _ => True
  end.

(** Requests are well-formed values of their Rust types. *)
Definition draws_ok (d : Draws) : Prop :=
  uuid_ok (dr_object_id d) ∧ uuid_ok (dr_version_id d) ∧ time_ok (dr_now d) ∧
  from_option (λ k, length k = 32%nat) True (dr_data_key d) ∧
  from_option (λ n, length n = 8%nat) True (dr_content_nonce d) ∧
  from_option (λ n, length n = 12%nat) True (dr_wrap_nonce d).
(** The body of a client is there to be read. *)
Definition received (body : prog UploadStream) : Prop := match body with Ret _ => True | Vis _ _ => False end.
#[export] Instance received_dec body : Decision (received body).
Proof. destruct body; apply _. Defined.
Definition request_ok (r : request) : Prop :=
  match r with
  | Put_ r d => draws_ok d ∧ uuid_ok (put_bucket_id r) ∧ key_ok (put_key r) ∧ put_object_id r = None ∧ received (put_body r)
  | PutPart r d => draws_ok d ∧ uuid_ok (part_upload_id r) ∧ 1 ≤ part_number r ≤ PartNumber_MAX
  | Complete r d => draws_ok d
  | Delete bucket key marker =>
      uuid_ok bucket ∧ key_ok key ∧ uuid_ok (marker_version_id marker) ∧ time_ok (marker_created_at marker)
  | DeleteVersion bucket key _ _ => uuid_ok bucket ∧ key_ok key
  | CleanupPending _ => True
  | Command command => service_command command
  end.

#[export] Instance service_command_dec command : Decision (service_command command).
Proof. unfold service_command. destruct command; apply _. Defined.
#[export] Instance from_option_dec {A} (P : A → Prop) (o : option A) : (∀ x, Decision (P x)) → Decision (from_option P True o).
Proof. intros HP. destruct o; apply _. Defined.
#[export] Instance request_ok_dec r : Decision (request_ok r).
Proof. unfold request_ok, draws_ok. destruct r; apply _. Defined.

(** ** Configurations *)

Record process := { code : prog reply; guards : list path; token : option bytes }.
Record Config := {
  world : World; pool : list process; serving : bool; answers : list reply;
  (** Every payload identifier drawn so far, and every one that was committed. *)
  minted : gset bytes; committed : gset bytes }.

Inductive event :=
  | Start (r : request)
  | Run (i : nat) (f : fault) (kept : list bool)
  | Cancel (i : nat) (first : bool) (f : fault) (kept : list bool)
  | Crash (mask : list bool) (garbage : path → bytes)
  | Reopen (fuel : nat).

(** The payload identifiers a performed call commits. *)
Definition commits {R} (e : call R) : R → gset bytes :=
  match e in call R return R → gset bytes with
  | Commit command => λ r, match r, introduces command with Ok _, Some x => {[pc_id x]} | _, _ => ∅ end
  | _ => λ _, ∅
  end.

(** Random identifiers are new where the catalog records them. *)
Definition fresh_versions (c : Catalog) (command : MetadataCommand) : Prop :=
  match command with
  | PutObject m _ _ => fresh_version c (o_version_id m)
  | DeleteObject _ _ values => fresh_version c (marker_version_id values)
  | _ => True
  end.
#[export] Instance fresh_versions_dec c command : Decision (fresh_versions c command).
Proof. unfold fresh_versions, fresh_version. destruct command; apply _. Defined.
Definition fresh_call {R} (e : call R) (c : Catalog) : Prop :=
  match e with Commit command => fresh_versions c command | _ => True end.
#[export] Instance fresh_call_dec {R} (e : call R) c : Decision (fresh_call e c).
Proof. destruct e; apply _. Defined.

Section Exec.
Context `{HashFunction} `{HexCrate} `{Md5Crate} `{Auth.Cryptography_} `{PublicationJson} `{StorageErrorText} `{UuidCrate}.
Variables (encryption : option ObjectEncryption) (capacity : Z).

Definition is_open_ok (a : reply) : bool := match a with OpenReply (Ok _) => true | _ => false end.

(** A process after a call: it goes on, or its guards are dropped and its answer recorded. *)
Definition continue (i : nat) (p : process) (rest : prog reply) (gs : list path) (kept : list bool) (w : World)
    (fresh : gset bytes) (c : Config) : Config :=
  match rest with
  | Ret a =>
      {| world := drop_guards gs kept w; pool := take i (pool c) ++ drop (S i) (pool c);
         serving := serving c || is_open_ok a; answers := answers c ++ [a]; minted := minted c; committed := committed c ∪ fresh |}
  | _ =>
      {| world := w; pool := <[i := {| code := rest; guards := gs; token := token p |}]> (pool c);
         serving := serving c; answers := answers c; minted := minted c; committed := committed c ∪ fresh |}
  end.

(** A request may start while the store serves, under a payload identifier never
    drawn before. A completion may start when no other of the same upload is in
    progress, or has committed the identifier the upload is completing under. *)
Definition may_start (c : Config) (r : request) : bool :=
  serving c && bool_decide (request_ok r) &&
  match drawn r with Some id => bool_decide (id ∉ minted c) | None => true end &&
  match completes r with
  | Some u =>
      forallb (λ p, negb (bool_decide (token p = Some u))) (pool c) &&
      match get_multipart_upload u (w_catalog (world c)) with
      | Some upload => match u_state upload with Completing id => bool_decide (id ∉ committed c) | Active => true end
      | None => true
      end
  | None => true
  end.

Definition start (r : request) (c : Config) : Config :=
  {| world := world c; pool := pool c ++ [{| code := program encryption r; guards := []; token := completes r |}];
     serving := serving c; answers := answers c;
     minted := minted c ∪ from_option (λ id, {[id]}) ∅ (drawn r); committed := committed c |}.

Definition exec (e : event) (c : Config) : option Config :=
  match e with
  | Start r => if may_start c r then Some (start r c) else None
  | Run i f kept =>
      p ← pool c !! i;
      match code p with
      | Ret a => Some (continue i p (Ret a) (guards p) kept (world c) ∅ c)
      | Vis e k =>
          if decide (fresh_call e (w_catalog (world c))) then
            let '(r, w, gs) := perform capacity e f (world c) (guards p) in
            Some (continue i p (k r) gs kept w (commits e r) c)
          else None
      end
  | Cancel i first f kept =>
      p ← pool c !! i;
      if negb (serving c) then None
      else
        match code p with
        | Ret a => None
        | Vis e k =>
            if first then
              (** The call was performed, but nobody sees its answer. *)
              if decide (fresh_call e (w_catalog (world c))) then
                let '(r, w, _) := perform capacity e f (world c) (guards p) in
                Some {| world := drop_guards (guards p) kept w; pool := take i (pool c) ++ drop (S i) (pool c);
                        serving := serving c; answers := answers c; minted := minted c; committed := committed c ∪ commits e r |}
              else None
            else
              (** The call is left behind and may be performed at any later time. *)
              Some {| world := drop_guards (guards p) kept (world c);
                      pool := <[i := {| code := Vis e (λ _, Ret Abandoned); guards := []; token := token p |}]> (pool c);
                      serving := serving c; answers := answers c; minted := minted c; committed := committed c |}
        end
  | Crash mask garbage =>
      Some {| world := on_disk (crash mask garbage) (world c); pool := []; serving := false; answers := answers c;
              minted := minted c; committed := committed c |}
  | Reopen fuel =>
      if bool_decide (length (pool c) = 0%nat) && negb (serving c) then
        Some {| world := world c; pool := [{| code := x ←- open fuel; Ret (OpenReply x); guards := []; token := None |}];
                serving := false; answers := answers c; minted := minted c; committed := committed c |}
      else None
  end%prog.

Fixpoint run_events (es : list event) (c : Config) : option Config :=
  match es with [] => Some c | e :: es => c ← exec e c; run_events es c end.
End Exec.

(** A new installation, before its first start. *)
Definition installed : Config :=
  {| world := {| w_catalog := empty_catalog; w_disk := empty_disk |}; pool := []; serving := false; answers := [];
     minted := ∅; committed := ∅ |}.

End StoreRuns.
