(* ===== verification/StoreContent.v ===== *)
(** * What a store writes, it reads

    The content a payload file must have for a payload the catalog refers to, and
    that [write_payload] of [LocalStore] produces such a file, encrypted or not. *)

From S2P Require Import Prelude Programs Bytes Tables Digest ObjectLock CoreTypes Keys Catalog Commands CatalogInv CatalogUploads Reachable Listing Auth Names Payload PayloadTheorems CatalogPayloads Disk LocalStore StoreRuns.
Import Programs ObjectLock CoreTypes Keys Catalog Commands Listing CatalogInv Reachable Names Payload PayloadTheorems Disk CatalogPayloads LocalStore StoreRuns.

Module StoreContent.
#[local] Opaque ENCRYPTED_PAYLOAD_CHUNK_SIZE.

Section Inv.
Context `{HashFunction} `{HexCrate} `{Md5Crate} `{Auth.Cryptography_} `{!AeadLaws} `{PublicationJson} `{StorageErrorText} `{UuidCrate}.
Variables (encryption : option ObjectEncryption) (capacity : Z).

(** ** Content *)

(** A byte range as [ByteRange::new] makes them. *)
Definition byte_range_ok (r : ByteRange) : Prop := 0 ≤ CoreTypes.range_offset r ∧ 1 ≤ CoreTypes.range_length r.

(** The file holds [data]: a whole read and a read of any range end without an error
    and deliver it. *)
Definition reads_as (x : PayloadClaim) (b data : bytes) : Prop :=
  let open := λ range, open_payload encryption (Some b) (pc_id x) (pc_size x) (pc_format x) range (Some (pc_checksum x)) in
  (∃ items, open None = Ok (None, items) ∧ collected items = Some data) ∧
  ∀ r resolved, byte_range_ok r → resolve r (pc_size x) = Ok resolved →
    ∃ items, open (Some r) = Ok (Some resolved, items) ∧
      collected items = Some (take (Z.to_nat (resolved_length resolved)) (drop (Z.to_nat (resolved_offset resolved)) data)).

(** The file reads back with the recorded size and digest. *)
Definition readable (x : PayloadClaim) (b : bytes) : Prop :=
  ∃ data, reads_as x b data ∧ Z.of_nat (length data) = pc_size x ∧ checksum_sha256 data = pc_checksum x.

Lemma resolve_bounds r size resolved :
  resolve r size = Ok resolved → byte_range_ok r → is_u64 size → range_ok (Some resolved) size.
Proof.
  unfold resolve, byte_range_ok, range_ok, is_u64. destruct (Z.leb_spec size (CoreTypes.range_offset r)); [discriminate|].
  intros [= <-] Hr Hu. cbn [resolved_offset resolved_length]. unfold u64_sub, u64_wrap. unfold u64_max in *. rewrite Z.mod_small by lia. lia.
Qed.

Definition written_claim (id : bytes) (written : WrittenPayload) : PayloadClaim :=
  {| pc_id := id; pc_size := w_size written; pc_checksum := w_checksum written; pc_format := w_payload_format written |}.

Lemma reader_stream_collected fuel b : (length b ≤ fuel)%nat → collected (reader_stream fuel b) = Some b.
Proof.
  revert b. induction fuel as [|fuel IH]; intros b Hb; cbn [reader_stream].
  { by destruct b; [|cbn in Hb; lia]. }
  case_bool_decide as Hn; [by subst|]. cbn [collected]. rewrite IH.
  - cbn. by rewrite take_drop.
  - rewrite length_drop. assert (0 < length b)%nat by (destruct b; [done|cbn; lia]). lia.
Qed.

Lemma write_plaintext_loop_inv body size file size' file' :
  write_plaintext_loop body size file = Ok (size', file') → is_u64 size →
  ∃ x, collected body = Some x ∧ file' = file ++ x ∧ size' = size + Z.of_nat (length x) ∧ is_u64 size'.
Proof.
  revert size file. induction body as [|[c|e] body IH]; intros size file Hw Hu; cbn in Hw; [| |discriminate].
  - injection Hw as <- <-. exists []. rewrite app_nil_r. split_and!; [done|done|cbn; lia|done].
  - apply result_bind_ok in Hw as (s & Hs & Hw).
    destruct (u64_checked_add size (Z.of_nat (length c))) as [v|] eqn:Hv; [|discriminate Hs]. injection Hs as <-.
    apply u64_checked_Some in Hv as [-> Hv]. destruct (IH _ _ Hw Hv) as (x & Hb & -> & -> & Hx).
    exists (c ++ x). rewrite app_assoc, length_app. cbn [collected]. rewrite Hb. split_and!; [done|done|lia|done].
Qed.

Lemma write_loop_collected dk id cn body st st' :
  write_loop dk id cn body st = Ok st' → ∃ x, collected body = Some x.
Proof.
  revert st. induction body as [|[c|e] body IH]; intros st Hw; cbn in Hw; [by eexists| |discriminate].
  apply result_bind_ok in Hw as (s & _ & Hw). apply result_bind_ok in Hw as (st1 & _ & Hw).
  destruct (IH _ Hw) as [x Hx]. cbn. rewrite Hx. by eexists.
Qed.
(** Sealing loses nothing: the file is at least as long as the body. *)
Definition held_bytes (st : Writer) : nat := (length (wr_chunks st) + length (wr_pending st))%nat.

Lemma seal_pending_length dk id cn st st' :
  seal_pending dk id cn st = Ok st' → (held_bytes st ≤ held_bytes st')%nat ∧ wr_pending st' = [].
Proof.
  unfold seal_pending, write_encrypted_chunk, held_bytes. intros Hs. apply result_bind_ok in Hs as (x & Hx & Hs).
  destruct (Auth.aead_encrypt _ _ _ _) as [y|] eqn:Hy; [|discriminate Hx]. injection Hx as <-. injection Hs as <-. cbn.
  apply aead_length in Hy. rewrite length_app. split; [lia|done].
Qed.

Lemma fill_length dk id cn fuel remaining st st' :
  fill dk id cn fuel remaining st = Ok st' → (length remaining ≤ fuel)%nat → (length (wr_pending st) < CHUNK)%nat →
  (held_bytes st + length remaining ≤ held_bytes st')%nat ∧ (length (wr_pending st') < CHUNK)%nat.
Proof.
  revert remaining st. induction fuel as [|fuel IH]; intros remaining st Hf Hfuel Hp; cbn [fill] in Hf.
  { injection Hf as <-. lia. }
  case_bool_decide as Hr; [injection Hf as <-; subst; cbn; lia|].
  assert (Hlen : (0 < length remaining)%nat) by (destruct remaining; [done|cbn; lia]).
  set (n := Nat.min (CHUNK - length (wr_pending st)) (length remaining)) in *. assert (Hn : (0 < n ≤ length remaining)%nat) by lia.
  set (st1 := {| wr_chunks := wr_chunks st; wr_pending := wr_pending st ++ take n remaining; wr_index := wr_index st;
                 wr_size := wr_size st; wr_hashed := wr_hashed st |}) in *.
  assert (Hh1 : held_bytes st1 = (held_bytes st + n)%nat) by (unfold held_bytes; cbn; rewrite length_app, length_take; lia).
  assert (Hp1 : length (wr_pending st1) = (length (wr_pending st) + n)%nat) by (cbn; rewrite length_app, length_take; lia).
  change (wr_pending {| wr_chunks := _ |}) with (wr_pending st1) in Hf.
  destruct (Nat.eqb_spec (length (wr_pending st1)) CHUNK) as [Hc|Hc].
  - apply result_bind_ok in Hf as (st2 & Hs & Hf). apply result_bind_ok in Hf as (st3 & Hi & Hf).
    apply seal_pending_length in Hs as [Hs Hs']. unfold next_index in Hi. destruct (_ <=? _); [|discriminate Hi]. injection Hi as <-.
    apply IH in Hf as [Hf Hf']; [|rewrite length_drop; lia|cbn; rewrite Hs'; cbn; lia].
    rewrite length_drop in Hf. change (held_bytes {| wr_chunks := _ |}) with (held_bytes st2) in Hf. split; [lia|done].
  - apply IH in Hf as [Hf Hf']; [|rewrite length_drop; lia|lia]. rewrite length_drop in Hf. split; [lia|done].
Qed.

Lemma write_loop_length dk id cn body st st' x :
  write_loop dk id cn body st = Ok st' → collected body = Some x → (length (wr_pending st) < CHUNK)%nat →
  (held_bytes st + length x ≤ held_bytes st')%nat.
Proof.
  revert st x. induction body as [|[c|e] body IH]; intros st x Hw Hx Hp; cbn in Hw, Hx; [| |discriminate].
  - injection Hw as <-. injection Hx as <-. cbn. lia.
  - destruct (collected body) as [y|]; [|discriminate Hx]. injection Hx as <-.
    apply result_bind_ok in Hw as (s & _ & Hw). apply result_bind_ok in Hw as (st1 & Hf & Hw).
    apply fill_length in Hf as [Hf Hf']; [|done|done]. apply (IH _ y) in Hw; [|done|done].
    rewrite length_app. unfold held_bytes in *. cbn in *. lia.
Qed.

Lemma encrypted_no_shorter id body enc dk cn wn written file :
  write_encrypted_payload id body enc dk cn wn = Ok (written, file) →
  ∃ x, collected body = Some x ∧ (length x ≤ length file)%nat.
Proof.
  unfold write_encrypted_payload. intros Hw. apply result_bind_ok in Hw as (k & _ & Hw).
  apply result_bind_ok in Hw as (n & _ & Hw). apply result_bind_ok in Hw as (st & Hl & Hw).
  apply result_bind_ok in Hw as (st' & Hlast & Hw). apply result_bind_ok in Hw as (header & _ & Hw). injection Hw as _ <-.
  destruct (write_loop_collected _ _ _ _ _ _ Hl) as [x Hx]. exists x. split; [done|].
  pose proof (write_loop_length _ _ _ _ _ _ _ Hl Hx chunk_pos) as Hlen. rewrite length_app.
  assert (Hend : (held_bytes st ≤ length (wr_chunks st'))%nat); [|unfold held_bytes in *; cbn in *; lia].
  unfold write_last in Hlast. destruct (_ || _) eqn:Hc.
  - apply seal_pending_length in Hlast as [Hh Hp]. unfold held_bytes in Hh. rewrite Hp in Hh. cbn in Hh. unfold held_bytes. lia.
  - injection Hlast as <-. apply orb_false_iff in Hc as [Hc _]. apply negb_false_iff, bool_decide_eq_true in Hc.
    unfold held_bytes. rewrite Hc. cbn. lia.
Qed.

Hypothesis Hcapacity : capacity ≤ u32_max * 65536.
Hypothesis Hencryption : from_option (λ enc, length (key_reference enc) = 16%nat) True encryption.

(** What a store writes, the store reads. *)
Lemma write_payload_reads id body draws written file :
  write_payload encryption id body draws = Ok (written, file) → uuid_ok id → draws_ok draws →
  Z.of_nat (length file) ≤ capacity →
  (∃ x, collected body = Some x ∧ reads_as (written_claim id written) file x ∧
     Z.of_nat (length x) = w_size written ∧ checksum_sha256 x = w_checksum written) ∧ is_u64 (w_size written).
Proof.
  unfold write_payload, reads_as, open_payload. intros Hw [Hid _] (_ & _ & _ & Hdk & Hcn & Hwn) Hcap.
  destruct encryption as [enc|].
  - cbn in Hencryption. destruct (encrypted_no_shorter _ _ _ _ _ _ _ _ Hw) as (x & Hx & Hlen).
    assert (Hsmall : small x) by (unfold small; lia).
    destruct (dr_data_key draws) as [dk|]; [|discriminate Hw]. destruct (dr_content_nonce draws) as [cn|]; [|discriminate Hw].
    destruct (dr_wrap_nonce draws) as [wn|].
    2:{ exfalso. revert Hw. unfold write_encrypted_payload, encode_encrypted_header. cbn [ok_or mbind result_bind].
        destruct (write_loop _ _ _ _ _); [|discriminate]. cbn. by destruct (write_last _ _ _ _). }
    set (km := {| km_data_key := dk; km_content_nonce := cn; km_wrap_nonce := wn |}).
    assert (Hm : material_ok enc id km) by by split_and!.
    destruct (write_envelope enc id km body x Hm Hx Hsmall) as (cs & file' & Henv & Hw').
    change (Some dk) with (Some (km_data_key km)) in Hw. change (Some cn) with (Some (km_content_nonce km)) in Hw.
    change (Some wn) with (Some (km_wrap_nonce km)) in Hw. rewrite Hw in Hw'. injection Hw' as -> ->.
    cbn [w_size written_claim pc_size pc_id pc_checksum pc_format w_checksum w_payload_format].
    pose proof (small_u64 _ Hsmall) as Hu. split; [|done]. exists x. split; [done|]. split; [|done]. cbn [written_claim pc_size pc_id pc_checksum pc_format w_size w_checksum w_payload_format]. split.
    + destruct (open_envelope enc id km cs x file' None Hm Henv I) as (items & Ho & Hc). exists items.
      cbn [ok_or mbind result_bind pc_size pc_id pc_format]. rewrite Ho. split; [done|].
      rewrite Hc. unfold range_slice. cbn. rewrite drop_0, Nat2Z.id. by rewrite take_ge.
    + intros r resolved Hr Hres.
      destruct (open_envelope enc id km cs x file' (Some resolved) Hm Henv (resolve_bounds _ _ _ Hres Hr Hu)) as (items & Ho & Hc).
      exists items. cbn [ok_or mbind result_bind pc_size pc_id pc_format map_err fmap result_fmap] in *.
      rewrite Hres. cbn [mbind result_bind map_err fmap]. cbn. rewrite Ho. split; [done|]. exact Hc.
  - unfold write_plaintext_payload in Hw. apply result_bind_ok in Hw as ([size file'] & Hl & Hw).
    destruct (write_plaintext_loop_inv _ _ _ _ _ Hl) as (x & Hx & -> & -> & Hu); [done|]. injection Hw as <- <-.
    cbn [written_claim w_size w_checksum w_payload_format pc_size pc_id pc_checksum pc_format app] in *. split; [|done].
    exists x. split; [done|]. split; [|done]. cbn [written_claim pc_size pc_id pc_checksum pc_format w_size w_checksum w_payload_format]. split.
    + exists (verifying_stream (reader_stream (length x) x) (checksum_sha256 x)).
      unfold verify_physical_length. cbn [ok_or mbind result_bind fmap pc_size pc_id pc_format pc_checksum].
      rewrite Z.eqb_refl. split; [done|]. unfold verifying_stream. apply verifying_loop_ok. exists x.
      by rewrite reader_stream_collected.
    + intros r resolved Hr Hres. eexists. unfold verify_physical_length.
      cbn [ok_or mbind result_bind pc_size pc_id pc_format pc_checksum] in *. rewrite Hres. cbn.
      rewrite Z.eqb_refl. split; [done|]. by rewrite reader_stream_collected.
Qed.

Lemma write_payload_readable id body draws written file :
  write_payload encryption id body draws = Ok (written, file) → uuid_ok id → draws_ok draws →
  Z.of_nat (length file) ≤ capacity → readable (written_claim id written) file ∧ is_u64 (w_size written).
Proof.
  intros Hw Hid Hd Hcap. destruct (write_payload_reads _ _ _ _ _ Hw Hid Hd Hcap) as [(x & _ & Hx) Hu].
  split; [by exists x|done].
Qed.
End Inv.

End StoreContent.
