(* ===== verification/StoreInv.v ===== *)
(** * What every run of the storage engine preserves

    A payload the catalog refers to is in place, on the disk and after any crash,
    with content that reads back as recorded. The argument gives each request in
    progress a knowledge of its own: the identifier it stages a payload under and how
    far that is, and the payloads it may remove. Programs are checked once against
    that knowledge ([safe]); each call is shown to preserve what all requests know. *)

From S2P Require Import Prelude Programs Bytes Tables Digest ObjectLock CoreTypes Keys Catalog Commands CatalogInv CatalogUploads Reachable Listing Auth Names Payload PayloadTheorems CatalogPayloads Disk LocalStore StoreRuns StoreContent.
Import Programs ObjectLock CoreTypes Keys Catalog Commands Listing CatalogInv Reachable Names Payload Disk CatalogUploads CatalogPayloads LocalStore StoreRuns StoreContent.

Module StoreInv.

(** ** Knowledge *)

(** How far the payload of a request is: nothing is known; written but not synced;
    synced in the temporary file; renamed into place; there for good. *)
Inductive progress := Staging | Dirty (b : bytes) | Written (b : bytes) | Moved (b : bytes) | InPlace (b : bytes).

(** The payload identifier a request works on, the payloads it knows are not referred
    to any more, the upload it completes, and whether it runs alone. *)
Record knowledge := {
  k_own : option (bytes * progress); k_dead : gset bytes; k_token : option bytes; k_alone : bool }.

Definition owns (K : knowledge) (id : bytes) : Prop := ∃ s, k_own K = Some (id, s).
Definition with_own (own : option (bytes * progress)) (K : knowledge) : knowledge :=
  {| k_own := own; k_dead := k_dead K; k_token := k_token K; k_alone := k_alone K |}.
Definition with_dead (dead : gset bytes) (K : knowledge) : knowledge :=
  {| k_own := k_own K; k_dead := k_dead K ∪ dead; k_token := k_token K; k_alone := k_alone K |}.
(** The progress of [id], if it is the one the request works on. *)
Definition advance (id : bytes) (f : progress → progress) (K : knowledge) : knowledge :=
  with_own ((λ '(own, s), (own, if bool_decide (own = id) then f s else s)) <$> k_own K) K.

Section Safe.
Context `{HashFunction} `{HexCrate} `{Md5Crate} `{Auth.Cryptography_} `{!PayloadTheorems.AeadLaws} `{PublicationJson} `{StorageErrorText} `{UuidCrate}.
Variables (encryption : option ObjectEncryption) (capacity : Z).

(** A payload is in place when the catalog is about to refer to it. *)
Definition introduced_ok (K : knowledge) (x : PayloadClaim) : Prop :=
  ∃ b, k_own K = Some (pc_id x, InPlace b) ∧ readable encryption x b.

Definition command_allowed (K : knowledge) (command : MetadataCommand) : Prop :=
  match command with
  | PutObject m _ _ => introduced_ok K (claim_of_object m) ∧ record_ok (ObjectRecord m false) ∧ is_u64 (o_size m)
  | PutMultipartPart p => introduced_ok K (claim_of_part p) ∧ part_ok p
  | BeginMultipartCompletion upload id => owns K id ∧ k_token K = Some upload
  | CreateBucket b => uuid_ok (b_id b) ∧ quota_ok (b_quota b)
  | CreateMultipartUpload u => upload_ok u ∧ u_state u = Active
  | DeleteObject b k values =>
      uuid_ok b ∧ key_ok k ∧ uuid_ok (marker_version_id values) ∧ time_ok (marker_created_at values)
  | DeleteObjectVersion b k _ _ => uuid_ok b ∧ key_ok k
  | _ => True
  end.

(** What a call needs. *)
Definition allowed {R} (K : knowledge) (e : call R) : Prop :=
  match e with
  | CreateNew (UploadFile id) | WriteFile (UploadFile id) _ | SyncFile (UploadFile id) => owns K id
  | CreateNew (PayloadFile _) | WriteFile (PayloadFile _) _ | SyncFile (PayloadFile _) => False
  | Rename (UploadFile id) (PayloadFile id') => owns K id ∧ id' = id
  | Rename (PartialRecord _) (PublicationFile _) => True
  | Rename _ _ => False
  | RemoveFile (UploadFile id) => owns K id ∨ k_alone K = true
  | RemoveFile (PayloadFile id) => owns K id ∨ id ∈ k_dead K
  | Guard (UploadFile id) => owns K id
  | Guard (PayloadFile _) => False
  | Commit command => command_allowed K command
  | GetUpload upload => k_token K = Some upload → is_Some (k_own K)
  | _ => True
  end.

(** What an answer tells. *)
Definition on_ok {E A} (r : result E A) (f : knowledge → knowledge) (K : knowledge) : knowledge :=
  match r with Ok _ => f K | Err _ => K end.
Definition after {R} (K : knowledge) (e : call R) : R → knowledge :=
  match e in call R return R → knowledge with
  | CreateNew (UploadFile id) => λ _, advance id (λ _, Staging) K
  | WriteFile (UploadFile id) data => λ r, advance id (λ _, match r with Ok _ => Dirty data | Err _ => Staging end) K
  | SyncFile (UploadFile id) => λ r, on_ok r (advance id (λ s, match s with Dirty b => Written b | _ => Staging end)) K
  | Rename (UploadFile id) _ => λ r, on_ok r (advance id (λ s, match s with Written b => Moved b | _ => Staging end)) K
  | RemoveFile (UploadFile id) => λ _, advance id (λ _, Staging) K
  | RemoveFile (PayloadFile id) => λ _, advance id (λ _, Staging) K
  | SyncDirectory dir => λ r, on_ok r (λ K,
      match k_own K with
      | Some (id, Moved b) => if bool_decide (parent (PayloadFile id) = dir) then with_own (Some (id, InPlace b)) K else K
      | _ => K
      end) K
  | Commit command => λ r,
      match r with
      | Ok o =>
          let K := if introduces command then with_own None K else K in
          match command with RecoverMultipartCompletions => K | _ => with_dead (list_to_set (outcome_payloads o)) K end
      | Err _ => K
      end
  | GetUpload upload => λ r,
      match r with
      | Some u =>
          match u_state u with
          | Completing id => if bool_decide (k_token K = Some upload) then with_own (Some (id, Staging)) K else K
          | Active => K
          end
      | None => K
      end
  | PayloadReferenced id => λ referenced, if k_alone K && negb referenced then with_dead {[id]} K else K
  | PendingCleanup _ => λ ids, with_dead (list_to_set ids) K
  | _ => λ _, K
  end.

(** The outcome a command answers with. *)
Definition outcome_fits (command : MetadataCommand) (o : MetadataOutcome) : Prop :=
  match command with
  | PutObject _ _ _ => ∃ cleanup, o = ObjectCommitOutcome cleanup
  | PutMultipartPart _ => ∃ previous, o = ReplacedPartOutcome previous
  | BeginMultipartCompletion _ _ => ∃ upload, o = MultipartUploadOutcome upload
  | FinishMultipartUpload _ | RecoverMultipartCompletions => ∃ parts, o = MultipartCleanupOutcome parts
  | DeleteObject _ _ _ => ∃ result, o = DeleteObjectOutcome result
  | DeleteObjectVersion _ _ _ _ => ∃ result, o = DeleteVersionOutcome result
  | _ => True
  end.

(** What is known of the answer itself. *)
Definition plausible {R} (e : call R) : R → Prop :=
  match e in call R return R → Prop with
  | WriteFile _ data => λ r, r = Ok () → Z.of_nat (length data) ≤ capacity
  | GetUpload upload => λ r, ∀ u, r = Some u → upload_ok u ∧ u_id u = upload ∧ ∀ id, u_state u = Completing id → uuid_ok id
  | Commit command => λ r, ∀ o, r = Ok o → outcome_fits command o
  | _ => λ _, True
  end.

(** Every call of the program has what it needs, and [Q] holds of what is known at
    its end. *)
Fixpoint wp {A} (K : knowledge) (p : prog A) (Q : knowledge → A → Prop) : Prop :=
  match p with
  | Ret a => Q K a
  | Vis e k => allowed K e ∧ ∀ r, plausible e r → wp (after K e r) (k r) Q
  end.
Definition safe {A} (K : knowledge) (p : prog A) : Prop := wp K p (λ _ _, True).

Lemma wp_mono {A} K (p : prog A) (Q Q' : knowledge → A → Prop) : wp K p Q → (∀ K a, Q K a → Q' K a) → wp K p Q'.
Proof. intros Hp HQ. revert K Hp. induction p as [a|R e k IH]; intros K; cbn; [apply HQ|]. intros [He Hk]. split; auto. Qed.

Lemma wp_bind {A B} K (p : prog A) (f : A → prog B) Q : wp K p (λ K a, wp K (f a) Q) → wp K (bind p f) Q.
Proof. revert K. induction p as [a|R e k IH]; intros K; cbn; [done|]. intros [He Hk]. split; auto. Qed.

Lemma wp_trying {E A B} K (p : prog (result E A)) (f : A → prog (result E B)) Q :
  wp K p (λ K r, match r with Ok a => wp K (f a) Q | Err e => Q K (Err e) end) → wp K (trying p f) Q.
Proof. intros Hp. apply wp_bind. eapply wp_mono; [exact Hp|]. by intros K' [a|e]. Qed.

Lemma wp_call {R A} K (e : call R) (k : R → prog A) Q :
  allowed K e → (∀ r, plausible e r → wp (after K e r) (k r) Q) → wp K (bind (perform_call e) k) Q.
Proof. done. Qed.

(** ** The programs *)

Definition later (K K' : knowledge) : Prop :=
  (k_own K = None → k_own K' = None) ∧ k_dead K ⊆ k_dead K' ∧ k_token K' = k_token K ∧ k_alone K' = k_alone K.
#[export] Instance later_preorder : PreOrder later.
Proof. split; [by intros K|]. intros K1 K2 K3 (? & ? & ? & ?) (? & ? & ? & ?). split_and!; [auto|set_solver|congruence..]. Qed.

Lemma later_advance id f K : later K (advance id f K).
Proof. unfold advance, later. cbn. split_and!; [by intros ->|done..]. Qed.
Lemma later_dead D K : later K (with_dead D K).
Proof. split_and!; [done|cbn; set_solver|done..]. Qed.

Lemma wp_cleanup_record K id Q : (∀ b, Q K b) → wp K (cleanup_file (PublicationFile id)) Q.
Proof. intros HQ. split; [done|]. intros r _. apply HQ. Qed.

Lemma wp_remove_queued K id Q :
  id ∈ k_dead K → (∀ K', later K K' → Q K' ()) → wp K (remove_queued_payload_id id) Q.
Proof.
  intros Hid HQ. apply wp_call; [by right|]. intros r _. pose proof (later_advance id (λ _, Staging) K) as Hl.
  cbn [after]. destruct r; [| |by apply HQ]; (split; [done|]); intros [o|e] _; apply HQ; try done.
  all: cbn [after introduces]; etransitivity; [exact Hl|apply later_dead].
Qed.

Lemma wp_remove_all {X} K (f : X → bytes) (l : list X) Q :
  (∀ x, x ∈ l → f x ∈ k_dead K) → (∀ K', later K K' → Q K' ()) →
  wp K (for_each (λ x, remove_queued_payload_id (f x)) l) Q.
Proof.
  revert K. induction l as [|x l IH]; intros K Hl HQ; cbn [for_each]; [by apply HQ|].
  apply wp_bind, wp_remove_queued; [apply Hl; by left|]. intros K' HK'. apply IH.
  - intros y Hy. apply HK', Hl. by right.
  - intros K'' HK''. apply HQ. by etransitivity.
Qed.

(** The payload and the record of an upload that failed. *)
Lemma wp_discard K id Q : owns K id → (∀ K', k_token K' = k_token K → Q K' ()) → wp K (discard_published id) Q.
Proof.
  intros Ho HQ. apply wp_bind, wp_call; [by left|]. intros r _. cbn [wp].
  destruct r; [| |by apply HQ]; apply wp_bind, wp_cleanup_record; intros b; by apply HQ.
Qed.

Lemma advance_own id s f K : k_own K = Some (id, s) → advance id f K = with_own (Some (id, f s)) K.
Proof. intros Ho. unfold advance. rewrite Ho. cbn. by rewrite bool_decide_eq_true_2. Qed.

(** Reading a body teaches nothing. *)
Definition quiet (body : prog UploadStream) : Prop := ∀ K Q, (∀ items, Q K items) → wp K body Q.
Lemma received_quiet body : received body → quiet body.
Proof. destruct body; [|done]. intros _ K Q HQ. apply HQ. Qed.

(** Staging leaves the payload synced in its temporary file. *)
Lemma wp_stage K id s body expected draws Q :
  k_own K = Some (id, s) → uuid_ok id → draws_ok draws → quiet body →
  (∀ items written file, write_payload encryption id items draws = Ok (written, file) → Z.of_nat (length file) ≤ capacity →
     Q (with_own (Some (id, Written file)) K) (Ok written)) →
  (∀ s' e, Q (with_own (Some (id, s')) K) (Err e)) →
  wp K (stage encryption id body expected draws) Q.
Proof.
  intros Ho Hid Hdraws Hbody HQ HE. assert (Hown : owns K id) by by eexists.
  apply wp_call; [done|]. intros [] _. cbn [after]. apply wp_trying, wp_call; [done|]. intros r _. cbn [after wp].
  rewrite (advance_own id s) by done. destruct r as [[]|e]; [|apply HE].
  apply wp_bind, Hbody. intros items. apply wp_trying. cbn [wp].
  destruct (write_payload encryption id items draws) as [[written file]|e] eqn:Hw; [|apply HE].
  apply wp_trying, wp_call; [by eexists|]. intros r Hcap. cbn [after wp]. rewrite (advance_own id Staging) by done.
  destruct r as [[]|e]; [|apply HE]. specialize (Hcap eq_refl).
  apply wp_trying, wp_call; [by eexists|]. intros r _. cbn [after wp on_ok]. destruct r as [[]|e]; [|apply HE].
  cbn [on_ok]. rewrite (advance_own id (Dirty file)) by done. cbn [wp]. change (with_own ?x (with_own _ _)) with (with_own x K).
  destruct expected as [c|]; [|by apply (HQ items)]. case_bool_decide; [by apply (HQ items)|apply HE].
Qed.
(** A publication record changes nothing that is known. *)
Lemma wp_record K id s b record Q :
  k_own K = Some (id, Written b) → (∀ r, Q K r) → wp K (write_publication_record s record) Q.
Proof.
  intros Ho HQ. unfold write_publication_record.
  apply wp_trying, wp_call; [done|]. intros [[]|e] _; [|apply HQ]. apply wp_call; [done|]. intros [] _.
  apply wp_trying, wp_call; [done|]. intros [[]|e] _; [|apply HQ].
  apply wp_trying, wp_call; [done|]. intros [[]|e] _; [|apply HQ].
  apply wp_trying, wp_call; [done|]. intros [[]|e] _; [|apply HQ]. apply wp_call; [done|]. intros [] _.
  split; [done|]. intros r _. cbn [after wp]. destruct r as [[]|e]; cbn [on_ok]; [|apply HQ]. rewrite Ho. apply HQ.
Qed.

Lemma in_place K id b dir :
  k_own K = Some (id, Moved b) → dir = parent (PayloadFile id) →
  after K (SyncDirectory dir) (Ok ()) = with_own (Some (id, InPlace b)) K.
Proof. intros Ho ->. cbn [after on_ok]. rewrite Ho. by rewrite bool_decide_eq_true_2. Qed.

Hypothesis Hcapacity : capacity ≤ u32_max * 65536.
Hypothesis Hencryption : from_option (λ enc, length (key_reference enc) = 16%nat) True encryption.

Lemma claim_of_committed request id written draws :
  claim_of_object (committed_metadata request id written draws) = written_claim id written.
Proof. done. Qed.

Definition put_id (request : PutObjectRequest) (draws : Draws) : bytes := default (dr_object_id draws) (put_object_id request).

Lemma wp_put K request draws s Q :
  k_own K = Some (put_id request draws, s) → uuid_ok (put_id request draws) → draws_ok draws →
  uuid_ok (put_bucket_id request) → key_ok (put_key request) → quiet (put_body request) →
  (∀ K' m, k_own K' = None → k_token K' = k_token K → Q K' (Ok m)) →
  (∀ K' e, k_token K' = k_token K → Q K' (Err e)) →
  wp K (put encryption request draws) Q.
Proof.
  intros Ho Hid Hdraws Hb Hk Hbody HQ HE. unfold put. fold (put_id request draws). set (id := put_id request draws) in *.
  apply wp_call; [done|]. intros [bucket|] _; [|by apply HE]. cbn [after].
  apply wp_trying, (wp_stage K id s); [done..| |intros s' e; by apply HE].
  intros items written file Hw Hcap. destruct (write_payload_readable encryption capacity Hcapacity Hencryption _ _ _ _ _ Hw Hid Hdraws Hcap) as [Hread Hu].
  apply wp_call; [done|]. intros [] _. cbn [after]. apply wp_trying, (wp_record _ id id file); [done|].
  intros [[]|e]; [|by apply HE]. apply wp_trying, wp_call; [done|]. intros [[]|e] _; [|by apply HE]. cbn [wp after].
  apply wp_trying, wp_call; [by split; [eexists|]|]. intros [[]|e] _; cbn [wp after on_ok]; [|by apply HE].
  rewrite (advance_own id (Written file)) by done. change (with_own ?x (with_own _ _)) with (with_own x K).
  apply wp_call; [done|]. intros [] _. apply wp_call; [done|]. intros [] _. cbn [after].
  apply wp_call; [done|]. intros [[]|e] _.
  2:{ apply wp_bind, wp_discard; [by eexists|]. intros K' Ht. by apply HE. }
  rewrite (in_place _ id file) by done. change (with_own ?x (with_own _ _)) with (with_own x K).
  apply wp_call.
  { cbn [allowed command_allowed]. rewrite claim_of_committed. destruct Hdraws as (_ & Hv & Ht & _).
    split; [by eexists file|]. by split. }
  intros [o|e] Hfit; cbn [after introduces].
  2:{ apply wp_bind, wp_discard; [by eexists|]. intros K' Ht. by apply HE. }
  destruct (Hfit o eq_refl) as [cleanup ->]. cbn [decoded mbind result_bind into_object_commit].
  apply wp_bind, wp_cleanup_record. intros _. apply wp_bind, wp_remove_all.
  - intros m Hm. cbn. apply elem_of_union_r, elem_of_list_to_set, list_elem_of_fmap. by exists m.
  - intros K' (Ho' & _ & Ht & _). apply HQ; [by apply Ho'|by rewrite Ht].
Qed.
Lemma claim_of_uploaded request written draws :
  claim_of_part (uploaded_part request written draws) = written_claim (dr_object_id draws) written.
Proof. done. Qed.

Lemma wp_put_part K request draws s Q :
  k_own K = Some (dr_object_id draws, s) → k_token K = None → draws_ok draws → uuid_ok (part_upload_id request) →
  1 ≤ part_number request ≤ PartNumber_MAX → (∀ K' r, Q K' r) →
  wp K (put_multipart_part encryption request draws) Q.
Proof.
  intros Ho Ht Hdraws Hup Hn HQ. unfold put_multipart_part. set (id := dr_object_id draws) in *.
  assert (Hid : uuid_ok id) by apply Hdraws.
  apply wp_call; [by cbn; rewrite Ht|]. intros [upload|] _; [|by apply HQ].
  assert (HK : after K (GetUpload (part_upload_id request)) (Some upload) = K).
  { cbn [after]. destruct (u_state upload); [done|]. by rewrite Ht. }
  rewrite HK. destruct (negb _); [by apply HQ|].
  apply wp_trying, (wp_stage K id s); [done..|by apply received_quiet| |intros s' e; by apply HQ].
  intros items written file Hw Hcap. destruct (write_payload_readable encryption capacity Hcapacity Hencryption _ _ _ _ _ Hw Hid Hdraws Hcap) as [Hread Hu].
  apply wp_trying, wp_call; [done|]. intros [[]|e] _; [|by apply HQ]. cbn [wp after].
  apply wp_trying, wp_call; [by split; [eexists|]|]. intros [[]|e] _; cbn [wp after on_ok]; [|by apply HQ].
  rewrite (advance_own id (Written file)) by done. change (with_own ?x (with_own _ _)) with (with_own x K).
  apply wp_call; [done|]. intros [] _. cbn [after].
  apply wp_trying, wp_call; [done|]. intros [[]|e] _; [|by apply HQ]. cbn [wp].
  rewrite (in_place _ id file) by done. change (with_own ?x (with_own _ _)) with (with_own x K).
  apply wp_call.
  { cbn [allowed command_allowed]. rewrite claim_of_uploaded. split; [by eexists file|]. by split. }
  intros [o|e] Hfit; cbn [after introduces].
  2:{ apply wp_bind, wp_call; [left; by eexists|]. intros r _. apply HQ. }
  destruct (Hfit o eq_refl) as [[previous|] ->]; cbn [decoded mbind result_bind into_replaced_part]; [|by apply HQ].
  apply wp_bind, wp_remove_queued; [cbn; set_solver|]. intros K' _. apply HQ.
Qed.

(** ** Completions *)

Lemma quiet_read_parts parts : quiet (read_parts encryption parts).
Proof.
  intros K Q. revert Q. induction parts as [|part parts IH]; intros Q HQ; cbn [read_parts]; [apply HQ|].
  apply wp_call; [done|]. intros [file|e] _; [|apply HQ]. cbn [after].
  destruct (open_payload _ _ _ _ _ _ _) as [[? body]|e]; [|apply HQ]. apply wp_bind, IH. intros rest. apply HQ.
Qed.

Lemma wp_finish K upload m Q : (∀ K' r, Q K' r) → wp K (finish_completion upload m) Q.
Proof.
  intros HQ. apply wp_call; [done|]. intros [o|e] _; [|apply HQ]. cbn [after introduces].
  destruct o as [| | | | | | | |parts]; try (by apply HQ). cbn [decoded mbind result_bind into_multipart_cleanup].
  apply wp_bind, wp_remove_all; [|by intros K' _; apply HQ].
  intros p Hp. cbn. apply elem_of_union_r, elem_of_list_to_set, list_elem_of_fmap. by exists p.
Qed.

Lemma wp_complete_with K request persisted id s draws Q :
  k_own K = Some (id, s) → uuid_ok id → draws_ok draws → upload_ok persisted → (∀ K' r, Q K' r) →
  wp K (complete_with encryption request persisted id draws) Q.
Proof.
  intros Ho Hid Hdraws (_ & Hb & Hk & _) HQ. unfold complete_with. apply wp_call; [done|]. intros current _. cbn [after].
  destruct (List.filter _ _) as [|m ms].
  - apply wp_trying. cbn [wp]. destruct (part_digests _) as [digests|e]; [|apply HQ].
    apply wp_trying. cbn [wp]. destruct (map_err _ _) as [etag|e]; [|apply HQ].
    apply wp_trying. eapply (wp_put K _ draws s); [done..|apply quiet_read_parts| |].
    + intros K' m _ _. apply wp_finish, HQ.
    + intros K' e _. apply HQ.
  - apply wp_finish, HQ.
Qed.

Lemma wp_complete K request draws s Q :
  k_own K = Some (dr_object_id draws, s) → k_token K = Some (u_id (cm_upload request)) → draws_ok draws →
  (∀ K' r, Q K' r) → wp K (complete_multipart encryption request draws) Q.
Proof.
  intros Ho Ht Hdraws HQ. unfold complete_multipart. case_bool_decide; [apply HQ|].
  apply wp_call; [by intros _; rewrite Ho|]. intros [persisted|] Hp; [|apply HQ]. destruct (Hp persisted eq_refl) as (Hup & Hid & Hcompleting).
  destruct (negb _); [apply HQ|]. cbn [after]. destruct (u_state persisted) as [|id] eqn:Hst.
  - apply wp_call; [split; [by eexists|by rewrite Hid]|]. intros [o|e] _; [|apply HQ]. cbn [after introduces].
    cbn [decoded mbind result_bind]. destruct (into_multipart_upload o) as [u|e]; [|apply HQ].
    apply (wp_complete_with _ _ _ _ s); [done|apply Hdraws|done..].
  - rewrite bool_decide_eq_true_2 by done. apply (wp_complete_with _ _ _ _ Staging); [done|by apply Hcompleting|done..].
Qed.

(** ** Deletions, cleanup and start-up *)

Lemma wp_delete K bucket key marker Q :
  uuid_ok bucket → key_ok key → uuid_ok (marker_version_id marker) → time_ok (marker_created_at marker) →
  (∀ K' r, Q K' r) → wp K (delete bucket key marker) Q.
Proof.
  intros Hb Hk Hv Ht HQ. apply wp_call; [done|]. intros [o|e] _; [|apply HQ]. cbn [after introduces].
  destruct o as [| | |res| | | | |]; try (by apply HQ). cbn [decoded mbind result_bind into_delete_object].
  destruct (_ && _); [apply HQ|].
  apply wp_bind, wp_remove_all; [|by intros K' _; apply HQ].
  intros m Hm. cbn. apply elem_of_union_r, elem_of_list_to_set, list_elem_of_fmap. by exists m.
Qed.

Lemma wp_delete_version K bucket key version release Q :
  uuid_ok bucket → key_ok key → (∀ K' r, Q K' r) → wp K (delete_version bucket key version release) Q.
Proof.
  intros Hb Hk HQ. apply wp_call; [done|]. intros [o|e] _; [|apply HQ]. cbn [after introduces].
  destruct o as [| | | |[res|]| | | |]; try (by apply HQ). cbn [decoded mbind result_bind into_delete_version].
  destruct (version_cleanup res) as [m|] eqn:Hm; [|apply HQ].
  apply wp_bind, wp_remove_queued; [cbn; rewrite Hm; cbn; set_solver|]. intros K' _. apply HQ.
Qed.

Lemma wp_cleanup_loop K ids n Q :
  (∀ id, id ∈ ids → id ∈ k_dead K) → (∀ K' r, later K K' → Q K' r) → wp K (cleanup_loop ids n) Q.
Proof.
  revert K n. induction ids as [|id ids IH]; intros K n Hd HQ; cbn [cleanup_loop]; [by apply HQ|].
  apply wp_call; [right; apply Hd; by left|]. intros r _. pose proof (later_advance id (λ _, Staging) K) as Hl. cbn [after].
  destruct r.
  3:{ apply IH; [intros x Hx; apply Hl, Hd; by right|]. intros K' r' HK'. apply HQ. by etransitivity. }
  all: apply wp_call; [done|]; intros [o|e] _; [|by apply HQ]; cbn [after introduces].
  all: set (K1 := with_dead _ _); assert (Hl1 : later K K1) by (etransitivity; [exact Hl|apply later_dead]).
  all: apply IH; [intros x Hx; apply Hl1, Hd; by right|]; intros K' r' HK'; apply HQ; by etransitivity.
Qed.

Lemma wp_cleanup_pending K limit Q : (∀ K' r, later K K' → Q K' r) → wp K (cleanup_pending limit) Q.
Proof.
  intros HQ. apply wp_call; [done|]. intros ids _. cbn [after]. apply wp_cleanup_loop.
  - intros id Hid. cbn. apply elem_of_union_r. by apply elem_of_list_to_set.
  - intros K' r HK'. apply HQ. etransitivity; [apply later_dead|done].
Qed.

Lemma wp_recover_records K ids Q :
  k_alone K = true → (∀ K' r, later K K' → Q K' r) → wp K (recover_records ids) Q.
Proof.
  revert K. induction ids as [|id ids IH]; intros K Ha HQ; cbn [recover_records]; [by apply HQ|].
  apply wp_trying, wp_call; [done|]. intros [encoded|e] _; cbn [wp after]; [|by apply HQ].
  destruct encoded as [encoded|]; [|by apply HQ]. destruct (_ <? _); [by apply HQ|].
  destruct (match decode_record _ with Some _ => _ | None => _ end); [by apply HQ|].
  apply wp_call; [done|]. intros committed _. cbn [after]. rewrite Ha. cbn [andb].
  assert (Hend : ∀ K', later K K' → wp K' (r ←! RemoveFile (PublicationFile id);
    match r with Removed => recover_records ids | _ => Ret (Err (Filesystem "complete publication recovery")) end)%prog Q).
  { intros K' HK'. apply wp_call; [done|]. intros r _. cbn [after]. destruct r; try (by apply HQ).
    apply IH; [by destruct HK' as (_ & _ & _ & ->)|]. intros K'' r' HK''. apply HQ. by etransitivity. }
  destruct committed; cbn [negb]; apply wp_bind; [by apply Hend|].
  apply wp_call; [right; cbn; set_solver|]. intros r _. cbn [after wp].
  set (K1 := advance _ _ _). assert (Hl1 : later K K1) by (etransitivity; [apply (later_dead {[id]})|apply later_advance]).
  destruct r; [by apply Hend|by apply Hend|by apply HQ].
Qed.

Lemma wp_remove_uploads K entries Q :
  k_alone K = true → (∀ K' r, later K K' → Q K' r) → wp K (remove_uploads entries) Q.
Proof.
  revert K. induction entries as [|p entries IH]; intros K Ha HQ; cbn [remove_uploads]; [by apply HQ|].
  destruct (is_recognized_upload_name p) eqn:Hp; [|by apply IH].
  apply wp_call; [destruct p; try done; by right|]. intros r _.
  assert (Hl : later K (after K (RemoveFile p) r)) by (destruct p; try done; apply later_advance).
  destruct r; [|by apply HQ..]. apply IH; [by destruct Hl as (_ & _ & _ & ->)|]. intros K' r' HK'. apply HQ. by etransitivity.
Qed.

Lemma wp_recover_cleanup K fuel Q : (∀ K' r, later K K' → Q K' r) → wp K (recover_pending_cleanup fuel) Q.
Proof.
  revert K. induction fuel as [|fuel IH]; intros K HQ; cbn [recover_pending_cleanup]; [by apply HQ|].
  apply wp_trying, wp_cleanup_pending. intros K' [n|e] HK'; [|by apply HQ]. destruct (n =? 0); [by apply HQ|].
  apply IH. intros K'' r HK''. apply HQ. by etransitivity.
Qed.

Lemma wp_open K fuel Q : k_alone K = true → (∀ K' r, Q K' r) → wp K (open fuel) Q.
Proof.
  intros Ha HQ. unfold open, recover_publications. apply wp_trying, wp_trying, wp_call; [done|].
  intros [entries|e] _; [|by apply HQ]. cbn [after wp]. apply wp_recover_records; [done|]. intros K1 [[]|e] HK1; [|apply HQ].
  apply wp_call; [done|]. intros [o|e] _; [|apply HQ]. cbn [after introduces decoded mbind result_bind].
  destruct (into_multipart_cleanup o) as [ps|e]; [|apply HQ]. unfold recover_incomplete_uploads.
  apply wp_trying, wp_trying, wp_call; [done|]. intros [entries'|e] _; [|by apply HQ]. cbn [after wp].
  apply wp_remove_uploads; [by destruct HK1 as (_ & _ & _ & ->)|]. intros K2 [[]|e] HK2; [|apply HQ].
  apply wp_recover_cleanup. intros K3 r _. apply HQ.
Qed.

(** Every request starts with its identifier unused and nothing else known. *)
Definition initial (r : request) : knowledge :=
  {| k_own := (λ id, (id, Staging)) <$> drawn r; k_dead := ∅; k_token := completes r; k_alone := false |}.

Lemma request_safe r : request_ok r → safe (initial r) (program encryption r).
Proof.
  unfold safe. intros Hok. destruct r; cbn [program request_ok] in *; apply wp_bind.
  - destruct Hok as (Hd & Hb & Hk & Hid & Hbody). apply (wp_put _ _ _ Staging); try done; [..|by apply received_quiet]; unfold put_id; rewrite Hid; [done|apply Hd].
  - destruct Hok as (Hd & Hup & Hn). by apply (wp_put_part _ _ _ Staging).
  - by apply (wp_complete _ _ _ Staging).
  - destruct Hok as (Hb & Hk & Hv & Ht). by apply wp_delete.
  - destruct Hok. by apply wp_delete_version.
  - by apply wp_cleanup_pending.
  - split; [|done]. by destruct command.
Qed.
End Safe.
End StoreInv.
