(* ===== verification/StoreSound.v ===== *)
(** * Each event preserves what every request knows *)

From S2P Require Import Prelude Programs Bytes Tables Digest ObjectLock CoreTypes Keys Catalog Commands CatalogInv CatalogUploads Reachable Listing Auth Names Payload PayloadTheorems CatalogPayloads Disk LocalStore StoreRuns StoreContent StoreInv.
Import Programs ObjectLock CoreTypes Keys Catalog Commands Listing CatalogInv Reachable Names Payload Disk CatalogUploads CatalogPayloads LocalStore StoreRuns StoreContent StoreInv.

Module StoreSound.

Section Sound.
Context `{HashFunction} `{HexCrate} `{Md5Crate} `{Auth.Cryptography_} `{!PayloadTheorems.AeadLaws} `{PublicationJson} `{StorageErrorText} `{UuidCrate}.
Variables (encryption : option ObjectEncryption) (capacity : Z).

(** The payload is in place for good, and reads back as recorded. *)
Definition stored (d : Disk path) (x : PayloadClaim) : Prop :=
  ∃ b, settled d (PayloadFile (pc_id x)) {| content := b; synced := true |} ∧ readable encryption x b.

(** ** What holds between calls *)

Record good (w : World) (minted committed : gset bytes) : Prop := {
  good_catalog : Inv (w_catalog w);
  good_owned : owned (w_catalog w);
  good_disk : coherent (w_disk w);
  good_stored : ∀ x, claims (w_catalog w) x → stored (w_disk w) x;
  good_claims : ∀ x, claims (w_catalog w) x → pc_id x ∈ committed;
  good_cleanup : ∀ id, is_Some (CLEANUP (w_catalog w) !! id) → id ∈ committed;
  good_minted : committed ⊆ minted;
  good_ids : ∀ id, id ∈ minted → uuid_ok id;
  good_completing : ∀ u id, completing (w_catalog w) u id → id ∈ minted;
  good_unique : ∀ u u' id, completing (w_catalog w) u id → completing (w_catalog w) u' id → id ∉ committed → u = u' }.

(** How far a payload is. *)
Definition progress_ok (d : Disk path) (id : bytes) (s : progress) : Prop :=
  match s with
  | Staging => True
  | Dirty b => cache d !! UploadFile id = Some {| content := b; synced := false |}
  | Written b => cache d !! UploadFile id = Some {| content := b; synced := true |}
  | Moved b => cache d !! PayloadFile id = Some {| content := b; synced := true |}
  | InPlace b => settled d (PayloadFile id) {| content := b; synced := true |}
  end.

(** The identifiers a request may touch files of: its own, and those of its guards. *)
Definition holds (K : knowledge) (gs : list path) (id : bytes) : Prop := owns K id ∨ UploadFile id ∈ gs.

Record fits (w : World) (minted committed : gset bytes) (K : knowledge) (gs : list path) : Prop := {
  fits_own : ∀ id s, k_own K = Some (id, s) → id ∉ committed ∧ progress_ok (w_disk w) id s;
  fits_minted : ∀ id, holds K gs id → id ∈ minted;
  fits_dead : ∀ id, id ∈ k_dead K →
    (∀ x, claims (w_catalog w) x → pc_id x ≠ id) ∧ (k_alone K = true ∨ id ∈ committed);
  fits_completing : ∀ id u, holds K gs id → completing (w_catalog w) u id → k_token K = Some u;
  fits_token : ∀ u id, k_token K = Some u → is_Some (k_own K) → completing (w_catalog w) u id → id ∉ committed;
  fits_guards : ∀ id, PayloadFile id ∉ gs;
  fits_alone : k_alone K = true → k_own K = None }.

(** ** Updates of the disk *)

Definition touches (l : list (effect path)) (p : path) : Prop := ∃ e, e ∈ l ∧ effect_path e = p.

Lemma untouched_file l p : ¬ touches l p → Forall (λ e, effect_path e ≠ p) l.
Proof. intros Hn. apply Forall_forall. intros e He Hp. apply Hn. by exists e. Qed.

Lemma progress_update d l id s :
  progress_ok d id s → ¬ touches l (UploadFile id) → ¬ touches l (PayloadFile id) → progress_ok (update l d) id s.
Proof.
  intros Hp Hu%untouched_file Hf%untouched_file.
  destruct s; cbn in *; try done; try (by rewrite lookup_apply_other). by apply settled_update.
Qed.
Lemma progress_sync d dir id s : progress_ok d id s → progress_ok (sync_directory parent dir d) id s.
Proof. intros Hp. destruct s; cbn in *; try done. by apply settled_sync. Qed.

Lemma good_update w minted committed l :
  good w minted committed →
  (∀ id x, touches l (PayloadFile id) → claims (w_catalog w) x → pc_id x ≠ id) →
  good (on_disk (update l) w) minted committed.
Proof.
  intros Hg Hl. destruct Hg. split; try done; cbn.
  - by apply update_coherent.
  - intros x Hx. destruct (good_stored0 x Hx) as (b & Hb & Hr). exists b. split; [|done].
    apply settled_update; [done|]. apply untouched_file. intros Ht. by apply (Hl _ _ Ht Hx).
Qed.
Lemma good_sync w minted committed dir :
  good w minted committed → good (on_disk (sync_directory parent dir) w) minted committed.
Proof.
  intros Hg. destruct Hg. split; try done; cbn.
  - by apply sync_coherent.
  - intros x Hx. destruct (good_stored0 x Hx) as (b & Hb & Hr). exists b. split; [|done]. by apply settled_sync.
Qed.

(** The same catalog, and knowledge that holds of the disk. *)
Lemma fits_disk w w' minted committed K K' gs gs' :
  fits w minted committed K gs → w_catalog w' = w_catalog w →
  (∀ id s, k_own K' = Some (id, s) → owns K id ∧ progress_ok (w_disk w') id s) →
  k_dead K' = k_dead K → k_token K' = k_token K → k_alone K' = k_alone K →
  (∀ id, UploadFile id ∈ gs' → holds K gs id) → (∀ id, PayloadFile id ∉ gs') →
  fits w' minted committed K' gs'.
Proof.
  intros [F1 F2 F3 F4 F5 F6 F7] Hc Ho Hd Ht Ha Hgs Hp.
  assert (Hh : ∀ id, holds K' gs' id → holds K gs id) by (intros id [[s Hs]|Hg]; [left; by eapply Ho|by apply Hgs]).
  split; rewrite ?Hc, ?Hd, ?Ht, ?Ha.
  - intros id s Hs. destruct (Ho id s Hs) as [[s0 Hs0] Hp']. split; [|done]. by eapply F1.
  - intros id Hid. by apply F2, Hh.
  - done.
  - intros id u Hid. by apply F4, Hh.
  - intros u id Hu [[id' s'] Hs]. apply F5; [done|]. destruct (Ho _ _ Hs) as [[s0 Hs0] _]. by eexists.
  - done.
  - intros HA. destruct (k_own K') as [[id s]|] eqn:Hs; [|done]. destruct (Ho _ _ eq_refl) as [[s0 Hs0] _].
    by rewrite (F7 HA) in Hs0.
Qed.

Lemma owns_advance id f K id' s : k_own (advance id f K) = Some (id', s) → ∃ s0, k_own K = Some (id', s0) ∧ s = if bool_decide (id' = id) then f s0 else s0.
Proof.
  unfold advance. cbn. destruct (k_own K) as [[own s0]|]; cbn; [|done]. intros [= -> <-]. by exists s0.
Qed.

Lemma claims_unqueued c id x : owned c → is_Some (CLEANUP c !! id) → claims c x → pc_id x ≠ id.
Proof.
  intros Hown [n Hn] Hx <-. destruct Hown as [_ _ _ H4' H5'].
  destruct Hx as [(v & r & m & Hv & Hm & ->)|(k & p & Hp & ->)]; cbn in Hn.
  - by rewrite (H4' _ _ _ Hv Hm) in Hn.
  - by rewrite (H5' _ _ Hp) in Hn.
Qed.
(** ** One call *)

Definition apart (K : knowledge) (gs : list path) (K2 : knowledge) (gs2 : list path) : Prop :=
  (∀ id, holds K gs id → ¬ holds K2 gs2 id) ∧ (∀ u, k_token K = Some u → k_token K2 ≠ Some u).

(** The step of one request: what it knows holds after it, and what requests apart
    from it know still does. *)
Record sound_step (w w' : World) (minted committed committed' : gset bytes) (K K' : knowledge) (gs gs' : list path) : Prop := {
  sound_good : good w' minted committed';
  sound_fits : fits w' minted committed' K' gs';
  sound_holds : ∀ id, holds K' gs' id → holds K gs id ∨ ∃ u, k_token K = Some u ∧ completing (w_catalog w) u id;
  sound_token : k_token K' = k_token K;
  sound_alone : k_alone K' = k_alone K;
  sound_others : ∀ K2 gs2, k_alone K = false → k_alone K2 = false → apart K gs K2 gs2 →
    fits w minted committed K2 gs2 → fits w' minted committed' K2 gs2 }.

Lemma sound_update w l minted committed K K' gs gs' :
  good w minted committed → fits w minted committed K gs →
  (∀ id, touches l (UploadFile id) → holds K gs id ∨ k_alone K = true) →
  (∀ id, touches l (PayloadFile id) → owns K id ∨ id ∈ k_dead K) →
  (∀ id s, k_own K' = Some (id, s) → owns K id ∧ progress_ok (update l (w_disk w)) id s) →
  k_dead K' = k_dead K → k_token K' = k_token K → k_alone K' = k_alone K →
  (∀ id, UploadFile id ∈ gs' → holds K gs id) → (∀ id, PayloadFile id ∉ gs') →
  sound_step w (on_disk (update l) w) minted committed committed K K' gs gs'.
Proof.
  intros Hg Hf Hup Hpay Hown Hd Ht Ha Hgs Hpg. split; try done.
  - apply good_update; [done|]. intros id x Hl Hx <-. destruct (Hpay _ Hl) as [[s Hs]|Hdead].
    + destruct (fits_own _ _ _ _ _ Hf _ _ Hs) as [Hn _]. by apply Hn, (good_claims _ _ _ Hg).
    + destruct (fits_dead _ _ _ _ _ Hf _ Hdead) as [Hn _]. by apply (Hn x Hx).
  - by eapply fits_disk.
  - intros id [[s Hs]|Hid]; left; [left; by eapply Hown|by apply Hgs].
  - intros K2 gs2 HA HA2 [Hap _] Hf2. eapply fits_disk; [exact Hf2|done| |done|done|done| |apply (fits_guards _ _ _ _ _ Hf2)].
    + intros id s Hs. split; [by eexists|]. destruct (fits_own _ _ _ _ _ Hf2 _ _ Hs) as [Hn Hp].
      assert (Hh2 : holds K2 gs2 id) by (left; by eexists).
      apply progress_update; [done| |].
      * intros Hl. destruct (Hup _ Hl) as [Hh|HA']; [by apply (Hap id)|congruence].
      * intros Hl. destruct (Hpay _ Hl) as [Hh|Hdead]; [apply (Hap id); [by left|done]|].
        destruct (fits_dead _ _ _ _ _ Hf _ Hdead) as [_ [HA'|Hc]]; congruence.
    + intros id Hid. by right.
Qed.

Lemma sound_same w minted committed K K' gs gs' :
  good w minted committed → fits w minted committed K' gs' →
  (∀ id, holds K' gs' id → holds K gs id ∨ ∃ u, k_token K = Some u ∧ completing (w_catalog w) u id) →
  k_token K' = k_token K → k_alone K' = k_alone K → sound_step w w minted committed committed K K' gs gs'.
Proof. intros. by split. Qed.

Lemma fits_same w minted committed K gs : fits w minted committed K gs → good w minted committed →
  sound_step w w minted committed committed K K gs gs.
Proof. intros Hf Hg. apply sound_same; try done. by left. Qed.

Lemma sound_sync w dir minted committed K K' gs :
  good w minted committed → fits w minted committed K gs →
  (∀ id s, k_own K' = Some (id, s) → owns K id ∧ progress_ok (sync_directory parent dir (w_disk w)) id s) →
  k_dead K' = k_dead K → k_token K' = k_token K → k_alone K' = k_alone K →
  sound_step w (on_disk (sync_directory parent dir) w) minted committed committed K K' gs gs.
Proof.
  intros Hg Hf Hown Hd Ht Ha. split; try done.
  - by apply good_sync.
  - eapply fits_disk; [exact Hf|done|done|done|done|done| |apply (fits_guards _ _ _ _ _ Hf)]. intros id Hid. by right.
  - intros id [[s Hs]|Hid]; left; [left; by eapply Hown|by right].
  - intros K2 gs2 _ _ _ Hf2. eapply fits_disk; [exact Hf2|done| |done|done|done| |apply (fits_guards _ _ _ _ _ Hf2)].
    + intros id s Hs. split; [by eexists|]. apply progress_sync. by eapply fits_own.
    + intros id Hid. by right.
Qed.
(** ** Commits *)

Lemma uncommitted_fresh w minted committed id :
  good w minted committed → id ∉ committed → fresh_payload (w_catalog w) id.
Proof.
  intros Hg Hn. split_and!.
  - intros v r Hr Hm. apply Hn. destruct (as_object r) as [m|] eqn:Ho; [|done]. injection Hm as <-.
    apply (good_claims _ _ _ Hg (claim_of_object m)). left. by eexists _, _, _.
  - intros k p Hp <-. apply Hn. apply (good_claims _ _ _ Hg (claim_of_part p)). right. by eexists _, _.
  - destruct (CLEANUP (w_catalog w) !! id) as [n|] eqn:Hc; [|done]. destruct Hn. apply (good_cleanup _ _ _ Hg). by eexists.
Qed.

Lemma allowed_command_ok w minted committed K gs command :
  good w minted committed → fits w minted committed K gs → command_allowed encryption K command →
  fresh_versions (w_catalog w) command →
  command_ok (w_catalog w) command ∧ introduces_fresh (w_catalog w) command ∧ creates_active command.
Proof.
  intros Hg Hf Hal Hfr. destruct command; cbn in *; try done; try tauto.
  - destruct Hal as ((b & Ho & _) & Hr & Hu). destruct (fits_own _ _ _ _ _ Hf _ _ Ho) as [Hn _].
    split_and!; try done; try apply Hr. by apply (uncommitted_fresh _ _ _ _ Hg).
  - destruct Hal as ((b & Ho & _) & Hp). destruct (fits_own _ _ _ _ _ Hf _ _ Ho) as [Hn _].
    split_and!; try done. by apply (uncommitted_fresh _ _ _ _ Hg).
Qed.

(** The claim a command adds is the payload its request has in place. *)
Lemma allowed_introduces K command x :
  command_allowed encryption K command → introduces command = Some x → introduced_ok encryption K x.
Proof. destruct command; cbn; try done; intros [Hal _] [= <-]; exact Hal. Qed.

Section Committed.
Variables (w : World) (minted committed : gset bytes) (K : knowledge) (gs : list path) (command : MetadataCommand)
  (o : MetadataOutcome) (c' : Catalog).
Hypotheses (Hg : good w minted committed) (Hf : fits w minted committed K gs) (Hal : command_allowed encryption K command)
  (Hfr : fresh_versions (w_catalog w) command) (Hrun : apply_command_tx command (w_catalog w) = (Ok o, c')).
Let w' := {| w_catalog := c'; w_disk := w_disk w |}.
Let committed' := committed ∪ commits (Commit command) (Ok o).

Lemma committed_inv : Inv c'.
Proof.
  destruct (allowed_command_ok _ _ _ _ _ _ Hg Hf Hal Hfr) as [Hok _].
  eapply apply_command_inv; [apply (good_catalog _ _ _ Hg)|exact Hok|exact Hrun].
Qed.
Lemma committed_owned : owned c'.
Proof.
  destruct (allowed_command_ok _ _ _ _ _ _ Hg Hf Hal Hfr) as (Hok & Hnew & _).
  exact (command_owned _ _ _ _ (good_catalog _ _ _ Hg) (good_owned _ _ _ Hg) Hok Hnew Hrun).
Qed.
Lemma committed_payloads :
  payload_step (introduces command) (w_catalog w) c' ∧
  (command ≠ RecoverMultipartCompletions → ∀ id, id ∈ outcome_payloads o → is_Some (CLEANUP c' !! id)).
Proof.
  destruct (allowed_command_ok _ _ _ _ _ _ Hg Hf Hal Hfr) as [Hok _].
  exact (command_payloads _ _ _ _ (good_catalog _ _ _ Hg) Hok Hrun).
Qed.
Lemma committed_completing u id :
  completing c' u id → completing (w_catalog w) u id ∨ (owns K id ∧ k_token K = Some u).
Proof.
  intros Hc. destruct (allowed_command_ok _ _ _ _ _ _ Hg Hf Hal Hfr) as (_ & _ & Hact).
  destruct (command_completing _ _ _ _ _ _ Hact Hrun Hc) as [?|Hb]; [by left|]. right. subst command. exact Hal.
Qed.
Lemma committed_grows id : id ∈ committed' ↔ id ∈ committed ∨ ∃ x, introduces command = Some x ∧ pc_id x = id.
Proof.
  unfold committed', commits. rewrite elem_of_union. destruct (introduces command) as [x|].
  - rewrite elem_of_singleton. naive_solver.
  - rewrite elem_of_empty. naive_solver.
Qed.
Lemma committed_claims x : claims c' x → claims (w_catalog w) x ∨ (introduces command = Some x ∧ introduced_ok encryption K x).
Proof.
  intros Hx. destruct committed_payloads as [[Hc _] _]. destruct (Hc x Hx) as [?|Hi]; [by left|]. right.
  split; [done|]. by eapply allowed_introduces.
Qed.

Lemma committed_good : good w' minted committed'.
Proof.
  assert (Hin : ∀ x, introduced_ok encryption K x → pc_id x ∈ minted ∧ stored (w_disk w) x).
  { intros x (b & Ho & Hr). destruct (fits_own _ _ _ _ _ Hf _ _ Ho) as [_ Hp]. split.
    - apply (fits_minted _ _ _ _ _ Hf). left. by eexists.
    - by exists b. }
  destruct committed_payloads as [[Hclaims Hqueued] _]. split; cbn [w' w_catalog w_disk].
  - exact committed_inv.
  - exact committed_owned.
  - apply Hg.
  - intros x Hx. destruct (committed_claims x Hx) as [Hold|[_ Hi]]; [by apply Hg|by apply Hin].
  - intros x Hx. apply committed_grows. destruct (committed_claims x Hx) as [Hold|[Hi _]]; [left; by apply Hg|right; by eauto].
  - intros id Hid. apply committed_grows. left. destruct (Hqueued id Hid) as [?|(x & Hx & <-)]; [by apply Hg|by apply Hg].
  - intros id Hid. apply committed_grows in Hid as [Hid|(x & Hi & <-)]; [by apply Hg|]. eapply Hin, allowed_introduces; eassumption.
  - apply Hg.
  - intros u id Hc. destruct (committed_completing u id Hc) as [Hc'|[Ho _]]; [by eapply good_completing|].
    apply (fits_minted _ _ _ _ _ Hf). by left.
  - intros u u' id Hc Hc' Hn. assert (Hn0 : id ∉ committed) by (intros Hi; apply Hn, committed_grows; by left).
    destruct (committed_completing u id Hc) as [H1'|[Ho1 Ht1]], (committed_completing u' id Hc') as [H2'|[Ho2 Ht2]].
    + by eapply (good_unique _ _ _ Hg).
    + rewrite (fits_completing _ _ _ _ _ Hf id u ltac:(by left) H1') in Ht2. congruence.
    + rewrite (fits_completing _ _ _ _ _ Hf id u' ltac:(by left) H2') in Ht1. congruence.
    + congruence.
Qed.

Lemma committed_others K2 gs2 :
  k_alone K2 = false → apart K gs K2 gs2 → fits w minted committed K2 gs2 → fits w' minted committed' K2 gs2.
Proof.
  intros HA2 [Hap Htok] Hf2. split; cbn [w' w_catalog w_disk].
  - intros id s Hs. destruct (fits_own _ _ _ _ _ Hf2 _ _ Hs) as [Hn Hp]. split; [|done].
    intros [Hc|(x & Hi & <-)]%committed_grows; [done|]. destruct (allowed_introduces _ _ _ Hal Hi) as (b & Ho & _).
    apply (Hap (pc_id x)); left; by eexists.
  - apply Hf2.
  - intros id Hid. destruct (fits_dead _ _ _ _ _ Hf2 _ Hid) as [Hn Hc]. rewrite HA2 in Hc. destruct Hc as [?|Hc]; [done|].
    split; [|right; apply committed_grows; by left]. intros x Hx <-. destruct (committed_claims x Hx) as [Hold|[_ (b & Ho & _)]].
    + by apply (Hn x).
    + by apply (proj1 (fits_own _ _ _ _ _ Hf _ _ Ho)).
  - intros id u Hh Hc. destruct (committed_completing u id Hc) as [Hc'|[Ho _]]; [by eapply fits_completing|].
    destruct (Hap id); [by left|done].
  - intros u id Hu Ho2 Hc Hin. destruct (committed_completing u id Hc) as [Hc'|[_ Ht]]; [|by apply (Htok u Ht)].
    apply committed_grows in Hin as [Hin|(x & Hi & <-)]; [by eapply (fits_token _ _ _ _ _ Hf2)|].
    destruct (allowed_introduces _ _ _ Hal Hi) as (b & Ho & _).
    apply (Htok u); [|done]. apply (fits_completing _ _ _ _ _ Hf (pc_id x)); [left; by eexists|done].
  - apply Hf2.
  - apply Hf2.
Qed.

(** What the request itself knows. *)
Let K' := after K (Commit command) (Ok o).

Lemma after_commit_own id s :
  k_own K' = Some (id, s) → k_own K = Some (id, s) ∧ introduces command = None.
Proof. unfold K'. destruct command; cbn; try done; by intros ->. Qed.
Lemma after_commit_dead id :
  id ∈ k_dead K' → id ∈ k_dead K ∨ (command ≠ RecoverMultipartCompletions ∧ id ∈ outcome_payloads o).
Proof. unfold K'. destruct command; cbn; rewrite ?elem_of_union, ?elem_of_list_to_set; try (by left); intros [?|?]; (by left) || (by right). Qed.
Lemma after_commit_rest : k_token K' = k_token K ∧ k_alone K' = k_alone K.
Proof. unfold K'. by destruct command. Qed.

Lemma committed_fits : fits w' minted committed' K' gs.
Proof.
  destruct after_commit_rest as [Ht Ha].
  assert (Hh : ∀ id, holds K' gs id → holds K gs id).
  { intros id [[s Hs]|Hid]; [|by right]. left. exists s. by apply after_commit_own. }
  assert (Hsame : introduces command = None → ∀ id, id ∈ committed' → id ∈ committed).
  { intros Hi id [?|(x & Hx & _)]%committed_grows; [done|congruence]. }
  destruct committed_payloads as [[Hclaims Hqueued] Hout]. split; rewrite ?Ht, ?Ha; cbn [w' w_catalog w_disk].
  - intros id s [Hs Hi]%after_commit_own. destruct (fits_own _ _ _ _ _ Hf _ _ Hs) as [Hn Hp]. split; [|done].
    intros Hc. by apply Hn, Hsame.
  - intros id Hid. by apply (fits_minted _ _ _ _ _ Hf), Hh.
  - intros id [Hd|[Hne Ho]]%after_commit_dead.
    + destruct (fits_dead _ _ _ _ _ Hf _ Hd) as [Hn Hc]. split.
      * intros x Hx <-. destruct (committed_claims x Hx) as [Hold|[_ (b & Ho & _)]]; [by apply (Hn x)|].
        destruct Hc as [HA|Hc]; [by rewrite (fits_alone _ _ _ _ _ Hf HA) in Ho|].
        by apply (proj1 (fits_own _ _ _ _ _ Hf _ _ Ho)).
      * destruct Hc; [by left|right; apply committed_grows; by left].
    + specialize (Hout Hne id Ho). split; [intros x; by apply claims_unqueued, Hout; apply committed_owned|].
      right. apply committed_grows. left. destruct (Hqueued id Hout) as [?|(x & Hx & <-)]; by apply Hg.
  - intros id u Hid%Hh Hc. destruct (committed_completing u id Hc) as [Hc'|[_ ?]]; [|done]. by eapply fits_completing.
  - intros u id Hu [[id' s] Hs] Hc Hin. destruct (after_commit_own _ _ Hs) as [Hs' Hi]. apply (Hsame Hi) in Hin.
    destruct (committed_completing u id Hc) as [Hc'|[[s0 Ho] _]].
    + by eapply (fits_token _ _ _ _ _ Hf).
    + by apply (proj1 (fits_own _ _ _ _ _ Hf _ _ Ho)).
  - apply Hf.
  - intros HA. destruct (k_own K') as [[id s]|] eqn:Hs; [|done]. destruct (after_commit_own _ _ Hs) as [Hs' _].
    by rewrite (fits_alone _ _ _ _ _ Hf HA) in Hs'.
Qed.

Lemma committed_sound : sound_step w w' minted committed committed' K K' gs gs.
Proof.
  destruct after_commit_rest as [Ht Ha]. split; [exact committed_good|exact committed_fits| |done|done|].
  - intros id [[s Hs]|Hid]; left; [|by right]. left. exists s. by apply after_commit_own.
  - intros K2 gs2 _. apply committed_others.
Qed.
End Committed.

(** ** Every call *)

Lemma touches_put p f q : touches [Put p f] q → q = p.
Proof. by intros (e & ->%list_elem_of_singleton & <-). Qed.
Lemma touches_remove p q : touches [Remove p] q → q = p.
Proof. by intros (e & ->%list_elem_of_singleton & <-). Qed.
Lemma touches_rename from to f q : touches [Put to f; Remove from] q → q = to ∨ q = from.
Proof.
  intros (e & He & <-). apply elem_of_cons in He as [->|He]; [by left|]. apply list_elem_of_singleton in He as ->. by right.
Qed.

(** An update of the temporary file of the request's own payload. *)
Lemma sound_upload_file w minted committed K gs id l (g : progress → progress) :
  good w minted committed → fits w minted committed K gs → owns K id →
  (∀ q, touches l q → q = UploadFile id) →
  (∀ s, progress_ok (w_disk w) id s → progress_ok (update l (w_disk w)) id (g s)) →
  sound_step w (on_disk (update l) w) minted committed committed K (advance id g K) gs gs.
Proof.
  intros Hg Hf Hown Hl Hprog. apply sound_update; try done.
  - intros id' Ht. apply Hl in Ht as [= ->]. left. by left.
  - intros id' Ht. by apply Hl in Ht.
  - intros id' s (s0 & Hs0 & ->)%owns_advance. split; [by eexists|].
    destruct (fits_own _ _ _ _ _ Hf _ _ Hs0) as [_ Hp]. case_bool_decide as Heq.
    + subst id'. by apply Hprog.
    + apply progress_update; [done| |]; intros Ht; by apply Hl in Ht as [= ->].
  - intros id' Hid. by right.
  - apply Hf.
Qed.

(** An update of files no request knows about. *)
Lemma sound_elsewhere w minted committed K gs l :
  good w minted committed → fits w minted committed K gs →
  (∀ q id, touches l q → q ≠ UploadFile id ∧ q ≠ PayloadFile id) →
  sound_step w (on_disk (update l) w) minted committed committed K K gs gs.
Proof.
  intros Hg Hf Hl. apply sound_update; try done.
  - intros id Ht. by destruct (Hl _ id Ht).
  - intros id Ht. by destruct (Hl _ id Ht).
  - intros id s Hs. split; [by eexists|]. apply progress_update; [by eapply fits_own| |]; intros Ht; by destruct (Hl _ id Ht).
  - intros id Hid. by right.
  - apply Hf.
Qed.

Lemma fits_advance_staging w minted committed K gs id :
  fits w minted committed K gs → fits w minted committed (advance id (λ _, Staging) K) gs.
Proof.
  intros Hf. eapply fits_disk; [exact Hf|done| |done|done|done| |apply Hf].
  - intros id' s (s0 & Hs0 & ->)%owns_advance. split; [by eexists|]. case_bool_decide; [done|]. by eapply fits_own.
  - intros id' Hid. by right.
Qed.

Lemma sound_advance_staging w minted committed K gs id :
  good w minted committed → fits w minted committed K gs →
  sound_step w w minted committed committed K (advance id (λ _, Staging) K) gs gs.
Proof.
  intros Hg Hf. apply sound_same; try done; [by apply fits_advance_staging|].
  intros id' [[s (s0 & Hs0 & ->)%owns_advance]|Hid]; left; [left; by eexists|by right].
Qed.

Lemma sound_remove w minted committed K gs p f r w' gs' :
  good w minted committed → fits w minted committed K gs → allowed encryption K (RemoveFile p) →
  perform capacity (RemoveFile p) f w gs = (r, w', gs') →
  sound_step w w' minted committed committed K (after K (RemoveFile p) r) gs gs' ∧ gs' = gs.
Proof.
  intros Hg Hf Hal Hrun. cbn in Hrun.
  assert (Hstay : sound_step w w minted committed committed K (after K (RemoveFile p) r) gs gs).
  { destruct p; cbn [after]; (by apply fits_same) || (by apply sound_advance_staging). }
  destruct f; [|by injection Hrun as <- <- <-]. destruct (lookup_file p w) as [file|]; [|by injection Hrun as <- <- <-].
  injection Hrun as <- <- <-. split; [|done]. clear Hstay. unfold drop_file.
  destruct p as [id|id|id|id]; cbn [after allowed] in *; try (apply sound_elsewhere; [done..|]; by intros q id' ->%touches_remove).
  all: apply sound_update; try done; try (by intros id' [= ->]%touches_remove); try (by intros id' ?%touches_remove);
    try (intros id' Hid; by right); try apply Hf.
  - intros id' [= ->]%touches_remove. destruct Hal; [left; by left|by right].
  - intros id' s (s0 & Hs0 & ->)%owns_advance. split; [by eexists|]. case_bool_decide as Heq; [done|].
    apply progress_update; [by eapply fits_own| |]; intros Ht%touches_remove; congruence.
  - intros id' s (s0 & Hs0 & ->)%owns_advance. split; [by eexists|]. case_bool_decide as Heq; [done|].
    apply progress_update; [by eapply fits_own| |]; intros Ht%touches_remove; congruence.
Qed.

Lemma lookup_put (d : Disk path) p f : cache (update [Put p f] d) !! p = Some f.
Proof. cbn. apply lookup_insert_eq. Qed.

Lemma sound_rename w minted committed K gs id file :
  good w minted committed → fits w minted committed K gs → owns K id → lookup_file (UploadFile id) w = Some file →
  sound_step w (on_disk (update [Put (PayloadFile id) file; Remove (UploadFile id)]) w) minted committed committed K
    (advance id (λ s, match s with Written b => Moved b | _ => Staging end) K) gs gs.
Proof.
  intros Hg Hf Hown Hfile. apply sound_update; try done; try (intros id' Hid; by right); try apply Hf.
  - intros id' [?|[= ->]]%touches_rename; [done|]. left. by left.
  - intros id' [[= ->]|?]%touches_rename; [by left|done].
  - intros id' s (s0 & Hs0 & ->)%owns_advance. split; [by eexists|].
    destruct (fits_own _ _ _ _ _ Hf _ _ Hs0) as [_ Hp]. case_bool_decide as Heq.
    + subst id'. destruct s0; try done. cbn [progress_ok update cache apply_effects foldl apply_effect] in *.
      rewrite lookup_delete_ne by done. rewrite lookup_insert_eq. unfold lookup_file in Hfile. congruence.
    + apply progress_update; [done| |]; intros [Ht|Ht]%touches_rename; congruence.
Qed.

Lemma sound_sync_directory w minted committed K gs dir :
  good w minted committed → fits w minted committed K gs →
  sound_step w (on_disk (sync_directory parent dir) w) minted committed committed K (after K (SyncDirectory dir) (Ok ())) gs gs.
Proof.
  intros Hg Hf. cbn [after on_ok].
  assert (Hstay : sound_step w (on_disk (sync_directory parent dir) w) minted committed committed K K gs gs).
  { apply sound_sync; try done. intros id s Hs. split; [by eexists|]. apply progress_sync. by eapply fits_own. }
  destruct (k_own K) as [[id s]|] eqn:Hs; [|done]. destruct s as [|b|b|b|b]; try done. case_bool_decide as Hd; [|done].
  apply sound_sync; try done. intros id' s' [= <- <-]. split; [by eexists|]. subst dir. cbn [progress_ok].
  apply sync_settles; [apply Hg|]. by destruct (fits_own _ _ _ _ _ Hf _ _ Hs).
Qed.

Lemma sound_get_upload w minted committed K gs upload :
  good w minted committed → fits w minted committed K gs → (k_token K = Some upload → is_Some (k_own K)) →
  let r := get_multipart_upload upload (w_catalog w) in
  sound_step w w minted committed committed K (after K (GetUpload upload) r) gs gs ∧ plausible capacity (GetUpload upload) r.
Proof.
  intros Hg Hf Hstart r. split.
  - cbn [after]. destruct r as [u|] eqn:Hu; [|by apply fits_same]. destruct (u_state u) as [|id] eqn:Hst; [by apply fits_same|].
    case_bool_decide as Ht; [|by apply fits_same].
    assert (Hc : completing (w_catalog w) upload id) by by exists u.
    assert (Hn : id ∉ committed) by (eapply (fits_token _ _ _ _ _ Hf); [exact Ht|by apply Hstart|exact Hc]).
    apply sound_same; try done.
    + split; cbn [with_own k_own k_dead k_token k_alone].
      * intros id' s [= <- <-]. done.
      * intros id' [[s [= <- <-]]|Hid]; [by eapply good_completing|]. apply (fits_minted _ _ _ _ _ Hf). by right.
      * apply Hf.
      * intros id' u' [[s [= <- <-]]|Hid] Hc'; [|by eapply (fits_completing _ _ _ _ _ Hf); [right|]].
        by rewrite (good_unique _ _ _ Hg _ _ _ Hc' Hc Hn).
      * intros u' id' Hu' _ Hc'. by eapply (fits_token _ _ _ _ _ Hf); [|apply Hstart|].
      * apply Hf.
      * intros HA. destruct (Hstart Ht) as [o Ho]. by rewrite (fits_alone _ _ _ _ _ Hf HA) in Ho.
    + intros id' [[s [= <- <-]]|Hid]; [right; by eauto|left; by right].
  - cbn [plausible]. intros u Hu. destruct (upload_row _ _ _ _ (inv_multipart _ (good_catalog _ _ _ Hg)) _ _ Hu) as (Hid & Hok & _).
    split_and!; [done|done|]. intros id Hst. apply (good_ids _ _ _ Hg), (good_completing _ _ _ Hg upload). by exists u.
Qed.

Lemma sound_dead (w : World) (minted committed : gset bytes) (K : knowledge) (gs : list path) (D : gset bytes) :
  good w minted committed → fits w minted committed K gs →
  (∀ id, id ∈ D → (∀ x, claims (w_catalog w) x → pc_id x ≠ id) ∧ (k_alone K = true ∨ id ∈ committed)) →
  sound_step w w minted committed committed K (with_dead D K) gs gs.
Proof.
  intros Hg Hf HD. apply sound_same; try done; [|by intros id Hid; left].
  destruct Hf. split; try done. cbn. intros id [?|?]%elem_of_union; auto.
Qed.

Lemma payload_referenced_false c id x : payload_referenced id c = false → claims c x → pc_id x ≠ id.
Proof.
  unfold payload_referenced. intros [Hv Hp]%orb_false_iff Hx <-.
  destruct Hx as [(v & r & m & Hr & Hm & ->)|(k & p & Hpp & ->)].
  - apply not_true_iff_false in Hv. apply Hv. apply existsb_exists. exists r. split.
    + apply list_elem_of_In, list_elem_of_fmap. exists (v, r). split; [done|]. by apply elem_of_table_iter.
    + destruct r; [|done]. injection Hm as ->. by apply bool_decide_eq_true.
  - apply not_true_iff_false in Hp. apply Hp. apply existsb_exists. exists p. split.
    + apply list_elem_of_In, list_elem_of_fmap. exists (k, p). split; [done|]. by apply elem_of_table_iter.
    + by apply bool_decide_eq_true.
Qed.

Lemma pending_cleanup_queued limit c id : id ∈ pending_cleanup limit c → is_Some (CLEANUP c !! id).
Proof.
  unfold pending_cleanup. intros ([k v] & -> & Hk)%list_elem_of_fmap. apply elem_of_take in Hk as (i & Hi & _).
  apply list_elem_of_lookup_2, elem_of_table_iter in Hi. by eexists.
Qed.

Lemma sound_guard (w : World) (minted committed : gset bytes) (K : knowledge) (gs gs' : list path) :
  good w minted committed → fits w minted committed K gs →
  (∀ id, UploadFile id ∈ gs' → holds K gs id) → (∀ id, PayloadFile id ∉ gs') →
  sound_step w w minted committed committed K K gs gs'.
Proof.
  intros Hg Hf Hgs Hp. apply sound_same; try done.
  - eapply fits_disk; [exact Hf|done| |done..]. intros id s Hs. split; [by eexists|]. by eapply fits_own.
  - intros id [Ho|Hid]; left; [by left|by apply Hgs].
Qed.

(** ** The calls that write files *)

Section Writes.
Variables (w : World) (minted committed : gset bytes) (K : knowledge) (gs : list path).
Hypotheses (Hg : good w minted committed) (Hf : fits w minted committed K gs).
Notation stays K' w' := (sound_step w w' minted committed committed K K' gs gs).

Lemma sound_put_temporary p file g :
  allowed encryption K (CreateNew p) →
  (∀ id s, p = UploadFile id → progress_ok (w_disk w) id s → progress_ok (update [Put p file] (w_disk w)) id (g s)) →
  stays (match p with UploadFile id => advance id g K | _ => K end) (put_file p file w).
Proof.
  intros Hal Hprog. destruct p as [id|id|id|id]; cbn [allowed] in Hal; [| | |done].
  - apply sound_upload_file; [done..| |]; [by intros q ->%touches_put|]. intros s. by apply Hprog.
  - apply sound_elsewhere; [done..|]. by intros q id' ->%touches_put.
  - apply sound_elsewhere; [done..|]. by intros q id' ->%touches_put.
Qed.

Lemma sound_create p f r w' gs' :
  allowed encryption K (CreateNew p) → perform capacity (CreateNew p) f w gs = (r, w', gs') →
  sound_step w w' minted committed committed K (after K (CreateNew p) r) gs gs'.
Proof.
  intros Hal Hrun. cbn in Hrun.
  assert (Hno : stays (after K (CreateNew p) r) w) by (destruct p; cbn [after]; (by apply fits_same) || (by apply sound_advance_staging)).
  destruct f; [|by injection Hrun as <- <- <-]. destruct (lookup_file p w); injection Hrun as <- <- <-; [done|].
  pose proof (sound_put_temporary p {| content := []; synced := false |} (λ _, Staging) Hal ltac:(done)) as Hs. by destruct p.
Qed.

Lemma sound_write p data f r w' gs' :
  allowed encryption K (WriteFile p data) → perform capacity (WriteFile p data) f w gs = (r, w', gs') →
  sound_step w w' minted committed committed K (after K (WriteFile p data) r) gs gs' ∧ plausible capacity (WriteFile p data) r.
Proof.
  intros Hal Hrun. cbn in Hrun. assert (Hal' : allowed encryption K (CreateNew p)) by by destruct p.
  destruct f as [|garbage reason]; [destruct (Z.leb_spec (Z.of_nat (length data)) capacity)|]; injection Hrun as <- <- <-.
  - split; [|by intros _]. pose proof (sound_put_temporary p {| content := data; synced := false |} (λ _, Dirty data) Hal') as Hs.
    destruct p; cbn [after] in *; apply Hs; try done. intros id' s [= ->] _. apply lookup_put.
  - split; [|by intros [=]]. destruct p; cbn [after]; (by apply fits_same) || (by apply sound_advance_staging).
  - split; [|by intros [=]]. pose proof (sound_put_temporary p {| content := garbage; synced := false |} (λ _, Staging) Hal' ltac:(done)) as Hs.
    by destruct p.
Qed.

Lemma sound_sync_file p f r w' gs' :
  allowed encryption K (SyncFile p) → perform capacity (SyncFile p) f w gs = (r, w', gs') →
  sound_step w w' minted committed committed K (after K (SyncFile p) r) gs gs'.
Proof.
  intros Hal Hrun. cbn in Hrun. pose proof (fits_same _ _ _ _ _ Hf Hg) as Hstay.
  destruct f; [|by injection Hrun as <- <- <-; destruct p].
  destruct (lookup_file p w) as [file|] eqn:Hfile; injection Hrun as <- <- <-; [|by destruct p].
  pose proof (sound_put_temporary p {| content := content file; synced := true |}
    (λ s, match s with Dirty b => Written b | _ => Staging end)) as Hs.
  destruct p; cbn [after on_ok allowed] in *; apply Hs; try done. intros id' s [= ->] Hp. destruct s as [|b|b|b|b]; try done.
  cbn [progress_ok] in *. rewrite lookup_put. unfold lookup_file in Hfile. rewrite Hfile in Hp. by injection Hp as ->.
Qed.

Lemma sound_rename_call from to f r w' gs' :
  allowed encryption K (Rename from to) → perform capacity (Rename from to) f w gs = (r, w', gs') →
  sound_step w w' minted committed committed K (after K (Rename from to) r) gs gs'.
Proof.
  intros Hal Hrun. cbn in Hrun. pose proof (fits_same _ _ _ _ _ Hf Hg) as Hstay.
  destruct from as [id|id|id|id]; try (by destruct to); destruct to as [id'|id'|id'|id']; try done.
  - destruct Hal as [Hown ->]. destruct f; [|by injection Hrun as <- <- <-].
    destruct (lookup_file (UploadFile id) w) as [file|] eqn:Hfile; injection Hrun as <- <- <-; [|done]. by apply sound_rename.
  - destruct f; [|by injection Hrun as <- <- <-].
    destruct (lookup_file _ w) as [file|] eqn:Hfile; injection Hrun as <- <- <-; [|done].
    apply sound_elsewhere; [done..|]. by intros q id2 [->| ->]%touches_rename.
Qed.
End Writes.

(** A command answers with its own kind of outcome. *)
Lemma apply_command_fits command c o c' : apply_command_tx command c = (Ok o, c') → outcome_fits command o.
Proof. intros Hrun. destruct command; cbn [apply_command_tx outcome_fits] in *; try done; tx_step Hrun; by eexists. Qed.
Lemma perform_fits command f w gs r w' gs' :
  perform capacity (Commit command) f w gs = (r, w', gs') → plausible capacity (Commit command) r.
Proof.
  cbn. intros Hrun o ->. destruct f; [|discriminate]. destruct (commit_one command (w_catalog w)) as [r c'] eqn:Hone.
  injection Hrun as -> _ _. apply commit_one_ok in Hone. by eapply apply_command_fits.
Qed.

(** Every call a program may make. *)
Lemma perform_sound {R} (e : call R) f w gs r w' gs' K minted committed :
  good w minted committed → fits w minted committed K gs → allowed encryption K e → fresh_call e (w_catalog w) →
  perform capacity e f w gs = (r, w', gs') →
  sound_step w w' minted committed (committed ∪ commits e r) K (after K e r) gs gs' ∧ plausible capacity e r.
Proof.
  intros Hg Hf Hal Hfr Hrun.
  assert (Hnone : committed ∪ ∅ = committed) by set_solver.
  pose proof (fits_same _ _ _ _ _ Hf Hg) as Hstay.
  destruct e as [p|p data|p|from to|p|dir|dir|p| | |p|p|command|upload|id|limit|A query]; cbn [commits]; rewrite ?Hnone;
    try (cbn in Hrun; injection Hrun as <- <- <-; by split).
  - split; [by eapply sound_create|done].
  - by eapply sound_write.
  - split; [by eapply sound_sync_file|done].
  - split; [by eapply sound_rename_call|done].
  - destruct (sound_remove _ _ _ _ _ _ _ _ _ _ Hg Hf Hal Hrun) as [Hs ->]. done.
  - split; [|done]. cbn in Hrun. destruct f; injection Hrun as <- <- <-; [by apply sound_sync_directory|done].
  - split; [|done]. cbn in Hrun. injection Hrun as <- <- <-. apply sound_guard; [done..| |].
    + intros id [<-|Hid]%elem_of_cons; [by left|by right].
    + intros id [<-|Hid]%elem_of_cons; [done|by apply (fits_guards _ _ _ _ _ Hf id)].
  - split; [|done]. cbn in Hrun. injection Hrun as <- <- <-. apply sound_guard; [done..| |].
    + intros id [_ Hid]%list_elem_of_filter. by right.
    + intros id [_ Hid]%list_elem_of_filter. by apply (fits_guards _ _ _ _ _ Hf id).
  - split; [|by eapply perform_fits]. cbn in Hrun. destruct f as [|garbage reason].
    + destruct (commit_one_cases command (w_catalog w)) as [(o & c' & Hc & Hone)|[err Hone]]; rewrite Hone in Hrun;
        injection Hrun as <- <- <-; [by apply committed_sound|]. rewrite Hnone. by destruct w.
    + injection Hrun as <- <- <-. by rewrite Hnone.
  - cbn in Hrun. injection Hrun as <- <- <-. by apply sound_get_upload.
  - split; [|done]. cbn in Hrun. injection Hrun as <- <- <-. cbn [after]. destruct (k_alone K) eqn:HA; [|done]. cbn [andb].
    destruct (payload_referenced id (w_catalog w)) eqn:Href; [done|]. cbn [negb]. apply sound_dead; [done..|].
    intros id' ->%elem_of_singleton. split; [|by left]. intros x. by apply payload_referenced_false.
  - split; [|done]. cbn in Hrun. injection Hrun as <- <- <-. cbn [after]. apply sound_dead; [done..|].
    intros id' Hid%elem_of_list_to_set%pending_cleanup_queued. split; [|right; by apply Hg].
    intros x. apply claims_unqueued; [apply Hg|done].
Qed.
End Sound.
End StoreSound.
