(* ===== verification/StoreSafety.v ===== *)
(** * Payload safety

    The invariant of whole configurations of [StoreRuns], preserved by every event,
    crashes included; and the properties that follow. *)

From S2P Require Import Prelude Programs Bytes Tables Digest ObjectLock CoreTypes Keys Catalog Commands CatalogInv CatalogUploads Reachable Listing Auth Names Payload PayloadTheorems CatalogPayloads Disk LocalStore StoreRuns StoreContent StoreInv StoreSound.
Import Programs ObjectLock CoreTypes Keys Catalog Commands Listing CatalogInv Reachable Names Payload Disk CatalogUploads CatalogPayloads LocalStore StoreRuns StoreContent StoreInv StoreSound.

Module StoreSafety.

Section Safety.
Context `{HashFunction} `{HexCrate} `{Md5Crate} `{Auth.Cryptography_} `{!PayloadTheorems.AeadLaws} `{PublicationJson} `{StorageErrorText} `{UuidCrate}.
Variables (encryption : option ObjectEncryption) (capacity : Z).
Hypothesis Hcapacity : capacity ≤ u32_max * 65536.
Hypothesis Hencryption : from_option (λ enc, length (key_reference enc) = 16%nat) True encryption.
Implicit Types (c : Config) (K : knowledge) (gs : list path) (w : World) (minted committed : gset bytes).

(** What is known of one process. *)
Record process_ok c (p : process) K : Prop := {
  process_fits : fits (world c) (minted c) (committed c) K (guards p);
  process_token : k_token K = token p;
  process_safe : safe encryption capacity K (code p);
  process_alone : k_alone K = negb (serving c) }.

Record config_ok c (Ks : list knowledge) : Prop := {
  config_good : good encryption (world c) (minted c) (committed c);
  config_length : length Ks = length (pool c);
  config_processes : ∀ i p K, pool c !! i = Some p → Ks !! i = Some K → process_ok c p K;
  config_apart : ∀ i j p K p' K', i ≠ j → pool c !! i = Some p → Ks !! i = Some K → pool c !! j = Some p' → Ks !! j = Some K' →
    apart K (guards p) K' (guards p');
  config_alone : serving c = false → (length (pool c) ≤ 1)%nat }.

(** ** Guards *)

Lemma update_twice (l l' : list (effect path)) (d : Disk path) : update l' (update l d) = update (l ++ l') d.
Proof. unfold update. cbn. by rewrite disk_effects_app, app_assoc. Qed.

Lemma drop_guards_update gs kept w :
  ∃ l, drop_guards gs kept w = on_disk (update l) w ∧ ∀ p, touches l p → p ∈ gs.
Proof.
  revert kept w. induction gs as [|p gs IH]; intros kept w; cbn [drop_guards].
  - exists []. split; [|by intros p (e & ?%elem_of_nil & _)]. unfold on_disk, update. cbn. rewrite app_nil_r.
    by destruct w as [? []].
  - destruct (IH (tail kept) (if default false (head kept) then w else drop_file p w)) as (l & -> & Hl).
    destruct (default false (head kept)).
    + exists l. split; [done|]. intros q Hq. right. by apply Hl.
    + exists ([Remove p] ++ l). split.
      * unfold drop_file, on_disk. cbn [w_catalog w_disk]. by rewrite update_twice.
      * intros q (e & He & <-). apply elem_of_app in He as [->%list_elem_of_singleton|He]; [by left|]. right. apply Hl. by exists e.
Qed.

Lemma dropped_good w minted committed gs kept :
  good encryption w minted committed → (∀ id, PayloadFile id ∉ gs) → good encryption (drop_guards gs kept w) minted committed.
Proof.
  intros Hg Hgs. destruct (drop_guards_update gs kept w) as (l & -> & Hl). apply good_update; [done|].
  intros id x Ht. by apply Hl, Hgs in Ht.
Qed.

Lemma dropped_fits w minted committed gs kept K gs2 :
  fits w minted committed K gs2 → (∀ id, PayloadFile id ∉ gs) → (∀ id, UploadFile id ∈ gs → ¬ owns K id) →
  fits (drop_guards gs kept w) minted committed K gs2.
Proof.
  intros Hf Hgs Hown. destruct (drop_guards_update gs kept w) as (l & -> & Hl).
  eapply fits_disk; [exact Hf|done| |done|done|done| |apply Hf].
  - intros id s Hs. split; [by eexists|]. apply progress_update; [by eapply fits_own| |].
    + intros Ht. apply (Hown id); [by apply Hl|by eexists].
    + intros Ht. by apply Hl, Hgs in Ht.
  - intros id Hid. by right.
Qed.

(** ** Apartness *)

Lemma apart_sym K gs K2 gs2 : apart K gs K2 gs2 → apart K2 gs2 K gs.
Proof. intros [Hh Ht]. split; [intros id Hb Ha; by apply (Hh id)|]. intros u Hu Ha. by apply (Ht u). Qed.

Lemma apart_step w w' minted committed committed' K K' gs gs' K2 gs2 :
  sound_step encryption w w' minted committed committed' K K' gs gs' → fits w minted committed K2 gs2 →
  apart K gs K2 gs2 → apart K' gs' K2 gs2.
Proof.
  intros Hs Hf2 [Hh Ht]. split.
  - intros id Hid Hid2. destruct (sound_holds _ _ _ _ _ _ _ _ _ _ Hs id Hid) as [Hold|(u & Hu & Hc)]; [by apply (Hh id)|].
    apply (Ht u Hu). by eapply fits_completing.
  - rewrite (sound_token _ _ _ _ _ _ _ _ _ _ Hs). exact Ht.
Qed.

(** ** The pool after a step *)

(** One process moves from [p] to [p'] and all others stay. *)
Lemma config_moved c c' Ks i p K p' K' :
  config_ok c Ks → pool c !! i = Some p → Ks !! i = Some K →
  good encryption (world c') (minted c') (committed c') →
  process_ok c' p' K' → pool c' = <[i := p']> (pool c) → serving c' = serving c →
  (∀ K2 gs2, apart K (guards p) K2 gs2 → k_alone K2 = k_alone K → k_alone K2 = false → fits (world c) (minted c) (committed c) K2 gs2 →
     fits (world c') (minted c') (committed c') K2 gs2 ∧ apart K' (guards p') K2 gs2) →
  config_ok c' (<[i := K']> Ks).
Proof.
  intros [Cg Cl Cp Ca Cs] Hi HKi Hg Hp' Hpool Hserv Hother.
  assert (Hlt : (i < length (pool c))%nat) by by eapply lookup_lt_Some.
  assert (Holds : ∀ j q K2, i ≠ j → pool c !! j = Some q → Ks !! j = Some K2 →
    fits (world c') (minted c') (committed c') K2 (guards q) ∧ apart K' (guards p') K2 (guards q) ∧ process_ok c q K2).
  { intros j q K2 Hne Hq HK2. pose proof (Cp _ _ _ Hi HKi) as Hpi. pose proof (Cp _ _ _ Hq HK2) as Hqj.
    assert (Hal : k_alone K2 = k_alone K) by by rewrite (process_alone _ _ _ Hqj), (process_alone _ _ _ Hpi).
    destruct (serving c) eqn:Hs.
    - destruct (Hother K2 (guards q)) as [? ?]; [by eapply Ca|done|by rewrite (process_alone _ _ _ Hqj), Hs|apply Hqj|done].
    - specialize (Cs eq_refl). apply lookup_lt_Some in Hq. lia. }
  split.
  - done.
  - by rewrite Hpool, !length_insert.
  - intros j q K2. rewrite Hpool. destruct (decide (i = j)) as [<-|Hne].
    + rewrite !list_lookup_insert_eq by lia. by intros [= <-] [= <-].
    + rewrite !list_lookup_insert_ne by done. intros Hq HK2. destruct (Holds _ _ _ Hne Hq HK2) as (Hf & _ & [_ Q2 Q3 Q4]).
      split; try done. by rewrite Hserv.
  - intros j j' q K2 q' K2' Hne. rewrite Hpool. destruct (decide (i = j)) as [<-|Hj], (decide (i = j')) as [<-|Hj']; [done|..].
    + rewrite !list_lookup_insert_eq, !list_lookup_insert_ne by (lia || done). intros [= <-] [= <-] Hq HK2. by eapply Holds.
    + rewrite !(list_lookup_insert_eq), !(list_lookup_insert_ne) by (lia || done). intros Hq HK2 [= <-] [= <-].
      apply apart_sym. by eapply Holds.
    + rewrite !list_lookup_insert_ne by done. intros. by eapply Ca; [exact Hne|eassumption..].
  - rewrite Hpool, length_insert, Hserv. done.
Qed.

Lemma removed_lookup {X} (l : list X) i j : (take i l ++ drop (S i) l) !! j = l !! (if (j <? i)%nat then j else S j).
Proof.
  rewrite <-delete_take_drop. destruct (Nat.ltb_spec j i).
  - by rewrite list_lookup_delete_lt.
  - by rewrite list_lookup_delete_ge.
Qed.

(** One process ends and all others stay. *)
Lemma config_ended c c' Ks i p K :
  config_ok c Ks → pool c !! i = Some p → Ks !! i = Some K →
  good encryption (world c') (minted c') (committed c') →
  pool c' = take i (pool c) ++ drop (S i) (pool c) → (serving c = true → serving c' = true) →
  (∀ K2 gs2, apart K (guards p) K2 gs2 → k_alone K2 = k_alone K → k_alone K2 = false → fits (world c) (minted c) (committed c) K2 gs2 →
     fits (world c') (minted c') (committed c') K2 gs2) →
  config_ok c' (take i Ks ++ drop (S i) Ks).
Proof.
  intros [Cg Cl Cp Ca Cs] Hi HKi Hg Hpool Hserv Hother.
  assert (Hlt : (i < length (pool c))%nat) by by eapply lookup_lt_Some.
  set (nth_ := λ j, if (j <? i)%nat then j else S j).
  assert (Hn : ∀ j, nth_ j ≠ i) by (intros j; unfold nth_; destruct (Nat.ltb_spec j i); lia).
  assert (Hinj : ∀ j j', j ≠ j' → nth_ j ≠ nth_ j') by (intros j j'; unfold nth_; destruct (Nat.ltb_spec j i), (Nat.ltb_spec j' i); lia).
  split.
  - done.
  - rewrite Hpool, !length_app, !length_take, !length_drop. lia.
  - intros j q K2. rewrite Hpool, !removed_lookup. fold (nth_ j). intros Hq HK2.
    pose proof (Cp _ _ _ Hi HKi) as Hpi. pose proof (Cp _ _ _ Hq HK2) as Hqj.
    destruct (serving c) eqn:Hs; [|specialize (Cs eq_refl); apply lookup_lt_Some in Hq; specialize (Hn j); lia].
    destruct Hqj as [Q1 Q2 Q3 Q4]. rewrite Hs in Q4. split; try done.
    + apply Hother; [eapply Ca; [|exact Hi|exact HKi|exact Hq|exact HK2]; specialize (Hn j); lia| |done|done].
      by rewrite Q4, (process_alone _ _ _ Hpi), Hs.
    + by rewrite Q4, Hserv.
  - intros j j' q K2 q' K2' Hne. rewrite Hpool, !removed_lookup. intros. by eapply Ca; [apply Hinj, Hne|eassumption..].
  - intros Hs'. rewrite Hpool, length_app, length_take, length_drop.
    destruct (serving c) eqn:Hs; [by rewrite Hserv in Hs'|]. specialize (Cs eq_refl). lia.
Qed.

(** ** Events *)

Lemma no_commits committed : committed ∪ ∅ = committed.
Proof. set_solver. Qed.

(** A process performs a call and goes on or ends. *)
Lemma continue_ok c Ks i p K (rest : prog reply) gs kept w fresh K' :
  config_ok c Ks → pool c !! i = Some p → Ks !! i = Some K →
  sound_step encryption (world c) w (minted c) (committed c) (committed c ∪ fresh) K K' (guards p) gs →
  safe encryption capacity K' rest →
  ∃ Ks', config_ok (continue i p rest gs kept w fresh c) Ks'.
Proof.
  intros Hc Hi HKi Hs Hsafe. pose proof (config_processes _ _ Hc _ _ _ Hi HKi) as [P1 P2 P3 P4].
  assert (Hgs : ∀ id, PayloadFile id ∉ gs) by apply (sound_fits _ _ _ _ _ _ _ _ _ _ Hs).
  destruct rest as [a|R e k].
  - exists (take i Ks ++ drop (S i) Ks). eapply config_ended; [exact Hc|exact Hi|exact HKi| |done| |]; cbn [continue world minted committed serving].
    + apply dropped_good; [apply Hs|done].
    + by intros ->.
    + intros K2 gs2 Hap HA HA2 Hf2. apply dropped_fits; [|done|].
      * apply (sound_others _ _ _ _ _ _ _ _ _ _ Hs); [congruence|done..].
      * intros id Hid Ho. destruct (apart_step _ _ _ _ _ _ _ _ _ _ _ Hs Hf2 Hap) as [Hh _].
        apply (Hh id); [by right|by left].
  - exists (<[i := K']> Ks). eapply config_moved; [exact Hc|exact Hi|exact HKi| | |done|done|]; cbn [continue world minted committed serving guards].
    + apply Hs.
    + split; cbn [world minted committed guards token code serving]; [apply Hs| |done|].
      * by rewrite (sound_token _ _ _ _ _ _ _ _ _ _ Hs).
      * by rewrite (sound_alone _ _ _ _ _ _ _ _ _ _ Hs).
    + intros K2 gs2 Hap HA HA2 Hf2. split.
      * apply (sound_others _ _ _ _ _ _ _ _ _ _ Hs); [congruence|done..].
      * by eapply apart_step.
Qed.

Lemma run_ok c Ks i f kept c' :
  config_ok c Ks → exec encryption capacity (Run i f kept) c = Some c' → ∃ Ks', config_ok c' Ks'.
Proof.
  intros Hc Hrun. cbn [exec] in Hrun. destruct (pool c !! i) as [p|] eqn:Hi; [|discriminate]. cbn [mbind option_bind] in Hrun.
  destruct (lookup_lt_is_Some_2 Ks i) as [K HK]; [rewrite (config_length _ _ Hc); by eapply lookup_lt_Some|].
  pose proof (config_processes _ _ Hc _ _ _ Hi HK) as [P1 P2 P3 P4]. destruct (code p) as [a|R e k].
  - apply (inj Some) in Hrun as <-. eapply continue_ok; [done..| |exact P3]. rewrite no_commits. apply fits_same; [done|apply Hc].
  - destruct (decide (fresh_call e (w_catalog (world c)))) as [Hfr|]; [|discriminate].
    destruct (perform capacity e f (world c) (guards p)) as [[r w] gs] eqn:Hp. apply (inj Some) in Hrun as <-. destruct P3 as [Hal Hk].
    destruct (perform_sound encryption capacity e f _ _ _ _ _ _ _ _ (config_good _ _ Hc) P1 Hal Hfr Hp) as [Hs Hpl].
    eapply continue_ok; [done..|exact Hs|by apply Hk].
Qed.

(** Knowledge that does not depend on temporary files. *)
Definition weaken K : knowledge :=
  with_own ((λ '(id, s), (id, match s with InPlace b => InPlace b | _ => Staging end)) <$> k_own K) K.

Lemma owns_weaken K id : owns (weaken K) id ↔ owns K id.
Proof. unfold owns, weaken. cbn. destruct (k_own K) as [[id' s]|]; cbn; naive_solver. Qed.

Lemma allowed_weaken {R} K (e : call R) : allowed encryption K e → allowed encryption (weaken K) e.
Proof.
  assert (Hin : ∀ x, introduced_ok encryption K x → introduced_ok encryption (weaken K) x).
  { intros x (b & Ho & Hr). exists b. split; [|done]. unfold weaken. cbn. by rewrite Ho. }
  assert (Hsome : is_Some (k_own K) → is_Some (k_own (weaken K))) by (intros [o Ho]; cbn; rewrite Ho; by eexists).
  destruct e as [[]|[] ?|[]|[] []|[]|?|?|?| | |[]|?|command|?|?|?|? ?]; cbn [allowed]; try done; rewrite ?owns_weaken; try done.
  - destruct command; cbn [command_allowed]; try done; rewrite ?owns_weaken; try done.
    + intros (? & ? & ?). auto.
    + intros (? & ?). auto.
  - intros Hu Ht. by apply Hsome, Hu.
Qed.

Lemma weaken_fits w minted committed K gs kept :
  fits w minted committed K gs → fits (drop_guards gs kept w) minted committed (weaken K) [].
Proof.
  intros Hf. destruct (drop_guards_update gs kept w) as (l & -> & Hl).
  assert (Hpay : ∀ id, ¬ touches l (PayloadFile id)) by (intros id Ht; by apply Hl, (fits_guards _ _ _ _ _ Hf) in Ht).
  eapply fits_disk; [exact Hf|done| |done|done|done| |].
  - intros id s. unfold weaken. cbn [with_own k_own]. destruct (k_own K) as [[id' s']|] eqn:Hs; [|done]. intros [= -> <-].
    split; [by eexists|]. destruct s'; try done. destruct (fits_own _ _ _ _ _ Hf _ _ Hs) as [_ Hp]. cbn [progress_ok] in *.
    apply settled_update; [done|]. by apply untouched_file.
  - by intros id ?%elem_of_nil.
  - by intros id ?%elem_of_nil.
Qed.

Lemma cancel_ok c Ks i first f kept c' :
  config_ok c Ks → exec encryption capacity (Cancel i first f kept) c = Some c' → ∃ Ks', config_ok c' Ks'.
Proof.
  intros Hc Hrun. cbn [exec] in Hrun. destruct (pool c !! i) as [p|] eqn:Hi; [|discriminate]. cbn [mbind option_bind] in Hrun.
  destruct (serving c) eqn:Hserv; [|discriminate]. cbn [negb] in Hrun.
  destruct (lookup_lt_is_Some_2 Ks i) as [K HK]; [rewrite (config_length _ _ Hc); by eapply lookup_lt_Some|].
  pose proof (config_processes _ _ Hc _ _ _ Hi HK) as [P1 P2 P3 P4]. destruct (code p) as [a|R e k]; [discriminate|].
  destruct P3 as [Hal Hk]. destruct first.
  - destruct (decide (fresh_call e (w_catalog (world c)))) as [Hfr|]; [|discriminate].
    destruct (perform capacity e f (world c) (guards p)) as [[r w] gs] eqn:Hp. injection Hrun as <-.
    destruct (perform_sound encryption capacity e f _ _ _ _ _ _ _ _ (config_good _ _ Hc) P1 Hal Hfr Hp) as [Hs _].
    exists (take i Ks ++ drop (S i) Ks). eapply config_ended; [exact Hc|exact Hi|exact HK| |done|done|]; cbn [world minted committed serving].
    + apply dropped_good; [apply Hs|apply (fits_guards _ _ _ _ _ P1)].
    + intros K2 gs2 Hap HA HA2 Hf2. apply dropped_fits; [|apply (fits_guards _ _ _ _ _ P1)|].
      * apply (sound_others _ _ _ _ _ _ _ _ _ _ Hs); [congruence|done..].
      * intros id Hid Ho. destruct Hap as [Hh _]. apply (Hh id); [by right|by left].
  - injection Hrun as <-. exists (<[i := weaken K]> Ks).
    eapply config_moved; [exact Hc|exact Hi|exact HK| | |done|done|]; cbn [world minted committed serving guards].
    + apply dropped_good; [apply Hc|apply (fits_guards _ _ _ _ _ P1)].
    + split; cbn [world minted committed guards token code serving]; [by apply weaken_fits|done| |cbn; by rewrite P4, Hserv].
      split; [by apply allowed_weaken|done].
    + intros K2 gs2 Hap HA HA2 Hf2. split.
      * apply dropped_fits; [done|apply (fits_guards _ _ _ _ _ P1)|]. intros id Hid Ho. destruct Hap as [Hh _]. apply (Hh id); [by right|by left].
      * destruct Hap as [Hh Ht]. split; [|done]. intros id [Ho|Hid]; [|by apply elem_of_nil in Hid].
        apply Hh. left. by apply owns_weaken.
Qed.

Lemma good_mint w minted committed id :
  good encryption w minted committed → uuid_ok id → good encryption w (minted ∪ {[id]}) committed.
Proof.
  intros Hg Hid. destruct Hg. split; try done.
  - set_solver.
  - intros id' [?| ->%elem_of_singleton]%elem_of_union; [by apply good_ids0|done].
  - intros u id' Hc. apply elem_of_union_l. by eapply good_completing0.
Qed.
Lemma fits_mint w minted committed K gs (more : gset bytes) :
  fits w minted committed K gs → fits w (minted ∪ more) committed K gs.
Proof. intros Hf. destruct Hf. split; try done. intros id Hid. apply elem_of_union_l. by apply fits_minted0. Qed.

Lemma initial_fits w minted committed r :
  good encryption w minted committed →
  from_option (λ id, id ∉ minted) True (drawn r) →
  (∀ u upload id, completes r = Some u → MULTIPART (w_catalog w) !! u = Some upload → u_state upload = Completing id → id ∉ committed) →
  fits w (minted ∪ from_option (λ id, {[id]}) ∅ (drawn r)) committed (initial r) [].
Proof.
  intros Hg Hd Hu. assert (Hown : ∀ id, owns (initial r) id → drawn r = Some id).
  { intros id [s Hs]. cbn in Hs. destruct (drawn r); [|done]. cbn in Hs. by injection Hs as <- <-. }
  assert (Hnew : ∀ id, drawn r = Some id → id ∉ minted) by (intros id Hid; by rewrite Hid in Hd).
  split.
  - intros id s Hs. cbn in Hs. destruct (drawn r) as [id'|] eqn:Hr; [|done]. injection Hs as <- <-. split; [|done].
    intros Hc. apply (Hnew id' eq_refl). by apply Hg.
  - intros id [Ho|Hid]; [|by apply elem_of_nil in Hid]. rewrite (Hown id Ho). cbn. set_solver.
  - by intros id ?%elem_of_empty.
  - intros id u [Ho|Hid] Hc; [|by apply elem_of_nil in Hid]. destruct (Hnew id); [by apply Hown|]. by eapply good_completing.
  - intros u id Ht _ (upload & Hup & Hst). by eapply Hu.
  - by intros id ?%elem_of_nil.
  - done.
Qed.

Lemma may_start_ok c r :
  may_start c r = true →
  serving c = true ∧ request_ok r ∧ from_option (λ id, id ∉ minted c) True (drawn r) ∧
  (∀ u, completes r = Some u → (∀ p, p ∈ pool c → token p ≠ Some u) ∧
     ∀ upload id, MULTIPART (w_catalog (world c)) !! u = Some upload → u_state upload = Completing id → id ∉ committed c).
Proof.
  unfold may_start. intros [[[Hs Hr%bool_decide_eq_true]%andb_true_iff Hd]%andb_true_iff Hu]%andb_true_iff.
  split_and!; [done|done| |].
  - destruct (drawn r); [|done]. by apply bool_decide_eq_true in Hd.
  - intros u Hcu. rewrite Hcu in Hu. apply andb_true_iff in Hu as [Hf Hu]. split.
    + intros p Hp Ht. rewrite forallb_forall in Hf. specialize (Hf p ltac:(by apply list_elem_of_In)).
      by rewrite bool_decide_eq_true_2 in Hf.
    + intros upload id Hup Hst. unfold get_multipart_upload in Hu. rewrite Hup, Hst in Hu. by apply bool_decide_eq_true in Hu.
Qed.

Lemma drawn_ok r id : request_ok r → drawn r = Some id → uuid_ok id.
Proof. destruct r; cbn; try done; intros Hok [= <-]; apply Hok. Qed.

Lemma start_ok c Ks r :
  config_ok c Ks → may_start c r = true → config_ok (start encryption r c) (Ks ++ [initial r]).
Proof.
  intros [Cg Cl Cp Ca Cs] (Hserv & Hreq & Hd & Htok)%may_start_ok.
  set (more := from_option (λ id, {[id]}) (∅ : gset bytes) (drawn r)).
  assert (Hgood : good encryption (world c) (minted c ∪ more) (committed c)).
  { unfold more. destruct (drawn r) as [id|] eqn:Hr; cbn; [|by rewrite no_commits]. apply good_mint; [done|]. by eapply drawn_ok. }
  set (new := {| code := program encryption r; guards := []; token := completes r |}).
  assert (Hnew : process_ok (start encryption r c) new (initial r)).
  { split; [|done|by apply request_safe|cbn; by rewrite Hserv]. apply initial_fits; [done..|]. intros u upload id Hu. by apply Htok. }
  assert (Hap : ∀ j q K2, pool c !! j = Some q → Ks !! j = Some K2 → apart (initial r) [] K2 (guards q)).
  { intros j q K2 Hq HK2. pose proof (Cp _ _ _ Hq HK2) as Hqj. split.
    - intros id [[s Hs]|Hid] Hh2; [|by apply elem_of_nil in Hid]. cbn in Hs. destruct (drawn r) as [id'|]; [|done]. injection Hs as <- <-.
      cbn in Hd. apply Hd. by apply (fits_minted _ _ _ _ _ (process_fits _ _ _ Hqj)).
    - intros u Hu Ht. destruct (Htok u Hu) as [Hno _]. apply (Hno q); [by eapply list_elem_of_lookup_2|].
      by rewrite <-(process_token _ _ _ Hqj). }
  assert (Hcase : ∀ j q K2, (pool c ++ [new]) !! j = Some q → (Ks ++ [initial r]) !! j = Some K2 →
    (pool c !! j = Some q ∧ Ks !! j = Some K2) ∨ (j = length (pool c) ∧ q = new ∧ K2 = initial r)).
  { intros j q K2 Hq HK2. apply lookup_app_Some in Hq as [Hq|[Hge Hq]], HK2 as [HK2|[Hge2 HK2]].
    - by left.
    - apply lookup_lt_Some in Hq. lia.
    - apply lookup_lt_Some in HK2. lia.
    - right. apply lookup_lt_Some in Hq as Hlt. cbn in Hlt. assert (j = length (pool c)) as -> by lia.
      rewrite Nat.sub_diag in Hq. rewrite Cl, Nat.sub_diag in HK2. cbn in Hq, HK2. by simplify_eq. }
  split.
  - done.
  - cbn. rewrite !length_app. cbn. lia.
  - intros j q K2 Hq HK2. destruct (Hcase _ _ _ Hq HK2) as [[Hq' HK2']|(-> & -> & ->)]; [|done].
    destruct (Cp _ _ _ Hq' HK2') as [Q1 Q2 Q3 Q4]. split; try done. by apply fits_mint.
  - intros j j' q K2 q' K2' Hne Hq HK2 Hq' HK2'.
    destruct (Hcase _ _ _ Hq HK2) as [[H1' H2']|(-> & -> & ->)], (Hcase _ _ _ Hq' HK2') as [[H3' H4']|(-> & -> & ->)].
    + by eapply Ca; [exact Hne|eassumption..].
    + apply apart_sym. by eapply Hap.
    + by eapply Hap.
    + done.
  - cbn. by rewrite Hserv.
Qed.

Lemma crash_ok c Ks mask garbage c' :
  config_ok c Ks → exec encryption capacity (Crash mask garbage) c = Some c' → config_ok c' [].
Proof.
  intros Hc [= <-]. destruct Hc as [Cg _ _ _ _]. split; try done; [|intros _; cbn; lia].
  destruct Cg. split; try done. cbn. intros x Hx. destruct (good_stored0 x Hx) as (b & Hb & Hr). exists b. split; [|done].
  by apply settled_crash.
Qed.

Definition opening : knowledge := {| k_own := None; k_dead := ∅; k_token := None; k_alone := true |}.
Lemma reopen_ok c Ks fuel c' :
  config_ok c Ks → exec encryption capacity (Reopen fuel) c = Some c' → config_ok c' [opening].
Proof.
  intros [Cg _ _ _ _] Hrun. cbn [exec] in Hrun. destruct (bool_decide _ && _) eqn:Hb; [|discriminate].
  apply andb_true_iff in Hb as [Hp%bool_decide_eq_true Hs%negb_true_iff]. apply (inj Some) in Hrun as <-.
  split; cbn [pool world minted committed serving].
  - done.
  - done.
  - intros i p K Hi HK. destruct i; [|done]. apply (inj Some) in Hi, HK. subst p K.
    split; try done; cbn [world minted committed guards code].
    + split; try done; first [by intros id [[s [=]]|?%elem_of_nil]|by intros id u [[s [=]]|?%elem_of_nil]
        |by intros id ?%elem_of_empty|by intros u id _ [o [=]]|by intros id ?%elem_of_nil].
    + apply wp_bind, wp_open; done.
  - intros i j p K p' K' Hne Hi _ Hj _. destruct i, j; done.
  - intros _. cbn. lia.
Qed.

Lemma exec_ok e c Ks c' : config_ok c Ks → exec encryption capacity e c = Some c' → ∃ Ks', config_ok c' Ks'.
Proof.
  intros Hc Hrun. destruct e.
  - cbn [exec] in Hrun. destruct (may_start c r) eqn:Hm; [|discriminate]. apply (inj Some) in Hrun as <-.
    eexists. by apply start_ok.
  - by eapply run_ok.
  - by eapply cancel_ok.
  - eexists. by eapply crash_ok.
  - eexists. by eapply reopen_ok.
Qed.

Lemma installed_ok : config_ok installed [].
Proof.
  assert (Hn : ∀ {A} (k : bytes) (x : A), (∅ : gmap bytes A) !! k = Some x → False)
    by (intros A k x; by rewrite lookup_empty).
  assert (Hclaims : ∀ x, ¬ claims empty_catalog x).
  { intros x [(v & r & m & Hx & _)|(k & p & Hx & _)]; by apply Hn in Hx. }
  split; try done; [|intros _; cbn; lia]. split; cbn [installed world w_catalog w_disk]; try done.
  - apply empty_inv.
  - intros x Hx. by apply Hclaims in Hx.
  - intros x Hx. by apply Hclaims in Hx.
  - intros id [x Hx]. by apply Hn in Hx.
  - intros u id (up & Hu & _). by apply Hn in Hu.
  - intros u u' id (up & Hu & _). by apply Hn in Hu.
Qed.

Lemma run_events_ok es c Ks c' : config_ok c Ks → run_events encryption capacity es c = Some c' → ∃ Ks', config_ok c' Ks'.
Proof.
  revert c Ks. induction es as [|e es IH]; intros c Ks Hc Hrun; cbn [run_events] in Hrun.
  - injection Hrun as <-. by exists Ks.
  - destruct (exec encryption capacity e c) as [c1|] eqn:He; [|discriminate]. cbn [mbind option_bind] in Hrun.
    destruct (exec_ok _ _ _ _ Hc He) as [Ks1 Hc1]. by eapply IH.
Qed.

(** ** Properties *)

(** C3: committed payloads survive interleaving, failures and crashes. In every state
    the storage engine reaches by serving puts, part uploads, completions, deletions,
    version deletions, cleanups and the catalog commands of the service layer, and by
    its start-up recovery, with these interleaved in any way, file system calls
    failing, requests abandoned half-way, and crashes at any moment (each keeping any
    part of the directory updates that were not synced), the payload of every version
    and of every uploaded part in the catalog is in its file, reads back in full and
    over any byte range without an error, and has the recorded size and digest.
    Online repair is not among the requests: it can remove the payload of an upload
    in progress ([repair_removes_upload]). Assumed are that at most one completion of
    an upload is in progress and none restarts after it committed ([may_start]; see
    [concurrent_completions_lose_payload]), that drawn identifiers are new, that a
    file holds at most 2^32 - 1 chunks of 64 KiB ([capacity]), that a key reference
    has 16 bytes, and that syncing a directory makes its entries durable. *)
Theorem committed_payloads_survive (es : list event) (c : Config) (x : PayloadClaim)
    (Hrun : run_events encryption capacity es installed = Some c) (Hx : claims (w_catalog (world c)) x) :
  ∃ f data, lookup_file (PayloadFile (pc_id x)) (world c) = Some f ∧
    reads_as encryption x (content f) data ∧
    Z.of_nat (length data) = pc_size x ∧ checksum_sha256 data = pc_checksum x.
Proof.
  destruct (run_events_ok _ _ _ _ installed_ok Hrun) as [Ks Hc].
  destruct (good_stored _ _ _ _ (config_good _ _ Hc) x Hx) as (b & (Hb & _) & data & Hr & Hl & Hd).
  by exists {| content := b; synced := true |}, data.
Qed.

(** C37: payloads are owned, and cleanup is safe. In every state the storage engine
    reaches (with the requests and the assumptions of [committed_payloads_survive]),
    no two versions, no two parts, and no version and part share a payload, and a
    payload queued for deletion belongs to no version and to no part. That the
    payload a request commits is in no use is proved of the engine here, not assumed. *)
Theorem payloads_owned (es : list event) (c : Config) (Hrun : run_events encryption capacity es installed = Some c) :
  payloads_ok (VERSIONS (w_catalog (world c))) (PARTS (w_catalog (world c))) (CLEANUP (w_catalog (world c))).
Proof.
  destruct (run_events_ok _ _ _ _ installed_ok Hrun) as [Ks Hc]. exact (good_owned _ _ _ _ (config_good _ _ Hc)).
Qed.

End Safety.
End StoreSafety.
