(* ===== verification/StoreTheorems.v ===== *)
(** * One upload at a time

    What [put] of [LocalStore] does when it runs alone on a machine that works: the
    bytes of the upload can be read back, in full and over any range; a digest that
    does not match leaves nothing behind. *)

From S2P Require Import Prelude Programs Bytes Tables Digest ObjectLock CoreTypes Keys Catalog Commands CatalogInv CatalogSteps CatalogUploads Reachable ObjectTheorems Listing Auth Names ProofBundleTheorems Payload PayloadTheorems CatalogPayloads Disk LocalStore StoreRuns StoreContent StoreInv StoreSound StoreSafety.
Import Programs ObjectLock CoreTypes Keys Catalog Commands Listing CatalogInv CatalogSteps Reachable ObjectTheorems Names Payload Disk CatalogUploads CatalogPayloads LocalStore StoreRuns StoreContent StoreInv StoreSound StoreSafety.

Module StoreTheorems.

Lemma filter_without (p : path) (gs : list path) : p ∉ gs → filter (λ q, q ≠ p) gs = gs.
Proof.
  induction gs as [|q gs IH]; [done|]. intros [Hq Hgs]%not_elem_of_cons. rewrite filter_cons, decide_True by done. by rewrite IH.
Qed.

Lemma filter_both (p q : path) : filter (λ r, r ≠ q) (filter (λ r, r ≠ p) [q; p]) = [].
Proof.
  apply elem_of_nil_inv. intros r [Hq [Hp Hr]%list_elem_of_filter]%list_elem_of_filter. revert Hr. set_solver.
Qed.

Section Alone.
Context `{HashFunction} `{HexCrate} `{Md5Crate} `{Auth.Cryptography_} `{PublicationJson} `{StorageErrorText} `{UuidCrate}.
Variables (encryption : option ObjectEncryption) (capacity : Z).

Lemma run_to_bind {A B} (p : prog A) (f : A → prog B) w gs :
  run_to capacity (bind p f) w gs = let '(a, w, gs) := run_to capacity p w gs in run_to capacity (f a) w gs.
Proof.
  revert w gs. induction p as [a|R e k IH]; intros w gs; [done|]. cbn [bind run_to].
  destruct (perform capacity e Works w gs) as [[r w1] gs1]. apply IH.
Qed.
Lemma run_to_call {R B} (e : call R) (f : R → prog B) w gs :
  run_to capacity (bind (perform_call e) f) w gs =
    let '(r, w, gs) := perform capacity e Works w gs in run_to capacity (f r) w gs.
Proof. reflexivity. Qed.
Lemma run_to_trying {E A B} (p : prog (result E A)) (f : A → prog (result E B)) w gs :
  run_to capacity (trying p f) w gs =
    let '(r, w, gs) := run_to capacity p w gs in
    match r with Ok a => run_to capacity (f a) w gs | Err e => (Err e, w, gs) end.
Proof. unfold trying. rewrite run_to_bind. by destruct (run_to capacity p w gs) as [[[a|e] ?] ?]. Qed.

(** ** The worlds along the way *)

Definition staged (id data : bytes) (w : World) : World :=
  put_file (UploadFile id) {| content := data; synced := true |}
    (put_file (UploadFile id) {| content := data; synced := false |}
       (put_file (UploadFile id) {| content := []; synced := false |} w)).

Definition recorded (id : bytes) (record : PublicationRecord) (w : World) : World :=
  on_disk (sync_directory parent TemporaryDirectory)
    (on_disk (update [Put (PublicationFile id) {| content := encode_record record; synced := true |}; Remove (PartialRecord id)])
       (put_file (PartialRecord id) {| content := encode_record record; synced := true |}
          (put_file (PartialRecord id) {| content := encode_record record; synced := false |}
             (put_file (PartialRecord id) {| content := []; synced := false |} w)))).

Definition published (id data : bytes) (w : World) : World :=
  on_disk (sync_directory parent (parent (PayloadFile id)))
    (on_disk (update [Put (PayloadFile id) {| content := data; synced := true |}; Remove (UploadFile id)]) w).

Lemma lookup_put_file p f w q : lookup_file q (put_file p f w) = if decide (q = p) then Some f else lookup_file q w.
Proof.
  unfold lookup_file, put_file, on_disk. cbn. case_decide as Hq; [subst; apply lookup_insert_eq|].
  by rewrite lookup_insert_ne.
Qed.
Lemma lookup_renamed from to f w q : from ≠ to →
  lookup_file q (on_disk (update [Put to f; Remove from]) w) =
    if decide (q = to) then Some f else if decide (q = from) then None else lookup_file q w.
Proof.
  intros Hne. unfold lookup_file, on_disk. cbn. repeat case_decide; subst; try done.
  - by rewrite lookup_delete_ne, lookup_insert_eq.
  - apply lookup_delete_eq.
  - by rewrite lookup_delete_ne, lookup_insert_ne.
Qed.
Lemma lookup_sync_directory dir w q : lookup_file q (on_disk (sync_directory parent dir) w) = lookup_file q w.
Proof. done. Qed.

Lemma lookup_recorded id record w q :
  q ≠ PublicationFile id → q ≠ PartialRecord id → lookup_file q (recorded id record w) = lookup_file q w.
Proof.
  intros Hp Hr. unfold recorded. rewrite lookup_sync_directory, lookup_renamed by done.
  rewrite !decide_False by done. rewrite !lookup_put_file. by rewrite !decide_False.
Qed.

Lemma run_stage id body expected draws written data w gs :
  write_payload encryption id body draws = Ok (written, data) → Z.of_nat (length data) ≤ capacity →
  lookup_file (UploadFile id) w = None →
  run_to capacity (stage encryption id (Ret body) expected draws) w gs =
    (match expected with
     | Some expected => if bool_decide (expected = w_checksum written) then Ok written
                        else Err (ChecksumMismatch expected (w_checksum written))
     | None => Ok written
     end, staged id data w, UploadFile id :: gs).
Proof.
  intros Hw Hcap Hnone. unfold stage. rewrite run_to_call. cbn [perform].
  rewrite run_to_trying. cbn [perform_call run_to perform]. rewrite Hnone.
  rewrite run_to_bind. cbn [run_to]. rewrite run_to_trying. cbn [run_to]. rewrite Hw.
  rewrite run_to_trying. cbn [perform_call run_to perform]. rewrite (proj2 (Z.leb_le _ _)) by done.
  rewrite run_to_trying. cbn [perform_call run_to perform]. rewrite lookup_put_file, decide_True by done.
  cbn [content run_to]. destruct expected as [c|]; [|done]. by case_bool_decide.
Qed.

Lemma run_record id record w gs :
  lookup_file (PartialRecord id) w = None → Z.of_nat (length (encode_record record)) ≤ capacity →
  PartialRecord id ∉ gs →
  run_to capacity (write_publication_record id record) w gs = (Ok (), recorded id record w, gs).
Proof.
  intros Hnone Hcap Hgs. unfold write_publication_record.
  rewrite run_to_trying. cbn [perform_call run_to perform]. rewrite Hnone. rewrite run_to_call. cbn [perform].
  rewrite run_to_trying. cbn [perform_call run_to perform]. rewrite (proj2 (Z.leb_le _ _)) by done.
  rewrite run_to_trying. cbn [perform_call run_to perform]. rewrite lookup_put_file, decide_True by done.
  rewrite run_to_trying. cbn [perform_call run_to perform content]. rewrite lookup_put_file, decide_True by done.
  rewrite run_to_call. cbn [perform perform_call run_to]. unfold recorded. f_equal.
  rewrite filter_cons, decide_False by (by intros ?). by apply filter_without.
Qed.

Lemma lookup_restored p w w' q :
  lookup_file p w = None → (q ≠ p → lookup_file q w' = lookup_file q w) → lookup_file q (drop_file p w') = lookup_file q w.
Proof.
  intros Hp Hq. destruct (decide (q = p)) as [->|Hne]; unfold lookup_file, drop_file, on_disk in *; cbn.
  - by rewrite lookup_delete_eq.
  - rewrite lookup_delete_ne by done. by apply Hq.
Qed.

Lemma run_cleanup p w gs : ∃ w',
  run_to capacity (cleanup_file p) w gs = (true, w', gs) ∧ w_catalog w' = w_catalog w ∧
  lookup_file p w' = None ∧ ∀ q, q ≠ p → lookup_file q w' = lookup_file q w.
Proof.
  unfold cleanup_file. rewrite run_to_call. cbn [perform]. destruct (lookup_file p w) as [f|] eqn:Hf; eexists.
  - split; [reflexivity|]. split; [done|]. unfold lookup_file. cbn. split; [apply lookup_delete_eq|].
    intros q Hq. by rewrite lookup_delete_ne.
  - done.
Qed.

(** The payload of a replaced version is removed and taken off the queue. *)
Lemma run_remove_queued id w gs : ∃ w',
  run_to capacity (remove_queued_payload_id id) w gs = ((), w', gs) ∧
  OBJECTS (w_catalog w') = OBJECTS (w_catalog w) ∧ ∀ q, q ≠ PayloadFile id → lookup_file q w' = lookup_file q w.
Proof.
  unfold remove_queued_payload_id. rewrite run_to_call. cbn [perform]. destruct (lookup_file (PayloadFile id) w) as [f|].
  - rewrite run_to_call. cbn [perform]. eexists. split; [reflexivity|]. cbn. split; [done|]. intros q Hq.
    unfold lookup_file. cbn. by rewrite lookup_delete_ne.
  - rewrite run_to_call. cbn [perform]. eexists. split; [reflexivity|]. done.
Qed.

Lemma run_remove_all (l : list ObjectMetadata) w gs : ∃ w',
  run_to capacity (for_each (λ previous, remove_queued_payload_id (o_id previous)) l) w gs = ((), w', gs) ∧
  OBJECTS (w_catalog w') = OBJECTS (w_catalog w) ∧
  ∀ q, q ∉ (PayloadFile <$> (o_id <$> l)) → lookup_file q w' = lookup_file q w.
Proof.
  revert w. induction l as [|m l IH]; intros w; cbn [for_each]; [by exists w|]. rewrite run_to_bind.
  destruct (run_remove_queued (o_id m) w gs) as (w1 & -> & Ho1 & Hl1). destruct (IH w1) as (w2 & -> & Ho2 & Hl2).
  exists w2. split; [done|]. split; [congruence|]. intros q [Hq Hqs]%not_elem_of_cons. by rewrite Hl2, Hl1.
Qed.

(** The versions a committed upload replaces use other payloads. *)
Lemma put_commits m lock origin c o c' :
  Inv c → fresh_payload c (o_id m) → commit_one (PutObject m lock origin) c = (Ok o, c') →
  ∃ cleanup, o = ObjectCommitOutcome cleanup ∧ o_id m ∉ (o_id <$> cleanup) ∧
    OBJECTS c' !! object_key (o_bucket_id m) (o_key m) = Some m.
Proof.
  intros Hinv [Hf _] Hrun. apply commit_one_ok in Hrun. cbn [apply_command_tx] in Hrun. tx_step Hrun.
  destruct (put_object_ok _ _ _ _ _ _ Hinv Ha) as (b & ro & f & c1 & _ & Hro & _ & _ & _ & -> & _ & -> & Hj).
  eexists. split; [done|]. apply journals_iter in Hj as (fe & fc & ->). unfold put_counters, put_rows, bump_counter. tables.
  split; [|apply lookup_insert_eq].
  destruct ro as [r|]; [|set_solver]. destruct Hro as (_ & Hr & _). specialize (Hf _ _ Hr). cbn in *.
  destruct (as_object r) as [m'|]; [|set_solver]. cbn in *. intros Hin%list_elem_of_singleton. congruence.
Qed.

(** ** The properties *)

(** The body of an upload, and the room it needs on the device. *)
Definition items_of (request : PutObjectRequest) : UploadStream := match put_body request with Ret items => items | Vis _ _ => [] end.
Lemma items_received request : received (put_body request) → put_body request = Ret (items_of request).
Proof. unfold items_of. by destruct (put_body request). Qed.
Definition fits_device (request : PutObjectRequest) (draws : Draws) (written : WrittenPayload) (data : bytes) : Prop :=
  write_payload encryption (dr_object_id draws) (items_of request) draws = Ok (written, data) ∧
  Z.of_nat (length data) ≤ capacity ∧
  Z.of_nat (length (encode_record {| pr_object_id := dr_object_id draws; pr_bucket_id := Some (put_bucket_id request);
                                     pr_key := Some (put_key request) |})) ≤ capacity.
(** No temporary file of the upload exists. *)
Definition unused (id : bytes) (w : World) : Prop :=
  lookup_file (UploadFile id) w = None ∧ lookup_file (PartialRecord id) w = None ∧
  lookup_file (PublicationFile id) w = None ∧ lookup_file (PayloadFile id) w = None.

(** The error an upload is refused with, if any: its digest is checked first, then
    the catalog decides. *)
Definition wrong_digest (request : PutObjectRequest) (written : WrittenPayload) : option StorageError :=
  expected ← put_expected_checksum request;
  if bool_decide (expected = w_checksum written) then None else Some (ChecksumMismatch expected (w_checksum written)).
Definition refusal (request : PutObjectRequest) (draws : Draws) (written : WrittenPayload) (c : Catalog) : option StorageError :=
  match wrong_digest request written with
  | Some e => Some e
  | None =>
      match (commit_one (PutObject (committed_metadata request (dr_object_id draws) written draws) (put_object_lock request)
               (put_origin request)) c).1 with
      | Ok _ => None
      | Err e => Some (StorageMetadata e)
      end
  end.

Lemma digest_checked request written :
  match put_expected_checksum request with
  | Some expected => if bool_decide (expected = w_checksum written) then Ok written
                     else Err (ChecksumMismatch expected (w_checksum written))
  | None => Ok written
  end = match wrong_digest request written with Some e => Err e | None => Ok written end.
Proof. unfold wrong_digest. destruct (put_expected_checksum request); [|done]. cbn. by case_bool_decide. Qed.

(** The upload up to its commit. *)
Lemma run_put_to_commit w request draws b written data :
  request_ok (Put_ request draws) → get_bucket (put_bucket_id request) (w_catalog w) = Some b →
  fits_device request draws written data → unused (dr_object_id draws) w →
  wrong_digest request written = None →
  let id := dr_object_id draws in
  let m := committed_metadata request id written draws in
  ∃ w', w_catalog w' = w_catalog w ∧
    lookup_file (PayloadFile id) w' = Some {| content := data; synced := true |} ∧
    lookup_file (UploadFile id) w' = None ∧ lookup_file (PartialRecord id) w' = None ∧
    (∀ q, q ≠ UploadFile id → q ≠ PartialRecord id → q ≠ PublicationFile id → q ≠ PayloadFile id →
       lookup_file q w' = lookup_file q w) ∧
    run_to capacity (put encryption request draws) w [] =
      run_to capacity (commit ←! Commit (PutObject m (put_object_lock request) (put_origin request));
        match decoded into_object_commit commit with
        | Ok cleanup =>
            _ ←- cleanup_file (PublicationFile id);
            _ ←- for_each (λ previous, remove_queued_payload_id (o_id previous)) cleanup;
            Ret (Ok m)
        | Err e => _ ←- discard_published id; Ret (Err (StorageMetadata e))
        end)%prog w' [].
Proof.
  intros (_ & _ & _ & Hid & Hbody) Hb (Hw & Hcap & Hrec) (Hup & Hpart & _) Hsum id m.
  unfold fits_device in *. fold id in Hw, Hup, Hpart, Hrec. unfold put. rewrite run_to_call. cbn [perform]. rewrite Hb, Hid. cbn [default from_option]. fold id.
  rewrite run_to_trying, (items_received _ Hbody), (run_stage _ _ _ _ _ _ _ _ Hw Hcap Hup).
  rewrite digest_checked, Hsum. rewrite run_to_call. cbn [perform].
  rewrite run_to_trying, run_record; [| |done|set_solver].
  2:{ unfold staged. rewrite !lookup_put_file. by rewrite !decide_False. }
  rewrite run_to_trying. cbn [perform_call run_to perform].
  rewrite run_to_trying. cbn [perform_call run_to perform].
  assert (Hstaged : lookup_file (UploadFile id) (recorded id {| pr_object_id := id; pr_bucket_id := Some (put_bucket_id request);
    pr_key := Some (put_key request) |} (staged id data w)) = Some {| content := data; synced := true |}).
  { rewrite lookup_recorded by done. unfold staged. by rewrite lookup_put_file, decide_True. }
  rewrite Hstaged. rewrite run_to_call. cbn [perform]. rewrite run_to_call. cbn [perform]. rewrite run_to_call. cbn [perform].
  exists (published id data (recorded id {| pr_object_id := id; pr_bucket_id := Some (put_bucket_id request);
    pr_key := Some (put_key request) |} (staged id data w))). unfold published.
  split; [done|]. split; [by rewrite lookup_sync_directory, lookup_renamed, decide_True|].
  split; [by rewrite lookup_sync_directory, lookup_renamed, decide_False, decide_True|].
  split; [|split; [|by rewrite filter_both]].
  - rewrite lookup_sync_directory, lookup_renamed, !decide_False by done. unfold recorded.
    rewrite lookup_sync_directory, lookup_renamed by done. by rewrite decide_False, decide_True.
  - intros q H1' H2' H3' H4'. rewrite lookup_sync_directory, lookup_renamed, !decide_False, lookup_recorded by done.
    unfold staged. rewrite !lookup_put_file. by rewrite !decide_False.
Qed.

(** a refused upload leaves nothing. When the digest the client sent is not that
    of the body, or else the catalog refuses the version, the upload answers with that
    error, and the catalog and every file are what they were. *)
Theorem refused_put_leaves_nothing (w : World) (request : PutObjectRequest) (draws : Draws) (b : Bucket) (written : WrittenPayload)
    (data : bytes) (e : StorageError)
    (Hreq : request_ok (Put_ request draws)) (Hb : get_bucket (put_bucket_id request) (w_catalog w) = Some b)
    (Hdevice : fits_device request draws written data) (Hunused : unused (dr_object_id draws) w)
    (Hrefused : refusal request draws written (w_catalog w) = Some e) :
  ∃ w', run_alone capacity (put encryption request draws) w = (Err e, w') ∧ w_catalog w' = w_catalog w ∧
    ∀ q, lookup_file q w' = lookup_file q w.
Proof.
  unfold refusal in Hrefused. destruct (wrong_digest request written) as [e'|] eqn:Hsum.
  - injection Hrefused as ->. destruct Hreq as (_ & _ & _ & Hid & Hbody), Hdevice as (Hw & Hcap & _), Hunused as (Hup & _).
    unfold run_alone, put. rewrite run_to_call. cbn [perform]. rewrite Hb, Hid. cbn [default from_option].
    rewrite run_to_trying, (items_received _ Hbody), (run_stage _ _ _ _ _ _ _ _ Hw Hcap Hup), digest_checked, Hsum. eexists. split; [reflexivity|].
    split; [done|]. intros q. unfold staged. cbn [drop_guards head default]. apply lookup_restored; [done|].
    intros Hq. rewrite !lookup_put_file. by rewrite !decide_False.
  - destruct (run_put_to_commit _ _ _ _ _ _ Hreq Hb Hdevice Hunused Hsum) as (w1 & Hc1 & Hf1 & Hu1 & Hp1 & Hq1 & Hrun).
    unfold run_alone. rewrite Hrun. rewrite run_to_call. cbn [perform]. rewrite Hc1.
    destruct (commit_one _ (w_catalog w)) as [[o|r] c'] eqn:Hcommit; [discriminate|]. injection Hrefused as <-.
    assert (Hc' : c' = w_catalog w) by (match type of Hcommit with commit_one ?cmd ?c = _ => destruct (commit_one_cases cmd c) as [(?&?&_&?)|[? ?]] end; congruence).
    cbn [decoded mbind result_bind]. unfold discard_published. rewrite !run_to_bind.
    destruct (run_cleanup (PayloadFile (dr_object_id draws)) {| w_catalog := c'; w_disk := w_disk w1 |} []) as (w2 & -> & Hc2 & Hn2 & Hl2).
    rewrite run_to_bind. destruct (run_cleanup (PublicationFile (dr_object_id draws)) w2 []) as (w3 & -> & Hc3 & Hn3 & Hl3).
    exists w3. split; [done|]. split; [by rewrite Hc3, Hc2|]. destruct Hunused as (Hup & Hpart & Hpub & Hpay). intros q.
    destruct (decide (q = PublicationFile (dr_object_id draws))) as [->|H1']; [by rewrite Hn3, Hpub|]. rewrite Hl3 by done.
    destruct (decide (q = PayloadFile (dr_object_id draws))) as [->|H2']; [by rewrite Hn2, Hpay|]. rewrite Hl2 by done.
    destruct (decide (q = UploadFile (dr_object_id draws))) as [->|H3']; [by rewrite Hup|].
    destruct (decide (q = PartialRecord (dr_object_id draws))) as [->|H4']; [by rewrite Hpart|]. by apply Hq1.
Qed.

Context `{!PayloadTheorems.AeadLaws}.
Hypothesis Hcapacity : capacity ≤ u32_max * 65536.
Hypothesis Hencryption : from_option (λ enc, length (key_reference enc) = 16%nat) True encryption.

(** C34: an upload can be read back when no other request runs in between and the device
    does not fail. An upload the catalog accepts answers with its
    metadata and becomes the current object of its key; no temporary file is left;
    a whole read, and a read of any byte range, delivers the bytes of the request, of
    the size and digest the metadata records. *)
Theorem put_get_roundtrip (w : World) (request : PutObjectRequest) (draws : Draws) (b : Bucket) (written : WrittenPayload)
    (data : bytes) (Hinv : Inv (w_catalog w)) (Hreq : request_ok (Put_ request draws)) (Hb : get_bucket (put_bucket_id request) (w_catalog w) = Some b)
    (Hdevice : fits_device request draws written data) (Hunused : unused (dr_object_id draws) w)
    (Hfresh : fresh_payload (w_catalog w) (dr_object_id draws))
    (Haccepted : refusal request draws written (w_catalog w) = None) :
  let m := committed_metadata request (dr_object_id draws) written draws in
  ∃ w' x, run_alone capacity (put encryption request draws) w = (Ok m, w') ∧
    get_object (put_bucket_id request) (put_key request) (w_catalog w') = Some m ∧
    lookup_file (UploadFile (o_id m)) w' = None ∧ lookup_file (PartialRecord (o_id m)) w' = None ∧
    lookup_file (PublicationFile (o_id m)) w' = None ∧
    lookup_file (PayloadFile (o_id m)) w' = Some {| content := data; synced := true |} ∧
    collected (items_of request) = Some x ∧ reads_as encryption (claim_of_object m) data x ∧
    Z.of_nat (length x) = o_size m ∧ checksum_sha256 x = o_checksum m.
Proof.
  intros m. unfold refusal in Haccepted. destruct (wrong_digest request written) eqn:Hsum; [discriminate|].
  destruct (commit_one _ (w_catalog w)) as [[o|] c'] eqn:Hcommit; [|discriminate].
  destruct (run_put_to_commit _ _ _ _ _ _ Hreq Hb Hdevice Hunused Hsum) as (w1 & Hc1 & Hf1 & Hu1 & Hp1 & _ & Hrun).
  destruct (put_commits m _ _ _ _ _ Hinv Hfresh Hcommit) as (cleanup & -> & Hother & Hobj).
  destruct Hreq as (Hdraws & _). destruct Hdevice as (Hw & Hcap & _).
  destruct (write_payload_reads encryption capacity Hcapacity Hencryption _ _ _ _ _ Hw (proj1 Hdraws) Hdraws Hcap)
    as [(x & Hx & Hr & Hl & Hd) _].
  unfold run_alone. rewrite Hrun. rewrite run_to_call. cbn [perform]. rewrite Hc1, Hcommit. fold m.
  cbn [decoded mbind result_bind into_object_commit]. set (w2 := {| w_catalog := c'; w_disk := w_disk w1 |}).
  rewrite run_to_bind. destruct (run_cleanup (PublicationFile (dr_object_id draws)) w2 []) as (w3 & -> & Hc3 & Hn3 & Hl3).
  rewrite run_to_bind. destruct (run_remove_all cleanup w3 []) as (w4 & -> & Ho4 & Hl4). cbn [run_to drop_guards].
  exists w4, x. split; [done|]. split; [unfold get_object; by rewrite Ho4, Hc3|].
  assert (Hq : ∀ q, q ∉ (PayloadFile <$> (o_id <$> cleanup)) → q ≠ PublicationFile (dr_object_id draws) →
                 lookup_file q w4 = lookup_file q w1) by (intros q H1' H2'; by rewrite Hl4, Hl3).
  assert (Hnp : ∀ q, (∀ id, q ≠ PayloadFile id) → q ∉ (PayloadFile <$> (o_id <$> cleanup))).
  { intros q Hne (id & -> & _)%list_elem_of_fmap. by apply (Hne id). }
  split; [by rewrite Hq; [|by apply Hnp|]|]. split; [by rewrite Hq; [|by apply Hnp|]|].
  split; [by rewrite Hl4 by by apply Hnp|]. split; [|done].
  rewrite Hq; [done| |done]. intros (id & [= <-] & Hin)%list_elem_of_fmap. by apply Hother.
Qed.
End Alone.
End StoreTheorems.

(** * Concrete runs of the storage engine

    An upload, a second one that a crash interrupts, and the recovery; the properties
    of [StoreSafety] and [StoreTheorems] at these inputs. *)

Import Programs ObjectLock CoreTypes Keys Catalog Commands Listing CatalogInv Reachable Samples Names Payload PayloadTheorems Disk CatalogPayloads LocalStore StoreRuns StoreContent.

Module StoreSamples.
#[local] Existing Instances ProofBundleSamples.sample_hex sha256_function PayloadSamples.tagging PayloadSamples.tagging_laws PayloadSamples.sample_md5 sample_uuids.

#[local] Instance sample_records : PublicationJson := {|
  encode_record r := pr_object_id r;
  decode_record b := Some {| pr_object_id := b; pr_bucket_id := None; pr_key := None |} |}.
#[local] Instance sample_texts : StorageErrorText := {| storage_error_text _ := str "error" |}.

Definition bucket : Bucket := sample_bucket Disabled no_quota None.
Definition draws (n : Z) : Draws :=
  {| dr_object_id := uid n; dr_version_id := uid (n + 100); dr_now := n; dr_data_key := Some (replicate 32 1);
     dr_content_nonce := Some (replicate 8 2); dr_wrap_nonce := Some (replicate 12 5) |}.
Definition upload_of (key body : bytes) : PutObjectRequest :=
  {| put_bucket_id := b_id bucket; put_key := key; put_content_type := None; put_custom_metadata := ∅;
     put_expected_checksum := Some (checksum_sha256 body); put_object_id := None; put_protocol_etag := None; put_object_lock := None;
     put_origin := Direct; put_body := Ret [Ok (take 4 body); Ok (drop 4 body)] |}.
Definition runs (n : nat) : list event := replicate n (Run 0 Works []).

(** ** A crash during an overwrite *)

Definition device : Z := 1000000.
Definition created : list event := Reopen 1 :: runs 4 ++ [Start (Command (CreateBucket bucket))] ++ runs 1.
Definition statement : bytes := str "quarterly statement".
Definition first_upload : PutObjectRequest := upload_of (str "report") statement.
Definition second_upload : PutObjectRequest := upload_of (str "report") (str "another").
Definition stored : list event := created ++ [Start (Put_ first_upload (draws 10))] ++ runs 20.
(** The overwrite stops after its file is in place; the crash keeps the last update
    of each directory that was not synced. *)
Definition interrupted : list event :=
  stored ++ [Start (Put_ second_upload (draws 11))] ++ runs 15 ++ [Crash [false; true; true] (λ _, str "?")].
Definition recovered : list event := interrupted ++ Reopen 1 :: runs 8.

Definition after_events (es : list event) : Config := default installed (run_events None device es installed).
Definition object : ObjectMetadata :=
  default (sample_object 1 [] 0 0) (get_object (b_id bucket) (str "report") (w_catalog (world (after_events stored)))).

Lemma committed_payloads_survive_witness :
  run_events None device recovered installed = Some (after_events recovered) ∧
  claims (w_catalog (world (after_events recovered))) (claim_of_object object) ∧
  ∃ f data, lookup_file (PayloadFile (uid 10)) (world (after_events recovered)) = Some f ∧
    reads_as None (claim_of_object object) (content f) data ∧
    Z.of_nat (length data) = 19 ∧ checksum_sha256 data = checksum_sha256 statement.
Proof.
  assert (Hrun : run_events None device recovered installed = Some (after_events recovered)) by (vm_compute; reflexivity).
  assert (Hx : claims (w_catalog (world (after_events recovered))) (claim_of_object object)).
  { left. exists (o_version_id object), (ObjectRecord object true), object. vm_compute. by split_and!. }
  split; [exact Hrun|]. split; [exact Hx|].
  pose proof (StoreSafety.committed_payloads_survive None device ltac:(done) I recovered _ _ Hrun Hx) as Hs.
  assert (Hid : pc_id (claim_of_object object) = uid 10) by (vm_compute; reflexivity).
  assert (Hsize : pc_size (claim_of_object object) = 19) by (vm_compute; reflexivity).
  assert (Hsum : pc_checksum (claim_of_object object) = checksum_sha256 statement) by (vm_compute; reflexivity).
  rewrite Hid, Hsize, Hsum in Hs. exact Hs.
Defined.

(** The overwrite is committed and the payload it replaced is queued. *)
Definition overwritten : list event := stored ++ [Start (Put_ second_upload (draws 11))] ++ runs 19.

Lemma payloads_owned_witness :
  let c := w_catalog (world (after_events overwritten)) in
  is_Some (CLEANUP c !! uid 10) ∧ ∀ v r m, VERSIONS c !! v = Some r → as_object r = Some m → CLEANUP c !! o_id m = None.
Proof.
  assert (Hrun : run_events None device overwritten installed = Some (after_events overwritten)) by (vm_compute; reflexivity).
  split; [vm_compute; by eexists|].
  exact (payload_version_kept _ _ _ (StoreSafety.payloads_owned None device ltac:(done) I overwritten _ Hrun)).
Defined.

(** ** An upload alone, encrypted *)

Definition serving_world : World := world (after_events created).
Definition key_holder : option ObjectEncryption := Some PayloadSamples.deployment.
Definition written_file : WrittenPayload * bytes :=
  match write_payload key_holder (uid 10) (StoreTheorems.items_of first_upload) (draws 10) with
  | Ok x => x
  | Err _ => ({| w_size := 0; w_checksum := checksum_sha256 []; w_etag := []; w_payload_format := Plaintext |}, [])
  end.

Lemma serving_world_inv : Inv (w_catalog serving_world).
Proof.
  assert (Hc : w_catalog serving_world = run [RecoverMultipartCompletions; CreateBucket bucket] empty_catalog) by (vm_compute; reflexivity).
  rewrite Hc. apply reachable_inv. eexists. split; [|reflexivity]. apply (bool_decide_unpack _). vm_compute. exact I.
Qed.
Lemma first_upload_fits : StoreTheorems.fits_device key_holder device first_upload (draws 10) written_file.1 written_file.2.
Proof. split_and!; vm_compute; congruence. Qed.

Lemma put_get_roundtrip_witness :
  ∃ w' x m, run_alone device (put key_holder first_upload (draws 10)) serving_world = (Ok m, w') ∧
    get_object (b_id bucket) (str "report") (w_catalog w') = Some m ∧
    collected (StoreTheorems.items_of first_upload) = Some x ∧ o_id m = uid 10 ∧ Z.of_nat (length x) = o_size m.
Proof.
  destruct (StoreTheorems.put_get_roundtrip key_holder device ltac:(done) eq_refl serving_world first_upload (draws 10) bucket
    written_file.1 written_file.2 serving_world_inv) as (w' & x & Hrun & Hget & _ & _ & _ & _ & Hx & _ & Hl & _).
  - apply (bool_decide_unpack _). vm_compute. exact I.
  - vm_compute. reflexivity.
  - exact first_upload_fits.
  - split_and!; vm_compute; reflexivity.
  - apply (bool_decide_unpack _). vm_compute. exact I.
  - vm_compute. reflexivity.
  - exists w', x, (committed_metadata first_upload (uid 10) written_file.1 (draws 10)). by split_and!.
Defined.

(** The same upload, announced with the digest of an empty body. *)
Definition misannounced : PutObjectRequest :=
  {| put_bucket_id := b_id bucket; put_key := str "report"; put_content_type := None; put_custom_metadata := ∅;
     put_expected_checksum := Some (checksum_sha256 []); put_object_id := None; put_protocol_etag := None; put_object_lock := None;
     put_origin := Direct; put_body := put_body first_upload |}.

Lemma refused_put_leaves_nothing_witness :
  ∃ e w', run_alone device (put key_holder misannounced (draws 10)) serving_world = (Err e, w') ∧
    w_catalog w' = w_catalog serving_world ∧ lookup_file (PayloadFile (uid 10)) w' = None.
Proof.
  destruct (StoreTheorems.refused_put_leaves_nothing key_holder device serving_world misannounced (draws 10) bucket
    written_file.1 written_file.2 (ChecksumMismatch (checksum_sha256 []) (w_checksum written_file.1))) as (w' & Hrun & Hc & Hl).
  - apply (bool_decide_unpack _). vm_compute. exact I.
  - vm_compute. reflexivity.
  - exact first_upload_fits.
  - split_and!; vm_compute; reflexivity.
  - vm_compute. reflexivity.
  - eexists _, w'. split; [exact Hrun|]. split; [exact Hc|]. rewrite Hl. vm_compute. reflexivity.
Defined.

(** ** Two completions of one upload *)

Definition multipart : MultipartUpload :=
  {| u_id := uid 40; u_bucket_id := b_id bucket; u_key := str "report"; u_content_type := None; u_custom_metadata := ∅;
     u_object_lock := None; u_initiated_at := 4000; u_state := Active |}.
Definition part_request : PutMultipartPartRequest :=
  {| part_upload_id := uid 40; part_number := 1; part_expected_checksum := None; part_body := StoreTheorems.items_of first_upload |}.
Definition uploaded : list event :=
  created ++ [Start (Command (CreateMultipartUpload multipart))] ++ runs 1 ++ [Start (PutPart part_request (draws 30))] ++ runs 10.
Definition completion : CompleteMultipartRequest :=
  {| cm_upload := multipart;
     cm_parts := match answers (after_events uploaded) !! 3%nat with Some (PartReply (Ok part)) => [part] | _ => [] end |}.
Definition racing : Config :=
  start None (Complete completion (draws 32)) (start None (Complete completion (draws 31)) (after_events uploaded)).
(** The first moves its file into place; the second stages its own; then the first
    runs to its end, and after it the second. *)
Definition race : list event := replicate 22 (Run 0 Works []) ++ replicate 8 (Run 1 Works []) ++ runs 23.
Definition raced : Config := default racing (run_events None device race racing).

(** two completions of the same upload that run at the same time can destroy it:
    the first is answered with the object, the second replaces the version it
    committed by one of the same payload, and removes that payload; the object
    remains in the catalog without its bytes. *)
Example concurrent_completions_lose_payload :
  run_events None device race racing = Some raced ∧
  (∃ m, answers raced !! 4%nat = Some (PutReply (Ok m)) ∧ o_id m = uid 31 ∧ o_size m = 19) ∧
  (∃ m, get_object (b_id bucket) (str "report") (w_catalog (world raced)) = Some m ∧ o_id m = uid 31) ∧
  lookup_file (PayloadFile (uid 31)) (world raced) = None.
Proof.
  split; [vm_compute; reflexivity|]. split; [eexists; split; [vm_compute; reflexivity|split; reflexivity]|].
  split; [eexists; split; [vm_compute; reflexivity|reflexivity]|]. vm_compute. reflexivity.
Qed.

(** ** A repair during an upload *)

Definition repairing : Config :=
  let c := after_events (created ++ [Start (Put_ first_upload (draws 10))] ++ runs 18) in
  {| world := world c;
     pool := pool c ++ [{| code := (x ←- repair 100 false; Ret (CleanupReply (snd <$> x)))%prog; guards := []; token := None |}];
     serving := serving c; answers := answers c; minted := minted c; committed := committed c |}.
Definition repaired : Config := default repairing (run_events None device (replicate 5 (Run 1 Works []) ++ runs 2) repairing).

(** a repair takes the payload of an upload that has not committed yet for an
    orphan: the upload is acknowledged, and its bytes are gone. *)
Example repair_removes_upload :
  answers repaired !! 2%nat = Some (CleanupReply (Ok 1)) ∧
  (∃ m, answers repaired !! 3%nat = Some (PutReply (Ok m)) ∧
     get_object (b_id bucket) (str "report") (w_catalog (world repaired)) = Some m ∧
     lookup_file (PayloadFile (o_id m)) (world repaired) = None).
Proof.
  split; [vm_compute; reflexivity|]. eexists. split; [vm_compute; reflexivity|]. split; vm_compute; reflexivity.
Qed.
End StoreSamples.
