(* ===== verification/Service.v ===== *)
(** * The service layer

    [crates/record-store-service]: the operations every protocol calls, as programs
    over the calls of the storage engine ([LocalStore]) and of the audit log. The
    locks per bucket only remove interleavings and are left out, as are the metrics;
    a permit is asked for ([Acquire]) where the code does. Clock readings and random
    identifiers are answers of the machine ([Now], [NewId], [Draw]). *)

From S2P Require Import Prelude Programs Bytes Text Tables Digest Canonical ObjectLock CoreTypes Keys Catalog Commands Listing Auth Names Origin Cors Payload Disk LocalStore.
Import Programs ObjectLock CoreTypes Keys Catalog Commands Listing StdText Names Payload Disk LocalStore.

Module Service.

(** ** Errors ([error.rs]) *)

Inductive ServiceError :=
  | ServiceCore (e : CoreError)
  | ServiceBucketNotFound
  | ServiceBucketAlreadyExists
  | ServiceBucketNotEmpty
  | ServiceObjectNotFound
  | ServiceDeleteMarker (version_id : bytes)
  | ServiceMultipartUploadNotFound
  | InvalidPart
  | InvalidPartOrder
  | EntityTooSmall
  | ServiceQuotaExceeded
  | ObjectLocked (block : LockBlock)
  | ServiceObjectLockChangeRefused (reason : LockChangeRefused)
  | BypassNotRecordable
  | ServiceObjectLockNotEnabled
  | ObjectLockConfigurationNotFound
  | ServiceObjectLockRequiresVersioning
  | RetentionClockUnavailable
  | MetadataTooLarge
  | ServiceInvalidRequest (reason : bytes)
  | ServiceMetadata (e : MetadataError)
  | ServiceIntegrityMismatch
  | ServiceStorage (e : StorageError)
  | ServiceCoordination
  | Unavailable
  | Overloaded
  | ServiceClusterUnavailable (reason : bytes)
  | ServiceDurabilityNotMet (text : bytes).

Definition map_metadata (error : MetadataError) : ServiceError :=
  match error with
  | BucketAlreadyExists => ServiceBucketAlreadyExists
  | BucketNotFound => ServiceBucketNotFound
  | BucketNotEmpty => ServiceBucketNotEmpty
  | MultipartUploadNotFound => ServiceMultipartUploadNotFound
  | QuotaExceeded => ServiceQuotaExceeded
  | VersionLocked block => ObjectLocked block
  | ObjectLockChangeRefused reason => ServiceObjectLockChangeRefused reason
  | ObjectLockNotEnabled => ServiceObjectLockNotEnabled
  | ObjectLockVersionNotFound => ServiceObjectNotFound
  | ObjectLockRequiresVersioning | ObjectLockNotEnabledAtCreation => ServiceObjectLockRequiresVersioning
  | ClockWentBackwards => RetentionClockUnavailable
  | MInvalidObjectLock reason => ServiceInvalidRequest (str reason)
  | error => ServiceMetadata error
  end.

(** ** Calls *)

Inductive scall : Type → Type :=
  | Storing {R} (e : call R) : scall R
  | Append (event : Canonical.AuditEvent) : scall (result Canonical.AuditError ())
  | Acquire : scall (result ServiceError ())
  | Now : scall Z
  | NewId : scall bytes
  | Draw : scall Draws.
Notation sprog := (program scall).

Section Service.
Context `{HashFunction} `{HexCrate} `{Md5Crate} `{Auth.Cryptography_} `{PublicationJson} `{StorageErrorText} `{UuidCrate}.
(** The key of stored objects, whether [chrono] can represent an instant, and the
    limits of the deployment. *)
Variables (encryption : option ObjectEncryption) (representable : Z → bool).

Definition map_storage (error : StorageError) : ServiceError :=
  match error with
  | StorageBucketNotFound => ServiceBucketNotFound
  | StorageObjectNotFound => ServiceObjectNotFound
  | StorageDeleteMarker version_id => ServiceDeleteMarker version_id
  | StorageMetadata MultipartUploadNotFound => ServiceMultipartUploadNotFound
  | StorageMetadata QuotaExceeded => ServiceQuotaExceeded
  | StorageMetadata (VersionLocked _ as e) | StorageMetadata (ClockWentBackwards as e)
  | StorageMetadata (ObjectLockChangeRefused _ as e) | StorageMetadata (ObjectLockNotEnabled as e)
  | StorageMetadata (ObjectLockVersionNotFound as e) | StorageMetadata (ObjectLockRequiresVersioning as e)
  | StorageMetadata (ObjectLockNotEnabledAtCreation as e) | StorageMetadata (MInvalidObjectLock _ as e) => map_metadata e
  | IntegrityMismatch => ServiceIntegrityMismatch
  | ClusterUnavailable reason => ServiceClusterUnavailable reason
  | NoHealthyReplica => ServiceClusterUnavailable (storage_error_text NoHealthyReplica)
  | DurabilityNotMet _ _ _ => ServiceDurabilityNotMet (storage_error_text error)
  | error => ServiceStorage error
  end.

Definition stored {A} (p : prog A) : sprog A := lift (λ R (e : call R), Storing e) p.
(** A storage operation with its errors translated. *)
Definition storage {A} (p : prog (result StorageError A)) : sprog (result ServiceError A) :=
  r ←- stored p; Ret (map_err map_storage r).
(** A repository method, with [?] and with [map_err(map_metadata)]. *)
Definition command {A} (into : MetadataOutcome → result MetadataError A) (c : MetadataCommand) : sprog (result ServiceError A) :=
  r ←! Storing (Commit c); Ret (map_err ServiceMetadata (decoded into r)).
Definition mapped_command {A} (into : MetadataOutcome → result MetadataError A) (c : MetadataCommand) : sprog (result ServiceError A) :=
  r ←! Storing (Commit c); Ret (map_err map_metadata (decoded into r)).
Definition no_outcome (o : MetadataOutcome) : result MetadataError () := Ok ().
Definition query {A} (q : Catalog → A) : sprog A := perform_call (Storing (Ask q)).

Definition resolve_bucket (name : bytes) : sprog (result ServiceError Bucket) :=
  found ←- query (get_bucket_by_name name);
  Ret (ok_or ServiceBucketNotFound found).

(** ** Audit intents ([record-store-audit/src/intent.rs]) *)

Definition INTENT_EVENT_ID : bytes := str "intent_event_id".
Definition outcome_event (intent : Canonical.AuditEvent) (result : Canonical.AuditResult) : sprog Canonical.AuditEvent :=
  event_id ←! NewId;
  now ←! Now;
  Ret {| Canonical.event_id := event_id; Canonical.timestamp := now; Canonical.request_id := Canonical.request_id intent;
         Canonical.principal := Canonical.principal intent; Canonical.credential_id := Canonical.credential_id intent;
         Canonical.source_ip := Canonical.source_ip intent; Canonical.operation := Canonical.operation intent;
         Canonical.resource := Canonical.resource intent; Canonical.result := result;
         Canonical.metadata := <[INTENT_EVENT_ID := uuid_to_string (Canonical.event_id intent)]> (Canonical.metadata intent) |}.

(** ** Object Lock ([lock.rs]) *)

Record LockContext := { lc_principal : bytes; lc_bypass_governance : bool }.
Definition context_principal (principal : bytes) : LockContext := {| lc_principal := principal; lc_bypass_governance := false |}.
Definition context_system (component : bytes) : LockContext := context_principal (str "system:" ++ component).
Definition context_with_bypass (c : LockContext) (bypass : bool) : LockContext :=
  {| lc_principal := lc_principal c; lc_bypass_governance := bypass |}.

(** [audit] says whether a trail is configured. *)
Record LockPolicy := { lp_clock_tolerance_seconds : Z; lp_audit : bool }.
Variable (policy : LockPolicy).

Definition release (context : LockContext) : sprog LockRelease :=
  now ←! Now;
  Ret (with_governance_bypass (lock_release_new now (lp_clock_tolerance_seconds policy)) (lc_bypass_governance context)).

(** The resource of a record: [bucket:{bucket}/{key}]. *)
Definition resource_text (bucket key : bytes) : bytes := str "bucket:" ++ bucket ++ str "/" ++ key.

Definition begin_bypass (context : LockContext) (operation bucket key version_id : bytes)
    : sprog (result ServiceError (option Canonical.AuditEvent)) :=
  if negb (lc_bypass_governance context) then Ret (Ok None)
  else if negb (lp_audit policy) then Ret (Err BypassNotRecordable)
  else
    event_id ←! NewId;
    now ←! Now;
    let event := {| Canonical.event_id := event_id; Canonical.timestamp := now; Canonical.request_id := None;
                    Canonical.principal := lc_principal context; Canonical.credential_id := None; Canonical.source_ip := None;
                    Canonical.operation := operation; Canonical.resource := resource_text bucket key;
                    Canonical.result := Canonical.Attempted;
                    Canonical.metadata := <[str "bypass" := str "governance"]>
                                            (<[str "version_id" := uuid_to_string version_id]> ∅) |} in
    appended ←! Append event;
    Ret (match appended with Ok _ => Ok (Some event) | Err _ => Err BypassNotRecordable end).

Definition complete_bypass (intent : option Canonical.AuditEvent) (result : Canonical.AuditResult) : sprog () :=
  match intent with
  | Some intent =>
      if lp_audit policy then
        outcome ←- outcome_event intent result;
        _ ←! Append outcome; Ret ()
      else Ret ()
  | None => Ret ()
  end.

Definition initial_state (bucket : Bucket) (requested : option ObjectLockState)
    : sprog (result ServiceError (option ObjectLockState)) :=
  match b_object_lock bucket, requested with
  | None, Some state => Ret (if negb (is_unlocked state) then Err ServiceObjectLockNotEnabled else Ok None)
  | None, None => Ret (Ok None)
  | Some _, Some state => Ret (Ok (Some state))
  | Some configuration, None =>
      now ←! Now;
      Ret (map_err ServiceCore (Some <$> initial_state_at representable configuration now))
  end.

Definition acquire : sprog (result ServiceError ()) := perform_call Acquire.

Definition bucket_configuration (bucket_name : bytes) : sprog (result ServiceError ObjectLockConfiguration) :=
  _ ←? acquire;
  bucket ←? resolve_bucket bucket_name;
  Ret (ok_or ObjectLockConfigurationNotFound (b_object_lock bucket)).

Definition set_bucket_configuration (bucket_name : bytes) (configuration : ObjectLockConfiguration)
    : sprog (result ServiceError Bucket) :=
  _ ←? Ret (map_err ServiceCore (configuration_validate configuration));
  _ ←? acquire;
  bucket ←? resolve_bucket bucket_name;
  mapped_command into_bucket (SetBucketObjectLock (b_id bucket) configuration).

Record VersionLock := { vl_version_id : bytes; vl_state : ObjectLockState }.

Definition resolve_version (bucket : Bucket) (key : bytes) (version_id : option bytes) : sprog (result ServiceError bytes) :=
  match version_id with
  | Some version_id => Ret (Ok version_id)
  | None =>
      found ←- query (get_object (b_id bucket) key);
      Ret (match found with Some metadata => Ok (o_version_id metadata) | None => Err ServiceObjectNotFound end)
  end.

Definition lock_get (bucket_name key : bytes) (version_id : option bytes) : sprog (result ServiceError VersionLock) :=
  _ ←? acquire;
  bucket ←? resolve_bucket bucket_name;
  if is_none (b_object_lock bucket) then Ret (Err ServiceObjectLockNotEnabled)
  else
    version_id ←? resolve_version bucket key version_id;
    state ←- query (get_object_lock version_id);
    Ret (Ok {| vl_version_id := version_id; vl_state := state |}).
Definition state_of (version_id : bytes) : sprog (result ServiceError ObjectLockState) :=
  state ←- query (get_object_lock version_id); Ret (Ok state).

Definition change (bucket_name key : bytes) (version_id : option bytes) (context : LockContext) (operation : bytes)
    (apply : ObjectLockState → ObjectLockState) : sprog (result ServiceError VersionLock) :=
  _ ←? acquire;
  bucket ←? resolve_bucket bucket_name;
  if is_none (b_object_lock bucket) then Ret (Err ServiceObjectLockNotEnabled)
  else
    version_id ←? resolve_version bucket key version_id;
    current ←- query (get_object_lock version_id);
    let requested := apply current in
    release ←- release context;
    intent ←? begin_bypass context operation bucket_name key version_id;
    result ←! Storing (Commit (PutObjectLock (b_id bucket) key version_id requested release));
    let result := decoded into_object_lock result in
    _ ←- complete_bypass intent (match result with Ok _ => Canonical.Success | Err _ => Canonical.Denied end);
    Ret (match result with
         | Ok state => Ok {| vl_version_id := version_id; vl_state := state |}
         | Err e => Err (map_metadata e)
         end).

Definition put_retention (bucket_name key : bytes) (version_id : option bytes) (retention : option Retention) (context : LockContext)
    : sprog (result ServiceError VersionLock) :=
  change bucket_name key version_id context (str "object-lock.put-retention")
    (λ current, {| ObjectLock.retention := retention; legal_hold := legal_hold current |}).
Definition put_legal_hold (bucket_name key : bytes) (version_id : option bytes) (hold : bool) (context : LockContext)
    : sprog (result ServiceError VersionLock) :=
  change bucket_name key version_id context (str "object-lock.put-legal-hold") (λ current, with_legal_hold current hold).

Definition observe_clock : sprog (result ServiceError ()) :=
  release ←- release (context_system (str "clock"));
  mapped_command no_outcome (ObserveClock release).

(** ** Objects ([object.rs], [admin.rs]) *)

Record ServiceLimits := { maximum_custom_metadata_entries : Z; maximum_custom_metadata_bytes : Z }.
Variable (limits : ServiceLimits).

(** [usize::saturating_add]. *)
Definition metadata_bytes (m : gmap bytes bytes) : Z :=
  foldl (λ total '(key, value), u64_saturating_add (u64_saturating_add total (Z.of_nat (length key))) (Z.of_nat (length value)))
    0 (map_to_list m).
Definition validate_custom_metadata (m : gmap bytes bytes) : result ServiceError () :=
  if maximum_custom_metadata_entries limits <? Z.of_nat (size m) then Err MetadataTooLarge
  else if maximum_custom_metadata_bytes limits <? metadata_bytes m then Err MetadataTooLarge
  else Ok ().

Record ServicePutRequest := {
  sp_bucket : bytes; sp_key : bytes; sp_content_type : option bytes; sp_custom_metadata : gmap bytes bytes;
  sp_expected_checksum : option Checksum; sp_object_lock : option ObjectLockState; sp_body : UploadStream }.

Definition put (request : ServicePutRequest) : sprog (result ServiceError ObjectMetadata) :=
  _ ←? Ret (validate_custom_metadata (sp_custom_metadata request));
  _ ←? acquire;
  bucket ←? resolve_bucket (sp_bucket request);
  object_lock ←? initial_state bucket (sp_object_lock request);
  draws ←! Draw;
  storage (LocalStore.put encryption
    {| put_bucket_id := b_id bucket; put_key := sp_key request; put_content_type := sp_content_type request;
       put_custom_metadata := sp_custom_metadata request; put_expected_checksum := sp_expected_checksum request;
       put_object_id := None; put_protocol_etag := None; put_object_lock := object_lock; put_origin := Direct;
       put_body := Ret (sp_body request) |} draws).

Definition get (bucket_name key : bytes) (range : option ByteRange) : sprog (result ServiceError GetObjectResult) :=
  _ ←? acquire;
  bucket ←? resolve_bucket bucket_name;
  storage (LocalStore.get encryption (b_id bucket) key range).
Definition get_version (bucket_name key version_id : bytes) (range : option ByteRange) : sprog (result ServiceError GetObjectResult) :=
  _ ←? acquire;
  bucket ←? resolve_bucket bucket_name;
  storage (LocalStore.get_version encryption (b_id bucket) key version_id range).
Definition get_null_version (bucket_name key : bytes) (range : option ByteRange) : sprog (result ServiceError GetObjectResult) :=
  bucket ←? resolve_bucket bucket_name;
  record ←- query (Listing.get_null_version (b_id bucket) key);
  match record with
  | None => Ret (Err ServiceObjectNotFound)
  | Some (ObjectRecord metadata _) => get_version bucket_name key (o_version_id metadata) range
  | Some (MarkerRecord marker _) => Ret (Err (ServiceDeleteMarker (m_version_id marker)))
  end.

Definition head (bucket_name key : bytes) : sprog (result ServiceError ObjectMetadata) :=
  _ ←? acquire;
  bucket ←? resolve_bucket bucket_name;
  storage (head_object (b_id bucket) key).
Definition metadata_of (record : option ObjectVersionRecord) : result ServiceError ObjectMetadata :=
  match record with
  | None => Err ServiceObjectNotFound
  | Some (ObjectRecord metadata _) => Ok metadata
  | Some (MarkerRecord marker _) => Err (ServiceDeleteMarker (m_version_id marker))
  end.
Definition head_version (bucket_name key version_id : bytes) : sprog (result ServiceError ObjectMetadata) :=
  _ ←? acquire;
  bucket ←? resolve_bucket bucket_name;
  record ←- query (get_object_version (b_id bucket) key version_id);
  Ret (metadata_of record).
Definition head_null_version (bucket_name key : bytes) : sprog (result ServiceError ObjectMetadata) :=
  bucket ←? resolve_bucket bucket_name;
  record ←- query (Listing.get_null_version (b_id bucket) key);
  Ret (metadata_of record).

(** [NewDeleteMarker::generate]. *)
Definition new_delete_marker : sprog NewDeleteMarker :=
  version_id ←! NewId;
  now ←! Now;
  Ret {| marker_version_id := version_id; marker_created_at := now |}.

Record ServiceDeleteResult := { sd_delete_marker : option DeleteMarker; sd_previously_visible : bool }.
Definition delete_detailed (bucket_name key : bytes) : sprog (result ServiceError ServiceDeleteResult) :=
  _ ←? acquire;
  bucket ←? resolve_bucket bucket_name;
  marker ←- new_delete_marker;
  result ←- stored (LocalStore.delete (b_id bucket) key marker);
  Ret (match result with
       | Ok result => Ok {| sd_delete_marker := delete_marker result; sd_previously_visible := previously_visible result |}
       | Err StorageObjectNotFound => Ok {| sd_delete_marker := None; sd_previously_visible := false |}
       | Err e => Err (map_storage e)
       end).
Definition delete (bucket_name key : bytes) : sprog (result ServiceError bool) :=
  _ ←? acquire;
  bucket ←? resolve_bucket bucket_name;
  marker ←- new_delete_marker;
  result ←- stored (LocalStore.delete (b_id bucket) key marker);
  Ret (match result with
       | Ok result => Ok (previously_visible result)
       | Err StorageObjectNotFound => Ok false
       | Err e => Err (map_storage e)
       end).

Definition delete_version (bucket_name key version_id : bytes) (context : LockContext) : sprog (result ServiceError ()) :=
  _ ←? acquire;
  bucket ←? resolve_bucket bucket_name;
  intent ←? begin_bypass context (str "object-lock.bypass-delete-version") bucket_name key version_id;
  release ←- release context;
  result ←- storage (LocalStore.delete_version (b_id bucket) key version_id release);
  _ ←- complete_bypass intent (match result with Ok _ => Canonical.Success | Err _ => Canonical.Denied end);
  Ret result.
Definition delete_null_version (bucket_name key : bytes) (context : LockContext) : sprog (result ServiceError ()) :=
  bucket ←? resolve_bucket bucket_name;
  record ←- query (Listing.get_null_version (b_id bucket) key);
  match record with
  | None => Ret (Err ServiceObjectNotFound)
  | Some record => delete_version bucket_name key (version_id record) context
  end.

Definition version_lock (version_id : bytes) : sprog (result ServiceError ObjectLockState) := state_of version_id.

Definition list_versions (bucket_name prefix : bytes) (key_marker version_id_marker : option bytes) (maximum_keys : Z)
    : sprog (result ServiceError ObjectVersionPage) :=
  _ ←? acquire;
  if 1000 <? maximum_keys then Ret (Err (ServiceInvalidRequest (str "maximum_keys must not exceed 1000")))
  else
    bucket ←? resolve_bucket bucket_name;
    page ←- query (list_object_versions {| lv_bucket_id := b_id bucket; lv_prefix := prefix; lv_key_marker := key_marker;
                                           lv_version_id_marker := version_id_marker; lv_limit := maximum_keys |});
    Ret (map_err ServiceMetadata page).

Inductive CopyMetadataDirective := CopyMetadata | ReplaceMetadata.
Record ServiceCopyRequest := {
  sc_source_bucket : bytes; sc_source_key : bytes; sc_source_version_id : option bytes;
  sc_destination_bucket : bytes; sc_destination_key : bytes; sc_metadata_directive : CopyMetadataDirective;
  sc_content_type : option bytes; sc_replacement_metadata : gmap bytes bytes; sc_object_lock : option ObjectLockState }.

Definition copy_with_origin (request : ServiceCopyRequest) (origin : WriteOrigin) : sprog (result ServiceError ObjectMetadata) :=
  _ ←? Ret (validate_custom_metadata (sc_replacement_metadata request));
  _ ←? acquire;
  source_bucket ←? resolve_bucket (sc_source_bucket request);
  destination_bucket ←? resolve_bucket (sc_destination_bucket request);
  source ←? storage (match sc_source_version_id request with
                     | Some version_id => LocalStore.get_version encryption (b_id source_bucket) (sc_source_key request) version_id None
                     | None => LocalStore.get encryption (b_id source_bucket) (sc_source_key request) None
                     end);
  let metadata := got_metadata source in
  object_lock ←? initial_state destination_bucket (sc_object_lock request);
  draws ←! Draw;
  storage (LocalStore.put encryption
    {| put_bucket_id := b_id destination_bucket; put_key := sc_destination_key request;
       put_content_type := match sc_metadata_directive request with
                           | CopyMetadata => o_content_type metadata | ReplaceMetadata => sc_content_type request end;
       put_custom_metadata := match sc_metadata_directive request with
                              | CopyMetadata => o_custom_metadata metadata | ReplaceMetadata => sc_replacement_metadata request end;
       put_expected_checksum := Some (o_checksum metadata); put_object_id := None; put_protocol_etag := None;
       put_object_lock := object_lock; put_origin := origin;
       put_body := Ret (as_upload_item <$> got_body source) |} draws).
Definition copy (request : ServiceCopyRequest) : sprog (result ServiceError ObjectMetadata) := copy_with_origin request Copy.
Definition restore_version (bucket_name key version_id : bytes) : sprog (result ServiceError ObjectMetadata) :=
  copy_with_origin
    {| sc_source_bucket := bucket_name; sc_source_key := key; sc_source_version_id := Some version_id;
       sc_destination_bucket := bucket_name; sc_destination_key := key; sc_metadata_directive := CopyMetadata;
       sc_content_type := None; sc_replacement_metadata := ∅; sc_object_lock := None |} Restore.

Definition verify (bucket_name key : bytes) : sprog (result ServiceError ObjectMetadata) :=
  _ ←? acquire;
  bucket ←? resolve_bucket bucket_name;
  storage (LocalStore.verify encryption (b_id bucket) key).
Definition usage : sprog (result ServiceError StorageUsage) := u ←- query storage_usage; Ret (Ok u).
Definition repair (maximum_entries : Z) (dry_run : bool) : sprog (result ServiceError (StorageInspection * Z)) :=
  r ←- stored (LocalStore.repair maximum_entries dry_run); Ret (map_err ServiceStorage r).

(** ** Multipart uploads ([multipart.rs]) *)

Record ServiceCreateMultipartRequest := {
  cr_bucket : bytes; cr_key : bytes; cr_content_type : option bytes; cr_custom_metadata : gmap bytes bytes;
  cr_object_lock : option ObjectLockState }.
Definition create_multipart (request : ServiceCreateMultipartRequest) : sprog (result ServiceError MultipartUpload) :=
  _ ←? Ret (validate_custom_metadata (cr_custom_metadata request));
  _ ←? acquire;
  bucket ←? resolve_bucket (cr_bucket request);
  object_lock ←? initial_state bucket (cr_object_lock request);
  id ←! NewId;
  now ←! Now;
  let upload := {| u_id := id; u_bucket_id := b_id bucket; u_key := cr_key request; u_content_type := cr_content_type request;
                   u_custom_metadata := cr_custom_metadata request; u_object_lock := object_lock; u_initiated_at := now;
                   u_state := Active |} in
  _ ←? command no_outcome (CreateMultipartUpload upload);
  Ret (Ok upload).

(** The upload, when it belongs to the bucket and key of the request. *)
Definition owned_upload (bucket : Bucket) (key upload_id : bytes) : sprog (result ServiceError MultipartUpload) :=
  found ←! Storing (GetUpload upload_id);
  Ret (match found with
       | None => Err ServiceMultipartUploadNotFound
       | Some upload =>
           if negb (bool_decide (u_bucket_id upload = b_id bucket)) || negb (bool_decide (u_key upload = key))
           then Err ServiceMultipartUploadNotFound else Ok upload
       end).

Record ServiceUploadPartRequest := {
  sup_bucket : bytes; sup_key : bytes; sup_upload_id : bytes; sup_number : Z; sup_expected_checksum : option Checksum;
  sup_body : UploadStream }.
Definition upload_part (request : ServiceUploadPartRequest) : sprog (result ServiceError UploadedPart) :=
  _ ←? acquire;
  bucket ←? resolve_bucket (sup_bucket request);
  upload ←? owned_upload bucket (sup_key request) (sup_upload_id request);
  draws ←! Draw;
  storage (put_multipart_part encryption
    {| part_upload_id := u_id upload; part_number := sup_number request;
       part_expected_checksum := sup_expected_checksum request; part_body := sup_body request |} draws).

Definition list_parts (bucket_name key upload_id : bytes) (after : option Z) (maximum_parts : Z)
    : sprog (result ServiceError (list UploadedPart)) :=
  _ ←? acquire;
  if 1001 <? maximum_parts then Ret (Err (ServiceInvalidRequest (str "maximum_parts must not exceed 1001")))
  else
    bucket ←? resolve_bucket bucket_name;
    _ ←? owned_upload bucket key upload_id;
    parts ←- query (list_multipart_parts upload_id after maximum_parts);
    Ret (map_err ServiceMetadata parts).

Record CompletedPart := { cp_number : Z; cp_etag : bytes }.
Definition MINIMUM_PART_SIZE : Z := 5 * 1024 * 1024.
(** [windows(2).all(...)]. *)
Fixpoint ascending (manifest : list CompletedPart) : bool :=
  match manifest with
  | a :: (b :: _) as rest => (cp_number a <? cp_number b) && ascending rest
  | _ => true
  end.
(** The parts of the manifest, in its order; only the last may be small. Of parts with
    one number the map keeps the last. *)
Fixpoint manifest_parts (persisted : list UploadedPart) (manifest : list CompletedPart) : result ServiceError (list UploadedPart) :=
  match manifest with
  | [] => Ok []
  | item :: manifest =>
      part ← ok_or InvalidPart
               (part ← List.find (λ part, bool_decide (p_number part = cp_number item)) (reverse persisted);
                if bool_decide (p_etag part = cp_etag item) then Some part else None);
      if negb (bool_decide (manifest = [])) && (p_size part <? MINIMUM_PART_SIZE) then Err EntityTooSmall
      else parts ← manifest_parts persisted manifest; Ok (part :: parts)
  end.

Record ServiceCompleteMultipartRequest := { sm_bucket : bytes; sm_key : bytes; sm_upload_id : bytes; sm_manifest : list CompletedPart }.
Definition complete_multipart (request : ServiceCompleteMultipartRequest) : sprog (result ServiceError ObjectMetadata) :=
  _ ←? acquire;
  bucket ←? resolve_bucket (sm_bucket request);
  upload ←? owned_upload bucket (sm_key request) (sm_upload_id request);
  if bool_decide (sm_manifest request = []) || (PartNumber_MAX <? Z.of_nat (length (sm_manifest request)))
  then Ret (Err InvalidPart)
  else if negb (ascending (sm_manifest request)) then Ret (Err InvalidPartOrder)
  else
    persisted ←- query (list_multipart_parts (u_id upload) None PartNumber_MAX);
    persisted ←? Ret (map_err ServiceMetadata persisted);
    parts ←? Ret (manifest_parts persisted (sm_manifest request));
    draws ←! Draw;
    storage (LocalStore.complete_multipart encryption {| cm_upload := upload; cm_parts := parts |} draws).

Definition abort_multipart (bucket_name key upload_id : bytes) : sprog (result ServiceError ()) :=
  _ ←? acquire;
  bucket ←? resolve_bucket bucket_name;
  _ ←? owned_upload bucket key upload_id;
  now ←! Now;
  _ ←? command into_multipart_cleanup (AbortMultipartUpload upload_id now);
  _ ←- stored (cleanup_pending 10000);
  Ret (Ok ()).

Definition list_multipart_uploads (bucket_name prefix : bytes) (key_marker upload_id_marker : option bytes) (maximum_uploads : Z)
    : sprog (result ServiceError MultipartUploadPage) :=
  _ ←? acquire;
  if 1000 <? maximum_uploads then Ret (Err (ServiceInvalidRequest (str "maximum_uploads must not exceed 1000")))
  else
    bucket ←? resolve_bucket bucket_name;
    page ←- query (Listing.list_multipart_uploads {| lu_bucket_id := b_id bucket; lu_prefix := prefix; lu_key_marker := key_marker;
                                                     lu_upload_id_marker := upload_id_marker; lu_limit := maximum_uploads |});
    Ret (map_err ServiceMetadata page).

(** ** Buckets ([bucket.rs]) *)

Variable (owner : bytes).

Definition create_locked (name : bytes) (storage_class : option bytes) (object_lock_enabled : bool) : sprog (result ServiceError Bucket) :=
  _ ←? acquire;
  id ←! NewId;
  now ←! Now;
  let bucket := {| b_id := id; b_organization_id := owner; b_name := name; b_created_at := now;
                   b_versioning := if object_lock_enabled then Enabled else Disabled;
                   b_quota := {| quota_bytes := UnlimitedBytes; quota_objects := UnlimitedObjects |};
                   b_storage_class := storage_class; b_durability_policy := None;
                   b_object_lock := if object_lock_enabled then Some {| default_retention := None |} else None;
                   b_cors := None |} in
  _ ←? mapped_command no_outcome (CreateBucket bucket);
  Ret (Ok bucket).
Definition create_on (name : bytes) (storage_class : option bytes) : sprog (result ServiceError Bucket) :=
  create_locked name storage_class false.

Definition head_bucket (name : bytes) : sprog (result ServiceError Bucket) := _ ←? acquire; resolve_bucket name.
Definition list_all_buckets : sprog (result ServiceError (list Bucket)) :=
  _ ←? acquire; buckets ←- query list_buckets; Ret (Ok buckets).

Definition set_versioning (name : bytes) (state : VersioningState) : sprog (result ServiceError Bucket) :=
  _ ←? acquire;
  bucket ←? resolve_bucket name;
  mapped_command into_bucket (SetBucketVersioning (b_id bucket) state).
Definition set_quota (name : bytes) (quota : BucketQuota) : sprog (result ServiceError Bucket) :=
  _ ←? acquire;
  bucket ←? resolve_bucket name;
  mapped_command into_bucket (SetBucketQuota (b_id bucket) quota).
Definition update_cors (name : bytes) (configuration : option CorsConfiguration) : sprog (result ServiceError Bucket) :=
  _ ←? acquire;
  bucket ←? resolve_bucket name;
  mapped_command into_bucket (SetBucketCors (b_id bucket) configuration).
Definition set_cors (name : bytes) (configuration : CorsConfiguration) : sprog (result ServiceError Bucket) :=
  _ ←? Ret (map_err ServiceCore (Cors.configuration_validate configuration));
  update_cors name (Some configuration).
Definition delete_cors (name : bytes) : sprog (result ServiceError Bucket) := update_cors name None.
Definition delete_bucket (name : bytes) : sprog (result ServiceError ()) :=
  _ ←? acquire;
  _ ←? resolve_bucket name;
  now ←! Now;
  _ ←? mapped_command into_bucket (DeleteBucket name now);
  Ret (Ok ()).
End Service.
End Service.
