(* ===== verification/ServiceTheorems.v ===== *)
(** * Bypasses are announced

    Every operation of the service layer, in any interleaving: a governance bypass
    reaches the catalog only after the record that announces it was made durable. *)

From S2P Require Import Prelude Programs Bytes Text Tables Digest Canonical ObjectLock CoreTypes Keys Catalog Commands Reachable Listing Auth Names Origin Cors ProofBundleTheorems Payload PayloadTheorems Disk LocalStore StoreTheorems Service.
Import Programs ObjectLock CoreTypes Keys Catalog Commands Listing StdText Names Payload Disk LocalStore Service.

Module ServiceTheorems.

(** The commands that may release a version under governance retention. *)
Definition bypasses (c : MetadataCommand) : bool :=
  match c with
  | DeleteObjectVersion _ _ _ release | PutObjectLock _ _ _ _ release => bypass_governance release
  | _ => false
  end.
(** The key and version such a command releases. *)
Definition released (c : MetadataCommand) : option (bytes * bytes) :=
  match c with
  | DeleteObjectVersion _ key version _ | PutObjectLock _ key version _ _ => Some (key, version)
  | _ => None
  end.

#[export] Hint Extern 1 (makes _ (put_body _)) => exact I : makes.

Section Announced.
Context `{HashFunction} `{HexCrate} `{Md5Crate} `{Auth.Cryptography_} `{PublicationJson} `{StorageErrorText} `{UuidCrate}.
Variables (encryption : option ObjectEncryption) (representable : Z → bool) (policy : LockPolicy) (limits : ServiceLimits) (owner : bytes).

(** The record of a bypass of this version by this principal. *)
Definition announces (context : LockContext) (bucket key version : bytes) (e : Canonical.AuditEvent) : Prop :=
  Canonical.result e = Canonical.Attempted ∧ Canonical.principal e = lc_principal context ∧
  Canonical.resource e = resource_text bucket key ∧
  Canonical.metadata e !! str "version_id" = Some (uuid_to_string version) ∧
  Canonical.metadata e !! str "bypass" = Some (str "governance").

(** No bypass. *)
Definition plain {R} (e : call R) : Prop := match e with Commit c => bypasses c = false | _ => True end.
Definition unbypassed R (e : scall R) : Prop := match e with Storing e => plain e | _ => True end.

(** A bypass is in the log before it is committed. *)
Definition announced (context : LockContext) (bucket : bytes) (h : trace scall) R (e : scall R) : Prop :=
  match e with
  | Storing (Commit c) =>
      bypasses c = true → ∃ key version event,
        released c = Some (key, version) ∧ announces context bucket key version event ∧ Answered (Append event) (Ok ()) ∈ h
  | _ => True
  end.

Lemma unbypassed_announced context bucket h R (e : scall R) : unbypassed R e → announced context bucket h R e.
Proof. destruct e as [R e| | | | |]; try done. destruct e; try done. cbn. by intros ->. Qed.

(** ** Programs that never bypass *)

Lemma makes_stored {A} (p : prog A) : makes (@plain) p → makes unbypassed (stored p).
Proof. intros Hp. by apply (makes_lift unbypassed (λ R (e : call R), Storing e)). Qed.

Lemma plain_put request draws : makes (@plain) (put_body request) → makes (@plain) (LocalStore.put encryption request draws).
Proof. intros Hb. by makes_steps. Qed.
Lemma plain_read_parts parts : makes (@plain) (read_parts encryption parts).
Proof. induction parts as [|part parts IH]; cbn [read_parts]; by makes_steps. Qed.
#[local] Hint Resolve plain_put plain_read_parts : makes.
Lemma plain_complete request draws : makes (@plain) (LocalStore.complete_multipart encryption request draws).
Proof. by makes_steps. Qed.
Lemma plain_cleanup_loop ids n : makes (@plain) (cleanup_loop ids n).
Proof. revert n. induction ids as [|id ids IH]; intros n; cbn [cleanup_loop]; by makes_steps. Qed.
Lemma plain_inspect_references ids report : makes (@plain) (inspect_references ids report).
Proof. revert report. induction ids as [|id ids IH]; intros report; cbn [inspect_references]; by makes_steps. Qed.
#[local] Hint Resolve plain_cleanup_loop plain_inspect_references : makes.
Lemma plain_inspect_pages fuel maximum cursor report : makes (@plain) (inspect_pages fuel maximum cursor report).
Proof. revert cursor report. induction fuel as [|fuel IH]; intros cursor report; cbn [inspect_pages]; by makes_steps. Qed.
Lemma plain_inspect_payloads maximum ids report orphans : makes (@plain) (inspect_payloads maximum ids report orphans).
Proof. revert report orphans. induction ids as [|id ids IH]; intros report orphans; cbn [inspect_payloads]; by makes_steps. Qed.
Lemma plain_remove_orphans ids n : makes (@plain) (remove_orphans ids n).
Proof. revert n. induction ids as [|id ids IH]; intros n; cbn [remove_orphans]; by makes_steps. Qed.
#[local] Hint Resolve plain_inspect_pages plain_inspect_payloads plain_remove_orphans : makes.
Lemma plain_repair maximum dry : makes (@plain) (LocalStore.repair maximum dry).
Proof. by makes_steps. Qed.
Lemma plain_delete bucket key marker : makes (@plain) (LocalStore.delete bucket key marker).
Proof. by makes_steps. Qed.
Lemma plain_delete_version bucket key version release :
  bypass_governance release = false → makes (@plain) (LocalStore.delete_version bucket key version release).
Proof. intros Hb. by makes_steps. Qed.
Lemma plain_cleanup_pending limit : makes (@plain) (cleanup_pending limit).
Proof. by makes_steps. Qed.
Lemma plain_get bucket key range : makes (@plain) (LocalStore.get encryption bucket key range).
Proof. by makes_steps. Qed.
Lemma plain_get_version bucket key version range : makes (@plain) (LocalStore.get_version encryption bucket key version range).
Proof. by makes_steps. Qed.
Lemma plain_verify bucket key : makes (@plain) (LocalStore.verify encryption bucket key).
Proof. by makes_steps. Qed.
Lemma plain_put_part request draws : makes (@plain) (put_multipart_part encryption request draws).
Proof. by makes_steps. Qed.
#[local] Hint Resolve plain_complete plain_repair plain_delete plain_delete_version plain_cleanup_pending plain_get plain_get_version plain_verify
  plain_put_part makes_stored : makes.

(** ** The operations *)

Inductive operation :=
  | PutOp (request : ServicePutRequest)
  | GetOp (bucket key : bytes) (range : option ByteRange)
  | GetVersionOp (bucket key version : bytes) (range : option ByteRange)
  | GetNullVersionOp (bucket key : bytes) (range : option ByteRange)
  | HeadOp (bucket key : bytes)
  | DeleteOp (bucket key : bytes)
  | DeleteDetailedOp (bucket key : bytes)
  | DeleteVersionOp (bucket key version : bytes) (context : LockContext)
  | DeleteNullVersionOp (bucket key : bytes) (context : LockContext)
  | CopyOp (request : ServiceCopyRequest)
  | RestoreOp (bucket key version : bytes)
  | VerifyOp (bucket key : bytes)
  | RepairOp (maximum_entries : Z) (dry_run : bool)
  | CreateMultipartOp (request : ServiceCreateMultipartRequest)
  | UploadPartOp (request : ServiceUploadPartRequest)
  | CompleteMultipartOp (request : ServiceCompleteMultipartRequest)
  | AbortMultipartOp (bucket key upload : bytes)
  | CreateBucketOp (name : bytes) (storage_class : option bytes) (locked : bool)
  | SetVersioningOp (name : bytes) (state : VersioningState)
  | SetQuotaOp (name : bytes) (quota : BucketQuota)
  | SetCorsOp (name : bytes) (configuration : option CorsConfiguration)
  | DeleteBucketOp (name : bytes)
  | SetLockOp (name : bytes) (configuration : ObjectLockConfiguration)
  | PutRetentionOp (bucket key : bytes) (version : option bytes) (retention : option Retention) (context : LockContext)
  | PutLegalHoldOp (bucket key : bytes) (version : option bytes) (hold : bool) (context : LockContext)
  | ObserveClockOp.

Definition answerless {A} (p : program scall A) : program scall () := bind p (λ _, Ret ()).
Definition serve (op : operation) : program scall () :=
  match op with
  | PutOp request => answerless (put encryption representable limits request)
  | GetOp bucket key range => answerless (get encryption bucket key range)
  | GetVersionOp bucket key version range => answerless (get_version encryption bucket key version range)
  | GetNullVersionOp bucket key range => answerless (get_null_version encryption bucket key range)
  | HeadOp bucket key => answerless (head bucket key)
  | DeleteOp bucket key => answerless (delete bucket key)
  | DeleteDetailedOp bucket key => answerless (delete_detailed bucket key)
  | DeleteVersionOp bucket key version context => answerless (delete_version policy bucket key version context)
  | DeleteNullVersionOp bucket key context => answerless (delete_null_version policy bucket key context)
  | CopyOp request => answerless (copy encryption representable limits request)
  | RestoreOp bucket key version => answerless (restore_version encryption representable limits bucket key version)
  | VerifyOp bucket key => answerless (verify encryption bucket key)
  | RepairOp maximum dry => answerless (repair maximum dry)
  | CreateMultipartOp request => answerless (create_multipart representable limits request)
  | UploadPartOp request => answerless (upload_part encryption request)
  | CompleteMultipartOp request => answerless (complete_multipart encryption request)
  | AbortMultipartOp bucket key upload => answerless (abort_multipart bucket key upload)
  | CreateBucketOp name class locked => answerless (create_locked owner name class locked)
  | SetVersioningOp name state => answerless (set_versioning name state)
  | SetQuotaOp name quota => answerless (set_quota name quota)
  | SetCorsOp name (Some configuration) => answerless (set_cors name configuration)
  | SetCorsOp name None => answerless (delete_cors name)
  | DeleteBucketOp name => answerless (delete_bucket name)
  | SetLockOp name configuration => answerless (set_bucket_configuration name configuration)
  | PutRetentionOp bucket key version retention context => answerless (put_retention policy bucket key version retention context)
  | PutLegalHoldOp bucket key version hold context => answerless (put_legal_hold policy bucket key version hold context)
  | ObserveClockOp => answerless (observe_clock policy)
  end.
(** Who asks, and in which bucket. *)
Definition asked (op : operation) : option (LockContext * bytes) :=
  match op with
  | DeleteVersionOp bucket _ _ context | DeleteNullVersionOp bucket _ context
  | PutRetentionOp bucket _ _ _ context | PutLegalHoldOp bucket _ _ _ context => Some (context, bucket)
  | _ => None
  end.

Lemma plain_copy request origin : makes unbypassed (copy_with_origin encryption representable limits request origin).
Proof.
  unfold copy_with_origin, storage. do 4 (makes_step; [by makes_steps|]). makes_step.
  - makes_step; [|by makes_steps]. apply makes_stored. by makes_steps.
  - by makes_steps.
Qed.
#[local] Hint Resolve plain_copy : makes.
Lemma serve_plain op : asked op = None → makes unbypassed (serve op).
Proof.
  destruct op; try done; intros _; cbn [serve]; unfold answerless; by makes_steps.
Qed.

(** ** Operations that may bypass *)

Lemma begin_bypass_announced Φ h context operation bucket key version (Q : trace scall → result ServiceError (option Canonical.AuditEvent) → Prop) :
  (∀ h R (e : scall R), unbypassed R e → Φ h R e) →
  (∀ h' r, h `prefix_of` h' →
     (∀ x, r = Ok x → lc_bypass_governance context = true → ∃ e, announces context bucket key version e ∧ Answered (Append e) (Ok ()) ∈ h') →
     Q h' r) →
  promises Φ h (begin_bypass policy context operation bucket key version) Q.
Proof.
  intros HΦ HQ. unfold begin_bypass. destruct (lc_bypass_governance context) eqn:Hb; cbn [negb].
  2:{ apply HQ; [done|]. by intros x _ [=]. }
  destruct (lp_audit policy); cbn [negb]; [|apply HQ; [done|]; by intros x [=]].
  apply promises_call; [by apply HΦ|]. intros id. apply promises_call; [by apply HΦ|]. intros now.
  apply promises_call; [by apply HΦ|]. intros [[]|e].
  - apply HQ; [by rewrite <-!app_assoc; apply prefix_app_r|]. intros _ _ _. eexists. split; [|apply elem_of_app; right; apply list_elem_of_singleton; reflexivity].
    by split_and!.
  - apply HQ; [by rewrite <-!app_assoc; apply prefix_app_r|]. by intros x [=].
Qed.

Lemma complete_bypass_plain intent result : makes unbypassed (complete_bypass policy intent result).
Proof. by makes_steps. Qed.

Lemma announced_plain {A} context bucket h (p : program scall A) (Q : trace scall → A → Prop) :
  makes unbypassed p → (∀ h' a, h `prefix_of` h' → Q h' a) → promises (announced context bucket) h p Q.
Proof. intros Hp HQ. eapply promises_makes; [exact Hp|apply unbypassed_announced|done]. Qed.

(** The commit after the announcement. *)
Lemma commit_announced context bucket h (key version : bytes) c :
  released c = Some (key, version) →
  (lc_bypass_governance context = true → ∃ e, announces context bucket key version e ∧ Answered (Append e) (Ok ()) ∈ h) →
  (bypasses c = true → lc_bypass_governance context = true) →
  announced context bucket h _ (Storing (Commit c)).
Proof. intros Hc Hann Hb Hby. destruct (Hann (Hb Hby)) as (e & He & Hin). by exists key, version, e. Qed.

Lemma delete_version_announced context bucket key version h (Q : trace scall → result ServiceError () → Prop) :
  (∀ h' r, Q h' r) → promises (announced context bucket) h (delete_version policy bucket key version context) Q.
Proof.
  intros HQ. unfold delete_version. pose proof (unbypassed_announced context bucket) as Hplain.
  do 3 promises_step done. destruct r as [[]|e]; [|apply HQ].
  do 5 promises_step done. destruct r as [b|]; cbn [ok_or]; [|apply HQ].
  promises_step done. apply begin_bypass_announced; [done|]. intros h' [intent|e] _ Hann; [|by apply HQ].
  promises_step done. unfold release. promises_step done. cbn [promises].
  promises_step done. unfold storage. promises_step done. unfold stored, LocalStore.delete_version. cbn [bind perform_call lift]. split.
  - apply (commit_announced _ _ _ key version); [done| |done]. intros Hb. destruct (Hann _ eq_refl Hb) as (e & He & Hin).
    exists e. split; [done|]. apply elem_of_app. by left.
  - intros res. apply announced_plain.
    + apply (makes_lift unbypassed (λ R (e : call R), Storing e)). by makes_steps.
    + intros h1 a _. cbn [promises]. promises_step done. apply announced_plain; [apply complete_bypass_plain|].
      intros h2 [] _. apply HQ.
Qed.

Lemma delete_null_version_announced context bucket key h (Q : trace scall → result ServiceError () → Prop) :
  (∀ h' r, Q h' r) → promises (announced context bucket) h (delete_null_version policy bucket key context) Q.
Proof.
  intros HQ. unfold delete_null_version. apply promises_trying, announced_plain; [by makes_steps|].
  intros h' [b|e] _; [|by apply HQ]. apply promises_bind, announced_plain; [by makes_steps|].
  intros h'' [record|] _; [by apply delete_version_announced|apply HQ].
Qed.

Lemma change_announced context bucket key version operation apply h (Q : trace scall → result ServiceError VersionLock → Prop) :
  (∀ h' r, Q h' r) → promises (announced context bucket) h (change policy bucket key version context operation apply) Q.
Proof.
  intros HQ. unfold change. pose proof (unbypassed_announced context bucket) as Hplain.
  do 3 promises_step done. destruct r as [[]|e]; [|apply HQ].
  do 5 promises_step done. destruct r as [b|]; cbn [ok_or]; [|apply HQ].
  destruct (is_none (b_object_lock b)); [apply HQ|].
  promises_step done. apply announced_plain; [by makes_steps|]. intros h1 [v|e] _; [|by apply HQ].
  promises_step done. promises_step done. unfold release. promises_step done. cbn [promises].
  promises_step done. apply begin_bypass_announced; [done|]. intros h2 [intent|e] _ Hann; [|by apply HQ].
  apply promises_call.
  - apply (commit_announced _ _ _ key v); [done| |done]. intros Hb. by apply (Hann _ eq_refl Hb).
  - intros res. promises_step done. apply announced_plain; [apply complete_bypass_plain|]. intros h3 [] _. apply HQ.
Qed.

(** C9: a governance bypass is never exercised unrecorded. Whatever operation is asked
    of the service layer, and however its calls are answered and interleaved with
    others, a command that carries a bypass is committed only after an audit record was
    made durable that announces it: as attempted, by the principal, of this bucket, key
    and version. *)
Theorem bypass_announced_first (op : operation) (t : trace scall) (done_ : option ()) (t1 t2 : trace scall)
    (c : MetadataCommand) (r : result MetadataError MetadataOutcome)
    (Hrun : runs (serve op) t done_) (Ht : t = t1 ++ Answered (Storing (Commit c)) r :: t2) (Hc : bypasses c = true) :
  ∃ context bucket key version event, asked op = Some (context, bucket) ∧ released c = Some (key, version) ∧
    announces context bucket key version event ∧ Answered (Append event) (Ok ()) ∈ t1.
Proof.
  destruct (asked op) as [[context bucket]|] eqn:Hasked.
  - assert (Hp : promises (announced context bucket) [] (serve op) (λ _ _, True)).
    { destruct op; try done; injection Hasked as -> ->; cbn [serve]; unfold answerless; apply promises_bind.
      - by apply delete_version_announced.
      - by apply delete_null_version_announced.
      - by apply change_announced.
      - by apply change_announced. }
    destruct (promises_trace _ _ _ _ _ _ Hp Hrun) as [Hkept _]. specialize (Hkept _ _ _ Ht Hc).
    destruct Hkept as (key & version & event & Hr & Ha & Hin). by exists context, bucket, key, version, event.
  - exfalso. pose proof (serve_plain _ Hasked) as Hm.
    assert (Hp : promises (λ _, unbypassed) [] (serve op) (λ _ _, True)) by by eapply promises_makes.
    destruct (promises_trace _ _ _ _ _ _ Hp Hrun) as [Hkept _]. specialize (Hkept _ _ _ Ht). cbn in Hkept. congruence.
Qed.
End Announced.
End ServiceTheorems.

(** ** Sample run *)

Module ServiceSamples.
Import Samples.
#[local] Existing Instances ProofBundleSamples.sample_hex sha256_function PayloadSamples.tagging PayloadSamples.sample_md5 sample_uuids
  StoreSamples.sample_records StoreSamples.sample_texts.
Import ServiceTheorems.

Definition lock_policy : LockPolicy := {| lp_clock_tolerance_seconds := 5; lp_audit := true |}.
Definition service_limits : ServiceLimits := {| maximum_custom_metadata_entries := 16; maximum_custom_metadata_bytes := 2048 |}.
Definition officer : LockContext := context_with_bypass (context_principal (str "officer")) true.
Definition request : operation := DeleteVersionOp (str "records") (str "report") (uid 7) officer.
Definition locked_bucket : Bucket := sample_bucket Enabled no_quota (Some {| default_retention := None |}).
Definition released_at (now : Z) : LockRelease := with_governance_bypass (lock_release_new now 5) true.
Definition bypass_command : MetadataCommand := DeleteObjectVersion (uid 1) (str "report") (uid 7) (released_at 12).
Definition serve_sample : operation → program scall () := serve None (λ _, true) lock_policy service_limits (uid 9).
Definition intent : Canonical.AuditEvent :=
  {| Canonical.event_id := uid 20; Canonical.timestamp := 11; Canonical.request_id := None; Canonical.principal := str "officer";
     Canonical.credential_id := None; Canonical.source_ip := None; Canonical.operation := str "object-lock.bypass-delete-version";
     Canonical.resource := str "bucket:records/report"; Canonical.result := Canonical.Attempted;
     Canonical.metadata := <[str "bypass" := str "governance"]> (<[str "version_id" := uuid_to_string (uid 7)]> ∅) |}.
Definition before : trace scall :=
  [Answered Acquire (Ok ()); Answered (Storing (Ask (get_bucket_by_name (str "records")))) (Some locked_bucket);
   Answered NewId (uid 20); Answered Now 11; Answered (Append intent) (Ok ()); Answered Now 12].
Definition denied : answered scall := Answered (Storing (Commit bypass_command)) (Err ClockWentBackwards).

Lemma bypass_announced_first_witness :
  runs (serve_sample request) (before ++ [denied]) None ∧
  ∃ context bucket key version event, asked request = Some (context, bucket) ∧ released bypass_command = Some (key, version) ∧
    announces context bucket key version event ∧ Answered (Append event) (Ok ()) ∈ before.
Proof.
  assert (Hrun : runs (serve_sample request) (before ++ [denied]) None).
  { apply (runs_call _ Acquire). apply (runs_call _ (Storing (Ask _))). apply (runs_call _ NewId). apply (runs_call _ Now).
    apply (runs_call _ (Append _)). apply (runs_call _ Now). apply (runs_call _ (Storing (Commit _))). apply runs_stopped. }
  split; [exact Hrun|].
  exact (bypass_announced_first None (λ _, true) lock_policy service_limits (uid 9) request _ None before [] bypass_command _ Hrun eq_refl eq_refl).
Defined.
End ServiceSamples.
