(* ===== verification/Lifecycle.v ===== *)
(** * The lifecycle worker

    [crates/record-store-lifecycle]: the pass that expires current objects and
    noncurrent versions by the rules of the catalog, as a program over the calls of
    the service layer and of its own table of cursors. *)

From S2P Require Import Prelude Programs Bytes Text Tables Digest Canonical ObjectLock CoreTypes Keys Catalog Commands Listing Auth Names Payload Disk LocalStore Service.
Import Programs ObjectLock CoreTypes Keys Catalog Commands Listing StdText Names LocalStore Service.

Module Lifecycle.

Record RuleCursor := { current_key : option bytes; version_key : option bytes; cursor_version_id : option bytes }.
Definition empty_cursor : RuleCursor := {| current_key := None; version_key := None; cursor_version_id := None |}.

Record LifecycleRunResult := { scanned : Z; expired : Z; skipped : Z; failures : Z }.
Definition no_run : LifecycleRunResult := {| scanned := 0; expired := 0; skipped := 0; failures := 0 |}.

Inductive LifecycleError :=
  | LifecycleDirectory
  | LifecycleDatabase (reason : bytes)
  | LifecycleEncoding
  | LifecycleTask
  | LifecycleMetadata (e : MetadataError)
  | LifecycleService (e : ServiceError)
  | LifecycleAudit (e : Canonical.AuditError)
  | InvalidBatchSize
  | BucketMissing.

(** ** Calls: those of the service layer, the cursors, and the activation gate *)

Inductive lcall : Type → Type :=
  | Serving {R} (e : scall R) : lcall R
  | ReadCursor (id : bytes) : lcall (result LifecycleError RuleCursor)
  | WriteCursor (id : bytes) (cursor : RuleCursor) : lcall (result LifecycleError ())
  | GateActive : lcall bool.
Notation lprog := (program lcall).
#[local] Open Scope prog_scope.

Definition served {A} (p : program scall A) : lprog A := lift (λ R (e : scall R), Serving e) p.

(** A batch size is checked when the worker is opened. *)
Definition open_batch_size (batch_size : Z) : result LifecycleError Z :=
  if (batch_size =? 0) || (1000 <? batch_size) then Err InvalidBatchSize else Ok batch_size.

Definition count_scanned (r : LifecycleRunResult) : LifecycleRunResult :=
  {| scanned := u64_saturating_add (scanned r) 1; expired := expired r; skipped := skipped r; failures := failures r |}.
Definition count_expired (r : LifecycleRunResult) : LifecycleRunResult :=
  {| scanned := scanned r; expired := u64_saturating_add (expired r) 1; skipped := skipped r; failures := failures r |}.
Definition count_skipped (r : LifecycleRunResult) : LifecycleRunResult :=
  {| scanned := scanned r; expired := expired r; skipped := u64_saturating_add (skipped r) 1; failures := failures r |}.
Definition count_failure (r : LifecycleRunResult) : LifecycleRunResult :=
  {| scanned := scanned r; expired := expired r; skipped := skipped r; failures := u64_saturating_add (failures r) 1 |}.
Definition add_run (total r : LifecycleRunResult) : LifecycleRunResult :=
  {| scanned := u64_saturating_add (scanned total) (scanned r); expired := u64_saturating_add (expired total) (expired r);
     skipped := u64_saturating_add (skipped total) (skipped r); failures := u64_saturating_add (failures total) (failures r) |}.

(** [chrono::Duration::days], in nanoseconds. *)
Definition days (n : Z) : Z := n * 86400 * 1000000000.

Section Lifecycle.
Context `{HashFunction} `{HexCrate} `{Md5Crate} `{Auth.Cryptography_} `{PublicationJson} `{StorageErrorText} `{UuidCrate}.
(** The policy of the lock service the worker deletes through, and its batch size. *)
Variables (policy : LockPolicy) (batch_size : Z).

(** ** Records of an expiry *)

Definition PRINCIPAL : bytes := str "system:lifecycle".
Definition lifecycle_event (event_id : bytes) (now : Z) (operation bucket key : bytes) (result : Canonical.AuditResult)
    (metadata : gmap bytes bytes) : Canonical.AuditEvent :=
  {| Canonical.event_id := event_id; Canonical.timestamp := now; Canonical.request_id := None; Canonical.principal := PRINCIPAL;
     Canonical.credential_id := None; Canonical.source_ip := None; Canonical.operation := operation;
     Canonical.resource := resource_text bucket key; Canonical.result := result; Canonical.metadata := metadata |}.

Definition announce (operation bucket key : bytes) (version_id : option bytes) : lprog (result LifecycleError Canonical.AuditEvent) :=
  let metadata := match version_id with
                  | Some version_id => <[str "version_id" := uuid_to_string version_id]> ∅
                  | None => ∅
                  end in
  event_id ←! Serving NewId;
  now ←! Serving Now;
  let event := lifecycle_event event_id now operation bucket key Canonical.Attempted metadata in
  appended ←! Serving (Append event);
  Ret (match appended with Ok _ => Ok event | Err e => Err (LifecycleAudit e) end).

Definition resolve (intent : Canonical.AuditEvent) (result : Canonical.AuditResult) : lprog () :=
  outcome ←- served (outcome_event intent result);
  _ ←! Serving (Append outcome);
  Ret ().

Definition audit_lock_skip (rule : LifecycleRule) (bucket key version_id reason : bytes) : lprog (result LifecycleError ()) :=
  let metadata := <[str "reason" := reason]> (<[str "rule_prefix" := l_prefix rule]>
                    (<[str "rule_id" := uuid_to_string (l_id rule)]>
                    (<[str "version_id" := uuid_to_string version_id]> ∅))) in
  event_id ←! Serving NewId;
  now ←! Serving Now;
  appended ←! Serving (Append (lifecycle_event event_id now (str "lifecycle.skip-locked-version") bucket key Canonical.Denied metadata));
  Ret (match appended with Ok _ => Ok () | Err e => Err (LifecycleAudit e) end).

(** ** A rule: current objects *)

Definition expire_object (bucket : Bucket) (object : ObjectMetadata) (result : LifecycleRunResult) : lprog LifecycleRunResult :=
  intent ←- announce (str "lifecycle.expire-object") (b_name bucket) (o_key object) None;
  match intent with
  | Err _ => Ret (count_failure result)
  | Ok intent =>
      deleted ←- served (delete (b_name bucket) (o_key object));
      match deleted with
      | Ok true => _ ←- resolve intent Canonical.Success; Ret (count_expired result)
      | Ok false => _ ←- resolve intent Canonical.Failure; Ret result
      | Err _ => _ ←- resolve intent Canonical.Failure; Ret (count_failure result)
      end
  end.

Fixpoint expire_objects (bucket : Bucket) (cutoff : Z) (objects : list ObjectMetadata) (result : LifecycleRunResult)
    : lprog LifecycleRunResult :=
  match objects with
  | [] => Ret result
  | object :: objects =>
      let result := count_scanned result in
      result ←- (if o_modified_at object <=? cutoff then expire_object bucket object result else Ret result);
      expire_objects bucket cutoff objects result
  end.

(** ** A rule: noncurrent versions *)

Definition lifecycle_context : LockContext := context_system (str "lifecycle").
Definition expire_version (rule : LifecycleRule) (bucket : Bucket) (record : ObjectVersionRecord) (result : LifecycleRunResult)
    : lprog (Prelude.result LifecycleError LifecycleRunResult) :=
  let key := record_key record in
  let version := version_id record in
  intent ←- announce (str "lifecycle.expire-noncurrent-version") (b_name bucket) key (Some version);
  match intent with
  | Err _ => Ret (Ok (count_failure result))
  | Ok intent =>
      deleted ←- served (delete_version policy (b_name bucket) key version lifecycle_context);
      match deleted with
      | Ok _ => _ ←- resolve intent Canonical.Success; Ret (Ok (count_expired result))
      | Err (ObjectLocked block) =>
          _ ←- resolve intent Canonical.Denied;
          _ ←? audit_lock_skip rule (b_name bucket) key version (str (block_label block));
          Ret (Ok (count_skipped result))
      | Err RetentionClockUnavailable =>
          _ ←- resolve intent Canonical.Denied;
          _ ←? audit_lock_skip rule (b_name bucket) key version (str "clock_unavailable");
          Ret (Ok (count_skipped result))
      | Err _ => _ ←- resolve intent Canonical.Failure; Ret (Ok (count_failure result))
      end
  end.

Fixpoint expire_versions (rule : LifecycleRule) (bucket : Bucket) (cutoff : Z) (versions : list ListedObjectVersion)
    (result : LifecycleRunResult) : lprog (Prelude.result LifecycleError LifecycleRunResult) :=
  match versions with
  | [] => Ret (Ok result)
  | version :: versions =>
      let result := count_scanned result in
      result ←? (if negb (is_latest version) && (record_created_at (listed_record version) <=? cutoff)
                 then expire_version rule bucket (listed_record version) result
                 else Ret (Ok result));
      expire_versions rule bucket cutoff versions result
  end.

(** ** Rules and passes *)

Definition scan_objects (rule : LifecycleRule) (bucket : Bucket) (cursor : RuleCursor) (result : LifecycleRunResult)
    : lprog (RuleCursor * LifecycleRunResult) :=
  match l_expiration rule with
  | None => Ret (cursor, result)
  | Some n =>
      page ←- served (query (list_objects {| lo_bucket_id := l_bucket_id rule; lo_prefix := l_prefix rule;
                                             lo_start_after := current_key cursor; lo_limit := batch_size |}));
      now ←! Serving Now;
      result ←- expire_objects bucket (now - days n) (objects page) result;
      Ret ({| current_key := next_key page; version_key := version_key cursor; cursor_version_id := cursor_version_id cursor |}, result)
  end.

Definition scan_versions (rule : LifecycleRule) (bucket : Bucket) (cursor : RuleCursor) (result : LifecycleRunResult)
    : lprog (Prelude.result LifecycleError (RuleCursor * LifecycleRunResult)) :=
  match l_noncurrent_version_expiration rule with
  | None => Ret (Ok (cursor, result))
  | Some n =>
      page ←- served (query (list_object_versions {| lv_bucket_id := l_bucket_id rule; lv_prefix := l_prefix rule;
                                                     lv_key_marker := version_key cursor;
                                                     lv_version_id_marker := cursor_version_id cursor; lv_limit := batch_size |}));
      match page with
      | Err e => Ret (Err (LifecycleMetadata e))
      | Ok page =>
          now ←! Serving Now;
          result ←? expire_versions rule bucket (now - days n) (page_versions page) result;
          Ret (Ok ({| current_key := current_key cursor; version_key := next_key_marker page;
                      cursor_version_id := next_version_id_marker page |}, result))
      end
  end.

Definition run_rule (rule : LifecycleRule) : lprog (result LifecycleError LifecycleRunResult) :=
  bucket ←- served (query (get_bucket (l_bucket_id rule)));
  match bucket with
  | None => Ret (Err BucketMissing)
  | Some bucket =>
      cursor ←? perform_call (ReadCursor (l_id rule));
      scanned ←- scan_objects rule bucket cursor no_run;
      let '(cursor, result) := scanned in
      scanned ←? scan_versions rule bucket cursor result;
      let '(cursor, result) := scanned in
      _ ←? perform_call (WriteCursor (l_id rule) cursor);
      Ret (Ok result)
  end.

Fixpoint run_rules (rules : list LifecycleRule) (total : LifecycleRunResult) : lprog (result LifecycleError LifecycleRunResult) :=
  match rules with
  | [] => Ret (Ok total)
  | rule :: rules => result ←? run_rule rule; run_rules rules (add_run total result)
  end.

Definition run_once : lprog (result LifecycleError LifecycleRunResult) :=
  rules ←- served (query (list_lifecycle_rules None));
  run_rules (filter (λ rule, l_enabled rule = true) rules) no_run.

(** One tick of the worker's timer; an error is logged and the next tick tries again. *)
Definition tick (gated : bool) : lprog () :=
  active ←- (if gated then perform_call GateActive else Ret true);
  if active : bool then _ ←- run_once; Ret () else Ret ().
End Lifecycle.
End Lifecycle.
