(* ===== verification/LifecycleTheorems.v ===== *)
(** * What the lifecycle worker deletes

    Whatever its calls are answered, the worker commits nothing but expiries of what a
    listing for an enabled rule returned, announced in the audit log, and never with a
    bypass. Three
    runs show where it deletes what no rule asks for, or stops. *)

From S2P Require Import Prelude Programs Bytes Text Tables Digest Canonical ObjectLock CoreTypes Keys Catalog Commands Reachable Listing Auth Names ProofBundleTheorems Payload PayloadTheorems Disk LocalStore StoreRuns StoreTheorems Service Lifecycle.
Import Programs ObjectLock CoreTypes Keys Catalog Commands Listing StdText Names LocalStore Service Lifecycle.

Module LifecycleTheorems.

Abbreviation told q a h := (Answered (E := lcall) (Serving (Storing (Ask q))) a ∈ h).

Section Justified.
Context `{HashFunction} `{HexCrate} `{Md5Crate} `{Auth.Cryptography_} `{PublicationJson} `{StorageErrorText} `{UuidCrate}.
Variables (policy : LockPolicy) (batch_size : Z).

(** The catalog listed the rule, enabled. *)
Definition listed_rule (h : trace lcall) (rule : LifecycleRule) : Prop :=
  ∃ rules, told (list_lifecycle_rules None) rules h ∧ rule ∈ rules ∧ l_enabled rule = true.
(** A listing under the prefix of the rule returned the object, past its days by a
    reading of the clock. *)
Definition due_object (h : trace lcall) (rule : LifecycleRule) (object : ObjectMetadata) : Prop :=
  ∃ n request page now, l_expiration rule = Some n ∧ lo_bucket_id request = l_bucket_id rule ∧ lo_prefix request = l_prefix rule ∧
    told (list_objects request) page h ∧ object ∈ objects page ∧
    Answered (Serving Now) now ∈ h ∧ o_modified_at object + days n <= now.
Definition due_version (h : trace lcall) (rule : LifecycleRule) (version : ListedObjectVersion) : Prop :=
  ∃ n request page now, l_noncurrent_version_expiration rule = Some n ∧
    lv_bucket_id request = l_bucket_id rule ∧ lv_prefix request = l_prefix rule ∧
    told (list_object_versions request) (Ok page) h ∧ version ∈ page_versions page ∧ is_latest version = false ∧
    Answered (Serving Now) now ∈ h ∧ record_created_at (listed_record version) + days n <= now.
(** The audit log holds the announcement. *)
Definition announced_expiry (h : trace lcall) (bucket key : bytes) (version : option bytes) : Prop :=
  ∃ event, Canonical.result event = Canonical.Attempted ∧ Canonical.principal event = str "system:lifecycle" ∧
    Canonical.resource event = resource_text bucket key ∧
    Canonical.metadata event !! str "version_id" = uuid_to_string <$> version ∧
    Answered (Serving (Append event)) (Ok ()) ∈ h.

(** What the worker may commit. *)
Inductive justified (h : trace lcall) : MetadataCommand → Prop :=
  | just_object rule bucket object named marker :
      listed_rule h rule → told (get_bucket (l_bucket_id rule)) (Some bucket) h → due_object h rule object →
      announced_expiry h (b_name bucket) (o_key object) None → told (get_bucket_by_name (b_name bucket)) (Some named) h →
      justified h (DeleteObject (b_id named) (o_key object) marker)
  | just_version rule bucket version named release :
      let record := listed_record version in
      listed_rule h rule → told (get_bucket (l_bucket_id rule)) (Some bucket) h → due_version h rule version →
      announced_expiry h (b_name bucket) (record_key record) (Some (version_id record)) →
      told (get_bucket_by_name (b_name bucket)) (Some named) h → bypass_governance release = false →
      justified h (DeleteObjectVersion (b_id named) (record_key record) (version_id record) release)
  | just_cleanup id : justified h (CompleteCleanup id).

Definition allowed (h : trace lcall) R (e : lcall R) : Prop :=
  match e with Serving (Storing (Commit c)) => justified h c | _ => True end.

(** ** Facts about a history go on to hold *)

Lemma grows {E} (x : answered E) h h' : x ∈ h → h `prefix_of` h' → x ∈ h'.
Proof. intros Hx [k ->]. apply elem_of_app. by left. Qed.
Lemma listed_rule_grows h h' rule : listed_rule h rule → h `prefix_of` h' → listed_rule h' rule.
Proof. intros (rules & Hr & Hin) Hp. exists rules. split; [by eapply grows|done]. Qed.
Lemma due_object_grows h h' rule object : due_object h rule object → h `prefix_of` h' → due_object h' rule object.
Proof.
  intros (n & request & page & now & Hn & Hb & Hp & Ht & Hin & Hnow & Hdue) Hpre. exists n, request, page, now.
  split_and!; try done; by eapply grows.
Qed.
Lemma due_version_grows h h' rule version : due_version h rule version → h `prefix_of` h' → due_version h' rule version.
Proof.
  intros (n & request & page & now & Hn & Hb & Hp & Ht & Hin & Hl & Hnow & Hdue) Hpre. exists n, request, page, now.
  split_and!; try done; by eapply grows.
Qed.
Lemma announced_expiry_grows h h' bucket key version :
  announced_expiry h bucket key version → h `prefix_of` h' → announced_expiry h' bucket key version.
Proof. intros (event & Hr & Hp & Hs & Hm & Hin) Hpre. exists event. split_and!; try done. by eapply grows. Qed.

(** ** Programs that commit nothing, or only cleanups *)

Definition harmless R (e : lcall R) : Prop :=
  match e with Serving (Storing (Commit c)) => match c with CompleteCleanup _ => True | _ => False end | _ => True end.
Lemma harmless_allowed h R (e : lcall R) : harmless R e → allowed h R e.
Proof.
  destruct e as [R e| | |]; try done. destruct e as [R e| | | | |]; try done. destruct e; try done.
  match goal with c : MetadataCommand |- _ => destruct c end; try done. intros _. apply just_cleanup.
Qed.
Lemma harmless_promises {A} h (p : lprog A) (Q : trace lcall → A → Prop) :
  makes harmless p → (∀ h' a, h `prefix_of` h' → Q h' a) → promises allowed h p Q.
Proof. intros Hp HQ. eapply promises_makes; [exact Hp|apply harmless_allowed|done]. Qed.
Lemma harmless_served {A} (p : program scall A) : makes (λ R (e : scall R), harmless R (Serving e)) p → makes harmless (served p).
Proof. apply (makes_lift harmless (λ R (e : scall R), Serving e)). Qed.

Lemma harmless_resolve intent result : makes harmless (resolve intent result).
Proof. unfold resolve. makes_step; [apply harmless_served; by makes_steps|by makes_steps]. Qed.
Lemma harmless_skip rule bucket key version reason : makes harmless (audit_lock_skip rule bucket key version reason).
Proof. by makes_steps. Qed.
#[local] Hint Resolve harmless_resolve harmless_skip : makes.

(** ** Announcing and deleting *)

Lemma announce_promises h operation bucket key version (Q : trace lcall → result LifecycleError Canonical.AuditEvent → Prop) :
  (∀ h' r, h `prefix_of` h' → (∀ intent, r = Ok intent → announced_expiry h' bucket key version) → Q h' r) →
  promises allowed h (announce operation bucket key version) Q.
Proof.
  intros HQ. unfold announce. do 3 promises_step done. cbn [promises]. apply HQ.
  - rewrite <-!app_assoc. by apply prefix_app_r.
  - intros intent Hr. destruct r1 as [[]|e]; [|done]. eexists. split_and!; [..|apply elem_of_app; right; by apply list_elem_of_singleton]; try done.
    cbn. destruct version; [apply lookup_insert_eq|apply lookup_empty].
Qed.

Lemma delete_promises h name key (Q : trace lcall → result ServiceError bool → Prop) :
  (∀ h' named marker, h `prefix_of` h' → told (get_bucket_by_name name) (Some named) h' → justified h' (DeleteObject (b_id named) key marker)) →
  (∀ h' r, h `prefix_of` h' → Q h' r) → promises allowed h (served (delete name key)) Q.
Proof.
  intros Hjust HQ. unfold served, delete. cbn. split; [done|]. intros [[]|e]; [|apply HQ; by apply prefix_app_r].
  cbn. split; [done|]. intros [named|]; [|apply HQ; rewrite <-!app_assoc; by apply prefix_app_r].
  cbn. split; [done|]. intros id. split; [done|]. intros now. rewrite <-!app_assoc. split.
  - apply Hjust; [by apply prefix_app_r|]. apply elem_of_app. right. cbn. right. by left.
  - intros r. apply harmless_promises; [|intros h' a Hp; apply HQ; etransitivity; [|exact Hp]; rewrite <-!app_assoc; by apply prefix_app_r].
    apply (makes_lift harmless (λ R (e : scall R), Serving e)). makes_step; [|by makes_steps].
    apply (makes_lift _ (λ R (e : call R), Storing e)). by makes_steps.
Qed.

Lemma delete_version_promises h name key version (Q : trace lcall → result ServiceError () → Prop) :
  (∀ h' named release, h `prefix_of` h' → told (get_bucket_by_name name) (Some named) h' → bypass_governance release = false →
     justified h' (DeleteObjectVersion (b_id named) key version release)) →
  (∀ h' r, h `prefix_of` h' → Q h' r) → promises allowed h (served (delete_version policy name key version lifecycle_context)) Q.
Proof.
  intros Hjust HQ. unfold served, delete_version. cbn. split; [done|]. intros [[]|e]; [|apply HQ; by apply prefix_app_r].
  cbn. split; [done|]. intros [named|]; [|apply HQ; rewrite <-!app_assoc; by apply prefix_app_r].
  cbn. split; [done|]. intros now. rewrite <-!app_assoc. split.
  - apply Hjust; [by apply prefix_app_r| |done]. apply elem_of_app. right. cbn. right. by left.
  - intros r. apply harmless_promises; [|intros h' a Hp; apply HQ; etransitivity; [|exact Hp]; rewrite <-!app_assoc; by apply prefix_app_r].
    apply (makes_lift harmless (λ R (e : scall R), Serving e)). makes_step; [|by makes_steps]. makes_step; [|by makes_steps].
    apply (makes_lift _ (λ R (e : call R), Storing e)). by makes_steps.
Qed.

(** ** The scans of a rule *)

Section Rule.
Variables (rule : LifecycleRule) (bucket : Bucket).
(** What the worker knows when it scans. *)
Definition scanning (h : trace lcall) : Prop := listed_rule h rule ∧ told (get_bucket (l_bucket_id rule)) (Some bucket) h.
Lemma scanning_grows h h' : scanning h → h `prefix_of` h' → scanning h'.
Proof. intros [H1' H2'] Hp. split; [by eapply listed_rule_grows|by eapply grows]. Qed.

Lemma expire_object_promises object result h (Q : trace lcall → LifecycleRunResult → Prop) :
  scanning h → due_object h rule object → (∀ h' r, h `prefix_of` h' → Q h' r) → promises allowed h (expire_object bucket object result) Q.
Proof.
  intros Hs Hdue HQ. unfold expire_object. apply promises_bind, announce_promises. intros h1 [intent|e] Hp1 Hann; [|by apply HQ].
  apply promises_bind, delete_promises.
  - intros h2 named marker Hp2 Hnamed. assert (h `prefix_of` h2) as Hp by by etransitivity.
    destruct (scanning_grows _ _ Hs Hp) as [Hrule Hbucket].
    eapply just_object; [done..|by eapply due_object_grows|by eapply announced_expiry_grows; [by eapply Hann|]|done].
  - intros h2 r Hp2. apply harmless_promises; [by makes_steps|].
    intros h3 a Hp3. apply HQ. by do 2 (etransitivity; [done|]).
Qed.

Lemma expire_objects_promises cutoff objects result h (Q : trace lcall → LifecycleRunResult → Prop) :
  scanning h → (∀ object, object ∈ objects → o_modified_at object <= cutoff → due_object h rule object) →
  (∀ h' r, h `prefix_of` h' → Q h' r) → promises allowed h (expire_objects bucket cutoff objects result) Q.
Proof.
  revert result h. induction objects as [|object objects IH]; intros result h Hs Hdue HQ; cbn [expire_objects]; [by apply HQ|].
  apply promises_bind.
  assert (Hrest : ∀ h' r, h `prefix_of` h' → promises allowed h' (expire_objects bucket cutoff objects r) Q).
  { intros h' r Hp. apply IH; [by eapply scanning_grows| |].
    - intros o Ho Hle. eapply due_object_grows; [|done]. apply Hdue; [by right|done].
    - intros h'' r' Hp'. apply HQ. by etransitivity. }
  destruct (Z.leb_spec (o_modified_at object) cutoff) as [Hle|Hle].
  - apply expire_object_promises; [done| |exact Hrest]. apply Hdue; [by left|done].
  - by apply Hrest.
Qed.

Lemma expire_version_promises version result h (Q : trace lcall → Prelude.result LifecycleError LifecycleRunResult → Prop) :
  scanning h → due_version h rule version → (∀ h' r, h `prefix_of` h' → Q h' r) →
  promises allowed h (expire_version policy rule bucket (listed_record version) result) Q.
Proof.
  intros Hs Hdue HQ. unfold expire_version. apply promises_bind, announce_promises. intros h1 [intent|e] Hp1 Hann; [|by apply HQ].
  apply promises_bind, delete_version_promises.
  - intros h2 named release Hp2 Hnamed Hb. assert (h `prefix_of` h2) as Hp by by etransitivity.
    destruct (scanning_grows _ _ Hs Hp) as [Hrule Hbucket].
    eapply just_version; [done..|by eapply due_version_grows|by eapply announced_expiry_grows; [by eapply Hann|]|done|done].
  - intros h2 r Hp2. apply harmless_promises; [by makes_steps|].
    intros h3 a Hp3. apply HQ. by do 2 (etransitivity; [done|]).
Qed.

Lemma expire_versions_promises cutoff versions result h (Q : trace lcall → Prelude.result LifecycleError LifecycleRunResult → Prop) :
  scanning h →
  (∀ version, version ∈ versions → is_latest version = false → record_created_at (listed_record version) <= cutoff → due_version h rule version) →
  (∀ h' r, h `prefix_of` h' → Q h' r) → promises allowed h (expire_versions policy rule bucket cutoff versions result) Q.
Proof.
  revert result h. induction versions as [|version versions IH]; intros result h Hs Hdue HQ; cbn [expire_versions]; [by apply HQ|].
  apply promises_trying.
  assert (Hrest : ∀ h' r, h `prefix_of` h' →
    match r with Ok r => promises allowed h' (expire_versions policy rule bucket cutoff versions r) Q | Err e => Q h' (Err e) end).
  { intros h' [r|e] Hp; [|by apply HQ]. apply IH; [by eapply scanning_grows| |].
    - intros o Ho Hl Hle. eapply due_version_grows; [|done]. apply Hdue; [by right|done..].
    - intros h'' r' Hp'. apply HQ. by etransitivity. }
  destruct (is_latest version) eqn:Hl; cbn [negb andb]; [by apply (Hrest h (Ok _))|].
  destruct (Z.leb_spec (record_created_at (listed_record version)) cutoff) as [Hle|Hle].
  - apply expire_version_promises; [done| |exact Hrest]. apply Hdue; [by left|done..].
  - by apply (Hrest h (Ok _)).
Qed.

Lemma scan_objects_promises cursor result h (Q : trace lcall → RuleCursor * LifecycleRunResult → Prop) :
  scanning h → (∀ h' r, h `prefix_of` h' → Q h' r) → promises allowed h (scan_objects batch_size rule bucket cursor result) Q.
Proof.
  intros Hs HQ. unfold scan_objects. destruct (l_expiration rule) as [n|] eqn:Hn; [|by apply HQ].
  cbn [bind served lift query perform_call]. split; [done|]. intros page. cbn [bind]. split; [done|]. intros now.
  rewrite <-app_assoc. assert (Hp : ∀ k, h `prefix_of` h ++ k) by (intros k; by apply prefix_app_r).
  apply promises_bind, expire_objects_promises; [by apply (scanning_grows h)| |].
  - intros object Hin Hle. eexists n, _, page, now. split_and!; [done|..].
    3: by apply elem_of_app; right; left. 4: by apply elem_of_app; right; right; left. all: done || lia.
  - intros h' r Hp'. apply HQ. etransitivity; [apply Hp|exact Hp'].
Qed.

Lemma scan_versions_promises cursor result h (Q : trace lcall → Prelude.result LifecycleError (RuleCursor * LifecycleRunResult) → Prop) :
  scanning h → (∀ h' r, h `prefix_of` h' → Q h' r) → promises allowed h (scan_versions policy batch_size rule bucket cursor result) Q.
Proof.
  intros Hs HQ. unfold scan_versions. destruct (l_noncurrent_version_expiration rule) as [n|] eqn:Hn; [|by apply HQ].
  cbn [bind served lift query perform_call]. split; [done|]. assert (Hp : ∀ k, h `prefix_of` h ++ k) by (intros k; by apply prefix_app_r).
  intros [page|e]; [|by apply HQ]. cbn [bind]. split; [done|]. intros now. rewrite <-app_assoc.
  apply promises_trying, expire_versions_promises; [by apply (scanning_grows h)| |].
  - intros version Hin Hl Hle. eexists n, _, page, now. split_and!; [done|..].
    3: by apply elem_of_app; right; left. 5: by apply elem_of_app; right; right; left. all: done || lia.
  - intros h' [r|e] Hp'; apply HQ; (etransitivity; [apply Hp|exact Hp']).
Qed.
End Rule.

Lemma run_rule_promises rule h (Q : trace lcall → result LifecycleError LifecycleRunResult → Prop) :
  listed_rule h rule → (∀ h' r, h `prefix_of` h' → Q h' r) → promises allowed h (run_rule policy batch_size rule) Q.
Proof.
  intros Hrule HQ. unfold run_rule. cbn [bind served lift query perform_call]. split; [done|].
  assert (Hp : ∀ k, h `prefix_of` h ++ k) by (intros k; by apply prefix_app_r). intros [bucket|]; [|by apply HQ].
  cbn [bind trying]. split; [done|]. intros [cursor|e]; rewrite <-app_assoc; [|by apply HQ].
  assert (Hs : scanning rule bucket (h ++ [Answered (Serving (Storing (Ask (get_bucket (l_bucket_id rule))))) (Some bucket);
    Answered (ReadCursor (l_id rule)) (Ok cursor)])).
  { split; [by eapply listed_rule_grows|]. apply elem_of_app. right. by left. }
  cbn [bind]. apply promises_bind, (scan_objects_promises rule bucket); [done|]. intros h1 [cursor1 result1] Hp1.
  apply promises_trying, (scan_versions_promises rule bucket); [by eapply scanning_grows|]. intros h2 r Hp2.
  assert (h `prefix_of` h2) as Hh2 by (do 2 (etransitivity; [|done]); done).
  destruct r as [[cursor2 result2]|e]; [|by apply HQ]. apply promises_trying. split; [done|].
  intros [[]|e]; apply HQ; by apply prefix_app_r.
Qed.

Lemma run_rules_promises rules total h (Q : trace lcall → result LifecycleError LifecycleRunResult → Prop) :
  Forall (listed_rule h) rules → (∀ h' r, Q h' r) → promises allowed h (run_rules policy batch_size rules total) Q.
Proof.
  intros Hrules HQ. revert h total Hrules. induction rules as [|rule rules IH]; intros h total Hrules; cbn [run_rules]; [apply HQ|].
  apply Forall_cons in Hrules as [Hrule Hrules]. apply promises_trying, run_rule_promises; [done|].
  intros h' [r|e] Hp; [|apply HQ]. apply IH. eapply Forall_impl; [exact Hrules|]. intros x Hx. by eapply listed_rule_grows.
Qed.
Lemma run_once_promises h (Q : trace lcall → result LifecycleError LifecycleRunResult → Prop) :
  (∀ h' r, Q h' r) → promises allowed h (run_once policy batch_size) Q.
Proof.
  intros HQ. unfold run_once. cbn [bind served lift query perform_call]. split; [done|]. intros rules. cbn [bind].
  apply run_rules_promises; [|exact HQ]. apply Forall_forall. intros rule [Hen Hin]%list_elem_of_filter.
  exists rules. split_and!; [apply elem_of_app; right; by left|done|done].
Qed.

(** C38: a lifecycle pass acts only on what a listing for an enabled rule returned as past
    its days, and announces every expiry first. Whatever the worker's calls are answered, in any interleaving with
    other requests, every command it commits is the completion of a cleanup or an
    expiry: the rule was listed as enabled, a listing made for the rule in its bucket
    returned the object or the noncurrent version, older than the days of the rule by a
    reading of the clock, the audit log holds the announcement of that very expiry, and
    the command carries no governance bypass. A noncurrent version is deleted by its
    identifier and so is the one listed. A current object is deleted by its key alone:
    it may have been replaced since the listing ([lifecycle_expires_fresh_object]), and
    a listing continued from a saved cursor may return keys outside the prefix of the
    rule ([lifecycle_expires_outside_prefix]). *)
Theorem expiries_are_justified (gated : bool) (t t1 t2 : trace lcall) (done_ : option ())
    (c : MetadataCommand) (r : result MetadataError MetadataOutcome)
    (Hrun : runs (tick policy batch_size gated) t done_) (Ht : t = t1 ++ Answered (Serving (Storing (Commit c))) r :: t2) :
  justified t1 c.
Proof.
  assert (Hp : promises allowed [] (tick policy batch_size gated) (λ _ _, True)).
  { assert (Hpass : ∀ h, promises allowed h (bind (run_once policy batch_size) (λ _, Ret ())) (λ _ _, True))
      by (intros h; by apply promises_bind, run_once_promises).
    destruct gated; [|apply Hpass]. split; [done|]. intros []; [apply Hpass|exact I]. }
  destruct (promises_trace _ _ _ _ _ _ Hp Hrun) as [Hkept _]. exact (Hkept _ _ _ Ht).
Qed.
End Justified.
End LifecycleTheorems.

(** ** Runs of the worker alone *)

Module LifecycleSamples.
Import Reachable Samples Disk StoreRuns LifecycleTheorems.
#[local] Existing Instances ProofBundleSamples.sample_hex sha256_function PayloadSamples.tagging PayloadSamples.sample_md5 sample_uuids
  StoreSamples.sample_records StoreSamples.sample_texts.

(** A machine that serves the worker and nobody else, without faults. *)
Record Machine := { m_world : World; m_cursors : gmap bytes RuleCursor; m_log : list Canonical.AuditEvent; m_clock : Z; m_ids : Z }.
Definition on_world (f : World → World) (m : Machine) : Machine :=
  {| m_world := f (m_world m); m_cursors := m_cursors m; m_log := m_log m; m_clock := m_clock m; m_ids := m_ids m |}.
Definition serve_call {R} (e : scall R) (m : Machine) : R * Machine :=
  match e in scall R return R * Machine with
  | Storing e => let '(r, w, _) := perform 1000 e Works (m_world m) [] in (r, on_world (λ _, w) m)
  | Append event =>
      (Ok (), {| m_world := m_world m; m_cursors := m_cursors m; m_log := m_log m ++ [event]; m_clock := m_clock m; m_ids := m_ids m |})
  | Acquire => (Ok (), m)
  | Now => (m_clock m, m)
  | NewId => (uid (m_ids m), {| m_world := m_world m; m_cursors := m_cursors m; m_log := m_log m; m_clock := m_clock m; m_ids := m_ids m + 1 |})
  | Draw => (StoreSamples.draws (m_ids m), m)
  end.
Definition answer {R} (e : lcall R) (m : Machine) : R * Machine :=
  match e in lcall R return R * Machine with
  | Serving e => serve_call e m
  | ReadCursor id => (Ok (default empty_cursor (m_cursors m !! id)), m)
  | WriteCursor id cursor =>
      (Ok (), {| m_world := m_world m; m_cursors := <[id := cursor]> (m_cursors m); m_log := m_log m; m_clock := m_clock m; m_ids := m_ids m |})
  | GateActive => (true, m)
  end.
Fixpoint work {A} (p : lprog A) (m : Machine) : trace lcall * A * Machine :=
  match p with
  | Ret a => ([], a, m)
  | Vis e k => let '(r, m) := answer e m in let '(t, a, m) := work (k r) m in (Answered e r :: t, a, m)
  end.
Lemma work_runs {A} (p : lprog A) m : let '(t, a, _) := work p m in runs p t (Some a).
Proof.
  revert m. induction p as [a|R e k IH]; intros m; cbn; [constructor|]. destruct (answer e m) as [r m'].
  specialize (IH r m'). destruct (work (k r) m') as [[t a] m'']. by constructor.
Qed.
(** The first [n] calls of a program. *)
Fixpoint work_for {A} (n : nat) (p : lprog A) (m : Machine) : lprog A * Machine :=
  match n, p with
  | S n, Vis e k => let '(r, m) := answer e m in work_for n (k r) m
  | _, _ => (p, m)
  end.

Definition audited : LockPolicy := {| lp_clock_tolerance_seconds := 5; lp_audit := true |}.
Definition pass : lprog (result LifecycleError LifecycleRunResult) := run_once audited 1.
Definition rule_of (prefix : bytes) (current noncurrent : option Z) : LifecycleRule :=
  {| l_id := uid 5; l_bucket_id := uid 1; l_prefix := prefix; l_enabled := true; l_expiration := current;
     l_noncurrent_version_expiration := noncurrent; l_created_at := 0; l_updated_at := 0 |}.
Definition today : Z := days 30.
Definition machine (commands : list MetadataCommand) : Machine :=
  {| m_world := {| w_catalog := run commands empty_catalog; w_disk := empty_disk |}; m_cursors := ∅; m_log := []; m_clock := today; m_ids := 150 |}.
Definition result_of {A} (x : trace lcall * A * Machine) : A := x.1.2.
Definition committing (command : MetadataCommand) : Machine → Machine :=
  on_world (λ w, {| w_catalog := (commit_one command (w_catalog w)).2; w_disk := w_disk w |}).
Definition catalog_of (m : Machine) : Catalog := w_catalog (m_world m).

(** A bucket with one object, past the day of the rule. *)
Definition old_report : ObjectMetadata := sample_object 1 (str "report") 5 1000.
Definition one_object : list MetadataCommand :=
  [CreateBucket (sample_bucket Disabled no_quota None); PutObject old_report None Direct; PutLifecycleRule (rule_of [] (Some 1) None)].
Definition expiry : MetadataCommand := DeleteObject (uid 1) (str "report") {| marker_version_id := uid 151; marker_created_at := today |}.
Definition pass_trace : trace lcall := (work (tick audited 1 false) (machine one_object)).1.1.

Definition outcome : result MetadataError MetadataOutcome :=
  Ok (DeleteObjectOutcome {| delete_marker := None; delete_cleanup := [old_report]; previously_visible := true |}).

Lemma expiries_are_justified_witness :
  result_of (work pass (machine one_object)) = Ok {| scanned := 1; expired := 1; skipped := 0; failures := 0 |} ∧
  justified (take 12 pass_trace) expiry.
Proof.
  split; [vm_compute; reflexivity|].
  pose proof (work_runs (tick audited 1 false) (machine one_object)) as Hrun.
  assert (Ht : pass_trace = take 12 pass_trace ++ Answered (Serving (Storing (Commit expiry))) outcome :: drop 13 pass_trace)
    by (vm_compute; reflexivity).
  unfold pass_trace in *. destruct (work (tick audited 1 false) (machine one_object)) as [[t a] m].
  exact (expiries_are_justified audited 1 false t _ _ _ expiry outcome Hrun Ht).
Defined.

(** Several passes, and the machine after them. *)
Fixpoint passes (n : nat) (m : Machine) : Machine := match n with O => m | S n => passes n (work pass m).2 end.
Definition at_time (now : Z) (m : Machine) : Machine :=
  {| m_world := m_world m; m_cursors := m_cursors m; m_log := m_log m; m_clock := now; m_ids := m_ids m |}.

(** ** A cursor on an expired version *)

(** Four versions of a key; three are noncurrent and old. *)
Definition four_versions : list MetadataCommand :=
  CreateBucket (sample_bucket Enabled no_quota None) ::
  ((λ n, PutObject (sample_object n (str "report") 5 (1000 * n)) None Direct) <$> [1; 2; 3; 4]) ++
  [PutLifecycleRule (rule_of [] None (Some 1))].
Definition wedged : Machine := passes 2 (machine four_versions).

(** the cursor of a rule can name a version that the same pass expired. From then on
    every pass fails with [unknown marker], at any time and without changing
    anything, while two noncurrent versions past their days stay in the catalog. *)
Example lifecycle_wedges (now : Z) :
  result_of (work pass (at_time now wedged)) = Err (LifecycleMetadata (Database "list versions" "unknown marker")) ∧
  (work pass (at_time now wedged)).2 = at_time now wedged ∧
  is_some (get_object_version (uid 1) (str "report") (uid 11) (catalog_of wedged)) = true ∧
  is_some (get_object_version (uid 1) (str "report") (uid 12) (catalog_of wedged)) = true.
Proof. split_and!; vm_compute; reflexivity. Qed.

(** ** A cursor from before the prefix changed *)

Definition directories : list MetadataCommand :=
  CreateBucket (sample_bucket Enabled no_quota None) ::
  PutObject (sample_object 1 (str "a/1") 5 1000) None Direct :: PutObject (sample_object 2 (str "a/2") 5 1000) None Direct ::
  PutObject (sample_object 3 (str "c/1") 5 1000) None Direct :: [PutLifecycleRule (rule_of (str "a/") (Some 365) None)].
Definition narrowed : Machine := committing (PutLifecycleRule (rule_of (str "c/") (Some 1) None)) (passes 1 (machine directories)).

(** a rule that expires nothing yet is changed to another prefix. The next pass resumes
    at the key where the old prefix was left, and expires an object outside the new one. *)
Example lifecycle_expires_outside_prefix :
  list_lifecycle_rules None (catalog_of narrowed) = [rule_of (str "c/") (Some 1) None] ∧
  is_some (get_object (uid 1) (str "a/2") (catalog_of narrowed)) = true ∧
  result_of (work pass narrowed) = Ok {| scanned := 1; expired := 1; skipped := 0; failures := 0 |} ∧
  get_object (uid 1) (str "a/2") (catalog_of (passes 1 narrowed)) = None.
Proof. split_and!; vm_compute; reflexivity. Qed.

(** ** An overwrite during the pass *)

(** The pass has listed the old object and announced its expiry; then the key is
    written again. *)
Definition listing_done : lprog (result LifecycleError LifecycleRunResult) * Machine := work_for 8 pass (machine one_object).
Definition fresh_report : ObjectMetadata := sample_object 2 (str "report") 7 today.
Definition overwritten : Machine := committing (PutObject fresh_report None Direct) listing_done.2.

(** an object written after the listing is expired in place of the one that was
    listed: in a bucket without versions its bytes are gone for good. *)
Example lifecycle_expires_fresh_object :
  get_object (uid 1) (str "report") (catalog_of overwritten) = Some fresh_report ∧ m_clock overwritten = o_modified_at fresh_report ∧
  result_of (work listing_done.1 overwritten) = Ok {| scanned := 1; expired := 1; skipped := 0; failures := 0 |} ∧
  get_object (uid 1) (str "report") (catalog_of (work listing_done.1 overwritten).2) = None ∧
  VERSIONS (catalog_of (work listing_done.1 overwritten).2) = ∅.
Proof. split_and!; vm_compute; reflexivity. Qed.
End LifecycleSamples.
